(* ===== verification/_CoqProject ===== *)
-Q . S2P
Prelude.v
Status.v
Coding.v
Decimal.v
Hash.v
Comparator.v
Result.v
Cursor.v
IteratorWrapper.v
FastRange.v
Bloom.v
FilterPolicy.v
FilterPolicyCorrect.v
BloomSimd.v
SliceTransform.v
FullFilter.v
TableFilter.v
BlockBasedFilter.v
BlockBasedFilterCorrect.v
DynamicBloom.v
DynamicBloomCorrect.v
Random.v
KeySkipList.v
KeySkipListCorrect.v
SkipList.v
SkipListInv.v
SkipListLogic.v
SkipListSearch.v
SkipListInsert.v
SkipListCorrect.v
SkipListThreads.v
Heap.v
MergingIterator.v
MergingCorrect.v
MergeBuilder.v
BaseDelta.v
BaseDeltaCorrect.v
Crc32c.v
XXHash.v
XXHashCorrect.v
Format.v
RawBlock.v
TableFile.v
TwoLevel.v
TwoLevelCorrect.v
BlockBuilder.v
Block.v
BlockLayout.v
BlockIterCorrect.v
BlockCursor.v
BlockBuilderCorrect.v
BlockReadCorrect.v
BlockSeekForGet.v
BlockIterator.v
PreparedHeap.v
CommitCache.v
WritePrepared.v
WritePreparedLists.v
WritePreparedCorrect.v
SubBatch.v
HashMap.v
DeadlockBuffer.v
WaitGraph.v
LockMgr.v
LockMgrCorrect.v
LRUCache.v
LRUTable.v
LRUList.v
LRUCacheCorrect.v
LRUShard.v
LRUInsert.v
LRUCacheSpec.v
ShardedCache.v
LRUSharded.v
StringUtil.v
StringUtilCorrect.v
Filename.v
FilenameCorrect.v
CurrentFile.v
