(* ===== verification/Prelude.v ===== *)
(** * The RocksDB storage engine of the search engine: a verification library

    The repository is a Java search engine (src/*.java) that keeps its indexes
    in RocksDB, whose C++ sources are vendored under src/lib/rocksdb-master.
    The library is about the C++ code. Paths below are relative to that
    directory. Its db/ directory (the DB object, the write batch, internal
    keys) is missing from the tree: what the code takes from it is a parameter
    or a type class with the documented laws, never a definition made up here.

    ** The parts and how they interact

    - _Vocabulary_: Prelude (machine words as integers with explicit
      wrap-around, IEEE doubles, list lemmas, the hint database [rdb]), Status
      (the error values of include/rocksdb/status.h and util/status.cc),
      Coding (util/coding.h and .cc: fixed-width, varint and length-prefixed
      encodings), Decimal, StringUtil (util/string_util.cc), Hash
      (util/hash.cc), FastRange (util/hash.h), Result (the monad of code that
      can fault).
    - _Iterators_. Cursor holds the interface of table/internal_iterator.h as
      a type class, its laws as a second one (an iterator that keeps them is a
      cursor on a sorted list of entries), and the facts about such lists that
      the implementations share, those of turning between forward and reverse
      included. IteratorWrapper (table/iterator_wrapper.h) is how
      two clients reach iterators of any kind that have the interface:
      MergingIterator (table/merging_iterator.cc, iter_heap.h) merges them, with
      Heap (util/heap.h) to find the next one, and TwoLevel
      (table/two_level_iterator.cc) reads the blocks an index names one after
      the other. MergingCorrect, MergeBuilder and TwoLevelCorrect prove that
      they keep the laws when their children do. BlockIterator makes the iterator of a data block an instance, so that
      merged blocks are one cursor.
    - _Data blocks_, the unit of a sorted table. BlockBuilder
      (table/block_based/block_builder.cc, data_block_hash_index.cc,
      data_block_footer.cc) writes a block with Coding and Hash; Block
      (table/block_based/block.cc) opens and iterates it. Both order keys by
      the type class of Comparator (include/rocksdb/comparator.h,
      util/comparator.cc). What ties them is [BlockLayout.layout]: the bytes of
      a block as entries, restart points and tail.
    - _Table files_. Crc32c (util/crc32c.cc) and XXHash (util/xxhash.cc) are the
      checksums; Format (table/format.cc) has block handles, index values and
      the footer; RawBlock stores blocks and fetches them
      (table/block_based/block_based_table_builder.cc, table/block_fetcher.cc)
      on top of these, of Coding, and of type classes for files, compression
      libraries and processor instructions.
    - _Filters_, which say that a key is not there. Bloom (util/bloom_impl.h) sets
      and tests the bits; BloomSimd is its version with AVX2 instructions, which
      are a type class. FilterPolicy (table/block_based/filter_policy.cc) writes
      filters with the metadata that says how to read them, on platforms that
      differ in byte order and cache lines. A table has one of two filter
      blocks, each against a type class of what it asks of the policy: FullFilter
      (full_filter_block.cc, with ranges of keys and SliceTransform,
      util/slice.cc, for their prefixes), which TableFilter joins to
      FilterPolicy, and BlockBasedFilter (block_based_filter_block.cc), a filter
      for each 2 KB. DynamicBloom (util/dynamic_bloom.h) is the filter of
      memtables, which threads share: a step relation on their atomic accesses.
    - _The memtable's skip list_. SkipList (memtable/inlineskiplist.h) has the
      links of all nodes as a memory that threads share, and each function as a
      program (the free monad [prog]) whose steps are its atomic loads, stores
      and compare-and-swaps; [run] lets it run alone, SkipListThreads lets any
      number of calls take turns. Nodes are addresses, whose keys the class
      [Nodes] gives; the order is a Comparator. Random (util/random.h) draws
      the heights. SkipListLogic is the logic its proofs use: [rg], what a
      program does while others do no more than its rely.
    - _The write batch's iterator and list_. BaseDelta (utilities/
      write_batch_with_index/write_batch_with_index.cc) lays the writes of a
      batch over the iterator of the database: the base is any InternalIterator,
      the delta any instance of the type class WBWIIterator. KeySkipList
      (memtable/skiplist.h) is the skip list of any key type that the batch's
      index is kept in, run one operation after the other; the comparator is an
      argument, since what it reads changes between calls.
    - _The block cache_. LRUCache (cache/lru_cache.cc) is one shard: a heap of
      handles joined by pointers, in a monad whose failure is undefined
      behaviour. ShardedCache (cache/sharded_cache.cc) is written against the
      type class CacheShard; LRUSharded makes LRUCacheShard an instance and
      models NewLRUCache.
    - _Pessimistic transactions_. LockMgr (utilities/transactions/
      transaction_lock_mgr.cc) grants and waits for key locks; a wait is
      registered in WaitGraph, whose search for a cycle records what it finds in
      DeadlockBuffer. HashMap (util/hash_map.h) is the map both use.
    - _WritePrepared transactions_. WritePrepared (utilities/transactions/
      write_prepared_txn_db.h and .cc) decides whether a version written before
      its transaction committed belongs to a snapshot. It is built from
      PreparedHeap (the prepared and not yet committed sequence numbers),
      CommitCache (the 64-bit encoding of a commit), and SubBatch, which counts
      the sequence numbers of a batch.
    - _Files_. Filename (file/filename.cc) makes and parses names; CurrentFile
      is the protocol that points CURRENT at a manifest, against the type class
      FileSystem, with the renames of two environments (env/fs_posix.cc,
      env/env_hdfs.cc) over the calls they make.

    ** Conventions

    A [w]-bit unsigned integer is a [Z] with [wrap w] where the C++ conversion
    or operation wraps ([u8] to [u64]); bytes are integers in [0, 256). A
    definition has the name of the function it models, members of a class the
    class's field names; a constructor is [new_X] or has the class's name. A
    mutex is not modelled: an operation that holds it throughout is one step.
    Where threads interleave (WritePrepared, LockMgr's waits), what others did
    is an argument, a sequence of states or a step relation.

    Failure is a value. [Status] is the code's own. [option] and the monads
    [LRUCache.M] and [Result.R] stand for what the language leaves
    undefined and for failed assertions: an access out of bounds, a null or
    freed pointer, a conversion out of range, [assert] in a build where NDEBUG
    is off. A theorem that an operation is [Some], or [Done], says that none of
    these happens.

    ** Fuel

    Loops that are not structural take fuel, and each comes with a proof that
    the fuel passed by the operation is enough; running out is a failure, so a
    theorem that an operation succeeds includes termination.
    - Block: the loops that move over entries get the length of the block plus
      one ([loop_fuel]; an entry takes at least three bytes), BinarySeek 33
      rounds (the interval of restart indexes is below 2^32 and halves).
    - Heap: one round per level, for which the index plus one (upheap) and the
      number of elements plus one (downheap) are enough. SeekForPrevImpl on a
      lawful iterator steps back at most once ([SeekForPrevImpl_spec]).
    - TwoLevel: one round per entry of the index and two more
      ([TwoLevelIndexIterator_refines_cursor]).
    - BloomSimd: a round for every eight probes and one more. FilterPolicy: 32
      shifts of a 32-bit number of lines ([find_log2_spec]); CalculateNumEntry
      counts down. BlockBasedFilter: StartBlock makes as many filters as the
      index of the block ([generate_until_spec]). DynamicBloom: a round for each
      pair of probes; 32 doublings, since for more the code would never end.
    - SkipList: a search gets the number of nodes, the levels and one more, since
      each round goes forward or down; the levels of a splice are at most its
      height; a CAS is tried again at most as often as nodes can have come in
      between ([budget]). concurrent_calls_are_right includes that all are
      enough.
    - BaseDelta: each round of UpdateCurrent but the last skips a deletion, so one
      more than the delta's entries ([loop_spec]). KeySkipList: the same bound for
      searches as SkipList's; SeekForPrev steps back at most once.
    - Crc32c, XXHash: each round of a loop consumes input, whose length is the
      fuel ([Extend_is_crc32c], [streamed_hash_is_hash] include that it is
      enough).
    - LRUCache: list walks get the number of handles in the heap plus one; growth
      of the table 32 doublings (a 32-bit length).
    - Coding: 10 groups for a 64-bit varint, 5 for 32 bits.
    - WaitGraph: the search is bounded by the code's own depth.
    - WritePrepared: the retry loop of IsInSnapshot makes the hundred repeats
      its assertion allows, and needs one when nothing interferes
      ([IsInSnapshot_total]); the compare-and-swap loop two rounds, as the step
      it is part of runs alone.
    - StringUtil, Hash: the length of the input.

    ** What the theorems show

    - BlockReadCorrect, BlockSeekForGet (on BlockLayout, BlockIterCorrect,
      BlockCursor, BlockBuilderCorrect): a block built from sorted entries opens,
      and its iterator is a cursor on them under every sequence of operations;
      a lookup through the hash index finds what Seek finds; the announced
      size is exact; what Reset forgets; two corruption checks that wrap around.
    - Heap: refinement of a priority queue. MergeBuilder: the merging iterator
      of lawful iterators is a cursor on the union of their entries, however it
      is turned; what a seek reports when iterators fail; and what adding an
      iterator that is already at an entry leaves behind. BlockIterator: the
      composition, blocks built, opened, merged and read as one list.
      TwoLevelCorrect: the two-level iterator is a cursor on all the blocks of
      its index, empty ones included.
    - Crc32c: the table and instruction variants equal the CRC bit by bit, for
      every alignment, and a change within 32 neighbouring bits is always seen.
      XXHashCorrect: streaming in any pieces equals the hash of the whole.
      Format: handles, index values and footers come back. RawBlock: the checksum of a stored block passes its check, and what
      the check excludes. TableFile: the composition, blocks and a footer
      written with any options are found and read back from the file.
    - FilterPolicyCorrect, FullFilter, BlockBasedFilterCorrect: what was added to
      a filter is found, from the bits up to the blocks of a table, whoever
      wrote it; the buffered loop is the simple one; where a computed size wraps
      around and the filter denies everything. FullFilter, TableFilter: which
      keys an excluded range cannot hold, and ranges excluded with a key in them. BloomSimd: eight
      probes at a time answer like one. DynamicBloomCorrect: no interleaving
      of concurrent adds loses a hash or blocks a thread, and the words lie
      within their allocation.
    - SkipListThreads (on SkipListInv, the invariant; SkipListSearch, what
      searches and iterators find and what a splice promises; SkipListInsert):
      for every interleaving of insertions and searches, no fault (exhausted
      fuel included), no lost node, sorted levels and true answers. Programs are
      finite trees, so threads end ([threads_end]). SkipListCorrect: alone,
      from the constructor on, a set of keys; and the array that is one entry
      short. Random: the generator stays in its range, and the seed with which
      it does not.
    - KeySkipListCorrect: after any insertions a sorted sequence, the cache of
      the last insertion included. BaseDeltaCorrect: the iterator is a cursor on
      the overlay of the delta on the base, however it is turned; errors surface;
      and where it leaves its upper bound.
    - Comparator: both built-in orders keep the promises the clients use.
    - LRUCacheSpec, LRUSharded (on LRUTable, LRUList,
      LRUCacheCorrect, LRUShard, LRUInsert): every allowed operation is defined
      and keeps the invariant (chains, list, pools, usage); what Insert, Lookup,
      Release and SetCapacity do, eviction order included; and the sharded
      cache hands each handle back to the shard that owns it.
    - LockMgrCorrect: no grant against the holders, what each refusal reports and
      steals, release, the lock count (and how it drifts for shared locks), what
      waiting can end in.
    - WaitGraph, DeadlockBuffer: registered waits have no cycle, a refusal
      comes from one or from the depth limit; the buffer holds the latest paths.
    - WritePreparedCorrect (on WritePreparedLists): a snapshot reads exactly
      what was committed before it, for a reader whose accesses interleave with
      writers; the reader terminates; the lists are exact in every reachable
      state; the commit callback is a run of the system's steps, also when it
      throws.
    - PreparedHeap, HashMap: refinement of a set and of a map. SubBatch: the
      least number of sub-batches. CommitCache, Coding, StringUtilCorrect,
      FilenameCorrect: round trips, and what the decoders accept. CurrentFile:
      only the rename can change CURRENT, to the new name if it succeeds; and the
      environment whose failed rename loses it.

    ** Not modelled

    Code that orchestrates what db/ holds (table readers and builders, DBImpl,
    write batches, compaction, the blob and TTL utilities), I/O and the
    platform layer, threads and timers, statistics, logging and tracing, tools,
    the JNI bindings and third-party code. Of the modelled classes: the
    read-amplification bitmap and pinning (Block), the index block iterator,
    timestamps of comparators, allocators, DisownData and printed options
    (cache), doubles and times in StringUtil, recovery and column family
    handles (WritePreparedTxnDB), the three-way and the PowerPC and ARM variants
    of crc32c, XXH3, the buffered state and the parallel compression of the
    table builder, the estimates of false positive rates and partitioned filters.
    Index blocks hold internal keys, whose format is in db/. The
    clock cache is lock-free. In DynamicBloom and SkipList the accesses of threads
    happen one after the other, which is not all that a weak memory allows;
    loads that only feed a prefetch are left out, and a compare-and-swap does not
    fail for no reason. The other memtables and the reps that wrap them. The index
    of a write batch and GetFromBatch read the records of the batch, whose format
    is in db/; readers that run beside a KeySkipList's writer. *)
From stdpp Require Export prelude gmap list strings.
From Stdlib Require Export ZArith Lia Sorting.Sorted.
From Stdlib Require Import SpecFloat.
#[global] Open Scope Z_scope.

Declare Scope word_scope.
Delimit Scope word_scope with word.

(** ** Machine words

    A [w]-bit unsigned integer is a [Z] in [0, 2^w); every operation that can
    leave the range is followed by [wrap w], as the C++ conversion does. *)
Definition wrap (w z : Z) : Z := z mod 2 ^ w.

Abbreviation u8 := (wrap 8).
Abbreviation u16 := (wrap 16).
Abbreviation u32 := (wrap 32).
Abbreviation u64 := (wrap 64).

(** The value range of a [w]-bit unsigned integer. *)
Definition in_range (w z : Z) : Prop := 0 ≤ z < 2 ^ w.

#[global] Instance in_range_dec w z : Decision (in_range w z).
Proof. unfold in_range. apply _. Defined.

(** A signed 64-bit value stored in [w] bits. *)
Definition to_signed (w z : Z) : Z :=
  let r := wrap w z in if r <? 2 ^ (w - 1) then r else r - 2 ^ w.

Infix ".&" := Z.land (at level 52, left associativity) : word_scope.
Infix ".|" := Z.lor (at level 54, left associativity) : word_scope.
Infix ".^" := Z.lxor (at level 53, left associativity) : word_scope.
Infix "<<" := Z.shiftl (at level 51, left associativity) : word_scope.
Infix ">>" := Z.shiftr (at level 51, left associativity) : word_scope.
#[global] Open Scope word_scope.

Lemma wrap_small w z : in_range w z → wrap w z = z.
Proof. intros H. by apply Z.mod_small. Qed.

Lemma wrap_range w z : 0 ≤ w → in_range w (wrap w z).
Proof. intros ?. apply Z.mod_pos_bound. by apply Z.pow_pos_nonneg. Qed.

Lemma wrap_idemp w z : wrap w (wrap w z) = wrap w z.
Proof. unfold wrap. by rewrite Zmod_mod. Qed.

Lemma wrap_testbit w z i :
  0 ≤ w → 0 ≤ i → Z.testbit (wrap w z) i = bool_decide (i < w) && Z.testbit z i.
Proof.
  intros Hw Hi. unfold wrap. case_bool_decide.
  - by rewrite Z.mod_pow2_bits_low by lia.
  - by rewrite Z.mod_pow2_bits_high by lia.
Qed.

Lemma in_range_testbit w z i :
  in_range w z → 0 ≤ w ≤ i → Z.testbit z i = false.
Proof.
  intros Hz Hi. rewrite <- (wrap_small w z Hz), wrap_testbit by lia.
  by rewrite bool_decide_eq_false_2 by lia.
Qed.

Lemma in_range_bits w z :
  0 ≤ w → 0 ≤ z → (∀ i, w ≤ i → Z.testbit z i = false) → in_range w z.
Proof.
  intros Hw Hz H. destruct (decide (z = 0)) as [->|Hnz].
  { split; [lia|]. by apply Z.pow_pos_nonneg. }
  split; [done|]. apply Z.log2_lt_pow2; [lia|].
  destruct (Z.lt_ge_cases (Z.log2 z) w) as [|Hge]; [done|].
  specialize (H _ Hge). rewrite Z.bit_log2 in H by lia. done.
Qed.

Lemma in_range_mono w w' z : 0 ≤ w ≤ w' → in_range w z → in_range w' z.
Proof.
  intros Hw [H1 H2]. split; [done|].
  eapply Z.lt_le_trans; [exact H2|]. apply Z.pow_le_mono_r; lia.
Qed.

Create HintDb rdb.
#[export] Hint Resolve wrap_range in_range_mono : rdb.

(** [x | y] of two values whose set bits do not overlap is their sum. *)
Lemma lor_disjoint_add x y n :
  0 ≤ n → in_range n x → Z.lor x (Z.shiftl y n) = x + y * 2 ^ n.
Proof.
  intros Hn Hx. rewrite <- Z.shiftl_mul_pow2 by done.
  symmetry. rewrite Z.add_nocarry_lxor; [apply Z.lxor_lor|];
    apply Z.bits_inj'; intros i Hi; rewrite Z.land_spec, Z.bits_0;
    destruct (Z.lt_ge_cases i n);
    [rewrite Z.shiftl_spec_low by lia|rewrite (in_range_testbit n x) by (done || lia)
    |rewrite Z.shiftl_spec_low by lia|rewrite (in_range_testbit n x) by (done || lia)];
    by rewrite ?andb_false_r.
Qed.

(** [z & (2^n - 1)] is [z mod 2^n]; stated for the masks the code writes. *)
Lemma land_mask z n m : 0 ≤ n → m = Z.ones n → Z.land z m = wrap n z.
Proof. intros Hn ->. by apply Z.land_ones. Qed.

(** Splitting a word into its low [n] bits and the rest. *)
Lemma split_low z n : 0 ≤ n → z = wrap n z + Z.shiftr z n * 2 ^ n.
Proof.
  intros Hn. unfold wrap. rewrite Z.shiftr_div_pow2 by done.
  pose proof (Z.div_mod z (2 ^ n)). assert (0 < 2 ^ n) by by apply Z.pow_pos_nonneg.
  lia.
Qed.

Lemma shiftr_range w n z : 0 ≤ n ≤ w → in_range w z → in_range (w - n) (Z.shiftr z n).
Proof.
  intros Hn [H0 H1]. rewrite Z.shiftr_div_pow2 by lia.
  assert (0 < 2 ^ n) by (apply Z.pow_pos_nonneg; lia).
  split; [by apply Z.div_pos|]. apply Z.div_lt_upper_bound; [done|].
  rewrite <- Z.pow_add_r by lia. by replace (n + (w - n)) with w by lia.
Qed.

(** ** Byte strings

    [std::string], [Slice] and character buffers are lists of byte values. A
    pointer into a buffer is the suffix of the buffer that starts there. *)
Abbreviation bytes := (list Z).

Definition is_byte (b : Z) : Prop := in_range 8 b.
Definition bytes_ok (s : bytes) : Prop := Forall is_byte s.

#[global] Instance is_byte_dec b : Decision (is_byte b).
Proof. unfold is_byte. apply _. Defined.
#[global] Instance bytes_ok_dec s : Decision (bytes_ok s).
Proof. unfold bytes_ok. apply _. Defined.

(** [ptr[i]]; the code only reads positions it has checked, the model reads 0
    past the end. *)
Definition byte_at (s : bytes) (i : nat) : Z := default 0 (s !! i).

Definition blen (s : bytes) : Z := Z.of_nat (length s).
Lemma blen_app s t : blen (s ++ t) = blen s + blen t.
Proof. unfold blen. rewrite length_app. lia. Qed.
Lemma blen_nonneg s : 0 ≤ blen s.
Proof. unfold blen. lia. Qed.

Lemma bytes_ok_app s t : bytes_ok (s ++ t) ↔ bytes_ok s ∧ bytes_ok t.
Proof. apply Forall_app. Qed.
Lemma bytes_ok_take n s : bytes_ok s → bytes_ok (take n s).
Proof. apply Forall_take. Qed.
Lemma bytes_ok_drop n s : bytes_ok s → bytes_ok (drop n s).
Proof. apply Forall_drop. Qed.
#[export] Hint Resolve bytes_ok_take bytes_ok_drop : rdb.

(** String literals of the source as byte strings. *)
Definition ascii_byte (a : Ascii.ascii) : Z := Z.of_N (Ascii.N_of_ascii a).
Fixpoint str (s : string) : bytes :=
  match s with
  | EmptyString => []
  | String a s' => ascii_byte a :: str s'
  end.

(** ** Tactics *)

(** Case analysis on the boolean tests of a goal, with the arithmetic facts
    the tests decide in the context. *)
Ltac bool_cases :=
  repeat match goal with
  | |- context [Z.ltb ?a ?b] => destruct (Z.ltb_spec a b)
  | |- context [Z.leb ?a ?b] => destruct (Z.leb_spec a b)
  | |- context [Z.eqb ?a ?b] => destruct (Z.eqb_spec a b)
  | |- context [Nat.ltb ?a ?b] => destruct (Nat.ltb_spec a b)
  | |- context [Nat.leb ?a ?b] => destruct (Nat.leb_spec a b)
  end.

(** The same for the tests in hypotheses. *)
Ltac bool_hyps :=
  repeat match goal with
  | H : Z.ltb _ _ = true |- _ => apply Z.ltb_lt in H
  | H : Z.ltb _ _ = false |- _ => apply Z.ltb_ge in H
  | H : Z.leb _ _ = true |- _ => apply Z.leb_le in H
  | H : Z.leb _ _ = false |- _ => apply Z.leb_gt in H
  | H : Z.eqb _ _ = true |- _ => apply Z.eqb_eq in H
  | H : Z.eqb _ _ = false |- _ => apply Z.eqb_neq in H
  | H : _ && _ = true |- _ => apply andb_true_iff in H as [? ?]
  | H : _ || _ = false |- _ => apply orb_false_iff in H as [? ?]
  end.

(** ** Closure of the bitwise operations *)
Lemma lor_range w x y : 0 ≤ w → in_range w x → in_range w y → in_range w (x .| y).
Proof.
  intros Hw Hx Hy. apply in_range_bits; [done| |].
  - apply Z.lor_nonneg. split; [apply Hx|apply Hy].
  - intros i Hi. rewrite Z.lor_spec.
    by rewrite (in_range_testbit w x), (in_range_testbit w y) by (done || lia).
Qed.
Lemma lxor_range w x y : 0 ≤ w → in_range w x → in_range w y → in_range w (x .^ y).
Proof.
  intros Hw Hx Hy. apply in_range_bits; [done| |].
  - apply Z.lxor_nonneg. split; intros; [apply Hy|apply Hx].
  - intros i Hi. rewrite Z.lxor_spec.
    by rewrite (in_range_testbit w x), (in_range_testbit w y) by (done || lia).
Qed.
#[export] Hint Resolve lor_range lxor_range : rdb.

(** Complementing a [w]-bit word. *)
Lemma lxor_ones w x : 0 ≤ w → in_range w x → x .^ (2 ^ w - 1) = 2 ^ w - 1 - x.
Proof.
  intros Hw Hx. replace (2 ^ w - 1) with (Z.ones w) by (rewrite Z.ones_equiv; lia).
  enough (x + Z.lxor x (Z.ones w) = Z.ones w) by lia.
  rewrite Z.add_nocarry_lxor; apply Z.bits_inj'; intros i Hi.
  - rewrite !Z.lxor_spec. by destruct (Z.testbit x i), (Z.testbit (Z.ones w) i).
  - rewrite Z.land_spec, Z.lxor_spec, Z.bits_0, Z.testbit_ones_nonneg by lia.
    destruct (Z.ltb_spec i w); [by destruct (Z.testbit x i)|].
    by rewrite (in_range_testbit w x) by (done || lia).
Qed.

(** The value range of a signed [w]-bit integer. *)
Definition in_srange (w z : Z) : Prop := - 2 ^ (w - 1) ≤ z < 2 ^ (w - 1).
#[global] Instance in_srange_dec w z : Decision (in_srange w z).
Proof. unfold in_srange. apply _. Defined.

(** ** Removal by moving the last element into the hole *)
Lemma swap_remove_perm {A} (l : list A) i x :
  l !! i = Some x →
  x :: take (length l - 1) (match l !! (length l - 1)%nat with
                            | Some last => <[i := last]> l | None => l end) ≡ₚ l.
Proof.
  destruct l as [|y l _] using rev_ind; [done|]. intros Hi.
  rewrite length_app. simpl. replace (length l + 1 - 1)%nat with (length l) by lia.
  rewrite (lookup_app_r l [y]), Nat.sub_diag by lia. simpl.
  destruct (decide (i < length l)%nat) as [Hlt|Hge].
  - rewrite insert_app_l by done. rewrite <- (length_insert l i y) at 1. rewrite take_app_length.
    rewrite lookup_app_l in Hi by done.
    rewrite <- (take_drop_middle l i x Hi) at 2. rewrite insert_take_drop by done.
    rewrite <- Permutation_cons_append, <- !Permutation_middle. apply Permutation_swap.
  - apply lookup_lt_Some in Hi as Hlen. rewrite length_app in Hlen. simpl in Hlen.
    assert (i = length l) as -> by lia. rewrite lookup_app_r, Nat.sub_diag in Hi by lia.
    injection Hi as ->. rewrite list_insert_id by (by rewrite lookup_app_r, Nat.sub_diag by lia).
    rewrite take_app_length. apply Permutation_cons_append.
Qed.

Lemma elem_of_take_sub {A} n (l : list A) x : x ∈ take n l → x ∈ l.
Proof. intros (i & ? & _)%elem_of_take. by eapply list_elem_of_lookup_2. Qed.

(** Elements of a sorted list are in order. *)
Lemma StronglySorted_lookup {A} (R : A → A → Prop) l i j x y :
  StronglySorted R l → (i < j)%nat → l !! i = Some x → l !! j = Some y → R x y.
Proof.
  intros Hs. revert i j. induction Hs as [|z l Hs IH Hf]; intros i j Hij Hx Hy; [done|].
  destruct j as [|j]; [lia|]. destruct i as [|i]; cbn in *.
  - injection Hx as ->. rewrite Forall_forall in Hf. apply Hf. by eapply list_elem_of_lookup_2.
  - apply (IH i j); [lia|done|done].
Qed.

(** Wrapping early or late. *)
Lemma wrap_add_l w x y : wrap w (wrap w x + y) = wrap w (x + y).
Proof. apply Zplus_mod_idemp_l. Qed.
Lemma wrap_add_r w x y : wrap w (x + wrap w y) = wrap w (x + y).
Proof. apply Zplus_mod_idemp_r. Qed.
Lemma wrap_mul_l w x y : wrap w (wrap w x * y) = wrap w (x * y).
Proof. apply Zmult_mod_idemp_l. Qed.

(** ** IEEE doubles *)
Definition double : Type := spec_float.
Definition double_of (n : Z) : double := binary_normalize 53 1024 n 0 false.
Definition double_add : double → double → double := SFadd 53 1024.
Definition double_mul : double → double → double := SFmul 53 1024.
Definition double_div : double → double → double := SFdiv 53 1024.
Definition double_lt : double → double → bool := SFltb.
Definition double_le : double → double → bool := SFleb.
Definition zero_double : double := S754_zero false.

(** The conversion to a [w]-bit unsigned integer truncates; it is undefined
    where the truncated value does not fit. *)
Definition double_to_uint (w : Z) (d : double) : option Z :=
  match d with
  | S754_zero _ => Some 0
  | S754_finite neg m e =>
      let mag := if 0 <=? e then Z.pos m * 2 ^ e else Z.pos m / 2 ^ (- e) in
      if if neg then mag =? 0 else mag <? 2 ^ w then Some mag else None
  | _ => None
  end.
Lemma double_to_uint_range w d n : 0 ≤ w → double_to_uint w d = Some n → in_range w n.
Proof.
  intros Hw. unfold double_to_uint, in_range. pose proof (Z.pow_pos_nonneg 2 w).
  destruct d as [?|?| |neg m e]; intros [=]; [lia|].
  set (mag := if 0 <=? e then _ else _) in *.
  assert (0 ≤ mag).
  { unfold mag. pose proof (Z.pow_nonneg 2 (- e)). destruct (Z.leb_spec 0 e).
    - pose proof (Z.pow_pos_nonneg 2 e). nia.
    - apply Z.div_pos; [lia|]. apply Z.pow_pos_nonneg; lia. }
  destruct neg; [destruct (Z.eqb_spec mag 0)|destruct (Z.ltb_spec mag (2 ^ w))]; simplify_eq; lia.
Qed.
