(* ===== verification/Status.v ===== *)
(** * Status values (include/rocksdb/status.h, util/status.cc)

    The error type every fallible operation of the engine returns. The message
    buffer [state_] is a byte string without its terminator; [None] is the null
    pointer. *)
From S2P Require Import Prelude.

Inductive Code :=
  | kOk | kNotFound | kCorruption | kNotSupported | kInvalidArgument | kIOError
  | kMergeInProgress | kIncomplete | kShutdownInProgress | kTimedOut | kAborted
  | kBusy | kExpired | kTryAgain | kCompactionTooLarge | kColumnFamilyDropped.

Inductive SubCode :=
  | kNone | kMutexTimeout | kLockTimeout | kLockLimit | kNoSpace | kDeadlock
  | kStaleFile | kMemoryLimit | kSpaceLimit | kPathNotFound
  | KMergeOperandsInsufficientCapacity | kManualCompactionPaused.

Inductive Severity :=
  | kNoError | kSoftError | kHardError | kFatalError | kUnrecoverableError.

#[global] Instance Code_eq_dec : EqDecision Code.
Proof. solve_decision. Defined.
#[global] Instance SubCode_eq_dec : EqDecision SubCode.
Proof. solve_decision. Defined.
#[global] Instance Severity_eq_dec : EqDecision Severity.
Proof. solve_decision. Defined.

Definition code_number (c : Code) : Z :=
  match c with
  | kOk => 0 | kNotFound => 1 | kCorruption => 2 | kNotSupported => 3
  | kInvalidArgument => 4 | kIOError => 5 | kMergeInProgress => 6 | kIncomplete => 7
  | kShutdownInProgress => 8 | kTimedOut => 9 | kAborted => 10 | kBusy => 11
  | kExpired => 12 | kTryAgain => 13 | kCompactionTooLarge => 14
  | kColumnFamilyDropped => 15
  end.

Record Status := mkStatus {
  code_ : Code;
  subcode_ : SubCode;
  sev_ : Severity;
  state_ : option bytes;
}.

#[global] Instance Status_eq_dec : EqDecision Status.
Proof. solve_decision. Defined.

(** The constructors: success, a bare code with a subcode, and a code with a
    message made of one or two slices. *)
Definition OK : Status := mkStatus kOk kNone kNoError None.
Definition StatusCode (c : Code) (sc : SubCode) : Status := mkStatus c sc kNoError None.
Definition StatusMsg (c : Code) (sc : SubCode) (msg msg2 : bytes) : Status :=
  let state := if 0 <? blen msg2 then msg ++ str ": " ++ msg2 else msg in
  mkStatus c sc kNoError (Some state).

Definition NotFound (m : SubCode) : Status := StatusCode kNotFound m.
Definition Corruption (msg : bytes) : Status := StatusMsg kCorruption kNone msg [].
Definition NotSupported (msg : bytes) : Status := StatusMsg kNotSupported kNone msg [].
Definition InvalidArgument (msg : bytes) : Status := StatusMsg kInvalidArgument kNone msg [].
Definition Incomplete (msg : bytes) : Status := StatusMsg kIncomplete kNone msg [].
Definition Aborted (m : SubCode) : Status := StatusCode kAborted m.
Definition Busy (m : SubCode) : Status := StatusCode kBusy m.
Definition TimedOut (m : SubCode) : Status := StatusCode kTimedOut m.
Definition Expired (m : SubCode) : Status := StatusCode kExpired m.
Definition TryAgain (m : SubCode) : Status := StatusCode kTryAgain m.
Definition IOError (m : SubCode) : Status := StatusCode kIOError m.
Definition NoSpace : Status := StatusCode kIOError kNoSpace.
Definition MemoryLimit : Status := StatusCode kAborted kMemoryLimit.
Definition SpaceLimit : Status := StatusCode kIOError kSpaceLimit.
Definition PathNotFound : Status := StatusCode kIOError kPathNotFound.

Definition has_code (c : Code) (s : Status) : bool := bool_decide (code_ s = c).
Definition has_subcode (c : SubCode) (s : Status) : bool := bool_decide (subcode_ s = c).

Definition ok (s : Status) : bool := has_code kOk s.
Definition IsNotFound := has_code kNotFound.
Definition IsCorruption := has_code kCorruption.
Definition IsNotSupported := has_code kNotSupported.
Definition IsInvalidArgument := has_code kInvalidArgument.
Definition IsIOError := has_code kIOError.
Definition IsMergeInProgress := has_code kMergeInProgress.
Definition IsIncomplete := has_code kIncomplete.
Definition IsShutdownInProgress := has_code kShutdownInProgress.
Definition IsTimedOut := has_code kTimedOut.
Definition IsAborted := has_code kAborted.
Definition IsLockLimit (s : Status) : bool := has_code kAborted s && has_subcode kLockLimit s.
Definition IsBusy := has_code kBusy.
Definition IsDeadlock (s : Status) : bool := has_code kBusy s && has_subcode kDeadlock s.
Definition IsExpired := has_code kExpired.
Definition IsTryAgain := has_code kTryAgain.
Definition IsCompactionTooLarge := has_code kCompactionTooLarge.
Definition IsColumnFamilyDropped := has_code kColumnFamilyDropped.
Definition IsNoSpace (s : Status) : bool := has_code kIOError s && has_subcode kNoSpace s.
Definition IsMemoryLimit (s : Status) : bool :=
  has_code kAborted s && has_subcode kMemoryLimit s.
Definition IsPathNotFound (s : Status) : bool :=
  has_code kIOError s && has_subcode kPathNotFound s.
Definition IsManualCompactionPaused (s : Status) : bool :=
  has_code kIncomplete s && has_subcode kManualCompactionPaused s.

(** [operator==] looks at the codes only. *)
Definition Status_eqb (s rhs : Status) : bool := bool_decide (code_ s = code_ rhs).

(** [std::strlen]-bounded copies: a message ends at its first zero byte. *)
Fixpoint c_string (s : bytes) : bytes :=
  match s with
  | [] => []
  | b :: t => if b =? 0 then [] else b :: c_string t
  end.

Definition CopyState (s : bytes) : bytes := c_string s.
Definition Status_copy (s : Status) : Status :=
  mkStatus (code_ s) (subcode_ s) (sev_ s) (CopyState <$> state_ s).
Definition Status_copy_severity (s : Status) (sev : Severity) : Status :=
  mkStatus (code_ s) (subcode_ s) sev (CopyState <$> state_ s).

(** Move assignment from another object: the target takes the source's fields
    and the source becomes OK. The result is (target, source). *)
Definition Status_move (s : Status) : Status * Status :=
  (s, mkStatus kOk kNone kNoError None).

Definition msgs (sc : SubCode) : bytes :=
  match sc with
  | kNone => []
  | kMutexTimeout => str "Timeout Acquiring Mutex"
  | kLockTimeout => str "Timeout waiting to lock key"
  | kLockLimit => str "Failed to acquire lock due to max_num_locks limit"
  | kNoSpace => str "No space left on device"
  | kDeadlock => str "Deadlock"
  | kStaleFile => str "Stale file handle"
  | kMemoryLimit => str "Memory limit reached"
  | kSpaceLimit => str "Space limit reached"
  | kPathNotFound => str "No such file or directory"
  | KMergeOperandsInsufficientCapacity => str "Insufficient capacity for merge operands"
  | kManualCompactionPaused => str "Manual compaction paused"
  end.

(** The prefix [ToString] selects. [kCompactionTooLarge] (14) has no case of
    its own and takes the default. *)
Definition type_string (c : Code) : bytes :=
  match c with
  | kOk => str "OK"
  | kNotFound => str "NotFound: "
  | kCorruption => str "Corruption: "
  | kNotSupported => str "Not implemented: "
  | kInvalidArgument => str "Invalid argument: "
  | kIOError => str "IO error: "
  | kMergeInProgress => str "Merge in progress: "
  | kIncomplete => str "Result incomplete: "
  | kShutdownInProgress => str "Shutdown in progress: "
  | kTimedOut => str "Operation timed out: "
  | kAborted => str "Operation aborted: "
  | kBusy => str "Resource busy: "
  | kExpired => str "Operation expired: "
  | kTryAgain => str "Operation failed. Try again.: "
  | kColumnFamilyDropped => str "Column family dropped: "
  | kCompactionTooLarge => str "Unknown code(14): "
  end.

Definition Status_ToString (s : Status) : bytes :=
  match code_ s with
  | kOk => str "OK"
  | c =>
      let result := type_string c in
      let result :=
        if bool_decide (subcode_ s = kNone) then result else result ++ msgs (subcode_ s) in
      match state_ s with
      | Some st => result ++ c_string st
      | None => result
      end
  end.

(** ** Lemmas *)

Lemma Status_eqb_spec s t : Status_eqb s t = true ↔ code_ s = code_ t.
Proof. unfold Status_eqb. by rewrite bool_decide_eq_true. Qed.

Lemma has_code_spec c s : has_code c s = true ↔ code_ s = c.
Proof. unfold has_code. by rewrite bool_decide_eq_true. Qed.

Lemma ok_spec s : ok s = true ↔ code_ s = kOk.
Proof. apply has_code_spec. Qed.

Lemma c_string_idemp s : c_string (c_string s) = c_string s.
Proof. induction s as [|b s IH]; simpl; [done|]. destruct (b =? 0) eqn:E; [done|].
  simpl. by rewrite E, IH. Qed.

(** [s] and [t] differ at a position both have. *)
Fixpoint clash (s t : bytes) : bool :=
  match s, t with
  | x :: s', y :: t' => negb (x =? y) || clash s' t'
  | _, _ => false
  end.

Lemma clash_app s t u v : clash s t = true → s ++ u ≠ t ++ v.
Proof.
  revert t. induction s as [|x s IH]; intros [|y t]; simpl; try done.
  intros Hc Heq. injection Heq as -> Heq. rewrite Z.eqb_refl in Hc. exact (IH _ Hc Heq).
Qed.

Lemma Status_ToString_prefix s :
  ∃ rest, Status_ToString s = type_string (code_ s) ++ rest.
Proof.
  exists (if bool_decide (code_ s = kOk) then [] else
            (if bool_decide (subcode_ s = kNone) then [] else msgs (subcode_ s)) ++
            from_option c_string [] (state_ s)).
  unfold Status_ToString. destruct (code_ s) eqn:E; cbn [bool_decide];
    destruct (bool_decide (subcode_ s = kNone)), (state_ s); cbn [from_option];
    rewrite ?app_nil_r, <- ?app_assoc; reflexivity.
Qed.

(** The printed form of a status determines its code: two statuses with the
    same text are equal for [operator==], whatever their subcodes and messages,
    and copying a status changes neither its code nor its text. *)
Theorem Status_ToString_determines_code s t :
  (Status_ToString s = Status_ToString t → Status_eqb s t = true) ∧
  Status_ToString (Status_copy s) = Status_ToString s ∧
  Status_eqb (Status_copy s) s = true.
Proof.
  split_and!.
  - intros Heq. apply Status_eqb_spec.
    destruct (Status_ToString_prefix s) as [u Hu], (Status_ToString_prefix t) as [v Hv].
    rewrite Hu, Hv in Heq.
    destruct (code_ s), (code_ t); try reflexivity; exfalso; revert Heq;
      apply clash_app; vm_compute; reflexivity.
  - unfold Status_ToString, Status_copy, CopyState. simpl.
    destruct (state_ s); simpl; by rewrite ?c_string_idemp.
  - by apply Status_eqb_spec.
Qed.

Example Status_ToString_determines_code_witness :
  let s := Busy kDeadlock in
  let t := StatusMsg kBusy kNone (str "Deadlock") [] in
  Status_ToString s = Status_ToString t ∧ s ≠ t ∧ Status_eqb s t = true.
Proof.
  intros s t. assert (Status_ToString s = Status_ToString t) as H by reflexivity.
  split; [exact H|]. split; [discriminate|].
  exact (proj1 (Status_ToString_determines_code s t) H).
Defined.
