(* ===== verification/Coding.v ===== *)
(** * Integer and slice encodings (util/coding.h, util/coding.cc)

    Fixed-width little-endian integers, varints, zig-zag signed varints and
    length-prefixed slices. The [Put] routines append to a string, the [Get]
    routines consume a prefix of a slice; a failed [Get] returns [None] and
    leaves the caller's slice as it was. *)
From S2P Require Import Prelude.

(** The host byte order, a compile-time constant of the port layer. *)
Class Host := { kLittleEndian : bool }.

(** ** The memory representation of an [n]-byte unsigned integer *)
Fixpoint le_bytes (n : nat) (v : Z) : bytes :=
  match n with
  | O => []
  | S n' => u8 v :: le_bytes n' (v >> 8)
  end.

Fixpoint le_value (s : bytes) : Z :=
  match s with
  | [] => 0
  | b :: t => b .| (le_value t << 8)
  end.

Section coding.
Context `{Host}.

(** What [memcpy] from, respectively to, an integer object copies. *)
Definition object_bytes (n : nat) (v : Z) : bytes :=
  if kLittleEndian then le_bytes n v else rev (le_bytes n v).
Definition object_value (n : nat) (p : bytes) : Z :=
  if kLittleEndian then le_value (take n p) else le_value (rev (take n p)).

(** ** Fixed-width integers *)

Definition EncodeFixed16 (value : Z) : bytes :=
  if kLittleEndian then object_bytes 2 value
  else [value .& 255; (value >> 8) .& 255].

Definition EncodeFixed32 (value : Z) : bytes :=
  if kLittleEndian then object_bytes 4 value
  else [value .& 255; (value >> 8) .& 255; (value >> 16) .& 255;
        (value >> 24) .& 255].

Definition EncodeFixed64 (value : Z) : bytes :=
  if kLittleEndian then object_bytes 8 value
  else [value .& 255; (value >> 8) .& 255; (value >> 16) .& 255;
        (value >> 24) .& 255; (value >> 32) .& 255; (value >> 40) .& 255;
        (value >> 48) .& 255; (value >> 56) .& 255].

Definition DecodeFixed16 (ptr : bytes) : Z :=
  if kLittleEndian then object_value 2 ptr
  else byte_at ptr 0 .| (byte_at ptr 1 << 8).

Definition DecodeFixed32 (ptr : bytes) : Z :=
  if kLittleEndian then object_value 4 ptr
  else byte_at ptr 0 .| (byte_at ptr 1 << 8) .| (byte_at ptr 2 << 16)
       .| (byte_at ptr 3 << 24).

Definition DecodeFixed64 (ptr : bytes) : Z :=
  if kLittleEndian then object_value 8 ptr
  else let lo := DecodeFixed32 ptr in
       let hi := DecodeFixed32 (drop 4 ptr) in
       u64 (hi << 32) .| lo.

Definition PutFixed16 (dst : bytes) (value : Z) : bytes :=
  if kLittleEndian then dst ++ object_bytes 2 value else dst ++ EncodeFixed16 value.
Definition PutFixed32 (dst : bytes) (value : Z) : bytes :=
  if kLittleEndian then dst ++ object_bytes 4 value else dst ++ EncodeFixed32 value.
Definition PutFixed64 (dst : bytes) (value : Z) : bytes :=
  if kLittleEndian then dst ++ object_bytes 8 value else dst ++ EncodeFixed64 value.

Definition GetFixed64 (input : bytes) : option (Z * bytes) :=
  if blen input <? 8 then None else Some (DecodeFixed64 input, drop 8 input).
Definition GetFixed32 (input : bytes) : option (Z * bytes) :=
  if blen input <? 4 then None else Some (DecodeFixed32 input, drop 4 input).
Definition GetFixed16 (input : bytes) : option (Z * bytes) :=
  if blen input <? 2 then None else Some (DecodeFixed16 input, drop 2 input).

(** Interpret the first [size] bytes of the representation of [input] in
    big-endian order. *)
Definition EndianTransform (input : Z) (size : nat) : Z :=
  let pos := object_bytes 8 input in
  foldl (λ ret_val i,
           ret_val .| u64 (byte_at pos i << (Z.of_nat (size - i - 1) << 3)))
        0 (seq 0 size).

(** ** Varints *)

Definition kMaxVarint64Length : nat := 10.

Definition EncodeVarint32 (v : Z) : bytes :=
  let B := 128 in
  if v <? 1 << 7 then [u8 v]
  else if v <? 1 << 14 then [u8 (v .| B); u8 (v >> 7)]
  else if v <? 1 << 21 then [u8 (v .| B); u8 ((v >> 7) .| B); u8 (v >> 14)]
  else if v <? 1 << 28 then
    [u8 (v .| B); u8 ((v >> 7) .| B); u8 ((v >> 14) .| B); u8 (v >> 21)]
  else
    [u8 (v .| B); u8 ((v >> 7) .| B); u8 ((v >> 14) .| B); u8 ((v >> 21) .| B);
     u8 (v >> 28)].

(** The [while (v >= B)] loop; [fuel] is the size of the buffer every caller
    passes, which bounds the bytes it can write. *)
Fixpoint EncodeVarint64_loop (fuel : nat) (v : Z) : bytes :=
  match fuel with
  | O => []
  | S fuel' =>
      if 128 <=? v then u8 ((v .& 127) .| 128) :: EncodeVarint64_loop fuel' (v >> 7)
      else [u8 v]
  end.

Definition EncodeVarint64 (v : Z) : bytes := EncodeVarint64_loop kMaxVarint64Length v.

(** The decoding loop shared by the 32- and the 64-bit reader: [w] is the width
    of [result], [max_shift] the last shift the loop admits. *)
Fixpoint GetVarintPtr_loop (w max_shift : Z) (p : bytes) (shift result : Z)
  : option (Z * bytes) :=
  match p with
  | byte :: p' =>
      if shift <=? max_shift then
        if byte .& 128 =? 0
        then Some (result .| wrap w (byte << shift), p')
        else GetVarintPtr_loop w max_shift p' (shift + 7)
               (result .| wrap w ((byte .& 127) << shift))
      else None
  | [] => None
  end.

Definition GetVarint32PtrFallback (p : bytes) : option (Z * bytes) :=
  GetVarintPtr_loop 32 28 p 0 0.

Definition GetVarint32Ptr (p : bytes) : option (Z * bytes) :=
  match p with
  | result :: p' =>
      if result .& 128 =? 0 then Some (result, p') else GetVarint32PtrFallback p
  | [] => GetVarint32PtrFallback p
  end.

Definition GetVarint64Ptr (p : bytes) : option (Z * bytes) :=
  GetVarintPtr_loop 64 63 p 0 0.

Definition PutVarint32 (dst : bytes) (v : Z) : bytes := dst ++ EncodeVarint32 v.
Definition PutVarint32Varint32 (dst : bytes) (v1 v2 : Z) : bytes :=
  dst ++ EncodeVarint32 v1 ++ EncodeVarint32 v2.
Definition PutVarint32Varint32Varint32 (dst : bytes) (v1 v2 v3 : Z) : bytes :=
  dst ++ EncodeVarint32 v1 ++ EncodeVarint32 v2 ++ EncodeVarint32 v3.
Definition PutVarint64 (dst : bytes) (v : Z) : bytes := dst ++ EncodeVarint64 v.
Definition PutVarint64Varint64 (dst : bytes) (v1 v2 : Z) : bytes :=
  dst ++ EncodeVarint64 v1 ++ EncodeVarint64 v2.
Definition PutVarint32Varint64 (dst : bytes) (v1 v2 : Z) : bytes :=
  dst ++ EncodeVarint32 v1 ++ EncodeVarint64 v2.
Definition PutVarint32Varint32Varint64 (dst : bytes) (v1 v2 v3 : Z) : bytes :=
  dst ++ EncodeVarint32 v1 ++ EncodeVarint32 v2 ++ EncodeVarint64 v3.

Definition GetVarint32 (input : bytes) : option (Z * bytes) := GetVarint32Ptr input.
Definition GetVarint64 (input : bytes) : option (Z * bytes) := GetVarint64Ptr input.

(** [while (v >= 128) { v >>= 7; len++; }] *)
Fixpoint VarintLength_loop (fuel : nat) (v len : Z) : Z :=
  match fuel with
  | O => len
  | S fuel' => if 128 <=? v then VarintLength_loop fuel' (v >> 7) (len + 1) else len
  end.
Definition VarintLength (v : Z) : Z := VarintLength_loop kMaxVarint64Length v 1.

(** ** Signed varints *)

Definition i64ToZigzag (l : Z) : Z := u64 (u64 l << 1) .^ u64 (l >> 63).
Definition zigzagToI64 (n : Z) : Z := to_signed 64 ((n >> 1) .^ u64 (- (n .& 1))).

Definition PutVarsignedint64 (dst : bytes) (v : Z) : bytes :=
  dst ++ EncodeVarint64 (i64ToZigzag v).
Definition GetVarsignedint64Ptr (p : bytes) : option (Z * bytes) :=
  '(u, ret) ← GetVarint64Ptr p; Some (zigzagToI64 u, ret).
Definition GetVarsignedint64 (input : bytes) : option (Z * bytes) :=
  GetVarsignedint64Ptr input.

(** ** Length-prefixed slices *)

Definition PutLengthPrefixedSlice (dst value : bytes) : bytes :=
  PutVarint32 dst (u32 (blen value)) ++ value.

Definition PutLengthPrefixedSliceParts_total (dst : bytes) (total_bytes : Z)
    (parts : list bytes) : bytes :=
  let total_bytes := foldl (λ t p, u64 (t + blen p)) total_bytes parts in
  foldl (λ d p, d ++ p) (PutVarint32 dst (u32 total_bytes)) parts.
Definition PutLengthPrefixedSliceParts (dst : bytes) (parts : list bytes) : bytes :=
  PutLengthPrefixedSliceParts_total dst 0 parts.
Definition PutLengthPrefixedSlicePartsWithPadding (dst : bytes)
    (parts : list bytes) (pad_sz : nat) : bytes :=
  PutLengthPrefixedSliceParts_total dst (Z.of_nat pad_sz) parts ++ replicate pad_sz 0.

(** The result and the rest of the input. On failure the length may already
    have been consumed; no caller reads the input then. *)
Definition GetLengthPrefixedSlice (input : bytes) : option (bytes * bytes) :=
  '(len, input') ← GetVarint32 input;
  if len <=? blen input'
  then Some (take (Z.to_nat len) input', drop (Z.to_nat len) input')
  else None.

(** The text before the first delimiter and what follows the delimiter. *)
Fixpoint GetSliceUntil (slice : bytes) (delimiter : Z) : bytes * bytes :=
  match slice with
  | [] => ([], [])
  | c :: rest =>
      if c =? delimiter then ([], rest)
      else let '(ret, rest') := GetSliceUntil rest delimiter in (c :: ret, rest')
  end.

End coding.

(** ** Representation lemmas *)

Lemma length_le_bytes n v : length (le_bytes n v) = n.
Proof. revert v; induction n; intros; simpl; auto. Qed.

Lemma le_bytes_ok n v : bytes_ok (le_bytes n v).
Proof.
  revert v; induction n as [|n IH]; intros v; simpl; constructor; [|apply IH].
  by apply wrap_range.
Qed.

Lemma le_value_le_bytes n v :
  in_range (8 * Z.of_nat n) v → le_value (le_bytes n v) = v.
Proof.
  revert v; induction n as [|n IH]; intros v Hv; simpl.
  { unfold in_range in Hv. change (2 ^ (8 * Z.of_nat 0)) with 1 in Hv. lia. }
  rewrite IH.
  - rewrite lor_disjoint_add by (lia || by apply wrap_range).
    symmetry. apply split_low. lia.
  - replace (8 * Z.of_nat n) with (8 * Z.of_nat (S n) - 8) by lia.
    apply shiftr_range; [lia|done].
Qed.

Lemma le_value_range s : bytes_ok s → in_range (8 * blen s) (le_value s).
Proof.
  unfold blen. induction s as [|b s IH]; intros Hs; simpl.
  { by split. }
  inversion Hs as [|? ? Hb Hs']; subst. specialize (IH Hs').
  rewrite lor_disjoint_add by (lia || done). unfold is_byte, in_range in *.
  replace (8 * Z.of_nat (S (length s))) with (8 * Z.of_nat (length s) + 8) by lia.
  rewrite Z.pow_add_r by lia. nia.
Qed.

Lemma length_object_bytes `{Host} n v : length (object_bytes n v) = n.
Proof.
  unfold object_bytes. destruct kLittleEndian; rewrite ?length_rev; apply length_le_bytes.
Qed.

Lemma object_value_bytes `{Host} n v rest :
  in_range (8 * Z.of_nat n) v → object_value n (object_bytes n v ++ rest) = v.
Proof.
  intros Hv. unfold object_value.
  rewrite take_app_length' by (by rewrite length_object_bytes).
  unfold object_bytes. destruct kLittleEndian; rewrite ?rev_involutive;
    by apply le_value_le_bytes.
Qed.

Lemma land_255 z : z .& 255 = u8 z.
Proof. by apply (land_mask z 8). Qed.

Lemma shiftr_shiftr8 z a b : 0 ≤ a → 0 ≤ b → z >> a >> b = z >> (a + b).
Proof. intros. by apply Z.shiftr_shiftr. Qed.

(** The encoders write the little-endian bytes of the value on every host. *)
Lemma EncodeFixed16_le `{Host} v : EncodeFixed16 v = le_bytes 2 v.
Proof.
  unfold EncodeFixed16, object_bytes. destruct kLittleEndian; [done|].
  by rewrite !land_255.
Qed.
Lemma EncodeFixed32_le `{Host} v : EncodeFixed32 v = le_bytes 4 v.
Proof.
  unfold EncodeFixed32, object_bytes. destruct kLittleEndian; [done|].
  rewrite !land_255. simpl. by rewrite !shiftr_shiftr8.
Qed.
Lemma EncodeFixed64_le `{Host} v : EncodeFixed64 v = le_bytes 8 v.
Proof.
  unfold EncodeFixed64, object_bytes. destruct kLittleEndian; [done|].
  rewrite !land_255. simpl. by rewrite !shiftr_shiftr8.
Qed.

Lemma byte_at_app_l s t i : (i < length s)%nat → byte_at (s ++ t) i = byte_at s i.
Proof. intros. unfold byte_at. by rewrite lookup_app_l. Qed.

Lemma DecodeFixed16_le `{Host} a b rest :
  DecodeFixed16 (a :: b :: rest) = le_value [a; b].
Proof.
  unfold DecodeFixed16, object_value. destruct kLittleEndian; [done|].
  unfold byte_at. simpl. by rewrite Z.shiftl_0_l, Z.lor_0_r.
Qed.

Lemma DecodeFixed32_le `{Host} a b c d rest :
  DecodeFixed32 (a :: b :: c :: d :: rest) = le_value [a; b; c; d].
Proof.
  unfold DecodeFixed32, object_value. destruct kLittleEndian; [done|].
  unfold byte_at. simpl. rewrite Z.shiftl_0_l, Z.lor_0_r.
  rewrite !Z.shiftl_lor, !Z.shiftl_shiftl, !Z.lor_assoc by lia. done.
Qed.

Lemma le_value_app s t :
  le_value (s ++ t) = le_value s .| (le_value t << 8 * blen s).
Proof.
  unfold blen. induction s as [|b s IH]; simpl.
  { change (8 * Z.of_nat 0) with 0. by rewrite Z.shiftl_0_r. }
  rewrite IH, Z.shiftl_lor, Z.shiftl_shiftl, Z.lor_assoc by lia.
  do 2 f_equal. lia.
Qed.

Lemma DecodeFixed64_le `{Host} s rest :
  length s = 8%nat → bytes_ok s → DecodeFixed64 (s ++ rest) = le_value s.
Proof.
  intros Hl Hok. unfold DecodeFixed64, object_value.
  do 8 (destruct s as [|? s]; [done|]). destruct s; [|done]. clear Hl.
  destruct kLittleEndian; [done|]. simpl app. simpl drop.
  rewrite !DecodeFixed32_le, wrap_small.
  - change [z; z0; z1; z2; z3; z4; z5; z6] with ([z; z0; z1; z2] ++ [z3; z4; z5; z6]).
    by rewrite le_value_app, Z.lor_comm.
  - assert (in_range 32 (le_value [z3; z4; z5; z6])) as [? ?].
    { apply (le_value_range [z3; z4; z5; z6]). by apply (bytes_ok_drop 4) in Hok. }
    rewrite Z.shiftl_mul_pow2 by lia. unfold in_range in *. lia.
Qed.

(** ** Varint lemmas *)

Lemma low7_range v : in_range 7 (v .& 127).
Proof. rewrite (land_mask v 7) by done. by apply wrap_range. Qed.

Lemma lor_128 x : in_range 7 x → x .| 128 = x + 128.
Proof. intros Hx. exact (lor_disjoint_add x 1 7 ltac:(lia) Hx). Qed.

Lemma cont_byte v : u8 ((v .& 127) .| 128) = (v .& 127) + 128.
Proof.
  pose proof (low7_range v) as Hr. rewrite lor_128 by done.
  apply wrap_small. unfold in_range in *. lia.
Qed.

(** The two shapes of a varint byte, as the reader sees them. *)
Lemma cont_byte_flag x : in_range 7 x → (x + 128) .& 128 ≠ 0 ∧ (x + 128) .& 127 = x.
Proof.
  intros Hx. rewrite <- lor_128 by done. split.
  - intros H. apply (f_equal (λ z, Z.testbit z 7)) in H.
    rewrite Z.land_spec, Z.lor_spec, Z.bits_0 in H. by rewrite orb_true_r in H.
  - apply Z.bits_inj'. intros i Hi. change 127 with (Z.ones 7).
    rewrite Z.land_spec, Z.lor_spec, Z.testbit_ones_nonneg by lia.
    change 128 with (2 ^ 7). rewrite Z.pow2_bits_eqb by lia.
    bool_cases; rewrite ?andb_false_r, ?andb_true_r, ?orb_false_r; try lia; try done;
      symmetry; (apply (in_range_testbit 7); [done|lia]).
Qed.

Lemma last_byte_flag x : in_range 7 x → x .& 128 = 0.
Proof.
  intros Hx. apply Z.bits_inj'. intros i Hi. rewrite Z.land_spec, Z.bits_0.
  change 128 with (2 ^ 7). rewrite Z.pow2_bits_eqb by lia.
  destruct (Z.eqb_spec 7 i) as [<-|]; [|by rewrite andb_false_r].
  by rewrite (in_range_testbit 7 x) by (done || lia).
Qed.

(** One step of accumulation: the next group lands above the bits read so far. *)
Lemma group_accumulate w shift result v :
  0 ≤ shift → in_range shift result → in_range w (v << shift) → 0 ≤ v →
  result .| wrap w (v << shift) = result + v * 2 ^ shift.
Proof.
  intros Hs Hr Hv H0. rewrite wrap_small by done. by apply lor_disjoint_add.
Qed.

Lemma shl_range w shift v :
  0 ≤ shift ≤ w → in_range (w - shift) v → in_range w (v << shift).
Proof.
  intros Hs [H0 H1]. rewrite Z.shiftl_mul_pow2 by lia.
  replace w with (w - shift + shift) by lia. unfold in_range.
  rewrite Z.pow_add_r by lia. assert (0 < 2 ^ shift) by (apply Z.pow_pos_nonneg; lia). nia.
Qed.

(** The reader inverts the writer's loop from any intermediate state. *)
Lemma varint_loop_roundtrip w max k fuel v shift result rest :
  max = 7 * (w / 7) → 0 < w → shift = 7 * k → 0 ≤ k → shift < w →
  in_range (w - shift) v → in_range (7 * Z.of_nat fuel) v → (0 < fuel)%nat →
  in_range shift result →
  GetVarintPtr_loop w max (EncodeVarint64_loop fuel v ++ rest) shift result
  = Some (result + v * 2 ^ shift, rest).
Proof.
  intros Hmax Hw. revert k v shift result.
  induction fuel as [|fuel IH]; intros k v shift result Hk Hk0 Hsw Hv Hf Hfl Hr; [lia|].
  assert (0 < 2 ^ shift) by (apply Z.pow_pos_nonneg; lia).
  assert (w = 7 * (w / 7) + w mod 7 ∧ 0 ≤ w mod 7 < 7) as [Hdiv ?].
  { pose proof (Z.div_mod w 7). pose proof (Z.mod_pos_bound w 7). lia. }
  simpl EncodeVarint64_loop. destruct (Z.leb_spec 128 v) as [Hge|Hlt].
  - assert (7 < w - shift) as Hgap.
    { destruct (Z.lt_ge_cases 7 (w - shift)); [done|].
      destruct Hv as [_ Hv]. assert (2 ^ (w - shift) ≤ 2 ^ 7) by (apply Z.pow_le_mono_r; lia).
      lia. }
    rewrite cont_byte. simpl app. simpl GetVarintPtr_loop.
    destruct (Z.leb_spec shift max); [|lia].
    destruct (cont_byte_flag (v .& 127) (low7_range v)) as [Hflag ->].
    destruct (Z.eqb_spec (((v .& 127) + 128) .& 128) 0); [done|].
    pose proof (low7_range v) as Hlow.
    rewrite group_accumulate.
    2-4: try done; try lia. 2: { apply shl_range; [lia|].
      eapply in_range_mono; [|exact Hlow]. lia. } 2: apply Hlow.
    rewrite (IH (k + 1) (v >> 7)); try lia.
    + pose proof (split_low v 7 ltac:(lia)) as Hsp.
      rewrite <- (land_mask v 7 127) in Hsp by done.
      set (a := v .& 127) in *. set (b := v >> 7) in *. clearbody a b.
      rewrite Hsp, Z.pow_add_r by lia. do 2 f_equal. ring.
    + replace (w - (shift + 7)) with (w - shift - 7) by lia. apply shiftr_range; [lia|done].
    + replace (7 * Z.of_nat fuel) with (7 * Z.of_nat (S fuel) - 7) by lia.
      apply shiftr_range; [lia|done].
    + destruct fuel; [|lia]. destruct Hf as [_ Hf]. simpl in Hf. lia.
    + unfold in_range in *. rewrite Z.pow_add_r by lia. simpl (2 ^ 7) in *. nia.
  - assert (in_range 7 v) as Hv7 by (destruct Hv; split; simpl; lia).
    rewrite wrap_small by (eapply in_range_mono; [|exact Hv7]; lia).
    simpl. destruct (Z.leb_spec shift max); [|lia].
    rewrite last_byte_flag by done. simpl.
    rewrite group_accumulate; [done|lia|done| |apply Hv].
    apply shl_range; [lia|done].
Qed.

Lemma cont_byte_write v : u8 (v .| 128) = u8 ((v .& 127) .| 128).
Proof.
  apply Z.bits_inj'. intros i Hi. rewrite !wrap_testbit by lia.
  rewrite !Z.lor_spec, Z.land_spec. change 127 with (Z.ones 7). change 128 with (2 ^ 7).
  rewrite Z.testbit_ones_nonneg, Z.pow2_bits_eqb by lia.
  case_bool_decide; [|done]. cbn [andb].
  bool_cases; rewrite ?andb_true_r, ?andb_false_r, ?orb_true_r, ?orb_false_r; try lia; try done.
Qed.

Lemma shiftr_ge v n m : 0 ≤ n → m * 2 ^ n ≤ v → m ≤ v >> n.
Proof.
  intros Hn Hv. rewrite Z.shiftr_div_pow2 by done.
  apply Z.div_le_lower_bound; [by apply Z.pow_pos_nonneg|lia].
Qed.
Lemma shiftr_lt v n m : 0 ≤ n → v < m * 2 ^ n → v >> n < m.
Proof.
  intros Hn Hv. rewrite Z.shiftr_div_pow2 by done.
  apply Z.div_lt_upper_bound; [by apply Z.pow_pos_nonneg|lia].
Qed.

Lemma EncodeVarint64_loop_more f v :
  128 ≤ v → EncodeVarint64_loop (S f) v = u8 (v .| 128) :: EncodeVarint64_loop f (v >> 7).
Proof. intros. cbn [EncodeVarint64_loop]. bool_cases; [|lia]. by rewrite (cont_byte_write v). Qed.
Lemma EncodeVarint64_loop_last f v :
  v < 128 → EncodeVarint64_loop (S f) v = [u8 v].
Proof. intros. cbn [EncodeVarint64_loop]. bool_cases; [lia|done]. Qed.

(** The unrolled 32-bit writer is the 64-bit loop on 32-bit values. *)
Lemma EncodeVarint32_loop v :
  in_range 32 v → EncodeVarint32 v = EncodeVarint64 v.
Proof.
  intros [H0 H1]. unfold EncodeVarint32, EncodeVarint64, kMaxVarint64Length.
  change (1 << 7) with 128. change (1 << 14) with (128 * 2 ^ 7).
  change (1 << 21) with (128 * 2 ^ 14). change (1 << 28) with (128 * 2 ^ 21).
  simpl (_ * _) in *.
  bool_cases; try lia;
    repeat (rewrite EncodeVarint64_loop_more
      by first [lia|rewrite ?Z.shiftr_shiftr by lia; apply shiftr_ge; lia];
      rewrite ?Z.shiftr_shiftr by lia; simpl (_ + _));
    rewrite EncodeVarint64_loop_last by first [lia|apply shiftr_lt; lia]; done.
Qed.

Lemma VarintLength_loop_length f v len :
  in_range (7 * Z.of_nat f) v → (0 < f)%nat →
  VarintLength_loop f v len = len - 1 + blen (EncodeVarint64_loop f v).
Proof.
  unfold blen. revert v len. induction f as [|f IH]; intros v len Hv Hf; [lia|].
  simpl. bool_cases; simpl; [|lia].
  assert (0 < f)%nat.
  { destruct f; [|lia]. unfold in_range in Hv. simpl in Hv. lia. }
  rewrite IH; [lia| |done].
  replace (7 * Z.of_nat f) with (7 * Z.of_nat (S f) - 7) by lia.
  apply shiftr_range; [lia|done].
Qed.

Lemma GetVarint32_fallback p :
  bytes_ok p → GetVarint32Ptr p = GetVarint32PtrFallback p.
Proof.
  intros Hp. destruct p as [|b p]; [done|]. inversion Hp as [|? ? Hb]; subst.
  unfold GetVarint32Ptr, GetVarint32PtrFallback. simpl.
  destruct (b .& 128 =? 0); [|done].
  by rewrite Z.shiftl_0_r, wrap_small by (eapply in_range_mono; [|exact Hb]; lia).
Qed.

Lemma EncodeVarint64_loop_ok f v : bytes_ok (EncodeVarint64_loop f v).
Proof.
  revert v. induction f as [|f IH]; intros v; simpl; [constructor|].
  destruct (128 <=? v); (constructor; [by apply wrap_range|]); [apply IH|constructor].
Qed.

Lemma EncodeVarint32_ok v : bytes_ok (EncodeVarint32 v).
Proof.
  unfold EncodeVarint32, bytes_ok.
  repeat case_match; repeat (constructor; [by apply wrap_range|]); constructor.
Qed.

Lemma GetVarint32_fast_encoded v rest :
  GetVarint32Ptr (EncodeVarint32 v ++ rest) = GetVarint32PtrFallback (EncodeVarint32 v ++ rest).
Proof.
  pose proof (EncodeVarint32_ok v) as Hok.
  destruct (EncodeVarint32 v) as [|b l] eqn:E.
  { unfold EncodeVarint32 in E. by repeat case_match. }
  inversion Hok as [|? ? Hb]; subst. unfold GetVarint32Ptr, GetVarint32PtrFallback. simpl.
  destruct (b .& 128 =? 0); [|done].
  by rewrite Z.shiftl_0_r, wrap_small by (eapply in_range_mono; [|exact Hb]; lia).
Qed.

Lemma GetVarint32_encode v rest :
  in_range 32 v → GetVarint32 (EncodeVarint32 v ++ rest) = Some (v, rest).
Proof.
  intros Hv. unfold GetVarint32. rewrite GetVarint32_fast_encoded.
  rewrite EncodeVarint32_loop by done.
  unfold GetVarint32PtrFallback, EncodeVarint64, kMaxVarint64Length.
  rewrite (varint_loop_roundtrip 32 28 0); try done; try lia.
  - do 2 f_equal. lia.
  - eapply in_range_mono; [|exact Hv]. lia.
Qed.

Lemma GetVarint64_encode v rest :
  in_range 64 v → GetVarint64 (EncodeVarint64 v ++ rest) = Some (v, rest).
Proof.
  intros Hv. unfold GetVarint64, GetVarint64Ptr, EncodeVarint64, kMaxVarint64Length.
  rewrite (varint_loop_roundtrip 64 63 0); try done; try lia.
  - do 2 f_equal. lia.
  - eapply in_range_mono; [|exact Hv]. lia.
Qed.

Lemma GetVarintPtr_loop_spec w max k p shift result :
  0 < w → max + 7 = shift + 7 * Z.of_nat k → in_range w result →
  match GetVarintPtr_loop w max p shift result with
  | None => Forall (λ b, b .& 128 ≠ 0) (take k p)
  | Some (v, q) =>
      ∃ enc b, p = enc ++ b :: q ∧ Forall (λ b, b .& 128 ≠ 0) enc ∧ b .& 128 = 0 ∧
        (length enc < k)%nat ∧ in_range w v
  end.
Proof.
  intros Hw. revert k shift result.
  induction p as [|b p IH]; intros k shift result Hk Hr; cbn [GetVarintPtr_loop].
  { by rewrite take_nil. }
  destruct (Z.leb_spec shift max); [|by replace k with 0%nat by lia].
  destruct k as [|k]; [lia|]. destruct (Z.eqb_spec (b .& 128) 0) as [Hb|Hb].
  - exists [], b. split_and!; try done; [simpl; lia|].
    apply lor_range; [lia|done|apply wrap_range; lia].
  - specialize (IH k (shift + 7) (result .| wrap w ((b .& 127) << shift))).
    assert (in_range w (result .| wrap w ((b .& 127) << shift))) as Hr'.
    { apply lor_range; [lia|done|apply wrap_range; lia]. }
    specialize (IH ltac:(lia) Hr'). destruct (GetVarintPtr_loop _ _ _ _ _) as [[v q]|].
    + destruct IH as (enc & b' & -> & Henc & Hb' & Hl & Hv).
      exists (b :: enc), b'. split_and!; try done; [by constructor|simpl; lia].
    + simpl. by constructor.
Qed.

(** ** The contracts of the encodings *)

(** Varint32: reading back what [PutVarint32] appended yields the value and
    leaves exactly the bytes after it, for every 32-bit value; the encoding has
    the length [VarintLength] announces, at most 5 bytes. *)
Theorem varint32_roundtrip dst v rest :
  in_range 32 v →
  GetVarint32 (drop (length dst) (PutVarint32 dst v ++ rest)) = Some (v, rest) ∧
  blen (PutVarint32 dst v) = blen dst + VarintLength v ∧ 1 ≤ VarintLength v ≤ 5.
Proof.
  intros Hv. unfold PutVarint32. rewrite <- app_assoc, drop_app_length.
  split; [by apply GetVarint32_encode|]. unfold blen. rewrite length_app.
  unfold VarintLength, kMaxVarint64Length.
  rewrite VarintLength_loop_length; [|eapply in_range_mono; [|exact Hv]; lia|lia].
  rewrite EncodeVarint32_loop by done.
  change (EncodeVarint64_loop 10 v) with (EncodeVarint64 v). split; [unfold blen; lia|].
  rewrite <- EncodeVarint32_loop by done. unfold EncodeVarint32, blen.
  repeat case_match; simpl; lia.
Qed.

Example varint32_roundtrip_witness :
  PutVarint32 [7] 300 = [7; 172; 2] ∧
  (GetVarint32 (drop 1 (PutVarint32 [7] 300 ++ [9])) = Some (300, [9]) ∧
   blen (PutVarint32 [7] 300) = blen [7] + VarintLength 300 ∧ 1 ≤ VarintLength 300 ≤ 5).
Proof.
  split; [vm_compute; reflexivity|].
  apply (varint32_roundtrip [7] 300 [9]). split; vm_compute; congruence.
Defined.

(** Varint64: the same round trip for every 64-bit value, in at most
    [kMaxVarint64Length] bytes. *)
Theorem varint64_roundtrip dst v rest :
  in_range 64 v →
  GetVarint64 (drop (length dst) (PutVarint64 dst v ++ rest)) = Some (v, rest) ∧
  blen (PutVarint64 dst v) = blen dst + VarintLength v ∧
  1 ≤ VarintLength v ≤ Z.of_nat kMaxVarint64Length.
Proof.
  intros Hv. unfold PutVarint64. rewrite <- app_assoc, drop_app_length.
  split; [by apply GetVarint64_encode|]. unfold blen. rewrite length_app.
  unfold VarintLength, kMaxVarint64Length.
  rewrite VarintLength_loop_length; [|eapply in_range_mono; [|exact Hv]; lia|lia].
  unfold EncodeVarint64, blen, kMaxVarint64Length. split; [lia|].
  assert (∀ f u, length (EncodeVarint64_loop f u) ≤ f)%nat as Hle.
  { induction f as [|f IH]; intros u; simpl; [lia|].
    destruct (128 <=? u); simpl; [|lia]. specialize (IH (u >> 7)). lia. }
  specialize (Hle 10%nat v).
  assert (length (EncodeVarint64_loop 10 v) ≠ 0)%nat; [|lia].
  cbn [EncodeVarint64_loop]. by destruct (128 <=? v).
Qed.

Example varint64_roundtrip_witness :
  GetVarint64 (drop 0 (PutVarint64 [] (2 ^ 63 + 5) ++ [1; 2])) = Some (2 ^ 63 + 5, [1; 2]) ∧
  blen (PutVarint64 [] (2 ^ 63 + 5)) = blen [] + VarintLength (2 ^ 63 + 5) ∧
  1 ≤ VarintLength (2 ^ 63 + 5) ≤ Z.of_nat kMaxVarint64Length.
Proof. apply (varint64_roundtrip [] (2 ^ 63 + 5) [1; 2]). split; vm_compute; congruence. Defined.

(** Varint readers on arbitrary bytes: a reader fails exactly when the
    first 10 (5 for 32-bit) bytes, or all of a shorter input, carry the
    continuation flag; otherwise it consumes a run of flagged bytes and one
    unflagged byte within that window and returns a value of its width. *)
Theorem varint_decode_spec p :
  bytes_ok p →
  match GetVarint64 p with
  | None => Forall (λ b, b .& 128 ≠ 0) (take 10 p)
  | Some (v, q) =>
      ∃ enc b, p = enc ++ b :: q ∧ Forall (λ b, b .& 128 ≠ 0) enc ∧ b .& 128 = 0 ∧
        (length enc < 10)%nat ∧ in_range 64 v
  end ∧
  match GetVarint32 p with
  | None => Forall (λ b, b .& 128 ≠ 0) (take 5 p)
  | Some (v, q) =>
      ∃ enc b, p = enc ++ b :: q ∧ Forall (λ b, b .& 128 ≠ 0) enc ∧ b .& 128 = 0 ∧
        (length enc < 5)%nat ∧ in_range 32 v
  end.
Proof.
  intros Hp. unfold GetVarint64, GetVarint64Ptr, GetVarint32.
  rewrite GetVarint32_fallback by done.
  split; apply GetVarintPtr_loop_spec; done.
Qed.

Example varint_decode_spec_witness :
  let p := [255; 255; 255; 255; 255; 255] in
  bytes_ok p ∧ GetVarint32 p = None ∧
  match GetVarint64 p with
  | None => Forall (λ b, b .& 128 ≠ 0) (take 10 p)
  | Some (v, q) =>
      ∃ enc b, p = enc ++ b :: q ∧ Forall (λ b, b .& 128 ≠ 0) enc ∧ b .& 128 = 0 ∧
        (length enc < 10)%nat ∧ in_range 64 v
  end.
Proof.
  intros p. assert (bytes_ok p) as Hp by (apply (bool_decide_unpack _); vm_compute; exact I).
  split; [exact Hp|]. split; [reflexivity|]. apply (varint_decode_spec p Hp).
Defined.

Lemma i64ToZigzag_spec l :
  in_srange 64 l → i64ToZigzag l = if l <? 0 then - 2 * l - 1 else 2 * l.
Proof.
  intros Hl. unfold in_srange in Hl. simpl (2 ^ _) in Hl. unfold i64ToZigzag, wrap.
  rewrite Z.shiftl_mul_pow2 by lia. bool_cases.
  - assert (l >> 63 = -1) as ->.
    { rewrite Z.shiftr_div_pow2 by lia. symmetry. apply (Z.div_unique_pos _ _ _ (l + 2 ^ 63)); lia. }
    change (-1 mod 2 ^ 64) with (2 ^ 64 - 1).
    replace (l mod 2 ^ 64) with (l + 2 ^ 64)
      by (apply (Z.mod_unique_pos _ _ (-1)); lia).
    replace (((l + 2 ^ 64) * 2 ^ 1) mod 2 ^ 64) with (2 * l + 2 ^ 64)
      by (apply (Z.mod_unique_pos _ _ 1); lia).
    rewrite lxor_ones by (unfold in_range; lia). lia.
  - assert (l >> 63 = 0) as ->.
    { rewrite Z.shiftr_div_pow2 by lia. apply Z.div_small. lia. }
    rewrite (Z.mod_small l), Zmod_0_l, Z.lxor_0_r by lia. rewrite Z.mod_small; lia.
Qed.

Lemma zigzagToI64_even l : 0 ≤ l < 2 ^ 63 → zigzagToI64 (2 * l) = l.
Proof.
  intros Hl. unfold zigzagToI64.
  rewrite Z.shiftr_div_pow2 by lia. change (2 ^ 1) with 2.
  replace (2 * l / 2) with l by (apply (Z.div_unique_pos _ _ _ 0); lia).
  rewrite (land_mask _ 1) by done. unfold wrap at 2.
  replace ((2 * l) mod 2 ^ 1) with 0 by (apply (Z.mod_unique_pos _ _ l); lia).
  rewrite Z.lxor_0_r. unfold to_signed. rewrite wrap_small by (unfold in_range; lia).
  bool_cases; simpl in *; lia.
Qed.

Lemma zigzagToI64_odd l : - 2 ^ 63 ≤ l < 0 → zigzagToI64 (- 2 * l - 1) = l.
Proof.
  intros Hl. unfold zigzagToI64.
  rewrite Z.shiftr_div_pow2 by lia. change (2 ^ 1) with 2.
  replace ((-2 * l - 1) / 2) with (- l - 1) by (apply (Z.div_unique_pos _ _ _ 1); lia).
  rewrite (land_mask _ 1) by done. unfold wrap at 2.
  replace ((-2 * l - 1) mod 2 ^ 1) with 1 by (apply (Z.mod_unique_pos _ _ (- l - 1)); lia).
  change (u64 (- (1))) with (2 ^ 64 - 1). rewrite lxor_ones by (unfold in_range; lia).
  unfold to_signed. rewrite wrap_small by (unfold in_range; lia).
  bool_cases; simpl in *; lia.
Qed.

(** Signed varints: zig-zag decoding inverts encoding on all 64-bit signed
    values, values in [-64, 63] take one byte, and
    [GetVarsignedint64] reads back what [PutVarsignedint64] appended. *)
Theorem varsignedint64_roundtrip dst v rest :
  in_srange 64 v →
  zigzagToI64 (i64ToZigzag v) = v ∧
  (-64 ≤ v ≤ 63 → VarintLength (i64ToZigzag v) = 1) ∧
  GetVarsignedint64 (drop (length dst) (PutVarsignedint64 dst v ++ rest)) = Some (v, rest).
Proof.
  intros Hv. pose proof (i64ToZigzag_spec v Hv) as Hz. unfold in_srange in Hv.
  simpl (2 ^ _) in Hv.
  assert (zigzagToI64 (i64ToZigzag v) = v) as Hrt.
  { rewrite Hz. bool_cases; [apply zigzagToI64_odd|apply zigzagToI64_even]; lia. }
  split_and!; [done| |].
  - intros Hs. unfold VarintLength, kMaxVarint64Length. cbn [VarintLength_loop].
    rewrite Hz. bool_cases; lia.
  - unfold GetVarsignedint64, GetVarsignedint64Ptr, PutVarsignedint64.
    rewrite <- app_assoc, drop_app_length.
    change GetVarint64Ptr with GetVarint64. rewrite GetVarint64_encode.
    + simpl. by rewrite Hrt.
    + rewrite Hz. unfold in_range. bool_cases; lia.
Qed.

Example varsignedint64_roundtrip_witness :
  let v := - 2 ^ 63 in
  zigzagToI64 (i64ToZigzag v) = v ∧
  (-64 ≤ v ≤ 63 → VarintLength (i64ToZigzag v) = 1) ∧
  GetVarsignedint64 (drop 1 (PutVarsignedint64 [1] v ++ [2])) = Some (v, [2]).
Proof.
  apply (varsignedint64_roundtrip [1] (- 2 ^ 63) [2]). split; vm_compute; congruence.
Defined.

(** Fixed-width integers: on a host of either byte order the encoders
    write the little-endian bytes, and [Get] reads back what [Put] appended,
    leaving the bytes after it; a short input is refused. *)
Theorem fixed_roundtrip `{Host} dst v16 v32 v64 rest :
  in_range 16 v16 → in_range 32 v32 → in_range 64 v64 →
  PutFixed16 dst v16 = dst ++ le_bytes 2 v16 ∧
  PutFixed32 dst v32 = dst ++ le_bytes 4 v32 ∧
  PutFixed64 dst v64 = dst ++ le_bytes 8 v64 ∧
  GetFixed16 (le_bytes 2 v16 ++ rest) = Some (v16, rest) ∧
  GetFixed32 (le_bytes 4 v32 ++ rest) = Some (v32, rest) ∧
  GetFixed64 (le_bytes 8 v64 ++ rest) = Some (v64, rest) ∧
  (∀ p, (length p < 4)%nat → GetFixed32 p = None).
Proof.
  intros H16 H32 H64.
  unfold PutFixed16, PutFixed32, PutFixed64, GetFixed16, GetFixed32, GetFixed64.
  rewrite EncodeFixed16_le, EncodeFixed32_le, EncodeFixed64_le.
  unfold object_bytes. split_and!; try by destruct kLittleEndian.
  - unfold blen. rewrite length_app, length_le_bytes. bool_cases; [lia|].
    rewrite drop_app_length' by done. cbn [le_bytes app]. rewrite DecodeFixed16_le.
    f_equal. f_equal. by apply (le_value_le_bytes 2).
  - unfold blen. rewrite length_app, length_le_bytes. bool_cases; [lia|].
    rewrite drop_app_length' by done. cbn [le_bytes app]. rewrite DecodeFixed32_le.
    f_equal. f_equal. by apply (le_value_le_bytes 4).
  - unfold blen. rewrite length_app, length_le_bytes. bool_cases; [lia|].
    rewrite drop_app_length' by done.
    rewrite DecodeFixed64_le by (apply length_le_bytes || apply le_bytes_ok).
    f_equal. f_equal. by apply (le_value_le_bytes 8).
  - intros p Hp. unfold blen. bool_cases; [done|lia].
Qed.

Example fixed_roundtrip_witness :
  let big := {| kLittleEndian := false |} in
  PutFixed16 (H:=big) [1] 258 = [1] ++ le_bytes 2 258 ∧
  PutFixed32 (H:=big) [1] 258 = [1] ++ le_bytes 4 258 ∧
  PutFixed64 (H:=big) [1] (2 ^ 64 - 1) = [1] ++ le_bytes 8 (2 ^ 64 - 1) ∧
  GetFixed16 (H:=big) (le_bytes 2 258 ++ [3]) = Some (258, [3]) ∧
  GetFixed32 (H:=big) (le_bytes 4 258 ++ [3]) = Some (258, [3]) ∧
  GetFixed64 (H:=big) (le_bytes 8 (2 ^ 64 - 1) ++ [3]) = Some (2 ^ 64 - 1, [3]) ∧
  (∀ p, (length p < 4)%nat → GetFixed32 (H:=big) p = None).
Proof. apply fixed_roundtrip; split; vm_compute; congruence. Defined.

Lemma foldl_app_concat (parts : list bytes) d :
  foldl (λ d p, d ++ p) d parts = d ++ concat parts.
Proof.
  revert d. induction parts as [|p ps IH]; intros d; simpl; [by rewrite app_nil_r|].
  by rewrite IH, app_assoc.
Qed.

Lemma foldl_total (parts : list bytes) t :
  0 ≤ t → t + blen (concat parts) < 2 ^ 64 →
  foldl (λ t p, u64 (t + blen p)) t parts = t + blen (concat parts).
Proof.
  revert t. unfold blen. induction parts as [|p ps IH]; intros t H0 Ht; simpl in *; [lia|].
  rewrite length_app in *. rewrite wrap_small by (unfold in_range; lia).
  rewrite IH; lia.
Qed.

(** Whatever was written with the given total length reads back as the next
    [total] bytes. *)
Lemma GetLengthPrefixedSlice_write body rest :
  blen body < 2 ^ 32 →
  GetLengthPrefixedSlice (EncodeVarint32 (blen body) ++ body ++ rest) = Some (body, rest).
Proof.
  intros Hb. unfold GetLengthPrefixedSlice.
  rewrite GetVarint32_encode by (unfold in_range, blen in *; lia). simpl.
  unfold blen. rewrite length_app. bool_cases; [|lia].
  by rewrite Nat2Z.id, take_app_length, drop_app_length.
Qed.

(** Length-prefixed slices: [GetLengthPrefixedSlice] reads back the slice,
    and the concatenation of the parts followed by the zero padding, that the
    three writers appended, as long as the total length fits the 32-bit
    prefix. *)
Theorem length_prefixed_roundtrip dst value parts pad rest :
  blen value < 2 ^ 32 →
  blen (concat parts) + Z.of_nat pad < 2 ^ 32 →
  GetLengthPrefixedSlice (drop (length dst) (PutLengthPrefixedSlice dst value ++ rest))
    = Some (value, rest) ∧
  GetLengthPrefixedSlice
    (drop (length dst) (PutLengthPrefixedSlicePartsWithPadding dst parts pad ++ rest))
    = Some (concat parts ++ replicate pad 0, rest) ∧
  PutLengthPrefixedSliceParts dst parts = PutLengthPrefixedSlice dst (concat parts).
Proof.
  intros Hv Hp. unfold PutLengthPrefixedSlice, PutLengthPrefixedSlicePartsWithPadding,
    PutLengthPrefixedSliceParts, PutLengthPrefixedSliceParts_total, PutVarint32.
  assert (0 ≤ blen value ∧ 0 ≤ blen (concat parts)) as [? ?] by (unfold blen; lia).
  rewrite !foldl_app_concat, !foldl_total by lia.
  rewrite !wrap_small by (unfold in_range; lia).
  rewrite <- !app_assoc, !drop_app_length.
  split_and!; [by apply GetLengthPrefixedSlice_write| |by rewrite Z.add_0_l].
  rewrite !(app_assoc (concat parts)).
  replace (Z.of_nat pad + blen (concat parts))
    with (blen (concat parts ++ replicate pad 0))
    by (unfold blen; rewrite length_app, length_replicate; lia).
  apply GetLengthPrefixedSlice_write. unfold blen in *.
  rewrite length_app, length_replicate. lia.
Qed.

Example length_prefixed_roundtrip_witness :
  GetLengthPrefixedSlice (drop 1 (PutLengthPrefixedSlice [5] [1; 2; 3] ++ [9]))
    = Some ([1; 2; 3], [9]) ∧
  GetLengthPrefixedSlice
    (drop 1 (PutLengthPrefixedSlicePartsWithPadding [5] [[1]; [2; 3]] 2 ++ [9]))
    = Some (concat [[1]; [2; 3]] ++ replicate 2 0, [9]) ∧
  PutLengthPrefixedSliceParts [5] [[1]; [2; 3]] =
    PutLengthPrefixedSlice [5] (concat [[1]; [2; 3]]).
Proof. apply (length_prefixed_roundtrip [5] [1; 2; 3] [[1]; [2; 3]] 2 [9]); vm_compute; reflexivity. Defined.

(** ** Appended encodings *)

Lemma PutFixed32_app `{Host} dst v : PutFixed32 dst v = dst ++ EncodeFixed32 v.
Proof. unfold PutFixed32, EncodeFixed32. by destruct kLittleEndian. Qed.
Lemma PutFixed16_app `{Host} dst v : PutFixed16 dst v = dst ++ EncodeFixed16 v.
Proof. unfold PutFixed16, EncodeFixed16. by destruct kLittleEndian. Qed.
Lemma length_EncodeFixed32 `{Host} v : length (EncodeFixed32 v) = 4%nat.
Proof. rewrite EncodeFixed32_le. apply length_le_bytes. Qed.
Lemma le_value4 v : in_range 32 v → le_value (le_bytes 4 v) = v.
Proof. apply (le_value_le_bytes 4). Qed.
Lemma DecodeFixed32_encode `{Host} v rest : in_range 32 v → DecodeFixed32 (EncodeFixed32 v ++ rest) = v.
Proof.
  intros Hv. rewrite EncodeFixed32_le. cbn [le_bytes app]. rewrite DecodeFixed32_le. by apply le_value4.
Qed.
Lemma DecodeFixed16_encode `{Host} v rest : in_range 16 v → DecodeFixed16 (EncodeFixed16 v ++ rest) = v.
Proof.
  intros Hv. rewrite EncodeFixed16_le. cbn [le_bytes app]. rewrite DecodeFixed16_le.
  change (le_value (le_bytes 2 v) = v). by apply (le_value_le_bytes 2).
Qed.
Lemma length_EncodeFixed16 `{Host} v : length (EncodeFixed16 v) = 2%nat.
Proof. rewrite EncodeFixed16_le. apply length_le_bytes. Qed.
(** Written on one platform, read on another. *)
Lemma DecodeFixed32_le_bytes `{Host} v rest : in_range 32 v → DecodeFixed32 (le_bytes 4 v ++ rest) = v.
Proof. rewrite <- EncodeFixed32_le. apply DecodeFixed32_encode. Qed.
