(* ===== verification/Decimal.v ===== *)
(** * Decimal numbers in byte strings

    The digits [snprintf] prints for an unsigned 64-bit number, with [%u] and
    with zero padding ([%06u]). *)
From S2P Require Import Prelude.

Definition digit (d : Z) : Z := 48 + d.
Definition is_digit (c : Z) : bool := (48 <=? c) && (c <=? 57).

Fixpoint dec_digits (fuel : nat) (n : Z) : bytes :=
  match fuel with
  | O => []
  | S fuel' => (if n <? 10 then [] else dec_digits fuel' (n / 10)) ++ [digit (n mod 10)]
  end.

(** 2^64 has 20 digits. *)
Definition dec (n : Z) : bytes := dec_digits 20 n.

Definition dec_padded (width : nat) (n : Z) : bytes :=
  let d := dec n in replicate (width - length d) 48 ++ d.

(** The value of a string of digits. *)
Definition dec_value (s : bytes) : Z := fold_left (λ v c, v * 10 + (c - 48)) s 0.

Lemma dec_value_snoc s c : dec_value (s ++ [c]) = dec_value s * 10 + (c - 48).
Proof. unfold dec_value. by rewrite fold_left_app. Qed.

Lemma dec_digits_spec fuel n :
  0 ≤ n < 10 ^ Z.of_nat fuel → (0 < fuel)%nat →
  dec_value (dec_digits fuel n) = n ∧ Forall (λ c, is_digit c = true) (dec_digits fuel n) ∧
  dec_digits fuel n ≠ [].
Proof.
  revert n. induction fuel as [|fuel IH]; intros n Hn Hf; [lia|]. cbn [dec_digits].
  pose proof (Z.mod_pos_bound n 10). pose proof (Z.div_mod n 10).
  assert (is_digit (digit (n mod 10)) = true) as Hd.
  { unfold is_digit, digit. apply andb_true_iff. split; apply Z.leb_le; lia. }
  assert (10 ≤ n → dec_value (dec_digits fuel (n / 10)) = n / 10 ∧
    Forall (λ c, is_digit c = true) (dec_digits fuel (n / 10))) as Hrec.
  { intros Hge. destruct (IH (n / 10)) as (? & ? & _); [| |done].
    - rewrite Nat2Z.inj_succ, Z.pow_succ_r in Hn by lia.
      split; [apply Z.div_pos; lia|apply Z.div_lt_upper_bound; lia].
    - destruct fuel; [simpl in Hn; lia|lia]. }
  split_and!.
  - rewrite dec_value_snoc. unfold digit. destruct (Z.ltb_spec n 10).
    + rewrite Z.mod_small by lia. unfold dec_value. simpl. lia.
    + destruct Hrec as [-> _]; lia.
  - apply Forall_app. split; [|by constructor]. destruct (Z.ltb_spec n 10); [constructor|].
    by apply Hrec.
  - intros H'. by apply app_eq_nil in H' as [_ ?].
Qed.

Lemma dec_spec n :
  in_range 64 n →
  dec_value (dec n) = n ∧ Forall (λ c, is_digit c = true) (dec n) ∧ dec n ≠ [].
Proof.
  intros [H0 H1]. apply dec_digits_spec; [|lia]. split; [done|].
  eapply Z.lt_le_trans; [exact H1|]. vm_compute. congruence.
Qed.

(** Leading zeros do not count. *)
Lemma dec_value_zeros n s : dec_value (replicate n 48 ++ s) = dec_value s.
Proof.
  unfold dec_value. rewrite fold_left_app. f_equal.
  induction n as [|n IH]; simpl; [done|]. exact IH.
Qed.

Lemma dec_padded_spec w n :
  in_range 64 n →
  dec_value (dec_padded w n) = n ∧ Forall (λ c, is_digit c = true) (dec_padded w n) ∧
  dec_padded w n ≠ [].
Proof.
  intros Hn. destruct (dec_spec n Hn) as (Hv & Hd & Hne). unfold dec_padded. split_and!.
  - by rewrite dec_value_zeros.
  - apply Forall_app. split; [|done]. by apply Forall_replicate.
  - intros H. by apply app_eq_nil in H as [_ ?].
Qed.
