(* ===== verification/Hash.v ===== *)
(** * The 32-bit hash of slices (Hash, util/hash.cc and util/hash.h)

    MurmurHash1 with the sign extension its last bytes have always had: the
    function is part of the on-disk formats. The 64-bit hashes are xxhash,
    parameters of the components that use them. *)
From S2P Require Import Prelude Coding.

Section hash.
Context `{Host}.

#[local] Abbreviation m := 0xc6a4a793.
#[local] Abbreviation r := 24.

(** Four bytes at a time; what is left of the data, and the hash so far. *)
Fixpoint Hash_words (fuel : nat) (data : bytes) (h : Z) : bytes * Z :=
  match fuel with
  | O => (data, h)
  | S fuel' =>
      if 4 <=? blen data then
        let w := DecodeFixed32 data in
        let h := u32 (h + w) in
        let h := u32 (h * m) in
        Hash_words fuel' (drop 4 data) (h .^ (h >> 16))
      else (data, h)
  end.

(** [static_cast<uint32_t>(static_cast<int8_t>(c))] *)
Definition sign_extend (c : Z) : Z := u32 (to_signed 8 c).

Definition Hash_tail (data : bytes) (h : Z) : Z :=
  let h := if 3 <=? blen data then u32 (h + u32 (sign_extend (byte_at data 2) << 16)) else h in
  let h := if 2 <=? blen data then u32 (h + u32 (sign_extend (byte_at data 1) << 8)) else h in
  if 1 <=? blen data then
    let h := u32 (h + sign_extend (byte_at data 0)) in
    let h := u32 (h * m) in
    h .^ (h >> r)
  else h.

Definition Hash (data : bytes) (seed : Z) : Z :=
  let h := u32 (seed .^ u64 (blen data * m)) in
  let '(rest, h) := Hash_words (length data) data h in
  Hash_tail rest h.

Definition BloomHash (key : bytes) : Z := Hash key 0xbc9f1d34.
Definition GetSliceHash (s : bytes) : Z := Hash s 397.

Lemma xor_shift_range h n : 0 ≤ n → in_range 32 h → in_range 32 (h .^ (h >> n)).
Proof.
  intros Hn Hh. apply lxor_range; [lia|done|]. destruct Hh as [H0 H1]. split.
  - by apply Z.shiftr_nonneg.
  - rewrite Z.shiftr_div_pow2 by done. pose proof (Z.pow_pos_nonneg 2 n).
    assert (h / 2 ^ n ≤ h) by (apply Z.div_le_upper_bound; nia). lia.
Qed.

Lemma Hash_words_range f data h :
  in_range 32 h → in_range 32 (snd (Hash_words f data h)).
Proof.
  revert data h. induction f as [|f IH]; intros data h Hh; cbn [Hash_words]; [done|].
  destruct (4 <=? blen data); [|done]. apply IH. apply xor_shift_range; [lia|]. by apply wrap_range.
Qed.

(** The fuel, the number of bytes, is enough: fewer than four bytes are left. *)
Lemma Hash_words_rest f data h :
  (length data ≤ f)%nat → (length (fst (Hash_words f data h)) < 4)%nat.
Proof.
  revert data h. induction f as [|f IH]; intros data h Hf; cbn [Hash_words].
  { simpl. lia. }
  unfold blen. destruct (Z.leb_spec 4 (Z.of_nat (length data))); [|simpl; lia].
  apply IH. rewrite length_drop. lia.
Qed.

Lemma Hash_range data seed : in_range 32 (Hash data seed).
Proof.
  unfold Hash. pose proof (Hash_words_range (length data) data (u32 (seed .^ u64 (blen data * m)))) as HR.
  destruct (Hash_words _ _ _) as [rest h]. cbn [snd] in HR. specialize (HR ltac:(by apply wrap_range)).
  unfold Hash_tail.
  destruct (1 <=? blen rest); [apply xor_shift_range; [lia|]; by apply wrap_range|].
  destruct (2 <=? blen rest); [by apply wrap_range|].
  destruct (3 <=? blen rest); [by apply wrap_range|done].
Qed.

Lemma GetSliceHash_range s : in_range 32 (GetSliceHash s).
Proof. apply Hash_range. Qed.
End hash.

(** Values fixed by util/hash_test.cc. *)
Example Hash_known_values :
  let h := @Hash {| kLittleEndian := true |} in
  map (λ d, h d 0xbc9f1d34)
    [[]; [0x9a]; [0xd6; 0x27]; [0x56; 0xdc; 0xd6]; [0x69; 0xb8; 0xc0; 0x88]; [0xd0; 0x7a; 0x6e; 0xea; 0x56];
     [0x31; 0x1b; 0x98; 0x75; 0x96; 0x22; 0xd3; 0x9a]] =
  [3164544308; 3195034349; 1806091603; 2157698265; 3416318611; 4255445370; 469635402].
Proof. vm_compute. reflexivity. Qed.
