(* ===== verification/Comparator.v ===== *)
(** * Comparators (include/rocksdb/comparator.h, util/comparator.cc;
      Slice::compare, include/rocksdb/slice.h)

    The interface by which everything that holds sorted keys orders them, its
    laws, and the two built-in orders, bytewise and reverse bytewise. *)
From S2P Require Import Prelude.

(** ** The interface *)

Class Comparator := {
  Compare : bytes → bytes → Z;
  Equal : bytes → bytes → bool;
  FindShortestSeparator : bytes → bytes → bytes;
  FindShortSuccessor : bytes → bytes;
  IsSameLengthImmediateSuccessor : bytes → bytes → bool;
  CanKeysWithDifferentByteContentsBeEqual : bool;
}.

(** A total preorder, and shortened keys that stay where they must. *)
Class ComparatorLaws (C : Comparator) : Prop := {
  Compare_flip : ∀ a b, Compare a b < 0 ↔ 0 < Compare b a;
  Compare_trans : ∀ a b c, Compare a b ≤ 0 → Compare b c ≤ 0 → Compare a c ≤ 0;
  Equal_Compare : ∀ a b, Equal a b = true ↔ Compare a b = 0;
  Equal_bytes : CanKeysWithDifferentByteContentsBeEqual = false → ∀ a b, Compare a b = 0 → a = b;
  FindShortestSeparator_between : ∀ start limit, bytes_ok start → bytes_ok limit → Compare start limit < 0 →
    let s := FindShortestSeparator start limit in
    Compare start s ≤ 0 ∧ Compare s limit < 0 ∧ (length s ≤ length start)%nat ∧ bytes_ok s;
  FindShortSuccessor_above : ∀ key, bytes_ok key →
    let s := FindShortSuccessor key in
    Compare key s ≤ 0 ∧ (length s ≤ length key)%nat ∧ bytes_ok s;
}.

Section laws.
Context `{C : Comparator, !ComparatorLaws C}.

Lemma Compare_lt_le a b c : Compare a b < 0 → Compare b c ≤ 0 → Compare a c < 0.
Proof.
  intros Hab Hbc. destruct (decide (Compare a c < 0)) as [|Hn]; [done|].
  assert (Compare c a ≤ 0) as Hca by (pose proof (Compare_flip a c); lia).
  pose proof (Compare_trans b c a Hbc Hca). pose proof (Compare_flip a b). lia.
Qed.
Lemma Compare_le_lt a b c : Compare a b ≤ 0 → Compare b c < 0 → Compare a c < 0.
Proof.
  intros Hab Hbc. destruct (decide (Compare a c < 0)) as [|Hn]; [done|].
  assert (Compare c a ≤ 0) as Hca by (pose proof (Compare_flip a c); lia).
  pose proof (Compare_trans c a b Hca Hab). pose proof (Compare_flip b c). lia.
Qed.
End laws.

(** ** Slice::compare *)

(** [memcmp] of the first bytes of both; what is left says which is shorter. *)
Fixpoint slice_compare (a b : bytes) : Z :=
  match a, b with
  | [], [] => 0
  | [], _ :: _ => -1
  | _ :: _, [] => 1
  | x :: a', y :: b' => if x <? y then -1 else if y <? x then 1 else slice_compare a' b'
  end.

Lemma slice_compare_refl a : slice_compare a a = 0.
Proof. induction a as [|x a IH]; [done|]. cbn. by rewrite Z.ltb_irrefl. Qed.
Lemma slice_compare_range a b : slice_compare a b = -1 ∨ slice_compare a b = 0 ∨ slice_compare a b = 1.
Proof. revert b. induction a as [|x a IH]; intros [|y b]; cbn; auto. bool_cases; auto. Qed.
Lemma slice_compare_neg a b : slice_compare b a = - slice_compare a b.
Proof. revert b. induction a as [|x a IH]; intros [|y b]; cbn; try done. bool_cases; try done; lia. Qed.
Lemma slice_compare_eq a b : slice_compare a b = 0 → a = b.
Proof.
  revert b. induction a as [|x a IH]; intros [|y b]; cbn; try done. bool_cases; try done.
  intros E. f_equal; [lia|by apply IH].
Qed.
Lemma slice_compare_trans a b c : slice_compare a b ≤ 0 → slice_compare b c ≤ 0 → slice_compare a c ≤ 0.
Proof.
  revert b c. induction a as [|x a IH]; intros [|y b] [|z c]; cbn; try lia.
  bool_cases; try lia. apply IH.
Qed.
Lemma slice_compare_app p a b : slice_compare (p ++ a) (p ++ b) = slice_compare a b.
Proof. induction p as [|x p IH]; [done|]. cbn. by rewrite Z.ltb_irrefl. Qed.
Lemma slice_compare_prefix a b : slice_compare a (a ++ b) ≤ 0.
Proof.
  rewrite <- (app_nil_r a) at 1. rewrite slice_compare_app. by destruct b.
Qed.

(** ** BytewiseComparatorImpl *)

(** [Slice::difference_offset], and the loops that do the same: the length of
    the common prefix. *)
Fixpoint difference_offset (a b : bytes) : nat :=
  match a, b with
  | x :: a', y :: b' => if x =? y then S (difference_offset a' b') else O
  | _, _ => O
  end.

(** From [diff_index] on, increment the first byte that is not 0xff and cut
    what follows; [None] when there is none. *)
Fixpoint increment_first (s : bytes) (diff_index : nat) (fuel : nat) : option bytes :=
  match fuel with
  | O => None
  | S fuel' =>
      match s !! diff_index with
      | Some c => if c <? 0xff then Some (take (S diff_index) (<[diff_index := u8 (c + 1)]> s))
                  else increment_first s (S diff_index) fuel'
      | None => None
      end
  end.

Definition bytewise_FindShortestSeparator (start limit : bytes) : bytes :=
  let min_length := Nat.min (length start) (length limit) in
  let diff_index := difference_offset start limit in
  if (min_length <=? diff_index)%nat then start
  else
    let start_byte := byte_at start diff_index in
    let limit_byte := byte_at limit diff_index in
    if limit_byte <=? start_byte then start
    else if (diff_index <? length limit - 1)%nat || (start_byte + 1 <? limit_byte) then
      take (S diff_index) (<[diff_index := u8 (start_byte + 1)]> start)
    else default start (increment_first start (S diff_index) (length start)).

Definition bytewise_FindShortSuccessor (key : bytes) : bytes :=
  default key (increment_first key 0 (length key)).

Fixpoint all_ff_00 (s t : bytes) : bool :=
  match s, t with
  | c :: s', d :: t' => (c =? 0xff) && (d =? 0) && all_ff_00 s' t'
  | _, _ => true
  end.
Definition bytewise_IsSameLengthImmediateSuccessor (s t : bytes) : bool :=
  if negb (length s =? length t)%nat || (length s =? 0)%nat then false else
  let diff_ind := difference_offset s t in
  if (length s <=? diff_ind)%nat then false else
  let byte_s := byte_at s diff_ind in
  let byte_t := byte_at t diff_ind in
  if negb (byte_s =? 0xff) && (byte_s + 1 =? byte_t)
  then all_ff_00 (drop (S diff_ind) s) (drop (S diff_ind) t) else false.

#[export] Instance BytewiseComparator : Comparator := {
  Compare := slice_compare;
  Equal a b := bool_decide (a = b);
  FindShortestSeparator := bytewise_FindShortestSeparator;
  FindShortSuccessor := bytewise_FindShortSuccessor;
  IsSameLengthImmediateSuccessor := bytewise_IsSameLengthImmediateSuccessor;
  CanKeysWithDifferentByteContentsBeEqual := false;
}.

(** ** ReverseBytewiseComparatorImpl *)

Definition reverse_FindShortestSeparator (start limit : bytes) : bytes :=
  let min_length := Nat.min (length start) (length limit) in
  let diff_index := difference_offset start limit in
  if (diff_index =? min_length)%nat then start
  else if (byte_at limit diff_index <? byte_at start diff_index) && (diff_index <? length start - 1)%nat
  then take (S diff_index) start else start.

#[export] Instance ReverseBytewiseComparator : Comparator := {
  Compare a b := - slice_compare a b;
  Equal a b := bool_decide (a = b);
  FindShortestSeparator := reverse_FindShortestSeparator;
  FindShortSuccessor key := key;
  IsSameLengthImmediateSuccessor := bytewise_IsSameLengthImmediateSuccessor;
  CanKeysWithDifferentByteContentsBeEqual := false;
}.

(** ** Proofs *)

(** Two strings part at the end of their common prefix. *)
Lemma difference_offset_split a b :
  ∃ p, length p = difference_offset a b ∧
    ((∃ x a' y b', a = p ++ x :: a' ∧ b = p ++ y :: b' ∧ x ≠ y) ∨ (∃ b', a = p ∧ b = p ++ b') ∨ (∃ a', b = p ∧ a = p ++ a')).
Proof.
  revert b. induction a as [|x a IH]; intros b; [by exists []; split; [|right; left; exists b]|].
  destruct b as [|y b]; [by exists []; split; [|right; right; exists (x :: a)]|]. cbn.
  destruct (Z.eqb_spec x y) as [->|Hne].
  - destruct (IH b) as (p & Hl & Hc). exists (y :: p). split; [by cbn; rewrite Hl|].
    destruct Hc as [(x' & a' & y' & b' & -> & -> & ?)|[(b' & -> & ->)|(a' & -> & ->)]]; [left; by exists x', a', y', b'|right..].
    + left. by exists b'.
    + right. by exists a'.
  - exists []. split; [done|]. left. by exists x, a, y, b.
Qed.

Lemma take_insert_at {A} (p : list A) (x y : A) (q : list A) :
  take (S (length p)) (<[length p := y]> (p ++ x :: q)) = p ++ [y].
Proof.
  rewrite insert_app_r_alt, Nat.sub_diag by done. cbn.
  rewrite take_app_ge by lia. by replace (S (length p) - length p)%nat with 1%nat by lia.
Qed.

Lemma byte_at_mid p x q : byte_at (p ++ x :: q) (length p) = x.
Proof. unfold byte_at. by rewrite list_lookup_middle. Qed.

(** The incremented string is greater, and not longer. *)
Lemma increment_first_spec s d fuel s' :
  increment_first s d fuel = Some s' → bytes_ok s →
  ∃ p c q, s = p ++ c :: q ∧ (d ≤ length p)%nat ∧ s' = p ++ [c + 1] ∧ c < 0xff ∧ 0 ≤ c.
Proof.
  intros E Hs. revert d E. induction fuel as [|fuel IH]; intros d E; cbn [increment_first] in E; [done|].
  destruct (s !! d) as [c|] eqn:Hd; [|done]. destruct (Z.ltb_spec c 0xff) as [Hc|_].
  - injection E as <-. pose proof (lookup_lt_Some _ _ _ Hd).
    assert (is_byte c) as [Hc0 _] by by eapply Forall_lookup_1.
    exists (take d s), c, (drop (S d) s). assert (length (take d s) = d) as Hl by (rewrite length_take; lia).
    split_and!; [by rewrite take_drop_middle|lia| |done|done].
    rewrite <- (take_drop_middle s d c Hd) at 1. rewrite <- Hl at 1 2.
    rewrite take_insert_at. rewrite wrap_small; [done|]. split; [lia|]. change (2 ^ 8) with 256. lia.
  - destruct (IH (S d) E) as (p & c' & q & ? & ? & ?). exists p, c', q. split_and!; naive_solver lia.
Qed.

Lemma compare_mid_lt p c q x r : c < x → slice_compare (p ++ c :: q) (p ++ x :: r) = -1.
Proof. intros Hlt. rewrite slice_compare_app. cbn. by rewrite (proj2 (Z.ltb_lt c x)). Qed.

Lemma bytes_ok_mid p c q : bytes_ok (p ++ c :: q) ↔ bytes_ok p ∧ is_byte c ∧ bytes_ok q.
Proof. unfold bytes_ok. rewrite Forall_app, Forall_cons. done. Qed.

Lemma bytewise_separator start limit :
  bytes_ok start → bytes_ok limit → slice_compare start limit < 0 →
  let s := bytewise_FindShortestSeparator start limit in
  slice_compare start s ≤ 0 ∧ slice_compare s limit < 0 ∧ (length s ≤ length start)%nat ∧ bytes_ok s.
Proof.
  intros Hs Hl Hlt. unfold bytewise_FindShortestSeparator.
  assert (slice_compare start start ≤ 0 ∧ slice_compare start limit < 0 ∧ (length start ≤ length start)%nat ∧ bytes_ok start)
    as Hsame by (rewrite slice_compare_refl; split_and!; done || lia).
  destruct (Nat.leb_spec (Nat.min (length start) (length limit)) (difference_offset start limit)) as [|Hmin]; [done|].
  destruct (difference_offset_split start limit) as (p & Hp & [(x & a & y & b & -> & -> & Hne)|[(b & -> & ->)|(a & -> & ->)]]);
    [|rewrite length_app in *; lia..].
  rewrite <- Hp, !byte_at_mid. destruct (Z.leb_spec y x) as [|Hxy]; [done|].
  apply bytes_ok_mid in Hs as (Hs1 & [Hx0 Hx1] & Hs2). apply bytes_ok_mid in Hl as (_ & [_ Hy] & _).
  destruct ((length p <? length (p ++ y :: b) - 1)%nat || (x + 1 <? y)) eqn:Hcut.
  - rewrite take_insert_at, wrap_small by (unfold in_range in *; lia). rewrite compare_mid_lt by lia.
    split_and!; [lia| |rewrite !length_app; cbn; lia|apply bytes_ok_mid; split_and!; [done|unfold is_byte, in_range; lia|constructor]].
    rewrite slice_compare_app. cbn. destruct (Z.ltb_spec (x + 1) y); [lia|].
    destruct (Z.ltb_spec y (x + 1)); [lia|]. destruct b as [|z b]; [|done].
    exfalso. apply orb_true_iff in Hcut as [Hc|Hc]; [apply Nat.ltb_lt in Hc; rewrite length_app in Hc; cbn in Hc; lia|done].
  - destruct (increment_first _ _ _) as [s'|] eqn:Ei; [|done]. cbn [default id].
    apply increment_first_spec in Ei as (p' & c & q & Heq & Hd & -> & Hc1 & Hc0); [|by apply bytes_ok_mid; split_and!].
    assert (∃ t, p' = p ++ x :: t) as [t ->].
    { exists (drop (S (length p)) p'). assert (take (S (length p)) p' = p ++ [x]) as Ht.
      { rewrite <- (take_app_le p' (c :: q)), <- Heq by lia. rewrite take_app_ge by lia.
        by replace (S (length p) - length p)%nat with 1%nat by lia. }
      rewrite <- (take_drop (S (length p)) p') at 1. rewrite Ht, <- app_assoc. done. }
    rewrite Heq. split_and!.
    + rewrite compare_mid_lt by lia. lia.
    + rewrite <- !app_assoc. cbn. rewrite compare_mid_lt by lia. lia.
    + rewrite !length_app. cbn. lia.
    + assert (bytes_ok ((p ++ x :: t) ++ c :: q)) as Hok by (rewrite <- Heq; by apply bytes_ok_mid; split_and!).
      apply bytes_ok_mid in Hok as (? & ? & _). apply bytes_ok_mid. split_and!; [done|unfold is_byte, in_range; lia|constructor].
Qed.

Lemma bytewise_successor key :
  bytes_ok key →
  let s := bytewise_FindShortSuccessor key in
  slice_compare key s ≤ 0 ∧ (length s ≤ length key)%nat ∧ bytes_ok s.
Proof.
  intros Hk. unfold bytewise_FindShortSuccessor. destruct (increment_first _ _ _) as [s'|] eqn:Ei; cbn [default id].
  - apply increment_first_spec in Ei as (p & c & q & -> & _ & -> & Hc1 & Hc0); [|done].
    rewrite compare_mid_lt, !length_app by lia. cbn. apply bytes_ok_mid in Hk as (? & ? & _).
    split_and!; [lia|lia|]. apply bytes_ok_mid. split_and!; [done|unfold is_byte, in_range; lia|constructor].
  - rewrite slice_compare_refl. split_and!; done || lia.
Qed.

Lemma reverse_separator start limit :
  bytes_ok start → slice_compare limit start < 0 →
  let s := reverse_FindShortestSeparator start limit in
  slice_compare s start ≤ 0 ∧ slice_compare limit s < 0 ∧ (length s ≤ length start)%nat ∧ bytes_ok s.
Proof.
  intros Hs Hlt. unfold reverse_FindShortestSeparator.
  assert (slice_compare start start ≤ 0 ∧ slice_compare limit start < 0 ∧ (length start ≤ length start)%nat ∧ bytes_ok start)
    as Hsame by (rewrite slice_compare_refl; split_and!; done || lia).
  destruct (Nat.eqb_spec (difference_offset start limit) (Nat.min (length start) (length limit))) as [|Hmin]; [done|].
  destruct (difference_offset_split start limit) as (p & Hp & [(x & a & y & b & -> & -> & Hne)|[(b & -> & ->)|(a & -> & ->)]]);
    [|rewrite length_app in *; lia..].
  rewrite <- Hp, !byte_at_mid. destruct (Z.ltb_spec y x) as [Hyx|]; [|done]. cbn [andb].
  destruct (_ <? _)%nat; [|done]. rewrite take_app_ge by lia.
  replace (S (length p) - length p)%nat with 1%nat by lia. change (take 1 (x :: a)) with (x :: take 0 a). rewrite take_0.
  apply bytes_ok_mid in Hs as (? & ? & _). rewrite (compare_mid_lt p y b x []) by done. split_and!; [|lia|rewrite !length_app; cbn; lia|].
  - rewrite slice_compare_app. cbn. rewrite Z.ltb_irrefl. by destruct a.
  - apply bytes_ok_mid. split_and!; [done|done|constructor].
Qed.

#[export] Instance BytewiseComparator_laws : ComparatorLaws BytewiseComparator.
Proof.
  split; cbn.
  - intros a b. rewrite (slice_compare_neg b a). lia.
  - apply slice_compare_trans.
  - intros a b. rewrite bool_decide_eq_true. split; [intros ->; apply slice_compare_refl|apply slice_compare_eq].
  - intros _. apply slice_compare_eq.
  - apply bytewise_separator.
  - apply bytewise_successor.
Qed.
#[export] Instance ReverseBytewiseComparator_laws : ComparatorLaws ReverseBytewiseComparator.
Proof.
  split; cbn.
  - intros a b. rewrite (slice_compare_neg b a). lia.
  - intros a b c. rewrite <- !(slice_compare_neg _ _). intros. by eapply slice_compare_trans.
  - intros a b. rewrite bool_decide_eq_true.
    split; [intros ->; by rewrite slice_compare_refl|intros E; apply slice_compare_eq; lia].
  - intros _ a b E. apply slice_compare_eq. lia.
  - intros start limit Hs Hl. rewrite <- !(slice_compare_neg _ _). by apply reverse_separator.
  - intros key Hk. rewrite slice_compare_refl. split_and!; done || lia.
Qed.

(** ** Immediate successors *)

(** A string of bytes as a number, the first byte the most significant. *)
Definition be_value (s : bytes) : Z := foldl (λ v c, v * 256 + c) 0 s.

Lemma be_value_acc s v : foldl (λ v c, v * 256 + c) v s = v * 256 ^ blen s + be_value s.
Proof.
  unfold be_value. revert v. induction s as [|c s IH]; intros v; cbn [foldl].
  { change (blen []) with 0. rewrite Z.pow_0_r. lia. }
  rewrite IH, (IH (0 * 256 + c)). replace (blen (c :: s)) with (Z.succ (blen s)) by (unfold blen; cbn; lia).
  rewrite Z.pow_succ_r by (unfold blen; lia). lia.
Qed.
Lemma be_value_cons c s : be_value (c :: s) = c * 256 ^ blen s + be_value s.
Proof. unfold be_value at 1. cbn [foldl]. rewrite be_value_acc. lia. Qed.
Lemma be_value_range s : bytes_ok s → 0 ≤ be_value s < 256 ^ blen s.
Proof.
  induction 1 as [|c s [Hc0 Hc1] _ IH]; [done|]. rewrite be_value_cons.
  replace (blen (c :: s)) with (Z.succ (blen s)) by (unfold blen; cbn; lia).
  rewrite Z.pow_succ_r by (unfold blen; lia). change (2 ^ 8) with 256 in Hc1. nia.
Qed.

(** The carry that turns a tail of 0xff into zeros. *)
Lemma all_ff_00_iff s t :
  bytes_ok s → bytes_ok t → length s = length t →
  all_ff_00 s t = true ↔ be_value s = 256 ^ blen s - 1 ∧ be_value t = 0.
Proof.
  intros Hs. revert t. induction Hs as [|c s Hc Hs IH]; intros t Ht Hl; (destruct t as [|d t]; [|try done]).
  { done. }
  { done. }
  apply Forall_cons in Ht as [Hd Ht]. injection Hl as Hl. cbn [all_ff_00].
  rewrite !andb_true_iff, !Z.eqb_eq, (IH t Ht Hl), !be_value_cons.
  pose proof (be_value_range s Hs). pose proof (be_value_range t Ht).
  assert (blen t = blen s) as -> by (unfold blen; lia).
  replace (blen (c :: s)) with (Z.succ (blen s)) by (unfold blen; cbn; lia).
  rewrite Z.pow_succ_r by (unfold blen; lia). unfold is_byte, in_range in *. change (2 ^ 8) with 256 in *.
  set (P := 256 ^ blen s) in *. split; [intros [[-> ->] [? ?]]; lia|].
  intros [E1 E2]. assert (c = 255) as -> by nia. assert (d = 0) as -> by nia. lia.
Qed.

Lemma be_value_app p s t : blen s = blen t → be_value (p ++ t) - be_value (p ++ s) = be_value t - be_value s.
Proof.
  intros Hl. induction p as [|c p IH]; [done|]. cbn [app]. rewrite !be_value_cons.
  unfold blen in *. rewrite !length_app. replace (length t) with (length s) by lia. lia.
Qed.

(** IsSameLengthImmediateSuccessor decides, for byte strings, whether they
    have the same length and the second, read as a big-endian number, is the
    successor of the first. *)
Theorem IsSameLengthImmediateSuccessor_iff s t :
  bytes_ok s → bytes_ok t →
  bytewise_IsSameLengthImmediateSuccessor s t = true ↔ length s = length t ∧ be_value t = be_value s + 1.
Proof.
  intros Hs Ht. unfold bytewise_IsSameLengthImmediateSuccessor.
  destruct (Nat.eqb_spec (length s) (length t)) as [Hl|]; [|naive_solver]. cbn [negb orb].
  destruct (difference_offset_split s t) as (p & Hp & [(x & a & y & b & -> & -> & Hne)|Heq]); rewrite <- Hp.
  2: { assert (s = t) as <-.
       { destruct Heq as [(b & -> & ->)|(a & -> & ->)]; rewrite length_app in Hl;
           (destruct b as [|z b] || destruct a as [|z a]); rewrite ?app_nil_r; try done; cbn in Hl; lia. }
       assert (length s ≤ length p)%nat as Hle by (destruct Heq as [(b & -> & _)|(a & -> & _)]; lia).
       destruct (length s =? 0)%nat; [split; [done|lia]|].
       rewrite (proj2 (Nat.leb_le _ _) Hle). split; [done|lia]. }
  rewrite !length_app in *. cbn [length] in *. rewrite (proj2 (Nat.eqb_neq _ _)) by lia. rewrite (proj2 (Nat.leb_gt _ _)) by lia.
  rewrite !byte_at_mid. apply bytes_ok_mid in Hs as (_ & Hx & Ha). apply bytes_ok_mid in Ht as (_ & Hy & Hb).
  rewrite !(drop_app_ge _ _ (S (length p))) by lia. replace (S (length p) - length p)%nat with 1%nat by lia.
  cbn [drop]. rewrite !drop_0. pose proof (be_value_app p (x :: a) (y :: b)) as Happ.
  rewrite !be_value_cons in Happ. assert (blen a = blen b) as Hab by (unfold blen; lia).
  specialize (Happ ltac:(unfold blen in *; cbn; lia)). rewrite Hab in Happ.
  pose proof (be_value_range a Ha). pose proof (be_value_range b Hb). rewrite Hab in *.
  pose proof (all_ff_00_iff a b Ha Hb ltac:(unfold blen in Hab; lia)) as Hff. rewrite Hab in Hff.
  unfold is_byte, in_range in *. change (2 ^ 8) with 256 in *. set (P := 256 ^ blen b) in *.
  destruct (Z.eqb_spec x 255), (Z.eqb_spec (x + 1) y); cbn [negb andb]; (split; [try done|intros [_ E]; try (exfalso; nia)]).
  - intros Hf%Hff. nia.
  - apply Hff. nia.
Qed.

Lemma IsSameLengthImmediateSuccessor_iff_witness :
  bytes_ok [1; 255] ∧ bytes_ok [2; 0] ∧
  (bytewise_IsSameLengthImmediateSuccessor [1; 255] [2; 0] = true ↔
   length [1; 255] = length [2; 0] ∧ be_value [2; 0] = be_value [1; 255] + 1).
Proof.
  assert (bytes_ok [1; 255]) as H1 by (apply (bool_decide_unpack _); vm_compute; exact I).
  assert (bytes_ok [2; 0]) as H2 by (apply (bool_decide_unpack _); vm_compute; exact I).
  exact (conj H1 (conj H2 (IsSameLengthImmediateSuccessor_iff [1; 255] [2; 0] H1 H2))).
Defined.

(** C36. Both built-in comparators keep the interface's promises: a total order
    in which only equal byte strings are equal, a separator in [start, limit)
    and a successor not below the key, neither longer than what it replaces. *)
Theorem builtin_comparators_lawful C :
  C = BytewiseComparator ∨ C = ReverseBytewiseComparator → ComparatorLaws C.
Proof. intros [-> | ->]; [apply BytewiseComparator_laws|apply ReverseBytewiseComparator_laws]. Qed.

Lemma builtin_comparators_lawful_witness :
  ComparatorLaws BytewiseComparator ∧
  @FindShortestSeparator BytewiseComparator (str "abcdef") (str "abzz") = str "abd" ∧
  @FindShortestSeparator ReverseBytewiseComparator (str "abzz") (str "abcdef") = str "abz".
Proof.
  split; [apply (builtin_comparators_lawful BytewiseComparator); by left|].
  split; vm_compute; reflexivity.
Defined.
