(* ===== verification/Result.v ===== *)
(** * Results with faults

    The result of an operation that C++ may leave undefined, or whose assertion
    may fail. The components that move through memory with pointers and offsets
    (data blocks, heaps and the iterators over them) are written in this monad. *)
From S2P Require Import Prelude.

Inductive fault := OutOfBounds | AssertFails | Undefined | OutOfFuel.
Inductive R (A : Type) := Done (a : A) | Fault (f : fault).
Arguments Done {A} a.
Arguments Fault {A} f.

#[export] Instance R_bind : MBind R := λ A B k m, match m with Done a => k a | Fault f => Fault f end.
#[export] Instance R_fmap : FMap R := λ A B k m, match m with Done a => Done (k a) | Fault f => Fault f end.

Definition require (f : fault) (b : bool) : R unit := if b then Done tt else Fault f.
Definition checked {A} (f : fault) (o : option A) : R A :=
  match o with Some a => Done a | None => Fault f end.

Lemma R_bind_Done {A B} (m : R A) (k : A → R B) b : (m ≫= k) = Done b → ∃ a, m = Done a ∧ k a = Done b.
Proof. destruct m as [a|f]; [|done]. intros E. by exists a. Qed.

(** Assertions are compiled out of release builds. *)
Class Build := { NDEBUG : bool }.
Definition assert `{Build} (b : bool) : R unit := require AssertFails (NDEBUG || b).

(** An assertion whose condition is itself evaluated only in a debug build. *)
Definition debug_assert `{Build} (c : R bool) : R unit :=
  if NDEBUG then Done tt else b ← c; require AssertFails b.

Lemma assert_true `{Build} : assert true = Done tt.
Proof. unfold assert. by rewrite orb_true_r. Qed.
Lemma debug_assert_true `{Build} c : c = Done true → debug_assert c = Done tt.
Proof. unfold debug_assert. intros ->. by destruct NDEBUG. Qed.
