(* ===== verification/Cursor.v ===== *)
(** * Iterators (InternalIterator, table/internal_iterator.h) and cursors

    The abstract specification of everything that iterates over sorted keys: a
    cursor, a position in a list of keys and values. The interface of the C++
    iterators is a type class; its laws say that an iterator moves as a cursor
    does. Data blocks implement it, the merging iterator uses and implements it. *)
From S2P Require Import Prelude Result Status Comparator.

(** ** The cursor *)

Inductive cursor_op :=
  | CFirst | CLast | CNext | CPrev | CSeek (target : bytes) | CSeekForPrev (target : bytes).

(** The position before [o], the end being after the last of [n] entries. *)
Definition prev_pos (n : nat) (o : option nat) : option nat :=
  match default n o with O => None | S i => Some i end.

(** What each operation promises, on the list of keys and values. *)
Definition cursor_step {V} (compare : bytes → bytes → Z) (kvs : list (bytes * V)) (o : cursor_op) (pos : option nat)
    : option nat :=
  match o with
  | CFirst => match kvs with [] => None | _ => Some 0%nat end
  | CLast => prev_pos (length kvs) None
  | CNext => i ← pos; if decide (S i < length kvs)%nat then Some (S i) else None
  | CPrev => i ← pos; prev_pos (length kvs) (Some i)
  | CSeek t => fst <$> list_find (λ kv, 0 ≤ compare (fst kv) t) kvs
  | CSeekForPrev t => prev_pos (length kvs) (fst <$> list_find (λ kv, 0 < compare (fst kv) t) kvs)
  end.

(** Only a seek may be issued on an invalid iterator. *)
Definition cursor_may (o : cursor_op) (pos : option nat) : bool :=
  match o with CNext | CPrev => bool_decide (is_Some pos) | _ => true end.

(** The position after a run of operations; [None] if one was not allowed. *)
Fixpoint cursor_run {V} (compare : bytes → bytes → Z) (kvs : list (bytes * V)) (ops : list cursor_op)
    (pos : option nat) : option (option nat) :=
  match ops with
  | [] => Some pos
  | o :: ops' => if cursor_may o pos then cursor_run compare kvs ops' (cursor_step compare kvs o pos) else None
  end.

(** ** The interface *)

(** [it_NextAndGetResult] returns the result it was given to fill: key and
    [may_be_out_of_upper_bound], if the iterator is then valid. The values are
    slices, or of another type (TValue). *)
Class InternalIteratorBase (V I : Type) := {
  it_Valid : I → bool;
  it_SeekToFirst : I → R I;
  it_SeekToLast : I → R I;
  it_Seek : bytes → I → R I;
  it_SeekForPrev : bytes → I → R I;
  it_Next : I → R I;
  it_NextAndGetResult : I → R (I * option (bytes * bool));
  it_Prev : I → R I;
  it_key : I → R bytes;
  it_value : I → R V;
  it_status : I → Status;
  it_MayBeOutOfLowerBound : I → R bool;
  it_MayBeOutOfUpperBound : I → R bool;
}.
Abbreviation InternalIterator := (InternalIteratorBase bytes).

Definition it_step {V I} `{InternalIteratorBase V I} (o : cursor_op) : I → R I :=
  match o with
  | CFirst => it_SeekToFirst | CLast => it_SeekToLast | CNext => it_Next | CPrev => it_Prev
  | CSeek t => it_Seek t | CSeekForPrev t => it_SeekForPrev t
  end.
Fixpoint it_run {V I} `{InternalIteratorBase V I} (ops : list cursor_op) (it : I) : R I :=
  match ops with [] => Done it | o :: ops' => it ← it_step o it; it_run ops' it end.

(** The body NextAndGetResult has unless it is overridden. *)
Definition default_NextAndGetResult {I} `{Build} (Next : I → R I) (Valid : I → bool) (key : I → R bytes)
    (MayBeOutOfUpperBound : I → R bool) (it : I) : R (I * option (bytes * bool)) :=
  it ← Next it;
  if Valid it then
    k ← key it;
    _ ← debug_assert (MayBeOutOfUpperBound it);
    Done (it, Some (k, true))
  else Done (it, None).

(** [SeekForPrevImpl], for iterators that have no better way. *)
Fixpoint prev_while_above {V I} `{InternalIteratorBase V I} (compare : bytes → bytes → Z) (fuel : nat) (target : bytes)
    (it : I) : R I :=
  match fuel with
  | O => Fault OutOfFuel
  | S fuel' =>
      if it_Valid it then
        k ← it_key it;
        if compare target k <? 0 then it ← it_Prev it; prev_while_above compare fuel' target it else Done it
      else Done it
  end.
Definition SeekForPrevImpl {V I} `{InternalIteratorBase V I} (compare : bytes → bytes → Z) (fuel : nat) (target : bytes)
    (it : I) : R I :=
  it ← it_Seek target it;
  it ← (if negb (it_Valid it) then it_SeekToLast it else Done it);
  prev_while_above compare fuel target it.

(** ** The laws *)

Definition sorted {V} (compare : bytes → bytes → Z) (kvs : list (bytes * V)) : Prop :=
  StronglySorted (λ a b, compare (fst a) (fst b) < 0) kvs.

(** [it_at kvs pos it]: the iterator is over [kvs], at [pos]. The operations
    that it has, by contract, are those that [supports] says. *)
Class IteratorLawsFor (supports : cursor_op → bool) (compare : bytes → bytes → Z) (I : Type) `{InternalIteratorBase V I} := {
  it_at : list (bytes * V) → option nat → I → Prop;
  it_at_sorted : ∀ kvs pos it, it_at kvs pos it → sorted compare kvs;
  it_at_status : ∀ kvs pos it, it_at kvs pos it → it_status it = OK;
  it_at_Valid : ∀ kvs pos it, it_at kvs pos it → it_Valid it = bool_decide (is_Some pos);
  it_at_range : ∀ kvs i it, it_at kvs (Some i) it → (i < length kvs)%nat;
  it_at_key : ∀ kvs i it kv, it_at kvs (Some i) it → kvs !! i = Some kv →
    it_key it = Done (fst kv) ∧ it_value it = Done (snd kv);
  it_at_step : ∀ kvs pos it o, it_at kvs pos it → supports o && cursor_may o pos = true →
    ∃ it', it_step o it = Done it' ∧ it_at kvs (cursor_step compare kvs o pos) it';
  it_at_next : ∀ kvs i it, it_at kvs (Some i) it → supports CNext = true →
    ∃ it' r, it_NextAndGetResult it = Done (it', r) ∧ it_Next it = Done it' ∧
      fst <$> r = fst <$> (cursor_step compare kvs CNext (Some i) ≫= λ j, kvs !! j);
}.
Abbreviation IteratorLaws := (IteratorLawsFor (λ _, true)).

Section laws.
Context {V I : Type} (supports : cursor_op → bool) (compare : bytes → bytes → Z)
  `{II : InternalIteratorBase V I, L : !IteratorLawsFor supports compare I}.

Lemma it_run_for kvs ops pos pos' (it : I) :
  Forall (λ o, supports o = true) ops → it_at kvs pos it → cursor_run compare kvs ops pos = Some pos' →
  ∃ it', it_run ops it = Done it' ∧ it_at kvs pos' it'.
Proof.
  intros Hsup. revert pos it. induction Hsup as [|o ops Ho Hsup IH]; intros pos it Hp; cbn [cursor_run it_run]; [intros [= <-]; eauto|].
  destruct (cursor_may o pos) eqn:Hmay; [|done]. intros Hrun.
  destruct (it_at_step kvs pos it o Hp) as (it1 & -> & Hp1); [by rewrite Ho|]. cbn [mbind R_bind]. by eapply IH.
Qed.

(** What a caller reads at a position. *)
Definition it_reads (kvs : list (bytes * V)) (pos : option nat) (it : I) : Prop :=
  it_status it = OK ∧
  match pos with
  | None => it_Valid it = false
  | Some i => ∃ k v, kvs !! i = Some (k, v) ∧ it_Valid it = true ∧ it_key it = Done k ∧ it_value it = Done v
  end.
Lemma it_at_reads kvs pos (it : I) : it_at kvs pos it → it_reads kvs pos it.
Proof.
  intros Hat. split; [by eapply it_at_status|]. pose proof (it_at_Valid kvs pos it Hat) as Hv. destruct pos as [i|].
  - destruct (lookup_lt_is_Some_2 kvs i) as [[k v] Hkv]; [by eapply it_at_range|].
    destruct (it_at_key kvs i it _ Hat Hkv) as [? ?]. exists k, v. rewrite Hv. by split_and!.
  - rewrite Hv. by apply bool_decide_eq_false_2; intros [? [=]].
Qed.
End laws.
Arguments it_reads {V I II}.
Arguments it_at_reads {V I supports} compare {II L}.

Lemma it_run_spec {V I} compare `{II : InternalIteratorBase V I, !IteratorLaws compare I} kvs ops pos pos' (it : I) :
  it_at kvs pos it → cursor_run compare kvs ops pos = Some pos' →
  ∃ it', it_run ops it = Done it' ∧ it_at kvs pos' it'.
Proof. apply (it_run_for (λ _, true)). by apply Forall_true. Qed.

(** ** Positions as counts

    On a sorted list the keys that satisfy a downward closed test are a prefix;
    every position is the length of such a prefix. *)

Fixpoint count {V} (P : bytes → bool) (kvs : list (bytes * V)) : nat :=
  match kvs with [] => 0 | (k, _) :: kvs' => (if P k then 1 else 0) + count P kvs' end.

(** The first position after a prefix of length [c], and the last within it. *)
Definition pos_from (n c : nat) : option nat := if decide (c < n)%nat then Some c else None.
Definition pos_before (c : nat) : option nat := match c with O => None | S i => Some i end.

Section counts.
Context {V : Type} `{C : Comparator, !ComparatorLaws C}.
Implicit Types kvs : list (bytes * V).
#[local] Abbreviation sorted := (sorted Compare).

Definition less (t k : bytes) : bool := Compare k t <? 0.
Definition upto (t k : bytes) : bool := Compare k t <=? 0.
Definition downward (P : bytes → bool) : Prop := ∀ a b, Compare a b < 0 → P b = true → P a = true.

Lemma less_downward t : downward (less t).
Proof. intros a b Hab Hb. apply Z.ltb_lt in Hb. apply Z.ltb_lt. eapply Compare_lt_le; [done|lia]. Qed.
Lemma upto_downward t : downward (upto t).
Proof. intros a b Hab Hb. apply Z.leb_le in Hb. apply Z.leb_le. apply (Compare_trans _ b); [lia|done]. Qed.

Lemma count_le P kvs : (count P kvs ≤ length kvs)%nat.
Proof. induction kvs as [|[k v] kvs IH]; cbn; [lia|]. destruct (P k); lia. Qed.
Lemma count_ext P Q kvs : (∀ k v, (k, v) ∈ kvs → P k = Q k) → count P kvs = count Q kvs.
Proof.
  induction kvs as [|[k v] kvs IH]; intros Hext; cbn; [done|].
  rewrite (Hext k v) by by left. rewrite IH; [done|]. intros k' v' ?. apply (Hext k' v'). by right.
Qed.
Lemma count_false kvs : count (λ _, false) kvs = 0%nat.
Proof. by induction kvs as [|[k v] kvs IH]. Qed.
Lemma count_true kvs : count (λ _, true) kvs = length kvs.
Proof. induction kvs as [|[k v] kvs IH]; cbn; [done|]. by rewrite IH. Qed.
Lemma count_none P kvs : (∀ k v, (k, v) ∈ kvs → P k = false) → count P kvs = 0%nat.
Proof. intros Hn. rewrite (count_ext P (λ _, false)) by done. apply count_false. Qed.

Lemma count_lookup P kvs i k v :
  sorted kvs → downward P → kvs !! i = Some (k, v) → P k = bool_decide (i < count P kvs)%nat.
Proof.
  intros Hs HP. revert i. induction Hs as [|[k0 v0] kvs Hs IH Hall]; intros i; [done|]. cbn [count].
  rewrite Forall_forall in Hall. destruct i as [|i]; cbn [lookup list_lookup]; intros Hi.
  - injection Hi as <- <-. destruct (P k0) eqn:E; [by rewrite bool_decide_eq_true_2 by lia|].
    rewrite count_none; [by rewrite bool_decide_eq_false_2 by lia|]. intros k1 v1 Hk1.
    destruct (P k1) eqn:E1; [|done]. by rewrite <- E, (HP k0 k1 (Hall (k1, v1) Hk1) E1).
  - rewrite (IH i Hi). destruct (P k0) eqn:E; [apply bool_decide_ext; lia|].
    assert (P k = false) as HPk.
    { destruct (P k) eqn:E1; [|done]. apply list_elem_of_lookup_2 in Hi. by rewrite <- E, (HP k0 k (Hall _ Hi) E1). }
    rewrite (IH i Hi) in HPk. apply bool_decide_eq_false in HPk. rewrite !bool_decide_eq_false_2 by lia. done.
Qed.

Lemma sorted_lookup kvs i j a b :
  sorted kvs → (i < j)%nat → kvs !! i = Some a → kvs !! j = Some b → Compare (fst a) (fst b) < 0.
Proof. intros Hs Hij Ha Hb. by apply (StronglySorted_lookup _ kvs i j a b Hs Hij). Qed.
Lemma sorted_inj kvs i j a b :
  sorted kvs → kvs !! i = Some a → kvs !! j = Some b → Compare (fst a) (fst b) = 0 → i = j.
Proof.
  intros Hs Ha Hb E. destruct (lt_eq_lt_dec i j) as [[Hlt| ->]|Hlt]; [|done|].
  - pose proof (sorted_lookup kvs i j a b Hs Hlt Ha Hb). lia.
  - pose proof (sorted_lookup kvs j i b a Hs Hlt Hb Ha). pose proof (Compare_flip (fst b) (fst a)). lia.
Qed.

(** A sorted list is determined by its entries. *)
Lemma sorted_unique kvs kvs' : sorted kvs → sorted kvs' → kvs ≡ₚ kvs' → kvs = kvs'.
Proof.
  intros Hs. revert kvs'. induction Hs as [|a kvs Hs IH Ha]; intros kvs' Hs' Hp.
  { by apply Permutation_nil_l in Hp. }
  destruct Hs' as [|b kvs' Hs' Hb]; [by apply Permutation_nil_r in Hp|].
  rewrite Forall_forall in Ha, Hb. assert (a = b) as <-.
  { assert (a ∈ b :: kvs') as [->|Ha']%elem_of_cons by (rewrite <- Hp; by left); [done|].
    assert (b ∈ a :: kvs) as [->|Hb']%elem_of_cons by (rewrite Hp; by left); [done|].
    pose proof (Ha b Hb'). pose proof (Hb a Ha'). pose proof (Compare_flip (fst a) (fst b)). lia. }
  f_equal. apply IH; [done|]. by apply Permutation_cons_inv in Hp.
Qed.

(** Counting up to an entry's own key. *)
Lemma count_less_at kvs i k v : sorted kvs → kvs !! i = Some (k, v) → count (less k) kvs = i.
Proof.
  intros Hs Hi. pose proof (count_lookup (less k) kvs i k v Hs (less_downward k) Hi) as Hc.
  assert (less k k = false) as E by (apply Z.ltb_ge; pose proof (Compare_flip k k); lia).
  rewrite E in Hc. symmetry in Hc. apply bool_decide_eq_false in Hc.
  destruct (decide (count (less k) kvs = i)) as [|Hne]; [done|]. pose proof (lookup_lt_Some _ _ _ Hi).
  destruct (lookup_lt_is_Some_2 kvs (count (less k) kvs)) as [[k' v'] Hk']; [lia|].
  pose proof (count_lookup (less k) kvs _ k' v' Hs (less_downward k) Hk') as Hc'.
  rewrite bool_decide_eq_false_2 in Hc' by lia. apply Z.ltb_ge in Hc'.
  pose proof (sorted_lookup kvs (count (less k) kvs) i _ _ Hs ltac:(lia) Hk' Hi) as Hlt. cbn in Hlt. lia.
Qed.
Lemma count_upto_at kvs i k v : sorted kvs → kvs !! i = Some (k, v) → count (upto k) kvs = S i.
Proof.
  intros Hs Hi. pose proof (count_lookup (upto k) kvs i k v Hs (upto_downward k) Hi) as Hc.
  assert (Compare k k = 0) as E0 by (pose proof (Compare_flip k k); lia).
  assert (upto k k = true) as E by (apply Z.leb_le; lia).
  rewrite E in Hc. symmetry in Hc. apply bool_decide_eq_true in Hc. pose proof (count_le (upto k) kvs).
  destruct (decide (count (upto k) kvs = S i)) as [|Hne]; [done|].
  destruct (lookup_lt_is_Some_2 kvs (S i)) as [[k' v'] Hk']; [lia|].
  pose proof (count_lookup (upto k) kvs _ k' v' Hs (upto_downward k) Hk') as Hc'.
  rewrite bool_decide_eq_true_2 in Hc' by lia. apply Z.leb_le in Hc'.
  pose proof (sorted_lookup kvs i (S i) _ _ Hs ltac:(lia) Hi Hk') as Hlt. cbn in Hlt.
  apply Compare_flip in Hlt. lia.
Qed.

(** ** Cursor operations as counts *)

Lemma first_from (P : bytes → bool) (Q : bytes * V → Prop) `{!∀ kv, Decision (Q kv)} kvs :
  sorted kvs → downward P → (∀ kv, Q kv ↔ P (fst kv) = false) →
  fst <$> list_find Q kvs = pos_from (length kvs) (count P kvs).
Proof.
  intros Hs HP HQ. unfold pos_from. destruct (list_find _ kvs) as [[i [k v]]|] eqn:E; cbn [fmap option_fmap option_map fst].
  - apply list_find_Some in E as (Hi & HQk & Hmin). rewrite HQ in HQk. cbn in HQk. rewrite (count_lookup P kvs i k v Hs HP Hi) in HQk.
    apply bool_decide_eq_false in HQk. pose proof (lookup_lt_Some _ _ _ Hi).
    assert (count P kvs = i) as ->; [|by rewrite decide_True].
    destruct (decide (count P kvs = i)) as [|Hne]; [done|].
    destruct (lookup_lt_is_Some_2 kvs (count P kvs)) as [[k' v'] Hk']; [lia|].
    exfalso. eapply (Hmin _ _ Hk'); [lia|]. rewrite HQ. cbn. rewrite (count_lookup P kvs _ k' v' Hs HP Hk').
    by apply bool_decide_eq_false_2, Nat.lt_irrefl.
  - rewrite decide_False; [done|]. intros Hlt. apply list_find_None in E. rewrite Forall_forall in E.
    destruct (lookup_lt_is_Some_2 kvs (count P kvs)) as [[k' v'] Hk']; [done|].
    apply (E (k', v')); [by eapply list_elem_of_lookup_2|]. rewrite HQ. cbn. rewrite (count_lookup P kvs _ k' v' Hs HP Hk').
    by apply bool_decide_eq_false_2, Nat.lt_irrefl.
Qed.

Lemma seek_from t pos kvs :
  sorted kvs → cursor_step Compare kvs (CSeek t) pos = pos_from (length kvs) (count (less t) kvs).
Proof.
  intros Hs. cbn [cursor_step]. apply (first_from (less t)); [done|apply less_downward|].
  intros kv. unfold less. by rewrite Z.ltb_ge.
Qed.
Lemma seek_for_prev_before t pos kvs :
  sorted kvs → cursor_step Compare kvs (CSeekForPrev t) pos = pos_before (count (upto t) kvs).
Proof.
  intros Hs. cbn [cursor_step]. rewrite (first_from (upto t)); [|done|apply upto_downward|].
  - unfold pos_from, prev_pos, pos_before. pose proof (count_le (upto t) kvs).
    destruct (decide (count (upto t) kvs < length kvs)%nat); cbn [default]; [done|].
    by replace (count (upto t) kvs) with (length kvs) by lia.
  - intros kv. unfold upto. by rewrite Z.leb_gt.
Qed.
Lemma first_position pos kvs : cursor_step Compare kvs CFirst pos = pos_from (length kvs) (count (λ _, false) kvs).
Proof. rewrite count_false. by destruct kvs. Qed.
Lemma last_position pos kvs : cursor_step Compare kvs CLast pos = pos_before (count (λ _, true) kvs).
Proof. rewrite count_true. by destruct kvs. Qed.
Lemma next_position i k v kvs :
  sorted kvs → kvs !! i = Some (k, v) →
  cursor_step Compare kvs CNext (Some i) = pos_from (length kvs) (count (upto k) kvs).
Proof. intros Hs Hi. by rewrite (count_upto_at kvs i k v). Qed.
Lemma prev_position i k v kvs :
  sorted kvs → kvs !! i = Some (k, v) → cursor_step Compare kvs CPrev (Some i) = pos_before (count (less k) kvs).
Proof. intros Hs Hi. by rewrite (count_less_at kvs i k v). Qed.
End counts.

(** ** The union of sorted lists *)

Section union.
Context {V : Type} `{C : Comparator, !ComparatorLaws C}.
Implicit Types kvs : list (bytes * V).
#[local] Abbreviation sorted := (sorted Compare).

Definition union_of (kvs : list (bytes * V)) (cs : list (list (bytes * V))) : Prop :=
  sorted kvs ∧ kvs ≡ₚ concat cs ∧ Forall sorted cs.

Lemma concat_disjoint {A} (ls : list (list A)) i j l l' x :
  NoDup (concat ls) → ls !! i = Some l → ls !! j = Some l' → x ∈ l → x ∈ l' → i = j.
Proof.
  revert i j. induction ls as [|l0 ls IH]; intros i j; [done|]. cbn [concat].
  intros (_ & Hdis & Hnd)%NoDup_app Hi Hj Hx Hx'.
  assert (∀ n m, ls !! n = Some m → x ∈ m → x ∈ concat ls) as Hin.
  { intros n m Hn Hm. apply list_elem_of_In, in_concat. exists m. split; apply list_elem_of_In; [by eapply list_elem_of_lookup_2|done]. }
  destruct i as [|i], j as [|j]; cbn in Hi, Hj; simplify_eq; [done|..].
  - destruct (Hdis x Hx (Hin j l' Hj Hx')).
  - destruct (Hdis x Hx' (Hin i l Hi Hx)).
  - f_equal. by apply IH.
Qed.

Lemma sorted_NoDup kvs : sorted kvs → NoDup kvs.
Proof.
  intros Hs. apply NoDup_alt. intros i j [k v] Hi Hj. apply (sorted_inj kvs i j (k, v) (k, v)); [done..|].
  pose proof (Compare_flip k k). cbn. lia.
Qed.

Lemma union_elem kvs cs kv : union_of kvs cs → kv ∈ kvs ↔ ∃ i c, cs !! i = Some c ∧ kv ∈ c.
Proof.
  intros (_ & -> & _). rewrite list_elem_of_In, in_concat. split.
  - intros (c & [i Hi]%list_elem_of_In%list_elem_of_lookup_1 & Hc%list_elem_of_In). eauto.
  - intros (i & c & Hi%list_elem_of_lookup_2 & Hc). exists c. by rewrite <- !list_elem_of_In.
Qed.
(** Entries with equal keys are the same entry of the same list. *)
Lemma union_same kvs cs i j c d a b :
  union_of kvs cs → cs !! i = Some c → cs !! j = Some d → a ∈ c → b ∈ d → Compare (fst a) (fst b) = 0 → i = j ∧ a = b.
Proof.
  intros Hu Hi Hj Ha Hb E. assert (a ∈ kvs ∧ b ∈ kvs) as [[x Hx]%list_elem_of_lookup_1 [y Hy]%list_elem_of_lookup_1].
  { split; apply (union_elem kvs cs _ Hu); eauto. }
  destruct Hu as (Hs & Hp & _). pose proof (sorted_inj kvs x y a b Hs Hx Hy E) as ->.
  rewrite Hx in Hy. injection Hy as ->. split; [|done].
  eapply (concat_disjoint cs i j); [|done..]. rewrite <- Hp. by apply sorted_NoDup.
Qed.
End union.

(** ** The reference iterator

    A list with a position: an implementation of the interface that keeps the
    laws by definition. *)
Record ListIter (V : Type) := mkListIter { li_kvs : list (bytes * V); li_pos : option nat }.
Arguments mkListIter {V}.
Arguments li_kvs {V}.
Arguments li_pos {V}.

Section list_iterator.
Context {V : Type} `{C : Comparator, !ComparatorLaws C}.

Definition list_step (o : cursor_op) (it : ListIter V) : R (ListIter V) :=
  _ ← require AssertFails (cursor_may o (li_pos it));
  Done (mkListIter (li_kvs it) (cursor_step Compare (li_kvs it) o (li_pos it))).
Definition list_entry (it : ListIter V) : R (bytes * V) := checked AssertFails (li_pos it ≫= λ i, li_kvs it !! i).
#[export] Instance ListIter_iterator : InternalIteratorBase V (ListIter V) := {
  it_Valid it := bool_decide (is_Some (li_pos it));
  it_SeekToFirst := list_step CFirst;
  it_SeekToLast := list_step CLast;
  it_Seek t := list_step (CSeek t);
  it_SeekForPrev t := list_step (CSeekForPrev t);
  it_Next := list_step CNext;
  it_NextAndGetResult it :=
    it ← list_step CNext it; Done (it, (λ kv, (fst kv, true)) <$> (li_pos it ≫= λ i, li_kvs it !! i));
  it_Prev := list_step CPrev;
  it_key it := fst <$> list_entry it;
  it_value it := snd <$> list_entry it;
  it_status _ := OK;
  it_MayBeOutOfLowerBound _ := Done true;
  it_MayBeOutOfUpperBound _ := Done true;
}.

Lemma list_step_eq o it :
  cursor_may o (li_pos it) = true → list_step o it = Done (mkListIter (li_kvs it) (cursor_step Compare (li_kvs it) o (li_pos it))).
Proof. unfold list_step. by intros ->. Qed.
Lemma cursor_step_range (kvs : list (bytes * V)) o pos i :
  (∀ j, pos = Some j → (j < length kvs)%nat) → cursor_step Compare kvs o pos = Some i → (i < length kvs)%nat.
Proof.
  intros Hpos. assert (∀ q, (∀ j, q = Some j → (j < length kvs)%nat) → prev_pos (length kvs) q = Some i → (i < length kvs)%nat) as Hprev.
  { unfold prev_pos. intros [j|] Hq; cbn [default]; [specialize (Hq j eq_refl); destruct j|destruct (length kvs)]; [done| |done|]; intros [= <-]; lia. }
  assert (∀ (Q : bytes * V → Prop) `{!∀ kv, Decision (Q kv)} j, fst <$> list_find Q kvs = Some j → (j < length kvs)%nat) as Hfind.
  { intros Q ? j. destruct (list_find Q kvs) as [[j' kv]|] eqn:E; [|done]. intros [= <-].
    apply list_find_Some in E as (E & _). by eapply lookup_lt_Some. }
  destruct o; cbn [cursor_step].
  - destruct kvs; [done|]. intros [= <-]. cbn. lia.
  - by apply Hprev.
  - destruct pos as [j|]; [|done]. cbn. destruct (decide _); [|done]. by intros [= <-].
  - destruct pos as [j|]; [|done]. cbn [mbind option_bind]. apply Hprev. intros ? [= <-]. by apply Hpos.
  - apply Hfind.
  - apply Hprev. intros j. apply Hfind.
Qed.

#[export] Program Instance ListIter_laws : IteratorLaws Compare (ListIter V) := {|
  it_at kvs pos it := sorted Compare kvs ∧ (∀ i, pos = Some i → (i < length kvs)%nat) ∧ it = mkListIter kvs pos
|}.
Next Obligation. by intros kvs pos it (? & _). Qed.
Next Obligation. done. Qed.
Next Obligation. by intros kvs pos it (_ & _ & ->). Qed.
Next Obligation. intros kvs i it (_ & Hr & _). by apply Hr. Qed.
Next Obligation. intros kvs i it kv (_ & _ & ->) Hkv. cbn. unfold list_entry. cbn. by rewrite Hkv. Qed.
Next Obligation.
  intros kvs pos it o (Hs & Hr & ->) Hmay.
  exists (mkListIter kvs (cursor_step Compare kvs o pos)). split; [|split_and!; [done| |done]].
  - destruct o; by apply list_step_eq.
  - intros i. by apply cursor_step_range.
Qed.
Next Obligation.
  intros kvs i it (Hs & Hr & ->). cbn [it_NextAndGetResult it_Next ListIter_iterator].
  rewrite list_step_eq by done. cbn [mbind R_bind li_pos li_kvs]. do 2 eexists. split_and!; [done|done|].
  by destruct (_ ≫= _).
Qed.
End list_iterator.

(** ** SeekForPrevImpl *)

Section seek_for_prev.
Context {V I : Type} `{C : Comparator, !ComparatorLaws C} `{II : InternalIteratorBase V I, L : !IteratorLaws Compare I}.
Implicit Types kvs : list (bytes * V).

(** An iterator just before the keys from [t] on is left where it is. *)
Lemma prev_while_above_stays kvs t fuel (it : I) :
  (0 < fuel)%nat → sorted Compare kvs → it_at kvs (pos_before (count (less t) kvs)) it →
  prev_while_above Compare fuel t it = Done it.
Proof.
  intros Hf Hs Hat. destruct fuel as [|fuel]; [lia|]. cbn [prev_while_above]. rewrite (it_at_Valid _ _ _ Hat).
  destruct (count (less t) kvs) as [|i] eqn:En; cbn [pos_before] in *; [done|]. rewrite bool_decide_eq_true_2 by done.
  destruct (lookup_lt_is_Some_2 kvs i) as [[k v] Hk]; [by eapply it_at_range|].
  destruct (it_at_key kvs i it _ Hat Hk) as [-> _]. cbn [mbind R_bind fst].
  pose proof (count_lookup (less t) kvs i k v Hs (less_downward t) Hk) as Hl.
  rewrite En, bool_decide_eq_true_2 in Hl by lia. apply Z.ltb_lt in Hl. apply Compare_flip in Hl.
  by replace (Compare t k <? 0) with false by (symmetry; apply Z.ltb_ge; lia).
Qed.

Lemma count_less_le_upto kvs t : (count (less t) kvs ≤ count (upto t) kvs)%nat.
Proof.
  induction kvs as [|[k v] l IH]; cbn; [lia|].
  unfold less, upto in *. destruct (Z.ltb_spec (Compare k t) 0), (Z.leb_spec (Compare k t) 0); lia.
Qed.

(** The keys up to [t] are those below it and [t] itself. *)
Lemma count_upto_miss kvs t k v :
  sorted Compare kvs → kvs !! count (less t) kvs = Some (k, v) → Compare t k < 0 →
  count (upto t) kvs = count (less t) kvs.
Proof.
  intros Hs Hk Hgt. pose proof (count_less_le_upto kvs t).
  pose proof (count_lookup (upto t) kvs _ k v Hs (upto_downward t) Hk) as Hu.
  assert (upto t k = false) as E by (apply Z.leb_gt; by apply Compare_flip). rewrite E in Hu. symmetry in Hu.
  apply bool_decide_eq_false in Hu. lia.
Qed.

Lemma count_upto_hit kvs t k v :
  sorted Compare kvs → kvs !! count (less t) kvs = Some (k, v) → Compare k t = 0 →
  count (upto t) kvs = S (count (less t) kvs).
Proof.
  intros Hs Hk E0. pose proof (count_less_le_upto kvs t).
  pose proof (count_lookup (upto t) kvs _ k v Hs (upto_downward t) Hk) as Hu.
  assert (upto t k = true) as E by (apply Z.leb_le; lia). rewrite E in Hu. symmetry in Hu. apply bool_decide_eq_true in Hu.
  destruct (decide (count (upto t) kvs = S (count (less t) kvs))) as [|Hne]; [done|]. pose proof (count_le (upto t) kvs).
  destruct (lookup_lt_is_Some_2 kvs (S (count (less t) kvs))) as [[k' v'] Hk']; [lia|].
  pose proof (count_lookup (upto t) kvs _ k' v' Hs (upto_downward t) Hk') as Hu'. rewrite bool_decide_eq_true_2 in Hu' by lia.
  apply Z.leb_le in Hu'. pose proof (sorted_lookup kvs (count (less t) kvs) (S (count (less t) kvs)) _ _ Hs ltac:(lia) Hk Hk') as Hkk.
  cbn in Hkk. pose proof (Compare_lt_le k k' t Hkk Hu'). lia.
Qed.

(** Three tests are enough: the first may step back, the second stops. *)
Lemma SeekForPrevImpl_spec kvs pos t (it : I) :
  it_at kvs pos it →
  ∃ it', SeekForPrevImpl Compare 3 t it = Done it' ∧ it_at kvs (cursor_step Compare kvs (CSeekForPrev t) pos) it'.
Proof.
  intros Hat. pose proof (it_at_sorted kvs pos it Hat) as Hs. unfold SeekForPrevImpl.
  rewrite (seek_for_prev_before t pos kvs Hs).
  destruct (it_at_step kvs pos it (CSeek t) Hat eq_refl) as (it1 & E1 & Hat1). cbn [it_step] in E1. rewrite E1. cbn [mbind R_bind].
  rewrite (seek_from t pos kvs Hs) in Hat1. rewrite (it_at_Valid _ _ _ Hat1). unfold pos_from in Hat1 |- *.
  destruct (decide (count (less t) kvs < length kvs)%nat) as [Hlt|Hge].
  - rewrite bool_decide_eq_true_2 by done. cbn [negb mbind R_bind prev_while_above].
    rewrite (it_at_Valid _ _ _ Hat1), bool_decide_eq_true_2 by done.
    destruct (lookup_lt_is_Some_2 kvs (count (less t) kvs)) as [[k v] Hk]; [done|].
    destruct (it_at_key kvs _ it1 _ Hat1 Hk) as [-> _]. cbn [mbind R_bind fst].
    pose proof (count_lookup (less t) kvs _ k v Hs (less_downward t) Hk) as Hl.
    rewrite bool_decide_eq_false_2 in Hl by lia. apply Z.ltb_ge in Hl.
    destruct (Z.ltb_spec (Compare t k) 0) as [Hgt|Hngt].
    + destruct (it_at_step kvs _ it1 CPrev Hat1 eq_refl) as (it2 & E2 & Hat2). cbn [it_step] in E2. rewrite E2. cbn [mbind R_bind].
      cbn [cursor_step mbind option_bind] in Hat2. unfold prev_pos in Hat2. cbn [default] in Hat2.
      rewrite (count_upto_miss kvs t k v Hs Hk Hgt).
      exists it2. split; [by apply (prev_while_above_stays kvs t 2); [lia|..]|exact Hat2].
    + exists it1. split; [done|].
      assert (Compare k t = 0) as E0 by (pose proof (Compare_flip k t); pose proof (Compare_flip t k); lia).
      by rewrite (count_upto_hit kvs t k v Hs Hk E0).
  - rewrite bool_decide_eq_false_2 by (by intros [? [=]]). cbn [negb].
    destruct (it_at_step kvs _ it1 CLast Hat1 eq_refl) as (it2 & E2 & Hat2). cbn [it_step] in E2. rewrite E2. cbn [mbind R_bind].
    pose proof (count_le (less t) kvs). assert (count (less t) kvs = length kvs) as En by lia.
    rewrite last_position, count_true, <- En in Hat2. exists it2. split; [by apply (prev_while_above_stays kvs t); [lia|..]|].
    pose proof (count_less_le_upto kvs t). pose proof (count_le (upto t) kvs).
    by replace (count (upto t) kvs) with (count (less t) kvs) by lia.
Qed.
End seek_for_prev.

(** ** Directions

    What an iterator that turns between forward and reverse (MergingIterator,
    BaseDeltaIterator) keeps to: its place is a downward closed test on keys,
    its entry the first on the side that the direction goes to. *)
Inductive Direction := kForward | kReverse.
#[export] Instance Direction_eq_dec : EqDecision Direction.
Proof. solve_decision. Defined.

(** ** Entries in a direction

    Going forward a child is at its first entry that is not behind, going in
    reverse at its last entry that is; what is behind is a downward closed
    test. *)
Section directions.
Context {V : Type} `{C : Comparator, !ComparatorLaws C}.
#[local] Abbreviation sorted := (sorted Compare).

Definition dir_pos (dir : Direction) (P : bytes → bool) (c : list (bytes * V)) : option nat :=
  match dir with kForward => pos_from (length c) (count P c) | kReverse => pos_before (count P c) end.
Definition dir_entry (dir : Direction) (P : bytes → bool) (c : list (bytes * V)) : option (bytes * V) :=
  dir_pos dir P c ≫= λ i, c !! i.
(** The side the direction still goes to, and which of two keys comes later. *)
Definition on_side (dir : Direction) (P : bytes → bool) (k : bytes) : bool :=
  match dir with kForward => negb (P k) | kReverse => P k end.
Definition later (dir : Direction) (a b : bytes) : bool :=
  match dir with kForward => 0 <? Compare a b | kReverse => Compare a b <? 0 end.
(** The test after moving on from [k], and the test when turning into [dir] at [k]. *)
Definition past (dir : Direction) (k : bytes) : bytes → bool :=
  match dir with kForward => upto k | kReverse => less k end.
Definition from (dir : Direction) (k : bytes) : bytes → bool :=
  match dir with kForward => less k | kReverse => upto k end.

Lemma past_downward dir k : downward (past dir k).
Proof. destruct dir; [apply upto_downward|apply less_downward]. Qed.
Lemma from_downward dir k : downward (from dir k).
Proof. destruct dir; [apply less_downward|apply upto_downward]. Qed.

Lemma later_asym dir a b : later dir a b = true → later dir b a = false.
Proof.
  destruct dir; cbn; intros H%Z.ltb_lt; apply Z.ltb_ge.
  - pose proof (Compare_flip b a). lia.
  - pose proof (Compare_flip a b). lia.
Qed.
Lemma later_nlt_trans dir a b c : later dir a b = false → later dir b c = false → later dir a c = false.
Proof.
  destruct dir; cbn; rewrite !Z.ltb_ge; [apply Compare_trans|]. intros Hab Hbc.
  assert (Compare c a ≤ 0) as Hca.
  { apply (Compare_trans c b a); [pose proof (Compare_flip b c)|pose proof (Compare_flip a b)]; lia. }
  pose proof (Compare_flip a c). lia.
Qed.
Lemma later_eq dir a b : later dir a b = false → later dir b a = false → Compare a b = 0.
Proof.
  destruct dir; cbn; rewrite !Z.ltb_ge; pose proof (Compare_flip a b); pose proof (Compare_flip b a); lia.
Qed.

Lemma dir_pos_lookup dir P c i : dir_pos dir P c = Some i → ∃ kv, c !! i = Some kv.
Proof.
  intros Hi. apply lookup_lt_is_Some_2. pose proof (count_le P c). destruct dir; cbn in Hi.
  - unfold pos_from in Hi. destruct (decide _); [by injection Hi as <-|done].
  - unfold pos_before in Hi. destruct (count P c); [done|]. injection Hi as <-. lia.
Qed.
Lemma dir_entry_Some dir P c kv : dir_entry dir P c = Some kv → ∃ i, dir_pos dir P c = Some i ∧ c !! i = Some kv.
Proof. unfold dir_entry. destruct (dir_pos dir P c) as [i|]; [|done]. intros Hkv. by exists i. Qed.
Lemma dir_entry_is_Some dir P c : is_Some (dir_entry dir P c) ↔ is_Some (dir_pos dir P c).
Proof.
  unfold dir_entry. destruct (dir_pos dir P c) as [i|] eqn:E; cbn.
  - destruct (dir_pos_lookup dir P c i E) as [kv ->]. by split; eauto.
  - by split; intros [? [=]].
Qed.

(** The entry there is the first on its side. *)
Lemma dir_entry_first dir P c k v :
  sorted c → downward P → dir_entry dir P c = Some (k, v) →
  (k, v) ∈ c ∧ on_side dir P k = true ∧
  ∀ k' v', (k', v') ∈ c → on_side dir P k' = true → later dir k k' = false.
Proof.
  intros Hs HP (i & Hi & Hkv)%dir_entry_Some. split; [by eapply list_elem_of_lookup_2|].
  pose proof (count_le P c). pose proof (lookup_lt_Some _ _ _ Hkv).
  assert (∀ j k' v', c !! j = Some (k', v') → on_side dir P k' = true → later dir k k' = false) as Hmin.
  { intros j k' v' Hj Hside. destruct (decide (i = j)) as [<-|Hne].
    - rewrite Hkv in Hj. injection Hj as <- <-. pose proof (Compare_flip k k). destruct dir; apply Z.ltb_ge; lia.
    - destruct dir; cbn in *; rewrite (count_lookup P c j k' v' Hs HP Hj) in Hside; apply Z.ltb_ge.
      + unfold pos_from in Hi. destruct (decide _); [|done]. injection Hi as <-.
        apply negb_true_iff, bool_decide_eq_false in Hside.
        pose proof (sorted_lookup c (count P c) j _ _ Hs ltac:(lia) Hkv Hj) as Hlt. cbn in Hlt. lia.
      + unfold pos_before in Hi. destruct (count P c) as [|n] eqn:En; [done|]. injection Hi as <-.
        apply bool_decide_eq_true in Hside.
        pose proof (sorted_lookup c j n _ _ Hs ltac:(lia) Hj Hkv) as Hlt. apply Compare_flip in Hlt. cbn in Hlt. lia. }
  split; [|intros k' v' [j Hj]%list_elem_of_lookup_1; by eapply Hmin].
  destruct dir; cbn in *; rewrite (count_lookup P c i k v Hs HP Hkv).
  - unfold pos_from in Hi. destruct (decide _); [|done]. injection Hi as <-. by rewrite bool_decide_eq_false_2 by lia.
  - unfold pos_before in Hi. destruct (count P c) as [|n] eqn:En; [done|]. injection Hi as <-. apply bool_decide_eq_true_2. lia.
Qed.
Lemma dir_entry_last dir P c k v :
  sorted c → downward P → dir_entry dir P c = None → (k, v) ∈ c → on_side dir P k = false.
Proof.
  intros Hs HP Hn [j Hj]%list_elem_of_lookup_1. pose proof (lookup_lt_Some _ _ _ Hj).
  assert (dir_pos dir P c = None) as Hpos.
  { apply eq_None_not_Some. rewrite <- dir_entry_is_Some, Hn. by intros [? [=]]. }
  destruct dir; cbn in *; rewrite (count_lookup P c j k v Hs HP Hj).
  - unfold pos_from in Hpos. destruct (decide _); [done|]. apply negb_false_iff, bool_decide_eq_true. lia.
  - unfold pos_before in Hpos. destruct (count P c); [|done]. by apply bool_decide_eq_false_2, Nat.nlt_0_r.
Qed.

(** ** Cursor operations in a direction *)

Definition seek_dir (o : cursor_op) : Direction :=
  match o with CFirst | CSeek _ => kForward | _ => kReverse end.
Definition seek_test (o : cursor_op) : bytes → bool :=
  match o with CFirst => λ _, false | CSeek t => less t | CSeekForPrev t => upto t | _ => λ _, true end.
Definition is_seek (o : cursor_op) : bool := match o with CNext | CPrev => false | _ => true end.
Lemma seek_position o (c : list (bytes * V)) pos :
  is_seek o = true → sorted c → cursor_step Compare c o pos = dir_pos (seek_dir o) (seek_test o) c.
Proof.
  intros Ho Hs. destruct o as [| | | |t|t]; try done.
  - apply first_position.
  - apply last_position.
  - by apply seek_from.
  - by apply seek_for_prev_before.
Qed.
Lemma seek_downward o : downward (seek_test o).
Proof. destruct o; cbn; try done; [apply less_downward|apply upto_downward]. Qed.

Definition step_op (dir : Direction) : cursor_op := match dir with kForward => CNext | kReverse => CPrev end.
Lemma step_position dir (c : list (bytes * V)) j k v :
  sorted c → c !! j = Some (k, v) → cursor_step Compare c (step_op dir) (Some j) = dir_pos dir (past dir k) c.
Proof. intros Hs Hj. destruct dir; [by apply (next_position j k v)|by apply (prev_position j k v)]. Qed.

(** ** Finding the entry, and moving the test *)

Lemma dir_entry_intro dir P (c : list (bytes * V)) k v :
  sorted c → downward P → (k, v) ∈ c → on_side dir P k = true →
  (∀ k' v', (k', v') ∈ c → on_side dir P k' = true → later dir k k' = false) → dir_entry dir P c = Some (k, v).
Proof.
  intros Hs HP Hin Hside Hmin. destruct (dir_entry dir P c) as [[k' v']|] eqn:E.
  - destruct (dir_entry_first dir P c k' v' Hs HP E) as (Hin' & Hside' & Hmin').
    pose proof (later_eq dir k k' (Hmin k' v' Hin' Hside') (Hmin' k v Hin Hside)) as Heq.
    apply list_elem_of_lookup_1 in Hin as [i Hi], Hin' as [j Hj].
    pose proof (sorted_inj c i j _ _ Hs Hi Hj Heq) as ->. rewrite Hi in Hj. by injection Hj as -> ->.
  - by rewrite (dir_entry_last dir P c k v Hs HP E Hin) in Hside.
Qed.
Lemma dir_entry_none dir P (c : list (bytes * V)) :
  sorted c → downward P → (∀ k v, (k, v) ∈ c → on_side dir P k = false) → dir_entry dir P c = None.
Proof.
  intros Hs HP Hn. destruct (dir_entry dir P c) as [[k v]|] eqn:E; [|done].
  destruct (dir_entry_first dir P c k v Hs HP E) as (Hin & Hside & _). by rewrite (Hn k v Hin) in Hside.
Qed.
Lemma dir_pos_None dir P (c : list (bytes * V)) : dir_entry dir P c = None ↔ dir_pos dir P c = None.
Proof. rewrite !eq_None_not_Some. by rewrite dir_entry_is_Some. Qed.
Lemma dir_entry_pos dir P (c : list (bytes * V)) kv :
  dir_entry dir P c = Some kv → ∃ i, dir_pos dir P c = Some i ∧ c !! i = Some kv ∧ (i < length c)%nat.
Proof. intros (i & Hi & Hkv)%dir_entry_Some. exists i. split_and!; [done..|]. by eapply lookup_lt_Some. Qed.

(** Moving past a key that no entry on this side reaches changes nothing. *)
Lemma past_same dir P (c : list (bytes * V)) d :
  downward P → on_side dir P d = true → (∀ k v, (k, v) ∈ c → on_side dir P k = true → later dir k d = true) →
  dir_pos dir (past dir d) c = dir_pos dir P c.
Proof.
  intros HP Hd Hlater. enough (count (past dir d) c = count P c) as E by (unfold dir_pos; destruct dir; by rewrite E).
  apply count_ext. intros k v Hk. specialize (Hlater k v Hk).
  destruct dir; cbn in *; unfold upto, less; destruct (P k) eqn:EP; cbn in Hlater.
  - apply Z.leb_le. apply negb_true_iff in Hd. destruct (decide (Compare k d ≤ 0)) as [|Hn]; [done|].
    rewrite (HP d k) in Hd; [done|apply Compare_flip; lia|done].
  - specialize (Hlater eq_refl). apply Z.ltb_lt in Hlater. by apply Z.leb_gt.
  - specialize (Hlater eq_refl). apply Z.ltb_lt in Hlater. by apply Z.ltb_lt.
  - apply Z.ltb_ge. destruct (decide (0 ≤ Compare k d)) as [|Hn]; [done|]. rewrite (HP k d) in EP; [done|lia|done].
Qed.
Lemma later_weaken dir a b c : later dir b a = false → later dir b c = true → later dir a c = true.
Proof.
  destruct dir; cbn; rewrite ?Z.ltb_lt, ?Z.ltb_ge; intros Hba Hbc.
  - apply Compare_flip. apply (Compare_lt_le c b a); [by apply Compare_flip|done].
  - apply (Compare_le_lt a b c); [|done]. pose proof (Compare_flip b a). lia.
Qed.

Lemma later_strict dir a b : later dir a b = false → Compare a b ≠ 0 → later dir b a = true.
Proof.
  intros Hab Hne. destruct (later dir b a) eqn:Hba; [done|]. by destruct Hne; apply (later_eq dir).
Qed.
Lemma later_equal dir a b : Compare a b = 0 → later dir a b = false.
Proof. intros E. destruct dir; cbn; rewrite E; done. Qed.

(** Tests that equal keys pass alike. *)
Definition closed (P : bytes → bool) : Prop := ∀ a b, Compare a b ≤ 0 → P b = true → P a = true.
Lemma closed_downward P : closed P → downward P.
Proof. intros HP a b Hab. apply HP. lia. Qed.
Lemma past_closed dir k : closed (past dir k).
Proof.
  intros a b Hab. destruct dir; cbn; unfold upto, less; rewrite ?Z.leb_le, ?Z.ltb_lt; intros Hb.
  - by apply (Compare_trans a b k).
  - by apply (Compare_le_lt a b k).
Qed.
Lemma seek_closed o : closed (seek_test o).
Proof.
  destruct o as [| | | |t|t]; try done; [apply (past_closed kReverse)|apply (past_closed kForward)].
Qed.
Lemma closed_side dir P a b : closed P → Compare a b = 0 → on_side dir P a = on_side dir P b.
Proof.
  intros HP E. assert (P a = P b) as EP; [|by destruct dir; cbn; rewrite EP].
  pose proof (Compare_flip a b). pose proof (Compare_flip b a). apply eq_true_iff_eq. split; apply HP; lia.
Qed.
Lemma past_equal dir a b : Compare a b = 0 → ∀ c : list (bytes * V), dir_pos dir (past dir b) c = dir_pos dir (past dir a) c.
Proof.
  intros E c. enough (count (past dir b) c = count (past dir a) c) as Ec by (unfold dir_pos; destruct dir; by rewrite Ec).
  apply count_ext. intros k _ _. pose proof (Compare_flip a b). pose proof (Compare_flip b a). apply eq_true_iff_eq.
  destruct dir; cbn; unfold upto, less; rewrite ?Z.leb_le, ?Z.ltb_lt.
  - split; intros Hk; [apply (Compare_trans k b a)|apply (Compare_trans k a b)]; lia.
  - split; intros Hk; [apply (Compare_lt_le k b a)|apply (Compare_lt_le k a b)]; lia.
Qed.

(** ** Turning around *)

Definition opposite (dir : Direction) : Direction := match dir with kForward => kReverse | kReverse => kForward end.
Definition end_op (dir : Direction) : cursor_op := match dir with kForward => CFirst | kReverse => CLast end.

(** Each place is the neighbour of the other direction's place. *)
Lemma turn_step dir P (c : list (bytes * V)) i :
  dir_pos dir P c = Some i → cursor_step Compare c (step_op (opposite dir)) (Some i) = dir_pos (opposite dir) P c.
Proof.
  pose proof (count_le P c). destruct dir; cbn; unfold pos_from, pos_before.
  - destruct (decide _); [|done]. by intros [= <-].
  - destruct (count P c) as [|n]; [done|]. by intros [= <-].
Qed.
Lemma turn_end dir P (c : list (bytes * V)) pos :
  dir_pos dir P c = None → cursor_step Compare c (end_op (opposite dir)) pos = dir_pos (opposite dir) P c.
Proof.
  pose proof (count_le P c). destruct dir; cbn [dir_pos opposite end_op].
  - unfold pos_from. destruct (decide _); [done|]. intros _. rewrite last_position, count_true. f_equal. lia.
  - unfold pos_before. destruct (count P c) as [|n] eqn:E; [|done]. intros _. by rewrite first_position, count_false.
Qed.
Lemma opposite_side dir P k : on_side (opposite dir) P k = negb (on_side dir P k).
Proof. destruct dir; cbn; [by rewrite negb_involutive|done]. Qed.
End directions.
