(* ===== verification/IteratorWrapper.v ===== *)
(** * The wrapper of iterators (IteratorWrapperBase, table/iterator_wrapper.h)

    An iterator, or none, with a cache of its validity and key. The merging and
    the two-level iterators reach their children through it. *)
From S2P Require Import Prelude Result Status Comparator Cursor.

Section wrapper.
Context {V I : Type} `{Build, InternalIteratorBase V I}.

(** [result_] is the pair of [w_key] and [w_may_be_out_of_upper_bound]. The
    slice it holds is into the iterator's memory, unchanged until it moves. *)
Record IteratorWrapper := mkWrapper {
  iter_ : option I;
  w_key : bytes;
  w_may_be_out_of_upper_bound : bool;
  valid_ : bool;
}.

Definition wrapper_Update (it : I) (w : IteratorWrapper) : R IteratorWrapper :=
  if it_Valid it then
    _ ← assert (ok (it_status it));
    k ← it_key it;
    Done (mkWrapper (Some it) k true true)
  else Done (mkWrapper (Some it) (w_key w) (w_may_be_out_of_upper_bound w) false).

Definition new_wrapper : IteratorWrapper := mkWrapper None [] false false.
Definition wrapper_Set (it : option I) (w : IteratorWrapper) : R IteratorWrapper :=
  match it with
  | None => Done (mkWrapper None (w_key w) (w_may_be_out_of_upper_bound w) false)
  | Some it => wrapper_Update it w
  end.

(** [assert(iter_)], then a use of [iter_]. *)
Definition wrapper_iter (w : IteratorWrapper) : R I :=
  _ ← assert (bool_decide (is_Some (iter_ w)));
  checked Undefined (iter_ w).
Definition wrapper_key (w : IteratorWrapper) : R bytes := _ ← assert (valid_ w); Done (w_key w).
Definition wrapper_value (w : IteratorWrapper) : R V :=
  _ ← assert (valid_ w); it ← checked Undefined (iter_ w); it_value it.
Definition wrapper_status (w : IteratorWrapper) : R Status := it ← wrapper_iter w; Done (it_status it).
Definition wrapper_Next (w : IteratorWrapper) : R IteratorWrapper :=
  it ← wrapper_iter w;
  '(it, result) ← it_NextAndGetResult it;
  let w := match result with
           | Some (k, may) => mkWrapper (Some it) k may true
           | None => mkWrapper (Some it) (w_key w) (w_may_be_out_of_upper_bound w) false
           end in
  _ ← assert (negb (valid_ w) || ok (it_status it));
  Done w.
(** Prev and the seeks: move the iterator, then Update. *)
Definition wrapper_move (move : I → R I) (w : IteratorWrapper) : R IteratorWrapper :=
  it ← wrapper_iter w; it ← move it; wrapper_Update it w.
Definition wrapper_MayBeOutOfLowerBound (w : IteratorWrapper) : R bool :=
  _ ← assert (valid_ w); it ← checked Undefined (iter_ w); it_MayBeOutOfLowerBound it.
Definition wrapper_MayBeOutOfUpperBound (w : IteratorWrapper) : R bool :=
  _ ← assert (valid_ w); Done (w_may_be_out_of_upper_bound w).
End wrapper.

(** ** Wrappers of lawful iterators *)

Section laws.
Context {V I : Type} {supports : cursor_op → bool} {compare : bytes → bytes → Z} `{Build}.
Context `{II : InternalIteratorBase V I, L : !IteratorLawsFor supports compare I}.
#[local] Abbreviation IteratorWrapper := (IteratorWrapper (I := I)).

Definition wrapper_at (c : list (bytes * V)) (pos : option nat) (w : IteratorWrapper) : Prop :=
  ∃ it, iter_ w = Some it ∧ it_at c pos it ∧ valid_ w = bool_decide (is_Some pos) ∧
    ∀ i kv, pos = Some i → c !! i = Some kv → w_key w = fst kv.

Lemma wrapper_iter_spec c pos w : wrapper_at c pos w → ∃ it, wrapper_iter w = Done it ∧ it_at c pos it.
Proof.
  intros (it & E & Hat & _). exists it. unfold wrapper_iter. rewrite E, bool_decide_eq_true_2 by done.
  by rewrite assert_true.
Qed.
Lemma wrapper_status_spec c pos w : wrapper_at c pos w → wrapper_status w = Done OK.
Proof.
  intros Hw. destruct (wrapper_iter_spec c pos w Hw) as (it & E & Hat). unfold wrapper_status. rewrite E. cbn.
  by rewrite (it_at_status c pos it Hat).
Qed.
Lemma wrapper_status_ok c pos w : wrapper_at c pos w → debug_assert (s ← wrapper_status w; Done (ok s)) = Done tt.
Proof. intros Hw. apply debug_assert_true. by rewrite (wrapper_status_spec c pos w Hw). Qed.
Lemma wrapper_key_spec c i w kv : wrapper_at c (Some i) w → c !! i = Some kv → wrapper_key w = Done (fst kv).
Proof.
  intros (it & _ & _ & Hv & Hk) Hkv. unfold wrapper_key. rewrite Hv, bool_decide_eq_true_2, assert_true by done.
  cbn. by rewrite (Hk i kv).
Qed.
Lemma wrapper_value_spec c i w kv : wrapper_at c (Some i) w → c !! i = Some kv → wrapper_value w = Done (snd kv).
Proof.
  intros (it & E & Hat & Hv & _) Hkv. unfold wrapper_value.
  rewrite Hv, bool_decide_eq_true_2, assert_true, E by done. cbn. by apply (it_at_key c i it kv).
Qed.

Lemma wrapper_Update_spec c pos it w : it_at c pos it → ∃ w', wrapper_Update it w = Done w' ∧ wrapper_at c pos w'.
Proof.
  intros Hat. unfold wrapper_Update. rewrite (it_at_Valid c pos it Hat), (it_at_status c pos it Hat).
  change (ok OK) with true. rewrite assert_true. destruct pos as [i|].
  - rewrite bool_decide_eq_true_2 by done. destruct (lookup_lt_is_Some_2 c i) as [kv Hkv]; [by eapply it_at_range|].
    destruct (it_at_key c i it kv Hat Hkv) as [-> _]. cbn [mbind R_bind]. eexists. split; [done|].
    exists it. split_and!; [done|done|by rewrite bool_decide_eq_true_2|]. intros j kv' [= <-]. rewrite Hkv. by intros [= <-].
  - rewrite bool_decide_eq_false_2 by (by intros [? [=]]). eexists. split; [done|]. exists it.
    split_and!; [done|done|by rewrite bool_decide_eq_false_2 by (by intros [? [=]])|done].
Qed.
Lemma wrapper_move_spec c pos w o :
  wrapper_at c pos w → supports o && cursor_may o pos = true →
  ∃ w', wrapper_move (it_step o) w = Done w' ∧ wrapper_at c (cursor_step compare c o pos) w'.
Proof.
  intros Hw Hmay. destruct (wrapper_iter_spec c pos w Hw) as (it & E & Hat). unfold wrapper_move. rewrite E. cbn [mbind R_bind].
  destruct (it_at_step c pos it o Hat Hmay) as (it' & -> & Hat'). cbn [mbind R_bind]. by apply wrapper_Update_spec.
Qed.
Lemma wrapper_Next_spec c i w :
  supports CNext = true → wrapper_at c (Some i) w → ∃ w', wrapper_Next w = Done w' ∧ wrapper_at c (cursor_step compare c CNext (Some i)) w'.
Proof.
  intros Hsup Hw. destruct (wrapper_iter_spec c _ w Hw) as (it & E & Hat). unfold wrapper_Next. rewrite E. cbn [mbind R_bind].
  destruct (it_at_next c i it Hat Hsup) as (it' & r & -> & En & Hr).
  destruct (it_at_step c (Some i) it CNext Hat) as (it2 & E2 & Hat'); [by rewrite Hsup|]. cbn [it_step] in E2. rewrite En in E2.
  injection E2 as <-. cbn [mbind R_bind]. rewrite (it_at_status _ _ _ Hat'). change (ok OK) with true.
  rewrite orb_true_r, assert_true. cbn [mbind R_bind]. set (pos' := cursor_step compare c CNext (Some i)) in *.
  eexists. split; [done|]. destruct pos' as [j|].
  - destruct (lookup_lt_is_Some_2 c j) as [kv Hkv]; [by eapply it_at_range|].
    replace (@mbind option option_bind _ _ (λ j, c !! j) (Some j)) with (c !! j) in Hr by done. rewrite Hkv in Hr.
    destruct r as [[k may]|]; [|done]. cbn in Hr. injection Hr as ->. exists it'.
    split_and!; [done|done|by rewrite bool_decide_eq_true_2|]. intros j' kv' [= <-]. rewrite Hkv. by intros [= <-].
  - destruct r as [[k may]|]; [done|]. exists it'.
    split_and!; [done|done|by rewrite bool_decide_eq_false_2 by (by intros [? [=]])|done].
Qed.
End laws.
