(* ===== verification/FastRange.v ===== *)
(** * Mapping a hash to a range without division (fastrange32, fastrange64, util/hash.h)

    The high half of the product of hash and range. Compilers without a 128-bit
    type use the decomposition into 32-bit halves; it computes the same. *)
From S2P Require Import Prelude.

Definition fastrange32 (hash range : Z) : Z :=
  let product := u64 (range * hash) in u32 (product >> 32).

(** With [__uint128_t]. *)
Definition fastrange64 (hash range : Z) : Z :=
  let wide := wrap 128 (range * hash) in u64 (wide >> 64).

(** The fall back. *)
Definition fastrange64_fallback (hash range : Z) : Z :=
  let range64 := range in
  let tmp := u64 ((range64 .& 0xffffffff) * (hash .& 0xffffffff)) in
  let tmp := tmp >> 32 in
  let tmp := u64 (tmp + u64 ((range64 .& 0xffffffff) * (hash >> 32))) in
  let tmp2 := u64 ((range64 >> 32) * (hash .& 0xffffffff)) in
  let tmp := u64 (tmp + (tmp2 .& 0xffffffff)) in
  let tmp := tmp >> 32 in
  let tmp := u64 (tmp + (tmp2 >> 32)) in
  let tmp := u64 (tmp + u64 ((range64 >> 32) * (hash >> 32))) in
  tmp.

Lemma halves z :
  in_range 64 z →
  ∃ h l, z = h * 2 ^ 32 + l ∧ 0 ≤ h < 2 ^ 32 ∧ 0 ≤ l < 2 ^ 32 ∧
    z .& 0xffffffff = l ∧ z >> 32 = h.
Proof.
  intros Hz. exists (z / 2 ^ 32), (z mod 2 ^ 32).
  pose proof (Z.div_mod z (2 ^ 32)). pose proof (Z.mod_pos_bound z (2 ^ 32)).
  assert (z .& 0xffffffff = z mod 2 ^ 32) as Hl.
  { change 0xffffffff with (Z.ones 32). by apply Z.land_ones. }
  assert (z >> 32 = z / 2 ^ 32) as Hh by by rewrite Z.shiftr_div_pow2.
  unfold in_range in Hz. change (2 ^ 64) with (2 ^ 32 * 2 ^ 32) in Hz.
  assert (0 ≤ z / 2 ^ 32 < 2 ^ 32).
  { split; [apply Z.div_pos; lia|apply Z.div_lt_upper_bound; lia]. }
  split_and!; try lia; done.
Qed.

Lemma wrap64_shift_range a : in_range 64 a → 0 ≤ a >> 32 < 2 ^ 32.
Proof. intros Ha. apply (shiftr_range 64 32); [lia|done]. Qed.

Lemma fastrange64_value hash range :
  in_range 64 hash → in_range 64 range →
  fastrange64 hash range = range * hash / 2 ^ 64 ∧ 0 ≤ range * hash / 2 ^ 64 < 2 ^ 64.
Proof.
  intros Hh Hr. unfold fastrange64. unfold in_range in *.
  assert (0 ≤ range * hash < 2 ^ 64 * 2 ^ 64) as Hp by nia.
  rewrite (wrap_small 128) by (unfold in_range; change (2 ^ 128) with (2 ^ 64 * 2 ^ 64); lia).
  rewrite Z.shiftr_div_pow2 by lia.
  assert (0 ≤ range * hash / 2 ^ 64 < 2 ^ 64).
  { split; [apply Z.div_pos; lia|apply Z.div_lt_upper_bound; lia]. }
  split; [|done]. by apply wrap_small.
Qed.

(** Both versions of [fastrange64] compute the high 64 bits of the product,
    and map every hash below a positive range. *)
Theorem fastrange64_portable hash range :
  in_range 64 hash → in_range 64 range → 0 < range →
  fastrange64_fallback hash range = fastrange64 hash range ∧
  0 ≤ fastrange64 hash range < range.
Proof.
  intros Hh Hr Hpos. destruct (fastrange64_value hash range Hh Hr) as [-> Hv].
  split.
  2: { split; [lia|]. apply Z.div_lt_upper_bound; [lia|]. unfold in_range in *. nia. }
  destruct (halves hash Hh) as (hh & hl & Hhe & Hhh & Hhl & Hh1 & Hh2).
  destruct (halves range Hr) as (rh & rl & Hre & Hrh & Hrl & Hr1 & Hr2).
  unfold fastrange64_fallback. rewrite Hh1, Hh2, Hr1, Hr2. clear Hh1 Hh2 Hr1 Hr2.
  set (B := 2 ^ 32) in *. assert (B = 4294967296) as HB by reflexivity.
  assert (∀ x y, 0 ≤ x < B → 0 ≤ y < B → 0 ≤ x * y ≤ B * B - 2 * B + 1) as Hmul by nia.
  pose proof (Hmul rl hl Hrl Hhl). pose proof (Hmul rl hh Hrl Hhh).
  pose proof (Hmul rh hl Hrh Hhl). pose proof (Hmul rh hh Hrh Hhh).
  assert (2 ^ 64 = B * B) as H64 by reflexivity.
  rewrite !(wrap_small 64 (_ * _)) by (unfold in_range; rewrite H64; lia).
  rewrite !Z.shiftr_div_pow2 by lia. fold B.
  destruct (halves (rh * hl)) as (th & tl & Hte & Hth & Htl & Ht1 & Ht2);
    [unfold in_range; rewrite H64; lia|]. rewrite Z.shiftr_div_pow2 in Ht2 by lia. fold B in Hte, Hth, Htl, Ht2.
  rewrite Ht1, Ht2.
  set (a := rl * hl / B).
  assert (a * B ≤ rl * hl < a * B + B) as Ha.
  { subst a. pose proof (Z.div_mod (rl * hl) B). pose proof (Z.mod_pos_bound (rl * hl) B). lia. }
  assert (0 ≤ a < B) as Hab by nia.
  rewrite (wrap_small 64 (a + rl * hh)) by (unfold in_range; rewrite H64; lia).
  rewrite (wrap_small 64 (a + rl * hh + tl)) by (unfold in_range; rewrite H64; lia).
  set (c := (a + rl * hh + tl) / B).
  assert (c * B ≤ a + rl * hh + tl < c * B + B) as Hc.
  { subst c. pose proof (Z.div_mod (a + rl * hh + tl) B). pose proof (Z.mod_pos_bound (a + rl * hh + tl) B). lia. }
  assert (0 ≤ c ≤ B) as Hcb by nia.
  assert (0 ≤ c + th + rh * hh < B * B) as Hs by nia.
  rewrite (wrap_small 64 (c + th)) by (unfold in_range; rewrite H64; nia).
  rewrite (wrap_small 64 (c + th + rh * hh)) by (unfold in_range; rewrite H64; lia).
  rewrite H64. apply Z.div_unique with (r := range * hash - (c + th + rh * hh) * (B * B)); [|lia].
  left. subst range hash. nia.
Qed.

Example fastrange64_portable_witness :
  fastrange64_fallback 0xdeadbeefcafebabe 1000 = 869 ∧
  fastrange64_fallback 0xdeadbeefcafebabe 1000 = fastrange64 0xdeadbeefcafebabe 1000.
Proof.
  split; [vm_compute; reflexivity|].
  apply fastrange64_portable; vm_compute; [split; congruence|split; congruence|reflexivity].
Defined.
