(* ===== verification/Bloom.v ===== *)
(** * Bloom filters on bytes (util/bloom_impl.h)

    The three implementations behind filter blocks: FastLocalBloomImpl, the
    current one, and the legacy ones with and without locality. Each adds a hash
    by setting the bits of a sequence of probes and matches one by testing the
    same bits. What is estimated for warnings (BloomMath) is not modelled. *)
From Stdlib Require Import SpecFloat.
From S2P Require Import Prelude Result FastRange.

(** ** Memory

    [data] is the whole buffer; a pointer into it is an offset. *)

Definition load (data : bytes) (i : Z) : R Z := checked OutOfBounds (if i <? 0 then None else data !! Z.to_nat i).
Definition or_at (data : bytes) (i mask : Z) : R bytes :=
  b ← load data i; Done (<[Z.to_nat i := b .| mask]> data).

(** [ptr[bitpos / 8] |= 1 << (bitpos % 8)], and the test of that bit. *)
Definition set_bit (data : bytes) (ptr bitpos : Z) : R bytes := or_at data (ptr + (bitpos >> 3)) (1 << (bitpos .& 7)).
Definition test_bit (data : bytes) (ptr bitpos : Z) : R bool :=
  b ← load data (ptr + (bitpos >> 3)); Done (negb (b .& (1 << (bitpos .& 7)) =? 0)).

(** The loops over the probes: [next] makes the next hash of the last one,
    [bitpos] the position a hash probes. *)
Fixpoint set_probes (next bitpos : Z → Z) (num_probes : nat) (h : Z) (data : bytes) (ptr : Z) : R bytes :=
  match num_probes with
  | O => Done data
  | S n => data ← set_bit data ptr (bitpos h); set_probes next bitpos n (next h) data ptr
  end.
Fixpoint test_probes (next bitpos : Z → Z) (num_probes : nat) (h : Z) (data : bytes) (ptr : Z) : R bool :=
  match num_probes with
  | O => Done true
  | S n => t ← test_bit data ptr (bitpos h); if t : bool then test_probes next bitpos n (next h) data ptr else Done false
  end.

(** ** FastLocalBloomImpl *)

Definition FastLocal_ChooseNumProbes (millibits_per_key : Z) : Z :=
  if millibits_per_key <=? 2080 then 1
  else if millibits_per_key <=? 3580 then 2
  else if millibits_per_key <=? 5100 then 3
  else if millibits_per_key <=? 6640 then 4
  else if millibits_per_key <=? 8300 then 5
  else if millibits_per_key <=? 10070 then 6
  else if millibits_per_key <=? 11720 then 7
  else if millibits_per_key <=? 14001 then 8
  else if millibits_per_key <=? 16050 then 9
  else if millibits_per_key <=? 18300 then 10
  else if millibits_per_key <=? 22001 then 11
  else if millibits_per_key <=? 25501 then 12
  else if 50000 <? millibits_per_key then 24
  else (millibits_per_key - 1) / 2000 - 1.

Definition FastLocal_next (h : Z) : Z := u32 (h * 0x9e3779b9).
(** A 9-bit address within a 512-bit cache line. *)
Definition FastLocal_bitpos (h : Z) : Z := h >> (32 - 9).

(** The offset of the cache line. *)
Definition FastLocal_PrepareHash (h1 len_bytes : Z) : Z := u32 (fastrange32 (len_bytes >> 6) h1 << 6).
Definition FastLocal_AddHashPrepared (h2 num_probes : Z) (data : bytes) (ptr : Z) : R bytes :=
  set_probes FastLocal_next FastLocal_bitpos (Z.to_nat num_probes) h2 data ptr.
Definition FastLocal_AddHash (h1 h2 len_bytes num_probes : Z) (data : bytes) : R bytes :=
  let bytes_to_cache_line := u32 (fastrange32 (len_bytes >> 6) h1 << 6) in
  FastLocal_AddHashPrepared h2 num_probes data bytes_to_cache_line.
(** Without AVX2. *)
Definition FastLocal_HashMayMatchPrepared (h2 num_probes : Z) (data : bytes) (ptr : Z) : R bool :=
  test_probes FastLocal_next FastLocal_bitpos (Z.to_nat num_probes) h2 data ptr.
Definition FastLocal_HashMayMatch (h1 h2 len_bytes num_probes : Z) (data : bytes) : R bool :=
  let bytes_to_cache_line := u32 (fastrange32 (len_bytes >> 6) h1 << 6) in
  FastLocal_HashMayMatchPrepared h2 num_probes data bytes_to_cache_line.

(** ** LegacyNoLocalityBloomImpl *)

Definition ln2_rounded_down : double := S754_finite false 6214967485771284 (-53). (* 0.69 *)
Definition LegacyNoLocality_ChooseNumProbes (bits_per_key : Z) : R Z :=
  num_probes ← checked Undefined (double_to_uint 31 (double_mul (double_of bits_per_key) ln2_rounded_down));
  let num_probes := if num_probes <? 1 then 1 else num_probes in
  Done (if 30 <? num_probes then 30 else num_probes).

(** Rotate right 17 bits. *)
Definition legacy_delta (h : Z) : Z := u32 (h >> 17 .| u32 (h << 15)).

(** A remainder by zero is undefined; the loop may not get that far. *)
Definition LegacyNoLocality_AddHash (h total_bits num_probes : Z) (data : bytes) : R bytes :=
  let delta := legacy_delta h in
  _ ← require Undefined ((num_probes <=? 0) || negb (total_bits =? 0));
  set_probes (λ h, u32 (h + delta)) (λ h, h mod total_bits) (Z.to_nat num_probes) h data 0.
Definition LegacyNoLocality_HashMayMatch (h total_bits num_probes : Z) (data : bytes) : R bool :=
  let delta := legacy_delta h in
  _ ← require Undefined ((num_probes <=? 0) || negb (total_bits =? 0));
  test_probes (λ h, u32 (h + delta)) (λ h, h mod total_bits) (Z.to_nat num_probes) h data 0.

(** ** LegacyLocalityBloomImpl *)

Section locality.
Context (ExtraRotates : bool).

Definition GetLine (h num_lines : Z) : R Z :=
  let offset_h := if ExtraRotates then h >> 11 .| u32 (h << 21) else h in
  _ ← require Undefined (negb (num_lines =? 0));
  Done (offset_h mod num_lines).

(** A shift by the width or more is undefined, [1 << 31] overflows. *)
Definition shift_ok (log2_cache_line_bytes : Z) : R unit :=
  require Undefined ((0 <=? log2_cache_line_bytes) && (log2_cache_line_bytes + 3 <? 31)).
Definition line_offset (h num_lines log2_cache_line_bytes : Z) : R Z :=
  line ← GetLine h num_lines;
  _ ← require Undefined ((0 <=? log2_cache_line_bytes) && (log2_cache_line_bytes <? 32));
  Done (u32 (line << log2_cache_line_bytes)).

Definition LegacyLocality_next (log2_cache_line_bits delta h : Z) : Z :=
  let h := if ExtraRotates then h >> log2_cache_line_bits .| u32 (h << (32 - log2_cache_line_bits)) else h in
  u32 (h + delta).
Definition LegacyLocality_bitpos (log2_cache_line_bits h : Z) : Z := h .& ((1 << log2_cache_line_bits) - 1).

Definition LegacyLocality_AddHash (h num_lines num_probes : Z) (data : bytes) (log2_cache_line_bytes : Z) : R bytes :=
  let log2_cache_line_bits := log2_cache_line_bytes + 3 in
  data_at_offset ← line_offset h num_lines log2_cache_line_bytes;
  let delta := legacy_delta h in
  _ ← shift_ok log2_cache_line_bytes;
  set_probes (LegacyLocality_next log2_cache_line_bits delta) (LegacyLocality_bitpos log2_cache_line_bits)
    (Z.to_nat num_probes) h data data_at_offset.

Definition LegacyLocality_PrepareHashMayMatch (h num_lines log2_cache_line_bytes : Z) : R Z :=
  b ← line_offset h num_lines log2_cache_line_bytes;
  _ ← shift_ok log2_cache_line_bytes;
  Done b.
Definition LegacyLocality_HashMayMatchPrepared (h num_probes : Z) (data : bytes) (data_at_offset log2_cache_line_bytes : Z) : R bool :=
  let log2_cache_line_bits := log2_cache_line_bytes + 3 in
  let delta := legacy_delta h in
  _ ← shift_ok log2_cache_line_bytes;
  test_probes (LegacyLocality_next log2_cache_line_bits delta) (LegacyLocality_bitpos log2_cache_line_bits)
    (Z.to_nat num_probes) h data data_at_offset.
Definition LegacyLocality_HashMayMatch (h num_lines num_probes : Z) (data : bytes) (log2_cache_line_bytes : Z) : R bool :=
  b ← line_offset h num_lines log2_cache_line_bytes;
  LegacyLocality_HashMayMatchPrepared h num_probes data b log2_cache_line_bytes.
End locality.

(** ** Bits only ever get set *)

(** [covers data data']: every bit of [data] is set in [data']. *)
Definition covers : bytes → bytes → Prop := Forall2 (λ b b', ∀ k, Z.testbit b k = true → Z.testbit b' k = true).

#[export] Instance covers_preorder : PreOrder covers.
Proof.
  split; [intros d; by apply Forall_Forall2_diag, Forall_true|].
  intros d1 d2 d3 H12. revert d3. unfold covers in *. induction H12; intros d3 H23; inversion H23; subst; constructor; [naive_solver|auto].
Qed.
Lemma covers_length d d' : covers d d' → length d = length d'.
Proof. apply Forall2_length. Qed.

Lemma load_at data i b : 0 ≤ i → data !! Z.to_nat i = Some b → load data i = Done b.
Proof. intros Hi Hb. unfold load. destruct (Z.ltb_spec i 0); [lia|]. by rewrite Hb. Qed.
Lemma load_in data i : 0 ≤ i < blen data → ∃ b, data !! Z.to_nat i = Some b ∧ load data i = Done b.
Proof.
  intros Hi. destruct (lookup_lt_is_Some_2 data (Z.to_nat i)) as [b Hb]; [unfold blen in Hi; lia|].
  exists b. split; [done|]. apply load_at; [lia|done].
Qed.
Lemma load_covers d d' i b : covers d d' → load d i = Done b → ∃ b', load d' i = Done b' ∧ ∀ k, Z.testbit b k = true → Z.testbit b' k = true.
Proof.
  intros Hc. unfold load. destruct (Z.ltb_spec i 0); [done|]. destruct (d !! Z.to_nat i) as [x|] eqn:Hx; [|done].
  intros [= <-]. destruct (Forall2_lookup_l _ _ _ _ _ Hc Hx) as (b' & -> & Hb). by exists b'.
Qed.

Lemma one_bit k j : 0 ≤ k → Z.testbit (1 << k) j = bool_decide (j = k).
Proof.
  intros Hk. rewrite Z.shiftl_1_l. case_bool_decide as E; [subst; by apply Z.pow2_bits_true|]. by apply Z.pow2_bits_false.
Qed.
Lemma land_one_bit b k : 0 ≤ k → negb (b .& (1 << k) =? 0) = Z.testbit b k.
Proof.
  intros Hk. destruct (Z.eqb_spec (b .& (1 << k)) 0) as [E|E]; cbn [negb].
  - rewrite <- (andb_true_r (Z.testbit b k)), <- (bool_decide_eq_true_2 (k = k)) by done.
    by rewrite <- (one_bit k k), <- Z.land_spec, E, Z.bits_0.
  - destruct (Z.testbit b k) eqn:Eb; [done|]. destruct E. apply Z.bits_inj'. intros j Hj.
    rewrite Z.land_spec, one_bit, Z.bits_0 by done. case_bool_decide; [by subst; rewrite Eb|by rewrite andb_false_r].
Qed.
Lemma low3 z : 0 ≤ z .& 7 < 8.
Proof. change 7 with (Z.ones 3). rewrite Z.land_ones by lia. by apply Z.mod_pos_bound. Qed.

Section probes.
Context (data : bytes) (ptr n : Z) (Hptr : 0 ≤ ptr) (Hn : ptr + n ≤ blen data).

Lemma bit_in bitpos : 0 ≤ bitpos < 8 * n → 0 ≤ ptr + (bitpos >> 3) < blen data.
Proof.
  intros Hb. rewrite Z.shiftr_div_pow2 by lia. change (2 ^ 3) with 8.
  pose proof (Z.div_pos bitpos 8). assert (bitpos / 8 < n) by (apply Z.div_lt_upper_bound; lia). lia.
Qed.
Lemma test_bit_in bitpos : 0 ≤ bitpos < 8 * n → ∃ t, test_bit data ptr bitpos = Done t.
Proof. intros Hb. unfold test_bit. destruct (load_in data _ (bit_in bitpos Hb)) as (b & _ & ->). by eexists. Qed.
Lemma set_bit_in bitpos :
  0 ≤ bitpos < 8 * n → ∃ data', set_bit data ptr bitpos = Done data' ∧ covers data data' ∧ test_bit data' ptr bitpos = Done true ∧
    (bytes_ok data → bytes_ok data').
Proof.
  intros Hb. pose proof (bit_in bitpos Hb) as Hin. unfold set_bit, or_at. destruct (load_in data _ Hin) as (b & Hl & ->). cbn [mbind R_bind].
  pose proof (low3 bitpos) as Hk. eexists. split; [done|]. split_and!.
  - apply Forall2_same_length_lookup. split; [by rewrite length_insert|]. intros i x y Hx Hy k Hbit.
    destruct (decide (i = Z.to_nat (ptr + (bitpos >> 3)))) as [->|Hne].
    + rewrite list_lookup_insert_eq in Hy by (unfold blen in Hin; lia). rewrite Hl in Hx. simplify_eq. by rewrite Z.lor_spec, Hbit.
    + rewrite list_lookup_insert_ne in Hy by done. rewrite Hx in Hy. by injection Hy as <-.
  - unfold test_bit. rewrite (load_at _ _ (b .| (1 << (bitpos .& 7)))); [|lia|by rewrite list_lookup_insert_eq by (unfold blen in Hin; lia)].
    cbn [mbind R_bind]. rewrite land_one_bit, Z.lor_spec, one_bit, bool_decide_eq_true_2 by (done || lia). by rewrite orb_true_r.
  - intros Hok. apply Forall_insert; [done|]. apply lor_range; [lia| |].
    + by apply (Forall_lookup_1 _ _ _ _ Hok Hl).
    + rewrite Z.shiftl_1_l. split; [by apply Z.pow_nonneg|]. apply Z.pow_lt_mono_r; lia.
Qed.
End probes.

Lemma test_bit_covers d d' ptr bitpos : covers d d' → test_bit d ptr bitpos = Done true → test_bit d' ptr bitpos = Done true.
Proof.
  intros Hc. unfold test_bit. destruct (load d _) as [b|] eqn:E; [|done]. destruct (load_covers d d' _ b Hc E) as (b' & -> & Hb).
  cbn [mbind R_bind]. pose proof (low3 bitpos). rewrite !land_one_bit by lia. intros [= Ht]. by rewrite (Hb _ Ht).
Qed.
Lemma test_probes_covers next bitpos n h d d' ptr :
  covers d d' → test_probes next bitpos n h d ptr = Done true → test_probes next bitpos n h d' ptr = Done true.
Proof.
  intros Hc. revert h. induction n as [|n IH]; intros h; cbn [test_probes]; [done|].
  destruct (test_bit d ptr (bitpos h)) as [[]|] eqn:E; [|done..]. rewrite (test_bit_covers d d' ptr _ Hc E). cbn [mbind R_bind]. apply IH.
Qed.

(** What works on a buffer works on its beginning of a longer one. *)
Lemma load_app d s i b : load d i = Done b → load (d ++ s) i = Done b.
Proof.
  unfold load. destruct (i <? 0); [done|]. destruct (d !! Z.to_nat i) as [x|] eqn:E; [|done]. by rewrite (lookup_app_l_Some _ _ _ _ E).
Qed.
Lemma set_probes_app next bitpos n h d d' s ptr :
  set_probes next bitpos n h d ptr = Done d' → set_probes next bitpos n h (d ++ s) ptr = Done (d' ++ s).
Proof.
  revert h d. induction n as [|n IH]; intros h d; cbn [set_probes]; [by intros [= ->]|].
  intros (d1 & E & Hrest)%R_bind_Done. unfold set_bit, or_at in *. apply R_bind_Done in E as (b & El & E). rewrite (load_app d s _ b El). cbn [mbind R_bind].
  injection E as <-. rewrite insert_app_l; [by apply IH|]. unfold load in El. destruct (_ <? 0); [done|].
  destruct (d !! _) eqn:E; [|done]. by eapply lookup_lt_Some.
Qed.
Lemma test_probes_app next bitpos n h d s ptr t :
  test_probes next bitpos n h d ptr = Done t → test_probes next bitpos n h (d ++ s) ptr = Done t.
Proof.
  revert h. induction n as [|n IH]; intros h; cbn [test_probes]; [done|]. unfold test_bit.
  intros (x & (b & El & E)%R_bind_Done & Hrest)%R_bind_Done. rewrite (load_app d s _ b El). cbn [mbind R_bind]. injection E as ->.
  destruct x; [by apply IH|done].
Qed.

(** The loops, for hashes that keep [inv] and probe within [n] bytes. *)
Section loops.
Context (next bitpos : Z → Z) (inv : Z → Prop) (n : Z).
Context (Hnext : ∀ h, inv h → inv (next h)) (Hbitpos : ∀ h, inv h → 0 ≤ bitpos h < 8 * n).

Lemma set_probes_spec k h data ptr :
  inv h → 0 ≤ ptr → ptr + n ≤ blen data →
  ∃ data', set_probes next bitpos k h data ptr = Done data' ∧ covers data data' ∧ test_probes next bitpos k h data' ptr = Done true ∧
    (bytes_ok data → bytes_ok data').
Proof.
  intros Hinv Hptr. revert h data Hinv. induction k as [|k IH]; intros h data Hinv Hn; cbn [set_probes test_probes]; [by exists data|].
  destruct (set_bit_in data ptr n Hptr Hn (bitpos h) (Hbitpos h Hinv)) as (data1 & -> & Hc1 & Ht1 & Hok1). cbn [mbind R_bind].
  destruct (IH (next h) data1 (Hnext h Hinv)) as (data' & -> & Hc & Ht & Hok); [unfold blen in *; by rewrite <- (covers_length _ _ Hc1)|].
  exists data'. split; [done|]. split; [by transitivity data1|]. rewrite (test_bit_covers data1 data' ptr _ Hc Ht1). cbn [mbind R_bind]. eauto.
Qed.
Lemma test_probes_total k h data ptr :
  inv h → 0 ≤ ptr → ptr + n ≤ blen data → ∃ t, test_probes next bitpos k h data ptr = Done t.
Proof.
  intros Hinv Hptr Hn. revert h Hinv. induction k as [|k IH]; intros h Hinv; cbn [test_probes]; [by eexists|].
  destruct (test_bit_in data ptr n Hptr Hn (bitpos h) (Hbitpos h Hinv)) as ([] & ->); cbn [mbind R_bind]; [|by eexists]. apply IH. by apply Hnext.
Qed.
End loops.

(** ** What is added is found *)

Lemma fastrange32_below hash range : in_range 32 hash → in_range 32 range → 0 ≤ fastrange32 hash range ∧ (0 < hash → fastrange32 hash range < hash).
Proof.
  intros [Hh0 Hh] [Hr0 Hr]. unfold fastrange32. rewrite (wrap_small 64) by (unfold in_range; change (2 ^ 64) with (2 ^ 32 * 2 ^ 32); nia).
  rewrite Z.shiftr_div_pow2 by lia.
  assert (0 ≤ range * hash / 2 ^ 32) by (apply Z.div_pos; nia).
  assert (range * hash / 2 ^ 32 ≤ hash) by (apply Z.div_le_upper_bound; nia).
  rewrite wrap_small by (unfold in_range in *; lia). split; [done|]. intros Hpos. apply Z.div_lt_upper_bound; nia.
Qed.

Section fast_local.
Context (len_bytes : Z) (Hlen : in_range 32 len_bytes) (Hline : 64 ≤ len_bytes).

Lemma FastLocal_PrepareHash_line h1 : in_range 32 h1 → 0 ≤ FastLocal_PrepareHash h1 len_bytes ∧ FastLocal_PrepareHash h1 len_bytes + 64 ≤ len_bytes.
Proof.
  intros Hh. unfold FastLocal_PrepareHash. unfold in_range in Hlen. rewrite Z.shiftr_div_pow2, Z.shiftl_mul_pow2 by lia. change (2 ^ 6) with 64.
  pose proof (Z.div_mod len_bytes 64). pose proof (Z.mod_pos_bound len_bytes 64).
  destruct (fastrange32_below (len_bytes / 64) h1) as [Hb Hlt]; [unfold in_range; lia|done|].
  rewrite wrap_small by (unfold in_range; lia). lia.
Qed.
Lemma FastLocal_next_range h : in_range 32 h → in_range 32 (FastLocal_next h).
Proof. intros _. apply wrap_range. lia. Qed.
Lemma FastLocal_bitpos_range h : in_range 32 h → 0 ≤ FastLocal_bitpos h < 8 * 64.
Proof. intros Hh. unfold FastLocal_bitpos. by apply (shiftr_range 32 23). Qed.

(** In a cache line of the filter. *)
Lemma FastLocal_AddHashPrepared_spec h1 h2 num_probes data :
  in_range 32 h1 → in_range 32 h2 → len_bytes ≤ blen data →
  ∃ data', FastLocal_AddHashPrepared h2 num_probes data (FastLocal_PrepareHash h1 len_bytes) = Done data' ∧ covers data data' ∧
    FastLocal_HashMayMatchPrepared h2 num_probes data' (FastLocal_PrepareHash h1 len_bytes) = Done true ∧ (bytes_ok data → bytes_ok data').
Proof.
  intros H1 H2 Hd. destruct (FastLocal_PrepareHash_line h1 H1).
  apply (set_probes_spec _ _ (in_range 32) 64 FastLocal_next_range FastLocal_bitpos_range); [done|lia..].
Qed.
Lemma FastLocal_HashMayMatchPrepared_total h1 h2 num_probes data :
  in_range 32 h1 → in_range 32 h2 → len_bytes ≤ blen data →
  ∃ t, FastLocal_HashMayMatchPrepared h2 num_probes data (FastLocal_PrepareHash h1 len_bytes) = Done t.
Proof.
  intros H1 H2 Hd. destruct (FastLocal_PrepareHash_line h1 H1).
  apply (test_probes_total _ _ (in_range 32) 64 FastLocal_next_range FastLocal_bitpos_range); [done|lia..].
Qed.
End fast_local.
Lemma FastLocal_AddHash_app h1 h2 len num_probes d d' s :
  FastLocal_AddHash h1 h2 len num_probes d = Done d' → FastLocal_AddHash h1 h2 len num_probes (d ++ s) = Done (d' ++ s).
Proof. apply set_probes_app. Qed.

Section no_locality.
Context (total_bits : Z) (Hbits : 0 < total_bits).

Lemma LegacyNoLocality_next_range delta h : in_range 32 h → in_range 32 (u32 (h + delta)).
Proof. intros _. apply wrap_range. lia. Qed.
Lemma LegacyNoLocality_bitpos_range n h : total_bits ≤ 8 * n → in_range 32 h → 0 ≤ h mod total_bits < 8 * n.
Proof. intros Hn Hh. pose proof (Z.mod_pos_bound h total_bits). lia. Qed.

Lemma LegacyNoLocality_AddHash_spec h num_probes data :
  in_range 32 h → total_bits ≤ 8 * blen data →
  ∃ data', LegacyNoLocality_AddHash h total_bits num_probes data = Done data' ∧ covers data data' ∧
    LegacyNoLocality_HashMayMatch h total_bits num_probes data' = Done true ∧ (bytes_ok data → bytes_ok data').
Proof.
  intros Hh Hn. unfold LegacyNoLocality_AddHash, LegacyNoLocality_HashMayMatch.
  replace (total_bits =? 0) with false by (symmetry; apply Z.eqb_neq; lia). rewrite orb_true_r. cbn [negb require mbind R_bind].
  apply (set_probes_spec _ _ (in_range 32) (blen data) (LegacyNoLocality_next_range _)); [|done|lia..].
  intros. by apply LegacyNoLocality_bitpos_range.
Qed.
Lemma LegacyNoLocality_HashMayMatch_total h num_probes data :
  in_range 32 h → total_bits ≤ 8 * blen data → ∃ t, LegacyNoLocality_HashMayMatch h total_bits num_probes data = Done t.
Proof.
  intros Hh Hn. unfold LegacyNoLocality_HashMayMatch.
  replace (total_bits =? 0) with false by (symmetry; apply Z.eqb_neq; lia). rewrite orb_true_r. cbn [negb require mbind R_bind].
  apply (test_probes_total _ _ (in_range 32) (blen data) (LegacyNoLocality_next_range _)); [|done|lia..].
  intros. by apply LegacyNoLocality_bitpos_range.
Qed.
Lemma LegacyNoLocality_HashMayMatch_covers h num_probes d d' :
  covers d d' → LegacyNoLocality_HashMayMatch h total_bits num_probes d = Done true → LegacyNoLocality_HashMayMatch h total_bits num_probes d' = Done true.
Proof. intros Hc. unfold LegacyNoLocality_HashMayMatch. destruct (require _ _); [|done]. by apply test_probes_covers. Qed.
End no_locality.

Section with_locality.
Context (ExtraRotates : bool) (num_lines log2 : Z).
Context (Hlines : 0 < num_lines) (Hlog2 : 0 ≤ log2 < 28) (Hfit : num_lines * 2 ^ log2 < 2 ^ 32).

Lemma line_offset_spec h :
  in_range 32 h → ∃ b, line_offset ExtraRotates h num_lines log2 = Done b ∧ 0 ≤ b ∧ b + 2 ^ log2 ≤ num_lines * 2 ^ log2.
Proof.
  intros Hh. unfold line_offset, GetLine. replace (num_lines =? 0) with false by (symmetry; apply Z.eqb_neq; lia). cbn [negb require mbind R_bind].
  replace (0 <=? log2) with true by (symmetry; apply Z.leb_le; lia). replace (log2 <? 32) with true by (symmetry; apply Z.ltb_lt; lia).
  cbn [andb require mbind R_bind]. eexists. split; [done|]. set (o := if ExtraRotates then _ else _).
  pose proof (Z.mod_pos_bound o num_lines Hlines) as Hm. rewrite Z.shiftl_mul_pow2 by lia. assert (0 < 2 ^ log2) by (apply Z.pow_pos_nonneg; lia).
  rewrite wrap_small by (unfold in_range; nia). nia.
Qed.
Lemma shift_ok_spec : shift_ok log2 = Done tt.
Proof.
  unfold shift_ok. replace (0 <=? log2) with true by (symmetry; apply Z.leb_le; lia).
  by replace (log2 + 3 <? 31) with true by (symmetry; apply Z.ltb_lt; lia).
Qed.
Lemma LegacyLocality_next_range delta h : in_range 32 h → in_range 32 (LegacyLocality_next ExtraRotates (log2 + 3) delta h).
Proof. intros _. unfold LegacyLocality_next. apply wrap_range. lia. Qed.
Lemma LegacyLocality_bitpos_range h : in_range 32 h → 0 ≤ LegacyLocality_bitpos (log2 + 3) h < 8 * 2 ^ log2.
Proof.
  intros _. unfold LegacyLocality_bitpos. rewrite Z.shiftl_1_l, Z.sub_1_r, <- Z.ones_equiv, Z.land_ones by lia.
  replace (8 * 2 ^ log2) with (2 ^ (log2 + 3)) by (rewrite Z.pow_add_r by lia; lia). apply Z.mod_pos_bound. apply Z.pow_pos_nonneg; lia.
Qed.

Lemma LegacyLocality_AddHash_spec h num_probes data :
  in_range 32 h → num_lines * 2 ^ log2 ≤ blen data →
  ∃ data', LegacyLocality_AddHash ExtraRotates h num_lines num_probes data log2 = Done data' ∧ covers data data' ∧
    LegacyLocality_HashMayMatch ExtraRotates h num_lines num_probes data' log2 = Done true ∧ (bytes_ok data → bytes_ok data').
Proof.
  intros Hh Hn. unfold LegacyLocality_AddHash, LegacyLocality_HashMayMatch, LegacyLocality_HashMayMatchPrepared.
  destruct (line_offset_spec h Hh) as (b & -> & Hb0 & Hb). cbn [mbind R_bind]. rewrite shift_ok_spec. cbn [mbind R_bind].
  apply (set_probes_spec _ _ (in_range 32) (2 ^ log2) (LegacyLocality_next_range _) LegacyLocality_bitpos_range); [done|lia..].
Qed.
Lemma LegacyLocality_HashMayMatch_total h num_probes data :
  in_range 32 h → num_lines * 2 ^ log2 ≤ blen data → ∃ t, LegacyLocality_HashMayMatch ExtraRotates h num_lines num_probes data log2 = Done t.
Proof.
  intros Hh Hn. unfold LegacyLocality_HashMayMatch, LegacyLocality_HashMayMatchPrepared.
  destruct (line_offset_spec h Hh) as (b & -> & Hb0 & Hb). cbn [mbind R_bind]. rewrite shift_ok_spec. cbn [mbind R_bind].
  apply (test_probes_total _ _ (in_range 32) (2 ^ log2) (LegacyLocality_next_range _) LegacyLocality_bitpos_range); [done|lia..].
Qed.
Lemma LegacyLocality_HashMayMatch_covers h num_probes d d' :
  covers d d' → LegacyLocality_HashMayMatch ExtraRotates h num_lines num_probes d log2 = Done true →
  LegacyLocality_HashMayMatch ExtraRotates h num_lines num_probes d' log2 = Done true.
Proof.
  intros Hc. unfold LegacyLocality_HashMayMatch, LegacyLocality_HashMayMatchPrepared. destruct (line_offset _ _ _ _); [|done]. cbn [mbind R_bind].
  destruct (shift_ok _); [|done]. by apply test_probes_covers.
Qed.
End with_locality.
Lemma LegacyLocality_AddHash_app ExtraRotates h num_lines num_probes log2 d d' s :
  LegacyLocality_AddHash ExtraRotates h num_lines num_probes d log2 = Done d' →
  LegacyLocality_AddHash ExtraRotates h num_lines num_probes (d ++ s) log2 = Done (d' ++ s).
Proof.
  unfold LegacyLocality_AddHash. destruct (line_offset _ _ _ _); [|done]. cbn [mbind R_bind]. destruct (shift_ok _); [|done]. apply set_probes_app.
Qed.
Lemma LegacyLocality_HashMayMatch_app ExtraRotates h num_lines num_probes log2 d s t :
  LegacyLocality_HashMayMatch ExtraRotates h num_lines num_probes d log2 = Done t →
  LegacyLocality_HashMayMatch ExtraRotates h num_lines num_probes (d ++ s) log2 = Done t.
Proof.
  unfold LegacyLocality_HashMayMatch, LegacyLocality_HashMayMatchPrepared. destruct (line_offset _ _ _ _); [|done]. cbn [mbind R_bind].
  destruct (shift_ok _); [|done]. apply test_probes_app.
Qed.
