(* ===== verification/FilterPolicy.v ===== *)
(** * The Bloom filter policy (table/block_based/filter_policy.cc, filter_policy_internal.h)

    Builders that collect the hashes of keys and write a filter with the
    metadata that says how to read it, the readers, and the policy that chooses
    among them. The 64-bit hash of slices is a parameter: what is shown holds
    for any. Loggers and the estimate behind their warnings are left out. *)
From Stdlib Require Import SpecFloat.
From S2P Require Import Prelude Result Coding Hash FastRange Bloom.

(** CACHE_LINE_SIZE (port/port_posix.h), a power of two from 64 to 256 that a
    platform fixes; filters move between platforms. *)
Class Platform := { log2_CACHE_LINE_SIZE : Z; cache_line_sizes : 6 ≤ log2_CACHE_LINE_SIZE ≤ 8 }.
Definition CACHE_LINE_SIZE `{Platform} : Z := 1 << log2_CACHE_LINE_SIZE.

(** [GetSliceHash64], util/hash.h. *)
Class SliceHash64 := { GetSliceHash64 : bytes → Z; GetSliceHash64_range : ∀ key, in_range 64 (GetSliceHash64 key) }.
Definition Upper32of64 (v : Z) : Z := u32 (v >> 32).
Definition Lower32of64 (v : Z) : Z := u32 v.

(** [static_cast<int>] of an unsigned value. *)
Definition to_int (v : Z) : Z := to_signed 32 v.
(** Arithmetic in [int], undefined when it overflows. *)
Definition int_mul (x y : Z) : R Z := _ ← require Undefined (bool_decide (in_srange 32 (x * y))); Done (x * y).

Definition store (data : bytes) (i b : Z) : R bytes := _ ← load data i; Done (<[Z.to_nat i := b]> data).
(** Copies [s] to [data + i]. *)
Definition store_at (data : bytes) (i : Z) (s : bytes) : R bytes :=
  _ ← require OutOfBounds ((0 <=? i) && (i + blen s <=? blen data));
  Done (take (Z.to_nat i) data ++ s ++ drop (Z.to_nat i + length s) data).

Definition kBufferMask : nat := 7.
Definition MAX_BATCH_SIZE : Z := 32. (* MultiGetContext, table/multiget_context.h *)

(** A loop that carries the buffer. *)
Fixpoint for_entries {A B} (f : A → B → R B) (l : list A) (b : B) : R B :=
  match l with [] => Done b | x :: l' => b ← f x b; for_entries f l' b end.
Fixpoint map_R {A B} (f : A → R B) (l : list A) : R (list B) :=
  match l with [] => Done [] | x :: l' => y ← f x; ys ← map_R f l'; Done (y :: ys) end.

Section policy.
Context `{Build, Host, Platform, SliceHash64}.

(** ** FastLocalBloomBitsBuilder *)

Record FastLocalBloomBitsBuilder := mkFastBuilder {
  fast_millibits_per_key_ : Z;
  fast_num_probes_ : Z;
  fast_hash_entries_ : list Z;
}.

Definition new_FastLocalBloomBitsBuilder (millibits_per_key : Z) : R FastLocalBloomBitsBuilder :=
  _ ← assert (1000 <=? millibits_per_key);
  Done (mkFastBuilder millibits_per_key (FastLocal_ChooseNumProbes millibits_per_key) []).

(** A hash equal to the last one is not repeated. *)
Definition add_hash (hash : Z) (entries : list Z) : list Z :=
  if bool_decide (last entries = Some hash) then entries else entries ++ [hash].

Definition Fast_AddKey (key : bytes) (b : FastLocalBloomBitsBuilder) : FastLocalBloomBitsBuilder :=
  mkFastBuilder (fast_millibits_per_key_ b) (fast_num_probes_ b) (add_hash (GetSliceHash64 key) (fast_hash_entries_ b)).

Definition Fast_CalculateSpace (num_entry : Z) (b : FastLocalBloomBitsBuilder) : Z :=
  let num_cache_lines :=
    if (0 <? fast_millibits_per_key_ b) && (0 <? num_entry)
    then u32 ((num_entry * fast_millibits_per_key_ b + 511999) / 512000) else 0 in
  u32 (num_cache_lines * 64 + 5).
Definition Fast_CalculateNumEntry (bytes : Z) (b : FastLocalBloomBitsBuilder) : R Z :=
  let bytes_no_meta := if 5 <=? bytes then bytes - 5 else 0 in
  _ ← require Undefined (negb (fast_millibits_per_key_ b =? 0));
  Done (to_int (u64 (8000 * bytes_no_meta) / u64 (fast_millibits_per_key_ b))).

(** What AddAllEntries keeps of a hash: the hash for the probes, and the cache
    line. *)
Definition prepare (len h : Z) : Z * Z := (Upper32of64 h, FastLocal_PrepareHash (Lower32of64 h) len).
Definition add_prepared (num_probes : Z) (p : Z * Z) (data : bytes) : R bytes :=
  FastLocal_AddHashPrepared (fst p) num_probes data (snd p).

(** "Process and buffer": the entries from [i] on. *)
Fixpoint process_and_buffer (num_probes len : Z) (entries : list Z) (i : nat) (buffer : list (Z * Z)) (data : bytes)
    : R (list (Z * Z) * bytes) :=
  match entries with
  | [] => Done (buffer, data)
  | h :: entries' =>
      let slot := (i mod (kBufferMask + 1))%nat in (* i & kBufferMask *)
      p ← checked OutOfBounds (buffer !! slot);
      data ← add_prepared num_probes p data;
      process_and_buffer num_probes len entries' (S i) (<[slot := prepare len h]> buffer) data
  end.
Definition AddAllEntries (num_probes : Z) (entries : list Z) (data : bytes) (len : Z) : R bytes :=
  let primed := prepare len <$> take (kBufferMask + 1) entries in
  '(buffer, data) ← process_and_buffer num_probes len (drop (kBufferMask + 1) entries) (length primed) primed data;
  for_entries (add_prepared num_probes) buffer data.

(** The simple version its comment gives. *)
Definition AddAllEntries_simple (num_probes : Z) (entries : list Z) (data : bytes) (len : Z) : R bytes :=
  for_entries (λ h, FastLocal_AddHash (Lower32of64 h) (Upper32of64 h) len num_probes) entries data.

Definition Fast_Finish (b : FastLocalBloomBitsBuilder) : R (bytes * FastLocalBloomBitsBuilder) :=
  let len_with_metadata := Fast_CalculateSpace (to_int (u32 (Z.of_nat (length (fast_hash_entries_ b))))) b in
  let data := replicate (Z.to_nat len_with_metadata) 0 in
  _ ← assert (5 <=? len_with_metadata);
  let len := u32 (len_with_metadata - 5) in
  '(data, entries) ← (if 0 <? len then
                        data ← AddAllEntries (fast_num_probes_ b) (fast_hash_entries_ b) data len; Done (data, [])
                      else Done (data, fast_hash_entries_ b));
  data ← store data len (u8 (-1));
  data ← store data (len + 1) 0;
  data ← store data (len + 2) (u8 (fast_num_probes_ b));
  _ ← assert (bool_decide (entries = []));
  Done (data, mkFastBuilder (fast_millibits_per_key_ b) (fast_num_probes_ b) entries).

(** ** LegacyBloomBitsBuilder *)

Record LegacyBloomBitsBuilder := mkLegacyBuilder {
  legacy_bits_per_key_ : Z;
  legacy_num_probes_ : Z;
  legacy_hash_entries_ : list Z;
}.

Definition new_LegacyBloomBitsBuilder (bits_per_key : Z) : R LegacyBloomBitsBuilder :=
  num_probes ← LegacyNoLocality_ChooseNumProbes bits_per_key;
  _ ← assert (negb (bits_per_key =? 0));
  Done (mkLegacyBuilder bits_per_key num_probes []).

Definition Legacy_AddKey (key : bytes) (b : LegacyBloomBitsBuilder) : LegacyBloomBitsBuilder :=
  mkLegacyBuilder (legacy_bits_per_key_ b) (legacy_num_probes_ b) (add_hash (BloomHash key) (legacy_hash_entries_ b)).

Definition GetTotalBitsForLocality (total_bits : Z) : Z :=
  let num_lines := u32 (total_bits + CACHE_LINE_SIZE * 8 - 1) / (CACHE_LINE_SIZE * 8) in
  let num_lines := if num_lines mod 2 =? 0 then u32 (num_lines + 1) else num_lines in
  u32 (num_lines * (CACHE_LINE_SIZE * 8)).

(** The space, with [total_bits] and [num_lines]. *)
Definition Legacy_CalculateSpace (num_entry : Z) (b : LegacyBloomBitsBuilder) : R (Z * Z * Z) :=
  _ ← assert (negb (legacy_bits_per_key_ b =? 0));
  '(total_bits, num_lines) ←
    (if negb (num_entry =? 0) then
       bits ← int_mul num_entry (legacy_bits_per_key_ b);
       let total_bits_tmp := u32 bits in
       let total_bits := GetTotalBitsForLocality total_bits_tmp in
       let num_lines := total_bits / (CACHE_LINE_SIZE * 8) in
       _ ← assert ((0 <? total_bits) && (total_bits mod 8 =? 0));
       Done (total_bits, num_lines)
     else Done (0, 0));
  Done (u32 (total_bits / 8 + 5), total_bits, num_lines).

Definition Legacy_AddHash (h : Z) (num_lines total_bits : Z) (b : LegacyBloomBitsBuilder) (data : bytes) : R bytes :=
  _ ← assert ((0 <? num_lines) && (0 <? total_bits));
  LegacyLocality_AddHash false h num_lines (legacy_num_probes_ b) data log2_CACHE_LINE_SIZE.

Definition Legacy_Finish (b : LegacyBloomBitsBuilder) : R (bytes * LegacyBloomBitsBuilder) :=
  let num_entries := Z.of_nat (length (legacy_hash_entries_ b)) in
  '(sz, total_bits, num_lines) ← Legacy_CalculateSpace (to_int num_entries) b;
  let data := replicate (Z.to_nat sz) 0 in
  data ← (if negb (total_bits =? 0) && negb (num_lines =? 0)
          then for_entries (λ h, Legacy_AddHash h num_lines total_bits b) (legacy_hash_entries_ b) data
          else Done data);
  data ← store data (total_bits / 8) (u8 (legacy_num_probes_ b));
  data ← store_at data (total_bits / 8 + 1) (EncodeFixed32 num_lines);
  Done (data, mkLegacyBuilder (legacy_bits_per_key_ b) (legacy_num_probes_ b) []).

(** The loop of CalculateNumEntry: from [n] down to 1. *)
Fixpoint largest_fitting (bytes : Z) (n : nat) (b : LegacyBloomBitsBuilder) : R Z :=
  match n with
  | O => Done 0
  | S n' =>
      '(sz, _, _) ← Legacy_CalculateSpace (Z.of_nat n) b;
      if sz <=? bytes then Done (Z.of_nat n) else largest_fitting bytes n' b
  end.
Definition Legacy_CalculateNumEntry (bytes : Z) (b : LegacyBloomBitsBuilder) : R Z :=
  _ ← assert (negb (legacy_bits_per_key_ b =? 0));
  _ ← assert (0 <? bytes);
  _ ← require Undefined (negb (legacy_bits_per_key_ b =? 0));
  let high := to_int (u32 (u32 (bytes * 8) / u32 (legacy_bits_per_key_ b) + 1)) in
  n ← (if high <? 1 then Done high else largest_fitting bytes (Z.to_nat high) b);
  _ ← assert (n <? high);
  Done n.

(** ** The builder a policy returns *)

Inductive FilterBitsBuilder :=
  | FastLocalBuilder (b : FastLocalBloomBitsBuilder)
  | LegacyBuilder (b : LegacyBloomBitsBuilder).

Definition AddKey (key : bytes) (b : FilterBitsBuilder) : FilterBitsBuilder :=
  match b with FastLocalBuilder b => FastLocalBuilder (Fast_AddKey key b) | LegacyBuilder b => LegacyBuilder (Legacy_AddKey key b) end.
Definition Finish (b : FilterBitsBuilder) : R (bytes * FilterBitsBuilder) :=
  match b with
  | FastLocalBuilder b => '(s, b) ← Fast_Finish b; Done (s, FastLocalBuilder b)
  | LegacyBuilder b => '(s, b) ← Legacy_Finish b; Done (s, LegacyBuilder b)
  end.

(** ** The readers *)

Inductive FilterBitsReader :=
  | AlwaysTrueFilter
  | AlwaysFalseFilter
  | FastLocalBloomBitsReader (data_ : bytes) (num_probes_ len_bytes_ : Z)
  | LegacyBloomBitsReader (data_ : bytes) (num_probes_ num_lines_ log2_cache_line_size_ : Z).

Definition MayMatch (key : bytes) (r : FilterBitsReader) : R bool :=
  match r with
  | AlwaysTrueFilter => Done true
  | AlwaysFalseFilter => Done false
  | FastLocalBloomBitsReader data_ num_probes_ len_bytes_ =>
      let h := GetSliceHash64 key in
      let byte_offset := FastLocal_PrepareHash (Lower32of64 h) len_bytes_ in
      FastLocal_HashMayMatchPrepared (Upper32of64 h) num_probes_ data_ byte_offset
  | LegacyBloomBitsReader data_ num_probes_ num_lines_ log2_cache_line_size_ =>
      let hash := BloomHash key in
      byte_offset ← LegacyLocality_PrepareHashMayMatch false hash num_lines_ log2_cache_line_size_;
      LegacyLocality_HashMayMatchPrepared false hash num_probes_ data_ byte_offset log2_cache_line_size_
  end.

(** Several keys at once: all are hashed before the first is tested, into
    arrays of MAX_BATCH_SIZE. *)
Definition MayMatch_batch (keys : list bytes) (r : FilterBitsReader) : R (list bool) :=
  match r with
  | AlwaysTrueFilter | AlwaysFalseFilter => map_R (λ key, MayMatch key r) keys
  | FastLocalBloomBitsReader data_ num_probes_ len_bytes_ =>
      _ ← require OutOfBounds (Z.of_nat (length keys) <=? MAX_BATCH_SIZE);
      let hashes := (λ key, prepare len_bytes_ (GetSliceHash64 key)) <$> keys in
      map_R (λ p, FastLocal_HashMayMatchPrepared (fst p) num_probes_ data_ (snd p)) hashes
  | LegacyBloomBitsReader data_ num_probes_ num_lines_ log2_cache_line_size_ =>
      _ ← require OutOfBounds (Z.of_nat (length keys) <=? MAX_BATCH_SIZE);
      hashes ← map_R (λ key, byte_offset ← LegacyLocality_PrepareHashMayMatch false (BloomHash key) num_lines_ log2_cache_line_size_;
                              Done (BloomHash key, byte_offset)) keys;
      map_R (λ p, LegacyLocality_HashMayMatchPrepared false (fst p) num_probes_ data_ (snd p) log2_cache_line_size_) hashes
  end.

(** ** BloomFilterPolicy *)

Inductive Mode := kLegacyBloom | kDeprecatedBlock | kFastLocalBloom | kAuto.

Record BloomFilterPolicy := mkPolicy {
  millibits_per_key_ : Z;
  whole_bits_per_key_ : Z;
  mode_ : Mode;
  warned_ : bool;
}.

Definition half_a_millibit : double := S754_finite false 4503608634569751 (-53). (* 0.500001 *)
(** Both products are positive: the conversions to [int] are those to 31 bits. *)
Definition new_BloomFilterPolicy (bits_per_key : double) (mode : Mode) : R BloomFilterPolicy :=
  let bits_per_key :=
    if double_lt bits_per_key (double_of 1) then double_of 1
    else if negb (double_lt bits_per_key (double_of 100)) then double_of 100 (* including NaN *)
    else bits_per_key in
  millibits ← checked Undefined (double_to_uint 31 (double_add (double_mul bits_per_key (double_of 1000)) half_a_millibit));
  Done (mkPolicy millibits ((millibits + 500) / 1000) mode false).

Definition NewBloomFilterPolicy (bits_per_key : double) (use_block_based_builder : bool) : R BloomFilterPolicy :=
  new_BloomFilterPolicy bits_per_key (if use_block_based_builder then kDeprecatedBlock else kAuto).

(** The filter of [keys] is appended to [dst]. *)
Definition CreateFilter (keys : list bytes) (dst : bytes) (p : BloomFilterPolicy) : R bytes :=
  let n := Z.of_nat (length keys) in
  _ ← assert (match mode_ p with kDeprecatedBlock => true | _ => false end);
  product ← int_mul n (whole_bits_per_key_ p);
  let bits := u32 product in
  let bits := if bits <? 64 then 64 else bits in
  let bytes := u32 (bits + 7) / 8 in
  let bits := u32 (bytes * 8) in
  num_probes ← LegacyNoLocality_ChooseNumProbes (whole_bits_per_key_ p);
  let array := replicate (Z.to_nat bytes) 0 ++ [u8 num_probes] in
  array ← for_entries (λ key, LegacyNoLocality_AddHash (BloomHash key) bits num_probes) keys array;
  Done (dst ++ array).

Definition KeyMayMatch (key bloom_filter : bytes) : R bool :=
  let len := blen bloom_filter in
  if (len <? 2) || (0xffffffff <? len) then Done false
  else
    let array := bloom_filter in
    let bits := u32 (u32 (len - 1) * 8) in
    k ← load array (len - 1);
    if 30 <? k then Done true
    else LegacyNoLocality_HashMayMatch (BloomHash key) bits k array.

(** What GetBuilderWithContext reads of the context. *)
Record FilterBuildingContext := mkContext { format_version : Z; has_info_log : bool }.

Fixpoint builder_for (rounds : nat) (cur : Mode) (context : FilterBuildingContext) (p : BloomFilterPolicy)
    : R (option FilterBitsBuilder * BloomFilterPolicy) :=
  match rounds with
  | O => _ ← assert false; Done (None, p)
  | S rounds' =>
      match cur with
      | kAuto => builder_for rounds' (if format_version context <? 5 then kLegacyBloom else kFastLocalBloom) context p
      | kDeprecatedBlock => Done (None, p)
      | kFastLocalBloom => b ← new_FastLocalBloomBitsBuilder (millibits_per_key_ p); Done (Some (FastLocalBuilder b), p)
      | kLegacyBloom =>
          let warned := (14 <=? whole_bits_per_key_ p) && has_info_log context || warned_ p in
          b ← new_LegacyBloomBitsBuilder (whole_bits_per_key_ p);
          Done (Some (LegacyBuilder b), mkPolicy (millibits_per_key_ p) (whole_bits_per_key_ p) (mode_ p) warned)
      end
  end.
Definition GetBuilderWithContext (context : FilterBuildingContext) (p : BloomFilterPolicy)
    : R (option FilterBitsBuilder * BloomFilterPolicy) := builder_for 2 (mode_ p) context p.

Definition GetBloomBitsReader (contents : bytes) : R FilterBitsReader :=
  let len_with_meta := u32 (blen contents) in
  let len := u32 (len_with_meta - 5) in
  _ ← assert (0 <? len);
  sub_impl_val ← load contents (len_with_meta - 4);
  block_and_probes ← load contents (len_with_meta - 3);
  let log2_block_bytes := ((block_and_probes >> 5) .& 7) + 6 in
  let num_probes := block_and_probes .& 31 in
  if (num_probes <? 1) || (30 <? num_probes) then Done AlwaysTrueFilter
  else
    let rest := DecodeFixed16 (drop (Z.to_nat (len_with_meta - 2)) contents) in
    if negb (rest =? 0) then Done AlwaysTrueFilter
    else if (sub_impl_val =? 0) && (log2_block_bytes =? 6) then Done (FastLocalBloomBitsReader contents num_probes len)
    else Done AlwaysTrueFilter.

(** [while ((num_lines << log2) < len) ++log2]: a shift by 32 is undefined. *)
Fixpoint find_log2 (fuel : nat) (num_lines len log2 : Z) : R Z :=
  match fuel with
  | O => Fault Undefined
  | S fuel' => if u32 (num_lines << log2) <? len then find_log2 fuel' num_lines len (log2 + 1) else Done log2
  end.

Definition GetFilterBitsReader (contents : bytes) : R FilterBitsReader :=
  let len_with_meta := u32 (blen contents) in
  if len_with_meta <=? 5 then Done AlwaysFalseFilter
  else
    probes ← load contents (len_with_meta - 5);
    let raw_num_probes := to_signed 8 probes in
    if raw_num_probes <? 1 then
      if raw_num_probes =? -1 then GetBloomBitsReader contents else Done AlwaysTrueFilter
    else
      let num_probes := raw_num_probes in
      _ ← assert (1 <=? num_probes);
      _ ← assert (num_probes <=? 127);
      let len := u32 (len_with_meta - 5) in
      _ ← assert (0 <? len);
      let num_lines := DecodeFixed32 (drop (Z.to_nat (len_with_meta - 4)) contents) in
      if u32 (num_lines * CACHE_LINE_SIZE) =? len
      then Done (LegacyBloomBitsReader contents num_probes num_lines log2_CACHE_LINE_SIZE)
      else if (num_lines =? 0) || negb (len mod num_lines =? 0) then Done AlwaysTrueFilter
      else
        log2_cache_line_size ← find_log2 32 num_lines len 0;
        if negb (u32 (num_lines << log2_cache_line_size) =? len) then Done AlwaysTrueFilter
        else Done (LegacyBloomBitsReader contents num_probes num_lines log2_cache_line_size).
End policy.
