(* ===== verification/FilterPolicyCorrect.v ===== *)
(** * Bloom filter policy: what is added is found

    Every key given to a builder is found by the reader made from its filter, on
    any platform; the buffered loop sets the bits of the simple one; where the
    space computed for a filter wraps around, and what that loses. *)
From S2P Require Import Prelude Result Coding Hash FastRange Bloom FilterPolicy.

(** ** Loops over entries *)

(** If each step keeps what is there and adds its own, all are there at the end. *)
Lemma for_entries_covers {A} (f : A → bytes → R bytes) (found : A → bytes → Prop) (ok : A → Prop) n l data :
  (∀ x d, ok x → length d = n → ∃ d', f x d = Done d' ∧ covers d d' ∧ found x d' ∧ (bytes_ok d → bytes_ok d')) →
  (∀ x d d', covers d d' → found x d → found x d') →
  Forall ok l → length data = n →
  ∃ data', for_entries f l data = Done data' ∧ covers data data' ∧ Forall (λ x, found x data') l ∧ (bytes_ok data → bytes_ok data').
Proof.
  intros Hf Hmono Hl. revert data. induction Hl as [|x l Hx Hl IH]; intros data Hn; cbn [for_entries]; [by exists data|].
  destruct (Hf x data Hx Hn) as (d1 & -> & Hc1 & Hx1 & Hok1). cbn [mbind R_bind].
  destruct (IH d1) as (d' & -> & Hc & Hall & Hok); [by rewrite <- (covers_length _ _ Hc1)|].
  exists d'. split; [done|]. split; [by transitivity d1|]. split; [|eauto]. constructor; [by apply (Hmono x d1)|done].
Qed.

(** ** The buffered loop of AddAllEntries *)

(** Setting bits, as a total function. *)
Definition or_pure (im : nat * Z) (data : bytes) : bytes := alter (λ b, b .| snd im) (fst im) data.

Lemma length_or_pure im data : length (or_pure im data) = length data.
Proof. apply length_alter. Qed.
Lemma or_pure_comm x y data : or_pure x (or_pure y data) = or_pure y (or_pure x data).
Proof.
  unfold or_pure. destruct x as [i m], y as [j m']. cbn. apply list_eq. intros k.
  destruct (decide (i = k)) as [->|Hi], (decide (j = k)) as [->|Hj];
    rewrite ?list_lookup_alter_eq, ?list_lookup_alter_ne, ?list_lookup_alter_eq, ?list_lookup_alter_ne by done; try done.
  destruct (data !! k) as [b|]; [|done]. cbn. by rewrite <- !Z.lor_assoc, (Z.lor_comm m m').
Qed.
Lemma insert_Permutation {A} (l : list A) i x y : l !! i = Some x → x :: <[i := y]> l ≡ₚ y :: l.
Proof.
  intros Hi. rewrite <- (take_drop_middle l i x Hi) at 2. rewrite insert_take_drop by (by eapply lookup_lt_Some).
  rewrite <- !Permutation_middle. apply Permutation_swap.
Qed.

Lemma concat_fmap_Permutation {A B} (f : A → list B) l l' : l ≡ₚ l' → concat (f <$> l) ≡ₚ concat (f <$> l').
Proof.
  intros Hp. induction Hp as [|x l l' _ IH|x y l|l1 l2 l3 _ IH1 _ IH2]; cbn; [done|by rewrite IH| |by rewrite IH1].
  by rewrite !app_assoc, (Permutation_app_comm (f y)).
Qed.

Definition set_all (l : list (nat * Z)) (data : bytes) : bytes := foldl (λ d im, or_pure im d) data l.
Lemma set_all_app l l' data : set_all (l ++ l') data = set_all l' (set_all l data).
Proof. apply foldl_app. Qed.
Lemma length_set_all l data : length (set_all l data) = length data.
Proof. revert data. induction l as [|x l IH]; intros data; [done|]. cbn. unfold set_all in IH. by rewrite IH, length_or_pure. Qed.
Lemma set_all_Permutation l l' data : l ≡ₚ l' → set_all l data = set_all l' data.
Proof.
  intros Hp. revert data. induction Hp as [|x l l' _ IH|x y l|l1 l2 l3 _ IH1 _ IH2]; intros data; cbn; [done|apply IH| |].
  - by rewrite or_pure_comm.
  - unfold set_all in *. by rewrite IH1, IH2.
Qed.

Section probes.
Context (next bitpos : Z → Z) (inv : Z → Prop) (n : Z).
Context (Hnext : ∀ h, inv h → inv (next h)) (Hbitpos : ∀ h, inv h → 0 ≤ bitpos h < 8 * n).

Fixpoint probe_list (k : nat) (h ptr : Z) : list (nat * Z) :=
  match k with
  | O => []
  | S k => (Z.to_nat (ptr + (bitpos h >> 3)), 1 << (bitpos h .& 7)) :: probe_list k (next h) ptr
  end.
Lemma set_probes_pure k h data ptr :
  inv h → 0 ≤ ptr → ptr + n ≤ blen data → set_probes next bitpos k h data ptr = Done (set_all (probe_list k h ptr) data).
Proof.
  intros Hinv Hptr. revert h data Hinv. induction k as [|k IH]; intros h data Hinv Hn; cbn [set_probes]; [done|].
  unfold set_bit, or_at. destruct (load_in data (ptr + (bitpos h >> 3))) as (b & Hb & ->); [by apply (bit_in data ptr n Hptr Hn), Hbitpos|].
  cbn [mbind R_bind]. replace (<[_ := _]> data) with (or_pure (Z.to_nat (ptr + (bitpos h >> 3)), 1 << (bitpos h .& 7)) data).
  - rewrite IH; [done|by apply Hnext|]. unfold blen in *. by rewrite length_or_pure.
  - unfold or_pure. cbn [fst snd]. apply list_eq. intros k'. destruct (decide (k' = Z.to_nat (ptr + (bitpos h >> 3)))) as [->|Hne].
    + rewrite list_lookup_alter_eq, Hb, list_lookup_insert_eq; [done|by eapply lookup_lt_Some].
    + by rewrite list_lookup_alter_ne, list_lookup_insert_ne by done.
Qed.
End probes.

Section buffered.
Context (num_probes len : Z) (Hlen : in_range 32 len) (Hline : 64 ≤ len).

Definition in_line (p : Z * Z) : Prop := in_range 32 (fst p) ∧ 0 ≤ snd p ∧ snd p + 64 ≤ len.
Definition probes_of (p : Z * Z) : list (nat * Z) := probe_list FastLocal_next FastLocal_bitpos (Z.to_nat num_probes) (fst p) (snd p).
#[local] Abbreviation all_probes := (λ ps, concat (probes_of <$> ps)).

Lemma Lower32_range h : in_range 32 (Lower32of64 h).
Proof. apply wrap_range. lia. Qed.
Lemma Upper32_range h : in_range 32 (Upper32of64 h).
Proof. apply wrap_range. lia. Qed.
Lemma prepare_in_line h : in_line (prepare len h).
Proof.
  pose proof (FastLocal_PrepareHash_line len Hlen Hline (Lower32of64 h) (Lower32_range h)). split; [apply Upper32_range|done].
Qed.
Lemma add_prepared_pure p data : in_line p → len ≤ blen data → add_prepared num_probes p data = Done (set_all (probes_of p) data).
Proof.
  intros (Hh & Hp & Hp') Hd. apply (set_probes_pure _ _ (in_range 32) 64 FastLocal_next_range FastLocal_bitpos_range); [done..|lia].
Qed.
Lemma add_all_prepared ps data :
  Forall in_line ps → len ≤ blen data → for_entries (add_prepared num_probes) ps data = Done (set_all (all_probes ps) data).
Proof.
  intros Hps. revert data. induction Hps as [|p ps Hp _ IH]; intros data Hd; cbn [for_entries fmap list_fmap concat]; [done|].
  rewrite add_prepared_pure by done. cbn [mbind R_bind]. rewrite set_all_app. apply IH. unfold blen. by rewrite length_set_all.
Qed.
Lemma process_and_buffer_pure entries i buffer data :
  Forall in_line buffer → (entries = [] ∨ length buffer = 8%nat) → len ≤ blen data →
  ∃ buffer' l, process_and_buffer num_probes len entries i buffer data = Done (buffer', set_all l data) ∧
    Forall in_line buffer' ∧ l ++ all_probes buffer' ≡ₚ all_probes (buffer ++ (prepare len <$> entries)).
Proof.
  revert i buffer data. induction entries as [|h entries IH]; intros i buffer data Hb H8 Hd; cbn [process_and_buffer].
  { exists buffer, []. by rewrite app_nil_r. }
  destruct H8 as [|H8]; [done|]. set (slot := (i mod (kBufferMask + 1))%nat).
  destruct (lookup_lt_is_Some_2 buffer slot) as [p Hp]; [rewrite H8; by apply Nat.mod_upper_bound|].
  rewrite Hp. cbn [checked mbind R_bind]. rewrite (add_prepared_pure p data (Forall_lookup_1 _ _ _ _ Hb Hp) Hd). cbn [mbind R_bind].
  destruct (IH (S i) (<[slot := prepare len h]> buffer) (set_all (probes_of p) data)) as (buffer' & l & E & Hb' & Hl).
  { apply Forall_insert; [done|apply prepare_in_line]. }
  { right. by rewrite length_insert. }
  { unfold blen. by rewrite length_set_all. }
  exists buffer', (probes_of p ++ l). rewrite E, set_all_app. split; [done|]. split; [done|].
  rewrite <- app_assoc, Hl. apply (concat_fmap_Permutation probes_of (p :: _)). cbn [fmap list_fmap].
  rewrite app_comm_cons, (insert_Permutation buffer slot p (prepare len h) Hp), <- app_comm_cons. apply Permutation_middle.
Qed.

(** The loop that keeps eight hashes back, so that their cache lines can be
    fetched in the meantime, writes the same bytes as the simple loop its
    comment gives, for any number of entries. *)
Theorem AddAllEntries_is_simple entries data :
  len ≤ blen data → AddAllEntries num_probes entries data len = AddAllEntries_simple num_probes entries data len.
Proof.
  intros Hd. unfold AddAllEntries. set (primed := prepare len <$> take (kBufferMask + 1) entries).
  assert (Forall in_line primed) as Hp by (apply Forall_fmap, Forall_true; apply prepare_in_line).
  destruct (process_and_buffer_pure (drop (kBufferMask + 1) entries) (length primed) primed data) as (buffer' & l & -> & Hb' & Hl); [done| |done|].
  { unfold primed. rewrite length_fmap, length_take. change (kBufferMask + 1)%nat with 8%nat. destruct (decide (length entries ≤ 8)%nat) as [Hle|Hgt].
    - left. by apply drop_ge.
    - right. lia. }
  cbn [mbind R_bind]. rewrite add_all_prepared by (done || (unfold blen; by rewrite length_set_all)).
  rewrite <- set_all_app, (set_all_Permutation _ _ data Hl). unfold primed. rewrite <- fmap_app, take_drop.
  unfold AddAllEntries_simple. rewrite <- (add_all_prepared (prepare len <$> entries) data) by (done || (apply Forall_fmap, Forall_true; apply prepare_in_line)).
  clear. revert data. induction entries as [|h entries IH]; intros data; cbn [for_entries fmap list_fmap]; [done|].
  change (FastLocal_AddHash (Lower32of64 h) (Upper32of64 h) len num_probes data) with (add_prepared num_probes (prepare len h) data).
  destruct (add_prepared _ _ _); [apply IH|done].
Qed.
End buffered.

Lemma for_entries_app {A} (f : A → bytes → R bytes) l d d' s :
  (∀ x d d', f x d = Done d' → f x (d ++ s) = Done (d' ++ s)) →
  for_entries f l d = Done d' → for_entries f l (d ++ s) = Done (d' ++ s).
Proof.
  intros Hf. revert d. induction l as [|x l IH]; intros d; cbn [for_entries]; [by intros [= ->]|].
  intros (d1 & E & Hrest)%R_bind_Done. rewrite (Hf x d d1 E). by apply IH.
Qed.

Lemma replicate_add {A} n m (x : A) : replicate (n + m) x = replicate n x ++ replicate m x.
Proof. induction n as [|n IH]; [done|]. cbn. by rewrite IH. Qed.
Lemma store_app d b b' s : store (d ++ b :: s) (blen d) b' = Done (d ++ b' :: s).
Proof.
  unfold store. rewrite (load_at _ _ b); [|unfold blen; lia|].
  - cbn [mbind R_bind]. unfold blen. by rewrite Nat2Z.id, insert_app_r_alt, Nat.sub_diag by lia.
  - unfold blen. by rewrite Nat2Z.id, lookup_app_r, Nat.sub_diag by lia.
Qed.
Lemma load_end d b s : load (d ++ b :: s) (blen d) = Done b.
Proof. apply load_at; [unfold blen; lia|]. unfold blen. by rewrite Nat2Z.id, lookup_app_r, Nat.sub_diag by lia. Qed.

Lemma ChooseNumProbes_range mb : 1 ≤ FastLocal_ChooseNumProbes mb ≤ 24.
Proof.
  unfold FastLocal_ChooseNumProbes. bool_cases; try lia.
  pose proof (Z.div_le_mono (25501) (mb - 1) 2000). pose proof (Z.div_le_mono (mb - 1) 49999 2000).
  change (25501 / 2000) with 12 in *. change (49999 / 2000) with 24 in *. lia.
Qed.

(** ** FastLocalBloom: written and read *)

Section fast.
Context `{Build, SliceHash64}.

(** Less than 4 GB. *)
Definition fast_fits (millibits n : Z) : Prop := n < 2 ^ 31 ∧ (n * millibits + 511999) / 512000 < 2 ^ 26.

Definition fast_contents (d : bytes) (num_probes : Z) : bytes := d ++ [255; 0; num_probes; 0; 0].

Lemma Fast_CalculateSpace_value n b :
  1000 ≤ fast_millibits_per_key_ b → 0 < n → fast_fits (fast_millibits_per_key_ b) n →
  let lines := (n * fast_millibits_per_key_ b + 511999) / 512000 in
  Fast_CalculateSpace n b = lines * 64 + 5 ∧ 0 < lines < 2 ^ 26.
Proof.
  intros Hm Hn [Hi Hl] lines. unfold Fast_CalculateSpace. fold lines in Hl.
  assert (0 < lines) as Hpos.
  { unfold lines. assert (512000 / 512000 ≤ (n * fast_millibits_per_key_ b + 511999) / 512000) by (apply Z.div_le_mono; nia).
    change (512000 / 512000) with 1 in *. lia. }
  replace (0 <? fast_millibits_per_key_ b) with true by (symmetry; apply Z.ltb_lt; lia).
  replace (0 <? n) with true by (symmetry; apply Z.ltb_lt; lia). cbn [andb]. fold lines.
  rewrite (wrap_small 32 lines) by (unfold in_range; lia). rewrite wrap_small by (unfold in_range; lia). lia.
Qed.

Lemma Fast_Finish_spec b :
  1000 ≤ fast_millibits_per_key_ b → fast_hash_entries_ b ≠ [] →
  fast_fits (fast_millibits_per_key_ b) (Z.of_nat (length (fast_hash_entries_ b))) → 1 ≤ fast_num_probes_ b ≤ 24 →
  ∃ d, Fast_Finish b = Done (fast_contents d (fast_num_probes_ b), mkFastBuilder (fast_millibits_per_key_ b) (fast_num_probes_ b) []) ∧
    64 ≤ blen d < 2 ^ 32 - 5 ∧ bytes_ok d ∧
    Forall (λ h, FastLocal_HashMayMatch (Lower32of64 h) (Upper32of64 h) (blen d) (fast_num_probes_ b) d = Done true) (fast_hash_entries_ b).
Proof.
  destruct b as [mb np entries]. cbn [fast_millibits_per_key_ fast_num_probes_ fast_hash_entries_]. intros Hm Hne Hfit Hnp.
  unfold Fast_Finish. cbn [fast_millibits_per_key_ fast_num_probes_ fast_hash_entries_].
  assert (0 < Z.of_nat (length entries)) as Hn by (destruct entries; [done|cbn; lia]).
  destruct (Fast_CalculateSpace_value (Z.of_nat (length entries)) (mkFastBuilder mb np entries) Hm Hn Hfit) as [Hsp Hl]. cbn [fast_millibits_per_key_] in *.
  set (lines := (_ + 511999) / 512000) in *.
  assert (to_int (u32 (Z.of_nat (length entries))) = Z.of_nat (length entries)) as ->.
  { destruct Hfit as [Hi _]. rewrite (wrap_small 32) by (unfold in_range; lia). unfold to_int, to_signed. rewrite (wrap_small 32) by (unfold in_range; lia).
    destruct (Z.ltb_spec (Z.of_nat (length entries)) (2 ^ (32 - 1))); lia. }
  rewrite Hsp. replace (5 <=? lines * 64 + 5) with true by (symmetry; apply Z.leb_le; lia). rewrite assert_true. cbn [mbind R_bind].
  replace (lines * 64 + 5 - 5) with (lines * 64) by lia. rewrite (wrap_small 32 (lines * 64)) by (unfold in_range; lia).
  replace (0 <? lines * 64) with true by (symmetry; apply Z.ltb_lt; lia).
  replace (Z.to_nat (lines * 64 + 5)) with (Z.to_nat (lines * 64) + 5)%nat by lia. rewrite replicate_add.
  set (z := replicate (Z.to_nat (lines * 64)) 0). assert (blen z = lines * 64) as Hz by (unfold z, blen; rewrite length_replicate; lia).
  rewrite AddAllEntries_is_simple; [|unfold in_range; lia|lia|rewrite blen_app; unfold blen at 2; cbn; lia].
  destruct (for_entries_covers (λ h, FastLocal_AddHash (Lower32of64 h) (Upper32of64 h) (lines * 64) np)
    (λ h d, FastLocal_HashMayMatch (Lower32of64 h) (Upper32of64 h) (lines * 64) np d = Done true) (λ _, True) (length z) entries z) as (d & E & Hc & Hall & Hok).
  { intros h d _ Hd. apply FastLocal_AddHashPrepared_spec; [unfold in_range; lia|lia|apply Lower32_range|apply Upper32_range|unfold blen in *; lia]. }
  { intros h d d' Hc. by apply test_probes_covers. }
  { by apply Forall_true. }
  { done. }
  assert (blen d = lines * 64) as Hd by (unfold blen in *; rewrite <- (covers_length _ _ Hc); lia).
  unfold AddAllEntries_simple. rewrite (for_entries_app _ _ z d (replicate 5 0)); [|intros ? ? ?; apply FastLocal_AddHash_app|exact E].
  cbn [mbind R_bind replicate]. change (u8 (-1)) with 255. rewrite (wrap_small 8 np) by (unfold in_range; lia). rewrite <- Hd, store_app. cbn [mbind R_bind].
  replace (blen d + 1) with (blen (d ++ [255])) by (rewrite blen_app; done).
  change (d ++ 255 :: 0 :: ?t) with (d ++ [255] ++ 0 :: t). rewrite (app_assoc d [255]), store_app. cbn [mbind R_bind].
  replace (blen d + 2) with (blen ((d ++ [255]) ++ [0])) by (rewrite !blen_app; unfold blen; cbn; lia).
  change ((d ++ [255]) ++ 0 :: 0 :: ?t) with ((d ++ [255]) ++ [0] ++ 0 :: t). rewrite (app_assoc _ [0]), store_app. cbn [mbind R_bind].
  rewrite bool_decide_eq_true_2, assert_true by done. cbn [mbind R_bind]. exists d. split; [unfold fast_contents; by rewrite <- !app_assoc|].
  split; [lia|]. split; [|by rewrite Hd]. apply Hok. unfold z. apply Forall_replicate. unfold is_byte, in_range. lia.
Qed.
End fast.

(** ** LegacyBloom: written *)

Lemma CACHE_LINE_SIZE_pow `{Platform} : CACHE_LINE_SIZE = 2 ^ log2_CACHE_LINE_SIZE.
Proof. unfold CACHE_LINE_SIZE. apply Z.shiftl_1_l. Qed.
Lemma cache_line_range `{Platform} : 64 ≤ CACHE_LINE_SIZE ≤ 256.
Proof.
  rewrite CACHE_LINE_SIZE_pow. pose proof cache_line_sizes. change 64 with (2 ^ 6). change 256 with (2 ^ 8).
  split; apply Z.pow_le_mono_r; lia.
Qed.

Section legacy.
Context `{Build, Host, Platform, SliceHash64}.

(** Any odd number of lines, with the bits in the lines and the bytes after. *)
Definition legacy_contents (d : bytes) (num_probes num_lines : Z) : bytes := d ++ num_probes :: le_bytes 4 num_lines.

Lemma Legacy_CalculateSpace_value n b :
  0 < n → 0 < legacy_bits_per_key_ b → n * legacy_bits_per_key_ b < 2 ^ 31 →
  ∃ lines, Legacy_CalculateSpace n b = Done (lines * CACHE_LINE_SIZE + 5, lines * CACHE_LINE_SIZE * 8, lines) ∧ 0 < lines ∧ lines mod 2 = 1 ∧
    n * legacy_bits_per_key_ b ≤ lines * CACHE_LINE_SIZE * 8 ≤ n * legacy_bits_per_key_ b + 4096.
Proof.
  intros Hn Hb Hfit. unfold Legacy_CalculateSpace, int_mul. rewrite !(proj2 (Z.eqb_neq _ _)) by lia. cbn [negb]. rewrite assert_true. cbn [mbind R_bind].
  rewrite bool_decide_eq_true_2 by (unfold in_srange; change (2 ^ (32 - 1)) with (2 ^ 31); nia). cbn [require mbind R_bind].
  pose proof cache_line_range as HC. set (C := CACHE_LINE_SIZE) in *. set (m := n * legacy_bits_per_key_ b) in *. assert (0 < m) by nia.
  rewrite (wrap_small 32 m) by (unfold in_range; lia). unfold GetTotalBitsForLocality. fold C.
  rewrite (wrap_small 32 (m + _ - 1)) by (unfold in_range; lia). set (l0 := (m + C * 8 - 1) / (C * 8)).
  assert (m ≤ l0 * (C * 8) ≤ m + C * 8 - 1) as Hl0.
  { pose proof (Z.div_mod (m + C * 8 - 1) (C * 8)). pose proof (Z.mod_pos_bound (m + C * 8 - 1) (C * 8)). unfold l0. nia. }
  assert (0 < l0) by nia. pose proof (Z.mod_pos_bound l0 2).
  assert (∃ lines, (if l0 mod 2 =? 0 then u32 (l0 + 1) else l0) = lines ∧ l0 ≤ lines ≤ l0 + 1 ∧ lines mod 2 = 1) as (lines & -> & Hl & Hodd).
  { eexists. split; [done|]. destruct (Z.eqb_spec (l0 mod 2) 0) as [E|]; [|lia].
    rewrite wrap_small by (unfold in_range; nia). split; [lia|]. rewrite Z.add_mod, E by done. done. }
  rewrite (wrap_small 32 (lines * _)) by (unfold in_range; nia). rewrite Z.div_mul by lia.
  replace (lines * (C * 8)) with (lines * C * 8) by lia. rewrite Z.mod_mul by done.
  replace (0 <? lines * C * 8) with true by (symmetry; apply Z.ltb_lt; nia). cbn [andb Z.eqb]. rewrite assert_true. cbn [mbind R_bind].
  rewrite Z.div_mul by done. rewrite wrap_small by (unfold in_range; nia). exists lines. split; [done|]. split; [lia|]. split; [done|]. nia.
Qed.

Lemma Legacy_Finish_spec b :
  0 < legacy_bits_per_key_ b → legacy_hash_entries_ b ≠ [] → Forall (in_range 32) (legacy_hash_entries_ b) →
  Z.of_nat (length (legacy_hash_entries_ b)) * legacy_bits_per_key_ b < 2 ^ 31 → 1 ≤ legacy_num_probes_ b ≤ 30 →
  ∃ d lines, Legacy_Finish b =
      Done (legacy_contents d (legacy_num_probes_ b) lines, mkLegacyBuilder (legacy_bits_per_key_ b) (legacy_num_probes_ b) []) ∧
    0 < lines ∧ lines mod 2 = 1 ∧ blen d = lines * CACHE_LINE_SIZE ∧ blen d ≤ 2 ^ 28 + 512 ∧ bytes_ok d ∧
    Forall (λ h, LegacyLocality_HashMayMatch false h lines (legacy_num_probes_ b) d log2_CACHE_LINE_SIZE = Done true) (legacy_hash_entries_ b).
Proof.
  destruct b as [bpk np entries]. cbn [legacy_bits_per_key_ legacy_num_probes_ legacy_hash_entries_]. intros Hb Hne Hent Hfit Hnp.
  unfold Legacy_Finish. cbn [legacy_bits_per_key_ legacy_num_probes_ legacy_hash_entries_].
  assert (0 < Z.of_nat (length entries)) as Hn by (destruct entries; [done|cbn; lia]).
  assert (to_int (Z.of_nat (length entries)) = Z.of_nat (length entries)) as ->.
  { unfold to_int, to_signed. rewrite (wrap_small 32) by (unfold in_range; nia).
    destruct (Z.ltb_spec (Z.of_nat (length entries)) (2 ^ (32 - 1))) as [|Hge]; [done|]. change (2 ^ (32 - 1)) with (2 ^ 31) in Hge. nia. }
  destruct (Legacy_CalculateSpace_value (Z.of_nat (length entries)) (mkLegacyBuilder bpk np entries) Hn Hb Hfit) as (lines & -> & Hl & Hodd & Hlow & Hhigh).
  cbn [mbind R_bind legacy_bits_per_key_] in *. pose proof cache_line_range as HC. pose proof cache_line_sizes as Hlog. pose proof CACHE_LINE_SIZE_pow as HCp.
  set (C := CACHE_LINE_SIZE) in *. rewrite !(proj2 (Z.eqb_neq _ _)) by nia. cbn [negb andb].
  replace (Z.to_nat (lines * C + 5)) with (Z.to_nat (lines * C) + 5)%nat by lia. rewrite replicate_add.
  set (z := replicate (Z.to_nat (lines * C)) 0). assert (blen z = lines * C) as Hz by (unfold z, blen; rewrite length_replicate; lia).
  destruct (for_entries_covers (λ h, Legacy_AddHash h lines (lines * C * 8) (mkLegacyBuilder bpk np entries))
    (λ h d, LegacyLocality_HashMayMatch false h lines np d log2_CACHE_LINE_SIZE = Done true) (in_range 32) (length z) entries z) as (d & E & Hc & Hall & Hok).
  { intros h d Hh Hd. unfold Legacy_AddHash. replace (0 <? lines) with true by (symmetry; apply Z.ltb_lt; lia).
    replace (0 <? lines * C * 8) with true by (symmetry; apply Z.ltb_lt; nia). cbn [andb]. rewrite assert_true. cbn [mbind R_bind legacy_num_probes_].
    apply LegacyLocality_AddHash_spec; [lia|lia|rewrite <- HCp; lia|done|unfold blen in *; rewrite <- HCp; lia]. }
  { intros h d d' Hc. by apply LegacyLocality_HashMayMatch_covers. }
  { done. }
  { done. }
  assert (blen d = lines * C) as Hd by (unfold blen in *; rewrite <- (covers_length _ _ Hc); lia).
  rewrite (for_entries_app _ _ z d (replicate 5 0)); [|intros ? ? ?; unfold Legacy_AddHash; destruct (assert _); [apply LegacyLocality_AddHash_app|done]|exact E].
  cbn [mbind R_bind replicate]. rewrite Z.div_mul by done. rewrite (wrap_small 8 np) by (unfold in_range; lia).
  rewrite <- Hd, store_app. cbn [mbind R_bind]. unfold store_at. rewrite EncodeFixed32_le.
  replace ((0 <=? blen d + 1) && _) with true.
  2: { symmetry. apply andb_true_iff. split; apply Z.leb_le; unfold blen; [lia|]. rewrite length_app, length_le_bytes. cbn. lia. }
  cbn [require mbind R_bind]. rewrite length_le_bytes. exists d, lines. split; [|split_and!; [done|done|done|nia| |done]].
  - do 2 f_equal. unfold legacy_contents. change (d ++ np :: ?t) with (d ++ [np] ++ t). rewrite !app_assoc.
    rewrite take_app_length' by (unfold blen; rewrite length_app; cbn; lia).
    rewrite drop_ge by (unfold blen; rewrite !length_app; cbn; lia). by rewrite app_nil_r.
  - apply Hok. unfold z. apply Forall_replicate. unfold is_byte, in_range. lia.
Qed.
End legacy.

(** ** Read, on any platform *)

Section reader.
Context `{Build, Host, Platform, SliceHash64}.

Lemma reader_of_fast d num_probes :
  0 < blen d < 2 ^ 32 - 5 → 1 ≤ num_probes ≤ 30 →
  GetFilterBitsReader (fast_contents d num_probes) = Done (FastLocalBloomBitsReader (fast_contents d num_probes) num_probes (blen d)).
Proof.
  intros Hd Hnp. unfold GetFilterBitsReader, GetBloomBitsReader.
  assert (blen (fast_contents d num_probes) = blen d + 5) as -> by (unfold fast_contents; by rewrite blen_app).
  rewrite (wrap_small 32 (blen d + 5)) by (unfold in_range; lia). replace (blen d + 5 <=? 5) with false by (symmetry; apply Z.leb_gt; lia).
  assert (load (fast_contents d num_probes) (blen d) = Done 255) as Hmark by apply load_end.
  replace (blen d + 5 - 5) with (blen d) by lia. rewrite Hmark. cbn [mbind R_bind].
  change (to_signed 8 255) with (-1). cbn [Z.ltb Z.eqb Z.compare Pos.eqb]. rewrite (wrap_small 32 (blen d)) by (unfold in_range; lia).
  replace (0 <? blen d) with true by (symmetry; apply Z.ltb_lt; lia). rewrite assert_true. cbn [mbind R_bind].
  assert (∀ l b r, fast_contents d num_probes = d ++ l ++ b :: r → load (fast_contents d num_probes) (blen d + blen l) = Done b) as Hload.
  { intros l b r ->. rewrite app_assoc, <- blen_app. apply load_end. }
  replace (blen d + 5 - 4) with (blen d + blen [255]) by (unfold blen; cbn; lia). rewrite (Hload [255] 0 [num_probes; 0; 0]) by done. cbn [mbind R_bind].
  replace (blen d + 5 - 3) with (blen d + blen [255; 0]) by (unfold blen; cbn; lia). rewrite (Hload [255; 0] num_probes [0; 0]) by done. cbn [mbind R_bind].
  change (num_probes .& 31) with (num_probes .& Z.ones 5). rewrite Z.land_ones, Z.mod_small by lia.
  replace (num_probes <? 1) with false by (symmetry; apply Z.ltb_ge; lia). replace (30 <? num_probes) with false by (symmetry; apply Z.ltb_ge; lia). cbn [orb].
  replace (num_probes >> 5) with 0 by (rewrite Z.shiftr_div_pow2, Z.div_small by lia; done). cbn [Z.land Z.add Z.eqb Pos.eqb andb].
  assert (drop (Z.to_nat (blen d + 5 - 2)) (fast_contents d num_probes) = [0; 0]) as ->; [|by rewrite DecodeFixed16_le].
  change (fast_contents d num_probes) with (d ++ [255; 0; num_probes] ++ [0; 0]). rewrite app_assoc. apply drop_app_length'.
  unfold blen. rewrite length_app. cbn. lia.
Qed.

Lemma find_log2_spec lines w fuel k :
  0 < lines → 0 ≤ k ≤ w → lines * 2 ^ w < 2 ^ 32 → w - k < Z.of_nat fuel → find_log2 fuel lines (lines * 2 ^ w) k = Done w.
Proof.
  intros Hl. revert k. induction fuel as [|fuel IH]; intros k Hk Hfit Hfuel; [lia|]. cbn [find_log2].
  assert (2 ^ k ≤ 2 ^ w) by (apply Z.pow_le_mono_r; lia). pose proof (Z.pow_pos_nonneg 2 k).
  rewrite Z.shiftl_mul_pow2, wrap_small by (unfold in_range; nia). destruct (decide (k = w)) as [->|].
  - by rewrite Z.ltb_irrefl.
  - assert (2 ^ k < 2 ^ w) by (apply Z.pow_lt_mono_r; lia).
    replace (lines * 2 ^ k <? lines * 2 ^ w) with true by (symmetry; apply Z.ltb_lt; nia). apply IH; lia.
Qed.

(** A number of lines does not fit with two sizes of lines: it is odd. *)
Lemma line_size_unique lines w r :
  0 < lines → lines mod 2 = 1 → 0 ≤ w < 32 → 0 ≤ r → lines * 2 ^ w < 2 ^ 32 → u32 (lines * 2 ^ r) = lines * 2 ^ w → r = w.
Proof.
  intros Hl Hodd Hw Hr Hfit E. destruct (Z.lt_trichotomy r w) as [Hlt|[|Hgt]]; [|done|].
  - assert (2 ^ r < 2 ^ w) by (apply Z.pow_lt_mono_r; lia). pose proof (Z.pow_pos_nonneg 2 r). rewrite wrap_small in E by (unfold in_range; nia). nia.
  - assert (Z.testbit (u32 (lines * 2 ^ r)) w = Z.testbit (lines * 2 ^ w) w) as Hbit by by rewrite E.
    rewrite wrap_testbit, bool_decide_eq_true_2, Z.mul_pow2_bits_low, Z.mul_pow2_bits, Z.sub_diag in Hbit by lia.
    rewrite Z.bit0_odd, Zodd_mod, Hodd in Hbit. done.
Qed.

Lemma reader_of_legacy d num_probes lines w :
  0 < lines → lines mod 2 = 1 → 0 ≤ w < 28 → blen d = lines * 2 ^ w → blen d < 2 ^ 32 - 5 → 1 ≤ num_probes ≤ 30 →
  GetFilterBitsReader (legacy_contents d num_probes lines) = Done (LegacyBloomBitsReader (legacy_contents d num_probes lines) num_probes lines w).
Proof.
  intros Hl Hodd Hw Hd Hfit Hnp. unfold GetFilterBitsReader. pose proof (Z.pow_pos_nonneg 2 w).
  assert (blen (legacy_contents d num_probes lines) = blen d + 5) as -> by (unfold legacy_contents; rewrite blen_app; done).
  rewrite (wrap_small 32 (blen d + 5)) by (unfold in_range; lia). replace (blen d + 5 <=? 5) with false by (symmetry; apply Z.leb_gt; nia).
  assert (load (legacy_contents d num_probes lines) (blen d) = Done num_probes) as Hnum by apply load_end.
  replace (blen d + 5 - 5) with (blen d) by lia. rewrite Hnum. cbn [mbind R_bind].
  assert (to_signed 8 num_probes = num_probes) as ->.
  { unfold to_signed. rewrite wrap_small by (unfold in_range; lia). destruct (Z.ltb_spec num_probes (2 ^ (8 - 1))) as [|Hge]; [done|].
    change (2 ^ (8 - 1)) with 128 in Hge. lia. }
  replace (num_probes <? 1) with false by (symmetry; apply Z.ltb_ge; lia). replace (1 <=? num_probes) with true by (symmetry; apply Z.leb_le; lia).
  replace (num_probes <=? 127) with true by (symmetry; apply Z.leb_le; lia). rewrite (wrap_small 32 (blen d)) by (unfold in_range; nia).
  replace (0 <? blen d) with true by (symmetry; apply Z.ltb_lt; nia). rewrite !assert_true. cbn [mbind R_bind].
  assert (drop (Z.to_nat (blen d + 5 - 4)) (legacy_contents d num_probes lines) = le_bytes 4 lines ++ []) as ->.
  { rewrite app_nil_r. unfold legacy_contents. change (d ++ num_probes :: ?l) with (d ++ [num_probes] ++ l). rewrite app_assoc. apply drop_app_length'.
    unfold blen. rewrite length_app. cbn. lia. }
  rewrite DecodeFixed32_le_bytes by (unfold in_range; nia).
  pose proof cache_line_sizes. rewrite CACHE_LINE_SIZE_pow, Hd. destruct (Z.eqb_spec (u32 (lines * 2 ^ log2_CACHE_LINE_SIZE)) (lines * 2 ^ w)) as [E|_].
  - by rewrite (line_size_unique lines w log2_CACHE_LINE_SIZE Hl Hodd) by (done || lia).
  - rewrite (proj2 (Z.eqb_neq lines 0)) by lia. rewrite (Z.mul_comm lines (2 ^ w)), Z.mod_mul by lia. cbn [orb negb Z.eqb].
    rewrite (Z.mul_comm (2 ^ w)). rewrite find_log2_spec by lia. cbn [mbind R_bind].
    rewrite Z.shiftl_mul_pow2, wrap_small by (unfold in_range; nia). rewrite Z.eqb_refl. done.
Qed.

Lemma legacy_MayMatch key data num_probes lines w :
  MayMatch key (LegacyBloomBitsReader data num_probes lines w) = LegacyLocality_HashMayMatch false (BloomHash key) lines num_probes data w.
Proof.
  cbn [MayMatch]. unfold LegacyLocality_PrepareHashMayMatch, LegacyLocality_HashMayMatch. destruct (line_offset _ _ _ _); [|done]. cbn [mbind R_bind].
  unfold LegacyLocality_HashMayMatchPrepared. by destruct (shift_ok w) as [[]|].
Qed.
End reader.

(** ** Builders fill with keys *)

Lemma add_hash_elem h e : h ∈ add_hash h e.
Proof.
  unfold add_hash. case_bool_decide as E; [|apply elem_of_app; right; by apply list_elem_of_singleton].
  apply last_Some in E as [l ->]. apply elem_of_app. right. by apply list_elem_of_singleton.
Qed.
Lemma add_hash_keeps h e x : x ∈ e → x ∈ add_hash h e.
Proof. intros Hx. unfold add_hash. case_bool_decide; [done|]. apply elem_of_app. by left. Qed.
Lemma add_hash_Forall (P : Z → Prop) h e : P h → Forall P e → Forall P (add_hash h e).
Proof. intros Hh He. unfold add_hash. case_bool_decide; [done|]. by apply Forall_app_2; [|constructor]. Qed.
Lemma length_add_hash h e : (length (add_hash h e) ≤ S (length e))%nat.
Proof. unfold add_hash. case_bool_decide; [lia|]. rewrite length_app. cbn. lia. Qed.

Section builders.
Context `{Build, Host, Platform, SliceHash64}.

Definition add_keys (keys : list bytes) (b : FilterBitsBuilder) : FilterBitsBuilder := foldl (λ b key, AddKey key b) b keys.
Definition hashes_of (hash : bytes → Z) (keys : list bytes) (e : list Z) : list Z := foldl (λ e key, add_hash (hash key) e) e keys.

Lemma hashes_of_Forall (P : Z → Prop) hash keys e : (∀ key, P (hash key)) → Forall P e → Forall P (hashes_of hash keys e).
Proof. intros Hh. revert e. induction keys as [|k keys IH]; intros e He; [done|]. cbn. apply IH. by apply add_hash_Forall. Qed.
Lemma length_hashes_of hash keys e : (length (hashes_of hash keys e) ≤ length e + length keys)%nat.
Proof.
  revert e. induction keys as [|k keys IH]; intros e; cbn; [lia|]. specialize (IH (add_hash (hash k) e)). unfold hashes_of in IH.
  pose proof (length_add_hash (hash k) e). lia.
Qed.
Lemma hashes_of_keeps hash keys e x : x ∈ e → x ∈ hashes_of hash keys e.
Proof. revert e. induction keys as [|k keys IH]; intros e Hx; [done|]. cbn. apply IH. by apply add_hash_keeps. Qed.
Lemma hashes_of_elem hash keys e key : key ∈ keys → hash key ∈ hashes_of hash keys e.
Proof.
  revert e. induction keys as [|k keys IH]; intros e Hk; [by apply elem_of_nil in Hk|]. cbn.
  apply elem_of_cons in Hk as [->|Hk]; [|by apply IH]. apply hashes_of_keeps, add_hash_elem.
Qed.

Lemma add_keys_fast keys mb np e : add_keys keys (FastLocalBuilder (mkFastBuilder mb np e)) = FastLocalBuilder (mkFastBuilder mb np (hashes_of GetSliceHash64 keys e)).
Proof. revert e. induction keys as [|k keys IH]; intros e; [done|]. apply IH. Qed.
Lemma add_keys_legacy keys bpk np e : add_keys keys (LegacyBuilder (mkLegacyBuilder bpk np e)) = LegacyBuilder (mkLegacyBuilder bpk np (hashes_of BloomHash keys e)).
Proof. revert e. induction keys as [|k keys IH]; intros e; [done|]. apply IH. Qed.

(** Bounds on the number of keys: a filter of less than 4 GB, or products that
    do not overflow an [int]. *)
Definition builder_fits (b : FilterBitsBuilder) (n : Z) : Prop :=
  match b with
  | FastLocalBuilder b => fast_fits (fast_millibits_per_key_ b) n
  | LegacyBuilder b => n * legacy_bits_per_key_ b < 2 ^ 31
  end.
Definition policy_ok (p : BloomFilterPolicy) : Prop := 1000 ≤ millibits_per_key_ p ∧ 1 ≤ whole_bits_per_key_ p ≤ 100.

(** Builders that no key has been added to. *)
Definition fresh (b : FilterBitsBuilder) : Prop :=
  match b with
  | FastLocalBuilder b => fast_hash_entries_ b = [] ∧ fast_num_probes_ b = FastLocal_ChooseNumProbes (fast_millibits_per_key_ b) ∧ 1000 ≤ fast_millibits_per_key_ b
  | LegacyBuilder b => legacy_hash_entries_ b = [] ∧ 0 < legacy_bits_per_key_ b ∧ 1 ≤ legacy_num_probes_ b ≤ 30
  end.

Lemma fast_fits_mono mb n m : 0 ≤ mb → n ≤ m → fast_fits mb m → fast_fits mb n.
Proof.
  intros Hmb Hnm [Hm Hl]. split; [lia|]. eapply Z.le_lt_trans; [|exact Hl]. apply Z.div_le_mono; [done|nia].
Qed.

Lemma legacy_probes_range bpk np : LegacyNoLocality_ChooseNumProbes bpk = Done np → 1 ≤ np ≤ 30.
Proof.
  unfold LegacyNoLocality_ChooseNumProbes. destruct (checked _ _) as [x|]; [|done]. cbn [mbind R_bind]. intros [= <-]. bool_cases; lia.
Qed.
(** The product with 0.69 fits an [int] for every number of bits there is. *)
Lemma legacy_probes_defined bpk : 1 ≤ bpk ≤ 100 → ∃ np, LegacyNoLocality_ChooseNumProbes bpk = Done np.
Proof.
  intros Hb. assert (Forall (λ n, match LegacyNoLocality_ChooseNumProbes (Z.of_nat n) with Done _ => true | Fault _ => false end = true) (seq 1 100)) as Hall.
  { apply (bool_decide_unpack _). vm_compute. exact I. }
  rewrite Forall_forall in Hall. specialize (Hall (Z.to_nat bpk)). rewrite Z2Nat.id in Hall by lia.
  destruct (LegacyNoLocality_ChooseNumProbes bpk) as [np|]; [by exists np|]. discriminate Hall. apply elem_of_seq. lia.
Qed.

Lemma GetBuilder_spec p context :
  policy_ok p → mode_ p ≠ kDeprecatedBlock → ∃ b p', GetBuilderWithContext context p = Done (Some b, p') ∧ fresh b.
Proof.
  intros [Hmb Hw] Hmode. unfold GetBuilderWithContext.
  assert (∀ n, ∃ b p', builder_for (S n) kFastLocalBloom context p = Done (Some b, p') ∧ fresh b) as Hfast.
  { intros n. cbn [builder_for]. unfold new_FastLocalBloomBitsBuilder. replace (1000 <=? millibits_per_key_ p) with true by (symmetry; apply Z.leb_le; lia).
    rewrite assert_true. cbn [mbind R_bind]. do 2 eexists. split; [done|]. done. }
  assert (∀ n, ∃ b p', builder_for (S n) kLegacyBloom context p = Done (Some b, p') ∧ fresh b) as Hlegacy.
  { intros n. cbn [builder_for]. unfold new_LegacyBloomBitsBuilder. destruct (legacy_probes_defined (whole_bits_per_key_ p) Hw) as [np Hnp].
    rewrite Hnp. cbn [mbind R_bind]. rewrite (proj2 (Z.eqb_neq _ 0)) by lia. cbn [negb]. rewrite assert_true. cbn [mbind R_bind].
    do 2 eexists. split; [done|]. cbn. split; [done|]. split; [lia|]. by eapply legacy_probes_range. }
  destruct (mode_ p); [|done|..].
  - apply (Hlegacy 1%nat).
  - apply (Hfast 1%nat).
  - change (builder_for 2 kAuto context p) with (builder_for 1 (if format_version context <? 5 then kLegacyBloom else kFastLocalBloom) context p).
    destruct (format_version context <? 5); [apply (Hlegacy 0%nat)|apply (Hfast 0%nat)].
Qed.

Lemma map_R_total {A B} (f : A → R B) l : (∀ x, ∃ y, f x = Done y) → ∃ ys, map_R f l = Done ys.
Proof.
  intros Hf. induction l as [|x l [ys IH]]; cbn [map_R]; [by exists []|]. destruct (Hf x) as [y ->]. cbn [mbind R_bind]. rewrite IH. by eexists.
Qed.
Lemma map_R_fmap {A B C} (f : B → R C) (g : A → B) l : map_R f (g <$> l) = map_R (λ x, f (g x)) l.
Proof. induction l as [|x l IH]; [done|]. cbn [map_R fmap list_fmap]. by rewrite <- IH. Qed.
Lemma map_R_Done {A B} (f : A → R B) (g : A → B) l : (∀ x, f x = Done (g x)) → map_R f l = Done (g <$> l).
Proof. intros Hf. induction l as [|x l IH]; [done|]. cbn [map_R fmap list_fmap]. rewrite Hf. cbn [mbind R_bind]. by rewrite IH. Qed.
End builders.

(** ** No false negatives *)

(** The hash of a key does not depend on the platform. *)
Lemma Hash_words_host (H1 H2 : Host) fuel data h : Hash_words (H := H1) fuel data h = Hash_words (H := H2) fuel data h.
Proof.
  revert data h. induction fuel as [|fuel IH]; intros data h; cbn [Hash_words]; [done|].
  destruct (Z.leb_spec 4 (blen data)) as [Hl|]; [|done]. rewrite IH. do 2 f_equal.
  all: destruct data as [|a [|b [|c [|d rest]]]]; try (unfold blen in Hl; cbn in Hl; lia); by rewrite !DecodeFixed32_le.
Qed.
Lemma BloomHash_host (H1 H2 : Host) key : BloomHash (H := H1) key = BloomHash (H := H2) key.
Proof. unfold BloomHash, Hash. by rewrite (Hash_words_host H1 H2). Qed.

Section no_false_negatives.
Context `{SH : SliceHash64}.
Context {Br : Build} {Hr : Host} {Pr : Platform}.

(** What a reader must do: answer every key, with yes for those added; and
    the same for several at once. *)
Definition reads (r : FilterBitsReader) (keys : list bytes) : Prop :=
  ∃ answer : bytes → bool,
    (∀ key, MayMatch key r = Done (answer key)) ∧ (∀ key, key ∈ keys → answer key = true) ∧
    ∀ ks, Z.of_nat (length ks) ≤ MAX_BATCH_SIZE → MayMatch_batch ks r = Done (answer <$> ks).

Lemma reads_fast d np keys :
  64 ≤ blen d < 2 ^ 32 → 
  Forall (λ key, FastLocal_HashMayMatch (Lower32of64 (GetSliceHash64 key)) (Upper32of64 (GetSliceHash64 key)) (blen d) np d = Done true) keys →
  reads (FastLocalBloomBitsReader (fast_contents d np) np (blen d)) keys.
Proof.
  intros Hd Hkeys. set (test := λ key, FastLocal_HashMayMatchPrepared (Upper32of64 (GetSliceHash64 key)) np (fast_contents d np)
    (FastLocal_PrepareHash (Lower32of64 (GetSliceHash64 key)) (blen d))).
  assert (∀ key, ∃ t, test key = Done t) as Htot.
  { intros key. apply FastLocal_HashMayMatchPrepared_total; [unfold in_range; lia|lia|apply Lower32_range|apply Upper32_range|].
    unfold fast_contents. rewrite blen_app. unfold blen. lia. }
  exists (λ key, match test key with Done t => t | Fault _ => false end).
  assert (∀ key, test key = Done match test key with Done t => t | Fault _ => false end) as Ht by (intros key; by destruct (Htot key) as [t ->]).
  split; [exact Ht|]. split.
  - intros key Hkey. rewrite Forall_forall in Hkeys. specialize (Hkeys key Hkey). unfold test, FastLocal_HashMayMatchPrepared, fast_contents.
    by rewrite (test_probes_app _ _ _ _ d _ _ true Hkeys).
  - intros ks Hks. cbn [MayMatch_batch]. rewrite (proj2 (Z.leb_le _ _) Hks). cbn [require mbind R_bind]. rewrite map_R_fmap. by apply map_R_Done.
Qed.

Lemma reads_legacy d np lines w keys :
  0 < lines → 0 ≤ w < 28 → blen d = lines * 2 ^ w → blen d < 2 ^ 32 →
  Forall (λ key, LegacyLocality_HashMayMatch false (BloomHash key) lines np d w = Done true) keys →
  reads (LegacyBloomBitsReader (legacy_contents d np lines) np lines w) keys.
Proof.
  intros Hl Hwr Hd Hfit Hkeys. set (r := LegacyBloomBitsReader _ _ _ _). set (contents := legacy_contents d np lines) in *.
  assert (∀ key, ∃ t, MayMatch key r = Done t) as Htot.
  { intros key. unfold r. rewrite legacy_MayMatch. apply LegacyLocality_HashMayMatch_total; [done|done|lia|apply Hash_range|].
    unfold contents, legacy_contents. rewrite blen_app. unfold blen in *. lia. }
  exists (λ key, match MayMatch key r with Done t => t | Fault _ => false end).
  assert (∀ key, MayMatch key r = Done match MayMatch key r with Done t => t | Fault _ => false end) as Ht by (intros key; by destruct (Htot key) as [t ->]).
  split; [exact Ht|]. split.
  - intros key Hkey. rewrite Forall_forall in Hkeys. specialize (Hkeys key Hkey). unfold r. rewrite legacy_MayMatch.
    unfold contents, legacy_contents. by rewrite (LegacyLocality_HashMayMatch_app false _ lines np w d _ true Hkeys).
  - intros ks Hks. unfold r at 1. cbn [MayMatch_batch]. rewrite (proj2 (Z.leb_le _ _) Hks). cbn [require mbind R_bind].
    assert (∀ key, ∃ b, LegacyLocality_PrepareHashMayMatch false (BloomHash (H := Hr) key) lines w = Done b) as Hprep.
    { intros key. unfold LegacyLocality_PrepareHashMayMatch. destruct (line_offset_spec false lines w Hl) with (h := BloomHash (H := Hr) key) as (b & -> & _);
        [lia|lia|apply Hash_range|]. cbn [mbind R_bind]. rewrite shift_ok_spec by lia. by eexists. }
    set (prep := λ key, match LegacyLocality_PrepareHashMayMatch false (BloomHash (H := Hr) key) lines w with Done b => b | Fault _ => 0 end).
    rewrite (map_R_Done _ (λ key, (BloomHash (H := Hr) key, prep key))).
    2: { intros key. unfold prep. by destruct (Hprep key) as [b ->]. }
    cbn [mbind R_bind]. rewrite map_R_fmap. apply map_R_Done. intros key. rewrite <- Ht. cbn [fst snd MayMatch r]. unfold r. cbn [MayMatch].
    unfold prep. by destruct (Hprep key) as [b ->].
Qed.

Lemma reads_nothing contents : blen contents = 5 → ∃ r, GetFilterBitsReader contents = Done r ∧ reads r [].
Proof.
  intros Hc. exists AlwaysFalseFilter. unfold GetFilterBitsReader. rewrite Hc. split; [done|]. exists (λ _, false). split; [done|].
  split; [by intros key Hk%elem_of_nil|]. intros ks _. cbn [MayMatch_batch]. by apply (map_R_Done _ (λ _, false)).
Qed.

(** The platform that writes. *)
Context {Bw : Build} {Hw : Host} {Pw : Platform}.

Lemma Finish_empty mb np : ∃ contents, Fast_Finish (mkFastBuilder mb np []) = Done (contents, mkFastBuilder mb np []) ∧ blen contents = 5.
Proof.
  unfold Fast_Finish. cbn [fast_hash_entries_ fast_num_probes_ length].
  assert (Fast_CalculateSpace (to_int (u32 (Z.of_nat 0))) (mkFastBuilder mb np []) = 5) as ->.
  { unfold Fast_CalculateSpace. change (to_int (u32 (Z.of_nat 0))) with 0. by rewrite andb_false_r. }
  change (5 <=? 5) with true. rewrite assert_true. cbn [mbind R_bind]. change (0 <? u32 (5 - 5)) with false. cbn [mbind R_bind].
  rewrite bool_decide_eq_true_2, assert_true by done. eexists. split; [reflexivity|done].
Qed.
Lemma Legacy_Finish_empty bpk np : 0 < bpk → ∃ contents, Legacy_Finish (mkLegacyBuilder bpk np []) = Done (contents, mkLegacyBuilder bpk np []) ∧ blen contents = 5.
Proof.
  intros Hb. unfold Legacy_Finish, Legacy_CalculateSpace. cbn [legacy_hash_entries_ legacy_bits_per_key_ length]. rewrite (proj2 (Z.eqb_neq bpk 0)) by lia.
  cbn [negb]. rewrite assert_true. change (to_int (Z.of_nat 0) =? 0) with true. cbn [negb mbind R_bind Z.eqb andb].
  rewrite EncodeFixed32_le. eexists. split; [reflexivity|done].
Qed.

Lemma no_hash_no_key hash keys : hashes_of hash keys [] = [] → keys = [].
Proof.
  destruct keys as [|k keys]; [done|]. intros E. pose proof (hashes_of_elem hash (k :: keys) [] k ltac:(left)) as Hin. rewrite E in Hin.
  by apply elem_of_nil in Hin.
Qed.

Lemma fresh_finds_keys b keys :
  fresh b → builder_fits b (Z.of_nat (length keys)) →
  ∃ contents r, @Finish Bw Hw Pw (@add_keys Hw SH keys b) = Done (contents, b) ∧ contents ≠ [] ∧
    @GetFilterBitsReader Br Hr Pr contents = Done r ∧ reads r keys.
Proof.
  assert (∀ contents : bytes, blen contents = 5 → contents ≠ []) as H5 by (by intros contents H5 ->).
  destruct b as [[mb np e0]|[bpk np e0]]; cbn [fresh]; cbn; [intros (-> & -> & Hmb) Hfit|intros (-> & Hbpk & Hnp) Hfit].
  - rewrite add_keys_fast. cbn [Finish]. set (e := hashes_of GetSliceHash64 keys []). destruct (decide (e = [])) as [He|He].
    + destruct (Finish_empty mb (FastLocal_ChooseNumProbes mb)) as (contents & Ef & Hc). rewrite He, Ef. cbn [mbind R_bind].
      destruct (reads_nothing contents Hc) as (r & ? & ?). rewrite (no_hash_no_key GetSliceHash64 keys He). eauto 10.
    + destruct (Fast_Finish_spec (H := Bw) (mkFastBuilder mb (FastLocal_ChooseNumProbes mb) e)) as (d & -> & Hd & _ & Hall); [done|done| |apply ChooseNumProbes_range|].
      { pose proof (length_hashes_of GetSliceHash64 keys []) as Hle. fold e in Hle. cbn in Hle. eapply fast_fits_mono; [| |exact Hfit]; cbn; lia. }
      cbn [mbind R_bind fast_num_probes_ fast_hash_entries_ fast_millibits_per_key_] in *. pose proof (ChooseNumProbes_range mb).
      do 2 eexists. split; [done|]. split; [by unfold fast_contents; destruct d|]. split; [apply reader_of_fast; lia|]. apply reads_fast; [lia|].
      apply Forall_forall. intros key Hkey. rewrite Forall_forall in Hall. apply (Hall (GetSliceHash64 key)). by apply hashes_of_elem.
  - rewrite add_keys_legacy. cbn [Finish]. set (e := hashes_of (@BloomHash Hw) keys []). destruct (decide (e = [])) as [He|He].
    + destruct (Legacy_Finish_empty bpk np Hbpk) as (contents & Ef & Hc). rewrite He, Ef. cbn [mbind R_bind].
      destruct (reads_nothing contents Hc) as (r & ? & ?). rewrite (no_hash_no_key BloomHash keys He). eauto 10.
    + pose proof (length_hashes_of (@BloomHash Hw) keys []) as Hle. fold e in Hle. cbn in Hle.
      destruct (@Legacy_Finish_spec Bw Hw Pw (mkLegacyBuilder bpk np e)) as (d & lines & -> & Hl & Hodd & Hd & Hdl & _ & Hall);
        [done|done| |cbn; nia|done|].
      { apply (hashes_of_Forall (in_range 32)); [intros; apply Hash_range|done]. }
      cbn [mbind R_bind legacy_num_probes_ legacy_hash_entries_ legacy_bits_per_key_] in *. pose proof (@cache_line_sizes Pw).
      rewrite (@CACHE_LINE_SIZE_pow Pw) in Hd. do 2 eexists. split; [done|]. split; [by unfold legacy_contents; destruct d|].
      split; [apply (reader_of_legacy d np lines log2_CACHE_LINE_SIZE); lia|]. apply reads_legacy; [lia|lia|done|lia|].
      apply Forall_forall. intros key Hkey. rewrite (BloomHash_host Hr Hw). rewrite Forall_forall in Hall. apply (Hall (@BloomHash Hw key)). by apply hashes_of_elem.
Qed.

(** C16. Every key added to the builder that a policy chooses is found by the
    reader made from the filter it writes: no false negatives, for both
    implementations, on any platform that reads the filter, whatever its byte
    order and the size of its cache lines; reading is defined for every other
    key, and several keys at once get the answers they would get one by one. *)
Theorem filter_finds_added_keys p context keys :
  policy_ok p → mode_ p ≠ kDeprecatedBlock →
  ∃ b p', @GetBuilderWithContext Bw context p = Done (Some b, p') ∧
    (builder_fits b (Z.of_nat (length keys)) →
     ∃ contents b' r, @Finish Bw Hw Pw (@add_keys Hw SH keys b) = Done (contents, b') ∧
       @GetFilterBitsReader Br Hr Pr contents = Done r ∧ reads r keys).
Proof.
  intros Hp Hmode. destruct (GetBuilder_spec (H := Bw) p context Hp Hmode) as (b & p' & E & Hb). exists b, p'. split; [done|]. intros Hfit.
  destruct (fresh_finds_keys b keys Hb Hfit) as (contents & r & ? & _ & ? & ?). by exists contents, b, r.
Qed.
End no_false_negatives.

(** ** The computed space *)

Section space.
Context `{Build, Host, Platform, SliceHash64}.

Lemma to_int_small z : 0 ≤ z < 2 ^ 31 → to_int z = z.
Proof.
  intros Hz. unfold to_int, to_signed. rewrite wrap_small by (unfold in_range; lia).
  destruct (Z.ltb_spec z (2 ^ (32 - 1))) as [|Hge]; [done|]. change (2 ^ (32 - 1)) with (2 ^ 31) in Hge. lia.
Qed.

(** A filter of 100 bits for each of some 343.6 million keys would take 4
    GB: its computed size wraps around to nothing but the metadata, and the
    reader of an empty filter denies every key that was added. *)
Theorem fast_filter_wraps_to_empty keys :
  NDEBUG = true → 343597379 ≤ Z.of_nat (length (hashes_of GetSliceHash64 keys [])) ≤ 343597383 →
  ∃ contents b' r, Finish (add_keys keys (FastLocalBuilder (mkFastBuilder 100000 (FastLocal_ChooseNumProbes 100000) []))) = Done (contents, b') ∧
    GetFilterBitsReader contents = Done r ∧ ∀ key, MayMatch key r = Done false.
Proof.
  intros Hnd Hn. rewrite add_keys_fast. cbn [Finish]. unfold Fast_Finish. cbn [fast_hash_entries_ fast_num_probes_ fast_millibits_per_key_].
  set (e := hashes_of GetSliceHash64 keys []) in *. set (n := Z.of_nat (length e)) in *.
  rewrite (wrap_small 32 n), to_int_small by (unfold in_range; lia).
  assert (Fast_CalculateSpace n (mkFastBuilder 100000 (FastLocal_ChooseNumProbes 100000) e) = 5) as ->.
  { unfold Fast_CalculateSpace. cbn [fast_millibits_per_key_]. replace (0 <? n) with true by (symmetry; apply Z.ltb_lt; lia).
    replace (_ / 512000) with 67108864; [done|]. apply Z.div_unique with (r := n * 100000 + 511999 - 67108864 * 512000); [left; lia|lia]. }
  change (5 <=? 5) with true. rewrite assert_true. cbn [mbind R_bind]. change (0 <? u32 (5 - 5)) with false. cbn [mbind R_bind].
  unfold assert. rewrite Hnd. do 2 eexists. exists AlwaysFalseFilter. split; [reflexivity|]. split; [reflexivity|done].
Qed.

Lemma largest_fitting_spec b space n k :
  (∀ m, (n ≤ m ≤ n + k)%nat → (0 < m)%nat → ∃ t l, Legacy_CalculateSpace (Z.of_nat m) b = Done (space m, t, l)) → (0 < n)%nat →
  ∃ m, largest_fitting (space n) (n + k) b = Done (Z.of_nat m) ∧ (n ≤ m ≤ n + k)%nat ∧ space m ≤ space n.
Proof.
  intros Hsp Hn. induction k as [|k IH].
  - rewrite Nat.add_0_r. destruct n as [|n]; [lia|]. destruct (Hsp (S n)) as (t & l & E); [lia|lia|]. cbn [largest_fitting]. rewrite E. cbn [mbind R_bind].
    rewrite Z.leb_refl. exists (S n). split; [done|]. lia.
  - rewrite Nat.add_succ_r. destruct (Hsp (S (n + k))) as (t & l & E); [lia|lia|]. cbn [largest_fitting]. rewrite E. cbn [mbind R_bind].
    destruct (Z.leb_spec (space (S (n + k))) (space n)).
    + exists (S (n + k))%nat. split; [done|]. lia.
    + destruct IH as (m & -> & Hm & Hs); [intros; apply Hsp; lia|]. exists m. split; [done|]. lia.
Qed.
Lemma Fast_CalculateNumEntry_spec n b :
  1000 ≤ fast_millibits_per_key_ b → 0 < n → n + 511 < 2 ^ 31 → fast_fits (fast_millibits_per_key_ b) n → fast_millibits_per_key_ b < 2 ^ 31 →
  ∃ m, Fast_CalculateNumEntry (Fast_CalculateSpace n b) b = Done m ∧ n ≤ m ∧ Fast_CalculateSpace m b = Fast_CalculateSpace n b.
Proof.
  intros Hmb Hn Hn31 Hfit Hmb31. destruct (Fast_CalculateSpace_value n b Hmb Hn Hfit) as [Hsp Hl]. set (mb := fast_millibits_per_key_ b) in *.
  set (lines := (n * mb + 511999) / 512000) in *. rewrite Hsp. unfold Fast_CalculateNumEntry. fold mb.
  replace (5 <=? lines * 64 + 5) with true by (symmetry; apply Z.leb_le; lia). rewrite (proj2 (Z.eqb_neq mb 0)) by lia. cbn [negb require mbind R_bind].
  rewrite !(wrap_small 64) by (unfold in_range; lia). replace (8000 * (lines * 64 + 5 - 5)) with (512000 * lines) by lia.
  assert (n * mb ≤ 512000 * lines ≤ n * mb + 511999) as Hlines.
  { pose proof (Z.div_mod (n * mb + 511999) 512000). pose proof (Z.mod_pos_bound (n * mb + 511999) 512000). unfold lines. lia. }
  set (m := 512000 * lines / mb). assert (m * mb ≤ 512000 * lines < m * mb + mb) as Hm.
  { pose proof (Z.div_mod (512000 * lines) mb). pose proof (Z.mod_pos_bound (512000 * lines) mb). unfold m. lia. }
  assert (n ≤ m) by nia. assert (m ≤ n + 511) by nia. rewrite to_int_small by lia. exists m. split; [done|]. split; [done|].
  assert ((m * mb + 511999) / 512000 = lines) as Hsame by (symmetry; apply Z.div_unique with (r := m * mb + 511999 - 512000 * lines); [left; nia|lia]).
  destruct (Fast_CalculateSpace_value m b) as [-> _]; [done|lia|split; [lia|fold mb; lia]|]. fold mb. by rewrite Hsame.
Qed.

Lemma Legacy_CalculateNumEntry_spec n b :
  0 < legacy_bits_per_key_ b → 0 < n → n * legacy_bits_per_key_ b + legacy_bits_per_key_ b + 8192 < 2 ^ 31 →
  ∃ sz t l m sz' t' l', Legacy_CalculateSpace n b = Done (sz, t, l) ∧ Legacy_CalculateNumEntry sz b = Done m ∧ n ≤ m ∧
    Legacy_CalculateSpace m b = Done (sz', t', l') ∧ sz' ≤ sz.
Proof.
  intros Hb Hn Hfit. set (bpk := legacy_bits_per_key_ b) in *. pose proof cache_line_range as HC. set (C := CACHE_LINE_SIZE) in *.
  destruct (Legacy_CalculateSpace_value n b) as (lines & E & Hl & _ & Hlow & Hhigh); [done|done|fold bpk; nia|]. fold bpk C in E, Hlow, Hhigh.
  exists (lines * C + 5), (lines * C * 8), lines. unfold Legacy_CalculateNumEntry. fold bpk. rewrite (proj2 (Z.eqb_neq bpk 0)) by lia. cbn [negb require].
  replace (0 <? lines * C + 5) with true by (symmetry; apply Z.ltb_lt; nia). rewrite !assert_true. cbn [mbind R_bind].
  rewrite (wrap_small 32 (_ * 8)) by (unfold in_range; lia). rewrite (wrap_small 32 bpk) by (unfold in_range; nia).
  set (q := (lines * C + 5) * 8 / bpk). assert (q * bpk ≤ (lines * C + 5) * 8 < q * bpk + bpk) as Hq.
  { pose proof (Z.div_mod ((lines * C + 5) * 8) bpk). pose proof (Z.mod_pos_bound ((lines * C + 5) * 8) bpk). unfold q. lia. }
  assert (n ≤ q) by nia. assert ((q + 1) * bpk < 2 ^ 31) by nia. assert (q + 1 < 2 ^ 31) by nia.
  rewrite (wrap_small 32 (q + 1)), to_int_small by (unfold in_range; lia). rewrite (proj2 (Z.ltb_ge _ _)) by lia.
  set (space := λ m : nat, match Legacy_CalculateSpace (Z.of_nat m) b with Done (sz, _, _) => sz | Fault _ => 0 end).
  assert (∀ m, 0 < m → m ≤ q + 1 → ∃ lines, Legacy_CalculateSpace m b = Done (space (Z.to_nat m), lines * C * 8, lines) ∧
    space (Z.to_nat m) = lines * C + 5 ∧ m * bpk ≤ lines * C * 8) as Hspace.
  { intros m Hm Hmq. destruct (Legacy_CalculateSpace_value m b) as (lines' & E' & _ & _ & Hlow' & _); [done|done|fold bpk; nia|]. fold bpk C in E', Hlow'.
    exists lines'. unfold space. rewrite Z2Nat.id by lia. by rewrite E'. }
  destruct (largest_fitting_spec b space (Z.to_nat n) (Z.to_nat (q + 1 - n))) as (m & Em & Hm & Hs); [|lia|].
  { intros m Hm Hm0. destruct (Hspace (Z.of_nat m)) as (l & El & _); [lia|lia|]. rewrite Nat2Z.id in El. eauto. }
  destruct (Hspace n) as (ln & En & Esn & _); [done|lia|]. rewrite E in En. injection En as Esp _ El. rewrite <- Esp in Em, Hs.
  replace (Z.to_nat n + Z.to_nat (q + 1 - n))%nat with (Z.to_nat (q + 1)) in Em by lia. rewrite Em. cbn [mbind R_bind].
  destruct (Hspace (Z.of_nat m)) as (lm & Elm & Esm & Hlm); [lia|lia|]. rewrite Nat2Z.id in Elm, Esm.
  assert (Z.of_nat m < q + 1).
  { destruct (decide (Z.of_nat m = q + 1)) as [Heq|]; [|lia]. rewrite Heq in Hlm. nia. }
  rewrite (proj2 (Z.ltb_lt _ _)), assert_true by lia. exists (Z.of_nat m), (space m), (lm * C * 8), lm. split_and!; [done|done|lia|done|done].
Qed.

(** CalculateNumEntry, given the space of [n] keys, returns at least [n], as
    its interface asks, and a filter of that many keys takes no more space. *)
Theorem CalculateNumEntry_inverts_space n :
  0 < n →
  (∀ b, 1000 ≤ fast_millibits_per_key_ b < 2 ^ 31 → n + 511 < 2 ^ 31 → fast_fits (fast_millibits_per_key_ b) n →
     ∃ m, Fast_CalculateNumEntry (Fast_CalculateSpace n b) b = Done m ∧ n ≤ m ∧ Fast_CalculateSpace m b = Fast_CalculateSpace n b) ∧
  (∀ b, 0 < legacy_bits_per_key_ b → n * legacy_bits_per_key_ b + legacy_bits_per_key_ b + 8192 < 2 ^ 31 →
     ∃ sz t l m sz' t' l', Legacy_CalculateSpace n b = Done (sz, t, l) ∧ Legacy_CalculateNumEntry sz b = Done m ∧ n ≤ m ∧
       Legacy_CalculateSpace m b = Done (sz', t', l') ∧ sz' ≤ sz).
Proof.
  intros Hn. split; [intros b [? ?] ? ?; by apply Fast_CalculateNumEntry_spec|intros b ? ?; by apply Legacy_CalculateNumEntry_spec].
Qed.

(** Given any other space, the filter of the returned number of keys may take
    up to a cache line more, although it should fit. *)
Lemma fast_space_overshoots b :
  fast_millibits_per_key_ b = 10000 → Fast_CalculateNumEntry 4096 b = Done 3272 ∧ Fast_CalculateSpace 3272 b = 4101.
Proof. unfold Fast_CalculateNumEntry, Fast_CalculateSpace. intros ->. by vm_compute. Qed.
End space.

(** A filter whose length is not that of whole cache lines, which no builder
    writes, makes the reader look past its end. *)
Lemma short_filter_read_out_of_bounds `{Build, Host, Platform, SliceHash64} key :
  GetSliceHash64 key = 2 ^ 64 - 1 →
  ∃ r, GetFilterBitsReader [0; 255; 0; 1; 0; 0] = Done r ∧ MayMatch key r = Fault OutOfBounds.
Proof.
  intros Hk. exists (FastLocalBloomBitsReader [0; 255; 0; 1; 0; 0] 1 1). split.
  - unfold GetFilterBitsReader. change (u32 (blen _) <=? 5) with false. cbn -[assert]. unfold GetBloomBitsReader.
    change (u32 (u32 (blen _) - 5)) with 1. change (0 <? 1) with true. rewrite assert_true. cbn -[DecodeFixed16].
    unfold DecodeFixed16, object_value. by destruct kLittleEndian.
  - cbn [MayMatch]. by rewrite Hk.
Qed.

(** ** At concrete keys and platforms *)

#[local] Program Instance first_byte_hash : SliceHash64 := {| GetSliceHash64 key := u64 (0x9e3779b97f4a7c15 * (1 + byte_at key 0)) |}.
Next Obligation. intros key. by apply wrap_range. Qed.
#[local] Program Instance x86 : Platform := {| log2_CACHE_LINE_SIZE := 6 |}.
Next Obligation. lia. Qed.
#[local] Program Instance s390 : Platform := {| log2_CACHE_LINE_SIZE := 8 |}.
Next Obligation. lia. Qed.
#[local] Instance little : Host := {| kLittleEndian := true |}.
#[local] Instance big : Host := {| kLittleEndian := false |}.
#[local] Instance Checked : Build := {| NDEBUG := false |}.

Definition example_policy : BloomFilterPolicy := mkPolicy 9900 10 kAuto false.
(** What the constructor makes of 9.9, of 0.1 and of NaN. *)
Example example_policies :
  new_BloomFilterPolicy (double_div (double_of 99) (double_of 10)) kAuto = Done example_policy ∧
  new_BloomFilterPolicy (double_div (double_of 1) (double_of 10)) kAuto = Done (mkPolicy 1000 1 kAuto false) ∧
  new_BloomFilterPolicy SpecFloat.S754_nan kAuto = Done (mkPolicy 100000 100 kAuto false).
Proof. vm_compute. split_and!; reflexivity. Qed.
Definition example_keys : list bytes := [[1; 2]; [1; 3]; [7]; []; [9; 9; 9; 9; 9]].

(** Written by a big-endian machine with long cache lines, read by a
    little-endian one, with a legacy and with a new filter. *)
Lemma filter_finds_added_keys_witness :
  ∃ b p', @GetBuilderWithContext Checked (mkContext 4 true) example_policy = Done (Some b, p') ∧
    (builder_fits b 5 →
     ∃ contents b' r, @Finish Checked big s390 (@add_keys big first_byte_hash example_keys b) = Done (contents, b') ∧
       @GetFilterBitsReader Checked little x86 contents = Done r ∧ @reads first_byte_hash little r example_keys).
Proof.
  apply (@filter_finds_added_keys first_byte_hash Checked little x86 Checked big s390 example_policy (mkContext 4 true) example_keys).
  - split; cbn; lia.
  - discriminate.
Defined.

Lemma AddAllEntries_is_simple_witness :
  AddAllEntries 6 (map (λ n, 2 ^ 40 * Z.of_nat n + Z.of_nat n) (seq 1 11)) (replicate 133 0) 128 =
  AddAllEntries_simple 6 (map (λ n, 2 ^ 40 * Z.of_nat n + Z.of_nat n) (seq 1 11)) (replicate 133 0) 128.
Proof.
  apply (AddAllEntries_is_simple 6 128); [split; vm_compute; congruence|lia|vm_compute; congruence].
Defined.

Lemma CalculateNumEntry_inverts_space_witness :
  (∀ b, 1000 ≤ fast_millibits_per_key_ b < 2 ^ 31 → 100 + 511 < 2 ^ 31 → fast_fits (fast_millibits_per_key_ b) 100 →
     ∃ m, Fast_CalculateNumEntry (Fast_CalculateSpace 100 b) b = Done m ∧ 100 ≤ m ∧ Fast_CalculateSpace m b = Fast_CalculateSpace 100 b) ∧
  (∀ b, 0 < legacy_bits_per_key_ b → 100 * legacy_bits_per_key_ b + legacy_bits_per_key_ b + 8192 < 2 ^ 31 →
     ∃ sz t l m sz' t' l', @Legacy_CalculateSpace Checked x86 100 b = Done (sz, t, l) ∧ @Legacy_CalculateNumEntry Checked x86 sz b = Done m ∧ 100 ≤ m ∧
       @Legacy_CalculateSpace Checked x86 m b = Done (sz', t', l') ∧ sz' ≤ sz).
Proof. apply (@CalculateNumEntry_inverts_space Checked x86 100). lia. Defined.

(** Two keys in turn, 343597380 in all. *)
Fixpoint alternating (n : nat) : list bytes :=
  match n with O => [] | S n' => [if Nat.even n' then 1 else 2] :: alternating n' end.
Lemma hashes_of_alternating n e :
  last e ≠ Some (GetSliceHash64 [if Nat.even (Nat.pred n) then 1 else 2]) → length (hashes_of GetSliceHash64 (alternating n) e) = (length e + n)%nat.
Proof.
  revert e. induction n as [|n IH]; intros e He; [cbn; lia|]. cbn [alternating hashes_of foldl Nat.pred] in *. unfold add_hash at 2.
  rewrite bool_decide_eq_false_2 by done. destruct n as [|n]; [cbn; by rewrite length_app|]. unfold hashes_of in IH. rewrite IH.
  - rewrite length_app. cbn. lia.
  - rewrite last_snoc. cbn [Nat.pred]. rewrite Nat.even_succ, <- Nat.negb_even. destruct (Nat.even n); vm_compute; congruence.
Qed.

#[local] Existing Instance little | 0.
#[local] Existing Instance x86 | 0.
Lemma fast_filter_wraps_to_empty_witness :
  ∃ contents b' r, @Finish {| NDEBUG := true |} little x86
      (add_keys (alternating (Z.to_nat 343597380)) (FastLocalBuilder (mkFastBuilder 100000 (FastLocal_ChooseNumProbes 100000) []))) = Done (contents, b') ∧
    @GetFilterBitsReader {| NDEBUG := true |} little x86 contents = Done r ∧ ∀ key, MayMatch key r = Done false.
Proof.
  apply (@fast_filter_wraps_to_empty {| NDEBUG := true |} little x86 first_byte_hash (alternating (Z.to_nat 343597380))).
  - reflexivity.
  - rewrite hashes_of_alternating by discriminate. rewrite Nat2Z.inj_add, Z2Nat.id by lia. cbn. lia.
Defined.
