(* ===== verification/BloomSimd.v ===== *)
(** * The AVX2 variant of FastLocalBloomImpl (util/bloom_impl.h)

    Eight probes at once, on vector instructions given by their documented
    lanes; it answers as the portable loop does. *)
From S2P Require Import Prelude Result Coding Bloom.

(** Vectors of eight 32-bit lanes. Of blendv, which selects by byte, only what
    it does under masks of whole lanes is used. *)
Class AVX2 := {
  m256i : Type;
  lane : m256i → nat → Z;
  _mm256_setr_epi32 : list Z → m256i;
  _mm256_set1_epi32 : Z → m256i;
  _mm256_mullo_epi32 : m256i → m256i → m256i;
  _mm256_srli_epi32 : m256i → Z → m256i;
  _mm256_srai_epi32 : m256i → Z → m256i;
  _mm256_slli_epi32 : m256i → Z → m256i;
  _mm256_sllv_epi32 : m256i → m256i → m256i;
  _mm256_sub_epi32 : m256i → m256i → m256i;
  _mm256_loadu_si256 : bytes → Z → R m256i;
  _mm256_permutevar8x32_epi32 : m256i → m256i → m256i;
  _mm256_blendv_epi8 : m256i → m256i → m256i → m256i;
  _mm256_testc_si256 : m256i → m256i → Z;
}.
Class AVX2Laws `(A : AVX2) : Prop := {
  lane_setr l j : length l = 8%nat → (j < 8)%nat → lane (_mm256_setr_epi32 l) j = default 0 (l !! j);
  lane_set1 x j : (j < 8)%nat → lane (_mm256_set1_epi32 x) j = u32 x;
  lane_mullo a b j : (j < 8)%nat → lane (_mm256_mullo_epi32 a b) j = u32 (lane a j * lane b j);
  lane_srli a n j : (j < 8)%nat → 0 ≤ n < 32 → lane (_mm256_srli_epi32 a n) j = lane a j >> n;
  lane_srai a n j : (j < 8)%nat → 0 ≤ n < 32 → lane (_mm256_srai_epi32 a n) j = u32 (to_signed 32 (lane a j) >> n);
  lane_slli a n j : (j < 8)%nat → 0 ≤ n < 32 → lane (_mm256_slli_epi32 a n) j = u32 (lane a j << n);
  lane_sllv a b j : (j < 8)%nat → 0 ≤ lane b j < 32 → lane (_mm256_sllv_epi32 a b) j = u32 (lane a j << lane b j);
  lane_sub a b j : (j < 8)%nat → lane (_mm256_sub_epi32 a b) j = u32 (lane a j - lane b j);
  lane_loadu data i : 0 ≤ i → i + 32 ≤ blen data →
    ∃ v, _mm256_loadu_si256 data i = Done v ∧ ∀ j, (j < 8)%nat → lane v j = le_value (take 4 (drop (Z.to_nat i + 4 * j) data));
  lane_permute a idx j : (j < 8)%nat → lane (_mm256_permutevar8x32_epi32 a idx) j = lane a (Z.to_nat (lane idx j .& 7));
  lane_blendv a b mask j : (j < 8)%nat → lane mask j = 0 ∨ lane mask j = 0xffffffff →
    lane (_mm256_blendv_epi8 a b mask) j = if lane mask j =? 0 then lane a j else lane b j;
  testc_lanes a b : _mm256_testc_si256 a b ≠ 0 ↔ ∀ j, (j < 8)%nat → Z.lnot (lane a j) .& lane b j = 0;
}.

Section simd.
Context `{A : AVX2}.

Definition multipliers : m256i :=
  _mm256_setr_epi32 [0x00000001; 0x9e3779b9; 0xe35e67b1; 0x734297e9; 0x35fbe861; 0xdeb7c719; 0x448b211; 0x3459b749].
Definition zero_to_seven : m256i := _mm256_setr_epi32 [0; 1; 2; 3; 4; 5; 6; 7].

(** One round of the loop: whether up to eight probes match. *)
Definition simd_round (h rem_probes : Z) (data : bytes) (data_at_cache_line : Z) : R bool :=
  let hash_vector := _mm256_set1_epi32 h in
  let hash_vector := _mm256_mullo_epi32 hash_vector multipliers in
  let word_addresses := _mm256_srli_epi32 hash_vector 28 in
  lower ← _mm256_loadu_si256 data data_at_cache_line;
  upper ← _mm256_loadu_si256 data (data_at_cache_line + 32);
  let lower := _mm256_permutevar8x32_epi32 lower word_addresses in
  let upper := _mm256_permutevar8x32_epi32 upper word_addresses in
  let upper_lower_selector := _mm256_srai_epi32 hash_vector 31 in
  let value_vector := _mm256_blendv_epi8 lower upper upper_lower_selector in
  let k_selector := _mm256_sub_epi32 zero_to_seven (_mm256_set1_epi32 rem_probes) in
  let k_selector := _mm256_srli_epi32 k_selector 31 in
  let bit_addresses := _mm256_slli_epi32 hash_vector 4 in
  let bit_addresses := _mm256_srli_epi32 bit_addresses 27 in
  let bit_mask := _mm256_sllv_epi32 k_selector bit_addresses in
  Done (negb (_mm256_testc_si256 value_vector bit_mask =? 0)).

(** Each round takes eight of the probes. *)
Fixpoint simd_loop (fuel : nat) (h rem_probes : Z) (data : bytes) (data_at_cache_line : Z) : R bool :=
  match fuel with
  | O => Fault OutOfFuel
  | S fuel' =>
      matches ← simd_round h rem_probes data data_at_cache_line;
      if rem_probes <=? 8 then Done matches
      else if negb matches then Done false
      else simd_loop fuel' (u32 (h * 0xab25f4c1)) (rem_probes - 8) data data_at_cache_line
  end.
Definition FastLocal_HashMayMatchPrepared_avx2 (h2 num_probes : Z) (data : bytes) (ptr : Z) : R bool :=
  simd_loop (S (Z.to_nat (num_probes / 8))) h2 num_probes data ptr.
End simd.

(** ** The probes of a hash *)

Fixpoint hash_at (h : Z) (j : nat) : Z := match j with O => h | S j' => FastLocal_next (hash_at h j') end.

Lemma hash_at_pow h j : in_range 32 h → hash_at h j = u32 (h * 0x9e3779b9 ^ Z.of_nat j).
Proof.
  intros Hh. induction j as [|j IH]; [by rewrite Z.mul_1_r, wrap_small|]. cbn [hash_at].
  rewrite IH. unfold FastLocal_next. rewrite wrap_mul_l, Nat2Z.inj_succ, Z.pow_succ_r by lia. f_equal. lia.
Qed.
Lemma hash_at_range h j : in_range 32 h → in_range 32 (hash_at h j).
Proof. intros Hh. rewrite hash_at_pow by done. apply wrap_range. lia. Qed.
Lemma hash_at_add h i j : hash_at (hash_at h i) j = hash_at h (i + j).
Proof. induction j as [|j IH]; [by rewrite Nat.add_0_r|]. rewrite Nat.add_succ_r. cbn [hash_at]. by rewrite IH. Qed.
Lemma wrap_mul_r w x y : wrap w (x * wrap w y) = wrap w (x * y).
Proof. apply Zmult_mod_idemp_r. Qed.

Definition multiplier_list : list Z := [0x00000001; 0x9e3779b9; 0xe35e67b1; 0x734297e9; 0x35fbe861; 0xdeb7c719; 0x448b211; 0x3459b749].
Lemma multiplier_at h j : in_range 32 h → (j < 8)%nat → u32 (u32 h * default 0 (multiplier_list !! j)) = hash_at h j.
Proof.
  intros Hh Hj. rewrite hash_at_pow, wrap_mul_l, <- (wrap_mul_r 32 h (_ ^ _)) by done.
  by do 8 (destruct j as [|j]; [done|]); lia.
Qed.
Lemma multiplier_eighth h : in_range 32 h → u32 (h * 0xab25f4c1) = hash_at h 8.
Proof. intros Hh. by rewrite hash_at_pow, <- (wrap_mul_r 32 h (_ ^ _)). Qed.

Lemma le_value_testbit s i : bytes_ok s → 0 ≤ i → Z.testbit (le_value s) i = Z.testbit (default 0 (s !! Z.to_nat (i / 8))) (i mod 8).
Proof.
  intros Hs. revert i. induction Hs as [|b s Hb Hs IH]; intros i Hi; cbn [le_value].
  { rewrite lookup_nil. by rewrite !Z.bits_0. }
  rewrite Z.lor_spec, Z.shiftl_spec by done. destruct (decide (i < 8)) as [Hlt|Hge].
  - rewrite (Z.testbit_neg_r _ (i - 8)), orb_false_r by lia. by rewrite Z.div_small, Z.mod_small by lia.
  - rewrite (in_range_testbit 8 b) by (done || lia). rewrite IH by lia. cbn [orb].
    replace i with (i - 8 + 1 * 8) at 3 4 by lia. rewrite Z.div_add, Z.mod_add by done. rewrite Z2Nat.inj_add by (try apply Z.div_pos; lia).
    change (Z.to_nat 1) with 1%nat. by rewrite Nat.add_1_r.
Qed.

Section bits.
Context (data : bytes) (ptr : Z) (Hok : bytes_ok data) (Hptr : 0 ≤ ptr) (Hline : ptr + 64 ≤ blen data).

Definition probe (h : Z) : bool := Z.testbit (default 0 (data !! Z.to_nat (ptr + (FastLocal_bitpos h >> 3)))) (FastLocal_bitpos h .& 7).

Lemma test_bit_probe h : in_range 32 h → test_bit data ptr (FastLocal_bitpos h) = Done (probe h).
Proof.
  intros Hh. unfold test_bit, probe. pose proof (FastLocal_bitpos_range h Hh) as Hb.
  destruct (load_in data (ptr + (FastLocal_bitpos h >> 3))) as (b & -> & ->); [by apply (bit_in data ptr 64)|]. cbn [mbind R_bind default].
  pose proof (low3 (FastLocal_bitpos h)). by rewrite land_one_bit by lia.
Qed.
Lemma test_probes_all n h :
  in_range 32 h → test_probes FastLocal_next FastLocal_bitpos n h data ptr = Done (forallb (λ j, probe (hash_at h j)) (seq 0 n)).
Proof.
  revert h. induction n as [|n IH]; intros h Hh; [done|]. cbn [test_probes seq forallb]. rewrite test_bit_probe by done. cbn [mbind R_bind].
  change (hash_at h 0) with h. destruct (probe h); [|done]. rewrite IH by by apply FastLocal_next_range. f_equal.
  rewrite <- fmap_S_seq, <- (list_fmap_id (seq 0 n)) at 1. generalize (seq 0 n). intros l. induction l as [|j l IHl]; [done|]. cbn. rewrite IHl.
  f_equal. f_equal. change (FastLocal_next h) with (hash_at h 1). apply hash_at_add.
Qed.

(** The word of a probe, and its bit within. *)
Lemma word_probe h :
  in_range 32 h → Z.testbit (le_value (take 4 (drop (Z.to_nat ptr + 4 * Z.to_nat (h >> 28)) data))) (FastLocal_bitpos h mod 32) = probe h.
Proof.
  intros Hh. pose proof (FastLocal_bitpos_range h Hh) as Hb. unfold probe. set (bp := FastLocal_bitpos h) in *.
  assert (h >> 28 = bp / 32) as ->.
  { unfold bp, FastLocal_bitpos. rewrite !Z.shiftr_div_pow2 by lia. change (2 ^ (32 - 9)) with 8388608. change (2 ^ 28) with (8388608 * 32).
    unfold in_range in Hh. by rewrite Z.div_div by lia. }
  change 7 with (Z.ones 3). rewrite Z.land_ones, Z.shiftr_div_pow2 by lia. change (2 ^ 3) with 8.
  rewrite le_value_testbit; [|by apply bytes_ok_take, bytes_ok_drop|apply Z.mod_pos_bound; lia].
  pose proof (Z.mod_pos_bound bp 32). pose proof (Z.mod_pos_bound bp 8).
  rewrite lookup_take_lt, lookup_drop by (Z.div_mod_to_equations; lia). f_equal.
  - do 2 f_equal. Z.div_mod_to_equations. lia.
  - Z.div_mod_to_equations. lia.
Qed.
End bits.

(** ** A round *)

Section round.
Context `{A : AVX2, !AVX2Laws A}.
Context (data : bytes) (ptr : Z) (Hok : bytes_ok data) (Hptr : 0 ≤ ptr) (Hline : ptr + 64 ≤ blen data).
#[local] Abbreviation probe := (probe data ptr).

Lemma lnot_land_bit v b : 0 ≤ b → (Z.lnot v .& (1 << b) = 0 ↔ Z.testbit v b = true).
Proof.
  intros Hb. pose proof (land_one_bit (Z.lnot v) b Hb) as E. rewrite Z.lnot_spec in E by done.
  destruct (Z.eqb_spec (Z.lnot v .& (1 << b)) 0), (Z.testbit v b); cbn in E; split; intros; done || congruence.
Qed.
Lemma top_bit x : in_range 32 x → u32 (to_signed 32 x >> 31) = if x <? 2 ^ 31 then 0 else 0xffffffff.
Proof.
  intros Hx. unfold to_signed, in_range in *. rewrite (wrap_small 32 x) by done. change (2 ^ (32 - 1)) with (2 ^ 31).
  rewrite Z.shiftr_div_pow2 by lia. destruct (Z.ltb_spec x (2 ^ 31)).
  - by rewrite Z.div_small by lia.
  - by rewrite <- (Z.div_unique (x - 2 ^ 32) (2 ^ 31) (-1) (x - 2 ^ 31)) by lia.
Qed.

Section lanes.
Context (h : Z) (j : nat) (Hh : in_range 32 h) (Hj : (j < 8)%nat).
#[local] Abbreviation hash_vector := (_mm256_mullo_epi32 (_mm256_set1_epi32 h) multipliers).
#[local] Abbreviation word_addresses := (_mm256_srli_epi32 hash_vector 28).

Lemma lane_hash : lane hash_vector j = hash_at h j.
Proof. rewrite lane_mullo, lane_set1 by done. unfold multipliers. rewrite lane_setr by done. by apply multiplier_at. Qed.

Lemma lane_value lower upper :
  (∀ j, (j < 8)%nat → lane lower j = le_value (take 4 (drop (Z.to_nat ptr + 4 * j) data))) →
  (∀ j, (j < 8)%nat → lane upper j = le_value (take 4 (drop (Z.to_nat (ptr + 32) + 4 * j) data))) →
  lane (_mm256_blendv_epi8 (_mm256_permutevar8x32_epi32 lower word_addresses) (_mm256_permutevar8x32_epi32 upper word_addresses)
    (_mm256_srai_epi32 hash_vector 31)) j = le_value (take 4 (drop (Z.to_nat ptr + 4 * Z.to_nat (hash_at h j >> 28)) data)).
Proof.
  intros Hlower Hupper. pose proof (hash_at_range h j Hh) as Hr. assert (lane (_mm256_srai_epi32 hash_vector 31) j = if hash_at h j <? 2 ^ 31 then 0 else 0xffffffff) as Es.
  { rewrite lane_srai, lane_hash by (done || lia). by apply top_bit. }
  rewrite lane_blendv by (done || rewrite Es; destruct (_ <? _); auto). rewrite Es, !lane_permute, !lane_srli, lane_hash by (done || lia).
  change 7 with (Z.ones 3). rewrite Z.land_ones, !Z.shiftr_div_pow2 by lia. change (2 ^ 3) with 8. change (2 ^ 28) with 268435456.
  unfold in_range in Hr. pose proof (Z.mod_pos_bound (hash_at h j / 268435456) 8).
  destruct (Z.ltb_spec (hash_at h j) (2 ^ 31)); cbn [Z.eqb]; [rewrite Hlower by lia|rewrite Hupper by lia]; do 3 f_equal; Z.div_mod_to_equations; lia.
Qed.

Lemma lane_mask rem :
  0 ≤ rem < 2 ^ 31 →
  lane (_mm256_sllv_epi32 (_mm256_srli_epi32 (_mm256_sub_epi32 zero_to_seven (_mm256_set1_epi32 rem)) 31)
    (_mm256_srli_epi32 (_mm256_slli_epi32 hash_vector 4) 27)) j =
  if Z.of_nat j <? rem then 1 << (FastLocal_bitpos (hash_at h j) mod 32) else 0.
Proof.
  intros Hrem. pose proof (hash_at_range h j Hh) as Hr. unfold in_range in Hr.
  assert (lane (_mm256_srli_epi32 (_mm256_slli_epi32 hash_vector 4) 27) j = FastLocal_bitpos (hash_at h j) mod 32) as Eb.
  { rewrite lane_srli, lane_slli, lane_hash by (done || lia). unfold FastLocal_bitpos, wrap. rewrite !Z.shiftr_div_pow2, Z.shiftl_mul_pow2 by lia.
    change (2 ^ (32 - 9)) with 8388608. change (2 ^ 27) with 134217728. change (2 ^ 4) with 16. change (2 ^ 32) with 4294967296. Z.div_mod_to_equations. lia. }
  pose proof (Z.mod_pos_bound (FastLocal_bitpos (hash_at h j)) 32) as Hb. rewrite lane_sllv, Eb by (done || rewrite Eb; lia).
  rewrite lane_srli, lane_sub, lane_set1 by (done || lia). unfold zero_to_seven. rewrite lane_setr by done.
  replace (default 0 ([0; 1; 2; 3; 4; 5; 6; 7] !! j)) with (Z.of_nat j) by (clear -Hj; destruct j as [|[|[|[|[|[|[|[|?]]]]]]]]; [done..|lia]).
  rewrite (wrap_small 32 rem) by (unfold in_range; lia). rewrite Z.shiftr_div_pow2 by lia. destruct (Z.ltb_spec (Z.of_nat j) rem).
  - unfold wrap at 2. rewrite <- (Z.mod_unique _ (2 ^ 32) (-1) (Z.of_nat j - rem + 2 ^ 32)) by lia.
    rewrite <- (Z.div_unique (Z.of_nat j - rem + 2 ^ 32) (2 ^ 31) 1 (Z.of_nat j - rem + 2 ^ 32 - 2 ^ 31)) by lia.
    rewrite Z.shiftl_1_l. apply wrap_small. split; [apply Z.pow_nonneg; lia|]. apply Z.pow_lt_mono_r; lia.
  - rewrite (wrap_small 32 (_ - _)) by (unfold in_range; lia). rewrite Z.div_small by lia. by rewrite Z.shiftl_0_l.
Qed.
End lanes.

Lemma simd_round_spec h rem :
  in_range 32 h → 0 ≤ rem < 2 ^ 31 →
  simd_round h rem data ptr = Done (forallb (λ j, negb (Z.of_nat j <? rem) || probe (hash_at h j)) (seq 0 8)).
Proof.
  intros Hh Hrem. unfold simd_round. destruct (lane_loadu data ptr) as (lower & -> & Hlower); [lia|lia|].
  destruct (lane_loadu data (ptr + 32)) as (upper & -> & Hupper); [lia|lia|]. cbn [mbind R_bind]. f_equal.
  apply eq_true_iff_eq. rewrite forallb_forall, negb_true_iff, Z.eqb_neq, testc_lanes. apply forall_proper. intros j.
  rewrite <- list_elem_of_In, elem_of_seq. assert ((j < 8)%nat → Z.lnot (le_value (take 4 (drop (Z.to_nat ptr + 4 * Z.to_nat (hash_at h j >> 28)) data)))
    .& (if Z.of_nat j <? rem then 1 << (FastLocal_bitpos (hash_at h j) mod 32) else 0) = 0 ↔ negb (Z.of_nat j <? rem) || probe (hash_at h j) = true) as E.
  { intros Hj. destruct (Z.of_nat j <? rem); cbn [negb orb]; [|by rewrite Z.land_0_r].
    rewrite lnot_land_bit by (apply Z.mod_pos_bound; lia). by rewrite word_probe by (done || by apply hash_at_range). }
  split.
  - intros Hl [_ Hj]. specialize (Hl Hj). rewrite (lane_value h j Hh Hj lower upper Hlower Hupper), (lane_mask h j Hh Hj rem Hrem) in Hl. by apply E.
  - intros Hp Hj. rewrite (lane_value h j Hh Hj lower upper Hlower Hupper), (lane_mask h j Hh Hj rem Hrem). apply E; [done|]. apply Hp. lia.
Qed.
Lemma forallb_Forall {B} (p : B → bool) l : forallb p l = true ↔ Forall (λ x, p x = true) l.
Proof. by rewrite forallb_forall, List.Forall_forall. Qed.
Lemma forallb_ext_in {B} (p q : B → bool) l : (∀ x, x ∈ l → p x = q x) → forallb p l = forallb q l.
Proof.
  intros E. induction l as [|x l IH]; [done|]. cbn. rewrite E by left. f_equal. apply IH. intros y Hy. apply E. by right.
Qed.

Lemma simd_loop_spec fuel h rem :
  in_range 32 h → 0 ≤ rem < 2 ^ 31 → rem < 8 * Z.of_nat fuel →
  simd_loop fuel h rem data ptr = Done (forallb (λ j, probe (hash_at h j)) (seq 0 (Z.to_nat rem))).
Proof.
  revert h rem. induction fuel as [|fuel IH]; intros h rem Hh Hrem Hfuel; [lia|]. cbn [simd_loop]. rewrite simd_round_spec by done. cbn [mbind R_bind].
  destruct (Z.leb_spec rem 8).
  - replace 8%nat with (Z.to_nat rem + (8 - Z.to_nat rem))%nat by lia. rewrite seq_app, forallb_app. f_equal.
    rewrite (forallb_ext_in _ (λ j, probe (hash_at h j)) (seq 0 (Z.to_nat rem))), (forallb_ext_in _ (λ _, true) (seq (0 + _) _)).
    + replace (forallb (λ _, true) _) with true by (by induction (seq _ _)). by rewrite andb_true_r.
    + intros j [Hj _]%elem_of_seq. by rewrite (proj2 (Z.ltb_ge _ _)) by lia.
    + intros j [_ Hj]%elem_of_seq. by rewrite (proj2 (Z.ltb_lt _ _)) by lia.
  - rewrite (forallb_ext_in _ (λ j, probe (hash_at h j)) (seq 0 8)).
    2: { intros j [_ Hj]%elem_of_seq. by rewrite (proj2 (Z.ltb_lt _ _)) by lia. }
    replace (Z.to_nat rem) with (8 + Z.to_nat (rem - 8))%nat by lia. rewrite seq_app, forallb_app.
    destruct (forallb _ (seq 0 8)); cbn [negb andb]; [|done].
    rewrite multiplier_eighth, IH by (done || lia || by apply hash_at_range). f_equal.
    rewrite <- (fmap_add_seq 8 0). generalize (seq 0 (Z.to_nat (rem - 8))). intros l. induction l as [|j l IHl]; [done|].
    cbn [forallb fmap list_fmap]. by rewrite IHl, hash_at_add.
Qed.

(** C20. With AVX2 a cache line is tested for eight probes at a time, by words
    instead of bytes; whatever the number of probes, the answer is that of the
    portable loop. *)
Theorem avx2_matches_portable h2 num_probes :
  in_range 32 h2 → 0 ≤ num_probes < 2 ^ 31 →
  FastLocal_HashMayMatchPrepared_avx2 h2 num_probes data ptr = FastLocal_HashMayMatchPrepared h2 num_probes data ptr.
Proof.
  intros Hh Hnp. unfold FastLocal_HashMayMatchPrepared_avx2, FastLocal_HashMayMatchPrepared.
  rewrite (test_probes_all data ptr Hptr Hline) by done. apply simd_loop_spec; [done|done|].
  rewrite Nat2Z.inj_succ, Z2Nat.id by (apply Z.div_pos; lia). pose proof (Z.div_mod num_probes 8). pose proof (Z.mod_pos_bound num_probes 8). lia.
Qed.
End round.

(** ** Vectors as lists *)

#[local] Abbreviation lanes8 f := (map f (seq 0 8)).
#[local] Abbreviation at_ v j := (default 0 (v !! j)).
#[export] Instance list_avx2 : AVX2 := {|
  m256i := list Z;
  lane v j := at_ v j;
  _mm256_setr_epi32 l := l;
  _mm256_set1_epi32 x := lanes8 (λ _, u32 x);
  _mm256_mullo_epi32 a b := lanes8 (λ j, u32 (at_ a j * at_ b j));
  _mm256_srli_epi32 a n := lanes8 (λ j, at_ a j >> n);
  _mm256_srai_epi32 a n := lanes8 (λ j, u32 (to_signed 32 (at_ a j) >> n));
  _mm256_slli_epi32 a n := lanes8 (λ j, u32 (at_ a j << n));
  _mm256_sllv_epi32 a b := lanes8 (λ j, u32 (at_ a j << at_ b j));
  _mm256_sub_epi32 a b := lanes8 (λ j, u32 (at_ a j - at_ b j));
  _mm256_loadu_si256 data i :=
    if (0 <=? i) && (i + 32 <=? blen data) then Done (lanes8 (λ j, le_value (take 4 (drop (Z.to_nat i + 4 * j) data)))) else Fault OutOfBounds;
  _mm256_permutevar8x32_epi32 a idx := lanes8 (λ j, at_ a (Z.to_nat (at_ idx j .& 7)));
  _mm256_blendv_epi8 a b mask := lanes8 (λ j, if at_ mask j =? 0 then at_ a j else at_ b j);
  _mm256_testc_si256 a b := if forallb (λ j, Z.lnot (at_ a j) .& at_ b j =? 0) (seq 0 8) then 1 else 0;
|}.

Lemma lanes8_at (f : nat → Z) j : (j < 8)%nat → at_ (lanes8 f) j = f j.
Proof. intros Hj. destruct j as [|[|[|[|[|[|[|[|?]]]]]]]]; [done..|lia]. Qed.
#[export] Instance list_avx2_laws : AVX2Laws list_avx2.
Proof.
  split; try (intros; match goal with Hj : (_ < 8)%nat |- _ => exact (lanes8_at _ _ Hj) end).
  - done.
  - intros data i Hi Hl. cbn [_mm256_loadu_si256 list_avx2]. rewrite !(proj2 (Z.leb_le _ _)) by lia. cbn [andb]. eexists. split; [done|].
    intros j Hj. exact (lanes8_at _ j Hj).
  - intros a b. cbn [_mm256_testc_si256 list_avx2 lane]. destruct (forallb _ _) eqn:E.
    + split; [|done]. intros _ j Hj. rewrite forallb_forall in E. apply Z.eqb_eq, E. apply in_seq. lia.
    + split; [done|]. intros Hall. exfalso. rewrite <- not_true_iff_false, forallb_forall in E. apply E. intros j Hj%in_seq. apply Z.eqb_eq, Hall. lia.
Qed.

Lemma avx2_matches_portable_witness :
  FastLocal_HashMayMatchPrepared_avx2 (A := list_avx2) 0xdeadbeef 13 (replicate 3 0 ++ replicate 64 0xf7 ++ [1]) 3 =
    FastLocal_HashMayMatchPrepared 0xdeadbeef 13 (replicate 3 0 ++ replicate 64 0xf7 ++ [1]) 3.
Proof.
  apply (avx2_matches_portable (A := list_avx2)); apply (bool_decide_unpack _); vm_compute; exact I.
Defined.
