(* ===== verification/SliceTransform.v ===== *)
(** * Prefix extractors (include/rocksdb/slice_transform.h, util/slice.cc)

    The interface, the three extractors that are built in, and what a range of
    keys must satisfy for all of it to have one prefix. *)
From S2P Require Import Prelude Result Comparator.

(** Extractors are values: a table and its reader may have different ones.
    [FullLengthEnabled] returns the length it sets when it returns true. *)
Record SliceTransform := mkTransform {
  Transform : bytes → R bytes;
  InDomain : bytes → bool;
  InRange : bytes → bool;
  FullLengthEnabled : option Z;
  SameResultWhenAppended : bytes → bool;
}.

Section builtin.
Context `{Build}.

(** [Slice(src.data(), n)]: beyond the end of [src] it would be read. *)
Definition slice_prefix (n : Z) (src : bytes) : R bytes :=
  _ ← require OutOfBounds (n <=? blen src); Done (take (Z.to_nat n) src).

Definition FixedPrefixTransform (prefix_len : Z) : SliceTransform := {|
  Transform src := _ ← assert (prefix_len <=? blen src); slice_prefix prefix_len src;
  InDomain src := prefix_len <=? blen src;
  InRange dst := blen dst =? prefix_len;
  FullLengthEnabled := Some prefix_len;
  SameResultWhenAppended prefix := prefix_len <=? blen prefix;
|}.
Definition CappedPrefixTransform (cap_len : Z) : SliceTransform := {|
  Transform src := slice_prefix (Z.min cap_len (blen src)) src;
  InDomain _ := true;
  InRange dst := blen dst <=? cap_len;
  FullLengthEnabled := Some cap_len;
  SameResultWhenAppended prefix := cap_len <=? blen prefix;
|}.
Definition NoopTransform : SliceTransform := {|
  Transform src := Done src;
  InDomain _ := true;
  InRange _ := true;
  FullLengthEnabled := None;
  SameResultWhenAppended _ := false;
|}.
End builtin.

(** ** Ranges with one prefix *)

(** What a filter on prefixes relies on to exclude the keys from [a] on and
    before [b]: both have the prefix of every key between them, or [b] has the
    full length and is the next string of that length. *)
Class PrefixExtractorLaws (C : Comparator) (e : SliceTransform) : Prop := {
  Transform_defined : ∀ k, InDomain e k = true → ∃ p, Transform e k = Done p;
  prefix_convex : ∀ a k b p, InDomain e a = true → InDomain e b = true → Transform e a = Done p → Transform e b = Done p →
    Compare a k ≤ 0 → Compare k b < 0 → InDomain e k = true ∧ Transform e k = Done p;
  prefix_full_length : ∀ n a k b p, bytes_ok a → bytes_ok b → bytes_ok k →
    FullLengthEnabled e = Some n → InDomain e a = true → Transform e a = Done p → blen b = n →
    IsSameLengthImmediateSuccessor p b = true → Compare a k ≤ 0 → Compare k b < 0 → n ≤ blen k → InDomain e k = true ∧ Transform e k = Done p;
}.

(** Strings between two strings with a common prefix have it. *)
Lemma compare_between p a k b :
  slice_compare (p ++ a) k ≤ 0 → slice_compare k (p ++ b) < 0 → ∃ r, k = p ++ r ∧ slice_compare a r ≤ 0 ∧ slice_compare r b < 0.
Proof.
  revert k. induction p as [|x p IH]; intros k; cbn; [by exists k|]. destruct k as [|y k]; [lia|]. cbn.
  destruct (Z.ltb_spec x y), (Z.ltb_spec y x); try lia. intros Ha Hb. destruct (IH k Ha Hb) as (r & -> & ?). exists r. split; [|done]. by replace x with y by lia.
Qed.
Lemma prefix_take {A} n (l : list A) : l = take n l ++ drop n l.
Proof. by rewrite take_drop. Qed.

Lemma zeros_least s t : all_ff_00 s t = true → length s = length t → bytes_ok t → ∀ r, bytes_ok r → (length t ≤ length r)%nat → 0 ≤ slice_compare r t.
Proof.
  revert t. induction s as [|c s IH]; intros [|d t]; cbn; try done; [intros _ _ _ [|]; cbn; lia|].
  intros [[_ ->%Z.eqb_eq]%andb_true_iff Hs]%andb_true_iff [= Hl] Ht [|y r] Hr Hlr; cbn in *; [lia|].
  apply Forall_cons in Hr as [[Hy _] Hr]. apply Forall_cons in Ht as [_ Ht]. destruct (Z.ltb_spec y 0), (Z.ltb_spec 0 y); try lia. apply (IH t); [done|done|done|done|lia].
Qed.
Lemma ones_greatest s t : all_ff_00 s t = true → length s = length t → ∀ r, bytes_ok r → slice_compare s r ≤ 0 → ∃ r', r = s ++ r'.
Proof.
  revert t. induction s as [|c s IH]; intros [|d t]; cbn; try done; [intros _ _ r _ _; by exists r|].
  intros [[->%Z.eqb_eq _]%andb_true_iff Hs]%andb_true_iff [= Hl] [|y r] Hr Hle; cbn in *; [lia|].
  apply Forall_cons in Hr as [[_ Hy] Hr]. change (2 ^ 8) with 256 in Hy. destruct (Z.ltb_spec 255 y), (Z.ltb_spec y 255); try lia.
  destruct (IH t Hs Hl r Hr Hle) as [r' ->]. exists r'. by replace y with 255 by lia.
Qed.

(** The strings that are long enough between a string and its immediate
    successor of the same length start with the former. *)
Lemma successor_prefix p b k :
  bytes_ok b → bytes_ok k → bytewise_IsSameLengthImmediateSuccessor p b = true →
  slice_compare p k ≤ 0 → slice_compare k b < 0 → (length b ≤ length k)%nat → length p = length b ∧ ∃ r, k = p ++ r.
Proof.
  intros Hb Hk. unfold bytewise_IsSameLengthImmediateSuccessor. destruct (Nat.eqb_spec (length p) (length b)) as [Hl|]; [|done]. cbn [negb orb].
  destruct (difference_offset_split p b) as (q & Hq & [(x & u & y & v & -> & -> & Hne)|Heq]); rewrite <- Hq.
  2: { destruct (length p =? 0)%nat; [done|]. destruct Heq as [(w & -> & ->)|(w & -> & ->)];
       (rewrite (proj2 (Nat.leb_le _ _)); [done|]); rewrite length_app in Hl; rewrite ?length_app; lia. }
  rewrite !length_app in *. cbn [length] in *. rewrite (proj2 (Nat.eqb_neq _ _)) by lia. rewrite (proj2 (Nat.leb_gt _ _)) by lia.
  rewrite !byte_at_mid, !(drop_app_ge _ _ (S (length q))) by lia. replace (S (length q) - length q)%nat with 1%nat by lia. cbn [drop]. rewrite !drop_0.
  destruct (negb (x =? 255) && (x + 1 =? y)) eqn:Exy; [|done]. apply andb_true_iff in Exy as [_ <-%Z.eqb_eq]. intros Hff Hpk Hkb Hlk. split; [done|].
  destruct (compare_between q (x :: u) k ((x + 1) :: v) Hpk Hkb) as (r & -> & Hr1 & Hr2). destruct r as [|z r]; [cbn in Hr1; lia|]. cbn in Hr1, Hr2.
  apply bytes_ok_mid in Hk as (_ & _ & Hr). apply bytes_ok_mid in Hb as (_ & _ & Hv). rewrite length_app in Hlk. cbn in Hlk.
  destruct (Z.ltb_spec x z) as [Hxz|Hxz].
  - destruct (Z.ltb_spec z (x + 1)); [lia|]. destruct (Z.ltb_spec (x + 1) z); [lia|].
    pose proof (zeros_least u v Hff ltac:(lia) Hv r Hr ltac:(lia)). lia.
  - destruct (Z.ltb_spec z x); [lia|]. destruct (ones_greatest u v Hff ltac:(lia) r Hr Hr1) as [r' ->]. exists r'.
    replace z with x by lia. by rewrite <- app_assoc.
Qed.

Section instances.
Context `{Build}.

Lemma slice_prefix_Done n src p : 0 ≤ n → slice_prefix n src = Done p ↔ n ≤ blen src ∧ p = take (Z.to_nat n) src.
Proof.
  intros Hn. unfold slice_prefix. destruct (Z.leb_spec n (blen src)); cbn; [|split; [done|lia]]. split; [intros [= <-]; done|]. by intros [_ ->].
Qed.
Lemma take_eq_split {A} n (l p : list A) : p = take n l → (n ≤ length l)%nat → ∃ r, l = p ++ r ∧ length p = n.
Proof. intros -> Hn. exists (drop n l). split; [by rewrite take_drop|]. rewrite length_take. lia. Qed.

#[export] Instance FixedPrefixTransform_laws n : 0 ≤ n → PrefixExtractorLaws BytewiseComparator (FixedPrefixTransform n).
Proof.
  intros Hn. assert (∀ k p, (_ ← assert (n <=? blen k); slice_prefix n k) = Done p ↔ n ≤ blen k ∧ p = take (Z.to_nat n) k) as Htr.
  { intros k p. destruct (Z.leb_spec n (blen k)); [rewrite assert_true; cbn [mbind R_bind]; by apply slice_prefix_Done|]. unfold assert, require.
    destruct (NDEBUG || false); cbn [mbind R_bind]; [by apply slice_prefix_Done|]. split; [done|lia]. }
  split; cbn [Transform InDomain FullLengthEnabled FixedPrefixTransform].
  - intros k Hk. exists (take (Z.to_nat n) k). apply Htr. split; [by apply Z.leb_le|done].
  - intros a k b p _ _ [Ha ->]%Htr [Hb E]%Htr Hak Hkb. cbn in Hak, Hkb.
    destruct (take_eq_split (Z.to_nat n) b _ E) as (r & -> & Hl); [unfold blen in Hb; lia|].
    rewrite (prefix_take (Z.to_nat n) a) in Hak. destruct (compare_between _ _ k _ Hak Hkb) as (t & -> & _).
    assert (n ≤ blen (take (Z.to_nat n) a ++ t)) as Hlen by (rewrite blen_app; unfold blen at 1; rewrite Hl; pose proof (blen_nonneg t); lia).
    split; [by apply Z.leb_le|]. apply Htr. split; [done|]. by rewrite take_app_length'.
  - intros n' a k b p Ha Hb Hk [= <-] _ [Hla ->]%Htr Hlb Hsucc Hak Hkb Hlk. cbn in Hak, Hkb, Hsucc.
    split; [by apply Z.leb_le|]. apply Htr. split; [done|].
    destruct (successor_prefix (take (Z.to_nat n) a) b k Hb Hk Hsucc) as (Hl & r & ->); [|done|unfold blen in *; lia|].
    + eapply slice_compare_trans; [|exact Hak]. rewrite (prefix_take (Z.to_nat n) a) at 2. apply slice_compare_prefix.
    + rewrite take_app_length'; [done|]. unfold blen in Hlb. lia.
Qed.

#[export] Instance CappedPrefixTransform_laws n : 0 ≤ n → PrefixExtractorLaws BytewiseComparator (CappedPrefixTransform n).
Proof.
  intros Hn. assert (∀ k p, slice_prefix (Z.min n (blen k)) k = Done p ↔ p = take (Z.to_nat n) k) as Htr.
  { intros k p. rewrite slice_prefix_Done by (pose proof (blen_nonneg k); lia). destruct (Z.le_ge_cases n (blen k)).
    - rewrite Z.min_l by done. naive_solver.
    - rewrite Z.min_r by done. unfold blen in *. rewrite Nat2Z.id, !take_ge by lia. split; [by intros [_ ->]|]. intros ->. split; [lia|done]. }
  split; cbn [Transform InDomain FullLengthEnabled CappedPrefixTransform].
  - intros k _. exists (take (Z.to_nat n) k). by apply Htr.
  - intros a k b p _ _ ->%Htr E%Htr Hak Hkb. cbn in Hak, Hkb. split; [done|]. apply Htr.
    rewrite (prefix_take (Z.to_nat n) a) in Hak. rewrite (prefix_take (Z.to_nat n) b), <- E in Hkb.
    destruct (compare_between _ _ k _ Hak Hkb) as (t & -> & Ht1 & Ht2).
    destruct (decide (Z.to_nat n ≤ length a)%nat) as [Hla|Hla].
    + by rewrite take_app_length' by (rewrite length_take; lia).
    + exfalso. rewrite (drop_ge b) in Ht2; [by destruct t|].
      assert (length (take (Z.to_nat n) a) = length (take (Z.to_nat n) b)) as Hl by (by rewrite E). rewrite !length_take in Hl. lia.
  - intros n' a k b p Ha Hb Hk [= <-] _ ->%Htr Hlb Hsucc Hak Hkb Hlk. cbn in Hak, Hkb, Hsucc. split; [done|]. apply Htr.
    destruct (successor_prefix (take (Z.to_nat n) a) b k Hb Hk Hsucc) as (Hl & r & ->); [|done|unfold blen in *; lia|].
    + eapply slice_compare_trans; [|exact Hak]. rewrite (prefix_take (Z.to_nat n) a) at 2. apply slice_compare_prefix.
    + rewrite take_app_length'; [done|]. unfold blen in Hlb. lia.
Qed.
End instances.
