(* ===== verification/FullFilter.v ===== *)
(** * Full filter blocks (table/block_based/full_filter_block.h and .cc)

    One filter for all keys of a table, and for their prefixes. Builder and
    reader are written against an interface of filters by bits, which the Bloom
    filter policy implements; reading the block, its cache and the statistics
    are left out: the result of GetOrReadFilterBlock is an argument. *)
From S2P Require Import Prelude Result Coding Comparator SliceTransform Bloom FilterPolicy FilterPolicyCorrect.

(** FilterBitsBuilder, FilterBitsReader and how a policy gets from one to the
    other (include/rocksdb/filter_policy.h). *)
Class FilterBits (B Rd : Type) := {
  bits_AddKey : bytes → B → B;
  bits_Finish : B → R (bytes * B);
  bits_reader : bytes → R Rd;
  bits_MayMatch : bytes → Rd → R bool;
  bits_MayMatch_batch : list bytes → Rd → R (list bool);
}.
(** What their documentation promises: [bits_has b keys], the builder has been
    given [keys] since its last filter, as many as it can take. *)
Class FilterBitsLaws (B Rd : Type) `{FilterBits B Rd} := {
  bits_has : B → list bytes → Prop;
  bits_max : B → Z;
  bits_AddKey_has : ∀ b keys key, bits_has b keys → bits_has (bits_AddKey key b) (keys ++ [key]) ∧ bits_max (bits_AddKey key b) = bits_max b;
  bits_Finish_found : ∀ b keys, bits_has b keys → Z.of_nat (length keys) ≤ bits_max b →
    ∃ contents b' rd answer, bits_Finish b = Done (contents, b') ∧ bits_has b' [] ∧ bits_reader contents = Done rd ∧ contents ≠ [] ∧
      (∀ key, bits_MayMatch key rd = Done (answer key)) ∧ (∀ key, key ∈ keys → answer key = true) ∧
      (∀ ks, Z.of_nat (length ks) ≤ MAX_BATCH_SIZE → bits_MayMatch_batch ks rd = Done (answer <$> ks));
}.

Section full_filter.
Context {B Rd : Type} `{FilterBits B Rd, Build}.

(** ** FullFilterBlockBuilder *)

Record FullFilterBlockBuilder := mkFullBuilder {
  filter_bits_builder_ : B;
  prefix_extractor_ : option SliceTransform;
  whole_key_filtering_ : bool;
  last_whole_key_recorded_ : bool;
  last_whole_key_str_ : bytes;
  last_prefix_recorded_ : bool;
  last_prefix_str_ : bytes;
  num_added_ : Z;
}.
#[local] Abbreviation builder := FullFilterBlockBuilder.

Definition new_FullFilterBlockBuilder (prefix_extractor : option SliceTransform) (whole_key_filtering : bool) (filter_bits_builder : B) : builder :=
  mkFullBuilder filter_bits_builder prefix_extractor whole_key_filtering false [] false [] 0.

Definition set_bits (bits : B) (n : Z) (b : builder) : builder :=
  mkFullBuilder bits (prefix_extractor_ b) (whole_key_filtering_ b) (last_whole_key_recorded_ b) (last_whole_key_str_ b)
    (last_prefix_recorded_ b) (last_prefix_str_ b) n.
Definition record_whole_key (key : bytes) (b : builder) : builder :=
  mkFullBuilder (filter_bits_builder_ b) (prefix_extractor_ b) (whole_key_filtering_ b) true key (last_prefix_recorded_ b) (last_prefix_str_ b)
    (num_added_ b).
Definition record_prefix (prefix : bytes) (b : builder) : builder :=
  mkFullBuilder (filter_bits_builder_ b) (prefix_extractor_ b) (whole_key_filtering_ b) (last_whole_key_recorded_ b) (last_whole_key_str_ b)
    true prefix (num_added_ b).

Definition Full_AddKey (key : bytes) (b : builder) : builder :=
  set_bits (bits_AddKey key (filter_bits_builder_ b)) (u32 (num_added_ b + 1)) b.

Definition AddPrefix (e : SliceTransform) (key : bytes) (b : builder) : R builder :=
  prefix ← Transform e key;
  if whole_key_filtering_ b then
    if negb (last_prefix_recorded_ b) || negb (slice_compare (last_prefix_str_ b) prefix =? 0)
    then Done (record_prefix prefix (Full_AddKey prefix b))
    else Done b
  else Done (Full_AddKey prefix b).

Definition Full_Add (key : bytes) (b : builder) : R builder :=
  let add_prefix := match prefix_extractor_ b with Some e => InDomain e key | None => false end in
  let b :=
    if whole_key_filtering_ b then
      if negb add_prefix then Full_AddKey key b
      else if negb (last_whole_key_recorded_ b) || negb (slice_compare (last_whole_key_str_ b) key =? 0)
      then record_whole_key key (Full_AddKey key b)
      else b
    else b in
  match prefix_extractor_ b with
  | Some e => if add_prefix then AddPrefix e key b else Done b
  | None => Done b
  end.

Definition Full_Reset (b : builder) : builder :=
  mkFullBuilder (filter_bits_builder_ b) (prefix_extractor_ b) (whole_key_filtering_ b) false (last_whole_key_str_ b) false (last_prefix_str_ b)
    (num_added_ b).

(** The status is always OK. *)
Definition Full_Finish (b : builder) : R (bytes * builder) :=
  let b := Full_Reset b in
  if negb (num_added_ b =? 0) then
    '(contents, bits) ← bits_Finish (filter_bits_builder_ b);
    Done (contents, set_bits bits 0 b)
  else Done ([], b).

(** ** ParsedFullFilterBlock, FullFilterBlockReader *)

(** The reader of the bits, or none for an empty block. *)
Definition ParsedFullFilterBlock (contents : bytes) : R (option Rd) :=
  if bool_decide (contents = []) then Done None else Some <$> bits_reader contents.

(** What the reader asks of its table. *)
Record FullFilterBlockReader := mkFullReader {
  whole_key_filtering : bool;
  table_prefix_extractor : option SliceTransform;
}.

(** [filter_block] is what GetOrReadFilterBlock returns, [None] for an error. *)
Definition Full_MayMatch (entry : bytes) (filter_block : option (option Rd)) : R bool :=
  match filter_block with
  | None => Done true
  | Some None => Done true
  | Some (Some filter_bits_reader) => bits_MayMatch entry filter_bits_reader
  end.
Definition Full_KeyMayMatch (key : bytes) (filter_block : option (option Rd)) (r : FullFilterBlockReader) : R bool :=
  if negb (whole_key_filtering r) then Done true else Full_MayMatch key filter_block.
Definition Full_PrefixMayMatch (prefix : bytes) (filter_block : option (option Rd)) : R bool := Full_MayMatch prefix filter_block.

(** Several keys: which of them stay candidates. Keys out of the domain are not
    asked for, and stay. *)
Fixpoint domain_keys (prefix_extractor : option SliceTransform) (keys : list bytes) : R (list (option bytes)) :=
  match keys with
  | [] => Done []
  | key :: keys' =>
      e ← match prefix_extractor with
          | None => Done (Some key)
          | Some e => if InDomain e key then Some <$> Transform e key else Done None
          end;
      es ← domain_keys prefix_extractor keys'; Done (e :: es)
  end.
Fixpoint merge_answers (entries : list (option bytes)) (may_match : list bool) : R (list bool) :=
  match entries with
  | [] => Done []
  | None :: entries' => ms ← merge_answers entries' may_match; Done (true :: ms)
  | Some _ :: entries' =>
      m ← checked OutOfBounds (head may_match); ms ← merge_answers entries' (tail may_match); Done (m :: ms)
  end.
Definition Full_MayMatch_range (keys : list bytes) (prefix_extractor : option SliceTransform) (filter_block : option (option Rd)) : R (list bool) :=
  match filter_block with
  | None => Done (map (λ _, true) keys)
  | Some None => Done (map (λ _, true) keys)
  | Some (Some filter_bits_reader) =>
      entries ← domain_keys prefix_extractor keys;
      may_match ← bits_MayMatch_batch (omap id entries) filter_bits_reader;
      merge_answers entries may_match
  end.
Definition KeysMayMatch (keys : list bytes) (filter_block : option (option Rd)) (r : FullFilterBlockReader) : R (list bool) :=
  if negb (whole_key_filtering r) then Done (map (λ _, true) keys) else Full_MayMatch_range keys None filter_block.
Definition PrefixesMayMatch (keys : list bytes) (prefix_extractor : option SliceTransform) (filter_block : option (option Rd)) : R (list bool) :=
  Full_MayMatch_range keys prefix_extractor filter_block.

Definition IsFilterCompatible {C : Comparator} (iterate_upper_bound : option bytes) (prefix : bytes) (r : FullFilterBlockReader) : R bool :=
  match iterate_upper_bound, table_prefix_extractor r with
  | Some upper_bound, Some e =>
      if negb (InDomain e upper_bound) then Done false
      else
        upper_bound_xform ← Transform e upper_bound;
        if negb (Equal prefix upper_bound_xform) then
          if match FullLengthEnabled e with
             | None => true
             | Some n => negb (blen upper_bound =? n) || negb (IsSameLengthImmediateSuccessor prefix upper_bound)
             end
          then Done false else Done true
        else Done true
  | _, _ => Done false
  end.

(** [may_match] and [filter_checked]. *)
Definition RangeMayExist {C : Comparator} (iterate_upper_bound : option bytes) (user_key : bytes) (prefix_extractor : option SliceTransform)
    (need_upper_bound_check : bool) (filter_block : option (option Rd)) (r : FullFilterBlockReader) : R (bool * bool) :=
  match prefix_extractor with
  | None => Done (true, false)
  | Some e =>
      if negb (InDomain e user_key) then Done (true, false)
      else
        prefix ← Transform e user_key;
        incompatible ← (if need_upper_bound_check
                        then compatible ← IsFilterCompatible iterate_upper_bound prefix r; Done (negb compatible) else Done false);
        if incompatible : bool then Done (true, false)
        else m ← Full_PrefixMayMatch prefix filter_block; Done (m, true)
  end.
End full_filter.

(** ** No key is lost *)

Section correct.
Context {B Rd : Type} `{FB : FilterBits B Rd, L : !FilterBitsLaws B Rd, Build}.
Context `{C : Comparator}.
Implicit Types (b : FullFilterBlockBuilder (B := B)) (added keys : list bytes).

(** What has been put into the filter: [added] holds every key, if whole keys
    are filtered, and every prefix there is. *)
Definition covered (w : bool) (oe : option SliceTransform) added (key : bytes) : Prop :=
  (w = true → key ∈ added) ∧ ∀ e p, oe = Some e → InDomain e key = true → Transform e key = Done p → p ∈ added.
Record full_inv (w : bool) (oe : option SliceTransform) (most : Z) keys added b : Prop := {
  fi_bits : bits_has (filter_bits_builder_ b) added;
  fi_max : bits_max (filter_bits_builder_ b) = most;
  fi_options : whole_key_filtering_ b = w ∧ prefix_extractor_ b = oe;
  fi_whole : last_whole_key_recorded_ b = true → last_whole_key_str_ b ∈ added;
  fi_prefix : last_prefix_recorded_ b = true → last_prefix_str_ b ∈ added;
  fi_num : num_added_ b = u32 (Z.of_nat (length added));
  fi_length : (length added ≤ 2 * length keys)%nat;
  fi_keys : Forall (covered w oe added) keys;
}.

Lemma covered_app w oe added key x : covered w oe added key → covered w oe (added ++ [x]) key.
Proof. intros [Hw Hp]. split; intros; apply elem_of_app; left; eauto. Qed.

(** One entry more, with room for it. *)
Definition added_to (w : bool) (oe : option SliceTransform) (most : Z) keys added b (room : nat) : Prop :=
  bits_has (filter_bits_builder_ b) added ∧ bits_max (filter_bits_builder_ b) = most ∧ whole_key_filtering_ b = w ∧ prefix_extractor_ b = oe ∧
  (last_whole_key_recorded_ b = true → last_whole_key_str_ b ∈ added) ∧ (last_prefix_recorded_ b = true → last_prefix_str_ b ∈ added) ∧
  num_added_ b = u32 (Z.of_nat (length added)) ∧ (length added ≤ 2 * length keys + room)%nat ∧ Forall (covered w oe added) keys.

Lemma Full_AddKey_spec w oe most keys added b room key :
  added_to w oe most keys added b room → added_to w oe most keys (added ++ [key]) (Full_AddKey key b) (S room).
Proof.
  intros (Hb & Hm & Hw & Ho & Hlw & Hlp & Hn & Hl & Hk). destruct (bits_AddKey_has _ _ key Hb) as [Hb' Hm'].
  split_and!; cbn; try done.
  - by rewrite Hm'.
  - intros E. rewrite elem_of_app. left. auto.
  - intros E. rewrite elem_of_app. left. auto.
  - rewrite Hn, wrap_add_l, length_app. f_equal. cbn. lia.
  - rewrite length_app. cbn. lia.
  - eapply Forall_impl; [exact Hk|]. intros x. apply covered_app.
Qed.

Lemma Full_Add_spec w oe most keys added b key :
  (∀ e, oe = Some e → PrefixExtractorLaws C e) → full_inv w oe most keys added b →
  ∃ added' b', Full_Add key b = Done b' ∧ full_inv w oe most (keys ++ [key]) added' b'.
Proof.
  intros He [Hb Hm [Hw Ho] Hlw Hlp Hn Hl Hk].
  assert (added_to w oe most keys added b 0) as H0 by (split_and!; done || lia).
  assert (∀ added' b' room, (room ≤ 2)%nat → added_to w oe most keys added' b' room → covered w oe added' key →
    full_inv w oe most (keys ++ [key]) added' b') as Hdone.
  { intros added' b' room Hr (? & ? & ? & ? & ? & ? & ? & ? & ?) Hc. split; try done; [rewrite length_app; cbn; lia|]. by apply Forall_app_2; [|constructor]. }
  unfold Full_Add. rewrite Hw, Ho.
  assert (∃ added1 b1, added_to w oe most keys added1 b1 1 ∧ (w = true → key ∈ added1) ∧
    b1 = if w then if negb match oe with Some e => InDomain e key | None => false end then Full_AddKey key b
                   else if negb (last_whole_key_recorded_ b) || negb (slice_compare (last_whole_key_str_ b) key =? 0)
                        then record_whole_key key (Full_AddKey key b) else b else b) as (added1 & b1 & Hadd1 & Hin1 & <-).
  { pose proof (Full_AddKey_spec _ _ _ _ _ _ _ key H0) as H1. assert (key ∈ added ++ [key]) as Hin by (apply elem_of_app; right; by left).
    assert (added_to w oe most keys added b 1) as H01 by (destruct H0 as (?&?&?&?&?&?&?&?&?); split_and!; done || lia).
    destruct w; [|exists added, b; done]. destruct (negb match oe with Some e => InDomain e key | None => false end).
    { exists (added ++ [key]), (Full_AddKey key b). done. }
    destruct (negb (last_whole_key_recorded_ b) || negb (slice_compare (last_whole_key_str_ b) key =? 0)) eqn:Enew.
    - exists (added ++ [key]), (record_whole_key key (Full_AddKey key b)). destruct H1 as (?&?&?&?&?&?&?&?&?). by split_and!.
    - exists added, b. split; [done|]. split; [|done]. intros _. apply orb_false_iff in Enew as [Hrec%negb_false_iff Hsame%negb_false_iff].
      apply Z.eqb_eq, slice_compare_eq in Hsame. rewrite <- Hsame. by apply Hlw. }
  cbn zeta. assert (prefix_extractor_ b1 = oe) as -> by apply Hadd1. destruct oe as [e|].
  2: { exists added1, b1. split; [done|]. apply (Hdone added1 b1 1%nat); [lia|done|]. split; [done|]. intros ? ? [=]. }
  destruct (InDomain e key) eqn:Ed.
  2: { exists added1, b1. split; [done|]. apply (Hdone added1 b1 1%nat); [lia|done|]. split; [done|]. intros e' p [= <-]. by rewrite Ed. }
  destruct (Transform_defined (PrefixExtractorLaws := He e eq_refl) key Ed) as [p Hp]. unfold AddPrefix. rewrite Hp. cbn [mbind R_bind].
  assert (whole_key_filtering_ b1 = w) as -> by apply Hadd1. pose proof (Full_AddKey_spec _ _ _ _ _ _ _ p Hadd1) as H2.
  assert (covered w (Some e) (added1 ++ [p]) key) as Hc2.
  { split; [intros; apply elem_of_app; left; auto|]. intros e' p' [= <-] _ Hp'. rewrite Hp in Hp'. injection Hp' as <-. apply elem_of_app. right. by left. }
  destruct w.
  - destruct (negb (last_prefix_recorded_ b1) || negb (slice_compare (last_prefix_str_ b1) p =? 0)) eqn:Enew.
    + exists (added1 ++ [p]), (record_prefix p (Full_AddKey p b1)). split; [done|]. apply (Hdone _ _ 2%nat); [lia| |done].
      destruct H2 as (?&?&?&?&?&?&?&?&?). split_and!; try done. intros _. cbn. apply elem_of_app. right. by left.
    + exists added1, b1. split; [done|]. apply (Hdone _ _ 1%nat); [lia|done|]. split; [done|]. intros e' p' [= <-] _ Hp'. rewrite Hp in Hp'. injection Hp' as <-.
      apply orb_false_iff in Enew as [Hrec%negb_false_iff Hsame%negb_false_iff]. apply Z.eqb_eq, slice_compare_eq in Hsame. rewrite <- Hsame.
      destruct Hadd1 as (_&_&_&_&_&Hlp1&_). by apply Hlp1.
  - exists (added1 ++ [p]), (Full_AddKey p b1). split; [done|]. by apply (Hdone _ _ 2%nat); [lia| |].
Qed.

Fixpoint Full_AddAll keys b : R FullFilterBlockBuilder :=
  match keys with [] => Done b | key :: keys' => b ← Full_Add key b; Full_AddAll keys' b end.

Lemma Full_AddAll_spec w oe most keys0 keys added b :
  (∀ e, oe = Some e → PrefixExtractorLaws C e) → full_inv w oe most keys0 added b →
  ∃ added' b', Full_AddAll keys b = Done b' ∧ full_inv w oe most (keys0 ++ keys) added' b'.
Proof.
  intros He. revert keys0 added b. induction keys as [|key keys IH]; intros keys0 added b Hinv; cbn [Full_AddAll].
  { exists added, b. by rewrite app_nil_r. }
  destruct (Full_Add_spec w oe most keys0 added b key He Hinv) as (added1 & b1 & -> & Hinv1). cbn [mbind R_bind].
  destruct (IH _ _ _ Hinv1) as (added' & b' & E & Hinv'). exists added', b'. split; [done|]. by rewrite <- app_assoc in Hinv'.
Qed.

(** What the block answers about an entry: [None] stands for no block. *)
Definition answers (fb : option Rd) added : Prop :=
  match fb with
  | None => added = []
  | Some rd => ∃ answer, (∀ x, bits_MayMatch x rd = Done (answer x)) ∧ (∀ x, x ∈ added → answer x = true) ∧
      ∀ ks, Z.of_nat (length ks) ≤ MAX_BATCH_SIZE → bits_MayMatch_batch ks rd = Done (answer <$> ks)
  end.

Lemma Full_Finish_answers w oe most keys added b :
  full_inv w oe most keys added b → 2 * Z.of_nat (length keys) ≤ most → 2 * Z.of_nat (length keys) < 2 ^ 32 →
  ∃ contents b' fb, Full_Finish b = Done (contents, b') ∧ ParsedFullFilterBlock contents = Done fb ∧ answers fb added.
Proof.
  intros [Hb Hm [Hw Ho] Hlw Hlp Hn Hl Hk] Hmost Hnum. unfold Full_Finish. change (num_added_ (Full_Reset b)) with (num_added_ b).
  rewrite Hn, wrap_small by (unfold in_range; lia). destruct (Z.eqb_spec (Z.of_nat (length added)) 0) as [E|E]; cbn [negb].
  - do 2 eexists. exists None. split; [done|]. split; [done|]. destruct added; [done|cbn in E; lia].
  - change (filter_bits_builder_ (Full_Reset b)) with (filter_bits_builder_ b).
    destruct (bits_Finish_found (filter_bits_builder_ b) added Hb) as (contents & bits' & rd & answer & -> & _ & Erd & Hne & Ha & Hin & Hbatch); [lia|].
    cbn [mbind R_bind]. do 2 eexists. exists (Some rd). split; [done|]. unfold ParsedFullFilterBlock. rewrite bool_decide_eq_false_2, Erd by done.
    split; [done|]. by exists answer.
Qed.

(** A filter block of [keys], written and read back. *)
Definition written (w : bool) (oe : option SliceTransform) (bits : B) keys (fb : option Rd) : Prop :=
  ∃ b contents b', Full_AddAll keys (new_FullFilterBlockBuilder oe w bits) = Done b ∧ Full_Finish b = Done (contents, b') ∧
    ParsedFullFilterBlock contents = Done fb.

Lemma filter_written w oe bits keys :
  (∀ e, oe = Some e → PrefixExtractorLaws C e) → bits_has bits [] → 2 * Z.of_nat (length keys) ≤ bits_max bits → 2 * Z.of_nat (length keys) < 2 ^ 32 →
  ∃ fb added, written w oe bits keys fb ∧ answers fb added ∧ Forall (covered w oe added) keys.
Proof.
  intros He Hb Hmost Hnum.
  destruct (Full_AddAll_spec w oe (bits_max bits) [] keys [] (new_FullFilterBlockBuilder oe w bits) He) as (added & b & E & Hinv).
  { by split; try (constructor || done). }
  destruct (Full_Finish_answers w oe _ keys added b Hinv Hmost Hnum) as (contents & b' & fb & Ef & Ep & Ha).
  exists fb, added. split; [by exists b, contents, b'|]. split; [done|]. apply Hinv.
Qed.

Lemma answers_found fb added x : answers fb added → x ∈ added → Full_MayMatch x (Some fb) = Done true.
Proof.
  destruct fb as [rd|]; cbn [answers Full_MayMatch]; [|by intros -> ?%elem_of_nil]. intros (answer & Ha & Hin & _) Hx. by rewrite Ha, Hin.
Qed.
Lemma answers_defined fb added x : answers fb added → ∃ t, Full_MayMatch x (Some fb) = Done t.
Proof. destruct fb as [rd|]; cbn [answers Full_MayMatch]; [|by eexists]. intros (answer & Ha & _). rewrite Ha. by eexists. Qed.

Lemma answers_range fb added oe ks entries :
  answers fb added → domain_keys oe ks = Done entries → (∀ x, Some x ∈ entries → x ∈ added) → Z.of_nat (length ks) ≤ MAX_BATCH_SIZE →
  Full_MayMatch_range ks oe (Some fb) = Done (map (λ _, true) ks).
Proof.
  destruct fb as [rd|]; [|done]. cbn [answers Full_MayMatch_range]. intros (answer & _ & Hin & Hbatch) Hd Hadd Hlen. rewrite Hd. cbn [mbind R_bind].
  assert (length entries = length ks) as Hle.
  { clear -Hd. revert entries Hd. induction ks as [|k ks IH]; intros entries Hd; cbn [domain_keys] in Hd; [by injection Hd as <-|].
    apply R_bind_Done in Hd as (e & _ & (es & Hes & [= <-])%R_bind_Done). cbn. by rewrite (IH es Hes). }
  assert (length (omap id entries) ≤ length entries)%nat as Hom by (clear; induction entries as [|[]]; cbn; lia).
  rewrite Hbatch by lia. cbn [mbind R_bind]. clear Hd Hlen Hom Hbatch. revert ks Hle.
  induction entries as [|[x|] entries IH]; intros [|k ks] Hle; try done; injection Hle as Hle.
  - cbn. rewrite Hin by (apply Hadd; by left). cbn [mbind R_bind]. rewrite (IH ltac:(intros y Hy; apply Hadd; by right) ks Hle). done.
  - cbn. by rewrite (IH ltac:(intros y Hy; apply Hadd; by right) ks Hle).
Qed.

(** C17. A full filter block written for any keys, with whole keys, prefixes or
    both, never denies one of them when it is read back, nor the prefix of one;
    asking for several at once keeps all of them; and every other question is
    answered. What FullFilterBlockBuilder leaves out as a repetition is there. *)
Theorem full_filter_finds_keys w oe bits keys w' oe' :
  (∀ e, oe = Some e → PrefixExtractorLaws C e) → (w' = true → w = true) →
  bits_has bits [] → 2 * Z.of_nat (length keys) ≤ bits_max bits → 2 * Z.of_nat (length keys) < 2 ^ 32 →
  ∃ fb, written w oe bits keys fb ∧ (∀ x, ∃ t, Full_MayMatch x (Some fb) = Done t) ∧
    (∀ key, key ∈ keys → Full_KeyMayMatch key (Some fb) (mkFullReader w' oe') = Done true) ∧
    (∀ key e p, key ∈ keys → oe = Some e → InDomain e key = true → Transform e key = Done p → Full_PrefixMayMatch p (Some fb) = Done true) ∧
    (∀ ks, ks ⊆ keys → Z.of_nat (length ks) ≤ MAX_BATCH_SIZE →
       KeysMayMatch ks (Some fb) (mkFullReader w' oe') = Done (map (λ _, true) ks) ∧
       (oe ≠ None → PrefixesMayMatch ks oe (Some fb) = Done (map (λ _, true) ks))).
Proof.
  intros He Hw' Hb Hmost Hnum. destruct (filter_written w oe bits keys He Hb Hmost Hnum) as (fb & added & Hwr & Ha & Hk). rewrite Forall_forall in Hk.
  exists fb. split; [done|]. split; [intros x; by apply (answers_defined fb added)|]. split; [|split].
  - intros key Hkey. unfold Full_KeyMayMatch. cbn. destruct w'; [|done]. apply (answers_found fb added _ Ha). by apply (Hk key Hkey), Hw'.
  - intros key e p Hkey -> Hd Hp. apply (answers_found fb added _ Ha). by apply (proj2 (Hk key Hkey) e p).
  - intros ks Hks Hlen. split.
    + unfold KeysMayMatch. cbn. destruct w'; [|done]. apply (answers_range fb added None ks (Some <$> ks) Ha); [| |done].
      * clear. induction ks as [|k ks IH]; [done|]. cbn [domain_keys]. cbn [mbind R_bind]. by rewrite IH.
      * intros x (y & [= <-] & Hy)%list_elem_of_fmap. by apply (Hk x (Hks x Hy)), Hw'.
    + intros Hne. destruct oe as [e|]; [|done]. unfold PrefixesMayMatch.
      assert (∃ entries, domain_keys (Some e) ks = Done entries ∧ ∀ x, Some x ∈ entries → x ∈ added) as (entries & Ed & Hadd).
      { clear Hlen. induction ks as [|k ks IH]; cbn [domain_keys]; [exists []; split; [done|]; by intros x Hx%elem_of_nil|].
        destruct (IH ltac:(intros x Hx; apply Hks; by right)) as (entries & -> & Hadd). destruct (InDomain e k) eqn:Hd; cbn [mbind R_bind fmap R_fmap].
        - destruct (Transform_defined (PrefixExtractorLaws := He e eq_refl) k Hd) as [p Hp]. rewrite Hp. cbn. eexists. split; [done|].
          intros x [[= ->]|Hx]%elem_of_cons; [|by apply Hadd]. by apply (proj2 (Hk k (Hks k ltac:(by left))) e p).
        - eexists. split; [done|]. intros x [[=]|Hx]%elem_of_cons. by apply Hadd. }
      by apply (answers_range fb added (Some e) ks entries).
Qed.

Lemma Equal_same `{!ComparatorLaws C} (x y : bytes) : CanKeysWithDifferentByteContentsBeEqual = false → Equal x y = true → x = y.
Proof. intros Hc E%Equal_Compare. by apply Equal_bytes. Qed.

(** C18. When RangeMayExist excludes a table, none of its keys has the prefix of
    the sought key. If it was asked to check the upper bound
    (need_upper_bound_check), there is one, and moreover no key of the table that
    has the full length of the extractor's prefixes lies between the sought key
    and that bound; if it was not asked, keys with other prefixes may lie there.
    Whatever it did not check it does not exclude. *)
Theorem RangeMayExist_sound `{!ComparatorLaws C} w e bits keys w' :
  PrefixExtractorLaws C e → CanKeysWithDifferentByteContentsBeEqual = false → Forall bytes_ok keys →
  bits_has bits [] → 2 * Z.of_nat (length keys) ≤ bits_max bits → 2 * Z.of_nat (length keys) < 2 ^ 32 →
  ∃ fb, written w (Some e) bits keys fb ∧ ∀ upper user_key need,
    bytes_ok user_key → (∀ u, upper = Some u → bytes_ok u) →
    ∃ may_exist checked, RangeMayExist upper user_key (Some e) need (Some fb) (mkFullReader w' (Some e)) = Done (may_exist, checked) ∧
      (checked = false → may_exist = true) ∧
      (may_exist = false →
        (∀ key, key ∈ keys → InDomain e key = true → Transform e key ≠ Transform e user_key) ∧
        (need = true → ∃ u, upper = Some u ∧
          ∀ key, key ∈ keys → (∀ n, FullLengthEnabled e = Some n → n ≤ blen key) → ¬ (Compare user_key key ≤ 0 ∧ Compare key u < 0))).
Proof.
  intros He Hcan Hok Hb Hmost Hnum. destruct (filter_written w (Some e) bits keys) as (fb & added & Hwr & Ha & Hk); [by intros ? [= <-]|done..|].
  exists fb. split; [done|]. intros upper user_key need Huk Hup. rewrite Forall_forall in Hk, Hok. unfold RangeMayExist.
  destruct (InDomain e user_key) eqn:Hd; cbn [negb]; [|by exists true, false].
  destruct (Transform_defined user_key Hd) as [prefix Hp]. rewrite Hp. cbn [mbind R_bind]. destruct (answers_defined fb added prefix Ha) as [m Hm].
  assert (m = false → ∀ key, key ∈ keys → InDomain e key = true → Transform e key ≠ Done prefix) as Hnone.
  { intros -> key Hkey Hdk Hpk. rewrite (answers_found fb added prefix Ha) in Hm; [done|]. by apply (proj2 (Hk key Hkey) e prefix). }
  destruct need; cbn [mbind R_bind].
  2: { unfold Full_PrefixMayMatch. rewrite Hm. exists m, true. split; [done|]. split; [done|]. intros Hf. split; [by apply Hnone|done]. }
  assert (∃ compatible, IsFilterCompatible upper prefix (mkFullReader w' (Some e)) = Done compatible ∧
    (compatible = true → ∃ u, upper = Some u ∧ ∀ key, key ∈ keys → (∀ n, FullLengthEnabled e = Some n → n ≤ blen key) →
       Compare user_key key ≤ 0 → Compare key u < 0 → InDomain e key = true ∧ Transform e key = Done prefix)) as (compatible & -> & Hcomp).
  { unfold IsFilterCompatible. cbn [table_prefix_extractor]. destruct upper as [u|]; [|by exists false]. destruct (InDomain e u) eqn:Hdu; cbn [negb]; [|by exists false].
    destruct (Transform_defined u Hdu) as [pu Hpu]. rewrite Hpu. cbn [mbind R_bind]. destruct (Equal prefix pu) eqn:Eq; cbn [negb].
    - exists true. split; [done|]. intros _. apply Equal_same in Eq as ->; [|done]. exists u. split; [done|]. intros key Hkey _ Hlo Hhi.
      by apply (prefix_convex user_key key u pu).
    - destruct (FullLengthEnabled e) as [n|] eqn:Ef; [|by exists false]. destruct (Z.eqb_spec (blen u) n) as [Hn|]; cbn [negb orb]; [|by exists false].
      destruct (IsSameLengthImmediateSuccessor prefix u) eqn:Es; cbn [negb]; [|by exists false]. exists true. split; [done|]. intros _. exists u. split; [done|].
      intros key Hkey Hfull Hlo Hhi. apply (prefix_full_length n user_key key u prefix); auto. }
  cbn [mbind R_bind]. destruct compatible; cbn [negb]; [|by exists true, false].
  unfold Full_PrefixMayMatch. rewrite Hm. exists m, true. split; [done|]. split; [done|]. intros Hf. split; [by apply Hnone|]. intros _.
  destruct (Hcomp eq_refl) as (u & -> & Hrange). exists u. split; [done|]. intros key Hkey Hfull [Hlo Hhi].
  destruct (Hrange key Hkey Hfull Hlo Hhi) as [Hdk Hpk]. by apply (Hnone Hf key).
Qed.
End correct.
