(* ===== verification/TableFilter.v ===== *)
(** * The filter block of a table: full filters with the Bloom filter policy

    The builders and readers of the policy implement the interface that the
    full filter block is written against; range queries at concrete filters,
    and a range that every filter loses. *)
From S2P Require Import Prelude Result Coding Comparator SliceTransform Hash FastRange Bloom FilterPolicy FilterPolicyCorrect FullFilter.

Section instance.
Context `{Build, Host, Platform, SliceHash64}.

#[export] Instance policy_bits : FilterBits FilterBitsBuilder FilterBitsReader := {|
  bits_AddKey := AddKey;
  bits_Finish := Finish;
  bits_reader := GetFilterBitsReader;
  bits_MayMatch := MayMatch;
  bits_MayMatch_batch := MayMatch_batch;
|}.

(** The most keys [builder_fits] allows. *)
Definition most_keys (b : FilterBitsBuilder) : Z :=
  match b with
  | FastLocalBuilder b => Z.min (2 ^ 31 - 1) ((2 ^ 26 - 1) * 512000 / fast_millibits_per_key_ b)
  | LegacyBuilder b => (2 ^ 31 - 1) / legacy_bits_per_key_ b
  end.
Lemma most_keys_fit b n : fresh b → n ≤ most_keys b → builder_fits b n.
Proof.
  destruct b as [[mb np e]|[bpk np e]]; cbn.
  - intros (_ & _ & Hmb) Hn. split; [lia|]. apply Z.div_lt_upper_bound; [lia|].
    pose proof (Z.mul_div_le ((2 ^ 26 - 1) * 512000) mb ltac:(lia)). change (2 ^ 26) with 67108864 in *. nia.
  - intros (_ & Hb & _) Hn. pose proof (Z.mul_div_le (2 ^ 31 - 1) bpk Hb). nia.
Qed.
Lemma most_keys_added keys b : most_keys (add_keys keys b) = most_keys b.
Proof. revert b. induction keys as [|k keys IH]; intros b; [done|]. cbn. unfold add_keys in IH. rewrite IH. by destruct b. Qed.

#[export] Program Instance policy_bits_laws : FilterBitsLaws FilterBitsBuilder FilterBitsReader := {|
  bits_has b keys := ∃ b0, fresh b0 ∧ b = add_keys keys b0;
  bits_max := most_keys;
|}.
Next Obligation.
  intros b keys key (b0 & Hb0 & ->). split; [|by destruct (add_keys keys b0)]. exists b0. split; [done|]. unfold add_keys. by rewrite foldl_app.
Qed.
Next Obligation.
  intros b keys (b0 & Hb0 & ->) Hn. rewrite most_keys_added in Hn.
  destruct (fresh_finds_keys b0 keys Hb0 (most_keys_fit b0 _ Hb0 Hn)) as (contents & r & E & Hne & Er & answer & Ha & Hin & Hbatch).
  exists contents, b0, r, answer. split_and!; try done. by exists b0.
Qed.
End instance.

(** ** A range that is excluded although it holds a key *)

Lemma builtin_prefix_length `{Build} n e k p :
  e ∈ [FixedPrefixTransform n; CappedPrefixTransform n] → Transform e k = Done p → blen p ≤ blen k.
Proof.
  assert (∀ m, slice_prefix m k = Done p → blen p ≤ blen k) as Hs.
  { intros m. unfold slice_prefix, require. destruct (m <=? blen k); [|done]. intros [= <-]. unfold blen. rewrite length_take. lia. }
  intros [->| ->%list_elem_of_singleton]%elem_of_cons; cbn [Transform FixedPrefixTransform CappedPrefixTransform]; [|apply Hs].
  intros (_ & _ & E)%R_bind_Done. by eapply Hs.
Qed.

(** C19. With prefixes of [n] bytes, fixed or capped, the keys from a string of
    [n] bytes on and before the next string of [n] bytes need not have the
    prefix of the first: take [x b 255] and [x (b+1) 0]; the string [x (b+1)] of
    [n - 1] bytes lies between them. A filter written for a table whose only key
    that is holds neither that prefix nor anything else that has it, yet
    RangeMayExist counts the range as checked and answers what the filter says
    about the prefix: the table is excluded, and the key lost, unless the filter
    errs. This is so for every filter that keeps its interface. *)
Theorem RangeMayExist_loses_short_key {B Rd : Type} `{FB : FilterBits B Rd, L : !FilterBitsLaws B Rd, Build} w (bits : B) w' n e (x : bytes) b :
  e ∈ [FixedPrefixTransform n; CappedPrefixTransform n] → n = blen x + 2 → bytes_ok x → 0 ≤ b < 255 →
  bits_has bits [] → 2 ≤ bits_max bits →
  let from := x ++ [b; 255] in let upper := x ++ [b + 1; 0] in let key := x ++ [b + 1] in
  Compare (Comparator := BytewiseComparator) from key ≤ 0 ∧ Compare (Comparator := BytewiseComparator) key upper < 0 ∧
  ∃ fb m, written w (Some e) bits [key] fb ∧ Full_PrefixMayMatch from (Some fb) = Done m ∧
    RangeMayExist (C := BytewiseComparator) (Some upper) from (Some e) true (Some fb) (mkFullReader w' (Some e)) = Done (m, true) ∧
    key ≠ from ∧ (InDomain e key = true → Transform e key ≠ Done from).
Proof.
  intros He Hn Hx Hb Hbits Hmax from upper key. pose proof (blen_nonneg x). pose proof He as He'. subst n.
  assert (blen from = blen x + 2 ∧ blen upper = blen x + 2 ∧ blen key = blen x + 1) as (Hlf & Hlu & Hlk)
    by (subst from upper key; rewrite !blen_app; done).
  assert (Transform e from = Done from ∧ InDomain e from = true ∧ Transform e upper = Done upper ∧ InDomain e upper = true ∧
    FullLengthEnabled e = Some (blen x + 2) ∧ PrefixExtractorLaws BytewiseComparator e) as (Hf & Hdf & Hu & Hdu & Hfull & Hlaws).
  { assert (∀ y, blen y = blen x + 2 → take (Z.to_nat (blen x + 2)) y = y) as Htake by (intros y Hy; rewrite <- Hy; unfold blen; by rewrite Nat2Z.id, firstn_all).
    assert (∀ y, blen y = blen x + 2 → Z.to_nat (blen x + 2) = Z.to_nat (blen y)) as Hn by (by intros y ->).
    apply elem_of_cons in He as [->|He%list_elem_of_singleton]; [|subst e]; cbn [Transform InDomain FullLengthEnabled FixedPrefixTransform CappedPrefixTransform];
      unfold slice_prefix; rewrite Hlf, Hlu, ?Z.min_id, !Z.leb_refl, ?assert_true; cbn [require mbind R_bind]; rewrite !Htake by done; split_and!; try done; apply _ || apply FixedPrefixTransform_laws || apply CappedPrefixTransform_laws; lia. }
  assert (from ≠ upper) as Hne by (subst from upper; intros E%app_inv_head; injection E; lia).
  assert (key ≠ from) as Hkf by (intros E; rewrite E in Hlk; lia).
  split; [|split].
  - subst from key. cbn. rewrite slice_compare_app. cbn. destruct (Z.ltb_spec b (b + 1)); [done|lia].
  - subst upper key. cbn. rewrite (app_assoc x [b + 1] [0] : x ++ [b + 1; 0] = _). rewrite <- (app_nil_r (x ++ [b + 1])) at 1. by rewrite slice_compare_app.
  - destruct (filter_written (C := BytewiseComparator) w (Some e) bits [key]) as (fb & added & Hwr & Ha & _); [by intros ? [= <-]|done|done|done|].
    destruct (answers_defined fb added from Ha) as [m Hm]. exists fb, m. split; [done|]. split; [exact Hm|]. split; [|split; [done|]].
    + unfold RangeMayExist. rewrite Hdf, Hf. cbn [negb mbind R_bind]. unfold IsFilterCompatible. cbn [table_prefix_extractor].
      rewrite Hdu, Hu, Hfull, Hlu, Z.eqb_refl. cbn [negb orb mbind R_bind]. unfold Equal. cbn [BytewiseComparator]. rewrite bool_decide_eq_false_2 by done.
      assert (IsSameLengthImmediateSuccessor (Comparator := BytewiseComparator) from upper = true) as ->.
      { apply IsSameLengthImmediateSuccessor_iff; [..|split].
        - apply bytes_ok_app. split; [done|]. by repeat constructor; cbn; lia.
        - apply bytes_ok_app. split; [done|]. by repeat constructor; cbn; lia.
        - unfold blen in Hlf, Hlu. lia.
        - unfold be_value, from, upper. rewrite !foldl_app. cbn. lia. }
      cbn [negb mbind R_bind]. unfold Full_PrefixMayMatch. by rewrite Hm.
    + intros _ E. apply (builtin_prefix_length _ _ _ _ He') in E. lia.
Qed.

(** ** At concrete tables *)

(** A hash for the examples: the filters take the hash as a parameter. *)
#[local] Program Instance sum_hash : SliceHash64 := {| GetSliceHash64 key := u64 (0x9e3779b97f4a7c15 * foldr (λ b h, 31 * h + b + 1) 0 key) |}.
Next Obligation. intros key. by apply wrap_range. Qed.
#[local] Program Instance x86 : Platform := {| log2_CACHE_LINE_SIZE := 6 |}.
Next Obligation. lia. Qed.
#[local] Instance little : Host := {| kLittleEndian := true |}.
#[local] Instance Checked : Build := {| NDEBUG := false |}.

Definition ten_bits : FilterBitsBuilder := FastLocalBuilder (mkFastBuilder 10000 (FastLocal_ChooseNumProbes 10000) []).
Lemma ten_bits_fresh : fresh ten_bits.
Proof. cbn. split_and!; [done..|lia]. Qed.

(** The filter of one table, by running the builder and the reader. *)
Definition written_filter (e : SliceTransform) (keys : list bytes) : R (option FilterBitsReader) :=
  b ← Full_AddAll keys (new_FullFilterBlockBuilder (Some e) true ten_bits);
  '(contents, _) ← Full_Finish b;
  ParsedFullFilterBlock contents.

Lemma written_filter_Done e keys fb :
  written true (Some e) ten_bits keys fb → written_filter e keys = Done fb.
Proof. intros (b & contents & b' & Eb & Ef & Ep). unfold written_filter. rewrite Eb. cbn [mbind R_bind]. rewrite Ef. exact Ep. Qed.

(** The string "aa\255", the next one of its length, "ab\0", and "ab" between them. *)
Lemma RangeMayExist_loses_short_key_witness :
  ∃ fb, written true (Some (CappedPrefixTransform 3)) ten_bits [[97; 98]] fb ∧
    RangeMayExist (C := BytewiseComparator) (Some [97; 98; 0]) [97; 97; 255] (Some (CappedPrefixTransform 3)) true (Some fb)
      (mkFullReader true (Some (CappedPrefixTransform 3))) = Done (false, true) ∧
    Compare (Comparator := BytewiseComparator) [97; 97; 255] [97; 98] ≤ 0 ∧ Compare (Comparator := BytewiseComparator) [97; 98] [97; 98; 0] < 0.
Proof.
  destruct (RangeMayExist_loses_short_key true ten_bits true 3 (CappedPrefixTransform 3) [97] 97) as (Hlo & Hhi & fb & m & Hw & Hm & Hr & _);
    [right; left|reflexivity|by repeat constructor|lia|exists ten_bits; split; [exact ten_bits_fresh|reflexivity]|by vm_compute|].
  exists fb. split; [exact Hw|]. split; [|by split].
  assert (match written_filter (CappedPrefixTransform 3) [[97; 98]] with
    | Done fb => Full_PrefixMayMatch [97; 97; 255] (Some fb) = Done false | Fault _ => False end) as Hrun by by vm_compute.
  apply written_filter_Done in Hw. cbn [app] in Hw. change (97 + 1) with 98 in *. rewrite Hw in Hrun.
  cbn [app] in Hm. rewrite Hrun in Hm. injection Hm as <-. exact Hr.
Defined.

Definition table_keys : list bytes := [[97; 98; 1]; [97; 98; 1]; [97; 98; 2]; [97]; [98; 98; 3; 9]; [98; 98; 3]].

Lemma full_filter_finds_keys_witness :
  ∃ fb, written true (Some (FixedPrefixTransform 2)) ten_bits table_keys fb ∧ (∀ x, ∃ t, Full_MayMatch x (Some fb) = Done t) ∧
    (∀ key, key ∈ table_keys → Full_KeyMayMatch key (Some fb) (mkFullReader true (Some (FixedPrefixTransform 2))) = Done true) ∧
    (∀ key e p, key ∈ table_keys → Some (FixedPrefixTransform 2) = Some e → InDomain e key = true → Transform e key = Done p →
       Full_PrefixMayMatch p (Some fb) = Done true) ∧
    (∀ ks, ks ⊆ table_keys → Z.of_nat (length ks) ≤ MAX_BATCH_SIZE →
       KeysMayMatch ks (Some fb) (mkFullReader true (Some (FixedPrefixTransform 2))) = Done (map (λ _, true) ks) ∧
       (Some (FixedPrefixTransform 2) ≠ None → PrefixesMayMatch ks (Some (FixedPrefixTransform 2)) (Some fb) = Done (map (λ _, true) ks))).
Proof.
  apply (full_filter_finds_keys (C := BytewiseComparator) true (Some (FixedPrefixTransform 2)) ten_bits table_keys true (Some (FixedPrefixTransform 2))).
  - intros e [= <-]. by apply FixedPrefixTransform_laws.
  - done.
  - exists ten_bits. split; [exact ten_bits_fresh|reflexivity].
  - by vm_compute.
  - by vm_compute.
Defined.

Lemma RangeMayExist_sound_witness :
  ∃ fb, written true (Some (CappedPrefixTransform 2)) ten_bits table_keys fb ∧ ∀ upper user_key need,
    bytes_ok user_key → (∀ u, upper = Some u → bytes_ok u) →
    ∃ may_exist checked, RangeMayExist (C := BytewiseComparator) upper user_key (Some (CappedPrefixTransform 2)) need (Some fb)
        (mkFullReader true (Some (CappedPrefixTransform 2))) = Done (may_exist, checked) ∧
      (checked = false → may_exist = true) ∧
      (may_exist = false →
        (∀ key, key ∈ table_keys → InDomain (CappedPrefixTransform 2) key = true →
           Transform (CappedPrefixTransform 2) key ≠ Transform (CappedPrefixTransform 2) user_key) ∧
        (need = true → ∃ u, upper = Some u ∧
          ∀ key, key ∈ table_keys → (∀ n, FullLengthEnabled (CappedPrefixTransform 2) = Some n → n ≤ blen key) →
            ¬ (Compare (Comparator := BytewiseComparator) user_key key ≤ 0 ∧ Compare (Comparator := BytewiseComparator) key u < 0))).
Proof.
  apply (RangeMayExist_sound (C := BytewiseComparator) true (CappedPrefixTransform 2) ten_bits table_keys true).
  - by apply CappedPrefixTransform_laws.
  - reflexivity.
  - apply (bool_decide_unpack _). by vm_compute.
  - exists ten_bits. split; [exact ten_bits_fresh|reflexivity].
  - by vm_compute.
  - by vm_compute.
Defined.
