(* ===== verification/BlockBasedFilter.v ===== *)
(** * Filter blocks with one filter for each 2 KB of data (table/block_based/block_based_filter_block.cc)

    The old format: the builder cuts the keys of a table into groups by the
    offset of their data block, asks the policy for a filter of each group, and
    ends the block with the offsets of the filters. Reading the block, its
    cache and the statistics are left out, and so is the dump of a block as
    text. *)
From S2P Require Import Prelude Result Coding Comparator Hash Bloom FilterPolicy SliceTransform FilterPolicyCorrect FullFilter.

(** What is used of FilterPolicy (include/rocksdb/filter_policy.h). *)
Class BlockFilters := {
  policy_CreateFilter : list bytes → bytes → R bytes;
  policy_KeyMayMatch : bytes → bytes → R bool;
}.
(** What it promises: at most [create_max] keys; filters of less than 512 MB. *)
Class BlockFiltersLaws `{BlockFilters} := {
  create_max : Z;
  create_max_int : create_max < 2 ^ 31;
  CreateFilter_found : ∀ keys dst, keys ≠ [] → Z.of_nat (length keys) ≤ create_max →
    ∃ filter, policy_CreateFilter keys dst = Done (dst ++ filter) ∧ ∀ key, key ∈ keys → policy_KeyMayMatch key filter = Done true;
  KeyMayMatch_defined : ∀ key filter, blen filter < 2 ^ 29 → ∃ t, policy_KeyMayMatch key filter = Done t;
}.

(** [Slice(s.data() + start, len)], which may not reach beyond [s]. *)
Definition substr (s : bytes) (start len : Z) : R bytes :=
  _ ← require OutOfBounds ((0 <=? start) && (0 <=? len) && (start + len <=? blen s));
  Done (take (Z.to_nat len) (drop (Z.to_nat start) s)).

Section block_based.
Context `{Host, Build, BlockFilters}.

Definition kFilterBaseLg : Z := 11.
Definition kFilterBase : Z := 1 << kFilterBaseLg.

(** ** BlockBasedFilterBlockBuilder *)

(** [tmp_entries_] is only used within GenerateFilter. *)
Record BlockBasedFilterBlockBuilder := mkBBBuilder {
  bb_prefix_extractor_ : option SliceTransform;
  bb_whole_key_filtering_ : bool;
  prev_prefix_start_ : Z;
  prev_prefix_size_ : Z;
  entries_ : bytes;
  start_ : list Z;
  result_ : bytes;
  filter_offsets_ : list Z;
  bb_num_added_ : Z;
}.
#[local] Abbreviation builder := BlockBasedFilterBlockBuilder.

Definition new_BlockBasedFilterBlockBuilder (prefix_extractor : option SliceTransform) (whole_key_filtering : bool) : builder :=
  mkBBBuilder prefix_extractor whole_key_filtering 0 0 [] [] [] [] 0.

(** The keys, from where each starts and where the last one ends. *)
Fixpoint cut_entries (entries : bytes) (start : list Z) : R (list bytes) :=
  match start with
  | s :: rest =>
      match rest with
      | s' :: _ => e ← substr entries s (s' - s); es ← cut_entries entries rest; Done (e :: es)
      | [] => Done []
      end
  | [] => Done []
  end.

(** More keys than an [int] counts are not followed. *)
Definition GenerateFilter (b : builder) : R builder :=
  let num_entries := Z.of_nat (length (start_ b)) in
  let filter_offsets := filter_offsets_ b ++ [u32 (blen (result_ b))] in
  if num_entries =? 0 then
    Done (mkBBBuilder (bb_prefix_extractor_ b) (bb_whole_key_filtering_ b) (prev_prefix_start_ b) (prev_prefix_size_ b) (entries_ b) (start_ b)
            (result_ b) filter_offsets (bb_num_added_ b))
  else
    tmp_entries ← cut_entries (entries_ b) (start_ b ++ [blen (entries_ b)]);
    _ ← require Undefined (num_entries <? 2 ^ 31);
    result ← policy_CreateFilter tmp_entries (result_ b);
    Done (mkBBBuilder (bb_prefix_extractor_ b) (bb_whole_key_filtering_ b) 0 0 [] [] result filter_offsets (bb_num_added_ b)).

(** [while (filter_index > filter_offsets_.size())]. *)
Fixpoint generate_until (fuel : nat) (filter_index : Z) (b : builder) : R builder :=
  if Z.of_nat (length (filter_offsets_ b)) <? filter_index then
    match fuel with
    | O => Fault Undefined
    | S fuel' => b ← GenerateFilter b; generate_until fuel' filter_index b
    end
  else Done b.
Definition StartBlock (block_offset : Z) (b : builder) : R builder :=
  let filter_index := block_offset / kFilterBase in
  _ ← assert (Z.of_nat (length (filter_offsets_ b)) <=? filter_index);
  generate_until (Z.to_nat filter_index) filter_index b.

Definition BB_AddKey (key : bytes) (b : builder) : builder :=
  mkBBBuilder (bb_prefix_extractor_ b) (bb_whole_key_filtering_ b) (prev_prefix_start_ b) (prev_prefix_size_ b) (entries_ b ++ key)
    (start_ b ++ [blen (entries_ b)]) (result_ b) (filter_offsets_ b) (u64 (bb_num_added_ b + 1)).
Definition BB_AddPrefix (e : SliceTransform) (key : bytes) (b : builder) : R builder :=
  prev ← (if 0 <? prev_prefix_size_ b then substr (entries_ b) (prev_prefix_start_ b) (prev_prefix_size_ b) else Done []);
  prefix ← Transform e key;
  if (blen prev =? 0) || negb (bool_decide (prefix = prev)) then
    Done (BB_AddKey prefix (mkBBBuilder (bb_prefix_extractor_ b) (bb_whole_key_filtering_ b) (blen (entries_ b)) (blen prefix) (entries_ b) (start_ b)
            (result_ b) (filter_offsets_ b) (bb_num_added_ b)))
  else Done b.
Definition BB_Add (key : bytes) (b : builder) : R builder :=
  b ← match bb_prefix_extractor_ b with
      | Some e => if InDomain e key then BB_AddPrefix e key b else Done b
      | None => Done b
      end;
  Done (if bb_whole_key_filtering_ b then BB_AddKey key b else b).

(** The status is always OK. *)
Definition BB_Finish (b : builder) : R (bytes * builder) :=
  b ← (if bool_decide (start_ b = []) then Done b else GenerateFilter b);
  let array_offset := u32 (blen (result_ b)) in
  let result := foldl PutFixed32 (result_ b) (filter_offsets_ b) in
  let result := PutFixed32 result array_offset ++ [kFilterBaseLg] in
  Done (result, mkBBBuilder (bb_prefix_extractor_ b) (bb_whole_key_filtering_ b) (prev_prefix_start_ b) (prev_prefix_size_ b) (entries_ b) (start_ b)
                  result (filter_offsets_ b) (bb_num_added_ b)).

(** ** BlockBasedFilterBlockReader *)

(** Where the offsets start, their number, and [base_lg], a [char] that becomes
    a [size_t]: it has a sign where [char] has. *)
Definition ParseFieldsFromBlock (contents : bytes) : option (Z * Z * Z) :=
  let n := blen contents in
  if n <? 5 then None
  else
    let last_word := DecodeFixed32 (drop (Z.to_nat (n - 5)) contents) in
    if n - 5 <? last_word then None
    else Some (last_word, (n - 5 - last_word) / 4, u64 (to_signed 8 (byte_at contents (Z.to_nat (n - 1))))).

Definition decode_at (contents : bytes) (p : Z) : R Z :=
  _ ← require OutOfBounds ((0 <=? p) && (p + 4 <=? blen contents)); Done (DecodeFixed32 (drop (Z.to_nat p) contents)).

(** [filter_block] is what GetOrReadFilterBlock returns, [None] for an error. *)
Definition BB_MayMatch (entry : bytes) (block_offset : Z) (filter_block : option bytes) : R bool :=
  match filter_block with
  | None => Done true
  | Some contents =>
      match ParseFieldsFromBlock contents with
      | None => Done true
      | Some (offset, num, base_lg) =>
          _ ← require Undefined (base_lg <? 64);
          let index := block_offset >> base_lg in
          if index <? num then
            start ← decode_at contents (offset + index * 4);
            limit ← decode_at contents (offset + index * 4 + 4);
            if (start <=? limit) && (limit <=? u32 offset) then
              filter ← substr contents start (limit - start);
              policy_KeyMayMatch entry filter
            else if start =? limit then Done false else Done true
          else Done true
      end
  end.
(** No offset (table/block_based/filter_block.h). *)
Definition kNotValid : Z := 2 ^ 64 - 1.
Definition BB_KeyMayMatch (key : bytes) (block_offset : Z) (filter_block : option bytes) (whole_key_filtering : bool) : R bool :=
  _ ← assert (negb (block_offset =? kNotValid));
  if negb whole_key_filtering then Done true else BB_MayMatch key block_offset filter_block.
Definition BB_PrefixMayMatch (prefix : bytes) (block_offset : Z) (filter_block : option bytes) : R bool :=
  _ ← assert (negb (block_offset =? kNotValid));
  BB_MayMatch prefix block_offset filter_block.
End block_based.
