(* ===== verification/BlockBasedFilterCorrect.v ===== *)
(** * Filter blocks by data offset: every key is found at the offset of its data block

    The builder's state stands for a list of groups of keys; the block it writes
    gives back, for any offset, the filter of the group of that offset. *)
From S2P Require Import Prelude Result Coding Comparator Hash Bloom FilterPolicy SliceTransform FilterPolicyCorrect FullFilter BlockBasedFilter.

(** ** Concatenations and where their parts start *)

Fixpoint offsets (l : list bytes) (from : Z) : list Z :=
  match l with [] => [] | x :: l' => from :: offsets l' (from + blen x) end.

Lemma length_offsets l from : length (offsets l from) = length l.
Proof. revert from. induction l as [|x l IH]; intros from; [done|]. cbn. by rewrite IH. Qed.
Lemma offsets_app l l' from : offsets (l ++ l') from = offsets l from ++ offsets l' (from + blen (concat l)).
Proof.
  revert from. induction l as [|x l IH]; intros from; cbn; [f_equal; unfold blen; cbn; lia|]. rewrite IH, blen_app. do 3 f_equal. lia.
Qed.
Lemma offsets_lookup l i x from :
  l !! i = Some x → offsets l from !! i = Some (from + blen (concat (take i l))) ∧ concat l = concat (take i l) ++ x ++ concat (drop (S i) l).
Proof.
  intros E. rewrite <- (take_drop_middle l i x E) at 1 3. rewrite offsets_app, concat_app. cbn. split; [|done].
  rewrite lookup_app_r by (rewrite length_offsets, length_take; lia). rewrite length_offsets, length_take_le by (apply lookup_lt_Some in E; lia).
  by rewrite Nat.sub_diag.
Qed.

Lemma substr_mid p x s : substr (p ++ x ++ s) (blen p) (blen x) = Done x.
Proof.
  unfold substr. pose proof (blen_nonneg p). pose proof (blen_nonneg x). pose proof (blen_nonneg s). rewrite !blen_app.
  rewrite !(proj2 (Z.leb_le _ _)) by lia. cbn [andb require mbind R_bind]. unfold blen. rewrite !Nat2Z.id.
  by rewrite drop_app_length, take_app_length.
Qed.

Lemma substr_app s start len x t : substr s start len = Done x → substr (s ++ t) start len = Done x.
Proof.
  unfold substr. destruct (Z.leb_spec 0 start); [|done]. destruct (Z.leb_spec 0 len); [|done]. destruct (Z.leb_spec (start + len) (blen s)) as [Hl|]; [|done].
  cbn [andb require mbind R_bind]. intros [= <-]. rewrite blen_app. pose proof (blen_nonneg t). rewrite (proj2 (Z.leb_le _ _)) by lia. cbn [mbind R_bind].
  unfold blen in Hl. rewrite drop_app_le by lia. by rewrite take_app_le by (rewrite length_drop; lia).
Qed.

Lemma cut_entries_cons e s s' rest :
  cut_entries e (s :: s' :: rest) = (x ← substr e s (s' - s); xs ← cut_entries e (s' :: rest); Done (x :: xs)).
Proof. done. Qed.
Lemma cut_entries_spec p l : cut_entries (p ++ concat l) (offsets l (blen p) ++ [blen (p ++ concat l)]) = Done l.
Proof.
  revert p. induction l as [|x l IH]; intros p; [done|]. cbn [offsets app]. cbn [concat]. specialize (IH (p ++ x)).
  rewrite <- app_assoc, blen_app in IH. destruct (offsets l (blen p + blen x) ++ _) as [|s' rest] eqn:E; [by destruct (offsets l _)|]. rewrite cut_entries_cons.
  assert (s' = blen p + blen x) as ->.
  { destruct l; cbn in E; injection E as <- _; [|done]. rewrite app_nil_r. apply blen_app. }
  replace (blen p + blen x - blen p) with (blen x) by lia. rewrite substr_mid. cbn [mbind R_bind]. by rewrite IH.
Qed.

Section correct.
Context `{Hs0 : Host, Bu : Build, BF : BlockFilters, BL : !BlockFiltersLaws}.
Implicit Types (b : BlockBasedFilterBlockBuilder).

Definition good (group : list bytes * bytes) : Prop := ∀ key, key ∈ group.1 → policy_KeyMayMatch key group.2 = Done true.

(** [fs], the groups with their filters; [pending], the entries of the next. *)
Record bb_inv (w : bool) (oe : option SliceTransform) (fs : list (list bytes * bytes)) (pending : list bytes) b : Prop := {
  bi_options : bb_whole_key_filtering_ b = w ∧ bb_prefix_extractor_ b = oe;
  bi_result : result_ b = concat (fs.*2);
  bi_offsets : filter_offsets_ b = u32 <$> offsets (fs.*2) 0;
  bi_entries : entries_ b = concat pending;
  bi_start : start_ b = offsets pending 0;
  bi_prev : 0 < prev_prefix_size_ b → ∃ p, p ∈ pending ∧ substr (entries_ b) (prev_prefix_start_ b) (prev_prefix_size_ b) = Done p;
  bi_good : Forall good fs;
}.

Lemma bi_count w oe fs pending b : bb_inv w oe fs pending b → length (filter_offsets_ b) = length fs.
Proof. intros I. by rewrite (bi_offsets _ _ _ _ _ I), length_fmap, length_offsets, length_fmap. Qed.

Lemma GenerateFilter_spec w oe fs pending b :
  bb_inv w oe fs pending b → Z.of_nat (length pending) ≤ create_max →
  ∃ b' f, GenerateFilter b = Done b' ∧ bb_inv w oe (fs ++ [(pending, f)]) [] b'.
Proof.
  intros I Hmax. destruct I as [[Hw Ho'] Hr Ho He Hs Hp Hg]. pose proof create_max_int. unfold GenerateFilter. rewrite Hs, length_offsets.
  assert (∀ f, (u32 <$> offsets ((fs ++ [(pending, f)]).*2) 0) = (u32 <$> offsets (fs.*2) 0) ++ [u32 (blen (concat (fs.*2)))]) as Hoff.
  { intros f. by rewrite fmap_app, offsets_app, fmap_app. }
  destruct pending as [|k pending].
  - cbn [length Z.of_nat Z.eqb]. eexists _, []. split; [done|].
    split; cbn [bb_whole_key_filtering_ bb_prefix_extractor_ result_ filter_offsets_ entries_ start_ prev_prefix_size_ prev_prefix_start_].
    + done.
    + rewrite Hr, fmap_app, concat_app. cbn. by rewrite !app_nil_r.
    + by rewrite Hoff, Ho, Hr.
    + done.
    + done.
    + done.
    + apply Forall_app_2; [done|]. constructor; [|done]. intros key. cbn. by intros Hk%elem_of_nil.
  - set (ks := k :: pending) in *. assert (0 < Z.of_nat (length ks)) by (cbn; lia). rewrite (proj2 (Z.eqb_neq _ _)) by lia. rewrite He.
    change (cut_entries (concat ks) (offsets ks 0 ++ [blen (concat ks)])) with (cut_entries ([] ++ concat ks) (offsets ks (blen []) ++ [blen ([] ++ concat ks)])).
    rewrite (cut_entries_spec [] ks). cbn [mbind R_bind]. rewrite (proj2 (Z.ltb_lt _ _)) by lia. cbn [require mbind R_bind].
    destruct (CreateFilter_found ks (result_ b)) as (f & -> & Hf); [done|done|]. cbn [mbind R_bind]. exists (mkBBBuilder (bb_prefix_extractor_ b) (bb_whole_key_filtering_ b) 0 0 [] [] (result_ b ++ f) (filter_offsets_ b ++ [u32 (blen (result_ b))]) (bb_num_added_ b)), f.
    split; [done|]. split; cbn [bb_whole_key_filtering_ bb_prefix_extractor_ result_ filter_offsets_ entries_ start_ prev_prefix_size_ prev_prefix_start_].
    + done.
    + rewrite Hr, fmap_app, concat_app. cbn. by rewrite app_nil_r.
    + by rewrite Hoff, Ho, Hr.
    + done.
    + done.
    + lia.
    + apply Forall_app_2; [done|]. by constructor.
Qed.

(** The groups that the block has so far. *)
Definition groups (fs : list (list bytes * bytes)) (pending : list bytes) : list (list bytes) := fs.*1 ++ [pending].

Lemma generate_until_spec w oe fuel index fs pending b :
  bb_inv w oe fs pending b → Z.of_nat (length pending) ≤ create_max → index - Z.of_nat (length fs) ≤ Z.of_nat fuel → Z.of_nat (length fs) ≤ index →
  ∃ b' fs' pending', generate_until fuel index b = Done b' ∧ bb_inv w oe fs' pending' b' ∧ Z.of_nat (length fs') = index ∧
    Z.of_nat (length pending') ≤ create_max ∧ (pending' = pending ∨ pending' = []) ∧ groups fs pending `prefix_of` groups fs' pending'.
Proof.
  revert fs pending b. induction fuel as [|fuel IH]; intros fs pending b I Hmax Hfuel Hle; cbn [generate_until]; rewrite (bi_count _ _ _ _ _ I).
  - rewrite (proj2 (Z.ltb_ge _ _)) by lia. exists b, fs, pending. split_and!; try done; [lia|by left].
  - destruct (Z.ltb_spec (Z.of_nat (length fs)) index).
    2: { exists b, fs, pending. split_and!; try done; [lia|by left]. }
    destruct (GenerateFilter_spec w oe fs pending b I Hmax) as (b1 & f & -> & I1). cbn [mbind R_bind].
    destruct (IH _ _ _ I1) as (b' & fs' & pending' & E & I' & Hl & Hm & Hp & Hpre); [cbn; lia|rewrite length_app; cbn; lia|rewrite length_app; cbn; lia|].
    exists b', fs', pending'. split_and!; try done; [destruct Hp; right; congruence|]. etransitivity; [|exact Hpre]. unfold groups.
    rewrite fmap_app. by exists [[]].
Qed.

Lemma BB_AddKey_spec w oe fs pending b key :
  bb_inv w oe fs pending b → bb_inv w oe fs (pending ++ [key]) (BB_AddKey key b).
Proof.
  intros [Hopt Hr Ho He Hs Hp Hg].
  split; cbn [BB_AddKey bb_whole_key_filtering_ bb_prefix_extractor_ result_ filter_offsets_ entries_ start_ prev_prefix_size_ prev_prefix_start_]; try done.
  - rewrite He, concat_app. cbn. by rewrite app_nil_r.
  - by rewrite Hs, He, offsets_app.
  - intros Hpos. destruct (Hp Hpos) as (p & Hin & E). exists p. split; [apply elem_of_app; by left|]. by apply substr_app.
Qed.

Lemma BB_Add_spec w oe fs pending b key :
  (∀ e, oe = Some e → ∀ k, InDomain e k = true → ∃ p, Transform e k = Done p) → bb_inv w oe fs pending b →
  ∃ b' pending', BB_Add key b = Done b' ∧ bb_inv w oe fs pending' b' ∧ pending `prefix_of` pending' ∧ (length pending' ≤ length pending + 2)%nat ∧
    covered w oe pending' key.
Proof.
  intros Hdef I. unfold BB_Add. destruct (bi_options _ _ _ _ _ I) as [Hw Ho]. rewrite Ho.
  assert (∃ b1 pending1, match oe with Some e => if InDomain e key then BB_AddPrefix e key b else Done b | None => Done b end = Done b1 ∧
    bb_inv w oe fs pending1 b1 ∧ pending `prefix_of` pending1 ∧ (length pending1 ≤ length pending + 1)%nat ∧
    ∀ e p, oe = Some e → InDomain e key = true → Transform e key = Done p → p ∈ pending1) as (b1 & pending1 & -> & I1 & Hpre & Hlen & Hin).
  { destruct oe as [e|]; [|exists b, pending; split_and!; done || lia]. destruct (InDomain e key) eqn:Hd.
    2: { exists b, pending. split_and!; try done; [lia|]. intros e' p [= <-]. by rewrite Hd. }
    destruct (Hdef e eq_refl key Hd) as [p Hp]. unfold BB_AddPrefix.
    assert (∃ prev, (if 0 <? prev_prefix_size_ b then substr (entries_ b) (prev_prefix_start_ b) (prev_prefix_size_ b) else Done []) = Done prev ∧
      (blen prev ≠ 0 → prev ∈ pending)) as (prev & -> & Hprev).
    { destruct (Z.ltb_spec 0 (prev_prefix_size_ b)) as [Hpos|]; [|exists []; done].
      destruct (bi_prev _ _ _ _ _ I Hpos) as (q & Hq & E). exists q. done. }
    cbn [mbind R_bind]. rewrite Hp. cbn [mbind R_bind]. destruct ((blen prev =? 0) || negb (bool_decide (p = prev))) eqn:Enew.
    - eexists _, (pending ++ [p]). split; [done|]. split.
      + destruct I as [Hopt Hr Ho' He Hs _ Hg].
        split; cbn [BB_AddKey bb_whole_key_filtering_ bb_prefix_extractor_ result_ filter_offsets_ entries_ start_ prev_prefix_size_ prev_prefix_start_]; try done.
        * rewrite He, concat_app. cbn. by rewrite app_nil_r.
        * by rewrite Hs, He, offsets_app.
        * intros _. exists p. split; [apply elem_of_app; right; by left|]. pose proof (substr_mid (entries_ b) p []) as E. by rewrite app_nil_r in E.
      + split; [by exists [p]|]. split; [rewrite length_app; cbn; lia|]. intros e' p' [= <-] _ Hp'. rewrite Hp in Hp'. injection Hp' as <-.
        apply elem_of_app. right. by left.
    - exists b, pending. apply orb_false_iff in Enew as [Hne%Z.eqb_neq Hsame%negb_false_iff%bool_decide_eq_true]. split_and!; try done; [lia|].
      intros e' p' [= <-] _ Hp'. rewrite Hp in Hp'. injection Hp' as <-. rewrite Hsame. by apply Hprev. }
  cbn [mbind R_bind]. destruct (bi_options _ _ _ _ _ I1) as [-> _]. destruct w.
  - exists (BB_AddKey key b1), (pending1 ++ [key]). split; [done|]. split; [by apply BB_AddKey_spec|]. split; [etransitivity; [exact Hpre|by exists [key]]|].
    split; [rewrite length_app; cbn; lia|]. split; [intros _; apply elem_of_app; right; by left|]. intros e p Ee Hd Hp. apply elem_of_app. left. by apply (Hin e).
  - exists b1, pending1. split_and!; try done; lia.
Qed.
(** ** Runs of the builder *)

Definition grows (gs gs' : list (list bytes)) : Prop := ∀ i g, gs !! i = Some g → ∃ g', gs' !! i = Some g' ∧ g ⊆ g'.
#[local] Instance grows_preorder : PreOrder grows.
Proof.
  split; [intros gs i g E; by exists g|]. intros gs1 gs2 gs3 H12 H23 i g E. destruct (H12 i g E) as (g2 & E2 & ?).
  destruct (H23 i g2 E2) as (g3 & E3 & ?). exists g3. split; [done|]. by etransitivity.
Qed.
Lemma prefix_grows gs gs' : gs `prefix_of` gs' → grows gs gs'.
Proof. intros [k ->] i g E. exists g. split; [|done]. by apply lookup_app_l_Some. Qed.
Lemma pending_grows fs pending pending' : pending `prefix_of` pending' → grows (groups fs pending) (groups fs pending').
Proof.
  intros [k ->] i g. unfold groups. intros [E|[Hi E]]%lookup_app_Some; [exists g; split; [by apply lookup_app_l_Some|done]|].
  apply list_lookup_singleton_Some in E as [Ei <-]. exists (pending ++ k). split; [|intros x Hx; apply elem_of_app; by left].
  rewrite lookup_app_r by done. by rewrite Ei.
Qed.

(** The key is where a block offset leads. *)
Definition located (w : bool) (oe : option SliceTransform) (gs : list (list bytes)) (o : Z) (key : bytes) : Prop :=
  ∃ g, gs !! Z.to_nat (o / kFilterBase) = Some g ∧ covered w oe g key.
Lemma located_grows w oe gs gs' o key : grows gs gs' → located w oe gs o key → located w oe gs' o key.
Proof.
  intros Hg (g & E & Hw & Hp). destruct (Hg _ _ E) as (g' & E' & Hsub). exists g'. split; [done|]. split; [auto|]. intros e p He Hd Ht.
  apply Hsub. by apply (Hp e).
Qed.

Fixpoint BB_AddAll (keys : list bytes) b : R BlockBasedFilterBlockBuilder :=
  match keys with [] => Done b | key :: keys' => b ← BB_Add key b; BB_AddAll keys' b end.
(** What the table builder does: before the keys of each data block, where it
    starts. *)
Fixpoint add_blocks (blocks : list (Z * list bytes)) b : R BlockBasedFilterBlockBuilder :=
  match blocks with
  | [] => Done b
  | (o, keys) :: blocks' => b ← StartBlock o b; b ← BB_AddAll keys b; add_blocks blocks' b
  end.
Definition count (blocks : list (Z * list bytes)) : nat := length (concat (blocks.*2)).

Context (w : bool) (oe : option SliceTransform).
Context (Hdef : ∀ e, oe = Some e → ∀ k, InDomain e k = true → ∃ p, Transform e k = Done p).

Lemma BB_AddAll_spec keys fs pending b :
  bb_inv w oe fs pending b →
  ∃ b' pending', BB_AddAll keys b = Done b' ∧ bb_inv w oe fs pending' b' ∧ pending `prefix_of` pending' ∧
    (length pending' ≤ length pending + 2 * length keys)%nat ∧ Forall (covered w oe pending') keys.
Proof.
  revert pending b. induction keys as [|key keys IH]; intros pending b I; cbn [BB_AddAll].
  { exists b, pending. split_and!; done || lia. }
  destruct (BB_Add_spec w oe fs pending b key Hdef I) as (b1 & p1 & -> & I1 & Hpre1 & Hl1 & Hc1). cbn [mbind R_bind].
  destruct (IH p1 b1 I1) as (b' & p' & E & I' & Hpre & Hl & Hc). exists b', p'. split_and!; try done; [by etransitivity|cbn; lia|].
  constructor; [|done]. destruct Hpre as [x ->]. destruct Hc1 as [H1 H2]. split; [intros Hw'; apply elem_of_app; left; auto|].
  intros e p He Hd Ht. apply elem_of_app. left. by apply (H2 e).
Qed.

Lemma add_blocks_spec blocks fs pending b n :
  bb_inv w oe fs pending b → (length pending ≤ 2 * n)%nat → 2 * Z.of_nat (n + count blocks) ≤ create_max →
  StronglySorted (λ x y, x.1 ≤ y.1) blocks → Forall (λ x, Z.of_nat (length fs) ≤ x.1 / kFilterBase) blocks →
  ∃ b' fs' pending', add_blocks blocks b = Done b' ∧ bb_inv w oe fs' pending' b' ∧ Z.of_nat (length pending') ≤ create_max ∧
    grows (groups fs pending) (groups fs' pending') ∧ Forall (λ x, Forall (located w oe (groups fs' pending') x.1) x.2) blocks.
Proof.
  revert fs pending b n. induction blocks as [|[o keys] blocks IH]; intros fs pending b n I Hl Hn Hs Hf; cbn [add_blocks].
  { exists b, fs, pending. split_and!; try done. unfold count in Hn. cbn in Hn. lia. }
  apply StronglySorted_inv in Hs as [Hs Ho]. apply Forall_cons in Hf as [Hfo Hf]. cbn [fst] in Hfo.
  assert (count ((o, keys) :: blocks) = length keys + count blocks)%nat as Hcount by (unfold count; cbn; by rewrite length_app). rewrite Hcount in Hn.
  unfold StartBlock. rewrite (bi_count _ _ _ _ _ I), (proj2 (Z.leb_le _ _)) by lia. rewrite assert_true. cbn [mbind R_bind].
  destruct (generate_until_spec w oe (Z.to_nat (o / kFilterBase)) (o / kFilterBase) fs pending b I) as (b1 & fs1 & p1 & -> & I1 & Hl1 & _ & Hp1 & Hpre1);
    [lia|lia|lia|]. cbn [mbind R_bind].
  destruct (BB_AddAll_spec keys fs1 p1 b1 I1) as (b2 & p2 & -> & I2 & Hpre2 & Hl2 & Hc2). cbn [mbind R_bind].
  destruct (IH fs1 p2 b2 (n + length keys)%nat I2) as (b' & fs' & p' & E & I' & Hl' & Hg' & Hall).
  { assert (length p1 ≤ length pending)%nat by (destruct Hp1 as [->| ->]; cbn; lia). lia. }
  { lia. }
  { done. }
  { rewrite Hl1. eapply Forall_impl; [exact Ho|]. intros x Hx. cbn in Hx. apply Z.div_le_mono; [done|lia]. }
  exists b', fs', p'. split_and!; try done.
  - etransitivity; [by apply prefix_grows|]. etransitivity; [by apply pending_grows|]. done.
  - constructor; [|done]. cbn [fst snd]. eapply Forall_impl; [exact Hc2|]. intros key Hk. apply (located_grows w oe (groups fs1 p2)); [done|].
    exists p2. split; [|done]. unfold groups. rewrite lookup_app_r by (rewrite length_fmap; lia). rewrite length_fmap.
    by replace (Z.to_nat (o / kFilterBase) - length fs1)%nat with 0%nat by lia.
Qed.

(** ** Read back *)

Lemma foldl_words d l : foldl PutFixed32 d l = d ++ concat (EncodeFixed32 <$> l).
Proof.
  revert d. induction l as [|v l IH]; intros d; cbn; [by rewrite app_nil_r|]. by rewrite IH, PutFixed32_app, <- app_assoc.
Qed.
Lemma blen_words l : blen (concat (EncodeFixed32 <$> l)) = 4 * Z.of_nat (length l).
Proof. induction l as [|v l IH]; [done|]. cbn [fmap list_fmap concat]. rewrite blen_app, IH. unfold blen at 1. rewrite length_EncodeFixed32. cbn. lia. Qed.

(** The block that Finish makes of filters and offsets. *)
Definition block_of (data : bytes) (words : list Z) : bytes := data ++ concat (EncodeFixed32 <$> words) ++ [kFilterBaseLg].

Lemma decode_word data words i v :
  words !! i = Some v → in_range 32 v → decode_at (block_of data words) (blen data + 4 * Z.of_nat i) = Done v.
Proof.
  intros E Hv. unfold decode_at, block_of. assert (i < length words)%nat by by eapply lookup_lt_Some. pose proof (blen_nonneg data).
  rewrite !blen_app, blen_words. change (blen [kFilterBaseLg]) with 1. rewrite !(proj2 (Z.leb_le _ _)) by lia. cbn [andb require mbind R_bind].
  rewrite <- (take_drop_middle words i v E), fmap_app, concat_app, <- !app_assoc, app_assoc. cbn [fmap list_fmap concat].
  rewrite drop_app_length'; [by rewrite <- app_assoc, DecodeFixed32_encode|].
  rewrite length_app. pose proof (blen_words (take i words)) as Hb. unfold blen in *. rewrite length_take_le in Hb by lia. lia.
Qed.
Lemma ParseFields_block data words arr :
  words = arr ++ [blen data] → in_range 32 (blen data) → ParseFieldsFromBlock (block_of data words) = Some (blen data, Z.of_nat (length arr), 11).
Proof.
  intros -> Hd. unfold ParseFieldsFromBlock. set (c := block_of data (arr ++ [blen data])).
  assert (blen c = blen data + 4 * Z.of_nat (length arr) + 5) as Hc.
  { unfold c, block_of. rewrite !blen_app, blen_words, length_app. change (blen [kFilterBaseLg]) with 1. cbn. lia. }
  rewrite Hc. pose proof (blen_nonneg data). rewrite (proj2 (Z.ltb_ge _ _)) by lia.
  pose proof (decode_word data (arr ++ [blen data]) (length arr) (blen data)) as Hw. fold c in Hw. unfold decode_at in Hw.
  rewrite Hc, !(proj2 (Z.leb_le _ _)) in Hw by lia. cbn [andb require mbind R_bind] in Hw.
  replace (blen data + 4 * Z.of_nat (length arr) + 5 - 5) with (blen data + 4 * Z.of_nat (length arr)) by lia.
  specialize (Hw ltac:(by rewrite lookup_app_r, Nat.sub_diag by lia) Hd). injection Hw as ->. rewrite (proj2 (Z.ltb_ge _ _)) by lia.
  assert (byte_at c (Z.to_nat (blen data + 4 * Z.of_nat (length arr) + 5 - 1)) = 11) as ->.
  { unfold byte_at, c, block_of. rewrite app_assoc. assert (blen (data ++ concat (EncodeFixed32 <$> arr ++ [blen data])) = blen data + 4 * Z.of_nat (length arr) + 4) as Hl.
    { rewrite blen_app, blen_words, length_app. cbn. lia. }
    rewrite lookup_app_r by (unfold blen in Hl at 1; lia). unfold blen in Hl at 1. by replace (_ - _)%nat with 0%nat by lia. }
  change (u64 (to_signed 8 11)) with 11. do 3 f_equal. rewrite Z.add_simpl_l, Z.mul_comm. by apply Z.div_mul.
Qed.

Lemma MayMatch_group (fs : list (list bytes * bytes)) x f o i :
  blen (concat (fs.*2)) < 2 ^ 32 → fs !! i = Some (x, f) → o / kFilterBase = Z.of_nat i →
  ∀ entry, BB_MayMatch entry o (Some (block_of (concat (fs.*2)) (u32 <$> (offsets (fs.*2) 0 ++ [blen (concat (fs.*2))])))) = policy_KeyMayMatch entry f.
Proof.
  intros Hd Hi Ho entry. unfold BB_MayMatch. set (data := concat (fs.*2)) in *. pose proof (blen_nonneg data) as Hd0.
  assert (u32 (blen data) = blen data) as Hu by (apply wrap_small; unfold in_range; lia).
  assert (i < length fs)%nat as Hil by by eapply lookup_lt_Some. assert (fs.*2 !! i = Some f) as Ei by (by rewrite list_lookup_fmap, Hi).
  rewrite (ParseFields_block data _ (u32 <$> offsets (fs.*2) 0)); [|by rewrite fmap_app; cbn; rewrite Hu|unfold in_range; lia].
  rewrite length_fmap, length_offsets, length_fmap. change (11 <? 64) with true. cbn [require mbind R_bind]. rewrite Z.shiftr_div_pow2 by lia.
  change (2 ^ 11) with kFilterBase. rewrite Ho, (proj2 (Z.ltb_lt _ _)) by lia.
  destruct (offsets_lookup (fs.*2 ++ [[]]) i f 0) as [Es Ec]; [by rewrite lookup_app_l by (by rewrite length_fmap)|].
  assert (∃ y, (fs.*2 ++ [[]]) !! S i = Some y) as [y Ey] by (apply lookup_lt_is_Some; rewrite length_app, length_fmap; cbn; lia).
  destruct (offsets_lookup (fs.*2 ++ [[]]) (S i) y 0 Ey) as [El _].
  rewrite offsets_app in Es, El. cbn [offsets] in Es, El. fold data in Es, El. rewrite Z.add_0_l in Es, El.
  set (s := blen (concat (take i (fs.*2 ++ [[]])))) in *.
  assert (concat (take (S i) (fs.*2 ++ [[]])) = concat (take i (fs.*2 ++ [[]])) ++ f) as Hcat.
  { rewrite (take_S_r _ _ f), concat_app by (by rewrite lookup_app_l by (by rewrite length_fmap)). cbn. by rewrite app_nil_r. }
  rewrite Hcat, blen_app in El. fold s in El.
  assert (concat (fs.*2 ++ [[]]) = data) as Hdata by (unfold data; rewrite concat_app; cbn; by rewrite app_nil_r).
  rewrite Hdata in Ec. assert (s + blen f ≤ blen data) as Hsf.
  { rewrite Ec, !blen_app. fold s. pose proof (blen_nonneg (concat (drop (S i) (fs.*2 ++ [[]])))). lia. }
  pose proof (blen_nonneg f). assert (0 ≤ s) by apply blen_nonneg.
  assert (∀ j v, (offsets (fs.*2) 0 ++ [blen data]) !! j = Some v → 0 ≤ v < 2 ^ 32 →
    decode_at (block_of data (u32 <$> (offsets (fs.*2) 0 ++ [blen data]))) (blen data + 4 * Z.of_nat j) = Done v) as Hdec.
  { intros j v E Hv. apply decode_word; [|done]. rewrite list_lookup_fmap, E. cbn. f_equal. by apply wrap_small. }
  rewrite (Z.mul_comm _ 4). replace (blen data + 4 * Z.of_nat i + 4) with (blen data + 4 * Z.of_nat (S i)) by lia.
  rewrite (Hdec i s Es), (Hdec (S i) (s + blen f) El) by lia. cbn [mbind R_bind]. rewrite Hu, !(proj2 (Z.leb_le _ _)) by lia. cbn [andb].
  replace (s + blen f - s) with (blen f) by lia. unfold block_of. rewrite Ec at 1. rewrite <- !app_assoc. unfold s. by rewrite substr_mid.
Qed.

Lemma BB_Finish_spec fs pending b :
  bb_inv w oe fs pending b → Z.of_nat (length pending) ≤ create_max →
  ∃ fs' b', BB_Finish b = Done (block_of (concat (fs'.*2)) (u32 <$> (offsets (fs'.*2) 0 ++ [blen (concat (fs'.*2))])), b') ∧
    grows (groups fs pending) (groups fs' []) ∧ Forall good fs'.
Proof.
  intros I Hmax. unfold BB_Finish.
  assert (∃ b1 fs1, (if bool_decide (start_ b = []) then Done b else GenerateFilter b) = Done b1 ∧ bb_inv w oe fs1 [] b1 ∧
    grows (groups fs pending) (groups fs1 [])) as (b1 & fs1 & -> & I1 & Hg).
  { case_bool_decide as Hs.
    - exists b, fs. rewrite (bi_start _ _ _ _ _ I) in Hs. destruct pending; [done|discriminate Hs].
    - destruct (GenerateFilter_spec w oe fs pending b I Hmax) as (b' & f & -> & I'). exists b', (fs ++ [(pending, f)]). split; [done|]. split; [done|].
      apply prefix_grows. unfold groups. rewrite fmap_app. by exists [[]]. }
  cbn [mbind R_bind]. destruct I1 as [_ Hr Ho _ _ _ Hgood]. exists fs1. eexists. split; [|done]. f_equal. f_equal.
  unfold block_of. rewrite PutFixed32_app, foldl_words, Ho, Hr, !fmap_app, concat_app. cbn. by rewrite app_nil_r, <- !app_assoc.
Qed.

(** C28. The block that the builder writes for the data blocks of a table, in
    the order of their offsets, if less than 4 GB, never denies a key, nor the
    prefix of one, when it is asked at the offset of the key's data block. *)
Theorem block_filter_finds_keys (blocks : list (Z * list bytes)) w' :
  (w' = true → w = true) → StronglySorted (λ x y, x.1 ≤ y.1) blocks → Forall (λ x, 0 ≤ x.1 < kNotValid) blocks →
  2 * Z.of_nat (count blocks) ≤ create_max →
  ∃ b (contents : bytes) b', add_blocks blocks (new_BlockBasedFilterBlockBuilder oe w) = Done b ∧ BB_Finish b = Done (contents, b') ∧
    (blen contents < 2 ^ 32 → ∀ (o : Z) (keys : list bytes) (key : bytes), (o, keys) ∈ blocks → key ∈ keys →
       BB_KeyMayMatch key o (Some contents) w' = Done true ∧
       ∀ e p, oe = Some e → InDomain e key = true → Transform e key = Done p → BB_PrefixMayMatch p o (Some contents) = Done true).
Proof.
  intros Hw' Hs Hr Hn. destruct (add_blocks_spec blocks [] [] (new_BlockBasedFilterBlockBuilder oe w) 0) as (b & fs & pending & E & I & Hl & _ & Hall);
    [by split|cbn; lia|lia|done| |].
  { eapply Forall_impl; [exact Hr|]. intros x Hx. cbn in *. apply Z.div_pos; [lia|done]. }
  destruct (BB_Finish_spec fs pending b I Hl) as (fs' & b' & Ef & Hg & Hgood). eexists b, _, b'. split; [done|]. split; [exact Ef|].
  intros Hlen o keys key Hin Hkey. rewrite Forall_forall in Hall. specialize (Hall _ Hin). cbn in Hall. rewrite Forall_forall in Hall.
  destruct (located_grows _ _ _ _ _ _ Hg (Hall key Hkey)) as (g & Eg & Hc).
  rewrite Forall_forall in Hr. specialize (Hr _ Hin). cbn in Hr. assert (0 ≤ o / kFilterBase) by (apply Z.div_pos; [lia|done]).
  assert (blen (concat (fs'.*2)) < 2 ^ 32) as Hd by (unfold block_of in Hlen; rewrite !blen_app in Hlen; unfold blen in *; lia).
  assert (∀ x, x ∈ g → BB_MayMatch x o (Some (block_of (concat (fs'.*2)) (u32 <$> (offsets (fs'.*2) 0 ++ [blen (concat (fs'.*2))])))) = Done true) as Hfound.
  { intros x Hx. unfold groups in Eg. apply lookup_app_Some in Eg as [Eg|[_ Eg]].
    2: { apply list_lookup_singleton_Some in Eg as [_ <-]. by apply elem_of_nil in Hx. }
    rewrite list_lookup_fmap in Eg. destruct (fs' !! Z.to_nat (o / kFilterBase)) as [[g' f]|] eqn:Ei; [|done]. injection Eg as <-.
    rewrite (MayMatch_group fs' g' f o (Z.to_nat (o / kFilterBase)) Hd Ei) by lia.
    by apply (proj1 (Forall_lookup _ _) Hgood _ _ Ei). }
  destruct Hc as [Hcw Hcp]. unfold BB_KeyMayMatch, BB_PrefixMayMatch. rewrite (proj2 (Z.eqb_neq o kNotValid)) by lia. cbn [negb]. rewrite assert_true.
  cbn [mbind R_bind]. split.
  - destruct w'; [|done]. cbn [negb]. by apply Hfound, Hcw, Hw'.
  - intros e p He Hd' Ht. by apply Hfound, (Hcp e).
Qed.
End correct.

(** ** The Bloom filter policy makes such filters *)

Section policy.
Context `{Host, Build} (p : BloomFilterPolicy).

Definition deprecated_block_filters : BlockFilters := {|
  policy_CreateFilter keys dst := CreateFilter keys dst p;
  policy_KeyMayMatch := KeyMayMatch;
|}.

Lemma LegacyNoLocality_AddHash_app h total_bits num_probes d d' s :
  LegacyNoLocality_AddHash h total_bits num_probes d = Done d' → LegacyNoLocality_AddHash h total_bits num_probes (d ++ s) = Done (d' ++ s).
Proof. unfold LegacyNoLocality_AddHash. destruct (require _ _); [|done]. apply set_probes_app. Qed.

Lemma CreateFilter_spec keys dst :
  mode_ p = kDeprecatedBlock → 1 ≤ whole_bits_per_key_ p ≤ 100 → Z.of_nat (length keys) * whole_bits_per_key_ p < 2 ^ 31 →
  ∃ filter, CreateFilter keys dst p = Done (dst ++ filter) ∧ ∀ key, key ∈ keys → KeyMayMatch key filter = Done true.
Proof.
  intros Hmode Hw Hn. unfold CreateFilter. rewrite Hmode, assert_true. cbn [mbind R_bind]. set (n := Z.of_nat (length keys) * whole_bits_per_key_ p) in *.
  assert (0 ≤ n) by (unfold n; lia). unfold int_mul. rewrite bool_decide_eq_true_2 by (unfold in_srange; lia). cbn [require mbind R_bind].
  fold n. rewrite (wrap_small 32 n) by (unfold in_range; lia). set (bits := if n <? 64 then 64 else n).
  assert (64 ≤ bits < 2 ^ 31) as Hbits by (unfold bits; destruct (Z.ltb_spec n 64); lia).
  rewrite (wrap_small 32 (bits + 7)) by (unfold in_range; lia). set (m := (bits + 7) / 8).
  assert (8 ≤ m ∧ m * 8 < 2 ^ 31 + 8) as Hm by (unfold m; pose proof (Z.div_mod (bits + 7) 8); pose proof (Z.mod_pos_bound (bits + 7) 8); lia).
  rewrite (wrap_small 32 (m * 8)) by (unfold in_range; lia). destruct (legacy_probes_defined _ Hw) as [np Hnp]. pose proof (legacy_probes_range _ _ Hnp).
  rewrite Hnp. cbn [mbind R_bind]. rewrite (wrap_small 8 np) by (unfold in_range; lia). set (z := replicate (Z.to_nat m) 0).
  assert (blen z = m) as Hz by (unfold z, blen; rewrite length_replicate; lia).
  destruct (for_entries_covers (λ key, LegacyNoLocality_AddHash (BloomHash key) (m * 8) np)
    (λ key d, LegacyNoLocality_HashMayMatch (BloomHash key) (m * 8) np d = Done true) (λ _, True) (length z) keys z) as (d & E & Hc & Hall & _).
  { intros key d _ Hd. apply LegacyNoLocality_AddHash_spec; [lia|apply Hash_range|unfold blen in *; lia]. }
  { intros key d d' Hc. by apply LegacyNoLocality_HashMayMatch_covers. }
  { by apply Forall_true. }
  { done. }
  rewrite (for_entries_app _ _ z d [np]); [|intros ? ? ?; apply LegacyNoLocality_AddHash_app|exact E]. cbn [mbind R_bind].
  exists (d ++ [np]). split; [done|]. intros key Hkey. rewrite Forall_forall in Hall. specialize (Hall key Hkey).
  assert (blen d = m) as Hd by (unfold blen in *; rewrite <- (covers_length _ _ Hc); lia).
  unfold KeyMayMatch. rewrite blen_app, Hd. change (blen [np]) with 1. rewrite !(proj2 (Z.ltb_ge _ _)) by lia. cbn [orb].
  replace (m + 1 - 1) with (blen d) by lia. rewrite load_end. cbn [mbind R_bind]. rewrite (proj2 (Z.ltb_ge _ _)) by lia.
  rewrite Hd, (wrap_small 32 m), (wrap_small 32 (m * 8)) by (unfold in_range; lia).
  unfold LegacyNoLocality_HashMayMatch in *. destruct (require _ _); [|done]. by apply test_probes_app.
Qed.

Lemma KeyMayMatch_total key filter : blen filter < 2 ^ 29 → ∃ t, KeyMayMatch key filter = Done t.
Proof.
  intros Hl. unfold KeyMayMatch. destruct (Z.ltb_spec (blen filter) 2); [by eexists|]. destruct (Z.ltb_spec 0xffffffff (blen filter)); [by eexists|].
  cbn [orb]. assert (∃ k, load filter (blen filter - 1) = Done k) as [k ->].
  { unfold load. rewrite (proj2 (Z.ltb_ge _ _)) by lia. destruct (lookup_lt_is_Some_2 filter (Z.to_nat (blen filter - 1))) as [k Ek]; [unfold blen in *; lia|].
    rewrite Ek. cbn. by eexists. }
  cbn [mbind R_bind]. destruct (30 <? k); [by eexists|].
  rewrite (wrap_small 32 (blen filter - 1)), wrap_small by (unfold in_range; lia). apply LegacyNoLocality_HashMayMatch_total; [lia|apply Hash_range|lia].
Qed.

Lemma deprecated_block_laws :
  mode_ p = kDeprecatedBlock → 1 ≤ whole_bits_per_key_ p ≤ 100 → @BlockFiltersLaws deprecated_block_filters.
Proof.
  intros Hmode Hw. refine {| create_max := (2 ^ 31 - 1) / whole_bits_per_key_ p |}.
  - apply Z.div_lt_upper_bound; lia.
  - intros keys dst _ Hn. apply CreateFilter_spec; [done..|].
    pose proof (Z.mul_div_le (2 ^ 31 - 1) (whole_bits_per_key_ p)). nia.
  - apply KeyMayMatch_total.
Defined.
End policy.

(** ** Any block *)

Section any_block.
Context `{Host, Build, BF : BlockFilters, !BlockFiltersLaws}.

(** Whatever the block holds, a question is answered without reading outside
    of it, as long as its last byte is less than 64. *)
Lemma BB_MayMatch_defined entry o contents :
  bytes_ok contents → blen contents < 2 ^ 29 → 0 ≤ o → (∀ c b, contents = c ++ [b] → b < 64) → ∃ t, BB_MayMatch entry o (Some contents) = Done t.
Proof.
  intros Hok Hl Ho Hlast. unfold BB_MayMatch, ParseFieldsFromBlock. destruct (Z.ltb_spec (blen contents) 5); [by eexists|].
  set (offset := DecodeFixed32 _). destruct (Z.ltb_spec (blen contents - 5) offset); [by eexists|].
  assert (∀ s, bytes_ok s → (4 ≤ length s)%nat → in_range 32 (DecodeFixed32 s)) as Hdec.
  { intros [|a [|b [|c [|d s]]]] Hs Hlen; cbn in Hlen; try lia. rewrite DecodeFixed32_le. apply (le_value_range [a; b; c; d]).
    exact (proj1 (proj1 (bytes_ok_app [a; b; c; d] s) Hs)). }
  assert (in_range 32 offset) as [Hoff _] by (apply Hdec; [by apply bytes_ok_drop|rewrite length_drop; unfold blen in *; lia]).
  assert (∃ c b, contents = c ++ [b]) as (c & b & Ec) by (destruct contents as [|b c _] using rev_ind; [done|eauto]).
  assert (byte_at contents (Z.to_nat (blen contents - 1)) = b) as ->.
  { rewrite Ec. unfold byte_at. rewrite blen_app. change (blen [b]) with 1. rewrite lookup_app_r by (unfold blen; lia).
    by replace (Z.to_nat (blen c + 1 - 1) - length c)%nat with 0%nat by (unfold blen; lia). }
  assert (0 ≤ b < 64) as Hb by (split; [rewrite Ec in Hok; apply bytes_ok_app in Hok as [_ Hb%Forall_cons]; destruct Hb as [[? _] _]; done|by apply (Hlast c)]).
  assert (u64 (to_signed 8 b) = b) as ->.
  { unfold to_signed. rewrite (wrap_small 8) by (unfold in_range; lia). destruct (Z.ltb_spec b (2 ^ (8 - 1))); [|lia]. apply wrap_small. unfold in_range. lia. }
  rewrite (proj2 (Z.ltb_lt b 64)) by lia. cbn [require mbind R_bind]. set (index := o >> b).
  assert (0 ≤ index) by (by apply Z.shiftr_nonneg). destruct (Z.ltb_spec index ((blen contents - 5 - offset) / 4)) as [Hi|]; [|by eexists].
  assert (index * 4 + 4 ≤ blen contents - 5 - offset) by (pose proof (Z.mul_div_le (blen contents - 5 - offset) 4); lia).
  assert (∀ q, 0 ≤ q → q + 4 ≤ blen contents → ∃ v, decode_at contents q = Done v ∧ in_range 32 v) as Hat.
  { intros q Hq Hq4. unfold decode_at. rewrite !(proj2 (Z.leb_le _ _)) by lia. eexists. split; [done|].
    apply Hdec; [by apply bytes_ok_drop|rewrite length_drop; unfold blen in *; lia]. }
  destruct (Hat (offset + index * 4)) as (s & -> & Hs); [lia|lia|]. destruct (Hat (offset + index * 4 + 4)) as (l & -> & Hlim); [lia|lia|].
  cbn [mbind R_bind]. rewrite (wrap_small 32 offset) by (unfold in_range; lia). unfold in_range in *.
  destruct (Z.leb_spec s l); cbn [andb]; [|destruct (s =? l); by eexists]. destruct (Z.leb_spec l offset); [|destruct (s =? l); by eexists].
  unfold substr. rewrite !(proj2 (Z.leb_le _ _)) by lia. cbn [andb require mbind R_bind]. apply KeyMayMatch_defined.
  unfold blen in *. rewrite length_take. lia.
Qed.

(** A last byte from 64 on is a shift that is not defined. *)
Lemma BB_MayMatch_shift entry o :
  BB_MayMatch entry o (Some [0; 0; 0; 0; 64]) = Fault Undefined.
Proof. unfold BB_MayMatch, ParseFieldsFromBlock. cbn -[DecodeFixed32]. unfold DecodeFixed32, object_value. by destruct kLittleEndian. Qed.
End any_block.

(** ** At a concrete table *)

#[local] Instance little : Host := {| kLittleEndian := true |}.
#[local] Instance Checked : Build := {| NDEBUG := false |}.
Definition block_policy : BloomFilterPolicy := mkPolicy 9900 10 kDeprecatedBlock false.
#[local] Instance block_policy_filters : BlockFilters := deprecated_block_filters block_policy.
#[local] Instance block_policy_laws : BlockFiltersLaws.
Proof. apply deprecated_block_laws; [done|split; by vm_compute]. Defined.
(** Three data blocks, the first two in the same 2 KB. *)
Definition data_blocks : list (Z * list bytes) := [(0, [[97; 1]; [97; 2]]); (1500, [[97; 3]; [98; 1]]); (70000, [[99]; [99; 5]])].

Lemma block_filter_finds_keys_witness :
  ∃ b contents b', add_blocks data_blocks (new_BlockBasedFilterBlockBuilder (Some (CappedPrefixTransform 1)) true) = Done b ∧
    BB_Finish b = Done (contents, b') ∧
    (blen contents < 2 ^ 32 → ∀ (o : Z) (keys : list bytes) (key : bytes), (o, keys) ∈ data_blocks → key ∈ keys →
       BB_KeyMayMatch key o (Some contents) true = Done true ∧
       ∀ e p, Some (CappedPrefixTransform 1) = Some e → InDomain e key = true → Transform e key = Done p →
         BB_PrefixMayMatch p o (Some contents) = Done true).
Proof.
  apply (block_filter_finds_keys true (Some (CappedPrefixTransform 1))).
  - intros e [= <-]. by apply CappedPrefixTransform_laws.
  - done.
  - repeat constructor; cbn; lia.
  - repeat constructor; cbn; lia.
  - by vm_compute.
Defined.
(** What the block is: 35 filters, all but two of them empty. *)
Example example_block :
  match (b ← add_blocks data_blocks (new_BlockBasedFilterBlockBuilder None true);
         BB_Finish b) with
  | Done (contents, _) => ParseFieldsFromBlock contents = Some (18, 35, 11) ∧
      BB_MayMatch [97; 1] 70000 (Some contents) = Done false ∧
      BB_MayMatch [97; 1] 5000 (Some contents) = Done false ∧
      BB_MayMatch [97; 1] 100000 (Some contents) = Done true
  | Fault _ => False
  end.
Proof. by vm_compute. Qed.
