(* ===== verification/DynamicBloom.v ===== *)
(** * The Bloom filter of memtables (util/dynamic_bloom.h and .cc)

    Words that several threads read and set bits in without locks. Addresses
    are integers, and the memory of the filter is the list of the words from
    [data_] to the end of its allocation. The accesses are atomic and happen one
    after the other in some order: what a weaker memory shows to a reader that
    does not synchronise is left to the callers, as its comments say. *)
From S2P Require Import Prelude Result Coding Hash FastRange Bloom FilterPolicy.

Section dynamic.
Context `{Build}.

(** ** The constructor *)

Record DynamicBloom := mkDynamicBloom { kLen : Z; kNumDoubleProbes : Z; data_ : Z }.

(** [while (rv < x) rv <<= 1]: more than 32 rounds are an endless loop. *)
Fixpoint round_up (fuel : nat) (x rv : Z) : R Z :=
  if rv <? x then match fuel with O => Fault Undefined | S fuel' => round_up fuel' x (u32 (rv << 1)) end else Done rv.
Definition roundUpToPow2 (x : Z) : R Z := round_up 32 x 1.

(** The loop of assertions over [i < kNumDoubleProbes]. *)
Definition probes_in_range (len k : Z) : bool := forallb (λ i, ((len - 1) .^ Z.of_nat i) <? len) (seq 0 (Z.to_nat k)).

(** What is known before memory is asked for: the size to allocate, the
    bytes of a block, [kLen] and [kNumDoubleProbes]. *)
Definition Dynamic_sizes (total_bits num_probes : Z) : R (Z * Z * Z * Z) :=
  let k := u32 (num_probes + (if num_probes =? 1 then 1 else 0)) / 2 in
  _ ← assert (num_probes mod 2 =? 0);
  _ ← assert (num_probes <=? 10);
  _ ← assert (0 <? k);
  pow2 ← roundUpToPow2 k;
  let block_bytes := u32 (8 * Z.max 1 pow2) in
  let block_bits := u32 (block_bytes * 8) in
  _ ← require Undefined (negb (block_bits =? 0));
  let blocks := u32 (total_bits + block_bits - 1) / block_bits in
  let sz := u32 (blocks * block_bytes) in
  let len := sz / 8 in
  _ ← assert (0 <? len);
  _ ← assert (probes_in_range len k);
  Done (u32 (sz + block_bytes - 1), block_bytes, len, k).

(** [raw] is what AllocateAligned returns: the address of [sz] bytes. *)
Definition new_DynamicBloom (total_bits num_probes raw : Z) : R (DynamicBloom * list Z) :=
  '(sz, block_bytes, len, k) ← Dynamic_sizes total_bits num_probes;
  let block_offset := raw mod block_bytes in
  let data := if 0 <? block_offset then raw + (block_bytes - block_offset) else raw in
  Done (mkDynamicBloom len k data, replicate (Z.to_nat ((raw + sz - data) / 8)) 0).

(** ** Probes *)

Definition golden : Z := 0x9e3779b97f4a7c13.
Definition expand (h32 : Z) : Z := u64 (golden * h32).
Definition remix (h : Z) : Z := u64 (h >> 12 .| u64 (h << 52)).
Definition double_mask (h : Z) : Z := (1 << (h .& 63)) .| (1 << ((h >> 6) .& 63)).
Definition first_word (d : DynamicBloom) (h32 : Z) : Z := fastrange32 (kLen d) h32.

(** [or_func(&data_[i], mask)]. *)
Definition plain_or (i mask : Z) (data : list Z) : R (list Z) := v ← load data i; Done (<[Z.to_nat i := v .| mask]> data).
Definition concurrent_or (i mask : Z) (data : list Z) : R (list Z) :=
  v ← load data i;
  if negb (mask .& v =? mask) then v ← load data i; Done (<[Z.to_nat i := v .| mask]> data) (* fetch_or *) else Done data.

(** The loop [for (i = 0;; ++i)] that returns once [i + 1 >= kNumDoubleProbes]:
    at most [S n] rounds. *)
Fixpoint add_probes (or_func : Z → Z → list Z → R (list Z)) (n : nat) (k a i h : Z) (data : list Z) : R (list Z) :=
  data ← or_func (a .^ i) (double_mask h) data;
  if k <=? i + 1 then Done data
  else match n with O => Fault Undefined | S n' => add_probes or_func n' k a (i + 1) (remix h) data end.
Fixpoint double_probes (n : nat) (k a i h : Z) (data : list Z) : R bool :=
  val ← load data (a .^ i);
  let mask := double_mask h in
  if k <=? i + 1 then Done (val .& mask =? mask)
  else if negb (val .& mask =? mask) then Done false
  else match n with O => Fault Undefined | S n' => double_probes n' k a (i + 1) (remix h) data end.

Definition Dynamic_AddHash_with (or_func : Z → Z → list Z → R (list Z)) (d : DynamicBloom) (h32 : Z) (data : list Z) : R (list Z) :=
  let a := first_word d h32 in
  add_probes or_func (Z.to_nat (kNumDoubleProbes d)) (kNumDoubleProbes d) a 0 (expand h32) data.
Definition Dynamic_AddHash := Dynamic_AddHash_with plain_or.
Definition Dynamic_AddHashConcurrently := Dynamic_AddHash_with concurrent_or.
Definition DoubleProbe (d : DynamicBloom) (h32 byte_offset : Z) (data : list Z) : R bool :=
  double_probes (Z.to_nat (kNumDoubleProbes d)) (kNumDoubleProbes d) byte_offset 0 (expand h32) data.
Definition MayContainHash (d : DynamicBloom) (h32 : Z) (data : list Z) : R bool :=
  let a := first_word d h32 in DoubleProbe d h32 a data.

Definition Dynamic_Add (d : DynamicBloom) (key : bytes) (data : list Z) `{Host} : R (list Z) := Dynamic_AddHash d (BloomHash key) data.
Definition Dynamic_AddConcurrently (d : DynamicBloom) (key : bytes) (data : list Z) `{Host} : R (list Z) :=
  Dynamic_AddHashConcurrently d (BloomHash key) data.
Definition MayContain (d : DynamicBloom) (key : bytes) (data : list Z) `{Host} : R bool := MayContainHash d (BloomHash key) data.
(** Several keys: all are hashed first, into arrays of MAX_BATCH_SIZE. *)
Definition MayContain_batch (d : DynamicBloom) (keys : list bytes) (data : list Z) `{Host} : R (list bool) :=
  _ ← require OutOfBounds (Z.of_nat (length keys) <=? MAX_BATCH_SIZE);
  let hashes := (λ key, (BloomHash key, first_word d (BloomHash key))) <$> keys in
  map_R (λ p, DoubleProbe d (fst p) (snd p) data) hashes.

(** ** Threads *)

(** What a thread is about to do: the load of AddHashConcurrently, its fetch_or;
    the load and the store of AddHash; the load of DoubleProbe. *)
Inductive activity :=
  | ToLoad (i h : Z)
  | ToOr (i h : Z)
  | PlainLoad (i h : Z)
  | PlainStore (i h v : Z)
  | ToRead (i h : Z)
  | Added
  | Answer (may_match : bool).

Definition next_probe (d : DynamicBloom) (next : Z → Z → activity) (i h : Z) : activity :=
  if kNumDoubleProbes d <=? i + 1 then Added else next (i + 1) (remix h).

(** One atomic access to memory. *)
Definition access (d : DynamicBloom) (h32 : Z) (act : activity) (data : list Z) : R (activity * list Z) :=
  let a := first_word d h32 in
  match act with
  | ToLoad i h =>
      v ← load data (a .^ i);
      Done (if negb (double_mask h .& v =? double_mask h) then ToOr i h else next_probe d ToLoad i h, data)
  | ToOr i h =>
      v ← load data (a .^ i);
      Done (next_probe d ToLoad i h, <[Z.to_nat (a .^ i) := v .| double_mask h]> data)
  | PlainLoad i h => v ← load data (a .^ i); Done (PlainStore i h v, data)
  | PlainStore i h v =>
      _ ← load data (a .^ i);
      Done (next_probe d PlainLoad i h, <[Z.to_nat (a .^ i) := v .| double_mask h]> data)
  | ToRead i h =>
      val ← load data (a .^ i);
      let mask := double_mask h in
      Done (if kNumDoubleProbes d <=? i + 1 then Answer (val .& mask =? mask)
            else if negb (val .& mask =? mask) then Answer false else ToRead (i + 1) (remix h), data)
  | Added | Answer _ => Done (act, data)
  end.

(** A thread has a hash; [expected], for a reader: the hash had been added when
    it started. *)
Record thread := mkThread { hash32 : Z; act : activity; expected : bool }.
Record system := mkSystem { memory : list Z; threads : list thread; added : list Z }.

Definition finished (act : activity) : bool := match act with Added | Answer _ => true | _ => false end.

(** Threads start, each with one call; any of them makes the next access. *)
Inductive step (d : DynamicBloom) : system → system → Prop :=
  | start_add s h32 :
      in_range 32 h32 → step d s (mkSystem (memory s) (threads s ++ [mkThread h32 (ToLoad 0 (expand h32)) false]) (added s))
  | start_read s h32 :
      in_range 32 h32 →
      step d s (mkSystem (memory s) (threads s ++ [mkThread h32 (ToRead 0 (expand h32)) (bool_decide (h32 ∈ added s))]) (added s))
  | run s n t act' data' :
      threads s !! n = Some t → finished (act t) = false → access d (hash32 t) (act t) (memory s) = Done (act', data') →
      step d s (mkSystem data' (<[n := mkThread (hash32 t) act' (expected t)]> (threads s))
                 (match act' with Added => hash32 t :: added s | _ => added s end)).
End dynamic.
