(* ===== verification/DynamicBloomCorrect.v ===== *)
(** * The Bloom filter of memtables: no thread loses what another adds

    Invariants of the threads that add and look up hashes; where the
    constructor puts the words. *)
From S2P Require Import Prelude Result Coding Hash FastRange Bloom FilterPolicy DynamicBloom.

(** ** Words *)

(** The bits of [mask] are set in [v]. *)
Definition set_in (mask v : Z) : Prop := ∀ k, Z.testbit mask k = true → Z.testbit v k = true.
Lemma land_set_in mask v : mask .& v = mask ↔ set_in mask v.
Proof.
  split; [intros E k Hk; rewrite <- E, Z.land_spec in Hk; by apply andb_true_iff in Hk as [_ ?]|].
  intros Hs. apply Z.bits_inj. intros k. rewrite Z.land_spec. destruct (Z.testbit mask k) eqn:E; [|done]. by rewrite (Hs k E).
Qed.
Lemma set_in_lor v mask : set_in mask (v .| mask).
Proof. intros k Hk. rewrite Z.lor_spec, Hk. apply orb_true_r. Qed.

Lemma load_within data i : 0 ≤ i < Z.of_nat (length data) → ∃ v, load data i = Done v.
Proof.
  intros Hi. unfold load. rewrite (proj2 (Z.ltb_ge _ _)) by lia. destruct (lookup_lt_is_Some_2 data (Z.to_nat i)) as [v ->]; [lia|]. by exists v.
Qed.
Lemma load_some data i v : load data i = Done v → 0 ≤ i ∧ data !! Z.to_nat i = Some v.
Proof. unfold load. destruct (Z.ltb_spec i 0); [done|]. destruct (data !! _); [|done]. by intros [= ->]. Qed.
Lemma load_insert data i v : 0 ≤ i < Z.of_nat (length data) → load (<[Z.to_nat i := v]> data) i = Done v.
Proof. intros Hi. unfold load. rewrite (proj2 (Z.ltb_ge _ _)), list_lookup_insert_eq by lia. done. Qed.
Lemma covers_insert data i v v' : load data i = Done v → set_in v v' → covers data (<[Z.to_nat i := v']> data).
Proof.
  intros [_ E]%load_some Hs. rewrite <- (list_insert_id _ _ _ E) at 1. apply Forall2_insert; [|done]. by apply (reflexivity (R := covers)).
Qed.

Section correct.
Context (d : DynamicBloom).
#[local] Abbreviation k := (kNumDoubleProbes d).
#[local] Abbreviation word := (λ h32 i, first_word d h32 .^ i).

(** Every probe is inside. *)
Record dynamic_ok (data : list Z) : Prop := {
  ok_probes : 1 ≤ k;
  ok_len : in_range 32 (kLen d) ∧ 0 < kLen d;
  ok_xor : ∀ x i, 0 ≤ x < kLen d → 0 ≤ i < k → 0 ≤ x .^ i < kLen d;
  ok_data : kLen d ≤ Z.of_nat (length data);
}.
Lemma dynamic_ok_covers data data' : dynamic_ok data → covers data data' → dynamic_ok data'.
Proof. intros [? ? ? ?] Hc. split; try done. by rewrite <- (covers_length _ _ Hc). Qed.
Lemma word_in data h32 i : dynamic_ok data → in_range 32 h32 → 0 ≤ i < k → 0 ≤ word h32 i < Z.of_nat (length data).
Proof.
  intros [_ [Hl Hpos] Hx Hd] Hh Hi. destruct (fastrange32_below (kLen d) h32 Hl Hh) as [H0 Hlt].
  pose proof (Hx (first_word d h32) i (conj H0 (Hlt Hpos)) Hi). lia.
Qed.

(** The expanded hash of probe [i]. *)
Definition hash_at (h32 i : Z) : Z := Nat.iter (Z.to_nat i) remix (expand h32).
Lemma hash_at_next h32 i : 0 ≤ i → remix (hash_at h32 i) = hash_at h32 (i + 1).
Proof. intros Hi. unfold hash_at. by rewrite Z2Nat.inj_add, Nat.add_comm by lia. Qed.

(** Probe [i] of the hash, and all of them, are in memory. *)
Definition has_probe (data : list Z) (h32 i : Z) : Prop := ∃ v, load data (word h32 i) = Done v ∧ set_in (double_mask (hash_at h32 i)) v.
Definition present (data : list Z) (h32 : Z) : Prop := ∀ i, 0 ≤ i < k → has_probe data h32 i.

Lemma has_probe_covers data data' h32 i : covers data data' → has_probe data h32 i → has_probe data' h32 i.
Proof. intros Hc (v & E & Hs). destruct (load_covers _ _ _ _ Hc E) as (v' & E' & Hv). exists v'. split; [done|]. intros b Hb. by apply Hv, Hs. Qed.
Lemma present_covers data data' h32 : covers data data' → present data h32 → present data' h32.
Proof. intros Hc Hp i Hi. by apply (has_probe_covers data), Hp. Qed.

Lemma double_probes_present data h32 n i :
  present data h32 → 0 ≤ i < k → k - i ≤ Z.of_nat n + 1 → double_probes n k (first_word d h32) i (hash_at h32 i) data = Done true.
Proof.
  intros Hp. revert i. induction n as [|n IH]; intros i Hi Hn; cbn [double_probes]; destruct (Hp i Hi) as (v & -> & Hs%land_set_in); cbn [mbind R_bind];
    rewrite Z.land_comm, Hs, Z.eqb_refl; [by rewrite (proj2 (Z.leb_le _ _)) by lia|].
  destruct (Z.leb_spec k (i + 1)); [done|]. cbn [negb]. rewrite hash_at_next by lia. apply IH; lia.
Qed.
Lemma MayContainHash_present data h32 : 1 ≤ k → present data h32 → MayContainHash d h32 data = Done true.
Proof. intros Hk Hp. apply (double_probes_present data h32 _ 0); [done|lia|lia]. Qed.

(** ** What each thread has done *)

Definition probed (data : list Z) (h32 i : Z) : Prop := ∀ j, 0 ≤ j < i → has_probe data h32 j.

Definition doing (data : list Z) (t : thread) : Prop :=
  match act t with
  | ToLoad i h | ToOr i h => 0 ≤ i < k ∧ h = hash_at (hash32 t) i ∧ probed data (hash32 t) i
  | ToRead i h => 0 ≤ i < k ∧ h = hash_at (hash32 t) i ∧ (expected t = true → present data (hash32 t))
  | Added => present data (hash32 t)
  | Answer b => expected t = true → b = true
  | PlainLoad _ _ | PlainStore _ _ _ => False
  end.
Record system_inv (s : system) : Prop := {
  inv_memory : dynamic_ok (memory s);
  inv_threads : Forall (λ t, in_range 32 (hash32 t) ∧ doing (memory s) t) (threads s);
  inv_added : Forall (present (memory s)) (added s);
}.

Lemma doing_covers data data' t : covers data data' → doing data t → doing data' t.
Proof.
  intros Hc. unfold doing. destruct (act t); try done; [..|by apply present_covers].
  - intros (? & ? & Hp). split; [done|]. split; [done|]. intros j Hj. by apply (has_probe_covers data), Hp.
  - intros (? & ? & Hp). split; [done|]. split; [done|]. intros j Hj. by apply (has_probe_covers data), Hp.
  - intros (? & ? & Hp). split; [done|]. split; [done|]. intros He. by apply (present_covers data), Hp.
Qed.

(** The accesses a thread has left, at most. *)
Definition accesses_left (act : activity) : Z :=
  match act with ToLoad i _ => 2 * (k - i) | ToOr i _ => 2 * (k - i) - 1 | ToRead i _ => k - i | _ => 0 end.

Lemma next_probe_doing data h32 i b :
  0 ≤ i < k → has_probe data h32 i → probed data h32 i →
  doing data (mkThread h32 (next_probe d ToLoad i (hash_at h32 i)) b) ∧
  accesses_left (next_probe d ToLoad i (hash_at h32 i)) ≤ 2 * (k - i) - 2.
Proof.
  intros Hi Hhas Hp. unfold next_probe. destruct (Z.leb_spec k (i + 1)); cbn.
  - split; [|lia]. intros j Hj. destruct (decide (j = i)) as [->|]; [done|]. apply Hp. lia.
  - split; [|lia]. split; [lia|]. split; [apply hash_at_next; lia|]. intros j Hj. destruct (decide (j = i)) as [->|]; [done|]. apply Hp. lia.
Qed.

(** Every access succeeds, keeps all bits, and brings its thread closer to the
    end. *)
Lemma access_spec data h32 a b :
  dynamic_ok data → in_range 32 h32 → doing data (mkThread h32 a b) → finished a = false →
  ∃ a' data', access d h32 a data = Done (a', data') ∧ covers data data' ∧ doing data' (mkThread h32 a' b) ∧ accesses_left a' < accesses_left a.
Proof.
  intros Hok Hh Hd Hf. unfold doing in Hd. cbn [act hash32 expected] in Hd. unfold access.
  assert (∀ i, 0 ≤ i < k → ∃ v, load data (word h32 i) = Done v) as Hload by (intros i Hi; apply load_within, word_in; done).
  destruct a as [i h|i h| | |i h| |]; try done; destruct Hd as (Hi & -> & Hp); destruct (Hload i Hi) as [v Hv]; rewrite Hv; cbn [mbind R_bind].
  - destruct (Z.eqb_spec (double_mask (hash_at h32 i) .& v) (double_mask (hash_at h32 i))) as [E|E]; cbn [negb].
    + apply land_set_in in E. destruct (next_probe_doing data h32 i b Hi (ex_intro _ v (conj Hv E)) Hp) as [Hdo Hl].
      do 2 eexists. split; [done|]. split; [reflexivity|]. split; [done|]. cbn [accesses_left]. lia.
    + do 2 eexists. split; [done|]. split; [reflexivity|]. split; [done|]. cbn. lia.
  - set (data' := <[_ := _]> data). assert (covers data data') as Hc.
    { eapply covers_insert; [exact Hv|]. intros b' Hb'. by rewrite Z.lor_spec, Hb'. }
    destruct (next_probe_doing data' h32 i b Hi) as [Hdo Hl].
    { eexists. split; [apply load_insert; by apply word_in|apply set_in_lor]. }
    { intros j Hj. by apply (has_probe_covers data), Hp. }
    do 2 eexists. split; [done|]. split; [done|]. split; [done|]. cbn [accesses_left]. lia.
  - eexists _, data. split; [done|]. split; [reflexivity|]. rewrite Z.land_comm.
    assert (expected (mkThread h32 (ToRead i (hash_at h32 i)) b) = true → double_mask (hash_at h32 i) .& v = double_mask (hash_at h32 i)) as Hset.
    { intros He. apply land_set_in. destruct (Hp He i Hi) as (v' & E & Hs). rewrite Hv in E. by injection E as <-. }
    cbn in Hset. destruct (Z.leb_spec k (i + 1)); [|destruct (Z.eqb_spec (double_mask (hash_at h32 i) .& v) (double_mask (hash_at h32 i)))]; cbn.
    + split; [|lia]. intros He. apply Z.eqb_eq. auto.
    + split; [|lia]. split; [lia|]. split; [apply hash_at_next; lia|done].
    + split; [|lia]. intros He. by destruct n; apply Hset.
Qed.

Lemma bloom_step_inv s s' : system_inv s → step d s s' → system_inv s'.
Proof.
  intros [Hm Ht Ha] Hstep. destruct Hstep as [s h32 Hh|s h32 Hh|s n [h32 a b] a' data' Hn Hf Hacc]; cbn [memory threads added hash32 act expected] in *.
  - split; cbn; try done. apply Forall_app_2; [done|]. constructor; [|done]. split; [done|]. cbn. pose proof (ok_probes _ Hm).
    split; [lia|]. split; [done|]. intros j Hj. lia.
  - split; cbn; try done. apply Forall_app_2; [done|]. constructor; [|done]. split; [done|]. cbn. pose proof (ok_probes _ Hm).
    split; [lia|]. split; [done|]. intros He%bool_decide_eq_true. rewrite Forall_forall in Ha. by apply Ha.
  - destruct (proj1 (Forall_lookup _ _) Ht n _ Hn) as [Hh Hd]. cbn in Hh.
    destruct (access_spec (memory s) h32 a b Hm Hh Hd Hf) as (a1 & data1 & E & Hc & Hd1 & _). rewrite Hacc in E. injection E as <- <-.
    assert (Forall (present data') (added s)) as Ha' by (eapply Forall_impl; [exact Ha|]; intros h; by apply present_covers).
    split; cbn [memory threads added].
    + by apply (dynamic_ok_covers (memory s)).
    + apply Forall_insert; [|done]. eapply Forall_impl; [exact Ht|]. intros t [? ?]. split; [done|]. by apply (doing_covers (memory s)).
    + destruct a'; try done. by constructor.
Qed.
End correct.

(** ** The constructor *)

(** [x ^ i] stays in the block of [x]. *)
Lemma xor_in_block len p x i : 0 ≤ p → 0 ≤ x < len * 2 ^ p → 0 ≤ i < 2 ^ p → 0 ≤ x .^ i < len * 2 ^ p.
Proof.
  intros Hp Hx Hi. assert (0 < 2 ^ p) by (apply Z.pow_pos_nonneg; lia). assert (0 ≤ x .^ i) by (apply Z.lxor_nonneg; lia). split; [done|].
  assert ((x .^ i) >> p = x >> p) as E.
  { rewrite Z.shiftr_lxor, (Z.shiftr_div_pow2 i), Z.div_small, Z.lxor_0_r by lia. done. }
  rewrite !Z.shiftr_div_pow2 in E by done. pose proof (Z.mul_succ_div_gt (x .^ i) (2 ^ p)). assert (x / 2 ^ p < len) by (apply Z.div_lt_upper_bound; lia). nia.
Qed.

Section constructor.
Context `{Build}.

Lemma Dynamic_sizes_value total_bits num_probes k p :
  num_probes = 2 * k → roundUpToPow2 k = Done (2 ^ p) → 1 ≤ k ≤ 5 → 0 ≤ p ≤ 3 → k ≤ 2 ^ p → 0 < total_bits → total_bits + 511 < 2 ^ 32 →
  ∃ blocks, Dynamic_sizes total_bits num_probes = Done (blocks * 2 ^ p * 8 + 8 * 2 ^ p - 1, 8 * 2 ^ p, blocks * 2 ^ p, k) ∧
    0 < blocks ∧ total_bits ≤ blocks * 2 ^ p * 64 ∧ blocks * 2 ^ p * 8 ≤ 2 ^ 29.
Proof.
  intros -> Hround Hk Hp Hkp Hpos Htot. unfold Dynamic_sizes. set (q := 2 ^ p) in *.
  assert (1 ≤ q ≤ 8) as Hq.
  { unfold q. split; [apply (Z.pow_le_mono_r 2 0 p); lia|apply (Z.pow_le_mono_r 2 p 3); lia]. }
  rewrite (proj2 (Z.eqb_neq _ 1)) by lia. rewrite Z.add_0_r, (wrap_small 32 (2 * k)) by (unfold in_range; lia).
  rewrite (Z.mul_comm 2 k), Z.div_mul, Z.mod_mul by done. rewrite (proj2 (Z.leb_le (k * 2) 10)), (proj2 (Z.ltb_lt 0 k)) by lia. cbn [Z.eqb].
  rewrite !assert_true. cbn [mbind R_bind]. rewrite Hround. cbn [mbind R_bind]. rewrite Z.max_r by lia.
  rewrite (wrap_small 32 (8 * q)), (wrap_small 32 (8 * q * 8)) by (unfold in_range; lia). rewrite (proj2 (Z.eqb_neq _ 0)) by lia. cbn [negb require mbind R_bind].
  rewrite (wrap_small 32 (total_bits + _ - 1)) by (unfold in_range; lia). set (blocks := (total_bits + 8 * q * 8 - 1) / (8 * q * 8)).
  assert (8 * q * 8 * blocks ≤ total_bits + 8 * q * 8 - 1 < 8 * q * 8 * blocks + 8 * q * 8) as Hb.
  { pose proof (Z.div_mod (total_bits + 8 * q * 8 - 1) (8 * q * 8)). pose proof (Z.mod_pos_bound (total_bits + 8 * q * 8 - 1) (8 * q * 8)). unfold blocks. lia. }
  assert (0 < blocks) by nia. rewrite (wrap_small 32 (blocks * (8 * q))) by (unfold in_range; nia).
  replace (blocks * (8 * q)) with (blocks * q * 8) by lia. rewrite Z.div_mul by done. rewrite (proj2 (Z.ltb_lt 0 (blocks * q))) by nia.
  assert (probes_in_range (blocks * q) k = true) as ->.
  { apply forallb_forall. intros i Hi%in_seq. apply Z.ltb_lt. apply xor_in_block; [lia|fold q; nia|fold q; lia]. }
  rewrite !assert_true. cbn [mbind R_bind]. rewrite wrap_small by (unfold in_range; nia). exists blocks. split; [do 4 f_equal; lia|]. split; [done|]. split; [lia|nia].
Qed.

(** C27. The constructor's words are as many as the bits need, start at a multiple
    of the size of a block within the allocated bytes, and hold every probe of
    every hash, for each number of probes it accepts. *)
Theorem new_DynamicBloom_in_bounds total_bits num_probes raw :
  num_probes ∈ [2; 4; 6; 8; 10] → 0 < total_bits → total_bits + 511 < 2 ^ 32 → 0 ≤ raw →
  ∃ d data sz block_bytes, Dynamic_sizes total_bits num_probes = Done (sz, block_bytes, kLen d, kNumDoubleProbes d) ∧
    new_DynamicBloom total_bits num_probes raw = Done (d, data) ∧ dynamic_ok d data ∧ num_probes = 2 * kNumDoubleProbes d ∧ total_bits ≤ 64 * kLen d ∧
    raw ≤ data_ d ∧ data_ d mod block_bytes = 0 ∧ block_bytes mod 8 = 0 ∧ data_ d + 8 * Z.of_nat (length data) ≤ raw + sz ∧ ∀ v, v ∈ data → v = 0.
Proof.
  intros Hnum Hpos Htot Hraw.
  assert (∃ k p, num_probes = 2 * k ∧ roundUpToPow2 k = Done (2 ^ p) ∧ 1 ≤ k ≤ 5 ∧ 0 ≤ p ≤ 3 ∧ k ≤ 2 ^ p) as (k & p & Hk2 & Hround & Hk & Hp & Hkp).
  { repeat apply elem_of_cons in Hnum as [->|Hnum]; [exists 1, 0|exists 2, 1|exists 3, 2|exists 4, 2|exists 5, 3|by apply elem_of_nil in Hnum];
      (split; [done|]; split; [by vm_compute|]; lia). }
  destruct (Dynamic_sizes_value total_bits num_probes k p) as (blocks & E & Hb & Hbits & Hlim); [done..|].
  assert (1 ≤ 2 ^ p) by (apply (Z.pow_le_mono_r 2 0 p); lia). set (q := 2 ^ p) in *. unfold new_DynamicBloom. rewrite E. cbn [mbind R_bind].
  set (data := if 0 <? raw mod (8 * q) then _ else raw).
  assert (raw ≤ data < raw + 8 * q ∧ data mod (8 * q) = 0) as [Hdata Hal].
  { unfold data. pose proof (Z.mod_pos_bound raw (8 * q) ltac:(lia)). destruct (Z.ltb_spec 0 (raw mod (8 * q))).
    - split; [lia|]. pose proof (Z.div_mod raw (8 * q) ltac:(lia)).
      replace (raw + (8 * q - raw mod (8 * q))) with ((raw / (8 * q) + 1) * (8 * q)) by lia. by apply Z.mod_mul; lia.
    - split; lia. }
  set (n := (raw + (blocks * q * 8 + 8 * q - 1) - data) / 8).
  assert (8 * n ≤ raw + (blocks * q * 8 + 8 * q - 1) - data < 8 * n + 8) as Hn.
  { pose proof (Z.div_mod (raw + (blocks * q * 8 + 8 * q - 1) - data) 8). pose proof (Z.mod_pos_bound (raw + (blocks * q * 8 + 8 * q - 1) - data) 8). unfold n. lia. }
  assert (blocks * q ≤ n) by lia. exists (mkDynamicBloom (blocks * q) k data), (replicate (Z.to_nat n) 0), (blocks * q * 8 + 8 * q - 1), (8 * q).
  cbn [kLen kNumDoubleProbes data_]. split; [done|]. split; [done|]. split.
  { split; cbn [kLen kNumDoubleProbes].
    - lia.
    - unfold in_range. nia.
    - intros x i Hx Hi. apply xor_in_block; [lia|done|]. fold q. lia.
    - rewrite length_replicate. lia. }
  split; [done|]. split; [lia|]. split; [lia|]. split; [done|]. split; [by rewrite Z.mul_comm, Z.mod_mul|].
  split; [rewrite length_replicate; nia|]. intros v Hv. by apply elem_of_replicate in Hv as [-> _].
Qed.

(** For other sizes the number of blocks wraps around to nothing: an assertion
    fails, or the first probe is outside. *)
Lemma new_DynamicBloom_wraps total_bits h32 :
  2 ^ 32 - 255 ≤ total_bits < 2 ^ 32 → in_range 32 h32 →
  if NDEBUG then ∃ d data, new_DynamicBloom total_bits 6 4096 = Done (d, data) ∧ Z.of_nat (length data) = 3 ∧ kLen d = 0
  else new_DynamicBloom total_bits 6 4096 = Fault AssertFails.
Proof.
  intros Htot Hh. unfold new_DynamicBloom, Dynamic_sizes. change (u32 (6 + (if 6 =? 1 then 1 else 0)) / 2) with 3.
  change (6 mod 2 =? 0) with true. change (6 <=? 10) with true. change (0 <? 3) with true. rewrite !assert_true. cbn [mbind R_bind].
  change (roundUpToPow2 3) with (Done 4 : R Z). cbn [mbind R_bind]. change (u32 (8 * Z.max 1 4)) with 32. change (u32 (32 * 8)) with 256.
  change (256 =? 0) with false. cbn [negb require mbind R_bind].
  assert (u32 (total_bits + 256 - 1) / 256 = 0) as ->.
  { replace (total_bits + 256 - 1) with (total_bits + 255 - 2 ^ 32 + 1 * 2 ^ 32) by lia. unfold wrap. rewrite Z.mod_add by done.
    rewrite Z.mod_small by lia. apply Z.div_small. lia. }
  change (u32 (0 * 32)) with 0. change (0 / 8) with 0. change (0 <? 0) with false. unfold assert. destruct NDEBUG; [|done]. cbn [orb require mbind R_bind].
  do 2 eexists. split; [by vm_compute|]. split; done.
Qed.
End constructor.

(** ** Runs *)

Section runs.
Context `{Build}.

(** C15. However the loads, fetch_ors and reads of any number of threads that
    add hashes concurrently and look hashes up are interleaved, every hash whose
    AddHashConcurrently is over may be contained; a look up that starts after
    that says so; and no thread is ever stuck, or makes more than two accesses
    for each of its probes. *)
Theorem concurrent_adds_are_found total_bits num_probes raw :
  num_probes ∈ [2; 4; 6; 8; 10] → 0 < total_bits → total_bits + 511 < 2 ^ 32 → 0 ≤ raw →
  ∃ d data, new_DynamicBloom total_bits num_probes raw = Done (d, data) ∧
    ∀ s, rtc (step d) (mkSystem data [] []) s →
      (∀ h32, h32 ∈ added s → MayContainHash d h32 (memory s) = Done true) ∧
      (∀ t may_match, t ∈ threads s → expected t = true → act t = Answer may_match → may_match = true) ∧
      (∀ t, t ∈ threads s → finished (act t) = false →
         ∃ act' data', access d (hash32 t) (act t) (memory s) = Done (act', data') ∧
           0 ≤ accesses_left d act' < accesses_left d (act t) ∧ accesses_left d (act t) ≤ num_probes).
Proof.
  intros Hnum Hpos Htot Hraw. destruct (new_DynamicBloom_in_bounds total_bits num_probes raw Hnum Hpos Htot Hraw) as (d & data & sz & bb & _ & E & Hok & Hk & _).
  exists d, data. split; [done|]. intros s Hrun. assert (system_inv d s) as [Hm Ht Ha].
  { remember (mkSystem data [] []) as s0 eqn:Es. assert (system_inv d s0) as Hinit by (subst s0; by split; cbn).
    clear Es. induction Hrun as [|s1 s2 s3 Hstep _ IH]; [done|]. apply IH. by apply (bloom_step_inv d s1). }
  rewrite Forall_forall in Ha. rewrite Forall_forall in Ht. split; [|split].
  - intros h32 Hin. apply MayContainHash_present; [apply Hm|by apply Ha].
  - intros t b Hin He Hact. destruct (Ht t Hin) as [_ Hd]. unfold doing in Hd. rewrite Hact in Hd. auto.
  - intros [h32 a b] Hin Hf. destruct (Ht _ Hin) as [Hh Hd]. cbn [hash32 act] in *.
    destruct (access_spec d (memory s) h32 a b Hm Hh Hd Hf) as (a' & data' & Eacc & _ & Hd' & Hless). exists a', data'. split; [done|]. split.
    + split; [|done]. unfold doing in Hd'. cbn in Hd'. destruct a'; cbn; try lia; done.
    + unfold doing in Hd. cbn in Hd. destruct a; cbn in *; try done; lia.
Qed.
End runs.

(** ** One thread *)

Section one_thread.
Context `{Build} (d : DynamicBloom).

Lemma ors_agree data i mask :
  0 ≤ i < Z.of_nat (length data) →
  ∃ data', plain_or i mask data = Done data' ∧ concurrent_or i mask data = Done data' ∧ covers data data' ∧ ∃ v, load data' i = Done v ∧ set_in mask v.
Proof.
  intros Hi. unfold plain_or, concurrent_or. destruct (load_within data i Hi) as [v Hv]. rewrite Hv. cbn [mbind R_bind].
  eexists. split; [done|]. split; [|split; [eapply covers_insert; [exact Hv|]; intros b Hb; by rewrite Z.lor_spec, Hb|]].
  - destruct (Z.eqb_spec (mask .& v) mask) as [E%land_set_in|]; [|done]. cbn [negb]. f_equal. symmetry. apply list_insert_id.
    apply load_some in Hv as [_ ->]. f_equal. apply Z.bits_inj. intros b. rewrite Z.lor_spec. destruct (Z.testbit mask b) eqn:Eb; [|by rewrite orb_false_r].
    by rewrite (E b Eb).
  - eexists. split; [by apply load_insert|apply set_in_lor].
Qed.

Lemma add_probes_spec h32 n i data :
  dynamic_ok d data → in_range 32 h32 → 0 ≤ i < kNumDoubleProbes d → kNumDoubleProbes d - i ≤ Z.of_nat n + 1 → probed d data h32 i →
  ∃ data', add_probes plain_or n (kNumDoubleProbes d) (first_word d h32) i (hash_at h32 i) data = Done data' ∧
    add_probes concurrent_or n (kNumDoubleProbes d) (first_word d h32) i (hash_at h32 i) data = Done data' ∧ covers data data' ∧ present d data' h32.
Proof.
  intros Hok Hh. revert i data Hok. induction n as [|n IH]; intros i data Hok Hi Hn Hp; cbn [add_probes];
    destruct (ors_agree data (first_word d h32 .^ i) (double_mask (hash_at h32 i))) as (data1 & -> & -> & Hc & Hhas); try (by apply word_in);
    cbn [mbind R_bind];
    assert (probed d data1 h32 (i + 1)) as Hp1 by
      (intros j Hj; destruct (decide (j = i)) as [->|]; [done|]; apply (has_probe_covers d data); [done|apply Hp; lia]).
  - rewrite (proj2 (Z.leb_le _ _)) by lia. exists data1. split; [done|]. split; [done|]. split; [done|]. intros j Hj. apply Hp1. lia.
  - destruct (Z.leb_spec (kNumDoubleProbes d) (i + 1)).
    + exists data1. split; [done|]. split; [done|]. split; [done|]. intros j Hj. apply Hp1. lia.
    + rewrite hash_at_next by lia. destruct (IH (i + 1) data1) as (data' & ? & ? & ? & ?); [by apply (dynamic_ok_covers d data)|lia|lia|done|].
      exists data'. split; [done|]. split; [done|]. split; [by transitivity data1|done].
Qed.

(** AddHash and AddHashConcurrently leave the same words, when nothing comes
    between, and the hash is found. *)
Lemma Dynamic_AddHash_found h32 data :
  dynamic_ok d data → in_range 32 h32 →
  ∃ data', Dynamic_AddHash d h32 data = Done data' ∧ Dynamic_AddHashConcurrently d h32 data = Done data' ∧ covers data data' ∧
    MayContainHash d h32 data' = Done true.
Proof.
  intros Hok Hh. pose proof (ok_probes d data Hok).
  destruct (add_probes_spec h32 (Z.to_nat (kNumDoubleProbes d)) 0 data) as (data' & ? & ? & ? & ?); [done|done|lia|lia|intros j Hj; lia|].
  exists data'. split; [done|]. split; [done|]. split; [done|]. by apply MayContainHash_present.
Qed.

(** Several keys get the answers they would get one by one. *)
Lemma MayContain_batch_is_map `{Host} keys data :
  Z.of_nat (length keys) ≤ MAX_BATCH_SIZE → MayContain_batch d keys data = map_R (λ key, MayContain d key data) keys.
Proof.
  intros Hl. unfold MayContain_batch. rewrite (proj2 (Z.leb_le _ _)) by done. cbn [require mbind R_bind].
  induction keys as [|key keys IH]; [done|]. cbn [map_R fmap list_fmap]. cbn [length] in Hl. unfold MayContain, MayContainHash at 1. cbn [fst snd].
  by rewrite IH by lia.
Qed.
End one_thread.

(** A schedule of threads, run as the steps say. *)
Fixpoint run_schedule (d : DynamicBloom) (schedule : list nat) (ts : list (Z * activity)) (data : list Z) : R (list (Z * activity) * list Z) :=
  match schedule with
  | [] => Done (ts, data)
  | n :: schedule' =>
      '(h32, a) ← checked OutOfBounds (ts !! n);
      '(a', data) ← access d h32 a data;
      run_schedule d schedule' (<[n := (h32, a')]> ts) data
  end.

(** AddHash is not for several threads: when two of them load the same word
    before either stores it, the hash of the first to store is lost. *)
Theorem plain_adds_lose_a_hash :
  ∃ d data h1 h2 ts data',
    new_DynamicBloom (H := {| NDEBUG := false |}) 256 2 4096 = Done (d, data) ∧
    run_schedule d [0; 1; 0; 1]%nat [(h1, PlainLoad 0 (expand h1)); (h2, PlainLoad 0 (expand h2))] data = Done (ts, data') ∧
    ts = [(h1, Added); (h2, Added)] ∧ MayContainHash d h1 data' = Done false ∧ MayContainHash d h2 data' = Done true.
Proof.
  eexists _, _, 7, 11, _, _. split; [by vm_compute|]. split; [vm_compute; reflexivity|]. split; [done|]. split; by vm_compute.
Qed.

Lemma new_DynamicBloom_in_bounds_witness :
  ∃ d data sz block_bytes, Dynamic_sizes (H := {| NDEBUG := false |}) 1000 6 = Done (sz, block_bytes, kLen d, kNumDoubleProbes d) ∧
    new_DynamicBloom (H := {| NDEBUG := false |}) 1000 6 4100 = Done (d, data) ∧ dynamic_ok d data ∧ 6 = 2 * kNumDoubleProbes d ∧ 1000 ≤ 64 * kLen d ∧
    4100 ≤ data_ d ∧ data_ d mod block_bytes = 0 ∧ block_bytes mod 8 = 0 ∧ data_ d + 8 * Z.of_nat (length data) ≤ 4100 + sz ∧ ∀ v, v ∈ data → v = 0.
Proof. apply (new_DynamicBloom_in_bounds (H := {| NDEBUG := false |}) 1000 6 4100); [|lia..]. do 2 right. left. Defined.

Lemma concurrent_adds_are_found_witness :
  ∃ d data, new_DynamicBloom (H := {| NDEBUG := false |}) 1000 6 4100 = Done (d, data) ∧
    ∀ s, rtc (step d) (mkSystem data [] []) s →
      (∀ h32, h32 ∈ added s → MayContainHash d h32 (memory s) = Done true) ∧
      (∀ t may_match, t ∈ threads s → expected t = true → act t = Answer may_match → may_match = true) ∧
      (∀ t, t ∈ threads s → finished (act t) = false →
         ∃ act' data', access d (hash32 t) (act t) (memory s) = Done (act', data') ∧
           0 ≤ accesses_left d act' < accesses_left d (act t) ∧ accesses_left d (act t) ≤ 6).
Proof. apply (concurrent_adds_are_found (H := {| NDEBUG := false |}) 1000 6 4100); [|lia..]. do 2 right. left. Defined.
