(* ===== verification/Random.v ===== *)
(** * The pseudo-random numbers of the skip list (util/random.h)

    The class Random. The generators on top of std::mt19937 are the standard
    library's. *)
From S2P Require Import Prelude Result.

Definition Random_M : Z := 2147483647. (* 2^31-1 *)
Definition Random_A : Z := 16807.
Definition kMaxNext : Z := Random_M.

(** The state is [seed_]. *)
Definition GoodSeed (s : Z) : Z := if negb (s .& Random_M =? 0) then s .& Random_M else 1.
Definition new_Random (s : Z) : Z := GoodSeed s.

(** The value returned is the new seed. *)
Definition Random_Next (seed_ : Z) : Z :=
  let product := u64 (seed_ * Random_A) in
  let seed_ := u32 ((product >> 31) + (product .& Random_M)) in
  if Random_M <? seed_ then u32 (seed_ - Random_M) else seed_.

(** A remainder by zero is undefined; [n] becomes unsigned. *)
Definition Uniform (n seed_ : Z) : R (Z * Z) :=
  let seed_ := Random_Next seed_ in
  _ ← require Undefined (negb (u32 n =? 0)); Done (seed_ mod u32 n, seed_).
Definition OneIn (n seed_ : Z) : R (bool * Z) := '(u, seed_) ← Uniform n seed_; Done (u =? 0, seed_).
Definition OneInOpt (n seed_ : Z) : R (bool * Z) := if 0 <? n then OneIn n seed_ else Done (false, seed_).
Definition PercentTrue (percentage seed_ : Z) : R (bool * Z) := '(u, seed_) ← Uniform 100 seed_; Done (to_signed 32 u <? percentage, seed_).
(** [1 << k] is undefined from 31 bits on. *)
Definition Skewed (max_log seed_ : Z) : R (Z * Z) :=
  '(k, seed_) ← Uniform (max_log + 1) seed_;
  _ ← require Undefined (k <? 31);
  Uniform (1 << k) seed_.

(** [x mod Random_M] from the two halves of [x]. *)
Lemma Random_Next_reduces s : 0 ≤ s ≤ Random_M → ∃ r, Random_Next s = r ∧ 0 ≤ r ≤ Random_M ∧ (Random_M | s * Random_A - r).
Proof.
  intros Hs. unfold Random_Next, Random_M, Random_A in *. rewrite (wrap_small 64) by (unfold in_range; lia).
  set (p := s * 16807) in *. assert (p .& 2147483647 = p mod 2 ^ 31) as -> by (change 2147483647 with (Z.ones 31); by apply Z.land_ones).
  rewrite Z.shiftr_div_pow2 by lia.
  pose proof (Z.div_mod p (2 ^ 31)) as Hdm. pose proof (Z.mod_pos_bound p (2 ^ 31) ltac:(lia)) as Hm.
  assert (0 ≤ p / 2 ^ 31 ≤ 16807) as Hd.
  { split; [apply Z.div_pos; lia|]. apply Z.div_le_upper_bound; lia. }
  rewrite (wrap_small 32) by (unfold in_range; lia). change (2 ^ 31) with 2147483648 in *.
  destruct (Z.ltb_spec 2147483647 (p / 2147483648 + p mod 2147483648)).
  - rewrite wrap_small by (unfold in_range; lia). eexists. split; [reflexivity|]. split; [lia|]. exists (p / 2147483648 + 1). lia.
  - eexists. split; [reflexivity|]. split; [lia|]. exists (p / 2147483648). lia.
Qed.

(** C37. Next multiplies by 16807 modulo 2^31 - 1, and from a seed between 1 and
    2^31 - 2 it returns another such number, so that the generator never gets
    stuck at one of the two values its comment excludes. *)
Theorem Random_Next_keeps_range s : 1 ≤ s < Random_M → Random_Next s = s * Random_A mod Random_M ∧ 1 ≤ Random_Next s < Random_M.
Proof.
  intros Hs. destruct (Random_Next_reduces s ltac:(lia)) as (r & -> & Hr & Hd).
  assert (Z.gcd Random_M Random_A = 1) as Hg by reflexivity.
  assert (¬ (Random_M | r)) as Hn.
  { intros Hdr. assert (Random_M | Random_A * s) as Hsa by (rewrite (Z.mul_comm Random_A); replace (s * Random_A) with (s * Random_A - r + r) by lia; by apply Z.divide_add_r).
    apply (Z.gauss _ _ _ Hsa) in Hg. apply Z.divide_pos_le in Hg; lia. }
  assert (1 ≤ r < Random_M) as Hr'.
  { split; [destruct (decide (r = 0)) as [->|]; [by destruct Hn; exists 0|lia]|]. destruct (decide (r = Random_M)) as [->|]; [by destruct Hn; exists 1|lia]. }
  split; [|done]. destruct Hd as [q Hq]. apply Z.mod_unique with (q := q); lia.
Qed.
Lemma Random_Next_keeps_range_witness : Random_Next 42 = 42 * Random_A mod Random_M ∧ 1 ≤ Random_Next 42 < Random_M.
Proof. apply (Random_Next_keeps_range 42). unfold Random_M. lia. Defined.

(** GoodSeed lets one of them through: from this seed every number is the same. *)
Lemma GoodSeed_stuck n : Nat.iter n Random_Next (new_Random (2 ^ 32 - 1)) = kMaxNext.
Proof. change (new_Random (2 ^ 32 - 1)) with kMaxNext. induction n as [|n IH]; [done|]. change (Random_Next (Nat.iter n Random_Next kMaxNext) = kMaxNext). by rewrite IH. Qed.
Lemma GoodSeed_range s : in_range 32 s → 1 ≤ GoodSeed s ≤ Random_M.
Proof.
  intros Hs. unfold GoodSeed. change Random_M with (Z.ones 31). rewrite Z.land_ones by lia. pose proof (Z.mod_pos_bound s (2 ^ 31)).
  destruct (Z.eqb_spec (s mod 2 ^ 31) 0); cbn [negb]; change (Z.ones 31) with (2 ^ 31 - 1); lia.
Qed.
