(* ===== verification/KeySkipList.v ===== *)
(** * The skip list of any key type (memtable/skiplist.h)

    SkipList<Key, Comparator>, which the write batch's index uses. Nodes are
    numbered in the order of their allocation, the head first. The comparator
    is an argument of every operation that compares, since what it reads (the
    write batch, the index entries) is not the list's; it may fault. Memory
    order has no effect here: the model runs one operation after the other. *)
From S2P Require Import Prelude Result Random.

Notation node := nat (only parsing).

(** [keys]: of the nodes after the head. [next_]: by level and node, for the
    levels the node has; [None] when it is not yet initialised. *)
Record SkipList {Key : Type} := mkSkipList {
  kMaxHeight_ : nat;
  kBranching_ : Z;
  kScaledInverseBranching_ : Z;
  keys : list Key;
  next_ : gmap (nat * node) (option (option node));
  max_height_ : nat;
  prev_ : list node;
  prev_height_ : nat;
}.
Arguments SkipList : clear implicits.

Definition head_ : node := 0.

Section list.
Context {Key : Type} `{Build}.
#[local] Abbreviation SkipList := (SkipList Key).
Implicit Types l : SkipList.

Definition set_next (m : gmap (nat * node) (option (option node))) l : SkipList :=
  mkSkipList Key (kMaxHeight_ l) (kBranching_ l) (kScaledInverseBranching_ l) (keys l) m (max_height_ l) (prev_ l) (prev_height_ l).
Definition set_max_height (h : nat) l : SkipList :=
  mkSkipList Key (kMaxHeight_ l) (kBranching_ l) (kScaledInverseBranching_ l) (keys l) (next_ l) h (prev_ l) (prev_height_ l).
Definition set_prev (p : list node) l : SkipList :=
  mkSkipList Key (kMaxHeight_ l) (kBranching_ l) (kScaledInverseBranching_ l) (keys l) (next_ l) (max_height_ l) p (prev_height_ l).
Definition set_prev_height (h : nat) l : SkipList :=
  mkSkipList Key (kMaxHeight_ l) (kBranching_ l) (kScaledInverseBranching_ l) (keys l) (next_ l) (max_height_ l) (prev_ l) h.

(** ** Nodes *)

(** The head has a key that is never to be looked at. *)
Definition key_of l (x : node) : R Key := match x with O => Fault Undefined | S i => checked OutOfBounds (keys l !! i) end.
Definition Node_Next l (x : node) (n : nat) : R (option node) :=
  c ← checked OutOfBounds (next_ l !! (n, x)); checked Undefined c.
Definition Node_SetNext (x : node) (n : nat) (v : option node) l : R SkipList :=
  _ ← checked OutOfBounds (next_ l !! (n, x)); Done (set_next (<[(n, x) := Some v]> (next_ l)) l).

(** The links of a node of the height, at the number [x]. *)
Fixpoint allocate (x : node) (height : nat) (m : gmap (nat * node) (option (option node))) : gmap (nat * node) (option (option node)) :=
  match height with O => m | S h => <[(h, x) := None]> (allocate x h m) end.
Definition NewNode (key : Key) (height : nat) l : node * SkipList :=
  let x := S (length (keys l)) in
  (x, mkSkipList Key (kMaxHeight_ l) (kBranching_ l) (kScaledInverseBranching_ l) (keys l ++ [key]) (allocate x height (next_ l))
        (max_height_ l) (prev_ l) (prev_height_ l)).

Definition GetMaxHeight l : nat := max_height_ l.

(** [a\[i\]] and [a\[i\] = x]. *)
Definition at_index {A} (a : list A) (i : nat) : R A := checked OutOfBounds (a !! i).
Definition store_at {A} (i : nat) (x : A) (a : list A) : R (list A) :=
  _ ← require OutOfBounds (bool_decide (i < length a)%nat); Done (<[i := x]> a).

(** ** Construction *)

Fixpoint null_links (i n : nat) l : R SkipList :=
  match n with O => Done l | S n' => l ← Node_SetNext head_ i None l; null_links (S i) n' l end.
Definition new_SkipList (max_height branching_factor : Z) : R SkipList :=
  let kMaxHeight := u16 max_height in
  let kBranching := u16 branching_factor in
  _ ← require Undefined (negb (kBranching =? 0));
  let scaled := u32 ((kMaxNext + 1) / kBranching) in
  _ ← assert ((0 <? max_height) && (kMaxHeight =? max_height));
  _ ← assert ((0 <? branching_factor) && (kBranching =? branching_factor));
  _ ← assert (0 <? scaled);
  null_links 0 (Z.to_nat kMaxHeight)
    (mkSkipList Key (Z.to_nat kMaxHeight) kBranching scaled [] (allocate head_ (Z.to_nat max_height) ∅) 1
       (replicate (Z.to_nat kMaxHeight) head_) 1).

Fixpoint random_height (fuel : nat) (limit : nat) (scaled seed_ : Z) (height : nat) : nat * Z :=
  if (height <? limit)%nat then
    match fuel with
    | O => (height, seed_)
    | S fuel' =>
        let seed_ := Random_Next seed_ in
        if seed_ <? scaled then random_height fuel' limit scaled seed_ (S height) else (height, seed_)
    end
  else (height, seed_).
Definition RandomHeight (seed_ : Z) l : R (nat * Z) :=
  let '(height, seed_) := random_height (kMaxHeight_ l) (kMaxHeight_ l) (kScaledInverseBranching_ l) seed_ 1 in
  _ ← assert (0 <? height)%nat;
  _ ← assert (height <=? kMaxHeight_ l)%nat;
  Done (height, seed_).

(** ** Searches *)

Variable compare_ : Key → Key → R Z.

Definition Equal (a b : Key) : R bool := c ← compare_ a b; Done (c =? 0).
Definition LessThan (a b : Key) : R bool := c ← compare_ a b; Done (c <? 0).
Definition KeyIsAfterNode l (key : Key) (n : option node) : R bool :=
  match n with None => Done false | Some y => ky ← key_of l y; c ← compare_ ky key; Done (c <? 0) end.

(** The two assertions of a search. *)
Definition in_order l (x : node) (next : option node) : R bool :=
  if bool_decide (x = head_) then Done true
  else match next with None => Done true | Some y => ky ← key_of l y; KeyIsAfterNode l ky (Some x) end.
Definition not_overshot l (key : Key) (x : node) : R bool :=
  if bool_decide (x = head_) then Done true else KeyIsAfterNode l key (Some x).

(** Enough for every search: each round moves on in the list or down a level. *)
Definition search_fuel l : nat := length (keys l) + max_height_ l + 1.

Fixpoint find_ge (fuel : nat) l (key : Key) (x : node) (level : nat) (last_bigger : option node) : R (option node) :=
  match fuel with
  | O => Fault OutOfFuel
  | S fuel' =>
      next ← Node_Next l x level;
      _ ← debug_assert (in_order l x next);
      _ ← debug_assert (not_overshot l key x);
      cmp ← match next with
            | None => Done 1
            | Some y => if bool_decide (next = last_bigger) then Done 1 else ky ← key_of l y; compare_ ky key
            end;
      if (cmp =? 0) || (0 <? cmp) && (level =? 0)%nat then Done next
      else match next with
           | Some y => if cmp <? 0 then find_ge fuel' l key y level last_bigger else find_ge fuel' l key x (level - 1) next
           | None => find_ge fuel' l key x (level - 1) next
           end
  end.
Definition FindGreaterOrEqual l (key : Key) : R (option node) :=
  find_ge (search_fuel l) l key head_ (GetMaxHeight l - 1) None.

(** [prev]: the array that is filled, if there is one. *)
Fixpoint find_lt (fuel : nat) l (key : Key) (x : node) (level : nat) (last_not_after : option node) (prev : option (list node))
    : R (node * option (list node)) :=
  match fuel with
  | O => Fault OutOfFuel
  | S fuel' =>
      next ← Node_Next l x level;
      _ ← debug_assert (in_order l x next);
      _ ← debug_assert (not_overshot l key x);
      after ← (if bool_decide (next = last_not_after) then Done false else KeyIsAfterNode l key next);
      match (if after : bool then next else None) with
      | Some y => find_lt fuel' l key y level last_not_after prev
      | None =>
          prev ← match prev with None => Done None | Some a => a ← store_at level x a; Done (Some a) end;
          if (level =? 0)%nat then Done (x, prev) else find_lt fuel' l key x (level - 1) next prev
      end
  end.
Definition FindLessThan l (key : Key) (prev : option (list node)) : R (node * option (list node)) :=
  find_lt (search_fuel l) l key head_ (GetMaxHeight l - 1) None prev.

Fixpoint find_last (fuel : nat) l (x : node) (level : nat) : R node :=
  match fuel with
  | O => Fault OutOfFuel
  | S fuel' =>
      next ← Node_Next l x level;
      match next with
      | None => if (level =? 0)%nat then Done x else find_last fuel' l x (level - 1)
      | Some y => find_last fuel' l y level
      end
  end.
Definition FindLast l : R node := find_last (search_fuel l) l head_ (GetMaxHeight l - 1).

Fixpoint estimate (fuel : nat) l (key : Key) (x : node) (level : nat) (count : Z) : R Z :=
  match fuel with
  | O => Fault OutOfFuel
  | S fuel' =>
      _ ← debug_assert (not_overshot l key x);
      next ← Node_Next l x level;
      after ← KeyIsAfterNode l key next;
      match (if after : bool then next else None) with
      | Some y => estimate fuel' l key y level (u64 (count + 1))
      | None => if (level =? 0)%nat then Done count else estimate fuel' l key x (level - 1) (u64 (count * kBranching_ l))
      end
  end.
Definition EstimateCount l (key : Key) : R Z := estimate (search_fuel l) l key head_ (GetMaxHeight l - 1) 0.

Definition Contains l (key : Key) : R bool :=
  x ← FindGreaterOrEqual l key;
  match x with Some y => ky ← key_of l y; Equal key ky | None => Done false end.

(** ** Insert *)

(** [prev_\[i\] = x] for the levels from [i], [n] of them. *)
Fixpoint fill (i n : nat) (x : node) (a : list node) : R (list node) :=
  match n with O => Done a | S n' => a ← store_at i x a; fill (S i) n' x a end.
(** [x]'s links at the levels from [i], [n] of them. *)
Fixpoint link (x : node) (i n : nat) l : R SkipList :=
  match n with
  | O => Done l
  | S n' =>
      p ← at_index (prev_ l) i;
      after ← Node_Next l p i;
      l ← Node_SetNext x i after l;
      l ← Node_SetNext p i (Some x) l;
      link x (S i) n' l
  end.

(** Whether the key belongs just after the last one inserted. *)
Definition sequential l (key : Key) : R bool :=
  p ← at_index (prev_ l) 0;
  next ← Node_Next l p 0;
  beyond ← KeyIsAfterNode l key next;
  if beyond : bool then Done false else if bool_decide (p = head_) then Done true else KeyIsAfterNode l key (Some p).
Definition not_in_list l (key : Key) : R bool :=
  p ← at_index (prev_ l) 0;
  next ← Node_Next l p 0;
  match next with None => Done true | Some y => ky ← key_of l y; e ← Equal key ky; Done (negb e) end.

(** The predecessors of the key on every level. *)
Definition find_predecessors l (key : Key) : R SkipList :=
  fast ← sequential l key;
  if fast : bool then
    p ← at_index (prev_ l) 0;
    _ ← assert (negb (bool_decide (p = head_)) || (prev_height_ l =? 1)%nat && (GetMaxHeight l =? 1)%nat);
    a ← fill 1 (prev_height_ l - 1) p (prev_ l);
    Done (set_prev a l)
  else
    r ← FindLessThan l key (Some (prev_ l));
    Done (set_prev (default (prev_ l) (snd r)) l).

Definition raise_height (height : nat) l : R SkipList :=
  if (GetMaxHeight l <? height)%nat then
    a ← fill (GetMaxHeight l) (height - GetMaxHeight l) head_ (prev_ l);
    Done (set_max_height height (set_prev a l))
  else Done l.

Definition Insert (seed_ : Z) (key : Key) l : R (SkipList * Z) :=
  l ← find_predecessors l key;
  _ ← debug_assert (not_in_list l key);
  r ← RandomHeight seed_ l;
  let height := fst r in
  l ← raise_height height l;
  let '(x, l) := NewNode key height l in
  l ← link x 0 height l;
  a ← store_at 0 x (prev_ l);
  Done (set_prev_height height (set_prev a l), snd r).

(** ** Iterators *)

(** An iterator is its [node_]; the list it is over is an argument. *)
Definition It_Valid (node_ : option node) : bool := negb (bool_decide (node_ = None)).
Definition It_node (node_ : option node) : R node := _ ← assert (It_Valid node_); checked Undefined node_.
Definition It_key l (node_ : option node) : R Key := x ← It_node node_; key_of l x.
Definition It_Next l (node_ : option node) : R (option node) := x ← It_node node_; Node_Next l x 0.
Definition none_if_head (x : node) : option node := if bool_decide (x = head_) then None else Some x.
Definition It_Prev l (node_ : option node) : R (option node) :=
  x ← It_node node_; k ← key_of l x; r ← FindLessThan l k None; Done (none_if_head (fst r)).
Definition It_Seek l (target : Key) : R (option node) := FindGreaterOrEqual l target.
Definition It_SeekToFirst l : R (option node) := Node_Next l head_ 0.
Definition It_SeekToLast l : R (option node) := x ← FindLast l; Done (none_if_head x).
Fixpoint back_to (fuel : nat) l (target : Key) (node_ : option node) : R (option node) :=
  if It_Valid node_ then
    k ← It_key l node_;
    less ← LessThan target k;
    if less : bool then
      match fuel with O => Fault OutOfFuel | S fuel' => n ← It_Prev l node_; back_to fuel' l target n end
    else Done node_
  else Done node_.
Definition It_SeekForPrev l (target : Key) : R (option node) :=
  n ← It_Seek l target;
  n ← (if It_Valid n then Done n else It_SeekToLast l);
  back_to (length (keys l)) l target n.
End list.
