(* ===== verification/KeySkipListCorrect.v ===== *)
(** * The skip list of any key type: theorems

    Between calls the list is a sequence of keys: each level is a chain through
    the nodes that reach it. A search finds where its target cuts the sequence,
    an insertion puts the key there, and an iterator is a place in the
    sequence. What orders the keys is the comparator of the call. *)
From stdpp Require Import sorting.
From S2P Require Import Prelude Result Random KeySkipList.

Section correct.
Context {Key : Type} `{Build}.
#[local] Abbreviation SkipList := (SkipList Key).
Implicit Types (l : SkipList) (ns : list node) (ks : list Key).

(** ** Levels *)

(** The node before place [p] of the sequence, and the last one of those that
    reaches a level. *)
Definition node_before ns (p : nat) : node := match p with O => head_ | S j => default head_ (ns !! j) end.
Definition level (ht : node → nat) (i : nat) ns : list node := filter (λ x, (i < ht x)%nat) ns.
Definition last_before (ht : node → nat) ns (i p : nat) : node := default head_ (last (level ht i (take p ns))).

Fixpoint chain l (i : nat) (x : node) (c : list node) : Prop :=
  match c with
  | [] => Node_Next l x i = Done None
  | y :: c' => Node_Next l x i = Done (Some y) ∧ chain l i y c'
  end.

Record prev_ok (ht : node → nat) ns l (p : nat) : Prop := {
  po_range : (p ≤ length ns)%nat;
  po_first : prev_ l !! 0%nat = Some (node_before ns p);
  po_head : p = 0%nat → prev_height_ l = 1%nat ∧ max_height_ l = 1%nat;
  po_height : ∀ j x, p = S j → ns !! j = Some x → prev_height_ l = ht x;
  po_rest : ∀ i, (1 ≤ i < max_height_ l)%nat → prev_ l !! i = Some (last_before ht ns i (p - 1));
}.

Record sl_ok ns (ht : node → nat) ks l : Prop := {
  so_chain : ∀ i, (i < kMaxHeight_ l)%nat → chain l i head_ (level ht i ns);
  so_nodes : ns ≡ₚ seq 1 (length (keys l));
  so_keys : Forall2 (λ x k, key_of l x = Done k) ns ks;
  so_height : ∀ x, x ∈ ns → (1 ≤ ht x ≤ max_height_ l)%nat;
  so_max : (1 ≤ max_height_ l ≤ kMaxHeight_ l)%nat;
  so_length : length (prev_ l) = kMaxHeight_ l;
  so_prev : ∃ p, prev_ok ht ns l p;
}.

Lemma so_NoDup ns ht ks l : sl_ok ns ht ks l → NoDup ns.
Proof. intros Hok. rewrite (so_nodes _ _ _ _ Hok). apply NoDup_seq. Qed.
Lemma so_not_head ns ht ks l x : sl_ok ns ht ks l → x ∈ ns → x ≠ head_.
Proof. intros Hok. rewrite (so_nodes _ _ _ _ Hok), elem_of_seq. unfold head_. lia. Qed.
Lemma so_size ns ht ks l : sl_ok ns ht ks l → length (keys l) = length ns ∧ length ks = length ns.
Proof.
  intros Hok. split; [by rewrite (so_nodes _ _ _ _ Hok), length_seq|]. symmetry. by eapply Forall2_length, so_keys.
Qed.
Lemma so_key ns ht ks l j x : sl_ok ns ht ks l → ns !! j = Some x → ∃ k, ks !! j = Some k ∧ key_of l x = Done k.
Proof. intros Hok Hj. by destruct (Forall2_lookup_l _ _ _ _ _ (so_keys _ _ _ _ Hok) Hj) as (k & ? & ?); exists k. Qed.

(** ** Walking a level *)

Lemma chain_app l i x c1 c2 : chain l i x (c1 ++ c2) → chain l i (default x (last c1)) c2.
Proof.
  revert x. induction c1 as [|y c1 IH]; intros x; cbn [app chain]; [done|]. intros [_ Hc]. specialize (IH y Hc).
  rewrite last_cons. by destruct (last c1).
Qed.

Lemma level_nil ht i ns : (∀ x, x ∈ ns → (ht x ≤ i)%nat) → level ht i ns = [].
Proof.
  intros Hn. unfold level. induction ns as [|x ns IH]; [done|]. rewrite filter_cons_False; [|specialize (Hn x ltac:(by left)); lia].
  apply IH. intros y Hy. apply Hn. by right.
Qed.
Lemma level_app ht i ns1 ns2 : level ht i (ns1 ++ ns2) = level ht i ns1 ++ level ht i ns2.
Proof. apply filter_app. Qed.
Lemma level_split ht i ns p : level ht i ns = level ht i (take p ns) ++ level ht i (drop p ns).
Proof. by rewrite <- level_app, take_drop. Qed.
Lemma elem_of_level ht i ns x : x ∈ level ht i ns ↔ (i < ht x)%nat ∧ x ∈ ns.
Proof. unfold level. by rewrite list_elem_of_filter. Qed.

(** At place [p] on a level: the node before [p], if it reaches the level. *)
Definition on_level (ht : node → nat) ns (i p : nat) : Prop :=
  (p ≤ length ns)%nat ∧ ∀ j x, p = S j → ns !! j = Some x → (i < ht x)%nat.

Lemma last_before_self ht ns i p : on_level ht ns i p → last_before ht ns i p = node_before ns p.
Proof.
  intros [Hp Hon]. destruct p as [|j]; [done|]. destruct (lookup_lt_is_Some_2 ns j) as [x Hx]; [lia|].
  unfold last_before, level. cbn [node_before]. rewrite (take_S_r _ _ x Hx), filter_app, filter_cons_True by by eapply Hon.
  by rewrite filter_nil, last_snoc, Hx.
Qed.
Lemma last_before_skip ht ns i p k :
  (p ≤ k)%nat → (∀ j x, (p ≤ j < k)%nat → ns !! j = Some x → (ht x ≤ i)%nat) → last_before ht ns i k = last_before ht ns i p.
Proof.
  intros Hle Hskip. unfold last_before. replace (take k ns) with (take p ns ++ take (k - p) (drop p ns)).
  2: { rewrite take_take_drop. f_equal. lia. }
  rewrite level_app, (level_nil ht i (take (k - p) (drop p ns))), app_nil_r; [done|].
  intros x [j Hj]%list_elem_of_lookup_1. apply lookup_take_Some in Hj as [Hj Hlt]. rewrite lookup_drop in Hj. eapply Hskip; [|done]. lia.
Qed.

(** The first node from place [p] on that reaches the level. *)
Lemma level_first ht i ns p :
  match level ht i (drop p ns) with
  | [] => ∀ j x, (p ≤ j)%nat → ns !! j = Some x → (ht x ≤ i)%nat
  | y :: _ => ∃ q, (p ≤ q)%nat ∧ ns !! q = Some y ∧ (i < ht y)%nat ∧ ∀ j x, (p ≤ j < q)%nat → ns !! j = Some x → (ht x ≤ i)%nat
  end.
Proof.
  remember (drop p ns) as ds eqn:Hds. revert p Hds. induction ds as [|d ds IH]; intros p Hds.
  - intros j x Hj Hx. apply lookup_lt_Some in Hx. pose proof (f_equal length Hds) as E. rewrite length_drop in E. cbn in E. lia.
  - assert (ns !! p = Some d) as Hp by (rewrite <- (Nat.add_0_r p), <- lookup_drop, <- Hds; done).
    assert (ds = drop (S p) ns) as Hds' by (rewrite (drop_S ns d p Hp) in Hds; by injection Hds).
    specialize (IH (S p) Hds'). unfold level in IH |- *. destruct (decide (i < ht d)%nat) as [Hlt|Hge].
    + rewrite filter_cons_True by done. exists p. split_and!; [done|done|done|]. intros; lia.
    + rewrite filter_cons_False by done. destruct (filter _ ds) as [|y c].
      * intros j x Hj Hx. destruct (decide (j = p)) as [->|]; [rewrite Hp in Hx; injection Hx as <-; lia|]. apply (IH j); [lia|done].
      * destruct IH as (q & ? & ? & ? & Hb). exists q. split_and!; [lia|done|done|]. intros j x Hj Hx.
        destruct (decide (j = p)) as [->|]; [rewrite Hp in Hx; injection Hx as <-; lia|]. apply (Hb j); [lia|done].
Qed.

(** The next node on the level, and what lies between. *)
Lemma next_on_level ns ht ks l i p :
  sl_ok ns ht ks l → (i < kMaxHeight_ l)%nat → on_level ht ns i p →
  (Node_Next l (node_before ns p) i = Done None ∧ ∀ j x, (p ≤ j)%nat → ns !! j = Some x → (ht x ≤ i)%nat) ∨
  ∃ q y, (p ≤ q)%nat ∧ Node_Next l (node_before ns p) i = Done (Some y) ∧ ns !! q = Some y ∧ (i < ht y)%nat ∧
    ∀ j x, (p ≤ j < q)%nat → ns !! j = Some x → (ht x ≤ i)%nat.
Proof.
  intros Hok Hi Hon. pose proof (so_chain _ _ _ _ Hok i Hi) as Hc. rewrite (level_split ht i ns p) in Hc. apply chain_app in Hc.
  change (default head_ (last (level ht i (take p ns)))) with (last_before ht ns i p) in Hc. rewrite (last_before_self _ _ _ _ Hon) in Hc.
  pose proof (level_first ht i ns p) as Hfirst.
  destruct (level ht i (drop p ns)) as [|y c]; [by left|right].
  destruct Hfirst as (q & ? & ? & ? & ?). exists q, y. by destruct Hc as [? _].
Qed.

(** ** Searches *)

Context (compare_ : Key → Key → R Z).

(** Where the target cuts the keys: those before it are less; only the first
    that is not may be equal. *)
Definition cut ks (t : Key) (k : nat) : Prop :=
  (k ≤ length ks)%nat ∧
  ∀ i a, ks !! i = Some a → ∃ c, compare_ a t = Done c ∧ (c < 0 ↔ (i < k)%nat) ∧ (c = 0 → i = k).
Definition ordered ks : Prop :=
  ∀ i j a b, ks !! i = Some a → ks !! j = Some b → ∃ c, compare_ a b = Done c ∧ (c < 0 ↔ (i < j)%nat) ∧ (c = 0 ↔ i = j).
(** Where a target is exceeded. *)
Definition cut_above ks (t : Key) (k : nat) : Prop :=
  (k ≤ length ks)%nat ∧ ∀ i a, ks !! i = Some a → ∃ c, compare_ t a = Done c ∧ (c < 0 ↔ (k ≤ i)%nat).

Lemma ordered_cut ks j a : ordered ks → ks !! j = Some a → cut ks a j.
Proof.
  intros Ho Hj. split; [apply lookup_lt_Some in Hj; lia|]. intros i b Hi. destruct (Ho i j b a Hi Hj) as (c & ? & ? & ?). exists c. split_and!; naive_solver.
Qed.

Section search.
Context {ns : list node} {ht : node → nat} {ks : list Key} {l : SkipList} (Hok : sl_ok ns ht ks l) (Hs : ordered ks).

Lemma cut_at t k j y : cut ks t k → ns !! j = Some y →
  ∃ ky c, key_of l y = Done ky ∧ compare_ ky t = Done c ∧ (c < 0 ↔ (j < k)%nat) ∧ (c = 0 → j = k).
Proof.
  intros [_ Hc] Hj. destruct (so_key _ _ _ _ j y Hok Hj) as (ky & Hky & Ey). destruct (Hc j ky Hky) as (c & ? & ? & ?). by exists ky, c.
Qed.
Lemma after_spec t k j y : cut ks t k → ns !! j = Some y → KeyIsAfterNode compare_ l t (Some y) = Done (bool_decide (j < k)%nat).
Proof.
  intros Hc Hj. destruct (cut_at t k j y Hc Hj) as (ky & c & Ey & Ec & Hlt & _). cbn. rewrite Ey. cbn [mbind R_bind]. rewrite Ec. cbn [mbind R_bind].
  f_equal. apply eq_true_iff_eq. by rewrite Z.ltb_lt, bool_decide_eq_true.
Qed.
Lemma node_before_head p : (p ≤ length ns)%nat → bool_decide (node_before ns p = head_) = (p =? 0)%nat.
Proof.
  intros Hp. destruct p as [|j]; [by apply bool_decide_eq_true_2|]. apply bool_decide_eq_false_2. cbn [node_before].
  destruct (lookup_lt_is_Some_2 ns j) as [x Hx]; [lia|]. rewrite Hx. by eapply so_not_head, list_elem_of_lookup_2.
Qed.

(** The assertions hold at every place before the cut. *)
Lemma search_asserts t k p next :
  cut ks t k → (p ≤ k)%nat → (p ≤ length ns)%nat →
  match next with None => True | Some y => ∃ q, (p ≤ q)%nat ∧ ns !! q = Some y end →
  debug_assert (in_order compare_ l (node_before ns p) next) = Done tt ∧ debug_assert (not_overshot compare_ l t (node_before ns p)) = Done tt.
Proof.
  intros Hc Hpk Hp Hnext. split; apply debug_assert_true; [unfold in_order|unfold not_overshot]; rewrite (node_before_head p Hp);
    destruct p as [|j]; try done; cbn [Nat.eqb node_before]; destruct (lookup_lt_is_Some_2 ns j) as [x Hx]; [lia| |lia|];
    rewrite Hx; change (default head_ (Some x)) with x.
  - destruct next as [y|]; [|done]. destruct Hnext as (q & Hq & Hy).
    destruct (so_key _ _ _ _ j x Hok Hx) as (kx & Hkx & Ex), (so_key _ _ _ _ q y Hok Hy) as (ky & Hky & Ey).
    rewrite Ey. cbn [mbind R_bind KeyIsAfterNode]. rewrite Ex. cbn [mbind R_bind].
    destruct (Hs j q kx ky Hkx Hky) as (c & -> & Hlt & _). cbn. by rewrite (proj2 (Z.ltb_lt _ _) (proj2 Hlt ltac:(lia))).
  - rewrite (after_spec t k j x Hc Hx). by rewrite bool_decide_eq_true_2 by lia.
Qed.

Lemma on_level_down i p : on_level ht ns (S i) p → on_level ht ns i p.
Proof. intros [? Hon]. split; [done|]. intros j x Hj Hx. specialize (Hon j x Hj Hx). lia. Qed.
Lemma on_level_at i q y : ns !! q = Some y → (i < ht y)%nat → on_level ht ns i (S q).
Proof. intros Hq Hlt. split; [by eapply lookup_lt_Some|]. intros j x [= <-] Hx. rewrite Hq in Hx. by injection Hx as <-. Qed.
Lemma on_level_head i : on_level ht ns i 0.
Proof. split; [lia|]. by intros j x [=]. Qed.
Lemma node_before_S q y : ns !! q = Some y → node_before ns (S q) = y.
Proof. intros Hq. cbn. by rewrite Hq. Qed.

Lemma find_ge_spec fuel t k p i last_bigger :
  cut ks t k → (p ≤ k)%nat → on_level ht ns i p → (i < max_height_ l)%nat → (length ns - p + i < fuel)%nat →
  (∀ z, last_bigger = Some z → ∃ q, ns !! q = Some z ∧ (k ≤ q)%nat) →
  find_ge compare_ fuel l t (node_before ns p) i last_bigger = Done (ns !! k).
Proof.
  intros Hc. revert p i last_bigger. pose proof (so_max _ _ _ _ Hok) as Hmax.
  induction fuel as [|fuel IH]; intros p i lb Hpk Hon Hi Hfuel Hlb; [lia|]. cbn [find_ge].
  destruct (next_on_level ns ht ks l i p Hok ltac:(lia) Hon) as [[-> Hnone]|(q & y & Hq & -> & Hy & Hlt & Hskip)]; cbn [mbind R_bind].
  - destruct (search_asserts t k p None Hc Hpk (proj1 Hon) Logic.I) as [-> ->]. cbn [mbind R_bind].
    destruct i as [|i]; cbn [Nat.eqb andb orb Z.eqb Z.ltb Z.compare].
    + symmetry. f_equal. apply lookup_ge_None_2. destruct (decide (length ns ≤ k)%nat) as [|Hk]; [done|].
      destruct (lookup_lt_is_Some_2 ns k) as [x Hx]; [lia|]. pose proof (Hnone k x Hpk Hx).
      pose proof (so_height _ _ _ _ Hok x (list_elem_of_lookup_2 _ _ _ Hx)). lia.
    + rewrite Nat.sub_1_r. cbn [Nat.pred]. apply IH; [done|by apply on_level_down|lia|lia|done].
  - destruct (search_asserts t k p (Some y) Hc Hpk (proj1 Hon)) as [-> ->]; [by exists q|]. cbn [mbind R_bind].
    destruct (cut_at t k q y Hc Hy) as (ky & c & Ey & Ec & Hck & Hc0).
    assert (∃ c', (if bool_decide (Some y = lb) then Done 1 else ky ← key_of l y; compare_ ky t) = Done c' ∧
      (c' < 0 ↔ (q < k)%nat) ∧ (c' = 0 → q = k)) as (c' & -> & Hck' & Hc0').
    { case_bool_decide as E; [|by rewrite Ey; exists c].
      destruct (Hlb y (eq_sym E)) as (q' & Hq' & Hle). exists 1.
      pose proof (NoDup_lookup ns q q' y (so_NoDup _ _ _ _ Hok) Hy Hq') as ->. split_and!; [done|lia|lia]. }
    cbn [mbind R_bind]. destruct (Z.eqb_spec c' 0) as [E|Hne]; cbn [orb].
    + rewrite <- (Hc0' E). by rewrite Hy.
    + destruct (Z.ltb_spec 0 c') as [Hpos|Hneg]; cbn [andb].
      * replace (c' <? 0) with false by (symmetry; apply Z.ltb_ge; lia). destruct i as [|i]; cbn [Nat.eqb].
        -- assert (q = p) as ->.
           { destruct (decide (q = p)) as [|Hne']; [done|]. destruct (lookup_lt_is_Some_2 ns p) as [x Hx]; [apply lookup_lt_Some in Hy; lia|].
             pose proof (Hskip p x ltac:(lia) Hx). pose proof (so_height _ _ _ _ Hok x (list_elem_of_lookup_2 _ _ _ Hx)). lia. }
           assert (p = k) as <- by lia. by rewrite Hy.
        -- rewrite Nat.sub_1_r. cbn [Nat.pred]. apply IH; [done|by apply on_level_down|lia|lia|]. intros z [= <-]. exists q. split; [done|lia].
      * rewrite (proj2 (Z.ltb_lt c' 0)) by lia. rewrite <- (node_before_S q y Hy). apply lookup_lt_Some in Hy as Hlen.
        apply IH; [lia|by apply (on_level_at i q y)|done|lia|done].
Qed.

Lemma FindGreaterOrEqual_spec t k : cut ks t k → FindGreaterOrEqual compare_ l t = Done (ns !! k).
Proof.
  intros Hc. pose proof (so_max _ _ _ _ Hok). pose proof (so_size _ _ _ _ Hok) as [E _].
  apply (find_ge_spec (search_fuel l) t k 0); [done|lia|apply on_level_head|unfold GetMaxHeight; lia|unfold search_fuel, GetMaxHeight; lia|done].
Qed.

(** A search for the predecessors fills in the last node before the cut, on
    every level from [i] down. *)
Definition filled (i k : nat) (prev prev' : option (list node)) : Prop :=
  match prev, prev' with
  | None, None => True
  | Some a, Some a' => length a' = length a ∧ (∀ j, (j ≤ i)%nat → a' !! j = Some (last_before ht ns j k)) ∧
      ∀ j, (i < j)%nat → a' !! j = a !! j
  | _, _ => False
  end.
Definition store_prev (i : nat) (x : node) (prev : option (list node)) : R (option (list node)) :=
  match prev with None => Done None | Some a => a ← store_at i x a; Done (Some a) end.
Definition prev_room (prev : option (list node)) : Prop := match prev with None => True | Some a => length a = kMaxHeight_ l end.

Lemma store_prev_spec i x prev :
  prev_room prev → (i < kMaxHeight_ l)%nat → store_prev i x prev = Done (insert i x <$> prev) ∧ prev_room (insert i x <$> prev).
Proof.
  intros Hr Hi. destruct prev as [a|]; [|done]. cbn in Hr |- *. unfold store_at. rewrite bool_decide_eq_true_2 by lia.
  split; [done|]. by rewrite length_insert.
Qed.
Lemma filled_0 k prev x : prev_room prev → x = last_before ht ns 0 k → filled 0 k prev (insert 0%nat x <$> prev).
Proof.
  intros Hr ->. destruct prev as [a|]; [|done]. cbn in Hr |- *. pose proof (so_max _ _ _ _ Hok). split_and!; [by rewrite length_insert|..].
  - intros j Hj. assert (j = 0)%nat as -> by lia. apply list_lookup_insert_eq. lia.
  - intros j Hj. apply list_lookup_insert_ne. lia.
Qed.
Lemma filled_S i k prev prev' x :
  prev_room prev → (S i < kMaxHeight_ l)%nat → x = last_before ht ns (S i) k → filled i k (insert (S i) x <$> prev) prev' → filled (S i) k prev prev'.
Proof.
  intros Hr Hi ->. destruct prev as [a|], prev' as [a'|]; try done. cbn in Hr |- *. rewrite length_insert. intros (Hlen & Hle & Hgt). split_and!; [done|..].
  - intros j Hj. destruct (decide (j ≤ i)%nat); [by apply Hle|]. assert (j = S i) as -> by lia. rewrite Hgt by lia. apply list_lookup_insert_eq. lia.
  - intros j Hj. rewrite Hgt by lia. apply list_lookup_insert_ne. lia.
Qed.

(** With no node between on level 0 the place is the cut. *)
Lemma level_0_cut k p : (p ≤ k)%nat → (k ≤ length ns)%nat → (∀ j x, (p ≤ j < k)%nat → ns !! j = Some x → (ht x ≤ 0)%nat) → p = k.
Proof.
  intros Hpk Hk Hskip. destruct (decide (p = k)) as [|Hne]; [done|]. destruct (lookup_lt_is_Some_2 ns p) as [x Hx]; [lia|].
  pose proof (Hskip p x ltac:(lia) Hx). pose proof (so_height _ _ _ _ Hok x (list_elem_of_lookup_2 _ _ _ Hx)). lia.
Qed.

Lemma find_lt_spec fuel t k p i lna prev :
  cut ks t k → (p ≤ k)%nat → on_level ht ns i p → (i < max_height_ l)%nat → (length ns - p + i < fuel)%nat →
  (∀ z, lna = Some z → ∃ q, ns !! q = Some z ∧ (k ≤ q)%nat) → prev_room prev →
  ∃ prev', find_lt compare_ fuel l t (node_before ns p) i lna prev = Done (node_before ns k, prev') ∧ filled i k prev prev'.
Proof.
  intros Hc. revert p i lna prev. pose proof (so_max _ _ _ _ Hok) as Hmax. pose proof (so_size _ _ _ _ Hok) as [_ Elen].
  induction fuel as [|fuel IH]; intros p i lna prev Hpk Hon Hi Hfuel Hlna Hprev; [lia|]. cbn [find_lt].
  assert (∀ next, (∀ z, next = Some z → ∃ q, ns !! q = Some z ∧ (k ≤ q)%nat) →
    (∀ j x, (p ≤ j < k)%nat → ns !! j = Some x → (ht x ≤ i)%nat) →
    ∃ prev', (prev ← store_prev i (node_before ns p) prev;
      if (i =? 0)%nat then Done (node_before ns p, prev) else find_lt compare_ fuel l t (node_before ns p) (i - 1) next prev) =
      Done (node_before ns k, prev') ∧ filled i k prev prev') as Hdown.
  { intros next Hnext Hskip. destruct (store_prev_spec i (node_before ns p) prev Hprev ltac:(lia)) as [-> Hr]. cbn [mbind R_bind].
    assert (node_before ns p = last_before ht ns i k) as Hlast by (rewrite (last_before_skip ht ns i p k Hpk Hskip); by rewrite last_before_self).
    destruct i as [|i]; cbn [Nat.eqb].
    - assert (p = k) as -> by (apply (level_0_cut k p Hpk); [rewrite <- Elen; apply Hc|done]). eexists. split; [done|]. by apply filled_0.
    - rewrite Nat.sub_1_r. cbn [Nat.pred].
      destruct (IH p i next (insert (S i) (node_before ns p) <$> prev)) as (prev' & E & Hf); [done|by apply on_level_down|lia|lia|done|done|].
      exists prev'. split; [done|]. by apply (filled_S i k prev prev' (node_before ns p)); [|lia| |]. }
  destruct (next_on_level ns ht ks l i p Hok ltac:(lia) Hon) as [[-> Hnone]|(q & y & Hq & -> & Hy & Hlt & Hskip)]; cbn [mbind R_bind].
  - destruct (search_asserts t k p None Hc Hpk (proj1 Hon) Logic.I) as [-> ->]. cbn [mbind R_bind].
    case_bool_decide as E; clear E; cbn [KeyIsAfterNode mbind R_bind]; (apply Hdown; [done|]; intros j x Hj; apply Hnone; lia).
  - destruct (search_asserts t k p (Some y) Hc Hpk (proj1 Hon)) as [-> ->]; [by exists q|]. cbn [mbind R_bind].
    assert ((if bool_decide (Some y = lna) then Done false else KeyIsAfterNode compare_ l t (Some y)) = Done (bool_decide (q < k)%nat)) as ->.
    { case_bool_decide as E; [|by apply after_spec]. destruct (Hlna y (eq_sym E)) as (q' & Hq' & Hle).
      pose proof (NoDup_lookup ns q q' y (so_NoDup _ _ _ _ Hok) Hy Hq') as ->. by rewrite bool_decide_eq_false_2 by lia. }
    cbn [mbind R_bind]. case_bool_decide as Hqk.
    + rewrite <- (node_before_S q y Hy). apply lookup_lt_Some in Hy as Hlen. apply IH; [lia|by apply (on_level_at i q y)|done|lia|done|done].
    + apply Hdown; [intros z [= <-]; exists q; split; [done|lia]|]. intros j x Hj. apply Hskip. lia.
Qed.
Lemma FindLessThan_spec t k prev :
  cut ks t k → prev_room prev →
  ∃ prev', FindLessThan compare_ l t prev = Done (node_before ns k, prev') ∧ filled (max_height_ l - 1) k prev prev'.
Proof.
  intros Hc Hr. pose proof (so_max _ _ _ _ Hok). pose proof (so_size _ _ _ _ Hok) as [E _].
  apply (find_lt_spec (search_fuel l) t k 0); [done|lia|apply on_level_head|unfold GetMaxHeight; lia|unfold search_fuel, GetMaxHeight; lia|done|done].
Qed.

Lemma find_last_spec fuel p i :
  on_level ht ns i p → (i < max_height_ l)%nat → (length ns - p + i < fuel)%nat →
  find_last fuel l (node_before ns p) i = Done (node_before ns (length ns)).
Proof.
  revert p i. pose proof (so_max _ _ _ _ Hok) as Hmax. induction fuel as [|fuel IH]; intros p i Hon Hi Hfuel; [lia|]. cbn [find_last].
  destruct (next_on_level ns ht ks l i p Hok ltac:(lia) Hon) as [[-> Hnone]|(q & y & Hq & -> & Hy & Hlt & Hskip)]; cbn [mbind R_bind].
  - destruct i as [|i]; cbn [Nat.eqb].
    + by rewrite (level_0_cut (length ns) p); [|apply Hon| |intros j x Hj; apply Hnone; lia].
    + rewrite Nat.sub_1_r. cbn [Nat.pred]. apply IH; [by apply on_level_down|lia|lia].
  - rewrite <- (node_before_S q y Hy). apply lookup_lt_Some in Hy as Hlen. apply IH; [by apply (on_level_at i q y)|done|lia].
Qed.
Lemma FindLast_spec : FindLast l = Done (node_before ns (length ns)).
Proof.
  pose proof (so_max _ _ _ _ Hok). pose proof (so_size _ _ _ _ Hok) as [E _].
  apply (find_last_spec (search_fuel l) 0); [apply on_level_head|unfold GetMaxHeight; lia|unfold search_fuel, GetMaxHeight; lia].
Qed.

(** ** Iterators *)

Definition place (o : option nat) : option node := o ≫= λ i, ns !! i.
Definition place_before (p : nat) : option node := match p with O => None | S j => ns !! j end.

Lemma next_0 p : (p ≤ length ns)%nat → Node_Next l (node_before ns p) 0 = Done (ns !! p).
Proof.
  intros Hp. pose proof (so_max _ _ _ _ Hok).
  assert (on_level ht ns 0 p) as Hon.
  { split; [done|]. intros j x _ Hx. pose proof (so_height _ _ _ _ Hok x (list_elem_of_lookup_2 _ _ _ Hx)). lia. }
  destruct (next_on_level ns ht ks l 0 p Hok ltac:(lia) Hon) as [[-> Hnone]|(q & y & Hq & -> & Hy & _ & Hskip)]; f_equal.
  - rewrite (level_0_cut (length ns) p); [by rewrite lookup_ge_None_2|done|done|]. intros j x Hj. apply Hnone. lia.
  - rewrite (level_0_cut q p); [done|done|apply lookup_lt_Some in Hy; lia|done].
Qed.
Lemma none_if_head_spec p : (p ≤ length ns)%nat → none_if_head (node_before ns p) = place_before p.
Proof.
  intros Hp. unfold none_if_head. rewrite (node_before_head p Hp). destruct p as [|j]; cbn [Nat.eqb]; [done|]. cbn.
  destruct (lookup_lt_is_Some_2 ns j) as [x Hx]; [lia|]. by rewrite Hx.
Qed.
Lemma It_node_spec j x : ns !! j = Some x → It_node (ns !! j) = Done x.
Proof. intros ->. unfold It_node, It_Valid. rewrite bool_decide_eq_false_2, assert_true by done. done. Qed.

Lemma It_key_spec j k : ks !! j = Some k → It_key l (ns !! j) = Done k.
Proof.
  intros Hk. destruct (lookup_lt_is_Some_2 ns j) as [x Hx]; [pose proof (so_size _ _ _ _ Hok); apply lookup_lt_Some in Hk; lia|].
  unfold It_key. rewrite (It_node_spec j x Hx). cbn [mbind R_bind]. destruct (so_key _ _ _ _ j x Hok Hx) as (k' & Hk' & ->). congruence.
Qed.
Lemma It_Next_spec j : (j < length ks)%nat → It_Next l (ns !! j) = Done (ns !! S j).
Proof.
  intros Hj. pose proof (so_size _ _ _ _ Hok) as [_ E]. destruct (lookup_lt_is_Some_2 ns j) as [x Hx]; [lia|].
  unfold It_Next. rewrite (It_node_spec j x Hx). cbn [mbind R_bind]. rewrite <- (node_before_S j x Hx). apply next_0. lia.
Qed.
Lemma It_Prev_spec j : (j < length ks)%nat → It_Prev compare_ l (ns !! j) = Done (place_before j).
Proof.
  intros Hj. pose proof (so_size _ _ _ _ Hok) as [_ E]. destruct (lookup_lt_is_Some_2 ns j) as [x Hx]; [lia|].
  destruct (so_key _ _ _ _ j x Hok Hx) as (k & Hk & Ek). unfold It_Prev. rewrite (It_node_spec j x Hx). cbn [mbind R_bind]. rewrite Ek. cbn [mbind R_bind].
  destruct (FindLessThan_spec k j None) as (? & -> & _); [by apply ordered_cut|done|]. cbn [mbind R_bind fst].
  rewrite none_if_head_spec by lia. done.
Qed.
Lemma It_SeekToFirst_spec : It_SeekToFirst l = Done (ns !! 0%nat).
Proof. apply (next_0 0). lia. Qed.
Lemma It_SeekToLast_spec : It_SeekToLast l = Done (place_before (length ks)).
Proof.
  pose proof (so_size _ _ _ _ Hok) as [_ E]. unfold It_SeekToLast. rewrite FindLast_spec. cbn [mbind R_bind]. by rewrite none_if_head_spec, E by lia.
Qed.
Lemma It_Seek_spec t k : cut ks t k → It_Seek compare_ l t = Done (ns !! k).
Proof. apply FindGreaterOrEqual_spec. Qed.

(** One key too far at most. *)
Lemma back_to_spec fuel t k p :
  cut_above ks t k → (k ≤ p ≤ S k)%nat → (p ≤ length ks)%nat → (p - k ≤ fuel)%nat →
  back_to compare_ fuel l t (place_before p) = Done (place_before k).
Proof.
  intros [Hk Ha] Hp Hlen Hf. pose proof (so_size _ _ _ _ Hok) as [_ E].
  assert (∀ fuel, back_to compare_ fuel l t (place_before k) = Done (place_before k)) as Hstop.
  { intros [|f]; destruct k as [|j]; try done; cbn [place_before back_to]; destruct (lookup_lt_is_Some_2 ks j) as [a Hj]; try lia;
      destruct (lookup_lt_is_Some_2 ns j) as [x Hx]; try lia; rewrite (It_key_spec j a Hj); unfold It_Valid;
      rewrite bool_decide_eq_false_2 by (by rewrite Hx); cbn [negb mbind R_bind]; unfold LessThan;
      destruct (Ha j a Hj) as (c & -> & Hc); cbn [mbind R_bind]; rewrite (proj2 (Z.ltb_ge c 0)) by lia; done. }
  destruct (decide (p = k)) as [->|Hne]; [apply Hstop|]. assert (p = S k) as -> by lia.
  destruct fuel as [|fuel]; [lia|]. cbn [place_before back_to].
  destruct (lookup_lt_is_Some_2 ks k) as [a Hj]; [lia|]. destruct (lookup_lt_is_Some_2 ns k) as [x Hx]; [lia|].
  rewrite (It_key_spec k a Hj). unfold It_Valid. rewrite bool_decide_eq_false_2 by (by rewrite Hx). cbn [negb mbind R_bind]. unfold LessThan.
  destruct (Ha k a Hj) as (c & -> & Hc). cbn [mbind R_bind]. rewrite (proj2 (Z.ltb_lt c 0)) by lia.
  rewrite It_Prev_spec by lia. apply Hstop.
Qed.
Lemma It_SeekForPrev_spec t k k' :
  cut ks t k → cut_above ks t k' → (k ≤ k' ≤ S k)%nat → It_SeekForPrev compare_ l t = Done (place_before k').
Proof.
  intros Hc Ha Hkk. pose proof (so_size _ _ _ _ Hok) as [E1 E2]. unfold It_SeekForPrev. rewrite (It_Seek_spec t k Hc). cbn [mbind R_bind].
  pose proof (proj1 Ha) as Hk'. destruct (decide (k < length ks)%nat) as [Hlt|Hge].
  - destruct (lookup_lt_is_Some_2 ns k) as [x Hx]; [lia|]. rewrite Hx. cbn [It_Valid]. unfold It_Valid. rewrite bool_decide_eq_false_2 by done. cbn [negb mbind R_bind].
    rewrite <- Hx. by apply (back_to_spec _ t k' (S k)); [|lia|lia|lia].
  - rewrite lookup_ge_None_2 by lia. unfold It_Valid. rewrite bool_decide_eq_true_2 by done. cbn [negb]. rewrite It_SeekToLast_spec. cbn [mbind R_bind].
    by apply (back_to_spec _ t k' (length ks)); [|destruct Hc; lia|lia|lia].
Qed.

(** ** Insertion: the predecessors *)

Definition predecessors (h k : nat) (a : list node) : Prop :=
  length a = kMaxHeight_ l ∧ ∀ i, (i < h)%nat → a !! i = Some (last_before ht ns i k).

Lemma fill_levels_spec i n x a :
  (i + n ≤ length a)%nat →
  ∃ a', fill i n x a = Done a' ∧ length a' = length a ∧ (∀ j, (i ≤ j < i + n)%nat → a' !! j = Some x) ∧
    ∀ j, ¬ (i ≤ j < i + n)%nat → a' !! j = a !! j.
Proof.
  revert i a. induction n as [|n IH]; intros i a Hlen; cbn [fill]; [exists a; split_and!; [done|done|lia|done]|].
  unfold store_at. rewrite bool_decide_eq_true_2 by lia. cbn [require mbind R_bind].
  destruct (IH (S i) (<[i:=x]> a)) as (a' & -> & Hl & Hin & Hout); [rewrite length_insert; lia|]. rewrite length_insert in Hl.
  exists a'. split_and!; [done|done|..].
  - intros j Hj. destruct (decide (j = i)) as [->|]; [|apply Hin; lia]. rewrite Hout by lia. apply list_lookup_insert_eq. lia.
  - intros j Hj. rewrite Hout by lia. apply list_lookup_insert_ne. lia.
Qed.

Lemma sequential_spec t k p :
  cut ks t k → prev_ok ht ns l p → sequential compare_ l t = Done (bool_decide (p = k)).
Proof.
  intros Hc Hp. pose proof (po_range _ _ _ _ Hp) as Hr. pose proof (so_size _ _ _ _ Hok) as [_ E].
  unfold sequential, at_index. rewrite (po_first _ _ _ _ Hp). cbn [checked mbind R_bind]. rewrite (next_0 p Hr). cbn [mbind R_bind].
  assert (KeyIsAfterNode compare_ l t (ns !! p) = Done (bool_decide (p < k)%nat)) as ->.
  { destruct (ns !! p) as [y|] eqn:Hy; [by apply after_spec|]. apply lookup_ge_None in Hy. cbn. rewrite bool_decide_eq_false_2; [done|]. destruct Hc. lia. }
  cbn [mbind R_bind]. case_bool_decide as Hpk; [by rewrite bool_decide_eq_false_2 by lia|]. rewrite (node_before_head p Hr).
  destruct p as [|j]; cbn [Nat.eqb node_before]; [by rewrite bool_decide_eq_true_2 by lia|].
  destruct (lookup_lt_is_Some_2 ns j) as [y Hy]; [lia|]. rewrite Hy. change (default head_ (Some y)) with y. rewrite (after_spec t k j y Hc Hy).
  f_equal. apply bool_decide_ext. lia.
Qed.

Lemma find_predecessors_spec t k :
  cut ks t k → ∃ a, find_predecessors compare_ l t = Done (set_prev a l) ∧ predecessors (max_height_ l) k a.
Proof.
  intros Hc. destruct (so_prev _ _ _ _ Hok) as [p Hp]. pose proof (so_max _ _ _ _ Hok) as Hmax. pose proof (so_length _ _ _ _ Hok) as Hlen.
  unfold find_predecessors. rewrite (sequential_spec t k p Hc Hp). cbn [mbind R_bind]. case_bool_decide as Hpk; subst.
  - unfold at_index. rewrite (po_first _ _ _ _ Hp). cbn [checked mbind R_bind]. pose proof (po_range _ _ _ _ Hp) as Hr. rewrite (node_before_head k Hr).
    destruct k as [|j].
    + destruct (po_head _ _ _ _ Hp eq_refl) as [Hph Hmh]. unfold GetMaxHeight. rewrite Hph, Hmh. rewrite assert_true. cbn [mbind R_bind Nat.sub fill].
      eexists. split; [done|]. split; [done|]. intros i Hi. assert (i = 0)%nat as -> by lia. apply (po_first _ _ _ _ Hp).
    + cbn [Nat.eqb negb orb]. rewrite assert_true. cbn [mbind R_bind]. destruct (lookup_lt_is_Some_2 ns j) as [x Hx]; [lia|].
      rewrite (node_before_S j x Hx). rewrite (po_height _ _ _ _ Hp j x eq_refl Hx).
      pose proof (so_height _ _ _ _ Hok x (list_elem_of_lookup_2 _ _ _ Hx)) as Hht.
      destruct (fill_levels_spec 1 (ht x - 1) x (prev_ l)) as (a & -> & Hl & Hin & Hout); [lia|]. cbn [mbind R_bind].
      exists a. split; [done|]. split; [lia|]. intros i Hi. destruct (decide (i < ht x)%nat) as [Hlt|Hge].
      * rewrite last_before_self by by apply (on_level_at i j x). rewrite (node_before_S j x Hx).
        destruct (decide (i = 0)%nat) as [->|]; [|apply Hin; lia]. rewrite Hout by lia. rewrite (po_first _ _ _ _ Hp). by rewrite (node_before_S j x Hx).
      * rewrite Hout by lia. rewrite (po_rest _ _ _ _ Hp) by lia. f_equal. cbn [Nat.sub]. rewrite Nat.sub_0_r. symmetry. apply last_before_skip; [lia|].
        intros j' x' Hj' Hx'. assert (j' = j) as -> by lia. rewrite Hx in Hx'. injection Hx' as <-. lia.
  - destruct (FindLessThan_spec t k (Some (prev_ l)) Hc Hlen) as (prev' & -> & Hf). cbn [mbind R_bind snd].
    destruct prev' as [a|]; [|done]. destruct Hf as (Hl & Hle & _). exists a. split; [done|]. split; [lia|]. intros i Hi. apply Hle. lia.
Qed.

Lemma not_in_list_spec t k a :
  cut ks t k → predecessors (max_height_ l) k a → (∀ b, ks !! k = Some b → ∃ c, compare_ t b = Done c ∧ c ≠ 0) →
  debug_assert (not_in_list compare_ (set_prev a l) t) = Done tt.
Proof.
  intros Hc [_ Ha] Hne. pose proof (so_max _ _ _ _ Hok). pose proof (so_size _ _ _ _ Hok) as [_ E]. apply debug_assert_true.
  unfold not_in_list, at_index. cbn [prev_ set_prev]. rewrite Ha by lia. cbn [checked mbind R_bind].
  assert (last_before ht ns 0 k = node_before ns k) as ->.
  { apply last_before_self. split; [destruct Hc; lia|]. intros j x _ Hx. pose proof (so_height _ _ _ _ Hok x (list_elem_of_lookup_2 _ _ _ Hx)). lia. }
  change (Node_Next (set_prev a l)) with (Node_Next l). change (key_of (set_prev a l)) with (key_of l).
  rewrite next_0 by (destruct Hc; lia). cbn [mbind R_bind]. destruct (ns !! k) as [y|] eqn:Hy; [|done].
  destruct (so_key _ _ _ _ k y Hok Hy) as (b & Hb & ->). cbn [mbind R_bind]. unfold Equal. destruct (Hne b Hb) as (c & -> & Hc0). cbn.
  by rewrite (proj2 (Z.eqb_neq c 0)).
Qed.

(** Above the list's height every level is empty. *)
Lemma raise_height_spec h k a :
  (h ≤ kMaxHeight_ l)%nat → predecessors (max_height_ l) k a →
  ∃ a', raise_height h (set_prev a l) = Done (set_max_height (Nat.max h (max_height_ l)) (set_prev a' l)) ∧
    predecessors (Nat.max h (max_height_ l)) k a'.
Proof.
  intros Hh [Hlen Ha]. unfold raise_height. cbn [GetMaxHeight max_height_ set_prev prev_]. unfold GetMaxHeight. cbn [max_height_ set_prev].
  destruct (Nat.ltb_spec (max_height_ l) h) as [Hlt|Hge].
  - destruct (fill_levels_spec (max_height_ l) (h - max_height_ l) head_ a) as (a' & -> & Hl & Hin & Hout); [lia|]. cbn [mbind R_bind].
    exists a'. split; [by rewrite Nat.max_l by lia|]. split; [lia|]. intros i Hi. destruct (decide (i < max_height_ l)%nat); [rewrite Hout by lia; by apply Ha|].
    rewrite Hin by lia. f_equal. unfold last_before. rewrite level_nil; [done|]. intros x Hx%elem_of_take.
    destruct Hx as (j & Hx & _). pose proof (so_height _ _ _ _ Hok x (list_elem_of_lookup_2 _ _ _ Hx)). lia.
  - exists a. rewrite Nat.max_r by lia. by split.
Qed.
End search.

(** ** Insertion: the links *)

Lemma node_height_range fuel limit scaled seed h : (1 ≤ h ≤ limit)%nat → (1 ≤ fst (random_height fuel limit scaled seed h) ≤ limit)%nat.
Proof.
  revert seed h. induction fuel as [|fuel IH]; intros seed h Hh; cbn [random_height]; destruct (Nat.ltb_spec h limit) as [Hlt|]; try done.
  destruct (Random_Next seed <? scaled); [|done]. apply IH. lia.
Qed.
Lemma RandomHeight_spec seed l : (1 ≤ kMaxHeight_ l)%nat → ∃ h seed', RandomHeight seed l = Done (h, seed') ∧ (1 ≤ h ≤ kMaxHeight_ l)%nat.
Proof.
  intros Hmax. unfold RandomHeight.
  pose proof (node_height_range (kMaxHeight_ l) (kMaxHeight_ l) (kScaledInverseBranching_ l) seed 1 ltac:(lia)) as Hr.
  destruct (random_height _ _ _ _ _) as [h seed']. cbn [fst] in Hr. exists h, seed'.
  rewrite (proj2 (Nat.ltb_lt 0 h)), (proj2 (Nat.leb_le h (kMaxHeight_ l))), assert_true by lia. by split.
Qed.

Lemma allocate_lookup x n m i y :
  allocate x n m !! (i, y) = if decide (y = x ∧ (i < n)%nat) then Some None else m !! (i, y).
Proof.
  induction n as [|n IH]; cbn [allocate]; [by rewrite decide_False by (intros [_ ?]; lia)|].
  destruct (decide ((i, y) = (n, x))) as [[= -> ->]|Hne].
  - by rewrite lookup_insert_eq, decide_True by (split; [done|lia]).
  - rewrite lookup_insert_ne by done. rewrite IH. destruct (decide (y = x ∧ (i < n)%nat)) as [[-> ?]|Hn]; [by rewrite decide_True by (split; [done|lia])|].
    rewrite decide_False; [done|]. intros [-> ?]. apply Hn. split; [done|]. assert (i ≠ n) by naive_solver. lia.
Qed.

Lemma set_next_next m m' l : set_next m (set_next m' l) = set_next m l.
Proof. done. Qed.

(** Each level gets the new node after the level's predecessor. *)
Lemma link_spec x n i l :
  (∀ j, (i ≤ j < i + n)%nat → ∃ p o, prev_ l !! j = Some p ∧ next_ l !! (j, p) = Some (Some o) ∧ p ≠ x ∧ is_Some (next_ l !! (j, x))) →
  ∃ m, link x i n l = Done (set_next m l) ∧
    (∀ j y, ¬ (i ≤ j < i + n)%nat → m !! (j, y) = next_ l !! (j, y)) ∧
    ∀ j p, (i ≤ j < i + n)%nat → prev_ l !! j = Some p →
      m !! (j, x) = next_ l !! (j, p) ∧ m !! (j, p) = Some (Some (Some x)) ∧ ∀ y, y ≠ x → y ≠ p → m !! (j, y) = next_ l !! (j, y).
Proof.
  revert i l. induction n as [|n IH]; intros i l Hpre; cbn [link].
  { exists (next_ l). split_and!; [by destruct l|done|]. intros; lia. }
  destruct (Hpre i ltac:(lia)) as (p & o & Hp & Ho & Hpx & [c Hc]).
  unfold at_index, Node_Next, Node_SetNext. rewrite Hp. cbn [checked mbind R_bind]. rewrite Ho. cbn [checked mbind R_bind]. rewrite Hc.
  cbn [checked mbind R_bind next_ set_next]. rewrite lookup_insert_ne by congruence. rewrite Ho. cbn [checked mbind R_bind]. rewrite set_next_next.
  set (m1 := <[(i, p) := Some (Some x)]> (<[(i, x) := Some o]> (next_ l))).
  assert (∀ j y, j ≠ i → m1 !! (j, y) = next_ l !! (j, y)) as Hm1.
  { intros j y Hj. subst m1. rewrite !lookup_insert_ne by congruence. done. }
  destruct (IH (S i) (set_next m1 l)) as (m & -> & Hout & Hin).
  { intros j Hj. destruct (Hpre j ltac:(lia)) as (pj & oj & Hpj & Hoj & Hne & Hxj). exists pj, oj. cbn [prev_ next_ set_next].
    rewrite !Hm1 by lia. by split_and!. }
  exists m. cbn [next_ set_next prev_] in Hout, Hin. split_and!; [done|..].
  - intros j y Hj. rewrite Hout by lia. apply Hm1. lia.
  - intros j pj Hj Hpj. destruct (decide (j = i)) as [->|Hne].
    + rewrite Hp in Hpj. injection Hpj as <-. rewrite !Hout by lia. subst m1. split_and!.
      * rewrite lookup_insert_ne by congruence. by rewrite lookup_insert_eq, Ho.
      * by rewrite lookup_insert_eq.
      * intros y Hyx Hyp. rewrite Hout by lia. rewrite !lookup_insert_ne by congruence. done.
    + destruct (Hin j pj ltac:(lia) Hpj) as (-> & -> & Hy). rewrite Hm1 by lia. split_and!; [done|done|]. intros y ??. rewrite Hy by done. apply Hm1. lia.
Qed.

Lemma Node_Next_eq l l' x y i : next_ l' !! (i, y) = next_ l !! (i, x) → Node_Next l' y i = Node_Next l x i.
Proof. unfold Node_Next. by intros ->. Qed.
Lemma level_chain_ext l l' i h c : (∀ y, y ∈ h :: c → next_ l' !! (i, y) = next_ l !! (i, y)) → chain l i h c → chain l' i h c.
Proof.
  revert h. induction c as [|y c IH]; intros h Hext; cbn [chain]; [rewrite (Node_Next_eq l l' h h) by (apply Hext; left); done|].
  rewrite (Node_Next_eq l l' h h) by (apply Hext; left). intros [? Hc]. split; [done|]. apply IH; [|done]. intros z Hz. apply Hext. by right.
Qed.
Lemma level_chain_insert l l' i h c1 c2 x p :
  chain l i h (c1 ++ c2) → NoDup (h :: c1 ++ c2) → x ∉ h :: c1 ++ c2 → p = default h (last c1) →
  next_ l' !! (i, x) = next_ l !! (i, p) → next_ l' !! (i, p) = Some (Some (Some x)) →
  (∀ y, y ≠ x → y ≠ p → next_ l' !! (i, y) = next_ l !! (i, y)) → chain l' i h (c1 ++ x :: c2).
Proof.
  intros Hc Hnd Hx -> Hlx Hlp Hother. revert h Hc Hnd Hx Hlx Hlp Hother.
  induction c1 as [|y c1 IH]; intros h Hc Hnd Hx Hlx Hlp Hother.
  - cbn [app last default chain] in *. change (default h None) with h in *. split; [unfold Node_Next; by rewrite Hlp|].
    apply NoDup_cons in Hnd as [Hnd _]. destruct c2 as [|z c2]; cbn [chain] in Hc |- *; rewrite (Node_Next_eq l l' h x i Hlx); [done|].
    destruct Hc as [? Hc]. split; [done|]. eapply level_chain_ext; [|exact Hc]. intros w Hw. apply Hother; [|intros ->; by apply Hnd].
    intros ->. apply Hx. by right.
  - rewrite last_cons in Hlx, Hlp, Hother. set (p := default h (match last c1 with Some z => Some z | None => Some y end)) in *.
    assert (p = default y (last c1)) as Ep by (subst p; by destruct (last c1)).
    cbn [app chain] in Hc |- *. destruct Hc as [Hh Hc]. apply NoDup_cons in Hnd as [Hnh Hnd].
    assert (p ∈ y :: c1) as Hp.
    { rewrite Ep. destruct (last c1) as [z|] eqn:E; [|left]. right. apply last_Some_elem_of in E. exact E. }
    split.
    + rewrite (Node_Next_eq l l' h h); [done|]. apply Hother; [intros ->; apply Hx; left|]. intros E. apply Hnh. rewrite <- E in Hp.
      apply elem_of_cons in Hp as [->|Hp]; [left|right; apply elem_of_app; by left].
    + apply IH; [done|done| | | |]; [intros Hin; apply Hx; by right|by rewrite <- Ep..|]. intros z ? Hz. apply Hother; [done|]. by rewrite Ep.
Qed.

(** ** Insertion *)

Definition insert_at {A} (k : nat) (x : A) (xs : list A) : list A := take k xs ++ x :: drop k xs.
Lemma insert_at_Permutation {A} k (x : A) xs : insert_at k x xs ≡ₚ x :: xs.
Proof. unfold insert_at. by rewrite <- Permutation_middle, take_drop. Qed.
Lemma take_inserted {A} k (x : A) xs : (k ≤ length xs)%nat → take k (insert_at k x xs) = take k xs.
Proof. intros Hk. unfold insert_at. rewrite take_app_le by (rewrite length_take; lia). by rewrite take_take, Nat.min_id. Qed.
Lemma lookup_insert_at {A} k (x : A) xs : (k ≤ length xs)%nat → insert_at k x xs !! k = Some x.
Proof. intros Hk. unfold insert_at. rewrite lookup_app_r; rewrite length_take_le by done; [by rewrite Nat.sub_diag|done]. Qed.

Section insert.
Context {ns : list node} {ht : node → nat} {ks : list Key} {l : SkipList} (Hok : sl_ok ns ht ks l).
Context (x : node) (Hx : x = S (length (keys l))) (h k : nat) (Hh : (1 ≤ h)%nat) (Hk : (k ≤ length ns)%nat).

Definition with_height : node → nat := λ y, if decide (y = x) then h else ht y.
#[local] Abbreviation ns' := (insert_at k x ns).

Lemma new_not_in : x ∉ ns.
Proof. rewrite (so_nodes _ _ _ _ Hok), elem_of_seq. lia. Qed.
Lemma with_height_old y : y ∈ ns → with_height y = ht y.
Proof. unfold with_height. intros Hy. rewrite decide_False; [done|]. intros ->. by apply new_not_in. Qed.
Lemma with_height_new : with_height x = h.
Proof. unfold with_height. by rewrite decide_True. Qed.
Lemma level_old i xs : xs ⊆ ns → level with_height i xs = level ht i xs.
Proof.
  induction xs as [|y xs IH]; intros Hsub; [done|]. unfold level in *. rewrite !filter_cons, (with_height_old y) by (apply Hsub; left).
  rewrite IH; [done|]. intros z Hz. apply Hsub. by right.
Qed.
Lemma take_sub n : take n ns ⊆ ns.
Proof. intros y Hy. rewrite <- (take_drop n ns). apply elem_of_app. by left. Qed.
Lemma drop_sub n : drop n ns ⊆ ns.
Proof. intros y Hy. rewrite <- (take_drop n ns). apply elem_of_app. by right. Qed.
Lemma level_insert i :
  level with_height i ns' =
  if decide (i < h)%nat then level ht i (take k ns) ++ x :: level ht i (drop k ns) else level ht i ns.
Proof.
  unfold insert_at. rewrite level_app, (level_old i (take k ns) (take_sub k)).
  change (x :: drop k ns) with ([x] ++ drop k ns). rewrite level_app, (level_old i (drop k ns) (drop_sub k)).
  unfold level at 2. rewrite filter_cons, filter_nil, with_height_new. destruct (decide (i < h)%nat); [done|]. cbn [app]. by rewrite <- level_split.
Qed.
Lemma last_before_old i : last_before with_height ns' i k = last_before ht ns i k.
Proof. unfold last_before. by rewrite take_inserted, level_old by (apply take_sub || done). Qed.
Lemma last_before_known i : last_before ht ns i k = head_ ∨ last_before ht ns i k ∈ ns.
Proof.
  unfold last_before. destruct (last _) as [y|] eqn:E; [right|by left]. apply last_Some_elem_of, elem_of_level in E as [_ E]. by apply (take_sub k).
Qed.
Lemma last_before_not_new i : last_before ht ns i k ≠ x.
Proof. destruct (last_before_known i) as [->|Hin]; [unfold head_; lia|]. intros E. rewrite E in Hin. by apply new_not_in. Qed.
Lemma last_before_link i : (i < kMaxHeight_ l)%nat → ∃ o, next_ l !! (i, last_before ht ns i k) = Some (Some o).
Proof.
  intros Hi. pose proof (so_chain _ _ _ _ Hok i Hi) as Hc. rewrite (level_split ht i ns k) in Hc. apply chain_app in Hc.
  change (default head_ (last (level ht i (take k ns)))) with (last_before ht ns i k) in Hc.
  assert (∃ o, Node_Next l (last_before ht ns i k) i = Done o) as [o Ho] by (destruct (level ht i (drop k ns)); [by exists None|destruct Hc; by eexists]).
  unfold Node_Next in Ho. destruct (next_ l !! _) as [[o'|]|]; try done. by exists o'.
Qed.

(** The chains after the new links. *)
Lemma insert_chains l' i :
  (i < kMaxHeight_ l)%nat →
  (if decide (i < h)%nat then
     next_ l' !! (i, x) = next_ l !! (i, last_before ht ns i k) ∧ next_ l' !! (i, last_before ht ns i k) = Some (Some (Some x)) ∧
     ∀ y, y ≠ x → y ≠ last_before ht ns i k → next_ l' !! (i, y) = next_ l !! (i, y)
   else ∀ y, y ≠ x → next_ l' !! (i, y) = next_ l !! (i, y)) →
  chain l' i head_ (level with_height i ns').
Proof.
  intros Hi Hlinks. rewrite level_insert. pose proof (so_chain _ _ _ _ Hok i Hi) as Hc.
  assert (head_ ∉ ns) as Hhead by (intros Hin; by apply (so_not_head _ _ _ _ _ Hok) in Hin).
  assert (x ∉ head_ :: level ht i ns) as Hxn.
  { intros [E|[_ Hin]%elem_of_level]%elem_of_cons; [unfold head_ in E; lia|by apply new_not_in]. }
  destruct (decide (i < h)%nat) as [Hlt|Hge].
  - destruct Hlinks as (H1 & H2 & H3). rewrite (level_split ht i ns k) in Hc, Hxn. eapply level_chain_insert; [exact Hc| |exact Hxn|done|exact H1|exact H2|exact H3].
    rewrite <- level_split. apply NoDup_cons. split; [by intros [_ ?]%elem_of_level|]. apply NoDup_filter. by eapply so_NoDup.
  - eapply level_chain_ext; [|exact Hc]. intros y Hy. apply Hlinks. by intros ->.
Qed.

(** What the links of the new node make of the list. *)
Lemma linked_ok a key m :
  (h ≤ kMaxHeight_ l)%nat → x = S (length (keys l)) → length ks = length ns →
  predecessors (ns := ns) (ht := ht) (l := l) (Nat.max h (max_height_ l)) k a →
  (∀ i y, ¬ (i < h)%nat → m !! (i, y) = allocate x h (next_ l) !! (i, y)) →
  (∀ i p, (i < h)%nat → a !! i = Some p →
     m !! (i, x) = allocate x h (next_ l) !! (i, p) ∧ m !! (i, p) = Some (Some (Some x)) ∧
     ∀ y, y ≠ x → y ≠ p → m !! (i, y) = allocate x h (next_ l) !! (i, y)) →
  sl_ok ns' with_height (insert_at k key ks)
    (mkSkipList Key (kMaxHeight_ l) (kBranching_ l) (kScaledInverseBranching_ l) (keys l ++ [key]) m
       (Nat.max h (max_height_ l)) (<[0%nat := x]> a) h).
Proof.
  intros Hmh Hx' Hlks [Hlen Ha] Hout Hin. pose proof (so_max _ _ _ _ Hok) as Hmax.
  assert (∀ i y, y ≠ x → allocate x h (next_ l) !! (i, y) = next_ l !! (i, y)) as Halloc
    by (intros i y Hy; rewrite allocate_lookup; by rewrite decide_False by (by intros [? _])).
  split; cbn [kMaxHeight_ keys next_ max_height_ prev_ prev_height_].
  - intros i Hi. apply insert_chains; [done|]. cbn [next_]. destruct (decide (i < h)%nat) as [Hlt|Hge].
    + destruct (Hin i (last_before ht ns i k) Hlt) as (H1 & H2 & H3); [apply Ha; lia|]. rewrite Halloc in H1 by apply last_before_not_new.
      split_and!; [done|done|]. intros y ??. rewrite H3 by done. by apply Halloc.
    + intros y Hy. rewrite Hout by done. by apply Halloc.
  - rewrite insert_at_Permutation, (so_nodes _ _ _ _ Hok), length_app. cbn [length]. rewrite Nat.add_comm. cbn [Nat.add].
    rewrite seq_S, Hx'. by rewrite Permutation_app_comm.
  - assert (Forall2 (λ y k0, key_of (mkSkipList Key (kMaxHeight_ l) (kBranching_ l) (kScaledInverseBranching_ l) (keys l ++ [key]) m
       (Nat.max h (max_height_ l)) (<[0%nat := x]> a) h) y = Done k0) ns ks) as Hkeys.
    { eapply Forall2_impl; [apply (so_keys _ _ _ _ Hok)|]. intros [|j] k0; [done|]. cbn [key_of keys].
      destruct (keys l !! j) as [kj|] eqn:Ej; [|done]. by rewrite (lookup_app_l_Some _ _ _ _ Ej). }
    unfold insert_at. apply Forall2_app; [by apply Forall2_take|]. constructor; [|by apply Forall2_drop].
    rewrite Hx'. cbn [key_of keys]. by rewrite lookup_app_r, Nat.sub_diag.
  - intros y. rewrite insert_at_Permutation, elem_of_cons. intros [->|Hy]; [rewrite with_height_new; lia|].
    rewrite (with_height_old y Hy). pose proof (so_height _ _ _ _ Hok y Hy). lia.
  - lia.
  - by rewrite length_insert.
  - exists (S k). split; cbn [prev_ prev_height_ max_height_].
    + rewrite insert_at_Permutation. cbn [length]. lia.
    + rewrite list_lookup_insert_eq by lia. cbn [node_before]. by rewrite lookup_insert_at.
    + done.
    + intros j y [= <-]. rewrite lookup_insert_at by done. intros [= <-]. by rewrite with_height_new.
    + intros i Hi. rewrite list_lookup_insert_ne by lia. rewrite Ha by lia. cbn [Nat.sub]. by rewrite Nat.sub_0_r, last_before_old.
Qed.
End insert.

(** Insert puts the key where it cuts the others. *)
Lemma Insert_spec ns ht ks l seed key k :
  sl_ok ns ht ks l → ordered ks → cut ks key k → (∀ b, ks !! k = Some b → ∃ c, compare_ key b = Done c ∧ c ≠ 0) →
  ∃ l' seed' ns' ht', Insert compare_ seed key l = Done (l', seed') ∧ sl_ok ns' ht' (insert_at k key ks) l'.
Proof.
  intros Hok Ho Hc Hne. pose proof (so_max _ _ _ _ Hok) as Hmax. pose proof (so_size _ _ _ _ Hok) as [_ Hlen].
  assert (k ≤ length ns)%nat as Hk by (rewrite <- Hlen; apply Hc).
  destruct (find_predecessors_spec Hok Ho key k Hc) as (a & E1 & Ha). unfold Insert. rewrite E1. cbn [mbind R_bind].
  rewrite (not_in_list_spec Hok key k a Hc Ha Hne). cbn [mbind R_bind].
  destruct (RandomHeight_spec seed (set_prev a l)) as (h & seed' & -> & Hh); [cbn; lia|]. cbn [mbind R_bind fst snd kMaxHeight_ set_prev] in Hh |- *.
  destruct (raise_height_spec Hok h k a) as (a' & -> & Ha'); [lia|done|]. cbn [mbind R_bind]. unfold NewNode. cbn [keys set_max_height set_prev].
  set (x := S (length (keys l))). destruct Ha' as [Hlen' Ha'].
  match goal with |- context [link x 0 h ?l3] => destruct (link_spec x h 0 l3) as (m & -> & Hout & Hin) end.
  { intros j Hj. cbn [prev_ next_ kMaxHeight_ set_max_height set_prev]. exists (last_before ht ns j k).
    destruct (last_before_link Hok k j) as [o Hlb]; [lia|]. exists o. rewrite Ha' by lia.
    pose proof (last_before_not_new Hok x eq_refl h k ltac:(lia) Hk j). split_and!; [done| |done|].
    - rewrite allocate_lookup, decide_False; [done|]. by intros [? _].
    - rewrite allocate_lookup, decide_True; [done|]. split; [done|lia]. }
  cbn [mbind R_bind prev_ set_next set_max_height set_prev next_] in Hout, Hin |- *. unfold store_at. rewrite bool_decide_eq_true_2 by lia. cbn [require mbind R_bind].
  do 4 eexists. split; [done|]. cbn. apply (linked_ok Hok x eq_refl h k); [lia|done|lia|done|done|by split|..].
  - intros i y Hi. apply Hout. lia.
  - intros i p Hi. apply Hin. lia.
Qed.

(** A new list is empty. *)
Lemma null_links_spec n i l :
  (∀ j, (i ≤ j < i + n)%nat → is_Some (next_ l !! (j, head_))) →
  ∃ m, null_links i n l = Done (set_next m l) ∧ (∀ j, (i ≤ j < i + n)%nat → m !! (j, head_) = Some (Some None)) ∧
    ∀ j, ¬ (i ≤ j < i + n)%nat → m !! (j, head_) = next_ l !! (j, head_).
Proof.
  revert i l. induction n as [|n IH]; intros i l Hpre; cbn [null_links]; [exists (next_ l); split_and!; [by destruct l|lia|done]|].
  unfold Node_SetNext. destruct (Hpre i ltac:(lia)) as [c ->]. cbn [checked mbind R_bind].
  destruct (IH (S i) (set_next (<[(i, head_) := Some None]> (next_ l)) l)) as (m & -> & Hin & Hout).
  { intros j Hj. cbn [next_ set_next]. rewrite lookup_insert_ne by (intros [=]; lia). apply Hpre. lia. }
  exists m. cbn [next_ set_next] in Hout. split_and!; [done|..].
  - intros j Hj. destruct (decide (j = i)) as [->|]; [|apply Hin; lia]. rewrite Hout by lia. by rewrite lookup_insert_eq.
  - intros j Hj. rewrite Hout by lia. apply lookup_insert_ne. intros [=]. lia.
Qed.
Lemma new_SkipList_spec max_height branching :
  0 < max_height < 2 ^ 16 → 0 < branching < 2 ^ 16 →
  ∃ l ht, new_SkipList max_height branching = Done l ∧ sl_ok [] ht [] l.
Proof.
  intros Hm Hb. unfold new_SkipList, wrap. rewrite !Z.mod_small by lia.
  rewrite (proj2 (Z.eqb_neq branching 0)) by lia. cbn [negb require mbind R_bind].
  rewrite (proj2 (Z.ltb_lt 0 max_height)), (proj2 (Z.ltb_lt 0 branching)), !Z.eqb_refl, !assert_true by lia. cbn [mbind R_bind andb].
  assert (0 <? (((kMaxNext + 1) / branching) mod 2 ^ 32) = true) as ->.
  { change (kMaxNext + 1) with (2 ^ 31). apply Z.ltb_lt.
    rewrite Z.mod_small; [apply Z.div_str_pos; lia|]. split; [apply Z.div_pos; lia|]. apply Z.div_lt_upper_bound; lia. }
  rewrite assert_true. cbn [mbind R_bind].
  match goal with |- context [null_links 0 ?n ?l0] => destruct (null_links_spec n 0 l0) as (m & -> & Hin & _) end.
  { intros j Hj. cbn [next_]. rewrite allocate_lookup, decide_True; [by eexists|]. split; [done|lia]. }
  eexists _, (λ _, 0%nat). split; [done|]. split; cbn [kMaxHeight_ keys next_ max_height_ prev_ prev_height_ set_next]; try done.
  - intros i Hi. cbn. unfold Node_Next. cbn. by rewrite Hin by lia.
  - intros x Hx. by apply not_elem_of_nil in Hx.
  - lia.
  - by rewrite length_replicate.
  - exists 0%nat. split; cbn; [done|apply lookup_replicate_2; lia|done|by intros j x [=]|lia].
Qed.
End correct.

(** ** The list as a sorted sequence *)

Section sequence.
Context {Key : Type} `{Build} (cmp : Key → Key → Z).
Context (Hflip : ∀ a b, cmp a b < 0 ↔ 0 < cmp b a) (Htrans : ∀ a b c, cmp a b ≤ 0 → cmp b c ≤ 0 → cmp a c ≤ 0).
#[local] Abbreviation compare_ := (λ a b, Done (cmp a b)).
#[local] Abbreviation below := (λ a b, cmp a b < 0).
Implicit Types (l : SkipList Key) (ks : list Key).

Fixpoint insert_all (seed : Z) (new : list Key) l : R (SkipList Key * Z) :=
  match new with [] => Done (l, seed) | k :: new' => r ← Insert compare_ seed k l; insert_all (snd r) new' (fst r) end.
(** The keys an iterator goes through, forward and in reverse. *)
Fixpoint read_on (fuel : nat) l (node_ : option node) : R (list Key) :=
  if It_Valid node_ then
    match fuel with
    | O => Fault OutOfFuel
    | S fuel' => k ← It_key l node_; n ← It_Next l node_; rest ← read_on fuel' l n; Done (k :: rest)
    end
  else Done [].
Fixpoint read_back (fuel : nat) l (node_ : option node) : R (list Key) :=
  if It_Valid node_ then
    match fuel with
    | O => Fault OutOfFuel
    | S fuel' => k ← It_key l node_; n ← It_Prev compare_ l node_; rest ← read_back fuel' l n; Done (k :: rest)
    end
  else Done [].

Lemma cmp_refl a : cmp a a = 0.
Proof. pose proof (Hflip a a). lia. Qed.
Lemma below_le a b c : cmp a b < 0 → cmp b c ≤ 0 → cmp a c < 0.
Proof.
  intros Hab Hbc. destruct (decide (cmp a c < 0)) as [|Hn]; [done|]. assert (cmp c a ≤ 0) as Hca by (pose proof (Hflip a c); lia).
  pose proof (Htrans b c a Hbc Hca). pose proof (Hflip a b). lia.
Qed.

(** A test that is downward closed holds of a prefix. *)
Lemma sorted_split (P : Key → Prop) `{!∀ a, Decision (P a)} ks :
  StronglySorted below ks → (∀ a b, cmp a b < 0 → P b → P a) →
  ∃ k, (k ≤ length ks)%nat ∧ filter P ks = take k ks ∧ filter (λ a, ¬ P a) ks = drop k ks ∧
    ∀ i a, ks !! i = Some a → (P a ↔ (i < k)%nat).
Proof.
  intros Hs HP. induction Hs as [|x ks Hs IH Hx]; [by exists 0%nat|]. destruct IH as (k & Hk & E1 & E2 & Hi).
  rewrite Forall_forall in Hx. destruct (decide (P x)) as [HPx|HPx].
  - exists (S k). rewrite filter_cons_True, filter_cons_False by naive_solver. cbn. split_and!; [lia|by rewrite E1|done|].
    intros [|i] a; cbn; [intros [= <-]; split; [lia|done]|]. intros Ha. rewrite (Hi i a Ha). lia.
  - assert (k = 0)%nat as ->.
    { destruct k as [|k]; [done|]. destruct ks as [|y ks]; [cbn in Hk; lia|]. destruct HPx. apply (HP x y); [apply Hx; left|]. apply (Hi 0%nat); [done|lia]. }
    exists 0%nat. rewrite filter_cons_False, filter_cons_True by naive_solver. cbn. split_and!; [lia|done|by rewrite E2|].
    intros [|i] a; cbn; [intros [= <-]; split; [done|lia]|]. intros Ha. rewrite (Hi i a Ha). lia.
Qed.
Lemma sorted_ordered ks : StronglySorted below ks → ordered compare_ ks.
Proof.
  intros Hs i j a b Hi Hj. exists (cmp a b). split; [done|]. destruct (lt_eq_lt_dec i j) as [[Hlt| ->]|Hlt].
  - pose proof (StronglySorted_lookup _ ks i j a b Hs Hlt Hi Hj) as Hab. cbn in Hab. lia.
  - rewrite Hi in Hj. injection Hj as <-. rewrite cmp_refl. lia.
  - pose proof (StronglySorted_lookup _ ks j i b a Hs Hlt Hj Hi) as Hab. cbn in Hab. pose proof (Hflip b a). lia.
Qed.

(** Both cuts of a target. *)
Lemma sorted_cuts ks t :
  StronglySorted below ks →
  ∃ k k', cut compare_ ks t k ∧ cut_above compare_ ks t k' ∧ (k ≤ k' ≤ S k)%nat ∧
    filter (λ a, 0 ≤ cmp a t) ks = drop k ks ∧ filter (λ a, cmp a t ≤ 0) ks = take k' ks.
Proof.
  intros Hs. destruct (sorted_split (λ a, cmp a t < 0) ks Hs) as (k & Hk & _ & Ed & Hi); [intros a b Hab Hb; apply (below_le a b t); [done|lia]|].
  destruct (sorted_split (λ a, cmp a t ≤ 0) ks Hs) as (k' & Hk' & Et & _ & Hi'); [intros a b Hab Hb; apply (Htrans a b t); [lia|done]|].
  assert ((k ≤ k' ≤ S k)%nat) as Hkk.
  { split.
    - destruct (decide (k ≤ k')%nat) as [|Hn]; [done|]. destruct (lookup_lt_is_Some_2 ks k') as [a Ha]; [lia|].
      pose proof (proj2 (Hi k' a Ha) ltac:(lia)). pose proof (proj1 (Hi' k' a Ha) ltac:(lia)). lia.
    - destruct (decide (k' ≤ S k)%nat) as [|Hn]; [done|]. destruct (lookup_lt_is_Some_2 ks k) as [a Ha]; [lia|].
      destruct (lookup_lt_is_Some_2 ks (S k)) as [b Hb]; [lia|]. pose proof (StronglySorted_lookup _ ks k (S k) a b Hs ltac:(lia) Ha Hb) as Hab. cbn in Hab.
      pose proof (proj2 (Hi' (S k) b Hb) ltac:(lia)). pose proof (below_le a b t Hab ltac:(done)). pose proof (proj1 (Hi k a Ha) ltac:(done)). lia. }
  exists k, k'. split_and!; [split; [done|]|split; [done|]|lia|lia| |done].
  - intros i a Ha. exists (cmp a t). split_and!; [done|by apply Hi|]. intros E. pose proof (proj1 (Hi' i a Ha) ltac:(lia)).
    destruct (decide (i < k)%nat) as [Hlt|]; [pose proof (proj2 (Hi i a Ha) Hlt); lia|lia].
  - intros i a Ha. exists (cmp t a). split; [done|]. rewrite (Hflip t a). pose proof (Hi' i a Ha). lia.
  - rewrite <- Ed. apply list_filter_iff. intros a. lia.
Qed.

Section reads.
Context {ns : list node} {ht : node → nat} {ks : list Key} {l : SkipList Key} (Hok : sl_ok ns ht ks l) (Hs : StronglySorted below ks).

Lemma It_Valid_place j : (j < length ks)%nat → It_Valid (ns !! j) = true.
Proof.
  intros Hj. pose proof (so_size _ _ _ _ Hok) as [_ E]. destruct (lookup_lt_is_Some_2 ns j) as [x Hx]; [lia|].
  rewrite Hx. unfold It_Valid. by rewrite bool_decide_eq_false_2.
Qed.
Lemma read_on_spec fuel j : (length ks - j < fuel)%nat → read_on fuel l (ns !! j) = Done (drop j ks).
Proof.
  revert j. induction fuel as [|fuel IH]; intros j Hf; [lia|]. pose proof (so_size _ _ _ _ Hok) as [_ E].
  cbn [read_on]. destruct (decide (j < length ks)%nat) as [Hj|Hj].
  - rewrite (It_Valid_place j Hj). destruct (lookup_lt_is_Some_2 ks j Hj) as [k Hk]. rewrite (It_key_spec Hok j k Hk), (It_Next_spec Hok j Hj).
    cbn [mbind R_bind]. rewrite IH by lia. cbn. by rewrite (drop_S ks k j Hk).
  - rewrite lookup_ge_None_2, drop_ge by lia. done.
Qed.
Lemma read_back_spec fuel p : (p ≤ length ks)%nat → (p < fuel)%nat → read_back fuel l (place_before (ns := ns) p) = Done (reverse (take p ks)).
Proof.
  revert p. induction fuel as [|fuel IH]; intros p Hp Hf; [lia|]. destruct p as [|j]; [done|]. cbn [read_back place_before].
  rewrite (It_Valid_place j) by lia. destruct (lookup_lt_is_Some_2 ks j) as [k Hk]; [lia|].
  rewrite (It_key_spec Hok j k Hk), (It_Prev_spec compare_ Hok (sorted_ordered ks Hs) j) by lia. cbn [mbind R_bind]. rewrite IH by lia. cbn [mbind R_bind].
  by rewrite (take_S_r _ _ k Hk), reverse_snoc.
Qed.

Lemma Contains_spec t : Contains compare_ l t = Done (bool_decide (Exists (λ a, cmp a t = 0) ks)).
Proof.
  destruct (sorted_cuts ks t Hs) as (k & k' & Hc & _ & _ & _ & _). pose proof (so_size _ _ _ _ Hok) as [_ E].
  unfold Contains. rewrite (FindGreaterOrEqual_spec compare_ Hok (sorted_ordered ks Hs) t k Hc). cbn [mbind R_bind].
  assert (∀ a, a ∈ ks → cmp a t = 0 → ks !! k = Some a) as Hhit.
  { intros a [i Hi]%list_elem_of_lookup_1 Ea. destruct (proj2 Hc i a Hi) as (c & [= <-] & _ & Hik). by rewrite <- Hik. }
  destruct (ns !! k) as [y|] eqn:Hy.
  - destruct (so_key _ _ _ _ k y Hok Hy) as (a & Ha & ->). cbn [mbind R_bind]. unfold Equal. cbn [mbind R_bind]. f_equal.
    apply eq_true_iff_eq. rewrite Z.eqb_eq, bool_decide_eq_true, Exists_exists. pose proof (Hflip a t). pose proof (Hflip t a). split.
    + intros Eta. exists a. split; [by eapply list_elem_of_lookup_2|lia].
    + intros (b & Hb & Eb). specialize (Hhit b Hb Eb). rewrite Ha in Hhit. injection Hhit as ->. lia.
  - f_equal. symmetry. apply bool_decide_eq_false_2. rewrite Exists_exists. intros (b & Hb & Eb). specialize (Hhit b Hb Eb).
    apply lookup_ge_None in Hy. apply lookup_lt_Some in Hhit. lia.
Qed.
End reads.

Lemma insert_sorted_keys ks key k :
  StronglySorted below ks → cut compare_ ks key k → (∀ a, a ∈ ks → cmp key a ≠ 0) → StronglySorted below (insert_at k key ks).
Proof.
  intros Hs [Hk Hc] Hne. unfold insert_at. assert (StronglySorted below (take k ks ++ drop k ks)) as Hs' by by rewrite take_drop.
  apply StronglySorted_app in Hs' as (Hab & Ha & Hb). apply StronglySorted_app. split_and!; [|done|constructor; [done|]].
  - intros a b Hin [->|Hb']%elem_of_cons; [|by apply Hab]. apply list_elem_of_lookup_1 in Hin as [i Hi].
    apply lookup_take_Some in Hi as [Hi Hlt]. destruct (Hc i a Hi) as (c & [= <-] & Hlt' & _). by apply Hlt'.
  - rewrite Forall_forall. intros b [i Hi]%list_elem_of_lookup_1. rewrite lookup_drop in Hi.
    destruct (Hc (k + i)%nat b Hi) as (c & [= <-] & Hlt' & _). pose proof (Hne b ltac:(by eapply list_elem_of_lookup_2)).
    pose proof (Hflip b key). pose proof (Hflip key b). lia.
Qed.
Lemma insert_all_spec new seed ns ht ks l :
  sl_ok ns ht ks l → StronglySorted below ks →
  (∀ a b, a ∈ new → b ∈ ks → cmp a b ≠ 0) → (∀ i j a b, (i < j)%nat → new !! i = Some a → new !! j = Some b → cmp b a ≠ 0) →
  ∃ l' seed' ns' ht' ks', insert_all seed new l = Done (l', seed') ∧ sl_ok ns' ht' ks' l' ∧ StronglySorted below ks' ∧ ks' ≡ₚ new ++ ks.
Proof.
  revert seed ns ht ks l. induction new as [|k new IH]; intros seed ns ht ks l Hok Hs Hne Hd; cbn [insert_all]; [by exists l, seed, ns, ht, ks|].
  destruct (sorted_cuts ks k Hs) as (p & _ & Hc & _).
  destruct (Insert_spec compare_ ns ht ks l seed k p Hok (sorted_ordered ks Hs) Hc) as (l1 & seed1 & ns1 & ht1 & -> & Hok1).
  { intros b Hb. exists (cmp k b). split; [done|]. apply Hne; [left|by eapply list_elem_of_lookup_2]. }
  cbn [mbind R_bind fst snd]. destruct (IH seed1 ns1 ht1 _ l1 Hok1) as (l' & seed' & ns' & ht' & ks' & E & Hok' & Hs' & Hp).
  - apply insert_sorted_keys; [done|done|]. intros a Ha. apply Hne; [left|done].
  - intros a b Ha. rewrite insert_at_Permutation, elem_of_cons. intros [->|Hb]; [|apply Hne; [by right|done]].
    apply list_elem_of_lookup_1 in Ha as [i Hi]. apply (Hd 0%nat (S i)); [lia|done|done].
  - intros i j a b Hij Hi Hj. apply (Hd (S i) (S j)); [lia|done|done].
  - exists l', seed', ns', ht', ks'. split_and!; [done|done|done|]. rewrite Hp, insert_at_Permutation. by rewrite <- Permutation_middle.
Qed.
End sequence.

(** C4. A skip list is the sorted sequence of its keys: after any insertions of
    distinct keys, with whatever heights the random numbers give and whether or
    not the fast path for sequential keys is taken, iterating from the first
    reads the keys in order and from the last in reverse, Seek continues with
    those that are not below the target, SeekForPrev with those not above it,
    and Contains finds exactly the keys that are there. *)
Theorem KeySkipList_is_sorted_sequence {Key : Type} `{Build} (cmp : Key → Key → Z) max_height branching seed keys :
  (∀ a b, cmp a b < 0 ↔ 0 < cmp b a) → (∀ a b c, cmp a b ≤ 0 → cmp b c ≤ 0 → cmp a c ≤ 0) →
  0 < max_height < 2 ^ 16 → 0 < branching < 2 ^ 16 →
  (∀ i j a b, (i < j)%nat → keys !! i = Some a → keys !! j = Some b → cmp b a ≠ 0) →
  let compare_ a b := Done (cmp a b) in
  ∃ l0 l seed' ks, new_SkipList max_height branching = Done l0 ∧ insert_all cmp seed keys l0 = Done (l, seed') ∧
    ks ≡ₚ keys ∧ StronglySorted (λ a b, cmp a b < 0) ks ∧
    (n ← It_SeekToFirst l; read_on (S (length keys)) l n) = Done ks ∧
    (n ← It_SeekToLast l; read_back cmp (S (length keys)) l n) = Done (reverse ks) ∧
    ∀ t, (n ← It_Seek compare_ l t; read_on (S (length keys)) l n) = Done (filter (λ a, 0 ≤ cmp a t) ks) ∧
      (n ← It_SeekForPrev compare_ l t; read_back cmp (S (length keys)) l n) = Done (reverse (filter (λ a, cmp a t ≤ 0) ks)) ∧
      Contains compare_ l t = Done (bool_decide (Exists (λ a, cmp a t = 0) ks)).
Proof.
  intros Hflip Htrans Hm Hb Hd compare_. destruct (new_SkipList_spec (Key := Key) max_height branching Hm Hb) as (l0 & ht0 & E0 & Hok0).
  destruct (insert_all_spec cmp Hflip Htrans keys seed [] ht0 [] l0 Hok0) as (l & seed' & ns & ht & ks & E & Hok & Hs & Hp);
    [constructor|by intros a b _ Hb'%elem_of_nil|done|].
  rewrite app_nil_r in Hp. pose proof (Permutation_length Hp) as Hlen. exists l0, l, seed', ks.
  split_and!; [done|done|done|done|..].
  - rewrite (It_SeekToFirst_spec Hok). cbn [mbind R_bind]. rewrite (read_on_spec Hok) by lia. done.
  - rewrite (It_SeekToLast_spec Hok). cbn [mbind R_bind]. rewrite (read_back_spec cmp Hflip Hok Hs) by lia. by rewrite take_ge.
  - intros t. destruct (sorted_cuts cmp Hflip Htrans ks t Hs) as (k & k' & Hc & Ha & Hkk & -> & ->). subst compare_.
    pose proof (sorted_ordered cmp Hflip ks Hs) as Ho. pose proof (proj1 Ha). split_and!.
    + rewrite (It_Seek_spec _ Hok Ho t k Hc). cbn [mbind R_bind]. by apply (read_on_spec Hok); lia.
    + rewrite (It_SeekForPrev_spec _ Hok Ho t k k' Hc Ha Hkk). cbn [mbind R_bind]. by apply (read_back_spec cmp Hflip Hok Hs); lia.
    + by apply (Contains_spec cmp Hflip Htrans Hok Hs).
Qed.

(** The comparator's order may be any; here the numbers, the heights from seed 17. *)
#[local] Instance Checked : Build := {| NDEBUG := false |}.
Lemma KeySkipList_is_sorted_sequence_witness :
  ∃ l0 l seed' ks, new_SkipList 12 4 = Done l0 ∧ insert_all Z.sub 17 [5; 2; 7; 9; 1] l0 = Done (l, seed') ∧ ks ≡ₚ [5; 2; 7; 9; 1] ∧
    (n ← It_SeekToFirst l; read_on 6 l n) = Done ks.
Proof.
  destruct (KeySkipList_is_sorted_sequence Z.sub 12 4 17 [5; 2; 7; 9; 1]) as (l0 & l & seed' & ks & E0 & E & Hp & _ & Hr & _);
    [lia|lia|lia|lia| |by exists l0, l, seed', ks].
  intros i j a b Hij Hi Hj. destruct i as [|[|[|[|[|i]]]]], j as [|[|[|[|[|j]]]]]; cbn in Hi, Hj; simplify_eq; lia.
Defined.
