(* ===== verification/SkipList.v ===== *)
(** * The skip list of memtables (memtable/inlineskiplist.h)

    Nodes are addresses. What threads share is a memory of links and the height
    of the list; a function is a program whose steps are its accesses to that
    memory, so that it can run alone or interleaved with others. Keys do not
    change once their nodes are linked, and are no accesses. The accesses are
    atomic and happen one after the other in some order; prefetches and the
    weaker memory orders have no effect. *)
From S2P Require Import Prelude Result Comparator Random.

(** ** Memory and programs *)

Notation node := nat (only parsing).

(** What a link of a node holds: nothing yet, the height that AllocateNode left
    in the lowest one, or a pointer. *)
Inductive cell := Uninitialized | StashedHeight (h : nat) | Link (n : option node).

(** [next_], by level and node. *)
Record memory := mkMemory { next_ : gmap (nat * node) cell; max_height_ : nat }.

(** Node::Next, SetNext, CASNext and UnstashHeight, and the accesses to
    max_height_; compare_exchange gives the value it found when it fails. That
    compare_exchange_weak may fail for no reason is left out: its loop would
    only try again. *)
Inductive prog (A : Type) : Type :=
  | Ret (a : A)
  | Fail (f : fault)
  | Next (x : node) (n : nat) (k : option node → prog A)
  | SetNext (x : node) (n : nat) (v : option node) (k : prog A)
  | CASNext (x : node) (n : nat) (expected v : option node) (k : bool → prog A)
  | UnstashHeight (x : node) (k : nat → prog A)
  | LoadMax (k : nat → prog A)
  | CASMax (expected v : nat) (k : option nat → prog A).
Arguments Ret {A} a.
Arguments Fail {A} f.
Arguments Next {A} x n k.
Arguments SetNext {A} x n v k.
Arguments CASNext {A} x n expected v k.
Arguments UnstashHeight {A} x k.
Arguments LoadMax {A} k.
Arguments CASMax {A} expected v k.

Fixpoint prog_bind {A B} (f : A → prog B) (p : prog A) : prog B :=
  match p with
  | Ret a => f a
  | Fail e => Fail e
  | Next x n k => Next x n (λ v, prog_bind f (k v))
  | SetNext x n v k => SetNext x n v (prog_bind f k)
  | CASNext x n e v k => CASNext x n e v (λ b, prog_bind f (k b))
  | UnstashHeight x k => UnstashHeight x (λ h, prog_bind f (k h))
  | LoadMax k => LoadMax (λ h, prog_bind f (k h))
  | CASMax e v k => CASMax e v (λ r, prog_bind f (k r))
  end.
#[export] Instance prog_mbind : MBind prog := λ A B f p, prog_bind f p.
Definition lift {A} (r : R A) : prog A := match r with Done a => Ret a | Fault f => Fail f end.

(** One access. *)
Definition read_cell (m : memory) (n : nat) (x : node) : R cell := checked OutOfBounds (next_ m !! (n, x)).
Definition read_link (m : memory) (n : nat) (x : node) : R (option node) :=
  c ← read_cell m n x; match c with Link o => Done o | _ => Fault Undefined end.
Definition write_link (m : memory) (n : nat) (x : node) (v : option node) : memory :=
  mkMemory (<[(n, x) := Link v]> (next_ m)) (max_height_ m).
Definition access {A} (p : prog A) (m : memory) : R (prog A * memory) :=
  match p with
  | Ret a => Done (p, m)
  | Fail f => Fault f
  | Next x n k => o ← read_link m n x; Done (k o, m)
  | SetNext x n v k => _ ← read_cell m n x; Done (k, write_link m n x v)
  | CASNext x n expected v k =>
      o ← read_link m n x;
      if bool_decide (o = expected) then Done (k true, write_link m n x v) else Done (k false, m)
  | UnstashHeight x k => c ← read_cell m 0 x; match c with StashedHeight h => Done (k h, m) | _ => Fault Undefined end
  | LoadMax k => Done (k (max_height_ m), m)
  | CASMax expected v k =>
      if bool_decide (max_height_ m = expected) then Done (k None, mkMemory (next_ m) v) else Done (k (Some (max_height_ m)), m)
  end.

(** A program that runs alone. *)
Fixpoint run {A} (p : prog A) (m : memory) : R (A * memory) :=
  match p with
  | Ret a => Done (a, m)
  | Fail f => Fault f
  | Next x n k => o ← read_link m n x; run (k o) m
  | SetNext x n v k => _ ← read_cell m n x; run k (write_link m n x v)
  | CASNext x n expected v k =>
      o ← read_link m n x; if bool_decide (o = expected) then run (k true) (write_link m n x v) else run (k false) m
  | UnstashHeight x k => c ← read_cell m 0 x; match c with StashedHeight h => run (k h) m | _ => Fault Undefined end
  | LoadMax k => run (k (max_height_ m)) m
  | CASMax expected v k => if bool_decide (max_height_ m = expected) then run (k None) (mkMemory (next_ m) v) else run (k (Some (max_height_ m))) m
  end.

(** ** The list *)

(** What does not change while programs run: the head, and the keys of the nodes
    that have been allocated and filled in. *)
Class Nodes := { head_ : node; kMaxHeight_ : nat; key_of : gmap node bytes }.
Definition kMaxPossibleHeight : nat := 32.

Section list.
Context `{Build, Comparator, Nodes}.

Definition Key (x : node) : R bytes := checked OutOfBounds (key_of !! x).
Definition is_head (x : node) : bool := bool_decide (x = head_).
Definition KeyIsAfterNode (key : bytes) (n : option node) : R bool :=
  _ ← assert (negb (bool_decide (n = Some head_)));
  match n with None => Done false | Some y => ky ← Key y; Done (Compare ky key <? 0) end.

(** The two assertions of every search. *)
Definition in_order (x : node) (next : option node) : R bool :=
  if is_head x then Done true
  else match next with None => Done true | Some y => ky ← Key y; KeyIsAfterNode ky (Some x) end.
Definition not_overshot (key : bytes) (x : node) : R bool :=
  if is_head x then Done true else KeyIsAfterNode key (Some x).
Definition search_asserts (key : bytes) (x : node) (next : option node) : prog unit :=
  _ ← lift (debug_assert (in_order x next)); lift (debug_assert (not_overshot key x)).

(** Enough for every search: each round moves on in the list or down a level. *)
Definition search_fuel : nat := size key_of + kMaxHeight_ + 1.

(** [level] is one less than the height that is left. *)
Fixpoint find_ge (fuel : nat) (key : bytes) (x : node) (level : nat) (last_bigger : option node) : prog (option node) :=
  match fuel with
  | O => Fail OutOfFuel
  | S fuel' =>
      Next x level (λ next,
        _ ← search_asserts key x next;
        cmp ← lift (match next with
                    | None => Done 1
                    | Some y => if bool_decide (next = last_bigger) then Done 1 else ky ← Key y; Done (Compare ky key)
                    end);
        if (cmp =? 0) || (0 <? cmp) && (level =? 0)%nat then Ret next
        else match next with
             | Some y => if cmp <? 0 then find_ge fuel' key y level last_bigger else find_ge fuel' key x (level - 1) next
             | None => find_ge fuel' key x (level - 1) next
             end)
  end.
Definition FindGreaterOrEqual (key : bytes) : prog (option node) :=
  LoadMax (λ height, find_ge search_fuel key head_ (height - 1) None).

(** Without [prev], which nothing passes. *)
Fixpoint find_lt (fuel : nat) (key : bytes) (x : node) (level bottom_level : nat) (last_not_after : option node) : prog node :=
  match fuel with
  | O => Fail OutOfFuel
  | S fuel' =>
      Next x level (λ next,
        _ ← search_asserts key x next;
        after ← lift (if bool_decide (next = last_not_after) then Done false else KeyIsAfterNode key next);
        match next with
        | Some y =>
            if after : bool then find_lt fuel' key y level bottom_level last_not_after
            else if (level =? bottom_level)%nat then Ret x else find_lt fuel' key x (level - 1) bottom_level next
        | None => if (level =? bottom_level)%nat then Ret x else find_lt fuel' key x (level - 1) bottom_level next
        end)
  end.
Definition FindLessThan (key : bytes) : prog node :=
  LoadMax (λ height, _ ← lift (assert (0 <? height)%nat); find_lt search_fuel key head_ (height - 1) 0 None).

Fixpoint find_last (fuel : nat) (x : node) (level : nat) : prog node :=
  match fuel with
  | O => Fail OutOfFuel
  | S fuel' =>
      Next x level (λ next,
        match next with
        | None => if (level =? 0)%nat then Ret x else find_last fuel' x (level - 1)
        | Some y => find_last fuel' y level
        end)
  end.
Definition FindLast : prog node := LoadMax (λ height, find_last search_fuel head_ (height - 1)).

Fixpoint estimate (fuel : nat) (kBranching_ : Z) (key : bytes) (x : node) (level : nat) (count : Z) : prog Z :=
  match fuel with
  | O => Fail OutOfFuel
  | S fuel' =>
      _ ← lift (debug_assert (if is_head x then Done true else kx ← Key x; Done (Compare kx key <? 0)));
      Next x level (λ next,
        stop ← lift (match next with None => Done true | Some y => ky ← Key y; Done (0 <=? Compare ky key) end);
        match next with
        | Some y =>
            if stop : bool then if (level =? 0)%nat then Ret count else estimate fuel' kBranching_ key x (level - 1) (u64 (count * kBranching_))
            else estimate fuel' kBranching_ key y level (u64 (count + 1))
        | None => if (level =? 0)%nat then Ret count else estimate fuel' kBranching_ key x (level - 1) (u64 (count * kBranching_))
        end)
  end.
Definition EstimateCount (kBranching_ : Z) (key : bytes) : prog Z :=
  LoadMax (λ height, estimate search_fuel kBranching_ key head_ (height - 1) 0).

Definition Contains (key : bytes) : prog bool :=
  x ← FindGreaterOrEqual key;
  match x with Some y => ky ← lift (Key y); Ret (Compare key ky =? 0) | None => Ret false end.

(** ** Splices *)

(** [sp_room]: the entries there are in each of the arrays. *)
Record Splice := mkSplice { height_ : nat; prev_ : gmap nat node; snext_ : gmap nat (option node); sp_room : nat }.
(** An entry of an array that has not been written is undefined. *)
Definition get_prev (sp : Splice) (i : nat) : R node := checked Undefined (prev_ sp !! i).
Definition get_next (sp : Splice) (i : nat) : R (option node) := checked Undefined (snext_ sp !! i).
Definition set_level (sp : Splice) (i : nat) (p : node) (n : option node) : R Splice :=
  _ ← require OutOfBounds (i <? sp_room sp)%nat;
  Done (mkSplice (height_ sp) (<[i := p]> (prev_ sp)) (<[i := n]> (snext_ sp)) (sp_room sp)).
Definition set_height (sp : Splice) (h : nat) : Splice := mkSplice h (prev_ sp) (snext_ sp) (sp_room sp).
Definition set_prev (sp : Splice) (i : nat) (p : node) : Splice := mkSplice (height_ sp) (<[i := p]> (prev_ sp)) (snext_ sp) (sp_room sp).

Definition AllocateSplice : Splice := mkSplice 0 ∅ ∅ (kMaxHeight_ + 1).
Definition AllocateSpliceOnHeap : Splice := mkSplice 0 ∅ ∅ (kMaxHeight_ + 1).
(** The arrays that InsertConcurrently has on the stack. *)
Definition stack_splice : Splice := mkSplice 0 ∅ ∅ kMaxPossibleHeight.

(** Each round moves on. *)
Fixpoint find_splice (fuel : nat) (key : bytes) (before : node) (after : option node) (level : nat) : prog (node * option node) :=
  match fuel with
  | O => Fail OutOfFuel
  | S fuel' =>
      Next before level (λ next,
        _ ← search_asserts key before next;
        stop ← lift (if bool_decide (next = after) then Done true else a ← KeyIsAfterNode key next; Done (negb a));
        match next with
        | Some y => if stop : bool then Ret (before, next) else find_splice fuel' key y after level
        | None => Ret (before, next)
        end)
  end.
Definition FindSpliceForLevel (key : bytes) (before : node) (after : option node) (level : nat) : prog (node * option node) :=
  find_splice search_fuel key before after level.

(** From level [i - 1] down. *)
Fixpoint recompute_from (key : bytes) (sp : Splice) (i : nat) : prog Splice :=
  match i with
  | O => Ret sp
  | S i' =>
      before ← lift (get_prev sp i);
      after ← lift (get_next sp i);
      '(p, n) ← FindSpliceForLevel key before after i';
      sp ← lift (set_level sp i' p n);
      recompute_from key sp i'
  end.
Definition RecomputeSpliceLevels (key : bytes) (sp : Splice) (recompute_level : nat) : prog Splice :=
  _ ← lift (assert (0 <? recompute_level)%nat);
  _ ← lift (assert (recompute_level <=? height_ sp)%nat);
  recompute_from key sp recompute_level.

(** ** Insert *)

(** [while (height > max_height)]. *)
Fixpoint raise_height (fuel : nat) (height max_height : nat) : prog nat :=
  if (max_height <? height)%nat then
    match fuel with
    | O => Fail OutOfFuel
    | S fuel' => CASMax max_height height (λ r, match r with None => Ret height | Some found => raise_height fuel' height found end)
    end
  else Ret max_height.

(** [while (splice->prev_[recompute_height] == bad)], and the same for next_. *)
Fixpoint skip_prev (fuel : nat) (sp : Splice) (bad : node) (h : nat) : R nat :=
  p ← get_prev sp h;
  if bool_decide (p = bad) then match fuel with O => Fault OutOfFuel | S fuel' => skip_prev fuel' sp bad (S h) end else Done h.
Fixpoint skip_next (fuel : nat) (sp : Splice) (bad : option node) (h : nat) : R nat :=
  n ← get_next sp h;
  if bool_decide (n = bad) then match fuel with O => Fault OutOfFuel | S fuel' => skip_next fuel' sp bad (S h) end else Done h.

(** How much of a splice does not bracket the key. *)
Fixpoint find_recompute (fuel : nat) (key : bytes) (sp : Splice) (allow_partial_splice_fix : bool) (max_height recompute_height : nat) : prog nat :=
  if (recompute_height <? max_height)%nat then
    match fuel with
    | O => Fail OutOfFuel
    | S fuel' =>
        prev ← lift (get_prev sp recompute_height);
        next ← lift (get_next sp recompute_height);
        Next prev recompute_height (λ now,
          if negb (bool_decide (now = next)) then find_recompute fuel' key sp allow_partial_splice_fix max_height (S recompute_height)
          else
            from_before ← lift (if is_head prev then Done false else a ← KeyIsAfterNode key (Some prev); Done (negb a));
            if from_before : bool then
              h ← lift (if allow_partial_splice_fix then skip_prev (S (height_ sp)) sp prev recompute_height else Done max_height);
              find_recompute fuel' key sp allow_partial_splice_fix max_height h
            else
              from_after ← lift (KeyIsAfterNode key next);
              if from_after : bool then
                h ← lift (if allow_partial_splice_fix then skip_next (S (height_ sp)) sp next recompute_height else Done max_height);
                find_recompute fuel' key sp allow_partial_splice_fix max_height h
              else Ret recompute_height)
    end
  else Ret recompute_height.

(** A key that is in the list already is seen on level 0. *)
Definition duplicate (key : bytes) (i : nat) (prev : node) (next : option node) : R bool :=
  if (i =? 0)%nat then
    d ← match next with None => Done false | Some y => ky ← Key y; Done (0 <=? Compare key ky) end;
    if d : bool then Done true
    else if is_head prev then Done false else kp ← Key prev; Done (0 <=? Compare kp key)
  else Done false.
Definition brackets (key : bytes) (prev : node) (next : option node) : R bool :=
  n ← match next with None => Done true | Some y => ky ← Key y; Done (Compare key ky <? 0) end;
  p ← (if is_head prev then Done true else kp ← Key prev; Done (Compare kp key <? 0));
  Done (n && p).

(** One level with CAS. [None] for a duplicate, else [splice_is_valid]. *)
Fixpoint cas_level (fuel : nat) (x : node) (key : bytes) (i : nat) (sp : Splice) (splice_is_valid : bool) : prog (Splice * option bool) :=
  prev ← lift (get_prev sp i);
  next ← lift (get_next sp i);
  dup ← lift (duplicate key i prev next);
  if dup : bool then Ret (sp, None)
  else
    _ ← lift (debug_assert (brackets key prev next));
    SetNext x i next (CASNext prev i next (Some x) (λ success,
      if success : bool then Ret (sp, Some splice_is_valid)
      else match fuel with
           | O => Fail OutOfFuel
           | S fuel' =>
               '(p, n) ← FindSpliceForLevel key prev None i;
               sp ← lift (set_level sp i p n);
               cas_level fuel' x key i sp (if (0 <? i)%nat then false else splice_is_valid)
           end)).
(** One level without. *)
Definition plain_level (x : node) (key : bytes) (recompute_height i : nat) (sp : Splice) : prog (Splice * option bool) :=
  prev ← lift (get_prev sp i);
  next ← lift (get_next sp i);
  '(prev, next, sp) ←
    (if (recompute_height <=? i)%nat then
       Next prev i (λ now,
         if negb (bool_decide (now = next)) then
           '(p, n) ← FindSpliceForLevel key prev None i; sp ← lift (set_level sp i p n); Ret (p, n, sp)
         else Ret (prev, next, sp))
     else Ret (prev, next, sp));
  dup ← lift (duplicate key i prev next);
  if dup : bool then Ret (sp, None)
  else
    _ ← lift (debug_assert (brackets key prev next));
    _ ← (if NDEBUG then Ret tt else Next prev i (λ now, lift (assert (bool_decide (now = next)))));
    SetNext x i next (SetNext prev i (Some x) (Ret (sp, Some true))).

(** The failures of a CAS are at most the nodes that others can link. *)
Definition cas_fuel : nat := size key_of + 1.
(** [for (int i = 0; i < height; ++i)], with [todo] levels left. *)
Fixpoint link_levels (UseCAS : bool) (x : node) (key : bytes) (recompute_height todo i : nat) (sp : Splice) (splice_is_valid : bool)
    : prog (Splice * option bool) :=
  match todo with
  | O => Ret (sp, Some splice_is_valid)
  | S todo' =>
      '(sp, outcome) ← (if UseCAS then cas_level cas_fuel x key i sp splice_is_valid else plain_level x key recompute_height i sp);
      match outcome with
      | None => Ret (sp, None)
      | Some valid => link_levels UseCAS x key recompute_height todo' (S i) sp valid
      end
  end.

(** The assertions at the end, for the levels below [height_]. *)
Definition splice_level_ok (key : bytes) (sp : Splice) (i : nat) : R bool :=
  p ← get_prev sp i; n ← get_next sp i; p' ← get_prev sp (S i); n' ← get_next sp (S i);
  c1 ← match n with None => Done true | Some y => ky ← Key y; Done (Compare key ky <? 0) end;
  c2 ← (if is_head p then Done true else kp ← Key p; Done (Compare kp key <=? 0));
  c3 ← (if bool_decide (p' = p) || is_head p' then Done true else kp' ← Key p'; kp ← Key p; Done (Compare kp' kp <? 0));
  c4 ← match n' with
       | None => Done true
       | Some y' => if bool_decide (n' = n) then Done true
                    else match n with Some y => ky ← Key y; ky' ← Key y'; Done (Compare ky ky' <? 0) | None => Fault OutOfBounds end
       end;
  Done (c1 && c2 && c3 && c4).
Fixpoint splice_levels_ok (key : bytes) (sp : Splice) (n : nat) : R bool :=
  match n with
  | O => Done true
  | S n' => a ← splice_levels_ok key sp n'; b ← splice_level_ok key sp n'; Done (a && b)
  end.
Definition splice_ok (key : bytes) (sp : Splice) : R bool :=
  p ← get_prev sp (height_ sp);
  n ← get_next sp (height_ sp);
  all ← splice_levels_ok key sp (height_ sp);
  Done (is_head p && bool_decide (n = None) && all).
(** [prev_[i] = x] for the levels of the node. *)
Fixpoint set_prevs (sp : Splice) (x : node) (n : nat) : Splice :=
  match n with O => sp | S n' => set_prev (set_prevs sp x n') n' x end.

Definition Insert (UseCAS : bool) (x : node) (sp : Splice) (allow_partial_splice_fix : bool) : prog (bool * Splice) :=
  key ← lift (Key x);
  UnstashHeight x (λ height,
    _ ← lift (assert ((1 <=? height) && (height <=? kMaxHeight_))%nat);
    LoadMax (λ max_height,
      max_height ← raise_height kMaxHeight_ height max_height;
      _ ← lift (assert (max_height <=? kMaxPossibleHeight)%nat);
      '(sp, recompute_height) ←
        (if (height_ sp <? max_height)%nat then
           sp ← lift (set_level sp max_height head_ None); Ret (set_height sp max_height, max_height)
         else h ← find_recompute max_height key sp allow_partial_splice_fix max_height 0; Ret (sp, h));
      _ ← lift (assert (recompute_height <=? max_height)%nat);
      sp ← (if (0 <? recompute_height)%nat then RecomputeSpliceLevels key sp recompute_height else Ret sp);
      '(sp, outcome) ← link_levels UseCAS x key recompute_height height 0 sp true;
      match outcome with
      | None => Ret (false, sp)
      | Some true =>
          let sp := set_prevs sp x height in
          _ ← lift (debug_assert (splice_ok key sp));
          Ret (true, sp)
      | Some false => Ret (true, set_height sp 0)
      end)).

Definition InsertConcurrently (x : node) : prog bool := '(inserted, _) ← Insert true x stack_splice false; Ret inserted.
(** The hint is a splice, or null. *)
Definition InsertWithHint (x : node) (hint : option Splice) : prog (bool * option Splice) :=
  '(inserted, sp) ← Insert false x (default AllocateSplice hint) true; Ret (inserted, Some sp).
Definition InsertWithHintConcurrently (x : node) (hint : option Splice) : prog (bool * option Splice) :=
  '(inserted, sp) ← Insert true x (default AllocateSpliceOnHeap hint) true; Ret (inserted, Some sp).

(** ** Iterators *)

(** An iterator is its [node_]. *)
Definition It_Valid (node_ : option node) : bool := negb (bool_decide (node_ = None)).
Definition It_key (node_ : option node) : R bytes :=
  _ ← assert (It_Valid node_); x ← checked Undefined node_; Key x.
Definition It_Next (node_ : option node) : prog (option node) :=
  _ ← lift (assert (It_Valid node_)); x ← lift (checked Undefined node_); Next x 0 (λ next, Ret next).
Definition none_if_head (x : node) : option node := if is_head x then None else Some x.
Definition It_Prev (node_ : option node) : prog (option node) :=
  _ ← lift (assert (It_Valid node_)); x ← lift (checked Undefined node_); key ← lift (Key x);
  y ← FindLessThan key; Ret (none_if_head y).
Definition It_Seek (target : bytes) : prog (option node) := FindGreaterOrEqual target.
Definition It_SeekToFirst : prog (option node) := Next head_ 0 (λ next, Ret next).
Definition It_SeekToLast : prog (option node) := x ← FindLast; Ret (none_if_head x).
Fixpoint back_to (fuel : nat) (target : bytes) (node_ : option node) : prog (option node) :=
  match node_ with
  | None => Ret None
  | Some x =>
      kx ← lift (Key x);
      if Compare target kx <? 0 then
        match fuel with O => Fail OutOfFuel | S fuel' => n ← It_Prev node_; back_to fuel' target n end
      else Ret node_
  end.
Definition It_SeekForPrev (target : bytes) : prog (option node) :=
  n ← It_Seek target;
  n ← (if It_Valid n then Ret n else It_SeekToLast);
  back_to (size key_of) target n.
End list.

(** ** Allocation and construction *)

(** What the list is between calls. *)
Record InlineSkipList := mkSkipList {
  nodes : Nodes;
  kBranching_ : Z;
  kScaledInverseBranching_ : Z;
  mem : memory;
  seq_splice_ : Splice;
}.

Section construct.
Context `{Build, Comparator}.

(** Cells of levels [1] to [height - 1], and the lowest. [x] is where the
    allocator has put the node. *)
Fixpoint allocate_links (x : node) (n : nat) (cells : gmap (nat * node) cell) : gmap (nat * node) cell :=
  match n with O => cells | S n' => <[(n, x) := Uninitialized]> (allocate_links x n' cells) end.
Definition AllocateNode (x : node) (height : nat) (m : memory) : memory :=
  mkMemory (<[(0%nat, x) := StashedHeight height]> (allocate_links x (height - 1) (next_ m))) (max_height_ m).

Fixpoint random_height (fuel : nat) (limit : nat) (scaled seed_ : Z) (height : nat) : nat * Z :=
  if (height <? limit)%nat && (height <? kMaxPossibleHeight)%nat then
    match fuel with
    | O => (height, seed_)
    | S fuel' =>
        let seed_ := Random_Next seed_ in
        if seed_ <? scaled then random_height fuel' limit scaled seed_ (S height) else (height, seed_)
    end
  else (height, seed_).
Definition RandomHeight (limit : nat) (scaled seed_ : Z) : R (nat * Z) :=
  let '(height, seed_) := random_height limit limit scaled seed_ 1 in
  _ ← assert (0 <? height)%nat;
  _ ← assert (height <=? limit)%nat;
  _ ← assert (height <=? kMaxPossibleHeight)%nat;
  Done (height, seed_).

(** A node for [key], which the caller fills in. *)
Definition AllocateKey (x : node) (key : bytes) (seed_ : Z) (l : InlineSkipList) : R (InlineSkipList * Z) :=
  '(height, seed_) ← RandomHeight (@kMaxHeight_ (nodes l)) (kScaledInverseBranching_ l) seed_;
  Done (mkSkipList {| head_ := @head_ (nodes l); kMaxHeight_ := @kMaxHeight_ (nodes l); key_of := <[x := key]> (@key_of (nodes l)) |}
          (kBranching_ l) (kScaledInverseBranching_ l) (AllocateNode x height (mem l)) (seq_splice_ l), seed_).

Fixpoint null_links (x : node) (n : nat) (m : memory) : memory :=
  match n with O => m | S n' => write_link (null_links x n' m) n' x None end.
Definition new_InlineSkipList (x : node) (max_height branching_factor : Z) : R InlineSkipList :=
  let kMaxHeight := u16 max_height in
  let kBranching := u16 branching_factor in
  _ ← require Undefined (negb (kBranching =? 0));
  let scaled := (kMaxNext + 1) / kBranching in
  let m := AllocateNode x (Z.to_nat max_height) (mkMemory ∅ 1) in
  _ ← assert ((0 <? max_height) && (kMaxHeight =? max_height));
  _ ← assert ((1 <? branching_factor) && (kBranching =? branching_factor));
  _ ← assert (0 <? scaled);
  let ns := {| head_ := x; kMaxHeight_ := Z.to_nat kMaxHeight; key_of := ∅ |} in
  Done (mkSkipList ns kBranching scaled (null_links x (Z.to_nat kMaxHeight) m) (@AllocateSplice ns)).

(** The calls that need no other thread to hold still; the others take the
    list's splice. *)
Definition SkipList_Insert (x : node) (l : InlineSkipList) : R (bool * InlineSkipList) :=
  '(inserted, sp, m) ← run (Insert (H1 := nodes l) false x (seq_splice_ l) false) (mem l);
  Done (inserted, mkSkipList (nodes l) (kBranching_ l) (kScaledInverseBranching_ l) m sp).
End construct.
