(* ===== verification/SkipListInv.v ===== *)
(** * The skip list: its invariant, and programs that others interfere with

    Each level is a sorted chain from the head, within the level below. A program
    is proved with what others may do between its accesses, and what it
    promises them for its own. *)
From stdpp Require Import sorting.
From S2P Require Import Prelude Result Comparator Random SkipList.

(** The head is no key's. *)
Class NodesLaws (N : Nodes) := head_has_no_key : key_of !! head_ = None.

Section order.
Context `{B : Build, C : Comparator, CL : !ComparatorLaws C, N : Nodes, NL : !NodesLaws N}.

(** ** The order of nodes *)

Definition keyed (x : node) : Prop := is_Some (key_of !! x).
Definition klt (x y : node) : Prop := ∃ kx ky, key_of !! x = Some kx ∧ key_of !! y = Some ky ∧ Compare kx ky < 0.
(** The head comes before all others. *)
Definition hlt (x y : node) : Prop := x = head_ ∧ keyed y ∨ klt x y.

Lemma Compare_refl k : Compare k k = 0.
Proof. pose proof (Compare_flip k k). lia. Qed.
Lemma klt_trans x y z : klt x y → klt y z → klt x z.
Proof.
  intros (kx & ky & Ex & Ey & Hxy) (ky' & kz & Ey' & Ez & Hyz). rewrite Ey in Ey'. injection Ey' as <-. exists kx, kz. split_and!; [done|done|].
  eapply Compare_lt_le; [exact Hxy|lia].
Qed.
Lemma klt_irrefl x : ¬ klt x x.
Proof. intros (k & k' & E & E' & Hlt). rewrite E in E'. injection E' as <-. rewrite Compare_refl in Hlt. lia. Qed.
Lemma klt_keyed x y : klt x y → keyed x ∧ keyed y.
Proof. intros (kx & ky & ? & ? & _). split; by eexists. Qed.
Lemma keyed_not_head x : keyed x → x ≠ head_.
Proof. intros [k Hk] ->. by rewrite head_has_no_key in Hk. Qed.
Lemma hlt_klt x y z : hlt x y → klt y z → hlt x z.
Proof. intros [[-> _]|Hxy] Hyz; [left; split; [done|by apply (klt_keyed y z)]|right; by apply (klt_trans x y z)]. Qed.
Lemma hlt_keyed x y : hlt x y → keyed y.
Proof. intros [[_ ?]|H%klt_keyed]; [done|apply H]. Qed.
Lemma hlt_klt_keyed x y : keyed x → hlt x y → klt x y.
Proof. intros Hk [[-> _]|?]; [by apply keyed_not_head in Hk|done]. Qed.
Lemma hlt_irrefl x : ¬ hlt x x.
Proof. intros [[-> Hk]|Hk]; [by apply keyed_not_head in Hk|by apply klt_irrefl in Hk]. Qed.

(** Nodes before a key, and pointers to nodes that are not. *)
Definition before (x : node) (key : bytes) : Prop := x = head_ ∨ ∃ kx, key_of !! x = Some kx ∧ Compare kx key < 0.
Definition at_or_after (key : bytes) (y : node) : Prop := ∃ ky, key_of !! y = Some ky ∧ 0 ≤ Compare ky key.

Lemma before_at_or_after x y key : before x key → at_or_after key y → hlt x y.
Proof.
  intros [->|(kx & Ex & Hx)] (ky & Ey & Hy); [left; split; [done|by eexists]|right]. exists kx, ky. split_and!; [done|done|].
  pose proof (Compare_flip ky key). eapply Compare_lt_le; [exact Hx|]. pose proof (Compare_flip key ky). lia.
Qed.
Lemma before_klt x y key : klt x y → before y key → before x key.
Proof.
  intros Hxy [->|(ky & Ey & Hy)]; [by apply klt_keyed in Hxy as [_ Hk%keyed_not_head]|]. right. destruct Hxy as (kx & ky' & Ex & Ey' & Hlt).
  rewrite Ey in Ey'. injection Ey' as <-. exists kx. split; [done|]. eapply Compare_lt_le; [exact Hlt|lia].
Qed.
Lemma at_or_after_klt key x y : at_or_after key x → klt x y → at_or_after key y.
Proof.
  intros (kx & Ex & Hx) (kx' & ky & Ex' & Ey & Hlt). rewrite Ex in Ex'. injection Ex' as <-. exists ky. split; [done|].
  destruct (decide (0 ≤ Compare ky key)) as [|Hn]; [done|]. pose proof (Compare_lt_le kx ky key Hlt ltac:(lia)). lia.
Qed.
Lemma before_not_after key y ky : key_of !! y = Some ky → before y key ↔ Compare ky key < 0.
Proof.
  intros E. split; [|intros ?; right; by exists ky]. intros [->|(k & E' & Hk)]; [by rewrite head_has_no_key in E|]. rewrite E in E'. by injection E' as <-.
Qed.

(** ** Levels *)

Fixpoint chain (m : memory) (i : nat) (x : node) (l : list node) : Prop :=
  match l with
  | [] => read_link m i x = Done None
  | y :: l' => read_link m i x = Done (Some y) ∧ chain m i y l'
  end.
Definition linked (m : memory) (i : nat) (y : node) : Prop := (i < kMaxHeight_)%nat ∧ ∃ l, chain m i head_ l ∧ y ∈ l.

Record lists_ok (L : nat → list node) (m : memory) : Prop := {
  lo_chain : ∀ i, (i < kMaxHeight_)%nat → chain m i head_ (L i);
  lo_sorted : ∀ i, (i < kMaxHeight_)%nat → StronglySorted klt (L i);
  lo_keyed : ∀ i y, (i < kMaxHeight_)%nat → y ∈ L i → keyed y;
  lo_below : ∀ i, (S i < kMaxHeight_)%nat → L (S i) ⊆ L i;
  lo_max : (1 ≤ max_height_ m ≤ kMaxHeight_)%nat;
}.
Definition inv (m : memory) : Prop := ∃ L, lists_ok L m.

Lemma chain_det m i x l l' : chain m i x l → chain m i x l' → l = l'.
Proof.
  revert x l'. induction l as [|y l IH]; intros x [|y' l']; cbn; [done|by intros -> []|by intros [-> _]|].
  intros [-> Hl] [[= <-] Hl']. by rewrite (IH y l').
Qed.
Lemma linked_list L m i y : lists_ok L m → (i < kMaxHeight_)%nat → linked m i y ↔ y ∈ L i.
Proof.
  intros HL Hi. split; [|intros Hy; split; [done|]; exists (L i); split; [by apply lo_chain|done]]. intros (_ & l & Hc & Hy).
  by rewrite (chain_det _ _ _ _ _ (lo_chain _ _ HL i Hi) Hc).
Qed.
Lemma linked_keyed m i y : inv m → linked m i y → keyed y.
Proof. intros [L HL] Hy. pose proof (proj1 Hy) as Hi. apply (linked_list L) in Hy; [|done..]. by apply (lo_keyed L m HL i). Qed.
Lemma linked_below m i y : inv m → linked m (S i) y → linked m i y.
Proof.
  intros [L HL] Hy. pose proof (proj1 Hy) as Hi. apply (linked_list L) in Hy; [|done..]. apply (linked_list L); [done|lia|]. by apply (lo_below L m HL i Hi).
Qed.
Lemma linked_le m i j y : inv m → (j ≤ i)%nat → linked m i y → linked m j y.
Proof. intros Hinv Hj. induction Hj as [|i Hj IH]; [done|]. intros Hy. by apply IH, linked_below. Qed.
(** Linked nodes are in a linear order. *)
Lemma linked_total m i y z : inv m → linked m i y → linked m i z → y = z ∨ klt y z ∨ klt z y.
Proof.
  intros [L HL] Hy Hz. pose proof (proj1 Hy) as Hi. apply (linked_list L) in Hy, Hz; [|done..].
  pose proof (lo_sorted L m HL i Hi) as Hs. apply list_elem_of_split in Hy as (a & b & E). rewrite E in Hz, Hs.
  apply StronglySorted_app in Hs as (Hab & _ & [_ Hb]%StronglySorted_inv). rewrite Forall_forall in Hb.
  apply elem_of_app in Hz as [Hz|[->|Hz]%elem_of_cons]; [right; right|by left|right; left; by apply Hb]. apply Hab; [done|left].
Qed.
Lemma linked_same_key m i j y z ky kz :
  inv m → linked m i y → linked m j z → key_of !! y = Some ky → key_of !! z = Some kz → Compare ky kz = 0 → y = z.
Proof.
  intros Hinv Hy%(linked_le _ _ 0) Hz%(linked_le _ _ 0) Ey Ez E; [|done || lia..].
  pose proof (Compare_flip kz ky).
  destruct (linked_total m 0 y z) as [|[(k & k' & E1 & E2 & Hlt)|(k & k' & E1 & E2 & Hlt)]]; [done..| |]; simplify_eq; lia.
Qed.

Lemma head_sorted L m i : lists_ok L m → (i < kMaxHeight_)%nat → StronglySorted hlt (head_ :: L i).
Proof.
  intros HL Hi. constructor.
  - pose proof (lo_sorted L m HL i Hi) as Hs. induction Hs as [|x l Hs IH Hx]; constructor; [done|]. eapply Forall_impl; [exact Hx|]. intros y Hy. by right.
  - apply Forall_forall. intros y Hy. left. split; [done|]. by apply (lo_keyed L m HL i).
Qed.
Lemma chain_from m i x l a p b : chain m i x l → x :: l = a ++ p :: b → chain m i p b.
Proof.
  revert x a. induction l as [|y l IH]; intros x a Hc E.
  - destruct a as [|z [|]]; cbn in E; [by injection E as -> <-|by injection E..].
  - destruct a as [|z a]; cbn in E; injection E as -> E.
    + by subst b.
    + destruct Hc as [_ Hc]. by apply (IH y a).
Qed.

(** What follows [x] on its level. *)
Lemma next_spec m i x :
  inv m → (i < kMaxHeight_)%nat → x = head_ ∨ linked m i x →
  ∃ o, read_link m i x = Done o ∧ (∀ y, o = Some y → linked m i y ∧ hlt x y) ∧
    (∀ z, linked m i z → hlt x z → ∃ y, o = Some y ∧ (y = z ∨ klt y z)).
Proof.
  intros [L HL] Hi Hx. pose proof (head_sorted L m i HL Hi) as Hs.
  assert (x ∈ head_ :: L i) as (a & b & E)%list_elem_of_split.
  { destruct Hx as [->|Hx]; [left|right]. by apply (linked_list L m i x). }
  pose proof (chain_from _ _ _ _ _ _ _ (lo_chain _ _ HL i Hi) E) as Hc. rewrite E in Hs.
  apply StronglySorted_app in Hs as (Hab & _ & Hs). apply StronglySorted_inv in Hs as [Hsb Hxb]. rewrite Forall_forall in Hxb.
  assert (∀ y, y ∈ b → linked m i y) as Hb.
  { intros y Hy. apply (linked_list L); [done..|]. assert (y ∈ a ++ x :: b) as Hin by (apply elem_of_app; right; by right). rewrite <- E in Hin.
    apply elem_of_cons in Hin as [->|]; [|done]. by destruct (keyed_not_head head_ (hlt_keyed x head_ (Hxb head_ Hy))). }
  exists (head b). split; [destruct b; apply Hc|]. split.
  - intros y Ey. assert (y ∈ b) as Hy by (destruct b; [done|injection Ey as ->; left]). split; [by apply Hb|by apply Hxb].
  - intros z Hz Hxz. apply (linked_list L) in Hz; [|done..]. assert (z ∈ a ++ x :: b) as Hin by (rewrite <- E; by right).
    apply elem_of_app in Hin as [Hza|[->|Hzb]%elem_of_cons].
    + destruct (hlt_irrefl z). apply (hlt_klt z x z); [apply Hab; [done|left]|]. apply hlt_klt_keyed; [|done].
      destruct Hx as [->|Hx]; [|by apply (linked_keyed m i); [exists L|]]. destruct (hlt_irrefl head_). 
      by destruct (keyed_not_head head_ (hlt_keyed z head_ (Hab z head_ Hza ltac:(left)))).
    + by apply hlt_irrefl in Hxz.
    + destruct b as [|y b]; [by apply elem_of_nil in Hzb|]. exists y. split; [done|]. apply elem_of_cons in Hzb as [->|Hzb]; [by left|right].
      apply StronglySorted_inv in Hsb as [_ Hyb]. rewrite Forall_forall in Hyb. apply hlt_klt_keyed; [|by apply Hyb].
      apply (linked_keyed m i); [by exists L|]. apply Hb. left.
Qed.

(** ** Writes *)

Lemma read_link_write m i p v j z : read_link (write_link m i p v) j z = if bool_decide ((j, z) = (i, p)) then Done v else read_link m j z.
Proof.
  unfold read_link, read_cell, write_link. cbn [next_]. case_bool_decide as E.
  - injection E as -> ->. by rewrite lookup_insert_eq.
  - rewrite lookup_insert_ne; [done|]. intros [= -> ->]. done.
Qed.
Lemma read_link_other m i p v j z : (j, z) ≠ (i, p) → read_link (write_link m i p v) j z = read_link m j z.
Proof. intros Hne. rewrite read_link_write. by rewrite bool_decide_false. Qed.
Lemma chain_ext m m' i x l : (∀ z, z ∈ x :: l → read_link m' i z = read_link m i z) → chain m i x l → chain m' i x l.
Proof.
  revert x. induction l as [|y l IH]; intros x Hr; cbn; [by rewrite Hr by left|]. intros [Hx Hl]. rewrite Hr by left. split; [done|].
  apply IH; [|done]. intros z Hz. apply Hr. by right.
Qed.
Lemma lists_ok_ext L m m' :
  (∀ i z, z = head_ ∨ linked m i z → read_link m' i z = read_link m i z) → (1 ≤ max_height_ m' ≤ kMaxHeight_)%nat → lists_ok L m → lists_ok L m'.
Proof.
  intros Hr Hmax HL. destruct (HL) as [Hc Hs Hk Hb Hm]. split; [|done..]. intros i Hi. apply (chain_ext m); [|by apply Hc].
  intros z [->|Hz]%elem_of_cons; apply Hr; [by left|right]. by apply (linked_list L).
Qed.
Lemma same_lists L m m' : lists_ok L m → lists_ok L m' → ∀ i y, linked m i y ↔ linked m' i y.
Proof.
  intros HL HL' i y. split; intros Hy; pose proof (proj1 Hy) as Hi.
  - apply (linked_list L m' i y HL' Hi). by apply (linked_list L m i y).
  - apply (linked_list L m i y HL Hi). by apply (linked_list L m' i y).
Qed.

(** A node's own links may change before it is linked. *)
Lemma write_own m i x v : inv m → x ≠ head_ → ¬ linked m i x → inv (write_link m i x v) ∧ ∀ j y, linked (write_link m i x v) j y ↔ linked m j y.
Proof.
  intros [L HL] Hx Hn. assert (lists_ok L (write_link m i x v)) as HL'; [|split; [by exists L|intros; by apply (same_lists L)]].
  apply (lists_ok_ext L m); [|by destruct HL|done]. intros j z Hz. apply read_link_other. intros [= -> ->]. by destruct Hz.
Qed.
Lemma write_max m h : inv m → (1 ≤ h ≤ kMaxHeight_)%nat → inv (mkMemory (next_ m) h) ∧ ∀ j y, linked (mkMemory (next_ m) h) j y ↔ linked m j y.
Proof.
  intros [L HL] Hh. assert (lists_ok L (mkMemory (next_ m) h)) as HL'; [|split; [by exists L|intros; by apply (same_lists L)]].
  by apply (lists_ok_ext L m).
Qed.

Lemma chain_insert m i h l1 l2 p x :
  chain m i h (l1 ++ l2) → last (h :: l1) = Some p → NoDup (h :: l1 ++ l2) → x ∉ h :: l1 ++ l2 → read_link m i x = Done (head l2) →
  chain (write_link m i p (Some x)) i h (l1 ++ x :: l2).
Proof.
  revert h. induction l1 as [|y l1 IH]; intros h Hc Hp Hnd Hx Hr.
  - injection Hp as ->. cbn in Hc |- *. apply not_elem_of_cons in Hx as [Hxp Hx]. split; [rewrite read_link_write; by rewrite bool_decide_true|].
    apply NoDup_cons in Hnd as [Hpl Hnd]. assert (chain m i x l2) as Hc'.
    { destruct l2; cbn in Hc, Hr |- *; [done|]. by destruct Hc. }
    apply (chain_ext m); [|done]. intros z Hz. apply read_link_other. intros [= ->]. apply elem_of_cons in Hz as [->|]; done.
  - cbn in Hc |- *. destruct Hc as [Hh Hc]. apply NoDup_cons in Hnd as [Hhl Hnd]. apply not_elem_of_cons in Hx as [Hxh Hx].
    assert (p ∈ y :: l1) as Hpin by (apply last_Some_elem_of; by rewrite last_cons_cons in Hp).
    split; [|by apply IH]. rewrite read_link_other; [done|]. intros [= ->]. apply Hhl.
    apply (elem_of_app (y :: l1) l2 p). by left.
Qed.

Lemma klt_NoDup l : StronglySorted klt l → NoDup l.
Proof.
  induction 1 as [|x l Hs IH Hx]; constructor; [|done]. rewrite Forall_forall in Hx. intros Hin. by apply (klt_irrefl x), Hx.
Qed.
Lemma head_not_in L m i : lists_ok L m → (i < kMaxHeight_)%nat → head_ ∉ L i.
Proof. intros HL Hi Hin. by apply (keyed_not_head head_); [apply (lo_keyed L m HL i)|]. Qed.
(** A level cut after one of its nodes. *)
Lemma level_cut L m i p :
  lists_ok L m → (i < kMaxHeight_)%nat → p = head_ ∨ linked m i p →
  ∃ l1 l2, L i = l1 ++ l2 ∧ last (head_ :: l1) = Some p ∧ read_link m i p = Done (head l2) ∧ ∀ y, y ∈ l1 → y = p ∨ klt y p.
Proof.
  intros HL Hi Hp. pose proof (lo_chain L m HL i Hi) as Hc. assert (∀ x l, chain m i x l → read_link m i x = Done (head l)) as Hr by (intros x [|y l] Hl; apply Hl).
  destruct Hp as [->|Hp]; [exists [], (L i); split_and!; [done|done|by apply Hr|by intros y Hy%elem_of_nil]|].
  apply (linked_list L m i p HL Hi) in Hp. apply list_elem_of_split in Hp as (a & b & E).
  exists (a ++ [p]), b. split_and!; [by rewrite <- app_assoc|..].
  - change (head_ :: a ++ [p]) with ((head_ :: a) ++ [p]). by rewrite last_snoc.
  - apply Hr, (chain_from m i head_ (L i) (head_ :: a)); [done|]. by rewrite E.
  - intros y [Hy| ->%list_elem_of_singleton]%elem_of_app; [right|by left]. pose proof (lo_sorted L m HL i Hi) as Hs. rewrite E in Hs.
    apply StronglySorted_app in Hs as (Hs & _). apply Hs; [done|left].
Qed.
Lemma linked_iff L m j y : lists_ok L m → linked m j y ↔ (j < kMaxHeight_)%nat ∧ y ∈ L j.
Proof. intros HL. split; [intros Hy; pose proof (proj1 Hy); split; [done|by apply (linked_list L m j y HL)]|intros [? ?]; by apply (linked_list L m j y HL)]. Qed.
Lemma sorted_insert l1 l2 x :
  StronglySorted klt (l1 ++ l2) → (∀ y, y ∈ l1 → klt y x) → (∀ y, y ∈ l2 → klt x y) → StronglySorted klt (l1 ++ x :: l2).
Proof.
  rewrite !StronglySorted_app. intros (Hc & H1 & H2) Hl Hr. split_and!; [|done|].
  - intros y z Hy [->|Hz]%elem_of_cons; [by apply Hl|by apply Hc].
  - constructor; [done|]. by apply Forall_forall.
Qed.

(** The links of a node may be set as soon as it is on the levels below. *)
Lemma link_node m i p n x :
  inv m → (i < kMaxHeight_)%nat → p = head_ ∨ linked m i p → read_link m i p = Done n → hlt p x → (∀ y, n = Some y → klt x y) →
  (∀ j, i = S j → linked m j x) → read_link m i x = Done n →
  inv (write_link m i p (Some x)) ∧ ∀ j y, linked (write_link m i p (Some x)) j y ↔ linked m j y ∨ j = i ∧ y = x.
Proof.
  intros [L HL] Hi Hp Hn Hpx Hxn Hbelow Hx. destruct (level_cut L m i p HL Hi Hp) as (l1 & l2 & E & Hlast & Hr & Hl1p). rewrite Hn in Hr. injection Hr as ->.
  pose proof (lo_sorted L m HL i Hi) as Hs. pose proof (lo_chain L m HL i Hi) as Hc. pose proof (head_not_in L m i HL Hi) as Hh.
  pose proof (klt_NoDup _ Hs) as Hnd. assert (∀ y, y ∈ L i → keyed y) as Hk by (intros y; by apply (lo_keyed L m HL i)). rewrite E in Hs, Hc, Hh, Hnd, Hk.
  assert (∀ y, y ∈ l1 → klt y x) as Hl1.
  { intros y Hy. assert (keyed y) as Hky by (apply Hk, elem_of_app; by left). destruct (Hl1p y Hy) as [->|Hyp]; [by apply hlt_klt_keyed|].
    apply (klt_trans y p); [done|]. apply hlt_klt_keyed; [|done]. by apply (klt_keyed y p). }
  assert (∀ y, y ∈ l2 → klt x y) as Hl2.
  { intros y Hy. destruct l2 as [|z l2]; [by apply elem_of_nil in Hy|]. pose proof (Hxn z eq_refl) as Hxz. apply elem_of_cons in Hy as [->|Hy]; [done|].
    apply (klt_trans x z); [done|]. apply StronglySorted_app in Hs as (_ & _ & [_ Hz]%StronglySorted_inv). rewrite Forall_forall in Hz. by apply Hz. }
  assert (x ∉ head_ :: l1 ++ l2) as Hxl.
  { intros [Hin|[Hin|Hin]%elem_of_app]%elem_of_cons; [by apply (keyed_not_head x); [apply (hlt_keyed p)|]|by apply (klt_irrefl x), Hl1|by apply (klt_irrefl x), Hl2]. }
  pose (L' j := if decide (j = i) then l1 ++ x :: l2 else L j).
  assert (lists_ok L' (write_link m i p (Some x))) as HL'.
  { split.
    - intros j Hj. unfold L'. destruct (decide (j = i)) as [->|Hne]; [apply chain_insert; try done; by constructor|].
      apply (chain_ext m); [|by apply (lo_chain L m HL)]. intros z _. apply read_link_other. by intros [= ? ?].
    - intros j Hj. unfold L'. destruct (decide (j = i)) as [->|Hne]; [by apply sorted_insert|by apply (lo_sorted L m HL)].
    - intros j y Hj. unfold L'. destruct (decide (j = i)) as [->|Hne]; [|by apply (lo_keyed L m HL)]. rewrite elem_of_app, elem_of_cons.
      intros Hy. destruct (decide (y = x)) as [->|]; [by apply (hlt_keyed p)|]. apply Hk, elem_of_app. naive_solver.
    - intros j Hj y. unfold L'. pose proof (lo_below L m HL j Hj y) as Hjy. destruct (decide (S j = i)) as [<-|Hne].
      + rewrite decide_False by lia. rewrite elem_of_app, elem_of_cons. intros Hy. destruct (decide (y = x)) as [->|].
        * apply (linked_iff L m j x HL). by apply Hbelow.
        * apply Hjy. rewrite E. apply elem_of_app. naive_solver.
      + destruct (decide (j = i)) as [->|]; [|done]. intros Hy. specialize (Hjy Hy). rewrite E in Hjy. rewrite elem_of_app, elem_of_cons in *. naive_solver.
    - apply (lo_max L m HL). }
  split; [by exists L'|]. intros j y. rewrite (linked_iff L' _ j y HL'), (linked_iff L m j y HL).
  unfold L'. destruct (decide (j = i)) as [->|Hne]; [|naive_solver]. rewrite E, !elem_of_app, elem_of_cons. naive_solver.
Qed.
End order.
