(* ===== verification/SkipListLogic.v ===== *)
(** * Programs that others interfere with

    A program of SkipList is proved with what others may do to the memory before
    each of its accesses (its rely), and what it does itself (its guarantee).
    Threads whose guarantees are in one another's relies then run together in
    any order. *)
From stdpp Require Import relations.
From S2P Require Import Prelude Result SkipList.

Definition finished {A} (p : prog A) : bool := match p with Ret _ => true | _ => false end.

Section rg.
Context (rely guar : relation memory) `{!PreOrder rely, !PreOrder guar}.

(** From memory [m], whatever the others do, [p] makes no fault and ends with [Q]. *)
Inductive rg {A} (Q : A → memory → Prop) : prog A → memory → Prop :=
  | rg_ret a m : (∀ m', rely m m' → Q a m') → rg Q (Ret a) m
  | rg_access p m :
      finished p = false → (∀ m', rely m m' → ∃ r, access p m' = Done r) →
      (∀ m' p' m'', rely m m' → access p m' = Done (p', m'') → guar m' m'') →
      (∀ m' p' m'', rely m m' → access p m' = Done (p', m'') → rg Q p' m'') → rg Q p m.

(** Both of what an access must show. *)
Lemma rg_access' {A} (Q : A → memory → Prop) p m :
  finished p = false → (∀ m', rely m m' → ∃ r, access p m' = Done r) →
  (∀ m' p' m'', rely m m' → access p m' = Done (p', m'') → guar m' m'' ∧ rg Q p' m'') → rg Q p m.
Proof. intros Hf Hr Hs. apply rg_access; [done|done|intros m' p' m'' Hm Hp; by apply (Hs m' p')..]. Qed.

Lemma rg_stable {A} (Q : A → memory → Prop) p m m' : rg Q p m → rely m m' → rg Q p m'.
Proof.
  intros Hwp Hm. destruct Hwp as [a m HQ|p m Hf Hr Hg Hs].
  - apply rg_ret. intros m1 Hm1. apply HQ. by trans m'.
  - apply rg_access; [done|..].
    + intros m1 Hm1. apply Hr. by trans m'.
    + intros m1 p' m2 Hm1. apply Hg. by trans m'.
    + intros m1 p' m2 Hm1. apply Hs. by trans m'.
Qed.
Lemma rg_mono {A} (Q Q' : A → memory → Prop) p m : rg Q p m → (∀ a m', Q a m' → Q' a m') → rg Q' p m.
Proof.
  intros Hwp HQ. induction Hwp as [a m Ha|p m Hf Hr Hg Hs IH]; [apply rg_ret; auto|]. apply rg_access; [done..|].
  intros m' p' m'' Hm Hp. by apply (IH m').
Qed.

(** In the end the others may still go on. *)
Lemma rg_stays {A} (Q : A → memory → Prop) p m : rg Q p m → rg (λ a m', ∀ m'', rely m' m'' → Q a m'') p m.
Proof.
  intros Hwp. induction Hwp as [a m Ha|p m Hf Hr Hg Hs IH]; [|by apply rg_access]. apply rg_ret. intros m1 Hm1 m2 Hm2. apply Ha. by trans m1.
Qed.

(** What all steps keep holds from start to end. *)
Lemma rg_frame {A} (T : relation memory) `{!PreOrder T} (Q : A → memory → Prop) p m :
  (∀ m m', rely m m' → T m m') → (∀ m m', guar m m' → T m m') → rg Q p m → rg (λ a m', Q a m' ∧ T m m') p m.
Proof.
  intros HR HG Hwp. induction Hwp as [a m Ha|p m Hf Hr Hg Hs IH]; [apply rg_ret; auto|]. apply rg_access; [done..|].
  intros m' p' m'' Hm Hp. eapply rg_mono; [by apply (IH m')|]. cbn.
  intros a m1 [HQ HT]. split; [done|]. trans m'; [by apply HR|]. trans m''; [by apply HG, (Hg m' p')|done].
Qed.

Lemma access_bind {A B} (f : A → prog B) p m :
  finished p = false → access (p ≫= f) m = ('(p', m') ← access p m; Done (p' ≫= f, m')).
Proof.
  intros Hp. unfold mbind, prog_mbind. destruct p; cbn [prog_bind access] in *; try done.
  - by destruct (read_link m n x).
  - by destruct (read_cell m n x).
  - destruct (read_link m n x); [|done]. cbn [mbind R_bind]. by destruct (bool_decide _).
  - destruct (read_cell m 0 x) as [[]|]; done.
  - by destruct (bool_decide _).
Qed.
Lemma finished_bind {A B} (f : A → prog B) p : finished p = false → finished (p ≫= f) = false.
Proof. by destruct p. Qed.

Lemma rg_bind {A B} (Q : B → memory → Prop) (f : A → prog B) p m : rg (λ a m', rg Q (f a) m') p m → rg Q (p ≫= f) m.
Proof.
  induction 1 as [a m Ha|p m Hf Hr Hg Hs IH]; [by apply Ha|]. apply rg_access'; [by apply finished_bind|..].
  - intros m' Hm. rewrite access_bind by done. destruct (Hr m' Hm) as [[p' m1] ->]. by eexists.
  - intros m' p' m'' Hm. rewrite access_bind by done. destruct (Hr m' Hm) as [[p1 m1] E]. rewrite E. intros [= <- <-].
    split; [by apply (Hg m' p1)|by apply (IH m')].
Qed.

(** A function that hands on what another returns. *)
Lemma rg_hand_on {A A'} (Q : A → memory → Prop) (Q' : A' → memory → Prop) p (f : A → prog A') (ret : A → A') m :
  rg Q p m → (∀ a, f a = Ret (ret a)) → (∀ a m, Q a m → Q' (ret a) m) → rg Q' (p ≫= f) m.
Proof.
  intros Hwp Hf Hret. apply rg_bind. eapply rg_mono; [by apply rg_stays|]. intros a m1 Ha. rewrite Hf. apply rg_ret. intros m2 Hm2. by apply Hret, Ha.
Qed.

(** ** A rule for each kind of access *)

Lemma rg_lift {A B} (Q : B → memory → Prop) (r : R A) a (f : A → prog B) m : r = Done a → rg Q (f a) m → rg Q (lift r ≫= f) m.
Proof. by intros ->. Qed.
Lemma rg_next {A} (Q : A → memory → Prop) x n k m :
  (∀ m', rely m m' → ∃ o, read_link m' n x = Done o ∧ rg Q (k o) m') → rg Q (Next x n k) m.
Proof.
  intros Hk. apply rg_access'; [done|..]; cbn [access].
  - intros m' Hm. destruct (Hk m' Hm) as (o & -> & _). by eexists.
  - intros m' p' m'' Hm. destruct (Hk m' Hm) as (o & -> & Hwp). by intros [= <- <-].
Qed.
Lemma rg_set_next {A} (Q : A → memory → Prop) x n v k m :
  (∀ m', rely m m' → ∃ c, read_cell m' n x = Done c ∧ guar m' (write_link m' n x v) ∧ rg Q k (write_link m' n x v)) → rg Q (SetNext x n v k) m.
Proof.
  intros Hk. apply rg_access'; [done|..]; cbn [access].
  - intros m' Hm. destruct (Hk m' Hm) as (c & -> & _). by eexists.
  - intros m' p' m'' Hm. destruct (Hk m' Hm) as (c & -> & Hwp). by intros [= <- <-].
Qed.
Lemma rg_cas {A} (Q : A → memory → Prop) x n expected v k m :
  (∀ m', rely m m' → ∃ o, read_link m' n x = Done o ∧
     (o = expected → guar m' (write_link m' n x v) ∧ rg Q (k true) (write_link m' n x v)) ∧ (o ≠ expected → rg Q (k false) m')) →
  rg Q (CASNext x n expected v k) m.
Proof.
  intros Hk. apply rg_access'; [done|..]; cbn [access].
  - intros m' Hm. destruct (Hk m' Hm) as (o & -> & _). cbn [mbind R_bind]. case_bool_decide; by eexists.
  - intros m' p' m'' Hm. destruct (Hk m' Hm) as (o & -> & Ht & Hf). cbn [mbind R_bind]. case_bool_decide as E; intros [= <- <-]; [by apply Ht|split; [done|by apply Hf]].
Qed.
Lemma rg_unstash {A} (Q : A → memory → Prop) x k m :
  (∀ m', rely m m' → ∃ h, read_cell m' 0 x = Done (StashedHeight h) ∧ rg Q (k h) m') → rg Q (UnstashHeight x k) m.
Proof.
  intros Hk. apply rg_access'; [done|..]; cbn [access].
  - intros m' Hm. destruct (Hk m' Hm) as (o & -> & _). by eexists.
  - intros m' p' m'' Hm. destruct (Hk m' Hm) as (o & -> & Hwp). by intros [= <- <-].
Qed.
Lemma rg_load_max {A} (Q : A → memory → Prop) k m : (∀ m', rely m m' → rg Q (k (max_height_ m')) m') → rg Q (LoadMax k) m.
Proof.
  intros Hk. apply rg_access'; [done|..]; cbn [access]; [by eexists|]. intros m' p' m'' Hm [= <- <-]. split; [done|by apply Hk].
Qed.
Lemma rg_cas_max {A} (Q : A → memory → Prop) expected v k m :
  (∀ m', rely m m' →
     (max_height_ m' = expected → guar m' (mkMemory (next_ m') v) ∧ rg Q (k None) (mkMemory (next_ m') v)) ∧
     (max_height_ m' ≠ expected → rg Q (k (Some (max_height_ m'))) m')) →
  rg Q (CASMax expected v k) m.
Proof.
  intros Hk. apply rg_access'; [done|..]; cbn [access].
  - intros m' Hm. case_bool_decide; by eexists.
  - intros m' p' m'' Hm. destruct (Hk m' Hm) as [Ht Hf]. case_bool_decide as E; intros [= <- <-]; [by apply Ht|split; [done|by apply Hf]].
Qed.
End rg.

(** Others may do less, and more may be promised. *)
Lemma rg_weaken {A} (rely guar rely' guar' : relation memory) (Q : A → memory → Prop) p m :
  (∀ m m', rely' m m' → rely m m') → (∀ m m', guar m m' → guar' m m') → rg rely guar Q p m → rg rely' guar' Q p m.
Proof.
  intros HR HG. induction 1 as [a m Ha|p m Hf Hr Hg Hs IH]; [apply rg_ret; auto|]. apply rg_access; [done|auto|..].
  - intros m' p' m'' Hm Hp. apply HG, (Hg m' p'); auto.
  - intros m' p' m'' Hm Hp. apply (IH m'); auto.
Qed.

(** ** A program alone *)

Lemma run_access {A} (p : prog A) m : finished p = false → run p m = ('(p', m') ← access p m; run p' m').
Proof.
  intros Hp. destruct p; cbn [run access] in *; try done.
  - by destruct (read_link m n x).
  - by destruct (read_cell m n x).
  - destruct (read_link m n x); [|done]. cbn [mbind R_bind]. by destruct (bool_decide _).
  - destruct (read_cell m 0 x) as [[]|]; done.
  - by destruct (bool_decide _).
Qed.
Lemma rg_run {A} guar (Q : A → memory → Prop) p m : rg eq guar Q p m → ∃ a m', run p m = Done (a, m') ∧ Q a m'.
Proof.
  induction 1 as [a m Ha|p m Hf Hr Hg Hs IH]; [exists a, m; split; [done|by apply Ha]|]. rewrite run_access by done.
  destruct (Hr m eq_refl) as [[p' m'] E]. destruct (IH m p' m' eq_refl E) as (a & m1 & E' & HQ). exists a, m1. by rewrite E.
Qed.

(** ** Threads *)

(** The threads and their memory; any one of them makes the next access. *)
Inductive threads_step {A} : list (prog A) * memory → list (prog A) * memory → Prop :=
  threads_access ps m t p p' m' :
    ps !! t = Some p → finished p = false → access p m = Done (p', m') → threads_step (ps, m) (<[t := p']> ps, m').

(** Each access leaves less of its program to run. *)
Inductive child {A} : prog A → prog A → Prop := is_child p p' m m' : finished p = false → access p m = Done (p', m') → child p' p.
Lemma child_inv {A} (p' p : prog A) : child p' p → ∃ m m', finished p = false ∧ access p m = Done (p', m').
Proof. intros [q q' m m' Hf E]. by exists m, m'. Qed.
Lemma child_wf {A} : well_founded (@child A).
Proof.
  intros p. induction p as [a|f|x n k IH|x n v k IH|x n e v k IH|x k IH|k IH|e v k IH]; constructor; intros p' Hc; destruct (child_inv _ _ Hc) as (m & m' & Hf & E);
    cbn [access] in E.
  - discriminate Hf.
  - discriminate E.
  - apply R_bind_Done in E as (? & _ & [= <- _]). apply IH.
  - apply R_bind_Done in E as (? & _ & [= <- _]). apply IH.
  - apply R_bind_Done in E as (? & _ & E). case_bool_decide; injection E as <- _; apply IH.
  - apply R_bind_Done in E as (c & _ & E). destruct c; [discriminate E| |discriminate E]. injection E as <- _. apply IH.
  - injection E as <- _. apply IH.
  - case_bool_decide; injection E as <- _; apply IH.
Qed.

Inductive less {A} : list (prog A) → list (prog A) → Prop := is_less ps t p p' : ps !! t = Some p → child p' p → less (<[t := p']> ps) ps.
Lemma less_wf {A} : well_founded (@less A).
Proof.
  intros ps. induction ps as [|p ps IH]; [constructor; intros qs Hl; inversion Hl; done|].
  revert ps IH. induction (child_wf p) as [p _ IHp]. intros ps IH. induction IH as [ps Hps IHps].
  constructor. intros qs Hl. inversion Hl as [? t q q' Ht Hc]; subst. destruct t as [|t]; cbn in Ht |- *.
  - injection Ht as ->. by apply IHp.
  - by apply IHps, (is_less ps t q).
Qed.

(** However the threads take turns, they come to an end. *)
Lemma threads_end {A} (c : list (prog A) * memory) : Acc (flip threads_step) c.
Proof.
  destruct c as [ps m]. revert m. induction (less_wf ps) as [ps _ IH]. intros m. constructor. intros c Hst. inversion Hst as [? ? t p p' m' Ht Hf E]; subst.
  apply IH, (is_less ps t p p'); [done|by apply (is_child p p' m m')].
Qed.

(** Where every thread of a pool is proved against the guarantees of the others. *)
Section pool.
Context {A : Type} (rely guar : nat → relation memory) (Q : nat → A → memory → Prop).
Context `{!∀ t, PreOrder (rely t), !∀ t, PreOrder (guar t)}.
Context (compatible : ∀ s t m m', s ≠ t → guar s m m' → rely t m m').

Definition pool_ok (ps : list (prog A)) (m : memory) : Prop := ∀ t p, ps !! t = Some p → rg (rely t) (guar t) (Q t) p m.
Lemma pool_ok_step ps m ps' m' : pool_ok ps m → threads_step (ps, m) (ps', m') → pool_ok ps' m'.
Proof.
  intros Hok Hst. inversion Hst as [? ? t p p' ? Ht Hf E]; subst. pose proof (Hok t p Ht) as Hwp.
  inversion Hwp as [a ? ?|? ? _ _ Hg Hs]; subst; [done|]. assert (guar t m m') as Hgt by by apply (Hg m p').
  intros s q. rewrite list_lookup_insert_Some. intros [(<- & -> & _)|[Hst' Hq]]; [by apply (Hs m)|].
  apply (rg_stable _ _ _ _ m); [by apply Hok|]. by apply (compatible t s).
Qed.

(** No thread makes a fault, and those that have ended did so with what was proved. *)
Lemma pool_sound ps m ps' m' :
  pool_ok ps m → rtc threads_step (ps, m) (ps', m') →
  ∀ t p, ps' !! t = Some p → match p with Ret a => Q t a m' | _ => ∃ r, access p m' = Done r end.
Proof.
  intros Hok Hsteps. assert (pool_ok ps' m') as Hok'.
  { remember (ps, m) as c eqn:Ec. remember (ps', m') as c' eqn:Ec'. revert ps m Ec Hok. induction Hsteps as [c|c [ps1 m1] c' Hst Hsteps IH]; intros ps m -> Hok.
    - by injection Ec' as -> ->.
    - apply (IH Ec' ps1 m1 eq_refl). by apply (pool_ok_step ps m). }
  intros t p Ht. pose proof (Hok' t p Ht) as Hwp. inversion Hwp as [a ? HQ|? ? Hf Hr _ _]; subst; [by apply HQ|].
  specialize (Hr m' ltac:(reflexivity)). by destruct p.
Qed.
(** What every thread keeps is kept. *)
Lemma pool_keeps (T : relation memory) `{!PreOrder T} ps m ps' m' :
  pool_ok ps m → (∀ t p m m', ps !! t = Some p → guar t m m' → T m m') → rtc threads_step (ps, m) (ps', m') → T m m'.
Proof.
  intros Hok HT Hsteps. remember (ps, m) as c eqn:Ec. remember (ps', m') as c' eqn:Ec'. revert ps m Ec Hok HT.
  induction Hsteps as [c|c [ps1 m1] c' Hst Hsteps IH]; intros ps m -> Hok HT; [by injection Ec' as -> ->|].
  trans m1.
  - inversion Hst as [? ? t p p' ? Ht Hf E]; subst. pose proof (Hok t p Ht) as Hwp. inversion Hwp as [|? ? _ _ Hg _]; subst; [done|].
    apply (HT t p); [done|]. by apply (Hg m p').
  - apply (IH Ec' ps1 m1 eq_refl); [by apply (pool_ok_step ps m)|]. inversion Hst as [? ? t p p' ? Ht Hf E]; subst.
    intros s q m2 m3. rewrite list_lookup_insert_Some. intros [(<- & _)|[_ Hq]]; [by apply (HT t p)|by apply (HT s q)].
Qed.
End pool.
