(* ===== verification/SkipListSearch.v ===== *)
(** * Searches of the skip list while others insert

    A search finds what was in the list when it began, although nodes may be
    linked meanwhile; so does an iterator. What a splice promises, and the two
    writes that link a node on one level. *)
From S2P Require Import Prelude Result Comparator Random SkipList SkipListInv SkipListLogic.

Section search.
Context `{B : Build, C : Comparator, CL : !ComparatorLaws C, N : Nodes, NL : !NodesLaws N}.

(** ** What may happen to the list *)

(** Nodes may be linked and the list become higher. *)
Definition grow (m m' : memory) : Prop :=
  inv m → inv m' ∧ (∀ i y, linked m i y → linked m' i y) ∧ (max_height_ m ≤ max_height_ m')%nat.
#[export] Instance grow_preorder : PreOrder grow.
Proof.
  split; [done|]. intros m1 m2 m3 H12 H23 Hinv. destruct (H12 Hinv) as (Hinv2 & Hl & Hm). destruct (H23 Hinv2) as (? & Hl' & ?).
  split_and!; [done|auto|lia].
Qed.

(** ** How far a search has to go *)

#[export] Instance klt_dec x y : Decision (klt x y).
Proof.
  destruct (key_of !! x) as [kx|] eqn:Ex; [|right; intros (k & k' & E & _); congruence].
  destruct (key_of !! y) as [ky|] eqn:Ey; [|right; intros (k & k' & _ & E & _); congruence].
  destruct (decide (Compare kx ky < 0)) as [Hlt|Hn]; [left; by exists kx, ky|right]. intros (k & k' & E & E' & Hlt). congruence.
Defined.
#[export] Instance keyed_dec x : Decision (keyed x) := _.
#[export] Instance hlt_dec x y : Decision (hlt x y) := _.

Definition rank (x : node) : nat := size (filter (hlt x) (dom key_of)).
Lemma rank_le x : (rank x ≤ size key_of)%nat.
Proof. unfold rank. rewrite <- size_dom. apply subseteq_size. set_solver. Qed.
Lemma rank_lt x y : hlt x y → (rank y < rank x)%nat.
Proof.
  intros Hxy. pose proof (hlt_keyed _ _ Hxy) as Hy. unfold rank. apply subset_size. split.
  - intros z. rewrite !elem_of_filter. intros [Hyz Hz]. split; [|done]. apply (hlt_klt x y z); [done|by apply hlt_klt_keyed].
  - intros Hsub. destruct (hlt_irrefl y). specialize (Hsub y). rewrite !elem_of_filter, elem_of_dom in Hsub. by apply Hsub.
Qed.

(** ** The asserted order *)

Lemma KeyIsAfterNode_spec key n : (∀ y, n = Some y → keyed y) → ∃ b : bool, KeyIsAfterNode key n = Done b ∧
  match n with Some y => if b then before y key else at_or_after key y | None => b = false end.
Proof.
  intros Hn. unfold KeyIsAfterNode. destruct n as [y|].
  - destruct (Hn y eq_refl) as [ky Ey]. pose proof (keyed_not_head y ltac:(by exists ky)) as Hy.
    rewrite bool_decide_false by congruence. cbn [negb]. rewrite assert_true. cbn. unfold Key. rewrite Ey. cbn. eexists. split; [done|].
    destruct (Z.ltb_spec (Compare ky key) 0); [right|]; by exists ky.
  - rewrite bool_decide_false by done. rewrite assert_true. by eexists.
Qed.
Lemma KeyIsAfterNode_before key y : keyed y → before y key → KeyIsAfterNode key (Some y) = Done true.
Proof.
  intros Hy Hb. destruct (KeyIsAfterNode_spec key (Some y)) as ([] & E & Ha); [by intros ? [= <-]|done|]. destruct Ha as (ky & Ey & Ha).
  apply (before_not_after _ _ _ Ey) in Hb. lia.
Qed.
Lemma search_asserts_hold key x next :
  x = head_ ∨ keyed x → before x key → (∀ y, next = Some y → hlt x y) → search_asserts key x next = Ret ().
Proof.
  intros Hx Hb Hn. unfold search_asserts. assert (in_order x next = Done true) as ->.
  { unfold in_order, is_head. case_bool_decide as E; [done|]. destruct next as [y|]; [|done]. destruct Hx as [?|Hx]; [done|].
    destruct (hlt_klt_keyed x y Hx (Hn y eq_refl)) as (kx & ky & Ex & Ey & Hlt). unfold Key. rewrite Ey. cbn. apply KeyIsAfterNode_before; [done|].
    right. by exists kx. }
  assert (not_overshot key x = Done true) as ->.
  { unfold not_overshot, is_head. case_bool_decide as E; [done|]. destruct Hx as [?|Hx]; [done|]. by apply KeyIsAfterNode_before. }
  unfold debug_assert. by destruct NDEBUG.
Qed.

(** ** Where a key goes on a level *)

Definition on_level (m : memory) (i : nat) (x : node) : Prop := x = head_ ∨ linked m i x.
(** [p] and [n] follow each other on level [i] and enclose the key. *)
Record tight (key : bytes) (i : nat) (m : memory) (p : node) (n : option node) : Prop := {
  tight_inv : inv m;
  tight_level : (i < kMaxHeight_)%nat;
  tight_prev : on_level m i p;
  tight_before : before p key;
  tight_read : read_link m i p = Done n;
  tight_next : ∀ y, n = Some y → linked m i y ∧ at_or_after key y;
}.

Lemma on_level_keyed m i x : inv m → on_level m i x → x = head_ ∨ keyed x.
Proof. intros Hinv [?|?]; [by left|right]. by apply (linked_keyed m i). Qed.
Lemma on_level_grow m m' i x : inv m → grow m m' → on_level m i x → on_level m' i x.
Proof. intros Hinv Hg [->|Hx]; [by left|right]. by apply Hg. Qed.
Lemma on_level_below m i x : inv m → on_level m (S i) x → on_level m i x.
Proof. intros Hinv [->|Hx]; [by left|right]. by apply linked_below. Qed.
(** Everything linked is on one side of the key. *)
Lemma before_or_after key y : keyed y → before y key ∨ at_or_after key y.
Proof. intros [ky Ey]. destruct (Z.ltb_spec (Compare ky key) 0); [left; right|right]; by exists ky. Qed.
Lemma before_after_apart key y : before y key → ¬ at_or_after key y.
Proof. intros Hb (ky & Ey & Hy). apply (before_not_after _ _ _ Ey) in Hb. lia. Qed.
Lemma tight_after key i m p n z : tight key i m p n → linked m i z → at_or_after key z → ∃ y, n = Some y ∧ (y = z ∨ klt y z).
Proof.
  intros [Hinv Hi Hp Hb Hr _] Hz Ha. destruct (next_spec m i p Hinv Hi Hp) as (o & Ho & _ & Hn). rewrite Hr in Ho. injection Ho as <-.
  apply (Hn z Hz). by apply (before_at_or_after _ _ key).
Qed.
Lemma tight_last key i m p n z : tight key i m p n → linked m i z → before z key → z = p ∨ klt z p.
Proof.
  intros Ht Hz Hb. destruct (Ht) as [Hinv Hi Hp Hpb Hr Hn]. destruct (next_spec m i p Hinv Hi Hp) as (o & Ho & _ & Hlow). rewrite Hr in Ho. injection Ho as <-.
  assert (¬ hlt p z) as Hpz.
  { intros Hpz. destruct (Hlow z Hz Hpz) as (y & -> & Hyz). destruct (Hn y eq_refl) as [_ Hy]. destruct (before_after_apart key z Hb).
    destruct Hyz as [->|Hyz]; [done|]. by apply (at_or_after_klt key y). }
  destruct Hp as [->|Hp]; [destruct Hpz; left; split; [done|by apply (linked_keyed m i)]|].
  destruct (linked_total m i z p Hinv Hz Hp) as [->|[?|?]]; [by left|by right|]. destruct Hpz. by right.
Qed.

(** ** Searches among other threads *)

Section among.
Context (rely guar : relation memory) `{!PreOrder rely, !PreOrder guar} (rely_grow : ∀ m m', rely m m' → grow m m').

(** Where a search ends was right at some time since it began. *)
Definition seen_tight (key : bytes) (i : nat) (p : node) (m0 : memory) (r : node * option node) (m : memory) : Prop :=
  ∃ m1, rely m0 m1 ∧ rely m1 m ∧ tight key i m1 r.1 r.2 ∧ (r.1 = p ∨ hlt p r.1).
Lemma rg_find_splice fuel key p after i m :
  inv m → (i < kMaxHeight_)%nat → on_level m i p → before p key → (∀ y, after = Some y → at_or_after key y) → (rank p < fuel)%nat →
  rg rely guar (seen_tight key i p m) (find_splice fuel key p after i) m.
Proof.
  revert p m. induction fuel as [|fuel IH]; intros p m Hinv Hi Hp Hb Hafter Hfuel; [lia|]. cbn [find_splice].
  apply rg_next; [done|]. intros m1 Hm1. destruct (rely_grow _ _ Hm1 Hinv) as (Hinv1 & Hl1 & _).
  assert (on_level m1 i p) as Hp1 by (by apply (on_level_grow m); [|apply rely_grow|]).
  destruct (next_spec m1 i p Hinv1 Hi Hp1) as (o & Ho & Hnext & _). exists o. split; [done|].
  cbn beta. rewrite search_asserts_hold; [|by apply (on_level_keyed m1 i)|done|by intros y Hy; apply Hnext]. cbn [mbind prog_mbind prog_bind].
  assert (∀ y, o = Some y → keyed y) as Hk by (intros y Hy; by apply (linked_keyed m1 i); [|apply Hnext]).
  assert ((∀ y, o = Some y → linked m1 i y ∧ at_or_after key y) → rg rely guar (seen_tight key i p m) (Ret (p, o)) m1) as Hstop.
  { intros Hn. apply rg_ret. intros m2 Hm2. exists m1. split_and!; [done..| |by left]. by split. }
  destruct (decide (o = after)) as [->|Hne].
  - rewrite bool_decide_true by done. cbn. assert (rg rely guar (seen_tight key i p m) (Ret (p, after)) m1) by (apply Hstop; intros y Hy; split; [by apply Hnext|by apply Hafter]).
    by destruct after.
  - rewrite bool_decide_false by done. destruct (KeyIsAfterNode_spec key o Hk) as (b & -> & Hside). cbn.
    destruct o as [y|]; [|by apply Hstop]. destruct (Hnext y eq_refl) as [Hy Hpy]. destruct b; cbn; [|apply Hstop; by intros ? [= <-]].
    eapply rg_mono; [apply IH; [done|done|by right|done|done|]|].
    + pose proof (rank_lt p y Hpy). lia.
    + intros [q n] m2 (m3 & Hm3 & Hm2 & Ht & Hq). exists m3. split_and!; [by trans m1|done|done|]. right. cbn in *.
      destruct Hq as [->|Hq]; [done|]. apply (hlt_klt p y q); [done|]. apply hlt_klt_keyed; [by apply Hk|done].
Qed.
Lemma rg_FindSpliceForLevel key p after i m :
  inv m → (i < kMaxHeight_)%nat → on_level m i p → before p key → (∀ y, after = Some y → at_or_after key y) →
  rg rely guar (seen_tight key i p m) (FindSpliceForLevel key p after i) m.
Proof.
  intros. apply rg_find_splice; [done..|]. pose proof (rank_le p). unfold search_fuel. lia.
Qed.

(** The first of the nodes from a key on, among those that were there. *)
Definition first_from (key : bytes) (m0 : memory) (o : option node) (m : memory) : Prop :=
  inv m ∧ (∀ y, o = Some y → linked m 0 y ∧ at_or_after key y) ∧
  (∀ z, linked m0 0 z → at_or_after key z → ∃ y, o = Some y ∧ (y = z ∨ klt y z)).
Lemma rg_find_ge fuel key x level last_bigger m m0 :
  inv m0 → rely m0 m → (level < kMaxHeight_)%nat → on_level m level x → before x key →
  (∀ y, last_bigger = Some y → ∃ ky, key_of !! y = Some ky ∧ 0 < Compare ky key) → (rank x + level < fuel)%nat →
  rg rely guar (first_from key m0) (find_ge fuel key x level last_bigger) m.
Proof.
  intros Hinv0. revert x level last_bigger m. induction fuel as [|fuel IH]; intros x level lb m Hm Hi Hx Hb Hlb Hfuel; [lia|]. cbn [find_ge].
  apply rg_next; [done|]. intros m1 Hm1. assert (rely m0 m1) as Hm01 by by trans m. destruct (rely_grow _ _ Hm01 Hinv0) as (Hinv1 & Hl1 & _).
  assert (on_level m1 level x) as Hx1 by (apply (on_level_grow m); [by apply (rely_grow m0)|by apply rely_grow|done]).
  destruct (next_spec m1 level x Hinv1 Hi Hx1) as (o & Ho & Hnext & _). exists o. split; [done|].
  cbn beta. rewrite search_asserts_hold; [|by apply (on_level_keyed m1 level)|done|by intros y Hy; apply Hnext]. cbn [mbind prog_mbind prog_bind].
  assert (∀ lb', (∀ y, lb' = Some y → ∃ ky, key_of !! y = Some ky ∧ 0 < Compare ky key) → (0 < level)%nat →
    rg rely guar (first_from key m0) (find_ge fuel key x (level - 1) lb') m1) as Hdown.
  { intros lb' Hlb' Hpos. apply IH; [done|lia| |done|done|lia]. apply on_level_below; [done|]. by replace (S (level - 1)) with level by lia. }
  assert (level = 0%nat → (∀ y, o = Some y → at_or_after key y) → rg rely guar (first_from key m0) (Ret o) m1) as Hstop.
  { intros -> Ha. assert (tight key 0 m1 x o) as Ht by (split; [done..|]; intros y Hy; split; [by apply Hnext|by apply Ha]).
    apply rg_ret. intros m2 Hm2. split_and!; [by apply (rely_grow _ _ Hm2)|intros y Hy; split; [by apply (rely_grow _ _ Hm2 Hinv1), Hnext|by apply Ha]|].
    intros z Hz. apply (tight_after _ _ _ _ _ _ Ht). by apply Hl1. }
  destruct o as [y|]; [|cbn; destruct (Nat.eqb_spec level 0) as [->|Hne]; [by apply Hstop|apply Hdown; [done|lia]]].
  destruct (Hnext y eq_refl) as [Hy Hxy]. destruct (linked_keyed m1 level y Hinv1 Hy) as [ky Ey].
  assert (0 < Compare ky key → rg rely guar (first_from key m0) (if (level =? 0)%nat then Ret (Some y) else find_ge fuel key x (level - 1) (Some y)) m1) as Hbig.
  { intros Hlt. destruct (Nat.eqb_spec level 0) as [->|Hne].
    - apply Hstop; [done|]. intros ? [= <-]. exists ky. split; [done|lia].
    - apply Hdown; [|lia]. intros ? [= <-]. by exists ky. }
  destruct (decide (Some y = lb)) as [Elb|Hnlb].
  - rewrite bool_decide_true by done. cbn. destruct (Hlb y) as (ky' & Ey' & Hlt); [done|]. rewrite Ey in Ey'. injection Ey' as <-.
    specialize (Hbig Hlt). by destruct (level =? 0)%nat.
  - rewrite bool_decide_false by done. unfold Key. rewrite Ey. cbn [checked mbind R_bind].
    cbn [lift mbind prog_mbind prog_bind]. destruct (Z.eqb_spec (Compare ky key) 0) as [E|Hne].
    + cbn [orb]. apply rg_ret. intros m2 Hm2. assert (at_or_after key y) as Hay by (exists ky; split; [done|lia]). split_and!; [by apply (rely_grow _ _ Hm2)|..].
      * intros ? [= <-]. split; [|done]. apply (linked_le _ level); [by apply (rely_grow _ _ Hm2)|lia|]. by apply (rely_grow _ _ Hm2).
      * intros z Hz Haz. exists y. split; [done|]. destruct (linked_total m1 0 y z Hinv1) as [?|[?|Hzy]]; [|by apply Hl1|by left|by right|].
        { apply (linked_le _ level); [done|lia|done]. }
        destruct Hzy as (kz & ky' & Ez & Ey' & Hlt). rewrite Ey in Ey'. injection Ey' as <-. destruct Haz as (kz' & Ez' & Hz'). rewrite Ez in Ez'. injection Ez' as <-.
        pose proof (Compare_lt_le kz ky key Hlt ltac:(lia)). lia.
    + cbn [orb]. destruct (Z.ltb_spec 0 (Compare ky key)) as [Hlt|Hle]; cbn [andb].
      * specialize (Hbig Hlt). destruct (level =? 0)%nat; [done|]. by rewrite (proj2 (Z.ltb_ge _ _)) by lia.
      * rewrite (proj2 (Z.ltb_lt _ _)) by lia. apply IH; [done|done|by right| |done|pose proof (rank_lt x y Hxy); lia]. right. exists ky. split; [done|lia].
Qed.

(** A step of a search: what it reads, and where it can go on. *)
Lemma rg_search_read {A} (Q : A → memory → Prop) m0 m level x (k : option node → prog A) :
  inv m0 → rely m0 m → (level < kMaxHeight_)%nat → on_level m level x →
  (∀ m1 o, rely m m1 → rely m0 m1 → inv m1 → on_level m1 level x → read_link m1 level x = Done o →
     (∀ y, o = Some y → linked m1 level y ∧ hlt x y ∧ keyed y) → (∀ z, linked m0 0 z → linked m1 0 z) → rg rely guar Q (k o) m1) →
  rg rely guar Q (Next x level k) m.
Proof.
  intros Hinv0 Hm Hi Hx Hk. apply rg_next; [done|]. intros m1 Hm1. assert (rely m0 m1) as Hm01 by by trans m. destruct (rely_grow _ _ Hm01 Hinv0) as (Hinv1 & Hl1 & _).
  assert (on_level m1 level x) as Hx1 by (apply (on_level_grow m); [by apply (rely_grow m0)|by apply rely_grow|done]).
  destruct (next_spec m1 level x Hinv1 Hi Hx1) as (o & Ho & Hnext & _). exists o. split; [done|]. apply Hk; try done; [|auto].
  intros y Hy. destruct (Hnext y Hy) as [Hly ?]. split_and!; [done|done|by apply (linked_keyed m1 level)].
Qed.
Lemma level_down m level x : inv m → on_level m level x → on_level m (level - 1) x.
Proof. intros Hinv Hx. destruct level as [|level]; [done|]. cbn. rewrite Nat.sub_0_r. by apply on_level_below. Qed.

(** The last of the nodes before a key. *)
Definition last_before (key : bytes) (m0 : memory) (x : node) (m : memory) : Prop :=
  inv m ∧ on_level m 0 x ∧ before x key ∧ ∀ z, linked m0 0 z → before z key → z = x ∨ klt z x.
Lemma rg_find_lt fuel key x level last_not_after m m0 :
  inv m0 → rely m0 m → (level < kMaxHeight_)%nat → on_level m level x → before x key →
  (∀ y, last_not_after = Some y → at_or_after key y) → (rank x + level < fuel)%nat →
  rg rely guar (last_before key m0) (find_lt fuel key x level 0 last_not_after) m.
Proof.
  intros Hinv0. revert x level last_not_after m. induction fuel as [|fuel IH]; intros x level lna m Hm Hi Hx Hb Hlna Hfuel; [lia|]. cbn [find_lt].
  apply (rg_search_read _ m0); [done..|]. intros m1 o Hm1 Hm01 Hinv1 Hx1 Ho Hnext Hl1.
  rewrite search_asserts_hold; [|by apply (on_level_keyed m1 level)|done|by intros y Hy; apply Hnext]. cbn [mbind prog_mbind prog_bind].
  assert ((∀ y, o = Some y → at_or_after key y) →
    rg rely guar (last_before key m0) (if (level =? 0)%nat then Ret x else find_lt fuel key x (level - 1) 0 o) m1) as Hstop.
  { intros Ha. destruct (Nat.eqb_spec level 0) as [->|Hne]; [|apply IH; [done|lia|by apply level_down|done|done|lia]].
    apply rg_ret. intros m2 Hm2. split_and!; [by apply (rely_grow _ _ Hm2)|by apply (on_level_grow m1); [|apply rely_grow|]|done|]. intros z Hz Hbz.
    apply (tight_last key 0 m1 x o); [|by apply Hl1|done]. split; [done..|]. intros y Hy. split; [by apply Hnext|by apply Ha]. }
  destruct (decide (o = lna)) as [->|Hne].
  - rewrite bool_decide_true by done. cbn. specialize (Hstop Hlna). by destruct lna.
  - rewrite bool_decide_false by done. destruct (KeyIsAfterNode_spec key o) as (b & -> & Hside); [intros; by apply Hnext|]. cbn.
    destruct o as [y|]; [|by apply Hstop]. destruct (Hnext y eq_refl) as (Hy & Hxy & _). destruct b; [|apply Hstop; by intros ? [= <-]].
    apply IH; [done|done|by right|done|done|]. pose proof (rank_lt x y Hxy). lia.
Qed.

(** The last of all. *)
Definition last_of_all (m0 : memory) (x : node) (m : memory) : Prop := inv m ∧ on_level m 0 x ∧ ∀ z, linked m0 0 z → z = x ∨ klt z x.
Lemma rg_find_last fuel x level m m0 :
  inv m0 → rely m0 m → (level < kMaxHeight_)%nat → on_level m level x → (rank x + level < fuel)%nat →
  rg rely guar (last_of_all m0) (find_last fuel x level) m.
Proof.
  intros Hinv0. revert x level m. induction fuel as [|fuel IH]; intros x level m Hm Hi Hx Hfuel; [lia|]. cbn [find_last].
  apply (rg_search_read _ m0); [done..|]. intros m1 o Hm1 Hm01 Hinv1 Hx1 Ho Hnext Hl1. destruct o as [y|].
  - destruct (Hnext y eq_refl) as (Hy & Hxy & _). apply IH; [done|done|by right|]. pose proof (rank_lt x y Hxy). lia.
  - destruct (Nat.eqb_spec level 0) as [->|Hne]; [|apply IH; [done|lia|by apply level_down|lia]].
    apply rg_ret. intros m2 Hm2. split_and!; [by apply (rely_grow _ _ Hm2)|by apply (on_level_grow m1); [|apply rely_grow|]|]. intros z Hz%Hl1.
    destruct (next_spec m1 0 x Hinv1 Hi Hx1) as (o & Ho' & _ & Hlow). rewrite Ho in Ho'. injection Ho' as <-.
    assert (¬ hlt x z) as Hn by (intros Hxz; by destruct (Hlow z Hz Hxz) as (? & [=] & _)).
    destruct Hx1 as [->|Hx1]; [destruct Hn; left; split; [done|by apply (linked_keyed m1 0)]|].
    destruct (linked_total m1 0 z x Hinv1 Hz Hx1) as [?|[?|?]]; [by left|by right|]. destruct Hn. by right.
Qed.

(** ** The functions *)

Lemma rg_from_top {A} (Q : A → memory → Prop) m (k : nat → prog A) :
  inv m → (∀ m1 h, rely m m1 → inv m1 → (1 ≤ h ≤ kMaxHeight_)%nat → rg rely guar Q (k h) m1) → rg rely guar Q (LoadMax k) m.
Proof.
  intros Hinv Hk. apply rg_load_max; [done|]. intros m1 Hm1. destruct (rely_grow _ _ Hm1 Hinv) as (Hinv1 & _). apply Hk; [done..|].
  destruct Hinv1 as [L HL]. apply (lo_max L m1 HL).
Qed.
Lemma rg_FindGreaterOrEqual key m : inv m → rg rely guar (first_from key m) (FindGreaterOrEqual key) m.
Proof.
  intros Hinv. apply rg_from_top; [done|]. intros m1 h Hm1 Hinv1 Hh. apply rg_find_ge; [done|done|lia|by left|by left|done|].
  pose proof (rank_le head_). unfold search_fuel. lia.
Qed.
Lemma rg_FindLessThan key m : inv m → rg rely guar (last_before key m) (FindLessThan key) m.
Proof.
  intros Hinv. apply rg_from_top; [done|]. intros m1 h Hm1 Hinv1 Hh. rewrite (proj2 (Nat.ltb_lt _ _)) by lia. rewrite assert_true.
  apply rg_find_lt; [done|done|lia|by left|by left|done|]. pose proof (rank_le head_). unfold search_fuel. lia.
Qed.
Lemma rg_FindLast m : inv m → rg rely guar (last_of_all m) FindLast m.
Proof.
  intros Hinv. apply rg_from_top; [done|]. intros m1 h Hm1 Hinv1 Hh. apply rg_find_last; [done|done|lia|by left|].
  pose proof (rank_le head_). unfold search_fuel. lia.
Qed.
(** A key that is there from the start is found, and what is found is there. *)
Definition has_key (m : memory) (key : bytes) : Prop := ∃ y ky, linked m 0 y ∧ key_of !! y = Some ky ∧ Compare key ky = 0.
Lemma rg_Contains key m : inv m → rg rely guar (λ b m', (b = true → has_key m' key) ∧ (has_key m key → b = true)) (Contains key) m.
Proof.
  intros Hinv. apply rg_bind; [done|]. eapply rg_mono; [by apply rg_FindGreaterOrEqual|]. intros o m1 (Hinv1 & Hfound & Hfirst). destruct o as [y|].
  - destruct (Hfound y eq_refl) as [Hy (ky & Ey & Hay)]. unfold Key. rewrite Ey. cbn. apply rg_ret. intros m2 Hm2. split.
    + intros E%Z.eqb_eq. exists y, ky. split; [|done]. by apply (rely_grow _ _ Hm2).
    + intros (z & kz & Hz & Ez & E). apply Z.eqb_eq. destruct (Hfirst z Hz) as (y' & [= <-] & Hyz).
      { exists kz. split; [done|]. pose proof (Compare_flip kz key). lia. }
      pose proof (Compare_flip ky key). pose proof (Compare_flip key ky). pose proof (Compare_flip kz key). pose proof (Compare_flip key kz).
      destruct Hyz as [->|(k & k' & Ek & Ek' & Hlt)]; [simplify_eq; lia|]. rewrite Ey in Ek. injection Ek as <-. rewrite Ez in Ek'. injection Ek' as <-. pose proof (Compare_lt_le ky kz key Hlt). lia.
  - apply rg_ret. intros m2 Hm2. split; [done|]. intros (z & kz & Hz & Ez & E). destruct (Hfirst z Hz) as (? & [=] & _).
    exists kz. split; [done|]. pose proof (Compare_flip kz key). lia.
Qed.

(** The estimate is a number of 64 bits, whatever it counts. *)
Lemma rg_estimate fuel kBranching key x level count m m0 :
  inv m0 → rely m0 m → (level < kMaxHeight_)%nat → on_level m level x → before x key → in_range 64 count → (rank x + level < fuel)%nat →
  rg rely guar (λ r _, in_range 64 r) (estimate fuel kBranching key x level count) m.
Proof.
  intros Hinv0. revert x level count m. induction fuel as [|fuel IH]; intros x level count m Hm Hi Hx Hb Hc Hfuel; [lia|]. cbn [estimate].
  rewrite debug_assert_true.
  2: { unfold is_head. case_bool_decide as E; [done|]. destruct Hb as [?|(kx & Ex & Hlt)]; [done|]. unfold Key. rewrite Ex. cbn. by rewrite (proj2 (Z.ltb_lt _ _)). }
  cbn [lift mbind prog_mbind prog_bind]. apply (rg_search_read _ m0); [done..|]. intros m1 o Hm1 Hm01 Hinv1 Hx1 Ho Hnext Hl1.
  assert (rg rely guar (λ r _, in_range 64 r) (if (level =? 0)%nat then Ret count else estimate fuel kBranching key x (level - 1) (u64 (count * kBranching))) m1) as Hdown.
  { destruct (Nat.eqb_spec level 0) as [->|Hne]; [by apply rg_ret|]. apply IH; [done|lia|by apply level_down|done|apply wrap_range; lia|lia]. }
  destruct o as [y|]; [|done]. destruct (Hnext y eq_refl) as (Hy & Hxy & [ky Ey]). unfold Key. rewrite Ey. cbn [lift checked mbind R_bind prog_mbind prog_bind].
  destruct (Z.leb_spec 0 (Compare ky key)); [done|]. pose proof (rank_lt x y Hxy). apply IH; [done|done|by right|right; by exists ky|apply wrap_range; lia|lia].
Qed.
Lemma rg_EstimateCount kBranching key m : inv m → rg rely guar (λ r _, in_range 64 r) (EstimateCount kBranching key) m.
Proof.
  intros Hinv. apply rg_from_top; [done|]. intros m1 h Hm1 Hinv1 Hh. apply (rg_estimate _ _ _ _ _ _ _ m); [done|done|lia|by left|by left|done|].
  pose proof (rank_le head_). unfold search_fuel. lia.
Qed.
End among.
End search.

(** ** Iterators of the skip list

    Each step is a search of its own, so that an iterator moves on whatever has
    been linked in the meantime. *)

Section iterator.
Context `{B : Build, C : Comparator, CL : !ComparatorLaws C, N : Nodes, NL : !NodesLaws N}.
Context (rely guar : relation memory) `{!PreOrder rely, !PreOrder guar} (rely_grow : ∀ m m', rely m m' → grow m m').
Notation rg := (rg rely guar).

(** An iterator stands on a node of the list, or is not valid. *)
Definition it_ok (o : option node) (m : memory) : Prop := inv m ∧ ∀ y, o = Some y → linked m 0 y.
Lemma it_ok_rely o m m' : it_ok o m → rely m m' → it_ok o m'.
Proof. intros [Hinv Ho] Hm. destruct (rely_grow _ _ Hm Hinv) as (? & Hl & _). split; [done|]. intros y Hy. by apply Hl, Ho. Qed.
Lemma it_ok_key o m y : it_ok o m → o = Some y → ∃ ky, key_of !! y = Some ky ∧ It_key o = Done ky.
Proof.
  intros [Hinv Ho] ->. destruct (linked_keyed m 0 y Hinv (Ho y eq_refl)) as [ky Ey]. exists ky. split; [done|].
  unfold It_key, It_Valid. rewrite bool_decide_false by done. cbn [negb]. rewrite assert_true. cbn. unfold Key. by rewrite Ey.
Qed.
(** All nodes that were there and satisfy [P] are at [o] or before it. *)
Definition no_later (P : node → Prop) (m0 : memory) (o : option node) : Prop := ∀ z, linked m0 0 z → P z → ∃ y, o = Some y ∧ (z = y ∨ klt z y).
Definition no_earlier (P : node → Prop) (m0 : memory) (o : option node) : Prop := ∀ z, linked m0 0 z → P z → ∃ y, o = Some y ∧ (y = z ∨ klt y z).

Lemma rg_It_Next y m : it_ok (Some y) m → rg (λ o m', it_ok o m' ∧ (∀ z, o = Some z → klt y z) ∧ no_earlier (klt y) m o) (It_Next (Some y)) m.
Proof.
  intros [Hinv Hy]. specialize (Hy y eq_refl). unfold It_Next, It_Valid. rewrite bool_decide_false by done. cbn [negb]. rewrite assert_true. cbn [lift checked mbind prog_mbind prog_bind].
  apply rg_next; [apply _|]. intros m1 Hm1. destruct (rely_grow _ _ Hm1 Hinv) as (Hinv1 & Hl & _). pose proof (Hl _ _ Hy) as Hy1.
  destruct (next_spec m1 0 y Hinv1 (proj1 Hy1) ltac:(by right)) as (o & Eo & Hn & Hlow). exists o. split; [done|].
  pose proof (linked_keyed m1 0 y Hinv1 Hy1) as Hk. apply rg_ret. intros m2 Hm2. split_and!.
  - apply (it_ok_rely o m1); [|done]. split; [done|]. intros z Hz. by apply Hn.
  - intros z Hz. apply hlt_klt_keyed; [done|by apply Hn].
  - intros z Hz%Hl Hyz. apply (Hlow z Hz). by right.
Qed.
Lemma rg_It_Prev y ky m :
  it_ok (Some y) m → key_of !! y = Some ky →
  rg (λ o m', it_ok o m' ∧ (∀ z, o = Some z → klt z y) ∧ no_later (λ z, before z ky) m o) (It_Prev (Some y)) m.
Proof.
  intros [Hinv Hy] Ey. unfold It_Prev, It_Valid, Key. rewrite bool_decide_false by done. cbn [negb]. rewrite assert_true. cbn [lift checked mbind prog_mbind prog_bind]. rewrite Ey. cbn [lift checked mbind prog_mbind prog_bind].
  apply rg_bind; [apply _|]. eapply rg_mono; [by apply rg_FindLessThan|]. intros x m1 (Hinv1 & Hx & Hb & Hlast). apply rg_ret. intros m2 Hm2.
  unfold none_if_head, is_head. case_bool_decide as E.
  - subst x. split_and!; [apply (it_ok_rely None m1); [by split|done]|done|]. intros z Hz Hbz.
    destruct (Hlast z Hz Hbz) as [->|[_ Hk]%klt_keyed]; [by destruct (keyed_not_head head_ (linked_keyed m 0 head_ Hinv Hz))|by destruct (keyed_not_head head_)].
  - destruct Hx as [?|Hx]; [done|]. split_and!.
    + apply (it_ok_rely (Some x) m1); [|done]. split; [done|]. by intros ? [= <-].
    + intros ? [= <-]. destruct Hb as [?|(kx & Ex & Hlt)]; [done|]. by exists kx, ky.
    + intros z Hz Hbz. exists x. split; [done|]. by apply Hlast.
Qed.
Lemma rg_It_Seek target m : inv m → rg (λ o m', it_ok o m' ∧ (∀ y, o = Some y → at_or_after target y) ∧ no_earlier (at_or_after target) m o) (It_Seek target) m.
Proof.
  intros Hinv. eapply rg_mono; [by apply rg_FindGreaterOrEqual|]. intros o m1 (Hinv1 & Ho & Hfirst). split_and!; [split; [done|]|..]; [intros y Hy; by apply Ho..|].
  exact Hfirst.
Qed.
Lemma rg_It_SeekToFirst m : inv m → rg (λ o m', it_ok o m' ∧ no_earlier (λ _, True) m o) It_SeekToFirst m.
Proof.
  intros Hinv. unfold It_SeekToFirst. apply rg_next; [apply _|]. intros m1 Hm1. destruct (rely_grow _ _ Hm1 Hinv) as (Hinv1 & Hl & _).
  assert (0 < kMaxHeight_)%nat as Hpos by (destruct Hinv1 as [L HL]; pose proof (lo_max L m1 HL); lia).
  destruct (next_spec m1 0 head_ Hinv1 Hpos ltac:(by left)) as (o & Eo & Hn & Hlow). exists o. split; [done|]. apply rg_ret. intros m2 Hm2. split.
  - apply (it_ok_rely o m1); [|done]. split; [done|]. intros z Hz. by apply Hn.
  - intros z Hz%Hl _. apply (Hlow z Hz). left. split; [done|]. by apply (linked_keyed m1 0).
Qed.
Lemma rg_It_SeekToLast m : inv m → rg (λ o m', it_ok o m' ∧ no_later (λ _, True) m o) It_SeekToLast m.
Proof.
  intros Hinv. unfold It_SeekToLast. apply rg_bind; [apply _|]. eapply rg_mono; [by apply rg_FindLast|]. intros x m1 (Hinv1 & Hx & Hlast). apply rg_ret. intros m2 Hm2.
  unfold none_if_head, is_head. case_bool_decide as E.
  - subst x. split; [apply (it_ok_rely None m1); [by split|done]|]. intros z Hz _.
    destruct (Hlast z Hz) as [->|[_ Hk]%klt_keyed]; [by destruct (keyed_not_head head_ (linked_keyed m 0 head_ Hinv Hz))|by destruct (keyed_not_head head_)].
  - destruct Hx as [?|Hx]; [done|]. split; [apply (it_ok_rely (Some x) m1); [|done]; split; [done|]; by intros ? [= <-]|].
    intros z Hz _. exists x. split; [done|]. by apply Hlast.
Qed.

(** ** SeekForPrev *)

Definition upto (target : bytes) (z : node) : Prop := ∃ kz, key_of !! z = Some kz ∧ 0 ≤ Compare target kz.
Definition rank_below (y : node) : nat := size (filter (λ z, klt z y) (dom key_of)).
Lemma rank_below_lt y z : klt z y → (rank_below z < rank_below y)%nat.
Proof.
  intros Hzy. unfold rank_below. apply subset_size. split.
  - intros w. rewrite !elem_of_filter. intros [Hwz Hw]. split; [by apply (klt_trans w z)|done].
  - intros Hsub. destruct (klt_irrefl z). specialize (Hsub z). rewrite !elem_of_filter, elem_of_dom in Hsub. apply Hsub. split; [done|]. by apply (klt_keyed z y).
Qed.
Lemma rank_below_bound y : keyed y → (rank_below y < size key_of)%nat.
Proof.
  intros Hy. unfold rank_below. rewrite <- size_dom. apply subset_size. split; [set_solver|]. intros Hsub. specialize (Hsub y). rewrite elem_of_filter, elem_of_dom in Hsub.
  by apply (klt_irrefl y), Hsub.
Qed.

Context (guar_grow : ∀ m m', guar m m' → grow m m').
Definition prev_of (target : bytes) (m0 : memory) (o : option node) (m : memory) : Prop :=
  it_ok o m ∧ (∀ y, o = Some y → upto target y) ∧ no_later (upto target) m0 o.
Lemma rg_back_to fuel target o m0 m :
  inv m0 → grow m0 m → it_ok o m → (∀ y, o = Some y → (rank_below y < fuel)%nat) → no_later (upto target) m0 o → rg (prev_of target m0) (back_to fuel target o) m.
Proof.
  intros Hinv0. revert o m. induction fuel as [|fuel IH]; intros o m Hm Hok Hfuel Hlater.
  - destruct o as [y|]; [by pose proof (Hfuel y eq_refl); lia|]. apply rg_ret. intros m1 Hm1. split_and!; [by apply (it_ok_rely None m)|done|done].
  - destruct o as [y|]; cbn [back_to]; [|apply rg_ret; intros m1 Hm1; split_and!; [by apply (it_ok_rely None m)|done|done]].
    destruct (it_ok_key _ _ y Hok eq_refl) as (ky & Ey & _). unfold Key. rewrite Ey. cbn [lift checked mbind prog_mbind prog_bind].
    destruct (Z.ltb_spec (Compare target ky) 0) as [Hlt|Hge].
    + apply rg_bind; [apply _|]. eapply rg_mono; [apply (rg_frame _ _ grow); [exact rely_grow|exact guar_grow|by apply (rg_It_Prev y ky)]|].
      intros o m1 [(Hok1 & Hsmaller & Hprev) Hg]. apply IH; [by trans m|done|..].
      * intros z Hz. pose proof (rank_below_lt y z (Hsmaller z Hz)). specialize (Hfuel y eq_refl). lia.
      * intros z Hz Huz. destruct (Hlater z Hz Huz) as (? & [= <-] & Hzy). destruct (Hm Hinv0) as (_ & Hl & _). apply Hprev; [by apply Hl|].
        destruct Huz as (kz & Ez & Hz'). right. exists kz. split; [done|]. destruct Hzy as [->|(k & k' & Ek & Ek' & Hlt')]; [rewrite Ey in Ez; injection Ez as <-; lia|].
        rewrite Ez in Ek. injection Ek as <-. rewrite Ey in Ek'. by injection Ek' as <-.
    + apply rg_ret. intros m1 Hm1. split_and!; [by apply (it_ok_rely _ m)| |done]. intros ? [= <-]. exists ky. split; [done|lia].
Qed.
Lemma rg_It_SeekForPrev target m : inv m → rg (prev_of target m) (It_SeekForPrev target) m.
Proof.
  intros Hinv. unfold It_SeekForPrev. apply rg_bind; [apply _|]. eapply rg_mono; [apply (rg_frame _ _ grow); [exact rely_grow|exact guar_grow|by apply rg_It_Seek]|].
  intros o m1 [(Hok & Hafter & Hearlier) Hg]. destruct (Hg Hinv) as (Hinv1 & Hl & _). apply rg_bind; [apply _|].
  assert (∀ o' m2, it_ok o' m2 → grow m1 m2 → no_later (upto target) m o' → rg (prev_of target m) (back_to (size key_of) target o') m2) as Hback.
  { intros o' m2 Hok' Hg2 Hlater. apply rg_back_to; [done|by trans m1|done| |done]. intros y Hy. apply rank_below_bound. apply (linked_keyed m2 0); by apply Hok'. }
  destruct o as [y|]; cbn.
  - apply rg_ret. intros m2 Hm2. apply Hback; [by apply (it_ok_rely _ m1)|by apply rely_grow|]. intros z Hz (kz & Ez & Huz). exists y. split; [done|].
    destruct (linked_total m1 0 z y) as [?|[?|Hyz]]; [done|by apply Hl|by apply Hok|by left|by right|]. exfalso.
    destruct Hyz as (ky & kz' & Ey & Ez' & Hlt). rewrite Ez in Ez'. injection Ez' as <-. destruct (Hafter y eq_refl) as (ky' & Ey' & Hay). rewrite Ey in Ey'. injection Ey' as <-.
    pose proof (Compare_flip kz target). pose proof (Compare_flip target kz). pose proof (Compare_lt_le ky kz target Hlt). lia.
  - eapply rg_mono; [apply (rg_frame _ _ grow); [exact rely_grow|exact guar_grow|by apply rg_It_SeekToLast]|]. intros o m2 [(Hok2 & Hlater) Hg2]. apply Hback; [done|done|].
    intros z Hz%Hl _. by apply Hlater.
Qed.
End iterator.

(** ** Splices, and the node that an insertion owns

    What a splice promises while others link nodes, and the two writes that
    link a node on one level. *)

Section splice.
Context `{B : Build, C : Comparator, CL : !ComparatorLaws C, N : Nodes, NL : !NodesLaws N}.

(** ** Ownership *)

(** Others leave the links of [x] alone that are not linked yet. *)
Definition evolves (x : node) (m m' : memory) : Prop :=
  grow m m' ∧ (inv m → ∀ i, ¬ linked m i x → ¬ linked m' i x ∧ next_ m' !! (i, x) = next_ m !! (i, x)).
(** Whoever inserts [x] leaves alone those of all others. *)
Definition acts (x : node) (m m' : memory) : Prop :=
  grow m m' ∧ (inv m → ∀ y i, y ≠ x → y ≠ head_ → ¬ linked m i y → ¬ linked m' i y ∧ next_ m' !! (i, y) = next_ m !! (i, y)).
Lemma acts_evolves x y m m' : x ≠ y → y ≠ head_ → acts x m m' → evolves y m m'.
Proof. intros Hxy Hy [Hg Ho]. split; [done|]. intros Hinv i Hn. by apply Ho. Qed.
#[export] Instance evolves_preorder x : PreOrder (evolves x).
Proof.
  split; [intros m; by split|]. intros m1 m2 m3 [H12 Ho12] [H23 Ho23]. split; [by trans m2|]. intros Hinv i Hn.
  destruct (Ho12 Hinv i Hn) as [Hn2 <-]. destruct (H12 Hinv) as (Hinv2 & _). by apply Ho23.
Qed.
#[export] Instance acts_preorder x : PreOrder (acts x).
Proof.
  split; [intros m; by split|]. intros m1 m2 m3 [H12 Ho12] [H23 Ho23]. split; [by trans m2|]. intros Hinv y i Hx Hy Hn.
  destruct (Ho12 Hinv y i Hx Hy Hn) as [Hn2 <-]. destruct (H12 Hinv) as (Hinv2 & _). by apply Ho23.
Qed.

(** [x], of height [h], is linked on the levels below [k]. *)
Record owned (x : node) (h k : nat) (m : memory) : Prop := {
  owned_inv : inv m;
  owned_linked : ∀ i, (i < k)%nat → linked m i x;
  owned_not : ∀ i, (k ≤ i)%nat → ¬ linked m i x;
  owned_cells : ∀ i, (k ≤ i < h)%nat → is_Some (next_ m !! (i, x));
}.
Lemma owned_evolves x h k m m' : owned x h k m → evolves x m m' → owned x h k m'.
Proof.
  intros [Hinv Hl Hn Hc] [Hg Ho]. destruct (Hg Hinv) as (Hinv' & Hl' & _). split; [done|auto|intros i Hi; by apply (Ho Hinv), Hn|].
  intros i Hi. destruct (Ho Hinv i (Hn i ltac:(lia))) as [_ ->]. by apply Hc.
Qed.

(** ** Linking *)

Lemma read_cell_some m i x : is_Some (next_ m !! (i, x)) → ∃ c, read_cell m i x = Done c.
Proof. intros [c E]. exists c. unfold read_cell. by rewrite E. Qed.
(** The own link first: nobody sees it. *)
Lemma link_own x h i m v :
  keyed x → owned x h i m → (i < h)%nat →
  acts x m (write_link m i x v) ∧ owned x h i (write_link m i x v) ∧ read_link (write_link m i x v) i x = Done v ∧
  ∀ j y, linked (write_link m i x v) j y ↔ linked m j y.
Proof.
  intros Hx Ho Hi. pose proof (keyed_not_head x Hx) as Hxh. destruct Ho as [Hinv Hl Hn Hc].
  destruct (write_own m i x v Hinv Hxh (Hn i ltac:(lia))) as [Hinv' Hl'].
  assert (∀ j y, (j, y) ≠ (i, x) → next_ (write_link m i x v) !! (j, y) = next_ m !! (j, y)) as Hother by (intros j y Hne; apply lookup_insert_ne; congruence).
  split_and!; [| |by rewrite read_link_write, bool_decide_true|done].
  - split; [intros _; split_and!; [done|intros j y; by rewrite Hl'|done]|]. intros _ y j Hy _ Hny. rewrite Hl', Hother; [done|congruence].
  - split; [done|intros j Hj; rewrite Hl'; by apply Hl|intros j Hj; rewrite Hl'; by apply Hn|].
    intros j Hj. destruct (decide (j = i)) as [->|Hne]; [by eexists; apply lookup_insert_eq|]. rewrite Hother by congruence. by apply Hc.
Qed.
(** Then the one that makes it visible. *)
Lemma link_prev x h i m p n :
  owned x h i m → (i < h ≤ kMaxHeight_)%nat → on_level m i p → read_link m i p = Done n → hlt p x → (∀ y, n = Some y → klt x y) →
  read_link m i x = Done n →
  acts x m (write_link m i p (Some x)) ∧ owned x h (S i) (write_link m i p (Some x)) ∧
  ∀ j y, linked (write_link m i p (Some x)) j y ↔ linked m j y ∨ j = i ∧ y = x.
Proof.
  intros [Hinv Hl Hn Hc] Hi Hp Hr Hpx Hxn Hx. destruct (link_node m i p n x) as [Hinv' Hl']; [done|lia|done..|intros j ->; apply Hl; lia|done|].
  assert (∀ j y, y ≠ head_ → ¬ linked m j y → next_ (write_link m i p (Some x)) !! (j, y) = next_ m !! (j, y)) as Hother.
  { intros j y Hy Hny. apply lookup_insert_ne. intros [= -> ->]. by destruct Hp. }
  split_and!; [| |done].
  - split; [intros _; split_and!; [done|intros j y; rewrite Hl'; by left|done]|]. intros _ y j Hy Hyh Hny. rewrite Hl', Hother by done. split; [|done]. naive_solver.
  - split; [done|..].
    + intros j Hj. rewrite Hl'. destruct (decide (j = i)) as [->|]; [by right|left]. apply Hl. lia.
    + intros j Hj. rewrite Hl'. intros [Hy|[-> _]]; [|lia]. by apply (Hn j); [lia|].
    + intros j Hj. rewrite Hother; [apply Hc; lia|apply keyed_not_head, (hlt_keyed p); done|apply Hn; lia].
Qed.

(** ** Splices *)

Definition entry (sp : Splice) (i : nat) (p : node) (n : option node) : Prop := prev_ sp !! i = Some p ∧ snext_ sp !! i = Some n.
Lemma entry_get sp i p n : entry sp i p n → get_prev sp i = Done p ∧ get_next sp i = Done n.
Proof. intros [Hp Hn]. unfold get_prev, get_next. by rewrite Hp, Hn. Qed.
Lemma entry_det sp i p n p' n' : entry sp i p n → entry sp i p' n' → p = p' ∧ n = n'.
Proof. intros [? ?] [? ?]. split; congruence. Qed.
Lemma entry_set_level sp i p n : (i < sp_room sp)%nat →
  ∃ sp', set_level sp i p n = Done sp' ∧ height_ sp' = height_ sp ∧ sp_room sp' = sp_room sp ∧ entry sp' i p n ∧
    ∀ j q o, j ≠ i → entry sp' j q o ↔ entry sp j q o.
Proof.
  intros Hi. unfold set_level. rewrite (proj2 (Nat.ltb_lt _ _)) by done. cbn. eexists. split; [done|]. cbn. split_and!; [done|done|..].
  - split; apply lookup_insert_eq.
  - intros j q o Hne. unfold entry. cbn. by rewrite !lookup_insert_ne.
Qed.

(** From level [lo] up there are nodes of the list in it, *)
Record splice_entries (m : memory) (sp : Splice) (lo : nat) : Prop := {
  se_height : (height_ sp ≤ kMaxHeight_)%nat;
  se_room : (kMaxHeight_ < sp_room sp)%nat;
  se_top : entry sp (height_ sp) head_ None;
  se_entry : ∀ i, (lo ≤ i < height_ sp)%nat → ∃ p n, entry sp i p n ∧ on_level m i p ∧ (∀ y, n = Some y → linked m i y);
}.
(** each level's within those of the level above, *)
Definition nest_prev (p' p : node) : Prop := p' = head_ ∨ p' = p ∨ klt p' p.
Definition nest_next (n n' : option node) : Prop := ∀ y', n' = Some y' → ∃ y, n = Some y ∧ (y = y' ∨ klt y y').
Definition nested (sp : Splice) (lo : nat) : Prop :=
  ∀ i p n p' n', (lo ≤ i < height_ sp)%nat → entry sp i p n → entry sp (S i) p' n' → nest_prev p' p ∧ nest_next n n'.
(** and they enclose the key. [x] itself is not among them. *)
Definition encloses (key : bytes) (x : node) (sp : Splice) (i : nat) : Prop :=
  ∀ p n, entry sp i p n → before p key ∧ ∀ y, n = Some y → at_or_after key y ∧ y ≠ x.

Lemma splice_entries_grow m m' sp lo : inv m → grow m m' → splice_entries m sp lo → splice_entries m' sp lo.
Proof.
  intros Hinv Hg [Hh Hr Ht He]. split; [done..|]. intros i Hi. destruct (He i Hi) as (p & n & Hpn & Hp & Hn). exists p, n.
  split_and!; [done|by apply (on_level_grow m)|]. intros y Hy. by apply (Hg Hinv), Hn.
Qed.
Lemma nest_next_trans n1 n2 n3 : nest_next n1 n2 → nest_next n2 n3 → nest_next n1 n3.
Proof.
  intros H12 H23 y3 Hy3. destruct (H23 y3 Hy3) as (y2 & Hy2 & H2). destruct (H12 y2 Hy2) as (y1 & Hy1 & H1). exists y1. split; [done|].
  destruct H1 as [->|H1]; [done|]. destruct H2 as [->|H2]; [by right|right; by apply (klt_trans y1 y2)].
Qed.
Lemma nest_prev_trans p1 p2 p3 : p2 = p3 ∨ hlt p2 p3 → nest_prev p1 p2 → nest_prev p1 p3.
Proof.
  intros H23 [->|[->|H12]]; [by left| |].
  - destruct H23 as [->|[[-> _]|H]]; [by right; left|by left|by right; right].
  - right; right. destruct H23 as [->|H]; [done|]. apply (klt_trans p1 p2); [done|]. apply hlt_klt_keyed; [|done]. by apply (klt_keyed p1 p2).
Qed.
(** A level that encloses the key is enclosed by those above. *)
Lemma encloses_above key x m sp lo i :
  splice_entries m sp lo → nested sp lo → (∀ i y, linked m i y → y ≠ x) → (lo ≤ i)%nat → encloses key x sp i →
  ∀ j, (i ≤ j ≤ height_ sp)%nat → encloses key x sp j.
Proof.
  intros Hse Hne Hx Hlo Hi j [Hij Hj]. induction Hij as [|j Hij IH]; [done|]. intros p' n' He'. destruct (se_entry m sp lo Hse j) as (p & n & He & _); [lia|].
  destruct (Hne j p n p' n') as [Hp Hn]; [lia|done|done|]. destruct (IH ltac:(lia) p n He) as [Hb Ha]. split.
  - destruct Hp as [->|[->|Hp]]; [by left|done|by apply (before_klt p' p)].
  - intros y' ->. assert (linked m (S j) y' ∨ S j = height_ sp) as [Hy'|Htop].
    { destruct (decide (S j = height_ sp)) as [|Hne']; [by right|left]. destruct (se_entry m sp lo Hse (S j)) as (q & o & He2 & _ & Ho); [lia|].
      apply Ho. by apply (entry_det _ _ _ _ _ _ He2 He'). }
    + split; [|by apply (Hx (S j))]. destruct (Hn y' eq_refl) as (y & -> & Hyy). destruct (Ha y eq_refl) as [Hay _].
      destruct Hyy as [->|Hyy]; [done|by apply (at_or_after_klt key y)].
    + pose proof (se_top m sp lo Hse) as Ht. rewrite <- Htop in Ht. destruct (entry_det _ _ _ _ _ _ Ht He') as [_ [=]].
Qed.
End splice.
