(* ===== verification/SkipListInsert.v ===== *)
(** * Insertion into the skip list

    Insert with CAS is right while others insert too; Insert without needs that
    they only read. *)
From S2P Require Import Prelude Result Comparator Random SkipList SkipListInv SkipListLogic SkipListSearch.

Section insert.
Context `{B : Build, C : Comparator, CL : !ComparatorLaws C, N : Nodes, NL : !NodesLaws N}.
Context (x : node) (key : bytes) (Hkey : key_of !! x = Some key).
Context (rely : relation memory) `{!PreOrder rely} (rely_evolves : ∀ m m', rely m m' → evolves x m m').
Notation rg := (rg rely (acts x)).

Lemma rely_grow m m' : rely m m' → grow m m'.
Proof. intros H. by apply rely_evolves. Qed.
Lemma owned_rely h k m m' : owned x h k m → rely m m' → owned x h k m'.
Proof. intros Ho Hm. by apply (owned_evolves x h k m), rely_evolves. Qed.
Lemma x_keyed : keyed x.
Proof. by exists key. Qed.
Lemma x_at_or_after : at_or_after key x.
Proof. exists key. split; [done|]. rewrite Compare_refl. lia. Qed.

(** ** The height of the list *)

Lemma acts_write_max m h : inv m → (max_height_ m ≤ h ≤ kMaxHeight_)%nat → acts x m (mkMemory (next_ m) h).
Proof.
  intros Hinv Hh. assert (1 ≤ max_height_ m)%nat as Hm by (destruct Hinv as [L HL]; apply (lo_max L m HL)).
  destruct (write_max m h Hinv ltac:(lia)) as [Hinv' Hl]. split.
  - intros _. split_and!; [done|intros i y; by rewrite Hl|cbn; lia].
  - intros _ y i _ _ Hn. by rewrite Hl.
Qed.
Lemma owned_write_max h k m v : owned x h k m → (1 ≤ v ≤ kMaxHeight_)%nat → owned x h k (mkMemory (next_ m) v).
Proof. intros [Hinv Hl Hn Hc] Hv. destruct (write_max m v Hinv Hv) as [Hinv' Hl']. split; [done|intros; rewrite Hl'; auto..|done]. Qed.
Lemma rely_max m m' : inv m → rely m m' → (max_height_ m ≤ max_height_ m')%nat.
Proof. intros Hinv Hm. by destruct (rely_grow _ _ Hm Hinv) as (_ & _ & ?). Qed.
Lemma max_in_range m : inv m → (1 ≤ max_height_ m ≤ kMaxHeight_)%nat.
Proof. intros [L HL]. apply (lo_max L m HL). Qed.

Definition raised (h mh : nat) (r : nat) (m : memory) : Prop := owned x h 0 m ∧ (h ≤ r)%nat ∧ (mh ≤ r ≤ max_height_ m)%nat.
Lemma rg_raise_height h fuel mh m :
  owned x h 0 m → (1 ≤ h ≤ kMaxHeight_)%nat → (h - mh ≤ fuel)%nat → (mh ≤ max_height_ m)%nat → rg (raised h mh) (raise_height fuel h mh) m.
Proof.
  revert mh m. induction fuel as [|fuel IH]; intros mh m Ho Hh Hfuel Hmh; cbn [raise_height]; destruct (Nat.ltb_spec mh h) as [Hlt|Hge]; [lia| | |].
  1, 3: apply rg_ret; intros m1 Hm1; pose proof (rely_max m m1 (owned_inv _ _ _ _ Ho) Hm1); split; [by apply (owned_rely h 0 m)|lia].
  apply rg_cas_max; [apply _|]. intros m1 Hm1. pose proof (owned_rely _ _ _ _ Ho Hm1) as Ho1. pose proof (owned_inv _ _ _ _ Ho1) as Hinv1.
  pose proof (rely_max m m1 (owned_inv _ _ _ _ Ho) Hm1). split.
  - intros E. split; [apply acts_write_max; [done|lia]|]. apply rg_ret. intros m2 Hm2. assert (owned x h 0 (mkMemory (next_ m1) h)) as Ho2 by by apply owned_write_max.
    pose proof (rely_max _ m2 (owned_inv _ _ _ _ Ho2) Hm2) as Hmax. cbn in Hmax. split; [by apply (owned_rely _ _ _ _ Ho2)|lia].
  - intros Hne. eapply rg_mono; [apply IH; [done|done|lia|done]|]. intros r m2 (? & ? & ?). split; [done|lia].
Qed.

(** ** How much of the splice encloses the key *)

Lemma entry_le m sp i : splice_entries m sp 0 → (i ≤ height_ sp)%nat → ∃ p n, entry sp i p n ∧ (i = height_ sp ∧ p = head_ ∧ n = None ∨ on_level m i p ∧ ∀ y, n = Some y → linked m i y).
Proof.
  intros Hse Hi. destruct (decide (i = height_ sp)) as [->|Hne]; [exists head_, None; split; [apply (se_top m sp 0 Hse)|by left]|].
  destruct (se_entry m sp 0 Hse i) as (p & n & ? & ? & ?); [lia|]. exists p, n. split; [done|by right].
Qed.
Lemma skip_prev_spec m sp bad i fuel :
  splice_entries m sp 0 → bad ≠ head_ → (i ≤ height_ sp)%nat → (height_ sp - i ≤ fuel)%nat →
  ∃ h, skip_prev fuel sp bad i = Done h ∧ (i ≤ h ≤ height_ sp)%nat ∧ (get_prev sp i = Done bad → (i < h)%nat).
Proof.
  intros Hse Hbad. revert i. induction fuel as [|fuel IH]; intros i Hi Hfuel; cbn [skip_prev];
    destruct (entry_le m sp i Hse Hi) as (p & n & He & Htop); destruct (entry_get _ _ _ _ He) as [-> _]; cbn [mbind R_bind]; case_bool_decide as E.
  1: destruct Htop as [(-> & -> & _)|_]; [done|]; assert (i = height_ sp) as -> by lia; by destruct (entry_det _ _ _ _ _ _ He (se_top m sp 0 Hse)) as [-> _].
  2: destruct (decide (i = height_ sp)) as [->|Hne]; [by destruct (entry_det _ _ _ _ _ _ He (se_top m sp 0 Hse)) as [-> _]|];
     destruct (IH (S i)) as (h & -> & Hh & _); [lia..|]; exists h; split_and!; [done|lia..].
  all: exists i; split_and!; [done|lia..|by intros [= ->]].
Qed.
Lemma skip_next_spec m sp bad i fuel :
  splice_entries m sp 0 → bad ≠ None → (i ≤ height_ sp)%nat → (height_ sp - i ≤ fuel)%nat →
  ∃ h, skip_next fuel sp bad i = Done h ∧ (i ≤ h ≤ height_ sp)%nat ∧ (get_next sp i = Done bad → (i < h)%nat).
Proof.
  intros Hse Hbad. revert i. induction fuel as [|fuel IH]; intros i Hi Hfuel; cbn [skip_next];
    destruct (entry_le m sp i Hse Hi) as (p & n & He & Htop); destruct (entry_get _ _ _ _ He) as [_ ->]; cbn [mbind R_bind]; case_bool_decide as E.
  1: destruct Htop as [(-> & _ & ->)|_]; [done|]; assert (i = height_ sp) as -> by lia; by destruct (entry_det _ _ _ _ _ _ He (se_top m sp 0 Hse)) as [_ ->].
  2: destruct (decide (i = height_ sp)) as [->|Hne]; [by destruct (entry_det _ _ _ _ _ _ He (se_top m sp 0 Hse)) as [_ ->]|];
     destruct (IH (S i)) as (h & -> & Hh & _); [lia..|]; exists h; split_and!; [done|lia..].
  all: exists i; split_and!; [done|lia..|by intros [= ->]].
Qed.

Lemma comes_before_spec p : p = head_ ∨ keyed p →
  ∃ b : bool, (if is_head p then Done false else a ← KeyIsAfterNode key (Some p); Done (negb a)) = Done b ∧ if b then p ≠ head_ else before p key.
Proof.
  intros Hp. unfold is_head. case_bool_decide as E; [exists false; split; [done|by left]|]. destruct Hp as [?|Hp]; [done|].
  destruct (KeyIsAfterNode_spec key (Some p)) as (b & -> & Hb); [by intros ? [= <-]|]. exists (negb b). split; [done|]. by destruct b.
Qed.

(** From there up the splice can be kept. *)
Definition kept (sp : Splice) (m0 : memory) (h : nat) (m : memory) : Prop := rely m0 m ∧ (h ≤ height_ sp)%nat ∧ encloses key x sp h.
Lemma rg_find_recompute sp partial h0 fuel i m0 m :
  owned x h0 0 m0 → splice_entries m0 sp 0 → rely m0 m → (i ≤ height_ sp)%nat → (height_ sp - i ≤ fuel)%nat →
  rg (kept sp m0) (find_recompute fuel key sp partial (height_ sp) i) m.
Proof.
  intros Ho Hse. pose proof (owned_inv _ _ _ _ Ho) as Hinv0. revert i m. induction fuel as [|fuel IH]; intros i m Hm Hi Hfuel; cbn [find_recompute];
    (destruct (Nat.ltb_spec i (height_ sp)) as [Hlt|Hge]; [|apply rg_ret; intros m1 Hm1; split_and!; [by trans m|done|]; assert (i = height_ sp) as -> by lia;
      intros p n He; destruct (entry_det _ _ _ _ _ _ He (se_top m0 sp 0 Hse)) as [-> ->]; split; [by left|done]]); [lia|].
  destruct (se_entry m0 sp 0 Hse i) as (p & n & He & Hp & Hn); [lia|]. destruct (entry_get _ _ _ _ He) as [Egp Egn]. rewrite Egp, Egn.
  cbn [lift mbind prog_mbind prog_bind]. apply rg_next; [apply _|]. intros m1 Hm1. assert (rely m0 m1) as Hm01 by by trans m.
  pose proof (rely_grow _ _ Hm01) as Hg. destruct (Hg Hinv0) as (Hinv1 & Hl1 & _).
  assert (on_level m1 i p) as Hp1 by by apply (on_level_grow m0).
  destruct (next_spec m1 i p Hinv1) as (o & Eo & _ & _); [pose proof (se_height _ _ _ Hse); lia|done|]. exists o. split; [done|].
  case_bool_decide as E; cbn [negb]; [subst o|apply IH; [done|lia..]].
  assert (∀ h, (i < h ≤ height_ sp)%nat → rg (kept sp m0) (find_recompute fuel key sp partial (height_ sp) h) m1) as Hgo by (intros h Hh; apply IH; [done|lia..]).
  destruct (comes_before_spec p) as (b & -> & Hb); [by apply (on_level_keyed m0 i)|]. cbn [lift mbind prog_mbind prog_bind]. destruct b.
  - destruct (skip_prev_spec m0 sp p i (S (height_ sp)) Hse Hb) as (h & Eh & Hh & Hlth); [lia..|]. specialize (Hlth Egp).
    destruct partial; [rewrite Eh|]; apply Hgo; lia.
  - destruct (KeyIsAfterNode_spec key n) as (b & -> & Hside); [intros y Hy; apply (linked_keyed m0 i); auto|]. cbn [lift mbind prog_mbind prog_bind]. destruct b.
    + assert (n ≠ None) as Hnn by (by destruct n). destruct (skip_next_spec m0 sp n i (S (height_ sp)) Hse Hnn) as (h & Eh & Hh & Hlth); [lia..|].
      specialize (Hlth Egn). destruct partial; [rewrite Eh|]; apply Hgo; lia.
    + apply rg_ret. intros m2 Hm2. split_and!; [by trans m1|lia|]. intros p' n' He'. destruct (entry_det _ _ _ _ _ _ He He') as [<- <-]. split; [done|].
      intros y ->. split; [done|]. intros ->. by apply (owned_not _ _ _ _ Ho i); [lia|apply Hn].
Qed.

(** ** Filling in the splice *)

Record around (m : memory) (sp : Splice) (lo : nat) : Prop := {
  ar_entries : splice_entries m sp lo;
  ar_nested : nested sp lo;
  ar_encloses : ∀ i, (lo ≤ i ≤ height_ sp)%nat → encloses key x sp i;
}.
Lemma around_grow m m' sp lo : inv m → grow m m' → around m sp lo → around m' sp lo.
Proof. intros Hinv Hg [He Hn Hc]. split; [by apply (splice_entries_grow m)|done..]. Qed.

(** A bracket found between those of the level above goes below them. *)
Lemma tight_nested i m p n p' n' :
  tight key i m p n → p = p' ∨ hlt p' p → (∀ y, n' = Some y → linked m i y ∧ at_or_after key y) → nest_prev p' p ∧ nest_next n n'.
Proof.
  intros Ht Hp Hn'. split.
  - destruct Hp as [->|[[-> _]|Hp]]; [by right; left|by left|by right; right].
  - intros y Hy. destruct (Hn' y Hy) as [Hly Hay]. by apply (tight_after key i m p n y).
Qed.

(** Level [i] is set; [lo'] may be one lower than [lo]. *)
Section set.
Context (m : memory) (sp sp' : Splice) (i : nat) (p : node) (n : option node) (lo lo' : nat).
Context (Hset : set_level sp i p n = Done sp') (Hi : (i < height_ sp)%nat) (Hlo : ∀ j, (lo' ≤ j)%nat → j ≠ i → (lo ≤ j)%nat).
Context (Hse : splice_entries m sp lo).

Lemma set_facts : height_ sp' = height_ sp ∧ sp_room sp' = sp_room sp ∧ entry sp' i p n ∧ ∀ j q o, j ≠ i → entry sp' j q o ↔ entry sp j q o.
Proof.
  destruct Hse as [Hh Hr _ _]. destruct (entry_set_level sp i p n) as (sp1 & E' & Hfacts); [lia|]. rewrite Hset in E'. by injection E' as <-.
Qed.
Lemma set_entries : on_level m i p → (∀ y, n = Some y → linked m i y) → splice_entries m sp' lo'.
Proof.
  intros Hp Hn. destruct set_facts as (Hh1 & Hr1 & He1 & Hother). destruct Hse as [Hh Hr Ht He].
  split; rewrite ?Hh1, ?Hr1; [done|done|apply Hother; [lia|done]|]. intros j Hj. destruct (decide (j = i)) as [->|Hji]; [by exists p, n|].
  destruct (He j) as (q & o & Hq & Hlev); [split; [apply Hlo; [lia|done]|lia]|]. exists q, o. split; [by apply Hother|done].
Qed.
Lemma set_encloses : (∀ j, (lo ≤ j ≤ height_ sp)%nat → encloses key x sp j) → before p key → (∀ y, n = Some y → at_or_after key y ∧ y ≠ x) →
  ∀ j, (lo' ≤ j ≤ height_ sp')%nat → encloses key x sp' j.
Proof.
  intros Hc Hb Hn j Hj. destruct set_facts as (Hh1 & Hr1 & He1 & Hother). intros q o Hq. destruct (decide (j = i)) as [->|Hji].
  - by destruct (entry_det _ _ _ _ _ _ He1 Hq) as [<- <-].
  - apply (Hc j); [split; [apply Hlo; [lia|done]|lia]|]. by apply Hother.
Qed.
Lemma set_nested : nested sp lo → (∀ p' n', entry sp (S i) p' n' → nest_prev p' p ∧ nest_next n n') →
  (∀ j q o, i = S j → (lo' ≤ j)%nat → entry sp j q o → nest_prev p q ∧ nest_next o n) → nested sp' lo'.
Proof.
  intros Hne Hup Hdown j q o q' o' Hj Hq Hq'. destruct set_facts as (Hh1 & Hr1 & He1 & Hother). destruct (decide (j = i)) as [->|Hji].
  - destruct (entry_det _ _ _ _ _ _ He1 Hq) as [<- <-]. apply Hup. apply Hother; [lia|done].
  - apply Hother in Hq; [|done]. destruct (decide (S j = i)) as [E|Hsji].
    + rewrite E in Hq'. destruct (entry_det _ _ _ _ _ _ He1 Hq') as [<- <-]. by apply (Hdown j); [|lia|].
    + apply Hother in Hq'; [|done]. apply (Hne j); [split; [apply Hlo; [lia|done]|lia]|done|done].
Qed.
End set.

(** A bracket found below those of the level above. *)
Lemma around_filled m sp sp' i p n p' n' h0 :
  set_level sp i p n = Done sp' → (i < height_ sp)%nat → around m sp (S i) → owned x h0 0 m → tight key i m p n → entry sp (S i) p' n' →
  p = p' ∨ hlt p' p → (∀ y, n' = Some y → linked m i y ∧ at_or_after key y) → around m sp' i.
Proof.
  intros Hset Hi [Hse Hne Hc] Ho Ht He Hp Hn'. destruct (Ht) as [_ Hlev Hlp Hb _ Hn]. assert (∀ j, (i ≤ j)%nat → j ≠ i → (S i ≤ j)%nat) as Hlo by lia.
  split.
  - apply (set_entries m sp sp' i p n (S i)); [done..|]. intros y Hy. by apply Hn.
  - apply (set_nested m sp sp' i p n (S i)); [done..| |lia]. intros q o Hq. destruct (entry_det _ _ _ _ _ _ He Hq) as [<- <-]. by apply (tight_nested i m).
  - apply (set_encloses m sp sp' i p n (S i)); [done..|]. intros y Hy. destruct (Hn y Hy) as [Hly Hay]. split; [done|].
    intros ->. by apply (owned_not _ _ _ _ Ho i); [lia|].
Qed.

Definition recomputed (sp : Splice) (i : nat) (m0 : memory) (sp' : Splice) (m : memory) : Prop :=
  rely m0 m ∧ around m sp' 0 ∧ height_ sp' = height_ sp ∧ (∀ j p n, (i ≤ j)%nat → entry sp' j p n ↔ entry sp j p n) ∧
  ∀ j p n, (j < i)%nat → entry sp' j p n → ∃ m1, rely m1 m ∧ tight key j m1 p n.
Lemma rg_recompute_from h0 i sp m :
  owned x h0 0 m → (i ≤ height_ sp)%nat → around m sp i → rg (recomputed sp i m) (recompute_from key sp i) m.
Proof.
  revert sp m. induction i as [|i IH]; intros sp m Ho Hi Har; cbn [recompute_from]; pose proof (owned_inv _ _ _ _ Ho) as Hinv.
  - apply rg_ret. intros m1 Hm1. split_and!; [done| |done|done|lia]. apply (around_grow m); [done|by apply rely_grow|done].
  - pose proof (se_height _ _ _ (ar_entries _ _ _ Har)) as Hh.
    assert (∃ p' n', entry sp (S i) p' n' ∧ on_level m i p' ∧ (∀ y, n' = Some y → linked m i y)) as (p' & n' & He & Hp' & Hn').
    { destruct (decide (S i = height_ sp)) as [E|Hne]; [exists head_, None; split_and!; [rewrite E; apply (se_top _ _ _ (ar_entries _ _ _ Har))|by left|done]|].
      destruct (se_entry _ _ _ (ar_entries _ _ _ Har) (S i)) as (p' & n' & He & Hp & Hn); [lia|]. exists p', n'.
      split_and!; [done|by apply on_level_below|]. intros y Hy. by apply linked_below, Hn. }
    destruct (ar_encloses _ _ _ Har (S i) ltac:(lia) p' n' He) as [Hb' Ha']. destruct (entry_get _ _ _ _ He) as [-> ->]. cbn [lift mbind prog_mbind prog_bind].
    apply rg_bind; [apply _|]. eapply rg_mono; [apply (rg_FindSpliceForLevel rely (acts x) rely_grow); [done|lia|done|done|by intros y Hy; apply Ha']|].
    intros [p n] m2 (m1 & Hm1 & Hm2 & Ht & Hp). cbn [fst snd] in *. pose proof (owned_rely _ _ _ _ Ho Hm1) as Ho1.
    destruct (entry_set_level sp i p n) as (sp1 & Eset & Hh1 & Hr1 & He1 & Hother); [pose proof (se_room _ _ _ (ar_entries _ _ _ Har)); lia|].
    rewrite Eset. cbn [lift mbind prog_mbind prog_bind]. eapply rg_mono; [apply (IH sp1); [by apply (owned_rely _ _ m1)|lia|]|].
    + apply (around_grow m1); [apply Ht|by apply rely_grow|]. apply (around_filled m1 sp sp1 i p n p' n' h0); try done.
      * apply (around_grow m); [done|by apply rely_grow|done].
      * intros y Hy. split; [by apply (rely_grow _ _ Hm1), Hn'|by apply Ha'].
    + intros sp' m3 (Hm3 & Har3 & Hh3 & Hsame & Htight). split_and!; [trans m1; [done|by trans m2]|done|congruence|..].
      * intros j q o Hj. rewrite Hsame by lia. apply Hother. lia.
      * intros j q o Hj Hq. destruct (decide (j = i)) as [->|Hne]; [|apply Htight; [lia|done]]. apply Hsame in Hq; [|done].
        destruct (entry_det _ _ _ _ _ _ He1 Hq) as [<- <-]. exists m1. split; [by trans m2|done].
Qed.

(** ** Linking on one level *)

(** Another node has the key already. *)
Definition has_other (m : memory) : Prop := ∃ y ky, y ≠ x ∧ linked m 0 y ∧ key_of !! y = Some ky ∧ Compare key ky = 0.
Lemma has_other_grow m m' : inv m → grow m m' → has_other m → has_other m'.
Proof. intros Hinv Hg (y & ky & Hy & Hl & ? & ?). exists y, ky. split_and!; [done|by apply (Hg Hinv)|done..]. Qed.

(** What holds of a level's entry. *)
Record placed (i : nat) (p : node) (n : option node) (m : memory) : Prop := {
  pl_level : (i < kMaxHeight_)%nat;
  pl_prev : on_level m i p;
  pl_before : before p key;
  pl_next : ∀ y, n = Some y → linked m i y ∧ at_or_after key y ∧ y ≠ x;
}.
Lemma placed_grow i p n m m' : inv m → grow m m' → placed i p n m → placed i p n m'.
Proof.
  intros Hinv Hg [Hi Hp Hb Hn]. split; [done|by apply (on_level_grow m)|done|]. intros y Hy. destruct (Hn y Hy) as (Hl & ? & ?).
  split_and!; [by apply (Hg Hinv)|done..].
Qed.
Lemma tight_placed i p n m h k : owned x h k m → (k ≤ i)%nat → tight key i m p n → placed i p n m.
Proof.
  intros Ho Hk [_ Hi Hp Hb _ Hn]. split; [done..|]. intros y Hy. destruct (Hn y Hy) as [Hl Ha]. split_and!; [done|done|].
  intros ->. by apply (owned_not _ _ _ _ Ho i).
Qed.

(** Only the lowest level can show a duplicate, and then all levels are free. *)
Lemma duplicate_spec h i p n m : owned x h i m → placed i p n m →
  ∃ b : bool, duplicate key i p n = Done b ∧ if b then i = 0%nat ∧ has_other m else ∀ y, n = Some y → klt x y.
Proof.
  intros Ho [Hi Hp Hb Hn]. pose proof (owned_inv _ _ _ _ Ho) as Hinv.
  assert (∀ y ky, n = Some y → key_of !! y = Some ky → 0 ≤ Compare ky key ∧ linked m i y ∧ y ≠ x) as Hn'.
  { intros y ky Hy Ey. destruct (Hn y Hy) as (? & (k & Ek & ?) & ?). rewrite Ey in Ek. by injection Ek as <-. }
  assert (∀ y, n = Some y → ∃ ky, key_of !! y = Some ky) as Hnk by (intros y Hy; destruct (Hn y Hy) as (? & (k & Ek & _) & _); by exists k).
  assert (∀ y ky, key_of !! y = Some ky → Compare key ky < 0 → klt x y) as Hlt by (intros y ky Ey Hlt; by exists key, ky).
  unfold duplicate. destruct (Nat.eqb_spec i 0) as [->|Hne].
  - assert ((if is_head p then Done false else kp ← Key p; Done (0 <=? Compare kp key)) = Done false) as ->.
    { unfold is_head. case_bool_decide as E; [done|]. destruct Hb as [?|(kp & Ep & Hb)]; [done|]. unfold Key. rewrite Ep. cbn. by rewrite (proj2 (Z.leb_gt _ _)) by lia. }
    destruct n as [y|]; [|by exists false]. destruct (Hnk y eq_refl) as [ky Ey]. destruct (Hn' y ky eq_refl Ey) as (Hay & Hy & Hyx).
    unfold Key. rewrite Ey. cbn. pose proof (Compare_flip ky key). pose proof (Compare_flip key ky). destruct (Z.leb_spec 0 (Compare key ky)) as [Hge|Hlt'].
    + exists true. split_and!; [done..|]. exists y, ky. split_and!; [done..|lia].
    + exists false. split; [done|]. intros ? [= <-]. by apply (Hlt y ky).
  - exists false. split; [done|]. intros y Hy. destruct (Hnk y Hy) as [ky Ey]. destruct (Hn' y ky Hy Ey) as (Hay & Hly & Hyx).
    apply (Hlt y ky Ey). pose proof (Compare_flip ky key). pose proof (Compare_flip key ky). destruct (decide (Compare key ky = 0)) as [E|]; [|lia].
    destruct Hyx. symmetry. apply (linked_same_key m 0 i x y key ky); [done|apply (owned_linked _ _ _ _ Ho); lia|done..].
Qed.
Lemma brackets_hold p n : p = head_ ∨ keyed p → before p key → (∀ y, n = Some y → klt x y) → brackets key p n = Done true.
Proof.
  intros Hp Hb Hn. unfold brackets. assert (match n with None => Done true | Some y => ky ← Key y; Done (Compare key ky <? 0) end = Done true) as ->.
  { destruct n as [y|]; [|done]. destruct (Hn y eq_refl) as (kx & ky & Ex & Ey & Hlt). rewrite Hkey in Ex. injection Ex as <-. unfold Key. rewrite Ey. cbn.
    by rewrite (proj2 (Z.ltb_lt _ _)). }
  cbn. unfold is_head. case_bool_decide as E; [done|]. destruct Hb as [?|(kp & Ep & Hb)]; [done|]. unfold Key. rewrite Ep. cbn. by rewrite (proj2 (Z.ltb_lt _ _)).
Qed.

(** ** Why CAS does not fail for ever *)

Lemma level_list m i : inv m → (i < kMaxHeight_)%nat → ∃ l, NoDup l ∧ (∀ y, y ∈ l ↔ linked m i y) ∧ (length l ≤ size key_of)%nat.
Proof.
  intros [L HL] Hi. exists (L i). pose proof (klt_NoDup _ (lo_sorted L m HL i Hi)) as Hnd. split_and!; [done|intros y; symmetry; by apply linked_list|].
  rewrite <- (size_list_to_set (C := gset node)) by done. rewrite <- size_dom. apply subseteq_size. intros y. rewrite elem_of_list_to_set, elem_of_dom.
  apply (lo_keyed L m HL i y Hi).
Qed.
(** [fuel] covers the nodes that were not on the level when the entry was read. *)
Definition budget (i : nat) (p : node) (n : option node) (fuel : nat) (m : memory) : Prop :=
  (size key_of < fuel)%nat ∨
  ∃ m1 l, grow m1 m ∧ tight key i m1 p n ∧ NoDup l ∧ (∀ y, y ∈ l ↔ linked m1 i y) ∧ (size key_of ≤ length l + fuel)%nat.
(** Where an entry is outdated, a node has come in between. *)
Lemma outdated m1 m i p n o :
  grow m1 m → tight key i m1 p n → read_link m i p = Done o → o ≠ n → ∃ y, linked m i y ∧ ¬ linked m1 i y.
Proof.
  intros Hg Ht Ho Hne. destruct (Ht) as [Hinv1 Hi Hp Hb Hr Hn]. destruct (Hg Hinv1) as (Hinv & Hl & _).
  destruct (next_spec m1 i p Hinv1 Hi Hp) as (n' & Hr' & Hn1 & Hlow1). rewrite Hr in Hr'. injection Hr' as <-.
  destruct (next_spec m i p Hinv Hi) as (o' & Ho' & Hn2 & Hlow2); [by apply (on_level_grow m1)|]. rewrite Ho in Ho'. injection Ho' as <-.
  destruct n as [z|].
  - destruct (Hn1 z eq_refl) as [Hz Hpz]. destruct (Hlow2 z (Hl _ _ Hz) Hpz) as (y & -> & [->|Hyz]); [done|]. exists y. split; [by apply Hn2|].
    intros Hy. destruct (Hlow1 y Hy) as (z' & [= <-] & [->|Hzy]); [by apply Hn2|by apply (klt_irrefl y)|]. by apply (klt_irrefl y), (klt_trans y z).
  - destruct o as [y|]; [|done]. exists y. split; [by apply Hn2|]. intros Hy. destruct (Hlow1 y Hy) as (z & [=] & _). by apply Hn2.
Qed.
Lemma NoDup_incl_length_lt (l l' : list node) y : NoDup l → NoDup l' → (∀ z, z ∈ l → z ∈ l') → y ∈ l' → y ∉ l → (length l < length l')%nat.
Proof.
  intros Hl Hl' Hsub Hy Hn. assert (y :: l ⊆+ l') as Hs; [|apply submseteq_length in Hs; cbn in Hs; lia].
  apply NoDup_submseteq; [by constructor|]. intros z [->|Hz]%elem_of_cons; auto.
Qed.
Lemma budget_spend i p n fuel m o :
  budget i p n fuel m → inv m → (i < kMaxHeight_)%nat → read_link m i p = Done o → o ≠ n →
  ∃ fuel', fuel = S fuel' ∧ ∀ m1 m2 p' n', grow m m1 → grow m1 m2 → tight key i m1 p' n' → budget i p' n' fuel' m2.
Proof.
  intros Hb Hinv Hi Ho Hne. destruct (level_list m i Hinv Hi) as (l & Hnd & Hl & Hlen). assert (size key_of < length l + fuel)%nat as Hfuel.
  { destruct Hb as [?|(m1 & l1 & Hg & Ht & Hnd1 & Hl1 & Hlen1)]; [lia|]. destruct (outdated m1 m i p n o) as (y & Hy & Hny); [done..|].
    destruct (Hg (tight_inv _ _ _ _ _ Ht)) as (_ & Hgl & _). assert (length l1 < length l)%nat; [|lia].
    apply (NoDup_incl_length_lt l1 l y); [done|done|intros z; rewrite Hl1, Hl; apply Hgl|by apply Hl|by rewrite Hl1]. }
  destruct fuel as [|fuel]; [lia|]. exists fuel. split; [done|]. intros m1 m2 p' n' Hg1 Hg2 Ht. right.
  destruct (level_list m1 i (tight_inv _ _ _ _ _ Ht) Hi) as (l1 & Hnd1 & Hl1 & _). exists m1, l1. split_and!; [done..|].
  assert (l ⊆+ l1) as Hs; [|apply submseteq_length in Hs; lia]. apply NoDup_submseteq; [done|]. intros z. rewrite Hl, Hl1. by apply (Hg1 Hinv).
Qed.

(** ** Levels *)

(** Before level [i] of an insertion with height [h], whose splice has height [H]. *)
Record linking (H h i : nat) (valid : bool) (sp : Splice) (m : memory) : Prop := {
  lk_owned : owned x h i m;
  lk_height : height_ sp = H;
  lk_entries : splice_entries m sp 0;
  lk_encloses : ∀ j, (0 ≤ j ≤ height_ sp)%nat → encloses key x sp j;
  lk_nested : valid = true → nested sp 0;
}.
Definition level_done (H h i : nat) (valid : bool) (r : Splice * option bool) (m : memory) : Prop :=
  match r.2 with
  | Some valid' => linking H h (S i) valid' r.1 m
  | None => i = 0%nat ∧ linking H h 0 valid r.1 m ∧ has_other m
  end.
Lemma linking_rely H h i v sp m m' : linking H h i v sp m → rely m m' → linking H h i v sp m'.
Proof.
  intros [Ho Hh He Hc Hn] Hm. split; [by apply (owned_rely _ _ m)|done| |done..].
  apply (splice_entries_grow m); [apply (owned_inv _ _ _ _ Ho)|by apply rely_grow|done].
Qed.
Lemma level_done_rely H h i v r m m' : level_done H h i v r m → rely m m' → level_done H h i v r m'.
Proof.
  unfold level_done. intros Hr Hm. destruct r.2; [by apply (linking_rely _ _ _ _ _ m)|]. destruct Hr as (? & Hl & Ho). split_and!; [done|by apply (linking_rely _ _ _ _ _ m)|].
  apply (has_other_grow m); [apply (owned_inv _ _ _ _ (lk_owned _ _ _ _ _ _ Hl))|by apply rely_grow|done].
Qed.
Lemma linking_placed H h i v sp m : linking H h i v sp m → (i < H)%nat → ∃ p n, entry sp i p n ∧ placed i p n m.
Proof.
  intros [Ho Hh He Hc Hn] Hi. destruct (se_entry _ _ _ He i) as (p & n & Hpn & Hp & Hl); [lia|]. exists p, n. split; [done|].
  destruct (Hc i ltac:(lia) p n Hpn) as [Hb Ha]. pose proof (se_height _ _ _ He). split; [lia|done|done|]. intros y Hy. split; [by apply Hl|by apply Ha].
Qed.
Lemma budget_grow i p n fuel m m' : grow m m' → budget i p n fuel m → budget i p n fuel m'.
Proof. intros Hg [?|(m1 & l & Hg1 & ?)]; [by left|right]. exists m1, l. split; [by trans m|done]. Qed.
Lemma read_own h i m m' : owned x h i m → rely m m' → read_link m' i x = read_link m i x.
Proof.
  intros Ho Hm. destruct (rely_evolves _ _ Hm) as [_ He]. destruct (He (owned_inv _ _ _ _ Ho) i) as [_ E]; [by apply (owned_not _ _ _ _ Ho)|].
  unfold read_link, read_cell. by rewrite E.
Qed.

(** A level's entry is found again where it is outdated. *)
Lemma linking_refind H h i v v' sp m p n q o sp' :
  linking H h i v sp m → (i < H)%nat → entry sp i p n → tight key i m q o → q = p ∨ hlt p q → set_level sp i q o = Done sp' →
  (v' = true → v = true ∧ ∀ j q' o', i = S j → entry sp j q' o' → nest_prev q q' ∧ nest_next o' o) →
  linking H h i v' sp' m ∧ entry sp' i q o.
Proof.
  intros [Ho Hh He Hc Hn] Hi Hpn Ht Hpq Hset Hv. assert (i < height_ sp)%nat as Hi' by lia.
  destruct (set_facts m sp sp' i q o 0 Hset Hi' He) as (Hh' & _ & Hqo & _). destruct (tight_placed i q o m h i Ho) as [Hlev Hq Hb Hno]; [done|done|].
  assert (∀ j, (0 ≤ j)%nat → j ≠ i → (0 ≤ j)%nat) as Hlo by lia. split; [|done]. split; [done|lia|..].
  - apply (set_entries m sp sp' i q o 0 0); [done..|]. intros y Hy. by apply Hno.
  - apply (set_encloses m sp sp' i q o 0 0); [done..|]. intros y Hy. by apply Hno.
  - intros [Hvt Hdown]%Hv. apply (set_nested m sp sp' i q o 0 0); [done..|by apply Hn| |intros; by apply (Hdown j)].
    intros p' n' Hp'. destruct (Hn Hvt i p n p' n') as [Hnp Hnn]; [lia|done|done|].
    split; [apply (nest_prev_trans p' p); [by destruct Hpq as [->|]; [left|right]|done]|]. apply (nest_next_trans o n); [|done]. intros y ->.
    destruct (se_entry _ _ _ He i ltac:(lia)) as (p1 & n1 & Hpn1 & _ & Hl). destruct (entry_det _ _ _ _ _ _ Hpn Hpn1) as [<- <-].
    apply (tight_after key i m q o y Ht); [by apply Hl|]. by apply (Hc i ltac:(lia) p (Some y) Hpn).
Qed.

Lemma cas_level_eq fuel i sp v :
  cas_level fuel x key i sp v =
    (prev ← lift (get_prev sp i);
     next ← lift (get_next sp i);
     dup ← lift (duplicate key i prev next);
     if dup : bool then Ret (sp, None)
     else
       _ ← lift (debug_assert (brackets key prev next));
       SetNext x i next (CASNext prev i next (Some x) (λ success,
         if success : bool then Ret (sp, Some v)
         else match fuel with
              | O => Fail OutOfFuel
              | S fuel' =>
                  '(p, n) ← FindSpliceForLevel key prev None i;
                  sp ← lift (set_level sp i p n);
                  cas_level fuel' x key i sp (if (0 <? i)%nat then false else v)
              end))).
Proof. by destruct fuel. Qed.
Lemma rg_cas_level H h fuel i v sp p n m :
  linking H h i v sp m → (i < h ≤ H)%nat → entry sp i p n → budget i p n fuel m → rg (level_done H h i v) (cas_level fuel x key i sp v) m.
Proof.
  revert v sp p n m. induction fuel as [fuel IH] using lt_wf_ind. intros v sp p n m Hl Hi Hpn Hbud.
  rewrite cas_level_eq. destruct (entry_get _ _ _ _ Hpn) as [-> ->]. cbn [lift mbind prog_mbind prog_bind].
  destruct (linking_placed H h i v sp m Hl ltac:(lia)) as (p1 & n1 & Hpn1 & Hpl). destruct (entry_det _ _ _ _ _ _ Hpn Hpn1) as [<- <-].
  pose proof (lk_owned _ _ _ _ _ _ Hl) as Ho. pose proof (owned_inv _ _ _ _ Ho) as Hinv.
  destruct (duplicate_spec h i p n m Ho Hpl) as (b & -> & Hdup). cbn [lift mbind prog_mbind prog_bind]. destruct b.
  - destruct Hdup as [-> Hother]. apply rg_ret. intros m1 Hm1. by apply (level_done_rely _ _ _ _ _ m).
  - rewrite debug_assert_true by (apply brackets_hold; [apply (on_level_keyed m i); [done|apply Hpl]|apply Hpl|done]). cbn [lift mbind prog_mbind prog_bind].
    apply rg_set_next. intros m1 Hm1. pose proof (linking_rely _ _ _ _ _ _ _ Hl Hm1) as Hl1. pose proof (lk_owned _ _ _ _ _ _ Hl1) as Ho1.
    destruct (read_cell_some m1 i x) as [c Ec]; [apply (owned_cells _ _ _ _ Ho1); lia|]. exists c. split; [done|].
    destruct (link_own x h i m1 n x_keyed Ho1 ltac:(lia)) as (Hact & Ho2 & Hown & _). split; [done|]. set (m2 := write_link m1 i x n) in *.
    apply rg_cas; [apply _|]. intros m3 Hm3.
    assert (grow m m3) as Hg by (trans m1; [by apply rely_grow|trans m2; [apply Hact|by apply rely_grow]]).
    assert (linking H h i v sp m3) as Hl3.
    { apply (linking_rely _ _ _ _ _ m2); [|done]. destruct Hl1 as [? ? He ? ?]. split; [done..| |done|done].
      apply (splice_entries_grow m1); [apply (owned_inv _ _ _ _ Ho1)|apply Hact|done]. }
    pose proof (lk_owned _ _ _ _ _ _ Hl3) as Ho3. pose proof (placed_grow i p n m m3 Hinv Hg Hpl) as [Hlev Hp Hb Hn].
    destruct (next_spec m3 i p (owned_inv _ _ _ _ Ho3) Hlev Hp) as (o & Eo & _ & _). exists o. split; [done|]. split.
    + intros ->. destruct (link_prev x h i m3 p n) as (Hact3 & Ho4 & _); [done|pose proof (se_height _ _ _ (lk_entries _ _ _ _ _ _ Hl3)); pose proof (lk_height _ _ _ _ _ _ Hl3); lia|done|done| |done| |].
      { apply (before_at_or_after _ _ key); [done|apply x_at_or_after]. } { rewrite (read_own h i m2 m3); done. }
      split; [done|]. apply rg_ret. intros m5 Hm5. apply (linking_rely _ _ _ _ _ (write_link m3 i p (Some x))); [|done].
      destruct Hl3 as [? ? He ? ?]. split; [done..| |done|done]. apply (splice_entries_grow m3); [apply (owned_inv _ _ _ _ Ho3)|apply Hact3|done].
    + intros Hne. destruct (budget_spend i p n fuel m3 o) as (fuel' & -> & Hspend); [by apply (budget_grow _ _ _ _ m)|apply (owned_inv _ _ _ _ Ho3)|done..|].
      apply rg_bind; [apply _|]. eapply rg_mono; [apply (rg_FindSpliceForLevel rely (acts x) rely_grow); [apply (owned_inv _ _ _ _ Ho3)|done..]|].
      intros [q o'] m5 (m4 & Hm4 & Hm5 & Ht & Hpq). cbn [fst snd] in *. pose proof (linking_rely _ _ _ _ _ _ _ Hl3 Hm4) as Hl4.
      destruct (entry_set_level sp i q o') as (sp' & Eset & _); [pose proof (se_room _ _ _ (lk_entries _ _ _ _ _ _ Hl3)); lia|]. rewrite Eset. cbn [lift mbind prog_mbind prog_bind].
      destruct (linking_refind H h i v (if (0 <? i)%nat then false else v) sp m4 p n q o' sp') as [Hl5 Hqo]; [done|lia|done..| |].
      { destruct (Nat.ltb_spec 0 i); [done|]. intros ->. split; [done|lia]. }
      eapply rg_mono; [apply (IH fuel' ltac:(lia) _ sp' q o'); [by apply (linking_rely _ _ _ _ _ m4)|done|done|]|].
      { apply (Hspend m4); [by apply rely_grow|by apply rely_grow|done]. }
      intros [sp2 out] m6. unfold level_done. cbn [fst snd]. destruct out; [done|]. intros (-> & ?). done.
Qed.

(** ** Levels without CAS *)

Section alone.
Context (rely_eq : ∀ m m', rely m m' → m' = m).

(** What comes next to a level that has been linked. *)
Definition gap (i : nat) (p : node) (n : option node) (m : memory) : Prop :=
  (∀ z, linked m i z → before z key → z = p ∨ klt z p) ∧ (∀ z, linked m i z → at_or_after key z → z ≠ x → ∃ y, n = Some y ∧ (y = z ∨ klt y z)).
Record linking_alone (H h recompute_height i : nat) (sp : Splice) (m : memory) : Prop := {
  la_linking : linking H h i true sp m;
  la_tight : ∀ j p n, (i ≤ j < recompute_height)%nat → entry sp j p n → tight key j m p n;
  la_gap : ∀ j p n, i = S j → entry sp j p n → gap j p n m;
}.
Definition level_done_alone (H h recompute_height i : nat) (r : Splice * option bool) (m : memory) : Prop :=
  match r.2 with
  | Some valid' => valid' = true ∧ linking_alone H h recompute_height (S i) r.1 m
  | None => i = 0%nat ∧ linking H h 0 true r.1 m ∧ has_other m
  end.

Definition retightened (H h rec i : nat) (r : node * option node * Splice) (m : memory) : Prop :=
  linking_alone H h rec i r.2 m ∧ entry r.2 i r.1.1 r.1.2 ∧ tight key i m r.1.1 r.1.2.
Lemma rg_retighten H h rec i sp p n m :
  linking_alone H h rec i sp m → (i < h ≤ H)%nat → entry sp i p n →
  rg (retightened H h rec i)
    (if (rec <=? i)%nat then
       Next p i (λ now,
         if negb (bool_decide (now = n)) then
           '(p, n) ← FindSpliceForLevel key p None i; sp ← lift (set_level sp i p n); Ret (p, n, sp)
         else Ret (p, n, sp))
     else Ret (p, n, sp)) m.
Proof.
  intros Hla Hi Hpn. pose proof (la_linking _ _ _ _ _ _ Hla) as Hl. destruct (linking_placed H h i true sp m Hl ltac:(lia)) as (p1 & n1 & Hpn1 & [Hlev Hp Hb Hn]).
  destruct (entry_det _ _ _ _ _ _ Hpn Hpn1) as [<- <-]. pose proof (lk_owned _ _ _ _ _ _ Hl) as Ho. pose proof (owned_inv _ _ _ _ Ho) as Hinv.
  destruct (Nat.leb_spec rec i) as [Hrec|Hrec]; [|apply rg_ret; intros m1 ->%rely_eq; split_and!; [done|done|by apply (la_tight _ _ _ _ _ _ Hla)]].
  apply rg_next; [apply _|]. intros m1 ->%rely_eq. destruct (next_spec m i p Hinv Hlev Hp) as (o & Eo & _ & _). exists o. split; [done|].
  case_bool_decide as E; cbn [negb]; [subst o; apply rg_ret; intros m1 ->%rely_eq; split_and!; [done|done|]; split; [done..|]; intros y Hy; destruct (Hn y Hy) as (? & ? & _); done|].
  apply rg_bind; [apply _|]. eapply rg_mono; [by apply (rg_FindSpliceForLevel rely (acts x) rely_grow)|].
  intros [q o'] m3 (m2 & ->%rely_eq & ->%rely_eq & Ht & Hpq). cbn [fst snd] in *.
  destruct (entry_set_level sp i q o') as (sp' & Eset & Hh' & _ & Hqo & Hother); [pose proof (se_room _ _ _ (lk_entries _ _ _ _ _ _ Hl)); lia|].
  rewrite Eset. cbn [lift mbind prog_mbind prog_bind]. apply rg_ret. intros m1 ->%rely_eq. split_and!; [|done|done]. cbn [fst snd]. split; [|lia|].
  - apply (linking_refind H h i true true sp m p n q o' sp'); [done|lia|done..|]. intros _. split; [done|]. intros j q' o1 -> Hq'.
    destruct (la_gap _ _ _ _ _ _ Hla j q' o1 eq_refl Hq') as [Hg1 Hg2]. destruct Ht as [_ _ Hq Hqb _ Hqn]. split.
    + destruct Hq as [->|Hq]; [by left|]. right. apply Hg1; [by apply linked_below|done].
    + intros y ->. destruct (Hqn y eq_refl) as [Hy Hay]. apply Hg2; [by apply linked_below|done|]. intros ->. by apply (owned_not _ _ _ _ Ho (S j)).
  - intros j q' o1 -> Hq'. apply (la_gap _ _ _ _ _ _ Hla j); [done|]. apply Hother; [lia|done].
Qed.

Lemma tight_kept i m m' p n : tight key i m p n → inv m' → (∀ y, linked m' i y ↔ linked m i y) → read_link m' i p = read_link m i p → tight key i m' p n.
Proof.
  intros [Hinv Hi Hp Hb Hr Hn] Hinv' Hl E. split; [done|done|destruct Hp; [by left|right; by apply Hl]|done|by rewrite E|].
  intros y Hy. rewrite Hl. by apply Hn.
Qed.
(** Both writes. *)
Lemma link_both H h rec i sp m p n :
  linking_alone H h rec i sp m → (i < h ≤ H)%nat → entry sp i p n → tight key i m p n → (∀ y, n = Some y → klt x y) →
  let m1 := write_link m i x n in let m2 := write_link m1 i p (Some x) in
  acts x m m1 ∧ acts x m1 m2 ∧ (∃ c, read_cell m1 i p = Done c) ∧ linking_alone H h rec (S i) sp m2.
Proof.
  intros [Hl Htight Hgap] Hi Hpn Ht Hn m1 m2. destruct (Hl) as [Ho Hh He Hc Hne]. pose proof (owned_inv _ _ _ _ Ho) as Hinv. destruct (Ht) as [_ Hlev Hp Hb Hr _].
  destruct (link_own x h i m n x_keyed Ho ltac:(lia)) as (Hact1 & Ho1 & Hown & Hl1). fold m1 in Hact1, Ho1, Hown, Hl1.
  assert (p ≠ x) as Hpx by (intros E; rewrite E in Hb; by destruct (before_after_apart key x Hb x_at_or_after)).
  assert (∀ j q, (j, q) ≠ (i, x) → read_link m1 j q = read_link m j q) as Hr1 by (intros; by apply read_link_other).
  assert (read_link m1 i p = Done n) as Hr1p by (rewrite Hr1; [done|congruence]).
  destruct (link_prev x h i m1 p n) as (Hact2 & Ho2 & Hl2); [done|pose proof (se_height _ _ _ He); lia|destruct Hp; [by left|right; by apply Hl1]|done| |done|done|].
  { apply (before_at_or_after _ _ key); [done|apply x_at_or_after]. }
  fold m2 in Hact2, Ho2, Hl2. split_and!; [done|done| |].
  { unfold read_link in Hr1p. destruct (read_cell m1 i p) as [c|]; [by exists c|done]. }
  assert (∀ j y, linked m2 j y ↔ linked m j y ∨ j = i ∧ y = x) as Hl12 by (intros j y; by rewrite Hl2, Hl1). split; [split; [done..| |done|done]|..].
  - apply (splice_entries_grow m); [done|trans m1; [apply Hact1|apply Hact2]|done].
  - intros j q o Hj Hq. apply (tight_kept j m); [apply Htight; [lia|done]|apply (owned_inv _ _ _ _ Ho2)|intros y; rewrite Hl12; naive_solver lia|].
    unfold m2. rewrite read_link_other by (intros [= ? _]; lia). apply Hr1. intros [= ? _]. lia.
  - intros j q o [= <-] Hq. destruct (entry_det _ _ _ _ _ _ Hpn Hq) as [<- <-]. split.
    + intros z [Hz|[_ ->]]%Hl12 Hbz; [by apply (tight_last key i m p n)|]. by destruct (before_after_apart key x Hbz x_at_or_after).
    + intros z [Hz|[_ ->]]%Hl12 Haz Hzx; [|done]. by apply (tight_after key i m p n).
Qed.
Lemma rg_plain_level H h rec i sp m :
  linking_alone H h rec i sp m → (i < h ≤ H)%nat → rg (level_done_alone H h rec i) (plain_level x key rec i sp) m.
Proof.
  intros Hla Hi. destruct (linking_placed H h i true sp m (la_linking _ _ _ _ _ _ Hla) ltac:(lia)) as (p & n & Hpn & _). unfold plain_level.
  destruct (entry_get _ _ _ _ Hpn) as [-> ->]. cbn [lift mbind prog_mbind prog_bind].
  apply rg_bind; [apply _|]. eapply rg_mono; [by apply (rg_retighten H h)|]. clear Hla Hpn p n sp m.
  intros [[p n] sp] m (Hla & Hpn & Ht). cbn [fst snd] in *. pose proof (la_linking _ _ _ _ _ _ Hla) as Hl. pose proof (lk_owned _ _ _ _ _ _ Hl) as Ho.
  pose proof (tight_placed i p n m h i Ho (Nat.le_refl i) Ht) as Hpl. destruct (duplicate_spec h i p n m Ho Hpl) as (b & -> & Hdup). cbn [lift mbind prog_mbind prog_bind]. destruct b.
  - destruct Hdup as [-> Hother]. apply rg_ret. by intros m1 ->%rely_eq.
  - rewrite debug_assert_true by (apply brackets_hold; [apply (on_level_keyed m i); [apply (owned_inv _ _ _ _ Ho)|apply Hpl]|apply Hpl|done]). cbn [lift mbind prog_mbind prog_bind].
    destruct (link_both H h rec i sp m p n Hla Hi Hpn Ht Hdup) as (Hact1 & Hact2 & [c Ec] & Hla').
    assert (rg (level_done_alone H h rec i) (SetNext x i n (SetNext p i (Some x) (Ret (sp, Some true)))) m) as Hlink.
    { apply rg_set_next. intros m1 ->%rely_eq. destruct (read_cell_some m i x) as [c' Ec']; [apply (owned_cells _ _ _ _ Ho); lia|]. exists c'. split_and!; [done|done|].
      apply rg_set_next. intros m2 ->%rely_eq. exists c. split_and!; [done|done|]. apply rg_ret. by intros m3 ->%rely_eq. }
    destruct NDEBUG; [done|]. cbn [lift mbind prog_mbind prog_bind]. apply rg_next; [apply _|]. intros m1 ->%rely_eq. exists n. split; [apply Ht|].
    rewrite bool_decide_true by done. by rewrite assert_true.
Qed.
End alone.

(** ** All levels *)

Lemma rg_link_levels UseCAS rec h (I : nat → bool → Splice → memory → Prop) (D : Splice → memory → Prop) :
  (∀ v sp m m', I h v sp m → rely m m' → I h v sp m') → (∀ sp m m', D sp m → rely m m' → D sp m') →
  (∀ i v sp m, (i < h)%nat → I i v sp m →
     rg (λ (r : Splice * option bool) m', match r.2 with Some v' => I (S i) v' r.1 m' | None => D r.1 m' end)
       (if UseCAS : bool then cas_level cas_fuel x key i sp v else plain_level x key rec i sp) m) →
  ∀ todo i v sp m, (i + todo = h)%nat → I i v sp m →
  rg (λ (r : Splice * option bool) m', match r.2 with Some v' => I h v' r.1 m' | None => D r.1 m' end) (link_levels UseCAS x key rec todo i sp v) m.
Proof.
  intros HI HD Hlevel todo. induction todo as [|todo IH]; intros i v sp m Htodo Hi; cbn [link_levels].
  - apply rg_ret. intros m1 Hm1. cbn. assert (i = h) as -> by lia. by apply (HI v sp m).
  - apply rg_bind; [apply _|]. eapply rg_mono; [apply Hlevel; [lia|done]|]. intros [sp1 [v1|]] m1; cbn [fst snd].
    + apply IH. lia.
    + intros Hd. apply rg_ret. intros m2 Hm2. by apply (HD sp1 m1).
Qed.

Definition levels_done (H h : nat) (r : Splice * option bool) (m : memory) : Prop :=
  match r.2 with Some v => linking H h h v r.1 m | None => linking H h 0 true r.1 m ∧ has_other m end.
Lemma linking_other_rely H h sp m m' : linking H h 0 true sp m ∧ has_other m → rely m m' → linking H h 0 true sp m' ∧ has_other m'.
Proof.
  intros [Hl Ho] Hm. split; [by apply (linking_rely _ _ _ _ _ m)|].
  apply (has_other_grow m); [apply (owned_inv _ _ _ _ (lk_owned _ _ _ _ _ _ Hl))|by apply rely_grow|done].
Qed.
Lemma rg_link_levels_cas H h rec sp m :
  linking H h 0 true sp m → (h ≤ H)%nat → rg (levels_done H h) (link_levels true x key rec h 0 sp true) m.
Proof.
  intros Hl Hh. eapply rg_mono; [apply (rg_link_levels true rec h (λ i v sp m, linking H h i v sp m ∧ (i = 0%nat → v = true)) (λ sp m, linking H h 0 true sp m ∧ has_other m))|].
  - intros v sp1 m1 m2 [Hl1 Hv] Hm. split; [by apply (linking_rely _ _ _ _ _ m1)|done].
  - intros sp1 m1 m2. apply linking_other_rely.
  - intros i v sp1 m1 Hi [Hl1 Hv]. destruct (linking_placed H h i v sp1 m1 Hl1 ltac:(lia)) as (p & n & Hpn & _).
    eapply rg_mono; [apply (rg_cas_level H h cas_fuel i v sp1 p n); [done|lia|done|left; unfold cas_fuel; lia]|].
    intros [sp2 [v2|]] m2; unfold level_done; cbn [fst snd]; [done|]. intros (-> & Hl2 & Ho). by rewrite (Hv eq_refl) in Hl2.
  - lia.
  - done.
  - intros [sp1 [v1|]] m1; unfold levels_done; cbn [fst snd]; [by intros [? _]|done].
Qed.
Lemma rg_link_levels_alone H h rec sp m :
  (∀ m m', rely m m' → m' = m) → linking_alone H h rec 0 sp m → (h ≤ H)%nat → rg (levels_done H h) (link_levels false x key rec h 0 sp true) m.
Proof.
  intros Heq Hl Hh. eapply rg_mono; [apply (rg_link_levels false rec h (λ i v sp m, linking_alone H h rec i sp m ∧ v = true) (λ sp m, linking H h 0 true sp m ∧ has_other m))|].
  - by intros v sp1 m1 m2 Hl1 ->%Heq.
  - by intros sp1 m1 m2 Hl1 ->%Heq.
  - intros i v sp1 m1 Hi [Hl1 ->]. eapply rg_mono; [apply (rg_plain_level Heq H h rec i); [done|lia]|].
    intros [sp2 [v2|]] m2; unfold level_done_alone; cbn [fst snd]; [by intros [? ?]|by intros (_ & ? & ?)].
  - lia.
  - done.
  - intros [sp1 [v1|]] m1; unfold levels_done; cbn [fst snd]; [|done]. intros [Hl1 ->]. apply Hl1.
Qed.

(** ** The splice in the end *)

Lemma set_prevs_entry sp h j p n :
  entry (set_prevs sp x h) j p n ↔ if decide (j < h)%nat then p = x ∧ snext_ sp !! j = Some n else entry sp j p n.
Proof.
  assert (snext_ (set_prevs sp x h) = snext_ sp) as Hn by (induction h; done).
  unfold entry. rewrite Hn. clear Hn. induction h as [|h IH]; cbn; [done|].
  destruct (decide (j = h)) as [->|Hne]; [rewrite lookup_insert_eq, decide_True by lia; naive_solver|]. rewrite lookup_insert_ne by done.
  destruct (decide (j < h)%nat); destruct (decide (j < S h)%nat); [done|lia..|done].
Qed.
Lemma set_prevs_height sp h : height_ (set_prevs sp x h) = height_ sp ∧ sp_room (set_prevs sp x h) = sp_room sp.
Proof. by induction h. Qed.

Section final.
Context (H h : nat) (sp : Splice) (m : memory) (Hl : linking H h h true sp m) (Hh : (1 ≤ h ≤ H)%nat).

(** The node found on the right is after [x]. *)
Lemma final_next i p n y : (i < H)%nat → entry sp i p n → n = Some y → linked m i y ∧ klt x y.
Proof.
  intros Hi Hpn ->. destruct Hl as [Ho HH He Hc _]. destruct (se_entry _ _ _ He i) as (p1 & n1 & Hpn1 & _ & Hln); [lia|].
  destruct (entry_det _ _ _ _ _ _ Hpn Hpn1) as [<- <-]. specialize (Hln y eq_refl). split; [done|].
  destruct (Hc i ltac:(lia) p (Some y) Hpn) as [_ Ha]. destruct (Ha y eq_refl) as [(ky & Ey & Hay) Hyx]. pose proof (owned_inv _ _ _ _ Ho) as Hinv.
  destruct (decide (Compare ky key = 0)) as [E|Hne].
  - destruct Hyx. by apply (linked_same_key m i 0 y x ky key); [..|apply (owned_linked _ _ _ _ Ho); lia|done|done|done].
  - exists key, ky. split_and!; [done|done|]. pose proof (Compare_flip key ky). lia.
Qed.
Lemma final_entry i p n : entry (set_prevs sp x h) i p n → (i < h)%nat ∧ p = x ∧ (∃ q, entry sp i q n) ∨ (h ≤ i)%nat ∧ entry sp i p n.
Proof.
  rewrite set_prevs_entry. destruct (decide (i < h)%nat) as [Hi|Hi]; [|intros; right; split; [lia|done]]. intros [-> Hn]. left. split_and!; [done|done|].
  destruct Hl as [_ HH He _ _]. destruct (se_entry _ _ _ He i) as (q & n' & [Hq Hn'] & _); [lia|]. exists q. by split.
Qed.
Lemma final_entries : splice_entries m (set_prevs sp x h) 0.
Proof.
  destruct Hl as [Ho HH He Hc Hn]. destruct (set_prevs_height sp h) as [E1 E2]. destruct (He) as [Hkm Hr Ht Hentry]. split; rewrite ?E1, ?E2; [done|done|..].
  - apply set_prevs_entry. by rewrite decide_False by lia.
  - intros i Hi. destruct (Hentry i Hi) as (p & n & Hpn & Hp & Hln). destruct (decide (i < h)%nat) as [Hih|Hih].
    + exists x, n. split_and!; [apply set_prevs_entry; rewrite decide_True by done; split; [done|apply Hpn]|right; by apply (owned_linked _ _ _ _ Ho)|done].
    + exists p, n. split_and!; [apply set_prevs_entry; by rewrite decide_False by done|done|done].
Qed.
Lemma final_nested : nested (set_prevs sp x h) 0.
Proof.
  destruct (Hl) as [Ho HH He Hc Hn]. specialize (Hn eq_refl). intros i p n p' n' Hi Hpn Hpn'. rewrite (proj1 (set_prevs_height sp h)) in Hi.
  destruct (final_entry _ _ _ Hpn) as [(Hih & -> & q & Hq)|[Hih Hq]]; destruct (final_entry _ _ _ Hpn') as [(Hih' & -> & q' & Hq')|[Hih' Hq']]; [| |lia|].
  - destruct (Hn i q n q' n'); [lia|done|done|]. split; [by right; left|done].
  - destruct (Hn i q n p' n') as [_ Hnn]; [lia|done|done|]. split; [|done]. destruct (Hc (S i) ltac:(lia) p' n' Hq') as [Hb _].
    destruct (before_at_or_after p' x key Hb x_at_or_after) as [[-> _]|?]; [by left|by right; right].
  - by apply (Hn i p n p' n').
Qed.
Lemma splice_level_holds i : (i < H)%nat → splice_level_ok key (set_prevs sp x h) i = Done true.
Proof.
  intros Hi. destruct (Hl) as [Ho HH He Hc _]. pose proof final_entries as Hfe. pose proof (proj1 (set_prevs_height sp h)) as EH.
  destruct (entry_le m _ i Hfe) as (p & n & Hpn & _); [lia|]. destruct (entry_le m _ (S i) Hfe) as (p' & n' & Hpn' & _); [lia|].
  destruct (final_nested i p n p' n') as [Hnp Hnn]; [lia|done|done|].
  unfold splice_level_ok. destruct (entry_get _ _ _ _ Hpn) as [-> ->]. destruct (entry_get _ _ _ _ Hpn') as [-> ->]. cbn [mbind R_bind].
  assert (∀ y, n = Some y → klt x y) as Hxn.
  { intros y Hy. destruct (final_entry _ _ _ Hpn) as [(_ & _ & q & Hq)|[_ Hq]]; [by apply (final_next i q n y)|by apply (final_next i p n y)]. }
  assert (match n with None => Done true | Some y => ky ← Key y; Done (Compare key ky <? 0) end = Done true) as ->.
  { destruct n as [y|]; [|done]. destruct (Hxn y eq_refl) as (kx & ky & Ex & Ey & Hlt). rewrite Hkey in Ex. injection Ex as <-. unfold Key. rewrite Ey. cbn. by rewrite (proj2 (Z.ltb_lt _ _)). }
  assert ((if is_head p then Done true else kp ← Key p; Done (Compare kp key <=? 0)) = Done true) as ->.
  { unfold is_head. case_bool_decide as Ep; [done|]. unfold Key. destruct (final_entry _ _ _ Hpn) as [(_ & -> & _)|[_ Hq]]; [rewrite Hkey; cbn; by rewrite Compare_refl|].
    destruct (Hc i ltac:(lia) p n Hq) as [[?|(kp & Ekp & Hb)] _]; [done|]. rewrite Ekp. cbn. by rewrite (proj2 (Z.leb_le _ _)) by lia. }
  assert ((if bool_decide (p' = p) || is_head p' then Done true else kp' ← Key p'; kp ← Key p; Done (Compare kp' kp <? 0)) = Done true) as ->.
  { unfold is_head. destruct Hnp as [->|[->|(k' & k & E' & E & Hlt)]]; [by rewrite (bool_decide_true (head_ = head_)), orb_true_r|by rewrite bool_decide_true|].
    destruct (_ || _); [done|]. unfold Key. rewrite E', E. cbn. by rewrite (proj2 (Z.ltb_lt _ _)). }
  destruct n' as [y'|]; [|done]. cbn. case_bool_decide as E; [done|]. destruct (Hnn y' eq_refl) as (y & -> & [->|(k & k' & Ek & Ek' & Hlt)]); [done|].
  unfold Key. rewrite Ek, Ek'. cbn. by rewrite (proj2 (Z.ltb_lt _ _)).
Qed.
Lemma splice_holds : splice_ok key (set_prevs sp x h) = Done true.
Proof.
  assert (∀ k, (k ≤ H)%nat → splice_levels_ok key (set_prevs sp x h) k = Done true) as Hlev.
  { induction k as [|k IH]; intros Hk; [done|]. cbn [splice_levels_ok]. rewrite IH by lia. rewrite splice_level_holds by lia. done. }
  unfold splice_ok. destruct (entry_get _ _ _ _ (se_top _ _ _ final_entries)) as [-> ->]. cbn [mbind R_bind]. 
  rewrite Hlev by (rewrite (proj1 (set_prevs_height sp h)); pose proof (lk_height _ _ _ _ _ _ Hl); lia). cbn. unfold is_head. by rewrite bool_decide_true.
Qed.
End final.

(** ** The function *)

(** A splice that the caller keeps between insertions. *)
Definition splice_valid (sp : Splice) (m : memory) : Prop :=
  (kMaxHeight_ < sp_room sp)%nat ∧ (height_ sp ≤ max_height_ m)%nat ∧ ((0 < height_ sp)%nat → splice_entries m sp 0 ∧ nested sp 0).
Lemma splice_valid_grow sp m m' : inv m → grow m m' → splice_valid sp m → splice_valid sp m'.
Proof.
  intros Hinv Hg (Hr & Hh & Hs). destruct (Hg Hinv) as (_ & _ & Hmax). split_and!; [done|lia|]. intros Hpos. destruct (Hs Hpos). split; [by apply (splice_entries_grow m)|done].
Qed.
(** A node as AllocateKey leaves it, with the key filled in. *)
Definition allocated (h : nat) (m : memory) : Prop := owned x h 0 m ∧ next_ m !! (0%nat, x) = Some (StashedHeight h) ∧ (1 ≤ h ≤ kMaxHeight_)%nat.

(** Up to the levels: a splice around the key, tight where it has been filled in. *)
Definition prepared (h : nat) (r : Splice * nat) (m : memory) : Prop :=
  owned x h 0 m ∧ around m r.1 0 ∧ (h ≤ height_ r.1 ≤ max_height_ m)%nat ∧
  ∀ j p n, (j < r.2)%nat → entry r.1 j p n → ∃ m1, rely m1 m ∧ tight key j m1 p n.
Lemma rg_recompute h sp rec m :
  owned x h 0 m → around m sp rec → (rec ≤ height_ sp)%nat → (h ≤ height_ sp ≤ max_height_ m)%nat →
  rg (λ sp' m', prepared h (sp', rec) m') (if (0 <? rec)%nat then RecomputeSpliceLevels key sp rec else Ret sp) m.
Proof.
  intros Ho Har Hrec Hh. destruct (Nat.ltb_spec 0 rec) as [Hpos|Hz].
  - unfold RecomputeSpliceLevels. rewrite (proj2 (Nat.ltb_lt _ _)) by done. rewrite (proj2 (Nat.leb_le _ _)) by done. rewrite assert_true. cbn [lift mbind prog_mbind prog_bind].
    eapply rg_mono; [by apply (rg_recompute_from h)|]. intros sp' m' (Hm & Har' & Hh' & _ & Ht). pose proof (rely_max _ _ (owned_inv _ _ _ _ Ho) Hm).
    split_and!; cbn [fst snd]; [by apply (owned_rely _ _ m)|done|lia|lia|done].
  - assert (rec = 0%nat) as -> by lia. apply rg_ret. intros m1 Hm1. pose proof (rely_max _ _ (owned_inv _ _ _ _ Ho) Hm1).
    split_and!; cbn [fst snd]; [by apply (owned_rely _ _ m)| |lia|lia|lia]. apply (around_grow m); [apply (owned_inv _ _ _ _ Ho)|by apply rely_grow|done].
Qed.
Lemma rg_choose h sp partial mh m :
  owned x h 0 m → splice_valid sp m → (1 ≤ h ≤ mh)%nat → (mh ≤ max_height_ m)%nat → (height_ sp ≤ mh)%nat →
  rg (λ r m', owned x h 0 m' ∧ around m' r.1 r.2 ∧ height_ r.1 = mh ∧ (r.2 ≤ mh ≤ max_height_ m')%nat)
    (if (height_ sp <? mh)%nat then
       sp ← lift (set_level sp mh head_ None); Ret (set_height sp mh, mh)
     else h ← find_recompute mh key sp partial mh 0; Ret (sp, h)) m.
Proof.
  intros Ho (Hroom & _ & Hvalid) Hh Hmax Hsp. pose proof (owned_inv _ _ _ _ Ho) as Hinv. pose proof (max_in_range m Hinv).
  assert (∀ r m1 m', owned x h 0 m1 ∧ around m1 r.1 r.2 ∧ height_ r.1 = mh ∧ (r.2 ≤ mh ≤ max_height_ m1)%nat → rely m1 m' →
    owned x h 0 m' ∧ around m' r.1 r.2 ∧ height_ r.1 = mh ∧ (r.2 ≤ mh ≤ max_height_ m')%nat) as Hkeep.
  { intros r m1 m' (Ho1 & Har & E & Hr) Hm. pose proof (owned_inv _ _ _ _ Ho1). pose proof (rely_max m1 m' ltac:(done) Hm).
    split_and!; [by apply (owned_rely _ _ m1)| |done|lia|lia]. apply (around_grow m1); [done|by apply rely_grow|done]. }
  destruct (Nat.ltb_spec (height_ sp) mh) as [Hlt|Hge].
  - destruct (entry_set_level sp mh head_ None) as (sp1 & -> & Hh1 & Hr1 & He1 & _); [lia|]. cbn [lift mbind prog_mbind prog_bind].
    apply rg_ret. intros m1 Hm1. apply (Hkeep (set_height sp1 mh, mh) m); [|done]. cbn [fst snd]. split_and!; [done| |done|lia|lia].
    split; [split; cbn; [lia|lia|done|lia]|intros j ? ? ? ?; cbn; lia|]. intros j Hj p n Hpn. cbn in Hj. assert (j = mh) as -> by lia.
    assert (entry sp1 mh p n) as Hpn' by done. destruct (entry_det _ _ _ _ _ _ He1 Hpn') as [<- <-]. split; [by left|done].
  - assert (mh = height_ sp) as -> by lia. destruct Hvalid as [Hse Hne]; [lia|].
    apply rg_bind; [apply _|]. eapply rg_mono; [apply (rg_find_recompute sp partial h (height_ sp) 0 m); [done|done|done|lia|lia]|].
    intros h' m1 (Hm1 & Hh' & Hc). apply rg_ret. intros m2 Hm2. pose proof (owned_rely _ _ _ _ Ho Hm1) as Ho1. pose proof (rely_max _ _ Hinv Hm1).
    apply (Hkeep (sp, h') m1); [|done]. cbn [fst snd]. assert (splice_entries m1 sp 0) as Hse1 by (apply (splice_entries_grow m); [done|by apply rely_grow|done]).
    split_and!; [done| |done|lia|lia]. split.
    + destruct Hse1 as [? ? ? He]. split; [done..|]. intros j Hj. apply He. lia.
    + intros j p n p' n' Hj. apply Hne. lia.
    + apply (encloses_above key x m1 sp 0 h'); [done|done| |lia|done]. intros j y Hy ->. by apply (owned_not _ _ _ _ Ho1 j); [lia|].
Qed.

Lemma prepared_linking h sp rec m : prepared h (sp, rec) m → linking (height_ sp) h 0 true sp m.
Proof. intros (Ho & [He Hn Hc] & _ & _). by split. Qed.
Lemma prepared_alone h sp rec m : (∀ m m', rely m m' → m' = m) → prepared h (sp, rec) m → linking_alone (height_ sp) h rec 0 sp m.
Proof.
  intros Heq Hp. split; [by apply (prepared_linking h sp rec)| |lia]. intros j p n Hj Hpn. destruct Hp as (_ & _ & _ & Ht). cbn [fst snd] in Ht.
  destruct (Ht j p n) as (m1 & ->%Heq & ?); [lia|done..].
Qed.

(** What has been inserted is linked on all its levels; what has not is nowhere. *)
Definition inserted (h : nat) (r : bool * Splice) (m : memory) : Prop :=
  inv m ∧ splice_valid r.2 m ∧ if r.1 then ∀ i, (i < h)%nat → linked m i x else (∀ i, ¬ linked m i x) ∧ has_other m.
Lemma rg_insert_end H h r m :
  levels_done H h r m → (1 ≤ h ≤ H)%nat → (H ≤ max_height_ m)%nat →
  rg (inserted h)
    (match r.2 with
     | None => Ret (false, r.1)
     | Some true => let sp := set_prevs r.1 x h in _ ← lift (debug_assert (splice_ok key sp)); Ret (true, sp)
     | Some false => Ret (true, set_height r.1 0)
     end) m.
Proof.
  destruct r as [sp out]. unfold levels_done. cbn [fst snd]. intros Hd Hh Hmax.
  assert (∀ b sp' m1, inv m1 → splice_valid sp' m1 → (if b : bool then ∀ i, (i < h)%nat → linked m1 i x else owned x h 0 m1 ∧ has_other m1) → rg (inserted h) (Ret (b, sp')) m1) as Hret.
  { intros b sp' m1 Hinv Hv Hb. apply rg_ret. intros m2 Hm2. pose proof (rely_grow _ _ Hm2) as Hg. destruct (Hg Hinv) as (Hinv2 & Hl & _).
    split_and!; cbn [fst snd]; [done|by apply (splice_valid_grow _ m1)|]. destruct b; [auto|]. destruct Hb as [Ho Hother].
    split; [|by apply (has_other_grow m1)]. intros i. apply (owned_not _ _ _ _ (owned_rely _ _ _ _ Ho Hm2)). lia. }
  destruct out as [[|]|].
  - pose proof (lk_owned _ _ _ _ _ _ Hd) as Ho. cbn zeta. rewrite debug_assert_true by (by apply (splice_holds H h sp m)). cbn [lift mbind prog_mbind prog_bind].
    apply Hret; [apply (owned_inv _ _ _ _ Ho)| |apply (owned_linked _ _ _ _ Ho)]. pose proof (final_entries H h sp m Hd Hh) as Hfe.
    destruct (set_prevs_height sp h) as [E1 E2]. pose proof (lk_height _ _ _ _ _ _ Hd). split_and!; [apply (se_room _ _ _ Hfe)|lia|]. intros _. split; [done|by apply (final_nested H h sp m)].
  - pose proof (lk_owned _ _ _ _ _ _ Hd) as Ho. apply Hret; [apply (owned_inv _ _ _ _ Ho)| |apply (owned_linked _ _ _ _ Ho)].
    split_and!; cbn; [apply (se_room _ _ _ (lk_entries _ _ _ _ _ _ Hd))|lia|lia].
  - destruct Hd as [Hl Hother]. pose proof (lk_owned _ _ _ _ _ _ Hl) as Ho. apply Hret; [apply (owned_inv _ _ _ _ Ho)| |done].
    pose proof (lk_height _ _ _ _ _ _ Hl). split_and!; [apply (se_room _ _ _ (lk_entries _ _ _ _ _ _ Hl))|lia|]. intros _. split; [apply Hl|by apply Hl].
Qed.

Lemma rg_Insert UseCAS partial h sp m :
  (UseCAS = false → ∀ m m', rely m m' → m' = m) → (kMaxHeight_ ≤ kMaxPossibleHeight)%nat → allocated h m → splice_valid sp m →
  rg (inserted h) (Insert UseCAS x sp partial) m.
Proof.
  intros Heq HkMax (Ho & Hcell & Hh) Hsp. pose proof (owned_inv _ _ _ _ Ho) as Hinv. unfold Insert, Key. rewrite Hkey. cbn [lift checked mbind prog_mbind prog_bind].
  apply rg_unstash; [apply _|]. intros m1 Hm1. exists h. pose proof (rely_grow _ _ Hm1) as Hg1. pose proof (owned_rely _ _ _ _ Ho Hm1) as Ho1. split.
  { destruct (rely_evolves _ _ Hm1) as [_ He]. destruct (He Hinv 0%nat) as [_ E]; [by apply (owned_not _ _ _ _ Ho)|]. unfold read_cell. by rewrite E, Hcell. }
  rewrite (proj2 (Nat.leb_le 1 h)), (proj2 (Nat.leb_le h _)) by lia. cbn [andb]. rewrite assert_true. cbn [lift mbind prog_mbind prog_bind].
  apply rg_load_max; [apply _|]. intros m2 Hm2. pose proof (owned_rely _ _ _ _ Ho1 Hm2) as Ho2. pose proof (owned_inv _ _ _ _ Ho2) as Hinv2.
  assert (grow m m2) as Hg2 by (trans m1; [done|by apply rely_grow]). pose proof (splice_valid_grow sp m m2 Hinv Hg2 Hsp) as Hsp2.
  apply rg_bind; [apply _|]. eapply rg_mono; [apply (rg_frame _ _ grow)|].
  { apply rely_grow. } { by intros ? ? [? _]. } { apply (rg_raise_height h); [done|done|lia|lia]. }
  intros mh m3 [(Ho3 & Hhmh & Hmh) Hg3]. pose proof (owned_inv _ _ _ _ Ho3) as Hinv3. pose proof (max_in_range m3 Hinv3).
  pose proof (splice_valid_grow sp m2 m3 Hinv2 Hg3 Hsp2) as Hsp3. destruct Hsp2 as (_ & Hsp2 & _).
  rewrite (proj2 (Nat.leb_le mh _)) by lia. rewrite assert_true. cbn [lift mbind prog_mbind prog_bind].
  apply rg_bind; [apply _|]. eapply rg_mono; [apply (rg_choose h sp partial mh m3); [done|done|lia|lia|lia]|].
  intros [sp4 rec] m4 (Ho4 & Har4 & Hh4 & Hrec). cbn [fst snd] in *.
  rewrite (proj2 (Nat.leb_le rec _)) by lia. rewrite assert_true. cbn [lift mbind prog_mbind prog_bind].
  apply rg_bind; [apply _|]. eapply rg_mono; [apply (rg_recompute h sp4 rec m4); [done|done|lia|lia]|].
  intros sp5 m5 Hp5. destruct (Hp5) as (Ho5 & _ & Hh5 & _). cbn [fst snd] in *.
  apply rg_bind; [apply _|]. eapply rg_mono; [apply (rg_frame _ _ grow); [apply rely_grow|by intros ? ? [? _]|]|].
  { destruct UseCAS; [apply (rg_link_levels_cas (height_ sp5)); [by apply (prepared_linking h sp5 rec)|lia]|].
    apply (rg_link_levels_alone (height_ sp5)); [by apply Heq|by apply prepared_alone; [apply Heq|]|lia]. }
  intros [sp6 out] m6 [Hd Hg6]. destruct (Hg6 (owned_inv _ _ _ _ Ho5)) as (_ & _ & Hmax6).
  apply (rg_insert_end (height_ sp5) h (sp6, out)); [done|lia|lia].
Qed.
End insert.
