(* ===== verification/SkipListCorrect.v ===== *)
(** * The skip list: allocation, construction and insertion alone

    From the constructor on, a list with its own splice is a sorted set. *)
From S2P Require Import Prelude Result Comparator Random SkipList SkipListInv SkipListLogic SkipListSearch SkipListInsert.

(** ** More nodes *)

Section extend.
Context `{B : Build, C : Comparator, CL : !ComparatorLaws C, N : Nodes, NL : !NodesLaws N}.
Context (x : node) (key : bytes) (Hfresh : key_of !! x = None) (Hx : x ≠ head_).

Definition with_key : Nodes := {| head_ := head_; kMaxHeight_ := kMaxHeight_; key_of := <[x := key]> key_of |}.
#[export] Instance with_key_laws : NodesLaws with_key.
Proof. unfold NodesLaws, with_key. cbn. rewrite lookup_insert_ne by done. apply NL. Qed.
Lemma with_key_other y k : key_of !! y = Some k → key_of (Nodes := with_key) !! y = Some k.
Proof. intros E. cbn. rewrite lookup_insert_ne; [done|]. intros ->. congruence. Qed.
Lemma klt_with_key y z : klt y z → klt (N := with_key) y z.
Proof. intros (ky & kz & Ey & Ez & Hlt). exists ky, kz. split_and!; [by apply with_key_other..|done]. Qed.
Lemma lists_with_key L m : lists_ok L m → lists_ok (N := with_key) L m.
Proof.
  intros [Hc Hs Hk Hb Hm]. split; [done| | |done|done].
  - intros i Hi. pose proof (Hs i Hi) as Hsi. induction Hsi as [|y l Hl IH Hy]; constructor; [done|]. apply (Forall_impl _ _ _ Hy). apply klt_with_key.
  - intros i y Hi Hy. destruct (Hk i y Hi Hy) as [k E]. exists k. by apply with_key_other.
Qed.
Lemma inv_with_key m : inv m → inv (N := with_key) m.
Proof. intros [L HL]. exists L. by apply lists_with_key. Qed.
Lemma splice_with_key sp m : splice_valid sp m → splice_valid (N := with_key) sp m.
Proof.
  intros (Hr & Hh & Hs). split_and!; [done|done|]. intros Hpos. destruct (Hs Hpos) as [[? ? ? ?] Hn]. split; [by split|].
  intros i p n p' n' Hi Hp Hp'. destruct (Hn i p n p' n' Hi Hp Hp') as [Hnp Hnn]. split.
  - destruct Hnp as [?|[?|?]]; [by left|by right; left|right; right; by apply klt_with_key].
  - intros y' Hy'. destruct (Hnn y' Hy') as (y & Hy & Hyy). exists y. split; [done|]. destruct Hyy as [?|?]; [by left|right; by apply klt_with_key].
Qed.
End extend.

(** ** Allocation *)

Section allocation.
Context `{B : Build, C : Comparator, CL : !ComparatorLaws C}.

(** A list between calls. *)
Record list_ok (l : InlineSkipList) : Prop := {
  lk_laws : NodesLaws (nodes l);
  lk_inv : inv (N := nodes l) (mem l);
  lk_max : (kMaxHeight_ (Nodes := nodes l) ≤ kMaxPossibleHeight)%nat;
  lk_splice : splice_valid (N := nodes l) (seq_splice_ l) (mem l);
}.
(** A node that waits to be inserted. *)
Definition waiting (l : InlineSkipList) (x : node) (key : bytes) : Prop :=
  key_of (Nodes := nodes l) !! x = Some key ∧ ∃ h, allocated (N := nodes l) x h (mem l).
(** An address that is in no node. *)
Definition unused (l : InlineSkipList) (x : node) : Prop := x ≠ head_ (Nodes := nodes l) ∧ key_of (Nodes := nodes l) !! x = None.

Lemma random_height_range fuel limit scaled seed h :
  (1 ≤ h ≤ limit)%nat → (h ≤ kMaxPossibleHeight)%nat → let r := random_height fuel limit scaled seed h in (h ≤ r.1 ≤ limit)%nat ∧ (r.1 ≤ kMaxPossibleHeight)%nat.
Proof.
  revert seed h. induction fuel as [|fuel IH]; intros seed h Hh H32; cbn [random_height]; destruct (Nat.ltb_spec h limit) as [Hl|Hl]; cbn [andb fst]; try lia;
    destruct (Nat.ltb_spec h kMaxPossibleHeight) as [H2|H2]; cbn [fst]; try lia.
  destruct (Random_Next seed <? scaled); cbn [fst]; [|lia]. destruct (IH (Random_Next seed) (S h)); [lia..|]. lia.
Qed.
Lemma RandomHeight_range limit scaled seed : (1 ≤ limit)%nat →
  ∃ h seed', RandomHeight limit scaled seed = Done (h, seed') ∧ (1 ≤ h ≤ limit)%nat ∧ (h ≤ kMaxPossibleHeight)%nat.
Proof.
  intros Hl. unfold RandomHeight. pose proof (random_height_range limit limit scaled seed 1 ltac:(lia) ltac:(unfold kMaxPossibleHeight; lia)) as [H1 H2].
  destruct (random_height limit limit scaled seed 1) as [h seed'] eqn:E. cbn [fst] in H1, H2. exists h, seed'.
  rewrite (proj2 (Nat.ltb_lt 0 h)), (proj2 (Nat.leb_le h limit)), (proj2 (Nat.leb_le h kMaxPossibleHeight)) by lia. by rewrite !assert_true.
Qed.

Lemma allocate_links_lookup x n cells i y :
  allocate_links x n cells !! (i, y) = if decide (y = x ∧ (1 ≤ i ≤ n)%nat) then Some Uninitialized else cells !! (i, y).
Proof.
  induction n as [|n IH]; cbn [allocate_links]; [rewrite decide_False by lia; done|]. destruct (decide ((S n, x) = (i, y))) as [[= <- <-]|Hne].
  - rewrite lookup_insert_eq, decide_True by lia. done.
  - rewrite lookup_insert_ne by done. rewrite IH. destruct (decide (y = x ∧ (1 ≤ i ≤ n)%nat)), (decide (y = x ∧ (1 ≤ i ≤ S n)%nat)) as [[-> ?]|]; try done; [lia|].
    destruct Hne. f_equal. lia.
Qed.
Lemma AllocateNode_lookup x h m i y :
  next_ (AllocateNode x h m) !! (i, y) =
    if decide (y = x ∧ i = 0%nat) then Some (StashedHeight h) else if decide (y = x ∧ (1 ≤ i ≤ h - 1)%nat) then Some Uninitialized else next_ m !! (i, y).
Proof.
  unfold AllocateNode. cbn [next_]. destruct (decide (y = x ∧ i = 0%nat)) as [[-> ->]|Hne]; [apply lookup_insert_eq|].
  rewrite lookup_insert_ne by naive_solver. apply allocate_links_lookup.
Qed.

(** A node that is not in the list changes nothing there. *)
Lemma AllocateNode_inv (N : Nodes) (NL : NodesLaws N) x h m :
  inv m → x ≠ head_ → key_of !! x = None → inv (AllocateNode x h m) ∧ ∀ i y, linked (AllocateNode x h m) i y ↔ linked m i y.
Proof.
  intros [L HL] Hx Hnone. assert (lists_ok L (AllocateNode x h m)) as HL'; [|split; [by exists L|intros; symmetry; by apply (same_lists L)]].
  apply (lists_ok_ext L m); [|apply (lo_max L m HL)|done]. intros i z Hz. unfold read_link, read_cell. rewrite AllocateNode_lookup.
  assert (z ≠ x) as Hzx. { intros ->. destruct Hz as [?|Hz]; [done|]. destruct (linked_keyed m i x ltac:(by exists L) Hz) as [k E]. congruence. }
  by rewrite !decide_False by naive_solver.
Qed.

(** AllocateKey makes a node that waits, and leaves the others as they are. *)
Lemma AllocateKey_ok l x key seed : list_ok l → unused l x →
  ∃ l' seed', AllocateKey x key seed l = Done (l', seed') ∧ list_ok l' ∧ waiting l' x key ∧
    head_ (Nodes := nodes l') = head_ (Nodes := nodes l) ∧ key_of (Nodes := nodes l') = <[x := key]> (key_of (Nodes := nodes l)) ∧
    (∀ i y, linked (N := nodes l') (mem l') i y ↔ linked (N := nodes l) (mem l) i y) ∧ (∀ y k, waiting l y k → waiting l' y k).
Proof.
  destruct l as [N kB scaled m sp]. intros [NL Hinv H32 Hsp] [Hx Hnone]. cbn in *. assert (1 ≤ kMaxHeight_)%nat as Hpos by (destruct Hinv as [L HL]; pose proof (lo_max L m HL); lia).
  unfold AllocateKey. cbn. destruct (RandomHeight_range kMaxHeight_ scaled seed Hpos) as (h & seed' & -> & Hh & _). cbn. eexists _, _. split; [reflexivity|]. cbn.
  destruct (AllocateNode_inv N NL x h m Hinv Hx Hnone) as [Hinv' Hl]. assert (∀ i, ¬ linked m i x) as Hn.
  { intros i Hi. destruct (linked_keyed m i x Hinv Hi) as [k E]. congruence. }
  assert (grow m (AllocateNode x h m)) as Hg by (intros _; split_and!; [done|intros i y; by rewrite Hl|done]).
  refine (conj _ (conj (conj _ _) (conj _ (conj _ (conj Hl _))))); [|apply lookup_insert_eq| |done|done|].
  - split; cbn; [by apply (with_key_laws x key)|by apply (inv_with_key x key)|done|]. apply (splice_with_key x key); [done|done|]. by apply (splice_valid_grow sp m).
  - exists h. cbn [mem nodes]. split_and!; [|rewrite AllocateNode_lookup; by rewrite decide_True|cbn; lia..]. split; [by apply (inv_with_key x key)|lia|intros i _ Hi; exact (Hn i (proj1 (Hl i x) Hi))|].
    intros i Hi. rewrite AllocateNode_lookup. destruct (decide _); [by eexists|]. rewrite decide_True; [by eexists|]. split; [done|]. destruct i; [naive_solver|lia].
  - intros y k [Ek (h' & [Hinv1 Hl1 Hn1 Hc1] & Hcell & Hh')]. cbn in *. assert (y ≠ x) as Hyx by congruence. split; [cbn; by rewrite lookup_insert_ne|]. exists h'. cbn [mem nodes].
    assert (∀ i, next_ (AllocateNode x h m) !! (i, y) = next_ m !! (i, y)) as Hsame by (intros i; rewrite AllocateNode_lookup; by rewrite !decide_False by naive_solver).
    split_and!; [|by rewrite Hsame|cbn; lia..]. split; [by apply (inv_with_key x key)|lia|intros i Hi Hy; exact (Hn1 i Hi (proj1 (Hl i y) Hy))|]. intros i Hi. rewrite Hsame. by apply Hc1.
Qed.

(** ** Construction *)

Lemma null_links_read x n m i : (i < n)%nat → read_link (null_links x n m) i x = Done None.
Proof.
  induction n as [|n IH]; intros Hi; [lia|]. cbn [null_links]. rewrite read_link_write. case_bool_decide as E; [done|]. apply IH.
  destruct (decide (i = n)) as [->|]; [done|lia].
Qed.
Lemma null_links_max x n m : max_height_ (null_links x n m) = max_height_ m.
Proof. induction n as [|n IH]; [done|]. cbn. exact IH. Qed.
(** A new list is empty. *)
Lemma new_InlineSkipList_ok x max_height branching_factor :
  1 ≤ max_height ≤ 32 → 1 < branching_factor < 2 ^ 16 →
  ∃ l, new_InlineSkipList x max_height branching_factor = Done l ∧ list_ok l ∧ (∀ i y, ¬ linked (N := nodes l) (mem l) i y) ∧
    head_ (Nodes := nodes l) = x ∧ key_of (Nodes := nodes l) = ∅ ∧ kMaxHeight_ (Nodes := nodes l) = Z.to_nat max_height.
Proof.
  intros Hmax Hbf. unfold new_InlineSkipList. rewrite !(wrap_small 16) by (unfold in_range; lia).
  destruct (Z.eqb_spec branching_factor 0) as [|_]; [lia|]. cbn [negb require mbind R_bind].
  assert (0 < (kMaxNext + 1) / branching_factor) as Hscaled by (apply Z.div_str_pos; unfold kMaxNext, Random_M; lia).
  rewrite (proj2 (Z.ltb_lt 0 max_height)), (proj2 (Z.ltb_lt 1 branching_factor)), !Z.eqb_refl, (proj2 (Z.ltb_lt _ _) Hscaled) by lia. cbn [andb]. rewrite !assert_true. cbn [mbind R_bind].
  set (m := null_links _ _ _). eexists. split; [reflexivity|]. cbn [nodes mem seq_splice_ head_ key_of kMaxHeight_]. set (NN := {| head_ := x; kMaxHeight_ := _; key_of := ∅ |}).
  assert (lists_ok (N := NN) (λ _, []) m) as HL.
  { split; [|constructor|by intros i y _ []%not_elem_of_nil|done|].
    - intros i Hi. cbn. by apply null_links_read.
    - unfold m. rewrite null_links_max. cbn. lia. }
  refine (conj _ (conj _ (conj _ (conj _ _)))); [|intros i y Hy|done..].
  - split; cbn [nodes mem seq_splice_]; [apply lookup_empty|by exists (λ _, [])|cbn; unfold kMaxPossibleHeight; lia|]. split_and!; cbn; [lia|lia|lia].
  - apply (linked_iff (N := NN) _ m i y HL) in Hy as [_ []%not_elem_of_nil].
Qed.

(** ** Insertion alone *)

Lemma linked_decide (N : Nodes) m i y : inv m → linked m i y ∨ ¬ linked m i y.
Proof.
  intros [L HL]. destruct (decide ((i < kMaxHeight_)%nat ∧ y ∈ L i)); [left|right]; by rewrite (linked_iff L m i y HL).
Qed.
(** The node that waits goes in unless its key is there. *)
Lemma SkipList_Insert_ok l x key :
  list_ok l → waiting l x key →
  ∃ b l', SkipList_Insert x l = Done (b, l') ∧ list_ok l' ∧ nodes l' = nodes l ∧
    (if b : bool then ¬ has_key (N := nodes l) (mem l) key else has_key (N := nodes l) (mem l) key) ∧
    (∀ y, linked (N := nodes l) (mem l') 0 y ↔ linked (N := nodes l) (mem l) 0 y ∨ b = true ∧ y = x) ∧
    (∀ y k, y ≠ x → waiting l y k → waiting l' y k).
Proof.
  destruct l as [N kB scaled m sp]. intros [NL Hinv H32 Hsp] [Hkey (h & Ha)]. cbn in *. unfold SkipList_Insert. cbn [nodes mem seq_splice_ kBranching_ kScaledInverseBranching_].
  assert (∀ m m' : memory, m = m' → evolves x m m') as Heq by by intros ? ? ->.
  pose proof (rg_Insert x key Hkey eq Heq false false h sp m ltac:(by intros _ ? ? ->) H32 Ha Hsp) as Hwp.
  apply (rg_frame eq (acts x) (acts x)) in Hwp; [|by intros ? ? ->|done].
  destruct (rg_run _ _ _ _ Hwp) as ([b sp'] & m' & -> & (Hinv' & Hsp' & Hb) & [Hg Hact]).
  cbn [fst snd] in *. destruct (Hg Hinv) as (_ & Hl & _). eexists b, _. split; [reflexivity|]. cbn [nodes mem seq_splice_].
  destruct Ha as (Ho & _ & Hh). assert (∀ y, linked m' 0 y → y ≠ x → linked m 0 y) as Hold.
  { intros y Hy Hyx. destruct (linked_decide N m 0 y Hinv) as [|Hn]; [done|]. destruct (Hact Hinv y 0%nat Hyx) as [Hn' _]; [by apply keyed_not_head, (linked_keyed m' 0)|done|done]. }
  refine (conj _ (conj eq_refl (conj _ (conj _ _)))).
  - by split.
  - destruct b.
    + intros (y & ky & Hy & Ey & E). apply (owned_not _ _ _ _ Ho 0); [lia|]. assert (x = y) as ->; [|done].
      apply (linked_same_key m' 0 0 x y key ky Hinv'); [apply Hb; lia|by apply Hl|done..].
    + destruct Hb as [_ (y & ky & Hyx & Hy & Ey & E)]. exists y, ky. split_and!; [by apply Hold|done..].
  - intros y. split.
    + intros Hy. destruct (decide (y = x)) as [->|Hyx]; [|left; by apply Hold]. destruct b; [by right|]. by destruct (proj1 Hb 0%nat).
    + intros [Hy|[-> ->]]; [by apply Hl|]. apply Hb. lia.
  - intros y k Hyx [Ek (h' & Hoy & Hcell & Hh')]. cbn in *. split; [done|]. exists h'. cbn [mem nodes].
    destruct (acts_evolves x y m m') as [_ Hev]; [done|by apply keyed_not_head; exists k|by split|]. destruct (Hev Hinv 0%nat) as [_ E]; [by apply (owned_not _ _ _ _ Hoy)|].
    split_and!; [|by rewrite E|lia..]. apply (owned_evolves y h' 0 m); [done|]. apply (acts_evolves x); [done|by apply keyed_not_head; exists k|by split].
Qed.

(** ** The list as a set of keys *)

Definition contained (l : InlineSkipList) (k : bytes) : Prop := has_key (N := nodes l) (mem l) k.
Lemma Contains_alone l k : list_ok l → ∃ found, run (Contains (H1 := nodes l) k) (mem l) = Done (found, mem l) ∧ (found = true ↔ contained l k).
Proof.
  destruct l as [N kB scaled m sp]. intros [NL Hinv _ _]. cbn in *. assert (∀ m m', m = m' → grow m m') as Heq by by intros ? ? ->.
  pose proof (rg_Contains eq eq Heq k m Hinv) as Hwp. apply (rg_frame eq eq eq) in Hwp; [|done..].
  destruct (rg_run _ _ _ _ Hwp) as (found & m' & E & [H1 H2] & <-). exists found. split; [exact E|by split].
Qed.
(** Equal keys are found alike. *)
Lemma has_key_equal (N : Nodes) m k k' : Compare k k' = 0 → has_key m k → has_key m k'.
Proof.
  intros E (y & ky & Hy & Ey & Ek). exists y, ky. split_and!; [done|done|].
  pose proof (Compare_flip k k'). pose proof (Compare_flip k' k). pose proof (Compare_flip k ky). pose proof (Compare_flip ky k).
  assert (Compare k' k = 0) by lia. assert (Compare ky k = 0) by lia.
  assert (Compare k' ky ≤ 0) by (apply (Compare_trans _ k); lia). assert (Compare ky k' ≤ 0) by (apply (Compare_trans _ k); lia).
  pose proof (Compare_flip k' ky). pose proof (Compare_flip ky k'). lia.
Qed.
Lemma contained_allocated l l' x key : list_ok l → unused l x → key_of (Nodes := nodes l') = <[x := key]> (key_of (Nodes := nodes l)) →
  (∀ i y, linked (N := nodes l') (mem l') i y ↔ linked (N := nodes l) (mem l) i y) → ∀ k, contained l' k ↔ contained l k.
Proof.
  intros Hok [_ Hnone] Hkeys Hl k. assert (∀ y ky, linked (N := nodes l) (mem l) 0 y → key_of (Nodes := nodes l') !! y = Some ky ↔ key_of (Nodes := nodes l) !! y = Some ky) as Hsame.
  { intros y ky Hy. rewrite Hkeys. rewrite lookup_insert_ne; [done|]. intros <-. pose proof (lk_laws l Hok). destruct (linked_keyed (N := nodes l) (mem l) 0 x (lk_inv l Hok) Hy) as [k' E]. congruence. }
  split; intros (y & ky & Hy & Ey & E); exists y, ky.
  - apply Hl in Hy. by rewrite <- Hsame.
  - rewrite Hl. by rewrite Hsame.
Qed.

(** C3. Alone, the list is a set of keys: a node made by AllocateKey is inserted
    without a fault or failed assertion, Insert returns true exactly if no equal
    key was in the list, and Contains then finds what was there and that key,
    nothing else. The list, with its random heights and the splice it keeps for
    the next insertion, is fit for more. *)
Theorem SkipList_refines_set l x key seed : list_ok l → unused l x →
  ∃ l1 seed' b l2, AllocateKey x key seed l = Done (l1, seed') ∧ SkipList_Insert x l1 = Done (b, l2) ∧ list_ok l2 ∧ (b = true ↔ ¬ contained l key) ∧
    ∀ k, ∃ found, run (Contains (H1 := nodes l2) k) (mem l2) = Done (found, mem l2) ∧ (found = true ↔ contained l k ∨ Compare k key = 0).
Proof.
  intros Hok Hx. destruct (AllocateKey_ok l x key seed Hok Hx) as (l1 & seed' & E1 & Hok1 & Hw & _ & Hkeys & Hl & _).
  destruct (SkipList_Insert_ok l1 x key Hok1 Hw) as (b & l2 & E2 & Hok2 & Hn & Hb & Hin & _). pose proof (contained_allocated l l1 x key Hok Hx Hkeys Hl) as Hc.
  exists l1, seed', b, l2. refine (conj E1 (conj E2 (conj Hok2 (conj _ _)))).
  { rewrite <- Hc. unfold contained. by destruct b. }
  intros k. destruct (Contains_alone l2 k Hok2) as (found & E & Hf). exists found. split; [done|]. rewrite Hf, <- (Hc k).
  unfold contained in *. rewrite Hn. destruct Hw as [Ekx _]. split.
  - intros (y & ky & [Hy|[-> ->]]%Hin & Ey & E'); [left; by exists y, ky|right]. rewrite Ekx in Ey. by injection Ey as <-.
  - intros [(y & ky & Hy & Ey & E')|E']; [exists y, ky; split_and!; [apply Hin; by left|done..]|]. destruct b.
    + exists x, key. split_and!; [apply Hin; by right|done..].
    + apply (has_key_equal _ _ key); [pose proof (Compare_flip k key); pose proof (Compare_flip key k); lia|].
      destruct Hb as (y & ky & Hy & ?). exists y, ky. split; [apply Hin; by left|done].
Qed.
End allocation.

(** ** In a debug build, bytewise *)

#[local] Instance Checked : Build := {| NDEBUG := false |}.
#[local] Existing Instance BytewiseComparator | 0.

Lemma SkipList_refines_set_witness :
  ∃ l, new_InlineSkipList 0 12 4 = Done l ∧
    ∃ l1 seed' b l2, AllocateKey 1 (str "a") 42 l = Done (l1, seed') ∧ SkipList_Insert 1 l1 = Done (b, l2) ∧ list_ok l2 ∧ (b = true ↔ ¬ contained l (str "a")) ∧
      ∀ k, ∃ found, run (Contains (H1 := nodes l2) k) (mem l2) = Done (found, mem l2) ∧ (found = true ↔ contained l k ∨ Compare k (str "a") = 0).
Proof.
  destruct (new_InlineSkipList_ok 0 12 4) as (l & E & Hok & _ & Hh & Hk & _); [lia|lia|]. exists l. split; [exact E|].
  apply (SkipList_refines_set l 1 (str "a") 42 Hok). split; [by rewrite Hh|by rewrite Hk].
Defined.

(** The arrays that InsertConcurrently has on the stack are one entry short for a
    list of the greatest height: when a node is as high, the splice's top is
    written behind them. *)
Lemma InsertConcurrently_overflows :
  ∃ l, new_InlineSkipList 0 32 4 = Done l ∧
    let N := {| head_ := 0%nat; kMaxHeight_ := 32; key_of := {[1%nat := str "a"]} |} in
    run (InsertConcurrently (H1 := N) 1) (AllocateNode 1 32 (mem l)) = Fault OutOfBounds.
Proof. eexists. split; [vm_compute; reflexivity|]. vm_compute. reflexivity. Qed.
