(* ===== verification/SkipListThreads.v ===== *)
(** * Threads that share the skip list

    Calls of the list's functions that run at the same time, one access at a
    time in any order. *)
From stdpp Require Import relations.
From S2P Require Import Prelude Result Comparator Random SkipList SkipListInv SkipListLogic SkipListSearch SkipListInsert SkipListCorrect.

(** What a thread calls, and what it is told. *)
Inductive call :=
  | Do_Insert (x : node) (seq_splice_ : Splice)
  | Do_InsertConcurrently (x : node)
  | Do_InsertWithHint (x : node) (hint : option Splice)
  | Do_InsertWithHintConcurrently (x : node) (hint : option Splice)
  | Do_Contains (key : bytes)
  | Do_EstimateCount (kBranching_ : Z) (key : bytes)
  | Do_Seek (target : bytes)
  | Do_SeekForPrev (target : bytes)
  | Do_SeekToFirst
  | Do_SeekToLast.
Inductive reply := Inserted (b : bool) (sp : option Splice) | Contained (b : bool) | Estimated (n : Z) | At (o : option node).

Section threads.
Context `{B : Build, C : Comparator, CL : !ComparatorLaws C, N : Nodes, NL : !NodesLaws N}.

Definition serve (c : call) : prog reply :=
  match c with
  | Do_Insert x sp => '(b, sp) ← Insert false x sp false; Ret (Inserted b (Some sp))
  | Do_InsertConcurrently x => b ← InsertConcurrently x; Ret (Inserted b None)
  | Do_InsertWithHint x hint => '(b, sp) ← InsertWithHint x hint; Ret (Inserted b sp)
  | Do_InsertWithHintConcurrently x hint => '(b, sp) ← InsertWithHintConcurrently x hint; Ret (Inserted b sp)
  | Do_Contains key => b ← Contains key; Ret (Contained b)
  | Do_EstimateCount kBranching_ key => n ← EstimateCount kBranching_ key; Ret (Estimated n)
  | Do_Seek target => o ← It_Seek target; Ret (At o)
  | Do_SeekForPrev target => o ← It_SeekForPrev target; Ret (At o)
  | Do_SeekToFirst => o ← It_SeekToFirst; Ret (At o)
  | Do_SeekToLast => o ← It_SeekToLast; Ret (At o)
  end.

(** The node a call inserts, whether with CAS, and the splice it starts from. *)
Definition insertion (c : call) : option (node * bool * Splice) :=
  match c with
  | Do_Insert x sp => Some (x, false, sp)
  | Do_InsertConcurrently x => Some (x, true, stack_splice)
  | Do_InsertWithHint x hint => Some (x, false, default AllocateSplice hint)
  | Do_InsertWithHintConcurrently x hint => Some (x, true, default AllocateSpliceOnHeap hint)
  | _ => None
  end.
Definition inserts (c : call) (x : node) : Prop := ∃ cas sp, insertion c = Some (x, cas, sp).

(** How the calls may be made: nodes are fresh, splices are those of this list,
    and who inserts without CAS is the only one to insert. *)
Record calls_ok (calls : list call) (m : memory) : Prop := {
  co_inv : inv m;
  co_height : (kMaxHeight_ ≤ kMaxPossibleHeight)%nat;
  co_insert : ∀ t c x cas sp, calls !! t = Some c → insertion c = Some (x, cas, sp) →
    splice_valid sp m ∧ ∃ key h, key_of !! x = Some key ∧ allocated x h m;
  co_distinct : ∀ s t c d x, calls !! s = Some c → calls !! t = Some d → inserts c x → inserts d x → s = t;
  co_alone : ∀ s t c d x sp, calls !! s = Some c → calls !! t = Some d → insertion c = Some (x, false, sp) → is_Some (insertion d) → s = t;
}.

(** What a thread is told, in the memory where it has ended. *)
Definition told (m0 : memory) (c : call) (r : reply) (m : memory) : Prop :=
  match c, r with
  | Do_Contains key, Contained b => (b = true → has_key m key) ∧ (has_key m0 key → b = true)
  | Do_EstimateCount _ _, Estimated n => in_range 64 n
  | Do_Seek target, At o => it_ok o m ∧ (∀ y, o = Some y → at_or_after target y) ∧ no_earlier (at_or_after target) m0 o
  | Do_SeekForPrev target, At o => it_ok o m ∧ (∀ y, o = Some y → upto target y) ∧ no_later (upto target) m0 o
  | Do_SeekToFirst, At o => it_ok o m ∧ no_earlier (λ _, True) m0 o
  | Do_SeekToLast, At o => it_ok o m ∧ no_later (λ _, True) m0 o
  | _, Inserted b sp =>
      ∃ x key, inserts c x ∧ key_of !! x = Some key ∧ (∀ s, sp = Some s → splice_valid s m) ∧
        if b then linked m 0 x else ¬ linked m 0 x ∧ has_other x key m
  | _, _ => False
  end.

(** ** Each call alone against the others *)

Definition rely_of (c : call) : relation memory :=
  match insertion c with Some (x, true, _) => evolves x | Some (_, false, _) => eq | None => grow end.
Definition guar_of (c : call) : relation memory := match insertion c with Some (x, _, _) => acts x | None => eq end.
#[export] Instance rely_of_preorder c : PreOrder (rely_of c).
Proof. unfold rely_of. destruct (insertion c) as [[[x []] sp]|]; apply _. Qed.
#[export] Instance guar_of_preorder c : PreOrder (guar_of c).
Proof. unfold guar_of. destruct (insertion c) as [[[x cas] sp]|]; apply _. Qed.

(** What an insertion tells, as long as others go on. *)
Definition told_insert (x : node) (key : bytes) (b : bool) (sp : Splice) (m : memory) : Prop :=
  inv m ∧ splice_valid sp m ∧ if b then linked m 0 x else ¬ linked m 0 x ∧ has_other x key m.
Lemma rg_told_insert rely x key h cas sp partial m :
  PreOrder rely → (∀ m m', rely m m' → evolves x m m') → (cas = false → ∀ m m', rely m m' → m' = m) →
  key_of !! x = Some key → (kMaxHeight_ ≤ kMaxPossibleHeight)%nat → allocated x h m → splice_valid sp m →
  rg rely (acts x) (λ r m', told_insert x key r.1 r.2 m') (Insert cas x sp partial) m.
Proof.
  intros Hpre Hrely Halone Hkey HkMax Ha Hsp. eapply rg_mono; [by apply (rg_Insert x key Hkey rely Hrely cas partial h)|].
  intros [b sp'] m1 (Hinv1 & Hsp1 & Hb). cbn [fst snd] in *. split_and!; [done|done|]. destruct Ha as (_ & _ & Hh). destruct b; [apply Hb; lia|]. by destruct Hb.
Qed.
(** A call that inserts, whatever it does with the splice. *)
Definition hands_on {A} (x : node) (key : bytes) (hand : bool * Splice → A) (a : A) (m : memory) : Prop := ∃ r, a = hand r ∧ told_insert x key r.1 r.2 m.
Lemma told_inserted c x key b sp o m0 m :
  inserts c x → key_of !! x = Some key → o = None ∨ o = Some sp → told_insert x key b sp m → told m0 c (Inserted b o) m.
Proof.
  intros Hc Hkey Ho (_ & Hsp & Hb). assert (∃ x key, inserts c x ∧ key_of !! x = Some key ∧ (∀ s, o = Some s → splice_valid s m) ∧ 
    if b then linked m 0 x else ¬ linked m 0 x ∧ has_other x key m) as Hall.
  { exists x, key. split_and!; [done|done| |done]. intros s ->. by destruct Ho as [|[= <-]]. }
  destruct Hc as (cas & sp0 & Ec). by destruct c.
Qed.
Lemma rg_insert_call calls m t c x cas sp partial : calls_ok calls m → calls !! t = Some c → insertion c = Some (x, cas, sp) →
  ∃ key, key_of !! x = Some key ∧ rg (rely_of c) (guar_of c) (hands_on x key id) (Insert cas x sp partial) m.
Proof.
  intros [Hinv HkMax Hins _ _] Hc Ec. destruct (Hins t c x cas sp Hc Ec) as (Hsp & key & h & Hkey & Ha). exists key.
  assert (∀ m m', rely_of c m m' → evolves x m m') as Hr by (intros m1 m2; unfold rely_of; rewrite Ec; destruct cas; [done|by intros ->]).
  split; [done|]. assert (guar_of c = acts x) as -> by (unfold guar_of; by rewrite Ec).
  eapply rg_mono; [apply (rg_told_insert (rely_of c) x key h cas sp partial m); [apply _|done| |done..]|].
  - intros ->. intros m1 m2. unfold rely_of. rewrite Ec. by intros ->.
  - intros r m1 Hr1. by exists r.
Qed.
Lemma rg_insert_told {A} calls m t c x cas sp partial (g : bool * Splice → prog A) hand (f : A → prog reply) b o :
  calls_ok calls m → calls !! t = Some c → insertion c = Some (x, cas, sp) →
  (∀ r, g r = Ret (hand r)) → (∀ a, f a = Ret (Inserted (b a) (o a))) → (∀ r, b (hand r) = r.1 ∧ (o (hand r) = None ∨ o (hand r) = Some r.2)) →
  rg (rely_of c) (guar_of c) (told m c) (a ← (r ← Insert cas x sp partial; g r); f a) m.
Proof.
  intros Hok Hc Ec Hg Hf Hb. destruct (rg_insert_call calls m t c x cas sp partial Hok Hc Ec) as (key & Hkey & Hwp).
  assert (rg (rely_of c) (guar_of c) (hands_on x key hand) (r ← Insert cas x sp partial; g r) m) as Hwp'.
  { apply (rg_hand_on _ _ _ _ _ _ hand _ Hwp Hg). intros r m1 (r' & -> & H1). by exists r'. }
  apply (rg_hand_on _ _ _ _ _ _ (λ a, Inserted (b a) (o a)) _ Hwp' Hf). intros a m1 (r & -> & H1). destruct (Hb r) as [-> Ho].
  apply (told_inserted _ x key r.1 r.2); [by exists cas, sp|done|done|done].
Qed.
Lemma rg_serve calls m t c : calls_ok calls m → calls !! t = Some c → rg (rely_of c) (guar_of c) (told m c) (serve c) m.
Proof.
  intros Hok Hc. pose proof (co_inv _ _ Hok) as Hinv.
  destruct c as [x sp|x|x hint|x hint|key|kB key|target|target| |]; cbn [serve].
  - destruct (rg_insert_call calls m t _ x false sp false Hok Hc eq_refl) as (key & Hkey & Hwp).
    apply (rg_hand_on _ _ _ _ _ _ (λ r, Inserted r.1 (Some r.2)) _ Hwp); [by intros []|]. intros r m1 (r' & -> & H1).
    apply (told_inserted _ x key r'.1 r'.2); [by exists false, sp|done|by right|done].
  - apply (rg_insert_told calls m t _ x true stack_splice false _ fst _ id (λ _, None)); try done; [by intros []|by intros []; split; [|left]].
  - apply (rg_insert_told calls m t _ x false (default AllocateSplice hint) true _ (λ r, (r.1, Some r.2)) _ fst snd); try done; [by intros []..|by intros []; split; [|right]].
  - apply (rg_insert_told calls m t _ x true (default AllocateSpliceOnHeap hint) true _ (λ r, (r.1, Some r.2)) _ fst snd); try done; [by intros []..|by intros []; split; [|right]].
  - apply (rg_hand_on _ _ _ _ _ _ Contained _ (rg_Contains grow eq (λ _ _ H, H) key m Hinv)); done.
  - apply (rg_hand_on _ _ _ _ _ _ Estimated _ (rg_EstimateCount grow eq (λ _ _ H, H) kB key m Hinv)); done.
  - apply (rg_hand_on _ _ _ _ _ _ At _ (rg_It_Seek grow eq (λ _ _ H, H) target m Hinv)); done.
  - assert (∀ m m', m = m' → grow m m') as Heq by by intros ? ? ->.
    apply (rg_hand_on _ _ _ _ _ _ At _ (rg_It_SeekForPrev grow eq (λ _ _ H, H) Heq target m Hinv)); done.
  - apply (rg_hand_on _ _ _ _ _ _ At _ (rg_It_SeekToFirst grow eq (λ _ _ H, H) m Hinv)); done.
  - apply (rg_hand_on _ _ _ _ _ _ At _ (rg_It_SeekToLast grow eq (λ _ _ H, H) m Hinv)); done.
Qed.

Lemma told_inserting m0 c r m x : inserts c x → told m0 c r m → ∃ b sp, r = Inserted b sp ∧ if b : bool then linked m 0 x else ¬ linked m 0 x.
Proof.
  intros (cas & sp0 & Ec) Ht. assert (∃ b sp, r = Inserted b sp ∧ ∃ x key, inserts c x ∧ key_of !! x = Some key ∧ (∀ s, sp = Some s → splice_valid s m) ∧
    if b : bool then linked m 0 x else ¬ linked m 0 x ∧ has_other x key m) as (b & sp & -> & x' & key & (cas' & sp' & Ec') & _ & _ & Hb).
  { destruct r as [b sp| | |]; [exists b, sp; split; [done|]|..]; destruct c; cbn in Ec, Ht; done. }
  rewrite Ec in Ec'. injection Ec' as <- _ _. exists b, sp. split; [done|]. destruct b; [done|apply Hb].
Qed.

(** ** All calls together *)

Section together.
Context (calls : list call) (m0 : memory) (Hok : calls_ok calls m0).

Definition rely_at (t : nat) : relation memory := from_option rely_of grow (calls !! t).
Definition guar_at (t : nat) : relation memory := from_option guar_of eq (calls !! t).
Definition told_at (t : nat) (r : reply) (m : memory) : Prop := ∃ c, calls !! t = Some c ∧ told m0 c r m.
#[local] Instance rely_at_preorder t : PreOrder (rely_at t).
Proof. unfold rely_at. destruct (calls !! t); apply _. Qed.
#[local] Instance guar_at_preorder t : PreOrder (guar_at t).
Proof. unfold guar_at. destruct (calls !! t); apply _. Qed.

Lemma insertion_keyed t c x cas sp : calls !! t = Some c → insertion c = Some (x, cas, sp) → x ≠ head_.
Proof. intros Hc Ec. destruct (co_insert _ _ Hok t c x cas sp Hc Ec) as (_ & key & h & Hkey & _). apply keyed_not_head. by exists key. Qed.
Lemma guar_at_grow t m m' : guar_at t m m' → grow m m'.
Proof. unfold guar_at, guar_of. destruct (calls !! t) as [c|]; cbn; [destruct (insertion c) as [[[x cas] sp]|]; [by intros [? _]|]|]; by intros ->. Qed.
Lemma calls_compatible s t m m' : s ≠ t → guar_at s m m' → rely_at t m m'.
Proof.
  intros Hst Hg. pose proof (guar_at_grow s m m' Hg) as Hgrow. unfold rely_at, rely_of, guar_at, guar_of in *. destruct (calls !! t) as [d|] eqn:Ed; cbn; [|done].
  destruct (insertion d) as [[[y casd] spd]|] eqn:Eyd; [|done]. destruct (calls !! s) as [c|] eqn:Ec; cbn in Hg; [|subst m'; by destruct casd].
  destruct (insertion c) as [[[x casc] spc]|] eqn:Exc; [|subst m'; by destruct casd]. destruct casd.
  - apply (acts_evolves x); [|by apply (insertion_keyed t d y true spd)|done]. intros ->. apply Hst, (co_distinct _ _ Hok s t c d y); [done|done|by eexists _, _..].
  - destruct Hst. symmetry. apply (co_alone _ _ Hok t s d c y spd); [done|done|done|by eexists].
Qed.
Lemma calls_pool : pool_ok rely_at guar_at told_at (serve <$> calls) m0.
Proof.
  intros t p. rewrite list_lookup_fmap. intros (c & Hc & ->)%fmap_Some. unfold rely_at, guar_at, told_at. rewrite Hc. cbn.
  eapply rg_mono; [by apply (rg_serve calls m0 t)|]. intros r m1 H1. by exists c.
Qed.

(** Nodes that no call inserts are not linked. *)
Lemma calls_foreign ps m y :
  rtc threads_step (serve <$> calls, m0) (ps, m) → y ≠ head_ → (∀ t c, calls !! t = Some c → ¬ inserts c y) → ¬ linked m0 0 y → ¬ linked m 0 y.
Proof.
  intros Hsteps Hy Hno Hn. assert (evolves y m0 m) as [_ He]; [|by apply (He (co_inv _ _ Hok))].
  apply (pool_keeps rely_at guar_at told_at calls_compatible (evolves y) (serve <$> calls) m0 ps m); [apply calls_pool| |done].
  intros t p m1 m2. rewrite list_lookup_fmap. intros (c & Hc & ->)%fmap_Some. unfold guar_at, guar_of. rewrite Hc. cbn.
  destruct (insertion c) as [[[x cas] sp]|] eqn:Ec; [|by intros ->]. intros Ha. apply (acts_evolves x); [|done|done]. intros ->.
  apply (Hno t c Hc). by exists cas, sp.
Qed.
Lemma calls_grow ps m : rtc threads_step (serve <$> calls, m0) (ps, m) → grow m0 m.
Proof.
  intros Hsteps. apply (pool_keeps rely_at guar_at told_at calls_compatible grow (serve <$> calls) m0 ps m); [apply calls_pool| |done].
  intros t p m1 m2 _. apply guar_at_grow.
Qed.
Lemma calls_told ps m t p :
  rtc threads_step (serve <$> calls, m0) (ps, m) → ps !! t = Some p → match p with Ret r => told_at t r m | _ => ∃ r, access p m = Done r end.
Proof. intros Hsteps. by apply (pool_sound rely_at guar_at told_at calls_compatible (serve <$> calls) m0 ps m calls_pool). Qed.
Lemma threads_length (ps ps' : list (prog reply)) m m' : rtc threads_step (ps, m) (ps', m') → length ps' = length ps.
Proof.
  intros Hsteps. remember (ps, m) as c eqn:Ec. remember (ps', m') as c' eqn:Ec'. revert ps m Ec.
  induction Hsteps as [c|c [ps1 m1] c' Hst Hsteps IH]; intros ps m ->; [by injection Ec' as -> ->|]. rewrite (IH Ec' ps1 m1 eq_refl).
  inversion Hst; subst. apply length_insert.
Qed.
End together.

(** C2. Any number of insertions with CAS, with or without hints, or one without
    CAS, run while others search, in whatever order the threads make their
    accesses. No thread makes a fault or fails an assertion. At every moment all
    levels are sorted and within one another, and nothing that was linked gets
    lost. A thread that has ended was told the truth: an insertion that its node
    is in the list, or that another node has an equal key; a search, what was in
    the list when it began or came since. When all have ended the list holds what it
    held before and the nodes whose insertions returned true. *)
Theorem concurrent_calls_are_right calls m0 ps m :
  calls_ok calls m0 → rtc threads_step (serve <$> calls, m0) (ps, m) →
  inv m ∧ (∀ i y, linked m0 i y → linked m i y) ∧
  (∀ t p, ps !! t = Some p → match p with Ret r => told_at calls m0 t r m | _ => ∃ r, access p m = Done r end) ∧
  ((∀ t p, ps !! t = Some p → finished p = true) → ∀ y, linked m 0 y ↔
     linked m0 0 y ∨ ∃ t c sp, calls !! t = Some c ∧ inserts c y ∧ ps !! t = Some (Ret (Inserted true sp))).
Proof.
  intros Hok Hsteps. destruct (calls_grow calls m0 Hok ps m Hsteps (co_inv _ _ Hok)) as (Hinv & Hl & _).
  split_and!; [done|done|intros t p; by apply calls_told|]. intros Hfin y.
  assert (∀ t c, calls !! t = Some c → inserts c y → ∃ b sp, ps !! t = Some (Ret (Inserted b sp)) ∧ if b : bool then linked m 0 y else ¬ linked m 0 y) as Htold.
  { intros t c Hc Hins. destruct (ps !! t) as [p|] eqn:Ep.
    - pose proof (Hfin t p Ep) as Hf. pose proof (calls_told calls m0 Hok ps m t p Hsteps Ep) as Ht. destruct p as [r| | | | | | |]; try done.
      destruct Ht as (c' & Hc' & Ht). rewrite Hc in Hc'. injection Hc' as <-. destruct (told_inserting m0 c r m y Hins Ht) as (b & sp & -> & Hb). by exists b, sp.
    - apply lookup_ge_None_1 in Ep. rewrite (threads_length _ _ _ _ Hsteps), length_fmap in Ep. apply lookup_lt_Some in Hc. lia. }
  split.
  - intros Hy. destruct (decide (Exists (λ c, fst <$> (fst <$> insertion c) = Some y) calls)) as [Hex|Hno].
    + right. apply Exists_exists in Hex as (c & Hc & E). apply list_elem_of_lookup in Hc as [t Hc].
      assert (inserts c y) as Hins by (unfold inserts; destruct (insertion c) as [[[z cas] sp]|]; [cbn in E; injection E as ->; by exists cas, sp|done]).
      destruct (Htold t c Hc Hins) as ([] & sp & Ep & Hb); [by exists t, c, sp|by destruct Hb].
    + left. destruct (linked_decide _ m0 0 y (co_inv _ _ Hok)) as [|Hn]; [done|]. exfalso. apply (calls_foreign calls m0 Hok ps m y Hsteps); [..|done|done].
      * by apply keyed_not_head, (linked_keyed m 0).
      * intros t c Hc (cas & sp & Ec). destruct Hno. apply Exists_exists. exists c. split; [by apply list_elem_of_lookup_2 in Hc|]. by rewrite Ec.
  - intros [Hy|(t & c & sp & Hc & Hins & Ep)]; [by apply Hl|]. destruct (Htold t c Hc Hins) as (b & sp' & Ep' & Hb). rewrite Ep in Ep'. by injection Ep' as <- _.
Qed.
End threads.

(** ** Two threads with equal keys, in a debug build *)

(** The threads take turns; those that have ended are passed over. *)
Fixpoint follow {A} (ts : list nat) (ps : list (prog A)) (m : memory) : option (list (prog A) * memory) :=
  match ts with
  | [] => Some (ps, m)
  | t :: ts' =>
      match ps !! t with
      | Some p => if finished p then follow ts' ps m else match access p m with Done (p', m') => follow ts' (<[t := p']> ps) m' | Fault _ => None end
      | None => None
      end
  end.
Lemma follow_steps {A} ts (ps ps' : list (prog A)) m m' : follow ts ps m = Some (ps', m') → rtc threads_step (ps, m) (ps', m').
Proof.
  revert ps m. induction ts as [|t ts IH]; intros ps m; cbn [follow]; [by intros [= -> ->]|].
  destruct (ps !! t) as [p|] eqn:Ep; [|done]. destruct (finished p) eqn:Ef; [apply IH|]. destruct (access p m) as [[p1 m1]|] eqn:Ea; [|done].
  intros Hf. eapply rtc_l; [by apply (threads_access ps m t p p1 m1)|by apply IH].
Qed.

#[local] Instance Checked : Build := {| NDEBUG := false |}.
#[local] Existing Instance BytewiseComparator | 0.

Definition two_nodes : R InlineSkipList :=
  l ← new_InlineSkipList 0 12 4; '(l, seed) ← AllocateKey 1 (str "a") 42 l; '(l, seed) ← AllocateKey 2 (str "a") seed l; Done l.
Lemma two_nodes_ok : ∃ l, two_nodes = Done l ∧ list_ok l ∧ waiting l 1 (str "a") ∧ waiting l 2 (str "a") ∧ kMaxHeight_ (Nodes := nodes l) = 12%nat.
Proof.
  destruct (new_InlineSkipList_ok 0 12 4) as (l & E & Hok & _ & Hh & Hk & _); [lia|lia|].
  destruct (AllocateKey_ok l 1 (str "a") 42 Hok) as (l1 & seed & E1 & Hok1 & Hw1 & Hh1 & Hk1 & _ & _); [split; [by rewrite Hh|by rewrite Hk]|].
  destruct (AllocateKey_ok l1 2 (str "a") seed Hok1) as (l2 & seed2 & E2 & Hok2 & Hw2 & _ & _ & _ & Hkeep); [split; [by rewrite Hh1, Hh|by rewrite Hk1, Hk]|].
  assert (two_nodes = Done l2) as Et by (unfold two_nodes; rewrite E; cbn [mbind R_bind]; rewrite E1; cbn [mbind R_bind]; by rewrite E2).
  exists l2. refine (conj Et (conj Hok2 (conj (Hkeep _ _ Hw1) (conj Hw2 _)))). assert (option_map (λ l, @kMaxHeight_ (nodes l)) (match two_nodes with Done l => Some l | _ => None end) = Some 12%nat) as Hmax by (vm_compute; reflexivity).
  rewrite Et in Hmax. by injection Hmax.
Qed.
Definition shared : InlineSkipList := match two_nodes with Done l => l | Fault _ => mkSkipList {| head_ := 0; kMaxHeight_ := 0; key_of := ∅ |} 0 0 (mkMemory ∅ 0) (mkSplice 0 ∅ ∅ 0) end.
#[local] Instance shared_nodes : Nodes := nodes shared.
#[local] Instance shared_laws : NodesLaws shared_nodes.
Proof. destruct two_nodes_ok as (l & E & Hok & _). unfold shared_nodes, shared. rewrite E. apply Hok. Qed.
Definition shared_calls : list call := [Do_InsertConcurrently 1; Do_InsertWithHintConcurrently 2 None; Do_Contains (str "a"); Do_SeekForPrev (str "b")].
Lemma shared_eq l : two_nodes = Done l → shared = l.
Proof. unfold shared. by intros ->. Qed.
#[local] Opaque two_nodes shared.
Lemma shared_insertion t c x cas sp : shared_calls !! t = Some c → insertion c = Some (x, cas, sp) →
  t = 0%nat ∧ x = 1%nat ∧ cas = true ∧ sp = stack_splice ∨ t = 1%nat ∧ x = 2%nat ∧ cas = true ∧ sp = AllocateSpliceOnHeap.
Proof.
  destruct t as [|[|[|[|t]]]]; cbn; [intros [= <-]..|discriminate]; cbn [insertion default from_option id]; [intros [= <- <- <-]; left|intros [= <- <- <-]; right|discriminate..];
    repeat split; reflexivity.
Qed.
Lemma shared_calls_ok : calls_ok shared_calls (mem shared).
Proof.
  destruct two_nodes_ok as (l & E & Hok & Hw1 & Hw2 & Hmax). pose proof (shared_eq l E) as Es.
  assert (∀ x, waiting l x (str "a") → ∃ key h, key_of (Nodes := nodes l) !! x = Some key ∧ allocated (N := nodes l) x h (mem l)) as Hready by (intros x [Ek [h Ha]]; exists (str "a"), h; split; [exact Ek|exact Ha]).
  assert (kMaxHeight_ (Nodes := shared_nodes) = 12%nat) as Hmax' by (unfold shared_nodes; rewrite Es; exact Hmax).
  split.
  - unfold shared_nodes. rewrite Es. apply Hok.
  - rewrite Hmax'. unfold kMaxPossibleHeight. lia.
  - intros t c x cas sp Hc Ec. assert ((kMaxHeight_ < sp_room sp)%nat ∧ height_ sp = 0%nat) as [Hr Hh].
    { destruct (shared_insertion t c x cas sp Hc Ec) as [(_ & _ & _ & ->)|(_ & _ & _ & ->)]; (split; [|reflexivity]); cbn [sp_room stack_splice AllocateSpliceOnHeap]; rewrite Hmax'; unfold kMaxPossibleHeight; lia. }
    split; [split_and!; [exact Hr|lia|lia]|]. unfold shared_nodes. rewrite Es.
    destruct (shared_insertion t c x cas sp Hc Ec) as [(_ & -> & _)|(_ & -> & _)]; by apply Hready.
  - intros s t c d x Hc Hd (cas & sp & Ec) (cas' & sp' & Ed).
    destruct (shared_insertion s c x cas sp Hc Ec) as [(-> & -> & _)|(-> & -> & _)], (shared_insertion t d _ cas' sp' Hd Ed) as [(-> & Hx & _)|(-> & Hx & _)]; done.
  - intros s t c d x sp Hc _ Ec. destruct (shared_insertion s c x false sp Hc Ec) as [(_ & _ & Hf & _)|(_ & _ & Hf & _)]; discriminate Hf.
Qed.
Definition turns : list nat := mjoin (replicate 60 [0; 1; 2; 3]%nat).
(** The second thread is faster, the first is told of a duplicate. *)
Lemma concurrent_calls_are_right_witness :
  match follow turns (serve <$> shared_calls) (mem shared) with
  | Some (ps, m) =>
      (∃ s, ps = [Ret (Inserted false None); Ret (Inserted true s); Ret (Contained false); Ret (At (Some 2%nat))]) ∧
      inv m ∧ (∀ i y, linked (mem shared) i y → linked m i y) ∧
      (∀ t p, ps !! t = Some p → match p with Ret r => told_at shared_calls (mem shared) t r m | _ => ∃ r, access p m = Done r end) ∧
      ((∀ t p, ps !! t = Some p → finished p = true) → ∀ y, linked m 0 y ↔
         linked (mem shared) 0 y ∨ ∃ t c sp, shared_calls !! t = Some c ∧ inserts c y ∧ ps !! t = Some (Ret (Inserted true sp)))
  | None => False
  end.
Proof.
  destruct (follow turns (serve <$> shared_calls) (mem shared)) as [[ps m]|] eqn:E; [|revert E; vm_compute; discriminate].
  split; [revert E; vm_compute; intros [= <- _]; eexists; reflexivity|].
  exact (concurrent_calls_are_right shared_calls (mem shared) ps m shared_calls_ok (follow_steps turns _ ps _ m E)).
Defined.
