(* ===== verification/Heap.v ===== *)
(** * The binary heap of the merging iterator (BinaryHeap, util/heap.h)

    A heap in an array, largest element first, that remembers which child of
    the root is larger. The comparison may fault (the merging iterator compares
    through pointers) and may change between calls: what is asked of it is
    stated with each operation. *)
From S2P Require Import Prelude Result.

(** ** The heap *)

(** [root_cmp_cache_] is [None] for [kMaxSizet], which no size exceeds. *)
Record BinaryHeap (T : Type) := mkHeap { data_ : list T; root_cmp_cache_ : option nat }.
Arguments mkHeap {T} _ _.
Arguments data_ {T} _.
Arguments root_cmp_cache_ {T} _.

Definition get_root : nat := 0.
Definition get_parent (index : nat) : nat := (index - 1) / 2.
Definition get_left (index : nat) : nat := 2 * index + 1.
Definition get_right (index : nat) : nat := 2 * index + 2.

Section heap.
Context {T : Type} `{Build}.
Variable cmp_ : T → T → R bool.

Definition new_heap : BinaryHeap T := mkHeap [] None.
Definition empty (h : BinaryHeap T) : bool := bool_decide (data_ h = []).
Definition size (h : BinaryHeap T) : nat := length (data_ h).
Definition clear (h : BinaryHeap T) : BinaryHeap T := mkHeap [] None.

(** The value [v] is held outside the array until its place is found. *)
Fixpoint upheap_loop (fuel : nat) (v : T) (index : nat) (data : list T) : R (list T) :=
  match fuel with
  | O => Fault OutOfFuel
  | S fuel' =>
      if (get_root <? index)%nat then
        let parent := get_parent index in
        p ← checked OutOfBounds (data !! parent);
        less ← cmp_ p v;
        if negb less then Done (<[index := v]> data)
        else upheap_loop fuel' v parent (<[index := p]> data)
      else Done (<[index := v]> data)
  end.
Definition upheap (index : nat) (h : BinaryHeap T) : R (BinaryHeap T) :=
  v ← checked OutOfBounds (data_ h !! index);
  data ← upheap_loop (S index) v index (data_ h);
  Done (mkHeap data None).

Definition pick_child (cache : option nat) (index : nat) (data : list T) : R nat :=
  let left_child := get_left index in
  let right_child := S left_child in
  _ ← assert (right_child =? get_right index)%nat;
  let cached := match cache with
                | Some c => if (index =? 0)%nat && (c <? length data)%nat then Some c else None
                | None => None
                end in
  match cached with
  | Some c => Done c
  | None =>
      if (right_child <? length data)%nat then
        l ← checked OutOfBounds (data !! left_child);
        r ← checked OutOfBounds (data !! right_child);
        less ← cmp_ l r; Done (if less : bool then right_child else left_child)
      else Done left_child
  end.
(** The array, the place found for [v] and the last child compared with it. *)
Fixpoint downheap_loop (fuel : nat) (cache : option nat) (v : T) (index : nat) (picked : option nat)
    (data : list T) : R (list T * nat * option nat) :=
  match fuel with
  | O => Fault OutOfFuel
  | S fuel' =>
      if (length data <=? get_left index)%nat then Done (data, index, picked) else
      picked_child ← pick_child cache index data;
      c ← checked OutOfBounds (data !! picked_child);
      less ← cmp_ v c;
      if negb less then Done (data, index, Some picked_child)
      else downheap_loop fuel' cache v picked_child (Some picked_child) (<[index := c]> data)
  end.
Definition downheap (index : nat) (h : BinaryHeap T) : R (BinaryHeap T) :=
  v ← checked OutOfBounds (data_ h !! index);
  '(data, index, picked_child) ← downheap_loop (S (size h)) (root_cmp_cache_ h) v index None (data_ h);
  Done (mkHeap (<[index := v]> data) (if (index =? 0)%nat then picked_child else None)).

Definition push (value : T) (h : BinaryHeap T) : R (BinaryHeap T) :=
  let h := mkHeap (data_ h ++ [value]) (root_cmp_cache_ h) in
  upheap (size h - 1) h.

Definition top (h : BinaryHeap T) : R T :=
  _ ← assert (negb (empty h)); checked Undefined (head (data_ h)).

Definition replace_top (value : T) (h : BinaryHeap T) : R (BinaryHeap T) :=
  _ ← assert (negb (empty h));
  _ ← checked Undefined (head (data_ h));
  downheap get_root (mkHeap (<[0%nat := value]> (data_ h)) (root_cmp_cache_ h)).

Definition pop (h : BinaryHeap T) : R (BinaryHeap T) :=
  _ ← assert (negb (empty h));
  back ← checked Undefined (last (data_ h));
  let h := mkHeap (take (size h - 1) (<[0%nat := back]> (data_ h))) (root_cmp_cache_ h) in
  if negb (empty h) then downheap get_root h else Done (mkHeap (data_ h) None).
End heap.

Definition swap {T} (h other : BinaryHeap T) : BinaryHeap T * BinaryHeap T := (other, h).

(** ** Positions *)

Lemma get_parent_lt i : (0 < i)%nat → (get_parent i < i)%nat.
Proof. intros. unfold get_parent. apply Nat.div_lt_upper_bound; lia. Qed.
Lemma get_parent_child i j : (0 < j)%nat → get_parent j = i ↔ j = get_left i ∨ j = get_right i.
Proof.
  intros Hj. unfold get_parent, get_left, get_right. pose proof (Nat.div_mod_eq (j - 1) 2).
  pose proof (Nat.mod_upper_bound (j - 1) 2). lia.
Qed.

(** Exchanging two elements. *)
Lemma exchange_perm {T} (l : list T) i j a b :
  l !! i = Some a → l !! j = Some b → <[i := b]> (<[j := a]> l) ≡ₚ l.
Proof.
  revert i j. induction l as [|x l IH]; intros [|i] [|j]; cbn; intros Hi Hj; simplify_eq; try done.
  - clear IH. revert j b Hj. induction l as [|y l IH]; intros [|j] b Hj; cbn in *; simplify_eq.
    + by constructor.
    + rewrite (Permutation_swap y b). rewrite (IH j b Hj). by constructor.
  - clear IH. revert i a Hi. induction l as [|y l IH]; intros [|i] a Hi; cbn in *; simplify_eq.
    + by constructor.
    + rewrite (Permutation_swap y a). rewrite (IH i a Hi). by constructor.
  - constructor. by apply IH.
Qed.

Lemma lookup_exchange {T} (l : list T) i j a b k :
  l !! i = Some a → l !! j = Some b → i ≠ j →
  <[i := b]> (<[j := a]> l) !! k = if decide (k = i) then Some b else if decide (k = j) then Some a else l !! k.
Proof.
  intros Hi%lookup_lt_Some Hj%lookup_lt_Some Hne.
  destruct (decide (k = i)) as [->|Hki]; [apply list_lookup_insert_eq; by rewrite length_insert|].
  rewrite list_lookup_insert_ne by done. destruct (decide (k = j)) as [->|]; [by apply list_lookup_insert_eq|].
  by apply list_lookup_insert_ne.
Qed.

(** ** Order *)

Section order.
Context {T : Type} `{Build} (cmp_ : T → T → R bool).
(** What the comparison answers on the elements in the heap: a strict weak
    order. *)
Context (lt : T → T → bool) (D : T → Prop).
Context (cmp_lt : ∀ a b, D a → D b → cmp_ a b = Done (lt a b)).
Context (lt_asym : ∀ a b, lt a b = true → lt b a = false).
Context (nlt_trans : ∀ a b c, lt a b = false → lt b c = false → lt a c = false).

Definition ordered_at (data : list T) (i : nat) : Prop :=
  ∀ p c, data !! get_parent i = Some p → data !! i = Some c → lt p c = false.
(** The remembered child is the larger one. *)
Definition cache_ok (data : list T) (cache : option nat) : Prop :=
  ∀ c x, cache = Some c → data !! c = Some x →
    (c = 1%nat ∨ c = 2%nat) ∧ ∀ j y, j = 1%nat ∨ j = 2%nat → data !! j = Some y → lt x y = false.
Definition heap_ok (h : BinaryHeap T) : Prop :=
  (∀ i, (0 < i)%nat → ordered_at (data_ h) i) ∧ cache_ok (data_ h) (root_cmp_cache_ h).
(** All but the root is in order. *)
Definition heap_below (h : BinaryHeap T) : Prop :=
  (∀ i, (0 < get_parent i)%nat → ordered_at (data_ h) i) ∧ cache_ok (data_ h) (root_cmp_cache_ h).

Lemma lt_irrefl a : lt a a = false.
Proof. destruct (lt a a) eqn:E; [|done]. by rewrite <- E, (lt_asym a a E). Qed.

Lemma heap_ok_below h : heap_ok h → heap_below h.
Proof.
  intros [Ho Hc]. split; [|done]. intros i Hi. apply Ho. destruct i; [|lia]. cbn in Hi. lia.
Qed.

Lemma top_greatest h x : heap_ok h → x ∈ data_ h → ∃ y, top h = Done y ∧ y ∈ data_ h ∧ lt y x = false.
Proof.
  intros [Ho _] Hx. unfold top, empty. destruct (data_ h) as [|y l] eqn:E; [by apply not_elem_of_nil in Hx|].
  rewrite bool_decide_eq_false_2 by done. cbn [negb]. rewrite assert_true. exists y.
  split_and!; [done|by left|].
  apply list_elem_of_lookup_1 in Hx as [i Hi]. revert x Hi. induction (lt_wf i) as [i _ IH]. intros x Hi.
  destruct (decide (i = 0)%nat) as [->|]; [injection Hi as ->; apply lt_irrefl|].
  pose proof (get_parent_lt i ltac:(lia)) as Hp. pose proof (lookup_lt_Some _ _ _ Hi).
  destruct (lookup_lt_is_Some_2 (y :: l) (get_parent i)) as [p Hlp]; [lia|].
  apply (nlt_trans _ p _); [by eapply IH|]. eapply (Ho i); [lia|done..].
Qed.

(** Moving [v] up: all is in order but [v] and its parent, and the children of
    [v]'s place are below that parent. *)
Lemma upheap_loop_spec fuel v index data :
  let held := <[index := v]> data in
  Forall D held → (index < length data)%nat → (index < fuel)%nat →
  (∀ i, (0 < i)%nat → i ≠ index → ordered_at held i) →
  (∀ i p c, (0 < i)%nat → (0 < index)%nat → get_parent i = index →
     held !! get_parent index = Some p → held !! i = Some c → lt p c = false) →
  ∃ d, upheap_loop cmp_ fuel v index data = Done d ∧ d ≡ₚ held ∧ ∀ i, (0 < i)%nat → ordered_at d i.
Proof.
  intros held HD. subst held. revert fuel data HD. induction (lt_wf index) as [index _ IH].
  intros [|fuel] data HD Hl Hf Ho Hg; [lia|]. cbn [upheap_loop]. unfold get_root.
  destruct (Nat.ltb_spec 0 index) as [Hi|Hi].
  2: { eexists. split_and!; [done|done|]. intros i Hi'. apply Ho; lia. }
  pose proof (get_parent_lt index Hi) as Hp.
  destruct (lookup_lt_is_Some_2 data (get_parent index)) as [p Hlp]; [lia|]. rewrite Hlp. cbn [checked mbind R_bind].
  set (held := <[index := v]> data) in *.
  assert (held !! index = Some v) as Hv by by apply list_lookup_insert_eq.
  assert (held !! get_parent index = Some p) as Hhp by (unfold held; rewrite list_lookup_insert_ne by lia; done).
  rewrite cmp_lt by (by eapply (Forall_lookup_1 D)). cbn [mbind R_bind].
  destruct (lt p v) eqn:Hlt; cbn [negb].
  2: { exists held. split_and!; [done|done|]. intros i Hi'. destruct (decide (i = index)) as [->|]; [|by apply Ho].
       intros ? ?. rewrite Hhp, Hv. by intros [= <-] [= <-]. }
  assert (<[get_parent index := v]> (<[index := p]> data) = <[get_parent index := v]> (<[index := p]> held)) as Hheld.
  { unfold held. by rewrite list_insert_insert_eq. }
  assert (<[get_parent index := v]> (<[index := p]> held) ≡ₚ held) as Hperm by by apply exchange_perm.
  assert (∀ k, <[get_parent index := v]> (<[index := p]> held) !! k =
    if decide (k = get_parent index) then Some v else if decide (k = index) then Some p else held !! k) as Hlk.
  { intros k. apply lookup_exchange; [done|done|lia]. }
  destruct (IH (get_parent index) Hp fuel (<[index := p]> data)) as (d & E & Hd & Hod).
  - rewrite Hheld. by rewrite Hperm.
  - rewrite length_insert. lia.
  - lia.
  - rewrite Hheld. intros i Hi' Hne q c. rewrite !Hlk, (decide_False (P := i = _)) by done.
    destruct (decide (i = index)) as [->|].
    { rewrite decide_True by done. intros [= <-] [= <-]. by apply lt_asym. }
    destruct (decide (get_parent i = get_parent index)) as [Hsib|].
    { intros [= <-] Hc. apply (nlt_trans _ p); [by apply lt_asym|]. eapply (Ho i); [done|done|by rewrite Hsib|done]. }
    destruct (decide (get_parent i = index)) as [Hch|]; [intros [= <-] Hc; by eapply (Hg i)|].
    by apply Ho.
  - rewrite Hheld. intros i q c Hi' Hp0 Hpi. rewrite !Hlk. pose proof (get_parent_lt _ Hp0).
    pose proof (get_parent_lt i Hi'). rewrite !(decide_False (P := get_parent (get_parent index) = _)) by lia.
    rewrite (decide_False (P := i = get_parent index)) by lia. intros Hq.
    assert (lt q p = false) as Hqp by (eapply (Ho (get_parent index)); [lia|lia|done|done]).
    destruct (decide (i = index)) as [->|]; [by intros [= <-]|]. intros Hc.
    apply (nlt_trans _ p); [done|]. eapply (Ho i); [done|done|by rewrite Hpi|done].
  - exists d. split_and!; [done| |done]. by rewrite Hd, Hheld.
Qed.

Lemma push_spec value h :
  heap_ok h → Forall D (data_ h) → D value →
  ∃ h', push cmp_ value h = Done h' ∧ heap_ok h' ∧ data_ h' ≡ₚ value :: data_ h.
Proof.
  intros [Ho Hc] HD Hv. unfold push, upheap, size. cbn [data_]. rewrite length_app. cbn [length].
  set (n := length (data_ h)). replace (n + 1 - 1)%nat with n by lia.
  rewrite lookup_app_r, Nat.sub_diag by (unfold n; lia). cbn [lookup list_lookup checked mbind R_bind].
  assert (<[n := value]> (data_ h ++ [value]) = data_ h ++ [value]) as Hins.
  { apply list_insert_id. by rewrite lookup_app_r, Nat.sub_diag by (unfold n; lia). }
  destruct (upheap_loop_spec (S n) value n (data_ h ++ [value])) as (d & -> & Hd & Hod).
  - rewrite Hins. apply Forall_app. by rewrite Forall_singleton.
  - rewrite length_app. cbn. unfold n. lia.
  - lia.
  - rewrite Hins. intros i Hi Hne p c Hp Hlc. pose proof (lookup_lt_Some _ _ _ Hlc) as Hlt.
    rewrite length_app in Hlt. cbn in Hlt. fold n in Hlt. pose proof (get_parent_lt i Hi).
    rewrite lookup_app_l in Hp, Hlc by (unfold n in *; lia). by eapply Ho.
  - rewrite Hins. intros i p c Hi _ Hpi _ Hlc. pose proof (lookup_lt_Some _ _ _ Hlc) as Hlt.
    rewrite length_app in Hlt. cbn in Hlt. fold n in Hlt. pose proof (get_parent_lt i Hi). lia.
  - eexists. split; [done|]. split.
    + split; [done|]. by intros c x [=].
    + cbn [data_]. rewrite Hd, Hins. symmetry. apply Permutation_cons_append.
Qed.

(** The larger child, as far as there are two. *)
Lemma pick_child_spec cache index data :
  (get_left index < length data)%nat →
  (∀ k x, k ≠ index → data !! k = Some x → D x) → (index = 0%nat → cache_ok data cache) →
  ∃ pc c, pick_child cmp_ cache index data = Done pc ∧ data !! pc = Some c ∧ (0 < pc)%nat ∧ get_parent pc = index ∧
    ∀ j y, (0 < j)%nat → get_parent j = index → data !! j = Some y → lt c y = false.
Proof.
  intros Hl HD Hc. unfold pick_child. replace (S (get_left index)) with (get_right index) by (unfold get_left, get_right; lia).
  rewrite Nat.eqb_refl, assert_true. cbn [mbind R_bind].
  assert (∀ pc c, pc = get_left index ∨ pc = get_right index → data !! pc = Some c →
    (∀ y, data !! get_left index = Some y → lt c y = false) →
    (∀ y, data !! get_right index = Some y → lt c y = false) →
    (0 < pc)%nat ∧ get_parent pc = index ∧
    ∀ j y, (0 < j)%nat → get_parent j = index → data !! j = Some y → lt c y = false) as Hbest.
  { intros pc c Hpc Hlc Hyl Hyr. assert (0 < pc)%nat as Hpos by (unfold get_left, get_right in Hpc; lia).
    split_and!; [done|by apply get_parent_child|]. intros j y Hj Hpj. apply get_parent_child in Hpj as [->| ->]; [apply Hyl|apply Hyr|done]. }
  destruct (lookup_lt_is_Some_2 data (get_left index)) as [l Hll]; [done|].
  destruct (match cache with Some c => _ | None => _ end) as [c|] eqn:Ec.
  { destruct cache as [c'|]; [|done]. destruct (Nat.eqb_spec index 0) as [->|]; [|done].
    destruct (Nat.ltb_spec c' (length data)) as [Hlt|]; [|done]. injection Ec as ->.
    destruct (lookup_lt_is_Some_2 data c) as [x Hx]; [done|]. destruct (Hc eq_refl c x eq_refl Hx) as [Hc12 Hbig].
    exists c, x. do 2 (split; [done|]). apply Hbest; [by destruct Hc12; [left|right]|done|..];
      intros y; apply Hbig; [by left|by right]. }
  clear Ec. assert (get_right index ≠ index ∧ get_left index ≠ index) as [Hr Hli] by (unfold get_right, get_left; lia).
  destruct (Nat.ltb_spec (get_right index) (length data)) as [Hrl|Hrl].
  - destruct (lookup_lt_is_Some_2 data (get_right index)) as [r Hlr]; [done|]. rewrite Hll, Hlr.
    cbn [checked mbind R_bind]. rewrite cmp_lt by (by eapply HD; [|done]). cbn [mbind R_bind].
    destruct (lt l r) eqn:E.
    + exists (get_right index), r. do 2 (split; [done|]). apply Hbest; [by right|done|..];
        intros y; rewrite ?Hll, ?Hlr; intros [= <-]; try apply lt_irrefl; by apply lt_asym.
    + exists (get_left index), l. do 2 (split; [done|]). apply Hbest; [by left|done|..];
        intros y; rewrite ?Hll, ?Hlr; intros [= <-]; try apply lt_irrefl; done.
  - exists (get_left index), l. do 2 (split; [done|]). apply Hbest; [by left|done|..];
      intros y; rewrite ?Hll, ?(lookup_ge_None_2 data (get_right index)) by done; try done; intros [= <-]; apply lt_irrefl.
Qed.

(** Moving [v] down: all is in order but [v] and its children, and these are
    below the parent of [v]'s place. *)
Lemma downheap_loop_spec fuel cache v index picked data :
  let held := <[index := v]> data in
  Forall D held → (index < length data)%nat → (length data < index + fuel)%nat →
  (index = 0%nat → cache_ok data cache ∧ picked = None) →
  (∀ i, (0 < i)%nat → get_parent i ≠ index → ordered_at held i) →
  (∀ i p c, (0 < i)%nat → (0 < index)%nat → get_parent i = index →
     held !! get_parent index = Some p → held !! i = Some c → lt p c = false) →
  ∃ d i' pk, downheap_loop cmp_ fuel cache v index picked data = Done (d, i', pk) ∧
    <[i' := v]> d ≡ₚ held ∧ (∀ i, (0 < i)%nat → ordered_at (<[i' := v]> d) i) ∧
    (i' = 0%nat → cache_ok (<[i' := v]> d) pk).
Proof.
  intros held HD. subst held. revert index picked data HD.
  induction fuel as [|fuel IH]; intros index picked data HD Hl Hf Hc Ho Hg; [lia|]. cbn [downheap_loop].
  set (held := <[index := v]> data) in *.
  assert (∀ k, k ≠ index → held !! k = data !! k) as Hsame.
  { intros k Hk. unfold held. by apply list_lookup_insert_ne. }
  assert (held !! index = Some v) as Hv by by apply list_lookup_insert_eq.
  destruct (Nat.leb_spec (length data) (get_left index)) as [Hleaf|Hleaf].
  { exists data, index, picked. fold held. split_and!; [done|done| |].
    - intros i Hi. destruct (decide (get_parent i = index)) as [Hpi|]; [|by apply Ho].
      intros p c _ Hlc. apply lookup_lt_Some in Hlc. unfold held in Hlc. rewrite length_insert in Hlc.
      apply get_parent_child in Hpi; [|done]. unfold get_left, get_right in *. lia.
    - intros Hi. destruct (Hc Hi) as [_ ->]. by intros ? ? [=]. }
  assert (∀ k x, k ≠ index → data !! k = Some x → D x) as HDk.
  { intros k x Hk Hx. eapply (Forall_lookup_1 D held); [done|]. by rewrite Hsame. }
  destruct (pick_child_spec cache index data Hleaf HDk (λ Hi, proj1 (Hc Hi))) as (pc & c & -> & Hlc & Hpc & Hpar & Hbest).
  cbn [mbind R_bind]. rewrite Hlc. cbn [checked mbind R_bind].
  pose proof (get_parent_lt pc Hpc) as Hlt. assert (pc ≠ index) as Hne by lia.
  rewrite cmp_lt; [|by eapply (Forall_lookup_1 D)|by eapply HDk]. cbn [mbind R_bind].
  destruct (lt v c) eqn:Hvc; cbn [negb].
  2: { exists data, index, (Some pc). fold held. split_and!; [done|done| |].
       - intros i Hi. destruct (decide (get_parent i = index)) as [Hpi|]; [|by apply Ho].
         intros p y. rewrite Hpi, Hv. intros [= <-] Hy. apply (nlt_trans _ c); [done|].
         eapply (Hbest i); [done|done|]. rewrite <- Hsame; [done|]. pose proof (get_parent_lt i Hi). lia.
       - intros -> ? x [= <-]. rewrite Hsame, Hlc by lia. intros [= <-].
         apply get_parent_child in Hpar; [|done]. split; [exact Hpar|]. intros j y Hj. rewrite Hsame by lia.
         apply Hbest; [lia|]. apply get_parent_child; [lia|exact Hj]. }
  pose proof (lookup_lt_Some _ _ _ Hlc) as Hpl.
  assert (<[pc := v]> (<[index := c]> data) = <[pc := v]> (<[index := c]> held)) as Hheld.
  { unfold held. by rewrite list_insert_insert_eq. }
  assert (held !! pc = Some c) as Hhc by by rewrite Hsame.
  assert (<[pc := v]> (<[index := c]> held) ≡ₚ held) as Hperm by by apply exchange_perm.
  assert (∀ k, <[pc := v]> (<[index := c]> held) !! k =
    if decide (k = pc) then Some v else if decide (k = index) then Some c else held !! k) as Hlk.
  { intros k. by apply lookup_exchange. }
  destruct (IH pc (Some pc) (<[index := c]> data)) as (d & i' & pk & E & Hd & Hod & Hcd).
  - rewrite Hheld. by rewrite Hperm.
  - by rewrite length_insert.
  - rewrite length_insert. lia.
  - lia.
  - rewrite Hheld. intros i Hi Hpi p y. rewrite !Hlk, (decide_False (P := get_parent i = pc)) by done.
    destruct (decide (i = pc)) as [->|].
    { rewrite decide_True by done. intros [= <-] [= <-]. by apply lt_asym. }
    destruct (decide (get_parent i = index)) as [Hsib|].
    { intros [= <-]. pose proof (get_parent_lt i Hi). rewrite decide_False, Hsame by lia. by apply Hbest. }
    destruct (decide (i = index)) as [->|]; [|by apply Ho].
    intros Hp [= <-]. by eapply (Hg pc).
  - rewrite Hheld. intros i p y Hi _ Hpi. rewrite !Hlk, Hpar, (decide_False (P := index = pc)), decide_True by lia.
    pose proof (get_parent_lt i Hi). rewrite !decide_False by lia. intros [= <-] Hy.
    eapply (Ho i); [done|lia|by rewrite Hpi|done].
  - exists d, i', pk. split_and!; [done| |done|done]. by rewrite Hd, Hheld.
Qed.

Lemma downheap_root_spec h v :
  heap_below h → Forall D (data_ h) → data_ h !! 0%nat = Some v →
  ∃ h', downheap cmp_ 0 h = Done h' ∧ heap_ok h' ∧ data_ h' ≡ₚ data_ h.
Proof.
  intros [Ho Hc] HD Hv. unfold downheap. rewrite Hv. cbn [checked mbind R_bind].
  pose proof (list_insert_id _ _ _ Hv) as Hid. pose proof (lookup_lt_Some _ _ _ Hv) as Hl.
  destruct (downheap_loop_spec (S (size h)) (root_cmp_cache_ h) v 0 None (data_ h)) as (d & i' & pk & -> & Hd & Hod & Hcd);
    rewrite ?Hid; unfold size; [done|done|lia|done| |lia|].
  { intros i _ Hi. apply Ho. lia. }
  cbn [mbind R_bind]. eexists. split; [done|]. rewrite Hid in Hd. split; [|done]. split; [done|]. cbn [data_ root_cmp_cache_].
  destruct (Nat.eqb_spec i' 0); [by apply Hcd|]. by intros ? ? [=].
Qed.

Lemma replace_top_spec value v h rest :
  data_ h = v :: rest → heap_below (mkHeap (value :: rest) (root_cmp_cache_ h)) → Forall D (value :: rest) →
  ∃ h', replace_top cmp_ value h = Done h' ∧ heap_ok h' ∧ data_ h' ≡ₚ value :: rest.
Proof.
  intros E Hb HD. unfold replace_top, empty. rewrite E, bool_decide_eq_false_2 by done. cbn [negb head].
  rewrite assert_true. cbn [checked mbind R_bind]. by apply (downheap_root_spec _ value Hb HD).
Qed.

Lemma pop_spec v h rest :
  data_ h = v :: rest → heap_below h → Forall D rest →
  ∃ h', pop cmp_ h = Done h' ∧ heap_ok h' ∧ data_ h' ≡ₚ rest.
Proof.
  intros E [Ho Hc] HD. unfold pop, empty, size. rewrite E, bool_decide_eq_false_2 by done. cbn [negb].
  rewrite assert_true. cbn [checked mbind R_bind]. cbn [length]. replace (S (length rest) - 1)%nat with (length rest) by lia.
  destruct (last (v :: rest)) as [b|] eqn:Eb; [|by apply last_None in Eb]. cbn [checked mbind R_bind].
  change (<[0%nat := b]> (v :: rest)) with (b :: rest).
  destruct rest as [|x rest] using rev_ind.
  { cbn. eexists. split; [done|]. split; [|done]. split; [done|]. by intros ? ? [=]. }
  clear IHrest. rewrite app_comm_cons, last_snoc in Eb. injection Eb as ->. rewrite length_app. cbn [length].
  replace (length rest + 1)%nat with (S (length rest)) by lia. cbn [take].
  rewrite take_app_length. cbn [data_]. rewrite bool_decide_eq_false_2 by done. cbn [negb].
  assert (∀ k, (0 < k)%nat → (k < S (length rest))%nat → (b :: rest) !! k = data_ h !! k) as Hlk.
  { intros [|k] Hk1 Hk2; [lia|]. by rewrite E, app_comm_cons, lookup_app_l by (cbn [length]; lia). }
  change get_root with 0%nat.
  destruct (downheap_root_spec (mkHeap (b :: rest) (root_cmp_cache_ h)) b) as (h' & -> & Hok & Hp).
  - split; cbn [data_ root_cmp_cache_].
    + intros i Hi p c Hlp Hlc. pose proof (lookup_lt_Some _ _ _ Hlp). pose proof (lookup_lt_Some _ _ _ Hlc).
      cbn [length] in *. assert (0 < i)%nat by (destruct i; [cbn in Hi|]; lia).
      rewrite Hlk in Hlp, Hlc by lia. by eapply Ho.
    + intros c x Ec Hlx. pose proof (lookup_lt_Some _ _ _ Hlx) as Hlt. cbn [length] in Hlt.
      destruct (decide (c = 0)%nat) as [->|].
      { exfalso. destruct (Hc 0%nat v Ec) as [? _]; [by rewrite E|lia]. }
      rewrite Hlk in Hlx by lia. destruct (Hc c x Ec Hlx) as [Hc12 Hbig]. split; [done|].
      intros j y Hj Hly. pose proof (lookup_lt_Some _ _ _ Hly) as Hlt'. cbn [length] in Hlt'.
      rewrite Hlk in Hly by lia. by eapply Hbig.
  - cbn [data_]. rewrite Forall_app, Forall_singleton in HD. by constructor; destruct HD.
  - done.
  - exists h'. split_and!; [done|done|]. cbn [data_] in Hp. rewrite Hp. apply Permutation_cons_append.
Qed.
End order.

(** Only the elements below the root matter there. *)
Lemma heap_below_ext {T} (lt lt' : T → T → bool) v w cache rest :
  heap_below lt (mkHeap (v :: rest) cache) → (∀ a b, a ∈ rest → b ∈ rest → lt a b = lt' a b) →
  heap_below lt' (mkHeap (w :: rest) cache).
Proof.
  intros [Ho Hc] Hext. cbn [data_ root_cmp_cache_] in *. split; cbn [data_ root_cmp_cache_].
  - intros i Hi p c Hp Hlc. assert (0 < i)%nat by (destruct i; [cbn in Hi|]; lia).
    destruct (get_parent i) as [|pi] eqn:Epi; [lia|]. destruct i as [|i]; [lia|]. cbn in Hp, Hlc.
    rewrite <- Hext by (by eapply list_elem_of_lookup_2). apply (Ho (S i)); [lia|by rewrite Epi|done].
  - intros [|c] x Ec Hx; [by destruct (Hc 0%nat v Ec eq_refl); lia|].
    destruct (Hc (S c) x Ec Hx) as [? Hbig]. split; [done|]. intros [|j] y Hj Hy; [lia|]. cbn in Hx, Hy.
    rewrite <- Hext by (by eapply list_elem_of_lookup_2). by apply (Hbig (S j)).
Qed.

(** ** A priority queue *)

Inductive heap_op (T : Type) := HPush (value : T) | HReplaceTop (value : T) | HPop | HClear.
Arguments HPush {T} _.
Arguments HReplaceTop {T} _.
Arguments HPop {T}.
Arguments HClear {T}.

Definition heap_apply {T} `{Build} (cmp_ : T → T → R bool) (o : heap_op T) (h : BinaryHeap T) : R (BinaryHeap T) :=
  match o with
  | HPush v => push cmp_ v h
  | HReplaceTop v => replace_top cmp_ v h
  | HPop => pop cmp_ h
  | HClear => Done (clear h)
  end.
Fixpoint heap_run {T} `{Build} (cmp_ : T → T → R bool) (ops : list (heap_op T)) (h : BinaryHeap T) : R (BinaryHeap T) :=
  match ops with [] => Done h | o :: ops' => h ← heap_apply cmp_ o h; heap_run cmp_ ops' h end.

(** An operation needs an element at the top; how many elements it leaves. *)
Definition heap_size_after {T} (o : heap_op T) (n : nat) : option nat :=
  match o with
  | HPush _ => Some (S n)
  | HReplaceTop _ => if (n =? 0)%nat then None else Some n
  | HPop => if (n =? 0)%nat then None else Some (n - 1)%nat
  | HClear => Some 0%nat
  end.
Fixpoint heap_allowed {T} (ops : list (heap_op T)) (n : nat) : bool :=
  match ops with
  | [] => true
  | o :: ops' => match heap_size_after o n with Some n' => heap_allowed ops' n' | None => false end
  end.

(** The queue as a bag: what leaves is an element none is greater than. *)
Definition greatest {T} (lt : T → T → bool) (x : T) (l : list T) : Prop := x ∈ l ∧ ∀ y, y ∈ l → lt x y = false.
Definition queue_step {T} (lt : T → T → bool) (o : heap_op T) (l l' : list T) : Prop :=
  match o with
  | HPush v => l' ≡ₚ v :: l
  | HReplaceTop v => ∃ x rest, greatest lt x l ∧ l ≡ₚ x :: rest ∧ l' ≡ₚ v :: rest
  | HPop => ∃ x, greatest lt x l ∧ l ≡ₚ x :: l'
  | HClear => l' = []
  end.
Fixpoint queue_run {T} (lt : T → T → bool) (ops : list (heap_op T)) (l l' : list T) : Prop :=
  match ops with
  | [] => l = l'
  | o :: ops' => ∃ l1, queue_step lt o l l1 ∧ queue_run lt ops' l1 l'
  end.

Section queue.
Context {T : Type} `{Build} (cmp_ : T → T → R bool) (lt : T → T → bool).
Context (cmp_lt : ∀ a b, cmp_ a b = Done (lt a b)).
Context (lt_asym : ∀ a b, lt a b = true → lt b a = false).
Context (nlt_trans : ∀ a b c, lt a b = false → lt b c = false → lt a c = false).

Lemma Forall_True (l : list T) : Forall (λ _, True) l.
Proof. by apply Forall_true. Qed.
#[local] Hint Resolve Forall_True : core.

Lemma head_greatest h x rest : heap_ok lt h → data_ h = x :: rest → greatest lt x (data_ h) ∧ top h = Done x.
Proof.
  intros Hok E. assert (top h = Done x) as Etop.
  { unfold top, empty. rewrite E, bool_decide_eq_false_2 by done. cbn [negb]. by rewrite assert_true. }
  split; [|done]. split; [rewrite E; by left|]. intros y Hy.
  destruct (top_greatest lt lt_asym nlt_trans h y Hok Hy) as (z & Ez & _ & Hz).
  rewrite Etop in Ez. by injection Ez as <-.
Qed.

Lemma heap_apply_spec o h n :
  heap_ok lt h → heap_size_after o (length (data_ h)) = Some n →
  ∃ h', heap_apply cmp_ o h = Done h' ∧ heap_ok lt h' ∧ length (data_ h') = n ∧
    queue_step lt o (data_ h) (data_ h').
Proof.
  intros Hok Hn. pose proof (heap_ok_below lt h Hok) as Hb.
  assert (∀ a b, True → True → cmp_ a b = Done (lt a b)) as Hcmp by auto.
  destruct o as [v|v| |]; cbn [heap_apply heap_size_after queue_step] in *.
  - injection Hn as <-. destruct (push_spec cmp_ lt (λ _, True) Hcmp lt_asym nlt_trans v h Hok) as (h' & -> & ? & Hp); [done..|].
    exists h'. split_and!; [done|done|by rewrite Hp|done].
  - destruct (data_ h) as [|x rest] eqn:E; [done|]. injection Hn as <-.
    destruct (head_greatest h x rest Hok E) as [Hg _]. rewrite E in Hg.
    destruct (replace_top_spec cmp_ lt (λ _, True) Hcmp lt_asym nlt_trans v x h rest E) as (h' & -> & ? & Hp); [|done|].
    + destruct h as [d cache]. cbn in E. subst d. by apply (heap_below_ext lt lt x).
    + exists h'. split_and!; [done|done|by rewrite Hp|by exists x, rest].
  - destruct (data_ h) as [|x rest] eqn:E; [done|]. injection Hn as <-.
    destruct (head_greatest h x rest Hok E) as [Hg _]. rewrite E in Hg.
    destruct (pop_spec cmp_ lt (λ _, True) Hcmp lt_asym nlt_trans x h rest E Hb) as (h' & -> & ? & Hp); [done|].
    exists h'. split_and!; [done|done|cbn [length]; rewrite Hp; lia|by exists x; split; [|by rewrite Hp]].
  - injection Hn as <-. eexists. split_and!; [done| |done|done]. split; cbn; [by intros ? ? ? ? [=]|by intros ? ? [=]].
Qed.

(** Any run of pushes, pops, replacements of the top and clears that never
    takes from an empty heap is carried out without a fault as a priority queue
    would: what leaves, and what [top] then shows, is an element none of the
    others is greater than, whatever child of the root was remembered. *)
Theorem BinaryHeap_refines_queue ops :
  heap_allowed ops 0 = true →
  ∃ h, heap_run cmp_ ops new_heap = Done h ∧ queue_run lt ops [] (data_ h) ∧
    (data_ h = [] ∨ ∃ x, top h = Done x ∧ greatest lt x (data_ h)).
Proof.
  assert (heap_ok lt new_heap) as Hok0 by (split; cbn; [by intros ? ? ? ? [=]|by intros ? ? [=]]).
  change (@nil T) with (data_ (@new_heap T)) at 1. change 0%nat with (length (data_ (@new_heap T))).
  revert Hok0. generalize (@new_heap T). induction ops as [|o ops IH]; intros h Hok; cbn [heap_allowed heap_run queue_run].
  - intros _. exists h. split_and!; [done|done|]. destruct (data_ h) as [|x rest] eqn:E; [by left|right].
    destruct (head_greatest h x rest Hok E) as [Hg ?]. rewrite E in Hg. by exists x.
  - destruct (heap_size_after o (length (data_ h))) as [n|] eqn:En; [|done].
    destruct (heap_apply_spec o h n Hok En) as (h1 & -> & Hok1 & <- & Hs). intros Ha.
    destruct (IH h1 Hok1 Ha) as (h' & E & Hr & Ht). exists h'. cbn [mbind R_bind]. eauto.
Qed.
End queue.

Definition test_heap_ops : list (heap_op Z) :=
  map HPush [5; 3; 9; 1; 9; 4] ++ [HReplaceTop 2; HPop; HReplaceTop 8; HPush 7; HPop].
Lemma BinaryHeap_refines_queue_witness :
  heap_allowed test_heap_ops 0 = true ∧
  @heap_run _ {| NDEBUG := false |} (λ a b, Done (a <? b)) test_heap_ops new_heap = Done (mkHeap [7; 3; 4; 1; 2] None) ∧
  ∃ h, @heap_run _ {| NDEBUG := false |} (λ a b, Done (a <? b)) test_heap_ops new_heap = Done h ∧
    queue_run Z.ltb test_heap_ops [] (data_ h) ∧
    (data_ h = [] ∨ ∃ x, @top _ {| NDEBUG := false |} h = Done x ∧ greatest Z.ltb x (data_ h)).
Proof.
  split; [vm_compute; reflexivity|]. split; [vm_compute; reflexivity|].
  apply (@BinaryHeap_refines_queue Z {| NDEBUG := false |} (λ a b, Done (a <? b)) Z.ltb (λ a b, eq_refl)).
  - intros a b H. apply Z.ltb_lt in H. apply Z.ltb_ge. lia.
  - intros a b c H1 H2. apply Z.ltb_ge in H1, H2. apply Z.ltb_ge. lia.
  - vm_compute. reflexivity.
Defined.
