(* ===== verification/MergingIterator.v ===== *)
(** * Merging iterators (table/merging_iterator.h and .cc;
      table/iterator_wrapper.h, table/iter_heap.h, table/iterator.cc)

    The union of sorted children, by a heap of pointers to them. The children
    are any implementation of InternalIterator; each is wrapped with a cache of
    its validity and key. Pinning and the timers are left out. *)
From S2P Require Import Prelude Result Status Comparator Cursor IteratorWrapper Heap.

(** ** EmptyInternalIterator (table/iterator.cc) *)

Definition EmptyInternalIterator `{Build} : InternalIterator Status := {|
  it_Valid _ := false;
  it_SeekToFirst := Done; it_SeekToLast := Done;
  it_Seek _ := Done; it_SeekForPrev _ := Done;
  it_Next s := _ ← assert false; Done s;
  it_NextAndGetResult :=
    default_NextAndGetResult (λ s, _ ← assert false; Done s) (λ _, false) (λ _, _ ← assert false; Done []) (λ _, Done true);
  it_Prev s := _ ← assert false; Done s;
  it_key _ := _ ← assert false; Done [];
  it_value _ := _ ← assert false; Done [];
  it_status s := s;
  it_MayBeOutOfLowerBound _ := Done true;
  it_MayBeOutOfUpperBound _ := Done true;
|}.

Section merging.
Context {I : Type} `{Build, InternalIterator I}.
#[local] Abbreviation IteratorWrapper := (IteratorWrapper (I := I)).

(** ** MergingIterator *)

(** A pointer to a wrapper: to a child, to the local variable of AddIterator
    while it runs, or to memory that is no longer a wrapper. *)
Inductive Pointer := Child (i : nat) | Local | Dangling.
#[export] Instance Pointer_eq_dec : EqDecision Pointer.
Proof. solve_decision. Defined.

Definition kNumIterReserve : nat := 4.

Record MergingIterator := mkMerging {
  children_ : list IteratorWrapper;
  current_ : option Pointer;
  status_ : Status;
  direction_ : Direction;
  minHeap_ : BinaryHeap Pointer;
  maxHeap_ : option (BinaryHeap Pointer);
  prefix_seek_mode_ : bool;
  local_ : option IteratorWrapper;
}.

Definition set_children (l : list IteratorWrapper) (m : MergingIterator) : MergingIterator :=
  mkMerging l (current_ m) (status_ m) (direction_ m) (minHeap_ m) (maxHeap_ m) (prefix_seek_mode_ m) (local_ m).
Definition set_current (p : option Pointer) (m : MergingIterator) : MergingIterator :=
  mkMerging (children_ m) p (status_ m) (direction_ m) (minHeap_ m) (maxHeap_ m) (prefix_seek_mode_ m) (local_ m).
Definition set_status (s : Status) (m : MergingIterator) : MergingIterator :=
  mkMerging (children_ m) (current_ m) s (direction_ m) (minHeap_ m) (maxHeap_ m) (prefix_seek_mode_ m) (local_ m).
Definition set_direction (d : Direction) (m : MergingIterator) : MergingIterator :=
  mkMerging (children_ m) (current_ m) (status_ m) d (minHeap_ m) (maxHeap_ m) (prefix_seek_mode_ m) (local_ m).
Definition set_minHeap (h : BinaryHeap Pointer) (m : MergingIterator) : MergingIterator :=
  mkMerging (children_ m) (current_ m) (status_ m) (direction_ m) h (maxHeap_ m) (prefix_seek_mode_ m) (local_ m).
Definition set_maxHeap (h : option (BinaryHeap Pointer)) (m : MergingIterator) : MergingIterator :=
  mkMerging (children_ m) (current_ m) (status_ m) (direction_ m) (minHeap_ m) h (prefix_seek_mode_ m) (local_ m).
Definition set_local (w : option IteratorWrapper) (m : MergingIterator) : MergingIterator :=
  mkMerging (children_ m) (current_ m) (status_ m) (direction_ m) (minHeap_ m) (maxHeap_ m) (prefix_seek_mode_ m) w.

Definition load (p : Pointer) (m : MergingIterator) : R IteratorWrapper :=
  match p with
  | Child i => checked OutOfBounds (children_ m !! i)
  | Local => checked Undefined (local_ m)
  | Dangling => Fault Undefined
  end.
Definition store (p : Pointer) (w : IteratorWrapper) (m : MergingIterator) : MergingIterator :=
  match p with
  | Child i => set_children (<[i := w]> (children_ m)) m
  | Local => set_local (Some w) m
  | Dangling => m
  end.
(** Running an operation of the wrapper at [p]. *)
Definition update (p : Pointer) (f : IteratorWrapper → R IteratorWrapper) (m : MergingIterator) : R MergingIterator :=
  w ← load p m; w ← f w; Done (store p w m).
Definition key_at (p : Pointer) (m : MergingIterator) : R bytes := w ← load p m; wrapper_key w.

Context `{C : Comparator}.

(** MinIteratorComparator and MaxIteratorComparator. *)
Definition min_comparator (m : MergingIterator) (a b : Pointer) : R bool :=
  ka ← key_at a m; kb ← key_at b m; Done (0 <? Compare ka kb).
Definition max_comparator (m : MergingIterator) (a b : Pointer) : R bool :=
  ka ← key_at a m; kb ← key_at b m; Done (Compare ka kb <? 0).

Definition considerStatus (s : Status) (m : MergingIterator) : MergingIterator :=
  if negb (ok s) && ok (status_ m) then set_status s m else m.

Definition Valid (m : MergingIterator) : bool := bool_decide (is_Some (current_ m)) && ok (status_ m).
Definition current_wrapper (m : MergingIterator) : R IteratorWrapper :=
  _ ← assert (Valid m); p ← checked Undefined (current_ m); load p m.
Definition key (m : MergingIterator) : R bytes := w ← current_wrapper m; wrapper_key w.
Definition value (m : MergingIterator) : R bytes := w ← current_wrapper m; wrapper_value w.
Definition MayBeOutOfLowerBound (m : MergingIterator) : R bool :=
  w ← current_wrapper m; wrapper_MayBeOutOfLowerBound w.
Definition MayBeOutOfUpperBound (m : MergingIterator) : R bool :=
  w ← current_wrapper m; wrapper_MayBeOutOfUpperBound w.

Definition CurrentForward (m : MergingIterator) : R (option Pointer) :=
  _ ← assert (bool_decide (direction_ m = kForward));
  if negb (Heap.empty (minHeap_ m)) then p ← Heap.top (minHeap_ m); Done (Some p) else Done None.
Definition CurrentReverse (m : MergingIterator) : R (option Pointer) :=
  _ ← assert (bool_decide (direction_ m = kReverse));
  _ ← assert (bool_decide (is_Some (maxHeap_ m)));
  h ← checked Undefined (maxHeap_ m);
  if negb (Heap.empty h) then p ← Heap.top h; Done (Some p) else Done None.

Definition AddToMinHeapOrCheckStatus (child : Pointer) (m : MergingIterator) : R MergingIterator :=
  w ← load child m;
  if valid_ w then
    _ ← debug_assert (s ← wrapper_status w; Done (ok s));
    h ← Heap.push (min_comparator m) child (minHeap_ m);
    Done (set_minHeap h m)
  else s ← wrapper_status w; Done (considerStatus s m).
Definition AddToMaxHeapOrCheckStatus (child : Pointer) (m : MergingIterator) : R MergingIterator :=
  w ← load child m;
  if valid_ w then
    _ ← debug_assert (s ← wrapper_status w; Done (ok s));
    h ← checked Undefined (maxHeap_ m);
    h ← Heap.push (max_comparator m) child h;
    Done (set_maxHeap (Some h) m)
  else s ← wrapper_status w; Done (considerStatus s m).

Definition ClearHeaps (m : MergingIterator) : MergingIterator :=
  set_maxHeap (Heap.clear <$> maxHeap_ m) (set_minHeap (Heap.clear (minHeap_ m)) m).
Definition InitMaxHeap (m : MergingIterator) : MergingIterator :=
  match maxHeap_ m with None => set_maxHeap (Some new_heap) m | Some _ => m end.

(** [for (auto& child : children_)] *)
Fixpoint for_each (idx : list nat) (body : nat → MergingIterator → R MergingIterator) (m : MergingIterator)
    : R MergingIterator :=
  match idx with [] => Done m | i :: idx' => m ← body i m; for_each idx' body m end.
Definition for_children (body : nat → MergingIterator → R MergingIterator) (m : MergingIterator) : R MergingIterator :=
  for_each (seq 0 (length (children_ m))) body m.

Fixpoint set_iterators (children : list I) : R (list IteratorWrapper) :=
  match children with
  | [] => Done []
  | it :: children' => w ← wrapper_Set (Some it) new_wrapper; ws ← set_iterators children'; Done (w :: ws)
  end.
Definition new_MergingIterator (children : list I) (prefix_seek_mode : bool) : R MergingIterator :=
  ws ← set_iterators children;
  let m := mkMerging ws None OK kForward new_heap None prefix_seek_mode None in
  m ← for_children (λ i m, AddToMinHeapOrCheckStatus (Child i) m) m;
  c ← CurrentForward m;
  Done (set_current c m).

Definition SeekToFirst (m : MergingIterator) : R MergingIterator :=
  let m := set_status OK (ClearHeaps m) in
  m ← for_children (λ i m, m ← update (Child i) (wrapper_move it_SeekToFirst) m;
                           AddToMinHeapOrCheckStatus (Child i) m) m;
  let m := set_direction kForward m in
  c ← CurrentForward m; Done (set_current c m).
Definition SeekToLast (m : MergingIterator) : R MergingIterator :=
  let m := set_status OK (InitMaxHeap (ClearHeaps m)) in
  m ← for_children (λ i m, m ← update (Child i) (wrapper_move it_SeekToLast) m;
                           AddToMaxHeapOrCheckStatus (Child i) m) m;
  let m := set_direction kReverse m in
  c ← CurrentReverse m; Done (set_current c m).
Definition Seek (target : bytes) (m : MergingIterator) : R MergingIterator :=
  let m := set_status OK (ClearHeaps m) in
  m ← for_children (λ i m, m ← update (Child i) (wrapper_move (it_Seek target)) m;
                           AddToMinHeapOrCheckStatus (Child i) m) m;
  let m := set_direction kForward m in
  c ← CurrentForward m; Done (set_current c m).
Definition SeekForPrev (target : bytes) (m : MergingIterator) : R MergingIterator :=
  let m := set_status OK (InitMaxHeap (ClearHeaps m)) in
  m ← for_children (λ i m, m ← update (Child i) (wrapper_move (it_SeekForPrev target)) m;
                           AddToMaxHeapOrCheckStatus (Child i) m) m;
  let m := set_direction kReverse m in
  c ← CurrentReverse m; Done (set_current c m).

(** A child that is not [current_] is moved past its own entry of [target]. *)
Definition step_past (target : bytes) (past : IteratorWrapper → R IteratorWrapper) (p : Pointer) (m : MergingIterator)
    : R MergingIterator :=
  w ← load p m;
  if valid_ w then
    k ← wrapper_key w;
    if Equal target k then
      _ ← debug_assert (s ← wrapper_status w; Done (ok s));
      update p past m
    else Done m
  else Done m.
Definition SwitchToForward (m : MergingIterator) : R MergingIterator :=
  let m := ClearHeaps m in
  target ← key m;
  m ← for_children (λ i m,
        m ← (if bool_decide (Some (Child i) ≠ current_ m) then
               m ← update (Child i) (wrapper_move (it_Seek target)) m;
               step_past target wrapper_Next (Child i) m
             else Done m);
        AddToMinHeapOrCheckStatus (Child i) m) m;
  Done (set_direction kForward m).
Definition SwitchToBackward (m : MergingIterator) : R MergingIterator :=
  let m := InitMaxHeap (ClearHeaps m) in
  target ← key m;
  m ← for_children (λ i m,
        m ← (if bool_decide (Some (Child i) ≠ current_ m) then
               m ← update (Child i) (wrapper_move (it_SeekForPrev target)) m;
               step_past target (wrapper_move it_Prev) (Child i) m
             else Done m);
        AddToMaxHeapOrCheckStatus (Child i) m) m;
  let m := set_direction kReverse m in
  m ← (if negb (prefix_seek_mode_ m) then c ← CurrentReverse m; Done (set_current c m) else Done m);
  _ ← debug_assert (c ← CurrentReverse m; Done (bool_decide (current_ m = c)));
  Done m.

Definition Next (m : MergingIterator) : R MergingIterator :=
  _ ← assert (Valid m);
  m ← (if bool_decide (direction_ m ≠ kForward) then SwitchToForward m else Done m);
  _ ← debug_assert (c ← CurrentForward m; Done (bool_decide (current_ m = c)));
  p ← checked Undefined (current_ m);
  m ← update p wrapper_Next m;
  w ← load p m;
  m ← (if valid_ w then
         _ ← debug_assert (s ← wrapper_status w; Done (ok s));
         h ← Heap.replace_top (min_comparator m) p (minHeap_ m);
         Done (set_minHeap h m)
       else
         s ← wrapper_status w;
         let m := considerStatus s m in
         h ← Heap.pop (min_comparator m) (minHeap_ m);
         Done (set_minHeap h m));
  c ← CurrentForward m; Done (set_current c m).
Definition NextAndGetResult (m : MergingIterator) : R (MergingIterator * option (bytes * bool)) :=
  m ← Next m;
  if Valid m then
    k ← key m; may ← MayBeOutOfUpperBound m; Done (m, Some (k, may))
  else Done (m, None).
Definition Prev (m : MergingIterator) : R MergingIterator :=
  _ ← assert (Valid m);
  m ← (if bool_decide (direction_ m ≠ kReverse) then SwitchToBackward m else Done m);
  _ ← debug_assert (c ← CurrentReverse m; Done (bool_decide (current_ m = c)));
  p ← checked Undefined (current_ m);
  m ← update p (wrapper_move it_Prev) m;
  w ← load p m;
  m ← (if valid_ w then
         _ ← debug_assert (s ← wrapper_status w; Done (ok s));
         h ← checked Undefined (maxHeap_ m);
         h ← Heap.replace_top (max_comparator m) p h;
         Done (set_maxHeap (Some h) m)
       else
         s ← wrapper_status w;
         let m := considerStatus s m in
         h ← checked Undefined (maxHeap_ m);
         h ← Heap.pop (max_comparator m) h;
         Done (set_maxHeap (Some h) m));
  c ← CurrentReverse m; Done (set_current c m).

(** ** Adding children *)

(** What becomes of a pointer when children_ grows: the first [kNumIterReserve]
    stay where they are, the others are in a vector that may have moved. *)
Definition after_growth (moved : bool) (p : Pointer) : Pointer :=
  match p with
  | Child i => if moved && (kNumIterReserve <=? i)%nat then Dangling else p
  | _ => p
  end.
(** And when AddIterator returns. *)
Definition after_return (p : Pointer) : Pointer := match p with Local => Dangling | _ => p end.
Definition map_pointers (f : Pointer → Pointer) (m : MergingIterator) : MergingIterator :=
  let on_heap h := mkHeap (map f (data_ h)) (root_cmp_cache_ h) in
  mkMerging (children_ m) (f <$> current_ m) (status_ m) (direction_ m) (on_heap (minHeap_ m))
    (on_heap <$> maxHeap_ m) (prefix_seek_mode_ m) (local_ m).

(** [auto new_wrapper = children_.back()] is a copy: the pointer kept in the
    heap is that of the local variable. *)
Definition AddIterator (iter : I) (moved : bool) (m : MergingIterator) : R MergingIterator :=
  _ ← assert (bool_decide (direction_ m = kForward));
  w ← wrapper_Set (Some iter) new_wrapper;
  let m := map_pointers (after_growth moved) (set_children (children_ m ++ [w]) m) in
  let m := set_local (Some w) m in
  m ← AddToMinHeapOrCheckStatus Local m;
  m ← (if valid_ w then c ← CurrentForward m; Done (set_current c m) else Done m);
  Done (set_local None (map_pointers after_return m)).

#[export] Instance MergingIterator_iterator : InternalIterator MergingIterator := {
  it_Valid := Valid;
  it_SeekToFirst := SeekToFirst;
  it_SeekToLast := SeekToLast;
  it_Seek := Seek;
  it_SeekForPrev := SeekForPrev;
  it_Next := Next;
  it_NextAndGetResult := NextAndGetResult;
  it_Prev := Prev;
  it_key := key;
  it_value := value;
  it_status := status_;
  it_MayBeOutOfLowerBound := MayBeOutOfLowerBound;
  it_MayBeOutOfUpperBound := MayBeOutOfUpperBound;
}.

(** ** NewMergingIterator and MergeIteratorBuilder *)

(** What both return: an empty iterator, the only child, or a merging iterator. *)
Inductive AnyIterator := EmptyIter (s : Status) | ChildIter (it : I) | MergingIter (m : MergingIterator).

Definition any_call {A} (f : ∀ J, InternalIterator J → J → A) (a : AnyIterator) : A :=
  match a with
  | EmptyIter s => f Status EmptyInternalIterator s
  | ChildIter it => f I _ it
  | MergingIter m => f MergingIterator _ m
  end.
Definition any_move (f : ∀ J, InternalIterator J → J → R J) (a : AnyIterator) : R AnyIterator :=
  match a with
  | EmptyIter s => EmptyIter <$> f Status EmptyInternalIterator s
  | ChildIter it => ChildIter <$> f I _ it
  | MergingIter m => MergingIter <$> f MergingIterator _ m
  end.
Definition any_NextAndGetResult (a : AnyIterator) : R (AnyIterator * option (bytes * bool)) :=
  match a with
  | EmptyIter s => (λ r, (EmptyIter (fst r), snd r)) <$> @it_NextAndGetResult _ _ EmptyInternalIterator s
  | ChildIter it => (λ r, (ChildIter (fst r), snd r)) <$> it_NextAndGetResult it
  | MergingIter m => (λ r, (MergingIter (fst r), snd r)) <$> it_NextAndGetResult m
  end.
#[export] Instance AnyIterator_iterator : InternalIterator AnyIterator := {
  it_Valid := any_call (@it_Valid bytes);
  it_SeekToFirst := any_move (@it_SeekToFirst bytes);
  it_SeekToLast := any_move (@it_SeekToLast bytes);
  it_Seek t := any_move (λ J i, @it_Seek bytes J i t);
  it_SeekForPrev t := any_move (λ J i, @it_SeekForPrev bytes J i t);
  it_Next := any_move (@it_Next bytes);
  it_NextAndGetResult := any_NextAndGetResult;
  it_Prev := any_move (@it_Prev bytes);
  it_key := any_call (@it_key bytes);
  it_value := any_call (@it_value bytes);
  it_status := any_call (@it_status bytes);
  it_MayBeOutOfLowerBound := any_call (@it_MayBeOutOfLowerBound bytes);
  it_MayBeOutOfUpperBound := any_call (@it_MayBeOutOfUpperBound bytes);
}.

Definition NewMergingIterator (children : list I) (prefix_seek_mode : bool) : R AnyIterator :=
  match children with
  | [] => Done (EmptyIter OK)
  | [it] => Done (ChildIter it)
  | _ => m ← new_MergingIterator children prefix_seek_mode; Done (MergingIter m)
  end.

(** [merge_iter] is null once Finish has returned it. *)
Record MergeIteratorBuilder := mkMergeBuilder {
  merge_iter : option MergingIterator;
  first_iter : option I;
  use_merging_iter : bool;
}.
Definition new_MergeIteratorBuilder (prefix_seek_mode : bool) : R MergeIteratorBuilder :=
  m ← new_MergingIterator [] prefix_seek_mode; Done (mkMergeBuilder (Some m) None false).
Definition builder_add (iter : I) (moved : bool) (b : MergeIteratorBuilder) : R MergeIteratorBuilder :=
  m ← checked Undefined (merge_iter b);
  m ← AddIterator iter moved m;
  Done (mkMergeBuilder (Some m) (first_iter b) (use_merging_iter b)).
Definition MergeIteratorBuilder_AddIterator (iter : I) (moved : bool) (b : MergeIteratorBuilder) : R MergeIteratorBuilder :=
  b ← match first_iter b with
      | Some first => if negb (use_merging_iter b) then
                        b ← builder_add first moved b;
                        Done (mkMergeBuilder (merge_iter b) None true)
                      else Done b
      | None => Done b
      end;
  if use_merging_iter b then builder_add iter moved b
  else Done (mkMergeBuilder (merge_iter b) (Some iter) (use_merging_iter b)).
(** [None] is a null pointer. *)
Definition MergeIteratorBuilder_Finish (b : MergeIteratorBuilder) : option AnyIterator * MergeIteratorBuilder :=
  if negb (use_merging_iter b) then
    (ChildIter <$> first_iter b, mkMergeBuilder (merge_iter b) None (use_merging_iter b))
  else (MergingIter <$> merge_iter b, mkMergeBuilder None (first_iter b) (use_merging_iter b)).
End merging.
