(* ===== verification/MergingCorrect.v ===== *)
(** * Merging iterators: theorems

    Over children that keep the laws of InternalIterator, the merging iterator
    keeps them too: it is a cursor on the union of their entries. What
    considerStatus reports, and what AddIterator leaves in the heap. *)
From S2P Require Import Prelude Result Status Comparator Cursor Heap IteratorWrapper MergingIterator.

(** ** The union *)
Section union.
Context `{C : Comparator, !ComparatorLaws C}.
#[local] Abbreviation sorted := (sorted Compare).
Context {kvs : list (bytes * bytes)} {cs : list (list (bytes * bytes))} (U : union_of kvs cs).

Lemma union_sorted i c : cs !! i = Some c → sorted c.
Proof. intros Hi. destruct U as (_ & _ & Hc). by eapply (Forall_lookup_1 _ cs). Qed.

(** The union's next entry is that of one child; no child's comes before it. *)
Lemma union_entry dir P k v :
  downward P → dir_entry dir P kvs = Some (k, v) →
  (∃ i c, cs !! i = Some c ∧ dir_entry dir P c = Some (k, v)) ∧
  ∀ i c k' v', cs !! i = Some c → dir_entry dir P c = Some (k', v') → later dir k k' = false.
Proof.
  intros HP He. destruct (dir_entry_first dir P kvs k v (proj1 U) HP He) as (Hin & Hside & Hmin). split.
  - apply (union_elem kvs cs _ U) in Hin as (i & c & Hi & Hc). exists i, c. split; [done|].
    pose proof (union_sorted i c Hi) as Hs. destruct (dir_entry dir P c) as [[k' v']|] eqn:E.
    + destruct (dir_entry_first dir P c k' v' Hs HP E) as (Hin' & Hside' & Hmin').
      assert (Compare k k' = 0) as Heq.
      { apply (later_eq dir); [|by eapply Hmin']. eapply (Hmin k' v'); [|done]. apply (union_elem kvs cs _ U). eauto. }
      by destruct (union_same kvs cs i i c c (k, v) (k', v') U Hi Hi Hc Hin' Heq) as [_ <-].
    + by rewrite (dir_entry_last dir P c k v Hs HP E Hc) in Hside.
  - intros i c k' v' Hi E. destruct (dir_entry_first dir P c k' v' (union_sorted i c Hi) HP E) as (Hin' & Hside' & _).
    eapply (Hmin k' v'); [|done]. apply (union_elem kvs cs _ U). eauto.
Qed.
Lemma union_no_entry dir P : downward P → dir_entry dir P kvs = None → ∀ i c, cs !! i = Some c → dir_entry dir P c = None.
Proof.
  intros HP Hn i c Hi. destruct (dir_entry dir P c) as [[k v]|] eqn:E; [|done].
  destruct (dir_entry_first dir P c k v (union_sorted i c Hi) HP E) as (Hin & Hside & _).
  rewrite (dir_entry_last dir P kvs k v (proj1 U) HP Hn) in Hside; [done|]. apply (union_elem kvs cs _ U). eauto.
Qed.

(** Moving on, or turning, changes no position but that of the child at [k]. *)
Lemma other_positions dir P Q i j c k v d :
  downward P → downward Q → cs !! i = Some c → dir_entry dir P c = Some (k, v) →
  dir_entry dir P kvs = Some (k, v) → cs !! j = Some d → j ≠ i →
  Q = past dir k ∨ Q = from dir k → dir_pos dir Q d = dir_pos dir P d.
Proof.
  intros HP HQ Hi Ec Ek Hj Hne HQk. enough (count Q d = count P d) as E.
  { unfold dir_pos. destruct dir; by rewrite E. }
  apply count_ext. intros k' v' Hin.
  destruct (dir_entry_first dir P kvs k v (proj1 U) HP Ek) as (_ & Hside & Hmin).
  destruct (dir_entry_first dir P c k v (union_sorted i c Hi) HP Ec) as (Hinc & _ & _).
  assert (Compare k' k ≠ 0) as Hneq.
  { intros E. by destruct (union_same kvs cs j i d c (k', v') (k, v) U Hj Hi Hin Hinc E). }
  assert ((k', v') ∈ kvs) as Hkin by (apply (union_elem kvs cs _ U); eauto).
  specialize (Hmin k' v' Hkin). pose proof (Compare_flip k k') as F1. pose proof (Compare_flip k' k) as F2.
  assert (Q k' = (Compare k' k <? 0)) as ->.
  { destruct HQk as [-> | ->], dir; cbn; unfold upto, less; try done;
      destruct (Z.ltb_spec (Compare k' k) 0), (Z.leb_spec (Compare k' k) 0); try done; lia. }
  destruct dir; cbn in *.
  - apply negb_true_iff in Hside. destruct (P k') eqn:EP; cbn in Hmin.
    + apply Z.ltb_lt. destruct (decide (Compare k' k < 0)) as [|Hn]; [done|]. by rewrite (HP k k' ltac:(lia) EP) in Hside.
    + specialize (Hmin eq_refl). apply Z.ltb_ge in Hmin. apply Z.ltb_ge. lia.
  - destruct (P k') eqn:EP; cbn in Hmin.
    + specialize (Hmin eq_refl). apply Z.ltb_ge in Hmin. apply Z.ltb_lt. lia.
    + apply Z.ltb_ge. destruct (decide (Compare k' k < 0)) as [Hlt|]; [|lia]. by rewrite (HP k' k Hlt Hside) in EP.
Qed.
End union.

(** ** Wrappers *)

Section merging.
Context {I : Type} `{C : Comparator, !ComparatorLaws C} `{Build}.
Context `{II : InternalIterator I, L : !IteratorLaws Compare I}.
#[local] Abbreviation MergingIterator := (MergingIterator (I := I)).
#[local] Abbreviation IteratorWrapper := (IteratorWrapper (I := I)).

(** ** Children and heap *)

Context {kvs : list (bytes * bytes)} {cs : list (list (bytes * bytes))} (U : union_of kvs cs).

Definition child_key (dir : Direction) (P : bytes → bool) (p : Pointer) : bytes :=
  match p with
  | Child i => from_option fst [] (cs !! i ≫= λ c, dir_entry dir P c)
  | _ => []
  end.
Definition heap_lt (dir : Direction) (P : bytes → bool) (a b : Pointer) : bool :=
  later dir (child_key dir P a) (child_key dir P b).

Definition heap_of (dir : Direction) (m : MergingIterator) : option (BinaryHeap Pointer) :=
  match dir with kForward => Some (minHeap_ m) | kReverse => maxHeap_ m end.
Definition set_heap (dir : Direction) (h : BinaryHeap Pointer) (m : MergingIterator) : MergingIterator :=
  match dir with kForward => set_minHeap h m | kReverse => set_maxHeap (Some h) m end.
Definition comparator (dir : Direction) (m : MergingIterator) : Pointer → Pointer → R bool :=
  match dir with kForward => min_comparator m | kReverse => max_comparator m end.
Definition add_child (dir : Direction) : Pointer → MergingIterator → R MergingIterator :=
  match dir with kForward => AddToMinHeapOrCheckStatus | kReverse => AddToMaxHeapOrCheckStatus end.
Definition current_of (dir : Direction) : MergingIterator → R (option Pointer) :=
  match dir with kForward => CurrentForward | kReverse => CurrentReverse end.

(** The heap holds exactly the first [a] children that are valid. *)
Record heap_holds (dir : Direction) (P : bytes → bool) (a : nat) (h : BinaryHeap Pointer) : Prop := {
  hh_ok : heap_ok (heap_lt dir P) h;
  hh_nodup : NoDup (data_ h);
  hh_elem : ∀ p, p ∈ data_ h ↔ ∃ i c, p = Child i ∧ (i < a)%nat ∧ cs !! i = Some c ∧ is_Some (dir_entry dir P c);
}.
Definition children_at (dir : Direction) (P : bytes → bool) (a : nat) (m : MergingIterator) : Prop :=
  ∀ i c, (i < a)%nat → cs !! i = Some c → ∃ w, children_ m !! i = Some w ∧ wrapper_at c (dir_pos dir P c) w.

Lemma heap_lt_asym dir P a b : heap_lt dir P a b = true → heap_lt dir P b a = false.
Proof. apply later_asym. Qed.
Lemma heap_lt_trans dir P a b c : heap_lt dir P a b = false → heap_lt dir P b c = false → heap_lt dir P a c = false.
Proof. apply later_nlt_trans. Qed.

Lemma key_at_child dir P m i c w :
  cs !! i = Some c → children_ m !! i = Some w → wrapper_at c (dir_pos dir P c) w → is_Some (dir_entry dir P c) →
  key_at (Child i) m = Done (child_key dir P (Child i)).
Proof.
  intros Hi Hw Hat [kv Hkv]. unfold key_at, load. rewrite Hw. cbn [checked mbind R_bind].
  destruct (dir_entry_Some dir P c kv Hkv) as (j & Hj & Hlk). rewrite Hj in Hat.
  rewrite (wrapper_key_spec c j w kv Hat Hlk). cbn [child_key]. rewrite Hi. cbn. by rewrite Hkv.
Qed.

(** The comparator on children that are where they should be. *)
Definition in_place (dir : Direction) (P : bytes → bool) (m : MergingIterator) (p : Pointer) : Prop :=
  key_at p m = Done (child_key dir P p).
Lemma comparator_spec dir P m a b :
  in_place dir P m a → in_place dir P m b → comparator dir m a b = Done (heap_lt dir P a b).
Proof. unfold in_place. destruct dir; cbn; unfold min_comparator, max_comparator; by intros -> ->. Qed.
Lemma heap_in_place dir P a m h :
  heap_holds dir P a h → children_at dir P a m → Forall (in_place dir P m) (data_ h).
Proof.
  intros Hh Hc. apply Forall_forall. intros p (i & c & -> & Hi & Hci & Hs)%(hh_elem _ _ _ _ Hh).
  destruct (Hc i c Hi Hci) as (w & Hw & Hat). by eapply key_at_child.
Qed.

Lemma children_at_ext dir P a m m' :
  (∀ i, (i < a)%nat → children_ m' !! i = children_ m !! i) → children_at dir P a m → children_at dir P a m'.
Proof. intros E Hc i c Hi Hci. rewrite E by done. by apply Hc. Qed.

(** Adding the next child. *)
Lemma add_child_spec dir P a m h c w :
  heap_of dir m = Some h → heap_holds dir P a h → children_at dir P a m → status_ m = OK →
  cs !! a = Some c → children_ m !! a = Some w → wrapper_at c (dir_pos dir P c) w →
  ∃ h', add_child dir (Child a) m = Done (set_heap dir h' m) ∧ heap_holds dir P (S a) h'.
Proof.
  intros Hof Hh Hc Hst Hca Hw Hat.
  assert (∀ m0, m0 = m → considerStatus OK m0 = m) as Hcons by (by intros ? ->).
  destruct Hat as (it & Eit & Hit & Hv & Hk). assert (wrapper_at c (dir_pos dir P c) w) as Hat by by exists it.
  destruct (dir_entry dir P c) as [kv|] eqn:Ee.
  - assert (is_Some (dir_pos dir P c)) as Hs by (apply dir_entry_is_Some; by rewrite Ee).
    rewrite bool_decide_eq_true_2 in Hv by done.
    assert (in_place dir P m (Child a)) as Hin by (eapply key_at_child; [done..|by rewrite Ee]).
    destruct (push_spec (comparator dir m) (heap_lt dir P) (in_place dir P m)
                (comparator_spec dir P m) (heap_lt_asym dir P) (heap_lt_trans dir P) (Child a) h)
      as (h' & Ep & Hok' & Hp'); [apply Hh|by eapply heap_in_place|done|].
    exists h'. split.
    + destruct dir; cbn in Hof, Ep |- *; unfold AddToMinHeapOrCheckStatus, AddToMaxHeapOrCheckStatus, load; rewrite Hw;
        cbn [checked mbind R_bind]; rewrite Hv, (wrapper_status_ok c _ w Hat), ?Hof; cbn [checked mbind R_bind].
      * injection Hof as ->. by rewrite Ep.
      * by rewrite Ep.
    + assert (Child a ∉ data_ h) as Hni.
      { intros (i & ? & [= <-] & ? & _)%(hh_elem _ _ _ _ Hh). lia. }
      split; [done| |].
      * rewrite Hp'. apply NoDup_cons. split; [done|apply Hh].
      * intros p. rewrite Hp', elem_of_cons, (hh_elem _ _ _ _ Hh). split.
        -- intros [-> | (i & d & -> & Hi & ? & ?)]; [exists a, c|exists i, d]; split_and!; try done; try lia; by rewrite Ee.
        -- intros (i & d & -> & Hi & Hd & Hs'). destruct (decide (i = a)) as [->|]; [by left|right].
           exists i, d. split_and!; try done. lia.
  - assert (dir_pos dir P c = None) as Epos by (apply eq_None_not_Some; rewrite <- dir_entry_is_Some, Ee; by intros [? [=]]).
    rewrite Epos, bool_decide_eq_false_2 in Hv by (by intros [? [=]]). exists h. split.
    + assert (set_heap dir h m = m) as ->.
      { destruct dir; cbn in Hof |- *; [injection Hof as <-|unfold set_maxHeap; rewrite <- Hof]; by destruct m. }
      destruct dir; cbn; unfold AddToMinHeapOrCheckStatus, AddToMaxHeapOrCheckStatus, load; rewrite Hw;
        cbn [checked mbind R_bind]; rewrite Hv, (wrapper_status_spec c _ w Hat); cbn [mbind R_bind]; by rewrite Hcons.
    + split; [apply Hh|apply Hh|]. intros p. rewrite (hh_elem _ _ _ _ Hh). split.
      * intros (i & d & -> & Hi & ? & ?). exists i, d. split_and!; try done. lia.
      * intros (i & d & -> & Hi & Hd & Hs'). exists i, d. split_and!; try done.
        destruct (decide (i = a)) as [->|]; [|lia]. rewrite Hca in Hd. injection Hd as <-. rewrite Ee in Hs'. by destruct Hs'.
Qed.

(** ** Filling the heap *)

Lemma heap_of_store dir p w m : heap_of dir (store p w m) = heap_of dir m.
Proof. by destruct dir, p. Qed.
Lemma heap_of_set dir h m : heap_of dir (set_heap dir h m) = Some h.
Proof. by destruct dir. Qed.
Lemma set_heap_children dir h m : children_ (set_heap dir h m) = children_ m.
Proof. by destruct dir. Qed.
Lemma set_heap_fields dir h m :
  status_ (set_heap dir h m) = status_ m ∧ current_ (set_heap dir h m) = current_ m ∧
  direction_ (set_heap dir h m) = direction_ m ∧ prefix_seek_mode_ (set_heap dir h m) = prefix_seek_mode_ m.
Proof. by destruct dir. Qed.

Lemma fill_spec dir P (move : nat → MergingIterator → R MergingIterator) m0 :
  length (children_ m0) = length cs →
  (∀ i c w m, cs !! i = Some c → children_ m0 !! i = Some w → children_ m !! i = Some w → current_ m = current_ m0 →
     ∃ w', move i m = Done (store (Child i) w' m) ∧ wrapper_at c (dir_pos dir P c) w') →
  ∀ n a m h, (a + n = length cs)%nat → length (children_ m) = length cs →
    (∀ i, (a ≤ i)%nat → children_ m !! i = children_ m0 !! i) → current_ m = current_ m0 →
    children_at dir P a m → heap_of dir m = Some h → heap_holds dir P a h → status_ m = OK →
    ∃ m' h', for_each (seq a n) (λ i m, m ← move i m; add_child dir (Child i) m) m = Done m' ∧
      children_at dir P (length cs) m' ∧ heap_of dir m' = Some h' ∧ heap_holds dir P (length cs) h' ∧
      length (children_ m') = length cs ∧ status_ m' = OK ∧
      current_ m' = current_ m0 ∧ direction_ m' = direction_ m ∧ prefix_seek_mode_ m' = prefix_seek_mode_ m.
Proof.
  intros Hlen0 Hmove. induction n as [|n IH]; intros a m h Han Hlen Hrest Hcur Hc Hof Hh Hst; cbn [seq for_each].
  { exists m, h. replace (length cs) with a in * by lia. by split_and!. }
  destruct (lookup_lt_is_Some_2 cs a) as [c Hca]; [lia|].
  destruct (lookup_lt_is_Some_2 (children_ m0) a) as [w Hw0]; [lia|].
  assert (children_ m !! a = Some w) as Hw by by rewrite Hrest by lia.
  destruct (Hmove a c w m Hca Hw0 Hw Hcur) as (w' & -> & Hat). cbn [mbind R_bind].
  set (m1 := store (Child a) w' m).
  assert (children_ m1 = <[a := w']> (children_ m)) as Hch by done.
  assert (children_at dir P a m1) as Hc1.
  { apply (children_at_ext dir P a m); [|done]. intros i Hi. rewrite Hch. by apply list_lookup_insert_ne; lia. }
  assert (children_ m1 !! a = Some w') as Hw1 by (rewrite Hch; apply list_lookup_insert_eq; lia).
  destruct (add_child_spec dir P a m1 h c w') as (h' & -> & Hh'); [by rewrite <- Hof; apply heap_of_store|done..|].
  cbn [mbind R_bind]. destruct (set_heap_fields dir h' m1) as (Es & Ec & Ed & Ep).
  destruct (IH (S a) (set_heap dir h' m1) h') as (m' & h2 & E & HR).
  - lia.
  - by rewrite set_heap_children, Hch, length_insert.
  - intros i Hi. rewrite set_heap_children, Hch, list_lookup_insert_ne by lia. apply Hrest. lia.
  - by rewrite Ec.
  - apply (children_at_ext dir P (S a) m1); [intros; by rewrite set_heap_children|].
    intros i d Hi Hd. destruct (decide (i = a)) as [->|]; [|apply Hc1; [lia|done]].
    rewrite Hca in Hd. injection Hd as <-. eauto.
  - apply heap_of_set.
  - done.
  - by rewrite Es.
  - exists m', h2. rewrite Ed, Ep in HR. split; [exact E|]. by destruct HR as (?&?&?&?&?&?&?&?); split_and!.
Qed.

(** ** The state in a direction *)

Record merging_dir (dir : Direction) (P : bytes → bool) (m : MergingIterator) : Prop := {
  md_length : length (children_ m) = length cs;
  md_children : children_at dir P (length cs) m;
  md_direction : direction_ m = dir;
  md_status : status_ m = OK;
  md_heap : ∃ h, heap_of dir m = Some h ∧ heap_holds dir P (length cs) h ∧ current_ m = head (data_ h);
}.

Lemma current_of_spec dir m h : direction_ m = dir → heap_of dir m = Some h → current_of dir m = Done (head (data_ h)).
Proof.
  intros Hd Hof. destruct dir; cbn in Hof |- *; unfold CurrentForward, CurrentReverse; rewrite Hd, bool_decide_eq_true_2, assert_true by done;
    cbn [mbind R_bind].
  - injection Hof as <-. unfold Heap.empty, Heap.top. destruct (data_ (minHeap_ m)) as [|p l] eqn:E.
    + by rewrite bool_decide_eq_true_2.
    + rewrite bool_decide_eq_false_2 by done. unfold Heap.empty. rewrite E, bool_decide_eq_false_2 by done.
      cbn [negb]. by rewrite assert_true.
  - rewrite Hof, bool_decide_eq_true_2, assert_true by done. cbn [mbind R_bind checked].
    unfold Heap.empty, Heap.top. destruct (data_ h) as [|p l] eqn:E.
    + by rewrite bool_decide_eq_true_2.
    + rewrite bool_decide_eq_false_2 by done. unfold Heap.empty. rewrite E, bool_decide_eq_false_2 by done.
      cbn [negb]. by rewrite assert_true.
Qed.

(** The child at the top is the one at the union's entry. *)
Lemma current_entry dir P m :
  downward P → merging_dir dir P m →
  match dir_entry dir P kvs with
  | Some kv => ∃ i c, current_ m = Some (Child i) ∧ cs !! i = Some c ∧ dir_entry dir P c = Some kv
  | None => current_ m = None
  end.
Proof.
  intros HP [_ _ _ _ (h & _ & Hh & ->)]. destruct (dir_entry dir P kvs) as [[k v]|] eqn:E.
  - destruct (union_entry U dir P k v HP E) as ((i & c & Hi & Hc) & Hmin).
    assert (Child i ∈ data_ h) as Hin.
    { apply (hh_elem _ _ _ _ Hh). exists i, c. split_and!; [done|by eapply lookup_lt_Some|done|by rewrite Hc]. }
    destruct (top_greatest (heap_lt dir P) (heap_lt_asym dir P) (heap_lt_trans dir P) h (Child i)) as (p & Ht & Hp & Hlt);
      [apply Hh|done|].
    destruct (data_ h) as [|p' l] eqn:Ed; [by apply not_elem_of_nil in Hin|]. cbn [head].
    unfold Heap.top, Heap.empty in Ht. rewrite Ed, bool_decide_eq_false_2 in Ht by done. cbn [negb] in Ht.
    rewrite assert_true in Ht. injection Ht as ->. rewrite <- Ed in Hp.
    apply (hh_elem _ _ _ _ Hh) in Hp as (j & d & -> & Hj & Hd & [[k' v'] Hkv']).
    unfold heap_lt, child_key in Hlt. rewrite Hi, Hd in Hlt. cbn in Hlt. rewrite Hc, Hkv' in Hlt. cbn in Hlt.
    pose proof (Hmin j d k' v' Hd Hkv') as Hlt2. pose proof (later_eq dir k k' Hlt2 Hlt) as Heq.
    destruct (dir_entry_first dir P c k v (union_sorted U i c Hi) HP Hc) as (Hink & _ & _).
    destruct (dir_entry_first dir P d k' v' (union_sorted U j d Hd) HP Hkv') as (Hink' & _ & _).
    destruct (union_same kvs cs i j c d (k, v) (k', v') U Hi Hd Hink Hink' Heq) as [<- [= <- <-]].
    exists i, d. by split_and!.
  - destruct (data_ h) as [|p l] eqn:Ed; [done|]. assert (p ∈ data_ h) as Hp by (rewrite Ed; by left).
    apply (hh_elem _ _ _ _ Hh) in Hp as (j & d & -> & Hj & Hd & Hs).
    rewrite (union_no_entry U dir P HP E j d Hd) in Hs. by destruct Hs.
Qed.

(** ** Seeks *)

Record loose (m : MergingIterator) : Prop := {
  lo_length : length (children_ m) = length cs;
  lo_children : ∀ i c, cs !! i = Some c → ∃ w pos, children_ m !! i = Some w ∧ wrapper_at c pos w;
}.
Lemma merging_dir_loose dir P m : merging_dir dir P m → loose m.
Proof.
  intros [Hl Hc _ _ _]. split; [done|]. intros i c Hi.
  destruct (Hc i c) as (w & Hw & Hat); [by eapply lookup_lt_Some|done|]. eauto.
Qed.

Lemma empty_heap_holds dir P : heap_holds dir P 0 (mkHeap [] None).
Proof.
  split.
  - split; cbn; [by intros ? ? ? ? [=]|by intros ? ? [=]].
  - constructor.
  - intros p. cbn. rewrite elem_of_nil. split; [done|]. intros (i & c & _ & ? & _). lia.
Qed.

Definition finish (dir : Direction) (m : MergingIterator) : R MergingIterator :=
  let m := set_direction dir m in c ← current_of dir m; Done (set_current c m).
Lemma finish_spec dir P m h :
  length (children_ m) = length cs → children_at dir P (length cs) m → heap_of dir m = Some h →
  heap_holds dir P (length cs) h → status_ m = OK → ∃ m', finish dir m = Done m' ∧ merging_dir dir P m'.
Proof.
  intros Hl Hc Hof Hh Hst. unfold finish. rewrite (current_of_spec dir (set_direction dir m) h); [|done|by destruct dir].
  cbn [mbind R_bind]. eexists. split; [done|]. split; [done|done|done|done|]. exists h. by destruct dir.
Qed.

Lemma reset_spec dir P o m :
  (∀ pos, cursor_may o pos = true) → (∀ (c : list (bytes * bytes)) pos, sorted Compare c → cursor_step Compare c o pos = dir_pos dir P c) →
  loose m → heap_of dir m = Some (mkHeap [] None) → status_ m = OK →
  ∃ m', (m ← for_children (λ i m, m ← update (Child i) (wrapper_move (it_step o)) m; add_child dir (Child i) m) m;
         finish dir m) = Done m' ∧ merging_dir dir P m'.
Proof.
  intros Hmay Hstep [Hl Hc] Hof Hst. unfold for_children. rewrite Hl.
  destruct (fill_spec dir P (λ i, update (Child i) (wrapper_move (it_step o))) m Hl) with (n := length cs) (a := 0%nat) (m := m)
    (h := @mkHeap Pointer [] None) as (m' & h' & -> & ? & ? & ? & ? & ? & _); try done.
  - intros i c w m1 Hi Hw0 Hw1 _. destruct (Hc i c Hi) as (w2 & pos & Hw2 & Hat). rewrite Hw0 in Hw2. injection Hw2 as <-.
    unfold update, load. rewrite Hw1. cbn [checked mbind R_bind].
    destruct (wrapper_move_spec c pos w o Hat (Hmay pos)) as (w' & -> & Hat'). cbn [mbind R_bind].
    rewrite (Hstep c pos (union_sorted U i c Hi)) in Hat'. eauto.
  - intros i c Hi. lia.
  - apply empty_heap_holds.
  - cbn [mbind R_bind]. by apply (finish_spec dir P m' h').
Qed.

Lemma cleared dir m :
  loose m → let m1 := set_status OK (match dir with kForward => ClearHeaps m | kReverse => InitMaxHeap (ClearHeaps m) end) in
  loose m1 ∧ heap_of dir m1 = Some (mkHeap [] None) ∧ status_ m1 = OK.
Proof.
  intros [Hl Hc]. destruct dir; cbn; [by split_and!|]. unfold InitMaxHeap, ClearHeaps. cbn.
  destruct (maxHeap_ m); cbn; by split_and!.
Qed.
Lemma seek_spec o m :
  is_seek o = true → loose m → ∃ m', it_step o m = Done m' ∧ merging_dir (seek_dir o) (seek_test o) m'.
Proof.
  intros Ho Hm. destruct (cleared (seek_dir o) m Hm) as (Hl & Hh & Hs).
  destruct (reset_spec (seek_dir o) (seek_test o) o _ (λ pos, ltac:(by destruct o)) (λ c pos, seek_position o c pos Ho) Hl Hh Hs) as (m' & E & Hd).
  exists m'. split; [|done]. rewrite <- E. by destruct o.
Qed.

(** ** Moving on *)

Lemma at_current i c j w kv m :
  current_ m = Some (Child i) → status_ m = OK → children_ m !! i = Some w → wrapper_at c (Some j) w → c !! j = Some kv →
  Valid m = true ∧ key m = Done (fst kv) ∧ value m = Done (snd kv).
Proof.
  intros Hcur Hst Hw Hat Hkv.
  assert (Valid m = true) as Hv by (unfold Valid; by rewrite Hcur, Hst).
  unfold key, value, current_wrapper. rewrite Hv, assert_true, Hcur. cbn [mbind R_bind checked load]. rewrite Hw.
  cbn [mbind R_bind checked]. by rewrite (wrapper_key_spec c j w kv Hat Hkv), (wrapper_value_spec c j w kv Hat Hkv).
Qed.

Definition move_on (dir : Direction) : IteratorWrapper → R IteratorWrapper :=
  match dir with kForward => wrapper_Next | kReverse => wrapper_move it_Prev end.
Lemma move_on_spec dir c j k v w :
  sorted Compare c → wrapper_at c (Some j) w → c !! j = Some (k, v) →
  ∃ w', move_on dir w = Done w' ∧ wrapper_at c (dir_pos dir (past dir k) c) w'.
Proof.
  intros Hs Hat Hj. destruct dir; cbn.
  - destruct (wrapper_Next_spec c j w eq_refl Hat) as (w' & E & Hat'). rewrite (next_position j k v) in Hat' by done. eauto.
  - destruct (wrapper_move_spec c (Some j) w CPrev Hat eq_refl) as (w' & E & Hat').
    rewrite (prev_position j k v) in Hat' by done. eauto.
Qed.

(** Next and Prev, once the direction is theirs. *)
Definition advance (dir : Direction) (m : MergingIterator) : R MergingIterator :=
  p ← checked Undefined (current_ m);
  m ← update p (move_on dir) m;
  w ← load p m;
  m ← (if valid_ w then
         _ ← debug_assert (s ← wrapper_status w; Done (ok s));
         h ← checked Undefined (heap_of dir m);
         h ← Heap.replace_top (comparator dir m) p h;
         Done (set_heap dir h m)
       else
         s ← wrapper_status w;
         let m := considerStatus s m in
         h ← checked Undefined (heap_of dir m);
         h ← Heap.pop (comparator dir m) h;
         Done (set_heap dir h m));
  c ← current_of dir m; Done (set_current c m).

(** The heap after the child at its top moved on. *)
Lemma heap_moved dir P Q i c h h' rest :
  heap_holds dir P (length cs) h → data_ h = Child i :: rest → cs !! i = Some c → heap_ok (heap_lt dir Q) h' →
  (∀ j d, cs !! j = Some d → j ≠ i → dir_entry dir Q d = dir_entry dir P d) →
  (if dir_entry dir Q c then data_ h' ≡ₚ Child i :: rest else data_ h' ≡ₚ rest) →
  heap_holds dir Q (length cs) h'.
Proof.
  intros [_ Hnd Hel] E Hi Hok Hother Hp. rewrite E in Hnd, Hel. apply NoDup_cons in Hnd as [Hni Hnd].
  assert (∀ p, p ∈ rest ↔ ∃ j d, p = Child j ∧ (j < length cs)%nat ∧ cs !! j = Some d ∧ is_Some (dir_entry dir Q d) ∧ j ≠ i) as Hrest.
  { intros p. specialize (Hel p). rewrite elem_of_cons in Hel. split.
    - intros Hp'. destruct (proj1 Hel (or_intror Hp')) as (j & d & -> & Hj & Hd & Hs).
      assert (j ≠ i) by (intros ->; done). exists j, d. rewrite (Hother j d) by done. by split_and!.
    - intros (j & d & -> & Hj & Hd & Hs & Hne). rewrite (Hother j d) in Hs by done.
      destruct (proj2 Hel) as [[= ->]|]; [|done..]. exists j, d. by split_and!. }
  pose proof (lookup_lt_Some _ _ _ Hi). destruct (dir_entry dir Q c) as [kv|] eqn:Ec; split; try done.
  - rewrite Hp. by apply NoDup_cons.
  - intros p. rewrite Hp, elem_of_cons, Hrest. split.
    + intros [-> | (j & d & -> & ? & ? & ? & _)]; [exists i, c|exists j, d]; split_and!; try done; by rewrite Ec.
    + intros (j & d & -> & ? & ? & ?). destruct (decide (j = i)) as [->|]; [by left|right; exists j, d; by split_and!].
  - by rewrite Hp.
  - intros p. rewrite Hp, Hrest. split.
    + intros (j & d & -> & ? & ? & ? & _). exists j, d. by split_and!.
    + intros (j & d & -> & ? & Hd & Hs). exists j, d. split_and!; try done. intros ->.
      rewrite Hi in Hd. injection Hd as <-. rewrite Ec in Hs. by destruct Hs.
Qed.

Lemma set_direction_id dir (m : MergingIterator) : direction_ m = dir → set_direction dir m = m.
Proof. intros <-. by destruct m. Qed.
Lemma considerStatus_OK (m : MergingIterator) : considerStatus OK m = m.
Proof. done. Qed.

Lemma heap_advance_spec dir P m k v :
  downward P → merging_dir dir P m → dir_entry dir P kvs = Some (k, v) →
  ∃ m', advance dir m = Done m' ∧ merging_dir dir (past dir k) m'.
Proof.
  intros HP Hm Ek. pose proof (current_entry dir P m HP Hm) as Hcur. rewrite Ek in Hcur.
  destruct Hcur as (i & c & Hcur & Hi & Ec). destruct Hm as [Hlen Hch Hdir Hst (h & Hof & Hh & Hhead)].
  set (Q := past dir k). pose proof (past_downward dir k) as HQ. fold Q in HQ.
  pose proof (lookup_lt_Some _ _ _ Hi) as Hil. destruct (Hch i c Hil Hi) as (w & Hw & Hat).
  destruct (dir_entry_Some dir P c _ Ec) as (j & Hj & Hlk). rewrite Hj in Hat.
  destruct (move_on_spec dir c j k v w (union_sorted U i c Hi) Hat Hlk) as (w' & Emv & Hat'). fold Q in Hat'.
  unfold advance, update, load. rewrite Hcur. cbn [checked mbind R_bind]. rewrite Hw. cbn [checked mbind R_bind].
  rewrite Emv. cbn [mbind R_bind]. set (m1 := store (Child i) w' m).
  assert (children_ m1 = <[i := w']> (children_ m)) as Hch1 by done.
  assert (children_ m1 !! i = Some w') as Hw1 by (rewrite Hch1; apply list_lookup_insert_eq; lia).
  rewrite Hw1. cbn [checked mbind R_bind].
  assert (∀ j d, cs !! j = Some d → j ≠ i → dir_pos dir Q d = dir_pos dir P d) as Hother.
  { intros j' d Hd Hne. by apply (other_positions U dir P Q i j' c k v d HP HQ Hi Ec Ek Hd Hne); left. }
  assert (∀ j d, cs !! j = Some d → j ≠ i → dir_entry dir Q d = dir_entry dir P d) as Hentry.
  { intros j' d Hd Hne. unfold dir_entry. by rewrite (Hother j' d). }
  assert (children_at dir Q (length cs) m1) as Hc1.
  { intros j' d Hj' Hd. rewrite Hch1. destruct (decide (j' = i)) as [->|Hne].
    - rewrite Hi in Hd. injection Hd as <-. exists w'. rewrite list_lookup_insert_eq by lia. done.
    - rewrite list_lookup_insert_ne, (Hother j' d) by done. by apply Hch. }
  assert (heap_of dir m1 = Some h) as Hof1 by by destruct dir.
  rewrite Hcur in Hhead. destruct (data_ h) as [|p rest] eqn:Ed; [done|]. injection Hhead as <-.
  assert (∀ p, p ∈ rest → child_key dir P p = child_key dir Q p) as Hkeys.
  { intros p Hp. destruct (proj1 (hh_elem _ _ _ _ Hh p)) as (j' & d & -> & _ & Hd & _); [rewrite Ed; by right|].
    cbn. rewrite Hd. cbn. rewrite (Hentry j' d); [done|done|]. intros ->.
    pose proof (hh_nodup _ _ _ _ Hh) as Hnd. rewrite Ed in Hnd. by apply NoDup_cons in Hnd as [? _]. }
  assert (∀ w0, heap_below (heap_lt dir Q) (mkHeap (w0 :: rest) (root_cmp_cache_ h))) as Hbelow.
  { intros w0. apply (heap_below_ext (heap_lt dir P) (heap_lt dir Q) (Child i)).
    - pose proof (heap_ok_below _ _ (hh_ok _ _ _ _ Hh)) as Hb. destruct h as [hd hc]. cbn in Ed |- *. by rewrite <- Ed.
    - intros a b Ha Hb. unfold heap_lt. by rewrite !Hkeys. }
  assert (Forall (in_place dir Q m1) rest) as Hin.
  { apply Forall_forall. intros p Hp. destruct (proj1 (hh_elem _ _ _ _ Hh p)) as (j' & d & -> & Hj' & Hd & Hs); [rewrite Ed; by right|].
    destruct (Hc1 j' d Hj' Hd) as (wd & Hwd & Hatd). eapply key_at_child; [done..|]. rewrite (Hentry j' d); [done|done|]. intros ->.
    pose proof (hh_nodup _ _ _ _ Hh) as Hnd. rewrite Ed in Hnd. by apply NoDup_cons in Hnd as [? _]. }
  assert (∀ h', heap_ok (heap_lt dir Q) h' → (if dir_entry dir Q c then data_ h' ≡ₚ Child i :: rest else data_ h' ≡ₚ rest) →
    ∃ m', (c ← current_of dir (set_heap dir h' m1); Done (set_current c (set_heap dir h' m1))) = Done m' ∧ merging_dir dir Q m') as Hfin.
  { intros h' Hok' Hp'. pose proof (heap_moved dir P Q i c h h' rest Hh Ed Hi Hok' Hentry Hp') as Hh'.
    destruct (finish_spec dir Q (set_heap dir h' m1) h') as (m' & E & Hm').
    - by rewrite set_heap_children, Hch1, length_insert.
    - by apply (children_at_ext dir Q _ m1); [intros; rewrite set_heap_children|].
    - apply heap_of_set.
    - done.
    - by destruct dir.
    - exists m'. split; [|done]. rewrite <- E. unfold finish.
      rewrite set_direction_id; [done|]. by destruct (set_heap_fields dir h' m1) as (_ & _ & -> & _). }
  destruct Hat' as (it & Eit & Hit & Hv & Hk). assert (wrapper_at c (dir_pos dir Q c) w') as Hat' by by exists it.
  destruct (dir_entry dir Q c) as [kv'|] eqn:EQ.
  - rewrite Hv, bool_decide_eq_true_2 by (apply dir_entry_is_Some; by rewrite EQ).
    rewrite (wrapper_status_ok c _ w' Hat'), Hof1. cbn [checked mbind R_bind].
    destruct (replace_top_spec (comparator dir m1) (heap_lt dir Q) (in_place dir Q m1) (comparator_spec dir Q m1)
      (heap_lt_asym dir Q) (heap_lt_trans dir Q) (Child i) (Child i) h rest Ed (Hbelow _)) as (h' & -> & Hok' & Hp').
    + constructor; [|done]. eapply key_at_child; [done..|]. by rewrite EQ.
    + cbn [mbind R_bind]. by apply Hfin.
  - rewrite Hv, bool_decide_eq_false_2 by (rewrite <- dir_entry_is_Some, EQ; by intros [? [=]]).
    rewrite (wrapper_status_spec c _ w' Hat'). cbn [checked mbind R_bind]. rewrite considerStatus_OK, Hof1. cbn [checked mbind R_bind].
    destruct (pop_spec (comparator dir m1) (heap_lt dir Q) (in_place dir Q m1) (comparator_spec dir Q m1)
      (heap_lt_asym dir Q) (heap_lt_trans dir Q) (Child i) h rest Ed) as (h' & -> & Hok' & Hp').
    + specialize (Hbelow (Child i)). destruct h as [hd hc]. cbn in Ed |- *. by rewrite Ed.
    + done.
    + cbn [mbind R_bind]. by apply Hfin.
Qed.

(** ** Turning *)

Lemma turn_position dir (c : list (bytes * bytes)) j k v :
  sorted Compare c → c !! j = Some (k, v) → dir_pos dir (from dir k) c = Some j.
Proof.
  intros Hs Hj. pose proof (lookup_lt_Some _ _ _ Hj). destruct dir; cbn.
  - rewrite (count_less_at c j k v Hs Hj). unfold pos_from. by rewrite decide_True.
  - by rewrite (count_upto_at c j k v Hs Hj).
Qed.
Lemma turn_entry dir dir0 P (c : list (bytes * bytes)) k v :
  sorted Compare c → dir_entry dir0 P c = Some (k, v) → dir_entry dir (from dir k) c = Some (k, v).
Proof.
  intros Hs (j & _ & Hj)%dir_entry_Some. unfold dir_entry. by rewrite (turn_position dir c j k v Hs Hj).
Qed.

Definition turn_op (dir : Direction) (t : bytes) : cursor_op :=
  match dir with kForward => CSeek t | kReverse => CSeekForPrev t end.
Lemma turn_op_position dir t (c : list (bytes * bytes)) pos : sorted Compare c → cursor_step Compare c (turn_op dir t) pos = dir_pos dir (from dir t) c.
Proof. intros Hs. destruct dir; [by apply (seek_position (CSeek t))|by apply (seek_position (CSeekForPrev t))]. Qed.

(** One child's turn: the current one stays, another seeks and has no entry to
    step past. *)
Definition turn_child (dir : Direction) (step : IteratorWrapper → R IteratorWrapper) (target : bytes) (i : nat)
    (m : MergingIterator) : R MergingIterator :=
  if bool_decide (Some (Child i) ≠ current_ m) then
    m ← update (Child i) (wrapper_move (it_step (turn_op dir target))) m;
    step_past target step (Child i) m
  else Done m.
Lemma turn_child_spec dir step dir0 P m0 k v i c w m :
  downward P → merging_dir dir0 P m0 → dir_entry dir0 P kvs = Some (k, v) →
  cs !! i = Some c → children_ m0 !! i = Some w → children_ m !! i = Some w → current_ m = current_ m0 →
  ∃ w', turn_child dir step k i m = Done (store (Child i) w' m) ∧ wrapper_at c (dir_pos dir (from dir k) c) w'.
Proof.
  intros HP Hm Ek Hi Hw0 Hw Ecur. pose proof (current_entry dir0 P m0 HP Hm) as Hcur. rewrite Ek in Hcur.
  destruct Hcur as (i0 & c0 & Hcur & Hi0 & Ec0). destruct Hm as [_ Hch _ _ _].
  destruct (Hch i c) as (w2 & Hw2 & Hat); [by eapply lookup_lt_Some|done|]. rewrite Hw0 in Hw2. injection Hw2 as <-.
  pose proof (union_sorted U i c Hi) as Hs. unfold turn_child. rewrite Ecur, Hcur. case_bool_decide as Hne.
  - unfold update at 1, load at 1. rewrite Hw. cbn [checked mbind R_bind].
    destruct (wrapper_move_spec c (dir_pos dir0 P c) w (turn_op dir k) Hat) as (w' & -> & Hat'); [by destruct dir|].
    cbn [mbind R_bind]. rewrite turn_op_position in Hat' by done. exists w'. split; [|done].
    unfold step_past, load. assert (children_ (store (Child i) w' m) !! i = Some w') as ->.
    { cbn. apply list_lookup_insert_eq. by eapply lookup_lt_Some. }
    cbn [checked mbind R_bind]. destruct Hat' as (it & Eit & Hit & Hv & Hk).
    assert (wrapper_at c (dir_pos dir (from dir k) c) w') as Hat' by by exists it. rewrite Hv.
    destruct (dir_pos dir (from dir k) c) as [j|] eqn:Ej; [|by rewrite bool_decide_eq_false_2 by (by intros [? [=]])].
    rewrite bool_decide_eq_true_2 by done. destruct (dir_pos_lookup dir _ c j Ej) as [[k' v'] Hj].
    rewrite (wrapper_key_spec c j w' _ Hat' Hj). cbn [mbind R_bind fst].
    destruct (Equal k k') eqn:Eq; [|done]. exfalso. apply Equal_Compare in Eq.
    destruct (dir_entry_first dir0 P c0 k v (union_sorted U i0 c0 Hi0) HP Ec0) as (Hin & _ & _).
    destruct (union_same kvs cs i0 i c0 c (k, v) (k', v') U Hi0 Hi Hin (list_elem_of_lookup_2 _ _ _ Hj) Eq) as [-> _].
    by apply Hne.
  - injection Hne as ->.
    rewrite Hi in Hi0. injection Hi0 as <-. exists w. split.
    + f_equal. cbn. rewrite list_insert_id by done. by destruct m.
    + destruct (dir_entry_Some dir0 P c _ Ec0) as (j & Hj & Hlk). rewrite Hj in Hat.
      by rewrite (turn_position dir c j k v Hs Hlk).
Qed.

Lemma turn_spec dir step dir0 P m m1 k v :
  downward P → merging_dir dir0 P m → dir_entry dir0 P kvs = Some (k, v) →
  children_ m1 = children_ m → current_ m1 = current_ m → status_ m1 = OK → heap_of dir m1 = Some (mkHeap [] None) →
  ∃ m2, for_children (λ i m, m ← turn_child dir step k i m; add_child dir (Child i) m) m1 = Done m2 ∧
    merging_dir dir (from dir k) (set_direction dir m2) ∧ prefix_seek_mode_ m2 = prefix_seek_mode_ m1.
Proof.
  intros HP Hm Ek Ech Ecur Est Hof. unfold for_children.
  assert (length (children_ m1) = length cs) as Hlen by (rewrite Ech; apply Hm). rewrite Hlen.
  destruct (fill_spec dir (from dir k) (turn_child dir step k) m1 Hlen) with (n := length cs) (a := 0%nat) (m := m1)
    (h := @mkHeap Pointer [] None) as (m2 & h & E & Hc2 & Hof2 & Hh2 & Hlen2 & Hst2 & Hcur2 & _ & Hpre); try done.
  - intros i c w m3 Hi Hw1 Hw3 Ecur3. apply (turn_child_spec dir step dir0 P m k v i c w m3 HP Hm Ek Hi); [by rewrite <- Ech|done|congruence].
  - intros i c Hi. lia.
  - apply empty_heap_holds.
  - exists m2. split_and!; [done| |done].
    destruct (finish_spec dir (from dir k) m2 h Hlen2 Hc2 Hof2 Hh2 Hst2) as (m3 & E3 & Hm3).
    assert (dir_entry dir (from dir k) kvs = Some (k, v)) as Ek' by (apply (turn_entry dir dir0 P); [apply U|done]).
    pose proof (current_entry dir _ m3 (from_downward dir k) Hm3) as Hc3. rewrite Ek' in Hc3.
    destruct Hc3 as (i & c & Hc3 & Hi & Ec). pose proof (current_entry dir0 P m HP Hm) as Hc0. rewrite Ek in Hc0.
    destruct Hc0 as (i0 & c0 & Hc0 & Hi0 & Ec0).
    destruct (dir_entry_first dir0 P c0 k v (union_sorted U i0 c0 Hi0) HP Ec0) as (Hin0 & _ & _).
    destruct (dir_entry_first dir _ c k v (union_sorted U i c Hi) (from_downward dir k) Ec) as (Hin & _ & _).
    destruct (union_same kvs cs i0 i c0 c (k, v) (k, v) U Hi0 Hi Hin0 Hin) as [-> _].
    { cbn. pose proof (Compare_flip k k). lia. }
    unfold finish in E3. rewrite (current_of_spec dir (set_direction dir m2) h) in E3 by (done || by destruct dir).
    cbn [mbind R_bind] in E3. injection E3 as <-. cbn in Hc3.
    split; [done|done|done|done|]. exists h. split_and!; [by destruct dir|done|]. cbn. rewrite Hcur2, Ecur. congruence.
Qed.

(** ** Next and Prev *)

Lemma current_reads dir P m k v :
  downward P → merging_dir dir P m → dir_entry dir P kvs = Some (k, v) →
  (∀ m', children_ m' = children_ m → current_ m' = current_ m → status_ m' = OK →
     Valid m' = true ∧ key m' = Done k ∧ value m' = Done v).
Proof.
  intros HP Hm Ek m' Ech Ecur Est. pose proof (current_entry dir P m HP Hm) as Hcur. rewrite Ek in Hcur.
  destruct Hcur as (i & c & Hcur & Hi & Ec). destruct Hm as [_ Hch _ _ _].
  destruct (Hch i c) as (w & Hw & Hat); [by eapply lookup_lt_Some|done|].
  destruct (dir_entry_Some dir P c _ Ec) as (j & Hj & Hlk). rewrite Hj in Hat.
  apply (at_current i c j w (k, v) m'); [congruence|done|congruence|done|done].
Qed.
Lemma current_check dir P m : merging_dir dir P m → debug_assert (c ← current_of dir m; Done (bool_decide (current_ m = c))) = Done tt.
Proof.
  intros [_ _ Hd _ (h & Hof & _ & Hc)]. apply debug_assert_true. rewrite (current_of_spec dir m h) by done.
  cbn. by rewrite bool_decide_eq_true_2.
Qed.

Lemma SwitchToForward_spec dir0 P m k v :
  downward P → merging_dir dir0 P m → dir_entry dir0 P kvs = Some (k, v) →
  ∃ m', SwitchToForward m = Done m' ∧ merging_dir kForward (from kForward k) m'.
Proof.
  intros HP Hm Ek. unfold SwitchToForward.
  destruct (current_reads dir0 P m k v HP Hm Ek (ClearHeaps m)) as (_ & -> & _); [done|done|apply Hm|]. cbn [mbind R_bind].
  destruct (turn_spec kForward wrapper_Next dir0 P m (ClearHeaps m) k v HP Hm Ek) as (m2 & E & Hm2 & _); [done|done|apply Hm|done|].
  exists (set_direction kForward m2). split; [|done]. unfold turn_child in E. cbn [turn_op it_step add_child] in E. by rewrite E.
Qed.
Lemma SwitchToBackward_spec dir0 P m k v :
  downward P → merging_dir dir0 P m → dir_entry dir0 P kvs = Some (k, v) →
  ∃ m', SwitchToBackward m = Done m' ∧ merging_dir kReverse (from kReverse k) m'.
Proof.
  intros HP Hm Ek. unfold SwitchToBackward. set (m1 := InitMaxHeap (ClearHeaps m)).
  assert (children_ m1 = children_ m ∧ current_ m1 = current_ m ∧ status_ m1 = OK ∧ maxHeap_ m1 = Some (mkHeap [] None))
    as (Ech & Ecur & Est & Eh).
  { unfold m1, InitMaxHeap, ClearHeaps. cbn. destruct Hm as [_ _ _ ? _]. by destruct (maxHeap_ m). }
  destruct (current_reads dir0 P m k v HP Hm Ek m1) as (_ & -> & _); [done..|]. cbn [mbind R_bind].
  destruct (turn_spec kReverse (wrapper_move it_Prev) dir0 P m m1 k v HP Hm Ek) as (m2 & E & Hm2 & _); [done..|].
  unfold turn_child in E. cbn [turn_op it_step add_child] in E. rewrite E. cbn [mbind R_bind].
  destruct (md_heap _ _ _ Hm2) as (h & Hof & _ & Hcur).
  exists (set_direction kReverse m2). split; [|done].
  assert (CurrentReverse (set_direction kReverse m2) = Done (current_ (set_direction kReverse m2))) as Ec.
  { rewrite Hcur. by apply (current_of_spec kReverse). }
  assert ((if negb (prefix_seek_mode_ (set_direction kReverse m2))
           then c ← CurrentReverse (set_direction kReverse m2); Done (set_current c (set_direction kReverse m2))
           else Done (set_direction kReverse m2)) = Done (set_direction kReverse m2)) as ->.
  { destruct (negb _); [|done]. rewrite Ec. cbn. by destruct m2. }
  cbn [mbind R_bind]. pose proof (current_check kReverse _ _ Hm2) as Ed. cbn [current_of] in Ed. by rewrite Ed.
Qed.

(** The operations that step, by the direction they step in. *)
Definition switch_to (dir : Direction) : MergingIterator → R MergingIterator :=
  match dir with kForward => SwitchToForward | kReverse => SwitchToBackward end.
Lemma step_unfold dir m :
  it_step (step_op dir) m =
    (_ ← assert (Valid m);
     m ← (if bool_decide (direction_ m ≠ dir) then switch_to dir m else Done m);
     _ ← debug_assert (c ← current_of dir m; Done (bool_decide (current_ m = c)));
     advance dir m).
Proof. by destruct dir. Qed.

Lemma step_spec dir dir0 P m k v :
  downward P → merging_dir dir0 P m → dir_entry dir0 P kvs = Some (k, v) →
  ∃ m', it_step (step_op dir) m = Done m' ∧ merging_dir dir (past dir k) m'.
Proof.
  intros HP Hm Ek. rewrite step_unfold.
  destruct (current_reads dir0 P m k v HP Hm Ek m) as (-> & _); [done|done|apply Hm|].
  rewrite assert_true. cbn [mbind R_bind].
  assert (∃ m1 P1, (if bool_decide (direction_ m ≠ dir) then switch_to dir m else Done m) = Done m1 ∧
    downward P1 ∧ merging_dir dir P1 m1 ∧ dir_entry dir P1 kvs = Some (k, v)) as (m1 & P1 & -> & HP1 & Hm1 & Ek1).
  { case_bool_decide as Hne.
    - assert (∃ m1, switch_to dir m = Done m1 ∧ merging_dir dir (from dir k) m1) as (m1 & E & Hm1).
      { destruct dir; [by eapply SwitchToForward_spec|by eapply SwitchToBackward_spec]. }
      exists m1, (from dir k). split_and!; [done|apply from_downward|done|]. by apply (turn_entry dir dir0 P); [apply U|].
    - destruct (decide (direction_ m = dir)) as [E|]; [|done]. rewrite (md_direction _ _ _ Hm) in E. subst dir0.
      exists m, P. by split_and!. }
  cbn [mbind R_bind]. rewrite (current_check dir P1 m1 Hm1). cbn [mbind R_bind].
  by apply (heap_advance_spec dir P1 m1 k v).
Qed.

(** ** The merging iterator is a cursor *)

Definition merging_at (pos : option nat) (m : MergingIterator) : Prop :=
  loose m ∧ status_ m = OK ∧
  match pos with
  | Some j => ∃ dir P, downward P ∧ merging_dir dir P m ∧ dir_pos dir P kvs = Some j
  | None => current_ m = None
  end.
Lemma merging_dir_at dir P m : downward P → merging_dir dir P m → merging_at (dir_pos dir P kvs) m.
Proof.
  intros HP Hm. split_and!; [by eapply merging_dir_loose|apply Hm|].
  destruct (dir_pos dir P kvs) as [j|] eqn:Ej; [by exists dir, P|].
  pose proof (current_entry dir P m HP Hm) as Hc. unfold dir_entry in Hc. by rewrite Ej in Hc.
Qed.
Lemma merging_at_entry j m :
  merging_at (Some j) m →
  ∃ dir P k v, downward P ∧ merging_dir dir P m ∧ kvs !! j = Some (k, v) ∧ dir_entry dir P kvs = Some (k, v).
Proof.
  intros (_ & _ & dir & P & HP & Hm & Hj). destruct (dir_pos_lookup dir P kvs j Hj) as [[k v] Hk].
  exists dir, P, k, v. split_and!; [done|done|done|]. unfold dir_entry. by rewrite Hj.
Qed.
Lemma merging_at_step o pos m :
  merging_at pos m → cursor_may o pos = true →
  ∃ m', it_step o m = Done m' ∧ merging_at (cursor_step Compare kvs o pos) m'.
Proof.
  intros Hat Hmay. destruct (is_seek o) eqn:Ho.
  - destruct (seek_spec o m Ho (proj1 Hat)) as (m' & E & Hm'). exists m'. split; [done|].
    rewrite (seek_position o kvs pos Ho (proj1 U)). apply merging_dir_at; [apply seek_downward|done].
  - assert (∃ dir j, o = step_op dir ∧ pos = Some j) as (dir & j & -> & ->).
    { destruct o; try done; destruct pos as [j|]; try done; [by exists kForward, j|by exists kReverse, j]. }
    destruct (merging_at_entry j m Hat) as (dir0 & P & k & v & HP & Hm & Hj & Ek).
    destruct (step_spec dir dir0 P m k v HP Hm Ek) as (m' & E & Hm'). exists m'. split; [done|].
    rewrite (step_position dir kvs j k v (proj1 U) Hj).
    apply merging_dir_at; [apply past_downward|done].
Qed.
Lemma merging_at_reads j m kv :
  merging_at (Some j) m → kvs !! j = Some kv →
  Valid m = true ∧ key m = Done (fst kv) ∧ value m = Done (snd kv) ∧ ∃ b, MayBeOutOfUpperBound m = Done b.
Proof.
  intros Hat Hkv. destruct (merging_at_entry j m Hat) as (dir & P & k & v & HP & Hm & Hj & Ek).
  rewrite Hkv in Hj. injection Hj as ->.
  destruct (current_reads dir P m k v HP Hm Ek m) as (Hv & Hk & Hval); [done|done|apply Hm|]. split_and!; [done..|].
  unfold key, MayBeOutOfUpperBound in *. destruct (current_wrapper m) as [w|f]; [|done]. cbn in Hk |- *.
  unfold wrapper_key in Hk. unfold wrapper_MayBeOutOfUpperBound. destruct (assert (valid_ w)) as [[]|f]; [|done]. cbn. eauto.
Qed.
End merging.

(** ** Laws *)

Section laws.
Context {I : Type} `{C : Comparator, !ComparatorLaws C} `{Build}.
Context `{II : InternalIterator I, L : !IteratorLaws Compare I}.
#[local] Abbreviation MergingIterator := (MergingIterator (I := I)).

#[export] Program Instance MergingIterator_laws : IteratorLaws Compare MergingIterator := {|
  it_at kvs pos m := ∃ cs, union_of kvs cs ∧ merging_at (kvs := kvs) (cs := cs) pos m
|}.
Next Obligation. intros kvs pos m (cs & U & _). apply U. Qed.
Next Obligation. intros kvs pos m (cs & U & _ & Hst & _). done. Qed.
Next Obligation.
  intros kvs [j|] m (cs & U & Hat).
  - destruct (merging_at_entry j m Hat) as (_ & _ & k & v & _ & _ & Hj & _).
    by destruct (merging_at_reads U j m (k, v) Hat Hj) as (Hv & _).
  - destruct Hat as (_ & _ & Hc). change (Valid m = bool_decide (is_Some (@None nat))). unfold Valid. by rewrite Hc.
Qed.
Next Obligation.
  intros kvs i m (cs & U & Hat). destruct (merging_at_entry i m Hat) as (_ & _ & k & v & _ & _ & Hj & _).
  by eapply lookup_lt_Some.
Qed.
Next Obligation.
  intros kvs i m kv (cs & U & Hat) Hkv. by destruct (merging_at_reads U i m kv Hat Hkv) as (_ & ? & ? & _).
Qed.
Next Obligation.
  intros kvs pos m o (cs & U & Hat) Hmay. destruct (merging_at_step U o pos m Hat Hmay) as (m' & E & Hat').
  exists m'. split; [done|]. by exists cs.
Qed.
Next Obligation.
  intros kvs i m (cs & U & Hat). destruct (merging_at_step U CNext (Some i) m Hat eq_refl) as (m' & E & Hat').
  cbn [it_step it_Next MergingIterator_iterator] in E. cbn [it_NextAndGetResult it_Next MergingIterator_iterator].
  unfold NextAndGetResult. rewrite E. cbn [mbind R_bind]. set (pos := cursor_step Compare kvs CNext (Some i)) in *.
  destruct pos as [j|].
  - destruct (merging_at_entry j m' Hat') as (_ & _ & k & v & _ & _ & Hj & _).
    destruct (merging_at_reads U j m' (k, v) Hat' Hj) as (-> & -> & _ & b & ->). cbn [mbind R_bind].
    do 2 eexists. split_and!; [done|done|]. cbn. by rewrite Hj.
  - assert (Valid m' = false) as -> by (unfold Valid; by rewrite (proj2 (proj2 Hat'))).
    by do 2 eexists.
Qed.

#[export] Program Instance EmptyInternalIterator_laws : @IteratorLawsFor (λ _, true) Compare Status bytes EmptyInternalIterator := {|
  it_at kvs pos s := kvs = [] ∧ pos = None ∧ s = OK
|}.
Next Obligation. intros kvs pos s (-> & _). constructor. Qed.
Next Obligation. by intros kvs pos s (_ & _ & ->). Qed.
Next Obligation. by intros kvs pos s (_ & -> & _). Qed.
Next Obligation. by intros kvs i s (_ & [=] & _). Qed.
Next Obligation. by intros kvs i s kv (_ & [=] & _). Qed.
Next Obligation. intros kvs pos s o (-> & -> & ->) Hmay. exists OK. by destruct o. Qed.
Next Obligation. by intros kvs i s (_ & [=] & _). Qed.
End laws.
