(* ===== verification/MergeBuilder.v ===== *)
(** * Merging iterators: what NewMergingIterator and MergeIteratorBuilder make

    The iterator they return is a cursor on the union of the children, whatever
    their number. Adding children that are already at an entry leaves a pointer
    to a local variable in the heap; keys that several children hold are lost
    when the direction changes; an error of a child is kept and reported. *)
From S2P Require Import Prelude Result Status Comparator Cursor Heap IteratorWrapper MergingIterator MergingCorrect.

Section made.
Context {I : Type} `{C : Comparator, !ComparatorLaws C} `{Build}.
Context `{II : InternalIterator I, L : !IteratorLaws Compare I}.
#[local] Abbreviation MergingIterator := (MergingIterator (I := I)).
#[local] Abbreviation AnyIterator := (AnyIterator (I := I)).

(** ** The three kinds of iterator *)

Definition any_at (kvs : list (bytes * bytes)) (pos : option nat) (a : AnyIterator) : Prop :=
  match a with
  | EmptyIter s => @it_at _ Compare Status bytes EmptyInternalIterator _ kvs pos s
  | ChildIter it => it_at kvs pos it
  | MergingIter m => it_at kvs pos m
  end.

Lemma fmap_Done {A B} (f : A → B) (m : R A) b : f <$> m = Done b ↔ ∃ a, m = Done a ∧ b = f a.
Proof.
  destruct m as [a|]; cbn; split; try done.
  - intros [= <-]. eauto.
  - by intros (? & [= ->] & ->).
  - by intros (? & [=] & _).
Qed.

#[export] Program Instance AnyIterator_laws : IteratorLaws Compare AnyIterator := {| it_at := any_at |}.
Next Obligation. intros kvs pos [s|it|m] Hat; cbn [any_at] in Hat; exact (it_at_sorted _ _ _ Hat). Qed.
Next Obligation. intros kvs pos [s|it|m] Hat; cbn [any_at] in Hat; exact (it_at_status _ _ _ Hat). Qed.
Next Obligation. intros kvs pos [s|it|m] Hat; cbn [any_at] in Hat; exact (it_at_Valid _ _ _ Hat). Qed.
Next Obligation. intros kvs i [s|it|m] Hat; cbn [any_at] in Hat; exact (it_at_range _ _ _ Hat). Qed.
Next Obligation. intros kvs i [s|it|m] kv Hat; cbn [any_at] in Hat; exact (it_at_key _ _ _ kv Hat). Qed.
Next Obligation.
  intros kvs pos [s|it|m] o Hat Hmay; cbn [any_at] in Hat;
    destruct (it_at_step kvs pos _ o Hat Hmay) as (it' & E & Hat').
  - exists (EmptyIter it'). split; [|done]. by destruct o; cbn in *; [injection E as <-|injection E as <-|rewrite E|rewrite E|injection E as <-|injection E as <-].
  - exists (ChildIter it'). split; [|done]. by destruct o; cbn in *; rewrite E.
  - exists (MergingIter it'). split; [|done]. by destruct o; cbn in *; rewrite E.
Qed.
Next Obligation.
  intros kvs i [s|it|m] Hat; cbn [any_at] in Hat; destruct (it_at_next kvs i _ Hat eq_refl) as (it' & r & E & En & Hr).
  - exists (EmptyIter it'), r. cbn in *. by rewrite E, En.
  - exists (ChildIter it'), r. cbn in *. by rewrite E, En.
  - exists (MergingIter it'), r. cbn in *. by rewrite E, En.
Qed.

(** ** NewMergingIterator *)

Lemma set_iterators_spec (children : list I) cs :
  Forall2 (λ it c, it_at c None it) children cs →
  ∃ ws, set_iterators children = Done ws ∧ length ws = length cs ∧
    ∀ i c, cs !! i = Some c → ∃ w, ws !! i = Some w ∧ wrapper_at c None w.
Proof.
  induction 1 as [|it c children cs Hat _ (ws & E & Hl & Hws)]; cbn [set_iterators]; [by exists []|].
  cbn [wrapper_Set]. destruct (wrapper_Update_spec c None it new_wrapper Hat) as (w & -> & Hw). cbn [mbind R_bind]. rewrite E.
  cbn [mbind R_bind]. exists (w :: ws). split_and!; [done|cbn; by rewrite Hl|].
  intros [|i] d Hd; cbn in Hd; [injection Hd as <-; by exists w|by apply Hws].
Qed.

Lemma all_behind (c : list (bytes * bytes)) : dir_pos kForward (λ _, true) c = None.
Proof. cbn. unfold pos_from. rewrite count_true, decide_False by lia. done. Qed.

(** Children that are not at an entry. *)
Lemma new_MergingIterator_spec children kvs cs prefix :
  Forall2 (λ it c, it_at c None it) children cs → union_of kvs cs →
  ∃ m, new_MergingIterator children prefix = Done m ∧ merging_dir (cs := cs) kForward (λ _, true) m.
Proof.
  intros Hch U. destruct (set_iterators_spec children cs Hch) as (ws & E & Hl & Hws).
  unfold new_MergingIterator. rewrite E. cbn [mbind R_bind]. unfold for_children. cbn [children_]. rewrite Hl.
  set (m0 := mkMerging ws None OK kForward new_heap None prefix None).
  destruct (fill_spec kForward (λ _, true) (λ _ m, Done m) m0 Hl) with (n := length cs) (a := 0%nat) (m := m0)
    (h := @new_heap Pointer) as (m & h & E2 & Hc & Hof & Hh & Hl2 & Hst & _ & Hd & _); try done.
  - intros i c w m Hi Hw Hw' _. exists w. split.
    + f_equal. cbn. rewrite list_insert_id by done. by destruct m.
    + rewrite all_behind. destruct (Hws i c Hi) as (w2 & Hw2 & ?). cbn in Hw. by rewrite Hw in Hw2; injection Hw2 as <-.
  - intros i c Hi. lia.
  - apply empty_heap_holds.
  - destruct (finish_spec kForward (λ _, true) m h Hl2 Hc Hof Hh Hst) as (m' & E3 & Hm'). exists m'. split; [|done].
    unfold finish in E3. rewrite (set_direction_id kForward m Hd) in E3.
    cbn [mbind R_bind add_child] in E2. by rewrite E2.
Qed.

(** The iterator is invalid until it is positioned; then it is a cursor. *)
Lemma NewMergingIterator_spec children kvs cs prefix :
  Forall2 (λ it c, it_at c None it) children cs → union_of kvs cs →
  ∃ a, NewMergingIterator children prefix = Done a ∧ it_at kvs None a.
Proof.
  intros Hch U. pose proof U as (Hs & Hp & _).
  destruct children as [|it1 [|it2 children]]; cbn [NewMergingIterator].
  - apply Forall2_nil_inv_l in Hch as ->. apply Permutation_nil_r in Hp as ->. by exists (EmptyIter OK).
  - apply Forall2_cons_inv_l in Hch as (c & cs' & Hat & ->%Forall2_nil_inv_l & ->). exists (ChildIter it1). split; [done|].
    cbn [concat] in Hp. rewrite app_nil_r in Hp. cbn. replace kvs with c; [done|]. symmetry.
    apply sorted_unique; [done| |done]. by apply (it_at_sorted c None it1).
  - destruct (new_MergingIterator_spec (it1 :: it2 :: children) kvs cs prefix Hch U) as (m & -> & Hm).
    exists (MergingIter m). split; [done|]. exists cs. split; [done|].
    pose proof (merging_dir_at U kForward (λ _, true) m (λ _ _ _ _, eq_refl) Hm) as Hat. by rewrite all_behind in Hat.
Qed.

(** ** MergeIteratorBuilder *)

(** A merging iterator whose children are not at an entry. *)
Record idle (cs : list (list (bytes * bytes))) (m : MergingIterator) : Prop := {
  id_length : length (children_ m) = length cs;
  id_children : ∀ i c, cs !! i = Some c → ∃ w, children_ m !! i = Some w ∧ wrapper_at c None w;
  id_direction : direction_ m = kForward;
  id_status : status_ m = OK;
  id_heap : data_ (minHeap_ m) = [];
  id_current : current_ m = None;
}.
Lemma idle_merging cs m : idle cs m → merging_dir (cs := cs) kForward (λ _, true) m.
Proof.
  intros [Hl Hc Hd Hs Hh Hcur]. split; [done| |done|done|].
  - intros i c _ Hi. rewrite all_behind. by apply Hc.
  - exists (minHeap_ m). split_and!; [done| |by rewrite Hh]. split.
    + split; rewrite Hh; by intros ? ? ? ?.
    + rewrite Hh. constructor.
    + intros p. rewrite Hh, elem_of_nil. split; [done|]. intros (i & c & _ & _ & _ & [kv Hkv]).
      unfold dir_entry in Hkv. by rewrite all_behind in Hkv.
Qed.
Lemma AddIterator_idle cs c it moved m :
  idle cs m → it_at c None it → ∃ m', AddIterator it moved m = Done m' ∧ idle (cs ++ [c]) m'.
Proof.
  intros [Hl Hc Hd Hs Hh Hcur] Hat. unfold AddIterator. rewrite Hd, bool_decide_eq_true_2, assert_true by done.
  cbn [mbind R_bind wrapper_Set]. destruct (wrapper_Update_spec c None it new_wrapper Hat) as (w & -> & Hw). cbn [mbind R_bind].
  assert (valid_ w = false) as Hv by (by destruct Hw as (? & _ & _ & -> & _)).
  unfold AddToMinHeapOrCheckStatus, load. cbn [local_ set_local checked mbind R_bind]. rewrite Hv, (wrapper_status_spec c None w Hw).
  cbn [mbind R_bind]. eexists. split; [done|]. rewrite considerStatus_OK. split; cbn.
  - by rewrite !length_app, Hl.
  - intros i d Hd'. apply lookup_app_Some in Hd' as [Hd'|[Hi Hd']].
    + destruct (Hc i d Hd') as (w' & Hw' & Hat'). exists w'. split; [|done]. by apply lookup_app_l_Some.
    + apply list_lookup_singleton_Some in Hd' as [Hi0 <-]. exists w. split; [|done].
      rewrite lookup_app_r by lia. apply list_lookup_singleton_Some. split; [lia|done].
  - done.
  - done.
  - by rewrite Hh.
  - by rewrite Hcur.
Qed.
Lemma new_MergingIterator_idle prefix : ∃ m, new_MergingIterator [] prefix = Done m ∧ idle [] m.
Proof.
  unfold new_MergingIterator. cbn [set_iterators mbind R_bind]. unfold for_children. cbn [children_ length seq for_each mbind R_bind].
  unfold CurrentForward. rewrite bool_decide_eq_true_2, assert_true by done. eexists. split; [reflexivity|]. by split.
Qed.

(** Adding iterators one by one; each comes with whether it moved the vector. *)
Fixpoint add_all (its : list (I * bool)) (b : MergeIteratorBuilder) : R MergeIteratorBuilder :=
  match its with
  | [] => Done b
  | (it, moved) :: its' => b ← MergeIteratorBuilder_AddIterator it moved b; add_all its' b
  end.
Definition built_from (its : list (I * bool)) (prefix : bool) : R (option AnyIterator) :=
  b ← new_MergeIteratorBuilder prefix; b ← add_all its b; Done (fst (MergeIteratorBuilder_Finish b)).

Lemma add_all_merging its cs' cs m :
  Forall2 (λ it c, it_at c None (fst it)) its cs' → idle cs m →
  ∃ m', add_all its (mkMergeBuilder (Some m) None true) = Done (mkMergeBuilder (Some m') None true) ∧ idle (cs ++ cs') m'.
Proof.
  intros Hits. revert cs m. induction Hits as [|[it moved] c its cs' Hat _ IH]; intros cs m Hm; cbn [add_all].
  { exists m. by rewrite app_nil_r. }
  unfold MergeIteratorBuilder_AddIterator. cbn [first_iter mbind R_bind use_merging_iter]. unfold builder_add.
  cbn [merge_iter checked mbind R_bind]. destruct (AddIterator_idle cs c it moved m Hm Hat) as (m1 & -> & Hm1).
  cbn [mbind R_bind first_iter use_merging_iter].
  destruct (IH (cs ++ [c]) m1 Hm1) as (m' & E & Hm'). exists m'. by rewrite <- app_assoc in Hm'.
Qed.
Lemma built_from_spec its kvs cs prefix :
  its ≠ [] → Forall2 (λ it c, it_at c None (fst it)) its cs → union_of kvs cs →
  ∃ a, built_from its prefix = Done (Some a) ∧ it_at kvs None a.
Proof.
  intros Hne Hits U. pose proof U as (Hs & Hp & _). unfold built_from, new_MergeIteratorBuilder.
  destruct (new_MergingIterator_idle prefix) as (m0 & -> & Hm0). cbn [mbind R_bind].
  destruct Hits as [|[it1 mv1] c1 its cs Hat1 Hits]; [done|]. cbn [add_all]. unfold MergeIteratorBuilder_AddIterator at 1.
  cbn [first_iter mbind R_bind use_merging_iter merge_iter]. destruct Hits as [|[it2 mv2] c2 its cs Hat2 Hits].
  - cbn. exists (ChildIter it1). split; [done|]. cbn [concat] in Hp. rewrite app_nil_r in Hp. replace kvs with c1; [done|].
    symmetry. apply sorted_unique; [done| |done]. by apply (it_at_sorted c1 None it1).
  - cbn [add_all]. unfold MergeIteratorBuilder_AddIterator at 1. cbn [first_iter negb use_merging_iter]. unfold builder_add.
    cbn [merge_iter checked mbind R_bind]. destruct (AddIterator_idle [] c1 it1 mv2 m0 Hm0 Hat1) as (m1 & -> & Hm1).
    cbn [mbind R_bind merge_iter first_iter use_merging_iter checked].
    destruct (AddIterator_idle [c1] c2 it2 mv2 m1 Hm1 Hat2) as (m2 & -> & Hm2). cbn [mbind R_bind first_iter use_merging_iter].
    destruct (add_all_merging its cs [c1; c2] m2 Hits Hm2) as (m' & -> & Hm'). cbn [mbind R_bind].
    exists (MergingIter m'). split; [done|]. exists (c1 :: c2 :: cs). split; [done|].
    pose proof (merging_dir_at U kForward (λ _, true) m' (λ _ _ _ _, eq_refl) (idle_merging _ m' Hm')) as Hat.
    by rewrite all_behind in Hat.
Qed.

(** C13. The iterator that NewMergingIterator returns for any number of children,
    and the one MergeIteratorBuilder returns for at least one, is a cursor on
    the sorted union of the children's entries: under every run of seeks and
    steps, in both directions and with turns anywhere, no operation faults and
    it stands, reads and is valid as the cursor. The children are any iterators
    that keep InternalIterator's laws, not at an entry when they are added, and
    no two entries have equal keys. *)
Theorem MergingIterator_refines_cursor (its : list (I * bool)) kvs cs prefix ops pos :
  Forall2 (λ it c, it_at c None (fst it)) its cs → union_of kvs cs → cursor_run Compare kvs ops None = Some pos →
  (∃ a0 a, NewMergingIterator (map fst its) prefix = Done a0 ∧ it_run ops a0 = Done a ∧ it_reads kvs pos a) ∧
  (its ≠ [] → ∃ a0 a, built_from its prefix = Done (Some a0) ∧ it_run ops a0 = Done a ∧ it_reads kvs pos a).
Proof.
  intros Hits U Hrun. split; [|intros Hne].
  - destruct (NewMergingIterator_spec (map fst its) kvs cs prefix) as (a0 & E & Hat); [by apply Forall2_fmap_l|done|].
    destruct (it_run_spec Compare kvs ops None pos a0 Hat Hrun) as (a & Er & Hat').
    exists a0, a. split_and!; [done|done|by eapply it_at_reads].
  - destruct (built_from_spec its kvs cs prefix Hne Hits U) as (a0 & E & Hat).
    destruct (it_run_spec Compare kvs ops None pos a0 Hat Hrun) as (a & Er & Hat').
    exists a0, a. split_and!; [done|done|by eapply it_at_reads].
Qed.
End made.

(** ** Children that are already at an entry *)

Section dangling.
Context {I : Type} `{C : Comparator, !ComparatorLaws C} `{Build}.
Context `{II : InternalIterator I, L : !IteratorLaws Compare I}.

Lemma wrapper_valid c i it :
  it_at c (Some i) it →
  ∃ w, wrapper_Set (I := I) (Some it) new_wrapper = Done w ∧ wrapper_at c (Some i) w ∧ valid_ w = true ∧ ∃ k, wrapper_key w = Done k.
Proof.
  intros Hat. destruct (wrapper_Update_spec c (Some i) it new_wrapper Hat) as (w & E & Hw). exists w. split_and!; [done|done| |].
  - destruct Hw as (? & _ & _ & -> & _). by rewrite bool_decide_eq_true_2.
  - destruct (lookup_lt_is_Some_2 c i) as [kv Hkv]; [by eapply it_at_range|]. exists (fst kv). by apply (wrapper_key_spec c i w).
Qed.

(** AddIterator pushes the address of its local copy of the new wrapper: if
    the iterator added is at an entry, the heap and [current_] keep a pointer
    that dangles when AddIterator returns. The merging iterator is valid, and
    asking for its key is undefined; so is adding another such iterator, whose
    key is compared through the pointer. MergeIteratorBuilder does the latter
    as soon as two iterators are added that are at an entry. *)
Theorem AddIterator_keeps_local (it1 it2 : I) c1 c2 i1 i2 moved1 moved2 prefix :
  it_at c1 (Some i1) it1 → it_at c2 (Some i2) it2 →
  (∃ m0 m, new_MergingIterator [] prefix = Done m0 ∧ AddIterator it1 moved1 m0 = Done m ∧
    Valid m = true ∧ key m = Fault Undefined ∧ Next m = Fault Undefined ∧
    AddIterator it2 moved2 m = Fault Undefined) ∧
  built_from [(it1, moved1); (it2, moved2)] prefix = Fault Undefined.
Proof.
  intros H1 H2. destruct (wrapper_valid c1 i1 it1 H1) as (w1 & E1 & Hw1 & Hv1 & k1 & Hk1).
  destruct (wrapper_valid c2 i2 it2 H2) as (w2 & E2 & Hw2 & Hv2 & k2 & Hk2).
  set (m0 := mkMerging (I := I) [] None OK kForward new_heap None prefix None).
  assert (new_MergingIterator (I := I) [] prefix = Done m0) as Enew.
  { unfold new_MergingIterator, for_children, CurrentForward. cbn. by rewrite assert_true. }
  set (m1 := mkMerging [w1] (Some Dangling) OK kForward (mkHeap [Dangling] None) None prefix None).
  assert (∀ moved, AddIterator it1 moved m0 = Done m1) as Eadd.
  { intros moved. unfold AddIterator. rewrite bool_decide_eq_true_2, assert_true, E1 by done. cbn [mbind R_bind].
    unfold AddToMinHeapOrCheckStatus, load. cbn [local_ set_local checked mbind R_bind].
    rewrite Hv1, (wrapper_status_ok c1 _ w1 Hw1). cbn [mbind R_bind]. unfold Heap.push, upheap. cbn.
    unfold CurrentForward. rewrite bool_decide_eq_true_2, assert_true by done. cbn.
    unfold Heap.top. cbn. by rewrite assert_true. }
  assert (∀ moved, AddIterator it2 moved m1 = Fault Undefined) as Eadd2.
  { intros moved. unfold AddIterator. rewrite bool_decide_eq_true_2, assert_true, E2 by done. cbn [mbind R_bind].
    unfold AddToMinHeapOrCheckStatus, load. cbn [local_ set_local checked mbind R_bind].
    rewrite Hv2, (wrapper_status_ok c2 _ w2 Hw2). cbn [mbind R_bind]. by unfold Heap.push, upheap. }
  split.
  - exists m0, m1. split_and!; [done|apply Eadd|done| | |apply Eadd2].
    + unfold key, current_wrapper. change (Valid m1) with true. by rewrite assert_true.
    + unfold Next. change (Valid m1) with true. rewrite assert_true. cbn [mbind R_bind].
      rewrite bool_decide_eq_false_2 by (intros Hn; by apply Hn). cbn [mbind R_bind]. rewrite debug_assert_true; [done|].
      unfold CurrentForward. rewrite bool_decide_eq_true_2, assert_true by done. cbn. unfold Heap.top. cbn. by rewrite assert_true.
  - unfold built_from, new_MergeIteratorBuilder. rewrite Enew. cbn [mbind R_bind add_all].
    unfold MergeIteratorBuilder_AddIterator at 2. cbn [first_iter mbind R_bind use_merging_iter merge_iter].
    unfold MergeIteratorBuilder_AddIterator. cbn [first_iter negb use_merging_iter]. unfold builder_add.
    cbn [merge_iter checked mbind R_bind]. rewrite Eadd. cbn [mbind R_bind merge_iter first_iter use_merging_iter checked].
    by rewrite Eadd2.
Qed.
End dangling.

(** ** Errors of children *)

(** The first error among the children that are not at an entry. *)
Fixpoint first_error {I} `{InternalIterator I} (rs : list I) : Status :=
  match rs with
  | [] => OK
  | it :: rs' => if negb (it_Valid it) && negb (ok (it_status it)) then it_status it else first_error rs'
  end.

Section errors.
Context {I : Type} `{C : Comparator, !ComparatorLaws C} `{Build}.
Context `{II : InternalIterator I}.
#[local] Abbreviation MergingIterator := (MergingIterator (I := I)).
(** Where the children get to; whether a child is at an entry or failed, it
    does what InternalIterator documents: no key without a good status. *)
Context (rs : list I).
Context (rs_valid : ∀ it, it ∈ rs → it_Valid it = true → ok (it_status it) = true ∧ ∃ k, it_key it = Done k).

Definition reached_key (p : Pointer) : bytes :=
  match p with
  | Child i => match it_key <$> rs !! i with Some (Done k) => k | _ => [] end
  | _ => []
  end.
Definition reached_lt (dir : Direction) (a b : Pointer) : bool := later dir (reached_key a) (reached_key b).

Record reached (dir : Direction) (a : nat) (m : MergingIterator) : Prop := {
  re_length : length (children_ m) = length rs;
  re_child : ∀ i it, (i < a)%nat → rs !! i = Some it → ∃ w, children_ m !! i = Some w ∧ iter_ w = Some it ∧
    valid_ w = it_Valid it ∧ (it_Valid it = true → it_key it = Done (w_key w));
  re_status : status_ m = first_error (take a rs);
  re_heap : ∃ h, heap_of dir m = Some h ∧ heap_ok (reached_lt dir) h ∧
    (∀ p, p ∈ data_ h → ∃ i it, p = Child i ∧ (i < a)%nat ∧ rs !! i = Some it ∧ it_Valid it = true) ∧
    (data_ h = [] ↔ existsb it_Valid (take a rs) = false);
}.

Lemma first_error_snoc l it :
  first_error (l ++ [it]) = if ok (first_error l) then
    (if negb (it_Valid it) && negb (ok (it_status it)) then it_status it else OK) else first_error l.
Proof.
  induction l as [|x l IH]; [done|]. cbn. destruct (it_Valid x), (ok (it_status x)) eqn:E; cbn; try done.
  by rewrite E.
Qed.
Lemma first_error_ok l : ok (first_error l) = true → first_error l = OK.
Proof.
  induction l as [|x l IH]; [done|]. cbn. destruct (negb (it_Valid x)); cbn; [|done].
  by destruct (ok (it_status x)) eqn:E; cbn; [|rewrite E].
Qed.

Lemma reached_step dir o a m it0 it w :
  reached dir a m → rs !! a = Some it → children_ m !! a = Some w → iter_ w = Some it0 → it_step o it0 = Done it →
  ∃ m1 m', update (Child a) (wrapper_move (it_step o)) m = Done m1 ∧ add_child dir (Child a) m1 = Done m' ∧
    reached dir (S a) m' ∧ (∀ i, (a < i)%nat → children_ m' !! i = children_ m !! i).
Proof.
  intros [Hl Hc Hst (h & Hof & Hok & Hin & Hemp)] Hit Hw Hi0 Estep.
  pose proof (lookup_lt_Some _ _ _ Hw) as Hlt. pose proof (list_elem_of_lookup_2 _ _ _ Hit) as Helem.
  assert (∃ w', wrapper_move (it_step o) w = Done w' ∧ iter_ w' = Some it ∧ valid_ w' = it_Valid it ∧
    (it_Valid it = true → it_key it = Done (w_key w'))) as (w' & Emv & Hi' & Hv' & Hk').
  { unfold wrapper_move, wrapper_iter. rewrite Hi0, bool_decide_eq_true_2, assert_true by done. cbn [mbind R_bind checked].
    rewrite Estep. cbn [mbind R_bind]. unfold wrapper_Update. destruct (it_Valid it) eqn:Ev.
    - destruct (rs_valid it Helem Ev) as (-> & k & Ek). rewrite assert_true, Ek. cbn. by eexists.
    - by eexists. }
  unfold update, load. rewrite Hw. cbn [checked mbind R_bind]. rewrite Emv. cbn [mbind R_bind].
  set (m1 := store (Child a) w' m).
  enough (∃ m', add_child dir (Child a) m1 = Done m' ∧ reached dir (S a) m' ∧
    ∀ i, (a < i)%nat → children_ m' !! i = children_ m !! i) as (m' & ? & ? & ?) by (exists m1, m'; by split_and!).
  assert (status_ m1 = status_ m) as Hst1 by done.
  assert (children_ m1 = <[a := w']> (children_ m)) as Hch by done.
  assert (children_ m1 !! a = Some w') as Hw1 by (rewrite Hch; by apply list_lookup_insert_eq).
  assert (heap_of dir m1 = Some h) as Hof1 by by destruct dir.
  clearbody m1. assert (wrapper_status w' = Done (it_status it)) as Est.
  { unfold wrapper_status, wrapper_iter. by rewrite Hi', bool_decide_eq_true_2, assert_true. }
  assert (∀ i it', (i < S a)%nat → rs !! i = Some it' → ∃ w0, children_ m1 !! i = Some w0 ∧ iter_ w0 = Some it' ∧
    valid_ w0 = it_Valid it' ∧ (it_Valid it' = true → it_key it' = Done (w_key w0))) as Hc1.
  { intros i it' Hi Hr. destruct (decide (i = a)) as [->|].
    - rewrite Hit in Hr. injection Hr as <-. by exists w'.
    - rewrite Hch, list_lookup_insert_ne by done. apply Hc; [lia|done]. }
  assert (∀ p i it', p = Child i → (i < S a)%nat → rs !! i = Some it' → it_Valid it' = true → key_at p m1 = Done (reached_key p)) as Hkey.
  { intros p i it' -> Hi Hr Hv. destruct (Hc1 i it' Hi Hr) as (w0 & Hw0 & _ & Hv0 & Hk0). unfold key_at, load. rewrite Hw0.
    cbn [checked mbind R_bind reached_key]. unfold wrapper_key. rewrite Hv0, Hv, assert_true, Hr. cbn. by rewrite (Hk0 Hv). }
  assert (∀ a0 b0, key_at a0 m1 = Done (reached_key a0) → key_at b0 m1 = Done (reached_key b0) →
    comparator dir m1 a0 b0 = Done (reached_lt dir a0 b0)) as Hcmp.
  { intros a0 b0. destruct dir; cbn; unfold min_comparator, max_comparator; by intros -> ->. }
  assert (take (S a) rs = take a rs ++ [it]) as Htake by by apply take_S_r.
  destruct (it_Valid it) eqn:Ev.
  - destruct (push_spec (comparator dir m1) (reached_lt dir) (λ p, key_at p m1 = Done (reached_key p)) Hcmp
      (λ x y, later_asym dir _ _) (λ x y z, later_nlt_trans dir _ _ _) (Child a) h Hok) as (h' & Ep & Hok' & Hp').
    + apply Forall_forall. intros p (i & it' & -> & Hi & Hr & Hv)%Hin. by apply (Hkey _ i it'); [|lia|..].
    + by apply (Hkey _ a it); [|lia|..].
    + destruct (rs_valid it Helem Ev) as (Hokst & _).
      exists (set_heap dir h' m1). split_and!.
      * assert (debug_assert (s ← wrapper_status w'; Done (ok s)) = Done tt) as Eda.
        { apply debug_assert_true. by rewrite Est; cbn; rewrite Hokst. }
        destruct dir; cbn in Ep, Hof1 |- *; unfold AddToMinHeapOrCheckStatus, AddToMaxHeapOrCheckStatus, load; rewrite Hw1;
          cbn [checked mbind R_bind]; rewrite Hv', Eda, ?Hof1; cbn [checked mbind R_bind]; [injection Hof1 as <-|]; cbn in Ep; by rewrite Ep.
      * destruct (set_heap_fields dir h' m1) as (Es & _). split.
        -- by rewrite set_heap_children, Hch, length_insert.
        -- intros i it' Hi Hr. rewrite set_heap_children. by apply Hc1.
        -- rewrite Es, Htake, first_error_snoc, Ev. cbn. rewrite Hst1, Hst. destruct (ok (first_error (take a rs))) eqn:E; [|done].
           by rewrite (first_error_ok _ E).
        -- exists h'. split_and!; [apply heap_of_set|done| |].
           ++ intros p. rewrite Hp', elem_of_cons. intros [->|(i & it' & -> & ? & ? & ?)%Hin]; [exists a, it|exists i, it']; split_and!; try done; lia.
           ++ rewrite Htake, existsb_app. cbn. rewrite Ev, orb_true_r. split; [|done]. intros E. rewrite E in Hp'.
              by apply Permutation_nil_l in Hp'.
      * intros i Hi. rewrite set_heap_children, Hch. apply list_lookup_insert_ne. lia.
  - exists (considerStatus (it_status it) m1). split_and!.
    + destruct dir; cbn; unfold AddToMinHeapOrCheckStatus, AddToMaxHeapOrCheckStatus, load; rewrite Hw1;
        cbn [checked mbind R_bind]; by rewrite Hv', Est.
    + assert (status_ (considerStatus (it_status it) m1) = first_error (take (S a) rs)) as Es.
      { rewrite Htake, first_error_snoc, Ev. unfold considerStatus. rewrite Hst1, Hst.
        destruct (ok (it_status it)) eqn:E1, (ok (first_error (take a rs))) eqn:E2; cbn; try done; rewrite Hst1, Hst; try done.
        by apply first_error_ok. }
      assert (children_ (considerStatus (it_status it) m1) = children_ m1 ∧
        heap_of dir (considerStatus (it_status it) m1) = heap_of dir m1) as [Ech Eh].
      { unfold considerStatus. destruct (_ && _); by destruct dir. }
      split; rewrite ?Ech, ?Eh.
      * by rewrite Hch, length_insert.
      * done.
      * done.
      * exists h. split_and!; [done|done| |].
        -- intros p (i & it' & -> & ? & ? & ?)%Hin. exists i, it'. split_and!; try done. lia.
        -- rewrite Htake, existsb_app. cbn. by rewrite Ev, !orb_false_r.
    + intros i Hi. unfold considerStatus. destruct (_ && _); cbn; rewrite Hch; apply list_lookup_insert_ne; lia.
Qed.

Lemma reached_all dir o m0 :
  (∀ i w, children_ m0 !! i = Some w → ∃ it0 it, iter_ w = Some it0 ∧ it_step o it0 = Done it ∧ rs !! i = Some it) →
  ∀ n a m, (a + n = length rs)%nat → reached dir a m → (∀ i, (a ≤ i)%nat → children_ m !! i = children_ m0 !! i) →
  ∃ m', for_each (seq a n) (λ i m, m ← update (Child i) (wrapper_move (it_step o)) m; add_child dir (Child i) m) m = Done m' ∧
    reached dir (length rs) m'.
Proof.
  intros Hm0. induction n as [|n IH]; intros a m Han Hr Hrest; cbn [seq for_each].
  { exists m. by replace (length rs) with a by lia. }
  destruct (lookup_lt_is_Some_2 (children_ m) a) as [w Hw]; [rewrite (re_length _ _ _ Hr); lia|].
  destruct (Hm0 a w) as (it0 & it & Hi0 & Estep & Hit); [by rewrite <- Hrest|].
  destruct (reached_step dir o a m it0 it w Hr Hit Hw Hi0 Estep) as (m1 & m2 & -> & E2 & Hr2 & Hsame).
  cbn [mbind R_bind]. rewrite E2. cbn [mbind R_bind]. apply IH; [lia|done|].
  intros i Hi. rewrite Hsame by lia. apply Hrest. lia.
Qed.

(** C30. What a seek reports when children fail: no fault, the status is the
    error of the first child that has one, and the iterator is valid exactly if
    some child is and none failed, whatever the other children found. This
    holds for children of any kind that have a key and a good status whenever
    they are valid. *)
Theorem seek_reports_first_error o (m : MergingIterator) :
  is_seek o = true → length (children_ m) = length rs →
  (∀ i w, children_ m !! i = Some w → ∃ it0 it, iter_ w = Some it0 ∧ it_step o it0 = Done it ∧ rs !! i = Some it) →
  ∃ m', it_step o m = Done m' ∧ it_status m' = first_error rs ∧
    it_Valid m' = existsb it_Valid rs && ok (first_error rs).
Proof.
  intros Ho Hlen Hch. set (dir := seek_dir o).
  set (m0 := set_status OK (match dir with kForward => ClearHeaps m | kReverse => InitMaxHeap (ClearHeaps m) end)).
  assert (children_ m0 = children_ m ∧ status_ m0 = OK ∧ heap_of dir m0 = Some (mkHeap [] None)) as (Ech & Est & Eh).
  { unfold m0. destruct dir; cbn; [done|]. unfold InitMaxHeap, ClearHeaps. cbn. by destruct (maxHeap_ m). }
  destruct (reached_all dir o m0) with (n := length rs) (a := 0%nat) (m := m0) as (m1 & E & Hr); [by rewrite Ech|done| |done|].
  { split; [by rewrite Ech|by intros; lia|by rewrite take_0|]. eexists. split; [exact Eh|]. split_and!.
    - split; cbn; [by intros ? ? ? ? [=]|by intros ? ? [=]].
    - by intros p ?%not_elem_of_nil.
    - by rewrite take_0. }
  destruct Hr as [_ _ Hst (h & Hof & _ & _ & Hemp)]. rewrite firstn_all in Hst, Hemp.
  exists (set_current (head (data_ h)) (set_direction dir m1)). split_and!.
  - assert (it_step o m = (m ← for_children (λ i m, m ← update (Child i) (wrapper_move (it_step o)) m; add_child dir (Child i) m) m0;
                           finish dir m)) as -> by by destruct o.
    unfold for_children. rewrite Ech, Hlen, E. cbn [mbind R_bind]. unfold finish.
    rewrite (current_of_spec dir (set_direction dir m1) h); [done|done|]. rewrite <- Hof. by destruct dir.
  - by rewrite <- Hst.
  - change (bool_decide (is_Some (head (data_ h))) && ok (status_ m1) = existsb it_Valid rs && ok (first_error rs)).
    rewrite Hst. f_equal. destruct (existsb it_Valid rs) eqn:Ee.
    + apply bool_decide_eq_true_2. destruct (data_ h) as [|p l]; [|done]. discriminate (proj1 Hemp eq_refl).
    + by rewrite (proj2 Hemp eq_refl).
Qed.
End errors.

(** ** Concrete iterators *)

#[local] Instance TestDebug : Build := {| NDEBUG := false |}.
#[local] Existing Instance BytewiseComparator | 0.

Definition key1 (k : Z) : bytes * bytes := ([k], [k; k]).
Definition list_child (ks : list Z) (pos : option nat) : ListIter bytes := mkListIter (map key1 ks) pos.
Definition child_positions : list (ListIter bytes * bool) :=
  [(list_child [1; 4; 6] None, false); (list_child [] None, false); (list_child [2; 3; 9] None, true)].

Definition child_ops : list cursor_op := [CSeek [3]; CPrev; CNext; CNext; CNext; CPrev; CPrev; CLast; CPrev].
Lemma MergingIterator_refines_cursor_witness :
  (∃ a0 a, NewMergingIterator (map fst child_positions) false = Done a0 ∧ it_run child_ops a0 = Done a ∧
     it_reads (map key1 [1; 2; 3; 4; 6; 9]) (Some 4%nat) a) ∧
  (child_positions ≠ [] → ∃ a0 a, built_from child_positions false = Done (Some a0) ∧ it_run child_ops a0 = Done a ∧
     it_reads (map key1 [1; 2; 3; 4; 6; 9]) (Some 4%nat) a).
Proof.
  apply (MergingIterator_refines_cursor child_positions (map key1 [1; 2; 3; 4; 6; 9])
           [map key1 [1; 4; 6]; []; map key1 [2; 3; 9]] false child_ops (Some 4%nat)).
  - repeat (constructor; [split_and!; [repeat (constructor; try (vm_compute; reflexivity))|by intros|reflexivity]|]). constructor.
  - split_and!; [repeat (constructor; try (vm_compute; reflexivity))|apply (bool_decide_unpack _); vm_compute; exact I
                |repeat (constructor; try (vm_compute; reflexivity))].
  - vm_compute. reflexivity.
Defined.

Lemma AddIterator_keeps_local_witness :
  built_from [(list_child [1; 4] (Some 0%nat), false); (list_child [2] (Some 0%nat), false)] false = Fault Undefined.
Proof.
  apply (AddIterator_keeps_local (list_child [1; 4] (Some 0%nat)) (list_child [2] (Some 0%nat)) (map key1 [1; 4]) (map key1 [2]) 0 0 false false false).
  - split_and!; [|by intros i [= <-]; cbn; lia|reflexivity]. repeat (constructor; try (vm_compute; reflexivity)).
  - split_and!; [|by intros i [= <-]; cbn; lia|reflexivity]. repeat (constructor; try (vm_compute; reflexivity)).
Defined.

(** A child that fails when it is moved. *)
Definition FailingIter : InternalIterator (option (ListIter bytes)) := {|
  it_Valid a := from_option it_Valid false a;
  it_SeekToFirst a := match a with Some it => Some <$> it_SeekToFirst it | None => Done None end;
  it_SeekToLast a := match a with Some it => Some <$> it_SeekToLast it | None => Done None end;
  it_Seek t a := match a with Some it => Some <$> it_Seek t it | None => Done None end;
  it_SeekForPrev t a := match a with Some it => Some <$> it_SeekForPrev t it | None => Done None end;
  it_Next a := match a with Some it => Some <$> it_Next it | None => Done None end;
  it_NextAndGetResult a := match a with
    | Some it => (λ r, (Some (fst r), snd r)) <$> it_NextAndGetResult it | None => Done (None, None) end;
  it_Prev a := match a with Some it => Some <$> it_Prev it | None => Done None end;
  it_key a := match a with Some it => it_key it | None => Fault AssertFails end;
  it_value a := match a with Some it => it_value it | None => Fault AssertFails end;
  it_status a := match a with Some it => OK | None => Corruption (str "x") end;
  it_MayBeOutOfLowerBound _ := Done true;
  it_MayBeOutOfUpperBound _ := Done true;
|}.
#[local] Existing Instance FailingIter.

Definition failing_merge : R (MergingIterator (I := option (ListIter bytes))) :=
  new_MergingIterator [Some (list_child [1; 4] None); None] false.
Lemma seek_reports_first_error_witness :
  ∃ m m', failing_merge = Done m ∧ it_step (CSeek [2]) m = Done m' ∧
    it_status m' = Corruption (str "x") ∧ it_Valid m' = false.
Proof.
  destruct failing_merge as [m|] eqn:E; [|discriminate]. exists m.
  destruct (seek_reports_first_error [Some (list_child [1; 4] (Some 1%nat)); None]) with (o := CSeek [2]) (m := m)
    as (m' & E' & Hs & Hv).
  - intros it Hit Hv. apply list_elem_of_In in Hit. destruct Hit as [<-|[<-|[]]]; [|discriminate].
    split; [reflexivity|]. eexists. vm_compute. reflexivity.
  - reflexivity.
  - vm_compute in E. injection E as <-. reflexivity.
  - vm_compute in E. injection E as <-. intros [|[|i]] w Hw; [| |discriminate];
      injection Hw as <-; do 2 eexists; (split; [reflexivity|]); split; vm_compute; reflexivity.
  - exists m'. split; [reflexivity|]. split; [exact E'|]. split; [exact Hs|exact Hv].
Defined.

(** A key that two children hold is read twice going forward, but turning back
    at its second occurrence does not lead to the first. *)
Example turning_skips_duplicates :
  let its := [(list_child [5] None, false); (list_child [5] None, false)] in
  (a ← NewMergingIterator (map fst its) false; a ← it_run [CFirst; CNext] a; k ← it_key a; Done (it_Valid a, k)) = Done (true, [5]) ∧
  (a ← NewMergingIterator (map fst its) false; a ← it_run [CFirst; CNext; CPrev] a; Done (it_Valid a)) = Done false.
Proof. by split; vm_compute. Qed.
