(* ===== verification/BaseDelta.v ===== *)
(** * The iterator of a write batch over a base (BaseDeltaIterator,
      utilities/write_batch_with_index/write_batch_with_index.cc;
      WriteType, WriteEntry and WBWIIterator,
      include/rocksdb/utilities/write_batch_with_index.h)

    What a transaction reads: the entries of the database, and over them the
    writes of its own batch. The base is any iterator that has the operations
    of Iterator (include/rocksdb/iterator.h), which are those of
    InternalIterator without the bounds; the delta is any WBWIIterator. *)
From S2P Require Import Prelude Result Status Comparator Cursor.

(** ** Entries of a write batch *)

Inductive WriteType :=
  | kPutRecord | kMergeRecord | kDeleteRecord | kSingleDeleteRecord | kDeleteRangeRecord | kLogDataRecord | kXIDRecord.
#[export] Instance WriteType_eq_dec : EqDecision WriteType.
Proof. solve_decision. Defined.

Record WriteEntry := mkWriteEntry { we_type : WriteType; we_key : bytes; we_value : bytes }.

Class WBWIIterator (J : Type) := {
  wb_Valid : J → bool;
  wb_SeekToFirst : J → R J;
  wb_SeekToLast : J → R J;
  wb_Seek : bytes → J → R J;
  wb_SeekForPrev : bytes → J → R J;
  wb_Next : J → R J;
  wb_Prev : J → R J;
  wb_Entry : J → R WriteEntry;
  wb_status : J → Status;
}.

Definition wb_step {J} `{WBWIIterator J} (o : cursor_op) : J → R J :=
  match o with
  | CFirst => wb_SeekToFirst | CLast => wb_SeekToLast | CNext => wb_Next | CPrev => wb_Prev
  | CSeek t => wb_Seek t | CSeekForPrev t => wb_SeekForPrev t
  end.

(** Its laws: a cursor on entries, which may have equal keys. *)
Definition keyed (es : list WriteEntry) : list (bytes * WriteEntry) := (λ e, (we_key e, e)) <$> es.
Class WBWIIteratorLaws (compare : bytes → bytes → Z) (J : Type) `{WBWIIterator J} := {
  wb_at : list WriteEntry → option nat → J → Prop;
  wb_at_status : ∀ es pos it, wb_at es pos it → wb_status it = OK;
  wb_at_Valid : ∀ es pos it, wb_at es pos it → wb_Valid it = bool_decide (is_Some pos);
  wb_at_range : ∀ es i it, wb_at es (Some i) it → (i < length es)%nat;
  wb_at_Entry : ∀ es i it e, wb_at es (Some i) it → es !! i = Some e → wb_Entry it = Done e;
  wb_at_step : ∀ es pos it o, wb_at es pos it → cursor_may o pos = true →
    ∃ it', wb_step o it = Done it' ∧ wb_at es (cursor_step compare (keyed es) o pos) it';
}.

(** ** BaseDeltaIterator *)

Record BaseDeltaIterator {I J : Type} := mkBaseDelta {
  forward_ : bool;
  current_at_base_ : bool;
  equal_keys_ : bool;
  status_ : Status;
  base_iterator_ : I;
  delta_iterator_ : J;
  iterate_upper_bound_ : option bytes;
}.
Arguments BaseDeltaIterator : clear implicits.

Section base_delta.
Context {I J : Type} `{Build} `{Comparator} `{II : InternalIterator I} `{JJ : WBWIIterator J}.
#[local] Abbreviation BaseDeltaIterator := (BaseDeltaIterator I J).
Implicit Types it : BaseDeltaIterator.

Definition set_forward (b : bool) it : BaseDeltaIterator :=
  mkBaseDelta I J b (current_at_base_ it) (equal_keys_ it) (status_ it) (base_iterator_ it) (delta_iterator_ it) (iterate_upper_bound_ it).
Definition set_current_at_base (b : bool) it : BaseDeltaIterator :=
  mkBaseDelta I J (forward_ it) b (equal_keys_ it) (status_ it) (base_iterator_ it) (delta_iterator_ it) (iterate_upper_bound_ it).
Definition set_equal_keys (b : bool) it : BaseDeltaIterator :=
  mkBaseDelta I J (forward_ it) (current_at_base_ it) b (status_ it) (base_iterator_ it) (delta_iterator_ it) (iterate_upper_bound_ it).
Definition set_status (s : Status) it : BaseDeltaIterator :=
  mkBaseDelta I J (forward_ it) (current_at_base_ it) (equal_keys_ it) s (base_iterator_ it) (delta_iterator_ it) (iterate_upper_bound_ it).
Definition set_base (b : I) it : BaseDeltaIterator :=
  mkBaseDelta I J (forward_ it) (current_at_base_ it) (equal_keys_ it) (status_ it) b (delta_iterator_ it) (iterate_upper_bound_ it).
Definition set_delta (d : J) it : BaseDeltaIterator :=
  mkBaseDelta I J (forward_ it) (current_at_base_ it) (equal_keys_ it) (status_ it) (base_iterator_ it) d (iterate_upper_bound_ it).

(** The constructor; the bound is that of the read options, if there are any. *)
Definition new_BaseDeltaIterator (base : I) (delta : J) (iterate_upper_bound : option bytes) : BaseDeltaIterator :=
  mkBaseDelta I J true true false OK base delta iterate_upper_bound.

Definition BaseValid it : bool := it_Valid (base_iterator_ it).
Definition DeltaValid it : bool := wb_Valid (delta_iterator_ it).
Definition Valid it : bool := if current_at_base_ it then BaseValid it else DeltaValid it.

(** A call on one of the two iterators. *)
Definition on_base (f : I → R I) it : R BaseDeltaIterator := b ← f (base_iterator_ it); Done (set_base b it).
Definition on_delta (f : J → R J) it : R BaseDeltaIterator := d ← f (delta_iterator_ it); Done (set_delta d it).
Definition AdvanceDelta it : R BaseDeltaIterator := if forward_ it then on_delta wb_Next it else on_delta wb_Prev it.
Definition AdvanceBase it : R BaseDeltaIterator := if forward_ it then on_base it_Next it else on_base it_Prev it.

Definition is_delete (e : WriteEntry) : bool :=
  bool_decide (we_type e = kDeleteRecord) || bool_decide (we_type e = kSingleDeleteRecord).

(** The part of the loop's body after the delta's entry is read: whether the
    loop goes on. The entry is that of the delta, if it is valid. *)
Definition UpdateCurrent_body (delta_entry : option WriteEntry) it : R (bool * BaseDeltaIterator) :=
  let it := set_equal_keys false it in
  if negb (BaseValid it) then
    if negb (ok (it_status (base_iterator_ it))) then Done (false, set_current_at_base true it)
    else match delta_entry with
    | None => Done (false, it)
    | Some e =>
        if match iterate_upper_bound_ it with Some u => 0 <=? Compare (we_key e) u | None => false end then Done (false, it)
        else if is_delete e then it ← AdvanceDelta it; Done (true, it)
        else Done (false, set_current_at_base false it)
    end
  else match delta_entry with
  | None => Done (false, set_current_at_base true it)
  | Some e =>
      k ← it_key (base_iterator_ it);
      let compare := (if forward_ it then 1 else -1) * Compare (we_key e) k in
      if compare <=? 0 then
        let it := if compare =? 0 then set_equal_keys true it else it in
        if negb (is_delete e) then Done (false, set_current_at_base false it)
        else
          it ← AdvanceDelta it;
          it ← (if equal_keys_ it then AdvanceBase it else Done it);
          Done (true, it)
      else Done (false, set_current_at_base true it)
  end.
Fixpoint UpdateCurrent_loop (fuel : nat) it : R BaseDeltaIterator :=
  match fuel with
  | O => Fault OutOfFuel
  | S fuel' =>
      if negb (DeltaValid it) && negb (ok (wb_status (delta_iterator_ it))) then Done (set_current_at_base false it)
      else
        delta_entry ← (if DeltaValid it then
                         _ ← assert (ok (wb_status (delta_iterator_ it))); Some <$> wb_Entry (delta_iterator_ it)
                       else Done None);
        r ← UpdateCurrent_body delta_entry it;
        if (fst r : bool) then UpdateCurrent_loop fuel' (snd r) else Done (snd r)
  end.
Definition UpdateCurrent (fuel : nat) it : R BaseDeltaIterator := UpdateCurrent_loop fuel (set_status OK it).

Definition SeekToFirst (fuel : nat) it : R BaseDeltaIterator :=
  let it := set_forward true it in
  it ← on_base it_SeekToFirst it; it ← on_delta wb_SeekToFirst it; UpdateCurrent fuel it.
Definition SeekToLast (fuel : nat) it : R BaseDeltaIterator :=
  let it := set_forward false it in
  it ← on_base it_SeekToLast it; it ← on_delta wb_SeekToLast it; UpdateCurrent fuel it.
Definition Seek (fuel : nat) (k : bytes) it : R BaseDeltaIterator :=
  let it := set_forward true it in
  it ← on_base (it_Seek k) it; it ← on_delta (wb_Seek k) it; UpdateCurrent fuel it.
Definition SeekForPrev (fuel : nat) (k : bytes) it : R BaseDeltaIterator :=
  let it := set_forward false it in
  it ← on_base (it_SeekForPrev k) it; it ← on_delta (wb_SeekForPrev k) it; UpdateCurrent fuel it.

(** The entry that is passed: both, if their keys are equal. *)
Definition Advance_iterators it : R BaseDeltaIterator :=
  if equal_keys_ it then
    _ ← assert (BaseValid it && DeltaValid it);
    it ← AdvanceBase it; AdvanceDelta it
  else if current_at_base_ it then _ ← assert (BaseValid it); AdvanceBase it
  else _ ← assert (DeltaValid it); AdvanceDelta it.
Definition Advance (fuel : nat) it : R BaseDeltaIterator := it ← Advance_iterators it; UpdateCurrent fuel it.

(** The change of direction, the same in Next and Prev but for which end an
    exhausted iterator is put to. *)
Definition change_direction (forward : bool) it : R BaseDeltaIterator :=
  let it := set_equal_keys false (set_forward forward it) in
  it ← (if negb (BaseValid it) then
          _ ← assert (DeltaValid it); on_base (if forward then it_SeekToFirst else it_SeekToLast) it
        else if negb (DeltaValid it) then on_delta (if forward then wb_SeekToFirst else wb_SeekToLast) it
        else if current_at_base_ it then AdvanceDelta it
        else AdvanceBase it);
  if DeltaValid it && BaseValid it then
    e ← wb_Entry (delta_iterator_ it);
    k ← it_key (base_iterator_ it);
    Done (if Equal (we_key e) k then set_equal_keys true it else it)
  else Done it.

Definition Next (fuel : nat) it : R BaseDeltaIterator :=
  if negb (Valid it) then Done (set_status (NotSupported (str "Next() on invalid iterator")) it)
  else
    it ← (if negb (forward_ it) then change_direction true it else Done it);
    Advance fuel it.
Definition Prev (fuel : nat) it : R BaseDeltaIterator :=
  if negb (Valid it) then Done (set_status (NotSupported (str "Prev() on invalid iterator")) it)
  else
    it ← (if forward_ it then change_direction false it else Done it);
    Advance fuel it.

Definition key it : R bytes :=
  if current_at_base_ it then it_key (base_iterator_ it) else we_key <$> wb_Entry (delta_iterator_ it).
Definition value it : R bytes :=
  if current_at_base_ it then it_value (base_iterator_ it) else we_value <$> wb_Entry (delta_iterator_ it).
Definition status it : Status :=
  if negb (ok (status_ it)) then status_ it
  else if negb (ok (it_status (base_iterator_ it))) then it_status (base_iterator_ it)
  else wb_status (delta_iterator_ it).

Definition bd_step (fuel : nat) (o : cursor_op) : BaseDeltaIterator → R BaseDeltaIterator :=
  match o with
  | CFirst => SeekToFirst fuel | CLast => SeekToLast fuel | CNext => Next fuel | CPrev => Prev fuel
  | CSeek t => Seek fuel t | CSeekForPrev t => SeekForPrev fuel t
  end.
Fixpoint bd_run (fuel : nat) (ops : list cursor_op) it : R BaseDeltaIterator :=
  match ops with [] => Done it | o :: ops' => it ← bd_step fuel o it; bd_run fuel ops' it end.
End base_delta.
