(* ===== verification/BaseDeltaCorrect.v ===== *)
(** * The iterator of a write batch over a base: theorems

    Over a base and a delta that keep the laws of their interfaces, the
    iterator is a cursor on the overlay: the base's entries, but for those
    whose key the delta has, and the delta's entries that are not deletions. *)
From stdpp Require Import sorting.
From S2P Require Import Prelude Result Status Comparator Cursor Heap IteratorWrapper MergingIterator BaseDelta.

(** ** The overlay *)

Section overlay.
Context `{C : Comparator, !ComparatorLaws C}.
#[local] Abbreviation sorted := (sorted Compare).

Definition live (D : list WriteEntry) : list (bytes * bytes) :=
  omap (λ e, if is_delete e then None else Some (we_key e, we_value e)) D.
Definition shown (D : list WriteEntry) (B : list (bytes * bytes)) : list (bytes * bytes) :=
  filter (λ kv, Forall (λ e, Compare (we_key e) (fst kv) ≠ 0) D) B.
Definition key_le (a b : bytes * bytes) : Prop := Compare (fst a) (fst b) ≤ 0.
#[local] Instance key_le_dec a b : Decision (key_le a b).
Proof. unfold key_le. apply _. Defined.
Definition overlay (B : list (bytes * bytes)) (D : list WriteEntry) : list (bytes * bytes) :=
  list_merge key_le (live D) (shown D B).

(** What each operation promises: an operation that is not allowed reports it. *)
Definition not_allowed (o : cursor_op) : Status :=
  NotSupported (match o with CNext => str "Next() on invalid iterator" | _ => str "Prev() on invalid iterator" end).
Definition overlay_step (m : list (bytes * bytes)) (o : cursor_op) (s : option nat * Status) : option nat * Status :=
  if cursor_may o (fst s) then (cursor_step Compare m o (fst s), OK) else (fst s, not_allowed o).
Definition overlay_run (m : list (bytes * bytes)) (ops : list cursor_op) (s : option nat * Status) : option nat * Status :=
  foldl (λ s o, overlay_step m o s) s ops.

Lemma list_merge_sorted (l1 l2 : list (bytes * bytes)) :
  sorted l1 → sorted l2 → (∀ a b, a ∈ l1 → b ∈ l2 → Compare (fst a) (fst b) ≠ 0) →
  sorted (list_merge key_le l1 l2).
Proof.
  intros Hs1. revert l2. induction Hs1 as [|a l1 Hs1 IH1 Ha]; intros l2; [by rewrite list_merge_nil_l|].
  induction 1 as [|b l2 Hs2 IH2 Hb]; intros Hne; [rewrite list_merge_nil_r; by constructor|].
  rewrite list_merge_cons. rewrite Forall_forall in Ha, Hb.
  assert (Compare (fst a) (fst b) ≠ 0) as Hab by (apply Hne; by left).
  unfold key_le at 1. destruct (decide (Compare (fst a) (fst b) ≤ 0)) as [Hle|Hgt]; constructor.
  - apply IH1; [by constructor; [|rewrite Forall_forall]|]. intros a' b' ??. apply Hne; [by right|done].
  - apply Forall_forall. intros x. rewrite merge_Permutation, elem_of_app, elem_of_cons.
    intros [Hx|[->|Hx]]; [by apply Ha|lia|]. apply (Compare_lt_le _ (fst b)); [lia|]. specialize (Hb x Hx). lia.
  - apply IH2. intros a' b' ??. apply Hne; [done|by right].
  - assert (Compare (fst b) (fst a) < 0) as Hba by (apply Compare_flip; lia).
    apply Forall_forall. intros x. rewrite merge_Permutation, elem_of_app, elem_of_cons.
    intros [[->|Hx]|Hx]; [done| |by apply Hb]. apply (Compare_lt_le _ (fst a)); [done|]. specialize (Ha x Hx). lia.
Qed.

Lemma elem_of_live D k v : (k, v) ∈ live D ↔ ∃ e, e ∈ D ∧ is_delete e = false ∧ we_key e = k ∧ we_value e = v.
Proof.
  unfold live. rewrite list_elem_of_omap. split.
  - intros (e & He & Hk). destruct (is_delete e) eqn:Hd; [done|]. injection Hk as <- <-. by exists e.
  - intros (e & He & Hd & <- & <-). exists e. by rewrite Hd.
Qed.
Lemma elem_of_overlay B D k v :
  (k, v) ∈ overlay B D ↔
  (∃ e, e ∈ D ∧ is_delete e = false ∧ we_key e = k ∧ we_value e = v) ∨
  ((k, v) ∈ B ∧ ∀ e, e ∈ D → Compare (we_key e) k ≠ 0).
Proof.
  unfold overlay, shown. rewrite merge_Permutation, elem_of_app, elem_of_live, list_elem_of_filter, Forall_forall. naive_solver.
Qed.
Lemma keyed_elem D k e : (k, e) ∈ keyed D ↔ e ∈ D ∧ we_key e = k.
Proof. unfold keyed. rewrite list_elem_of_fmap. split; [intros (e' & [= -> ->] & ?); by split|intros [? <-]; eauto]. Qed.

Lemma live_sorted D : sorted (keyed D) → sorted (live D).
Proof.
  induction D as [|e D IH]; cbn; [constructor|]. intros [Hs Ha]%StronglySorted_inv.
  destruct (is_delete e); [by apply IH|]. constructor; [by apply IH|]. rewrite Forall_forall in Ha. apply Forall_forall.
  intros [k v] (e' & He' & _ & <- & _)%elem_of_live. apply (Ha (we_key e', e')). by apply keyed_elem.
Qed.
Lemma shown_sorted D B : sorted B → sorted (shown D B).
Proof.
  unfold shown. induction 1 as [|a B Hs IH Ha]; cbn; [constructor|]. case_decide; [|done]. constructor; [done|].
  rewrite Forall_forall in Ha |- *. intros x [_ Hx]%list_elem_of_filter. by apply Ha.
Qed.
Lemma overlay_sorted B D : sorted B → sorted (keyed D) → sorted (overlay B D).
Proof.
  intros HB HD. apply list_merge_sorted; [by apply live_sorted|by apply shown_sorted|].
  intros [k v] [k' v'] (e & He & _ & <- & _)%elem_of_live. unfold shown. rewrite list_elem_of_filter, Forall_forall.
  intros [Hf _]. by apply Hf.
Qed.
End overlay.

(** ** Places of the two iterators *)

Section correct.
Context {I J : Type} `{Build} `{C : Comparator, !ComparatorLaws C}.
Context `{II : InternalIterator I, L : !IteratorLaws Compare I} `{JJ : WBWIIterator J, LJ : !WBWIIteratorLaws Compare J}.
#[local] Abbreviation BaseDeltaIterator := (BaseDeltaIterator I J).
#[local] Abbreviation sorted := (sorted Compare).
Context (B : list (bytes * bytes)) (D : list WriteEntry) (ub : option bytes).
Context (HB : sorted B) (HD : sorted (keyed D)) (Hub : ∀ u e, ub = Some u → e ∈ D → Compare (we_key e) u < 0).
Implicit Types (it : BaseDeltaIterator) (P : bytes → bool).
#[local] Abbreviation M := (overlay B D).

Definition is_forward (dir : Direction) : bool := match dir with kForward => true | kReverse => false end.

Record between (dir : Direction) P it : Prop := {
  bt_base : it_at B (dir_pos dir P B) (base_iterator_ it);
  bt_delta : wb_at D (dir_pos dir P (keyed D)) (delta_iterator_ it);
  bt_forward : forward_ it = is_forward dir;
  bt_bound : iterate_upper_bound_ it = ub;
}.

(** What UpdateCurrent leaves: the flags say whose entry comes first. *)
Definition settled (dir : Direction) P it : Prop :=
  match dir_entry dir P B, dir_entry dir P (keyed D) with
  | Some (b, _), Some (d, e) =>
      equal_keys_ it = bool_decide (Compare d b = 0) ∧
      if later dir d b then current_at_base_ it = true else current_at_base_ it = false ∧ is_delete e = false
  | Some _, None => equal_keys_ it = false ∧ current_at_base_ it = true
  | None, Some (_, e) => equal_keys_ it = false ∧ current_at_base_ it = false ∧ is_delete e = false
  | None, None => True
  end.

Definition remaining (dir : Direction) P : nat :=
  match dir with kForward => length (keyed D) - count P (keyed D) | kReverse => count P (keyed D) end.

Lemma keyed_lookup i k e : keyed D !! i = Some (k, e) → D !! i = Some e ∧ k = we_key e.
Proof. unfold keyed. rewrite list_lookup_fmap. destruct (D !! i); [|done]. by intros [= <- <-]. Qed.

Lemma valid_spec dir P it :
  between dir P it →
  BaseValid it = bool_decide (is_Some (dir_entry dir P B)) ∧ DeltaValid it = bool_decide (is_Some (dir_entry dir P (keyed D))).
Proof.
  intros [Hb Hd _ _]. unfold BaseValid, DeltaValid. rewrite (it_at_Valid _ _ _ Hb), (wb_at_Valid _ _ _ Hd).
  split; apply bool_decide_ext; by rewrite dir_entry_is_Some.
Qed.
Lemma base_key dir P it k v :
  between dir P it → dir_entry dir P B = Some (k, v) →
  it_key (base_iterator_ it) = Done k ∧ it_value (base_iterator_ it) = Done v.
Proof. intros [Hb _ _ _] (i & Hi & Hk)%dir_entry_Some. rewrite Hi in Hb. apply (it_at_key _ _ _ _ Hb Hk). Qed.
Lemma delta_entry dir P it k e :
  between dir P it → dir_entry dir P (keyed D) = Some (k, e) → wb_Entry (delta_iterator_ it) = Done e ∧ k = we_key e ∧ e ∈ D.
Proof.
  intros [_ Hd _ _] (i & Hi & [Hk ->]%keyed_lookup)%dir_entry_Some. rewrite Hi in Hd.
  split_and!; [by apply (wb_at_Entry _ _ _ _ Hd)|done|by eapply list_elem_of_lookup_2].
Qed.

Lemma AdvanceBase_spec dir i it :
  it_at B (Some i) (base_iterator_ it) → forward_ it = is_forward dir →
  ∃ b, AdvanceBase it = Done (set_base b it) ∧ it_at B (cursor_step Compare B (step_op dir) (Some i)) b.
Proof.
  intros Hat Hf. destruct (it_at_step B (Some i) _ (step_op dir) Hat) as (b & E & Hb); [by destruct dir|].
  exists b. split; [|done]. unfold AdvanceBase, on_base. rewrite Hf. destruct dir; cbn in E |- *; by rewrite E.
Qed.
Lemma AdvanceDelta_spec dir i it :
  wb_at D (Some i) (delta_iterator_ it) → forward_ it = is_forward dir →
  ∃ d, AdvanceDelta it = Done (set_delta d it) ∧ wb_at D (cursor_step Compare (keyed D) (step_op dir) (Some i)) d.
Proof.
  intros Hat Hf. destruct (wb_at_step D (Some i) _ (step_op dir) Hat) as (d & E & Hd); [by destruct dir|].
  exists d. split; [|done]. unfold AdvanceDelta, on_delta. rewrite Hf. destruct dir; cbn in E |- *; by rewrite E.
Qed.

(** Advancing past one's own entry. *)
Lemma AdvanceBase_past dir P it k v :
  it_at B (dir_pos dir P B) (base_iterator_ it) → forward_ it = is_forward dir → dir_entry dir P B = Some (k, v) →
  ∃ b, AdvanceBase it = Done (set_base b it) ∧ it_at B (dir_pos dir (past dir k) B) b.
Proof.
  intros Hat Hf (i & Hi & Hk)%dir_entry_Some. rewrite Hi in Hat. destruct (AdvanceBase_spec dir i it Hat Hf) as (b & E & Hb).
  rewrite (step_position dir B i k v HB Hk) in Hb. by exists b.
Qed.
Lemma AdvanceDelta_past dir P it k e :
  wb_at D (dir_pos dir P (keyed D)) (delta_iterator_ it) → forward_ it = is_forward dir →
  dir_entry dir P (keyed D) = Some (k, e) →
  ∃ d, AdvanceDelta it = Done (set_delta d it) ∧ wb_at D (dir_pos dir (past dir k) (keyed D)) d.
Proof.
  intros Hat Hf (i & Hi & Hk)%dir_entry_Some. rewrite Hi in Hat. destruct (AdvanceDelta_spec dir i it Hat Hf) as (d & E & Hd).
  rewrite (step_position dir (keyed D) i k e HD Hk) in Hd. by exists d.
Qed.

Lemma remaining_past dir P k e :
  dir_entry dir P (keyed D) = Some (k, e) → (remaining dir (past dir k) < remaining dir P)%nat.
Proof.
  intros (i & Hi & Hk)%dir_entry_Some. pose proof (lookup_lt_Some _ _ _ Hk). unfold remaining. destruct dir; cbn in Hi |- *.
  - rewrite (count_upto_at (keyed D) i k e HD Hk). unfold pos_from in Hi. destruct (decide _); [|done]. injection Hi as <-. lia.
  - rewrite (count_less_at (keyed D) i k e HD Hk). unfold pos_before in Hi. destruct (count P (keyed D)); [done|]. injection Hi as <-. lia.
Qed.
Lemma remaining_le dir P : (remaining dir P ≤ length D)%nat.
Proof. unfold remaining. pose proof (count_le P (keyed D)). unfold keyed in *. rewrite length_fmap in *. destruct dir; lia. Qed.

(** ** The overlay's entry *)

(** An entry of one list that the other's does not come before moves the place
    in the other only if the keys are equal. *)
Lemma past_other {V} dir P (c : list (bytes * V)) k :
  sorted c → downward P → on_side dir P k = true →
  match dir_entry dir P c with Some (k', _) => later dir k' k = true | None => True end →
  dir_pos dir (past dir k) c = dir_pos dir P c.
Proof.
  intros Hs HP Hk Hfirst. apply past_same; [done..|]. intros k' v' Hin Hside.
  destruct (dir_entry dir P c) as [[k2 v2]|] eqn:E.
  - destruct (dir_entry_first dir P c k2 v2 Hs HP E) as (_ & _ & Hmin). eapply later_weaken; [by eapply Hmin|done].
  - by rewrite (dir_entry_last dir P c k' v' Hs HP E Hin) in Hside.
Qed.

(** The delta's entry comes first: it is the overlay's, unless it deletes. *)
Lemma delta_first dir P k e :
  closed P → dir_entry dir P (keyed D) = Some (k, e) →
  match dir_entry dir P B with Some (b, _) => later dir k b = false | None => True end →
  on_side dir P k = true ∧ (∀ k' v', (k', v') ∈ M → on_side dir P k' = true → later dir k k' = false) ∧
  (is_delete e = true → ∀ k' v', (k', v') ∈ M → on_side dir P k' = true → later dir k' k = true).
Proof.
  intros HP Ed Eb. pose proof (closed_downward P HP) as Hdown.
  destruct (dir_entry_first dir P (keyed D) k e HD Hdown Ed) as ([He <-]%keyed_elem & Hside & Hmin).
  assert (∀ k' v', (k', v') ∈ B → on_side dir P k' = true → later dir (we_key e) k' = false) as HminB.
  { intros k' v' Hin Hk'. destruct (dir_entry dir P B) as [[b vb]|] eqn:E.
    - destruct (dir_entry_first dir P B b vb HB Hdown E) as (_ & _ & Hb). eapply later_nlt_trans; [done|by eapply Hb].
    - by rewrite (dir_entry_last dir P B k' v' HB Hdown E Hin) in Hk'. }
  split_and!; [done|..]; intros ?; [intros v'|intros k' v'];
    intros [(e' & He' & Hd' & <- & <-)|[Hin Hne]]%elem_of_overlay Hk'; try (by eapply HminB).
  - eapply Hmin; [|done]. by apply keyed_elem.
  - apply later_strict; [eapply Hmin; [by apply keyed_elem|done]|]. intros E.
    assert (e = e') as <-; [|congruence].
    assert ((we_key e, e) ∈ keyed D ∧ (we_key e', e') ∈ keyed D) as [[i Hi]%list_elem_of_lookup_1 [j Hj]%list_elem_of_lookup_1]
      by by rewrite !keyed_elem.
    pose proof (sorted_inj (keyed D) i j _ _ HD Hi Hj E) as ->. rewrite Hi in Hj. by injection Hj.
  - apply later_strict; [by eapply HminB|]. by apply Hne.
Qed.

(** The base's entry comes first. *)
Lemma base_first dir P k v :
  closed P → dir_entry dir P B = Some (k, v) →
  match dir_entry dir P (keyed D) with Some (d, _) => later dir d k = true | None => True end →
  dir_entry dir P M = Some (k, v).
Proof.
  intros HP Eb Ed. pose proof (closed_downward P HP) as Hdown.
  destruct (dir_entry_first dir P B k v HB Hdown Eb) as (Hin & Hside & Hmin).
  assert (∀ e, e ∈ D → on_side dir P (we_key e) = true → later dir (we_key e) k = true) as HminD.
  { intros e He Hk'. assert ((we_key e, e) ∈ keyed D) as Hin' by by rewrite keyed_elem.
    destruct (dir_entry dir P (keyed D)) as [[d e']|] eqn:E.
    - destruct (dir_entry_first dir P (keyed D) d e' HD Hdown E) as (_ & _ & Hd). eapply later_weaken; [by eapply Hd|done].
    - by rewrite (dir_entry_last dir P (keyed D) _ e HD Hdown E Hin') in Hk'. }
  apply dir_entry_intro; [by apply overlay_sorted|done| |done|].
  - apply elem_of_overlay. right. split; [done|]. intros e He E.
    assert (on_side dir P (we_key e) = true) as Hs by by rewrite (closed_side dir P _ k HP E).
    specialize (HminD e He Hs). by rewrite (later_equal dir _ _ E) in HminD.
  - intros k' v' [(e & He & _ & <- & _)|[Hin' _]]%elem_of_overlay Hk'; [by apply later_asym, HminD|by eapply Hmin].
Qed.

Lemma overlay_skip dir P k e :
  closed P → dir_entry dir P (keyed D) = Some (k, e) → is_delete e = true →
  match dir_entry dir P B with Some (b, _) => later dir k b = false | None => True end →
  dir_pos dir (past dir k) M = dir_pos dir P M.
Proof.
  intros HP Ed Hdel Eb. destruct (delta_first dir P k e HP Ed Eb) as (Hside & _ & Hstrict).
  apply past_same; [by apply closed_downward|done|]. by apply Hstrict.
Qed.

(** Where the flags point is the overlay's entry. *)
Lemma settled_entry dir P it :
  closed P → between dir P it → settled dir P it →
  match dir_entry dir P M with
  | Some (k, v) => Valid it = true ∧ key it = Done k ∧ value it = Done v
  | None => Valid it = false
  end.
Proof.
  intros HP Hb Hs. pose proof (closed_downward P HP) as Hdown. destruct (valid_spec dir P it Hb) as [Hvb Hvd].
  assert (∀ k v, current_at_base_ it = true → dir_entry dir P B = Some (k, v) → Valid it = true ∧ key it = Done k ∧ value it = Done v) as Hbase.
  { intros k v Hc Ek. unfold Valid, key, value. rewrite Hc, Hvb, Ek. destruct (base_key dir P it k v Hb Ek) as [-> ->].
    split_and!; [by apply bool_decide_eq_true_2|done..]. }
  assert (∀ k e, current_at_base_ it = false → dir_entry dir P (keyed D) = Some (k, e) → is_delete e = false →
    match dir_entry dir P B with Some (b, _) => later dir k b = false | None => True end →
    dir_entry dir P M = Some (k, we_value e) ∧ Valid it = true ∧ key it = Done k ∧ value it = Done (we_value e)) as Hdelta.
  { intros k e Hc Ek Hdel Hfirst. destruct (delta_first dir P k e HP Ek Hfirst) as (Hside & Hmin & _).
    destruct (delta_entry dir P it k e Hb Ek) as (Ent & -> & He). split.
    - apply dir_entry_intro; [by apply overlay_sorted|done| |done|done]. apply elem_of_overlay. left. by exists e.
    - unfold Valid, key, value. rewrite Hc, Hvd, Ek, Ent. split_and!; [by apply bool_decide_eq_true_2|done..]. }
  unfold settled in Hs. destruct (dir_entry dir P B) as [[b v]|] eqn:Eb, (dir_entry dir P (keyed D)) as [[d e]|] eqn:Ed.
  - destruct Hs as [_ Hs]. destruct (later dir d b) eqn:Hl.
    + rewrite (base_first dir P b v HP Eb); [by apply Hbase|by rewrite Ed].
    + destruct Hs as [Hc Hdel]. destruct (Hdelta d e Hc eq_refl Hdel Hl) as [-> ?]. done.
  - destruct Hs as [_ Hc]. rewrite (base_first dir P b v HP Eb); [by apply Hbase|by rewrite Ed].
  - destruct Hs as (_ & Hc & Hdel). destruct (Hdelta d e Hc eq_refl Hdel Logic.I) as [-> ?]. done.
  - rewrite (dir_entry_none dir P M); [|by apply overlay_sorted|done|].
    + unfold Valid. rewrite Hvb, Hvd. by destruct (current_at_base_ it); apply bool_decide_eq_false_2; intros [? [=]].
    + intros k v [(e & He & _ & <- & _)|[Hin _]]%elem_of_overlay.
      * by apply (dir_entry_last dir P (keyed D) _ e HD Hdown Ed), keyed_elem.
      * by apply (dir_entry_last dir P B k v HB Hdown Eb).
Qed.

(** ** UpdateCurrent *)

Lemma between_flags dir P b c it :
  between dir P it → between dir P (set_current_at_base b (set_equal_keys c it)).
Proof. by intros [? ? ? ?]. Qed.
Lemma sign_later dir a b : (((if is_forward dir then 1 else -1) * Compare a b) <=? 0) = negb (later dir a b).
Proof. destruct dir; cbn [is_forward later]; destruct (Compare a b) as [|p|p]; done. Qed.
Lemma sign_zero dir a b : (((if is_forward dir then 1 else -1) * Compare a b) =? 0) = bool_decide (Compare a b = 0).
Proof. apply eq_true_iff_eq. rewrite Z.eqb_eq, bool_decide_eq_true. destruct dir; cbn [is_forward]; lia. Qed.

(** What a pass of the loop leaves: it stops settled, or has skipped a deletion. *)
Definition body_post (dir : Direction) P it (r : bool * BaseDeltaIterator) : Prop :=
  status_ (snd r) = status_ it ∧
  if fst r then
    ∃ k e, dir_entry dir P (keyed D) = Some (k, e) ∧ dir_pos dir (past dir k) M = dir_pos dir P M ∧
      between dir (past dir k) (snd r)
  else between dir P (snd r) ∧ settled dir P (snd r).

(** The deletion at [k] is passed, and the base's entry with it if it has the key. *)
Lemma skip_spec dir P it k e :
  closed P → between dir P it → dir_entry dir P (keyed D) = Some (k, e) → is_delete e = true →
  match dir_entry dir P B with
  | Some (b, _) => later dir k b = false ∧ equal_keys_ it = bool_decide (Compare k b = 0)
  | None => equal_keys_ it = false
  end →
  ∃ it1 it', AdvanceDelta it = Done it1 ∧ equal_keys_ it1 = equal_keys_ it ∧
    (if equal_keys_ it then AdvanceBase it1 else Done it1) = Done it' ∧ body_post dir P it (true, it').
Proof.
  intros HP [Hb Hd Hf Hu] Ed Hdel Eb. pose proof (closed_downward P HP) as Hdown.
  destruct (AdvanceDelta_past dir P it k e Hd Hf Ed) as (d & -> & Hd'). exists (set_delta d it).
  assert (match dir_entry dir P B with Some (b, _) => later dir k b = false | None => True end) as Hfirst
    by by destruct (dir_entry dir P B) as [[b v]|]; [apply Eb|].
  destruct (delta_first dir P k e HP Ed Hfirst) as (Hside & _ & _).
  pose proof (overlay_skip dir P k e HP Ed Hdel Hfirst) as HM.
  assert (equal_keys_ it = false → it_at B (dir_pos dir (past dir k) B) (base_iterator_ it)) as Hstay.
  { intros He. rewrite (past_other dir P B k HB Hdown Hside); [done|]. destruct (dir_entry dir P B) as [[b v]|]; [|done].
    destruct Eb as [Hl Eq]. apply later_strict; [done|]. rewrite He in Eq. symmetry in Eq. by apply bool_decide_eq_false in Eq. }
  destruct (equal_keys_ it) eqn:Heq.
  - destruct (dir_entry dir P B) as [[b v]|] eqn:E; [|done]. destruct Eb as [_ Eq]. symmetry in Eq. apply bool_decide_eq_true in Eq.
    destruct (AdvanceBase_past dir P (set_delta d it) b v) as (b' & -> & Hb'); [done..|].
    eexists. do 4 (split; [done|]). exists k, e. split_and!; [done..|]. split; [|done..]. cbn.
    rewrite <- (past_equal dir k b Eq). exact Hb'.
  - eexists. do 4 (split; [done|]). exists k, e. split_and!; [done..|]. split; [by apply Hstay|done..].
Qed.

Lemma body_spec dir P it :
  closed P → between dir P it →
  ∃ r, UpdateCurrent_body (snd <$> dir_entry dir P (keyed D)) it = Done r ∧ body_post dir P it r.
Proof.
  intros HP Hbt. destruct (valid_spec dir P it Hbt) as [Hvb _]. pose proof (bt_base _ _ _ Hbt) as Hb.
  assert (∀ b c, settled dir P (set_current_at_base b (set_equal_keys c it)) →
    body_post dir P it (false, set_current_at_base b (set_equal_keys c it))) as Hstop.
  { intros b c Hs. split; [done|]. split; [by apply between_flags|done]. }
  unfold UpdateCurrent_body. replace (BaseValid (set_equal_keys false it)) with (BaseValid it) by done. rewrite Hvb.
  cbn [base_iterator_ set_equal_keys iterate_upper_bound_ forward_]. rewrite (it_at_status _ _ _ Hb).
  destruct (dir_entry dir P B) as [[b v]|] eqn:Eb.
  - rewrite bool_decide_eq_true_2 by done. cbn [negb]. destruct (dir_entry dir P (keyed D)) as [[k e]|] eqn:Ed; cbn [fmap option_fmap option_map snd].
    + destruct (base_key dir P it b v Hbt Eb) as [-> _]. destruct (delta_entry dir P it k e Hbt Ed) as (_ & -> & _).
      cbn [mbind R_bind]. rewrite (bt_forward _ _ _ Hbt), sign_later, sign_zero. destruct (later dir (we_key e) b) eqn:Hl; cbn [negb].
      * eexists. split; [done|]. apply Hstop. unfold settled. rewrite Eb, Ed. cbn. rewrite Hl. split; [|done].
        symmetry. apply bool_decide_eq_false_2. intros E. by rewrite (later_equal dir _ _ E) in Hl.
      * set (it1 := if bool_decide _ then _ else _).
        assert (it1 = set_equal_keys (bool_decide (Compare (we_key e) b = 0)) it) as -> by (unfold it1; repeat case_bool_decide; done).
        destruct (is_delete e) eqn:Hdel; cbn [negb].
        -- destruct (skip_spec dir P (set_equal_keys (bool_decide (Compare (we_key e) b = 0)) it) (we_key e) e HP) as (it1 & it' & E1 & Eq & E & Hp);
             [by destruct Hbt|done..|by rewrite Eb|].
           rewrite E1. cbn [mbind R_bind]. rewrite Eq, E. cbn [mbind R_bind]. by eexists.
        -- eexists. split; [done|]. apply Hstop. unfold settled. rewrite Eb, Ed. cbn. by rewrite Hl.
    + eexists. split; [done|]. apply Hstop. unfold settled. by rewrite Eb, Ed.
  - rewrite bool_decide_eq_false_2 by (by intros [? [=]]). cbn [negb].
    destruct (dir_entry dir P (keyed D)) as [[k e]|] eqn:Ed; cbn [fmap option_fmap option_map snd ok has_code].
    + destruct (delta_entry dir P it k e Hbt Ed) as (_ & -> & He).
      assert ((match iterate_upper_bound_ it with Some u => 0 <=? Compare (we_key e) u | None => false end) = false) as ->.
      { rewrite (bt_bound _ _ _ Hbt). destruct ub as [u|] eqn:Eu; [|done]. apply Z.leb_gt. by apply (Hub u e). }
      destruct (is_delete e) eqn:Hdel.
      * destruct (skip_spec dir P (set_equal_keys false it) (we_key e) e HP) as (it1 & it' & E1 & Eq & E & Hp);
          [by destruct Hbt|done..|by rewrite Eb|].
        rewrite E1. cbn [mbind R_bind]. injection E as ->. by eexists.
      * eexists. split; [done|]. apply Hstop. unfold settled. by rewrite Eb, Ed.
    + eexists. split; [done|]. split; [done|]. split; [by destruct Hbt|]. unfold settled. by rewrite Eb, Ed.
Qed.

Lemma loop_spec fuel dir P it :
  (remaining dir P < fuel)%nat → closed P → between dir P it →
  ∃ it' P', UpdateCurrent_loop fuel it = Done it' ∧ closed P' ∧ between dir P' it' ∧ settled dir P' it' ∧
    dir_pos dir P' M = dir_pos dir P M ∧ status_ it' = status_ it.
Proof.
  revert P it. induction fuel as [|fuel IH]; intros P it Hfuel HP Hbt; [lia|]. cbn [UpdateCurrent_loop].
  rewrite (wb_at_status _ _ _ (bt_delta _ _ _ Hbt)). change (ok OK) with true. rewrite andb_false_r, assert_true.
  assert ((if DeltaValid it then _ ← Done (); Some <$> wb_Entry (delta_iterator_ it) else Done None) =
    Done (snd <$> dir_entry dir P (keyed D))) as Eent.
  { destruct (valid_spec dir P it Hbt) as [_ ->]. destruct (dir_entry dir P (keyed D)) as [[k e]|] eqn:Ed.
    - rewrite bool_decide_eq_true_2 by done. cbn. by destruct (delta_entry dir P it k e Hbt Ed) as (-> & _).
    - by rewrite bool_decide_eq_false_2 by (by intros [? [=]]). }
  rewrite Eent. cbn [mbind R_bind]. destruct (body_spec dir P it HP Hbt) as ([go it1] & -> & Hst & Hpost).
  cbn [mbind R_bind fst snd] in *. destruct go.
  - destruct Hpost as (k & e & Ed & HM & Hbt1).
    destruct (IH (past dir k) it1) as (it' & P' & E & HP' & Hbt' & Hs & HM' & Hst');
      [pose proof (remaining_past dir P k e Ed); lia|apply past_closed|done|].
    exists it', P'. refine (conj E (conj HP' (conj Hbt' (conj Hs (conj _ _))))); congruence.
  - exists it1, P. destruct Hpost. by refine (conj eq_refl (conj HP (conj _ (conj _ (conj eq_refl _))))).
Qed.
Lemma UpdateCurrent_spec fuel dir P it :
  (length D < fuel)%nat → closed P → between dir P it →
  ∃ it' P', UpdateCurrent fuel it = Done it' ∧ closed P' ∧ between dir P' it' ∧ settled dir P' it' ∧
    dir_pos dir P' M = dir_pos dir P M ∧ status_ it' = OK.
Proof.
  intros Hfuel HP [? ? ? ?]. pose proof (remaining_le dir P). by apply (loop_spec fuel dir P (set_status OK it)); [lia|..].
Qed.

(** ** Operations *)

(** The current entry, by which of the two it is. *)
Lemma current_side dir P it k v :
  closed P → between dir P it → settled dir P it → dir_entry dir P M = Some (k, v) →
  if current_at_base_ it then dir_entry dir P B = Some (k, v)
  else ∃ e, dir_entry dir P (keyed D) = Some (k, e) ∧ v = we_value e.
Proof.
  intros HP Hbt Hs Ek. pose proof (settled_entry dir P it HP Hbt Hs) as Hcur. rewrite Ek in Hcur.
  destruct Hcur as (Hv & Hk & Hval). destruct (valid_spec dir P it Hbt) as [Hvb Hvd].
  unfold Valid, key, value in Hv, Hk, Hval. destruct (current_at_base_ it).
  - rewrite Hvb in Hv. apply bool_decide_eq_true in Hv as [[b vb] Eb]. destruct (base_key dir P it b vb Hbt Eb) as [E1 E2].
    rewrite Eb. congruence.
  - rewrite Hvd in Hv. apply bool_decide_eq_true in Hv as [[d e] Ed]. destruct (delta_entry dir P it d e Hbt Ed) as (E1 & -> & _).
    rewrite E1 in Hk, Hval. injection Hk as <-. injection Hval as <-. by exists e.
Qed.

Lemma Advance_iterators_spec dir P it k v :
  closed P → between dir P it → settled dir P it → dir_entry dir P M = Some (k, v) →
  ∃ it', Advance_iterators it = Done it' ∧ between dir (past dir k) it'.
Proof.
  intros HP Hbt Hs Ek. pose proof (closed_downward P HP) as Hdown. pose proof (current_side dir P it k v HP Hbt Hs Ek) as Hcur.
  destruct (valid_spec dir P it Hbt) as [Hvb Hvd]. unfold Advance_iterators. rewrite Hvb, Hvd.
  unfold settled in Hs. destruct Hbt as [Hb Hd Hf Hu]. destruct (equal_keys_ it) eqn:Heq.
  - destruct (dir_entry dir P B) as [[b vb]|] eqn:Eb, (dir_entry dir P (keyed D)) as [[d e]|] eqn:Ed; try by destruct Hs.
    2: { destruct (current_at_base_ it); [done|]. by destruct Hcur as (? & ? & _). }
    destruct Hs as [Eq Hs]. symmetry in Eq. apply bool_decide_eq_true in Eq. rewrite (later_equal dir d b Eq) in Hs.
    destruct Hs as [Hc _]. rewrite Hc in Hcur. destruct Hcur as (? & [= <- <-] & ->). rewrite !bool_decide_eq_true_2, assert_true by done.
    cbn [mbind R_bind]. destruct (AdvanceBase_past dir P it b vb Hb Hf Eb) as (b' & -> & Hb'). cbn [mbind R_bind].
    destruct (AdvanceDelta_past dir P (set_base b' it) d e Hd Hf Ed) as (d' & -> & Hd'). eexists. split; [done|]. split; [|done..].
    cbn. by rewrite <- (past_equal dir d b Eq).
  - destruct (current_at_base_ it) eqn:Hc.
    + rewrite Hcur in Hs |- *. rewrite bool_decide_eq_true_2, assert_true by done. cbn [mbind R_bind].
      destruct (dir_entry_first dir P B k v HB Hdown Hcur) as (_ & Hside & _).
      destruct (AdvanceBase_past dir P it k v Hb Hf Hcur) as (b' & -> & Hb'). eexists. split; [done|]. split; [done| |done..]. cbn.
      rewrite (past_other dir P (keyed D) k HD Hdown Hside); [done|]. destruct (dir_entry dir P (keyed D)) as [[d e]|]; [|done].
      destruct Hs as [_ Hs]. destruct (later dir d k); [done|]. by destruct Hs.
    + destruct Hcur as (e & Ed & ->). rewrite Ed in Hs |- *. rewrite (bool_decide_eq_true_2 (is_Some (Some (k, e)))), assert_true by done. cbn [mbind R_bind].
      destruct (dir_entry_first dir P (keyed D) k e HD Hdown Ed) as (_ & Hside & _).
      destruct (AdvanceDelta_past dir P it k e Hd Hf Ed) as (d' & -> & Hd'). eexists. split; [done|]. split; [|done..]. cbn.
      rewrite (past_other dir P B k HB Hdown Hside); [done|]. destruct (dir_entry dir P B) as [[b vb]|]; [|done].
      destruct Hs as [Eq Hs]. symmetry in Eq. apply bool_decide_eq_false in Eq. apply later_strict; [|done].
      destruct (later dir k b); [congruence|done].
Qed.

(** After one of the two has turned, no keys are equal. *)
Lemma no_equal_keys dir P it :
  closed P →
  (it_at B (dir_pos (opposite dir) P B) (base_iterator_ it) ∧ wb_at D (dir_pos dir P (keyed D)) (delta_iterator_ it) ∨
   it_at B (dir_pos dir P B) (base_iterator_ it) ∧ wb_at D (dir_pos (opposite dir) P (keyed D)) (delta_iterator_ it)) →
  (if DeltaValid it && BaseValid it then
     e ← wb_Entry (delta_iterator_ it); k ← it_key (base_iterator_ it);
     Done (if Equal (we_key e) k then set_equal_keys true it else it)
   else Done it) = Done it.
Proof.
  intros HP Hat. pose proof (closed_downward P HP) as Hdown.
  assert (∃ b d, it_at B (dir_pos b P B) (base_iterator_ it) ∧ wb_at D (dir_pos d P (keyed D)) (delta_iterator_ it) ∧
    ∀ k, on_side b P k = negb (on_side d P k)) as (b & d & Hb & Hd & Hside).
  { destruct Hat as [[Hb Hd]|[Hb Hd]]; do 2 eexists; split_and!; [done..| |done|done|]; intros k; rewrite opposite_side; by rewrite ?negb_involutive. }
  unfold DeltaValid, BaseValid. rewrite (it_at_Valid _ _ _ Hb), (wb_at_Valid _ _ _ Hd).
  destruct (dir_pos d P (keyed D)) as [j|] eqn:Ej; [|by rewrite (bool_decide_eq_false_2 (is_Some None)) by (by intros [? [=]])].
  destruct (dir_pos b P B) as [i|] eqn:Ei; [|by rewrite (bool_decide_eq_false_2 (is_Some None)), andb_false_r by (by intros [? [=]])].
  rewrite !bool_decide_eq_true_2 by done. cbn [andb].
  destruct (dir_pos_lookup d P (keyed D) j Ej) as [[k e] Hj]. destruct (dir_pos_lookup b P B i Ei) as [[k' v'] Hi].
  destruct (keyed_lookup j k e Hj) as [He ->]. rewrite (wb_at_Entry _ _ _ _ Hd He). destruct (it_at_key _ _ _ _ Hb Hi) as [-> _].
  cbn [mbind R_bind fst]. destruct (Equal (we_key e) k') eqn:E; [|done]. apply Equal_Compare in E.
  destruct (dir_entry_first d P (keyed D) (we_key e) e HD Hdown) as (_ & H1 & _); [by unfold dir_entry; rewrite Ej|].
  destruct (dir_entry_first b P B k' v' HB Hdown) as (_ & H2 & _); [by unfold dir_entry; rewrite Ei|].
  by rewrite Hside, <- (closed_side d P _ _ HP E), H1 in H2.
Qed.

(** An iterator that turns: from its end if it is exhausted, else by one. *)
Lemma turn_base dir P it :
  it_at B (dir_pos dir P B) (base_iterator_ it) → forward_ it = is_forward (opposite dir) →
  ∃ b, (if negb (bool_decide (is_Some (dir_entry dir P B)))
        then on_base (if is_forward (opposite dir) then it_SeekToFirst else it_SeekToLast) it else AdvanceBase it) =
       Done (set_base b it) ∧ it_at B (dir_pos (opposite dir) P B) b.
Proof.
  intros Hb Hf. destruct (dir_pos dir P B) as [i|] eqn:Ei.
  - rewrite bool_decide_eq_true_2 by (apply dir_entry_is_Some; by rewrite Ei). cbn [negb].
    destruct (AdvanceBase_spec (opposite dir) i it Hb Hf) as (b & E & Hb'). rewrite (turn_step dir P B i Ei) in Hb'. by exists b.
  - rewrite bool_decide_eq_false_2 by (rewrite dir_entry_is_Some, Ei; by intros [? [=]]). cbn [negb].
    destruct (it_at_step B None (base_iterator_ it) (end_op (opposite dir)) Hb) as (b & E & Hb'); [by destruct dir|].
    rewrite (turn_end dir P B None Ei) in Hb'. exists b. split; [|done]. unfold on_base. destruct dir; cbn in E |- *; by rewrite E.
Qed.
Lemma turn_delta dir P it :
  wb_at D (dir_pos dir P (keyed D)) (delta_iterator_ it) → forward_ it = is_forward (opposite dir) →
  ∃ d, (if negb (bool_decide (is_Some (dir_entry dir P (keyed D))))
        then on_delta (if is_forward (opposite dir) then wb_SeekToFirst else wb_SeekToLast) it else AdvanceDelta it) =
       Done (set_delta d it) ∧ wb_at D (dir_pos (opposite dir) P (keyed D)) d.
Proof.
  intros Hd Hf. destruct (dir_pos dir P (keyed D)) as [j|] eqn:Ej.
  - rewrite bool_decide_eq_true_2 by (apply dir_entry_is_Some; by rewrite Ej). cbn [negb].
    destruct (AdvanceDelta_spec (opposite dir) j it Hd Hf) as (d & E & Hd'). rewrite (turn_step dir P (keyed D) j Ej) in Hd'. by exists d.
  - rewrite bool_decide_eq_false_2 by (rewrite dir_entry_is_Some, Ej; by intros [? [=]]). cbn [negb].
    destruct (wb_at_step D None (delta_iterator_ it) (end_op (opposite dir)) Hd) as (d & E & Hd'); [by destruct dir|].
    rewrite (turn_end dir P (keyed D) None Ej) in Hd'. exists d. split; [|done]. unfold on_delta. destruct dir; cbn in E |- *; by rewrite E.
Qed.

(** Turning moves the iterator that is not current, then the current one is passed. *)
Lemma change_direction_spec dir P it k v :
  closed P → between dir P it → settled dir P it → dir_entry dir P M = Some (k, v) →
  ∃ it1 it2, change_direction (is_forward (opposite dir)) it = Done it1 ∧ Advance_iterators it1 = Done it2 ∧
    between (opposite dir) P it2.
Proof.
  intros HP Hbt Hs Ek. pose proof (current_side dir P it k v HP Hbt Hs Ek) as Hcur.
  destruct (valid_spec dir P it Hbt) as [Hvb Hvd]. destruct Hbt as [Hb Hd Hf Hu]. unfold change_direction.
  set (it0 := set_equal_keys false (set_forward (is_forward (opposite dir)) it)).
  change (BaseValid it0) with (BaseValid it). change (DeltaValid it0) with (DeltaValid it).
  change (current_at_base_ it0) with (current_at_base_ it). rewrite Hvb, Hvd.
  destruct (turn_base dir P it0 Hb eq_refl) as (b & Eb & Hb'), (turn_delta dir P it0 Hd eq_refl) as (d & Ed & Hd').
  destruct (current_at_base_ it) eqn:Hc.
  - destruct (dir_entry_Some dir P B _ Hcur) as (i & Hi & _).
    rewrite Hcur, (bool_decide_eq_true_2 (is_Some (Some (k, v)))), Ed by done. cbn [negb mbind R_bind].
    rewrite (no_equal_keys dir P (set_delta d it0) HP) by (by right). exists (set_delta d it0).
    unfold Advance_iterators. cbn [equal_keys_ set_delta it0 set_equal_keys current_at_base_ set_forward]. rewrite Hc.
    change (BaseValid (set_delta d it0)) with (BaseValid it). rewrite Hvb, Hcur, bool_decide_eq_true_2, assert_true by done. cbn [mbind R_bind].
    destruct (AdvanceBase_spec (opposite dir) i (set_delta d it0)) as (b2 & E & Hb2); [by rewrite <- Hi|done|].
    rewrite (turn_step dir P B i Hi) in Hb2. exists (set_base b2 (set_delta d it0)). split_and!; [done|exact E|]. by split.
  - destruct Hcur as (e & Ede & ->). destruct (dir_entry_Some dir P (keyed D) _ Ede) as (j & Hj & _).
    rewrite Ede, (bool_decide_eq_true_2 (is_Some (Some (k, e)))), assert_true by done. cbn [negb mbind R_bind]. rewrite Eb.
    cbn [mbind R_bind]. rewrite (no_equal_keys dir P (set_base b it0) HP) by (by left). exists (set_base b it0).
    unfold Advance_iterators. cbn [equal_keys_ set_base it0 set_equal_keys current_at_base_ set_forward]. rewrite Hc.
    change (DeltaValid (set_base b it0)) with (DeltaValid it). rewrite Hvd, Ede, bool_decide_eq_true_2, assert_true by done. cbn [mbind R_bind].
    destruct (AdvanceDelta_spec (opposite dir) j (set_base b it0)) as (d2 & E & Hd2); [by rewrite <- Hj|done|].
    rewrite (turn_step dir P (keyed D) j Hj) in Hd2. exists (set_delta d2 (set_base b it0)). split_and!; [done|exact E|]. by split.
Qed.

(** ** The cursor *)

Definition bd_at (s : option nat * Status) it : Prop :=
  (status_ it = snd s ∧ (snd s = OK ∨ ok (snd s) = false)) ∧ iterate_upper_bound_ it = ub ∧
  (∃ p, it_at B p (base_iterator_ it)) ∧ (∃ p, wb_at D p (delta_iterator_ it)) ∧
  match fst s with
  | Some j => ∃ dir P, closed P ∧ between dir P it ∧ settled dir P it ∧ dir_pos dir P M = Some j
  | None => Valid it = false
  end.

Lemma settled_at fuel dir P it :
  (length D < fuel)%nat → closed P → between dir P it →
  ∃ it', UpdateCurrent fuel it = Done it' ∧ bd_at (dir_pos dir P M, OK) it'.
Proof.
  intros Hfuel HP Hbt. destruct (UpdateCurrent_spec fuel dir P it Hfuel HP Hbt) as (it' & P' & -> & HP' & Hbt' & Hs' & <- & Hst).
  exists it'. split; [done|]. pose proof (settled_entry dir P' it' HP' Hbt' Hs') as Hcur. pose proof Hbt' as [? ? _ ?].
  refine (conj (conj Hst (or_introl eq_refl)) (conj _ (conj _ (conj _ _)))); [done|by eexists|by eexists|]. cbn [fst].
  destruct (dir_pos dir P' M) as [j|] eqn:Ej; [by exists dir, P'|]. by rewrite (proj2 (dir_pos_None dir P' M) Ej) in Hcur.
Qed.

Lemma bd_seek_spec fuel o s it :
  (length D < fuel)%nat → is_seek o = true → bd_at s it →
  ∃ it', bd_step fuel o it = Done it' ∧ bd_at (cursor_step Compare M o (fst s), OK) it'.
Proof.
  intros Hfuel Ho (_ & Hu & (p & Hb) & (q & Hd) & _).
  assert (bd_step fuel o it = (it ← on_base (it_step o) (set_forward (is_forward (seek_dir o)) it);
    it ← on_delta (wb_step o) it; UpdateCurrent fuel it)) as -> by by destruct o.
  assert (∀ pos, cursor_may o pos = true) as Hmay by by destruct o.
  destruct (it_at_step B p _ o Hb (Hmay p)) as (b & Eb & Hb'). destruct (wb_at_step D q _ o Hd (Hmay q)) as (d & Ed & Hd').
  unfold on_base, on_delta. cbn [base_iterator_ delta_iterator_ set_forward set_base]. rewrite Eb. cbn [mbind R_bind delta_iterator_ set_base set_forward].
  rewrite Ed. cbn [mbind R_bind]. rewrite (seek_position o B p Ho HB) in Hb'. rewrite (seek_position o (keyed D) q Ho HD) in Hd'.
  rewrite (seek_position o M (fst s) Ho) by by apply overlay_sorted. apply settled_at; [done|apply seek_closed|by split].
Qed.

Lemma bd_step_unfold fuel dir it :
  bd_step fuel (step_op dir) it =
  (if negb (Valid it) then Done (set_status (not_allowed (step_op dir)) it)
   else it ← (if Bool.eqb (forward_ it) (is_forward dir) then Done it else change_direction (is_forward dir) it); Advance fuel it).
Proof. destruct dir; cbn; unfold Next, Prev; destruct (negb (Valid it)), (forward_ it); done. Qed.

Lemma bd_step_spec fuel dir j st it :
  (length D < fuel)%nat → bd_at (Some j, st) it →
  ∃ it', bd_step fuel (step_op dir) it = Done it' ∧ bd_at (cursor_step Compare M (step_op dir) (Some j), OK) it'.
Proof.
  intros Hfuel (_ & _ & _ & _ & dir0 & P & HP & Hbt & Hs & Hj).
  assert (sorted M) as HM by by apply overlay_sorted. destruct (dir_pos_lookup dir0 P M j Hj) as [[k v] Hk].
  assert (dir_entry dir0 P M = Some (k, v)) as Ek by (unfold dir_entry; by rewrite Hj).
  pose proof (settled_entry dir0 P it HP Hbt Hs) as Hcur. rewrite Ek in Hcur. destruct Hcur as (Hv & _).
  rewrite bd_step_unfold, Hv, (bt_forward _ _ _ Hbt). cbn [negb]. destruct (decide (dir = dir0)) as [->|Hne].
  - rewrite Bool.eqb_reflx. unfold Advance. cbn [mbind R_bind].
    destruct (Advance_iterators_spec dir0 P it k v HP Hbt Hs Ek) as (it1 & -> & Hbt1). cbn [mbind R_bind].
    rewrite (step_position dir0 M j k v HM Hk). by apply settled_at; [|apply past_closed|].
  - assert (dir = opposite dir0) as -> by by destruct dir, dir0.
    replace (Bool.eqb (is_forward dir0) (is_forward (opposite dir0))) with false by by destruct dir0.
    destruct (change_direction_spec dir0 P it k v HP Hbt Hs Ek) as (it1 & it2 & -> & E2 & Hbt2). unfold Advance. cbn [mbind R_bind].
    rewrite E2. cbn [mbind R_bind]. rewrite (turn_step dir0 P M j Hj). by apply settled_at.
Qed.

Lemma bd_at_step fuel o s it :
  (length D < fuel)%nat → bd_at s it → ∃ it', bd_step fuel o it = Done it' ∧ bd_at (overlay_step M o s) it'.
Proof.
  intros Hfuel Hat. destruct s as [pos st]. unfold overlay_step. cbn [fst].
  destruct (is_seek o) eqn:Ho.
  - replace (cursor_may o pos) with true by by destruct o. by apply (bd_seek_spec fuel o (pos, st)).
  - assert (∃ dir, o = step_op dir) as (dir & ->) by (destruct o; try done; [by exists kForward|by exists kReverse]).
    destruct pos as [j|].
    + replace (cursor_may (step_op dir) (Some j)) with true by by destruct dir. by eapply bd_step_spec.
    + replace (cursor_may (step_op dir) None) with false by by destruct dir.
      destruct Hat as (_ & Hu & Hb & Hd & Hv). cbn [fst] in Hv. rewrite bd_step_unfold, Hv. cbn [negb]. eexists. split; [done|].
      refine (conj (conj eq_refl _) (conj Hu (conj Hb (conj Hd Hv)))). right. by destruct dir.
Qed.
Lemma bd_at_run fuel ops s it :
  (length D < fuel)%nat → bd_at s it → ∃ it', bd_run fuel ops it = Done it' ∧ bd_at (overlay_run M ops s) it'.
Proof.
  intros Hfuel. revert s it. induction ops as [|o ops IH]; intros s it Hat; [by exists it|]. cbn [bd_run].
  destruct (bd_at_step fuel o s it Hfuel Hat) as (it1 & -> & Hat1). cbn [mbind R_bind]. by apply IH.
Qed.

Lemma bd_at_reads s it :
  bd_at s it →
  status it = snd s ∧ Valid it = bool_decide (is_Some (fst s)) ∧
  ∀ j, fst s = Some j → ∃ k v, M !! j = Some (k, v) ∧ key it = Done k ∧ value it = Done v.
Proof.
  intros ((Hst & Hok) & _ & (p & Hb) & (q & Hd) & Hcur). refine (conj _ _).
  { unfold status. rewrite (it_at_status _ _ _ Hb), (wb_at_status _ _ _ Hd), Hst. by destruct Hok as [-> | ->]. }
  destruct (fst s) as [j|].
  - destruct Hcur as (dir & P & HP & Hbt & Hs & Hj). destruct (dir_pos_lookup dir P M j Hj) as [[k v] Hk].
    assert (dir_entry dir P M = Some (k, v)) as Ek by (unfold dir_entry; by rewrite Hj).
    pose proof (settled_entry dir P it HP Hbt Hs) as Hcur. rewrite Ek in Hcur. destruct Hcur as (Hv & Hkey & Hval).
    rewrite Hv, bool_decide_eq_true_2 by done. split; [done|]. intros ? [= <-]. by exists k, v.
  - rewrite Hcur, bool_decide_eq_false_2 by (by intros [? [=]]). by split.
Qed.
End correct.

(** ** The reference delta

    An iterator over entries by their keys is a WBWIIterator. *)
Section list_delta.
Context `{C : Comparator, !ComparatorLaws C} {J : Type} `{II : InternalIteratorBase WriteEntry J, L : !IteratorLaws Compare J}.

#[local] Instance keyed_WBWIIterator : WBWIIterator J := {
  wb_Valid := it_Valid; wb_SeekToFirst := it_SeekToFirst; wb_SeekToLast := it_SeekToLast;
  wb_Seek := it_Seek; wb_SeekForPrev := it_SeekForPrev; wb_Next := it_Next; wb_Prev := it_Prev;
  wb_Entry := it_value; wb_status := it_status;
}.
#[local] Program Instance keyed_WBWIIterator_laws : WBWIIteratorLaws Compare J := {| wb_at es pos it := it_at (keyed es) pos it |}.
Next Obligation. intros es pos it. apply it_at_status. Qed.
Next Obligation. intros es pos it. apply it_at_Valid. Qed.
Next Obligation. intros es i it Hat%it_at_range. unfold keyed in Hat. by rewrite length_fmap in Hat. Qed.
Next Obligation.
  intros es i it e Hat He. apply (it_at_key _ _ _ (we_key e, e) Hat). unfold keyed. by rewrite list_lookup_fmap, He.
Qed.
Next Obligation. intros es pos it o Hat Hmay. destruct (it_at_step (keyed es) pos it o Hat Hmay) as (it' & E & Hat'). exists it'. by destruct o. Qed.
End list_delta.

(** ** Correctness *)

(** C5. Over a delta whose keys are distinct and sorted, all of them below the
    upper bound if there is one, a BaseDeltaIterator is a cursor on the overlay
    of the delta on its base: whatever operations are called, in whatever order
    and however often the direction changes, it is where a cursor on the base's
    entries without those whose keys the delta has, together with the delta's
    entries that are not deletions, would be, and reads its key and value there;
    Next and Prev on an invalid iterator report NotSupported and move nothing.
    Base and delta may be any iterators that keep the laws of their interfaces;
    distinct keys are what an index that overwrites (WriteBatchWithIndex with
    overwrite_key) gives. Delta keys that are not below the bound are treated
    further down. *)
Theorem BaseDeltaIterator_is_overlay_cursor {I J : Type} `{Build} `{C : Comparator, !ComparatorLaws C}
    `{II : InternalIterator I, L : !IteratorLaws Compare I} `{JJ : WBWIIterator J, LJ : !WBWIIteratorLaws Compare J}
    (B : list (bytes * bytes)) (D : list WriteEntry) ub fuel ops base delta pos :
  it_at B None base → wb_at D pos delta → sorted Compare (keyed D) →
  (∀ u e, ub = Some u → e ∈ D → Compare (we_key e) u < 0) → (length D < fuel)%nat →
  let s := overlay_run (overlay B D) ops (None, OK) in
  ∃ it', bd_run fuel ops (new_BaseDeltaIterator base delta ub) = Done it' ∧
    status it' = snd s ∧ Valid it' = bool_decide (is_Some (fst s)) ∧
    ∀ j, fst s = Some j → ∃ k v, overlay B D !! j = Some (k, v) ∧ key it' = Done k ∧ value it' = Done v.
Proof.
  intros Hb Hd HD Hub Hfuel s. pose proof (it_at_sorted _ _ _ Hb) as HB.
  destruct (bd_at_run B D ub HB HD Hub fuel ops (None, OK) (new_BaseDeltaIterator base delta ub) Hfuel) as (it' & E & Hat).
  - refine (conj (conj eq_refl (or_introl eq_refl)) (conj eq_refl (conj _ (conj _ _)))); [by exists None|by exists pos|].
    cbn [fst]. unfold Valid. cbn. unfold BaseValid. cbn. rewrite (it_at_Valid _ _ _ Hb). by apply bool_decide_eq_false_2; intros [? [=]].
  - exists it'. split; [done|]. by apply (bd_at_reads B D ub HB HD).
Qed.

(** C29. The upper bound is not always kept: when the base is exhausted and the
    delta is at an entry at or above the bound, UpdateCurrent returns with
    [current_at_base_] as it was. If the base was current the iterator is
    finished; if the delta was, it stays valid, at the entry beyond the bound. *)
Theorem upper_bound_keeps_current {I J : Type} `{Build} `{Comparator} `{InternalIterator I} `{WBWIIterator J}
    (it : BaseDeltaIterator I J) fuel e u :
  BaseValid it = false → it_status (base_iterator_ it) = OK →
  DeltaValid it = true → wb_status (delta_iterator_ it) = OK → wb_Entry (delta_iterator_ it) = Done e →
  iterate_upper_bound_ it = Some u → 0 ≤ Compare (we_key e) u →
  ∃ it', UpdateCurrent (S fuel) it = Done it' ∧ status it' = OK ∧ Valid it' = negb (current_at_base_ it) ∧
    (Valid it' = true → key it' = Done (we_key e)).
Proof.
  intros Hb Hbs Hd Hds He Hu Hle. exists (set_equal_keys false (set_status OK it)).
  assert (∀ s b, DeltaValid (set_equal_keys b (set_status s it)) = true) as Hd' by done.
  refine (conj _ (conj _ _)).
  - unfold UpdateCurrent. cbn [UpdateCurrent_loop]. change (DeltaValid (set_status OK it)) with (DeltaValid it).
    rewrite Hd. cbn [negb andb delta_iterator_ set_status]. rewrite Hds, He. change (ok OK) with true. rewrite assert_true. cbn [mbind R_bind fmap R_fmap].
    unfold UpdateCurrent_body. change (BaseValid (set_equal_keys false (set_status OK it))) with (BaseValid it). rewrite Hb.
    cbn [negb base_iterator_ set_equal_keys set_status iterate_upper_bound_]. rewrite Hbs, Hu. change (ok OK) with true. cbn [negb].
    by rewrite (proj2 (Z.leb_le _ _) Hle).
  - unfold status. cbn. by rewrite Hbs, Hds.
  - change (Valid (set_equal_keys false (set_status OK it))) with (Valid it). unfold Valid, key. cbn. rewrite Hb, Hd, He.
    by destruct (current_at_base_ it).
Qed.

Lemma body_stops {I J : Type} `{Build} `{Comparator} `{InternalIterator I} `{WBWIIterator J} de (it it' : BaseDeltaIterator I J) :
  UpdateCurrent_body de it = Done (false, it') →
  base_iterator_ it' = base_iterator_ it ∧ delta_iterator_ it' = delta_iterator_ it ∧
  (BaseValid it = false → ok (it_status (base_iterator_ it)) = false → current_at_base_ it' = true).
Proof.
  unfold UpdateCurrent_body. change (BaseValid (set_equal_keys false it)) with (BaseValid it). cbn [base_iterator_ set_equal_keys].
  destruct (BaseValid it), (ok (it_status (base_iterator_ it))); cbn [negb]; destruct de as [e|]; try by intros [= <-].
  - intros (k & _ & E)%R_bind_Done. revert E. destruct (_ <=? 0); [|by intros [= <-]].
    destruct (is_delete e); cbn [negb]; [|by destruct (_ =? 0); intros [= <-]].
    by intros (? & _ & (? & _ & [=])%R_bind_Done)%R_bind_Done.
  - intros (k & _ & E)%R_bind_Done. revert E. destruct (_ <=? 0); [|by intros [= <-]].
    destruct (is_delete e); cbn [negb]; [|by destruct (_ =? 0); intros [= <-]].
    by intros (? & _ & (? & _ & [=])%R_bind_Done)%R_bind_Done.
  - destruct (match iterate_upper_bound_ _ with Some _ => _ | None => _ end); [by intros [= <-]|].
    destruct (is_delete e); [|by intros [= <-]]. by intros (? & _ & [=])%R_bind_Done.
Qed.

(** When a call returns with the base, or the delta, stopped by an error,
    the iterator is not valid and its status is an error. *)
Theorem UpdateCurrent_exposes_errors {I J : Type} `{Build} `{Comparator} `{InternalIterator I} `{WBWIIterator J}
    fuel (it it' : BaseDeltaIterator I J) :
  UpdateCurrent fuel it = Done it' →
  BaseValid it' = false ∧ ok (it_status (base_iterator_ it')) = false ∨
  DeltaValid it' = false ∧ ok (wb_status (delta_iterator_ it')) = false →
  Valid it' = false ∧ ok (status it') = false.
Proof.
  intros E Herr. split.
  - unfold UpdateCurrent in E. revert E. generalize (set_status OK it). clear it.
    induction fuel as [|fuel IH]; intros it; cbn [UpdateCurrent_loop]; [done|].
    destruct (negb (DeltaValid it) && negb (ok (wb_status (delta_iterator_ it)))) eqn:Ebad.
    { intros [= <-]. apply andb_true_iff in Ebad as [Hd%negb_true_iff _]. exact Hd. }
    intros (de & _ & Hrest)%R_bind_Done. apply R_bind_Done in Hrest as ([go it1] & Ebody & E). cbn [fst snd] in E.
    destruct go; [by apply (IH it1)|]. injection E as ->. destruct (body_stops de it it' Ebody) as (Eb & Ed & Hc).
    unfold Valid. destruct Herr as [[Hb Hs]|[Hd Hs]].
    + rewrite Hc; [done| |]; unfold BaseValid in *; by rewrite <- Eb.
    + unfold DeltaValid in Ebad, Hd. rewrite <- Ed, Hd, Hs in Ebad. done.
  - unfold status. destruct (ok (status_ it')) eqn:E1; cbn [negb]; [|done].
    destruct (ok (it_status (base_iterator_ it'))) eqn:E2; cbn [negb]; [|done]. by destruct Herr as [[_ ?]|[_ ?]].
Qed.

(** ** Examples *)

#[local] Instance Checked : Build := {| NDEBUG := false |}.
#[local] Existing Instance BytewiseComparator.
#[local] Existing Instance keyed_WBWIIterator.
#[local] Existing Instance keyed_WBWIIterator_laws.
Definition example_base : list (bytes * bytes) := [(str "b", str "1"); (str "d", str "2"); (str "f", str "3")].
Definition example_delta : list WriteEntry :=
  [mkWriteEntry kPutRecord (str "a") (str "4"); mkWriteEntry kDeleteRecord (str "b") [];
   mkWriteEntry kPutRecord (str "d") (str "5"); mkWriteEntry kSingleDeleteRecord (str "e") []].
Definition example_iterator (B : list (bytes * bytes)) (D : list WriteEntry) (ub : option bytes) :
    BaseDeltaIterator (ListIter bytes) (ListIter WriteEntry) :=
  new_BaseDeltaIterator (mkListIter B None) (mkListIter (keyed D) None) ub.

Example example_overlay : overlay example_base example_delta = [(str "a", str "4"); (str "d", str "5"); (str "f", str "3")].
Proof. vm_compute. reflexivity. Qed.

(** A seek, both directions, and a step off the end that is reported. *)
Lemma BaseDeltaIterator_is_overlay_cursor_witness :
  ∃ it', bd_run 5 [CSeek (str "b"); CPrev; CPrev; CNext; CLast; CPrev; CNext; CPrev] (example_iterator example_base example_delta None) = Done it' ∧
    status it' = OK ∧ Valid it' = true ∧ key it' = Done (str "d") ∧ value it' = Done (str "5").
Proof.
  destruct (BaseDeltaIterator_is_overlay_cursor example_base example_delta None 5
    [CSeek (str "b"); CPrev; CPrev; CNext; CLast; CPrev; CNext; CPrev] (mkListIter example_base None)
    (mkListIter (keyed example_delta) None) None) as (it' & E & Hst & Hv & Hr).
  - split_and!; [repeat (constructor; try (vm_compute; reflexivity))|done|done].
  - split_and!; [repeat (constructor; try (vm_compute; reflexivity))|done|done].
  - repeat (constructor; try (vm_compute; reflexivity)).
  - done.
  - vm_compute. lia.
  - exists it'. destruct (Hr 1%nat) as (k & v & Hkv & Hk & Hval); [vm_compute; reflexivity|].
    vm_compute in Hkv. injection Hkv as <- <-. rewrite Hst, Hv. split_and!; [exact E|vm_compute; reflexivity..|exact Hk|exact Hval].
Defined.

(** The delta goes on past the bound "m" once the base, here empty, is exhausted. *)
Definition bounded_delta : list WriteEntry :=
  [mkWriteEntry kPutRecord (str "a") (str "1"); mkWriteEntry kPutRecord (str "z") (str "2")].
Example bound_passed :
  (it ← bd_run 3 [CFirst; CNext] (example_iterator [] bounded_delta (Some (str "m"))); k ← key it; Done (Valid it, k)) =
  Done (true, str "z").
Proof. vm_compute. reflexivity. Qed.
(** With the base current when it ends, the same delta is cut off. *)
Example bound_kept :
  (it ← bd_run 3 [CFirst; CNext; CNext] (example_iterator [(str "b", str "3")] bounded_delta (Some (str "m"))); Done (Valid it)) =
  Done false.
Proof. vm_compute. reflexivity. Qed.
(** In reverse, an entry beyond the bound hides every other one. *)
Example bound_hides :
  (it ← bd_run 3 [CLast] (example_iterator [] bounded_delta (Some (str "m"))); Done (Valid it)) = Done false.
Proof. vm_compute. reflexivity. Qed.

Lemma upper_bound_keeps_current_witness :
  ∃ it', UpdateCurrent 1 (mkBaseDelta _ _ true false false OK (mkListIter [] None) (mkListIter (keyed bounded_delta) (Some 1%nat))
      (Some (str "m"))) = Done it' ∧ status it' = OK ∧ Valid it' = true ∧
    (Valid it' = true → key it' = Done (str "z")).
Proof.
  by apply (upper_bound_keeps_current (mkBaseDelta _ _ true false false OK (mkListIter [] None)
    (mkListIter (keyed bounded_delta) (Some 1%nat)) (Some (str "m"))) 0 (mkWriteEntry kPutRecord (str "z") (str "2")) (str "m")).
Defined.

Lemma UpdateCurrent_exposes_errors_witness :
  let it' := mkBaseDelta Status (ListIter WriteEntry) true true false OK (NotFound kNone) (mkListIter (keyed bounded_delta) (Some 0%nat)) None in
  Valid (II := EmptyInternalIterator) it' = false ∧ ok (status (II := EmptyInternalIterator) it') = false.
Proof.
  apply (UpdateCurrent_exposes_errors (InternalIterator0 := EmptyInternalIterator) 1
    (mkBaseDelta Status (ListIter WriteEntry) true true false OK (NotFound kNone) (mkListIter (keyed bounded_delta) (Some 0%nat)) None)).
  - vm_compute. reflexivity.
  - left. by split; vm_compute.
Defined.
