(* ===== verification/XXHash.v ===== *)
(** * xxHash (util/xxhash.h, util/xxhash.cc)

    XXH32 and XXH64, in one call and streamed: the lanes, the buffer that
    carries a partial stripe from one update to the next, both forms of the
    final mixing (the loop and the unrolled jump table), and the canonical
    representation of the results. The two streamed hashes are the same text for
    a stripe of 16 and of 32 bytes; what they share is stated once. Reads of
    aligned and of unaligned words give the same value and are not told apart. *)
From S2P Require Import Prelude Coding Result.

(** Which of the two forms the compiler is told to use. *)
Class XXHBuild := { XXH_REROLL : bool; XXH_REROLL_XXH64 : bool }.

(** ** Stripes *)

Record lanes := mkLanes { v1 : Z; v2 : Z; v3 : Z; v4 : Z }.

Section stripes.
Context (size : nat) (stripe : lanes → bytes → R lanes).

(** [do stripe while] a whole stripe is left. *)
Fixpoint stripes (fuel : nat) (v : lanes) (p : bytes) : R (lanes * bytes) :=
  match fuel with
  | O => Fault OutOfFuel
  | S fuel =>
      v ← stripe v p;
      let p := drop size p in
      if (size <=? length p)%nat then stripes fuel v p else Done (v, p)
  end.

(** [memcpy] of [src] to offset [off] of the state's buffer. *)
Definition memcpy (mem : bytes) (off : nat) (src : bytes) : R bytes :=
  _ ← require OutOfBounds (off + length src <=? length mem)%nat;
  Done (take off mem ++ src ++ drop (off + length src) mem).

(** The lanes, the buffer and how much of it is filled. *)
Abbreviation buffer := (lanes * bytes * nat)%type.

(** What the update functions do with their input. *)
Definition update_buffer (input : bytes) (b : buffer) : R buffer :=
  let '(v, mem, memsize) := b in
  if (memsize + length input <? size)%nat then
    mem ← memcpy mem memsize input;
    Done (v, mem, memsize + length input)%nat
  else
    st ← (if (memsize =? 0)%nat then Done (v, mem, input)
          else
            mem ← memcpy mem memsize (take (size - memsize) input);
            v ← stripe v mem;
            Done (v, mem, drop (size - memsize) input));
    let '(v, mem, p) := st in
    st ← (if (size <=? length p)%nat then stripes (length p) v p else Done (v, p));
    let '(v, p) := st in
    match p with
    | [] => Done (v, mem, 0%nat)
    | _ => mem ← memcpy mem 0 p; Done (v, mem, length p)
    end.
End stripes.

(** One step of the final mixing. *)
Inductive process := PROCESS1 | PROCESS4 | PROCESS8.
#[export] Instance process_eq_dec : EqDecision process.
Proof. solve_decision. Defined.

Section xxh.
Context `{Host, XXHBuild}.

(** ** Words *)

Definition XXH_rotl32 (x r : Z) : Z := u32 (x << r) .| (x >> (32 - r)).
Definition XXH_rotl64 (x r : Z) : Z := u64 (x << r) .| (x >> (64 - r)).

Definition XXH_swap32 (x : Z) : Z :=
  (u32 (x << 24) .& 0xff000000) .| (u32 (x << 8) .& 0x00ff0000) .| ((x >> 8) .& 0x0000ff00) .| ((x >> 24) .& 0x000000ff).
Definition XXH_swap64 (x : Z) : Z :=
  (u64 (x << 56) .& 0xff00000000000000) .| (u64 (x << 40) .& 0x00ff000000000000) .|
  (u64 (x << 24) .& 0x0000ff0000000000) .| (u64 (x << 8) .& 0x000000ff00000000) .|
  ((x >> 8) .& 0x00000000ff000000) .| ((x >> 24) .& 0x0000000000ff0000) .|
  ((x >> 40) .& 0x000000000000ff00) .| ((x >> 56) .& 0x00000000000000ff).

Definition XXH_read32 (p : bytes) : R Z := _ ← require OutOfBounds (4 <=? length p)%nat; Done (object_value 4 p).
Definition XXH_readLE32 (p : bytes) : R Z := w ← XXH_read32 p; Done (if kLittleEndian then w else XXH_swap32 w).
Definition XXH_readBE32 (p : bytes) : R Z := w ← XXH_read32 p; Done (if kLittleEndian then XXH_swap32 w else w).
Definition XXH_read64 (p : bytes) : R Z := _ ← require OutOfBounds (8 <=? length p)%nat; Done (object_value 8 p).
Definition XXH_readLE64 (p : bytes) : R Z := w ← XXH_read64 p; Done (if kLittleEndian then w else XXH_swap64 w).
Definition XXH_readBE64 (p : bytes) : R Z := w ← XXH_read64 p; Done (if kLittleEndian then XXH_swap64 w else w).

(** ** The 32-bit hash *)

Definition PRIME32_1 : Z := 0x9E3779B1.
Definition PRIME32_2 : Z := 0x85EBCA77.
Definition PRIME32_3 : Z := 0xC2B2AE3D.
Definition PRIME32_4 : Z := 0x27D4EB2F.
Definition PRIME32_5 : Z := 0x165667B1.

Definition XXH32_round (acc input : Z) : Z :=
  let acc := u32 (acc + input * PRIME32_2) in
  let acc := XXH_rotl32 acc 13 in
  u32 (acc * PRIME32_1).

Definition XXH32_avalanche (h32 : Z) : Z :=
  let h32 := h32 .^ (h32 >> 15) in
  let h32 := u32 (h32 * PRIME32_2) in
  let h32 := h32 .^ (h32 >> 13) in
  let h32 := u32 (h32 * PRIME32_3) in
  h32 .^ (h32 >> 16).

Definition XXH32_process (o : process) (st : Z * bytes) : R (Z * bytes) :=
  let '(h32, ptr) := st in
  match o with
  | PROCESS1 =>
      b ← checked OutOfBounds (head ptr);
      let h32 := u32 (h32 + b * PRIME32_5) in
      Done (u32 (XXH_rotl32 h32 11 * PRIME32_1), tail ptr)
  | PROCESS4 =>
      w ← XXH_readLE32 ptr;
      let h32 := u32 (h32 + w * PRIME32_3) in
      Done (u32 (XXH_rotl32 h32 17 * PRIME32_4), drop 4 ptr)
  | PROCESS8 => Fault Undefined
  end.

Fixpoint processes (one : process → Z * bytes → R (Z * bytes)) (os : list process) (st : Z * bytes) : R (Z * bytes) :=
  match os with [] => Done st | o :: os => st ← one o st; processes one os st end.

(** [while (len >= n) { PROCESS; len -= n; }], what is done and what is left. *)
Fixpoint loop_of (fuel n : nat) (o : process) (len : nat) : list process * nat :=
  match fuel with
  | O => ([], len)
  | S fuel =>
      if (n <=? len)%nat then let '(os, rest) := loop_of fuel n o (len - n) in (o :: os, rest) else ([], len)
  end.

(** The rerolled loops, and the labels of the jump table with what falls
    through below each. *)
Definition rerolled32 (len : nat) : list process :=
  let '(fours, len) := loop_of len 4 PROCESS4 len in
  let '(ones, _) := loop_of len 1 PROCESS1 len in fours ++ ones.
Definition unrolled32 (len : nat) : list process :=
  match len with
  | 12 => [PROCESS4; PROCESS4; PROCESS4] | 8 => [PROCESS4; PROCESS4] | 4 => [PROCESS4]
  | 13 => [PROCESS4; PROCESS4; PROCESS4; PROCESS1] | 9 => [PROCESS4; PROCESS4; PROCESS1] | 5 => [PROCESS4; PROCESS1]
  | 14 => [PROCESS4; PROCESS4; PROCESS4; PROCESS1; PROCESS1] | 10 => [PROCESS4; PROCESS4; PROCESS1; PROCESS1]
  | 6 => [PROCESS4; PROCESS1; PROCESS1]
  | 15 => [PROCESS4; PROCESS4; PROCESS4; PROCESS1; PROCESS1; PROCESS1] | 11 => [PROCESS4; PROCESS4; PROCESS1; PROCESS1; PROCESS1]
  | 7 => [PROCESS4; PROCESS1; PROCESS1; PROCESS1]
  | 3 => [PROCESS1; PROCESS1; PROCESS1] | 2 => [PROCESS1; PROCESS1] | 1 => [PROCESS1]
  | _ => []
  end%nat.

Definition XXH32_finalize (h32 : Z) (ptr : bytes) (len : nat) : R Z :=
  let os := if XXH_REROLL then rerolled32 (len mod 16) else unrolled32 (len mod 16) in
  st ← processes XXH32_process os (h32, ptr);
  Done (XXH32_avalanche (fst st)).

(** The lanes that [XXH32_endian_align] and [XXH32_reset] start with. *)
Definition lanes32 (seed : Z) : lanes :=
  mkLanes (u32 (seed + PRIME32_1 + PRIME32_2)) (u32 (seed + PRIME32_2)) (u32 (seed + 0)) (u32 (seed - PRIME32_1)).

Definition stripe32 (v : lanes) (p : bytes) : R lanes :=
  a ← XXH_readLE32 p; let p := drop 4 p in
  b ← XXH_readLE32 p; let p := drop 4 p in
  c ← XXH_readLE32 p; let p := drop 4 p in
  d ← XXH_readLE32 p;
  Done (mkLanes (XXH32_round (v1 v) a) (XXH32_round (v2 v) b) (XXH32_round (v3 v) c) (XXH32_round (v4 v) d)).

Definition converge32 (v : lanes) : Z :=
  u32 (XXH_rotl32 (v1 v) 1 + XXH_rotl32 (v2 v) 7 + XXH_rotl32 (v3 v) 12 + XXH_rotl32 (v4 v) 18).

Definition XXH32 (input : bytes) (seed : Z) : R Z :=
  st ← (if (16 <=? length input)%nat then
          st ← stripes 16 stripe32 (length input) (lanes32 seed) input;
          let '(v, input) := st in Done (converge32 v, input)
        else Done (u32 (seed + PRIME32_5), input));
  let '(h32, rest) := st in
  XXH32_finalize (u32 (h32 + blen input)) rest (length input mod 16).

Record XXH32_state := mkState32 {
  total_len_32 : Z; large_len : bool; lanes_32 : lanes; mem32 : bytes; memsize_32 : nat }.

Definition XXH32_reset (seed : Z) : XXH32_state := mkState32 0 false (lanes32 seed) (replicate 16 0) 0.

(** A null input is refused and changes nothing. *)
Definition XXH32_update (input : option bytes) (s : XXH32_state) : R (bool * XXH32_state) :=
  match input with
  | None => Done (false, s)
  | Some input =>
      let total := u32 (total_len_32 s + blen input) in
      let large := large_len s || (16 <=? blen input) || (16 <=? total) in
      b ← update_buffer 16 stripe32 input (lanes_32 s, mem32 s, memsize_32 s);
      let '(v, mem, memsize) := b in
      Done (true, mkState32 total large v mem memsize)
  end.

Definition XXH32_digest (s : XXH32_state) : R Z :=
  let h32 := if large_len s then converge32 (lanes_32 s) else u32 (v3 (lanes_32 s) + PRIME32_5) in
  XXH32_finalize (u32 (h32 + total_len_32 s)) (mem32 s) (memsize_32 s).

Definition XXH32_canonicalFromHash (hash : Z) : bytes := object_bytes 4 (if kLittleEndian then XXH_swap32 hash else hash).
Definition XXH32_hashFromCanonical (src : bytes) : R Z := XXH_readBE32 src.

(** ** The 64-bit hash *)

Definition PRIME64_1 : Z := 0x9E3779B185EBCA87.
Definition PRIME64_2 : Z := 0xC2B2AE3D27D4EB4F.
Definition PRIME64_3 : Z := 0x165667B19E3779F9.
Definition PRIME64_4 : Z := 0x85EBCA77C2B2AE63.
Definition PRIME64_5 : Z := 0x27D4EB2F165667C5.

Definition XXH64_round (acc input : Z) : Z :=
  let acc := u64 (acc + input * PRIME64_2) in
  let acc := XXH_rotl64 acc 31 in
  u64 (acc * PRIME64_1).

Definition XXH64_mergeRound (acc val : Z) : Z :=
  let val := XXH64_round 0 val in
  let acc := acc .^ val in
  u64 (acc * PRIME64_1 + PRIME64_4).

Definition XXH64_avalanche (h64 : Z) : Z :=
  let h64 := h64 .^ (h64 >> 33) in
  let h64 := u64 (h64 * PRIME64_2) in
  let h64 := h64 .^ (h64 >> 29) in
  let h64 := u64 (h64 * PRIME64_3) in
  h64 .^ (h64 >> 32).

Definition XXH64_process (o : process) (st : Z * bytes) : R (Z * bytes) :=
  let '(h64, ptr) := st in
  match o with
  | PROCESS1 =>
      b ← checked OutOfBounds (head ptr);
      let h64 := h64 .^ u64 (b * PRIME64_5) in
      Done (u64 (XXH_rotl64 h64 11 * PRIME64_1), tail ptr)
  | PROCESS4 =>
      w ← XXH_readLE32 ptr;
      let h64 := h64 .^ u64 (w * PRIME64_1) in
      Done (u64 (XXH_rotl64 h64 23 * PRIME64_2 + PRIME64_3), drop 4 ptr)
  | PROCESS8 =>
      w ← XXH_readLE64 ptr;
      let k1 := XXH64_round 0 w in
      let h64 := h64 .^ k1 in
      Done (u64 (XXH_rotl64 h64 27 * PRIME64_1 + PRIME64_4), drop 8 ptr)
  end.

Definition rerolled64 (len : nat) : list process :=
  let '(eights, len) := loop_of len 8 PROCESS8 len in
  let '(four, len) := if (4 <=? len)%nat then ([PROCESS4], (len - 4)%nat) else ([], len) in
  let '(ones, _) := loop_of len 1 PROCESS1 len in eights ++ four ++ ones.
Definition unrolled64 (len : nat) : list process :=
  match len with
  | 24 => [PROCESS8; PROCESS8; PROCESS8] | 16 => [PROCESS8; PROCESS8] | 8 => [PROCESS8]
  | 28 => [PROCESS8; PROCESS8; PROCESS8; PROCESS4] | 20 => [PROCESS8; PROCESS8; PROCESS4]
  | 12 => [PROCESS8; PROCESS4] | 4 => [PROCESS4]
  | 25 => [PROCESS8; PROCESS8; PROCESS8; PROCESS1] | 17 => [PROCESS8; PROCESS8; PROCESS1] | 9 => [PROCESS8; PROCESS1]
  | 29 => [PROCESS8; PROCESS8; PROCESS8; PROCESS4; PROCESS1] | 21 => [PROCESS8; PROCESS8; PROCESS4; PROCESS1]
  | 13 => [PROCESS8; PROCESS4; PROCESS1] | 5 => [PROCESS4; PROCESS1]
  | 26 => [PROCESS8; PROCESS8; PROCESS8; PROCESS1; PROCESS1] | 18 => [PROCESS8; PROCESS8; PROCESS1; PROCESS1]
  | 10 => [PROCESS8; PROCESS1; PROCESS1]
  | 30 => [PROCESS8; PROCESS8; PROCESS8; PROCESS4; PROCESS1; PROCESS1]
  | 22 => [PROCESS8; PROCESS8; PROCESS4; PROCESS1; PROCESS1] | 14 => [PROCESS8; PROCESS4; PROCESS1; PROCESS1]
  | 6 => [PROCESS4; PROCESS1; PROCESS1]
  | 27 => [PROCESS8; PROCESS8; PROCESS8; PROCESS1; PROCESS1; PROCESS1]
  | 19 => [PROCESS8; PROCESS8; PROCESS1; PROCESS1; PROCESS1] | 11 => [PROCESS8; PROCESS1; PROCESS1; PROCESS1]
  | 31 => [PROCESS8; PROCESS8; PROCESS8; PROCESS4; PROCESS1; PROCESS1; PROCESS1]
  | 23 => [PROCESS8; PROCESS8; PROCESS4; PROCESS1; PROCESS1; PROCESS1]
  | 15 => [PROCESS8; PROCESS4; PROCESS1; PROCESS1; PROCESS1]
  | 7 => [PROCESS4; PROCESS1; PROCESS1; PROCESS1]
  | 3 => [PROCESS1; PROCESS1; PROCESS1] | 2 => [PROCESS1; PROCESS1] | 1 => [PROCESS1]
  | _ => []
  end%nat.

Definition XXH64_finalize (h64 : Z) (ptr : bytes) (len : Z) : R Z :=
  let len := Z.to_nat (len .& 31) in
  let os := if XXH_REROLL || XXH_REROLL_XXH64 then rerolled64 len else unrolled64 len in
  st ← processes XXH64_process os (h64, ptr);
  Done (XXH64_avalanche (fst st)).

Definition lanes64 (seed : Z) : lanes :=
  mkLanes (u64 (seed + PRIME64_1 + PRIME64_2)) (u64 (seed + PRIME64_2)) (u64 (seed + 0)) (u64 (seed - PRIME64_1)).

Definition stripe64 (v : lanes) (p : bytes) : R lanes :=
  a ← XXH_readLE64 p; let p := drop 8 p in
  b ← XXH_readLE64 p; let p := drop 8 p in
  c ← XXH_readLE64 p; let p := drop 8 p in
  d ← XXH_readLE64 p;
  Done (mkLanes (XXH64_round (v1 v) a) (XXH64_round (v2 v) b) (XXH64_round (v3 v) c) (XXH64_round (v4 v) d)).

Definition converge64 (v : lanes) : Z :=
  let h64 := u64 (XXH_rotl64 (v1 v) 1 + XXH_rotl64 (v2 v) 7 + XXH_rotl64 (v3 v) 12 + XXH_rotl64 (v4 v) 18) in
  let h64 := XXH64_mergeRound h64 (v1 v) in
  let h64 := XXH64_mergeRound h64 (v2 v) in
  let h64 := XXH64_mergeRound h64 (v3 v) in
  XXH64_mergeRound h64 (v4 v).

Definition XXH64 (input : bytes) (seed : Z) : R Z :=
  st ← (if (32 <=? length input)%nat then
          st ← stripes 32 stripe64 (length input) (lanes64 seed) input;
          let '(v, input) := st in Done (converge64 v, input)
        else Done (u64 (seed + PRIME64_5), input));
  let '(h64, rest) := st in
  XXH64_finalize (u64 (h64 + blen input)) rest (blen input).

Record XXH64_state := mkState64 {
  total_len : Z; lanes_64 : lanes; mem64 : bytes; memsize_64 : nat }.

Definition XXH64_reset (seed : Z) : XXH64_state := mkState64 0 (lanes64 seed) (replicate 32 0) 0.

Definition XXH64_update (input : option bytes) (s : XXH64_state) : R (bool * XXH64_state) :=
  match input with
  | None => Done (false, s)
  | Some input =>
      let total := u64 (total_len s + blen input) in
      b ← update_buffer 32 stripe64 input (lanes_64 s, mem64 s, memsize_64 s);
      let '(v, mem, memsize) := b in
      Done (true, mkState64 total v mem memsize)
  end.

Definition XXH64_digest (s : XXH64_state) : R Z :=
  let h64 := if 32 <=? total_len s then converge64 (lanes_64 s) else u64 (v3 (lanes_64 s) + PRIME64_5) in
  XXH64_finalize (u64 (h64 + total_len s)) (mem64 s) (total_len s).

Definition XXH64_canonicalFromHash (hash : Z) : bytes := object_bytes 8 (if kLittleEndian then XXH_swap64 hash else hash).
Definition XXH64_hashFromCanonical (src : bytes) : R Z := XXH_readBE64 src.
End xxh.
