(* ===== verification/XXHashCorrect.v ===== *)
(** * Streamed xxHash is xxHash

    Whatever the pieces an input is streamed in, the digest is the hash of the
    whole input, and the jump tables of the final mixing do what the loops do.
    [runs] is the meaning of the lanes after an input: every whole stripe mixed
    in, and the rest. *)
From S2P Require Import Prelude Coding Result XXHash.

(** ** Stripes and rests *)

Section runs.
Context (size : nat) (stripe : lanes → bytes → R lanes) (mixed : lanes → bytes → lanes).
Hypothesis size_pos : (0 < size)%nat.
Hypothesis stripe_mixed : ∀ v s p, length s = size → stripe v (s ++ p) = Done (mixed v s).

Inductive runs : lanes → bytes → lanes → bytes → Prop :=
  | runs_rest v r : (length r < size)%nat → runs v r v r
  | runs_stripe v s p v' r : length s = size → runs (mixed v s) p v' r → runs v (s ++ p) v' r.

Lemma runs_exists v s : ∃ v' r, runs v s v' r.
Proof.
  remember (length s) as n eqn:En. revert v s En. induction n as [n IH] using lt_wf_ind. intros v s ->.
  destruct (decide (length s < size)%nat) as [|Hge]; [by exists v, s; constructor|].
  destruct (IH (length (drop size s))) with (v := mixed v (take size s)) (s := drop size s) as (v' & r & Hr);
    [rewrite length_drop; lia|done|].
  exists v', r. rewrite <- (take_drop size s). constructor; [rewrite length_take; lia|done].
Qed.

Lemma runs_inv v s p v' r : length s = size → runs v (s ++ p) v' r → runs (mixed v s) p v' r.
Proof.
  intros Hl Hr. remember (s ++ p) as t eqn:E. destruct Hr as [v r Hlt|v s' p' v' r Hl' Hr].
  - subst. rewrite length_app in Hlt. lia.
  - apply app_inj_1 in E as [-> ->]; [done|lia].
Qed.

Lemma runs_short v s v' r : (length s < size)%nat → runs v s v' r → v' = v ∧ r = s.
Proof. intros Hl Hr. destruct Hr as [|v s p v' r Hs Hr]; [done|]. rewrite length_app in Hl. lia. Qed.

Lemma runs_fun v s v1 r1 v2 r2 : runs v s v1 r1 → runs v s v2 r2 → v1 = v2 ∧ r1 = r2.
Proof.
  intros Hr. revert v2 r2. induction Hr as [v r Hl|v s p v' r Hl Hr IH]; intros v2 r2 H2.
  - by destruct (runs_short _ _ _ _ Hl H2) as [-> ->].
  - by apply IH, runs_inv.
Qed.

Lemma runs_app v s v1 r1 t v2 r2 : runs v s v1 r1 → runs v1 (r1 ++ t) v2 r2 → runs v (s ++ t) v2 r2.
Proof. induction 1 as [|v s p v' r Hl Hr IH]; intros H2; [done|]. rewrite <- app_assoc. constructor; auto. Qed.

Lemma runs_length v s v' r : runs v s v' r → (length r < size)%nat ∧ length r = (length s mod size)%nat.
Proof.
  induction 1 as [v r Hl|v s p v' r Hl Hr [IH1 IH2]]; [by rewrite Nat.mod_small|]. split; [done|]. rewrite IH2, length_app, Hl.
  replace (size + length p)%nat with (length p + 1 * size)%nat by lia. rewrite Nat.Div0.mod_add. done.
Qed.

Lemma stripes_runs fuel v p v' r :
  (size ≤ length p)%nat → (length p ≤ fuel)%nat → runs v p v' r → stripes size stripe fuel v p = Done (v', r).
Proof.
  revert v p. induction fuel as [|fuel IH]; intros v p Hge Hf Hr; [lia|]. cbn [stripes].
  rewrite <- (take_drop size p) in Hr. apply runs_inv in Hr; [|rewrite length_take; lia].
  rewrite <- (take_drop size p) at 1. rewrite stripe_mixed by (rewrite length_take; lia). cbn [mbind R_bind].
  destruct (Nat.leb_spec size (length (drop size p))) as [Hle|Hlt].
  - apply IH; [done|rewrite length_drop; lia|done].
  - by destruct (runs_short _ _ _ _ Hlt Hr) as [-> ->].
Qed.

(** The buffer of a state: what has not been mixed in yet. *)
Definition holds (mem r : bytes) (memsize : nat) : Prop :=
  length mem = size ∧ take memsize mem = r ∧ memsize = length r.

Lemma memcpy_holds mem r k src :
  holds mem r k → (k + length src ≤ size)%nat →
  ∃ mem', memcpy mem k src = Done mem' ∧ holds mem' (r ++ src) (k + length src).
Proof.
  intros (Hl & Ht & Hk) Hfit. unfold memcpy. replace (k + length src <=? length mem)%nat with true by (symmetry; apply Nat.leb_le; lia).
  cbn [require mbind R_bind]. eexists. split; [done|]. rewrite Ht. split_and!.
  - rewrite !length_app, length_drop. lia.
  - rewrite app_assoc, take_app_length' by (rewrite length_app; lia). done.
  - rewrite length_app. lia.
Qed.

Lemma update_buffer_runs v mem r k input v' r' :
  holds mem r k → (k < size)%nat → runs v (r ++ input) v' r' →
  ∃ mem', update_buffer size stripe input (v, mem, k) = Done (v', mem', length r') ∧ holds mem' r' (length r').
Proof.
  intros Hh Hk Hr. pose proof Hh as (Hl & Ht & Ek). unfold update_buffer.
  destruct (Nat.ltb_spec (k + length input) size) as [Hlt|Hge].
  { destruct (memcpy_holds mem r k input Hh) as (mem' & -> & Hh'); [lia|]. cbn [mbind R_bind].
    apply runs_short in Hr as [-> ->]; [|rewrite length_app; lia].
    rewrite length_app, <- Ek. by exists mem'. }
  assert (∃ v1 mem1 p, (if (k =? 0)%nat then Done (v, mem, input)
      else mem ← memcpy mem k (take (size - k) input);
           v ← stripe v mem; Done (v, mem, drop (size - k) input)) = Done (v1, mem1, p) ∧
      length mem1 = size ∧ runs v1 p v' r') as (v1 & mem1 & p & -> & Hl1 & Hr1).
  { destruct (Nat.eqb_spec k 0) as [->|Hk0].
    - destruct r; [|done]. by exists v, mem, input.
    - destruct (memcpy_holds mem r k (take (size - k) input) Hh) as (mem1 & -> & Hl1 & Ht1 & _); [rewrite length_take; lia|].
      cbn [mbind R_bind]. rewrite length_take, take_ge in Ht1 by lia. subst mem1.
      rewrite <- (app_nil_r (r ++ _)). rewrite stripe_mixed by done. cbn [mbind R_bind]. do 3 eexists.
      split; [done|]. split; [by rewrite app_nil_r|]. apply runs_inv; [done|]. by rewrite <- app_assoc, take_drop. }
  cbn [mbind R_bind].
  assert ((if (size <=? length p)%nat then stripes size stripe (length p) v1 p else Done (v1, p)) = Done (v', r')) as ->.
  { destruct (Nat.leb_spec size (length p)) as [Hle|Hlt]; [by apply stripes_runs|].
    by destruct (runs_short _ _ _ _ Hlt Hr1) as [-> ->]. }
  cbn [mbind R_bind]. destruct (runs_length _ _ _ _ Hr1) as [Hr' _]. destruct r' as [|b r']; [by exists mem1|].
  destruct (memcpy_holds mem1 [] 0 (b :: r')) as (mem' & -> & Hh'); [done|lia|]. by exists mem'.
Qed.
End runs.

(** ** The final mixing *)

(** The jump tables do what the loops do. *)
Lemma unrolled_rerolled n : (n < 32)%nat →
  ((n < 16)%nat → unrolled32 n = rerolled32 n) ∧ unrolled64 n = rerolled64 n.
Proof. intros Hn. do 32 (destruct n as [|n]; [split; [intros|]; (reflexivity || lia)|]). lia. Qed.

Definition process_size (o : process) : nat := match o with PROCESS1 => 1 | PROCESS4 => 4 | PROCESS8 => 8 end.
Definition processes_size (os : list process) : nat := sum_list_with process_size os.

Lemma unrolled_size n : (n < 32)%nat →
  ((n < 16)%nat → processes_size (unrolled32 n) = n ∧ PROCESS8 ∉ unrolled32 n) ∧ processes_size (unrolled64 n) = n.
Proof.
  intros Hn. do 32 (destruct n as [|n]; [split; [intros; first [lia|split; [reflexivity|apply (bool_decide_unpack _); exact I]]|reflexivity]|]). lia.
Qed.

Section finalize.
Context `{Host, XXHBuild}.

Lemma length_ge_app (n : nat) (r x : bytes) : (n ≤ length r)%nat → (n <=? length r)%nat = true ∧ (n <=? length (r ++ x))%nat = true.
Proof. intros. rewrite length_app, !Nat.leb_le. lia. Qed.

Lemma readLE_app r x :
  ((4 ≤ length r)%nat → ∃ w, XXH_readLE32 r = Done w ∧ XXH_readLE32 (r ++ x) = Done w) ∧
  ((8 ≤ length r)%nat → ∃ w, XXH_readLE64 r = Done w ∧ XXH_readLE64 (r ++ x) = Done w).
Proof.
  unfold XXH_readLE32, XXH_readLE64, XXH_read32, XXH_read64, object_value. split; intros Hl;
    destruct (length_ge_app _ r x Hl) as [-> ->]; cbn [require mbind R_bind]; rewrite take_app_le by done; by eexists.
Qed.

(** A step of the mixing reads its own bytes only. *)
Definition reads_own (one : process → Z * bytes → R (Z * bytes)) (o : process) : Prop :=
  ∀ h r x, (process_size o ≤ length r)%nat →
    ∃ h', one o (h, r) = Done (h', drop (process_size o) r) ∧ one o (h, r ++ x) = Done (h', drop (process_size o) r ++ x).

Lemma XXH32_process_reads o : o ≠ PROCESS8 → reads_own XXH32_process o.
Proof.
  intros Ho h r x Hl. destruct o; [..|done]; cbn [XXH32_process process_size] in *.
  - destruct r as [|b r]; [cbn in Hl; lia|]. cbn. by eexists.
  - destruct (readLE_app r x) as [E _]. destruct (E Hl) as (w & -> & ->). cbn [mbind R_bind]. rewrite drop_app_le by done. by eexists.
Qed.

Lemma XXH64_process_reads o : reads_own XXH64_process o.
Proof.
  intros h r x Hl. destruct o; cbn [XXH64_process process_size] in *.
  - destruct r as [|b r]; [cbn in Hl; lia|]. cbn. by eexists.
  - destruct (readLE_app r x) as [E _]. destruct (E Hl) as (w & -> & ->). cbn [mbind R_bind]. rewrite drop_app_le by done. by eexists.
  - destruct (readLE_app r x) as [_ E]. destruct (E Hl) as (w & -> & ->). cbn [mbind R_bind]. rewrite drop_app_le by done. by eexists.
Qed.

Lemma processes_reads one os h r x :
  (∀ o, o ∈ os → reads_own one o) → (processes_size os ≤ length r)%nat →
  ∃ h' r', processes one os (h, r) = Done (h', r') ∧ processes one os (h, r ++ x) = Done (h', r' ++ x).
Proof.
  revert h r. induction os as [|o os IH]; intros h r Hos Hl; [by exists h, r|]. cbn in Hl. fold (processes_size os) in Hl. cbn [processes].
  destruct (Hos o ltac:(by left) h r x ltac:(lia)) as (h1 & -> & ->). cbn [mbind R_bind].
  apply IH; [intros; apply Hos; by right|rewrite length_drop; lia].
Qed.

Lemma XXH32_finalize_reads h r x n : n = length r → (length r < 16)%nat →
  ∃ d, XXH32_finalize h r n = Done d ∧ XXH32_finalize h (r ++ x) n = Done d.
Proof.
  intros -> Hl. unfold XXH32_finalize. rewrite Nat.mod_small by done.
  destruct (unrolled_rerolled (length r)) as [E _]; [lia|]. rewrite <- (E Hl).
  destruct (unrolled_size (length r)) as [Hs _]; [lia|]. destruct (Hs Hl) as [Hsz H8].
  replace (if XXH_REROLL then _ else _) with (unrolled32 (length r)) by (by destruct XXH_REROLL).
  destruct (processes_reads XXH32_process (unrolled32 (length r)) h r x) as (h' & r' & -> & ->);
    [intros o Ho; apply XXH32_process_reads; by intros ->|lia|]. cbn [mbind R_bind]. by eexists.
Qed.

Lemma XXH64_finalize_reads h r x len : len .& 31 = blen r →
  ∃ d, XXH64_finalize h r len = Done d ∧ XXH64_finalize h (r ++ x) len = Done d.
Proof.
  intros El. unfold XXH64_finalize. rewrite El. unfold blen in *. rewrite Nat2Z.id.
  assert (length r < 32)%nat as Hl.
  { rewrite (land_mask len 5) in El by done. pose proof (wrap_range 5 len ltac:(lia)). unfold in_range in *. lia. }
  destruct (unrolled_rerolled (length r)) as [_ <-]; [done|]. destruct (unrolled_size (length r)) as [_ Hsz]; [done|].
  replace (if XXH_REROLL || XXH_REROLL_XXH64 then _ else _) with (unrolled64 (length r)) by (by destruct (XXH_REROLL || XXH_REROLL_XXH64)).
  destruct (processes_reads XXH64_process (unrolled64 (length r)) h r x) as (h' & r' & -> & ->);
    [intros; apply XXH64_process_reads|lia|]. cbn [mbind R_bind]. by eexists.
Qed.
End finalize.

(** ** Streaming *)

Section stream.
Context `{Host, XXHBuild}.

(** What a stripe does, as a function. *)
Definition mixed_by (stripe : lanes → bytes → R lanes) (v : lanes) (s : bytes) : lanes :=
  match stripe v s with Done v' => v' | Fault _ => v end.

Lemma readLE_at k s p :
  ((k + 4 ≤ length s)%nat → ∃ w, XXH_readLE32 (drop k s) = Done w ∧ XXH_readLE32 (drop k (s ++ p)) = Done w) ∧
  ((k + 8 ≤ length s)%nat → ∃ w, XXH_readLE64 (drop k s) = Done w ∧ XXH_readLE64 (drop k (s ++ p)) = Done w).
Proof.
  split; intros Hl; rewrite drop_app_le by lia; apply readLE_app; rewrite length_drop; lia.
Qed.

Lemma stripe32_mixed v s p : length s = 16%nat → stripe32 v (s ++ p) = Done (mixed_by stripe32 v s).
Proof.
  intros Hl. unfold mixed_by, stripe32. rewrite !drop_drop. cbn [Nat.add].
  destruct (readLE_at 0 s p) as [(a & Ea & Ea') _]; [lia|]. rewrite !drop_0 in *. rewrite Ea, Ea'. cbn [mbind R_bind].
  destruct (readLE_at 4 s p) as [(b & -> & ->) _]; [lia|]. cbn [mbind R_bind].
  destruct (readLE_at 8 s p) as [(c & -> & ->) _]; [lia|]. cbn [mbind R_bind].
  by destruct (readLE_at 12 s p) as [(d & -> & ->) _]; [lia|].
Qed.

Lemma stripe64_mixed v s p : length s = 32%nat → stripe64 v (s ++ p) = Done (mixed_by stripe64 v s).
Proof.
  intros Hl. unfold mixed_by, stripe64. rewrite !drop_drop. cbn [Nat.add].
  destruct (readLE_at 0 s p) as [_ (a & Ea & Ea')]; [lia|]. rewrite !drop_0 in *. rewrite Ea, Ea'. cbn [mbind R_bind].
  destruct (readLE_at 8 s p) as [_ (b & -> & ->)]; [lia|]. cbn [mbind R_bind].
  destruct (readLE_at 16 s p) as [_ (c & -> & ->)]; [lia|]. cbn [mbind R_bind].
  by destruct (readLE_at 24 s p) as [_ (d & -> & ->)]; [lia|].
Qed.

Abbreviation runs32 := (runs 16 (mixed_by stripe32)).
Abbreviation runs64 := (runs 32 (mixed_by stripe64)).

(** The states after streaming [s]. *)
Definition streamed32 (seed : Z) (s : bytes) (st : XXH32_state) : Prop :=
  ∃ r, runs32 (lanes32 seed) s (lanes_32 st) r ∧ holds 16 (mem32 st) r (memsize_32 st) ∧
    total_len_32 st = u32 (blen s) ∧ large_len st = (16 <=? blen s).
Definition streamed64 (seed : Z) (s : bytes) (st : XXH64_state) : Prop :=
  ∃ r, runs64 (lanes64 seed) s (lanes_64 st) r ∧ holds 32 (mem64 st) r (memsize_64 st) ∧ total_len st = u64 (blen s).

Lemma streamed_reset seed : streamed32 seed [] (XXH32_reset seed) ∧ streamed64 seed [] (XXH64_reset seed).
Proof. split; exists []; split_and!; try done; constructor; cbn; lia. Qed.

Lemma XXH32_update_streamed seed s input st :
  streamed32 seed s st → ∃ st', XXH32_update (Some input) st = Done (true, st') ∧ streamed32 seed (s ++ input) st'.
Proof.
  intros (r & Hr & Hh & Ht & Hg). destruct (runs_exists 16 (mixed_by stripe32) ltac:(lia) (lanes_32 st) (r ++ input)) as (v' & r' & Hr').
  destruct (runs_length 16 (mixed_by stripe32) ltac:(lia) _ _ _ _ Hr) as [Hlr _]. unfold XXH32_update.
  destruct (update_buffer_runs 16 stripe32 (mixed_by stripe32) ltac:(lia) stripe32_mixed (lanes_32 st) (mem32 st) r (memsize_32 st) input v' r' Hh)
    as (mem' & -> & Hh'); [destruct Hh as (_ & _ & ->); lia|done|].
  cbn [mbind R_bind]. eexists. split; [done|]. exists r'. cbn [lanes_32 mem32 memsize_32 total_len_32 large_len]. split_and!.
  - by eapply runs_app.
  - done.
  - by rewrite Ht, wrap_add_l, blen_app.
  - rewrite Ht, Hg, wrap_add_l, blen_app. assert (0 ≤ blen s ∧ 0 ≤ blen input) as [Hs Hi] by (unfold blen; lia).
    destruct (Z.leb_spec 16 (blen s)), (Z.leb_spec 16 (blen input)); cbn [orb]; try (symmetry; apply Z.leb_le; lia).
    by rewrite wrap_small by (unfold in_range; lia).
Qed.

Lemma XXH64_update_streamed seed s input st :
  streamed64 seed s st → ∃ st', XXH64_update (Some input) st = Done (true, st') ∧ streamed64 seed (s ++ input) st'.
Proof.
  intros (r & Hr & Hh & Ht). destruct (runs_exists 32 (mixed_by stripe64) ltac:(lia) (lanes_64 st) (r ++ input)) as (v' & r' & Hr').
  destruct (runs_length 32 (mixed_by stripe64) ltac:(lia) _ _ _ _ Hr) as [Hlr _]. unfold XXH64_update.
  destruct (update_buffer_runs 32 stripe64 (mixed_by stripe64) ltac:(lia) stripe64_mixed (lanes_64 st) (mem64 st) r (memsize_64 st) input v' r' Hh)
    as (mem' & -> & Hh'); [destruct Hh as (_ & _ & ->); lia|done|].
  cbn [mbind R_bind]. eexists. split; [done|]. exists r'. cbn [lanes_64 mem64 memsize_64 total_len]. split_and!.
  - by eapply runs_app.
  - done.
  - by rewrite Ht, wrap_add_l, blen_app.
Qed.

Lemma holds_prefix size mem r k : holds size mem r k → ∃ x, mem = r ++ x.
Proof. intros (_ & <- & _). exists (drop k mem). by rewrite take_drop. Qed.

Lemma XXH32_digest_streamed seed s st : streamed32 seed s st → ∃ h, XXH32_digest st = Done h ∧ XXH32 s seed = Done h.
Proof.
  intros (r & Hr & Hh & Ht & Hg). destruct (runs_length 16 (mixed_by stripe32) ltac:(lia) _ _ _ _ Hr) as [Hlr Hm].
  unfold XXH32_digest, XXH32. rewrite Hg, Ht, wrap_add_r. destruct (holds_prefix _ _ _ _ Hh) as [x ->].
  destruct Hh as (_ & _ & ->). rewrite <- Hm. unfold blen in *.
  replace (16 <=? length s)%nat with (16 <=? Z.of_nat (length s)) by (destruct (Z.leb_spec 16 (Z.of_nat (length s))), (Nat.leb_spec 16 (length s)); done || lia).
  destruct (Z.leb_spec 16 (Z.of_nat (length s))) as [Hge|Hlt].
  - rewrite (stripes_runs 16 stripe32 (mixed_by stripe32) ltac:(lia) stripe32_mixed (length s) (lanes32 seed) s (lanes_32 st) r); [|lia|done|done].
    cbn [mbind R_bind]. destruct (XXH32_finalize_reads (u32 (converge32 (lanes_32 st) + Z.of_nat (length s))) r x (length r)) as (d & -> & ->); [done..|]. by exists d.
  - cbn [mbind R_bind]. apply runs_short in Hr as [-> ->]; [|lia|lia]. cbn [v3 lanes32]. rewrite (wrap_add_l 32 (seed + 0)), Z.add_0_r, !wrap_add_l.
    destruct (XXH32_finalize_reads (u32 (seed + PRIME32_5 + Z.of_nat (length s))) s x (length s)) as (d & -> & ->); [done..|]. by exists d.
Qed.

Lemma land_31 s r : length r = (length s mod 32)%nat → blen s .& 31 = blen r.
Proof.
  intros E. rewrite (land_mask _ 5) by done. unfold blen, wrap. rewrite E, Nat2Z.inj_mod. done.
Qed.

Lemma XXH64_digest_streamed seed s st :
  blen s < 2 ^ 64 → streamed64 seed s st → ∃ h, XXH64_digest st = Done h ∧ XXH64 s seed = Done h.
Proof.
  intros Hs (r & Hr & Hh & Ht). destruct (runs_length 32 (mixed_by stripe64) ltac:(lia) _ _ _ _ Hr) as [Hlr Hm].
  unfold XXH64_digest, XXH64. rewrite Ht, (wrap_small 64 (blen s)) by (unfold in_range, blen in *; lia).
  destruct (holds_prefix _ _ _ _ Hh) as [x ->]. pose proof (land_31 s r Hm) as Hl.
  replace (32 <=? length s)%nat with (32 <=? blen s) by (unfold blen; destruct (Z.leb_spec 32 (Z.of_nat (length s))), (Nat.leb_spec 32 (length s)); done || lia).
  destruct (Z.leb_spec 32 (blen s)) as [Hge|Hlt]; unfold blen in Hge || unfold blen in Hlt.
  - rewrite (stripes_runs 32 stripe64 (mixed_by stripe64) ltac:(lia) stripe64_mixed (length s) (lanes64 seed) s (lanes_64 st) r); [|lia|done|done].
    cbn [mbind R_bind]. destruct (XXH64_finalize_reads (u64 (converge64 (lanes_64 st) + blen s)) r x (blen s) Hl) as (d & -> & ->). by exists d.
  - cbn [mbind R_bind]. apply runs_short in Hr as [-> ->]; [|lia|lia]. cbn [v3 lanes64]. rewrite (wrap_add_l 64 (seed + 0)), Z.add_0_r, !wrap_add_l.
    destruct (XXH64_finalize_reads (u64 (seed + PRIME64_5 + blen s)) s x (blen s) Hl) as (d & -> & ->). by exists d.
Qed.

(** Streaming pieces. *)
Fixpoint updates {S} (update : option bytes → S → R (bool * S)) (pieces : list bytes) (s : S) : R S :=
  match pieces with
  | [] => Done s
  | p :: pieces => st ← update (Some p) s; updates update pieces (snd st)
  end.

Lemma updates_streamed {S} (update : option bytes → S → R (bool * S)) (ok : bytes → S → Prop) :
  (∀ s input st, ok s st → ∃ st', update (Some input) st = Done (true, st') ∧ ok (s ++ input) st') →
  ∀ pieces s st, ok s st → ∃ st', updates update pieces st = Done st' ∧ ok (s ++ concat pieces) st'.
Proof.
  intros Hu pieces. induction pieces as [|p pieces IH]; intros s st Hst; [exists st; by rewrite app_nil_r|].
  destruct (Hu s p st Hst) as (st1 & E & Hst1). cbn [updates]. rewrite E. cbn [mbind R_bind snd concat]. rewrite app_assoc. by apply IH.
Qed.

(** Streaming an input in any pieces, empty ones included, and then taking
    the digest gives the hash of the whole input in one call, for XXH32 and
    XXH64, any seed, either byte order and either form of the final mixing; no
    read or copy leaves its buffer. *)
Theorem streamed_hash_is_hash seed pieces :
  blen (concat pieces) < 2 ^ 64 →
  (∃ st h, updates XXH32_update pieces (XXH32_reset seed) = Done st ∧ XXH32_digest st = Done h ∧ XXH32 (concat pieces) seed = Done h) ∧
  (∃ st h, updates XXH64_update pieces (XXH64_reset seed) = Done st ∧ XXH64_digest st = Done h ∧ XXH64 (concat pieces) seed = Done h).
Proof.
  intros Hs. destruct (streamed_reset seed) as [H32 H64]. split.
  - destruct (updates_streamed _ _ (XXH32_update_streamed seed) pieces [] _ H32) as (st & -> & Hst).
    destruct (XXH32_digest_streamed seed _ st Hst) as (h & ? & ?). by exists st, h.
  - destruct (updates_streamed _ _ (XXH64_update_streamed seed) pieces [] _ H64) as (st & -> & Hst).
    destruct (XXH64_digest_streamed seed _ st Hs Hst) as (h & ? & ?). by exists st, h.
Qed.
End stream.

(** ** Known values *)

#[local] Instance TestHost : Host := {| kLittleEndian := true |}.
#[local] Instance TestBuild : XXHBuild := {| XXH_REROLL := false; XXH_REROLL_XXH64 := false |}.

Example xxhash_known :
  XXH32 [] 0 = Done 0x02CC5D05 ∧ XXH64 [] 0 = Done 0xEF46DB3751D8E999 ∧
  XXH32 (str "Nobody inspects the spammish repetition") 0 = Done 0xE2293B2F ∧
  XXH64 (str "Nobody inspects the spammish repetition") 0 = Done 0xFBCEA83C8A378BF1.
Proof. vm_compute. done. Qed.

Lemma streamed_hash_is_hash_witness : ∃ pieces, length (concat pieces) = 39%nat ∧
  (∃ st h, updates XXH32_update pieces (XXH32_reset 7) = Done st ∧ XXH32_digest st = Done h ∧ XXH32 (concat pieces) 7 = Done h) ∧
  (∃ st h, updates XXH64_update pieces (XXH64_reset 7) = Done st ∧ XXH64_digest st = Done h ∧ XXH64 (concat pieces) 7 = Done h).
Proof.
  exists [str "Nobody in"; []; str "spects the spammish"; str " repetition"]. split; [reflexivity|].
  apply (streamed_hash_is_hash 7). reflexivity.
Defined.
