(* ===== verification/Format.v ===== *)
(** * Block handles, index values and footers (table/format.h, table/format.cc)

    Where a block lies in a table file, the values of index blocks, which may
    be encoded relative to the value before, and the footer at the end of the
    file with its two layouts. The file and the prefetch buffer a footer is
    read from are parameters, with what a reader may rely on as laws. Each comes
    back as it was written. *)
From S2P Require Import Prelude Status Coding Decimal Result.

(** The table magic numbers of the block-based and of the plain table. *)
Definition kBlockBasedTableMagicNumber : Z := 0x88e241b785f4cff7.
Definition kLegacyBlockBasedTableMagicNumber : Z := 0xdb4775248b80fb57.
Definition kPlainTableMagicNumber : Z := 0x8242229663bf9564.
Definition kLegacyPlainTableMagicNumber : Z := 0x4f3418eb7a8f13b8.
Definition kInvalidTableMagicNumber : Z := 0.
Definition kMagicNumberLengthByte : Z := 8.
Definition kBlockTrailerSize : Z := 5.

(** ** Block handles *)

Record BlockHandle := mkHandle { offset_ : Z; size_ : Z }.
Definition kNullBlockHandle : BlockHandle := mkHandle 0 0.
Definition new_BlockHandle : BlockHandle := mkHandle (u64 (Z.lnot 0)) (u64 (Z.lnot 0)).
Definition IsNull (h : BlockHandle) : bool := (offset_ h =? 0) && (size_ h =? 0).
Definition BlockHandle_kMaxEncodedLength : Z := 10 + 10.
Definition block_size (h : BlockHandle) : Z := u64 (size_ h + kBlockTrailerSize).


Section format.
Context `{Build, Host}.

Definition BlockHandle_EncodeTo (h : BlockHandle) (dst : bytes) : R bytes :=
  _ ← assert (negb (offset_ h =? u64 (Z.lnot 0)));
  _ ← assert (negb (size_ h =? u64 (Z.lnot 0)));
  Done (PutVarint64Varint64 dst (offset_ h) (size_ h)).

Definition bad_block_handle : Status := Corruption (str "bad block handle").

(** The status, the handle and what is left of the input. *)
Definition BlockHandle_DecodeFrom (input : bytes) : Status * BlockHandle * bytes :=
  match GetVarint64 input with
  | Some (offset, rest) =>
      match GetVarint64 rest with
      | Some (size, rest) => (OK, mkHandle offset size, rest)
      | None => (bad_block_handle, mkHandle 0 0, rest)
      end
  | None => (bad_block_handle, mkHandle 0 0, input)
  end.

Definition BlockHandle_DecodeSizeFrom (offset : Z) (input : bytes) : Status * BlockHandle * bytes :=
  match GetVarint64 input with
  | Some (size, rest) => (OK, mkHandle offset size, rest)
  | None => (bad_block_handle, mkHandle 0 0, input)
  end.

(** ** Index values *)

Record IndexValue := mkIndexValue { handle : BlockHandle; first_internal_key : bytes }.

Definition IndexValue_EncodeTo (v : IndexValue) (dst : bytes) (have_first_key : bool)
    (previous_handle : option BlockHandle) : R bytes :=
  dst ← match previous_handle with
        | Some prev =>
            _ ← assert (offset_ (handle v) =? u64 (offset_ prev + size_ prev + kBlockTrailerSize));
            Done (PutVarsignedint64 dst (to_signed 64 (size_ (handle v) - size_ prev)))
        | None => BlockHandle_EncodeTo (handle v) dst
        end;
  _ ← assert (negb (blen dst =? 0));
  Done (if have_first_key then PutLengthPrefixedSlice dst (first_internal_key v) else dst).

(** The value keeps its old fields where the code has not assigned them. *)
Definition IndexValue_DecodeFrom (v : IndexValue) (input : bytes) (have_first_key : bool)
    (previous_handle : option BlockHandle) : Status * IndexValue * bytes :=
  let '(s, h, input) :=
    match previous_handle with
    | Some prev =>
        match GetVarsignedint64 input with
        | None => (Corruption (str "bad delta-encoded index value"), handle v, input)
        | Some (delta, rest) =>
            (OK, mkHandle (u64 (offset_ prev + size_ prev + kBlockTrailerSize)) (u64 (size_ prev + delta)), rest)
        end
    | None => BlockHandle_DecodeFrom input
    end in
  if negb (ok s) then (s, mkIndexValue h (first_internal_key v), input)
  else if negb have_first_key then (OK, mkIndexValue h [], input)
  else match GetLengthPrefixedSlice input with
       | None => (Corruption (str "bad first key in block info"), mkIndexValue h (first_internal_key v), input)
       | Some (key, rest) => (OK, mkIndexValue h key, rest)
       end.

(** ** Footers *)

Definition kCRC32c : Z := 1.
Record Footer := mkFooter {
  version_ : Z; checksum_ : Z; metaindex_handle_ : BlockHandle; index_handle_ : BlockHandle; table_magic_number_ : Z }.

Definition kVersion0EncodedLength : Z := 2 * BlockHandle_kMaxEncodedLength + 8.
Definition kNewVersionsEncodedLength : Z := 1 + 2 * BlockHandle_kMaxEncodedLength + 4 + 8.
Definition kMinEncodedLength : Z := kVersion0EncodedLength.
Definition kMaxEncodedLength : Z := kNewVersionsEncodedLength.

Definition IsLegacyFooterFormat (magic_number : Z) : bool :=
  (magic_number =? kLegacyBlockBasedTableMagicNumber) || (magic_number =? kLegacyPlainTableMagicNumber).
Definition UpconvertLegacyFooterFormat (magic_number : Z) : R Z :=
  if magic_number =? kLegacyBlockBasedTableMagicNumber then Done kBlockBasedTableMagicNumber
  else if magic_number =? kLegacyPlainTableMagicNumber then Done kPlainTableMagicNumber
  else _ ← assert false; Done 0.

Definition new_Footer (table_magic_number version : Z) : R Footer :=
  _ ← assert (negb (IsLegacyFooterFormat table_magic_number) || (version =? 0));
  Done (mkFooter version kCRC32c new_BlockHandle new_BlockHandle table_magic_number).

Definition HasInitializedTableMagicNumber (f : Footer) : bool :=
  negb (table_magic_number_ f =? kInvalidTableMagicNumber).

(** [std::string::resize]: cuts off, or pads with zeros. *)
Definition resize (s : bytes) (n : Z) : bytes :=
  take (Z.to_nat n) s ++ replicate (Z.to_nat n - length s) 0.

Definition Footer_EncodeTo (f : Footer) (dst : bytes) : R bytes :=
  _ ← assert (HasInitializedTableMagicNumber f);
  let magic := table_magic_number_ f in
  let original_size := blen dst in
  if IsLegacyFooterFormat magic then
    _ ← assert (checksum_ f =? kCRC32c);
    dst ← BlockHandle_EncodeTo (metaindex_handle_ f) dst;
    dst ← BlockHandle_EncodeTo (index_handle_ f) dst;
    let dst := resize dst (original_size + 2 * BlockHandle_kMaxEncodedLength) in
    let dst := PutFixed32 dst (u32 (magic .& 0xffffffff)) in
    let dst := PutFixed32 dst (u32 (magic >> 32)) in
    _ ← assert (blen dst =? original_size + kVersion0EncodedLength);
    Done dst
  else
    let dst := dst ++ [u8 (checksum_ f)] in
    dst ← BlockHandle_EncodeTo (metaindex_handle_ f) dst;
    dst ← BlockHandle_EncodeTo (index_handle_ f) dst;
    let dst := resize dst (original_size + kNewVersionsEncodedLength - 12) in
    let dst := PutFixed32 dst (version_ f) in
    let dst := PutFixed32 dst (u32 (magic .& 0xffffffff)) in
    let dst := PutFixed32 dst (u32 (magic >> 32)) in
    _ ← assert (blen dst =? original_size + kNewVersionsEncodedLength);
    Done dst.

Definition set_magic (magic : Z) (f : Footer) : Footer :=
  mkFooter (version_ f) (checksum_ f) (metaindex_handle_ f) (index_handle_ f) magic.
Definition set_table_magic_number (magic : Z) (f : Footer) : R Footer :=
  _ ← assert (negb (HasInitializedTableMagicNumber f)); Done (set_magic magic f).

(** Reading at an offset of a slice; a read outside it is out of bounds. *)
Definition DecodeFixed32_at (input : bytes) (at_ : Z) : R Z :=
  _ ← require OutOfBounds ((0 <=? at_) && (at_ + 4 <=? blen input)); Done (DecodeFixed32 (drop (Z.to_nat at_) input)).

(** The two handles, and then the end of the footer whatever they leave. *)
Definition Footer_DecodeHandles (f : Footer) (input after : bytes) : Status * Footer * bytes :=
  let '(s, metaindex, input) := BlockHandle_DecodeFrom input in
  let f := mkFooter (version_ f) (checksum_ f) metaindex (index_handle_ f) (table_magic_number_ f) in
  if negb (ok s) then (s, f, input) else
  let '(s, index, input) := BlockHandle_DecodeFrom input in
  let f := mkFooter (version_ f) (checksum_ f) metaindex index (table_magic_number_ f) in
  if negb (ok s) then (s, f, input) else (s, f, after).

Definition Footer_DecodeFrom (f : Footer) (input : bytes) : R (Status * Footer * bytes) :=
  _ ← assert (negb (HasInitializedTableMagicNumber f));
  _ ← assert (kMinEncodedLength <=? blen input);
  let magic_ptr := blen input - kMagicNumberLengthByte in
  magic_lo ← DecodeFixed32_at input magic_ptr;
  magic_hi ← DecodeFixed32_at input (magic_ptr + 4);
  let magic := (magic_hi << 32) .| magic_lo in
  let legacy := IsLegacyFooterFormat magic in
  magic ← (if legacy then UpconvertLegacyFooterFormat magic else Done magic);
  f ← set_table_magic_number magic f;
  if legacy then
    _ ← require OutOfBounds (kVersion0EncodedLength <=? blen input);
    let input := drop (Z.to_nat (blen input - kVersion0EncodedLength)) input in
    let f := mkFooter 0 kCRC32c (metaindex_handle_ f) (index_handle_ f) (table_magic_number_ f) in
    Done (Footer_DecodeHandles f input [])
  else
    version ← DecodeFixed32_at input (magic_ptr - 4);
    let f := mkFooter version (checksum_ f) (metaindex_handle_ f) (index_handle_ f) (table_magic_number_ f) in
    if blen input <? kNewVersionsEncodedLength then
      Done (Corruption (str "input is too short to be an sstable"), f, input)
    else
      let input := drop (Z.to_nat (blen input - kNewVersionsEncodedLength)) input in
      match GetVarint32 input with
      | None => Done (Corruption (str "bad checksum type"), f, input)
      | Some (chksum, input) =>
          let f := mkFooter version (to_signed 8 chksum) (metaindex_handle_ f) (index_handle_ f) (table_magic_number_ f) in
          Done (Footer_DecodeHandles f input [])
      end.
End format.

(** ** Reading the footer of a file *)

(** A file that can be read at any offset. A read gives at most as many bytes
    as asked for; fewer at the end of the file. *)
Class RandomAccessFile (F : Type) := {
  file_Read : F → Z → Z → Status * bytes;
  file_name : F → bytes
}.

(** The range of bytes [n] from [offset] on. *)
Definition slice_of (contents : bytes) (offset n : Z) : bytes := take (Z.to_nat n) (drop (Z.to_nat offset) contents).

(** A file all of whose reads succeed. *)
Definition holds_contents {F} `{RandomAccessFile F} (f : F) (contents : bytes) : Prop :=
  ∀ offset n, 0 ≤ offset → 0 ≤ n → file_Read f offset n = (OK, slice_of contents offset n).

(** A prefetch buffer answers some reads, as the file would. *)
Definition PrefetchBuffer := Z → Z → option bytes.
Definition prefetched (b : option PrefetchBuffer) (contents : bytes) : Prop :=
  ∀ p offset n s, b = Some p → p offset n = Some s → s = slice_of contents offset n.

Section read.
Context `{Build, Host} {F : Type} `{RandomAccessFile F}.

Definition too_short (file : F) (file_size : Z) (tail : string) : Status :=
  Corruption (str "file is too short (" ++ dec file_size ++ str " bytes) to be an " ++ str tail ++ file_name file).

Definition ReadFooterFromFile (file : F) (prefetch_buffer : option PrefetchBuffer) (file_size : Z) (footer : Footer)
    (enforce_table_magic_number : Z) : R (Status * Footer) :=
  if file_size <? kMinEncodedLength then Done (too_short file file_size "sstable: ", footer) else
  let read_offset := if kMaxEncodedLength <? file_size then file_size - kMaxEncodedLength else 0 in
  let '(s, footer_input) :=
    match (b ← prefetch_buffer; b read_offset kMaxEncodedLength) with
    | Some slice => (OK, slice)
    | None => file_Read file read_offset kMaxEncodedLength
    end in
  if negb (ok s) then Done (s, footer) else
  if blen footer_input <? kMinEncodedLength then Done (too_short file file_size "sstable", footer) else
  r ← Footer_DecodeFrom footer footer_input;
  let '(s, footer, _) := r in
  if negb (ok s) then Done (s, footer) else
  if negb (enforce_table_magic_number =? 0) && negb (enforce_table_magic_number =? table_magic_number_ footer) then
    Done (Corruption (str "Bad table magic number: expected " ++ dec enforce_table_magic_number ++ str ", found " ++
                      dec (table_magic_number_ footer) ++ str " in " ++ file_name file), footer)
  else Done (OK, footer).
End read.

(** ** Handles, index values and footers come back

    What is encoded is decoded, for handles, for index values (a chain of them,
    each relative to the one before) and for footers read from the end of a
    file of any length. *)

(** The handles that can be encoded: all bits set means not set yet. *)
Definition handle_ok (h : BlockHandle) : Prop :=
  0 ≤ offset_ h < 2 ^ 64 - 1 ∧ 0 ≤ size_ h < 2 ^ 64 - 1.
#[export] Instance handle_ok_dec h : Decision (handle_ok h).
Proof. unfold handle_ok. apply _. Defined.

Section handles.
Context `{Build, Host}.

Definition handle_bytes (h : BlockHandle) : bytes := EncodeVarint64 (offset_ h) ++ EncodeVarint64 (size_ h).

Lemma EncodeVarint64_length v : (1 ≤ length (EncodeVarint64 v) ≤ 10)%nat.
Proof.
  assert (∀ f u, length (EncodeVarint64_loop f u) ≤ f)%nat as Hle.
  { induction f as [|f IH]; intros u; simpl; [lia|]. destruct (128 <=? u); simpl; [|lia]. specialize (IH (u >> 7)). lia. }
  specialize (Hle 10%nat v). split; [|done]. unfold EncodeVarint64, kMaxVarint64Length. cbn [EncodeVarint64_loop].
  destruct (128 <=? v); cbn [length]; lia.
Qed.

Lemma handle_bytes_length h : (2 ≤ length (handle_bytes h) ≤ 20)%nat.
Proof.
  unfold handle_bytes. rewrite length_app. pose proof (EncodeVarint64_length (offset_ h)).
  pose proof (EncodeVarint64_length (size_ h)). lia.
Qed.

Lemma BlockHandle_EncodeTo_spec h dst : handle_ok h → BlockHandle_EncodeTo h dst = Done (dst ++ handle_bytes h).
Proof.
  intros [Ho Hs]. unfold BlockHandle_EncodeTo. change (u64 (Z.lnot 0)) with (2 ^ 64 - 1).
  rewrite !(proj2 (Z.eqb_neq _ _)) by lia. cbn [negb]. rewrite assert_true. cbn [mbind R_bind].
  unfold PutVarint64Varint64, handle_bytes. by rewrite ?app_assoc.
Qed.

Lemma BlockHandle_DecodeFrom_spec h rest :
  handle_ok h → BlockHandle_DecodeFrom (handle_bytes h ++ rest) = (OK, h, rest).
Proof.
  intros [Ho Hs]. unfold BlockHandle_DecodeFrom, handle_bytes. rewrite <- app_assoc.
  rewrite GetVarint64_encode by (unfold in_range; lia). rewrite GetVarint64_encode by (unfold in_range; lia).
  by destruct h.
Qed.

(** ** Index values *)

(** The value of a block that follows the block of [prev], if there is one. *)
Definition value_ok (have_first_key : bool) (prev : option BlockHandle) (v : IndexValue) : Prop :=
  handle_ok (handle v) ∧
  (∀ p, prev = Some p → handle_ok p ∧ offset_ (handle v) = u64 (offset_ p + size_ p + kBlockTrailerSize)) ∧
  (if have_first_key then blen (first_internal_key v) < 2 ^ 32 else first_internal_key v = []).

Lemma to_signed_range w z : 0 < w → in_srange w (to_signed w z).
Proof.
  intros Hw. unfold to_signed, in_srange. pose proof (wrap_range w z ltac:(lia)) as [H1 H2].
  assert (2 ^ w = 2 * 2 ^ (w - 1)) as E by (rewrite <- Z.pow_succ_r by lia; f_equal; lia). bool_cases; lia.
Qed.
Lemma wrap_to_signed w z x : 0 < w → wrap w (x + to_signed w z) = wrap w (x + z).
Proof.
  intros Hw. unfold to_signed. bool_cases; [apply wrap_add_r|].
  rewrite <- (wrap_add_r w x z). replace (x + (wrap w z - 2 ^ w)) with (x + wrap w z + (-1) * 2 ^ w) by lia.
  unfold wrap. by rewrite Z.mod_add by (apply Z.pow_nonzero; lia).
Qed.

Lemma GetVarsignedint64_write v rest :
  in_srange 64 v → GetVarsignedint64 (PutVarsignedint64 [] v ++ rest) = Some (v, rest).
Proof.
  intros Hv. by destruct (varsignedint64_roundtrip [] v rest Hv) as (_ & _ & E).
Qed.
Lemma PutVarsignedint64_app dst v : PutVarsignedint64 dst v = dst ++ PutVarsignedint64 [] v.
Proof. done. Qed.

Lemma IndexValue_roundtrip v v0 dst have_first_key prev rest :
  value_ok have_first_key prev v →
  ∃ e, IndexValue_EncodeTo v dst have_first_key prev = Done (dst ++ e) ∧ (0 < length e)%nat ∧
    IndexValue_DecodeFrom v0 (e ++ rest) have_first_key prev = (OK, v, rest).
Proof.
  intros (Hh & Hp & Hk). unfold IndexValue_EncodeTo, IndexValue_DecodeFrom.
  (* the handle *)
  assert (∃ e, match prev with
      | Some prev => _ ← assert (offset_ (handle v) =? u64 (offset_ prev + size_ prev + kBlockTrailerSize));
                     Done (PutVarsignedint64 dst (to_signed 64 (size_ (handle v) - size_ prev)))
      | None => BlockHandle_EncodeTo (handle v) dst end = Done (dst ++ e) ∧ (0 < length e)%nat ∧
    ∀ rest, match prev with
      | Some prev => match GetVarsignedint64 (e ++ rest) with
          | None => (Corruption (str "bad delta-encoded index value"), handle v0, e ++ rest)
          | Some (delta, rest) => (OK, mkHandle (u64 (offset_ prev + size_ prev + kBlockTrailerSize)) (u64 (size_ prev + delta)), rest) end
      | None => BlockHandle_DecodeFrom (e ++ rest) end = (OK, handle v, rest)) as (e & -> & He & Hd).
  { destruct prev as [p|].
    - destruct (Hp p eq_refl) as [[Hpo Hps] Ho]. exists (PutVarsignedint64 [] (to_signed 64 (size_ (handle v) - size_ p))).
      rewrite Ho, Z.eqb_refl, assert_true. cbn [mbind R_bind]. split_and!; [done| |].
      + unfold PutVarsignedint64. rewrite length_app. pose proof (EncodeVarint64_length (i64ToZigzag (to_signed 64 (size_ (handle v) - size_ p)))). cbn [length]. lia.
      + intros r. rewrite GetVarsignedint64_write by (by apply to_signed_range). rewrite wrap_to_signed by lia. destruct Hh as [? ?].
        replace (size_ p + (size_ (handle v) - size_ p)) with (size_ (handle v)) by lia. rewrite (wrap_small 64 (size_ _)) by (unfold in_range; lia).
        rewrite <- Ho. by destruct (handle v).
    - exists (handle_bytes (handle v)). split_and!; [by apply BlockHandle_EncodeTo_spec|pose proof (handle_bytes_length (handle v)); lia|].
      intros r. by apply BlockHandle_DecodeFrom_spec. }
  cbn [mbind R_bind].
  replace (negb (blen (dst ++ e) =? 0)) with true by (symmetry; apply negb_true_iff, Z.eqb_neq; unfold blen; rewrite length_app; lia).
  rewrite assert_true. cbn [mbind R_bind]. destruct have_first_key.
  - exists (e ++ EncodeVarint32 (blen (first_internal_key v)) ++ first_internal_key v). split_and!.
    + unfold PutLengthPrefixedSlice, PutVarint32. by rewrite <- !app_assoc, ?wrap_small by (unfold in_range, blen in *; lia).
    + rewrite length_app. lia.
    + rewrite <- !app_assoc, Hd. cbn [ok negb OK]. rewrite GetLengthPrefixedSlice_write by done. by destruct v.
  - exists e. split_and!; [done..|]. rewrite Hd. cbn [negb]. destruct v. cbn in Hk. by rewrite Hk.
Qed.
End handles.

(** ** Footers *)

Section footers.
Context `{Build, Host}.

(** The footers that table builders write. *)
Definition footer_ok (f : Footer) : Prop :=
  in_range 32 (version_ f) ∧ 0 ≤ checksum_ f < 128 ∧ handle_ok (metaindex_handle_ f) ∧ handle_ok (index_handle_ f) ∧
  in_range 64 (table_magic_number_ f) ∧ table_magic_number_ f ≠ kInvalidTableMagicNumber ∧
  (IsLegacyFooterFormat (table_magic_number_ f) = true → version_ f = 0 ∧ checksum_ f = kCRC32c).

(** A footer as it is read: the legacy magic numbers are replaced. *)
Definition upconverted (magic : Z) : Z :=
  if magic =? kLegacyBlockBasedTableMagicNumber then kBlockBasedTableMagicNumber
  else if magic =? kLegacyPlainTableMagicNumber then kPlainTableMagicNumber else magic.

Definition footer_length (f : Footer) : Z :=
  if IsLegacyFooterFormat (table_magic_number_ f) then kVersion0EncodedLength else kNewVersionsEncodedLength.

Definition zeros (n : nat) : bytes := replicate n 0.

(** The handles with their padding, and all but the magic number. *)
Definition handles_bytes (f : Footer) : bytes :=
  let s := handle_bytes (metaindex_handle_ f) ++ handle_bytes (index_handle_ f) in s ++ zeros (40 - length s).
Definition magic_bytes (magic : Z) : bytes := EncodeFixed32 (u32 (magic .& 0xffffffff)) ++ EncodeFixed32 (u32 (magic >> 32)).
Definition footer_bytes (f : Footer) : bytes :=
  (if IsLegacyFooterFormat (table_magic_number_ f) then handles_bytes f
   else checksum_ f :: handles_bytes f ++ EncodeFixed32 (version_ f)) ++ magic_bytes (table_magic_number_ f).

Lemma handles_bytes_length f : length (handles_bytes f) = 40%nat.
Proof.
  unfold handles_bytes. rewrite !length_app. unfold zeros. rewrite length_replicate.
  pose proof (handle_bytes_length (metaindex_handle_ f)). pose proof (handle_bytes_length (index_handle_ f)). lia.
Qed.
Lemma footer_bytes_length f : blen (footer_bytes f) = footer_length f.
Proof.
  unfold footer_bytes, footer_length, magic_bytes, blen. destruct (IsLegacyFooterFormat _); cbn [app length];
    rewrite ?length_app, ?length_cons, ?length_app, handles_bytes_length, !length_EncodeFixed32; done.
Qed.

Lemma resize_pad dst s n :
  (length s ≤ n)%nat → resize (dst ++ s) (blen dst + Z.of_nat n) = dst ++ s ++ zeros (n - length s).
Proof.
  intros Hl. unfold resize, blen, zeros. rewrite take_ge by (rewrite length_app; lia). rewrite length_app, <- app_assoc.
  do 2 f_equal. f_equal. lia.
Qed.

Lemma Footer_EncodeTo_spec f dst : footer_ok f → Footer_EncodeTo f dst = Done (dst ++ footer_bytes f).
Proof.
  intros (Hv & Hc & Hm & Hi & Hg & Hg0 & Hleg). unfold Footer_EncodeTo, HasInitializedTableMagicNumber.
  rewrite (proj2 (Z.eqb_neq _ _) Hg0). cbn [negb]. rewrite assert_true. cbn [mbind R_bind].
  pose proof (handle_bytes_length (metaindex_handle_ f)) as Hl1. pose proof (handle_bytes_length (index_handle_ f)) as Hl2.
  pose proof (footer_bytes_length f) as Hlen. unfold footer_bytes, footer_length, handles_bytes, magic_bytes in *.
  set (s := handle_bytes (metaindex_handle_ f) ++ handle_bytes (index_handle_ f)) in *.
  assert (length s ≤ 40)%nat as Hs by (unfold s; rewrite length_app; lia).
  destruct (IsLegacyFooterFormat (table_magic_number_ f)).
  - destruct Hleg as [_ ->]; [done|]. change (kCRC32c =? kCRC32c) with true. rewrite assert_true. cbn [mbind R_bind].
    rewrite BlockHandle_EncodeTo_spec by done. cbn [mbind R_bind]. rewrite BlockHandle_EncodeTo_spec by done. cbn [mbind R_bind].
    rewrite <- app_assoc. fold s. change (2 * BlockHandle_kMaxEncodedLength) with (Z.of_nat 40). rewrite resize_pad by done.
    rewrite !PutFixed32_app, <- !app_assoc. rewrite <- !app_assoc in Hlen.
    replace (blen _ =? _) with true; [by rewrite assert_true|]. symmetry. apply Z.eqb_eq.
    unfold blen in *. rewrite length_app. lia.
  - rewrite BlockHandle_EncodeTo_spec by done. cbn [mbind R_bind]. rewrite BlockHandle_EncodeTo_spec by done. cbn [mbind R_bind].
    rewrite (wrap_small 8) by (unfold in_range; lia). rewrite <- !app_assoc. fold s. cbn [app].
    change (checksum_ f :: s) with ([checksum_ f] ++ s). change kNewVersionsEncodedLength with 53 in *.
    replace (blen dst + 53 - 12) with (blen dst + Z.of_nat 41) by lia.
    rewrite resize_pad by (cbn [app length]; lia). rewrite !PutFixed32_app. cbn [app length Nat.sub]. rewrite <- !app_assoc. cbn [app] in *. rewrite <- !app_assoc in *. cbn [app] in *.
    replace (blen _ =? _) with true; [by rewrite assert_true|]. symmetry. apply Z.eqb_eq.
    unfold blen in *. rewrite length_app. lia.
Qed.

(** ** Reading them *)

Lemma Fixed32_at x v y : in_range 32 v → DecodeFixed32_at (x ++ EncodeFixed32 v ++ y) (blen x) = Done v.
Proof.
  intros Hv. unfold DecodeFixed32_at. replace ((0 <=? blen x) && _) with true.
  - cbn [require mbind R_bind]. unfold blen. rewrite Nat2Z.id, drop_app_length, EncodeFixed32_le. cbn [le_bytes app].
    rewrite DecodeFixed32_le. change [_; _; _; _] with (le_bytes 4 v). by rewrite le_value_le_bytes.
  - symmetry. apply andb_true_iff. rewrite !Z.leb_le. unfold blen. rewrite !length_app, length_EncodeFixed32. lia.
Qed.

Lemma magic_join m : in_range 64 m → (u32 (m >> 32) << 32) .| u32 (m .& 0xffffffff) = m.
Proof.
  intros Hm. rewrite (land_mask m 32), wrap_idemp by done. rewrite (wrap_small 32 (m >> 32)) by (by apply (shiftr_range 64 32)).
  rewrite Z.lor_comm, (lor_disjoint_add _ _ 32) by (done || by apply wrap_range). symmetry. by apply split_low.
Qed.

Lemma DecodeHandles_spec f g tail :
  handle_ok (metaindex_handle_ f) → handle_ok (index_handle_ f) →
  Footer_DecodeHandles g (handles_bytes f ++ tail) [] =
    (OK, mkFooter (version_ g) (checksum_ g) (metaindex_handle_ f) (index_handle_ f) (table_magic_number_ g), []).
Proof.
  intros Hm Hi. unfold Footer_DecodeHandles, handles_bytes. rewrite <- !app_assoc.
  rewrite BlockHandle_DecodeFrom_spec by done. cbn [ok negb OK]. by rewrite BlockHandle_DecodeFrom_spec by done.
Qed.

Lemma legacy_upconverted m :
  IsLegacyFooterFormat m = true → UpconvertLegacyFooterFormat m = Done (upconverted m).
Proof.
  unfold IsLegacyFooterFormat, UpconvertLegacyFooterFormat, upconverted.
  destruct (m =? kLegacyBlockBasedTableMagicNumber); [done|]. by destruct (m =? kLegacyPlainTableMagicNumber).
Qed.
Lemma not_legacy_upconverted m : IsLegacyFooterFormat m = false → upconverted m = m.
Proof.
  unfold IsLegacyFooterFormat, upconverted. destruct (m =? kLegacyBlockBasedTableMagicNumber); [done|].
  by destruct (m =? kLegacyPlainTableMagicNumber).
Qed.

Definition as_read (f : Footer) : Footer := set_magic (upconverted (table_magic_number_ f)) f.

Lemma Footer_DecodeFrom_spec f g x :
  footer_ok f → table_magic_number_ g = kInvalidTableMagicNumber → kMinEncodedLength ≤ blen (x ++ footer_bytes f) →
  Footer_DecodeFrom g (x ++ footer_bytes f) = Done (OK, as_read f, []).
Proof.
  intros (Hv & Hc & Hm & Hi & Hg & Hg0 & Hleg) Hinv Hlen. unfold Footer_DecodeFrom, HasInitializedTableMagicNumber.
  rewrite Hinv. change (negb (negb (_ =? _))) with true at 1. rewrite assert_true. cbn [mbind R_bind].
  rewrite (proj2 (Z.leb_le _ _) Hlen), assert_true. cbn [mbind R_bind].
  pose proof (footer_bytes_length f) as Hfl. unfold footer_bytes, footer_length in Hfl |- *.
  set (magic := table_magic_number_ f) in *.
  set (body := if IsLegacyFooterFormat magic then handles_bytes f else checksum_ f :: handles_bytes f ++ EncodeFixed32 (version_ f)) in *.
  assert (x ++ body ++ magic_bytes magic = (x ++ body) ++ EncodeFixed32 (u32 (magic .& 0xffffffff)) ++ EncodeFixed32 (u32 (magic >> 32)) ++ []) as E1
    by (unfold magic_bytes; by rewrite <- !app_assoc, app_nil_r).
  assert (x ++ body ++ magic_bytes magic = (x ++ body ++ EncodeFixed32 (u32 (magic .& 0xffffffff))) ++ EncodeFixed32 (u32 (magic >> 32)) ++ []) as E2
    by (unfold magic_bytes; by rewrite <- !app_assoc, app_nil_r).
  assert (blen (x ++ body ++ magic_bytes magic) = blen (x ++ body) + 8) as El
    by (unfold blen, magic_bytes; rewrite !length_app, !length_EncodeFixed32; lia).
  rewrite El. unfold kMagicNumberLengthByte. replace (blen (x ++ body) + 8 - 8) with (blen (x ++ body)) by lia.
  rewrite E1 at 1. rewrite Fixed32_at by (by apply wrap_range). cbn [mbind R_bind].
  replace (blen (x ++ body) + 4) with (blen (x ++ body ++ EncodeFixed32 (u32 (magic .& 0xffffffff))))
    by (unfold blen; rewrite !length_app, length_EncodeFixed32; lia).
  rewrite E2 at 1. rewrite Fixed32_at by (by apply wrap_range). cbn [mbind R_bind]. rewrite magic_join by done. clear E1 E2.
  assert (∀ n, n = blen body + 8 → drop (Z.to_nat (blen (x ++ body) + 8 - n)) (x ++ body ++ magic_bytes magic) = body ++ magic_bytes magic) as Hdrop.
  { intros n ->. replace (Z.to_nat _) with (length x) by (unfold blen; rewrite length_app; lia). by rewrite drop_app_length. }
  assert (blen body + 8 = if IsLegacyFooterFormat magic then 48 else 53) as Hb.
  { change 48 with kVersion0EncodedLength. change 53 with kNewVersionsEncodedLength. rewrite <- Hfl.
    unfold blen, magic_bytes. rewrite !length_app, !length_EncodeFixed32. lia. }
  unfold as_read, set_magic. fold magic. destruct (IsLegacyFooterFormat magic) eqn:Eleg; cbv beta iota.
  - rewrite legacy_upconverted by done. cbn [mbind R_bind]. unfold set_table_magic_number, HasInitializedTableMagicNumber. rewrite Hinv.
    change (negb (negb (_ =? _))) with true at 1. rewrite assert_true. cbn [mbind R_bind].
    destruct Hleg as [Ev Ec]; [done|]. change kVersion0EncodedLength with 48.
    replace (48 <=? blen (x ++ body) + 8) with true by (symmetry; apply Z.leb_le; unfold blen in *; rewrite length_app; lia).
    cbn [require mbind R_bind]. rewrite Hdrop by done. unfold body. rewrite DecodeHandles_spec by done. cbn. by rewrite Ev, Ec.
  - rewrite not_legacy_upconverted by done. cbn [mbind R_bind]. unfold set_table_magic_number, HasInitializedTableMagicNumber. rewrite Hinv.
    change (negb (negb (_ =? _))) with true at 1. rewrite assert_true. cbn [mbind R_bind].
    assert (DecodeFixed32_at (x ++ body ++ magic_bytes magic) (blen (x ++ body) - 4) = Done (version_ f)) as ->.
    { unfold body. replace (x ++ _ ++ magic_bytes magic) with ((x ++ checksum_ f :: handles_bytes f) ++ EncodeFixed32 (version_ f) ++ magic_bytes magic)
        by (by rewrite <- !app_assoc; cbn; rewrite <- !app_assoc).
      replace (blen _ - 4) with (blen (x ++ checksum_ f :: handles_bytes f)); [by apply Fixed32_at|].
      unfold blen. rewrite !length_app. cbn [length]. rewrite length_app, length_EncodeFixed32. lia. }
    cbn [mbind R_bind]. change kNewVersionsEncodedLength with 53.
    replace (blen (x ++ body) + 8 <? 53) with false by (symmetry; apply Z.ltb_ge; unfold blen in *; rewrite length_app; lia).
    rewrite Hdrop by done. unfold body. cbn [app]. change (checksum_ f :: ?l) with ([checksum_ f] ++ l).
    assert (∀ l, GetVarint32 ([checksum_ f] ++ l) = Some (checksum_ f, l)) as ->.
    { intros l. replace [checksum_ f] with (EncodeVarint32 (checksum_ f)); [apply GetVarint32_encode; unfold in_range; lia|].
      unfold EncodeVarint32. change (1 << 7) with 128. replace (checksum_ f <? 128) with true by (symmetry; apply Z.ltb_lt; lia).
      by rewrite wrap_small by (unfold in_range; lia). }
    rewrite <- app_assoc, DecodeHandles_spec by done. cbn [version_ checksum_ table_magic_number_]. do 4 f_equal.
    unfold to_signed. rewrite (wrap_small 8) by (unfold in_range; lia). change (2 ^ (8 - 1)) with 128.
    by replace (checksum_ f <? 128) with true by (symmetry; apply Z.ltb_lt; lia).
Qed.
End footers.

(** ** A footer at the end of a file *)

Section read.
Context `{Build, Host} {F : Type} `{RandomAccessFile F}.

Lemma slice_of_tail body e n :
  0 ≤ n → blen e ≤ n → ∃ x, slice_of (body ++ e) (if n <? blen (body ++ e) then blen (body ++ e) - n else 0) n = x ++ e.
Proof.
  intros Hn He. unfold slice_of, blen in *. rewrite length_app.
  destruct (Z.ltb_spec n (Z.of_nat (length body + length e))) as [Hlt|Hge].
  - exists (drop (length body + length e - Z.to_nat n) body). rewrite drop_app_le by lia.
    replace (Z.to_nat (_ - n)) with (length body + length e - Z.to_nat n)%nat by lia.
    apply take_ge. rewrite length_app, length_drop. lia.
  - exists body. rewrite drop_0. apply take_ge. rewrite length_app. lia.
Qed.

Lemma footer_length_range f : 48 ≤ footer_length f ≤ 53.
Proof. unfold footer_length. destruct (IsLegacyFooterFormat _); split; discriminate. Qed.

Lemma ReadFooter_spec (f : Footer) (file : F) prefetch_buffer body enforce footer0 :
  footer_ok f → holds_contents file (body ++ footer_bytes f) → prefetched prefetch_buffer (body ++ footer_bytes f) →
  new_Footer kInvalidTableMagicNumber 0 = Done footer0 →
  ∃ s, ReadFooterFromFile file prefetch_buffer (blen (body ++ footer_bytes f)) footer0 enforce = Done (s, as_read f) ∧
    if (enforce =? 0) || (enforce =? upconverted (table_magic_number_ f)) then s = OK else IsCorruption s = true.
Proof.
  intros Hf Hfile Hpre Hnew.
  assert (table_magic_number_ footer0 = kInvalidTableMagicNumber) as Hinv.
  { unfold new_Footer in Hnew. change (negb _ || _) with true in Hnew. rewrite assert_true in Hnew. by injection Hnew as <-. }
  pose proof (footer_length_range f) as Hr. pose proof (footer_bytes_length f) as Hl. 
  assert (48 ≤ blen (body ++ footer_bytes f)) as Hge by (unfold blen in *; rewrite length_app; lia).
  unfold ReadFooterFromFile. change kMinEncodedLength with 48. change kMaxEncodedLength with 53.
  replace (blen (body ++ footer_bytes f) <? 48) with false by (symmetry; apply Z.ltb_ge; lia).
  destruct (slice_of_tail body (footer_bytes f) 53) as [x Hx]; [lia|lia|].
  set (off := if 53 <? blen (body ++ footer_bytes f) then blen (body ++ footer_bytes f) - 53 else 0) in *.
  assert (0 ≤ off) as Hoff by (unfold off; destruct (Z.ltb_spec 53 (blen (body ++ footer_bytes f))); lia).
  assert (∃ s, match (b ← prefetch_buffer; b off 53) with Some slice => (OK, slice) | None => file_Read file off 53 end = (OK, s) ∧
    s = x ++ footer_bytes f) as (s & -> & ->).
  { destruct prefetch_buffer as [p|]; cbn [mbind option_bind].
    - destruct (p off 53) as [s|] eqn:E; [exists s; by rewrite (Hpre p off 53 s eq_refl E)|].
      exists (x ++ footer_bytes f). by rewrite (Hfile off 53), Hx.
    - exists (x ++ footer_bytes f). by rewrite (Hfile off 53), Hx. }
  cbn [ok negb OK]. assert (48 ≤ blen (x ++ footer_bytes f)) as Hge' by (unfold blen in *; rewrite length_app; lia).
  replace (blen (x ++ footer_bytes f) <? 48) with false by (symmetry; apply Z.ltb_ge; lia).
  rewrite Footer_DecodeFrom_spec by done. cbn [mbind R_bind]. change (ok OK) with true. cbn [negb].
  change (table_magic_number_ (as_read f)) with (upconverted (table_magic_number_ f)).
  destruct (Z.eqb_spec enforce 0) as [->|]; [by exists OK|]. cbn [negb andb orb].
  destruct (Z.eqb_spec enforce (upconverted (table_magic_number_ f))) as [->|]; [by exists OK|]. by eexists.
Qed.

(** A footer written at the end of a file of any length is read back from
    it, with or without a prefetch buffer: version, checksum type and both
    handles, and the magic number with the legacy ones replaced; unless another
    magic number is demanded, which is reported as corruption. A file shorter
    than a footer is refused before anything is read. *)
Theorem Footer_roundtrip (f : Footer) (file : F) prefetch_buffer body enc enforce footer0 :
  footer_ok f → Footer_EncodeTo f [] = Done enc → holds_contents file (body ++ enc) → prefetched prefetch_buffer (body ++ enc) →
  new_Footer kInvalidTableMagicNumber 0 = Done footer0 →
  (∃ s, ReadFooterFromFile file prefetch_buffer (blen (body ++ enc)) footer0 enforce = Done (s, as_read f) ∧
    if (enforce =? 0) || (enforce =? upconverted (table_magic_number_ f)) then s = OK else IsCorruption s = true) ∧
  (∀ size, size < kMinEncodedLength →
     ∃ s, ReadFooterFromFile file prefetch_buffer size footer0 enforce = Done (s, footer0) ∧ IsCorruption s = true).
Proof.
  intros Hf Henc Hfile Hpre Hnew. rewrite Footer_EncodeTo_spec in Henc by done. injection Henc as <-. split.
  - by apply ReadFooter_spec.
  - intros size Hs. unfold ReadFooterFromFile. rewrite (proj2 (Z.ltb_lt _ _) Hs). by eexists.
Qed.
End read.

(** A file in memory. *)
#[export] Instance MemFile : RandomAccessFile bytes := {|
  file_Read f offset n := (OK, slice_of f offset n); file_name f := str "000007.sst" |}.
Lemma MemFile_holds (contents : bytes) : holds_contents contents contents.
Proof. by intros offset n _ _. Qed.

#[local] Instance TestHost : Host := {| kLittleEndian := true |}.
#[local] Instance TestBuild : Build := {| NDEBUG := false |}.

Definition test_footer (magic version : Z) : Footer := mkFooter version kCRC32c (mkHandle 1000 77) (mkHandle 1082 300) magic.
Lemma Footer_roundtrip_witness : ∃ enc footer0,
  Footer_EncodeTo (test_footer kLegacyPlainTableMagicNumber 0) [] = Done enc ∧
  (∃ s, ReadFooterFromFile (str "blocks" ++ enc) None (blen (str "blocks" ++ enc)) footer0 kPlainTableMagicNumber =
      Done (s, as_read (test_footer kLegacyPlainTableMagicNumber 0)) ∧
    if (kPlainTableMagicNumber =? 0) || (kPlainTableMagicNumber =? upconverted kLegacyPlainTableMagicNumber)
    then s = OK else IsCorruption s = true) ∧
  (∀ size, size < kMinEncodedLength →
     ∃ s, ReadFooterFromFile (str "blocks" ++ enc) None size footer0 kPlainTableMagicNumber = Done (s, footer0) ∧ IsCorruption s = true).
Proof.
  eexists _, _. split; [vm_compute; reflexivity|].
  apply (Footer_roundtrip (test_footer kLegacyPlainTableMagicNumber 0)).
  - unfold footer_ok. cbn [version_ checksum_ metaindex_handle_ index_handle_ table_magic_number_ test_footer].
    split_and!; apply (bool_decide_unpack _); vm_compute; exact I.
  - vm_compute. reflexivity.
  - apply MemFile_holds.
  - intros p offset n s [=].
  - vm_compute. reflexivity.
Defined.
