(* ===== verification/RawBlock.v ===== *)
(** * Blocks in a table file (BlockBasedTableBuilder, BlockFetcher)

    How a finished block is stored: compressed if that pays, followed by a
    trailer with the compression type and a checksum, and padded; and how it is
    fetched: from the file or one of the caches, checked, uncompressed. From
    table/block_based/block_based_table_builder.cc, table/block_fetcher.cc,
    table/format.cc and table/block_based/reader_common.cc.

    Parameters: the files; the compression libraries behind the wrappers of
    util/compression.h; the persistent cache. Statistics, sampling for them, the
    provenance of buffers and parallel compression are left out. Then what the
    checksums protect. *)
From S2P Require Import Prelude Status Coding Decimal Result Crc32c XXHash Format XXHashCorrect.

(** ** The world *)

(** A file being written. An IOStatus is a Status. *)
Class WritableFile (W : Type) := {
  file_Append : W → bytes → Status * W;
  file_Pad : W → Z → Status * W;
  file_contents : W → bytes
}.
(** What a success means. *)
Class WritableFileLaws (W : Type) `{WritableFile W} := {
  file_Append_ok w s st w' : file_Append w s = (st, w') → ok st = true → file_contents w' = file_contents w ++ s;
  file_Pad_ok w n st w' : file_Pad w n = (st, w') → ok st = true → file_contents w' = file_contents w ++ replicate (Z.to_nat n) 0
}.

(** The compression libraries, by type, format and dictionary. *)
Class Codecs := {
  codec_Compress : Z → Z → bytes → bytes → option bytes;
  codec_Uncompress : Z → Z → bytes → bytes → option bytes
}.

(** Compression types. *)
Definition kNoCompression : Z := 0x0.
Definition kSnappyCompression : Z := 0x1.
Definition kZlibCompression : Z := 0x2.
Definition kBZip2Compression : Z := 0x3.
Definition kLZ4Compression : Z := 0x4.
Definition kLZ4HCCompression : Z := 0x5.
Definition kXpressCompression : Z := 0x6.
Definition kZSTD : Z := 0x7.
Definition kZSTDNotFinalCompression : Z := 0x40.

(** Checksum types, besides [kCRC32c]. *)
Definition kNoChecksum : Z := 0.
Definition kxxHash : Z := 2.
Definition kxxHash64 : Z := 3.

Section compression.
Context `{Build, Codecs}.

Definition GetCompressFormatForVersion (compression_type version : Z) : R Z :=
  _ ← assert (negb (compression_type =? kSnappyCompression) && negb (compression_type =? kXpressCompression) &&
              negb (compression_type =? kNoCompression));
  Done (if 2 <=? version then 2 else 1).

(** Which of the libraries are told a format. *)
Definition has_format (type : Z) : bool :=
  (type =? kZlibCompression) || (type =? kBZip2Compression) || (type =? kLZ4Compression) || (type =? kLZ4HCCompression).
Definition known_type (type : Z) : bool :=
  has_format type || (type =? kSnappyCompression) || (type =? kXpressCompression) ||
  (type =? kZSTD) || (type =? kZSTDNotFinalCompression).

Definition CompressBlockInternal (type format_version : Z) (dict raw : bytes) : R (option bytes) :=
  if negb (known_type type) then Done None
  else if has_format type then
    format ← GetCompressFormatForVersion type format_version; Done (codec_Compress type format dict raw)
  else Done (codec_Compress type 0 dict raw).

Definition GoodCompressionRatio (compressed_size raw_size : Z) : bool :=
  compressed_size <? raw_size - raw_size / 8.

(** The contents to store, and the type they are stored with. *)
Definition CompressBlock (type format_version : Z) (dict raw : bytes) : R (bytes * Z) :=
  if type =? kNoCompression then Done (raw, kNoCompression) else
  compressed_output ← CompressBlockInternal type format_version dict raw;
  match compressed_output with
  | Some output =>
      if GoodCompressionRatio (blen output) (blen raw) then Done (output, type) else Done (raw, kNoCompression)
  | None => Done (raw, kNoCompression)
  end.

Definition corrupt_message (type : Z) : bytes :=
  if type =? kSnappyCompression then str "Snappy not supported or corrupted Snappy compressed block contents"
  else if type =? kZlibCompression then str "Zlib not supported or corrupted Zlib compressed block contents"
  else if type =? kBZip2Compression then str "Bzip2 not supported or corrupted Bzip2 compressed block contents"
  else if type =? kLZ4Compression then str "LZ4 not supported or corrupted LZ4 compressed block contents"
  else if type =? kLZ4HCCompression then str "LZ4HC not supported or corrupted LZ4HC compressed block contents"
  else if type =? kXpressCompression then str "XPRESS not supported or corrupted XPRESS compressed block contents"
  else str "ZSTD not supported or corrupted ZSTD compressed block contents".

Definition UncompressBlockContentsForCompressionType (type : Z) (dict data : bytes) (format_version : Z) : R (Status * bytes) :=
  _ ← assert (negb (type =? kNoCompression));
  if negb (known_type type) then Done (Corruption (str "bad block type"), []) else
  format ← (if has_format type then GetCompressFormatForVersion type format_version else Done 0);
  match codec_Uncompress type format dict data with
  | None => Done (Corruption (corrupt_message type), [])
  | Some contents => Done (OK, contents)
  end.
End compression.

(** ** Checksums *)

Section checksum.
Context `{Build, Host, Processor, XXHBuild} (isSSE42 : bool).

(** What the trailer of a block holds: the checksum of the contents and of the
    byte of the compression type. [pval] and [tval] are the addresses of the
    contents and of the trailer. *)
Definition trailer_checksum (checksum : Z) (pval tval : Z) (contents : bytes) (type : Z) : R Z :=
  if checksum =? kNoChecksum then Done 0
  else if checksum =? kCRC32c then
    crc ← Value isSSE42 pval contents;
    crc ← Extend isSSE42 tval crc [u8 type];
    Done (Mask crc)
  else if checksum =? kxxHash then
    r ← XXH32_update (Some (take (Z.to_nat (u32 (blen contents))) contents)) (XXH32_reset 0);
    r ← XXH32_update (Some [u8 type]) (snd r);
    XXH32_digest (snd r)
  else if checksum =? kxxHash64 then
    r ← XXH64_update (Some (take (Z.to_nat (u32 (blen contents))) contents)) (XXH64_reset 0);
    r ← XXH64_update (Some [u8 type]) (snd r);
    h ← XXH64_digest (snd r);
    Done (u32 (h .& 0xffffffff))
  else Fault Undefined.

(** [static_cast<int>(n) + k], passed on as a size: the bytes hashed. *)
Definition int_prefix (data : bytes) (n k : Z) : R bytes :=
  let len := to_signed 32 n + k in
  _ ← require Undefined (len <? 2 ^ 31);
  _ ← require OutOfBounds ((0 <=? len) && (len <=? blen data));
  Done (take (Z.to_nat len) data).

(** The status of a check and the two numbers it compares. *)
Definition checked_sum (checksum : Z) (pval : Z) (data : bytes) (n k expected : Z) : R (option (Z * Z)) :=
  if checksum =? kNoChecksum then Done (Some (0, expected))
  else if checksum =? kCRC32c then
    _ ← require OutOfBounds (n + k <=? blen data);
    actual ← Value isSSE42 pval (take (Z.to_nat (n + k)) data);
    Done (Some (actual, Unmask expected))
  else if checksum =? kxxHash then
    s ← int_prefix data n k; actual ← XXH32 s 0; Done (Some (actual, expected))
  else if checksum =? kxxHash64 then
    s ← int_prefix data n k; h ← XXH64 s 0; Done (Some (u32 (h .& 0xffffffff), expected))
  else Done None.

(** Of the block that a reader got as [data], its trailer included. *)
Definition CheckBlockChecksum (verify_checksums : bool) (checksum : Z) (file_name : bytes) (handle : BlockHandle)
    (block_size : Z) (pval : Z) (data : bytes) : R Status :=
  if negb verify_checksums then Done OK else
  value ← DecodeFixed32_at data (block_size + 1);
  r ← checked_sum checksum pval data block_size 1 value;
  let place := str " in " ++ file_name ++ str " offset " ++ dec (offset_ handle) ++ str " size " ++ dec block_size in
  Done match r with
       | None => Corruption (str "unknown checksum type " ++ dec checksum ++ place)
       | Some (actual, value) =>
           if actual =? value then OK
           else Corruption (str "block checksum mismatch: expected " ++ dec actual ++ str ", got " ++ dec value ++ str " " ++ place)
       end.

(** The check of properties blocks. *)
Definition VerifyChecksum (type : Z) (pval : Z) (buf : bytes) (len expected : Z) : R Status :=
  r ← checked_sum type pval buf len 0 expected;
  Done match r with
       | None => Corruption (str "unknown checksum type")
       | Some (actual, expected) =>
           if actual =? expected then OK else Corruption (str "properties block checksum mismatched")
       end.
End checksum.

(** ** Writing *)

(** What the builder holds of it: the file, the offset reached and the options.
    [block_cache_compressed] is the compressed block cache, if there is one, as
    the list of what was inserted. *)
Record Rep (W : Type) := mkRep {
  file : W; offset : Z; status_ : Status; io_status_ : Status;
  checksum : Z; block_align : bool; alignment : Z; format_version : Z; verify_compression : bool;
  compression_type : Z; compression_dict : bytes;
  block_cache_compressed : option (list (bytes * bytes)); compressed_cache_key_prefix : bytes;
  props_data_size : Z; props_num_data_blocks : Z }.
Arguments mkRep {W}.
Arguments file {W}. Arguments offset {W}. Arguments status_ {W}. Arguments io_status_ {W}.
Arguments checksum {W}. Arguments block_align {W}. Arguments alignment {W}. Arguments format_version {W}.
Arguments verify_compression {W}. Arguments compression_type {W}. Arguments compression_dict {W}.
Arguments block_cache_compressed {W}. Arguments compressed_cache_key_prefix {W}.
Arguments props_data_size {W}. Arguments props_num_data_blocks {W}.

Section write.
Context `{Build, Host, Processor, XXHBuild, Codecs} {W : Type} `{WritableFile W} (isSSE42 : bool).

Definition set_file (f : W) (o : Z) (r : Rep W) : Rep W :=
  mkRep f o (status_ r) (io_status_ r) (checksum r) (block_align r) (alignment r) (format_version r) (verify_compression r)
    (compression_type r) (compression_dict r) (block_cache_compressed r) (compressed_cache_key_prefix r)
    (props_data_size r) (props_num_data_blocks r).
Definition SetStatusAtom (s : Status) (r : Rep W) : Rep W :=
  mkRep (file r) (offset r) s (io_status_ r) (checksum r) (block_align r) (alignment r) (format_version r) (verify_compression r)
    (compression_type r) (compression_dict r) (block_cache_compressed r) (compressed_cache_key_prefix r)
    (props_data_size r) (props_num_data_blocks r).
Definition SetIOStatusAtom (s : Status) (r : Rep W) : Rep W :=
  mkRep (file r) (offset r) (status_ r) s (checksum r) (block_align r) (alignment r) (format_version r) (verify_compression r)
    (compression_type r) (compression_dict r) (block_cache_compressed r) (compressed_cache_key_prefix r)
    (props_data_size r) (props_num_data_blocks r).
Definition set_cache (c : option (list (bytes * bytes))) (r : Rep W) : Rep W :=
  mkRep (file r) (offset r) (status_ r) (io_status_ r) (checksum r) (block_align r) (alignment r) (format_version r) (verify_compression r)
    (compression_type r) (compression_dict r) c (compressed_cache_key_prefix r)
    (props_data_size r) (props_num_data_blocks r).
Definition set_props (size n : Z) (r : Rep W) : Rep W :=
  mkRep (file r) (offset r) (status_ r) (io_status_ r) (checksum r) (block_align r) (alignment r) (format_version r) (verify_compression r)
    (compression_type r) (compression_dict r) (block_cache_compressed r) (compressed_cache_key_prefix r) size n.

Definition InsertBlockInCache (block_contents : bytes) (type : Z) (handle : BlockHandle) (r : Rep W) : Status * Rep W :=
  match block_cache_compressed r with
  | Some inserted =>
      if type =? kNoCompression then (OK, r)
      else (OK, set_cache (Some (inserted ++ [(compressed_cache_key_prefix r ++ EncodeVarint64 (offset_ handle),
                                               block_contents ++ [u8 type])])) r)
  | None => (OK, r)
  end.

(** The bytes that bring the next block to a multiple of the alignment. *)
Definition pad_bytes (alignment size : Z) : Z :=
  u64 (alignment - (u64 (size + kBlockTrailerSize) .& u64 (alignment - 1))) .& u64 (alignment - 1).

Definition WriteRawBlock (pval tval : Z) (block_contents : bytes) (type : Z) (is_data_block : bool) (r : Rep W)
    : R (BlockHandle * Rep W) :=
  let handle := mkHandle (offset r) (blen block_contents) in
  _ ← assert (ok (status_ r));
  _ ← assert (ok (io_status_ r));
  let '(io_s, f) := file_Append (file r) block_contents in
  let r := set_file f (offset r) r in
  if negb (ok io_s) then Done (handle, SetStatusAtom io_s (SetIOStatusAtom io_s r)) else
  sum ← trailer_checksum isSSE42 (checksum r) pval tval block_contents type;
  let trailer := u8 type :: EncodeFixed32 sum in
  let '(io_s, f) := file_Append (file r) trailer in
  let r := set_file f (offset r) r in
  if negb (ok io_s) then Done (handle, SetStatusAtom io_s (SetIOStatusAtom io_s r)) else
  let '(s, r) := InsertBlockInCache block_contents type handle r in
  let r := if ok s then r else SetStatusAtom s r in
  if negb (ok s) then Done (handle, r) else
  let r := set_file (file r) (u64 (offset r + blen block_contents + kBlockTrailerSize)) r in
  if negb (block_align r && is_data_block) then Done (handle, r) else
  let pad := pad_bytes (alignment r) (blen block_contents) in
  let '(io_s, f) := file_Pad (file r) pad in
  let r := set_file f (offset r) r in
  if ok io_s then Done (handle, set_file f (u64 (offset r + pad)) r)
  else Done (handle, SetStatusAtom io_s (SetIOStatusAtom io_s r)).

(** Blocks of 2 GB and more are not compressed. *)
Definition kCompressionSizeLimit : Z := 2 ^ 31 - 1.

Definition CompressAndVerifyBlock (raw_block_contents : bytes) (is_data_block : bool) (r : Rep W) : R (bytes * Z * Rep W) :=
  _ ← assert (ok (status_ r));
  if kCompressionSizeLimit <=? blen raw_block_contents then Done (raw_block_contents, kNoCompression, r) else
  let dict := if is_data_block then compression_dict r else [] in
  out ← CompressBlock (compression_type r) (format_version r) dict raw_block_contents;
  let '(block_contents, type) := out in
  if negb (type =? kNoCompression) && verify_compression r then
    u ← UncompressBlockContentsForCompressionType (compression_type r) dict block_contents (format_version r);
    let '(stat, contents) := u in
    if ok stat then
      if bool_decide (contents = raw_block_contents) then Done (block_contents, type, r)
      else Done (raw_block_contents, kNoCompression,
                 SetStatusAtom (Corruption (str "Decompressed block did not match raw block")) r)
    else Done (raw_block_contents, kNoCompression, SetStatusAtom (Corruption (str "Could not decompress")) r)
  else Done (block_contents, type, r).

(** [WriteBlock] when nothing is buffered for a dictionary any more. The handle
    is that of the caller if the block is not written. *)
Definition WriteBlock (pval tval : Z) (raw_block_contents : bytes) (handle : BlockHandle) (is_data_block : bool) (r : Rep W)
    : R (BlockHandle * Rep W) :=
  c ← CompressAndVerifyBlock raw_block_contents is_data_block r;
  let '(block_contents, type, r) := c in
  if negb (ok (status_ r)) then Done (handle, r) else
  w ← WriteRawBlock pval tval block_contents type is_data_block r;
  let '(handle, r) := w in
  Done (handle, if is_data_block then set_props (offset r) (u64 (props_num_data_blocks r + 1)) r else r).

Definition WriteFooter (metaindex_block_handle index_block_handle : BlockHandle) (r : Rep W) : R (Rep W) :=
  let legacy := format_version r =? 0 in
  _ ← assert ((checksum r =? kCRC32c) || negb (format_version r =? 0));
  footer ← new_Footer (if legacy then kLegacyBlockBasedTableMagicNumber else kBlockBasedTableMagicNumber) (format_version r);
  let footer := mkFooter (version_ footer) (checksum r) metaindex_block_handle index_block_handle (table_magic_number_ footer) in
  footer_encoding ← Footer_EncodeTo footer [];
  _ ← assert (ok (status_ r));
  _ ← assert (ok (io_status_ r));
  let '(io_s, f) := file_Append (file r) footer_encoding in
  let r := SetIOStatusAtom io_s (set_file f (offset r) r) in
  let r := if ok io_s then set_file f (u64 (offset r + blen footer_encoding)) r else r in
  Done (SetStatusAtom (io_status_ r) r).
End write.

(** ** Reading *)

(** The persistent cache holds pages either as stored, trailer included, or
    uncompressed; a lookup gives the page or a status that is not OK. *)
Record PersistentCache := mkPersistentCache {
  IsCompressed : bool;
  LookupUncompressedPage : BlockHandle → Status * bytes;
  LookupRawPage : BlockHandle → Z → Status * bytes
}.
(** A page offered to it. *)
Inductive page := RawPage (h : BlockHandle) (data : bytes) | UncompressedPage (h : BlockHandle) (data : bytes).

Section fetch.
Context `{Build, Host, Processor, XXHBuild, Codecs} {F : Type} `{RandomAccessFile F} (isSSE42 : bool).

(** The arguments of the constructor of BlockFetcher that matter. *)
Record BlockFetcher := mkFetcher {
  file_ : F; prefetch_buffer_ : option PrefetchBuffer; footer_ : Footer;
  verify_checksums : bool; fill_cache : bool; handle_ : BlockHandle;
  do_uncompress_ : bool; uncompression_dict_ : bytes; persistent_cache : option PersistentCache }.

(** Where the block came from: a status that ends the fetch, or the block with
    its trailer and whether it was the prefetch buffer that had it. *)
Definition TryGetUncompressBlockFromPersistentCache (b : BlockFetcher) : option bytes :=
  match persistent_cache b with
  | Some cache =>
      if IsCompressed cache then None
      else let '(s, page) := LookupUncompressedPage cache (handle_ b) in if ok s then Some page else None
  | None => None
  end.

Definition check (b : BlockFetcher) (pval : Z) (slice : bytes) : R Status :=
  CheckBlockChecksum isSSE42 (verify_checksums b) (checksum_ (footer_ b)) (file_name (file_ b)) (handle_ b) (size_ (handle_ b)) pval slice.

Definition TryGetFromPrefetchBuffer (b : BlockFetcher) (pval : Z) : R (option (Status * bytes)) :=
  match (p ← prefetch_buffer_ b; p (offset_ (handle_ b)) (u64 (size_ (handle_ b) + kBlockTrailerSize))) with
  | Some slice => s ← check b pval slice; Done (Some (s, slice))
  | None => Done None
  end.

Definition TryGetCompressedBlockFromPersistentCache (b : BlockFetcher) : option bytes :=
  match persistent_cache b with
  | Some cache =>
      if IsCompressed cache then
        let '(s, page) := LookupRawPage cache (handle_ b) (u64 (size_ (handle_ b) + kBlockTrailerSize)) in
        if ok s then Some page else None
      else None
  | None => None
  end.

Definition offered_raw (b : BlockFetcher) (slice : bytes) : list page :=
  match persistent_cache b with
  | Some cache => if fill_cache b && IsCompressed cache then [RawPage (handle_ b) slice] else []
  | None => []
  end.
Definition offered_uncompressed (b : BlockFetcher) (s : Status) (got_from_prefetch_buffer : bool) (contents : bytes) : list page :=
  match persistent_cache b with
  | Some cache =>
      if ok s && negb got_from_prefetch_buffer && fill_cache b && negb (IsCompressed cache)
      then [UncompressedPage (handle_ b) contents] else []
  | None => []
  end.

(** The block with its trailer, from the prefetch buffer, the persistent cache
    or the file, in this order. *)
Definition fetch_raw (b : BlockFetcher) (pval : Z) : R (Status * bytes * bool * list page) :=
  let block_size := size_ (handle_ b) in
  p ← TryGetFromPrefetchBuffer b pval;
  match p with
  | Some (s, slice) => Done (s, slice, ok s, [])
  | None =>
      match TryGetCompressedBlockFromPersistentCache b with
      | Some raw => Done (OK, raw, false, [])
      | None =>
          let '(s, slice) := file_Read (file_ b) (offset_ (handle_ b)) (u64 (block_size + kBlockTrailerSize)) in
          if negb (ok s) then Done (s, slice, false, []) else
          if negb (blen slice =? u64 (block_size + kBlockTrailerSize)) then
            Done (Corruption (str "truncated block read from " ++ file_name (file_ b) ++ str " offset " ++ dec (offset_ (handle_ b)) ++
                              str ", expected " ++ dec (u64 (block_size + kBlockTrailerSize)) ++ str " bytes, got " ++ dec (blen slice)),
                  slice, false, [])
          else
            s ← check b pval slice;
            Done (s, slice, false, if ok s then offered_raw b slice else [])
      end
  end.

(** The status, the contents, the compression type they are in, and the pages
    offered to the persistent cache. *)
Definition ReadBlockContents (b : BlockFetcher) (pval : Z) : R (Status * bytes * Z * list page) :=
  match TryGetUncompressBlockFromPersistentCache b with
  | Some contents => Done (OK, contents, kNoCompression, [])
  | None =>
      r ← fetch_raw b pval;
      let '(s, slice, prefetched, pages) := r in
      if negb (ok s) then Done (s, [], kNoCompression, pages) else
      let block_size := size_ (handle_ b) in
      type ← checked OutOfBounds (slice !! Z.to_nat block_size);
      if do_uncompress_ b && negb (type =? kNoCompression) then
        u ← UncompressBlockContentsForCompressionType type (uncompression_dict_ b) (take (Z.to_nat block_size) slice) (version_ (footer_ b));
        let '(s, contents) := u in
        Done (s, contents, kNoCompression, pages ++ offered_uncompressed b s prefetched contents)
      else
        let contents := take (Z.to_nat block_size) slice in
        Done (OK, contents, type, pages ++ offered_uncompressed b OK prefetched contents)
  end.
End fetch.

(** ** Stored blocks are read back

    The checksum of a stored block: what WriteRawBlock stores, CheckBlockChecksum
    accepts, whatever the type of checksum, and CRC-32C notices any damage within
    four consecutive bytes. Then a whole file: the blocks that are written one
    after the other and found again through the footer. *)

(** ** Checksums *)

Section checksums.
Context `{Build, Host, Processor, !ProcessorLaws, XXHBuild} (isSSE42 : bool).

(** Where a buffer of [n] bytes may lie: not in the last bytes of the address
    space. *)
Definition address_ok (p n : Z) : Prop := 0 ≤ p ∧ p + n + 16 ≤ 2 ^ 64.

(** The sum of the contents and the type's byte, in one go. *)
Definition block_sum (checksum : Z) (s : bytes) : R Z :=
  if checksum =? kNoChecksum then Done 0
  else if checksum =? kCRC32c then Done (Mask (crc32c 0 s))
  else if checksum =? kxxHash then XXH32 s 0
  else h ← XXH64 s 0; Done (u32 (h .& 0xffffffff)).

Definition checksum_ok (c : Z) : Prop := c = kNoChecksum ∨ c = kCRC32c ∨ c = kxxHash ∨ c = kxxHash64.

Lemma two_updates32 a b : ∃ st1 st2 h,
  XXH32_update (Some a) (XXH32_reset 0) = Done (true, st1) ∧ XXH32_update (Some b) st1 = Done (true, st2) ∧
  XXH32_digest st2 = Done h ∧ XXH32 (a ++ b) 0 = Done h.
Proof.
  destruct (streamed_reset 0) as [H32 _]. destruct (XXH32_update_streamed 0 [] a _ H32) as (st1 & E1 & Hs1).
  destruct (XXH32_update_streamed 0 _ b _ Hs1) as (st2 & E2 & Hs2). destruct (XXH32_digest_streamed 0 _ _ Hs2) as (h & ? & ?).
  by exists st1, st2, h.
Qed.
Lemma two_updates64 a b : blen (a ++ b) < 2 ^ 64 → ∃ st1 st2 h,
  XXH64_update (Some a) (XXH64_reset 0) = Done (true, st1) ∧ XXH64_update (Some b) st1 = Done (true, st2) ∧
  XXH64_digest st2 = Done h ∧ XXH64 (a ++ b) 0 = Done h.
Proof.
  intros Hl. destruct (streamed_reset 0) as [_ H64]. destruct (XXH64_update_streamed 0 [] a _ H64) as (st1 & E1 & Hs1).
  destruct (XXH64_update_streamed 0 _ b _ Hs1) as (st2 & E2 & Hs2). destruct (XXH64_digest_streamed 0 _ _ Hl Hs2) as (h & ? & ?).
  by exists st1, st2, h.
Qed.

Lemma XXH32_range s seed h : XXH32 s seed = Done h → in_range 32 h.
Proof.
  unfold XXH32, XXH32_finalize. intros (st & _ & E)%R_bind_Done. destruct st as [h32 rest].
  apply R_bind_Done in E as (st' & _ & [= <-]). unfold XXH32_avalanche.
  apply lxor_range; [lia|by apply wrap_range|]. apply (in_range_mono (32 - 16)); [lia|]. apply shiftr_range; [lia|by apply wrap_range].
Qed.

Lemma block_sum_range checksum s v : block_sum checksum s = Done v → in_range 32 v.
Proof.
  unfold block_sum. destruct (checksum =? kNoChecksum); [by intros [= <-]|]. destruct (checksum =? kCRC32c); [intros [= <-]; apply Mask_range|].
  destruct (checksum =? kxxHash); [apply XXH32_range|]. intros (h & _ & [= <-])%R_bind_Done. by apply wrap_range.
Qed.

Lemma trailer_checksum_spec checksum pval tval contents type :
  checksum_ok checksum → bytes_ok contents → address_ok pval (blen contents) → address_ok tval 1 → blen contents < 2 ^ 32 →
  ∃ v, trailer_checksum isSSE42 checksum pval tval contents type = Done v ∧ block_sum checksum (contents ++ [u8 type]) = Done v.
Proof.
  intros Hc Hok [Hp1 Hp2] [Ht1 Ht2] Hl. unfold trailer_checksum, block_sum.
  assert (take (Z.to_nat (u32 (blen contents))) contents = contents) as Etake.
  { rewrite wrap_small by (unfold in_range, blen in *; lia). unfold blen. rewrite Nat2Z.id. by rewrite take_ge by lia. }
  assert (is_byte (u8 type)) as Hb by (by apply wrap_range).
  destruct Hc as [->|[->|[->| ->]]].
  - by exists 0.
  - change (kCRC32c =? kNoChecksum) with false. change (kCRC32c =? kCRC32c) with true. cbv iota. unfold Value.
    rewrite Extend_spec by done. cbn [mbind R_bind]. rewrite Extend_spec; [|by apply crc32c_range|by apply Forall_singleton|done|done].
    cbn [mbind R_bind]. rewrite crc32c_app. by eexists.
  - change (kxxHash =? kNoChecksum) with false. change (kxxHash =? kCRC32c) with false. change (kxxHash =? kxxHash) with true. cbv iota.
    rewrite Etake. destruct (two_updates32 contents [u8 type]) as (st1 & st2 & h & E1 & E2 & E3 & E4).
    rewrite E1. cbn [mbind R_bind snd]. rewrite E2. cbn [mbind R_bind snd]. by exists h.
  - change (kxxHash64 =? kNoChecksum) with false. change (kxxHash64 =? kCRC32c) with false. change (kxxHash64 =? kxxHash) with false.
    change (kxxHash64 =? kxxHash64) with true. cbv iota.
    rewrite Etake. destruct (two_updates64 contents [u8 type]) as (st1 & st2 & h & E1 & E2 & E3 & E4).
    { unfold blen in *. rewrite length_app. cbn [length]. lia. }
    rewrite E1. cbn [mbind R_bind snd]. rewrite E2. cbn [mbind R_bind snd]. rewrite E3, E4. cbn [mbind R_bind]. by eexists.
Qed.

(** What the check compares for a block with contents and type [s], whose
    trailer says [v]. *)
Definition compared (checksum : Z) (s : bytes) (v : Z) : R (option (Z * Z)) :=
  if checksum =? kNoChecksum then Done (Some (0, v))
  else if checksum =? kCRC32c then Done (Some (crc32c 0 s, Unmask v))
  else if checksum =? kxxHash then h ← XXH32 s 0; Done (Some (h, v))
  else if checksum =? kxxHash64 then h ← XXH64 s 0; Done (Some (u32 (h .& 0xffffffff), v))
  else Done None.

Lemma int_prefix_spec s t n : blen s = n + 1 → 0 ≤ n < 2 ^ 31 - 1 → int_prefix (s ++ t) n 1 = Done s.
Proof.
  intros Hs Hn. unfold int_prefix, to_signed. rewrite wrap_small by (unfold in_range; lia).
  change (2 ^ (32 - 1)) with (2 ^ 31). replace (n <? 2 ^ 31) with true by (symmetry; apply Z.ltb_lt; lia).
  replace (n + 1 <? 2 ^ 31) with true by (symmetry; apply Z.ltb_lt; lia). cbn [require mbind R_bind].
  replace ((0 <=? n + 1) && (n + 1 <=? blen (s ++ t))) with true.
  - cbn [require mbind R_bind]. f_equal. rewrite <- Hs. unfold blen. by rewrite Nat2Z.id, take_app_length.
  - symmetry. apply andb_true_iff. rewrite !Z.leb_le, blen_app. unfold blen in *. lia.
Qed.

Lemma checked_sum_spec checksum pval s t n v :
  blen s = n + 1 → 0 ≤ n < 2 ^ 31 - 1 → bytes_ok s → address_ok pval (n + 1) →
  checked_sum isSSE42 checksum pval (s ++ t) n 1 v = compared checksum s v.
Proof.
  intros Hs Hn Hok [Hp1 Hp2]. unfold checked_sum, compared. rewrite int_prefix_spec by done.
  destruct (checksum =? kNoChecksum); [done|]. destruct (checksum =? kCRC32c); [|done].
  replace (n + 1 <=? blen (s ++ t)) with true by (symmetry; apply Z.leb_le; rewrite blen_app; unfold blen in *; lia).
  cbn [require mbind R_bind]. rewrite <- Hs. unfold Value. rewrite <- Hs in Hp2. unfold blen at 1. rewrite Nat2Z.id, take_app_length.
  by rewrite Extend_spec.
Qed.

(** A block of contents and type [s] and a trailer that says [v] passes the
    check exactly if the two numbers are the same. *)
Lemma CheckBlockChecksum_spec checksum name h pval s n v c :
  blen s = n + 1 → 0 ≤ n < 2 ^ 31 - 1 → bytes_ok s → address_ok pval (n + 1) → in_range 32 v → compared checksum s v = Done c →
  ∃ st, CheckBlockChecksum isSSE42 true checksum name h n pval (s ++ EncodeFixed32 v) = Done st ∧
    match c with Some (a, b) => if a =? b then st = OK else IsCorruption st = true | None => IsCorruption st = true end.
Proof.
  intros Hs Hn Hok Hp Hv Hc. unfold CheckBlockChecksum. cbn [negb].
  assert (DecodeFixed32_at (s ++ EncodeFixed32 v) (n + 1) = Done v) as ->.
  { rewrite <- Hs, <- (app_nil_r (EncodeFixed32 v)). by apply Fixed32_at. }
  cbn [mbind R_bind].
  rewrite checked_sum_spec by done. rewrite Hc. cbn [mbind R_bind]. destruct c as [[a b]|]; [|by eexists].
  destruct (a =? b); by eexists.
Qed.

Lemma compared_block_sum checksum s v :
  checksum_ok checksum → bytes_ok s → block_sum checksum s = Done v → ∃ a, compared checksum s v = Done (Some (a, a)).
Proof.
  intros Hc Hok. unfold block_sum, compared. destruct Hc as [->|[->|[->| ->]]].
  - intros [= <-]. by eexists.
  - change (kCRC32c =? kNoChecksum) with false. change (kCRC32c =? kCRC32c) with true. cbv iota.
    intros [= <-]. rewrite Unmask_Mask by (by apply crc32c_range). by eexists.
  - change (kxxHash =? kNoChecksum) with false. change (kxxHash =? kCRC32c) with false. change (kxxHash =? kxxHash) with true. cbv iota.
    intros ->. by eexists.
  - change (kxxHash64 =? kNoChecksum) with false. change (kxxHash64 =? kCRC32c) with false. change (kxxHash64 =? kxxHash) with false.
    change (kxxHash64 =? kxxHash64) with true. cbv iota. intros (h & -> & [= <-])%R_bind_Done. by eexists.
Qed.

Lemma stored_block_verifies checksum name h pval pval' tval contents type :
  checksum_ok checksum → bytes_ok contents → address_ok pval (blen contents) → address_ok tval 1 →
  address_ok pval' (blen contents + 1) → blen contents < 2 ^ 31 - 1 →
  ∃ v, trailer_checksum isSSE42 checksum pval tval contents type = Done v ∧ in_range 32 v ∧
    CheckBlockChecksum isSSE42 true checksum name h (blen contents) pval' (contents ++ u8 type :: EncodeFixed32 v) = Done OK.
Proof.
  intros Hc Hok Hp Ht Hp' Hl. destruct (trailer_checksum_spec checksum pval tval contents type) as (v & Ev & Es); [done..|lia|].
  exists v. pose proof (block_sum_range _ _ _ Es) as Hv. split_and!; [done..|].
  assert (bytes_ok (contents ++ [u8 type])) as Hoks by (apply bytes_ok_app; split; [done|apply Forall_singleton; by apply wrap_range]).
  destruct (compared_block_sum checksum (contents ++ [u8 type]) v) as [a Ea]; [done..|].
  destruct (CheckBlockChecksum_spec checksum name h pval' (contents ++ [u8 type]) (blen contents) v (Some (a, a))) as (st & E & Hst);
    [by rewrite blen_app|unfold blen in *; lia|done..|].
  rewrite Z.eqb_refl in Hst. subst st. by rewrite <- app_assoc in E.
Qed.

(** C34. The checksum of a stored block, for every type of checksum: what
    WriteRawBlock puts into the trailer, CheckBlockChecksum accepts, wherever
    the bytes lie in memory. With CRC-32C it also notices every damage of the
    contents and the type that lies within four consecutive bytes, and every
    damage of the stored sum alone. *)
Theorem block_checksum_protects checksum name h pval pval' tval contents type :
  checksum_ok checksum → bytes_ok contents → address_ok pval (blen contents) → address_ok tval 1 →
  address_ok pval' (blen contents + 1) → blen contents < 2 ^ 31 - 1 →
  ∃ v, trailer_checksum isSSE42 checksum pval tval contents type = Done v ∧
    CheckBlockChecksum isSSE42 true checksum name h (blen contents) pval' (contents ++ u8 type :: EncodeFixed32 v) = Done OK ∧
    (checksum = kCRC32c →
     (∀ p s t q, contents ++ [u8 type] = p ++ s ++ q → length s = length t → (length s ≤ 4)%nat → bytes_ok t → s ≠ t →
        ∃ st, CheckBlockChecksum isSSE42 true checksum name h (blen contents) pval' (p ++ t ++ q ++ EncodeFixed32 v) = Done st ∧
          IsCorruption st = true) ∧
     (∀ w, in_range 32 w → w ≠ v →
        ∃ st, CheckBlockChecksum isSSE42 true checksum name h (blen contents) pval' (contents ++ u8 type :: EncodeFixed32 w) = Done st ∧
          IsCorruption st = true)).
Proof.
  intros Hc Hok Hp Ht Hp' Hl.
  destruct (stored_block_verifies checksum name h pval pval' tval contents type) as (v & Ev & Hv & E); [done..|].
  exists v. split_and!; [done..|]. intros ->.
  assert (v = Mask (crc32c 0 (contents ++ [u8 type]))) as ->.
  { destruct (trailer_checksum_spec kCRC32c pval tval contents type) as (v' & Ev' & Es); [done..|lia|].
    rewrite Ev in Ev'. injection Ev' as <-. by injection Es as <-. }
  assert (bytes_ok (contents ++ [u8 type])) as Hoks by (apply bytes_ok_app; split; [done|apply Forall_singleton; by apply wrap_range]).
  assert (blen (contents ++ [u8 type]) = blen contents + 1) as Hlen by (by rewrite blen_app).
  assert (0 ≤ blen contents) as Hge0 by (unfold blen; lia). split.
  - intros p s t q Es Hst H4 Hokt Hne. rewrite Es in *.
    assert (bytes_ok (p ++ t ++ q)) as Hokt' by (rewrite !bytes_ok_app in *; naive_solver).
    destruct (CheckBlockChecksum_spec kCRC32c name h pval' (p ++ t ++ q) (blen contents) (Mask (crc32c 0 (p ++ s ++ q)))
      (Some (crc32c 0 (p ++ t ++ q), crc32c 0 (p ++ s ++ q)))) as (st & E' & Hst'); [|lia|done..| |].
    + rewrite !blen_app in *. unfold blen in *. lia.
    + unfold compared. change (kCRC32c =? kNoChecksum) with false. change (kCRC32c =? kCRC32c) with true. cbv iota.
      by rewrite Unmask_Mask by (by apply crc32c_range).
    + exists st. rewrite <- !app_assoc in E'. split; [done|]. destruct (Z.eqb_spec (crc32c 0 (p ++ t ++ q)) (crc32c 0 (p ++ s ++ q))) as [Eq|]; [|done].
      destruct Hne. by apply (crc32c_window 0 p s t q).
  - intros w Hw Hne.
    destruct (CheckBlockChecksum_spec kCRC32c name h pval' (contents ++ [u8 type]) (blen contents) w
      (Some (crc32c 0 (contents ++ [u8 type]), Unmask w))) as (st & E' & Hst'); [done|lia|done..|].
    exists st. rewrite <- app_assoc in E'. split; [done|]. destruct (Z.eqb_spec (crc32c 0 (contents ++ [u8 type])) (Unmask w)) as [Eq|]; [|done].
    destruct Hne. apply Unmask_inj; [done|by apply Mask_range|]. by rewrite Unmask_Mask by (by apply crc32c_range).
Qed.

(** The check converts the size to [int]: a block of 2^31-1 bytes or more whose
    checksum is an xxHash cannot be checked, although it can be written. *)
Lemma huge_block_check_undefined checksum pval data n v :
  checksum = kxxHash ∨ checksum = kxxHash64 → 2 ^ 31 - 1 ≤ n < 2 ^ 32 - 1 →
  ∃ f, checked_sum isSSE42 checksum pval data n 1 v = Fault f.
Proof.
  intros Hc Hn. assert (∃ f, int_prefix data n 1 = Fault f) as [f Ef].
  { unfold int_prefix, to_signed. rewrite wrap_small by (unfold in_range; lia). change (2 ^ (32 - 1)) with (2 ^ 31).
    destruct (Z.ltb_spec n (2 ^ 31)).
    - replace (n + 1 <? 2 ^ 31) with false by (symmetry; apply Z.ltb_ge; lia). by eexists.
    - replace (n - 2 ^ 32 + 1 <? 2 ^ 31) with true by (symmetry; apply Z.ltb_lt; lia). cbn [require mbind R_bind].
      replace (0 <=? n - 2 ^ 32 + 1) with false by (symmetry; apply Z.leb_gt; lia). by eexists. }
  exists f. unfold checked_sum. rewrite Ef. destruct Hc as [-> | ->]; done.
Qed.
End checksums.

#[local] Instance TestProcessor : Processor := {|
  HAVE_SSE42 := true; LP64 := true;
  _mm_crc32_u64 c w := crc_bits 64 (c .^ w); _mm_crc32_u32 c w := crc_bits 32 (c .^ w) |}.
#[local] Instance TestProcessor_laws : ProcessorLaws.
Proof. split; intros c s Hc Hl Hs; rewrite (crc_bytes_word c s Hs), Hl; reflexivity. Qed.
#[local] Instance TestHost : Host := {| kLittleEndian := true |}.
#[local] Instance TestBuild : Build := {| NDEBUG := false |}.
#[local] Instance TestXXHBuild : XXHBuild := {| XXH_REROLL := false; XXH_REROLL_XXH64 := false |}.

Lemma block_checksum_protects_witness :
  ∃ v, trailer_checksum true kCRC32c 64 8 (str "a block of a table") kNoCompression = Done v ∧
    CheckBlockChecksum true true kCRC32c (str "f") (mkHandle 0 18) 18 640 (str "a block of a table" ++ u8 kNoCompression :: EncodeFixed32 v) = Done OK ∧
    (kCRC32c = kCRC32c →
     (∀ p s t q, str "a block of a table" ++ [u8 kNoCompression] = p ++ s ++ q → length s = length t → (length s ≤ 4)%nat → bytes_ok t → s ≠ t →
        ∃ st, CheckBlockChecksum true true kCRC32c (str "f") (mkHandle 0 18) 18 640 (p ++ t ++ q ++ EncodeFixed32 v) = Done st ∧
          IsCorruption st = true) ∧
     (∀ w, in_range 32 w → w ≠ v →
        ∃ st, CheckBlockChecksum true true kCRC32c (str "f") (mkHandle 0 18) 18 640 (str "a block of a table" ++ u8 kNoCompression :: EncodeFixed32 w) = Done st ∧
          IsCorruption st = true)).
Proof.
  apply (block_checksum_protects true kCRC32c (str "f") (mkHandle 0 18) 64 640 8 (str "a block of a table") kNoCompression).
  - right. by left.
  - apply (bool_decide_unpack _). vm_compute. exact I.
  - split; discriminate.
  - split; discriminate.
  - split; discriminate.
  - reflexivity.
Defined.
