(* ===== verification/TableFile.v ===== *)
(** * A file of blocks, written and read

    Blocks written one after the other as the table builder does, a footer at
    the end, and then a reader that starts from the end of the file: the footer
    gives the handles, and each handle its block, as it was before compression. *)
From S2P Require Import Prelude Status Coding Decimal Result Crc32c XXHash XXHashCorrect Format RawBlock.

(** ** Compression *)

Section codecs.
Context `{Build, Codecs}.

(** Compressors put out bytes, and their output can be uncompressed again. *)
Definition codecs_bytes : Prop := ∀ type format dict raw out,
  codec_Compress type format dict raw = Some out → bytes_ok out.
Definition codecs_faithful : Prop := ∀ type format dict raw out,
  codec_Compress type format dict raw = Some out → codec_Uncompress type format dict out = Some raw.

Definition format_of (type version : Z) : Z := if has_format type then (if 2 <=? version then 2 else 1) else 0.

Lemma known_not_none type : known_type type = true → type ≠ kNoCompression.
Proof. by intros Hk ->. Qed.

Lemma format_defined type version :
  known_type type = true →
  (if has_format type then GetCompressFormatForVersion type version else Done 0) = Done (format_of type version).
Proof.
  intros Hk. unfold format_of. destruct (has_format type) eqn:Hf; [|done]. unfold GetCompressFormatForVersion.
  assert (negb (type =? kSnappyCompression) && negb (type =? kXpressCompression) && negb (type =? kNoCompression) = true) as ->; [|by rewrite assert_true].
  unfold has_format in Hf. rewrite !orb_true_iff, !Z.eqb_eq in Hf. destruct Hf as [[[-> | ->] | ->] | ->]; reflexivity.
Qed.

Lemma Uncompress_spec type dict data version :
  known_type type = true →
  UncompressBlockContentsForCompressionType type dict data version =
    Done match codec_Uncompress type (format_of type version) dict data with
         | Some contents => (OK, contents) | None => (Corruption (corrupt_message type), []) end.
Proof.
  intros Hk. unfold UncompressBlockContentsForCompressionType. pose proof (known_not_none _ Hk) as Hn.
  rewrite (proj2 (Z.eqb_neq _ _) Hn), assert_true. cbn [mbind R_bind]. rewrite Hk. cbn [negb]. rewrite format_defined by done.
  cbn [mbind R_bind]. by destruct (codec_Uncompress _ _ _ _).
Qed.

Lemma CompressBlock_spec type version dict raw :
  CompressBlock type version dict raw = Done (raw, kNoCompression) ∨
  ∃ out, CompressBlock type version dict raw = Done (out, type) ∧ known_type type = true ∧
    codec_Compress type (format_of type version) dict raw = Some out ∧ blen out ≤ blen raw.
Proof.
  unfold CompressBlock, CompressBlockInternal. destruct (type =? kNoCompression); [by left|].
  destruct (known_type type) eqn:Hk; cbn [negb mbind R_bind]; [|by left].
  assert ((if has_format type then format ← GetCompressFormatForVersion type version; Done (codec_Compress type format dict raw)
    else Done (codec_Compress type 0 dict raw)) = Done (codec_Compress type (format_of type version) dict raw)) as ->.
  { pose proof (format_defined type version Hk) as E. unfold format_of in *. destruct (has_format type); [|done]. by rewrite E. }
  cbn [mbind R_bind]. destruct (codec_Compress _ _ _ _) as [out|] eqn:Ec; [|by left].
  unfold GoodCompressionRatio. destruct (Z.ltb_spec (blen out) (blen raw - blen raw / 8)) as [Hlt|]; [|by left]. right. exists out.
  split_and!; [done..|]. assert (0 ≤ blen raw / 8); [|lia]. apply Z.div_pos; [unfold blen|]; lia.
Qed.
End codecs.

(** ** The file *)

Section table_file.
Context `{Build, Host, Processor, !ProcessorLaws, XXHBuild, Codecs} {W : Type} `{WritableFile W, !WritableFileLaws W} (isSSE42 : bool).
Implicit Types r : Rep W.

(** What a payload of type [type] stands for. *)
Definition stands_for (dict : bytes) (version : Z) (payload : bytes) (type : Z) (raw : bytes) : Prop :=
  bytes_ok payload ∧ blen payload ≤ blen raw ∧ u8 type = type ∧
  (type = kNoCompression ∧ payload = raw ∨
   type ≠ kNoCompression ∧ UncompressBlockContentsForCompressionType type dict payload version = Done (OK, raw)).

(** The options that the file is written with. *)
Record options_ok r : Prop := {
  opt_checksum : checksum_ok (checksum r);
  opt_type : in_range 8 (compression_type r);
  opt_codecs : codecs_bytes;
  opt_verified : verify_compression r = true ∨ codecs_faithful
}.

Definition block_dict (is_data_block : bool) r : bytes := if is_data_block then compression_dict r else [].

Lemma CompressAndVerifyBlock_spec raw is_data_block r :
  ok (status_ r) = true → options_ok r → bytes_ok raw → blen raw < kCompressionSizeLimit →
  ∃ payload type r', CompressAndVerifyBlock raw is_data_block r = Done (payload, type, r') ∧
    ((∃ s, r' = SetStatusAtom s r ∧ ok s = false) ∨
     r' = r ∧ stands_for (block_dict is_data_block r) (format_version r) payload type raw).
Proof.
  intros Hok [Hck Hty Hbytes Hver] Hraw Hsize. unfold CompressAndVerifyBlock. rewrite Hok, assert_true. cbn [mbind R_bind].
  rewrite (proj2 (Z.leb_gt _ _) Hsize). fold (block_dict is_data_block r).
  set (dict := block_dict is_data_block r).
  destruct (CompressBlock_spec (compression_type r) (format_version r) dict raw) as [->|(out & -> & Hk & Hc & Hle)]; cbn [mbind R_bind].
  { change (negb (kNoCompression =? kNoCompression) && _) with false. cbv iota. do 3 eexists. split; [done|]. right. split; [done|].
    split_and!; [done|done|done|by left]. }
  pose proof (known_not_none _ Hk) as Hn. rewrite (proj2 (Z.eqb_neq _ _) Hn). cbn [negb andb].
  assert (codec_Uncompress (compression_type r) (format_of (compression_type r) (format_version r)) dict out = Some raw →
    stands_for dict (format_version r) out (compression_type r) raw) as Hst.
  { intros E. split_and!; [by eapply Hbytes|done|by apply wrap_small|]. right. split; [done|]. by rewrite Uncompress_spec, E. }
  destruct (verify_compression r) eqn:Hv.
  - rewrite Uncompress_spec by done. cbn [mbind R_bind]. destruct (codec_Uncompress _ _ _ _) as [contents|] eqn:Eu.
    + change (ok OK) with true. cbv iota. case_bool_decide; do 3 eexists; (split; [done|]).
      * right. split; [done|]. apply Hst. by subst.
      * left. by eexists.
    + cbn [ok]. change (ok (Corruption _)) with false. cbv iota. do 3 eexists. split; [done|]. left. by eexists.
  - destruct Hver as [|Hf]; [done|]. do 3 eexists. split; [done|]. right. split; [done|]. by apply Hst, Hf.
Qed.

(** The block of [h] in a file: payload and trailer. *)
Definition stored (dict : bytes) (version checksum : Z) (contents : bytes) (h : BlockHandle) (raw : bytes) : Prop :=
  ∃ pre payload type v suf,
    contents = pre ++ (payload ++ type :: EncodeFixed32 v) ++ suf ∧ h = mkHandle (u64 (blen pre)) (blen payload) ∧
    blen payload < 2 ^ 31 - 1 ∧ block_sum checksum (payload ++ [type]) = Done v ∧ stands_for dict version payload type raw.

Lemma stored_more dict version checksum contents h raw more :
  stored dict version checksum contents h raw → stored dict version checksum (contents ++ more) h raw.
Proof.
  intros (pre & payload & type & v & suf & -> & ? & ? & ? & ?). exists pre, payload, type, v, (suf ++ more).
  split_and!; [|done..]. by rewrite <- !app_assoc.
Qed.

(** The same options, and the file and the offset of [r']. *)
Definition same_options r r' : Prop :=
  checksum r' = checksum r ∧ format_version r' = format_version r ∧ verify_compression r' = verify_compression r ∧
  compression_type r' = compression_type r ∧ compression_dict r' = compression_dict r.
#[local] Instance same_options_preorder : PreOrder same_options.
Proof. split; [done|]. intros r1 r2 r3 (?&?&?&?&?) (?&?&?&?&?). split_and!; congruence. Qed.

(** A writer that got this far. *)
Definition in_step r : Prop :=
  ok (status_ r) = true ∧ ok (io_status_ r) = true ∧ offset r = u64 (blen (file_contents (file r))).

Lemma appended (f f' : W) s st : file_Append f s = (st, f') → ok st = true →
  file_contents f' = file_contents f ++ s ∧ blen (file_contents f') = blen (file_contents f) + blen s.
Proof. intros E Hs. pose proof (file_Append_ok f s st f' E Hs) as ->. by rewrite blen_app. Qed.

Lemma InsertBlockInCache_spec payload type h r :
  ∃ r', InsertBlockInCache payload type h r = (OK, r') ∧ same_options r r' ∧
    file r' = file r ∧ offset r' = offset r ∧ status_ r' = status_ r ∧ io_status_ r' = io_status_ r.
Proof.
  unfold InsertBlockInCache. destruct (block_cache_compressed r); [destruct (type =? kNoCompression)|];
    (eexists; split; [done|]; split_and!; [repeat split|done..]).
Qed.

Lemma pad_length alignment size : blen (replicate (Z.to_nat (pad_bytes alignment size)) 0) = pad_bytes alignment size.
Proof.
  unfold blen. rewrite length_replicate. assert (0 ≤ pad_bytes alignment size); [|lia].
  unfold pad_bytes. apply Z.land_nonneg. left. by apply wrap_range.
Qed.

Lemma WriteRawBlock_spec pval tval payload type is_data_block r :
  in_step r → checksum_ok (checksum r) → bytes_ok payload → blen payload < 2 ^ 31 - 1 → u8 type = type →
  address_ok pval (blen payload) → address_ok tval 1 →
  ∃ h r', WriteRawBlock isSSE42 pval tval payload type is_data_block r = Done (h, r') ∧ same_options r r' ∧
    (ok (status_ r') = true → in_step r' ∧
      ∃ v more, block_sum (checksum r) (payload ++ [type]) = Done v ∧ h = mkHandle (offset r) (blen payload) ∧
        file_contents (file r') = file_contents (file r) ++ (payload ++ type :: EncodeFixed32 v) ++ more).
Proof.
  intros (Hs & Hio & Ho) Hck Hok Hl Hty Hp Ht. unfold WriteRawBlock. rewrite Hs, Hio, !assert_true. cbn [mbind R_bind].
  destruct (file_Append (file r) payload) as [s1 f1] eqn:E1. destruct (ok s1) eqn:Hs1; cbn [negb];
    [|do 2 eexists; split; [done|]; split; [repeat split|]; cbn; congruence].
  destruct (appended _ _ _ _ E1 Hs1) as [Ec1 El1].
  destruct (trailer_checksum_spec isSSE42 (checksum r) pval tval payload type) as (v & Ev & Hv); [done..|lia|].
  change (checksum (set_file f1 (offset r) r)) with (checksum r). rewrite Ev. cbn [mbind R_bind]. rewrite Hty in Hv |- *.
  change (file (set_file f1 (offset r) r)) with f1.
  destruct (file_Append f1 (type :: EncodeFixed32 v)) as [s2 f2] eqn:E2. destruct (ok s2) eqn:Hs2; cbn [negb];
    [|do 2 eexists; split; [done|]; split; [repeat split|]; cbn; congruence].
  destruct (appended _ _ _ _ E2 Hs2) as [Ec2 El2].
  assert (blen (type :: EncodeFixed32 v) = kBlockTrailerSize) as Etr by (unfold blen; cbn [length]; by rewrite length_EncodeFixed32).
  set (r2 := set_file f2 (offset (set_file f1 (offset r) r)) (set_file f1 (offset r) r)).
  destruct (InsertBlockInCache_spec payload type (mkHandle (offset r) (blen payload)) r2) as (r3 & -> & Hsame & Ef3 & Eo3 & Es3 & Eio3).
  change (ok OK) with true. cbn [negb]. cbv iota.
  assert (u64 (offset r + blen payload + kBlockTrailerSize) = u64 (blen (file_contents f2))) as Elen.
  { rewrite Ho, <- Z.add_assoc, wrap_add_l. f_equal. lia. }
  set (r4 := set_file (file r3) (u64 (offset r3 + blen payload + kBlockTrailerSize)) r3).
  assert (same_options r r4) as Hsame4 by (etrans; [|exact Hsame]; repeat split).
  assert (file r4 = f2 ∧ offset r4 = u64 (blen (file_contents f2)) ∧ status_ r4 = status_ r ∧ io_status_ r4 = io_status_ r) as (Ef4 & Eo4 & Es4 & Eio4).
  { split_and!; [exact Ef3|cbn; rewrite Eo3; exact Elen|exact Es3|exact Eio3]. }
  clearbody r4. clear Hsame Ef3 Eo3 Es3 Eio3 r3 r2.
  destruct (negb (block_align r4 && is_data_block)).
  { do 2 eexists. split; [done|]. split; [done|]. rewrite Ef4. intros _. split.
    - split_and!; [by rewrite Es4|by rewrite Eio4|by rewrite Ef4, Eo4].
    - exists v, []. split_and!; [done|done|]. by rewrite app_nil_r, Ec2, Ec1, <- app_assoc. }
  destruct (file_Pad (file r4) (pad_bytes (alignment r4) (blen payload))) as [s3 f3] eqn:E3. destruct (ok s3) eqn:Hs3;
    [|do 2 eexists; split; [done|]; split; [etrans; [exact Hsame4|repeat split]|]; cbn; congruence].
  pose proof (file_Pad_ok _ _ _ _ E3 Hs3) as Ec3. rewrite Ef4 in Ec3.
  assert (blen (file_contents f3) = blen (file_contents f2) + pad_bytes (alignment r4) (blen payload)) as El3 by (by rewrite Ec3, blen_app, pad_length).
  do 2 eexists. split; [done|]. split; [etrans; [exact Hsame4|repeat split]|]. intros _. split.
  - split_and!; cbn; [by rewrite Es4|by rewrite Eio4|]. by rewrite Eo4, wrap_add_l, <- El3.
  - exists v. eexists. split_and!; [done|done|]. cbn [file set_file]. by rewrite Ec3, Ec2, Ec1, <- !app_assoc.
Qed.

Lemma WriteBlock_spec pval tval raw h0 is_data_block r :
  in_step r → options_ok r → bytes_ok raw → blen raw < kCompressionSizeLimit → address_ok pval (blen raw) → address_ok tval 1 →
  ∃ h r', WriteBlock isSSE42 pval tval raw h0 is_data_block r = Done (h, r') ∧ same_options r r' ∧
    (ok (status_ r') = true → in_step r' ∧
      (∃ more, file_contents (file r') = file_contents (file r) ++ more) ∧
      stored (block_dict is_data_block r) (format_version r) (checksum r) (file_contents (file r')) h raw).
Proof.
  intros Hin Hopt Hok Hl Hp Ht. unfold WriteBlock. pose proof Hin as (Hs & Hio & Ho).
  destruct (CompressAndVerifyBlock_spec raw is_data_block r) as (payload & type & r1 & -> & Hcase); [done..|]. cbn [mbind R_bind].
  destruct Hcase as [(s & -> & Hns)|[-> Hst]].
  { change (status_ (SetStatusAtom s r)) with s. rewrite Hns. cbn [negb]. do 2 eexists. split; [done|]. split; [repeat split|].
    cbn. congruence. }
  rewrite Hs. cbn [negb]. pose proof Hst as (Hpok & Hple & Hty & _). pose proof Hopt as [Hck _ _ _].
  destruct (WriteRawBlock_spec pval tval payload type is_data_block r) as (h & r' & -> & Hsame & Hdone); [done..| |done| |done|].
  { unfold kCompressionSizeLimit in Hl. lia. }
  { destruct Hp. split; lia. }
  cbn [mbind R_bind]. exists h. set (r'' := if is_data_block then _ else _).
  assert (same_options r' r'' ∧ status_ r'' = status_ r' ∧ file r'' = file r' ∧ (in_step r' → in_step r'')) as (Hsame' & Es & Ef & Hstep)
    by (unfold r''; destruct is_data_block; split_and!; try done; repeat split).
  exists r''. split; [done|]. split; [by etrans|]. rewrite Es, Ef. intros Hok'.
  destruct (Hdone Hok') as (Hin' & v & more & Hv & -> & Ec). split; [by apply Hstep|]. split; [by eexists|].
  exists (file_contents (file r)), payload, type, v, more. split_and!; [done|by rewrite Ho| |done|done].
  unfold kCompressionSizeLimit in Hl. lia.
Qed.

(** Blocks one after the other, as long as there is no error. *)
Fixpoint write_blocks (blocks : list (Z * Z * bytes * bool)) r : R (list BlockHandle * Rep W) :=
  match blocks with
  | [] => Done ([], r)
  | (pval, tval, raw, is_data_block) :: blocks =>
      if negb (ok (status_ r)) then Done ([], r) else
      w ← WriteBlock isSSE42 pval tval raw kNullBlockHandle is_data_block r;
      ws ← write_blocks blocks (snd w);
      Done (fst w :: fst ws, snd ws)
  end.

Definition block_ok (b : Z * Z * bytes * bool) : Prop :=
  let '(pval, tval, raw, _) := b in
  bytes_ok raw ∧ blen raw < kCompressionSizeLimit ∧ address_ok pval (blen raw) ∧ address_ok tval 1.

Lemma options_same r r' : same_options r r' → options_ok r → options_ok r'.
Proof. intros (E1 & E2 & E3 & E4 & E5) []. by split; rewrite ?E1, ?E3, ?E4. Qed.

Lemma write_blocks_spec blocks r :
  in_step r → options_ok r → Forall block_ok blocks →
  ∃ hs r', write_blocks blocks r = Done (hs, r') ∧ same_options r r' ∧
    (ok (status_ r') = true → in_step r' ∧ (∃ more, file_contents (file r') = file_contents (file r) ++ more) ∧
      Forall2 (λ h b, stored (block_dict (snd b) r) (format_version r) (checksum r) (file_contents (file r')) h (snd (fst b))) hs blocks).
Proof.
  intros Hin Hopt Hb. revert r Hin Hopt. induction Hb as [|[[[pval tval] raw] is_data] blocks (Hok & Hl & Hp & Ht) Hb IH]; intros r Hin Hopt.
  { exists [], r. split; [done|]. split; [done|]. intros _. split; [done|]. split; [exists []; by rewrite app_nil_r|constructor]. }
  cbn [write_blocks]. pose proof Hin as (Hs & _). rewrite Hs. cbn [negb].
  destruct (WriteBlock_spec pval tval raw kNullBlockHandle is_data r) as (h & r1 & -> & Hsame1 & Hdone1); [done..|]. cbn [mbind R_bind snd fst].
  destruct (ok (status_ r1)) eqn:Hok1.
  - destruct (Hdone1 eq_refl) as (Hin1 & [more1 Em1] & Hst).
    destruct (IH r1 Hin1 (options_same _ _ Hsame1 Hopt)) as (hs & r2 & -> & Hsame2 & Hdone2). cbn [mbind R_bind fst snd].
    do 2 eexists. split; [done|]. split; [by etrans|]. intros Hok2. destruct (Hdone2 Hok2) as (Hin2 & [more2 Em2] & Hall).
    split; [done|]. split; [exists (more1 ++ more2); by rewrite Em2, Em1, <- app_assoc|].
    destruct Hsame1 as (Ec & Ev & _ & _ & Ed). constructor; [rewrite Em2; by apply stored_more|].
    eapply Forall2_impl; [exact Hall|]. intros h' b. unfold block_dict. by rewrite Ec, Ev, Ed.
  - assert (write_blocks blocks r1 = Done ([], r1)) as ->.
    { destruct blocks as [|[[[? ?] ?] ?] ?]; [done|]. cbn [write_blocks]. by rewrite Hok1. }
    cbn [mbind R_bind fst snd]. do 2 eexists. split; [done|]. split; [done|]. congruence.
Qed.

(** ** Reading back *)

Context {F : Type} `{RandomAccessFile F}.

(** A persistent cache that was only offered blocks of this file. *)
Definition cache_agrees (cache : option PersistentCache) (contents : bytes) (h : BlockHandle) (raw : bytes) : Prop :=
  ∀ c, cache = Some c →
    (∀ s p, LookupUncompressedPage c h = (s, p) → ok s = true → p = raw) ∧
    (∀ n s p, LookupRawPage c h n = (s, p) → ok s = true → p = slice_of contents (offset_ h) n).

Lemma stored_slice dict version checksum contents h raw :
  blen contents < 2 ^ 64 → stored dict version checksum contents h raw →
  ∃ payload type v, slice_of contents (offset_ h) (u64 (size_ h + kBlockTrailerSize)) = payload ++ type :: EncodeFixed32 v ∧
    size_ h = blen payload ∧ 0 ≤ offset_ h ∧ u64 (size_ h + kBlockTrailerSize) = blen payload + 5 ∧
    blen payload < 2 ^ 31 - 1 ∧ block_sum checksum (payload ++ [type]) = Done v ∧ stands_for dict version payload type raw.
Proof.
  intros Hlt (pre & payload & type & v & suf & -> & -> & Hl & Hsum & Hst). exists payload, type, v.
  rewrite blen_app in Hlt. assert (0 ≤ blen payload ∧ 0 ≤ blen pre ∧ 0 ≤ blen ((payload ++ type :: EncodeFixed32 v) ++ suf)) as (H1' & H2' & H3') by (unfold blen; lia).
  cbn [offset_ size_]. unfold kBlockTrailerSize. rewrite (wrap_small 64 (blen pre)), (wrap_small 64 (blen payload + 5)) by (unfold in_range; lia).
  split_and!; try done. unfold slice_of. unfold blen at 2. rewrite Nat2Z.id, drop_app_length.
  apply take_app_length'. unfold blen. rewrite length_app. cbn [length]. rewrite length_EncodeFixed32. lia.
Qed.

(** A fetch of the raw block, wherever it is found. *)
Lemma fetch_raw_spec (b : BlockFetcher (F := F)) pval dict version checksum contents raw payload type v :
  checksum_ok checksum → checksum_ (footer_ b) = checksum → holds_contents (file_ b) contents → prefetched (prefetch_buffer_ b) contents →
  cache_agrees (persistent_cache b) contents (handle_ b) raw →
  slice_of contents (offset_ (handle_ b)) (u64 (size_ (handle_ b) + kBlockTrailerSize)) = payload ++ type :: EncodeFixed32 v →
  size_ (handle_ b) = blen payload → 0 ≤ offset_ (handle_ b) → u64 (size_ (handle_ b) + kBlockTrailerSize) = blen payload + 5 →
  blen payload < 2 ^ 31 - 1 → block_sum checksum (payload ++ [type]) = Done v → stands_for dict version payload type raw →
  address_ok pval (blen payload + 1) →
  ∃ prefetched pages, fetch_raw isSSE42 b pval = Done (OK, payload ++ type :: EncodeFixed32 v, prefetched, pages).
Proof.
  intros Hck Ec Hfile Hpre Hcache Hslice Hsz Hoff H5' Hl Hsum (Hpok & _ & Hty & _) Hp.
  pose proof (block_sum_range _ _ _ Hsum) as Hv.
  assert (check isSSE42 b pval (payload ++ type :: EncodeFixed32 v) = Done OK) as Hcheck.
  { unfold check, CheckBlockChecksum. destruct (verify_checksums b); [|done].
    assert (bytes_ok (payload ++ [type])) as Hoks.
    { apply bytes_ok_app; split; [done|]. apply Forall_singleton. rewrite <- Hty. by apply wrap_range. }
    destruct (compared_block_sum checksum _ _ Hck Hoks Hsum) as [a Ea].
    destruct (CheckBlockChecksum_spec isSSE42 checksum (file_name (file_ b)) (handle_ b) pval (payload ++ [type]) (blen payload) v (Some (a, a)))
      as (st & E & Hst); [by rewrite blen_app|unfold blen in *; lia|done..|].
    rewrite Z.eqb_refl in Hst. subst st. rewrite <- app_assoc in E. rewrite Ec, Hsz. exact E. }
  unfold fetch_raw, TryGetFromPrefetchBuffer, TryGetCompressedBlockFromPersistentCache.
  set (n := u64 (size_ (handle_ b) + kBlockTrailerSize)) in *.
  set (slice := payload ++ type :: EncodeFixed32 v) in *.
  assert (blen slice = n) as Hn.
  { rewrite H5'. unfold slice, blen. rewrite length_app. cbn [length]. rewrite length_EncodeFixed32. lia. }
  assert (0 ≤ n) as Hn0 by (rewrite <- Hn; unfold blen; lia).
  assert (file_Read (file_ b) (offset_ (handle_ b)) n = (OK, slice)) as Eread by (by rewrite (Hfile _ n), Hslice).
  rewrite Eread. change (ok OK) with true. cbn [negb]. rewrite Hn, Z.eqb_refl, Hcheck. cbn [negb mbind R_bind].
  destruct (p ← prefetch_buffer_ b; p (offset_ (handle_ b)) n) as [s|] eqn:Es.
  - destruct (prefetch_buffer_ b) as [p|] eqn:Ep; [|done]. cbn [mbind option_bind] in Es.
    rewrite (Hpre p _ _ _ eq_refl Es), Hslice, Hcheck. cbn [mbind R_bind]. by do 2 eexists.
  - cbn [mbind R_bind]. destruct (persistent_cache b) as [c|]; [|by do 2 eexists]. destruct (IsCompressed c); [|by do 2 eexists].
    destruct (LookupRawPage c (handle_ b) n) as [s page] eqn:Epage. destruct (ok s) eqn:Hoks; [|by do 2 eexists].
    destruct (Hcache c eq_refl) as [_ Hraw]. rewrite (Hraw n s page Epage Hoks), Hslice. by do 2 eexists.
Qed.

Lemma ReadBlockContents_spec (b : BlockFetcher (F := F)) pval checksum contents raw :
  checksum_ok checksum → checksum_ (footer_ b) = checksum → holds_contents (file_ b) contents → prefetched (prefetch_buffer_ b) contents →
  blen contents < 2 ^ 64 → stored (uncompression_dict_ b) (version_ (footer_ b)) checksum contents (handle_ b) raw →
  cache_agrees (persistent_cache b) contents (handle_ b) raw → do_uncompress_ b = true → address_ok pval (blen raw + 1) →
  ∃ pages, ReadBlockContents isSSE42 b pval = Done (OK, raw, kNoCompression, pages).
Proof.
  intros Hck Ec Hfile Hpre Hlt Hstored Hcache Hun Hp.
  destruct (stored_slice _ _ _ _ _ _ Hlt Hstored) as (payload & type & v & Hslice & Hsz & Hoff & H5' & Hl & Hsum & Hst).
  pose proof Hst as (_ & Hle & _ & Hkind).
  destruct (fetch_raw_spec b pval (uncompression_dict_ b) (version_ (footer_ b)) checksum contents raw payload type v)
    as (got & pages & Efetch); [done..|destruct Hp; split; lia|].
  unfold ReadBlockContents, TryGetUncompressBlockFromPersistentCache. rewrite Efetch. cbn [mbind R_bind].
  change (ok OK) with true. cbn [negb]. rewrite Hsz, Hun.
  assert ((payload ++ type :: EncodeFixed32 v) !! Z.to_nat (blen payload) = Some type) as ->.
  { unfold blen. by rewrite Nat2Z.id, lookup_app_r, Nat.sub_diag by lia. }
  assert (take (Z.to_nat (blen payload)) (payload ++ type :: EncodeFixed32 v) = payload) as -> by (unfold blen; by rewrite Nat2Z.id, take_app_length).
  cbn [checked mbind R_bind andb].
  assert (∃ pages', (if negb (type =? kNoCompression) then
       u ← UncompressBlockContentsForCompressionType type (uncompression_dict_ b) payload (version_ (footer_ b));
       (let '(s, contents0) := u in Done (s, contents0, kNoCompression, pages ++ offered_uncompressed b s got contents0))
     else Done (OK, payload, type, pages ++ offered_uncompressed b OK got payload)) = Done (OK, raw, kNoCompression, pages')) as (pages' & Eu).
  { destruct Hkind as [[-> ->]|[Hnn Eu]]; [by eexists|]. rewrite (proj2 (Z.eqb_neq _ _) Hnn). cbn [negb]. rewrite Eu. cbn [mbind R_bind]. by eexists. }
  destruct (persistent_cache b) as [c|] eqn:Epc; [|by exists pages'].
  destruct (IsCompressed c); [by exists pages'|].
  destruct (LookupUncompressedPage c (handle_ b)) as [s page] eqn:Epage. destruct (ok s) eqn:Hoks; [|by exists pages'].
  destruct (Hcache c eq_refl) as [Hpage _]. rewrite (Hpage s page Epage Hoks). by eexists.
Qed.

(** ** The footer *)

Lemma stored_handle_ok dict version checksum contents h raw :
  blen contents < 2 ^ 64 → stored dict version checksum contents h raw → handle_ok h.
Proof.
  intros Hlt (pre & payload & type & v & suf & -> & -> & Hl & _).
  rewrite !blen_app in Hlt. unfold handle_ok. cbn [offset_ size_].
  assert (0 ≤ blen payload ∧ 0 ≤ blen pre ∧ 0 ≤ blen suf ∧ 1 ≤ blen (type :: EncodeFixed32 v)) as (? & ? & ? & ?) by (unfold blen; cbn [length]; lia).
  rewrite wrap_small by (unfold in_range; lia). lia.
Qed.

(** The footer of a file that [r] wrote. *)
Definition file_footer r (metaindex index : BlockHandle) : Footer :=
  mkFooter (format_version r) (checksum r) metaindex index
    (if format_version r =? 0 then kLegacyBlockBasedTableMagicNumber else kBlockBasedTableMagicNumber).

(** The formats that the constructor of the builder lets through. *)
Definition format_ok r : Prop := in_range 32 (format_version r) ∧ (format_version r = 0 → checksum r = kCRC32c).

Lemma file_footer_ok r metaindex index :
  format_ok r → checksum_ok (checksum r) → handle_ok metaindex → handle_ok index → footer_ok (file_footer r metaindex index).
Proof.
  intros [Hv Hleg] Hck Hm Hi. unfold footer_ok, file_footer. cbn [version_ checksum_ metaindex_handle_ index_handle_ table_magic_number_].
  split_and!; [done| | |done|done| | | ];
    [destruct Hck as [-> | [-> | [-> | ->]]]; done..| | |]; destruct (Z.eqb_spec (format_version r) 0) as [E|E]; try done; by auto.
Qed.

Lemma file_footer_magic r metaindex index : upconverted (table_magic_number_ (file_footer r metaindex index)) = kBlockBasedTableMagicNumber.
Proof. unfold file_footer. cbn [table_magic_number_]. by destruct (format_version r =? 0). Qed.

Lemma WriteFooter_spec metaindex index r :
  in_step r → format_ok r → checksum_ok (checksum r) → handle_ok metaindex → handle_ok index →
  ∃ r', WriteFooter metaindex index r = Done r' ∧
    (ok (status_ r') = true → in_step r' ∧
      file_contents (file r') = file_contents (file r) ++ footer_bytes (file_footer r metaindex index)).
Proof.
  intros (Hs & Hio & Ho) Hf Hck Hm Hi. pose proof (file_footer_ok r metaindex index Hf Hck Hm Hi) as Hok.
  unfold WriteFooter, new_Footer. destruct Hf as [_ Hleg].
  assert ((checksum r =? kCRC32c) || negb (format_version r =? 0) = true) as ->.
  { destruct (Z.eqb_spec (format_version r) 0) as [E|]; [|by rewrite orb_true_r]. by rewrite Hleg. }
  rewrite assert_true. cbn [mbind R_bind]. unfold file_footer in Hok |- *.
  set (magic := if format_version r =? 0 then kLegacyBlockBasedTableMagicNumber else kBlockBasedTableMagicNumber) in *.
  assert (negb (IsLegacyFooterFormat magic) || (format_version r =? 0) = true) as ->
    by (unfold magic; by destruct (format_version r =? 0)).
  rewrite assert_true. cbn [mbind R_bind version_ table_magic_number_].
  rewrite Footer_EncodeTo_spec by done. cbn [mbind R_bind app]. rewrite Hs, Hio, !assert_true. cbn [mbind R_bind].
  set (enc := footer_bytes _). destruct (file_Append (file r) enc) as [s f] eqn:E. eexists. split; [done|].
  destruct (ok s) eqn:Hoks; [|cbn; congruence]. intros _. destruct (appended _ _ _ _ E Hoks) as [Ec El]. split; [|exact Ec].
  split_and!; [exact Hoks..|]. cbn. by rewrite Ho, wrap_add_l, <- El.
Qed.

(** ** From one end to the other *)

(** However the block of [h] is fetched, it comes as it was put in. *)
Definition reads_back (file : F) (pb : option PrefetchBuffer) (contents : bytes) (footer : Footer) (dict : bytes) (h : BlockHandle) (raw : bytes) : Prop :=
  ∀ pval verify fill cache, cache_agrees cache contents h raw → address_ok pval (blen raw + 1) →
    ∃ pages, ReadBlockContents isSSE42 (mkFetcher file pb footer verify fill h true dict cache) pval = Done (OK, raw, kNoCompression, pages).

(** C32. A table file round trip. Whatever the options (checksum, compression,
    dictionary, alignment, format version), writing blocks and then a footer
    makes no fault; and if all of it succeeds, then a reader of the file that
    only knows its size finds in the footer the two handles, and through the
    handle of each block the block itself: checked or not, out of the prefetch
    buffer, the persistent cache or the file, uncompressed if it was compressed. *)
Theorem table_file_roundtrip blocks r0 :
  in_step r0 → options_ok r0 → format_ok r0 → Forall block_ok blocks →
  ∃ hs r1, write_blocks blocks r0 = Done (hs, r1) ∧ (ok (status_ r1) = true → length hs = length blocks ∧
    ∀ metaindex index, metaindex ∈ hs → index ∈ hs → blen (file_contents (file r1)) < 2 ^ 64 - kMaxEncodedLength →
    ∃ r2, WriteFooter metaindex index r1 = Done r2 ∧ (ok (status_ r2) = true →
      ∀ (file : F) pb footer0, holds_contents file (file_contents (RawBlock.file r2)) → prefetched pb (file_contents (RawBlock.file r2)) →
        new_Footer kInvalidTableMagicNumber 0 = Done footer0 →
        ∃ footer, ReadFooterFromFile file pb (blen (file_contents (RawBlock.file r2))) footer0 kBlockBasedTableMagicNumber = Done (OK, footer) ∧
          metaindex_handle_ footer = metaindex ∧ index_handle_ footer = index ∧
          Forall2 (λ h b, reads_back file pb (file_contents (RawBlock.file r2)) footer (block_dict (snd b) r0) h (snd (fst b))) hs blocks)).
Proof.
  intros Hin Hopt Hfmt Hb. destruct (write_blocks_spec blocks r0 Hin Hopt Hb) as (hs & r1 & -> & Hsame & Hdone).
  exists hs, r1. split; [done|]. intros Hok1. destruct (Hdone Hok1) as (Hin1 & _ & Hall).
  split; [by eapply Forall2_length|]. intros metaindex index Hm Hi Hlt. unfold kMaxEncodedLength, kNewVersionsEncodedLength, BlockHandle_kMaxEncodedLength in Hlt.
  assert (∀ h, h ∈ hs → handle_ok h) as Hhs.
  { intros h Hh. apply list_elem_of_lookup in Hh as [i Hh]. destruct (Forall2_lookup_l _ _ _ _ _ Hall Hh) as (b & _ & Hst).
    eapply stored_handle_ok; [|exact Hst]. lia. }
  pose proof (options_same _ _ Hsame Hopt) as [Hck1 _ _ _]. destruct Hsame as (Ec & Ev & _ & _ & Ed).
  assert (format_ok r1) as Hfmt1 by (unfold format_ok; by rewrite Ec, Ev).
  destruct (WriteFooter_spec metaindex index r1) as (r2 & -> & Hdone2); [by auto..|]. exists r2. split; [done|].
  intros Hok2. destruct (Hdone2 Hok2) as [_ Econt]. set (f := file_footer r1 metaindex index) in *.
  assert (footer_ok f) as Hf by (apply file_footer_ok; auto).
  intros file pb footer0 Hfile Hpre Hnew. rewrite Econt in Hfile, Hpre |- *.
  destruct (ReadFooter_spec f file pb _ kBlockBasedTableMagicNumber footer0 Hf Hfile Hpre Hnew) as (s & -> & Hs).
  unfold f in Hs. rewrite file_footer_magic, Z.eqb_refl, orb_true_r in Hs. subst s. exists (as_read f). split_and!; [done..|].
  eapply Forall2_impl; [exact Hall|]. intros h b Hst pval verify fill cache Hcache Hp.
  apply (ReadBlockContents_spec _ pval (checksum r0) (file_contents (RawBlock.file r1) ++ footer_bytes f)); [by destruct Hopt|done..| | |done|done|done].
  - rewrite blen_app, footer_bytes_length. pose proof (footer_length_range f). lia.
  - cbn [uncompression_dict_ version_ footer_ handle_]. unfold as_read, set_magic, f, file_footer. cbn [version_]. rewrite Ev.
    by apply stored_more.
Qed.
End table_file.

(** ** An example *)

(** A file in memory, and a codec for runs of zeros. *)
#[export] Instance MemWritable : WritableFile bytes := {|
  file_Append w s := (OK, w ++ s); file_Pad w n := (OK, w ++ replicate (Z.to_nat n) 0); file_contents w := w |}.
#[export] Instance MemWritable_laws : WritableFileLaws bytes.
Proof. split; by intros w s st w' [= <- <-] _. Qed.

#[local] Instance RunCodecs : Codecs := {|
  codec_Compress _ _ _ raw := if bool_decide (raw = replicate (length raw) 0) && (blen raw <? 256) then Some [blen raw] else None;
  codec_Uncompress _ _ _ data := match data with [n] => Some (replicate (Z.to_nat n) 0) | _ => None end |}.
Lemma RunCodecs_bytes : codecs_bytes.
Proof.
  intros type format dict raw out. cbn [codec_Compress RunCodecs]. case_bool_decide; [|done]. cbn [andb]. destruct (Z.ltb_spec (blen raw) 256); [|done].
  intros [= <-]. apply Forall_singleton. unfold blen in *. split; [lia|]. change (2 ^ 8) with 256. lia.
Qed.
#[local] Instance TestProcessor : Processor := {|
  HAVE_SSE42 := true; LP64 := true;
  _mm_crc32_u64 c w := crc_bits 64 (c .^ w); _mm_crc32_u32 c w := crc_bits 32 (c .^ w) |}.
#[local] Instance TestProcessor_laws : ProcessorLaws.
Proof. split; intros c s Hc Hl Hs; rewrite (crc_bytes_word c s Hs), Hl; reflexivity. Qed.
#[local] Instance TestHost : Host := {| kLittleEndian := true |}.
#[local] Instance TestBuild : Build := {| NDEBUG := false |}.
#[local] Instance TestXXHBuild : XXHBuild := {| XXH_REROLL := false; XXH_REROLL_XXH64 := false |}.

Definition test_rep : Rep bytes :=
  mkRep [] 0 OK OK kxxHash64 true 64 2 true kZlibCompression [] None [] 0 0.
Definition test_blocks : list (Z * Z * bytes * bool) :=
  [(64, 8, replicate 40 0, true); (128, 8, str "an index of it", false)].

Lemma table_file_roundtrip_witness :
  ∃ h1 h2 r1 r2 footer,
    write_blocks true test_blocks test_rep = Done ([h1; h2], r1) ∧ WriteFooter h2 h2 r1 = Done r2 ∧
    ReadFooterFromFile (RawBlock.file r2) None (blen (RawBlock.file r2)) (mkFooter 0 kCRC32c new_BlockHandle new_BlockHandle 0)
      kBlockBasedTableMagicNumber = Done (OK, footer) ∧ size_ h1 = 1 ∧
    reads_back true (RawBlock.file r2) None (RawBlock.file r2) footer [] h1 (replicate 40 0) ∧
    reads_back true (RawBlock.file r2) None (RawBlock.file r2) footer [] h2 (str "an index of it").
Proof.
  destruct (table_file_roundtrip (F := bytes) true test_blocks test_rep) as (hs & r1 & E & H1).
  - split_and!; reflexivity.
  - split; [do 3 right; reflexivity|split; [discriminate|reflexivity]|exact RunCodecs_bytes|by left].
  - split; [split; [discriminate|reflexivity]|discriminate].
  - repeat constructor; try discriminate; apply (bool_decide_unpack _); vm_compute; exact I.
  - pose proof E as E'. vm_compute in E'. injection E' as Ehs Er1. destruct (H1 ltac:(rewrite <- Er1; reflexivity)) as [_ H2]. clear H1.
    subst hs. destruct (H2 _ _ ltac:(right; left) ltac:(right; left) ltac:(rewrite <- Er1; reflexivity)) as (r2 & E2 & H3). clear H2.
    pose proof E2 as E2'. rewrite <- Er1 in E2'. vm_compute in E2'. injection E2' as Er2.
    destruct (H3 ltac:(rewrite <- Er2; reflexivity) (RawBlock.file r2) None (mkFooter 0 kCRC32c new_BlockHandle new_BlockHandle 0))
      as (footer & E3 & _ & _ & Hall); [apply MemFile_holds|intros p offset n s [=]|reflexivity|].
    do 5 eexists. split; [exact E|]. split; [exact E2|]. split; [exact E3|]. split; [reflexivity|].
    inversion_clear Hall as [|? ? ? ? Hb1 Hall']. inversion_clear Hall' as [|? ? ? ? Hb2 _]. split; [exact Hb1|exact Hb2].
Defined.
