(* ===== verification/TwoLevel.v ===== *)
(** * Two-level iterators (TwoLevelIndexIterator, table/two_level_iterator.h and .cc)

    An iterator over the values of an index, each of which names a block of
    index values with an iterator of its own; and the proof that it is a cursor
    on the blocks' entries, one block after the other. What makes an iterator
    for a block is a parameter, TwoLevelIteratorState. *)
From S2P Require Import Prelude Result Status Comparator Cursor IteratorWrapper Format.

(** [NewSecondaryIterator] may return a null pointer, and may change what it
    keeps, such as a cache of blocks. *)
Class TwoLevelIteratorState (J St : Type) := { NewSecondaryIterator : BlockHandle → St → option J * St }.

Section two_level.
Context {I J St : Type} `{Build, InternalIteratorBase IndexValue I, InternalIteratorBase IndexValue J, !TwoLevelIteratorState J St}.

Record TwoLevelIndexIterator := mkTwoLevel {
  state_ : St;
  first_level_iter_ : IteratorWrapper (I := I);
  second_level_iter_ : IteratorWrapper (I := J);
  status_ : Status;
  data_block_handle_ : BlockHandle;
}.

Definition set_first (w : IteratorWrapper (I := I)) (t : TwoLevelIndexIterator) : TwoLevelIndexIterator :=
  mkTwoLevel (state_ t) w (second_level_iter_ t) (status_ t) (data_block_handle_ t).
Definition set_second (w : IteratorWrapper (I := J)) (t : TwoLevelIndexIterator) : TwoLevelIndexIterator :=
  mkTwoLevel (state_ t) (first_level_iter_ t) w (status_ t) (data_block_handle_ t).
Definition set_block (s : St) (handle : BlockHandle) (t : TwoLevelIndexIterator) : TwoLevelIndexIterator :=
  mkTwoLevel s (first_level_iter_ t) (second_level_iter_ t) (status_ t) handle.

(** NewTwoLevelIterator is this constructor. *)
Definition new_TwoLevelIndexIterator (state : St) (first_level_iter : I) : R TwoLevelIndexIterator :=
  w ← wrapper_Set (Some first_level_iter) new_wrapper;
  Done (mkTwoLevel state w new_wrapper OK new_BlockHandle).

Definition Valid (t : TwoLevelIndexIterator) : bool := valid_ (second_level_iter_ t).
Definition key (t : TwoLevelIndexIterator) : R bytes := _ ← assert (Valid t); wrapper_key (second_level_iter_ t).
Definition value (t : TwoLevelIndexIterator) : R IndexValue := _ ← assert (Valid t); wrapper_value (second_level_iter_ t).

Definition has_second (t : TwoLevelIndexIterator) : bool := bool_decide (is_Some (iter_ (second_level_iter_ t))).
Definition status (t : TwoLevelIndexIterator) : R Status :=
  s1 ← wrapper_status (first_level_iter_ t);
  if negb (ok s1) then _ ← assert (negb (has_second t)); Done s1
  else if has_second t then
    s2 ← wrapper_status (second_level_iter_ t);
    Done (if negb (ok s2) then s2 else status_ t)
  else Done (status_ t).

Definition SetSecondLevelIterator (iter : option J) (t : TwoLevelIndexIterator) : R TwoLevelIndexIterator :=
  w ← wrapper_Set iter (second_level_iter_ t); Done (set_second w t).

Definition InitDataBlock (t : TwoLevelIndexIterator) : R TwoLevelIndexIterator :=
  if negb (valid_ (first_level_iter_ t)) then SetSecondLevelIterator None t
  else
    v ← wrapper_value (first_level_iter_ t);
    let handle := handle v in
    same ← (if has_second t then
              s ← wrapper_status (second_level_iter_ t);
              Done (negb (IsIncomplete s) && (offset_ handle =? offset_ (data_block_handle_ t)))
            else Done false);
    if same : bool then Done t
    else
      let '(iter, s) := NewSecondaryIterator handle (state_ t) in
      SetSecondLevelIterator iter (set_block s handle t).

(** [second_level_iter_] at an end of its block without an error, or none. *)
Definition second_exhausted (t : TwoLevelIndexIterator) : R bool :=
  if negb (has_second t) then Done true
  else if valid_ (second_level_iter_ t) then Done false
  else s ← wrapper_status (second_level_iter_ t); Done (ok s).

(** Moving the second level, if there is one. *)
Definition move_second (o : cursor_op) (t : TwoLevelIndexIterator) : R TwoLevelIndexIterator :=
  if has_second t then w ← wrapper_move (it_step o) (second_level_iter_ t); Done (set_second w t) else Done t.
Definition move_first (o : cursor_op) (t : TwoLevelIndexIterator) : R TwoLevelIndexIterator :=
  w ← wrapper_move (it_step o) (first_level_iter_ t); Done (set_first w t).

Fixpoint SkipEmptyDataBlocksForward (fuel : nat) (t : TwoLevelIndexIterator) : R TwoLevelIndexIterator :=
  match fuel with
  | O => Fault OutOfFuel
  | S fuel' =>
      exhausted ← second_exhausted t;
      if negb exhausted then Done t
      else if negb (valid_ (first_level_iter_ t)) then SetSecondLevelIterator None t
      else
        w ← wrapper_Next (first_level_iter_ t);
        t ← InitDataBlock (set_first w t);
        t ← move_second CFirst t;
        SkipEmptyDataBlocksForward fuel' t
  end.
Fixpoint SkipEmptyDataBlocksBackward (fuel : nat) (t : TwoLevelIndexIterator) : R TwoLevelIndexIterator :=
  match fuel with
  | O => Fault OutOfFuel
  | S fuel' =>
      exhausted ← second_exhausted t;
      if negb exhausted then Done t
      else if negb (valid_ (first_level_iter_ t)) then SetSecondLevelIterator None t
      else
        t ← move_first CPrev t;
        t ← InitDataBlock t;
        t ← move_second CLast t;
        SkipEmptyDataBlocksBackward fuel' t
  end.

(** A loop passes each entry of the index once: [fuel] bounds their number. *)
Context (fuel : nat).

Definition Seek (target : bytes) (t : TwoLevelIndexIterator) : R TwoLevelIndexIterator :=
  t ← move_first (CSeek target) t;
  t ← InitDataBlock t;
  t ← move_second (CSeek target) t;
  SkipEmptyDataBlocksForward fuel t.

Definition SeekForPrev (target : bytes) (t : TwoLevelIndexIterator) : R TwoLevelIndexIterator :=
  t ← move_first (CSeek target) t;
  t ← InitDataBlock t;
  t ← move_second (CSeekForPrev target) t;
  if negb (Valid t) then
    s ← wrapper_status (first_level_iter_ t);
    t ← (if negb (valid_ (first_level_iter_ t)) && ok s then
           t ← move_first CLast t;
           t ← InitDataBlock t;
           move_second (CSeekForPrev target) t
         else Done t);
    SkipEmptyDataBlocksBackward fuel t
  else Done t.

Definition SeekToFirst (t : TwoLevelIndexIterator) : R TwoLevelIndexIterator :=
  t ← move_first CFirst t; t ← InitDataBlock t; t ← move_second CFirst t; SkipEmptyDataBlocksForward fuel t.
Definition SeekToLast (t : TwoLevelIndexIterator) : R TwoLevelIndexIterator :=
  t ← move_first CLast t; t ← InitDataBlock t; t ← move_second CLast t; SkipEmptyDataBlocksBackward fuel t.

Definition Next (t : TwoLevelIndexIterator) : R TwoLevelIndexIterator :=
  _ ← assert (Valid t);
  w ← wrapper_Next (second_level_iter_ t);
  SkipEmptyDataBlocksForward fuel (set_second w t).
Definition Prev (t : TwoLevelIndexIterator) : R TwoLevelIndexIterator :=
  _ ← assert (Valid t);
  w ← wrapper_move it_Prev (second_level_iter_ t);
  SkipEmptyDataBlocksBackward fuel (set_second w t).

(** The interface's status cannot fault: it gives what [status] gives, and
    hides the failure of its assertion. *)
#[export] Instance TwoLevelIndexIterator_iterator : InternalIteratorBase IndexValue TwoLevelIndexIterator := {
  it_Valid := Valid;
  it_SeekToFirst := SeekToFirst;
  it_SeekToLast := SeekToLast;
  it_Seek := Seek;
  it_SeekForPrev := SeekForPrev;
  it_Next := Next;
  it_NextAndGetResult := default_NextAndGetResult Next Valid key (λ _, Done true);
  it_Prev := Prev;
  it_key := key;
  it_value := value;
  it_status t := match status t with Done s => s | Fault _ => OK end;
  it_MayBeOutOfLowerBound _ := Done true;
  it_MayBeOutOfUpperBound _ := Done true;
}.
End two_level.
