(* ===== verification/TwoLevelCorrect.v ===== *)
(** * The two-level iterator is a cursor on all blocks

    Over an index whose keys separate the blocks, and blocks (some may be
    empty) that the state opens as lawful iterators, the two-level iterator
    keeps the laws of iterators itself, on the blocks one after the other. *)
From S2P Require Import Prelude Result Status Comparator Cursor IteratorWrapper Format TwoLevel.

(** Everything but SeekForPrev, which no index block has. *)
Definition no_seek_for_prev (o : cursor_op) : bool := match o with CSeekForPrev _ => false | _ => true end.

(** ** Positions in a list of blocks *)

Section positions.
Context {V : Type} `{C : Comparator, !ComparatorLaws C}.
Implicit Types (blocks : list (list (bytes * V))) (b : list (bytes * V)).

Definition start blocks (i : nat) : nat := length (concat (take i blocks)).

Lemma count_app P (l l' : list (bytes * V)) : count P (l ++ l') = (count P l + count P l')%nat.
Proof. induction l as [|[k v] l IH]; cbn; [done|]. rewrite IH. destruct (P k); lia. Qed.

Lemma blocks_split blocks i b :
  blocks !! i = Some b → concat blocks = concat (take i blocks) ++ b ++ concat (drop (S i) blocks).
Proof. intros Hi. rewrite <- (take_drop_middle blocks i b Hi) at 1. by rewrite concat_app. Qed.

Lemma start_S blocks i b : blocks !! i = Some b → start blocks (S i) = (start blocks i + length b)%nat.
Proof. intros Hi. unfold start. rewrite (take_S_r blocks i b Hi), concat_app, !length_app. cbn. rewrite app_nil_r. lia. Qed.
Lemma start_all blocks i : (length blocks ≤ i)%nat → start blocks i = length (concat blocks).
Proof. intros Hi. unfold start. by rewrite take_ge. Qed.
Lemma start_le blocks i : (start blocks i ≤ length (concat blocks))%nat.
Proof.
  unfold start. rewrite <- (take_drop i blocks) at 2. rewrite concat_app, length_app. lia.
Qed.

Lemma blocks_lookup blocks i b j : blocks !! i = Some b → (j < length b)%nat → concat blocks !! (start blocks i + j)%nat = b !! j.
Proof.
  intros Hi Hj. rewrite (blocks_split blocks i b Hi). unfold start.
  rewrite lookup_app_r by lia. rewrite lookup_app_l by lia. f_equal. lia.
Qed.

Lemma elem_of_blocks blocks kv : kv ∈ concat blocks → ∃ i b, blocks !! i = Some b ∧ kv ∈ b.
Proof.
  intros (b & Hb%list_elem_of_In & Hkv)%list_elem_of_In%in_concat. apply list_elem_of_lookup in Hb as [i Hi].
  exists i, b. by rewrite list_elem_of_In.
Qed.

(** Where a test turns, if it holds of all earlier blocks and of no later one. *)
Lemma count_block P blocks i b :
  blocks !! i = Some b →
  (∀ j c kv, (j < i)%nat → blocks !! j = Some c → kv ∈ c → P (fst kv) = true) →
  (∀ j c kv, (i < j)%nat → blocks !! j = Some c → kv ∈ c → P (fst kv) = false) →
  count P (concat blocks) = (start blocks i + count P b)%nat.
Proof.
  intros Hi Hlo Hhi. rewrite (blocks_split blocks i b Hi), !count_app.
  rewrite (count_ext P (λ _, true) (concat (take i blocks))), count_true.
  - rewrite (count_none P (concat (drop (S i) blocks))); [unfold start; lia|].
    intros k v (j & c & Hj & Hin)%elem_of_blocks. rewrite lookup_drop in Hj. apply (Hhi (S i + j)%nat c (k, v)); [lia|done..].
  - intros k v (j & c & [Hj Hlt]%lookup_take_Some & Hin)%elem_of_blocks. by apply (Hlo j c (k, v)).
Qed.
End positions.

(** ** The two levels *)

Section laws.
Context {I J St : Type} `{C : Comparator, !ComparatorLaws C} `{Build} {s1 s2 : cursor_op → bool}.
Context `{I1 : InternalIteratorBase IndexValue I, L1 : !IteratorLawsFor s1 Compare I}.
Context `{I2 : InternalIteratorBase IndexValue J, L2 : !IteratorLawsFor s2 Compare J, ST : !TwoLevelIteratorState J St}.
#[local] Abbreviation TwoLevelIndexIterator := (TwoLevelIndexIterator (I := I) (J := J) (St := St)).
#[local] Abbreviation entries := (list (bytes * IndexValue)).

(** The keys of block [i] are up to the key of its index entry, those of the
    next blocks after it; the state opens a block wherever it is asked. *)
Record two_levels (index : entries) (blocks : list entries) : Prop := {
  tl_length : length index = length blocks;
  tl_sorted : sorted Compare (concat blocks);
  tl_upper : ∀ i k v b kv, index !! i = Some (k, v) → blocks !! i = Some b → kv ∈ b → Compare (fst kv) k ≤ 0;
  tl_lower : ∀ i j k v b kv, index !! i = Some (k, v) → (i < j)%nat → blocks !! j = Some b → kv ∈ b → Compare k (fst kv) < 0;
  tl_handles : ∀ i j e f, index !! i = Some e → index !! j = Some f →
    offset_ (handle (snd e)) = offset_ (handle (snd f)) → i = j;
  tl_opens : ∀ i k v b s, index !! i = Some (k, v) → blocks !! i = Some b →
    ∃ it s' pos, NewSecondaryIterator (handle v) s = (Some it, s') ∧ it_at b pos it;
}.

Context (Hs1 : ∀ o, no_seek_for_prev o = true → s1 o = true) (Hs2 : ∀ o, no_seek_for_prev o = true → s2 o = true).
Context {index : entries} {blocks : list entries} (T : two_levels index blocks).
#[local] Abbreviation start := (start blocks).
#[local] Abbreviation kvs := (concat blocks).

Definition no_second (t : TwoLevelIndexIterator) : Prop :=
  iter_ (second_level_iter_ t) = None ∧ valid_ (second_level_iter_ t) = false.
(** The second level is somewhere in block [i]. *)
Definition second_in (i : nat) (b : entries) (pos : option nat) (t : TwoLevelIndexIterator) : Prop :=
  blocks !! i = Some b ∧ wrapper_at b pos (second_level_iter_ t) ∧
  ∃ e, index !! i = Some e ∧ data_block_handle_ t = handle (snd e).
Definition first_at (pos : option nat) (t : TwoLevelIndexIterator) : Prop :=
  wrapper_at index pos (first_level_iter_ t) ∧ status_ t = OK.

Definition two_at (pos : option nat) (t : TwoLevelIndexIterator) : Prop :=
  match pos with
  | None => (∃ pos1, first_at pos1 t) ∧ no_second t
  | Some g => ∃ i b j, first_at (Some i) t ∧ second_in i b (Some j) t ∧ g = (start i + j)%nat
  end.

Lemma has_second_in i b pos t : second_in i b pos t → has_second t = true.
Proof. intros (_ & (it & E & _) & _). unfold has_second. by rewrite E, bool_decide_eq_true_2. Qed.
Lemma second_range i b j t : second_in i b (Some j) t → (j < length b)%nat.
Proof. intros (_ & (it & _ & Hat & _) & _). exact (it_at_range _ _ _ Hat). Qed.

Lemma InitDataBlock_spec pos1 t :
  first_at pos1 t → no_second t ∨ (∃ i b pos, second_in i b pos t) →
  ∃ t', InitDataBlock t = Done t' ∧ first_at pos1 t' ∧
    match pos1 with Some i => ∃ b pos, second_in i b pos t' | None => no_second t' end.
Proof.
  intros [Hf Hst] Hsec. pose proof Hf as (it & _ & Hat & Hv & _). unfold InitDataBlock. rewrite Hv.
  destruct pos1 as [i|].
  2: { rewrite bool_decide_eq_false_2 by (by intros [? [=]]). cbn [negb]. eexists. split; [done|]. split; [by split|done]. }
  rewrite bool_decide_eq_true_2 by done. cbn [negb].
  destruct (lookup_lt_is_Some_2 index i) as [e He]; [exact (it_at_range _ _ _ Hat)|].
  destruct (lookup_lt_is_Some_2 blocks i) as [b Hb]; [rewrite <- (tl_length _ _ T); exact (it_at_range _ _ _ Hat)|].
  rewrite (wrapper_value_spec index i _ e Hf He). cbn [mbind R_bind].
  destruct e as [k v]. cbn [snd] in *.
  assert (∃ t' pos, (let '(iter, s) := NewSecondaryIterator (handle v) (state_ t) in
      SetSecondLevelIterator iter (set_block s (handle v) t)) = Done t' ∧ first_at (Some i) t' ∧ second_in i b pos t') as Hnew.
  { destruct (tl_opens _ _ T i k v b (state_ t) He Hb) as (it2 & s' & pos & -> & Hat2). unfold SetSecondLevelIterator. cbn [wrapper_Set].
    destruct (wrapper_Update_spec b pos it2 (second_level_iter_ (set_block s' (handle v) t)) Hat2) as (w & -> & Hw).
    cbn [mbind R_bind]. eexists _, pos. split; [done|]. split; [done|]. split_and!; [done|done|]. by exists (k, v). }
  destruct Hsec as [[Hn _]|(i' & b' & pos & Hs)].
  - unfold has_second at 1. rewrite Hn, bool_decide_eq_false_2 by (by intros [? [=]]). cbn [mbind R_bind].
    destruct Hnew as (t' & pos & -> & ? & ?). exists t'. split; [done|]. split; [done|]. by exists b, pos.
  - rewrite (has_second_in _ _ _ _ Hs). destruct Hs as (Hb' & Hw & [k' v'] & He' & Hh).
    rewrite (wrapper_status_spec b' pos _ Hw). cbn [mbind R_bind]. change (IsIncomplete OK) with false. cbn [negb andb].
    destruct (Z.eqb_spec (offset_ (handle v)) (offset_ (data_block_handle_ t))) as [Eo|].
    + rewrite Hh in Eo. pose proof (tl_handles _ _ T i i' _ _ He He' Eo) as <-. exists t. split; [done|]. split; [done|].
      exists b', pos. split_and!; [done|done|]. by exists (k', v').
    + destruct Hnew as (t' & pos' & -> & ? & ?). exists t'. split; [done|]. split; [done|]. by exists b, pos'.
Qed.

Lemma move_second_none o t : no_second t → move_second o t = Done t.
Proof. intros [Hn _]. unfold move_second, has_second. by rewrite Hn, bool_decide_eq_false_2 by (by intros [? [=]]). Qed.
Lemma move_second_spec o i b pos pos1 t :
  s2 o = true → cursor_may o pos = true → first_at pos1 t → second_in i b pos t →
  ∃ t', move_second o t = Done t' ∧ first_at pos1 t' ∧ second_in i b (cursor_step Compare b o pos) t'.
Proof.
  intros Hs Hmay Hf Hsec. unfold move_second. rewrite (has_second_in _ _ _ _ Hsec). destruct Hsec as (Hb & Hw & He).
  destruct (wrapper_move_spec b pos _ o Hw) as (w & -> & Hw'); [by rewrite Hs|]. cbn [mbind R_bind].
  eexists. split; [done|]. by split.
Qed.

(** Opening the block at [pos1] and moving to its first or last entry, or
    seeking in it: [q b] is where that leads in block [b]. *)
Lemma enter_block o (q : entries → option nat) pos1 t :
  s2 o = true → (∀ pos, cursor_may o pos = true) → (∀ b pos, sorted Compare b → cursor_step Compare b o pos = q b) →
  first_at pos1 t → no_second t ∨ (∃ i b pos, second_in i b pos t) →
  ∃ t1 t', InitDataBlock t = Done t1 ∧ move_second o t1 = Done t' ∧ first_at pos1 t' ∧
    match pos1 with Some i => ∃ b, second_in i b (q b) t' | None => no_second t' end.
Proof.
  intros Hs Hmay Hq Hf Hsec. destruct (InitDataBlock_spec pos1 t Hf Hsec) as (t1 & E & Hf1 & Hsec1). exists t1.
  destruct pos1 as [i|]; [|exists t1; by rewrite move_second_none].
  destruct Hsec1 as (b & pos & Hsec1). destruct (move_second_spec o i b pos (Some i) t1) as (t2 & E2 & Hf2 & Hsec2); [done..|].
  exists t2. split_and!; [done..|]. exists b. rewrite Hq in Hsec2; [done|].
  destruct Hsec1 as (_ & (it & _ & Hat & _) & _). exact (it_at_sorted _ _ _ Hat).
Qed.

Lemma second_exhausted_in i b pos t : second_in i b pos t → second_exhausted t = Done (bool_decide (pos = None)).
Proof.
  intros Hs. unfold second_exhausted. rewrite (has_second_in _ _ _ _ Hs). destruct Hs as (_ & Hw & _). cbn [negb].
  rewrite (wrapper_status_spec b pos _ Hw). destruct Hw as (it & _ & _ & -> & _).
  destruct pos; [by rewrite bool_decide_eq_true_2|by rewrite bool_decide_eq_false_2 by (by intros [? [=]])].
Qed.
Lemma second_exhausted_none t : no_second t → second_exhausted t = Done true.
Proof. intros [Hn _]. unfold second_exhausted, has_second. by rewrite Hn, bool_decide_eq_false_2 by (by intros [? [=]]). Qed.

Lemma first_valid pos1 t : first_at pos1 t → valid_ (first_level_iter_ t) = bool_decide (is_Some pos1).
Proof. by intros [(it & _ & _ & -> & _) _]. Qed.

(** Past either end of the index there is no second level. *)
Lemma drop_second t : first_at None t → ∃ t', SetSecondLevelIterator None t = Done t' ∧ two_at None t'.
Proof. intros Hf. eexists. split; [done|]. split; [by exists None|done]. Qed.

Lemma first_next i t :
  first_at (Some i) t → ∃ w, wrapper_Next (first_level_iter_ t) = Done w ∧
    first_at (if decide (S i < length index)%nat then Some (S i) else None) (set_first w t).
Proof.
  intros [Hw Hst]. destruct (wrapper_Next_spec index i _ (Hs1 CNext eq_refl) Hw) as (w & -> & Hw').
  exists w. split; [done|]. by split.
Qed.
Lemma move_first_spec o pos1 t :
  no_seek_for_prev o = true → cursor_may o pos1 = true → first_at pos1 t →
  ∃ t', move_first o t = Done t' ∧ first_at (cursor_step Compare index o pos1) t' ∧ second_level_iter_ t' = second_level_iter_ t ∧
    data_block_handle_ t' = data_block_handle_ t.
Proof.
  intros Ho Hmay [Hw Hst]. unfold move_first. destruct (wrapper_move_spec index pos1 _ o Hw) as (w & -> & Hw'); [by rewrite Hs1|].
  cbn [mbind R_bind]. eexists. split; [done|]. by repeat split.
Qed.

(** Leaving block [i] forward: the first entry after it, if there is one. *)
Lemma skip_forward fuel i b pos t :
  (length blocks < fuel + i)%nat → first_at (Some i) t → second_in i b pos t →
  ∃ t', SkipEmptyDataBlocksForward fuel t = Done t' ∧
    two_at match pos with Some j => Some (start i + j)%nat | None => pos_from (length kvs) (start (S i)) end t'.
Proof.
  revert i b pos t. induction fuel as [|fuel IH]; intros i b pos t Hfuel Hf Hsec.
  { destruct Hsec as (Hb%lookup_lt_Some & _). lia. }
  cbn [SkipEmptyDataBlocksForward]. rewrite (second_exhausted_in _ _ _ _ Hsec). cbn [mbind R_bind].
  destruct pos as [j|].
  { rewrite bool_decide_eq_false_2 by done. cbn [negb]. exists t. split; [done|]. by exists i, b, j. }
  rewrite bool_decide_eq_true_2, (first_valid _ _ Hf), bool_decide_eq_true_2 by done. cbn [negb].
  destruct (first_next i t Hf) as (w & -> & Hf1). cbn [mbind R_bind].
  pose proof Hsec as Hsec0. pose proof (lookup_lt_Some _ _ _ (proj1 Hsec)) as Hlt. rewrite (tl_length _ _ T) in Hf1.
  destruct (enter_block CFirst (λ b, match b with [] => None | _ => Some 0%nat end) _ (set_first w t)
    (Hs2 CFirst eq_refl) ltac:(done) ltac:(done) Hf1) as (t1 & t2 & -> & E2 & Hf2 & Hsec2).
  { right. exists i, b, None. exact Hsec. }
  cbn [mbind R_bind]. rewrite E2. cbn [mbind R_bind]. destruct (decide (S i < length blocks)%nat) as [Hn|Hn].
  - destruct Hsec2 as (b' & Hsec2). destruct (IH (S i) b' match b' with [] => None | _ => Some 0%nat end t2) as (t' & -> & Ht'); [lia|done|done|]. exists t'. split; [done|].
    pose proof (start_S blocks (S i) b' (proj1 Hsec2)) as HS. pose proof (start_le blocks (S (S i))).
    destruct b' as [|e b']; cbn [length] in HS.
    + by rewrite HS, Nat.add_0_r in Ht'.
    + rewrite Nat.add_0_r in Ht'. unfold pos_from. by rewrite decide_True by lia.
  - destruct fuel as [|fuel]; [lia|]. cbn [SkipEmptyDataBlocksForward]. rewrite second_exhausted_none by done. cbn [mbind R_bind negb].
    rewrite (first_valid _ _ Hf2), bool_decide_eq_false_2 by (by intros [? [=]]). cbn [negb].
    destruct (drop_second t2 Hf2) as (t' & -> & Ht'). exists t'. split; [done|].
    unfold pos_from. rewrite start_all by lia. by rewrite decide_False by lia.
Qed.
Lemma skip_forward_none fuel t :
  (0 < fuel)%nat → first_at None t → no_second t → ∃ t', SkipEmptyDataBlocksForward fuel t = Done t' ∧ two_at None t'.
Proof.
  intros Hfuel Hf Hsec. destruct fuel as [|fuel]; [lia|]. cbn [SkipEmptyDataBlocksForward].
  rewrite second_exhausted_none by done. cbn [mbind R_bind negb].
  rewrite (first_valid _ _ Hf), bool_decide_eq_false_2 by (by intros [? [=]]). by apply drop_second.
Qed.

(** Leaving block [i] backward: the last entry before it, if there is one. *)
Lemma skip_backward fuel i b pos t :
  (S i < fuel)%nat → first_at (Some i) t → second_in i b pos t →
  ∃ t', SkipEmptyDataBlocksBackward fuel t = Done t' ∧
    two_at match pos with Some j => Some (start i + j)%nat | None => pos_before (start i) end t'.
Proof.
  revert i b pos t. induction fuel as [|fuel IH]; intros i b pos t Hfuel Hf Hsec; [lia|].
  cbn [SkipEmptyDataBlocksBackward]. rewrite (second_exhausted_in _ _ _ _ Hsec). cbn [mbind R_bind].
  destruct pos as [j|].
  { rewrite bool_decide_eq_false_2 by done. cbn [negb]. exists t. split; [done|]. by exists i, b, j. }
  rewrite bool_decide_eq_true_2, (first_valid _ _ Hf), bool_decide_eq_true_2 by done. cbn [negb].
  destruct (move_first_spec CPrev (Some i) t eq_refl eq_refl Hf) as (t0 & -> & Hf1 & Es & Eh). cbn [mbind R_bind].
  destruct (enter_block CLast (λ b, pos_before (length b)) _ t0 (Hs2 CLast eq_refl) ltac:(done) ltac:(done) Hf1)
    as (t1 & t2 & -> & E2 & Hf2 & Hsec2).
  { right. exists i, b, None. unfold second_in. by rewrite Es, Eh. }
  cbn [mbind R_bind]. rewrite E2. cbn [mbind R_bind cursor_step option_bind] in *.
  destruct i as [|i]; cbn [prev_pos default] in Hf2, Hsec2.
  - destruct fuel as [|fuel]; [lia|]. cbn [SkipEmptyDataBlocksBackward]. rewrite second_exhausted_none by done. cbn [mbind R_bind negb].
    rewrite (first_valid _ _ Hf2), bool_decide_eq_false_2 by (by intros [? [=]]). cbn [negb]. by apply drop_second.
  - destruct Hsec2 as (b' & Hsec2). destruct (IH i b' (pos_before (length b')) t2) as (t' & -> & Ht'); [lia|done|done|].
    exists t'. split; [done|]. rewrite (start_S blocks i b' (proj1 Hsec2)).
    destruct (length b') as [|n]; cbn [pos_before] in *; [by rewrite Nat.add_0_r|]. by rewrite Nat.add_succ_r.
Qed.
Lemma skip_backward_none fuel t :
  (0 < fuel)%nat → first_at None t → no_second t → ∃ t', SkipEmptyDataBlocksBackward fuel t = Done t' ∧ two_at None t'.
Proof.
  intros Hfuel Hf Hsec. destruct fuel as [|fuel]; [lia|]. cbn [SkipEmptyDataBlocksBackward].
  rewrite second_exhausted_none by done. cbn [mbind R_bind negb].
  rewrite (first_valid _ _ Hf), bool_decide_eq_false_2 by (by intros [? [=]]). by apply drop_second.
Qed.

(** ** The operations *)

Context {fuel : nat} (Hfuel : (S (length blocks) < fuel)%nat).
#[local] Instance fueled : InternalIteratorBase IndexValue TwoLevelIndexIterator := TwoLevelIndexIterator_iterator fuel.

(** Where the second level is when an operation starts. *)
Lemma two_at_levels pos t :
  two_at pos t → ∃ pos1, first_at pos1 t ∧ (no_second t ∨ ∃ i b pos, second_in i b pos t).
Proof. destruct pos as [g|]; [intros (i & b & j & ? & ? & _); eauto 10|]. intros [[pos1 ?] ?]. eauto. Qed.

Lemma index_sorted pos t : two_at pos t → sorted Compare index.
Proof.
  intros Hat. destruct (two_at_levels pos t Hat) as (pos1 & [(it & _ & Hit & _) _] & _). exact (it_at_sorted _ _ _ Hit).
Qed.

(** The index entry that a seek finds: the blocks before it are below the
    target, those after it above. *)
Lemma block_of_target t i b :
  sorted Compare index → pos_from (length index) (count (less t) index) = Some i → blocks !! i = Some b →
  count (less t) kvs = (start i + count (less t) b)%nat ∧ count (upto t) kvs = (start i + count (upto t) b)%nat.
Proof.
  intros Hs Hi Hb. unfold pos_from in Hi. destruct (decide _) as [Hlt|]; [|done]. injection Hi as Hi.
  destruct (lookup_lt_is_Some_2 index i) as [[k v] Hk]; [lia|].
  pose proof (count_lookup (less t) index i k v Hs (less_downward t) Hk) as Hge.
  rewrite bool_decide_eq_false_2 in Hge by lia. apply Z.ltb_ge in Hge.
  assert (∀ j c kv, (j < i)%nat → blocks !! j = Some c → kv ∈ c → Compare (fst kv) t < 0) as Hlo.
  { intros j c kv Hj Hc Hin. destruct (lookup_lt_is_Some_2 index j) as [[k' v'] Hk']; [lia|].
    pose proof (count_lookup (less t) index j k' v' Hs (less_downward t) Hk') as Hl.
    rewrite bool_decide_eq_true_2 in Hl by lia. apply Z.ltb_lt in Hl.
    pose proof (tl_upper _ _ T j k' v' c kv Hk' Hc Hin) as Hu. by apply (Compare_le_lt _ k'). }
  assert (∀ j c kv, (i < j)%nat → blocks !! j = Some c → kv ∈ c → 0 < Compare (fst kv) t) as Hhi.
  { intros j c kv Hj Hc Hin. pose proof (tl_lower _ _ T i j k v c kv Hk Hj Hc Hin) as Hl.
    apply Compare_flip. apply (Compare_le_lt _ k); [|done]. pose proof (Compare_flip k t). pose proof (Compare_flip t k). lia. }
  split; apply count_block; try done; intros j c kv Hj Hc Hin; unfold less, upto.
  - apply Z.ltb_lt. eauto.
  - apply Z.ltb_ge. specialize (Hhi j c kv Hj Hc Hin). lia.
  - apply Z.leb_le. specialize (Hlo j c kv Hj Hc Hin). lia.
  - apply Z.leb_gt. eauto.
Qed.
Lemma target_after_all t :
  sorted Compare index → pos_from (length index) (count (less t) index) = None →
  count (less t) kvs = length kvs ∧ count (upto t) kvs = length kvs.
Proof.
  intros Hs Hi. unfold pos_from in Hi. destruct (decide _) as [|Hge]; [done|]. pose proof (count_le (less t) index).
  assert (∀ k v, (k, v) ∈ kvs → Compare k t < 0) as Hall.
  { intros k v (j & c & Hc & Hin)%elem_of_blocks. pose proof (lookup_lt_Some _ _ _ Hc) as Hj. rewrite <- (tl_length _ _ T) in Hj.
    destruct (lookup_lt_is_Some_2 index j) as [[k' v'] Hk']; [done|].
    pose proof (count_lookup (less t) index j k' v' Hs (less_downward t) Hk') as Hl.
    rewrite bool_decide_eq_true_2 in Hl by lia. apply Z.ltb_lt in Hl.
    pose proof (tl_upper _ _ T j k' v' c (k, v) Hk' Hc Hin) as Hu. by apply (Compare_le_lt _ k'). }
  rewrite <- (count_true kvs). split; apply count_ext; intros k v Hin; specialize (Hall k v Hin); unfold less, upto;
    [apply Z.ltb_lt|apply Z.leb_le]; lia.
Qed.

(** Moving the index, opening the block found, moving in it. *)
Lemma enter_at o1 o (q : entries → option nat) pos t :
  no_seek_for_prev o1 = true → (∀ pos, cursor_may o1 pos = true) → s2 o = true → (∀ pos, cursor_may o pos = true) →
  (∀ b pos, sorted Compare b → cursor_step Compare b o pos = q b) → two_at pos t →
  ∃ pos1 t0 t1 t2, move_first o1 t = Done t0 ∧ InitDataBlock t0 = Done t1 ∧ move_second o t1 = Done t2 ∧
    first_at (cursor_step Compare index o1 pos1) t2 ∧
    match cursor_step Compare index o1 pos1 with Some i => ∃ b, second_in i b (q b) t2 | None => no_second t2 end.
Proof.
  intros Ho1 Hmay1 Ho Hmay Hq Hat. destruct (two_at_levels pos t Hat) as (pos1 & Hf & Hsec).
  destruct (move_first_spec o1 pos1 t Ho1 (Hmay1 pos1) Hf) as (t0 & E0 & Hf0 & Es & Eh).
  destruct (enter_block o q _ t0 Ho Hmay Hq Hf0) as (t1 & t2 & E1 & E2 & Hf2 & Hsec2).
  { unfold no_second, second_in in *. rewrite Es, Eh. destruct Hsec as [?|(i & b & pos' & ?)]; [by left|right; by exists i, b, pos']. }
  by exists pos1, t0, t1, t2.
Qed.

Lemma enter_forward o1 o q pos t :
  no_seek_for_prev o1 = true → (∀ pos, cursor_may o1 pos = true) → s2 o = true → (∀ pos, cursor_may o pos = true) →
  (∀ b pos, sorted Compare b → cursor_step Compare b o pos = q b) → two_at pos t →
  ∃ pos1 t', (t ← move_first o1 t; t ← InitDataBlock t; t ← move_second o t; SkipEmptyDataBlocksForward fuel t) = Done t' ∧
    match cursor_step Compare index o1 pos1 with
    | Some i => ∃ b, blocks !! i = Some b ∧
        two_at match q b with Some j => Some (start i + j)%nat | None => pos_from (length kvs) (start (S i)) end t'
    | None => two_at None t'
    end.
Proof.
  intros Ho1 Hmay1 Ho Hmay Hq Hat.
  destruct (enter_at o1 o q pos t Ho1 Hmay1 Ho Hmay Hq Hat) as (pos1 & t0 & t1 & t2 & -> & E1 & E2 & Hf2 & Hsec2).
  exists pos1. cbn [mbind R_bind]. rewrite E1. cbn [mbind R_bind]. rewrite E2. cbn [mbind R_bind].
  destruct (cursor_step Compare index o1 pos1) as [i|].
  - destruct Hsec2 as (b & Hsec2). destruct (skip_forward fuel i b (q b) t2) as (t' & -> & Ht'); [lia|done|done|].
    exists t'. split; [done|]. exists b. split; [by destruct Hsec2|done].
  - apply skip_forward_none; [lia|done|done].
Qed.
Lemma enter_backward o1 o q pos t :
  no_seek_for_prev o1 = true → (∀ pos, cursor_may o1 pos = true) → s2 o = true → (∀ pos, cursor_may o pos = true) →
  (∀ b pos, sorted Compare b → cursor_step Compare b o pos = q b) → two_at pos t →
  ∃ pos1 t', (t ← move_first o1 t; t ← InitDataBlock t; t ← move_second o t; SkipEmptyDataBlocksBackward fuel t) = Done t' ∧
    match cursor_step Compare index o1 pos1 with
    | Some i => ∃ b, blocks !! i = Some b ∧
        two_at match q b with Some j => Some (start i + j)%nat | None => pos_before (start i) end t'
    | None => two_at None t'
    end.
Proof.
  intros Ho1 Hmay1 Ho Hmay Hq Hat.
  destruct (enter_at o1 o q pos t Ho1 Hmay1 Ho Hmay Hq Hat) as (pos1 & t0 & t1 & t2 & -> & E1 & E2 & Hf2 & Hsec2).
  exists pos1. cbn [mbind R_bind]. rewrite E1. cbn [mbind R_bind]. rewrite E2. cbn [mbind R_bind].
  destruct (cursor_step Compare index o1 pos1) as [i|].
  - destruct Hsec2 as (b & Hsec2). pose proof (lookup_lt_Some _ _ _ (proj1 Hsec2)).
    destruct (skip_backward fuel i b (q b) t2) as (t' & -> & Ht'); [lia|done|done|].
    exists t'. split; [done|]. exists b. split; [by destruct Hsec2|done].
  - apply skip_backward_none; [lia|done|done].
Qed.

(** A position in block [i] that goes on to the next block at its end, and one
    that goes back to the block before at its start. *)
Lemma position_from i b c :
  blocks !! i = Some b → (c ≤ length b)%nat →
  match pos_from (length b) c with Some j => Some (start i + j)%nat | None => pos_from (length kvs) (start (S i)) end =
    pos_from (length kvs) (start i + c).
Proof.
  intros Hb Hc. pose proof (start_S blocks i b Hb) as HS. pose proof (start_le blocks (S i)). unfold pos_from at 1.
  destruct (decide (c < length b)%nat).
  - unfold pos_from. by rewrite decide_True by lia.
  - by replace c with (length b) by lia; rewrite HS.
Qed.
Lemma position_before i c :
  match pos_before c with Some j => Some (start i + j)%nat | None => pos_before (start i) end = pos_before (start i + c).
Proof. destruct c as [|c]; cbn [pos_before]; [by rewrite Nat.add_0_r|]. by rewrite Nat.add_succ_r. Qed.

Lemma two_level_SeekToFirst_spec pos t :
  two_at pos t → ∃ t', SeekToFirst fuel t = Done t' ∧ two_at (cursor_step Compare kvs CFirst pos) t'.
Proof.
  intros Hat. destruct (enter_forward CFirst CFirst (λ b, pos_from (length b) 0) pos t) as (pos1 & t' & E & Hq);
    [done|done|by apply Hs2|done|by intros [|? ?] ? ?|done|]. exists t'. split; [exact E|].
  rewrite first_position, count_false. rewrite first_position, count_false in Hq. unfold pos_from at 1 in Hq.
  pose proof (tl_length _ _ T). destruct (decide (0 < length index)%nat) as [Hlt|].
  - destruct Hq as (b & Hb & Hq). rewrite position_from in Hq by (done || lia). exact Hq.
  - destruct blocks; [exact Hq|cbn in *; lia].
Qed.
Lemma two_level_SeekToLast_spec pos t :
  two_at pos t → ∃ t', SeekToLast fuel t = Done t' ∧ two_at (cursor_step Compare kvs CLast pos) t'.
Proof.
  intros Hat. destruct (enter_backward CLast CLast (λ b, pos_before (length b)) pos t) as (pos1 & t' & E & Hq);
    [done|done|by apply Hs2|done|by intros [|? ?] ? ?|done|]. exists t'. split; [exact E|].
  rewrite last_position, count_true. rewrite last_position, count_true in Hq.
  pose proof (tl_length _ _ T) as Hlen. destruct (length index) as [|n]; cbn [pos_before] in Hq.
  - destruct blocks; [exact Hq|done].
  - destruct Hq as (b & Hb & Hq). rewrite position_before, <- (start_S blocks n b Hb), start_all in Hq by lia. exact Hq.
Qed.
Lemma two_level_Seek_spec target pos t :
  two_at pos t → ∃ t', Seek fuel target t = Done t' ∧ two_at (cursor_step Compare kvs (CSeek target) pos) t'.
Proof.
  intros Hat. pose proof (index_sorted pos t Hat) as Hs.
  destruct (enter_forward (CSeek target) (CSeek target) (λ b, pos_from (length b) (count (less target) b)) pos t) as (pos1 & t' & E & Hq);
    [done|done|by apply Hs2|done|by intros; apply seek_from|done|]. exists t'. split; [exact E|].
  rewrite seek_from by (apply T). rewrite seek_from in Hq by done.
  destruct (pos_from (length index) _) as [i|] eqn:Ei.
  - destruct Hq as (b & Hb & Hq). rewrite position_from in Hq by (done || apply count_le).
    by rewrite (proj1 (block_of_target target i b Hs Ei Hb)).
  - rewrite (proj1 (target_after_all target Hs Ei)). unfold pos_from. by rewrite decide_False by lia.
Qed.

Lemma second_Valid i b pos t : second_in i b pos t → Valid t = bool_decide (is_Some pos).
Proof. by intros (_ & (it & _ & _ & E & _) & _). Qed.

Lemma two_level_SeekForPrev_spec target pos t :
  s2 (CSeekForPrev target) = true → two_at pos t →
  ∃ t', SeekForPrev fuel target t = Done t' ∧ two_at (cursor_step Compare kvs (CSeekForPrev target) pos) t'.
Proof.
  intros Hs2p Hat. pose proof (index_sorted pos t Hat) as Hs. set (q (b : entries) := pos_before (count (upto target) b)).
  assert (∀ b pos, sorted Compare b → cursor_step Compare b (CSeekForPrev target) pos = q b) as Hq
    by (intros; by apply seek_for_prev_before).
  destruct (enter_at (CSeek target) (CSeekForPrev target) q pos t) as (pos1 & t0 & t1 & t2 & E0 & E1 & E2 & Hf2 & Hsec2); [done..|].
  unfold SeekForPrev. rewrite E0. cbn [mbind R_bind]. rewrite E1. cbn [mbind R_bind]. rewrite E2. cbn [mbind R_bind].
  rewrite seek_for_prev_before by (apply T). rewrite seek_from in Hf2, Hsec2 by done.
  destruct (pos_from (length index) _) as [i|] eqn:Ei.
  - destruct Hsec2 as (b & Hsec2). rewrite (second_Valid _ _ _ _ Hsec2). pose proof (lookup_lt_Some _ _ _ (proj1 Hsec2)).
    rewrite (proj2 (block_of_target target i b Hs Ei (proj1 Hsec2))), <- position_before. fold (q b).
    destruct (q b) as [j|] eqn:Eq.
    + rewrite bool_decide_eq_true_2 by done. cbn [negb]. exists t2. split; [done|]. by exists i, b, j.
    + rewrite bool_decide_eq_false_2 by (by intros [? [=]]). cbn [negb]. rewrite (wrapper_status_spec index (Some i)) by apply Hf2.
      cbn [mbind R_bind]. rewrite (first_valid _ _ Hf2), bool_decide_eq_true_2 by done. cbn [negb andb mbind R_bind].
      apply (skip_backward fuel i b None t2); [lia|done|done].
  - unfold Valid. rewrite (proj2 Hsec2). cbn [negb]. rewrite (wrapper_status_spec index None) by apply Hf2.
    cbn [mbind R_bind]. rewrite (first_valid _ _ Hf2), bool_decide_eq_false_2 by (by intros [? [=]]). change (ok OK) with true. cbn [negb andb].
    rewrite (proj2 (target_after_all target Hs Ei)).
    destruct (enter_at CLast (CSeekForPrev target) q None t2) as (pos2 & t3 & t4 & t5 & -> & E4 & E5 & Hf5 & Hsec5); [done..| |].
    { split; [by exists None|done]. }
    cbn [mbind R_bind]. rewrite E4. cbn [mbind R_bind]. rewrite E5. cbn [mbind R_bind].
    rewrite last_position, count_true in Hf5, Hsec5. pose proof (tl_length _ _ T) as Hlen.
    destruct (length index) as [|n] eqn:En; cbn [pos_before] in Hf5, Hsec5.
    + assert (length kvs = 0%nat) as -> by (destruct blocks; done). apply skip_backward_none; [lia|done|done].
    + destruct Hsec5 as (b & Hsec5). pose proof (lookup_lt_Some _ _ _ (proj1 Hsec5)).
      destruct (skip_backward fuel n b (q b) t5) as (t' & -> & Ht'); [lia|done|done|]. exists t'. split; [done|].
      unfold q in Ht'. rewrite position_before in Ht'. replace (start n + count (upto target) b)%nat with (length kvs) in Ht'; [done|].
      rewrite <- (start_all blocks (S n)), (start_S blocks n b (proj1 Hsec5)) by lia. f_equal.
      rewrite <- (count_true b). apply count_ext. intros k v Hin. symmetry. apply Z.leb_le.
      destruct (target_after_all target Hs) as [_ Hc]; [by rewrite En|].
      assert (upto target k = true) as Hu; [|by apply Z.leb_le in Hu].
      destruct (list_elem_of_lookup_1 b (k, v) Hin) as [j Hj].
      rewrite (count_lookup (upto target) kvs (start n + j) k v); [|apply T|apply upto_downward|].
      * rewrite Hc. apply bool_decide_eq_true_2. pose proof (start_S blocks n b (proj1 Hsec5)). pose proof (start_le blocks (S n)).
        pose proof (lookup_lt_Some _ _ _ Hj). lia.
      * rewrite (blocks_lookup blocks n b j); [done|by destruct Hsec5|by eapply lookup_lt_Some].
Qed.

Lemma two_level_Next_spec g t :
  two_at (Some g) t → ∃ t', Next fuel t = Done t' ∧ two_at (cursor_step Compare kvs CNext (Some g)) t'.
Proof.
  intros (i & b & j & Hf & Hsec & ->). unfold Next. rewrite (second_Valid _ _ _ _ Hsec), bool_decide_eq_true_2, assert_true by done.
  cbn [mbind R_bind]. pose proof (second_range _ _ _ _ Hsec) as Hj. destruct Hsec as (Hb & Hw & He).
  destruct (wrapper_Next_spec b j _ (Hs2 CNext eq_refl) Hw) as (w & -> & Hw'). cbn [mbind R_bind].
  pose proof (lookup_lt_Some _ _ _ Hb).
  destruct (skip_forward fuel i b (cursor_step Compare b CNext (Some j)) (set_second w t)) as (t' & -> & Ht'); [lia|done|by split|].
  exists t'. split; [done|]. change (cursor_step Compare b CNext (Some j)) with (pos_from (length b) (S j)) in Ht'.
  rewrite position_from in Ht' by done. change (cursor_step Compare kvs CNext (Some (start i + j)%nat)) with (pos_from (length kvs) (S (start i + j))).
  by rewrite Nat.add_succ_r in Ht'.
Qed.
Lemma two_level_Prev_spec g t :
  two_at (Some g) t → ∃ t', Prev fuel t = Done t' ∧ two_at (cursor_step Compare kvs CPrev (Some g)) t'.
Proof.
  intros (i & b & j & Hf & Hsec & ->). unfold Prev. rewrite (second_Valid _ _ _ _ Hsec), bool_decide_eq_true_2, assert_true by done.
  cbn [mbind R_bind]. destruct Hsec as (Hb & Hw & He).
  destruct (wrapper_move_spec b (Some j) _ CPrev Hw) as (w & E & Hw'); [by rewrite Hs2|]. cbn [it_step] in E. rewrite E. cbn [mbind R_bind].
  pose proof (lookup_lt_Some _ _ _ Hb).
  destruct (skip_backward fuel i b (cursor_step Compare b CPrev (Some j)) (set_second w t)) as (t' & -> & Ht'); [lia|done|by split|].
  exists t'. split; [done|]. change (cursor_step Compare b CPrev (Some j)) with (pos_before j) in Ht'.
  by rewrite position_before in Ht'.
Qed.

Lemma two_step o pos t :
  s2 o && cursor_may o pos = true → two_at pos t →
  ∃ t', it_step o t = Done t' ∧ two_at (cursor_step Compare kvs o pos) t'.
Proof.
  intros [Hs Hmay]%andb_true_iff Hat. destruct o as [| | | |target|target]; cbn [it_step].
  - by apply two_level_SeekToFirst_spec.
  - by apply two_level_SeekToLast_spec.
  - destruct pos as [g|]; [|done]. by apply two_level_Next_spec.
  - destruct pos as [g|]; [|done]. by apply two_level_Prev_spec.
  - by apply two_level_Seek_spec.
  - by apply two_level_SeekForPrev_spec.
Qed.

Lemma two_at_reads pos t : two_at pos t → it_reads kvs pos t ∧ status t = Done OK.
Proof.
  intros Hat. destruct (two_at_levels pos t Hat) as (pos1 & [Hf Hst] & Hsec).
  assert (status t = Done OK) as Es.
  { unfold status. rewrite (wrapper_status_spec index pos1 _ Hf). cbn [mbind R_bind]. change (ok OK) with true. cbn [negb].
    destruct Hsec as [[Hn _]|(i & b & pos' & Hsec)].
    - unfold has_second. rewrite Hn, bool_decide_eq_false_2 by (by intros [? [=]]). by rewrite Hst.
    - rewrite (has_second_in _ _ _ _ Hsec). destruct Hsec as (_ & Hw & _). rewrite (wrapper_status_spec b pos' _ Hw).
      cbn [mbind R_bind]. change (ok OK) with true. cbn [negb]. by rewrite Hst. }
  split; [|done]. split; [cbn; by rewrite Es|]. destruct pos as [g|].
  - destruct Hat as (i & b & j & _ & Hs & ->). pose proof (second_range _ _ _ _ Hs) as Hj. pose proof (second_Valid _ _ _ _ Hs) as Hv.
    rewrite bool_decide_eq_true_2 in Hv by done. destruct Hs as (Hb & Hw & _).
    destruct (lookup_lt_is_Some_2 b j Hj) as [[k v] Hkv]. exists k, v. rewrite (blocks_lookup blocks i b j Hb Hj).
    split_and!; [done|exact Hv|..]; cbn; [unfold key|unfold value]; rewrite Hv, assert_true; cbn [mbind R_bind].
    + by apply (wrapper_key_spec b j _ (k, v)).
    + by apply (wrapper_value_spec b j _ (k, v)).
  - apply Hat.
Qed.
End laws.

(** ** The laws, and runs from the start *)

Section refinement.
Context {I J St : Type} `{C : Comparator, !ComparatorLaws C} `{Build} {s1 s2 : cursor_op → bool}.
Context `{I1 : InternalIteratorBase IndexValue I, L1 : !IteratorLawsFor s1 Compare I}.
Context `{I2 : InternalIteratorBase IndexValue J, L2 : !IteratorLawsFor s2 Compare J, ST : !TwoLevelIteratorState J St}.
Context (Hs1 : ∀ o, no_seek_for_prev o = true → s1 o = true) (Hs2 : ∀ o, no_seek_for_prev o = true → s2 o = true).
Context (fuel : nat).
#[local] Abbreviation TwoLevelIndexIterator := (TwoLevelIndexIterator (I := I) (J := J) (St := St)).
#[local] Instance refined : InternalIteratorBase IndexValue TwoLevelIndexIterator := TwoLevelIndexIterator_iterator fuel.

Definition two_level_at (kvs : list (bytes * IndexValue)) (pos : option nat) (t : TwoLevelIndexIterator) : Prop :=
  ∃ index blocks, two_levels index blocks ∧ kvs = concat blocks ∧ (S (length blocks) < fuel)%nat ∧
    two_at (index := index) (blocks := blocks) pos t.

Lemma two_level_step kvs pos t o :
  two_level_at kvs pos t → s2 o && cursor_may o pos = true →
  ∃ t', it_step o t = Done t' ∧ two_level_at kvs (cursor_step Compare kvs o pos) t'.
Proof.
  intros (index & blocks & T & -> & Hf & Hat) Ho. destruct (two_step Hs1 Hs2 T Hf o pos t Ho Hat) as (t' & E & Hat').
  exists t'. split; [exact E|]. by exists index, blocks.
Qed.
Lemma two_level_reads kvs pos t : two_level_at kvs pos t → it_reads kvs pos t.
Proof. intros (index & blocks & T & -> & Hf & Hat). by apply (two_at_reads (index := index) (blocks := blocks) (fuel := fuel)). Qed.

#[export] Program Instance TwoLevelIndexIterator_laws : IteratorLawsFor s2 Compare TwoLevelIndexIterator := {| it_at := two_level_at |}.
Next Obligation. intros kvs pos t (index & blocks & T & -> & _). apply T. Qed.
Next Obligation. intros kvs pos t Hat. apply (two_level_reads kvs pos t Hat). Qed.
Next Obligation.
  intros kvs pos t Hat. destruct (two_level_reads kvs pos t Hat) as [_ Hp].
  destruct pos as [i|]; [destruct Hp as (k & v & _ & -> & _); by rewrite bool_decide_eq_true_2|exact Hp].
Qed.
Next Obligation.
  intros kvs i t Hat. destruct (two_level_reads kvs _ t Hat) as [_ (k & v & Hk & _)]. by eapply lookup_lt_Some.
Qed.
Next Obligation.
  intros kvs i t kv Hat Hkv. destruct (two_level_reads kvs _ t Hat) as [_ (k & v & Hk & _ & ? & ?)].
  rewrite Hkv in Hk. by injection Hk as ->.
Qed.
Next Obligation. exact two_level_step. Qed.
Next Obligation.
  intros kvs i t Hat Hs. destruct (two_level_step kvs (Some i) t CNext Hat) as (t' & E & Hat'); [by rewrite Hs|].
  change (Next fuel t = Done t') in E.
  change (it_NextAndGetResult t) with (default_NextAndGetResult (Next fuel) (Valid (I := I)) key (λ _, Done true) t).
  unfold default_NextAndGetResult. rewrite E. cbn [mbind R_bind].
  destruct (two_level_reads kvs _ t' Hat') as [_ Hp]. destruct (cursor_step Compare kvs CNext (Some i)) as [j|].
  - destruct Hp as (k & v & Hk & Hv & Hkey & _). change (Valid t' = true) in Hv. change (key t' = Done k) in Hkey. rewrite Hv, Hkey.
    cbn [mbind R_bind]. rewrite debug_assert_true by done. do 2 eexists. split_and!; [done|exact E|]. cbn. by rewrite Hk.
  - change (Valid t' = false) in Hp. rewrite Hp. by do 2 eexists.
Qed.

Lemma new_TwoLevelIndexIterator_spec index blocks pos1 (state : St) (it : I) :
  two_levels index blocks → (S (length blocks) < fuel)%nat → it_at index pos1 it →
  ∃ t : TwoLevelIndexIterator, new_TwoLevelIndexIterator state it = Done t ∧ it_at (concat blocks) None t.
Proof.
  intros T Hf Hat. unfold new_TwoLevelIndexIterator. cbn [wrapper_Set].
  destruct (wrapper_Update_spec index pos1 it new_wrapper Hat) as (w & -> & Hw). cbn [mbind R_bind]. eexists. split; [done|].
  exists index, blocks. split_and!; [done..|]. split; [by exists pos1|done].
Qed.

(** C14. A two-level iterator over an index and the blocks it names is a cursor
    on the entries of all blocks in order, under every run of seeks and steps:
    empty blocks are skipped, in either direction; a target between two blocks
    is found in the later one, or in the earlier one by SeekForPrev; no error
    and no failed assertion shows. *)
Theorem TwoLevelIndexIterator_refines_cursor index blocks pos1 (state : St) (it : I) ops pos :
  two_levels index blocks → (S (length blocks) < fuel)%nat → it_at index pos1 it →
  Forall (λ o, s2 o = true) ops → cursor_run Compare (concat blocks) ops None = Some pos →
  ∃ t0 t : TwoLevelIndexIterator, new_TwoLevelIndexIterator state it = Done t0 ∧ it_run ops t0 = Done t ∧ it_reads (concat blocks) pos t ∧
    status t = Done OK.
Proof.
  intros T Hf Hat Hops Hrun. destruct (new_TwoLevelIndexIterator_spec index blocks pos1 state it T Hf Hat) as (t0 & E0 & Hat0).
  destruct (it_run_for s2 Compare (concat blocks) ops None pos t0 Hops Hat0 Hrun) as (t & E & Ht). exists t0, t.
  split_and!; [done|done|by eapply (two_level_reads (concat blocks))|].
  destruct Ht as (index' & blocks' & T' & _ & _ & Ht). by apply (two_at_reads (index := index') (blocks := blocks') (fuel := fuel) pos).
Qed.
End refinement.

(** ** At a concrete index: five blocks, of which three are empty *)

#[local] Instance TestDebug : Build := {| NDEBUG := false |}.
#[local] Existing Instance BytewiseComparator | 0.
Definition index_entry (separator offset : Z) : bytes * IndexValue := ([separator], mkIndexValue (mkHandle offset 1) []).
Definition example_blocks : list (list (bytes * IndexValue)) := [[]; [index_entry 1 0; index_entry 3 1]; []; [index_entry 6 2]; []].
Definition example_index : list (bytes * IndexValue) :=
  [index_entry 0 10; index_entry 4 20; index_entry 5 30; index_entry 8 40; index_entry 9 50].
(** The state counts the blocks it opens. *)
#[local] Instance example_state : TwoLevelIteratorState (ListIter IndexValue) nat := {
  NewSecondaryIterator h n := ((λ b, mkListIter b None) <$> example_blocks !! Z.to_nat (offset_ h / 10 - 1), S n)
}.
Definition example_ops : list cursor_op :=
  [CLast; CPrev; CNext; CSeek [5]; CPrev; CSeekForPrev [10]; CSeekForPrev [5]; CPrev].

Lemma TwoLevelIndexIterator_refines_cursor_witness :
  ∃ t0 t, new_TwoLevelIndexIterator (J := ListIter IndexValue) 0%nat (mkListIter example_index None) = Done t0 ∧
    @it_run IndexValue _ (TwoLevelIndexIterator_iterator 7) example_ops t0 = Done t ∧
    @it_reads IndexValue _ (TwoLevelIndexIterator_iterator 7) [index_entry 1 0; index_entry 3 1; index_entry 6 2] (Some 0%nat) t ∧
    status t = Done OK.
Proof.
  apply (TwoLevelIndexIterator_refines_cursor (s1 := λ _, true) (s2 := λ _, true) ltac:(done) ltac:(done) 7
           example_index example_blocks None 0%nat (mkListIter example_index None) example_ops (Some 0%nat)).
  - unfold example_index, example_blocks, index_entry. constructor.
    + reflexivity.
    + repeat (constructor; try (vm_compute; reflexivity)).
    + intros i k v b [k' v'] Hi Hb Hin.
      destruct i as [|[|[|[|[|i]]]]]; cbn in Hi, Hb; simplify_eq; set_unfold; destruct_or?; destruct_and?; simplify_eq; vm_compute; done.
    + intros i j k v b [k' v'] Hi Hlt Hb Hin.
      destruct j as [|[|[|[|[|j]]]]]; cbn in Hb; simplify_eq; set_unfold; destruct_or?; destruct_and?; simplify_eq;
        destruct i as [|[|[|[|i]]]]; cbn in Hi; simplify_eq; (lia || (vm_compute; done)).
    + intros i j e f Hi Hj. destruct i as [|[|[|[|[|i]]]]]; cbn in Hi; simplify_eq;
        destruct j as [|[|[|[|[|j]]]]]; cbn in Hj; simplify_eq; done.
    + intros i k v b s Hi Hb. destruct i as [|[|[|[|[|i]]]]]; cbn in Hi, Hb; simplify_eq;
        (do 2 eexists; exists None; split; [vm_compute; reflexivity|]);
        (split_and!; [repeat (constructor; try (vm_compute; reflexivity))|done|done]).
  - vm_compute. lia.
  - split_and!; [repeat (constructor; try (vm_compute; reflexivity))|done|done].
  - repeat constructor.
  - vm_compute. reflexivity.
Defined.
