(* ===== verification/BlockBuilder.v ===== *)
(** * Building a data block
      (BlockBuilder, table/block_based/block_builder.h and .cc;
      data_block_footer.cc; the hash index of data_block_hash_index.h and .cc)

    A block is a sequence of entries with prefix-compressed keys, the array of
    restart points (offsets of entries with a whole key), optionally a hash
    index of the user keys, and a footer. A failed assertion, an access out of
    bounds and an undefined conversion are faults, values of the result type. *)
From Stdlib Require Import SpecFloat.
From S2P Require Import Prelude Result Coding Hash Comparator.

(** ** Internal keys (db/dbformat.h) *)
Class DbFormat := {
  ExtractUserKey : bytes → bytes;
  ExtractValueType : bytes → Z;
  GetInternalKeySeqno : bytes → Z;
  kTypeValue : Z;
  kTypeMerge : Z;
  kTypeDeletion : Z;
  kTypeRangeDeletion : Z;
  kTypeSingleDeletion : Z;
  kTypeBlobIndex : Z;
  kDisableGlobalSequenceNumber : Z;
}.

Section builder.
Context `{Host, Build, DbFormat}.

(** ** The footer *)

Inductive DataBlockIndexType := kDataBlockBinarySearch | kDataBlockBinaryAndHash.

#[local] Abbreviation kDataBlockIndexTypeBitShift := 31 (only parsing).
Definition kMaxNumRestarts : Z := (1 << kDataBlockIndexTypeBitShift) - 1.
Definition kNumRestartsMask : Z := (1 << kDataBlockIndexTypeBitShift) - 1.

Definition PackIndexTypeAndNumRestarts (index_type : DataBlockIndexType) (num_restarts : Z) : R Z :=
  _ ← assert (num_restarts <=? kMaxNumRestarts);
  Done (match index_type with
        | kDataBlockBinaryAndHash => num_restarts .| (1 << kDataBlockIndexTypeBitShift)
        | kDataBlockBinarySearch => num_restarts
        end).

Definition UnPackIndexTypeAndNumRestarts (block_footer : Z) : DataBlockIndexType * Z :=
  (if block_footer .& (1 << kDataBlockIndexTypeBitShift) =? 0
   then kDataBlockBinarySearch else kDataBlockBinaryAndHash,
   block_footer .& kNumRestartsMask).

(** ** The hash index *)

Definition kNoEntry : Z := 255.
Definition kCollision : Z := 254.
Definition kMaxRestartSupportedByHashIndex : Z := 253.
Definition kMaxBlockSizeSupportedByHashIndex : Z := 1 << 16.
(** 0.75 *)
Definition kDefaultUtilRatio : double := S754_finite false 6755399441055744 (-53).

Record DataBlockHashIndexBuilder := mkHashBuilder {
  bucket_per_key_ : double;
  estimated_num_buckets_ : double;
  valid_ : bool;
  hash_and_restart_pairs_ : list (Z * Z);
}.

Definition new_hash_builder : DataBlockHashIndexBuilder :=
  mkHashBuilder (double_of (-1)) zero_double false [].

Definition hash_Initialize (util_ratio : double) (b : DataBlockHashIndexBuilder) : DataBlockHashIndexBuilder :=
  let util_ratio := if double_le util_ratio zero_double then kDefaultUtilRatio else util_ratio in
  mkHashBuilder (double_div (double_of 1) util_ratio) (estimated_num_buckets_ b) true
    (hash_and_restart_pairs_ b).

Definition hash_Valid (b : DataBlockHashIndexBuilder) : bool :=
  valid_ b && double_lt zero_double (bucket_per_key_ b).

Definition hash_Add (key : bytes) (restart_index : Z) (b : DataBlockHashIndexBuilder) : R DataBlockHashIndexBuilder :=
  _ ← assert (hash_Valid b);
  if kMaxRestartSupportedByHashIndex <? restart_index then
    Done (mkHashBuilder (bucket_per_key_ b) (estimated_num_buckets_ b) false (hash_and_restart_pairs_ b))
  else
    Done (mkHashBuilder (bucket_per_key_ b) (double_add (estimated_num_buckets_ b) (bucket_per_key_ b))
            (valid_ b) (hash_and_restart_pairs_ b ++ [(GetSliceHash key, u8 restart_index)])).

Definition fill_bucket (num_buckets : Z) (buckets : bytes) (entry : Z * Z) : bytes :=
  let '(hash_value, restart_index) := entry in
  let buck_idx := Z.to_nat (u16 (hash_value mod num_buckets)) in
  let cur := byte_at buckets buck_idx in
  if cur =? kNoEntry then <[buck_idx := restart_index]> buckets
  else if negb (cur =? restart_index) then <[buck_idx := kCollision]> buckets
  else buckets.

Definition hash_buckets (num_buckets : Z) (pairs : list (Z * Z)) : bytes :=
  foldl (fill_bucket num_buckets) (replicate (Z.to_nat num_buckets) kNoEntry) pairs.

Definition hash_Finish (buffer : bytes) (b : DataBlockHashIndexBuilder) : R bytes :=
  _ ← assert (hash_Valid b);
  num_buckets ← checked Undefined (double_to_uint 16 (estimated_num_buckets_ b));
  let num_buckets := if num_buckets =? 0 then 1 else num_buckets in
  let num_buckets := num_buckets .| 1 in
  let buffer := buffer ++ hash_buckets num_buckets (hash_and_restart_pairs_ b) in
  let buffer := PutFixed16 buffer num_buckets in
  _ ← assert (blen buffer <=? kMaxBlockSizeSupportedByHashIndex);
  Done buffer.

Definition hash_Reset (b : DataBlockHashIndexBuilder) : DataBlockHashIndexBuilder :=
  mkHashBuilder (bucket_per_key_ b) zero_double true [].

Definition hash_EstimateSize (b : DataBlockHashIndexBuilder) : R Z :=
  estimated_num_buckets ← checked Undefined (double_to_uint 16 (estimated_num_buckets_ b));
  let estimated_num_buckets := estimated_num_buckets .| 1 in
  Done (2 + estimated_num_buckets).

(** ** The builder *)

Record BlockBuilder := mkBuilder {
  block_restart_interval_ : Z;
  use_delta_encoding_ : bool;
  use_value_delta_encoding_ : bool;
  buffer_ : bytes;
  restarts_ : list Z;
  estimate_ : Z;
  counter_ : Z;
  finished_ : bool;
  last_key_ : bytes;
  data_block_hash_index_builder_ : DataBlockHashIndexBuilder;
}.

Definition new_BlockBuilder (block_restart_interval : Z) (use_delta_encoding use_value_delta_encoding : bool)
    (index_type : DataBlockIndexType) (data_block_hash_table_util_ratio : double) : R BlockBuilder :=
  let hb := match index_type with
            | kDataBlockBinarySearch => new_hash_builder
            | kDataBlockBinaryAndHash => hash_Initialize data_block_hash_table_util_ratio new_hash_builder
            end in
  _ ← assert (1 <=? block_restart_interval);
  Done (mkBuilder block_restart_interval use_delta_encoding use_value_delta_encoding
          [] [0] (4 + 4) 0 false [] hb).

Definition Reset (b : BlockBuilder) : BlockBuilder :=
  mkBuilder (block_restart_interval_ b) (use_delta_encoding_ b) (use_value_delta_encoding_ b)
    [] [0] (4 + 4) 0 false []
    (let hb := data_block_hash_index_builder_ b in if hash_Valid hb then hash_Reset hb else hb).

(** The contents move into the caller's buffer, whose old contents are
    discarded with the reset. *)
Definition SwapAndReset (b : BlockBuilder) : BlockBuilder * bytes := (Reset b, buffer_ b).

Definition empty (b : BlockBuilder) : bool := bool_decide (buffer_ b = []).

Definition CurrentSizeEstimate (b : BlockBuilder) : R Z :=
  hash_size ← (if hash_Valid (data_block_hash_index_builder_ b)
               then hash_EstimateSize (data_block_hash_index_builder_ b) else Done 0);
  Done (u64 (estimate_ b + hash_size)).

Definition EstimateSizeAfterKV (key value : bytes) (b : BlockBuilder) : R Z :=
  estimate ← CurrentSizeEstimate b;
  let restart := block_restart_interval_ b <=? counter_ b in
  let estimate := u64 (estimate + blen key) in
  let estimate := u64 (estimate + (if negb (use_value_delta_encoding_ b) || restart
                                   then blen value else blen value / 2)) in
  let estimate := if restart then u64 (estimate + 4) else estimate in
  let estimate := u64 (estimate + 4) in
  let estimate := u64 (estimate + VarintLength (blen key)) in
  Done (if negb (use_value_delta_encoding_ b) || restart
        then u64 (estimate + VarintLength (blen value)) else estimate).

Definition Finish (b : BlockBuilder) : R (BlockBuilder * bytes) :=
  let buffer := foldl PutFixed32 (buffer_ b) (restarts_ b) in
  let num_restarts := u32 (Z.of_nat (length (restarts_ b))) in
  use_hash ← (if hash_Valid (data_block_hash_index_builder_ b) then
                size ← CurrentSizeEstimate b;
                Done (size <=? kMaxBlockSizeSupportedByHashIndex)
              else Done false);
  '(buffer, index_type) ← (if use_hash : bool then
      buffer ← hash_Finish buffer (data_block_hash_index_builder_ b);
      Done (buffer, kDataBlockBinaryAndHash)
    else Done (buffer, kDataBlockBinarySearch));
  block_footer ← PackIndexTypeAndNumRestarts index_type num_restarts;
  let buffer := PutFixed32 buffer block_footer in
  Done (mkBuilder (block_restart_interval_ b) (use_delta_encoding_ b) (use_value_delta_encoding_ b)
          buffer (restarts_ b) (estimate_ b) (counter_ b) true (last_key_ b)
          (data_block_hash_index_builder_ b), buffer).

(** Restart or delta: the restart points, the estimate, the counter, the last
    key, and how many bytes the key shares with the last one. *)
Definition Add_prefix (key : bytes) (b : BlockBuilder) : list Z * Z * Z * bytes * Z :=
  if block_restart_interval_ b <=? counter_ b then
    (restarts_ b ++ [u32 (blen (buffer_ b))], u64 (estimate_ b + 4), 0,
     if use_delta_encoding_ b then key else last_key_ b, 0)
  else if use_delta_encoding_ b then
    (restarts_ b, estimate_ b, counter_ b, key, Z.of_nat (difference_offset key (last_key_ b)))
  else (restarts_ b, estimate_ b, counter_ b, last_key_ b, 0).

Definition Add (key value : bytes) (delta_value : option bytes) (b : BlockBuilder) : R BlockBuilder :=
  _ ← assert (negb (finished_ b));
  _ ← assert (counter_ b <=? block_restart_interval_ b);
  _ ← assert (negb (use_value_delta_encoding_ b) || bool_decide (is_Some delta_value));
  let '(restarts, estimate, counter, last_key, shared) := Add_prefix key b in
  let non_shared := blen key - shared in
  let curr_size := blen (buffer_ b) in
  let buffer := if use_value_delta_encoding_ b
    then PutVarint32Varint32 (buffer_ b) (u32 shared) (u32 non_shared)
    else PutVarint32Varint32Varint32 (buffer_ b) (u32 shared) (u32 non_shared) (u32 (blen value)) in
  let buffer := buffer ++ drop (Z.to_nat shared) key in
  buffer ← (if negb (shared =? 0) && use_value_delta_encoding_ b then
              delta ← checked Undefined delta_value; Done (buffer ++ delta)
            else Done (buffer ++ value));
  let hb := data_block_hash_index_builder_ b in
  hb ← (if hash_Valid hb
        then hash_Add (ExtractUserKey key) (Z.of_nat (length restarts) - 1) hb else Done hb);
  Done (mkBuilder (block_restart_interval_ b) (use_delta_encoding_ b) (use_value_delta_encoding_ b)
          buffer restarts (u64 (estimate + (blen buffer - curr_size))) (counter + 1) (finished_ b) last_key hb).
End builder.
