(* ===== verification/Block.v ===== *)
(** * Reading a data block (Block and DataBlockIter, table/block_based/block.h
      and block.cc)

    The constructor that finds the restart array, and the iterator: decoding of
    entries, binary search among the restart points, forward and backward
    steps with the cache of previous entries, lookup through the hash index.
    Statistics (the read-amplification bitmap, timers) are left out. *)
From S2P Require Import Prelude Result Status Coding Hash BlockBuilder.

(** ** Slices and keys *)

(** A pointer into the block is an offset; a pointer to other memory (a key's
    own buffer, the buffer of cached keys) is the bytes found there. *)
Inductive Ptr := InBlock (off : Z) | Mem (m : bytes).
Record Slice := mkSlice { s_ptr : Ptr; s_size : Z }.

Definition slice_read (data : bytes) (s : Slice) : R bytes :=
  match s_ptr s with
  | InBlock off =>
      _ ← require OutOfBounds ((0 <=? off) && (off + s_size s <=? blen data));
      Done (take (Z.to_nat (s_size s)) (drop (Z.to_nat off) data))
  | Mem m =>
      _ ← require OutOfBounds (s_size s <=? blen m);
      Done (take (Z.to_nat (s_size s)) m)
  end.

(** IterKey (db/dbformat.h): a key kept in a buffer of its own or pinned
    elsewhere. [TrimAppend] is given the bytes of the key it keeps and those it
    appends: it copies both. *)
Class IterKey (K : Type) := {
  key_init : K;
  Clear : K → K;
  SetKey : K → Slice → K;
  TrimAppend : K → bytes → bytes → K;
  Size : K → Z;
  GetKey : K → Slice;
  GetInternalKey : K → Slice;
  GetUserKey : K → Slice;
  IsKeyPinned : K → bool;
  OwnKey : K → K;
  UpdateInternalKey : K → Z → Z → K;
}.

Record CachedPrevEntry := mkCached {
  offset : Z;
  key_ptr : option Ptr;
  key_offset : Z;
  key_size : Z;
  cached_value : Slice;
}.

Section iter.
Context {K : Type} `{Host, Build, DbFormat, IterKey K}.
(** The comparator of the keys and that of their user keys. *)
Variables compare user_compare : bytes → bytes → Z.

Record DataBlockIter := mkIter {
  data_ : option bytes;
  num_restarts_ : Z;
  restart_index_ : Z;
  iter_restarts_ : Z;
  current_ : Z;
  key_ : K;
  value_ : Slice;
  status_ : Status;
  key_pinned_ : bool;
  block_contents_pinned_ : bool;
  global_seqno_ : Z;
  prev_entries_keys_buff_ : bytes;
  prev_entries_ : list CachedPrevEntry;
  prev_entries_idx_ : Z;
  data_block_hash_index_ : option Z;
}.

Definition set_pos (current restart_index : Z) (it : DataBlockIter) : DataBlockIter :=
  mkIter (data_ it) (num_restarts_ it) restart_index (iter_restarts_ it) current (key_ it) (value_ it)
    (status_ it) (key_pinned_ it) (block_contents_pinned_ it) (global_seqno_ it)
    (prev_entries_keys_buff_ it) (prev_entries_ it) (prev_entries_idx_ it) (data_block_hash_index_ it).
Definition set_key (k : K) (pinned : bool) (it : DataBlockIter) : DataBlockIter :=
  mkIter (data_ it) (num_restarts_ it) (restart_index_ it) (iter_restarts_ it) (current_ it) k (value_ it)
    (status_ it) pinned (block_contents_pinned_ it) (global_seqno_ it)
    (prev_entries_keys_buff_ it) (prev_entries_ it) (prev_entries_idx_ it) (data_block_hash_index_ it).
Definition set_value (v : Slice) (it : DataBlockIter) : DataBlockIter :=
  mkIter (data_ it) (num_restarts_ it) (restart_index_ it) (iter_restarts_ it) (current_ it) (key_ it) v
    (status_ it) (key_pinned_ it) (block_contents_pinned_ it) (global_seqno_ it)
    (prev_entries_keys_buff_ it) (prev_entries_ it) (prev_entries_idx_ it) (data_block_hash_index_ it).
Definition set_status (s : Status) (it : DataBlockIter) : DataBlockIter :=
  mkIter (data_ it) (num_restarts_ it) (restart_index_ it) (iter_restarts_ it) (current_ it) (key_ it)
    (value_ it) s (key_pinned_ it) (block_contents_pinned_ it) (global_seqno_ it)
    (prev_entries_keys_buff_ it) (prev_entries_ it) (prev_entries_idx_ it) (data_block_hash_index_ it).
Definition set_cache (buff : bytes) (entries : list CachedPrevEntry) (idx : Z) (it : DataBlockIter) : DataBlockIter :=
  mkIter (data_ it) (num_restarts_ it) (restart_index_ it) (iter_restarts_ it) (current_ it) (key_ it)
    (value_ it) (status_ it) (key_pinned_ it) (block_contents_pinned_ it) (global_seqno_ it)
    buff entries idx (data_block_hash_index_ it).

(** ** Decoding an entry *)

(** The lengths at [p], one byte each or as varints that end before [limit],
    and the position after them; [None] is the null pointer. *)
Definition decode_lengths (data : bytes) (p limit : Z) : R (option (Z * Z * Z * Z)) :=
  _ ← require OutOfBounds ((0 <=? p) && (p + 3 <=? blen data));
  let q := drop (Z.to_nat p) data in
  let shared := byte_at q 0 in
  let non_shared := byte_at q 1 in
  let value_length := byte_at q 2 in
  if (shared .| non_shared .| value_length) <? 128 then
    Done (Some (p + 3, shared, non_shared, value_length))
  else
    let range := take (Z.to_nat (limit - p)) q in
    Done ('(shared, r) ← GetVarint32Ptr range;
          '(non_shared, r) ← GetVarint32Ptr r;
          '(value_length, r) ← GetVarint32Ptr r;
          Some (p + (blen range - blen r), shared, non_shared, value_length)).

Definition DecodeEntry (data : bytes) (p limit : Z) : R (option (Z * Z * Z * Z)) :=
  _ ← assert (3 <=? limit - p);
  r ← decode_lengths data p limit;
  match r with
  | None => Done None
  | Some (p, shared, non_shared, value_length) =>
      _ ← assert (negb (u32 (limit - p) <? u32 (non_shared + value_length)));
      Done (Some (p, shared, non_shared, value_length))
  end.

Definition CheckAndDecodeEntry (data : bytes) (p limit : Z) : R (option (Z * Z * Z * Z)) :=
  if limit - p <? 3 then Done None else
  r ← decode_lengths data p limit;
  match r with
  | None => Done None
  | Some (p, shared, non_shared, value_length) =>
      Done (if u32 (limit - p) <? u32 (non_shared + value_length) then None
            else Some (p, shared, non_shared, value_length))
  end.

Definition DecodeKey (data : bytes) (p limit : Z) : R (option (Z * Z * Z)) :=
  r ← DecodeEntry data p limit;
  Done ('(p, shared, non_shared, _) ← r; Some (p, shared, non_shared)).

(** ** Positions *)

Definition block_data (it : DataBlockIter) : R bytes := checked OutOfBounds (data_ it).

Definition Valid (it : DataBlockIter) : bool := current_ it <? iter_restarts_ it.

Definition key (it : DataBlockIter) : R Slice :=
  _ ← assert (Valid it); Done (GetKey (key_ it)).
Definition value (it : DataBlockIter) : R Slice :=
  _ ← assert (Valid it); Done (value_ it).

(** A pointer outside the block has no offset in it. *)
Definition NextEntryOffset (it : DataBlockIter) : R Z :=
  match s_ptr (value_ it) with
  | InBlock off => Done (u32 (off + s_size (value_ it)))
  | Mem _ => Fault Undefined
  end.

Definition GetRestartPoint (index : Z) (it : DataBlockIter) : R Z :=
  _ ← assert (index <? num_restarts_ it);
  data ← block_data it;
  let off := iter_restarts_ it + index * 4 in
  _ ← require OutOfBounds ((0 <=? off) && (off + 4 <=? blen data));
  Done (DecodeFixed32 (drop (Z.to_nat off) data)).

Definition SeekToRestartPoint (index : Z) (it : DataBlockIter) : R DataBlockIter :=
  let it := set_pos (current_ it) index (set_key (Clear (key_ it)) (key_pinned_ it) it) in
  offset ← GetRestartPoint index it;
  Done (set_value (mkSlice (InBlock offset) 0) it).

Definition CorruptionError (it : DataBlockIter) : DataBlockIter :=
  set_value (mkSlice (Mem []) 0)
    (set_key (Clear (key_ it)) (key_pinned_ it)
       (set_status (Corruption (str "bad entry in block"))
          (set_pos (iter_restarts_ it) (num_restarts_ it) it))).

(** [while (restart_index_ + 1 < num_restarts_ && ...) ++restart_index_;] *)
Fixpoint advance_restart (fuel : nat) (it : DataBlockIter) : R DataBlockIter :=
  match fuel with
  | O => Fault OutOfFuel
  | S fuel' =>
      if u32 (restart_index_ it + 1) <? num_restarts_ it then
        next ← GetRestartPoint (u32 (restart_index_ it + 1)) it;
        if next <? current_ it
        then advance_restart fuel' (set_pos (current_ it) (u32 (restart_index_ it + 1)) it)
        else Done it
      else Done it
  end.

(** Enough for every loop over a block: each round reads other bytes of it. *)
Definition loop_fuel (it : DataBlockIter) : nat := S (length (default [] (data_ it))).

(** A key that shares nothing is pinned in the block, another one put together. *)
Definition load_key (data : bytes) (p shared non_shared : Z) (it : DataBlockIter) : R DataBlockIter :=
  if shared =? 0 then
    Done (set_key (SetKey (key_ it) (mkSlice (InBlock p) non_shared)) true it)
  else
    kept ← slice_read data (mkSlice (s_ptr (GetKey (key_ it))) shared);
    delta ← slice_read data (mkSlice (InBlock p) non_shared);
    Done (set_key (TrimAppend (key_ it) kept delta) false it).

(** With a global sequence number the key is rewritten to carry it. *)
Definition rewrite_seqno (data : bytes) (it : DataBlockIter) : R DataBlockIter :=
  if global_seqno_ it =? kDisableGlobalSequenceNumber then Done it else
  ikey ← slice_read data (GetInternalKey (key_ it));
  _ ← assert (GetInternalKeySeqno ikey =? 0);
  k ← slice_read data (GetKey (key_ it));
  let value_type := ExtractValueType k in
  _ ← assert ((value_type =? kTypeValue) || (value_type =? kTypeMerge) ||
              (value_type =? kTypeDeletion) || (value_type =? kTypeRangeDeletion));
  let it := if key_pinned_ it then set_key (OwnKey (key_ it)) false it else it in
  Done (set_key (UpdateInternalKey (key_ it) (global_seqno_ it) value_type) (key_pinned_ it) it).

#[local] Abbreviation Decoder := (bytes → Z → Z → R (option (Z * Z * Z * Z))) (only parsing).

Definition ParseNextDataKey (decode : Decoder) (limit : option Z) (it : DataBlockIter) : R (DataBlockIter * bool) :=
  cur ← NextEntryOffset it;
  let it := set_pos cur (restart_index_ it) it in
  data ← block_data it;
  let p := current_ it in
  let limit := default (iter_restarts_ it) limit in
  if limit <=? p then
    Done (set_pos (iter_restarts_ it) (num_restarts_ it) it, false)
  else
    entry ← decode data p limit;
    match entry with
    | None => Done (CorruptionError it, false)
    | Some (p, shared, non_shared, value_length) =>
        if Size (key_ it) <? shared then Done (CorruptionError it, false) else
        it ← load_key data p shared non_shared it;
        it ← rewrite_seqno data it;
        let it := set_value (mkSlice (InBlock (p + non_shared)) value_length) it in
        it ← (if shared =? 0 then advance_restart (loop_fuel it) it else Done it);
        Done (it, true)
    end.

(** ** Steps *)

Definition Next (it : DataBlockIter) : R DataBlockIter :=
  _ ← assert (Valid it);
  r ← ParseNextDataKey DecodeEntry None it; Done (fst r).
Definition NextOrReport (it : DataBlockIter) : R DataBlockIter :=
  _ ← assert (Valid it);
  r ← ParseNextDataKey CheckAndDecodeEntry None it; Done (fst r).

(** Scan backwards to a restart point before [original]; [false] when there is
    none and the iterator was made invalid. *)
Fixpoint scan_back (fuel : nat) (original : Z) (it : DataBlockIter) : R (DataBlockIter * bool) :=
  match fuel with
  | O => Fault OutOfFuel
  | S fuel' =>
      r ← GetRestartPoint (restart_index_ it) it;
      if original <=? r then
        if restart_index_ it =? 0 then
          Done (set_pos (iter_restarts_ it) (num_restarts_ it) it, false)
        else scan_back fuel' original (set_pos (current_ it) (restart_index_ it - 1) it)
      else Done (it, true)
  end.

Definition cache_entry (it : DataBlockIter) : R DataBlockIter :=
  current_key ← key it;
  v ← value it;
  data ← block_data it;
  if IsKeyPinned (key_ it) then
    Done (set_cache (prev_entries_keys_buff_ it)
            (prev_entries_ it ++ [mkCached (current_ it) (Some (s_ptr current_key)) 0 (s_size current_key) v])
            (prev_entries_idx_ it) it)
  else
    let new_key_offset := blen (prev_entries_keys_buff_ it) in
    k ← slice_read data current_key;
    Done (set_cache (prev_entries_keys_buff_ it ++ k)
            (prev_entries_ it ++ [mkCached (current_ it) None new_key_offset (s_size current_key) v])
            (prev_entries_idx_ it) it).

(** [do ... while (NextEntryOffset() < original)] *)
Fixpoint cache_loop (fuel : nat) (original : Z) (it : DataBlockIter) : R DataBlockIter :=
  match fuel with
  | O => Fault OutOfFuel
  | S fuel' =>
      '(it, more) ← ParseNextDataKey DecodeEntry None it;
      if negb more then Done it else
      it ← cache_entry it;
      next ← NextEntryOffset it;
      if next <? original then cache_loop fuel' original it else Done it
  end.

(** The entry before a cached one is read from the cache. *)
Definition cached_key (e : CachedPrevEntry) (it : DataBlockIter) : Ptr * bool :=
  match key_ptr e with
  | Some p => (p, true)
  | None => (Mem (drop (Z.to_nat (key_offset e)) (prev_entries_keys_buff_ it)), false)
  end.

Definition Prev_scan (it : DataBlockIter) : R DataBlockIter :=
  let it := set_cache [] [] (-1) it in
  let original := current_ it in
  '(it, found) ← scan_back (loop_fuel it) original it;
  if negb found then Done it else
  it ← SeekToRestartPoint (restart_index_ it) it;
  it ← cache_loop (loop_fuel it) original it;
  Done (set_cache (prev_entries_keys_buff_ it) (prev_entries_ it)
          (to_signed 32 (u32 (Z.of_nat (length (prev_entries_ it)))) - 1) it).

Definition Prev (it : DataBlockIter) : R DataBlockIter :=
  _ ← assert (Valid it);
  let idx := prev_entries_idx_ it in
  _ ← assert ((idx =? -1) || (u64 idx <? Z.of_nat (length (prev_entries_ it))));
  if 0 <? idx then
    e ← checked OutOfBounds (prev_entries_ it !! Z.to_nat idx);
    if offset e =? current_ it then
      let it := set_cache (prev_entries_keys_buff_ it) (prev_entries_ it) (idx - 1) it in
      current_prev_entry ← checked OutOfBounds (prev_entries_ it !! Z.to_nat (idx - 1));
      let '(key_ptr, pinned) := cached_key current_prev_entry it in
      let current_key := mkSlice key_ptr (key_size current_prev_entry) in
      let it := set_pos (offset current_prev_entry) (restart_index_ it) it in
      let it := set_key (SetKey (key_ it) current_key) pinned it in
      Done (set_value (cached_value current_prev_entry) it)
    else Prev_scan it
  else Prev_scan it.

(** ** Seeks *)

(** The comparison of the iterator's key with a target. *)
Definition Compare (it : DataBlockIter) (target : bytes) : R Z :=
  data ← block_data it;
  k ← slice_read data (GetInternalKey (key_ it));
  Done (compare k target).

Fixpoint BinarySeek_loop (fuel : nat) (target : bytes) (left right : Z) (it : DataBlockIter)
    : R (DataBlockIter * option Z) :=
  match fuel with
  | O => Fault OutOfFuel
  | S fuel' =>
      if left <? right then
        let mid := u32 (left + right + 1) / 2 in
        region_offset ← GetRestartPoint mid it;
        data ← block_data it;
        r ← DecodeKey data region_offset (iter_restarts_ it);
        match r with
        | None => Done (CorruptionError it, None)
        | Some (key_ptr, shared, non_shared) =>
            if negb (shared =? 0) then Done (CorruptionError it, None) else
            mid_key ← slice_read data (mkSlice (InBlock key_ptr) non_shared);
            let cmp := compare mid_key target in
            if cmp <? 0 then BinarySeek_loop fuel' target mid right it
            else if 0 <? cmp then BinarySeek_loop fuel' target left (u32 (mid - 1)) it
            else BinarySeek_loop fuel' target mid mid it
        end
      else Done (it, Some left)
  end.
(** A round halves a range below 2^32. *)
Definition BinarySeek (target : bytes) (left right : Z) (it : DataBlockIter) : R (DataBlockIter * option Z) :=
  _ ← assert (left <=? right);
  BinarySeek_loop 33 target left right it.

(** [while (ParseNextDataKey() && Compare(key_, target) < 0)] *)
Fixpoint seek_linear (fuel : nat) (limit : option Z) (target : bytes) (it : DataBlockIter) : R DataBlockIter :=
  match fuel with
  | O => Fault OutOfFuel
  | S fuel' =>
      '(it, more) ← ParseNextDataKey DecodeEntry limit it;
      if negb more then Done it else
      cmp ← Compare it target;
      if cmp <? 0 then seek_linear fuel' limit target it else Done it
  end.

Definition Seek (target : bytes) (it : DataBlockIter) : R DataBlockIter :=
  if bool_decide (data_ it = None) then Done it else
  '(it, index) ← BinarySeek target 0 (u32 (num_restarts_ it - 1)) it;
  match index with
  | None => Done it
  | Some index => it ← SeekToRestartPoint index it; seek_linear (loop_fuel it) None target it
  end.

Definition SeekToFirst (it : DataBlockIter) : R DataBlockIter :=
  if bool_decide (data_ it = None) then Done it else
  it ← SeekToRestartPoint 0 it; r ← ParseNextDataKey DecodeEntry None it; Done (fst r).
Definition SeekToFirstOrReport (it : DataBlockIter) : R DataBlockIter :=
  if bool_decide (data_ it = None) then Done it else
  it ← SeekToRestartPoint 0 it; r ← ParseNextDataKey CheckAndDecodeEntry None it; Done (fst r).

Fixpoint skip_to_last (fuel : nat) (it : DataBlockIter) : R DataBlockIter :=
  match fuel with
  | O => Fault OutOfFuel
  | S fuel' =>
      '(it, more) ← ParseNextDataKey DecodeEntry None it;
      if negb more then Done it else
      next ← NextEntryOffset it;
      if next <? iter_restarts_ it then skip_to_last fuel' it else Done it
  end.
Definition SeekToLast (it : DataBlockIter) : R DataBlockIter :=
  if bool_decide (data_ it = None) then Done it else
  it ← SeekToRestartPoint (u32 (num_restarts_ it - 1)) it; skip_to_last (loop_fuel it) it.

Fixpoint prev_while_greater (fuel : nat) (target : bytes) (it : DataBlockIter) : R DataBlockIter :=
  match fuel with
  | O => Fault OutOfFuel
  | S fuel' =>
      if Valid it then
        cmp ← Compare it target;
        if 0 <? cmp then it ← Prev it; prev_while_greater fuel' target it else Done it
      else Done it
  end.
Definition SeekForPrev (target : bytes) (it : DataBlockIter) : R DataBlockIter :=
  if bool_decide (data_ it = None) then Done it else
  '(it, index) ← BinarySeek target 0 (u32 (num_restarts_ it - 1)) it;
  match index with
  | None => Done it
  | Some index =>
      it ← SeekToRestartPoint index it;
      it ← seek_linear (loop_fuel it) None target it;
      if negb (Valid it) then SeekToLast it else prev_while_greater (loop_fuel it) target it
  end.

(** ** Point lookup through the hash index *)

Definition hash_Lookup (num_buckets : Z) (data : bytes) (map_offset : Z) (key : bytes) : R Z :=
  let idx := u16 (GetSliceHash key mod num_buckets) in
  _ ← require OutOfBounds ((0 <=? map_offset + idx) && (map_offset + idx <? blen data));
  Done (byte_at data (Z.to_nat (map_offset + idx))).

(** The linear search of one restart interval. *)
Definition interval_search (data : bytes) (restart_index : Z) (target : bytes) (it : DataBlockIter)
    : R (DataBlockIter * bool) :=
  let target_user_key := ExtractUserKey target in
  it ← SeekToRestartPoint restart_index it;
  limit ← (if u32 (restart_index_ it + 1) <? num_restarts_ it
           then GetRestartPoint (u32 (restart_index_ it + 1)) it
           else Done (iter_restarts_ it));
  it ← seek_linear (loop_fuel it) (Some limit) target it;
  if current_ it =? iter_restarts_ it then Done (it, true) else
  user_key ← slice_read data (GetUserKey (key_ it));
  if negb (user_compare user_key target_user_key =? 0) then Done (it, false) else
  k ← slice_read data (GetKey (key_ it));
  let value_type := ExtractValueType k in
  if negb (value_type =? kTypeValue) && negb (value_type =? kTypeDeletion) &&
     negb (value_type =? kTypeSingleDeletion) && negb (value_type =? kTypeBlobIndex)
  then it ← Seek target it; Done (it, true)
  else Done (it, true).

Definition SeekForGetImpl (num_buckets : Z) (target : bytes) (it : DataBlockIter) : R (DataBlockIter * bool) :=
  let map_offset := u32 (iter_restarts_ it + num_restarts_ it * 4) in
  data ← block_data it;
  entry ← hash_Lookup num_buckets data map_offset (ExtractUserKey target);
  if entry =? kCollision then it ← Seek target it; Done (it, true) else
  let restart_index := if entry =? kNoEntry then u8 (num_restarts_ it - 1) else entry in
  _ ← assert (restart_index <? num_restarts_ it);
  interval_search data restart_index target it.

Definition SeekForGet (target : bytes) (it : DataBlockIter) : R (DataBlockIter * bool) :=
  match data_block_hash_index_ it with
  | None => it ← Seek target it; Done (it, true)
  | Some num_buckets => SeekForGetImpl num_buckets target it
  end.

(** ** The block *)

Record Block := mkBlock {
  contents_ : bytes;
  size_ : Z;
  restart_offset_ : Z;
  block_num_restarts_ : Z;
  num_buckets_ : Z;
}.

Definition block_footer (data : bytes) : Z := DecodeFixed32 (drop (length data - 4) data).

Definition NumRestarts (data : bytes) (size : Z) : R Z :=
  _ ← assert (2 * 4 <=? size);
  let block_footer := block_footer data in
  Done (if kMaxBlockSizeSupportedByHashIndex <? size then block_footer
        else snd (UnPackIndexTypeAndNumRestarts block_footer)).
Definition IndexType (data : bytes) (size : Z) : R DataBlockIndexType :=
  _ ← assert (2 * 4 <=? size);
  Done (if kMaxBlockSizeSupportedByHashIndex <? size then kDataBlockBinarySearch
        else fst (UnPackIndexTypeAndNumRestarts (block_footer data))).

(** [DataBlockHashIndex::Initialize]: the number of buckets and the offset of
    the buckets. *)
Definition hash_index_Initialize (data : bytes) (size : Z) : R (Z * Z) :=
  _ ← assert (2 <=? size);
  let num_buckets := DecodeFixed16 (drop (Z.to_nat (size - 2)) data) in
  _ ← assert (0 <? num_buckets);
  _ ← assert (num_buckets <? size);
  Done (num_buckets, u16 (size - 2 - num_buckets)).

Definition new_Block (contents : bytes) : R Block :=
  let size := blen contents in
  if size <? 4 then Done (mkBlock contents 0 0 0 0) else
  num_restarts ← NumRestarts contents size;
  index_type ← IndexType contents size;
  match index_type with
  | kDataBlockBinarySearch =>
      let restart_offset := u32 (u32 size - u32 (1 + num_restarts) * 4) in
      Done (mkBlock contents (if size - 4 <? restart_offset then 0 else size)
              restart_offset num_restarts 0)
  | kDataBlockBinaryAndHash =>
      if size <? 4 + 2 then Done (mkBlock contents 0 0 num_restarts 0) else
      '(num_buckets, map_offset) ← hash_index_Initialize contents (u16 (size - 4));
      let restart_offset := u32 (map_offset - num_restarts * 4) in
      Done (mkBlock contents (if map_offset <? restart_offset then 0 else size)
              restart_offset num_restarts num_buckets)
  end.

Definition fresh_iter : DataBlockIter :=
  mkIter None 0 0 0 0 key_init (mkSlice (Mem []) 0) OK false false 0 [] [] (-1) None.

Definition Invalidate (s : Status) (it : DataBlockIter) : DataBlockIter :=
  mkIter None (num_restarts_ it) (restart_index_ it) (iter_restarts_ it) (iter_restarts_ it) (key_ it)
    (value_ it) s (key_pinned_ it) (block_contents_pinned_ it) (global_seqno_ it)
    [] [] (-1) (data_block_hash_index_ it).

Definition Initialize (data : bytes) (restarts num_restarts global_seqno : Z) (block_contents_pinned : bool)
    (hash_index : option Z) (it : DataBlockIter) : R DataBlockIter :=
  _ ← assert (bool_decide (data_ it = None));
  _ ← assert (0 <? num_restarts);
  Done (mkIter (Some data) num_restarts num_restarts restarts restarts (key_ it) (value_ it) (status_ it)
          (key_pinned_ it) block_contents_pinned global_seqno
          (prev_entries_keys_buff_ it) (prev_entries_ it) (prev_entries_idx_ it) hash_index).

Definition NewDataIterator (global_seqno : Z) (iter : option DataBlockIter) (block_contents_pinned : bool)
    (b : Block) : R DataBlockIter :=
  let ret_iter := default fresh_iter iter in
  if size_ b <? 2 * 4 then Done (Invalidate (Corruption (str "bad block contents")) ret_iter)
  else if block_num_restarts_ b =? 0 then Done (Invalidate OK ret_iter)
  else Initialize (contents_ b) (restart_offset_ b) (block_num_restarts_ b) global_seqno
         block_contents_pinned (if num_buckets_ b =? 0 then None else Some (num_buckets_ b)) ret_iter.
End iter.
