(* ===== verification/BlockLayout.v ===== *)
(** * The format of a data block

    [layout]: the bytes of a block as its entries, restart array and what
    follows. It is what BlockBuilder writes and what DataBlockIter reads: the
    iterator's theorems are about any block with a layout. *)
From S2P Require Import Prelude Result Status Coding Hash BlockBuilder Block.

(** ** Reading encoded integers *)

Lemma EncodeVarint32_small v : 0 ≤ v < 128 → EncodeVarint32 v = [v].
Proof.
  intros Hv. unfold EncodeVarint32. destruct (Z.ltb_spec v (1 << 7)) as [|Hge]; [|].
  - f_equal. apply wrap_small. split; [lia|]. change (2 ^ 8) with 256. lia.
  - change (1 << 7) with 128 in Hge. lia.
Qed.
Lemma EncodeVarint32_large v : in_range 32 v → 128 ≤ v → ∃ b l, EncodeVarint32 v = b :: l ∧ 128 ≤ b.
Proof.
  intros Hr Hv. rewrite EncodeVarint32_loop by done. unfold EncodeVarint64, kMaxVarint64Length.
  rewrite EncodeVarint64_loop_more by done. eexists _, _. split; [done|].
  rewrite (cont_byte_write v), (cont_byte v). pose proof (low7_range v) as [? _]. lia.
Qed.
Lemma EncodeVarint32_length v : (1 ≤ length (EncodeVarint32 v) ≤ 5)%nat.
Proof. unfold EncodeVarint32. repeat case_match; simpl; lia. Qed.

Lemma lor_lt_128 a b c : 0 ≤ a → 0 ≤ b → 0 ≤ c → (a .| b .| c <? 128) = ((a <? 128) && (b <? 128) && (c <? 128)).
Proof.
  intros Ha Hb Hc.
  assert (∀ x y, 0 ≤ x → 0 ≤ y → (x .| y < 128 ↔ x < 128 ∧ y < 128)) as Hor.
  { intros x y Hx Hy. split.
    - intros Hlt. assert (∀ z, 0 ≤ z → (z < 128 ↔ Z.log2 z < 7)) as Hlog.
      { intros z Hz. destruct (decide (z = 0)) as [->|]; [done|]. apply (Z.log2_lt_pow2 z 7). lia. }
      apply Hlog in Hlt; [|by apply Z.lor_nonneg]. rewrite Z.log2_lor in Hlt by done.
      rewrite !Hlog by done. lia.
    - intros [Hx1 Hy1]. apply (lor_range 7 x y); unfold in_range; lia. }
  pose proof (Hor (a .| b) c) as H1. pose proof (Hor a b) as H2.
  assert (0 ≤ a .| b) by by apply Z.lor_nonneg.
  destruct (Z.ltb_spec (a .| b .| c) 128), (Z.ltb_spec a 128), (Z.ltb_spec b 128), (Z.ltb_spec c 128); try done;
    exfalso; naive_solver lia.
Qed.

(** ** The three lengths before an entry *)

Definition enc_lengths (shared non_shared value_length : Z) : bytes :=
  EncodeVarint32 shared ++ EncodeVarint32 non_shared ++ EncodeVarint32 value_length.

Lemma length_enc_lengths a b c : (3 ≤ length (enc_lengths a b c) ≤ 15)%nat.
Proof.
  unfold enc_lengths. rewrite !length_app.
  pose proof (EncodeVarint32_length a). pose proof (EncodeVarint32_length b).
  pose proof (EncodeVarint32_length c). lia.
Qed.

Lemma byte_at_nonneg s i : bytes_ok s → 0 ≤ byte_at s i.
Proof.
  intros Hs. unfold byte_at. destruct (s !! i) as [b|] eqn:E; [|done]. simpl.
  eapply Forall_lookup_1 in Hs; [|done]. apply Hs.
Qed.
Lemma enc_lengths_ok a b c : bytes_ok (enc_lengths a b c).
Proof. unfold enc_lengths. rewrite !bytes_ok_app. auto using EncodeVarint32_ok. Qed.

(** The one-byte reading is chosen exactly when all three fit in one byte. *)
Lemma byte_at_enc v s : in_range 32 v → (byte_at (EncodeVarint32 v ++ s) 0 <? 128) = (v <? 128).
Proof.
  intros Hv. destruct (Z.ltb_spec v 128).
  - rewrite EncodeVarint32_small by (unfold in_range in Hv; lia). by apply Z.ltb_lt.
  - destruct (EncodeVarint32_large v) as (x & l & -> & ?); [done|lia|]. by apply Z.ltb_ge.
Qed.
Lemma fast_path_iff a b c rest :
  in_range 32 a → in_range 32 b → in_range 32 c →
  let q := enc_lengths a b c ++ rest in
  (byte_at q 0 .| byte_at q 1 .| byte_at q 2 <? 128) = ((a <? 128) && (b <? 128) && (c <? 128)).
Proof.
  intros Ha Hb Hc q.
  assert (∀ i, (i < 3)%nat → 0 ≤ byte_at q i) as Hpos.
  { intros i Hi. unfold q. rewrite byte_at_app_l by (pose proof (length_enc_lengths a b c); lia).
    apply byte_at_nonneg, enc_lengths_ok. }
  rewrite lor_lt_128 by (apply Hpos; lia).
  unfold q, enc_lengths in *. rewrite <- !app_assoc, byte_at_enc by done.
  destruct (Z.ltb_spec a 128); [|done].
  rewrite (EncodeVarint32_small a) by (unfold in_range in Ha; lia).
  change (byte_at ([a] ++ ?s) 1) with (byte_at s 0). change (byte_at ([a] ++ ?s) 2) with (byte_at s 1).
  rewrite byte_at_enc by done. destruct (Z.ltb_spec b 128); [|done].
  rewrite (EncodeVarint32_small b) by (unfold in_range in Hb; lia).
  change (byte_at ([b] ++ ?s) 1) with (byte_at s 0). by rewrite byte_at_enc.
Qed.

(** Pieces of the block, by offset. *)
Lemma drop_pre {A} (pre rest : list A) n : n = length pre → drop n (pre ++ rest) = rest.
Proof. intros ->. apply drop_app_length. Qed.

Lemma decode_lengths_enc pre rest a b c p limit :
  in_range 32 a → in_range 32 b → in_range 32 c →
  p = blen pre → p + blen (enc_lengths a b c) ≤ limit ≤ blen (pre ++ enc_lengths a b c ++ rest) →
  decode_lengths (pre ++ enc_lengths a b c ++ rest) p limit =
    Done (Some (p + blen (enc_lengths a b c), a, b, c)).
Proof.
  intros Ha Hb Hc -> Hl. unfold decode_lengths.
  pose proof (length_enc_lengths a b c) as Hlen.
  unfold blen in *. rewrite !length_app in *.
  replace ((0 <=? Z.of_nat (length pre)) && _) with true by
    (symmetry; apply andb_true_iff; rewrite !Z.leb_le; rewrite Nat2Z.inj_add; lia).
  cbn [require mbind R_bind]. rewrite Nat2Z.id, drop_app_length, (fast_path_iff a b c rest) by done.
  destruct ((a <? 128) && (b <? 128) && (c <? 128)) eqn:Hs.
  - bool_hyps. unfold enc_lengths. unfold in_range in *. rewrite !EncodeVarint32_small by lia. done.
  - clear Hs. rewrite take_app_ge by lia. set (rest' := take _ rest).
    unfold enc_lengths. rewrite <- !app_assoc.
    pose proof (GetVarint32_encode a (EncodeVarint32 b ++ EncodeVarint32 c ++ rest') Ha) as E1.
    pose proof (GetVarint32_encode b (EncodeVarint32 c ++ rest') Hb) as E2.
    pose proof (GetVarint32_encode c rest' Hc) as E3. unfold GetVarint32 in *.
    rewrite E1. cbn [mbind option_bind]. rewrite E2. cbn [mbind option_bind]. rewrite E3. cbn [mbind option_bind].
    do 5 f_equal. rewrite !length_app. lia.
Qed.

(** ** Entries and their offsets *)

(** An entry keeps [e_shared] bytes of the key before it. *)
Record Entry := mkEntry { e_key : bytes; e_val : bytes; e_shared : nat }.

Definition enc (e : Entry) : bytes :=
  enc_lengths (Z.of_nat (e_shared e)) (blen (e_key e) - Z.of_nat (e_shared e)) (blen (e_val e))
  ++ drop (e_shared e) (e_key e) ++ e_val e.
Definition encs (es : list Entry) : bytes := concat (map enc es).
(** Where the [i]th entry starts. *)
Definition offs (es : list Entry) (i : nat) : Z := blen (encs (take i es)).

Lemma encs_app es1 es2 : encs (es1 ++ es2) = encs es1 ++ encs es2.
Proof. unfold encs. by rewrite map_app, concat_app. Qed.
Lemma blen_take s n : 0 ≤ n ≤ blen s → blen (take (Z.to_nat n) s) = n.
Proof. unfold blen. rewrite length_take. lia. Qed.
Lemma blen_drop s n : (n ≤ length s)%nat → blen (drop n s) = blen s - Z.of_nat n.
Proof. unfold blen. rewrite length_drop. lia. Qed.

Lemma blen_enc_ge e : 3 ≤ blen (enc e).
Proof.
  unfold enc. rewrite !blen_app.
  pose proof (length_enc_lengths (Z.of_nat (e_shared e)) (blen (e_key e) - Z.of_nat (e_shared e)) (blen (e_val e))).
  pose proof (blen_nonneg (drop (e_shared e) (e_key e))). pose proof (blen_nonneg (e_val e)).
  unfold blen at 1. lia.
Qed.

Section offsets.
Context (es : list Entry).

Lemma offs_0 : offs es 0 = 0.
Proof. done. Qed.
Lemma offs_S i e : es !! i = Some e → offs es (S i) = offs es i + blen (enc e).
Proof.
  intros Hi. unfold offs. rewrite (take_S_r es i e Hi), encs_app, blen_app. f_equal.
  unfold encs. cbn. by rewrite app_nil_r.
Qed.
Lemma offs_all i : (length es ≤ i)%nat → offs es i = blen (encs es).
Proof. intros Hi. unfold offs. by rewrite take_ge. Qed.
Lemma offs_lt i j : (i < j ≤ length es)%nat → offs es i + 3 ≤ offs es j.
Proof.
  intros [Hij Hj]. induction j as [|j IH]; [lia|].
  destruct (lookup_lt_is_Some_2 es j) as [e He]; [lia|]. rewrite (offs_S j e He).
  pose proof (blen_enc_ge e). destruct (decide (i = j)) as [->|]; [lia|]. specialize (IH ltac:(lia) ltac:(lia)). lia.
Qed.
Lemma offs_inj i j : (i ≤ length es)%nat → (j ≤ length es)%nat → offs es i = offs es j → i = j.
Proof.
  intros Hi Hj E. destruct (decide (i < j)%nat); [pose proof (offs_lt i j); lia|].
  destruct (decide (j < i)%nat); [pose proof (offs_lt j i); lia|lia].
Qed.
Lemma offs_le i j : (i ≤ j ≤ length es)%nat → offs es i ≤ offs es j.
Proof. intros ?. destruct (decide (i = j)) as [->|]; [lia|]. pose proof (offs_lt i j). lia. Qed.
Lemma offs_lt_inv i j : (i ≤ length es)%nat → (j ≤ length es)%nat → offs es i < offs es j ↔ (i < j)%nat.
Proof.
  intros Hi Hj. split; [|intros; pose proof (offs_lt i j); lia].
  intros Hlt. destruct (decide (i < j)%nat); [done|]. pose proof (offs_le j i). lia.
Qed.
Lemma offs_index i : (i ≤ length es)%nat → 3 * Z.of_nat i ≤ offs es i.
Proof.
  induction i as [|i IH]; intros Hi; [done|].
  destruct (lookup_lt_is_Some_2 es i) as [e He]; [lia|]. rewrite (offs_S i e He).
  pose proof (blen_enc_ge e). specialize (IH ltac:(lia)). lia.
Qed.
Lemma encs_split i e :
  es !! i = Some e → encs es = encs (take i es) ++ enc e ++ encs (drop (S i) es).
Proof.
  intros Hi. rewrite <- (take_drop_middle es i e Hi) at 1. rewrite encs_app. f_equal.
Qed.
End offsets.

(** ** The format *)

Section layout.
Context `{Host}.

Definition restart_array (es : list Entry) (rs : list nat) : bytes :=
  concat (map (λ r, EncodeFixed32 (offs es r)) rs).

(** The entries, the restart array (the offsets of the entries [rs]), and
    [tail]: the hash index and the footer. *)
Record layout (data : bytes) (es : list Entry) (rs : list nat) (tail : bytes) : Prop := mkLayout {
  lo_bytes : data = encs es ++ restart_array es rs ++ tail;
  lo_size : blen data < 2 ^ 32;
  lo_first : rs !! 0%nat = Some 0%nat;
  lo_sorted : StronglySorted lt rs;
  lo_range : ∀ r, r ∈ rs → r = 0%nat ∨ (r < length es)%nat;
  lo_whole : ∀ r e, r ∈ rs → es !! r = Some e → e_shared e = 0%nat;
  lo_shared : ∀ i e, es !! i = Some e →
    (e_shared e ≤ length (e_key e))%nat ∧
    (e_shared e = 0%nat ∨ ∃ i' e', i = S i' ∧ es !! i' = Some e' ∧
       (e_shared e ≤ length (e_key e'))%nat ∧
       take (e_shared e) (e_key e') = take (e_shared e) (e_key e));
}.

Lemma blen_restart_array es rs : blen (restart_array es rs) = 4 * Z.of_nat (length rs).
Proof.
  unfold restart_array, blen. induction rs as [|r rs IH]; [done|].
  cbn. rewrite length_app, length_EncodeFixed32. lia.
Qed.

Lemma restart_array_split es rs i r :
  rs !! i = Some r →
  restart_array es rs = restart_array es (take i rs) ++ EncodeFixed32 (offs es r) ++ restart_array es (drop (S i) rs).
Proof.
  intros Hi. rewrite <- (take_drop_middle rs i r Hi) at 1. unfold restart_array. by rewrite map_app, concat_app.
Qed.

Section a_layout.
Context {data : bytes} {es : list Entry} {rs : list nat} {tail : bytes} (L : layout data es rs tail).
Definition restarts_off : Z := blen (encs es).
#[local] Abbreviation n := (length es).

Lemma restarts_off_range : 0 ≤ restarts_off ∧ restarts_off + 4 * Z.of_nat (length rs) ≤ blen data.
Proof.
  pose proof (blen_nonneg (encs es)). pose proof (blen_nonneg tail).
  rewrite (lo_bytes _ _ _ _ L), !blen_app, blen_restart_array. unfold restarts_off. lia.
Qed.
Lemma rs_nonempty : (0 < length rs)%nat.
Proof. apply lookup_lt_Some with 0%nat. apply L. Qed.
Lemma offs_bound i : (i ≤ n)%nat → 0 ≤ offs es i ≤ restarts_off.
Proof.
  intros Hi. split; [apply blen_nonneg|]. unfold restarts_off. rewrite <- (offs_all es n) by done.
  by apply offs_le.
Qed.
Lemma offs_range i : in_range 32 (offs es i).
Proof.
  pose proof restarts_off_range. pose proof (lo_size _ _ _ _ L).
  assert (0 ≤ offs es i ≤ restarts_off).
  { destruct (decide (i ≤ n)%nat); [by apply offs_bound|]. rewrite offs_all by lia. unfold restarts_off in *. lia. }
  unfold in_range. lia.
Qed.
Lemma rs_le r : r ∈ rs → (r ≤ n)%nat.
Proof. intros Hr. destruct (lo_range _ _ _ _ L r Hr); lia. Qed.

Lemma data_restart i r :
  rs !! i = Some r →
  ∃ rest, drop (Z.to_nat (restarts_off + Z.of_nat i * 4)) data = EncodeFixed32 (offs es r) ++ rest.
Proof.
  intros Hi. rewrite (lo_bytes _ _ _ _ L), (restart_array_split es rs i r Hi), <- !app_assoc.
  eexists. rewrite (app_assoc (encs es)). apply drop_pre.
  pose proof (blen_restart_array es (take i rs)) as E. rewrite length_take in E.
  pose proof (lookup_lt_Some _ _ _ Hi). rewrite length_app. unfold restarts_off, blen in *. lia.
Qed.

Lemma data_entry i e :
  es !! i = Some e → ∃ rest, data = encs (take i es) ++ enc e ++ rest.
Proof.
  intros Hi. rewrite (lo_bytes _ _ _ _ L), (encs_split es i e Hi), <- !app_assoc. by eexists.
Qed.

(** The value of the [i]th entry ends where the next entry starts. *)
Definition value_slice (i : nat) (e : Entry) : Slice :=
  mkSlice (InBlock (offs es (S i) - blen (e_val e))) (blen (e_val e)).
Definition key_pos (i : nat) (e : Entry) : Z :=
  offs es (S i) - blen (e_val e) - (blen (e_key e) - Z.of_nat (e_shared e)).

Lemma slice_read_mid pre x post off len :
  off = blen pre → len = blen x → slice_read (pre ++ x ++ post) (mkSlice (InBlock off) len) = Done x.
Proof.
  intros -> ->. unfold slice_read. cbn [s_ptr s_size]. rewrite !blen_app.
  replace ((0 <=? blen pre) && _) with true.
  2: { symmetry. apply andb_true_iff. rewrite !Z.leb_le. pose proof (blen_nonneg pre). pose proof (blen_nonneg post). lia. }
  cbn [require mbind R_bind]. unfold blen. rewrite !Nat2Z.id, drop_app_length. by rewrite take_app_length.
Qed.

Lemma blen_enc i e :
  es !! i = Some e →
  blen (enc e) = blen (enc_lengths (Z.of_nat (e_shared e)) (blen (e_key e) - Z.of_nat (e_shared e)) (blen (e_val e)))
    + (blen (e_key e) - Z.of_nat (e_shared e)) + blen (e_val e).
Proof.
  intros Hi. destruct (lo_shared _ _ _ _ L i e Hi) as [Hs _].
  unfold enc. rewrite !blen_app, (blen_drop (e_key e)) by done. lia.
Qed.
Lemma key_length i e : es !! i = Some e → blen (e_key e) + blen (e_val e) ≤ offs es (S i).
Proof.
  revert e. induction i as [|i IH]; intros e Hi; rewrite (offs_S es _ e Hi), (blen_enc _ e Hi);
    pose proof (blen_nonneg (enc_lengths (Z.of_nat (e_shared e)) (blen (e_key e) - Z.of_nat (e_shared e)) (blen (e_val e))));
    destruct (lo_shared _ _ _ _ L _ e Hi) as [_ [Hz|(i' & e' & [=] & Hi' & Hs & _)]].
  - rewrite offs_0. lia.
  - pose proof (lookup_lt_Some _ _ _ Hi). pose proof (offs_bound (S i)). lia.
  - subst i'. specialize (IH e' Hi'). pose proof (blen_nonneg (e_val e')). unfold blen in *. lia.
Qed.
Lemma entry_lengths i e :
  es !! i = Some e →
  in_range 32 (Z.of_nat (e_shared e)) ∧ in_range 32 (blen (e_key e) - Z.of_nat (e_shared e)) ∧ in_range 32 (blen (e_val e)) ∧
  blen (e_key e) + blen (e_val e) ≤ restarts_off.
Proof.
  intros Hi. destruct (lo_shared _ _ _ _ L i e Hi) as [Hs _].
  pose proof restarts_off_range. pose proof (lo_size _ _ _ _ L). pose proof (key_length i e Hi).
  pose proof (lookup_lt_Some _ _ _ Hi). pose proof (offs_bound (S i) ltac:(lia)).
  unfold in_range, blen in *. split_and!; lia.
Qed.

(** Decoding the [i]th entry with any limit at or after its end. *)
Lemma decode_entry i e limit :
  es !! i = Some e → offs es (S i) ≤ limit ≤ restarts_off →
  decode_lengths data (offs es i) limit =
    Done (Some (key_pos i e, Z.of_nat (e_shared e), blen (e_key e) - Z.of_nat (e_shared e), blen (e_val e))).
Proof.
  intros Hi Hl. destruct (data_entry i e Hi) as [rest Hd].
  destruct (entry_lengths i e Hi) as (H1 & H2 & H3 & _).
  pose proof (blen_enc i e Hi) as Hb. pose proof (offs_S es i e Hi) as HS.
  destruct (lo_shared _ _ _ _ L i e Hi) as [Hs _]. pose proof restarts_off_range as Hr.
  unfold enc in Hd. rewrite <- !app_assoc in Hd. rewrite Hd in Hr |- *.
  rewrite decode_lengths_enc; try done.
  - do 5 f_equal. unfold key_pos. lia.
  - pose proof (blen_nonneg (e_val e)). unfold blen in *. lia.
Qed.

Lemma read_delta i e :
  es !! i = Some e →
  slice_read data (mkSlice (InBlock (key_pos i e)) (blen (e_key e) - Z.of_nat (e_shared e))) =
    Done (drop (e_shared e) (e_key e)).
Proof.
  intros Hi. destruct (data_entry i e Hi) as [rest Hd]. unfold enc in Hd.
  rewrite <- !app_assoc, (app_assoc (encs _)) in Hd. rewrite Hd.
  destruct (lo_shared _ _ _ _ L i e Hi) as [Hs _].
  apply slice_read_mid; [|symmetry; by apply blen_drop].
  pose proof (blen_enc i e Hi). pose proof (offs_S es i e Hi). unfold key_pos. rewrite blen_app. unfold offs in *. lia.
Qed.
Lemma read_value i e : es !! i = Some e → slice_read data (value_slice i e) = Done (e_val e).
Proof.
  intros Hi. destruct (data_entry i e Hi) as [rest Hd]. unfold enc in Hd.
  rewrite <- !app_assoc in Hd. rewrite (app_assoc (enc_lengths _ _ _)), (app_assoc (encs _)) in Hd. rewrite Hd.
  destruct (lo_shared _ _ _ _ L i e Hi) as [Hs _].
  apply slice_read_mid; [|done].
  pose proof (blen_enc i e Hi). pose proof (offs_S es i e Hi). rewrite !blen_app.
  rewrite (blen_drop (e_key e)) by done. unfold offs in *. lia.
Qed.
End a_layout.
End layout.
