(* ===== verification/BlockIterCorrect.v ===== *)
(** * Reading a data block: the iterator's steps

    On a block with a layout the iterator is a cursor on the list of entries:
    what each loop and each operation does to a position, the cache of previous
    entries included. *)
From S2P Require Import Prelude Result Status Coding Hash BlockBuilder Block BlockLayout.

(** What IterKey promises (db/dbformat.h). *)
Class IterKeyLaws (K : Type) `{DbFormat, IterKey K} := {
  Size_GetKey : ∀ k, Size k = s_size (GetKey k);
  GetInternalKey_GetKey : ∀ k, GetInternalKey k = GetKey k;
  Size_Clear : ∀ k, Size (Clear k) = 0;
  GetKey_SetKey : ∀ k s, GetKey (SetKey k s) = s;
  IsKeyPinned_SetKey : ∀ k s, IsKeyPinned (SetKey k s) = true;
  GetKey_TrimAppend : ∀ k kept delta data,
    slice_read data (GetKey (TrimAppend k kept delta)) = Done (kept ++ delta);
  Size_TrimAppend : ∀ k kept delta, Size (TrimAppend k kept delta) = blen (kept ++ delta);
  IsKeyPinned_TrimAppend : ∀ k kept delta, IsKeyPinned (TrimAppend k kept delta) = false;
  GetUserKey_GetKey : ∀ k data b,
    slice_read data (GetKey k) = Done b → slice_read data (GetUserKey k) = Done (ExtractUserKey b);
}.

Lemma slice_read_size data s b : slice_read data s = Done b → 0 ≤ s_size s → s_size s = blen b.
Proof.
  unfold slice_read. intros E Hs. destruct (s_ptr s) as [off|m].
  - destruct ((0 <=? off) && _) eqn:Hb; [|done]. cbn in E. injection E as <-. bool_hyps.
    rewrite blen_take; [done|]. rewrite blen_drop; unfold blen in *; lia.
  - destruct (s_size s <=? blen m) eqn:Hb; [|done]. cbn in E. injection E as <-. bool_hyps.
    by rewrite blen_take.
Qed.

(** A prefix of a readable slice can be read. *)
Lemma slice_read_prefix data p len k b :
  slice_read data (mkSlice p len) = Done b → 0 ≤ k ≤ len →
  slice_read data (mkSlice p k) = Done (take (Z.to_nat k) b).
Proof.
  unfold slice_read. cbn [s_ptr s_size]. intros E Hk. destruct p as [off|m].
  - destruct ((0 <=? off) && _) eqn:Hb; [|done]. cbn in E. injection E as <-. bool_hyps.
    replace ((0 <=? off) && _) with true by (symmetry; apply andb_true_iff; rewrite !Z.leb_le; lia).
    cbn. rewrite take_take. by rewrite Nat.min_l by lia.
  - destruct (len <=? blen m) eqn:Hb; [|done]. cbn in E. injection E as <-. bool_hyps.
    replace (k <=? blen m) with true by (symmetry; apply Z.leb_le; lia).
    cbn. rewrite take_take. by rewrite Nat.min_l by lia.
Qed.

(** Appending to a buffer does not change what was read from it. *)
Lemma slice_read_mem_app data m x len b off :
  slice_read data (mkSlice (Mem (drop off m)) len) = Done b →
  slice_read data (mkSlice (Mem (drop off (m ++ x))) len) = Done b.
Proof.
  unfold slice_read. cbn [s_ptr s_size].
  destruct (len <=? blen (drop off m)) eqn:Hb; [|done]. cbn. intros [= <-]. bool_hyps.
  unfold blen in *. rewrite length_drop in Hb.
  destruct (decide (off ≤ length m)%nat) as [Ho|Ho].
  - rewrite drop_app_le, length_app, length_drop by done.
    replace (len <=? _) with true by (symmetry; apply Z.leb_le; lia).
    cbn. rewrite take_app_le; [done|]. rewrite length_drop. lia.
  - replace (len <=? _) with true.
    2: { symmetry. apply Z.leb_le. rewrite length_drop, length_app. lia. }
    cbn. assert (Z.to_nat len = 0%nat) as -> by lia. done.
Qed.

Section iterator.
Context {K : Type} `{Host, Build, IterKeyLaws K}.
Context {data : bytes} {es : list Entry} {rs : list nat} {tail : bytes} (L : layout data es rs tail).
(** The hash index the iterator was given. *)
Context {hidx : option Z}.
Context (compare : bytes → bytes → Z).
#[local] Abbreviation n := (length es).
#[local] Abbreviation DataBlockIter := (DataBlockIter (K := K)).

(** ** States *)

(** What no operation changes. *)
Record on_block (it : DataBlockIter) : Prop := {
  ob_data : data_ it = Some data;
  ob_num : num_restarts_ it = Z.of_nat (length rs);
  ob_restarts : iter_restarts_ it = restarts_off (es := es);
  ob_seqno : global_seqno_ it = kDisableGlobalSequenceNumber;
  ob_status : status_ it = OK;
  ob_hash : data_block_hash_index_ it = hidx;
}.

Definition cached_ok (it : DataBlockIter) (i : nat) (c : CachedPrevEntry) : Prop :=
  ∃ e, es !! i = Some e ∧ offset c = offs es i ∧ cached_value c = value_slice (es := es) i e ∧
    slice_read data (mkSlice (fst (cached_key c it)) (key_size c)) = Done (e_key e) ∧
    key_size c = blen (e_key e) ∧
    (∀ p, key_ptr c = Some p → ∃ off, p = InBlock off).

(** The cache holds consecutive entries, none of them in memory that changes. *)
Definition cache_ok (it : DataBlockIter) : Prop :=
  (∃ j, ∀ t c, prev_entries_ it !! t = Some c → cached_ok it (j + t) c) ∧
  (prev_entries_idx_ it = -1 ∨ 0 ≤ prev_entries_idx_ it < Z.of_nat (length (prev_entries_ it))).

(** The next entry to parse is the [i]th, and the key it extends is there. *)
Record before (i : nat) (it : DataBlockIter) : Prop := {
  bf_le : (i ≤ n)%nat;
  bf_block : on_block it;
  bf_restart : 0 ≤ restart_index_ it < Z.of_nat (length rs);
  bf_next : ∃ off, s_ptr (value_ it) = InBlock off ∧ off + s_size (value_ it) = offs es i;
  bf_size : 0 ≤ Size (key_ it);
  bf_key : ∀ e, es !! i = Some e → e_shared e ≠ 0%nat →
    ∃ i' e', i = S i' ∧ es !! i' = Some e' ∧ slice_read data (GetKey (key_ it)) = Done (e_key e');
}.

(** On the [i]th entry. *)
Record at_entry (i : nat) (it : DataBlockIter) : Prop := {
  ae_before : before (S i) it;
  ae_entry : ∃ e, es !! i = Some e ∧ value_ it = value_slice (es := es) i e ∧
    slice_read data (GetKey (key_ it)) = Done (e_key e);
  ae_current : current_ it = offs es i;
}.

(** Invalid: past the last entry or before the first. *)
Definition at_end (it : DataBlockIter) : Prop := on_block it ∧ current_ it = restarts_off (es := es).

(** A step that leaves the cache alone. *)
Definition same_cache (it it' : DataBlockIter) : Prop :=
  prev_entries_keys_buff_ it' = prev_entries_keys_buff_ it ∧ prev_entries_ it' = prev_entries_ it ∧
  prev_entries_idx_ it' = prev_entries_idx_ it.
Lemma cache_ok_same it it' : same_cache it it' → cache_ok it → cache_ok it'.
Proof.
  intros (Hb & He & Hi) [[j Hc] Hx]. split; [|by rewrite He, Hi]. exists j. intros t c. rewrite He. intros Ht.
  specialize (Hc t c Ht). unfold cached_ok, cached_key in *. by rewrite Hb.
Qed.

(** ** Restart points *)

Lemma num_restarts_range : 1 ≤ Z.of_nat (length rs) < 2 ^ 30.
Proof.
  pose proof (rs_nonempty L). pose proof (restarts_off_range L) as [? ?]. pose proof (lo_size _ _ _ _ L).
  change (2 ^ 32) with (4 * 2 ^ 30) in *. lia.
Qed.

Lemma GetRestartPoint_spec it i r :
  on_block it → rs !! i = Some r → GetRestartPoint (Z.of_nat i) it = Done (offs es r).
Proof.
  intros [Hd Hn Hr _ _ _] Hi. unfold GetRestartPoint, block_data, assert. rewrite Hd, Hn, Hr.
  pose proof (lookup_lt_Some _ _ _ Hi). pose proof (restarts_off_range L).
  replace (Z.of_nat i <? _) with true by (symmetry; apply Z.ltb_lt; lia).
  rewrite orb_true_r. cbn [require mbind R_bind checked].
  replace ((0 <=? _) && _) with true by (symmetry; apply andb_true_iff; rewrite !Z.leb_le; lia).
  cbn [require mbind R_bind]. destruct (data_restart L i r Hi) as [rest ->].
  rewrite DecodeFixed32_encode; [done|]. apply (offs_range L).
Qed.

Lemma restart_lookup it :
  on_block it → 0 ≤ restart_index_ it < Z.of_nat (length rs) →
  ∃ r, rs !! Z.to_nat (restart_index_ it) = Some r ∧ (r ≤ n)%nat ∧ GetRestartPoint (restart_index_ it) it = Done (offs es r).
Proof.
  intros Hb Hi. destruct (lookup_lt_is_Some_2 rs (Z.to_nat (restart_index_ it))) as [r Hr]; [lia|].
  exists r. split_and!; [done|by eapply (rs_le L), list_elem_of_lookup_2|].
  rewrite <- (Z2Nat.id (restart_index_ it)) by lia. by apply GetRestartPoint_spec.
Qed.

Lemma on_block_set_pos c r it : on_block it → on_block (set_pos c r it).
Proof. intros []. by constructor. Qed.

Lemma loop_fuel_block it : on_block it → loop_fuel it = S (length data).
Proof. intros [Hd _ _ _ _ _]. unfold loop_fuel. by rewrite Hd. Qed.

Lemma advance_restart_spec fuel it :
  on_block it → 0 ≤ restart_index_ it < Z.of_nat (length rs) →
  (length rs ≤ fuel + Z.to_nat (restart_index_ it))%nat →
  ∃ ri, 0 ≤ ri < Z.of_nat (length rs) ∧ advance_restart fuel it = Done (set_pos (current_ it) ri it).
Proof.
  revert it. induction fuel as [|fuel IH]; intros it Hb Hi Hf; [lia|].
  cbn [advance_restart]. pose proof num_restarts_range.
  rewrite (wrap_small 32 (restart_index_ it + 1)) by (unfold in_range; lia). rewrite (ob_num it Hb).
  assert (set_pos (current_ it) (restart_index_ it) it = it) as Hid by by destruct it.
  destruct (Z.ltb_spec (restart_index_ it + 1) (Z.of_nat (length rs))) as [Hlt|]; [|by exists (restart_index_ it); rewrite Hid].
  pose proof (on_block_set_pos (current_ it) (restart_index_ it + 1) it Hb) as Hb'.
  destruct (restart_lookup (set_pos (current_ it) (restart_index_ it + 1) it) Hb' ltac:(cbn; lia)) as (r & _ & _ & E).
  cbn [restart_index_ set_pos] in E. unfold GetRestartPoint, block_data in E |- *.
  cbn [num_restarts_ data_ iter_restarts_ set_pos] in E. rewrite E. cbn [mbind R_bind].
  destruct (offs es r <? current_ it); [|by exists (restart_index_ it); rewrite Hid].
  destruct (IH _ Hb') as (ri & Hri & ->); [cbn; lia|cbn; lia|]. by exists ri.
Qed.

(** ** Parsing the next entry *)

Definition decoder_ok (decode : bytes → Z → Z → R (option (Z * Z * Z * Z))) : Prop :=
  ∀ i e limit, es !! i = Some e → offs es (S i) ≤ limit ≤ restarts_off (es := es) →
    decode data (offs es i) limit =
      Done (Some (key_pos (es := es) i e, Z.of_nat (e_shared e), blen (e_key e) - Z.of_nat (e_shared e), blen (e_val e))).

Lemma rest_fits i e limit :
  es !! i = Some e → offs es (S i) ≤ limit ≤ restarts_off (es := es) →
  3 ≤ limit - offs es i ∧
  (u32 (limit - key_pos (es := es) i e) <? u32 (blen (e_key e) - Z.of_nat (e_shared e) + blen (e_val e))) = false.
Proof.
  intros Hi Hl. pose proof (offs_S es i e Hi). pose proof (blen_enc_ge e). split; [lia|].
  destruct (entry_lengths L i e Hi) as (_ & Hns & Hvl & Hk). pose proof (restarts_off_range L).
  pose proof (lo_size _ _ _ _ L). unfold in_range in *.
  pose proof (blen_enc L i e Hi). pose proof (offs_bound (es := es) i).
  pose proof (lookup_lt_Some _ _ _ Hi).
  pose proof (blen_nonneg (enc_lengths (Z.of_nat (e_shared e)) (blen (e_key e) - Z.of_nat (e_shared e)) (blen (e_val e)))).
  unfold key_pos. rewrite !wrap_small by (unfold in_range; lia). apply Z.ltb_ge. lia.
Qed.

Lemma DecodeEntry_ok : decoder_ok DecodeEntry.
Proof.
  intros i e limit Hi Hl. destruct (rest_fits i e limit Hi Hl) as [Hn3 Hf]. unfold DecodeEntry, assert.
  replace (3 <=? _) with true by (symmetry; by apply Z.leb_le). rewrite orb_true_r. cbn [require mbind R_bind].
  rewrite (decode_entry L i e limit Hi Hl). cbn [mbind R_bind]. rewrite Hf. by rewrite orb_true_r.
Qed.
Lemma CheckAndDecodeEntry_ok : decoder_ok CheckAndDecodeEntry.
Proof.
  intros i e limit Hi Hl. destruct (rest_fits i e limit Hi Hl) as [Hn3 Hf]. unfold CheckAndDecodeEntry.
  replace (_ <? 3) with false by (symmetry; by apply Z.ltb_ge).
  rewrite (decode_entry L i e limit Hi Hl). cbn [mbind R_bind]. by rewrite Hf.
Qed.
#[local] Hint Resolve DecodeEntry_ok CheckAndDecodeEntry_ok : rdb.

Lemma NextEntryOffset_spec i it : before i it → NextEntryOffset it = Done (offs es i).
Proof.
  intros Hb. destruct (bf_next i it Hb) as (off & Hp & E). unfold NextEntryOffset. rewrite Hp, E.
  by rewrite wrap_small by apply (offs_range L).
Qed.

(** The key of entry [i], pinned in the block or put together in the buffer. *)
Definition loaded (k : K) (e : Entry) : Prop :=
  slice_read data (GetKey k) = Done (e_key e) ∧ Size k = blen (e_key e) ∧
  (IsKeyPinned k = true → ∃ off, s_ptr (GetKey k) = InBlock off).

Lemma key_extension i it e :
  before i it → es !! i = Some e → e_shared e ≠ 0%nat →
  slice_read data (mkSlice (s_ptr (GetKey (key_ it))) (Z.of_nat (e_shared e))) = Done (take (e_shared e) (e_key e)) ∧
  Z.of_nat (e_shared e) ≤ Size (key_ it).
Proof.
  intros Hb Hi Hs. destruct (bf_key i it Hb e Hi Hs) as (i' & e' & -> & Hi' & Hk).
  destruct (lo_shared _ _ _ _ L _ e Hi) as [_ [?|(j & e0 & [=<-] & He0 & Hle & Htake)]]; [done|].
  assert (e0 = e') as -> by congruence. clear He0.
  pose proof (bf_size _ _ Hb) as Hsz. pose proof Hsz as Hsz'. rewrite Size_GetKey in Hsz'.
  pose proof (slice_read_size _ _ _ Hk Hsz') as Hlen. rewrite Size_GetKey.
  split; [|unfold blen in *; lia].
  destruct (GetKey (key_ it)) as [p len]. cbn [s_ptr s_size] in *.
  erewrite slice_read_prefix by (try done; unfold blen in *; lia). by rewrite Nat2Z.id, Htake.
Qed.

Lemma load_key_spec i it e :
  before i it → es !! i = Some e →
  ∃ k pinned, loaded k e ∧
    load_key data (key_pos (es := es) i e) (Z.of_nat (e_shared e)) (blen (e_key e) - Z.of_nat (e_shared e)) it =
      Done (set_key k pinned it).
Proof.
  intros Hb Hi. pose proof (read_delta L i e Hi) as Hd. unfold load_key. destruct (Z.eqb_spec (Z.of_nat (e_shared e)) 0) as [Hz|Hz].
  - eexists _, _. split; [|done]. assert (e_shared e = 0%nat) as E0 by lia. rewrite E0, Z.sub_0_r in *.
    rewrite drop_0 in Hd. unfold loaded. rewrite Size_GetKey, GetKey_SetKey. eauto.
  - destruct (key_extension i it e Hb Hi ltac:(lia)) as [-> _]. cbn [mbind R_bind]. rewrite Hd. cbn [mbind R_bind].
    eexists _, _. split; [|done]. unfold loaded.
    rewrite GetKey_TrimAppend, Size_TrimAppend, IsKeyPinned_TrimAppend, take_drop. done.
Qed.

Lemma parse_step decode limit i it e :
  decoder_ok decode → before i it → es !! i = Some e →
  offs es (S i) ≤ default (restarts_off (es := es)) limit ≤ restarts_off (es := es) →
  ∃ it', ParseNextDataKey decode limit it = Done (it', true) ∧ at_entry i it' ∧ same_cache it it' ∧
    loaded (key_ it') e.
Proof.
  intros Hdec Hb Hi Hl. pose proof (bf_block i it Hb) as [Hd Hn Hr Hs Hst Hhi]. unfold ParseNextDataKey.
  rewrite (NextEntryOffset_spec i it Hb). cbn [mbind R_bind].
  unfold block_data. cbn [data_ set_pos]. rewrite Hd. cbn [checked mbind R_bind current_ iter_restarts_ set_pos].
  rewrite Hr. pose proof (offs_S es i e Hi). pose proof (blen_enc_ge e).
  replace (_ <=? offs es i) with false by (symmetry; apply Z.leb_gt; lia).
  rewrite (Hdec i e _ Hi Hl). cbn [mbind R_bind key_].
  set (it1 := set_pos (offs es i) (restart_index_ it) it).
  assert (before i it1) as Hb1 by (destruct Hb; constructor; try done; by apply on_block_set_pos).
  replace (Size (key_ it) <? Z.of_nat (e_shared e)) with false.
  2: { symmetry. apply Z.ltb_ge. pose proof (bf_size i it Hb). destruct (decide (e_shared e = 0%nat)) as [->|]; [lia|].
       by eapply key_extension. }
  destruct (load_key_spec i it1 e Hb1 Hi) as (k & pinned & Hload & ->). cbn [mbind R_bind]. unfold rewrite_seqno. cbn [global_seqno_ set_key set_pos it1].
  rewrite Hs, Z.eqb_refl. cbn [mbind R_bind].
  replace (key_pos (es := es) i e + (blen (e_key e) - Z.of_nat (e_shared e))) with (offs es (S i) - blen (e_val e))
    by (unfold key_pos; lia).
  change (mkSlice (InBlock (offs es (S i) - blen (e_val e))) (blen (e_val e))) with (value_slice (es := es) i e).
  set (it2 := set_value _ _).
  assert (on_block it2) as Hb2 by (by constructor).
  assert (∃ ri, 0 ≤ ri < Z.of_nat (length rs) ∧
    (if Z.of_nat (e_shared e) =? 0 then advance_restart (loop_fuel it2) it2 else Done it2) = Done (set_pos (current_ it2) ri it2))
    as (ri & Hri & ->).
  { pose proof (bf_restart i it Hb). destruct (Z.of_nat (e_shared e) =? 0).
    - apply advance_restart_spec; [done|done|]. rewrite loop_fuel_block by done.
      pose proof (restarts_off_range L). unfold blen in *. lia.
    - by exists (restart_index_ it). }
  cbn [mbind R_bind]. eexists. split; [done|]. destruct Hload as (Hk & Hsz & Hp). split_and!; [|done..].
  constructor; cbn; [|eauto|done]. constructor; cbn; try done.
  - by apply lookup_lt_Some in Hi.
  - eexists. split; [done|]. lia.
  - rewrite Hsz. apply blen_nonneg.
  - intros e2 _ _. eauto.
Qed.

Lemma parse_end decode limit i it :
  before i it → default (restarts_off (es := es)) limit ≤ offs es i →
  ∃ it', ParseNextDataKey decode limit it = Done (it', false) ∧ at_end it' ∧ same_cache it it'.
Proof.
  intros Hb Hl. pose proof (bf_block i it Hb) as [Hd Hn Hr Hs Hst Hhi]. unfold ParseNextDataKey.
  rewrite (NextEntryOffset_spec i it Hb). cbn [mbind R_bind].
  unfold block_data. cbn [data_ set_pos]. rewrite Hd. cbn [checked mbind R_bind current_ iter_restarts_ set_pos].
  rewrite Hr. replace (_ <=? offs es i) with true by (symmetry; apply Z.leb_le; lia).
  eexists. split; [done|]. split; [|done]. by split.
Qed.

Lemma SeekToRestartPoint_spec it i r :
  on_block it → rs !! i = Some r →
  ∃ it', SeekToRestartPoint (Z.of_nat i) it = Done it' ∧ before r it' ∧ same_cache it it' ∧
    restart_index_ it' = Z.of_nat i.
Proof.
  intros Hb Hi. pose proof Hb as [Hd Hn Hr Hs Hst Hhi]. unfold SeekToRestartPoint.
  set (it1 := set_pos _ _ _). assert (on_block it1) as Hb1 by (by constructor).
  rewrite (GetRestartPoint_spec it1 i r Hb1 Hi). cbn [mbind R_bind]. eexists. split; [done|].
  pose proof (lookup_lt_Some _ _ _ Hi). pose proof (list_elem_of_lookup_2 _ _ _ Hi) as Hin.
  split_and!; [|done..]. constructor; cbn; try done.
  - by apply (rs_le L).
  - lia.
  - eexists. split; [done|]. lia.
  - by rewrite Size_Clear.
  - intros e He Hne. by rewrite (lo_whole _ _ _ _ L r e) in Hne.
Qed.

(** ** Forward loops *)

Lemma entries_in_fuel : (n < S (length data))%nat.
Proof.
  pose proof (restarts_off_range L). pose proof (offs_index es n ltac:(lia)) as Hn.
  rewrite offs_all in Hn by done. unfold restarts_off, blen in *. lia.
Qed.

Lemma same_cache_trans it1 it2 it3 : same_cache it1 it2 → same_cache it2 it3 → same_cache it1 it3.
Proof. unfold same_cache. intros (?&?&?) (?&?&?). split_and!; congruence. Qed.
Lemma same_cache_refl it : same_cache it it.
Proof. done. Qed.
#[local] Hint Resolve same_cache_trans same_cache_refl : rdb.

Lemma at_entry_lt i it : at_entry i it → (i < n)%nat.
Proof. intros [_ (e & Hi & _) _]. by eapply lookup_lt_Some. Qed.
Lemma at_entry_block i it : at_entry i it → on_block it.
Proof. intros [Hb _ _]. by eapply bf_block. Qed.
Lemma at_entry_Valid i it : at_entry i it → Valid it = true.
Proof.
  intros Ha. pose proof (at_entry_lt i it Ha). unfold Valid. rewrite (ae_current i it Ha).
  rewrite (ob_restarts it (at_entry_block i it Ha)). apply Z.ltb_lt.
  pose proof (offs_lt es i n ltac:(lia)). rewrite (offs_all es n) in * by done. unfold restarts_off. lia.
Qed.
Lemma at_end_invalid it : at_end it → Valid it = false.
Proof. intros [Hb Hc]. unfold Valid. rewrite Hc, (ob_restarts it Hb). apply Z.ltb_irrefl. Qed.

(** Parsing without a limit: the next entry or the end. *)
Lemma parse_next decode i it :
  decoder_ok decode → before i it →
  (∃ it', ParseNextDataKey decode None it = Done (it', true) ∧ (i < n)%nat ∧ at_entry i it' ∧ same_cache it it' ∧
     ∃ e, es !! i = Some e ∧ loaded (key_ it') e) ∨
  (∃ it', ParseNextDataKey decode None it = Done (it', false) ∧ i = n ∧ at_end it' ∧ same_cache it it').
Proof.
  intros Hdec Hb. pose proof (bf_le i it Hb). destruct (decide (i = n)) as [->|].
  - right. destruct (parse_end decode None n it Hb) as (it' & ? & ? & ?).
    { cbn. by rewrite offs_all. }
    eauto.
  - left. destruct (lookup_lt_is_Some_2 es i) as [e He]; [lia|].
    destruct (parse_step decode None i it e Hdec Hb He) as (it' & ? & ? & ? & ?).
    { cbn. pose proof (offs_bound (es := es) (S i) ltac:(lia)). lia. }
    exists it'. split_and!; eauto. lia.
Qed.

Lemma skip_to_last_spec fuel i it :
  before i it → (n < i + fuel)%nat →
  ∃ it', skip_to_last fuel it = Done it' ∧ same_cache it it' ∧
    (if decide (i = n) then at_end it' else at_entry (n - 1) it').
Proof.
  revert i it. induction fuel as [|fuel IH]; intros i it Hb Hf; [pose proof (bf_le i it Hb); lia|].
  cbn [skip_to_last]. destruct (parse_next DecodeEntry i it DecodeEntry_ok Hb) as
    [(it' & -> & Hi & Ha & Hc & _)|(it' & -> & Hi & Ha & Hc)]; cbn [mbind R_bind negb].
  - rewrite (NextEntryOffset_spec (S i) it') by apply Ha. cbn [mbind R_bind].
    rewrite (ob_restarts it') by by eapply at_entry_block.
    unfold restarts_off. rewrite <- (offs_all es n) by done.
    destruct (Z.ltb_spec (offs es (S i)) (offs es n)) as [Hlt|Hge].
    + apply offs_lt_inv in Hlt; [|lia|lia].
      destruct (IH (S i) it') as (it2 & -> & Hc2 & Ha2); [apply Ha|lia|].
      rewrite decide_False in Ha2 by lia. exists it2. rewrite decide_False by lia. eauto with rdb.
    + assert (¬ (S i < n)%nat) by (rewrite <- (offs_lt_inv es); lia).
      exists it'. rewrite decide_False by lia. replace (n - 1)%nat with i by lia. eauto.
  - exists it'. rewrite decide_True by done. eauto.
Qed.

Lemma Compare_spec it i e t :
  at_entry i it → es !! i = Some e → Compare compare it t = Done (compare (e_key e) t).
Proof.
  intros [Hb (e' & He' & _ & Hk) _] He. assert (e' = e) as -> by congruence.
  unfold Compare, block_data. rewrite (ob_data it) by apply Hb. cbn [checked mbind R_bind].
  by rewrite GetInternalKey_GetKey, Hk.
Qed.

(** The first entry from [j] on, below [m], whose key is not less than [t]. *)
Lemma seek_linear_spec fuel m limit t j it :
  before j it → (j ≤ m ≤ n)%nat → default (restarts_off (es := es)) limit = offs es m → (m < j + fuel)%nat →
  ∃ it', seek_linear compare fuel limit t it = Done it' ∧ same_cache it it' ∧
    ((∃ i e, (j ≤ i < m)%nat ∧ es !! i = Some e ∧ 0 ≤ compare (e_key e) t ∧ at_entry i it' ∧
        ∀ k x, (j ≤ k < i)%nat → es !! k = Some x → compare (e_key x) t < 0) ∨
     (at_end it' ∧ ∀ k x, (j ≤ k < m)%nat → es !! k = Some x → compare (e_key x) t < 0)).
Proof.
  revert j it. induction fuel as [|fuel IH]; intros j it Hb Hj Hl Hf; [lia|].
  cbn [seek_linear]. destruct (decide (j = m)) as [->|].
  - destruct (parse_end DecodeEntry limit m it Hb) as (it' & -> & Ha & Hc); [lia|].
    cbn [mbind R_bind negb]. exists it'. split_and!; [done..|]. right. split; [done|]. intros; lia.
  - destruct (lookup_lt_is_Some_2 es j) as [e He]; [lia|].
    destruct (parse_step DecodeEntry limit j it e DecodeEntry_ok Hb He) as (it' & -> & Ha & Hc & _).
    { rewrite Hl. pose proof (offs_le es (S j) m ltac:(lia)). pose proof (offs_bound (es := es) m ltac:(lia)). lia. }
    cbn [mbind R_bind negb]. rewrite (Compare_spec it' j e t Ha He). cbn [mbind R_bind].
    destruct (Z.ltb_spec (compare (e_key e) t) 0) as [Hlt|Hge].
    + destruct (IH (S j) it') as (it2 & -> & Hc2 & Hr); [apply Ha|lia|done|lia|].
      exists it2. split_and!; [done|by eauto with rdb|].
      assert (∀ k x, k = j → es !! k = Some x → compare (e_key x) t < 0) as Hj' by (intros k x -> Hx; congruence).
      destruct Hr as [(i & x & ? & ? & ? & ? & Hall)|[? Hall]].
      * left. exists i, x. split_and!; try done; try lia. intros k y Hk Hy. destruct (decide (k = j)); [by eapply Hj'; eauto|].
        eapply (Hall k); [lia|done].
      * right. split; [done|]. intros k y Hk Hy. destruct (decide (k = j)); [by eapply Hj'; eauto|].
        eapply (Hall k); [lia|done].
    + exists it'. split_and!; [done..|]. left. exists j, e. split_and!; try done; try lia.
Qed.

(** ** Binary search *)

Context (Hsorted : StronglySorted (λ a b, compare (e_key a) (e_key b) < 0) es).
Context (cmp_flip : ∀ a b, compare a b < 0 ↔ 0 < compare b a)
  (cmp_trans : ∀ a b c, compare a b ≤ 0 → compare b c ≤ 0 → compare a c ≤ 0).

Lemma cmp_lt_le a b c : compare a b < 0 → compare b c ≤ 0 → compare a c < 0.
Proof.
  intros Hab Hbc. destruct (decide (compare a c < 0)) as [|Hn]; [done|].
  assert (compare c a ≤ 0) as Hca by (pose proof (cmp_flip a c); lia).
  pose proof (cmp_trans b c a Hbc Hca). pose proof (cmp_flip a b). lia.
Qed.
Lemma cmp_le_lt a b c : compare a b ≤ 0 → compare b c < 0 → compare a c < 0.
Proof.
  intros Hab Hbc. destruct (decide (compare a c < 0)) as [|Hn]; [done|].
  assert (compare c a ≤ 0) as Hca by (pose proof (cmp_flip a c); lia).
  pose proof (cmp_trans c a b Hca Hab). pose proof (cmp_flip b c). lia.
Qed.

Lemma keys_sorted i j a b : (i < j)%nat → es !! i = Some a → es !! j = Some b → compare (e_key a) (e_key b) < 0.
Proof.
  apply (StronglySorted_lookup _ es i j a b Hsorted).
Qed.

Definition all_less (r : nat) (t : bytes) : Prop := ∀ k x, (k < r)%nat → es !! k = Some x → compare (e_key x) t < 0.
Lemma all_less_from r e t : es !! r = Some e → compare (e_key e) t ≤ 0 → all_less r t.
Proof. intros He Hle k x Hk Hx. eapply cmp_lt_le; [|done]. by eapply keys_sorted. Qed.

Lemma restart_positive i r : rs !! i = Some r → (0 < i)%nat → (0 < r < n)%nat.
Proof.
  intros Hr Hi. pose proof (lo_first _ _ _ _ L) as Hz0. pose proof (lo_sorted _ _ _ _ L) as Hs.
  destruct rs as [|r0 rs']; [done|]. injection Hz0 as ->. destruct i as [|i]; [lia|].
  inversion Hs as [|? ? _ Hf]; subst. rewrite Forall_forall in Hf. cbn in Hr.
  pose proof (Hf r (list_elem_of_lookup_2 _ _ _ Hr)).
  destruct (lo_range _ _ _ _ L r); [right; by eapply list_elem_of_lookup_2|lia|lia].
Qed.

Lemma DecodeKey_restart i r e :
  rs !! i = Some r → es !! r = Some e →
  DecodeKey data (offs es r) (restarts_off (es := es)) = Done (Some (key_pos (es := es) r e, 0, blen (e_key e))) ∧
  slice_read data (mkSlice (InBlock (key_pos (es := es) r e)) (blen (e_key e))) = Done (e_key e).
Proof.
  intros Hr He. pose proof (lo_whole _ _ _ _ L r e (list_elem_of_lookup_2 _ _ _ Hr) He) as Hz0.
  pose proof (read_delta L r e He) as Hd. rewrite Hz0, Z.sub_0_r, drop_0 in Hd. split; [|done].
  unfold DecodeKey. rewrite (DecodeEntry_ok r e).
  - cbn [mbind R_bind]. cbn. by rewrite Hz0, Z.sub_0_r.
  - done.
  - pose proof (lookup_lt_Some _ _ _ He). pose proof (offs_bound (es := es) (S r) ltac:(lia)). lia.
Qed.

Lemma BinarySeek_loop_spec fuel t left right it :
  on_block it → 0 ≤ left ≤ right → right < Z.of_nat (length rs) → right - left < 2 ^ Z.of_nat fuel →
  (∀ r, rs !! Z.to_nat left = Some r → all_less r t) →
  ∃ idx r, BinarySeek_loop compare (S fuel) t left right it = Done (it, Some (Z.of_nat idx)) ∧
    rs !! idx = Some r ∧ all_less r t.
Proof.
  intros Hb. pose proof num_restarts_range as Hnum. revert left right.
  induction fuel as [|fuel IH]; intros left right Hlr Hr Hf Hl.
  { change (2 ^ Z.of_nat 0) with 1 in Hf. cbn [BinarySeek_loop].
    replace (left <? right) with false by (symmetry; apply Z.ltb_ge; lia).
    destruct (lookup_lt_is_Some_2 rs (Z.to_nat left)) as [r Hrl]; [lia|].
    exists (Z.to_nat left), r. rewrite Z2Nat.id by lia. eauto. }
  remember (S fuel) as f1. cbn [BinarySeek_loop]. subst f1. destruct (Z.ltb_spec left right) as [Hlt|Hge].
  2: { destruct (lookup_lt_is_Some_2 rs (Z.to_nat left)) as [r Hrl]; [lia|].
       exists (Z.to_nat left), r. rewrite Z2Nat.id by lia. eauto. }
  rewrite (wrap_small 32) by (unfold in_range; lia). set (mid := (left + right + 1) / 2).
  assert (left < mid ≤ right) as Hmid.
  { unfold mid. split; [apply Z.lt_le_trans with (left + 1); [lia|apply Z.div_le_lower_bound; lia]|].
    apply Z.div_le_upper_bound; lia. }
  assert (right - mid < 2 ^ Z.of_nat fuel ∧ mid - 1 - left < 2 ^ Z.of_nat fuel) as [Hf1 Hf2].
  { rewrite Nat2Z.inj_succ, Z.pow_succ_r in Hf by lia.
    pose proof (Z.div_mod (left + right + 1) 2 ltac:(lia)). pose proof (Z.mod_pos_bound (left + right + 1) 2 ltac:(lia)).
    unfold mid. lia. }
  destruct (lookup_lt_is_Some_2 rs (Z.to_nat mid)) as [r Hrm]; [lia|].
  destruct (restart_positive _ _ Hrm) as [_ Hrn]; [lia|].
  destruct (lookup_lt_is_Some_2 es r) as [e He]; [lia|].
  pose proof (GetRestartPoint_spec it _ r Hb Hrm) as Eg. rewrite Z2Nat.id in Eg by lia. rewrite Eg. cbn [mbind R_bind].
  unfold block_data. rewrite (ob_data it Hb). cbn [checked mbind R_bind]. rewrite (ob_restarts it Hb).
  destruct (DecodeKey_restart _ r e Hrm He) as [-> E]. cbn [mbind R_bind]. rewrite Z.eqb_refl. cbn [negb].
  rewrite E. cbn [mbind R_bind].
  destruct (Z.ltb_spec (compare (e_key e) t) 0); [apply IH; try lia; intros r' Hr'; simplify_eq; eapply all_less_from; eauto; lia|].
  destruct (Z.ltb_spec 0 (compare (e_key e) t)).
  - rewrite wrap_small by (unfold in_range; lia). apply IH; try lia. done.
  - assert (0 < 2 ^ Z.of_nat fuel) by (apply Z.pow_pos_nonneg; lia).
    apply IH; try lia. intros r' Hr'; simplify_eq; eapply all_less_from; eauto; lia.
Qed.

Lemma BinarySeek_spec t it :
  on_block it →
  ∃ idx r, BinarySeek compare t 0 (u32 (num_restarts_ it - 1)) it = Done (it, Some (Z.of_nat idx)) ∧
    rs !! idx = Some r ∧ all_less r t.
Proof.
  intros Hb. pose proof num_restarts_range. unfold BinarySeek, assert.
  rewrite (ob_num it Hb), wrap_small by (unfold in_range; lia).
  replace (0 <=? _) with true by (symmetry; apply Z.leb_le; lia). rewrite orb_true_r. cbn [require mbind R_bind].
  apply (BinarySeek_loop_spec 32); try done; try lia.
  intros r Hr k x Hk. change (Z.to_nat 0) with 0%nat in Hr. rewrite (lo_first _ _ _ _ L) in Hr. injection Hr as <-. lia.
Qed.
End iterator.
