(* ===== verification/BlockCursor.v ===== *)
(** * Reading a data block: the iterator is a cursor

    Backward steps with the cache of previous entries, the seeks, and the
    refinement: whatever operations are issued, the iterator stands where a
    cursor on the list of entries stands. *)
From S2P Require Import Prelude Result Status Coding Hash Cursor BlockBuilder Block BlockLayout BlockIterCorrect.

(** ** Runs of the iterator's operations *)

Definition iter_step {K} `{Host, Build, DbFormat, IterKey K} (compare : bytes → bytes → Z) (o : cursor_op)
    : DataBlockIter (K := K) → R (DataBlockIter (K := K)) :=
  match o with
  | CFirst => SeekToFirst | CLast => SeekToLast | CNext => Next | CPrev => Prev
  | CSeek t => Seek compare t | CSeekForPrev t => SeekForPrev compare t
  end.
Fixpoint iter_run {K} `{Host, Build, DbFormat, IterKey K} (compare : bytes → bytes → Z) (ops : list cursor_op)
    (it : DataBlockIter (K := K)) : R (DataBlockIter (K := K)) :=
  match ops with [] => Done it | o :: ops' => it ← iter_step compare o it; iter_run compare ops' it end.

Section cursor.
Context {K : Type} `{Host, Build, IterKeyLaws K}.
Context {data : bytes} {es : list Entry} {rs : list nat} {tail : bytes} (L : layout data es rs tail).
Context {hidx : option Z}.
Context (compare : bytes → bytes → Z).
#[local] Abbreviation n := (length es).
#[local] Abbreviation DataBlockIter := (DataBlockIter (K := K)).
#[local] Abbreviation on_block := (on_block (K := K) (data := data) (es := es) (rs := rs) (hidx := hidx)).
#[local] Abbreviation before := (before (K := K) (data := data) (es := es) (rs := rs) (hidx := hidx)).
#[local] Abbreviation at_entry := (at_entry (K := K) (data := data) (es := es) (rs := rs) (hidx := hidx)).
#[local] Abbreviation at_end := (at_end (K := K) (data := data) (es := es) (rs := rs) (hidx := hidx)).
#[local] Abbreviation cache_ok := (cache_ok (K := K) (data := data) (es := es)).
#[local] Abbreviation cached_ok := (cached_ok (K := K) (data := data) (es := es)).

(** ** The cache of previous entries *)

Lemma on_block_set_cache b c i it : on_block it → on_block (set_cache b c i it).
Proof. intros []. by constructor. Qed.
Lemma before_set_cache b c x i it : before i it → before i (set_cache b c x it).
Proof. intros []. constructor; try done. by apply on_block_set_cache. Qed.
Lemma at_entry_set_cache b c x i it : at_entry i it → at_entry i (set_cache b c x it).
Proof. intros []. constructor; try done. by apply before_set_cache. Qed.

Lemma scan_back_spec fuel i it :
  on_block it → 0 ≤ restart_index_ it < Z.of_nat (length rs) → (i < n)%nat →
  (Z.to_nat (restart_index_ it) < fuel)%nat →
  if decide (i = 0%nat) then
    scan_back fuel (offs es i) it = Done (set_pos (iter_restarts_ it) (num_restarts_ it) it, false)
  else ∃ k r, scan_back fuel (offs es i) it = Done (set_pos (current_ it) (Z.of_nat k) it, true) ∧
         rs !! k = Some r ∧ (r < i)%nat.
Proof.
  revert it. induction fuel as [|fuel IH]; intros it Hb Hri Hi Hf; [lia|].
  destruct (restart_lookup L it Hb Hri) as (r & Hr & Hle & E). cbn [scan_back]. rewrite E. cbn [mbind R_bind].
  destruct (Z.leb_spec (offs es i) (offs es r)) as [Hge|Hlt].
  - destruct (Z.eqb_spec (restart_index_ it) 0) as [Hz|Hz].
    + assert (r = 0%nat) as ->.
      { rewrite Hz in Hr. change (Z.to_nat 0) with 0%nat in Hr. rewrite (lo_first _ _ _ _ L) in Hr. congruence. }
      rewrite decide_True; [done|]. destruct (decide (i = 0%nat)); [done|]. pose proof (offs_lt es 0 i ltac:(lia)). lia.
    + pose proof (on_block_set_pos (current_ it) (restart_index_ it - 1) it Hb) as Hb'.
      specialize (IH _ Hb' ltac:(cbn; lia) Hi ltac:(cbn; lia)). destruct (decide (i = 0%nat)); apply IH.
  - apply offs_lt_inv in Hlt; [|lia|lia]. rewrite decide_False by lia.
    exists (Z.to_nat (restart_index_ it)), r. rewrite Z2Nat.id by lia. split_and!; try done.
    by destruct it.
Qed.

(** The entry parsed last joins the cache. *)
Lemma cache_entry_spec i it e :
  at_entry i it → es !! i = Some e → loaded (data := data) (key_ it) e →
  ∃ buff c, cache_entry it = Done (set_cache (prev_entries_keys_buff_ it ++ buff)
      (prev_entries_ it ++ [c]) (prev_entries_idx_ it) it) ∧
    cached_ok (set_cache (prev_entries_keys_buff_ it ++ buff) (prev_entries_ it ++ [c]) (prev_entries_idx_ it) it) i c.
Proof.
  intros Ha Hi (Hk & Hsz & Hp). unfold cache_entry, key, value, block_data, assert.
  rewrite (at_entry_Valid i it Ha), !orb_true_r. cbn [require mbind R_bind].
  rewrite (ob_data it) by by eapply at_entry_block. cbn [checked mbind R_bind].
  pose proof (ae_entry i it Ha) as (e' & He' & Hv & _). assert (e' = e) as -> by congruence.
  pose proof (ae_current i it Ha) as Hc. rewrite Size_GetKey in Hsz.
  destruct (IsKeyPinned (key_ it)).
  - exists [], (mkCached (current_ it) (Some (s_ptr (GetKey (key_ it)))) 0 (s_size (GetKey (key_ it))) (value_ it)).
    rewrite app_nil_r. split; [done|]. exists e. split_and!; try done.
    intros p [= <-]. by apply Hp.
  - rewrite Hk. cbn [mbind R_bind].
    exists (e_key e), (mkCached (current_ it) None (blen (prev_entries_keys_buff_ it)) (s_size (GetKey (key_ it))) (value_ it)).
    split; [done|]. exists e. split_and!; try done. cbn [cached_key key_ptr fst key_size key_offset].
    cbn [prev_entries_keys_buff_ set_cache]. unfold blen. rewrite Nat2Z.id, drop_app_length, Hsz.
    unfold slice_read. cbn [s_ptr s_size]. rewrite Z.leb_refl. cbn [require mbind R_bind].
    unfold blen. by rewrite Nat2Z.id, firstn_all.
Qed.

Lemma cached_ok_grow i c it b es' idx :
  cached_ok it i c → cached_ok (set_cache (prev_entries_keys_buff_ it ++ b) es' idx it) i c.
Proof.
  intros (e & ? & ? & ? & Hk & ? & ?). exists e. split_and!; try done.
  unfold cached_key in *. destruct (key_ptr c); [done|]. cbn [fst prev_entries_keys_buff_ set_cache] in *. by apply slice_read_mem_app.
Qed.

(** The entries from [j] to [i - 1] join the cache. *)
Lemma cache_loop_spec fuel i j it :
  before j it → (j < i < n)%nat → (i < j + fuel)%nat →
  (∀ t c, prev_entries_ it !! t = Some c → cached_ok it (j - length (prev_entries_ it) + t) c) →
  (length (prev_entries_ it) ≤ j)%nat →
  ∃ it', cache_loop fuel (offs es i) it = Done it' ∧ at_entry (i - 1) it' ∧
    (∃ j', ∀ t c, prev_entries_ it' !! t = Some c → cached_ok it' (j' + t) c) ∧
    (0 < length (prev_entries_ it') ≤ i)%nat.
Proof.
  revert j it. induction fuel as [|fuel IH]; intros j it Hb Hj Hf Hc Hlen; [lia|].
  cbn [cache_loop]. destruct (parse_next L DecodeEntry j it (DecodeEntry_ok L) Hb) as
    [(it1 & -> & Hjn & Ha & (Hc1 & Hc2 & Hc3) & e & He & Hload)|(it1 & _ & -> & _)]; [|lia].
  cbn [mbind R_bind negb]. destruct (cache_entry_spec j it1 e Ha He Hload) as (buff & c & -> & Hok).
  cbn [mbind R_bind]. set (it2 := set_cache _ _ _ it1).
  assert (at_entry j it2) as Ha2 by by apply at_entry_set_cache.
  rewrite (NextEntryOffset_spec L (S j) it2) by apply Ha2. cbn [mbind R_bind].
  assert (∀ t c', prev_entries_ it2 !! t = Some c' → cached_ok it2 (S j - length (prev_entries_ it2) + t) c') as Hc'.
  { intros t c'. cbn. rewrite Hc2, length_app. cbn. replace (S j - _)%nat with (j - length (prev_entries_ it))%nat by lia.
    intros [Ht|[Ht Hs]]%lookup_app_Some.
    - apply cached_ok_grow. specialize (Hc t c' Ht). unfold cached_ok, cached_key in *. by rewrite Hc1.
    - apply list_lookup_singleton_Some in Hs as [Hs <-].
      replace (j - _ + t)%nat with j by (cbn in *; lia). exact Hok. }
  assert (length (prev_entries_ it2) = S (length (prev_entries_ it))) as Hl2.
  { cbn. rewrite Hc2, length_app. cbn. lia. }
  destruct (Z.ltb_spec (offs es (S j)) (offs es i)) as [Hlt|Hge].
  - apply offs_lt_inv in Hlt; [|lia|lia]. apply (IH (S j)); [apply Ha2|lia|lia|done|lia].
  - assert (¬ (S j < i)%nat) by (rewrite <- (offs_lt_inv es); lia).
    exists it2. replace (i - 1)%nat with j by lia. split_and!; try done; try lia. eauto.
Qed.

(** [Prev] moves one entry back, whatever the cache holds. *)
Lemma Prev_scan_spec i it :
  at_entry i it →
  ∃ it', Prev_scan it = Done it' ∧ cache_ok it' ∧
    (if decide (i = 0%nat) then at_end it' else at_entry (i - 1) it').
Proof.
  intros Ha. unfold Prev_scan. cbn [current_ set_cache]. rewrite (ae_current i it Ha).
  set (it1 := set_cache [] [] (-1) it).
  assert (at_entry i it1) as Ha1 by by apply at_entry_set_cache.
  assert (on_block it1) as Hb1 by by eapply at_entry_block.
  pose proof (at_entry_lt i it Ha) as Hi. pose proof (num_restarts_range L).
  pose proof (restarts_off_range L) as [_ Hrs].
  assert (0 ≤ restart_index_ it1 < Z.of_nat (length rs)) as Hri by apply Ha.
  pose proof (scan_back_spec (loop_fuel it1) i it1 Hb1 Hri Hi) as Hs.
  rewrite (loop_fuel_block it1 Hb1) in Hs |- *. specialize (Hs ltac:(pose proof (blen_nonneg (encs es)); unfold restarts_off, blen in *; lia)).
  assert (cache_ok (set_pos (iter_restarts_ it1) (num_restarts_ it1) it1)) as Hempty.
  { split; [|by left]. exists 0%nat. intros t c Ht. done. }
  destruct (decide (i = 0%nat)) as [Hz|Hz].
  { rewrite Hs. cbn [mbind R_bind negb]. eexists. split; [done|]. split; [exact Hempty|].
    split; [by apply on_block_set_pos|]. exact (ob_restarts it1 Hb1). }
  destruct Hs as (k & r & -> & Hk & Hr). cbn [mbind R_bind negb restart_index_ set_pos].
  set (it2 := set_pos _ _ it1). assert (on_block it2) as Hb2 by by apply on_block_set_pos.
  destruct (SeekToRestartPoint_spec L it2 k r Hb2 Hk) as (it3 & -> & Hb3 & (Hc1 & Hc2 & Hc3) & _). cbn [mbind R_bind].
  rewrite (loop_fuel_block it3) by by eapply bf_block.
  pose proof (entries_in_fuel L). destruct (cache_loop_spec (S (length data)) i r it3 Hb3) as (it4 & -> & Ha4 & [j' Hj'] & Hl); [lia|lia|..].
  { intros t c. by rewrite Hc2. }
  { rewrite Hc2. cbn. lia. }
  cbn [mbind R_bind]. eexists. split; [done|]. split; [|by apply at_entry_set_cache].
  split.
  - exists j'. intros t c Ht. exact (Hj' t c Ht).
  - right. cbn [prev_entries_idx_ set_cache prev_entries_].
    assert (Z.of_nat (length (prev_entries_ it4)) < 2 ^ 31).
    { pose proof (offs_index es n ltac:(lia)) as Hx. rewrite (offs_all es n) in Hx by done. pose proof (lo_size _ _ _ _ L).
      unfold restarts_off in *. change (2 ^ 32) with (2 * 2 ^ 31) in *. lia. }
    unfold to_signed. rewrite wrap_idemp, wrap_small by (unfold in_range; change (2 ^ 32) with (2 * 2 ^ 31); lia).
    change (2 ^ (32 - 1)) with (2 ^ 31). bool_cases; lia.
Qed.

Lemma Prev_spec i it :
  at_entry i it → cache_ok it →
  ∃ it', Prev it = Done it' ∧ cache_ok it' ∧
    (if decide (i = 0%nat) then at_end it' else at_entry (i - 1) it').
Proof.
  intros Ha [[j Hc] Hidx]. pose proof (at_entry_lt i it Ha) as Hi.
  pose proof (Prev_scan_spec i it Ha) as Hscan. unfold Prev, assert.
  rewrite (at_entry_Valid i it Ha), orb_true_r. cbn [require mbind R_bind].
  set (idx := prev_entries_idx_ it) in *.
  replace ((idx =? -1) || _) with true.
  2: { symmetry. apply orb_true_iff. rewrite Z.eqb_eq, Z.ltb_lt. destruct Hidx as [?|Hx]; [by left|right].
       rewrite wrap_small; [lia|]. split; [lia|].
       destruct (lookup_lt_is_Some_2 (prev_entries_ it) (Z.to_nat idx)) as [c Hcur]; [lia|].
       destruct (Hc _ _ Hcur) as (e & He%lookup_lt_Some & _). pose proof (entries_in_fuel L).
       pose proof (lo_size _ _ _ _ L). unfold blen in *.
       change (2 ^ 64) with (2 ^ 32 * 2 ^ 32). lia. }
  rewrite orb_true_r. cbn [require mbind R_bind].
  destruct (Z.ltb_spec 0 idx) as [Hpos|]; [|done]. destruct Hidx as [?|Hx]; [lia|].
  destruct (lookup_lt_is_Some_2 (prev_entries_ it) (Z.to_nat idx)) as [c Hcur]; [lia|]. rewrite Hcur.
  cbn [checked mbind R_bind]. destruct (Z.eqb_spec (offset c) (current_ it)) as [Ho|]; [|done].
  destruct (lookup_lt_is_Some_2 (prev_entries_ it) (Z.to_nat (idx - 1))) as [c' Hprev]; [lia|].
  cbn [prev_entries_ set_cache]. rewrite Hprev. cbn [checked mbind R_bind].
  destruct (Hc _ _ Hcur) as (e & He & Hoff & _). destruct (Hc _ _ Hprev) as (e' & He' & Hoff' & Hval & Hkey & Hsz & _).
  rewrite (ae_current i it Ha), Hoff in Ho.
  apply offs_inj in Ho; [|apply lookup_lt_Some in He; lia|lia].
  assert (j + Z.to_nat (idx - 1) = i - 1)%nat as Hi' by lia. rewrite Hi' in *.
  unfold cached_key in *. cbn [prev_entries_keys_buff_ set_cache] in *.
  set (kp := match key_ptr c' with Some p => _ | None => _ end) in *. destruct kp as [p pinned]. cbn [fst] in Hkey.
  eexists. split; [done|]. rewrite decide_False by lia. split.
  { split; [|right; cbn; lia]. exists j. intros t c0 Ht. specialize (Hc t c0 Ht). exact Hc. }
  constructor.
  - constructor; cbn.
    + lia.
    + destruct (at_entry_block i it Ha). by constructor.
    + apply Ha.
    + rewrite Hval. eexists. split; [done|]. cbn. lia.
    + rewrite Size_GetKey, GetKey_SetKey. cbn. rewrite Hsz. apply blen_nonneg.
    + intros e2 _ _. exists (i - 1)%nat, e'. rewrite GetKey_SetKey. eauto.
  - exists e'. cbn. rewrite GetKey_SetKey. eauto.
  - cbn. by rewrite Hoff'.
Qed.

(** ** The operations *)

Definition at_pos (pos : option nat) (it : DataBlockIter) : Prop :=
  cache_ok it ∧ match pos with Some i => at_entry i it | None => at_end it end.
Definition kvs_of : list (bytes * bytes) := map (λ e, (e_key e, e_val e)) es.

Lemma data_not_null it : on_block it → bool_decide (data_ it = None) = false.
Proof. intros [Hd _ _ _ _ _]. apply bool_decide_eq_false_2. by rewrite Hd. Qed.
Lemma at_pos_block pos it : at_pos pos it → on_block it.
Proof. intros [_ Hp]. destruct pos; [by eapply at_entry_block|apply Hp]. Qed.
Lemma at_pos_None it it' : cache_ok it → same_cache it it' → at_end it' → at_pos None it'.
Proof. intros. split; [by eapply cache_ok_same|done]. Qed.
Lemma at_pos_Some i it it' : cache_ok it → same_cache it it' → at_entry i it' → at_pos (Some i) it'.
Proof. intros. split; [by eapply cache_ok_same|done]. Qed.
#[local] Hint Resolve at_pos_None at_pos_Some : rdb.

Lemma SeekToFirst_spec it :
  on_block it → cache_ok it →
  ∃ it', SeekToFirst it = Done it' ∧ at_pos (cursor_step compare kvs_of CFirst None) it'.
Proof.
  intros Hb Hc. unfold SeekToFirst. rewrite (data_not_null it Hb).
  destruct (SeekToRestartPoint_spec L it 0 0 Hb (lo_first _ _ _ _ L)) as (it1 & E & Hb1 & Hc1 & _).
  change (Z.of_nat 0) with 0 in E. rewrite E. cbn [mbind R_bind].
  assert (kvs_of = [] ↔ n = 0%nat) as Hnil.
  { unfold kvs_of. split; [by intros ?%map_eq_nil; subst|]. destruct es; [done|by intros]. }
  destruct (parse_next L DecodeEntry 0 it1 (DecodeEntry_ok L) Hb1) as
    [(it2 & -> & ? & Ha & Hc2 & _)|(it2 & -> & ? & Ha & Hc2)]; cbn [mbind R_bind fst]; exists it2; (split; [done|]).
  - cbn [cursor_step]. destruct kvs_of; [exfalso; destruct Hnil as [Hnil _]; specialize (Hnil eq_refl); lia|].
    eapply at_pos_Some; [exact Hc| |done]. by eapply same_cache_trans.
  - cbn [cursor_step]. rewrite (proj2 Hnil) by done. eapply at_pos_None; [exact Hc| |done]. by eapply same_cache_trans.
Qed.

Lemma SeekToLast_spec it :
  on_block it → cache_ok it → ∃ it', SeekToLast it = Done it' ∧ at_pos (prev_pos n None) it'.
Proof.
  intros Hb Hc. unfold SeekToLast. rewrite (data_not_null it Hb). pose proof (num_restarts_range L).
  rewrite (ob_num it Hb), wrap_small by (unfold in_range; lia).
  destruct (lookup_lt_is_Some_2 rs (length rs - 1)) as [r Hr]; [lia|].
  destruct (SeekToRestartPoint_spec L it _ r Hb Hr) as (it1 & E & Hb1 & Hc1 & _).
  rewrite Nat2Z.inj_sub in E by lia. change (Z.of_nat 1) with 1 in E. rewrite E. cbn [mbind R_bind].
  rewrite (loop_fuel_block it1) by apply Hb1. pose proof (entries_in_fuel L).
  destruct (skip_to_last_spec L (S (length data)) r it1 Hb1) as (it2 & -> & Hc2 & Ha); [lia|].
  exists it2. split; [done|]. pose proof (rs_le L r (list_elem_of_lookup_2 _ _ _ Hr)).
  assert (r = n ↔ n = 0%nat) as Hrn by (destruct (lo_range _ _ _ _ L r (list_elem_of_lookup_2 _ _ _ Hr)); lia).
  unfold prev_pos. cbn [default]. pose proof (same_cache_trans _ _ _ Hc1 Hc2).
  destruct (decide (r = n)) as [Hrn'|Hrn'].
  - apply Hrn in Hrn'. rewrite Hrn' in *. eauto with rdb.
  - destruct n as [|m] eqn:En; [lia|]. replace (S m - 1)%nat with m in Ha by lia. eauto with rdb.
Qed.

Lemma Next_spec i it :
  at_pos (Some i) it →
  ∃ it', Next it = Done it' ∧ at_pos (if decide (S i < n)%nat then Some (S i) else None) it'.
Proof.
  intros [Hc Ha]. unfold Next, assert. rewrite (at_entry_Valid i it Ha), orb_true_r. cbn [require mbind R_bind].
  destruct (parse_next (hidx := hidx) L DecodeEntry (S i) it (DecodeEntry_ok L)) as
    [(it2 & -> & ? & Ha2 & Hc2 & _)|(it2 & -> & ? & Ha2 & Hc2)]; [apply Ha|..]; cbn [mbind R_bind fst];
    exists it2; (split; [done|]).
  - rewrite decide_True by lia. eauto with rdb.
  - rewrite decide_False by lia. eauto with rdb.
Qed.

Lemma Prev_pos i it :
  at_pos (Some i) it → ∃ it', Prev it = Done it' ∧ at_pos (prev_pos n (Some i)) it'.
Proof.
  intros [Hc Ha]. destruct (Prev_spec i it Ha Hc) as (it' & -> & Hc' & Ha'). exists it'. split; [done|].
  unfold prev_pos. cbn [default]. destruct i as [|i]; [by split|]. rewrite decide_False in Ha' by lia.
  replace (S i - 1)%nat with i in Ha' by lia. by split.
Qed.

(** ** The seeks *)

Context (Hsorted : StronglySorted (λ a b, compare (e_key a) (e_key b) < 0) es).
Context (cmp_flip : ∀ a b, compare a b < 0 ↔ 0 < compare b a)
  (cmp_trans : ∀ a b c, compare a b ≤ 0 → compare b c ≤ 0 → compare a c ≤ 0).

(** The first position whose key satisfies a test. *)
Definition first_pos (P : Z → Prop) `{!∀ x, Decision (P x)} (t : bytes) : option nat :=
  fst <$> list_find (λ kv, P (compare (fst kv) t)) kvs_of.
Lemma first_pos_Some (P : Z → Prop) `{!∀ x, Decision (P x)} t i e :
  es !! i = Some e → P (compare (e_key e) t) →
  (∀ k x, (k < i)%nat → es !! k = Some x → ¬ P (compare (e_key x) t)) → first_pos P t = Some i.
Proof.
  intros He HP Hall. unfold first_pos. rewrite fmap_Some. exists (i, (e_key e, e_val e)). split; [|done].
  apply list_find_Some. unfold kvs_of. rewrite list_lookup_fmap, He. split_and!; [done|done|].
  intros k [k' v] Hk. rewrite list_lookup_fmap, fmap_Some in Hk. destruct Hk as ([? ? ?] & Hx & [= -> ->]).
  intros Hlt. cbn. exact (Hall k _ Hlt Hx).
Qed.
Lemma first_pos_None (P : Z → Prop) `{!∀ x, Decision (P x)} t :
  (∀ k x, es !! k = Some x → ¬ P (compare (e_key x) t)) → first_pos P t = None.
Proof.
  intros Hall. unfold first_pos. rewrite fmap_None. apply list_find_None, Forall_forall.
  unfold kvs_of. intros kv (e & -> & [k Hk]%list_elem_of_lookup_1)%list_elem_of_fmap. by eapply Hall.
Qed.

Lemma seek_to t it :
  on_block it → cache_ok it →
  ∃ idx r it1 it2, BinarySeek compare t 0 (u32 (num_restarts_ it - 1)) it = Done (it, Some idx) ∧
    SeekToRestartPoint idx it = Done it1 ∧ rs !! Z.to_nat idx = Some r ∧
    seek_linear compare (loop_fuel it1) None t it1 = Done it2 ∧ at_pos (first_pos (λ c, 0 ≤ c) t) it2.
Proof.
  intros Hb Hc.
  destruct (BinarySeek_spec L compare Hsorted cmp_flip cmp_trans t it Hb) as (idx & r & E & Hr & Hless).
  destruct (SeekToRestartPoint_spec L it idx r Hb Hr) as (it1 & E1 & Hb1 & Hc1 & _).
  pose proof (entries_in_fuel L).
  destruct (seek_linear_spec L compare (S (length data)) n None t r it1 Hb1) as (it2 & E2 & Hc2 & Hpos).
  { pose proof (bf_le r it1 Hb1). lia. }
  { cbn. by rewrite offs_all. }
  { lia. }
  exists (Z.of_nat idx), r, it1, it2. rewrite Nat2Z.id, (loop_fuel_block it1) by apply Hb1.
  split_and!; try done. pose proof (same_cache_trans _ _ _ Hc1 Hc2) as Hc12.
  destruct Hpos as [(i & e & Hi & He & Hge & Ha & Hall)|[Ha Hall]].
  - rewrite (first_pos_Some _ t i e He Hge); [by eapply at_pos_Some|].
    intros k x Hk Hx. apply Z.lt_nge. destruct (decide (k < r)%nat); [by eapply Hless|]. by eapply Hall; [|done]; lia.
  - rewrite first_pos_None; [by eapply at_pos_None|].
    intros k x Hx. apply Z.lt_nge. destruct (decide (k < r)%nat); [by eapply Hless|].
    eapply Hall; [|done]. apply lookup_lt_Some in Hx. lia.
Qed.

Lemma Seek_spec t it :
  on_block it → cache_ok it →
  ∃ it', Seek compare t it = Done it' ∧ at_pos (first_pos (λ c, 0 ≤ c) t) it'.
Proof.
  intros Hb Hc. destruct (seek_to t it Hb Hc) as (idx & r & it1 & it2 & E & E1 & _ & E2 & Hp).
  exists it2. unfold Seek. rewrite (data_not_null it Hb), E. cbn [mbind R_bind]. rewrite E1. cbn [mbind R_bind].
  by rewrite E2.
Qed.

(** Back over the entries greater than the target: at most one. *)
Lemma prev_while_greater_spec fuel t it i e :
  (2 ≤ fuel)%nat → at_pos (Some i) it → es !! i = Some e → all_less (es := es) compare i t →
  ∃ it', prev_while_greater compare fuel t it = Done it' ∧
    at_pos (if decide (0 < compare (e_key e) t) then prev_pos n (Some i) else Some i) it'.
Proof.
  intros Hf Hp He Hless. destruct fuel as [|[|fuel]]; [lia|lia|]. remember (S fuel) as f1. cbn [prev_while_greater].
  rewrite (at_entry_Valid i it) by apply Hp. rewrite (Compare_spec compare it i e t) by (done || apply Hp).
  cbn [mbind R_bind]. destruct (Z.ltb_spec 0 (compare (e_key e) t)) as [Hlt|Hge].
  2: { rewrite decide_False by lia. eauto. }
  rewrite decide_True by done. destruct (Prev_pos i it Hp) as (it' & -> & Hp'). cbn [mbind R_bind]. subst f1.
  exists it'. split; [|done]. cbn [prev_while_greater]. unfold prev_pos in Hp'. cbn [default] in Hp'.
  destruct i as [|i]; [by rewrite (at_end_invalid it') by apply Hp'|].
  rewrite (at_entry_Valid i it') by apply Hp'.
  destruct (lookup_lt_is_Some_2 es i) as [e' He']; [apply lookup_lt_Some in He; lia|].
  rewrite (Compare_spec compare it' i e' t) by (done || apply Hp'). cbn [mbind R_bind].
  pose proof (Hless i e' ltac:(lia) He'). by replace (0 <? _) with false by (symmetry; apply Z.ltb_ge; lia).
Qed.

Lemma SeekForPrev_spec t it :
  on_block it → cache_ok it →
  ∃ it', SeekForPrev compare t it = Done it' ∧ at_pos (prev_pos n (first_pos (λ c, 0 < c) t)) it'.
Proof.
  intros Hb Hc. destruct (seek_to t it Hb Hc) as (idx & r & it1 & it2 & E & E1 & _ & E2 & Hp).
  unfold SeekForPrev. rewrite (data_not_null it Hb), E. cbn [mbind R_bind]. rewrite E1. cbn [mbind R_bind].
  rewrite E2. cbn [mbind R_bind]. clear E E1 E2.
  destruct (first_pos (λ c, 0 ≤ c) t) as [i|] eqn:Ef.
  - rewrite (at_entry_Valid i it2) by apply Hp. cbn [negb].
    rewrite (loop_fuel_block it2) by by eapply at_pos_block. pose proof (entries_in_fuel L).
    unfold first_pos in Ef. rewrite fmap_Some in Ef. destruct Ef as ([i' [k v]] & Hfind & ->). cbn [fst] in *.
    apply list_find_Some in Hfind as (Hkv & Hge & Hall). unfold kvs_of in *.
    rewrite list_lookup_fmap, fmap_Some in Hkv. destruct Hkv as (e & He & [= -> ->]). cbn [fst] in *.
    assert (all_less (es := es) compare i' t) as Hless.
    { intros j x Hj Hx. apply Z.nle_gt. intros Hn. apply (Hall j (e_key x, e_val x)); [|done|exact Hn].
      by rewrite list_lookup_fmap, Hx. }
    pose proof (lookup_lt_Some _ _ _ He).
    destruct (prev_while_greater_spec (S (length data)) t it2 i' e) as (it3 & -> & Hp3); [lia|done..|].
    exists it3. split; [done|]. destruct (decide (0 < compare (e_key e) t)) as [Hg|Hg].
    + rewrite (first_pos_Some (λ c, 0 < c) t i' e He Hg); [done|]. intros j x Hj Hx. pose proof (Hless j x Hj Hx). lia.
    + assert (compare (e_key e) t = 0) as Heq by lia.
      assert (first_pos (λ c, 0 < c) t = if decide (S i' < n)%nat then Some (S i') else None) as ->.
      { destruct (decide (S i' < n)%nat) as [Hl|Hl].
        - destruct (lookup_lt_is_Some_2 es (S i')) as [e' He']; [lia|]. apply (first_pos_Some _ t (S i') e' He').
          + apply cmp_flip. eapply (cmp_le_lt compare cmp_flip cmp_trans); [|apply (keys_sorted compare Hsorted i' (S i') e e'); [lia|done|done]].
            pose proof (cmp_flip (e_key e) t). lia.
          + intros j x Hj Hx. destruct (decide (j = i')) as [->|]; [simplify_eq; lia|].
            pose proof (Hless j x ltac:(lia) Hx). lia.
        - apply first_pos_None. intros j x Hx. pose proof (lookup_lt_Some _ _ _ Hx).
          destruct (decide (j = i')) as [->|]; [simplify_eq; lia|]. pose proof (Hless j x ltac:(lia) Hx). lia. }
      destruct (decide (S i' < n)%nat) as [|Hl]; [done|]. unfold prev_pos. cbn [default].
      by assert (length es = S i') as -> by lia.
  - rewrite (at_end_invalid it2) by apply Hp. cbn [negb].
    assert (first_pos (λ c, 0 < c) t = None) as ->.
    { apply first_pos_None. intros j x Hx Hn. unfold first_pos in Ef. rewrite fmap_None in Ef.
      apply list_find_None in Ef. rewrite Forall_forall in Ef. eapply (Ef (e_key x, e_val x)).
      - apply list_elem_of_fmap. exists x. split; [done|]. by eapply list_elem_of_lookup_2.
      - cbn. lia. }
    apply SeekToLast_spec; [by eapply at_pos_block|apply Hp].
Qed.

(** ** Runs *)

Lemma iter_step_spec o pos it :
  at_pos pos it → cursor_may o pos = true →
  ∃ it', iter_step compare o it = Done it' ∧ at_pos (cursor_step compare kvs_of o pos) it'.
Proof.
  intros Hp Hmay. pose proof (at_pos_block pos it Hp) as Hb. pose proof (proj1 Hp) as Hc.
  assert (length kvs_of = n) as Hlen by apply length_map.
  destruct o as [| | | |t|t]; cbn [iter_step cursor_step]; rewrite ?Hlen.
  - by apply SeekToFirst_spec.
  - by apply SeekToLast_spec.
  - destruct pos as [i|]; [|done]. by apply Next_spec.
  - destruct pos as [i|]; [|done]. by apply Prev_pos.
  - by apply Seek_spec.
  - by apply SeekForPrev_spec.
Qed.

Lemma iter_run_spec ops pos it pos' :
  at_pos pos it → cursor_run compare kvs_of ops pos = Some pos' →
  ∃ it', iter_run compare ops it = Done it' ∧ at_pos pos' it'.
Proof.
  revert pos it. induction ops as [|o ops IH]; intros pos it Hp; cbn [cursor_run iter_run]; [intros [= <-]; eauto|].
  destruct (cursor_may o pos) eqn:Hmay; [|done]. intros Hrun.
  destruct (iter_step_spec o pos it Hp Hmay) as (it1 & -> & Hp1). cbn [mbind R_bind]. by eapply IH.
Qed.

(** What the caller reads there. *)
Lemma at_pos_reads pos it :
  at_pos pos it →
  status_ it = OK ∧
  match pos with
  | None => Valid it = false
  | Some i => ∃ k v, kvs_of !! i = Some (k, v) ∧ Valid it = true ∧
      (s ← key it; slice_read data s) = Done k ∧ (s ← value it; slice_read data s) = Done v
  end.
Proof.
  intros Hp. pose proof (at_pos_block pos it Hp) as Hb. split; [apply Hb|]. destruct pos as [i|]; destruct Hp as [_ Hp].
  - destruct (ae_entry i it Hp) as (e & He & Hv & Hk). exists (e_key e), (e_val e). unfold kvs_of.
    rewrite list_lookup_fmap, He. unfold key, value, assert. rewrite (at_entry_Valid i it Hp), !orb_true_r.
    cbn [require mbind R_bind]. split_and!; [done|done|done|]. rewrite Hv. by apply (read_value L).
  - exact (at_end_invalid it Hp).
Qed.
End cursor.
