(* ===== verification/BlockBuilderCorrect.v ===== *)
(** * Building a data block: what BlockBuilder writes

    The builder's state as entries and restart points, one lemma per operation,
    and the block it finishes: a layout, of the size it announced. *)
From Stdlib Require Import SpecFloat.
From S2P Require Import Prelude Result Status Coding Hash Comparator BlockBuilder Block BlockLayout.

(** ** The common prefix *)

Lemma difference_offset_spec a b :
  let d := difference_offset a b in
  (d ≤ length a)%nat ∧ (d ≤ length b)%nat ∧ take d a = take d b.
Proof.
  destruct (difference_offset_split a b) as (p & <- & [(x & a' & y & b' & -> & -> & _)|[(b' & -> & ->)|(a' & -> & ->)]]);
    cbv zeta; rewrite ?length_app, ?take_app_length, ?firstn_all; split_and!; try lia; done.
Qed.

Lemma offs_app es x r : (r ≤ length es)%nat → offs (es ++ x) r = offs es r.
Proof. intros Hr. unfold offs. by rewrite take_app_le. Qed.

Section builder.
Context `{Host, Build, DbFormat}.

(** ** Sequences of entries *)

(** The part of [layout] that does not speak of bytes. *)
Record chained (es : list Entry) (rs : list nat) : Prop := {
  ch_first : rs !! 0%nat = Some 0%nat;
  ch_sorted : StronglySorted lt rs;
  ch_range : ∀ r, r ∈ rs → r = 0%nat ∨ (r < length es)%nat;
  ch_whole : ∀ r e, r ∈ rs → es !! r = Some e → e_shared e = 0%nat;
  ch_shared : ∀ i e, es !! i = Some e →
    (e_shared e ≤ length (e_key e))%nat ∧
    (e_shared e = 0%nat ∨ ∃ i' e', i = S i' ∧ es !! i' = Some e' ∧
       (e_shared e ≤ length (e_key e'))%nat ∧
       take (e_shared e) (e_key e') = take (e_shared e) (e_key e));
}.

Lemma sorted_snoc (l : list nat) x : StronglySorted lt l → (∀ y, y ∈ l → (y < x)%nat) → StronglySorted lt (l ++ [x]).
Proof.
  induction 1 as [|y l Hs IH Hf]; intros Hx; cbn.
  - repeat constructor.
  - constructor; [apply IH; intros z Hz; apply Hx; set_solver|].
    apply Forall_app. split; [done|]. repeat constructor. apply Hx. set_solver.
Qed.

(** One more entry, sharing a prefix with the last, or a restart point. *)
Lemma chained_snoc es rs e restart :
  chained es rs → (restart = true → es ≠ [] ∧ e_shared e = 0%nat) → (e_shared e ≤ length (e_key e))%nat →
  (e_shared e = 0%nat ∨ ∃ l, last es = Some l ∧ (e_shared e ≤ length (e_key l))%nat ∧
     take (e_shared e) (e_key l) = take (e_shared e) (e_key e)) →
  chained (es ++ [e]) (if restart : bool then rs ++ [length es] else rs).
Proof.
  intros [Hf Hs Hr Hw Hsh] Hrestart Hle Hprev.
  assert (∀ r, r ∈ (if restart then rs ++ [length es] else rs) → r ∈ rs ∨ (r = length es ∧ restart = true)) as Hin.
  { intros r. destruct restart; [|by left]. rewrite elem_of_app, list_elem_of_singleton. intros [?| ->]; auto. }
  split.
  - destruct restart; [|done]. by apply lookup_app_l_Some.
  - destruct restart; [|done]. apply sorted_snoc; [done|]. intros y Hy.
    destruct (Hrestart eq_refl) as [Hne _]. destruct (Hr y Hy) as [->|]; [|done]. destruct es; [done|cbn; lia].
  - intros r Hrs. rewrite length_app. cbn. destruct (Hin r Hrs) as [Hold|[-> _]]; [|right; lia].
    destruct (Hr r Hold); [by left|right; lia].
  - intros r x Hrs [Hx|[Hge Hx]]%lookup_app_Some.
    + destruct (Hin r Hrs) as [Hold|[-> _]]; [by eapply Hw|]. apply lookup_lt_Some in Hx. lia.
    + apply list_lookup_singleton_Some in Hx as [Hz <-]. destruct (Hin r Hrs) as [Hold|[-> Ht]].
      * destruct (Hr r Hold) as [->|]; [|lia]. destruct Hprev as [|(l & Hl & _)]; [done|].
        destruct es; [done|]. cbn in Hge. lia.
      * by apply Hrestart.
  - intros i x [Hx|[Hge Hx]]%lookup_app_Some.
    + destruct (Hsh i x Hx) as [? [?|(i' & e' & ? & Hi' & ? & ?)]]; (split; [done|]); [by left|right].
      exists i', e'. split_and!; [done|by apply lookup_app_l_Some|done|done].
    + apply list_lookup_singleton_Some in Hx as [Hz <-]. split; [done|].
      destruct Hprev as [|(l & Hl & ? & ?)]; [by left|right].
      rewrite last_lookup in Hl. pose proof (lookup_lt_Some _ _ _ Hl).
      exists (Nat.pred (length es)), l. split_and!; [lia|by apply lookup_app_l_Some|done|done].
Qed.

(** ** The hash index's pairs *)

(** Entry [i] lies in the interval of the [j]th restart point. *)
Definition in_interval (rs : list nat) (j i : nat) : Prop :=
  ∃ r, rs !! j = Some r ∧ (r ≤ i)%nat ∧ ∀ r', rs !! S j = Some r' → (i < r')%nat.

Definition pairs_ok (es : list Entry) (rs : list nat) (pairs : list (Z * Z)) : Prop :=
  length pairs = length es ∧
  ∀ i e p, es !! i = Some e → pairs !! i = Some p →
    ∃ j, p = (GetSliceHash (ExtractUserKey (e_key e)), Z.of_nat j) ∧ (j ≤ 253)%nat ∧ in_interval rs j i.

Lemma pairs_ok_snoc es rs pairs e restart j :
  chained es rs → pairs_ok es rs pairs →
  let rs' := if restart : bool then rs ++ [length es] else rs in
  S j = length rs' → (j ≤ 253)%nat →
  pairs_ok (es ++ [e]) rs' (pairs ++ [(GetSliceHash (ExtractUserKey (e_key e)), Z.of_nat j)]).
Proof.
  intros Hch [Hlen Hp] rs' Hj Hj3. split; [rewrite !length_app; cbn; lia|].
  assert (∀ r, r ∈ rs' → (r ≤ length es)%nat) as Hle.
  { intros r Hr. unfold rs' in Hr. destruct restart.
    - apply elem_of_app in Hr as [Hr|Hr%list_elem_of_singleton]; [|lia]. destruct (ch_range _ _ Hch r Hr); lia.
    - destruct (ch_range _ _ Hch r Hr); lia. }
  intros i x p [Hx|[Hge Hx]]%lookup_app_Some.
  - rewrite lookup_app_l by (apply lookup_lt_Some in Hx; lia). intros Hpi.
    destruct (Hp i x p Hx Hpi) as (k & -> & ? & r & Hr & Hri & Hnext). exists k. split_and!; [done|done|].
    apply lookup_lt_Some in Hx. pose proof (lookup_lt_Some _ _ _ Hr) as Hk.
    exists r. split_and!; [|done|].
    + unfold rs'. destruct restart; [by apply lookup_app_l_Some|done].
    + intros r'. unfold rs'. destruct restart; [|apply Hnext].
      intros [?|[? Hl]]%lookup_app_Some; [by apply Hnext|].
      apply list_lookup_singleton_Some in Hl as [_ <-]. done.
  - apply list_lookup_singleton_Some in Hx as [Hz <-]. assert (i = length es) as -> by lia.
    rewrite lookup_app_r, Hlen, Nat.sub_diag by lia. cbn. intros [= <-]. exists j. split_and!; [done|done|].
    destruct (lookup_lt_is_Some_2 rs' j) as [r Hr]; [lia|]. exists r. split_and!; [done|apply Hle; by eapply list_elem_of_lookup_2|].
    intros r' Hr'. apply lookup_lt_Some in Hr'. lia.
Qed.

(** ** The builder's state *)

Record built (interval : Z) (use_delta : bool) (b : BlockBuilder) (es : list Entry) (rs : list nat) : Prop := {
  bu_interval : block_restart_interval_ b = interval;
  bu_delta : use_delta_encoding_ b = use_delta;
  bu_value_delta : use_value_delta_encoding_ b = false;
  bu_buffer : buffer_ b = encs es;
  bu_restarts : restarts_ b = map (λ r, u32 (offs es r)) rs;
  bu_estimate : estimate_ b = u64 (4 + 4 * Z.of_nat (length rs) + blen (encs es));
  bu_counter : 0 ≤ counter_ b ≤ interval;
  bu_counter_0 : es = [] → counter_ b = 0;
  bu_finished : finished_ b = false;
  bu_last : use_delta = true → last_key_ b = default [] (e_key <$> last es);
  bu_chained : chained es rs;
  bu_hash : hash_Valid (data_block_hash_index_builder_ b) = true →
    pairs_ok es rs (hash_and_restart_pairs_ (data_block_hash_index_builder_ b));
}.

Lemma chained_nil : chained [] [0%nat].
Proof.
  split.
  - done.
  - repeat constructor.
  - intros r ->%list_elem_of_singleton. by left.
  - intros r e _ ?. done.
  - intros i e ?. done.
Qed.

Lemma new_hash_builder_invalid : hash_Valid new_hash_builder = false.
Proof. done. Qed.

Lemma new_BlockBuilder_built interval use_delta index_type ratio :
  1 ≤ interval →
  ∃ b, new_BlockBuilder interval use_delta false index_type ratio = Done b ∧ built interval use_delta b [] [0%nat].
Proof.
  intros Hi. unfold new_BlockBuilder, assert. rewrite (proj2 (Z.leb_le 1 interval)), orb_true_r by done.
  cbn [require mbind R_bind]. eexists. split; [done|].
  split; cbn; try done; try lia; [apply chained_nil|].
  intros _. destruct index_type; split; try done.
Qed.

Lemma offs_map_snoc es e rs :
  (∀ r, r ∈ rs → (r ≤ length es)%nat) → map (λ r, u32 (offs (es ++ [e]) r)) rs = map (λ r, u32 (offs es r)) rs.
Proof. intros Hr. apply map_ext_in. intros r Hin. rewrite offs_app; [done|]. apply Hr. by apply list_elem_of_In. Qed.
Lemma chained_le es rs r : chained es rs → r ∈ rs → (r ≤ length es)%nat.
Proof. intros Hch Hr. destruct (ch_range _ _ Hch r Hr); lia. Qed.

(** What [Add] starts an entry with. *)
Lemma Add_prefix_spec interval use_delta b es rs key value :
  1 ≤ interval → built interval use_delta b es rs →
  ∃ restart shared estimate last,
    let e := mkEntry key value shared in
    let rs' := if restart : bool then rs ++ [length es] else rs in
    Add_prefix key b = (map (λ r, u32 (offs (es ++ [e]) r)) rs', estimate,
                        (if restart then 0 else counter_ b), last, Z.of_nat shared) ∧
    estimate = u64 (4 + 4 * Z.of_nat (length rs') + blen (encs es)) ∧
    (restart = false → counter_ b < interval) ∧
    (use_delta = true → last = key) ∧ chained (es ++ [e]) rs'.
Proof.
  intros Hint [Hi Hd Hvd Hbuf Hrs Hest Hcnt Hc0 Hfin Hlast Hch Hh].
  unfold Add_prefix. rewrite Hi, Hd, Hrs, Hest, Hbuf.
  destruct (Z.leb_spec interval (counter_ b)) as [Hge|Hlt].
  - exists true, O, (u64 (u64 (4 + 4 * Z.of_nat (length rs) + blen (encs es)) + 4)), (if use_delta then key else last_key_ b).
    cbv zeta. split_and!; [|rewrite wrap_add_l, length_app; f_equal; cbn; lia|done|by intros ->|].
    + rewrite map_app, offs_map_snoc by (intros; by eapply chained_le). cbn [map].
      by rewrite offs_app, offs_all by done.
    + apply (chained_snoc es rs (mkEntry key value 0) true Hch); [|cbn; lia|by left].
      intros _. split; [|done]. intros ->. specialize (Hc0 eq_refl). lia.
  - rewrite <- (offs_map_snoc es (mkEntry key value (if use_delta then difference_offset key (last_key_ b) else 0)) rs)
      by (intros; by eapply chained_le).
    exists false, (if use_delta then difference_offset key (last_key_ b) else 0%nat),
      (u64 (4 + 4 * Z.of_nat (length rs) + blen (encs es))), (if use_delta then key else last_key_ b).
    cbv zeta. split_and!; [by destruct use_delta|done|done|by intros ->|].
    apply (chained_snoc es rs _ false Hch); [done|..]; cbn; (destruct use_delta; [|lia || by left]).
    + apply difference_offset_spec.
    + rewrite (Hlast eq_refl). destruct (last es) as [l|]; cbn.
      * pose proof (difference_offset_spec key (e_key l)) as (_ & Hd2 & Hd3). right. by exists l.
      * left. by destruct key.
Qed.

(** The hash index after an addition: the new pair, or it is given up. *)
Lemma hash_step hb es rs e restart :
  let rs' := if restart : bool then rs ++ [length es] else rs in
  chained es rs → (0 < length rs)%nat →
  (hash_Valid hb = true → pairs_ok es rs (hash_and_restart_pairs_ hb)) →
  ∃ hb', (if hash_Valid hb then hash_Add (ExtractUserKey (e_key e)) (Z.of_nat (length rs') - 1) hb else Done hb) = Done hb' ∧
    (hash_Valid hb' = true → pairs_ok (es ++ [e]) rs' (hash_and_restart_pairs_ hb')).
Proof.
  intros rs' Hch Hne Hh. destruct (hash_Valid hb) eqn:Hv; [|exists hb; split; [done|congruence]].
  unfold hash_Add, assert. rewrite Hv, orb_true_r. cbn [require mbind R_bind].
  assert (0 < length rs')%nat as Hne' by (unfold rs'; destruct restart; rewrite ?length_app; lia).
  destruct (Z.ltb_spec kMaxRestartSupportedByHashIndex (Z.of_nat (length rs') - 1)) as [Hgt|Hle].
  - eexists. split; [done|]. done.
  - eexists. split; [done|]. intros _. cbn [hash_and_restart_pairs_]. unfold kMaxRestartSupportedByHashIndex in Hle.
    replace (u8 (Z.of_nat (length rs') - 1)) with (Z.of_nat (length rs' - 1)).
    + apply pairs_ok_snoc; [done|by apply Hh| |]; fold rs'; lia.
    + rewrite wrap_small; [lia|]. split; [lia|]. change (2 ^ 8) with 256. lia.
Qed.

Lemma Add_spec interval use_delta b es rs key value :
  1 ≤ interval → built interval use_delta b es rs → blen key < 2 ^ 32 → blen value < 2 ^ 32 →
  ∃ b' e rs', Add key value None b = Done b' ∧ built interval use_delta b' (es ++ [e]) rs' ∧
    e_key e = key ∧ e_val e = value ∧ (length rs' ≤ S (length rs))%nat.
Proof.
  intros Hint Hb Hk Hv. pose proof Hb as [Hi Hd Hvd Hbuf Hrs Hest Hcnt Hc0 Hfin Hlast Hch Hh].
  destruct (Add_prefix_spec interval use_delta b es rs key value Hint Hb) as (restart & shared & estimate & last' & Hp).
  cbv zeta in Hp. set (e := mkEntry key value shared) in *.
  set (rs' := if restart then rs ++ [length es] else rs) in *.
  destruct Hp as (Hpre & Hest' & Hcnt' & Hl & Hch').
  assert (Z.of_nat shared ≤ blen key) as Hsh.
  { destruct (ch_shared _ _ Hch' (length es) e) as [Hle _]; [|cbn in Hle; unfold blen; lia].
    by rewrite lookup_app_r, Nat.sub_diag by lia. }
  unfold Add, assert. rewrite Hfin, Hi, Hvd, (proj2 (Z.leb_le (counter_ b) interval)), !orb_true_r by lia.
  cbn [negb orb require mbind R_bind]. rewrite ?orb_true_r. cbn [require mbind R_bind].
  rewrite Hpre, andb_false_r. cbn [mbind R_bind]. rewrite Nat2Z.id, length_map.
  destruct (hash_step (data_block_hash_index_builder_ b) es rs e restart Hch) as (hb' & Ehb & Hhb'); [|done|].
  { apply lookup_lt_Some with 0%nat. apply Hch. }
  fold rs' in Ehb. change (e_key e) with key in Ehb. rewrite Ehb. cbn [mbind R_bind].
  eexists _, e, rs'. split; [done|]. split_and!; try done.
  2: { unfold rs'. destruct restart; rewrite ?length_app; cbn; lia. }
  assert (PutVarint32Varint32Varint32 (buffer_ b) (u32 (Z.of_nat shared)) (u32 (blen key - Z.of_nat shared)) (u32 (blen value))
            ++ drop shared key = buffer_ b ++ enc_lengths (Z.of_nat shared) (blen key - Z.of_nat shared) (blen value) ++ drop shared key) as Hput.
  { pose proof (blen_nonneg value). unfold PutVarint32Varint32Varint32, enc_lengths.
    rewrite !wrap_small by (unfold in_range; lia). by rewrite <- !app_assoc. }
  assert (encs (es ++ [e]) = encs es ++ enc e) as Henc by (rewrite encs_app; unfold encs at 2; cbn; by rewrite app_nil_r).
  rewrite Hput, Hbuf.
  replace ((encs es ++ enc_lengths _ _ _ ++ drop shared key) ++ value) with (encs es ++ enc e) by (unfold enc; cbn; by rewrite <- !app_assoc).
  split; cbn; try done.
  - rewrite Hest', wrap_add_l, Henc, !blen_app. f_equal. lia.
  - destruct restart; [|specialize (Hcnt' eq_refl)]; lia.
  - by destruct es.
  - intros Hu. rewrite last_snoc. cbn. by apply Hl.
Qed.

(** ** A run of additions *)

Fixpoint Add_all (kvs : list (bytes * bytes)) (b : BlockBuilder) : R BlockBuilder :=
  match kvs with [] => Done b | (k, v) :: kvs' => b ← Add k v None b; Add_all kvs' b end.

(** The block of some keys and values. *)
Definition build_block (interval : Z) (use_delta : bool) (index_type : DataBlockIndexType) (ratio : double)
    (kvs : list (bytes * bytes)) : R bytes :=
  b ← new_BlockBuilder interval use_delta false index_type ratio;
  b ← Add_all kvs b;
  '(_, contents) ← Finish b;
  Done contents.

(** Their size with the most an entry and its restart point can add stays
    clear of 32 bits. *)
Definition fits (kvs : list (bytes * bytes)) : Prop :=
  8 + foldr (λ kv s, blen (fst kv) + blen (snd kv) + 19 + s) 0 kvs < 2 ^ 32.

Lemma blen_enc_le e : (e_shared e ≤ length (e_key e))%nat → blen (enc e) ≤ blen (e_key e) + blen (e_val e) + 15.
Proof.
  intros Hs. unfold enc. rewrite !blen_app, (blen_drop (e_key e)) by done.
  pose proof (length_enc_lengths (Z.of_nat (e_shared e)) (blen (e_key e) - Z.of_nat (e_shared e)) (blen (e_val e))).
  unfold blen at 1. lia.
Qed.

Lemma Add_all_spec interval use_delta kvs b es rs :
  1 ≤ interval → built interval use_delta b es rs → fits kvs →
  ∃ b' es' rs', Add_all kvs b = Done b' ∧ built interval use_delta b' (es ++ es') rs' ∧
    map (λ e, (e_key e, e_val e)) es' = kvs ∧
    blen (encs es') + 4 * Z.of_nat (length rs') ≤
      4 * Z.of_nat (length rs) + foldr (λ kv s, blen (fst kv) + blen (snd kv) + 19 + s) 0 kvs.
Proof.
  intros Hint. revert b es rs. induction kvs as [|[k v] kvs IH]; intros b es rs Hb Hf.
  { exists b, [], rs. rewrite app_nil_r. split_and!; [done|done|done|]. unfold blen. cbn. lia. }
  assert (∀ l, 0 ≤ foldr (λ kv s, blen (fst kv) + blen (snd kv) + 19 + s) 0 l) as Hpos.
  { induction l as [|kv l IHl]; cbn; [lia|]. pose proof (blen_nonneg (fst kv)). pose proof (blen_nonneg (snd kv)). lia. }
  unfold fits in Hf. cbn in Hf. pose proof (Hpos kvs). pose proof (blen_nonneg k). pose proof (blen_nonneg v).
  destruct (Add_spec interval use_delta b es rs k v Hint Hb) as (b1 & e & rs1 & E & Hb1 & Hk & Hv & Hr1); [lia|lia|].
  cbn [Add_all]. rewrite E. cbn [mbind R_bind].
  destruct (IH b1 (es ++ [e]) rs1 Hb1) as (b2 & es2 & rs2 & E2 & Hb2 & Hm & Hsz); [unfold fits; lia|].
  exists b2, (e :: es2), rs2. rewrite E2, <- app_assoc in *. split_and!; [done|exact Hb2|cbn; by rewrite Hm, Hk, Hv|].
  change (encs (e :: es2)) with (enc e ++ encs es2). rewrite blen_app. cbn.
  assert (e_shared e ≤ length (e_key e))%nat as Hs.
  { eapply (ch_shared _ _ (bu_chained _ _ _ _ _ Hb1) (length es) e). by rewrite lookup_app_r, Nat.sub_diag by lia. }
  pose proof (blen_enc_le e Hs) as Hle. rewrite Hk, Hv in Hle. lia.
Qed.

(** ** Finishing *)

Lemma foldl_PutFixed32 l buf : foldl PutFixed32 buf l = buf ++ concat (map EncodeFixed32 l).
Proof.
  revert buf. induction l as [|x l IH]; intros buf; cbn; [by rewrite app_nil_r|].
  by rewrite IH, PutFixed32_app, <- app_assoc.
Qed.

Lemma length_hash_buckets nb pairs : 0 ≤ nb → blen (hash_buckets nb pairs) = nb.
Proof.
  intros Hnb. unfold hash_buckets, blen.
  assert (∀ l bs, length (foldl (fill_bucket nb) bs l) = length bs) as Hl.
  { induction l as [|[h ri] l IH]; intros bs; cbn [foldl]; [done|]. rewrite IH. unfold fill_bucket.
    destruct (_ =? _); [by rewrite length_insert|]. destruct (negb _); [by rewrite length_insert|done]. }
  rewrite Hl, length_replicate. lia.
Qed.

(** What follows the restart array. *)
Inductive block_tail (es : list Entry) (rs : list nat) : bytes → Prop :=
  | tail_plain : block_tail es rs (EncodeFixed32 (Z.of_nat (length rs)))
  | tail_hash nb pairs :
      0 < nb < 2 ^ 16 → pairs_ok es rs pairs →
      blen (encs es) + 4 * Z.of_nat (length rs) + nb + 2 + 4 ≤ 2 ^ 16 →
      block_tail es rs (hash_buckets nb pairs ++ EncodeFixed16 nb ++ EncodeFixed32 (Z.of_nat (length rs) .| (1 << 31))).

Lemma odd_buckets x : in_range 16 x → (if x =? 0 then 1 else x) .| 1 = x .| 1 ∧ 0 < x .| 1 < 2 ^ 16.
Proof.
  intros Hx. split; [by destruct (Z.eqb_spec x 0) as [->|]|].
  destruct (lor_range 16 x 1) as [Hl1 Hl2]; [lia|done|split; [lia|reflexivity]|]. split; [|done].
  destruct (decide (x .| 1 = 0)) as [[_ ?]%Z.lor_eq_0_iff|]; [done|lia].
Qed.

Lemma CurrentSizeEstimate_spec interval use_delta b es rs :
  built interval use_delta b es rs → blen (encs es) + 4 * Z.of_nat (length rs) + 4 < 2 ^ 32 →
  let plain := blen (encs es) + 4 * Z.of_nat (length rs) + 4 in
  if hash_Valid (data_block_hash_index_builder_ b) then
    match double_to_uint 16 (estimated_num_buckets_ (data_block_hash_index_builder_ b)) with
    | Some x => CurrentSizeEstimate b = Done (plain + 2 + (x .| 1))
    | None => CurrentSizeEstimate b = Fault Undefined
    end
  else CurrentSizeEstimate b = Done plain.
Proof.
  intros Hb Hsz plain. unfold CurrentSizeEstimate, hash_EstimateSize. rewrite (bu_estimate _ _ _ _ _ Hb).
  pose proof (blen_nonneg (encs es)). change (2 ^ 64) with (2 ^ 32 * 2 ^ 32).
  destruct (hash_Valid _); cbn [mbind R_bind].
  - destruct (double_to_uint 16 _) as [x|] eqn:Ex; cbn [checked mbind R_bind]; [|done].
    apply double_to_uint_range in Ex; [|lia]. apply odd_buckets in Ex as [_ ?].
    rewrite wrap_add_l, wrap_small; [f_equal; unfold plain; lia|]. change (2 ^ 16) with 65536 in *.
    unfold in_range. change (2 ^ 64) with (2 ^ 32 * 2 ^ 32). lia.
  - rewrite wrap_add_l, wrap_small; [f_equal; unfold plain; lia|].
    unfold in_range. change (2 ^ 64) with (2 ^ 32 * 2 ^ 32). lia.
Qed.

Lemma finished_buffer interval use_delta b es rs :
  built interval use_delta b es rs → blen (encs es) < 2 ^ 32 →
  foldl PutFixed32 (buffer_ b) (restarts_ b) = encs es ++ restart_array es rs.
Proof.
  intros Hb Hsz. rewrite (bu_buffer _ _ _ _ _ Hb), (bu_restarts _ _ _ _ _ Hb), foldl_PutFixed32. f_equal.
  unfold restart_array. rewrite map_map. f_equal. apply map_ext_in. intros r Hr%list_elem_of_In.
  rewrite wrap_small; [done|]. pose proof (chained_le _ _ r (bu_chained _ _ _ _ _ Hb) Hr).
  pose proof (offs_le es r (length es) ltac:(lia)) as Hle. rewrite (offs_all es (length es)) in Hle by done.
  split; [apply blen_nonneg|lia].
Qed.

Lemma Pack_spec t num : 0 ≤ num ≤ kMaxNumRestarts →
  PackIndexTypeAndNumRestarts t num = Done (match t with kDataBlockBinaryAndHash => num .| (1 << 31) | _ => num end).
Proof.
  intros Hn. unfold PackIndexTypeAndNumRestarts, assert. rewrite (proj2 (Z.leb_le _ _)), orb_true_r by apply Hn.
  by destruct t.
Qed.

(** The finished block; it has exactly the estimated size, unless that was too
    much for a hash index and the index was left out. *)
Lemma Finish_spec interval use_delta b es rs :
  built interval use_delta b es rs → blen (encs es) + 4 * Z.of_nat (length rs) + 4 < 2 ^ 32 →
  match CurrentSizeEstimate b with
  | Done est => ∃ b' tail, Finish b = Done (b', encs es ++ restart_array es rs ++ tail) ∧ block_tail es rs tail ∧
      (if hash_Valid (data_block_hash_index_builder_ b) && (2 ^ 16 <? est)
       then blen (encs es ++ restart_array es rs ++ tail) < est
       else blen (encs es ++ restart_array es rs ++ tail) = est)
  | Fault f => f = Undefined ∧ hash_Valid (data_block_hash_index_builder_ b) = true ∧ Finish b = Fault Undefined
  end.
Proof.
  intros Hb Hsz. pose proof (blen_nonneg (encs es)) as Hnn.
  pose proof (CurrentSizeEstimate_spec interval use_delta b es rs Hb Hsz) as Hest. cbv zeta in Hest.
  assert (0 ≤ Z.of_nat (length rs) ≤ kMaxNumRestarts) as Hnum.
  { change kMaxNumRestarts with (2 ^ 31 - 1). change (2 ^ 32) with (2 * 2 ^ 31) in Hsz. lia. }
  pose proof (finished_buffer interval use_delta b es rs Hb ltac:(lia)) as Hbuf.
  assert (u32 (Z.of_nat (length (restarts_ b))) = Z.of_nat (length rs)) as Hlen.
  { rewrite (bu_restarts _ _ _ _ _ Hb), length_map. apply wrap_small. unfold in_range. lia. }
  pose proof (blen_restart_array es rs) as Hra.
  unfold Finish. rewrite Hbuf, Hlen.
  destruct (hash_Valid _) eqn:Hv.
  2: { rewrite Hest. cbn [mbind R_bind andb]. rewrite Pack_spec by done. cbn [mbind R_bind].
       eexists _, _. rewrite PutFixed32_app, <- app_assoc. split; [done|]. split; [constructor|].
       rewrite !blen_app, Hra. unfold blen at 2. rewrite length_EncodeFixed32. lia. }
  destruct (double_to_uint 16 _) as [x|] eqn:Ex.
  2: { rewrite Hest. cbn [mbind R_bind]. done. }
  pose proof Ex as Hx. apply double_to_uint_range in Hx; [|lia]. apply odd_buckets in Hx as [Hodd Hx].
  rewrite Hest. cbn [mbind R_bind andb]. set (nb := x .| 1) in *.
  set (est := _ + 2 + nb) in *. change kMaxBlockSizeSupportedByHashIndex with (2 ^ 16).
  destruct (Z.leb_spec est (2 ^ 16)) as [Hle|Hgt].
  - unfold hash_Finish, assert. rewrite Hv, Ex, orb_true_r. cbn [require mbind R_bind checked]. rewrite Hodd. fold nb.
    rewrite PutFixed16_app, <- !app_assoc.
    replace (blen _ <=? _) with true.
    2: { symmetry. apply Z.leb_le. rewrite !blen_app, Hra, length_hash_buckets by lia. unfold blen at 2.
         rewrite length_EncodeFixed16. change kMaxBlockSizeSupportedByHashIndex with (2 ^ 16). lia. }
    rewrite orb_true_r. cbn [require mbind R_bind]. rewrite Pack_spec by done. cbn [mbind R_bind].
    eexists _, _. rewrite PutFixed32_app, <- !app_assoc. split; [done|].
    rewrite (proj2 (Z.ltb_ge _ _)) by done. split; [constructor; [done|by apply (bu_hash _ _ _ _ _ Hb)|unfold est in *; lia]|].
    rewrite !blen_app, Hra, length_hash_buckets by lia. unfold blen at 2 3.
    rewrite length_EncodeFixed16, length_EncodeFixed32. unfold est. lia.
  - cbn [mbind R_bind]. rewrite Pack_spec by done. cbn [mbind R_bind].
    eexists _, _. rewrite PutFixed32_app, <- app_assoc. split; [done|]. split; [constructor|].
    rewrite (proj2 (Z.ltb_lt _ _)) by done. rewrite !blen_app, Hra. unfold blen at 2. rewrite length_EncodeFixed32. unfold est. lia.
Qed.
End builder.
