(* ===== verification/BlockReadCorrect.v ===== *)
(** * Data blocks: theorems

    A block that BlockBuilder finished, opened and iterated: the iterator is a
    cursor on the keys and values that were added. What the builder announces
    and what its Reset forgets; what the checks of Block and of
    CheckAndDecodeEntry let through. *)
From Stdlib Require Import SpecFloat.
From S2P Require Import Prelude Result Status Coding Hash Comparator Cursor BlockBuilder Block BlockLayout BlockIterCorrect BlockCursor BlockBuilderCorrect.

(** ** Opening a block *)

Section open.
Context `{Host, Build, DbFormat}.

Lemma built_layout interval use_delta b es rs tail :
  built interval use_delta b es rs → blen (encs es ++ restart_array es rs ++ tail) < 2 ^ 32 →
  layout (encs es ++ restart_array es rs ++ tail) es rs tail.
Proof. intros Hb Hsz. destruct (bu_chained _ _ _ _ _ Hb). by constructor. Qed.

Lemma drop_last_fixed32 pre v : in_range 32 v → block_footer (pre ++ EncodeFixed32 v) = v.
Proof.
  intros Hv. unfold block_footer. rewrite length_app, length_EncodeFixed32, Nat.add_sub, drop_app_length.
  rewrite <- (app_nil_r (EncodeFixed32 v)). by apply DecodeFixed32_encode.
Qed.

Lemma unpack_plain v : in_range 31 v → UnPackIndexTypeAndNumRestarts v = (kDataBlockBinarySearch, v).
Proof.
  intros Hv. unfold UnPackIndexTypeAndNumRestarts. change (1 << 31) with (2 ^ 31). change kNumRestartsMask with (Z.ones 31).
  rewrite Z.land_ones by lia. rewrite (wrap_small 31 v Hv : v mod 2 ^ 31 = v).
  replace (v .& 2 ^ 31) with 0; [done|]. symmetry. apply Z.bits_inj'. intros i Hi.
  rewrite Z.land_spec, Z.bits_0, Z.pow2_bits_eqb by lia. destruct (Z.eqb_spec 31 i) as [<-|]; [|by rewrite andb_false_r].
  by rewrite (in_range_testbit 31 v 31) by (done || lia).
Qed.
Lemma unpack_hash v :
  in_range 31 v →
  in_range 32 (v .| (1 << 31)) ∧ UnPackIndexTypeAndNumRestarts (v .| (1 << 31)) = (kDataBlockBinaryAndHash, v).
Proof.
  intros Hv. assert (v .| (1 << 31) = v + 1 * 2 ^ 31) as Hor by (apply lor_disjoint_add; [lia|done]).
  split.
  - rewrite Hor. unfold in_range in *. change (2 ^ 32) with (2 * 2 ^ 31). lia.
  - unfold UnPackIndexTypeAndNumRestarts. change kNumRestartsMask with (Z.ones 31).
    rewrite Z.land_ones by lia. rewrite Hor at 2. rewrite Z.mod_add, (wrap_small 31 v Hv : v mod 2 ^ 31 = v) by lia.
    f_equal. destruct (Z.eqb_spec ((v .| (1 << 31)) .& (1 << 31)) 0) as [E|]; [|done].
    change (1 << 31) with (2 ^ 31) in E.
    apply (f_equal (λ z, Z.testbit z 31)) in E. rewrite Z.land_spec, Z.lor_spec, Z.pow2_bits_true, orb_true_r in E by lia.
    done.
Qed.

(** What the constructor finds in a finished block. *)
Definition tail_buckets (tail : bytes) (es : list Entry) (rs : list nat) (nb : Z) : Prop :=
  (nb = 0 ∧ tail = EncodeFixed32 (Z.of_nat (length rs))) ∨
  (0 < nb < 2 ^ 16 ∧ ∃ pairs, pairs_ok es rs pairs ∧
     tail = hash_buckets nb pairs ++ EncodeFixed16 nb ++ EncodeFixed32 (Z.of_nat (length rs) .| (1 << 31))).

Lemma new_Block_spec data es rs tail :
  layout data es rs tail → block_tail es rs tail →
  ∃ nb, new_Block data = Done (mkBlock data (blen data) (restarts_off (es := es)) (Z.of_nat (length rs)) nb) ∧
    tail_buckets tail es rs nb.
Proof.
  intros L Ht. pose proof (num_restarts_range L) as Hnum. pose proof (restarts_off_range L) as [Hoff Hrs].
  pose proof (lo_size _ _ _ _ L) as Hsz. pose proof (lo_bytes _ _ _ _ L) as Hd.
  assert (in_range 31 (Z.of_nat (length rs))) as Hn31 by (unfold in_range; lia).
  assert (4 ≤ blen tail) as Htail.
  { inversion Ht; rewrite ?blen_app; unfold blen; rewrite ?length_EncodeFixed32; lia. }
  assert (blen data = restarts_off (es := es) + 4 * Z.of_nat (length rs) + blen tail) as Hlen.
  { rewrite Hd, !blen_app, blen_restart_array. unfold restarts_off. lia. }
  unfold new_Block, NumRestarts, IndexType, assert.
  rewrite (proj2 (Z.ltb_ge (blen data) 4)), (proj2 (Z.leb_le (2 * 4) (blen data))), orb_true_r by lia.
  cbn [require mbind R_bind]. unfold kMaxBlockSizeSupportedByHashIndex. change (1 << 16) with (2 ^ 16).
  destruct Ht as [|nb pairs Hnb Hp Hfit].
  - exists 0. assert (block_footer data = Z.of_nat (length rs)) as ->.
    { rewrite Hd, app_assoc. apply drop_last_fixed32. unfold in_range. lia. }
    rewrite unpack_plain by done. cbn [fst snd].
    assert ((if 2 ^ 16 <? blen data then Z.of_nat (length rs) else Z.of_nat (length rs)) = Z.of_nat (length rs)) as -> by by destruct (_ <? _).
    assert ((if 2 ^ 16 <? blen data then kDataBlockBinarySearch else kDataBlockBinarySearch) = kDataBlockBinarySearch) as -> by by destruct (_ <? _).
    unfold blen in Hlen at 2. rewrite length_EncodeFixed32 in Hlen.
    rewrite (wrap_small 32 (1 + _)) by (unfold in_range; lia). rewrite (wrap_small 32 (blen data)) by (unfold in_range; lia).
    rewrite wrap_small by (unfold in_range; lia).
    replace (blen data - (1 + Z.of_nat (length rs)) * 4) with (restarts_off (es := es)) by lia.
    rewrite (proj2 (Z.ltb_ge _ _)) by lia. split; [done|by left].
  - exists nb. destruct (unpack_hash _ Hn31) as [Hr Hun].
    assert (block_footer data = Z.of_nat (length rs) .| (1 << 31)) as ->.
    { rewrite Hd, !app_assoc. by apply drop_last_fixed32. }
    rewrite !blen_app, length_hash_buckets in Hlen by lia. unfold blen in Hlen at 2 3.
    rewrite length_EncodeFixed16, length_EncodeFixed32 in Hlen. unfold restarts_off in *.
    rewrite !(proj2 (Z.ltb_ge (2 ^ 16) _)) by lia. rewrite Hun. cbn [fst snd].
    rewrite (proj2 (Z.ltb_ge _ (4 + 2))) by lia.
    assert (u16 (blen data - 4) = blen data - 4) as -> by (apply wrap_small; unfold in_range; lia).
    unfold hash_index_Initialize, assert. rewrite (proj2 (Z.leb_le 2 _)), orb_true_r by lia. cbn [require mbind R_bind].
    replace (DecodeFixed16 _) with nb.
    2: { symmetry. rewrite Hd at 2. rewrite !app_assoc, <- (app_assoc _ (EncodeFixed16 nb)).
         rewrite drop_pre; [apply DecodeFixed16_encode; unfold in_range; lia|].
         rewrite !length_app. pose proof (blen_restart_array es rs). pose proof (length_hash_buckets nb pairs).
         unfold blen in *. lia. }
    rewrite (proj2 (Z.ltb_lt 0 nb)), (proj2 (Z.ltb_lt nb (blen data - 4))), orb_true_r by lia. cbn [require mbind R_bind].
    rewrite (wrap_small 16) by (unfold in_range; lia).
    replace (blen data - 4 - 2 - nb) with (blen (encs es) + 4 * Z.of_nat (length rs)) by lia.
    rewrite wrap_small by (unfold in_range; lia).
    replace (_ + _ - _) with (blen (encs es)) by lia. rewrite (proj2 (Z.ltb_ge _ _)) by lia.
    split; [done|]. right. split; [done|]. by exists pairs.
Qed.
End open.

(** The constructor on a block without hash index, whatever it holds. *)
Lemma new_Block_plain `{Host, Build, DbFormat} body num :
  in_range 31 num → 4 ≤ blen body → blen body + 4 < 2 ^ 32 →
  let size := blen body + 4 in
  let restart_offset := u32 (size - u32 (1 + num) * 4) in
  new_Block (body ++ EncodeFixed32 num) =
    Done (mkBlock (body ++ EncodeFixed32 num) (if size - 4 <? restart_offset then 0 else size) restart_offset num 0).
Proof.
  intros Hn Hb Hs size restart_offset.
  assert (blen (body ++ EncodeFixed32 num) = size) as Hlen.
  { rewrite blen_app. unfold size, blen. rewrite length_EncodeFixed32. lia. }
  assert (in_range 32 num) as Hn32 by (eapply in_range_mono; [|exact Hn]; lia).
  unfold new_Block, NumRestarts, IndexType, assert. rewrite !Hlen.
  rewrite (proj2 (Z.ltb_ge size 4)), (proj2 (Z.leb_le (2 * 4) size)), orb_true_r by (unfold size; lia).
  cbn [require mbind R_bind]. rewrite drop_last_fixed32, unpack_plain by done. cbn [fst snd].
  assert (∀ {A} (x : A) b, (if b : bool then x else x) = x) as Hif by by intros A x [].
  rewrite !Hif. by rewrite (wrap_small 32 size) by (unfold in_range, size in *; lia).
Qed.

Section blocks.
Context {K : Type} `{Host, Build, IterKeyLaws K}.

Lemma Add_all_keeps_invalid l b1 b2 :
  Add_all l b1 = Done b2 → hash_Valid (data_block_hash_index_builder_ b1) = false →
  hash_Valid (data_block_hash_index_builder_ b2) = false.
Proof.
  revert b1 b2. induction l as [|[k v] l IH]; intros b1 b2; cbn [Add_all]; [congruence|].
  destruct (Add k v None b1) as [b1'|] eqn:Ea; [|done]. cbn [mbind R_bind]. intros Hl Hv1. eapply IH; [exact Hl|].
  unfold Add in Ea. do 3 apply R_bind_Done in Ea as ([] & _ & Ea).
  destruct (Add_prefix k b1) as [[[[? ?] ?] ?] ?]. rewrite Hv1 in Ea.
  destruct (negb _ && _); cbn [mbind R_bind checked] in Ea; [done|]. by injection Ea as <-.
Qed.

Lemma build_spec interval use_delta index_type ratio kvs :
  1 ≤ interval → fits kvs →
  ∃ b es rs, (b ← new_BlockBuilder interval use_delta false index_type ratio; Add_all kvs b) = Done b ∧
    built interval use_delta b es rs ∧ kvs_of (es := es) = kvs ∧
    blen (encs es) + 4 * Z.of_nat (length rs) + 4 < 2 ^ 32 ∧
    (hash_Valid (data_block_hash_index_builder_ b) = true → index_type = kDataBlockBinaryAndHash).
Proof.
  intros Hi Hf. destruct (new_BlockBuilder_built interval use_delta index_type ratio Hi) as (b0 & E0 & Hb0).
  rewrite E0. cbn [mbind R_bind].
  destruct (Add_all_spec interval use_delta kvs b0 [] [0%nat] Hi Hb0 Hf) as (b & es & rs & E & Hb & Hm & Hsz).
  rewrite E. exists b, es, rs. split_and!; [done|exact Hb|exact Hm| |].
  - unfold fits in Hf. cbn in Hsz. lia.
  - intros Hv. destruct index_type; [|done]. exfalso.
    unfold new_BlockBuilder, assert in E0. destruct (require _ _); [|done]. cbn in E0. injection E0 as <-.
    by rewrite (Add_all_keeps_invalid _ _ _ E) in Hv.
Qed.

(** A block built from [kvs], opened and with a new iterator on it. *)
Lemma built_block_opens interval use_delta index_type ratio kvs contents pinned :
  1 ≤ interval → fits kvs → build_block interval use_delta index_type ratio kvs = Done contents →
  ∃ es rs tail nb blk it, layout contents es rs tail ∧ block_tail es rs tail ∧ kvs_of (es := es) = kvs ∧
    new_Block contents = Done blk ∧ NewDataIterator kDisableGlobalSequenceNumber None pinned blk = Done it ∧
    at_pos (K := K) (data := contents) (es := es) (rs := rs) (hidx := if nb =? 0 then None else Some nb) None it ∧
    tail_buckets tail es rs nb.
Proof.
  intros Hi Hf Hbuild. destruct (build_spec interval use_delta index_type ratio kvs Hi Hf) as (b & es & rs & E & Hb & Hm & Hsz & _).
  unfold build_block in Hbuild. pose proof (Finish_spec interval use_delta b es rs Hb Hsz) as Hfin.
  destruct (new_BlockBuilder _ _ _ _ _) as [b0|]; [|done]. cbn [mbind R_bind] in E, Hbuild. rewrite E in Hbuild.
  cbn [mbind R_bind] in Hbuild. destruct (CurrentSizeEstimate b) as [est|f].
  2: { destruct Hfin as (_ & _ & Hx). by rewrite Hx in Hbuild. }
  destruct Hfin as (b' & tail & Hx & Ht & _). rewrite Hx in Hbuild. cbn [mbind R_bind] in Hbuild. injection Hbuild as <-.
  assert (blen (encs es ++ restart_array es rs ++ tail) < 2 ^ 32) as Hlt.
  { rewrite !blen_app, blen_restart_array. inversion Ht as [|nb pairs ? ? ?]; subst.
    - unfold blen at 2. rewrite length_EncodeFixed32. lia.
    - rewrite !blen_app, length_hash_buckets by lia. unfold blen at 2 3. rewrite length_EncodeFixed16, length_EncodeFixed32. lia. }
  pose proof (built_layout interval use_delta b es rs tail Hb Hlt) as L.
  destruct (new_Block_spec _ es rs tail L Ht) as (nb & Hblk & Htb).
  pose proof (num_restarts_range L) as Hnum. pose proof (restarts_off_range L) as [_ Hoff].
  eexists es, rs, tail, nb, _, _. split_and!; [done|done|done|exact Hblk| | |exact Htb].
  - unfold NewDataIterator. cbn [size_ block_num_restarts_ contents_ restart_offset_ num_buckets_].
    rewrite (proj2 (Z.ltb_ge _ (2 * 4))).
    2: { rewrite !blen_app, blen_restart_array. pose proof (blen_nonneg (encs es)). inversion Ht; subst;
         rewrite ?blen_app; unfold blen; rewrite ?length_EncodeFixed32; lia. }
    rewrite (proj2 (Z.eqb_neq _ _)) by lia. unfold Initialize, assert. cbn [default data_ fresh_iter].
    rewrite bool_decide_eq_true_2, (proj2 (Z.ltb_lt 0 _)), orb_true_r by (done || lia). cbn [require mbind R_bind].
    reflexivity.
  - split; [split|split]; cbn; try done; [exists 0%nat; by intros|by left].
Qed.

Lemma kvs_of_sorted (R : bytes → bytes → Prop) (es : list Entry) :
  StronglySorted (λ a b, R (fst a) (fst b)) (kvs_of (es := es)) → StronglySorted (λ a b, R (e_key a) (e_key b)) es.
Proof.
  unfold kvs_of. induction es as [|e es IH]; [constructor|]. inversion 1 as [|? ? Hs' Hfa]; subst.
  constructor; [by apply IH|]. apply List.Forall_forall. intros x Hx.
  apply (proj1 (List.Forall_forall _ _) Hfa (e_key x, e_val x)). by apply (in_map (λ e, (e_key e, e_val e))).
Qed.

(** What a caller reads at a position of the cursor. *)
Definition reads_at (contents : bytes) (kvs : list (bytes * bytes)) (pos : option nat) (it : DataBlockIter (K := K)) : Prop :=
  status_ it = OK ∧
  match pos with
  | None => Valid it = false
  | Some i => ∃ k v, kvs !! i = Some (k, v) ∧ Valid it = true ∧
      (s ← key it; slice_read contents s) = Done k ∧ (s ← value it; slice_read contents s) = Done v
  end.

(** C10. Any block BlockBuilder finishes can be opened, and whatever first, last,
    next, previous, seek and seek-for-previous operations are issued on its
    iterator (a step only when it is valid) none faults, and it stands, reads
    and is valid exactly as a cursor on the added keys and values. *)
Theorem DataBlockIter_refines_cursor (C : Comparator) interval use_delta index_type ratio kvs contents pinned ops pos :
  ComparatorLaws C → 1 ≤ interval → fits kvs → StronglySorted (λ a b, Comparator.Compare (fst a) (fst b) < 0) kvs →
  build_block interval use_delta index_type ratio kvs = Done contents →
  cursor_run Comparator.Compare kvs ops None = Some pos →
  ∃ blk it0 it, new_Block contents = Done blk ∧
    NewDataIterator kDisableGlobalSequenceNumber None pinned blk = Done it0 ∧
    iter_run Comparator.Compare ops it0 = Done it ∧ reads_at contents kvs pos it.
Proof.
  intros HC Hi Hf Hsorted Hbuild Hrun.
  destruct (built_block_opens interval use_delta index_type ratio kvs contents pinned Hi Hf Hbuild)
    as (es & rs & tail & nb & blk & it0 & L & Ht & Hm & Hblk & Hit & Hp & _).
  assert (StronglySorted (λ a b, Comparator.Compare (e_key a) (e_key b) < 0) es) as Hs.
  { subst kvs. by apply (kvs_of_sorted (λ a b, Comparator.Compare a b < 0)). }
  subst kvs. destruct (iter_run_spec L Comparator.Compare Hs Compare_flip Compare_trans ops None it0 pos Hp Hrun) as (it & Hrun' & Hp').
  exists blk, it0, it. split_and!; [done|done|done|]. exact (at_pos_reads L _ _ Hp').
Qed.

(** The size BlockBuilder announces is the size of the block it finishes, for
    any keys and values that fit: no addition fails, and Finish succeeds whenever
    the estimate is defined. The block is smaller only where the estimate with
    the hash index is over 64KiB and the index is left out. The estimate is
    undefined only when the hash index was asked for and its number of buckets
    does not fit 16 bits. *)
Theorem BlockBuilder_size_exact interval use_delta index_type ratio kvs :
  1 ≤ interval → fits kvs →
  ∃ b, (b ← new_BlockBuilder interval use_delta false index_type ratio; Add_all kvs b) = Done b ∧
    match CurrentSizeEstimate b with
    | Done est => ∃ b' contents, Finish b = Done (b', contents) ∧
        (if hash_Valid (data_block_hash_index_builder_ b) && (2 ^ 16 <? est)
         then blen contents < est else blen contents = est)
    | Fault f => f = Undefined ∧ index_type = kDataBlockBinaryAndHash ∧
        double_to_uint 16 (estimated_num_buckets_ (data_block_hash_index_builder_ b)) = None
    end.
Proof.
  intros Hi Hf. destruct (build_spec interval use_delta index_type ratio kvs Hi Hf) as (b & es & rs & E & Hb & _ & Hsz & Hh).
  exists b. split; [done|]. pose proof (Finish_spec interval use_delta b es rs Hb Hsz) as Hfin.
  pose proof (CurrentSizeEstimate_spec interval use_delta b es rs Hb Hsz) as Hest. cbv zeta in Hest.
  destruct (CurrentSizeEstimate b) as [est|f].
  - destruct Hfin as (b' & tail & ? & _ & ?). eauto.
  - destruct Hfin as (-> & Hv & _). rewrite Hv in Hest. split_and!; [done|by apply Hh|].
    by destruct (double_to_uint 16 _).
Qed.

Lemma many_restarts_no_hash interval use_delta b es rs :
  built interval use_delta b es rs → (254 < length rs)%nat → hash_Valid (data_block_hash_index_builder_ b) = false.
Proof.
  intros Hb Hlen. destruct (hash_Valid _) eqn:Hv; [|done]. exfalso.
  destruct (bu_hash _ _ _ _ _ Hb Hv) as [Hl Hp]. pose proof (bu_chained _ _ _ _ _ Hb) as Hch.
  pose proof (StronglySorted_lookup lt rs) as Hlt.
  destruct (lookup_lt_is_Some_2 rs 254) as [r Hr]; [lia|].
  assert (0 < r)%nat by (apply (Hlt 0%nat 254%nat); [apply Hch|lia|apply Hch|done]).
  assert (r < length es)%nat by (destruct (ch_range _ _ Hch r (list_elem_of_lookup_2 _ _ _ Hr)); lia).
  destruct (lookup_lt_is_Some_2 es r) as [e He]; [done|].
  destruct (lookup_lt_is_Some_2 (hash_and_restart_pairs_ (data_block_hash_index_builder_ b)) r) as [p Hpr]; [lia|].
  destruct (Hp r e p He Hpr) as (j & -> & Hj & _ & _ & _ & Hnext).
  destruct (lookup_lt_is_Some_2 rs (S j)) as [r' Hr']; [lia|]. specialize (Hnext r' Hr').
  destruct (decide (S j = 254%nat)) as [Ej|]; [rewrite Ej in Hr'; simplify_eq; lia|].
  pose proof (Hlt (S j) 254%nat r' r (ch_sorted _ _ Hch) ltac:(lia) Hr' Hr). lia.
Qed.

(** A builder with a hash index that had more than 254 restart points never
    writes a hash index again: Reset resets the index's builder only while it is
    valid, and too many restart points made it invalid. A new builder has one
    (its ratio being a positive number), although Reset is documented to leave
    the contents as if the builder was just constructed. *)
Theorem Reset_loses_hash_index interval use_delta ratio kvs b :
  1 ≤ interval → fits kvs → double_lt zero_double ratio = true →
  double_lt zero_double (double_div (double_of 1) ratio) = true →
  (b ← new_BlockBuilder interval use_delta false kDataBlockBinaryAndHash ratio; Add_all kvs b) = Done b →
  (254 < length (restarts_ b))%nat →
  (∀ b0, new_BlockBuilder interval use_delta false kDataBlockBinaryAndHash ratio = Done b0 →
     hash_Valid (data_block_hash_index_builder_ b0) = true) ∧
  hash_Valid (data_block_hash_index_builder_ (Reset b)) = false ∧
  (∀ kvs' b', Add_all kvs' (Reset b) = Done b' → hash_Valid (data_block_hash_index_builder_ b') = false).
Proof.
  intros Hi Hf Hr1 Hr2 E Hlen.
  destruct (build_spec interval use_delta kDataBlockBinaryAndHash ratio kvs Hi Hf) as (b1 & es & rs & E1 & Hb & _).
  rewrite E in E1. injection E1 as <-. rewrite (bu_restarts _ _ _ _ _ Hb), length_map in Hlen.
  pose proof (many_restarts_no_hash _ _ _ _ _ Hb Hlen) as Hv.
  assert (hash_Valid (data_block_hash_index_builder_ (Reset b)) = false) as Hv' by (cbn; by rewrite Hv).
  split_and!; [|done|intros kvs' b' E'; by eapply Add_all_keeps_invalid].
  intros b0. unfold new_BlockBuilder. intros [[] [_ Hd]]%R_bind_Done. injection Hd as <-.
  cbn [data_block_hash_index_builder_]. unfold hash_Initialize, hash_Valid. cbn [valid_ bucket_per_key_ andb].
  assert (double_le ratio zero_double = false) as ->; [|done].
  revert Hr1. unfold double_lt, double_le, SFltb, SFleb. by destruct ratio as [[]|[]| |[] m e].
Qed.

(** ** What the checks let through *)

Lemma new_iterator contents size off num pinned :
  2 * 4 ≤ size → 0 < num →
  ∃ it : DataBlockIter (K := K),
    NewDataIterator kDisableGlobalSequenceNumber None pinned (mkBlock contents size off num 0) = Done it ∧
    data_ it = Some contents ∧ num_restarts_ it = num ∧ iter_restarts_ it = off ∧ status_ it = OK ∧
    global_seqno_ it = kDisableGlobalSequenceNumber.
Proof.
  intros Hs Hn. unfold NewDataIterator. cbn [size_ block_num_restarts_ contents_ restart_offset_ num_buckets_].
  rewrite (proj2 (Z.ltb_ge _ _)), (proj2 (Z.eqb_neq num 0)) by lia. unfold Initialize, assert. cbn [default data_ fresh_iter].
  rewrite bool_decide_eq_true_2, (proj2 (Z.ltb_lt 0 num)), orb_true_r by done. cbn [require mbind R_bind]. eauto 10.
Qed.

(** The constructor's check that the block is large enough for its restart
    array wraps around: a footer that claims 2^30 restart points passes on every
    block, and SeekToLast then reads the array out of bounds. *)
Theorem Block_accepts_wrapped_num_restarts body pinned :
  4 ≤ blen body → blen body + 4 < 2 ^ 32 →
  let contents := body ++ EncodeFixed32 (2 ^ 30) in
  ∃ blk it, new_Block contents = Done blk ∧ size_ blk = blen contents ∧ block_num_restarts_ blk = 2 ^ 30 ∧
    NewDataIterator (K := K) kDisableGlobalSequenceNumber None pinned blk = Done it ∧
    SeekToLast it = Fault OutOfBounds.
Proof.
  intros Hb Hs contents. unfold contents. rewrite new_Block_plain by (done || unfold in_range; lia).
  assert (u32 (blen body + 4 - u32 (1 + 2 ^ 30) * 4) = blen body) as ->.
  { change (u32 (1 + 2 ^ 30) * 4) with (4 + 2 ^ 32).
    replace (blen body + 4 - (4 + 2 ^ 32)) with (blen body + (-1) * 2 ^ 32) by lia.
    unfold wrap. rewrite Z.mod_add by lia. apply wrap_small. unfold in_range. pose proof (blen_nonneg body). lia. }
  rewrite (proj2 (Z.ltb_ge _ _)) by lia.
  destruct (new_iterator (body ++ EncodeFixed32 (2 ^ 30)) (blen body + 4) (blen body) (2 ^ 30) pinned)
    as (it & Hit & Hd & Hn & Hr & _); [lia|done|].
  eexists _, it. split; [done|]. assert (blen (EncodeFixed32 (2 ^ 30)) = 4) as Hl4 by (unfold blen; by rewrite length_EncodeFixed32).
  split_and!; [by rewrite blen_app, Hl4|done|exact Hit|].
  unfold SeekToLast. rewrite Hd, bool_decide_eq_false_2, Hn by done. change (u32 (2 ^ 30 - 1)) with (2 ^ 30 - 1).
  unfold SeekToRestartPoint, GetRestartPoint, block_data, assert. cbn [num_restarts_ data_ iter_restarts_ set_pos set_key].
  rewrite Hn, Hd, Hr. rewrite (proj2 (Z.ltb_lt _ _)), orb_true_r by lia. cbn [require mbind R_bind checked].
  rewrite (proj2 (Z.leb_gt _ (blen (body ++ _)))); [by rewrite andb_false_r|]. rewrite blen_app, Hl4.
  pose proof (blen_nonneg body). change (2 ^ 32) with (4 * 2 ^ 30) in *. lia.
Qed.

(** The block of one entry that claims the lengths [ns] and [vl]. *)
Definition one_entry_block (ns vl : Z) (rest : bytes) : bytes :=
  (enc_lengths 0 ns vl ++ rest) ++ EncodeFixed32 0 ++ EncodeFixed32 1.

Section one_entry.
Context (ns vl : Z) (rest : bytes).
#[local] Abbreviation lens := (enc_lengths 0 ns vl).
#[local] Abbreviation contents := (one_entry_block ns vl rest).

Lemma one_entry_sizes : 3 ≤ blen lens ∧ 0 ≤ blen rest ∧ blen contents = blen lens + blen rest + 8.
Proof.
  pose proof (length_enc_lengths 0 ns vl). split_and!; [unfold blen; lia|apply blen_nonneg|].
  unfold one_entry_block. rewrite !blen_app. unfold blen. rewrite !length_EncodeFixed32. lia.
Qed.

(** The overflow: the check wraps and the entry is accepted. *)
Lemma CheckAndDecodeEntry_wraps :
  in_range 32 ns → in_range 32 vl → 2 ^ 32 ≤ ns + vl → ns + vl - 2 ^ 32 ≤ blen rest → blen contents < 2 ^ 32 →
  CheckAndDecodeEntry contents 0 (blen lens + blen rest) = Done (Some (0 + blen lens, 0, ns, vl)).
Proof.
  intros Hns Hvl Hsum Hrest Hsize. destruct one_entry_sizes as (Hl3 & Hr0 & Hc).
  unfold CheckAndDecodeEntry. rewrite (proj2 (Z.ltb_ge _ 3)) by lia.
  pose proof (decode_lengths_enc [] (rest ++ EncodeFixed32 0 ++ EncodeFixed32 1) 0 ns vl 0 (blen lens + blen rest)) as Hdec.
  cbn [app] in Hdec.
  replace (lens ++ rest ++ EncodeFixed32 0 ++ EncodeFixed32 1) with contents in Hdec by (unfold one_entry_block; by rewrite <- !app_assoc).
  rewrite Hdec by (done || lia). cbn [mbind R_bind].
  replace (ns + vl) with (ns + vl - 2 ^ 32 + 1 * 2 ^ 32) by lia.
  rewrite (wrap_small 32 (blen lens + blen rest - _)) by (unfold in_range; lia). unfold wrap.
  rewrite Z.mod_add, Z.mod_small by (unfold in_range in *; lia). by rewrite (proj2 (Z.ltb_ge _ _)) by lia.
Qed.

Lemma one_entry_opens pinned :
  blen contents < 2 ^ 32 →
  ∃ blk (it : DataBlockIter (K := K)), new_Block contents = Done blk ∧
    NewDataIterator kDisableGlobalSequenceNumber None pinned blk = Done it ∧
    data_ it = Some contents ∧ num_restarts_ it = 1 ∧ iter_restarts_ it = blen lens + blen rest ∧ status_ it = OK ∧
    global_seqno_ it = kDisableGlobalSequenceNumber.
Proof.
  intros Hsize. destruct one_entry_sizes as (Hl3 & Hr0 & Hlen).
  set (body := (lens ++ rest) ++ EncodeFixed32 0).
  assert (contents = body ++ EncodeFixed32 1) as Hc by (unfold one_entry_block, body; by rewrite (app_assoc (_ ++ rest))).
  assert (blen body = blen lens + blen rest + 4) as Hbl.
  { unfold body. rewrite !blen_app. unfold blen. rewrite length_EncodeFixed32. lia. }
  rewrite Hc in *. rewrite new_Block_plain by (done || unfold in_range; lia). change (u32 (1 + 1) * 4) with 8.
  assert (u32 (blen body + 4 - 8) = blen lens + blen rest) as -> by (rewrite wrap_small; [|unfold in_range]; lia).
  rewrite (proj2 (Z.ltb_ge _ _)) by lia.
  destruct (new_iterator (body ++ EncodeFixed32 1) (blen body + 4) (blen lens + blen rest) 1 pinned) as (it & Hit & ?);
    [lia|done|]. by eexists _, it.
Qed.

Lemma one_entry_restart (it : DataBlockIter (K := K)) :
  data_ it = Some contents → num_restarts_ it = 1 → iter_restarts_ it = blen lens + blen rest → GetRestartPoint 0 it = Done 0.
Proof.
  intros Hd Hn Hr. destruct one_entry_sizes as (Hl3 & Hr0 & Hlen).
  unfold GetRestartPoint, block_data, assert. rewrite Hd, Hn, Hr.
  change (0 <? 1) with true. rewrite orb_true_r. cbn [require mbind R_bind checked].
  rewrite (proj2 (Z.leb_le 0 _)), (proj2 (Z.leb_le _ (blen contents))) by lia. cbn [andb require mbind R_bind].
  rewrite Z.mul_0_l, Z.add_0_r. unfold one_entry_block. rewrite drop_pre.
  - by rewrite DecodeFixed32_encode.
  - rewrite length_app. unfold blen. lia.
Qed.
End one_entry.

(** CheckAndDecodeEntry adds the lengths of key and value in 32 bits: an
    entry whose lengths add up to 2^32 or more is accepted if the wrapped sum
    fits, whatever its size. SeekToFirstOrReport reports no corruption on a block
    of that entry; the iterator is valid, and its value lies out of bounds. *)
Theorem CheckAndDecodeEntry_accepts_overflow ns vl rest pinned :
  in_range 32 ns → in_range 32 vl → 2 ^ 32 ≤ ns + vl → ns + vl - 2 ^ 32 ≤ blen rest →
  blen (one_entry_block ns vl rest) < 2 ^ 32 →
  ∃ blk it0 it v, new_Block (one_entry_block ns vl rest) = Done blk ∧
    NewDataIterator (K := K) kDisableGlobalSequenceNumber None pinned blk = Done it0 ∧
    SeekToFirstOrReport it0 = Done it ∧ Valid it = true ∧ status_ it = OK ∧
    value it = Done v ∧ slice_read (one_entry_block ns vl rest) v = Fault OutOfBounds.
Proof.
  intros Hns Hvl Hsum Hrest Hsize. destruct (one_entry_sizes ns vl rest) as (Hl3 & Hr0 & Hlen).
  destruct (one_entry_opens ns vl rest pinned Hsize) as (blk & it & Hblk & Hit & Hd & Hn & Hr & Hst & Hsq).
  set (lens := enc_lengths 0 ns vl) in *.
  set (it' := set_pos 0 0 (set_value (mkSlice (InBlock 0) 0) (set_pos (current_ it) 0 (set_key (Clear (key_ it)) (key_pinned_ it) it)))).
  set (it2 := set_value (mkSlice (InBlock (0 + blen lens + ns)) vl)
    (set_key (SetKey (Clear (key_ it)) (mkSlice (InBlock (0 + blen lens)) ns)) true it')).
  assert (Valid it2 = true) as Hv by (unfold Valid; cbn; rewrite Hr; apply Z.ltb_lt; lia).
  exists blk, it, it2, (value_ it2). split_and!; [exact Hblk|exact Hit| |exact Hv|exact Hst| |].
  2: { unfold value, assert. rewrite Hv, orb_true_r. reflexivity. }
  2: { unfold slice_read. cbn [s_ptr s_size value_ set_value it2]. rewrite (proj2 (Z.leb_gt _ (blen (one_entry_block _ _ _)))) by lia.
       by rewrite andb_false_r. }
  unfold SeekToFirstOrReport. rewrite Hd, bool_decide_eq_false_2 by done.
  unfold SeekToRestartPoint. rewrite (one_entry_restart ns vl rest) by done. cbn [mbind R_bind].
  unfold ParseNextDataKey, NextEntryOffset, block_data.
  cbn [value_ set_value s_ptr s_size set_pos set_key data_ current_ iter_restarts_ mbind R_bind].
  change (u32 (0 + 0)) with 0. cbn [mbind R_bind set_pos data_ checked iter_restarts_ set_value set_key]. rewrite Hd, Hr.
  cbn [checked mbind R_bind default]. rewrite (proj2 (Z.leb_gt _ 0)) by lia.
  pose proof (CheckAndDecodeEntry_wraps ns vl rest Hns Hvl Hsum Hrest Hsize) as E. fold lens in E. rewrite E. cbn [mbind R_bind key_ set_pos set_value set_key].
  rewrite Size_Clear. change (0 <? 0) with false. unfold load_key. change (0 =? 0) with true. cbn [mbind R_bind].
  unfold rewrite_seqno. cbn [global_seqno_ set_pos set_value set_key]. rewrite Hsq, Z.eqb_refl. cbn [mbind R_bind].
  unfold loop_fuel. cbn [advance_restart restart_index_ num_restarts_ set_pos set_value set_key]. rewrite Hn.
  change (u32 (0 + 1) <? 1) with false. cbn [mbind R_bind fst].
  reflexivity.
Qed.
End blocks.

(** ** An implementation of the parameters *)

(** Internal keys end in eight bytes, the first of them the value type. *)
Definition TestFormat : DbFormat := {|
  ExtractUserKey k := take (length k - 8) k;
  ExtractValueType k := byte_at k (length k - 8);
  GetInternalKeySeqno k := 0;
  kTypeValue := 1; kTypeMerge := 2; kTypeDeletion := 0; kTypeRangeDeletion := 15;
  kTypeSingleDeletion := 7; kTypeBlobIndex := 17;
  kDisableGlobalSequenceNumber := 2 ^ 64 - 1;
|}.

Record TestKey := mkTestKey { tk_slice : Slice; tk_pinned : bool }.
Definition TestIterKey : IterKey TestKey := {|
  key_init := mkTestKey (mkSlice (Mem []) 0) false;
  Clear k := mkTestKey (mkSlice (Mem []) 0) false;
  SetKey k s := mkTestKey s true;
  TrimAppend k kept delta := mkTestKey (mkSlice (Mem (kept ++ delta)) (blen (kept ++ delta))) false;
  Size k := s_size (tk_slice k);
  GetKey k := tk_slice k;
  GetInternalKey k := tk_slice k;
  GetUserKey k := let s := tk_slice k in
    if s_size s <? 8 then mkSlice (Mem []) 0 else mkSlice (s_ptr s) (s_size s - 8);
  IsKeyPinned k := tk_pinned k;
  OwnKey k := k;
  UpdateInternalKey k _ _ := k;
|}.

Lemma TestIterKey_laws : @IterKeyLaws TestKey TestFormat TestIterKey.
Proof.
  split; try done.
  - intros k kept delta data. cbn. unfold slice_read. cbn [s_ptr s_size]. rewrite Z.leb_refl. cbn [require mbind R_bind].
    unfold blen. by rewrite Nat2Z.id, firstn_all.
  - intros [[p len] pin] data b. cbn [GetKey GetUserKey TestIterKey tk_slice s_ptr s_size ExtractUserKey TestFormat].
    intros Hr. destruct (Z.ltb_spec len 8) as [Hlt|Hge].
    + assert (length b ≤ 7)%nat as Hb.
      { unfold slice_read in Hr. cbn [s_ptr s_size] in Hr. destruct p; destruct (require _ _); try done;
          cbn [mbind R_bind] in Hr; injection Hr as <-; rewrite length_take; lia. }
      replace (length b - 8)%nat with 0%nat by lia. done.
    + pose proof (slice_read_size _ _ _ Hr ltac:(cbn; lia)) as Hsz. cbn in Hsz.
      erewrite slice_read_prefix; [|exact Hr|lia]. do 2 f_equal. unfold blen in Hsz. lia.
Qed.

(** Three entries, one of them a restart point of its own, forth and back:
    the second step back is served by the cache. *)
Definition test_kvs : list (bytes * bytes) :=
  [(str "apple", [1]); (str "apply", [2; 2]); (str "banana", []); (str "bandana", [3])].
Definition test_ops : list cursor_op :=
  [CSeek (str "b"); CNext; CPrev; CPrev; CLast; CPrev; CPrev; CPrev; CPrev; CSeekForPrev (str "apricot"); CFirst; CNext].

Definition TestHost : Host := {| kLittleEndian := true |}.
Definition TestBuild : Build := {| NDEBUG := false |}.
Definition test_contents : bytes :=
  match @build_block TestHost TestBuild TestFormat 2 true kDataBlockBinarySearch zero_double test_kvs with
  | Done c => c | Fault _ => [] end.

Lemma DataBlockIter_refines_cursor_witness :
  ∃ blk it0 it,
    @new_Block TestHost TestBuild test_contents = Done blk ∧
    @NewDataIterator TestKey TestBuild TestIterKey (2 ^ 64 - 1) None false blk = Done it0 ∧
    @iter_run TestKey TestHost TestBuild TestFormat TestIterKey slice_compare test_ops it0 = Done it ∧
    @reads_at TestKey TestBuild TestIterKey test_contents test_kvs (Some 1%nat) it.
Proof.
  apply (@DataBlockIter_refines_cursor TestKey TestHost TestBuild TestFormat TestIterKey TestIterKey_laws
           BytewiseComparator 2 true kDataBlockBinarySearch zero_double test_kvs test_contents false test_ops (Some 1%nat)).
  - apply BytewiseComparator_laws.
  - lia.
  - vm_compute. reflexivity.
  - repeat constructor.
  - vm_compute. reflexivity.
  - vm_compute. reflexivity.
Defined.

Lemma BlockBuilder_size_exact_witness :
  ∃ b, (b ← @new_BlockBuilder TestBuild 2 true false kDataBlockBinarySearch zero_double;
        @Add_all TestHost TestBuild TestFormat test_kvs b) = Done b ∧
    match CurrentSizeEstimate b with
    | Done est => ∃ b' contents, @Finish TestHost TestBuild b = Done (b', contents) ∧
        (if hash_Valid (data_block_hash_index_builder_ b) && (2 ^ 16 <? est)
         then blen contents < est else blen contents = est)
    | Fault f => f = Undefined ∧ kDataBlockBinarySearch = kDataBlockBinaryAndHash ∧
        double_to_uint 16 (estimated_num_buckets_ (data_block_hash_index_builder_ b)) = None
    end.
Proof.
  apply (@BlockBuilder_size_exact TestHost TestBuild TestFormat 2 true kDataBlockBinarySearch zero_double test_kvs).
  - lia.
  - vm_compute. reflexivity.
Defined.

(** 255 entries, each a restart point. *)
Definition many_kvs : list (bytes * bytes) := map (λ i, ([Z.of_nat i], [])) (seq 0 255).
Definition many_builder : BlockBuilder :=
  match (b ← @new_BlockBuilder TestBuild 1 true false kDataBlockBinaryAndHash kDefaultUtilRatio;
         @Add_all TestHost TestBuild TestFormat many_kvs b) with
  | Done b => b
  | Fault _ => mkBuilder 0 false false [] [] 0 0 false [] new_hash_builder
  end.

Lemma Reset_loses_hash_index_witness :
  (∀ b0, @new_BlockBuilder TestBuild 1 true false kDataBlockBinaryAndHash kDefaultUtilRatio = Done b0 →
     hash_Valid (data_block_hash_index_builder_ b0) = true) ∧
  hash_Valid (data_block_hash_index_builder_ (Reset many_builder)) = false ∧
  (∀ kvs' b', @Add_all TestHost TestBuild TestFormat kvs' (Reset many_builder) = Done b' →
     hash_Valid (data_block_hash_index_builder_ b') = false).
Proof.
  apply (@Reset_loses_hash_index TestHost TestBuild TestFormat 1 true kDefaultUtilRatio many_kvs many_builder).
  - lia.
  - vm_compute. reflexivity.
  - vm_compute. reflexivity.
  - vm_compute. reflexivity.
  - vm_compute. reflexivity.
  - apply Nat.ltb_lt. vm_compute. reflexivity.
Defined.

Lemma Block_accepts_wrapped_num_restarts_witness :
  ∃ blk it, @new_Block TestHost TestBuild ([0; 0; 0; 0] ++ @EncodeFixed32 TestHost (2 ^ 30)) = Done blk ∧
    size_ blk = 8 ∧ block_num_restarts_ blk = 2 ^ 30 ∧
    @NewDataIterator TestKey TestBuild TestIterKey (2 ^ 64 - 1) None false blk = Done it ∧
    @SeekToLast TestKey TestHost TestBuild TestFormat TestIterKey it = Fault OutOfBounds.
Proof.
  apply (@Block_accepts_wrapped_num_restarts TestKey TestHost TestBuild TestFormat TestIterKey
           [0; 0; 0; 0] false).
  - vm_compute. congruence.
  - vm_compute. reflexivity.
Defined.

Lemma CheckAndDecodeEntry_accepts_overflow_witness :
  ∃ blk it0 it v, @new_Block TestHost TestBuild (@one_entry_block TestHost (2 ^ 32 - 1) 1 []) = Done blk ∧
    @NewDataIterator TestKey TestBuild TestIterKey (2 ^ 64 - 1) None false blk = Done it0 ∧
    @SeekToFirstOrReport TestKey TestHost TestBuild TestFormat TestIterKey it0 = Done it ∧ Valid it = true ∧ status_ it = OK ∧
    @value TestKey TestBuild it = Done v ∧
    slice_read (@one_entry_block TestHost (2 ^ 32 - 1) 1 []) v = Fault OutOfBounds.
Proof.
  apply (@CheckAndDecodeEntry_accepts_overflow TestKey TestHost TestBuild TestFormat TestIterKey TestIterKey_laws
           (2 ^ 32 - 1) 1 [] false).
  - split; vm_compute; congruence.
  - split; vm_compute; congruence.
  - vm_compute. congruence.
  - vm_compute. congruence.
  - vm_compute. reflexivity.
Defined.
