(* ===== verification/BlockSeekForGet.v ===== *)
(** * Data blocks: point lookup through the hash index

    The bucket of a user key names the restart interval of every entry with
    that key, or says that there is none or that there may be several. SeekForGet
    therefore finds what Seek finds, or that there is nothing to find. *)
From Stdlib Require Import SpecFloat.
From S2P Require Import Prelude Result Status Coding Hash Comparator Cursor BlockBuilder Block BlockLayout BlockIterCorrect BlockCursor BlockBuilderCorrect BlockReadCorrect.

(** ** Buckets *)

Definition pair_bucket (nb : Z) (p : Z * Z) : Z := fst p mod nb.

(** What the byte [c] of bucket [i] says about the pairs. *)
Definition bucket_ok (nb : Z) (pairs : list (Z * Z)) (i c : Z) : Prop :=
  (c = kNoEntry ∧ ∀ p, p ∈ pairs → pair_bucket nb p ≠ i) ∨ c = kCollision ∨
  (c ≤ kMaxRestartSupportedByHashIndex ∧ (∃ p, p ∈ pairs ∧ pair_bucket nb p = i ∧ snd p = c) ∧
   ∀ p, p ∈ pairs → pair_bucket nb p = i → snd p = c).

Lemma byte_at_insert s i j c : (i < length s)%nat → byte_at (<[i := c]> s) j = if decide (i = j) then c else byte_at s j.
Proof.
  intros Hi. unfold byte_at. destruct (decide (i = j)) as [->|]; [by rewrite list_lookup_insert_eq|].
  by rewrite list_lookup_insert_ne.
Qed.

Lemma hash_buckets_sound nb pairs :
  0 < nb < 2 ^ 16 → (∀ p, p ∈ pairs → 0 ≤ snd p ≤ kMaxRestartSupportedByHashIndex) →
  ∀ i, 0 ≤ i < nb → bucket_ok nb pairs i (byte_at (hash_buckets nb pairs) (Z.to_nat i)).
Proof.
  intros Hnb. unfold kMaxRestartSupportedByHashIndex. induction pairs as [|[h ri] pairs IH] using rev_ind; intros Hp i Hi.
  { left. split; [|by intros p ?%elem_of_nil]. unfold hash_buckets. cbn [foldl]. unfold byte_at.
    by rewrite lookup_replicate_2 by lia. }
  assert (∀ p, p ∈ pairs → 0 ≤ snd p ≤ 253) as Hp' by (intros p ?; apply Hp; set_solver).
  assert (0 ≤ ri ≤ 253) as Hri by (apply (Hp (h, ri)); set_solver).
  specialize (IH Hp' i Hi). unfold hash_buckets in *. rewrite foldl_app. cbn [foldl].
  pose proof (length_hash_buckets nb pairs ltac:(lia)) as Hlen. unfold hash_buckets, blen in Hlen.
  set (bs := foldl _ _ pairs) in *. unfold fill_bucket.
  assert (0 ≤ h mod nb < nb) as Hm by (apply Z.mod_pos_bound; lia).
  rewrite wrap_small by (unfold in_range; lia).
  assert (∀ p, p ∈ pairs ++ [(h, ri)] ↔ p ∈ pairs ∨ p = (h, ri)) as Hin by (intros p; rewrite elem_of_app, list_elem_of_singleton; done).
  destruct (decide (h mod nb = i)) as [<-|Hne].
  - set (cur := byte_at bs (Z.to_nat (h mod nb))) in *. unfold bucket_ok, pair_bucket, kNoEntry, kCollision, kMaxRestartSupportedByHashIndex in *.
    destruct (Z.eqb_spec cur 255) as [E|E].
    + rewrite byte_at_insert, decide_True by lia. right. right. destruct IH as [[_ Hno]|[?|[? _]]]; [|lia|lia].
      split; [lia|]. split; [exists (h, ri); rewrite Hin; auto|].
      intros p [Hpp| ->]%Hin Hb; [by destruct (Hno p Hpp)|done].
    + destruct (Z.eqb_spec cur ri) as [E2|E2]; cbn [negb].
      * fold cur. rewrite <- E2 in *. destruct IH as [[? _]|[?|(? & _ & Hall)]]; [lia|lia|]. right. right. split; [done|].
        split; [exists (h, cur); rewrite Hin; auto|]. intros p [Hpp| ->]%Hin Hb; [by apply Hall|done].
      * rewrite byte_at_insert, decide_True by lia. auto.
  - assert (byte_at (if byte_at bs (Z.to_nat (h mod nb)) =? kNoEntry then <[Z.to_nat (h mod nb):=ri]> bs
       else if negb (byte_at bs (Z.to_nat (h mod nb)) =? ri) then <[Z.to_nat (h mod nb):=kCollision]> bs else bs)
       (Z.to_nat i) = byte_at bs (Z.to_nat i)) as ->.
    { destruct (_ =? kNoEntry); [|destruct (negb _); [|done]]; rewrite byte_at_insert, decide_False by lia; done. }
    unfold bucket_ok, pair_bucket in *. destruct IH as [[-> Hno]|[->|(Hc & (p0 & Hp0 & ?) & Hall)]]; [left|by right; left|right; right].
    + split; [done|]. intros p [?| ->]%Hin; [by apply Hno|done].
    + split; [done|]. split; [exists p0; rewrite Hin; auto|]. intros p [?| ->]%Hin Hb; [by apply Hall|done].
Qed.

(** ** Lookups *)

(** The order of internal keys refines that of the user keys in them. *)
Class InternalOrder `{DbFormat} (C U : Comparator) := {
  io_laws : ComparatorLaws C;
  io_user_laws : ComparatorLaws U;
  io_bytes : @CanKeysWithDifferentByteContentsBeEqual U = false;
  io_refines : ∀ a b, @Comparator.Compare C a b ≤ 0 → @Comparator.Compare U (ExtractUserKey a) (ExtractUserKey b) ≤ 0;
}.
#[export] Existing Instances io_laws io_user_laws.

Section lookup.
Context {K : Type} `{Host, Build, IterKeyLaws K}.
Context {data : bytes} {es : list Entry} {rs : list nat} {tail : bytes} (L : layout data es rs tail).
Context {hidx : option Z}.
Context (C U : Comparator) `{!InternalOrder C U}.
#[local] Abbreviation n := (length es).
#[local] Abbreviation compare := (@Comparator.Compare C).
#[local] Abbreviation user_compare := (@Comparator.Compare U).
#[local] Abbreviation at_pos := (at_pos (K := K) (data := data) (es := es) (rs := rs) (hidx := hidx)).
#[local] Abbreviation on_block := (on_block (K := K) (data := data) (es := es) (rs := rs) (hidx := hidx)).
#[local] Abbreviation seek_pos := (first_pos (es := es) compare (λ c, 0 ≤ c)).
Context (Hsorted : StronglySorted (λ a b, compare (e_key a) (e_key b) < 0) es).

Lemma user_compare_refl a : user_compare a a = 0.
Proof. pose proof (Compare_flip (C := U) a a). lia. Qed.
Lemma user_compare_eq a b : user_compare a b = 0 → a = b.
Proof. apply Equal_bytes, io_bytes. Qed.

(** The entries from [t] on with its user key; they come first. *)
Definition wanted (t : bytes) (i : nat) (e : Entry) : Prop :=
  es !! i = Some e ∧ 0 ≤ compare (e_key e) t ∧ ExtractUserKey (e_key e) = ExtractUserKey t.

Lemma not_less_user t e : 0 ≤ compare (e_key e) t → user_compare (ExtractUserKey t) (ExtractUserKey (e_key e)) ≤ 0.
Proof. intros Hge. apply io_refines. pose proof (Compare_flip (C := C) t (e_key e)). pose proof (Compare_flip (C := C) (e_key e) t). lia. Qed.

Lemma wanted_between t i j x y :
  wanted t j y → (i ≤ j)%nat → es !! i = Some x → 0 ≤ compare (e_key x) t → wanted t i x.
Proof.
  intros (Hy & Hyt & Hu) Hij Hx Hxt. split_and!; [done|done|]. apply user_compare_eq.
  pose proof (not_less_user t x Hxt) as Hlow. pose proof (Compare_flip (C := U) (ExtractUserKey (e_key x)) (ExtractUserKey t)).
  enough (user_compare (ExtractUserKey (e_key x)) (ExtractUserKey t) ≤ 0).
  { pose proof (Compare_flip (C := U) (ExtractUserKey t) (ExtractUserKey (e_key x))). lia. }
  rewrite <- Hu. apply io_refines. destruct (decide (i = j)) as [->|].
  - simplify_eq. pose proof (Compare_flip (C := C) (e_key y) (e_key y)). lia.
  - pose proof (keys_sorted compare Hsorted i j x y ltac:(lia) Hx Hy). lia.
Qed.

Lemma seek_pos_cases t :
  (seek_pos t = None ∧ ∀ i e, ¬ wanted t i e) ∨
  (∃ i e, seek_pos t = Some i ∧ es !! i = Some e ∧ 0 ≤ compare (e_key e) t ∧
     (∀ k x, (k < i)%nat → es !! k = Some x → compare (e_key x) t < 0) ∧
     (ExtractUserKey (e_key e) ≠ ExtractUserKey t → ∀ j x, ¬ wanted t j x)).
Proof.
  unfold first_pos. destruct (list_find _ _) as [[i [k v]]|] eqn:Ef; cbn [fmap option_fmap option_map fst].
  - right. apply list_find_Some in Ef as (Hi & Hge & Hall). unfold kvs_of in *.
    rewrite list_lookup_fmap, fmap_Some in Hi. destruct Hi as (e & He & [= -> ->]). cbn [fst] in *.
    assert (∀ k x, (k < i)%nat → es !! k = Some x → compare (e_key x) t < 0) as Hless.
    { intros k x Hk Hx. apply Z.nle_gt. intros Hn. apply (Hall k (e_key x, e_val x)); [by rewrite list_lookup_fmap, Hx|done|exact Hn]. }
    exists i, e. split_and!; try done. intros Hne j x Hw. destruct Hw as (Hx & Hxt & Hu).
    destruct (decide (j < i)%nat) as [Hj|Hj]; [pose proof (Hless j x Hj Hx); lia|].
    apply Hne. by apply (wanted_between t i j e x); [split_and!|lia|..].
  - left. split; [done|]. apply list_find_None in Ef. intros i e (He & Hge & _).
    rewrite Forall_forall in Ef. apply (Ef (e_key e, e_val e)); [|done]. unfold kvs_of.
    apply list_elem_of_fmap. exists e. split; [done|]. by eapply list_elem_of_lookup_2.
Qed.

(** What SeekForGet promises of its result. *)
Record get_result (t : bytes) (it : DataBlockIter (K := K)) (may_exist : bool) : Prop := {
  gr_found : ∀ i e, wanted t i e → may_exist = true ∧ at_pos (seek_pos t) it;
  gr_false : may_exist = false → ∃ i e, es !! i = Some e ∧
    0 < user_compare (ExtractUserKey (e_key e)) (ExtractUserKey t);
  gr_true : may_exist = true → at_pos (seek_pos t) it ∨ (at_pos None it ∧ ∀ i e, ¬ wanted t i e);
}.

Lemma get_result_at t it : at_pos (seek_pos t) it → get_result t it true.
Proof. intros Hp. split; auto. done. Qed.

Lemma Seek_get t it p :
  at_pos p it → ∃ it', Seek compare t it = Done it' ∧ get_result t it' true.
Proof.
  intros Hp. pose proof (at_pos_block p it Hp) as Hb.
  destruct (Seek_spec L compare Hsorted Compare_flip Compare_trans t it Hb (proj1 Hp)) as (it' & -> & Ha).
  exists it'. split; [done|]. by apply get_result_at.
Qed.

Lemma interval_limit j r it :
  on_block it → rs !! j = Some r → restart_index_ it = Z.of_nat j →
  ∃ m, (if u32 (restart_index_ it + 1) <? num_restarts_ it
        then GetRestartPoint (u32 (restart_index_ it + 1)) it else Done (iter_restarts_ it)) = Done (offs es m) ∧
    (r ≤ m ≤ n)%nat ∧ (∀ i, (r ≤ i < n)%nat → in_interval rs j i → (i < m)%nat).
Proof.
  intros Hb Hr Hri. pose proof (num_restarts_range L). pose proof (lookup_lt_Some _ _ _ Hr).
  rewrite Hri, wrap_small by (unfold in_range; lia). rewrite (ob_num it Hb).
  destruct (Z.ltb_spec (Z.of_nat j + 1) (Z.of_nat (length rs))) as [Hlt|Hge].
  - destruct (lookup_lt_is_Some_2 rs (S j)) as [r' Hr']; [lia|]. exists r'.
    replace (Z.of_nat j + 1) with (Z.of_nat (S j)) by lia. split_and!.
    + exact (GetRestartPoint_spec L it (S j) r' Hb Hr').
    + apply Nat.lt_le_incl. by apply (StronglySorted_lookup lt rs j (S j) r r' (lo_sorted _ _ _ _ L)); [lia|..].
    + apply (rs_le L). by eapply list_elem_of_lookup_2.
    + intros i _ (x & _ & _ & Hnext). by apply Hnext.
  - exists n. rewrite (ob_restarts it Hb), (offs_all es n) by done. split_and!; [done| |done|intros; lia].
    apply (rs_le L). by eapply list_elem_of_lookup_2.
Qed.

Lemma interval_search_spec j r t it p :
  at_pos p it → rs !! j = Some r →
  (∀ i e, es !! i = Some e → ExtractUserKey (e_key e) = ExtractUserKey t → in_interval rs j i) →
  ∃ it' ok, interval_search compare user_compare data (Z.of_nat j) t it = Done (it', ok) ∧ get_result t it' ok.
Proof.
  intros Hp Hr Hin. pose proof (at_pos_block p it Hp) as Hb.
  destruct (SeekToRestartPoint_spec L it j r Hb Hr) as (it1 & E1 & Hb1 & Hc1 & Hri1).
  unfold interval_search. rewrite E1. cbn [mbind R_bind].
  destruct (interval_limit j r it1) as (m & -> & Hm & Hint); [apply Hb1|done|done|]. cbn [mbind R_bind].
  rewrite (loop_fuel_block it1) by apply Hb1. pose proof (entries_in_fuel L).
  destruct (seek_linear_spec L compare (S (length data)) m (Some (offs es m)) t r it1 Hb1) as (it2 & -> & Hc2 & Hres);
    [lia|done|lia|]. cbn [mbind R_bind]. pose proof (cache_ok_same _ _ (same_cache_trans _ _ _ Hc1 Hc2) (proj1 Hp)) as Hcache.
  destruct Hres as [(k & x & Hk & Hx & Hxt & Ha & Hall)|[[Hb2 Hcur] Hall]].
  2: { rewrite Hcur, (ob_restarts it2 Hb2), Z.eqb_refl. eexists _, true. split; [done|].
       assert (∀ i e, ¬ wanted t i e) as Hno.
       { intros i e (He & Het & Hu). pose proof (Hin i e He Hu) as Hi. pose proof (lookup_lt_Some _ _ _ He).
         assert (r ≤ i)%nat by (destruct Hi as (r0 & Hr0 & ? & _); by simplify_eq).
         pose proof (Hall i e ltac:(split; [done|by apply Hint; [lia|]]) He). lia. }
       assert (at_pos None it2) as Hp2 by (split; [done|by split]).
       split; [by intros i e ?%Hno|done|by right]. }
  assert (k < n)%nat as Hkn by by eapply lookup_lt_Some.
  rewrite (ae_current k it2 Ha), (ob_restarts it2) by by eapply at_entry_block.
  rewrite (proj2 (Z.eqb_neq _ _)).
  2: { pose proof (offs_lt es k n ltac:(lia)). rewrite (offs_all es n) in * by done. unfold restarts_off. lia. }
  destruct (ae_entry k it2 Ha) as (x' & Hx' & _ & Hkey). assert (x' = x) as -> by congruence.
  rewrite (GetUserKey_GetKey _ _ _ Hkey). cbn [mbind R_bind].
  destruct (Z.eqb_spec (user_compare (ExtractUserKey (e_key x)) (ExtractUserKey t)) 0) as [Heq|Hne]; cbn [negb].
  - apply user_compare_eq in Heq. assert (wanted t k x) as Hw by done.
    assert (seek_pos t = Some k) as Hseek.
    { destruct (seek_pos_cases t) as [[_ Hno]|(i & e & -> & He & Het & Hless & _)]; [by destruct (Hno k x)|].
      f_equal. destruct (decide (k < i)%nat) as [Hlt|]; [pose proof (Hless k x Hlt Hx); lia|].
      destruct (decide (i = k)) as [|Hik]; [done|].
      assert (wanted t i e) as (_ & _ & Hu) by (apply (wanted_between t i k e x); [done|lia|done..]).
      destruct (Hin i e He Hu) as (r0 & Hr0 & ? & _). assert (r0 = r) as -> by congruence.
      pose proof (Hall i e ltac:(lia) He). lia. }
    assert (at_pos (seek_pos t) it2) as Hp2 by (rewrite Hseek; by split).
    rewrite Hkey. cbn [mbind R_bind]. destruct (negb _ && _ && _ && _).
    + destruct (Seek_get t it2 _ Hp2) as (it3 & -> & Hg). cbn [mbind R_bind]. eauto.
    + eexists _, true. split; [done|]. by apply get_result_at.
  - eexists _, false. split; [done|]. split; [|intros _|done].
    + intros i e Hw. exfalso. pose proof Hw as (He & Het & Hu). pose proof (Hin i e He Hu) as Hi.
      assert (r ≤ i)%nat by (destruct Hi as (r0 & Hr0 & ? & _); by simplify_eq).
      assert (i < m)%nat by (apply Hint; [apply lookup_lt_Some in He; lia|done]).
      destruct (decide (i < k)%nat); [pose proof (Hall i e ltac:(lia) He); lia|].
      assert (wanted t k x) as (_ & _ & Hux) by (apply (wanted_between t k i x e); [done|lia|done..]).
      rewrite Hux in Hne. by rewrite user_compare_refl in Hne.
    + exists k, x. split; [done|]. pose proof (not_less_user t x Hxt).
      pose proof (Compare_flip (C := U) (ExtractUserKey t) (ExtractUserKey (e_key x))).
      pose proof (Compare_flip (C := U) (ExtractUserKey (e_key x)) (ExtractUserKey t)). lia.
Qed.

(** Reading a bucket of the block's hash index. *)
Lemma hash_Lookup_spec nb pairs rest key :
  0 < nb < 2 ^ 16 → tail = hash_buckets nb pairs ++ rest →
  hash_Lookup nb data (u32 (restarts_off (es := es) + Z.of_nat (length rs) * 4)) key =
    Done (byte_at (hash_buckets nb pairs) (Z.to_nat (GetSliceHash key mod nb))).
Proof.
  intros Hnb Ht. pose proof (restarts_off_range L) as [Hoff Hle]. pose proof (lo_size _ _ _ _ L).
  pose proof (num_restarts_range L). pose proof (length_hash_buckets nb pairs ltac:(lia)) as Hlen.
  assert (0 ≤ GetSliceHash key mod nb < nb) as Hm by (apply Z.mod_pos_bound; lia).
  pose proof (blen_nonneg rest) as Hrest.
  assert (blen data = restarts_off (es := es) + Z.of_nat (length rs) * 4 + nb + blen rest) as Hd.
  { rewrite (lo_bytes _ _ _ _ L), Ht, !blen_app, blen_restart_array, Hlen. unfold restarts_off. lia. }
  unfold hash_Lookup. rewrite !wrap_small by (unfold in_range; lia).
  rewrite (proj2 (Z.leb_le _ _)), (proj2 (Z.ltb_lt _ _)) by lia. cbn [andb require mbind R_bind]. f_equal.
  pose proof (blen_restart_array es rs) as Hra.
  assert (data !! Z.to_nat (restarts_off (es := es) + Z.of_nat (length rs) * 4 + GetSliceHash key mod nb) =
    hash_buckets nb pairs !! Z.to_nat (GetSliceHash key mod nb)) as E; [|unfold byte_at; by rewrite E].
  rewrite (lo_bytes _ _ _ _ L), Ht. unfold restarts_off, blen in *. rewrite app_assoc, lookup_app_r by (rewrite length_app; lia).
  rewrite length_app, lookup_app_l by lia. f_equal. lia.
Qed.

Lemma SeekForGetImpl_spec nb pairs rest t it p :
  at_pos p it → 0 < nb < 2 ^ 16 → pairs_ok es rs pairs → tail = hash_buckets nb pairs ++ rest →
  ∃ it' ok, SeekForGetImpl compare user_compare nb t it = Done (it', ok) ∧ get_result t it' ok.
Proof.
  intros Hp Hnb [Hplen Hpairs] Ht. pose proof (at_pos_block p it Hp) as Hb. pose proof (num_restarts_range L) as Hnum.
  unfold SeekForGetImpl, block_data. rewrite (ob_data it Hb), (ob_num it Hb), (ob_restarts it Hb). cbn [checked mbind R_bind].
  rewrite (hash_Lookup_spec nb pairs rest _ Hnb Ht). cbn [mbind R_bind].
  assert (∀ p, p ∈ pairs → 0 ≤ snd p ≤ 253) as Hrange.
  { intros q [i Hi]%list_elem_of_lookup_1. destruct (lookup_lt_is_Some_2 es i) as [e He]; [apply lookup_lt_Some in Hi; lia|].
    destruct (Hpairs i e q He Hi) as (j & -> & ? & _). cbn. lia. }
  assert (∀ i e, es !! i = Some e → ∃ j, (GetSliceHash (ExtractUserKey (e_key e)), Z.of_nat j) ∈ pairs ∧ in_interval rs j i) as Hpair.
  { intros i e He. destruct (lookup_lt_is_Some_2 pairs i) as [q Hq]; [apply lookup_lt_Some in He; lia|].
    destruct (Hpairs i e q He Hq) as (j & -> & _ & Hj). exists j. split; [by eapply list_elem_of_lookup_2|done]. }
  set (h := GetSliceHash (ExtractUserKey t)) in *.
  assert (0 ≤ h mod nb < nb) as Hm by (apply Z.mod_pos_bound; lia).
  pose proof (hash_buckets_sound nb pairs Hnb Hrange (h mod nb) Hm) as Hok.
  set (c := byte_at _ _) in *. unfold bucket_ok, pair_bucket, kNoEntry, kCollision, kMaxRestartSupportedByHashIndex in *.
  destruct (Z.eqb_spec c 254) as [Hcol|Hcol].
  { destruct (Seek_get t it p Hp) as (it' & -> & Hg). cbn [mbind R_bind]. eauto. }
  assert (∃ j r, (if c =? 255 then u8 (Z.of_nat (length rs) - 1) else c) = Z.of_nat j ∧ rs !! j = Some r ∧
    ∀ i e, es !! i = Some e → ExtractUserKey (e_key e) = ExtractUserKey t → in_interval rs j i) as (j & r & -> & Hr & Hin).
  { destruct Hok as [[Hc Hno]|[?|(Hc & (q & Hq & Hqb & Hqc) & Hall)]]; [|done|].
    - rewrite Hc, Z.eqb_refl. assert (length rs ≤ 254)%nat as H254.
      { destruct (lookup_lt_is_Some_2 rs (length rs - 1)) as [r Hr]; [lia|].
        destruct (lo_range _ _ _ _ L r (list_elem_of_lookup_2 _ _ _ Hr)) as [->|Hlt].
        - destruct (decide (length rs = 1%nat)); [lia|]. pose proof (restart_positive L (length rs - 1) 0 Hr ltac:(lia)). lia.
        - destruct (lookup_lt_is_Some_2 es r Hlt) as [e He]. destruct (lookup_lt_is_Some_2 pairs r) as [q Hq]; [lia|].
          destruct (Hpairs r e q He Hq) as (j & -> & Hj & x & Hx & _ & Hnext).
          destruct (decide (length rs ≤ S j)%nat); [lia|]. destruct (lookup_lt_is_Some_2 rs (S j)) as [r' Hr']; [lia|].
          specialize (Hnext r' Hr'). destruct (decide (S j = length rs - 1)%nat) as [E|]; [rewrite E in Hr'; simplify_eq; lia|].
          pose proof (StronglySorted_lookup lt rs (S j) (length rs - 1) r' r (lo_sorted _ _ _ _ L) ltac:(lia) Hr' Hr). lia. }
      destruct (lookup_lt_is_Some_2 rs (length rs - 1)) as [r Hr]; [lia|].
      exists (length rs - 1)%nat, r. split_and!; [|done|].
      + rewrite wrap_small; [lia|]. split; [lia|]. change (2 ^ 8) with 256. lia.
      + intros i e He Hu. destruct (Hpair i e He) as (j & Hj & _). destruct (Hno _ Hj). cbn. by rewrite Hu.
    - rewrite (proj2 (Z.eqb_neq c 255)) by lia. pose proof (Hrange q Hq).
      apply list_elem_of_lookup_1 in Hq as [i Hi]. destruct (lookup_lt_is_Some_2 es i) as [e He]; [apply lookup_lt_Some in Hi; lia|].
      destruct (Hpairs i e q He Hi) as (j & -> & _ & r & Hr & _). cbn [snd] in Hqc. exists j, r. split_and!; [done|done|].
      intros i' e' He' Hu. destruct (Hpair i' e' He') as (j' & Hj' & Hint). specialize (Hall _ Hj'). cbn in Hall. rewrite Hu in Hall.
      specialize (Hall eq_refl). by replace j with j' by lia. }
  pose proof (lookup_lt_Some _ _ _ Hr). unfold assert. rewrite (proj2 (Z.ltb_lt _ _)), orb_true_r by lia.
  cbn [require mbind R_bind]. by eapply interval_search_spec.
Qed.
End lookup.

Lemma kvs_of_lookup (es : list Entry) i k v :
  kvs_of (es := es) !! i = Some (k, v) ↔ ∃ e, es !! i = Some e ∧ k = e_key e ∧ v = e_val e.
Proof.
  unfold kvs_of. rewrite list_lookup_fmap, fmap_Some. split.
  - intros (e & ? & [= -> ->]). eauto.
  - intros (e & ? & -> & ->). eauto.
Qed.

Section get.
Context {K : Type} `{Host, Build, IterKeyLaws K}.

(** C22. Point lookup on any finished block, with or without a hash index, from
    any position. If an entry from the target on has the target's user key,
    SeekForGet returns true and stands where Seek would. If it returns false, no
    entry does and the block holds a greater user key, so the next block need
    not be searched. If it returns true, it stands where Seek would, or is
    invalid and no entry of the block is wanted. *)
Theorem SeekForGet_correct (C U : Comparator) interval use_delta index_type ratio kvs contents pinned ops pos target :
  InternalOrder C U → 1 ≤ interval → fits kvs →
  StronglySorted (λ a b, @Comparator.Compare C (fst a) (fst b) < 0) kvs →
  build_block interval use_delta index_type ratio kvs = Done contents →
  cursor_run (@Comparator.Compare C) kvs ops None = Some pos →
  let wanted i := ∃ k v, kvs !! i = Some (k, v) ∧ 0 ≤ @Comparator.Compare C k target ∧
                    ExtractUserKey k = ExtractUserKey target in
  let seek_pos := cursor_step (@Comparator.Compare C) kvs (CSeek target) pos in
  ∃ blk it0 it1 it may_exist, new_Block contents = Done blk ∧
    NewDataIterator (K := K) kDisableGlobalSequenceNumber None pinned blk = Done it0 ∧
    iter_run (@Comparator.Compare C) ops it0 = Done it1 ∧
    SeekForGet (@Comparator.Compare C) (@Comparator.Compare U) target it1 = Done (it, may_exist) ∧
    (∀ i, wanted i → may_exist = true ∧ reads_at contents kvs seek_pos it) ∧
    (may_exist = false → ∃ k v, (k, v) ∈ kvs ∧
       0 < @Comparator.Compare U (ExtractUserKey k) (ExtractUserKey target)) ∧
    (may_exist = true → reads_at contents kvs seek_pos it ∨ (Valid it = false ∧ ∀ i, ¬ wanted i)).
Proof.
  intros HO Hi Hf Hsorted Hbuild Hrun wanted_at seek_pos.
  destruct (built_block_opens interval use_delta index_type ratio kvs contents pinned Hi Hf Hbuild)
    as (es & rs & tail & nb & blk & it0 & L & Ht & Hm & Hblk & Hit & Hp & Htb).
  assert (StronglySorted (λ a b, @Comparator.Compare C (e_key a) (e_key b) < 0) es) as Hs by (subst kvs; by apply (kvs_of_sorted (λ a b, @Comparator.Compare C a b < 0))).
  subst kvs. destruct (iter_run_spec L (@Comparator.Compare C) Hs Compare_flip Compare_trans ops None it0 pos Hp Hrun) as (it1 & Hrun' & Hp1).
  assert (∃ it ok, SeekForGet (@Comparator.Compare C) (@Comparator.Compare U) target it1 = Done (it, ok) ∧
    get_result (data := contents) (es := es) (rs := rs) (hidx := if nb =? 0 then None else Some nb) C U target it ok) as (it & ok & Hget & [Hfound Hfalse Htrue]).
  { unfold SeekForGet. rewrite (ob_hash it1) by (exact (at_pos_block _ _ Hp1)). destruct Htb as [[-> _]|(Hnb & pairs & Hpairs & Htl)].
    - destruct (Seek_get L C U Hs target it1 pos Hp1) as (it & E & ?). change (0 =? 0) with true. cbv iota.
      rewrite E. cbn [mbind R_bind]. eauto.
    - pose proof (proj2 (Z.eqb_neq nb 0) ltac:(lia)) as En. rewrite En in *.
      exact (SeekForGetImpl_spec L C U Hs nb pairs _ target it1 pos Hp1 Hnb Hpairs Htl). }
  exists blk, it0, it1, it, ok. split_and!; try done.
  - intros i (k & v & (e & He & -> & ->)%kvs_of_lookup & Hge & Hu). destruct (Hfound i e) as [? Hpos]; [done|].
    split; [done|]. exact (at_pos_reads L _ _ Hpos).
  - intros Hof. destruct (Hfalse Hof) as (i & e & He & Hlt). exists (e_key e), (e_val e). split; [|done].
    apply list_elem_of_lookup_2 with i. apply kvs_of_lookup. eauto.
  - intros Hot. destruct (Htrue Hot) as [Hpos|[[_ Hend] Hno]]; [left; exact (at_pos_reads L _ _ Hpos)|right].
    split; [exact (at_end_invalid it Hend)|]. intros i (k & v & (e & He & -> & ->)%kvs_of_lookup & ? & ?). by destruct (Hno i e).
Qed.
End get.

(** ** An order of internal keys *)

(** By user key, then the trailer descending. *)
Definition test_internal_compare (a b : bytes) : Z :=
  let c := slice_compare (take (length a - 8) a) (take (length b - 8) b) in
  if c =? 0 then slice_compare (drop (length b - 8) b) (drop (length a - 8) a) else c.
Definition TestInternalComparator : Comparator := {|
  Comparator.Compare := test_internal_compare;
  Equal a b := test_internal_compare a b =? 0;
  FindShortestSeparator start _ := start;
  FindShortSuccessor key := key;
  IsSameLengthImmediateSuccessor _ _ := false;
  CanKeysWithDifferentByteContentsBeEqual := true;
|}.

Lemma test_internal_flip a b : test_internal_compare b a = - test_internal_compare a b.
Proof.
  unfold test_internal_compare. rewrite (slice_compare_neg (take (length a - 8) a)).
  destruct (Z.eqb_spec (slice_compare (take (length a - 8) a) (take (length b - 8) b)) 0) as [->|].
  - cbn [Z.opp Z.eqb]. apply slice_compare_neg.
  - rewrite (proj2 (Z.eqb_neq _ _)) by lia. lia.
Qed.
Lemma test_internal_trans a b c :
  test_internal_compare a b ≤ 0 → test_internal_compare b c ≤ 0 → test_internal_compare a c ≤ 0.
Proof.
  unfold test_internal_compare.
  set (ua := take _ a). set (ub := take _ b). set (uc := take _ c). set (ta := drop _ a). set (tb := drop _ b). set (tc := drop _ c).
  pose proof (slice_compare_trans ua ub uc). pose proof (slice_compare_trans tc tb ta).
  pose proof (slice_compare_trans uc ua ub). pose proof (slice_compare_trans ub uc ua).
  pose proof (slice_compare_neg ua ub). pose proof (slice_compare_neg ua uc). pose proof (slice_compare_neg ub uc).
  destruct (Z.eqb_spec (slice_compare ua ub) 0), (Z.eqb_spec (slice_compare ub uc) 0), (Z.eqb_spec (slice_compare ua uc) 0); lia.
Qed.

Lemma TestInternalComparator_laws : ComparatorLaws TestInternalComparator.
Proof.
  assert (∀ k, test_internal_compare k k = 0) as Hrefl by (intros k; pose proof (test_internal_flip k k); lia).
  split; cbn.
  - intros a b. rewrite (test_internal_flip b a). lia.
  - apply test_internal_trans.
  - intros a b. by rewrite Z.eqb_eq.
  - done.
  - intros start limit ? _ ?. rewrite Hrefl. split_and!; done || lia.
  - intros key ?. rewrite Hrefl. split_and!; done || lia.
Qed.

Lemma TestOrder : @InternalOrder TestFormat TestInternalComparator BytewiseComparator.
Proof.
  split; [apply TestInternalComparator_laws|apply BytewiseComparator_laws|done|].
  intros a b. cbn. unfold test_internal_compare. by destruct (Z.eqb_spec (slice_compare (take (length a - 8) a) (take (length b - 8) b)) 0); lia.
Qed.

(** Two user keys, the first in two versions, found through the hash index. *)
Definition ikey (user : string) (trailer : Z) : bytes := str user ++ [1; 0; 0; 0; 0; 0; 0; trailer].
Definition test_ikvs : list (bytes * bytes) :=
  [(ikey "apple" 9, [1]); (ikey "apple" 5, [2]); (ikey "cherry" 7, [3])].
Definition test_hash_contents : bytes :=
  match @build_block TestHost TestBuild TestFormat 2 true kDataBlockBinaryAndHash kDefaultUtilRatio test_ikvs with
  | Done c => c | Fault _ => [] end.

Lemma SeekForGet_correct_witness :
  ∃ blk it0 it1 it may_exist, @new_Block TestHost TestBuild test_hash_contents = Done blk ∧
    @NewDataIterator TestKey TestBuild TestIterKey (2 ^ 64 - 1) None false blk = Done it0 ∧ num_buckets_ blk = 5 ∧
    @iter_run TestKey TestHost TestBuild TestFormat TestIterKey test_internal_compare [CFirst] it0 = Done it1 ∧
    @SeekForGet TestKey TestHost TestBuild TestFormat TestIterKey test_internal_compare slice_compare (ikey "apple" 7) it1 = Done (it, may_exist) ∧
    may_exist = true ∧ @reads_at TestKey TestBuild TestIterKey test_hash_contents test_ikvs (Some 1%nat) it.
Proof.
  destruct (@SeekForGet_correct TestKey TestHost TestBuild TestFormat TestIterKey TestIterKey_laws
           TestInternalComparator BytewiseComparator 2 true kDataBlockBinaryAndHash kDefaultUtilRatio test_ikvs test_hash_contents
           false [CFirst] (Some 0%nat) (ikey "apple" 7)) as (blk & it0 & it1 & it & ok & Hblk & Hit & Hrun & Hget & Hfound & _).
  - apply TestOrder.
  - lia.
  - vm_compute. reflexivity.
  - repeat constructor.
  - vm_compute. reflexivity.
  - vm_compute. reflexivity.
  - exists blk, it0, it1, it, ok. split; [exact Hblk|]. split; [exact Hit|].
    assert (num_buckets_ <$> @new_Block TestHost TestBuild test_hash_contents = Done 5) as Hnb by (vm_compute; reflexivity).
    rewrite Hblk in Hnb. injection Hnb as Hnb. split; [exact Hnb|]. split; [exact Hrun|]. split; [exact Hget|].
    apply (Hfound 1%nat). exists (ikey "apple" 5), [2]. split; [reflexivity|]. split; [vm_compute; congruence|reflexivity].
Defined.

(** A false positive in an interval that is not the last: SeekForGet returns true
    with an invalid iterator, although the block holds greater user keys. *)
Example SeekForGet_false_positive :
  match @build_block TestHost TestBuild TestFormat 1 true kDataBlockBinaryAndHash kDefaultUtilRatio
          [(ikey "a" 9, [1]); (ikey "m" 9, [2]); (ikey "z" 9, [3])] with
  | Done contents =>
      blk ← @new_Block TestHost TestBuild contents;
      it ← @NewDataIterator TestKey TestBuild TestIterKey (2 ^ 64 - 1) None false blk;
      '(it, may_exist) ← @SeekForGet TestKey TestHost TestBuild TestFormat TestIterKey test_internal_compare slice_compare (ikey "b" 9) it;
      Done (may_exist, Valid it)
  | Fault f => Fault f
  end = Done (true, false).
Proof. vm_compute. reflexivity. Qed.
