(* ===== verification/BlockIterator.v ===== *)
(** * Data blocks under a merging iterator

    DataBlockIter implements InternalIterator: the merging iterator's theorems
    hold for blocks, and the entries of any number of blocks are read in order. *)
From S2P Require Import Prelude Result Status Coding Hash Comparator Cursor Heap IteratorWrapper MergingIterator MergingCorrect MergeBuilder.
From S2P Require Import BlockBuilder Block BlockLayout BlockIterCorrect BlockCursor BlockBuilderCorrect BlockReadCorrect.

Section instance.
Context {K : Type} `{Host, Build, IterKeyLaws K} `{C : Comparator, !ComparatorLaws C}.
#[local] Abbreviation DataBlockIter := (DataBlockIter (K := K)).

Definition read_with (get : DataBlockIter → R Slice) (it : DataBlockIter) : R bytes :=
  s ← get it; data ← block_data it; slice_read data s.
#[export] Instance DataBlockIter_iterator : InternalIterator DataBlockIter := {
  it_Valid := Block.Valid;
  it_SeekToFirst := Block.SeekToFirst;
  it_SeekToLast := Block.SeekToLast;
  it_Seek := Block.Seek Comparator.Compare;
  it_SeekForPrev := Block.SeekForPrev Comparator.Compare;
  it_Next := Block.Next;
  it_NextAndGetResult := default_NextAndGetResult Block.Next Block.Valid (read_with Block.key) (λ _, Done true);
  it_Prev := Block.Prev;
  it_key := read_with Block.key;
  it_value := read_with Block.value;
  it_status := Block.status_;
  it_MayBeOutOfLowerBound _ := Done true;
  it_MayBeOutOfUpperBound _ := Done true;
}.

(** An iterator over a block that holds the entries. *)
Definition block_at (kvs : list (bytes * bytes)) (pos : option nat) (it : DataBlockIter) : Prop :=
  ∃ data es rs tail hidx, layout data es rs tail ∧ sorted Comparator.Compare kvs ∧ kvs = kvs_of (es := es) ∧
    at_pos (data := data) (es := es) (rs := rs) (hidx := hidx) pos it.

Lemma block_at_reads kvs pos it :
  block_at kvs pos it → it_reads kvs pos it.
Proof.
  intros (data & es & rs & tail & hidx & L & _ & -> & Hat). pose proof (at_pos_reads L pos it Hat) as [Hst Hp].
  pose proof (at_pos_block pos it Hat) as Hb. split; [done|]. destruct pos as [i|]; [|done].
  destruct Hp as (k & v & Hkv & Hv & Hk & Hval). exists k, v. split_and!; [done|done|..].
  - cbn. unfold read_with, block_data. rewrite (ob_data _ Hb). destruct (Block.key it); [|done]. exact Hk.
  - cbn. unfold read_with, block_data. rewrite (ob_data _ Hb). destruct (Block.value it); [|done]. exact Hval.
Qed.
Lemma block_at_step kvs pos it o :
  block_at kvs pos it → cursor_may o pos = true →
  ∃ it', it_step o it = Done it' ∧ block_at kvs (cursor_step Comparator.Compare kvs o pos) it'.
Proof.
  intros (data & es & rs & tail & hidx & L & Hs & -> & Hat) Hmay.
  assert (StronglySorted (λ a b, Comparator.Compare (e_key a) (e_key b) < 0) es) as Hes.
  { by apply (kvs_of_sorted (λ a b, Comparator.Compare a b < 0)). }
  destruct (iter_step_spec L Comparator.Compare Hes Compare_flip Compare_trans o pos it Hat Hmay) as (it' & E & Hat').
  exists it'. split; [by destruct o|]. by exists data, es, rs, tail, hidx.
Qed.

#[export] Program Instance DataBlockIter_laws : IteratorLaws Comparator.Compare DataBlockIter := {| it_at := block_at |}.
Next Obligation. by intros kvs pos it (? & ? & ? & ? & ? & _ & ? & _). Qed.
Next Obligation. intros kvs pos it Hat. by destruct (block_at_reads kvs pos it Hat). Qed.
Next Obligation.
  intros kvs pos it Hat. destruct (block_at_reads kvs pos it Hat) as [_ Hp].
  destruct pos as [i|]; [destruct Hp as (k & v & _ & -> & _); by rewrite bool_decide_eq_true_2|exact Hp].
Qed.
Next Obligation.
  intros kvs i it Hat. destruct (block_at_reads kvs _ it Hat) as [_ (k & v & Hk & _)]. by eapply lookup_lt_Some.
Qed.
Next Obligation.
  intros kvs i it kv Hat Hkv. destruct (block_at_reads kvs _ it Hat) as [_ (k & v & Hk & _ & ? & ?)].
  rewrite Hkv in Hk. by injection Hk as ->.
Qed.
Next Obligation. exact block_at_step. Qed.
Next Obligation.
  intros kvs i it Hat. destruct (block_at_step kvs (Some i) it CNext Hat eq_refl) as (it' & E & Hat'). cbn [it_step it_Next DataBlockIter_iterator] in E.
  cbn [it_NextAndGetResult it_Next DataBlockIter_iterator]. unfold default_NextAndGetResult. rewrite E. cbn [mbind R_bind].
  destruct (block_at_reads kvs _ it' Hat') as [_ Hp]. destruct (cursor_step Comparator.Compare kvs CNext (Some i)) as [j|].
  - destruct Hp as (k & v & Hk & Hv & Hkey & _). cbn [it_Valid it_key DataBlockIter_iterator] in Hv, Hkey. rewrite Hv, Hkey.
    cbn [mbind R_bind]. rewrite debug_assert_true by done. do 2 eexists. split_and!; [done|done|]. cbn. by rewrite Hk.
  - cbn [it_Valid DataBlockIter_iterator] in Hp. rewrite Hp. by do 2 eexists.
Qed.

End instance.

Definition other_kvs : list (bytes * bytes) := [(str "apple pie", [7]); (str "avocado", [8]); (str "cherry", [9; 9])].
Definition merged_kvs : list (bytes * bytes) :=
  [(str "apple", [1]); (str "apple pie", [7]); (str "apply", [2; 2]); (str "avocado", [8]); (str "banana", []);
   (str "bandana", [3]); (str "cherry", [9; 9])].
Definition test_blocks : list (Z * bool * DataBlockIndexType * double * list (bytes * bytes)) :=
  [(2, true, kDataBlockBinarySearch, zero_double, test_kvs); (1, false, kDataBlockBinaryAndHash, kDefaultUtilRatio, other_kvs)].
Definition test_block_contents : list bytes :=
  map (λ b, let '(interval, use_delta, index_type, ratio, l) := b in
     match @build_block TestHost TestBuild TestFormat interval use_delta index_type ratio l with
     | Done c => c | Fault _ => [] end) test_blocks.
(** Forth, a turn in the middle, and back over the cached entries. *)
Definition merged_ops : list cursor_op :=
  [CFirst; CNext; CNext; CNext; CPrev; CPrev; CNext; CSeek (str "b"); CNext; CNext; CPrev; CPrev; CPrev; CSeekForPrev (str "bb")].

