(* ===== verification/PreparedHeap.v ===== *)
(** * The heap of prepared transactions
      (WritePreparedTxnDB::PreparedHeap, write_prepared_txn_db.h)

    A queue of sequence numbers pushed in increasing order, with a second heap
    of the numbers erased before they reached the top. The abstract value is
    the set of pushed and not yet erased numbers; [top] is its minimum. Any
    number may be erased: one that is pending, one that was popped or erased
    before, one that was never pushed. [heap_wf] is the invariant of every such
    run; [heap_inv] is the stronger one of a caller that erases only what it
    pushed. The debug build also asserts that no number is erased twice; the
    assertion is not modelled, the release build's answer is. *)
From S2P Require Import Prelude.

(** [kMaxSequenceNumber] is a constant of db/dbformat.h: larger than every
    sequence number. *)
Class SeqParams := { kMaxSequenceNumber : Z }.

(** [heap_] is the deque front first; [erased_heap_] the priority queue in the
    order it is popped. *)
Record PreparedHeap := mkHeap {
  heap_ : list Z;
  erased_heap_ : list Z;
  heap_top_ : Z;
}.

Fixpoint pq_push (x : Z) (q : list Z) : list Z :=
  match q with
  | [] => [x]
  | y :: q' => if x <=? y then x :: q else y :: pq_push x q'
  end.

(** The two loops of [pop] that drop erased numbers from the top. *)
Fixpoint pop_skip (heap erased : list Z) {struct erased} : list Z * list Z :=
  match heap, erased with
  | h :: hs, e :: es =>
      if e <=? h then pop_skip (if h =? e then hs else heap) es else (heap, erased)
  | _, _ => (heap, erased)
  end.

Section prepared_heap.
Context `{SeqParams}.

Definition empty_heap : PreparedHeap := mkHeap [] [] kMaxSequenceNumber.

Definition heap_empty (h : PreparedHeap) : bool := heap_top_ h =? kMaxSequenceNumber.
Definition heap_top (h : PreparedHeap) : Z := heap_top_ h.

Definition heap_push (v : Z) (h : PreparedHeap) : PreparedHeap :=
  mkHeap (heap_ h ++ [v]) (erased_heap_ h)
    (match heap_ h with [] => v | _ => heap_top_ h end).

Definition heap_pop (h : PreparedHeap) : PreparedHeap :=
  let '(heap, erased) := pop_skip (tail (heap_ h)) (erased_heap_ h) in
  let erased := match heap with [] => [] | _ => erased end in
  mkHeap heap erased (match heap with [] => kMaxSequenceNumber | x :: _ => x end).

Definition heap_erase (seq : Z) (h : PreparedHeap) : PreparedHeap :=
  if heap_empty h then h
  else
    let top_seq := heap_top h in
    if seq <? top_seq then h
    else if top_seq =? seq then heap_pop h
    else mkHeap (heap_ h) (pq_push seq (erased_heap_ h)) (heap_top_ h).

(** ** Abstraction *)

Definition to_set (l : list Z) : gset Z := list_to_set l.
Definition ascending (l : list Z) : Prop := StronglySorted Z.lt l.

Record heap_wf (h : PreparedHeap) : Prop := {
  hw_heap : ascending (heap_ h);
  hw_erased : StronglySorted Z.le (erased_heap_ h);
  hw_head : ∀ x e, head (heap_ h) = Some x → e ∈ erased_heap_ h → x < e;
  hw_top : heap_top_ h = default kMaxSequenceNumber (head (heap_ h));
  hw_max : Forall (λ x, x < kMaxSequenceNumber) (heap_ h);
  hw_empty : heap_ h = [] → erased_heap_ h = [];
}.

Record heap_inv (h : PreparedHeap) : Prop := {
  hi_wf : heap_wf h;
  hi_sub : ∀ e, e ∈ erased_heap_ h → e ∈ heap_ h;
}.

Definition contents (h : PreparedHeap) : gset Z :=
  to_set (heap_ h) ∖ to_set (erased_heap_ h).

Lemma elem_of_to_set x l : x ∈ to_set l ↔ x ∈ l.
Proof. apply elem_of_list_to_set. Qed.

Lemma elem_of_contents x h : x ∈ contents h ↔ x ∈ heap_ h ∧ x ∉ erased_heap_ h.
Proof. unfold contents. by rewrite elem_of_difference, !elem_of_to_set. Qed.

Lemma ascending_head_lt x l y : ascending (x :: l) → y ∈ l → x < y.
Proof. intros Hs Hy. inversion Hs as [|? ? ? Hf]; subst. rewrite Forall_forall in Hf. auto. Qed.

Lemma ascending_tail x l : ascending (x :: l) → ascending l.
Proof. intros Hs. by inversion Hs. Qed.

Lemma ascending_notin x l : ascending (x :: l) → x ∉ l.
Proof. intros Hs Hx. pose proof (ascending_head_lt _ _ _ Hs Hx). lia. Qed.

Lemma ascending_snoc l v : ascending l → (∀ x, x ∈ l → x < v) → ascending (l ++ [v]).
Proof.
  induction l as [|a l IH]; intros Hs Hv; simpl.
  { repeat constructor. }
  inversion Hs; subst. constructor.
  - apply IH; [done|]. intros x Hx. apply Hv. by constructor.
  - rewrite Forall_app. split; [done|]. repeat constructor. apply Hv. by constructor.
Qed.

Lemma elem_of_pq_push x y q : y ∈ pq_push x q ↔ y = x ∨ y ∈ q.
Proof.
  induction q as [|a q IH]; simpl; [set_solver|].
  destruct (x <=? a); [set_solver|]. rewrite !elem_of_cons, IH. naive_solver.
Qed.

Lemma pq_push_sorted x q : StronglySorted Z.le q → StronglySorted Z.le (pq_push x q).
Proof.
  induction q as [|a q IH]; intros Hs; simpl; [repeat constructor|].
  inversion Hs as [|? ? Hq Ha]; subst. rewrite Forall_forall in Ha. destruct (Z.leb_spec x a).
  - constructor; [done|]. rewrite Forall_forall. intros y Hy.
    apply elem_of_cons in Hy as [->|Hy]; [lia|]. specialize (Ha y Hy). lia.
  - constructor; [by apply IH|]. rewrite Forall_forall.
    intros y Hy. apply elem_of_pq_push in Hy as [->|Hy]; [lia|auto].
Qed.

(** What the dropping loop leaves: the same live numbers, every recorded
    erasure above the new top. It drops a prefix of the queue, and no erasure
    above the whole queue. *)
Record skipped (heap erased heap' erased' : list Z) : Prop := {
  sk_heap : ascending heap';
  sk_erased : StronglySorted Z.le erased';
  sk_head : ∀ x e, head heap' = Some x → e ∈ erased' → x < e;
  sk_sub : ∀ x, x ∈ heap' → x ∈ heap;
  sk_esub : ∀ e, e ∈ erased' → e ∈ erased;
  sk_suffix : ∀ x y, x ∈ heap → y ∈ heap' → y ≤ x → x ∈ heap';
  sk_ahead : ∀ e, e ∈ erased → (∀ x, x ∈ heap → x < e) → e ∈ erased';
  sk_live : ∀ x, (x ∈ heap ∧ x ∉ erased) ↔ (x ∈ heap' ∧ x ∉ erased');
}.

Lemma pop_skip_done heap erased :
  ascending heap → StronglySorted Z.le erased →
  (∀ x e, head heap = Some x → e ∈ erased → x < e) → skipped heap erased heap erased.
Proof. intros Hh He Hx. by split. Qed.

Lemma pop_skip_spec heap erased :
  ascending heap → StronglySorted Z.le erased →
  skipped heap erased (fst (pop_skip heap erased)) (snd (pop_skip heap erased)).
Proof.
  revert heap. induction erased as [|e es IH]; intros heap Hh He.
  { destruct heap; apply pop_skip_done; try done; set_solver. }
  destruct heap as [|h hs]; [by apply pop_skip_done|].
  inversion He as [|? ? Hes Hle]; subst. rewrite Forall_forall in Hle.
  cbn [pop_skip]. destruct (Z.leb_spec e h) as [Heh|Hlt].
  2: { apply pop_skip_done; [done|done|]. intros x y [= <-] Hy.
       apply elem_of_cons in Hy as [->|Hy]; [done|]. specialize (Hle y Hy). lia. }
  pose proof (ascending_tail _ _ Hh) as Ht. pose proof (ascending_head_lt h hs) as Hhd.
  destruct (Z.eqb_spec h e) as [->|Hne].
  - destruct (IH hs Ht Hes) as [S1 S2 S3 S4 S5 S6 S7 S8]. split; try done.
    + intros x Hx. apply S4 in Hx. set_solver.
    + intros y Hy. apply S5 in Hy. set_solver.
    + intros x y Hx Hy Hyx. apply elem_of_cons in Hx as [->|Hx]; [|by eapply S6].
      specialize (Hhd y Hh (S4 y Hy)). lia.
    + intros y Hy Hx. specialize (Hx e (list_elem_of_here _ _)) as Hey.
      apply elem_of_cons in Hy as [->|Hy]; [lia|]. apply S7; [done|]. intros x Hx'. apply Hx. by right.
    + intros x. rewrite <- S8. pose proof (ascending_notin _ _ Hh). set_solver.
  - destruct (IH (h :: hs) Hh Hes) as [S1 S2 S3 S4 S5 S6 S7 S8]. split; try done.
    + intros y Hy. apply S5 in Hy. set_solver.
    + intros y Hy Hx. specialize (Hx h (list_elem_of_here _ _)) as Hey.
      apply elem_of_cons in Hy as [->|Hy]; [lia|]. by apply S7.
    + intros x. rewrite <- S8. split; [set_solver|]. intros [Hx Hn]. split; [done|].
      rewrite elem_of_cons. intros [->|]; [|done]. apply elem_of_cons in Hx as [->|Hx]; [done|].
      specialize (Hhd _ Hh Hx). lia.
Qed.

Lemma heap_wf_top h :
  heap_wf h →
  (heap_empty h = true ↔ heap_ h = []) ∧
  (heap_ h = [] ↔ contents h = ∅) ∧
  (∀ x, x ∈ heap_ h → heap_top h ≤ x) ∧
  (heap_ h ≠ [] → heap_top h ∈ contents h).
Proof.
  intros [Hh He Hhead Htop Hmax Hemp]. unfold heap_empty, heap_top.
  destruct (heap_ h) as [|x hs] eqn:E; simpl in Htop.
  - rewrite Htop, Z.eqb_refl. split_and!; try done; [|set_solver].
    split; [|done]. intros _. apply set_eq. intros x. rewrite elem_of_contents, E. set_solver.
  - assert (x ∈ contents h) as Hx.
    { rewrite elem_of_contents, E. split; [by left|].
      intros Hin. specialize (Hhead x x eq_refl Hin). lia. }
    apply Forall_cons in Hmax as [Hxmax _]. rewrite Htop. split_and!; try done.
    + destruct (Z.eqb_spec x kMaxSequenceNumber); [lia|done].
    + split; [done|]. intros Hc. set_solver.
    + intros y Hy. apply elem_of_cons in Hy as [->|Hy]; [lia|].
      pose proof (ascending_head_lt _ _ _ Hh Hy). lia.
Qed.

Lemma heap_inv_top h :
  heap_inv h →
  (heap_empty h = true ↔ heap_ h = []) ∧
  (heap_ h = [] ↔ contents h = ∅) ∧
  (∀ x, x ∈ contents h → heap_top h ≤ x) ∧
  (heap_ h ≠ [] → heap_top h ∈ contents h).
Proof.
  intros [Hwf _]. destruct (heap_wf_top h Hwf) as (? & ? & Hmin & ?). split_and!; try done.
  intros x Hx. apply Hmin. by apply elem_of_contents in Hx as [? _].
Qed.

Lemma empty_heap_inv : heap_inv empty_heap ∧ contents empty_heap = ∅.
Proof.
  split; [|apply set_eq; intros x; rewrite elem_of_contents; simpl; set_solver].
  split; [|simpl; set_solver]. split; simpl; try done; constructor.
Qed.

Lemma heap_push_wf v h :
  heap_wf h → (∀ x, x ∈ heap_ h → x < v) → v < kMaxSequenceNumber →
  heap_wf (heap_push v h) ∧
  contents (heap_push v h) =
    if decide (v ∈ erased_heap_ h) then contents h else {[v]} ∪ contents h.
Proof.
  intros [Hh He Hhead Htop Hmax Hemp] Hv Hlt. split.
  - split; simpl; try done.
    + by apply ascending_snoc.
    + intros x e Hx Hin. destruct (heap_ h) as [|y hs]; simpl in *; simplify_eq; [|by eauto].
      rewrite Hemp in Hin by done. set_solver.
    + rewrite Htop. by destruct (heap_ h).
    + rewrite Forall_app. split; [done|]. by repeat constructor.
    + by destruct (heap_ h).
  - apply set_eq. intros x. rewrite elem_of_contents. simpl. rewrite elem_of_app, list_elem_of_singleton.
    destruct (decide (v ∈ erased_heap_ h)); [|rewrite elem_of_union, elem_of_singleton];
      rewrite elem_of_contents; naive_solver.
Qed.

Lemma heap_push_spec v h :
  heap_inv h → (∀ x, x ∈ heap_ h → x < v) → v < kMaxSequenceNumber →
  heap_inv (heap_push v h) ∧ contents (heap_push v h) = {[v]} ∪ contents h.
Proof.
  intros [Hwf Hsub] Hv Hlt. destruct (heap_push_wf v h Hwf Hv Hlt) as [Hw Hc].
  rewrite decide_False in Hc by (intros Hin; apply Hsub, Hv in Hin; lia).
  split; [|done]. split; [done|]. simpl. set_solver.
Qed.

Lemma heap_pop_wf h :
  heap_wf h → heap_ h ≠ [] →
  heap_wf (heap_pop h) ∧ contents (heap_pop h) = contents h ∖ {[heap_top h]} ∧
  (∀ x, x ∈ heap_ (heap_pop h) → x ∈ heap_ h ∧ heap_top h < x) ∧
  (heap_ (heap_pop h) ≠ [] → ∀ e, (∀ x, x ∈ heap_ h → x < e) →
     (e ∈ erased_heap_ (heap_pop h) ↔ e ∈ erased_heap_ h)) ∧
  ((∀ e, e ∈ erased_heap_ h → e ∈ heap_ h) →
   ∀ e, e ∈ erased_heap_ (heap_pop h) → e ∈ heap_ (heap_pop h)).
Proof.
  intros [Hh He Hhead Htop Hmax Hemp] Hne. unfold heap_pop, heap_top.
  destruct (heap_ h) as [|x hs] eqn:E; [done|]. simpl in Htop. rewrite Htop. cbn [tail].
  pose proof (ascending_tail _ _ Hh) as Ht. specialize (Hhead x) as Hx.
  destruct (pop_skip_spec hs (erased_heap_ h) Ht He) as [S1 S2 S3 S4 S5 S6 S7 S8].
  destruct (pop_skip hs (erased_heap_ h)) as [heap erased]. cbn [fst snd] in *.
  assert (∀ y, y ∈ heap → (y ∈ match heap with [] => [] | _ => erased end ↔ y ∈ erased)) as Hm.
  { intros y. by destruct heap; [set_solver|]. }
  split_and!.
  - split; simpl; [done| | |by destruct heap| |by intros ->].
    + destruct heap; [constructor|done].
    + intros y e Hy. destruct heap; [done|]. by apply S3.
    + rewrite Forall_forall in *. intros y Hy. apply Hmax. right. by apply S4.
  - apply set_eq. intros y. rewrite elem_of_difference, elem_of_singleton, !elem_of_contents.
    simpl. rewrite E, elem_of_cons. pose proof (ascending_notin _ _ Hh). specialize (S8 y).
    specialize (Hm y). specialize (S4 y). naive_solver.
  - intros y Hy. simpl in Hy. apply S4 in Hy. split; [by right|]. by eapply ascending_head_lt.
  - simpl. intros Hn e Hlt. destruct heap; [done|]. split; [by apply S5|]. intros Hin.
    apply S7; [done|]. intros y Hy. apply Hlt. by right.
  - simpl. intros Hsub e Hin. destruct heap as [|y heap]; [done|].
    apply (S6 e y); [|by left|].
    + specialize (Hsub e (S5 e Hin)). apply elem_of_cons in Hsub as [->|]; [|done].
      specialize (Hx x eq_refl (S5 x Hin)). lia.
    + specialize (S3 y e eq_refl Hin). lia.
Qed.

Lemma heap_pop_spec h :
  heap_inv h → heap_ h ≠ [] →
  heap_inv (heap_pop h) ∧ contents (heap_pop h) = contents h ∖ {[heap_top h]} ∧
  (∀ x, x ∈ heap_ (heap_pop h) → x ∈ heap_ h ∧ heap_top h < x).
Proof.
  intros [Hwf Hsub] Hne. destruct (heap_pop_wf h Hwf Hne) as (Hw & Hc & Hp & _ & Hs).
  split_and!; [|done|done]. split; [done|]. by apply Hs.
Qed.

Lemma pop_skip_length heap erased : (length (fst (pop_skip heap erased)) ≤ length heap)%nat.
Proof.
  revert heap. induction erased as [|e es IH]; intros [|h hs]; simpl; try lia.
  destruct (e <=? h); [|simpl; lia]. destruct (h =? e); [specialize (IH hs)|specialize (IH (h :: hs))];
    simpl in *; lia.
Qed.

Lemma heap_pop_length h :
  heap_ h ≠ [] → (length (heap_ (heap_pop h)) < length (heap_ h))%nat.
Proof.
  intros Hne. unfold heap_pop. pose proof (pop_skip_length (tail (heap_ h)) (erased_heap_ h)).
  destruct (pop_skip _ _) as [hs es]. destruct (heap_ h); [done|]. simpl in *. lia.
Qed.

(** The recorded erasures after [erase]: a number above the queue is recorded
    while the queue is not empty, whether it was ever pushed or not. *)
Lemma heap_erase_wf seq h :
  heap_wf h →
  heap_wf (heap_erase seq h) ∧ contents (heap_erase seq h) = contents h ∖ {[seq]} ∧
  (∀ x, x ∈ heap_ (heap_erase seq h) → x ∈ heap_ h) ∧
  (heap_ (heap_erase seq h) ≠ [] → ∀ e, (∀ x, x ∈ heap_ h → x < e) →
     (e ∈ erased_heap_ (heap_erase seq h) ↔ e = seq ∨ e ∈ erased_heap_ h)).
Proof.
  intros Hwf. destruct (heap_wf_top h Hwf) as (Hemp & Hempc & Hmin & Htopin). unfold heap_erase.
  destruct (heap_empty h) eqn:E.
  { destruct Hemp as [Hemp _]. specialize (Hemp eq_refl).
    split_and!; try done. apply Hempc in Hemp. rewrite Hemp. set_solver. }
  assert (heap_ h ≠ []) as Hne by (intros Hn; by apply Hemp in Hn).
  specialize (Htopin Hne). apply elem_of_contents in Htopin as Hti. destruct Hti as [Hti _].
  destruct (Z.ltb_spec seq (heap_top h)).
  { split_and!; try done.
    - apply set_eq. intros x. rewrite elem_of_difference, elem_of_singleton.
      split; [|tauto]. intros Hx. split; [done|]. apply elem_of_contents in Hx as [Hx _].
      specialize (Hmin x Hx). lia.
    - intros _ e He. specialize (He _ Hti). split; [by right|]. intros [->|]; [lia|done]. }
  destruct (Z.eqb_spec (heap_top h) seq) as [<-|Hneq].
  { destruct (heap_pop_wf h Hwf Hne) as (? & ? & Hp & Ha & _). split_and!; try done.
    - intros x Hx. by apply Hp.
    - intros Hn e He. specialize (He _ Hti) as Hl. rewrite Ha by done.
      split; [by right|]. intros [->|]; [lia|done]. }
  destruct Hwf as [Hh He Hhead Htop Hmax Hem]. split_and!; [|..|done|].
  - split; simpl; try done.
    + by apply pq_push_sorted.
    + intros x e Hx. rewrite elem_of_pq_push. intros [->|]; [|by eauto].
      unfold heap_top in *. rewrite Hx in Htop. simpl in Htop. lia.
  - apply set_eq. intros x. rewrite elem_of_difference, elem_of_singleton, !elem_of_contents.
    simpl. rewrite elem_of_pq_push. naive_solver.
  - intros _ e _. simpl. apply elem_of_pq_push.
Qed.

Lemma heap_erase_spec seq h :
  heap_inv h → (seq ∈ heap_ h ∨ ∀ x, x ∈ heap_ h → seq < x) →
  heap_inv (heap_erase seq h) ∧ contents (heap_erase seq h) = contents h ∖ {[seq]} ∧
  (∀ x, x ∈ heap_ (heap_erase seq h) → x ∈ heap_ h).
Proof.
  intros [Hwf Hsub] Hseq. destruct (heap_erase_wf seq h Hwf) as (Hw & Hc & Hs & _).
  split_and!; [|done|done]. split; [done|].
  destruct (heap_wf_top h Hwf) as (Hemp & _ & _ & Htopin). revert Hw Hc Hs. unfold heap_erase.
  destruct (heap_empty h) eqn:E; [done|]. destruct (Z.ltb_spec seq (heap_top h)); [done|].
  assert (heap_ h ≠ []) as Hne by (intros Hn; by apply Hemp in Hn).
  destruct (Z.eqb_spec (heap_top h) seq).
  { intros _ _ _. destruct (heap_pop_wf h Hwf Hne) as (_ & _ & _ & _ & Hp). by apply Hp. }
  intros _ _ _ e. simpl. rewrite elem_of_pq_push. intros [->|]; [|auto].
  destruct Hseq as [|Hlt]; [done|]. specialize (Htopin Hne).
  apply elem_of_contents in Htopin as [Ht _]. specialize (Hlt _ Ht). lia.
Qed.

(** ** Refinement of a set with minimum *)

Inductive heap_op := HPush (v : Z) | HPop | HErase (v : Z).

Definition heap_run (h : PreparedHeap) (o : heap_op) : PreparedHeap :=
  match o with
  | HPush v => heap_push v h
  | HPop => heap_pop h
  | HErase v => heap_erase v h
  end.

(** The specification: the pending numbers, the numbers erased ahead of their
    push, and the last number pushed. While numbers are pending, pushes are
    increasing; onto an empty heap any number may be pushed. A push of a number
    erased ahead adds nothing. The erasures are forgotten when nothing is
    pending any more. *)
Definition heap_spec : Type := gset Z * gset Z * Z.

Definition settle (S ahead : gset Z) : gset Z := if decide (S = ∅) then ∅ else ahead.

Inductive spec_run : heap_spec → heap_op → heap_spec → Prop :=
  | spec_push S ahead hi v :
      S = ∅ ∨ hi < v → v < kMaxSequenceNumber →
      spec_run (S, ahead, hi) (HPush v)
        (if decide (v ∈ ahead) then S else {[v]} ∪ S, ahead, v)
  | spec_pop S ahead hi m :
      m ∈ S → (∀ x, x ∈ S → m ≤ x) →
      spec_run (S, ahead, hi) HPop (S ∖ {[m]}, settle (S ∖ {[m]}) ahead, hi)
  | spec_erase S ahead hi v :
      spec_run (S, ahead, hi) (HErase v)
        (S ∖ {[v]}, settle (S ∖ {[v]}) (if hi <? v then {[v]} ∪ ahead else ahead), hi).

Inductive spec_runs : heap_spec → list heap_op → heap_spec → Prop :=
  | spec_nil s : spec_runs s [] s
  | spec_cons s1 s2 s3 o os :
      spec_run s1 o s2 → spec_runs s2 os s3 → spec_runs s1 (o :: os) s3.

(** The simulation relation. *)
Record heap_refines (h : PreparedHeap) (s : heap_spec) : Prop := {
  hr_wf : heap_wf h;
  hr_contents : contents h = s.1.1;
  hr_hi : ∀ x, x ∈ heap_ h → x ≤ s.2;
  hr_ahead : ∀ e, heap_ h = [] ∨ s.2 < e → (e ∈ s.1.2 ↔ e ∈ erased_heap_ h);
}.

Lemma heap_push_refines h S ahead hi v :
  heap_refines h (S, ahead, hi) → S = ∅ ∨ hi < v → v < kMaxSequenceNumber →
  heap_refines (heap_push v h) (if decide (v ∈ ahead) then S else {[v]} ∪ S, ahead, v).
Proof.
  intros [Hwf Hc Hhi Ha] Hv Hmax. simpl in *. destruct (heap_wf_top h Hwf) as (_ & Hempc & _).
  assert (heap_ h = [] ∨ hi < v) as Hv' by (rewrite Hempc, Hc; done).
  destruct (heap_push_wf v h Hwf) as [Hw Hcc]; [|done|].
  { intros x Hx. destruct Hv' as [Hn|]; [rewrite Hn in Hx; set_solver|]. apply Hhi in Hx. lia. }
  split; simpl; [done| | |].
  - rewrite Hcc, Hc. specialize (Ha v Hv').
    destruct (decide (v ∈ ahead)); destruct (decide (v ∈ erased_heap_ h)); tauto.
  - intros x Hx. apply elem_of_app in Hx as [Hx|Hx]; [|apply list_elem_of_singleton in Hx; lia].
    destruct Hv' as [Hn|]; [rewrite Hn in Hx; set_solver|]. apply Hhi in Hx. lia.
  - intros e [Hn|He]; [by destruct (heap_ h)|]. apply Ha. destruct Hv'; [by left|right; lia].
Qed.

Lemma settle_ahead h' S' ahead' e :
  heap_wf h' → contents h' = S' →
  (heap_ h' ≠ [] → (e ∈ ahead' ↔ e ∈ erased_heap_ h')) →
  e ∈ settle S' ahead' ↔ e ∈ erased_heap_ h'.
Proof.
  intros Hwf Hc He. destruct (heap_wf_top h' Hwf) as (_ & Hempc & _). unfold settle.
  destruct (decide (S' = ∅)) as [Hs|Hs].
  - rewrite (hw_empty _ Hwf) by (apply Hempc; congruence). set_solver.
  - apply He. rewrite Hempc. congruence.
Qed.

Lemma heap_run_refines h s o s' :
  heap_refines h s → spec_run s o s' → heap_refines (heap_run h o) s'.
Proof.
  intros Hr Hstep. destruct Hstep as [S ahead hi v Hv Hmax|S ahead hi m Hm Hlow|S ahead hi v];
    [by eapply heap_push_refines|..]; destruct Hr as [Hwf Hc Hhi Ha]; simpl in *; subst S;
    destruct (heap_wf_top h Hwf) as (_ & Hempc & Hmin & Htopin).
  - assert (heap_ h ≠ []) as Hne by (intros Hn; apply Hempc in Hn; set_solver).
    destruct (heap_pop_wf h Hwf Hne) as (Hw & Hcc & Hp & He & _).
    assert (m = heap_top h) as ->.
    { specialize (Hlow _ (Htopin Hne)). apply elem_of_contents in Hm as [Hm _].
      specialize (Hmin m Hm). lia. }
    split; simpl; [done|done| |].
    + intros x Hx. apply Hhi. by apply Hp.
    + intros e Hlt. eapply settle_ahead; [done|done|]. intros Hn. destruct Hlt as [|Hlt]; [done|].
      rewrite He; [apply Ha; by right|done|]. intros x Hx. apply Hhi in Hx. lia.
  - destruct (heap_erase_wf v h Hwf) as (Hw & Hcc & Hp & He). split; simpl; [done|done|auto|].
    intros e Hlt. eapply settle_ahead; [done|done|]. intros Hn. destruct Hlt as [|Hlt]; [done|].
    rewrite He; [|done|intros x Hx; apply Hhi in Hx; lia]. rewrite <- (Ha e) by by right.
    destruct (Z.ltb_spec hi v); [set_solver|]. split; [by right|]. intros [->|]; [lia|done].
Qed.


End prepared_heap.

#[global] Instance seq_56 : SeqParams := {| kMaxSequenceNumber := 2 ^ 56 - 1 |}.

