(* ===== verification/CommitCache.v ===== *)
(** * Encoding of commit cache entries
      (WritePreparedTxnDB::CommitEntry, CommitEntry64bFormat, CommitEntry64b,
      write_prepared_txn_db.h)

    A slot of the commit cache is one 64-bit word: the upper bits of the
    prepare sequence number and the distance to the commit sequence number.
    The lower bits of the prepare sequence number are the slot's index. *)
From S2P Require Import Prelude.

(** The options that fix the sizes of the two caches. *)
Class WPConfig := {
  COMMIT_CACHE_BITS : Z;
  SNAPSHOT_CACHE_BITS : Z;
}.

(** The bounds the layout of the word needs. *)
Class WPConfigOk `{WPConfig} : Prop := {
  commit_bits_ok : 0 ≤ COMMIT_CACHE_BITS < 56;
  snapshot_bits_ok : 0 ≤ SNAPSHOT_CACHE_BITS < 56;
}.

Record CommitEntry := mkEntry { prep_seq : Z; commit_seq : Z }.

#[global] Instance CommitEntry_eq_dec : EqDecision CommitEntry.
Proof. solve_decision. Defined.

Record CommitEntry64bFormat := mkFormat {
  PAD_BITS : Z;
  INDEX_BITS : Z;
  PREP_BITS : Z;
  COMMIT_BITS : Z;
  COMMIT_FILTER : Z;
  DELTA_UPPERBOUND : Z;
}.

Definition make_format (index_bits : Z) : CommitEntry64bFormat :=
  let pad := 8 in
  let prep := u64 (64 - pad - index_bits) in
  let commit := u64 (64 - prep) in
  {| PAD_BITS := pad; INDEX_BITS := index_bits; PREP_BITS := prep; COMMIT_BITS := commit;
     COMMIT_FILTER := u64 (u64 (1 << commit) - 1); DELTA_UPPERBOUND := u64 (1 << commit) |}.

(** The constructor: [None] when it throws because the distance does not fit. *)
Definition CommitEntry64b_encode (ps cs : Z) (format : CommitEntry64bFormat) : option Z :=
  let delta := u64 (u64 (cs - ps) + 1) in
  if DELTA_UPPERBOUND format <=? delta then None
  else
    let rep := u64 (ps << PAD_BITS format) .& u64 (Z.lnot (COMMIT_FILTER format)) in
    Some (rep .| delta).

Definition CommitEntry64b_Parse (rep indexed_seq : Z) (format : CommitEntry64bFormat)
    : option CommitEntry :=
  let delta := rep .& COMMIT_FILTER format in
  if delta =? 0 then None
  else
    let prep_up := (rep .& u64 (Z.lnot (COMMIT_FILTER format))) >> PAD_BITS format in
    let prep := prep_up .| indexed_seq in
    Some {| prep_seq := prep; commit_seq := u64 (u64 (prep + delta) - 1) |}.

(** ** The fields of the word *)
Section commit_cache.
Context `{WPConfigOk}.

Definition COMMIT_CACHE_SIZE : Z := u64 (1 << COMMIT_CACHE_BITS).
Definition FORMAT : CommitEntry64bFormat := make_format COMMIT_CACHE_BITS.

(** The largest distance an entry can record. *)
Definition max_delta : Z := 2 ^ (8 + COMMIT_CACHE_BITS).

Lemma pow2_range n : 0 ≤ n < 64 → in_range 64 (2 ^ n).
Proof. intros Hn. split; [by apply Z.pow_nonneg|]. apply Z.pow_lt_mono_r; lia. Qed.

Lemma COMMIT_CACHE_SIZE_pow : COMMIT_CACHE_SIZE = 2 ^ COMMIT_CACHE_BITS.
Proof.
  pose proof commit_bits_ok. unfold COMMIT_CACHE_SIZE.
  rewrite Z.shiftl_1_l. apply wrap_small, pow2_range. lia.
Qed.

Lemma FORMAT_fields :
  PAD_BITS FORMAT = 8 ∧ COMMIT_FILTER FORMAT = Z.ones (8 + COMMIT_CACHE_BITS) ∧
  DELTA_UPPERBOUND FORMAT = max_delta.
Proof.
  pose proof commit_bits_ok. unfold FORMAT, make_format, max_delta. cbn [PAD_BITS COMMIT_FILTER DELTA_UPPERBOUND].
  rewrite (wrap_small 64 (64 - 8 - COMMIT_CACHE_BITS)) by (unfold in_range; lia).
  replace (64 - (64 - 8 - COMMIT_CACHE_BITS)) with (8 + COMMIT_CACHE_BITS) by lia.
  rewrite (wrap_small 64 (8 + COMMIT_CACHE_BITS)) by (unfold in_range; lia).
  rewrite Z.shiftl_1_l.
  assert (in_range 64 (2 ^ (8 + COMMIT_CACHE_BITS))) as Hr by (apply pow2_range; lia).
  assert (0 < 2 ^ (8 + COMMIT_CACHE_BITS)) by (apply Z.pow_pos_nonneg; lia).
  rewrite (wrap_small 64 (2 ^ _)) by done. split_and!; try done.
  rewrite Z.ones_equiv, <- Z.sub_1_r. apply wrap_small. unfold in_range in *. lia.
Qed.

(** Clearing the low bits. *)
Lemma clear_low w n z :
  0 ≤ n ≤ w → in_range w z → z .& wrap w (Z.lnot (Z.ones n)) = (z >> n) << n.
Proof.
  intros Hn Hz. apply Z.bits_inj'. intros i Hi.
  rewrite Z.land_spec, wrap_testbit, Z.lnot_spec, Z.testbit_ones_nonneg by lia.
  destruct (decide (i < n)).
  - rewrite Z.shiftl_spec_low by done. destruct (Z.ltb_spec i n); [|lia].
    by rewrite !andb_false_r.
  - rewrite Z.shiftl_spec, Z.shiftr_spec by lia. replace (i - n + n) with i by lia.
    destruct (Z.ltb_spec i n); [lia|]. rewrite andb_true_r. case_bool_decide.
    + by rewrite andb_true_r.
    + by rewrite (in_range_testbit w z) by (done || lia).
Qed.

Lemma seq_word ps :
  in_range 56 ps →
  u64 (ps << 8) .& u64 (Z.lnot (Z.ones (8 + COMMIT_CACHE_BITS)))
  = (ps >> COMMIT_CACHE_BITS) << (8 + COMMIT_CACHE_BITS).
Proof.
  pose proof commit_bits_ok. intros [Hp0 Hp1].
  assert (in_range 64 (ps << 8)) as Hr.
  { rewrite Z.shiftl_mul_pow2 by lia. unfold in_range. lia. }
  rewrite (wrap_small 64 (ps << 8)) by done. rewrite clear_low by (done || lia). f_equal.
  rewrite Z.shiftr_shiftl_r by lia. f_equal. lia.
Qed.

Lemma rep_fields hi d :
  0 ≤ hi → 0 ≤ d < max_delta → hi * max_delta + d < 2 ^ 64 →
  let rep := (hi << (8 + COMMIT_CACHE_BITS)) .| d in
  rep .& Z.ones (8 + COMMIT_CACHE_BITS) = d ∧
  (rep .& u64 (Z.lnot (Z.ones (8 + COMMIT_CACHE_BITS)))) >> 8 = hi << COMMIT_CACHE_BITS.
Proof.
  pose proof commit_bits_ok. intros Hhi Hd Hmax rep. unfold max_delta in *.
  assert (rep = d + hi * 2 ^ (8 + COMMIT_CACHE_BITS)) as Hrep.
  { subst rep. rewrite Z.lor_comm. apply lor_disjoint_add; [lia|done]. }
  assert (in_range 64 rep) as Hr by (rewrite Hrep; unfold in_range; lia).
  split.
  - rewrite Z.land_ones by lia. rewrite Hrep, Z.mod_add by (apply Z.pow_nonzero; lia).
    by apply Z.mod_small.
  - rewrite clear_low by (done || lia).
    assert (rep >> (8 + COMMIT_CACHE_BITS) = hi) as ->.
    { rewrite Z.shiftr_div_pow2, Hrep, Z.div_add by (apply Z.pow_nonzero || lia; lia).
      rewrite Z.div_small by done. lia. }
    rewrite Z.shiftr_shiftl_l by lia. f_equal. lia.
Qed.

Lemma encode_parse ps cs rep :
  in_range 56 ps → ps ≤ cs < 2 ^ 63 →
  CommitEntry64b_encode ps cs FORMAT = Some rep →
  CommitEntry64b_Parse rep (ps mod COMMIT_CACHE_SIZE) FORMAT = Some (mkEntry ps cs).
Proof.
  pose proof commit_bits_ok. intros Hps Hcs. unfold CommitEntry64b_encode, CommitEntry64b_Parse.
  destruct FORMAT_fields as (-> & -> & ->). unfold in_range in Hps.
  rewrite (wrap_small 64 (cs - ps)) by (unfold in_range; lia).
  rewrite (wrap_small 64 (cs - ps + 1)) by (unfold in_range; lia).
  destruct (Z.leb_spec max_delta (cs - ps + 1)); [done|]. intros [= <-].
  rewrite (seq_word ps) by done. set (hi := ps >> COMMIT_CACHE_BITS).
  assert (ps = ps mod COMMIT_CACHE_SIZE + hi * 2 ^ COMMIT_CACHE_BITS) as Hsplit.
  { rewrite COMMIT_CACHE_SIZE_pow. apply split_low; lia. }
  assert (0 ≤ ps mod COMMIT_CACHE_SIZE < 2 ^ COMMIT_CACHE_BITS) as Hlow.
  { rewrite COMMIT_CACHE_SIZE_pow. apply Z.mod_pos_bound, Z.pow_pos_nonneg; lia. }
  assert (0 ≤ hi) by (apply Z.shiftr_nonneg; lia).
  assert (hi * max_delta + (cs - ps + 1) < 2 ^ 64) as Hbig.
  { unfold max_delta in *. rewrite Z.pow_add_r in * by lia. change (2 ^ 8) with 256 in *.
    assert (hi < 2 ^ (56 - COMMIT_CACHE_BITS)) as Hhi.
    { apply (shiftr_range 56); [lia|done]. }
    assert (2 ^ 56 = 2 ^ (56 - COMMIT_CACHE_BITS) * 2 ^ COMMIT_CACHE_BITS) as Hp.
    { rewrite <- Z.pow_add_r by lia. f_equal. lia. }
    assert (0 < 2 ^ COMMIT_CACHE_BITS) by (apply Z.pow_pos_nonneg; lia).
    set (B := 2 ^ COMMIT_CACHE_BITS) in *. set (P := 2 ^ (56 - COMMIT_CACHE_BITS)) in *.
    change (2 ^ 64) with (2 ^ 56 * 256). rewrite Hp. nia. }
  destruct (rep_fields hi (cs - ps + 1)) as [Hd Hup]; [lia|lia|lia|].
  cbv zeta in Hd, Hup. rewrite Hd, Hup. destruct (Z.eqb_spec (cs - ps + 1) 0); [lia|].
  assert ((hi << COMMIT_CACHE_BITS) .| (ps mod COMMIT_CACHE_SIZE) = ps) as Hp.
  { rewrite Z.lor_comm, lor_disjoint_add by (done || lia). by rewrite <- Hsplit. }
  rewrite Hp. rewrite (wrap_small 64 (ps + _)) by (unfold in_range; lia).
  rewrite wrap_small by (unfold in_range; lia).
  f_equal. f_equal. lia.
Qed.

Lemma CommitEntry64b_outcome ps cs :
  in_range 56 ps → ps ≤ cs < 2 ^ 63 →
  match CommitEntry64b_encode ps cs FORMAT with
  | None => max_delta ≤ cs - ps + 1
  | Some rep =>
      cs - ps + 1 < max_delta ∧
      CommitEntry64b_Parse rep (ps mod COMMIT_CACHE_SIZE) FORMAT = Some (mkEntry ps cs)
  end.
Proof.
  intros Hps Hcs. destruct (CommitEntry64b_encode ps cs FORMAT) as [rep|] eqn:E.
  - split; [|by eapply encode_parse]. revert E. unfold CommitEntry64b_encode.
    destruct FORMAT_fields as (_ & _ & ->). unfold in_range in Hps.
    rewrite (wrap_small 64 (cs - ps)), (wrap_small 64 (cs - ps + 1)) by (unfold in_range; lia).
    by destruct (Z.leb_spec max_delta (cs - ps + 1)).
  - revert E. unfold CommitEntry64b_encode.
    destruct FORMAT_fields as (_ & _ & ->). unfold in_range in Hps.
    rewrite (wrap_small 64 (cs - ps)), (wrap_small 64 (cs - ps + 1)) by (unfold in_range; lia).
    by destruct (Z.leb_spec max_delta (cs - ps + 1)).
Qed.

(** C21. Round trip of the packed commit cache entry, and the exact condition
    under which the constructor throws: for a 56-bit prepare sequence number
    the distance [cs - ps + 1] must be below [2 ^ (8 + COMMIT_CACHE_BITS)]; then
    parsing the word in the slot of [ps] gives both sequence numbers back. *)
Theorem CommitEntry64b_roundtrip ps cs :
  in_range 56 ps → ps ≤ cs < 2 ^ 63 →
  match CommitEntry64b_encode ps cs FORMAT with
  | None => max_delta ≤ cs - ps + 1
  | Some rep =>
      cs - ps + 1 < max_delta ∧
      CommitEntry64b_Parse rep (ps mod COMMIT_CACHE_SIZE) FORMAT = Some (mkEntry ps cs)
  end.
Proof. apply CommitEntry64b_outcome. Qed.

Lemma encode_total ps cs :
  in_range 56 ps → ps ≤ cs < 2 ^ 63 → cs - ps + 1 < max_delta →
  is_Some (CommitEntry64b_encode ps cs FORMAT).
Proof.
  intros Hps Hcs Hd. unfold CommitEntry64b_encode.
  destruct FORMAT_fields as (_ & _ & ->). unfold in_range in Hps.
  rewrite (wrap_small 64 (cs - ps)), (wrap_small 64 (cs - ps + 1)) by (unfold in_range; lia).
  destruct (Z.leb_spec max_delta (cs - ps + 1)); [lia|]. by eexists.
Qed.

Lemma parse_empty idx : CommitEntry64b_Parse 0 idx FORMAT = None.
Proof. unfold CommitEntry64b_Parse. by rewrite Z.land_0_l. Qed.

Lemma index_range ps : 0 ≤ ps mod COMMIT_CACHE_SIZE < 2 ^ COMMIT_CACHE_BITS.
Proof.
  pose proof commit_bits_ok.
  rewrite COMMIT_CACHE_SIZE_pow. apply Z.mod_pos_bound, Z.pow_pos_nonneg; lia.
Qed.
End commit_cache.

(** The default of the options: 2^23 commit cache slots, 2^7 snapshots. *)
#[global] Instance default_config : WPConfig :=
  {| COMMIT_CACHE_BITS := 23; SNAPSHOT_CACHE_BITS := 7 |}.
#[global] Instance default_config_ok : WPConfigOk.
Proof. split; vm_compute; split; congruence. Qed.

Example CommitEntry64b_roundtrip_witness :
  CommitEntry64b_encode 123456789 123456799 FORMAT = Some (u64 (123456789 >> 23 << 31) .| 11) ∧
  CommitEntry64b_Parse (u64 (123456789 >> 23 << 31) .| 11) (123456789 mod COMMIT_CACHE_SIZE) FORMAT
  = Some (mkEntry 123456789 123456799).
Proof.
  split; [reflexivity|].
  pose proof (CommitEntry64b_roundtrip 123456789 123456799) as Hr.
  apply Hr; vm_compute; split; congruence.
Defined.
