(* ===== verification/WritePrepared.v ===== *)
(** * WritePrepared transactions: the commit state
      (WritePreparedTxnDB, write_prepared_txn_db.h and .cc)

    State and operations of the commit cache, the prepared lists, the snapshot
    lists and the map of old commits. Data written before its transaction
    commits is told apart from committed data by [IsInSnapshot]. The DB object
    the class calls (db_impl_) is not part of the tree: what it returns
    (last published sequence, latest sequence, the live snapshots) is an
    argument of the operations. Correctness is in WritePreparedCorrect. *)
From S2P Require Import Prelude PreparedHeap CommitCache.

(** ** State *)
#[projections(primitive)] Record WritePreparedTxnDB := mkWP {
  commit_cache_ : gmap Z Z;                      (* array of words, 0 where absent *)
  prepared_txns_ : PreparedHeap;
  delayed_prepared_ : gset Z;
  delayed_prepared_commits_ : gmap Z Z;
  delayed_prepared_empty_ : bool;
  old_commit_map_ : gmap Z (list Z);
  old_commit_map_empty_ : bool;
  snapshot_cache_ : list Z;
  snapshots_ : list Z;
  snapshots_total_ : Z;
  snapshots_all_ : list Z;
  snapshots_version_ : Z;
  max_evicted_seq_ : Z;
  future_max_evicted_seq_ : Z;
  INC_STEP_FOR_MAX_EVICTED : Z;
}.

Definition set_commit_cache v s := let 'mkWP _ b c d e f g h i j k l m n o := s in mkWP v b c d e f g h i j k l m n o.
Definition set_prepared_txns v s := let 'mkWP a _ c d e f g h i j k l m n o := s in mkWP a v c d e f g h i j k l m n o.
Definition set_delayed_prepared v s := let 'mkWP a b _ d e f g h i j k l m n o := s in mkWP a b v d e f g h i j k l m n o.
Definition set_delayed_commits v s := let 'mkWP a b c _ e f g h i j k l m n o := s in mkWP a b c v e f g h i j k l m n o.
Definition set_delayed_empty v s := let 'mkWP a b c d _ f g h i j k l m n o := s in mkWP a b c d v f g h i j k l m n o.
Definition set_old_commit_map v s := let 'mkWP a b c d e _ g h i j k l m n o := s in mkWP a b c d e v g h i j k l m n o.
Definition set_old_commit_empty v s := let 'mkWP a b c d e f _ h i j k l m n o := s in mkWP a b c d e f v h i j k l m n o.
Definition set_snapshot_cache v s := let 'mkWP a b c d e f g _ i j k l m n o := s in mkWP a b c d e f g v i j k l m n o.
Definition set_snapshots v s := let 'mkWP a b c d e f g h _ j k l m n o := s in mkWP a b c d e f g h v j k l m n o.
Definition set_snapshots_total v s := let 'mkWP a b c d e f g h i _ k l m n o := s in mkWP a b c d e f g h i v k l m n o.
Definition set_snapshots_all v s := let 'mkWP a b c d e f g h i j _ l m n o := s in mkWP a b c d e f g h i j v l m n o.
Definition set_snapshots_version v s := let 'mkWP a b c d e f g h i j k _ m n o := s in mkWP a b c d e f g h i j k v m n o.
Definition set_max_evicted v s := let 'mkWP a b c d e f g h i j k l _ n o := s in mkWP a b c d e f g h i j k l v n o.
Definition set_future_max v s := let 'mkWP a b c d e f g h i j k l m _ o := s in mkWP a b c d e f g h i j k l m v o.

(** [kMinUnCommittedSeq]: sequence number 0 is always committed. *)
Definition kMinUnCommittedSeq : Z := 1.

(** [std::binary_search] and [insert] at [std::upper_bound] of a sorted vector. *)
Fixpoint binary_search (vec : list Z) (x : Z) : bool :=
  match vec with
  | [] => false
  | y :: vec' => if y <? x then binary_search vec' x else negb (x <? y)
  end.
Fixpoint upper_bound_insert (x : Z) (vec : list Z) : list Z :=
  match vec with
  | [] => [x]
  | y :: vec' => if x <? y then x :: vec else y :: upper_bound_insert x vec'
  end.

(** [*set.begin()] of an ordered set. *)
Definition set_begin (s : gset Z) : Z :=
  match elements s with [] => 0 | x :: l => foldr Z.min x l end.

Section write_prepared.
Context `{WPConfig} `{SeqParams}.

Definition SNAPSHOT_CACHE_SIZE : Z := u64 (1 << SNAPSHOT_CACHE_BITS).

(** ** Construction *)
Definition Init : WritePreparedTxnDB := {|
  commit_cache_ := ∅; prepared_txns_ := empty_heap;
  delayed_prepared_ := ∅; delayed_prepared_commits_ := ∅; delayed_prepared_empty_ := true;
  old_commit_map_ := ∅; old_commit_map_empty_ := true;
  snapshot_cache_ := replicate (Z.to_nat SNAPSHOT_CACHE_SIZE) 0;
  snapshots_ := []; snapshots_total_ := 0; snapshots_all_ := []; snapshots_version_ := 0;
  max_evicted_seq_ := 0; future_max_evicted_seq_ := 0;
  INC_STEP_FOR_MAX_EVICTED := Z.max (COMMIT_CACHE_SIZE / 100) 1;
|}.

(** ** The commit cache *)
Definition GetCommitEntry (indexed_seq : Z) (s : WritePreparedTxnDB) : Z * option CommitEntry :=
  let rep := default 0 (commit_cache_ s !! indexed_seq) in
  (rep, CommitEntry64b_Parse rep indexed_seq FORMAT).

(** [None] when encoding the new entry throws. *)
Definition AddCommitEntry (indexed_seq : Z) (e : CommitEntry) (s : WritePreparedTxnDB)
    : option (WritePreparedTxnDB * option CommitEntry) :=
  match CommitEntry64b_encode (prep_seq e) (commit_seq e) FORMAT with
  | None => None
  | Some rep =>
      Some (set_commit_cache (<[indexed_seq := rep]> (commit_cache_ s)) s,
            CommitEntry64b_Parse (default 0 (commit_cache_ s !! indexed_seq)) indexed_seq FORMAT)
  end.

Definition ExchangeCommitEntry (indexed_seq expected : Z) (e : CommitEntry)
    (s : WritePreparedTxnDB) : option (WritePreparedTxnDB * bool) :=
  match CommitEntry64b_encode (prep_seq e) (commit_seq e) FORMAT with
  | None => None
  | Some rep =>
      if default 0 (commit_cache_ s !! indexed_seq) =? expected
      then Some (set_commit_cache (<[indexed_seq := rep]> (commit_cache_ s)) s, true)
      else Some (s, false)
  end.

(** ** Prepared transactions *)

(** The loop of [CheckPreparedAgainstMax]; each round pops one number. *)
Fixpoint check_prepared_loop (fuel : nat) (new_max : Z) (s : WritePreparedTxnDB) : WritePreparedTxnDB :=
  match fuel with
  | O => s
  | S fuel' =>
      if negb (heap_empty (prepared_txns_ s)) && (heap_top (prepared_txns_ s) <=? new_max) then
        let to_be_popped := heap_top (prepared_txns_ s) in
        let s := set_delayed_prepared ({[to_be_popped]} ∪ delayed_prepared_ s) s in
        let s := set_delayed_empty false s in
        let s := set_prepared_txns (heap_pop (prepared_txns_ s)) s in
        check_prepared_loop fuel' new_max s
      else s
  end.

Definition CheckPreparedAgainstMax (new_max : Z) (s : WritePreparedTxnDB) : WritePreparedTxnDB :=
  let prepared_top := heap_top (prepared_txns_ s) in
  let empty := prepared_top =? kMaxSequenceNumber in
  if negb empty && (prepared_top <=? new_max)
  then check_prepared_loop (S (length (heap_ (prepared_txns_ s)))) new_max s
  else s.

Definition AddPrepared (seq : Z) (s : WritePreparedTxnDB) : WritePreparedTxnDB :=
  let s := set_prepared_txns (heap_push seq (prepared_txns_ s)) s in
  let new_max := future_max_evicted_seq_ s in
  if seq <=? new_max then CheckPreparedAgainstMax new_max s else s.

Definition remove_one (seq : Z) (s : WritePreparedTxnDB) : WritePreparedTxnDB :=
  let s := set_prepared_txns (heap_erase seq (prepared_txns_ s)) s in
  let was_empty := bool_decide (delayed_prepared_ s = ∅) in
  if negb was_empty then
    let s := set_delayed_prepared (delayed_prepared_ s ∖ {[seq]}) s in
    let s := set_delayed_commits (delete seq (delayed_prepared_commits_ s)) s in
    let is_empty := bool_decide (delayed_prepared_ s = ∅) in
    if Bool.eqb was_empty is_empty then s else set_delayed_empty is_empty s
  else s.

(** The sequence numbers of the sub-batches of one write. *)
Definition batch_seqs (seq : Z) (batch_cnt : nat) : list Z :=
  map (λ i, u64 (seq + Z.of_nat i)) (List.seq 0 batch_cnt).

Definition RemovePrepared (prepare_seq : Z) (batch_cnt : nat) (s : WritePreparedTxnDB)
    : WritePreparedTxnDB :=
  fold_left (λ s p, remove_one p s) (batch_seqs prepare_seq batch_cnt) s.

Definition SmallestUnCommittedSeq (latest : Z) (s : WritePreparedTxnDB) : Z :=
  let next_prepare := u64 (latest + 1) in
  let min_prepare := heap_top (prepared_txns_ s) in
  if negb (delayed_prepared_empty_ s) && negb (bool_decide (delayed_prepared_ s = ∅))
  then set_begin (delayed_prepared_ s)
  else
    let empty := min_prepare =? kMaxSequenceNumber in
    if empty then next_prepare else Z.min min_prepare next_prepare.

(** ** Old commits *)

(** Second component: whether the search should go on to the next snapshot. *)
Definition MaybeUpdateOldCommitMap (prep commit snapshot_seq : Z) (next_is_larger : bool)
    (s : WritePreparedTxnDB) : WritePreparedTxnDB * bool :=
  if commit <=? snapshot_seq then (s, negb next_is_larger)
  else if prep <=? snapshot_seq then
    let s := set_old_commit_empty false s in
    let vec := default [] (old_commit_map_ s !! snapshot_seq) in
    (set_old_commit_map (<[snapshot_seq := upper_bound_insert prep vec]> (old_commit_map_ s)) s, true)
  else (s, next_is_larger).

(** The bottom-up scan of the snapshot cache from position [ip1]; second
    component: [search_larger_list]. *)
Fixpoint scan_cache_down (ip1 : nat) (e : CommitEntry) (search_larger_list : bool)
    (s : WritePreparedTxnDB) : WritePreparedTxnDB * bool :=
  match ip1 with
  | O => (s, search_larger_list)
  | S i =>
      let snapshot_seq := default 0 (snapshot_cache_ s !! i) in
      let search := if Z.of_nat ip1 =? SNAPSHOT_CACHE_SIZE
                    then snapshot_seq <? commit_seq e else search_larger_list in
      let '(s', continue) := MaybeUpdateOldCommitMap (prep_seq e) (commit_seq e) snapshot_seq false s in
      if continue then scan_cache_down i e search s' else (s', search)
  end.

(** The loops over ascending lists, ended by the first negative answer. *)
Fixpoint scan_up (snaps : list Z) (e : CommitEntry) (s : WritePreparedTxnDB) : WritePreparedTxnDB :=
  match snaps with
  | [] => s
  | snap :: snaps' =>
      let '(s', continue) := MaybeUpdateOldCommitMap (prep_seq e) (commit_seq e) snap true s in
      if continue then scan_up snaps' e s' else s'
  end.

Definition CheckAgainstSnapshots (evicted : CommitEntry) (s : WritePreparedTxnDB) : WritePreparedTxnDB :=
  let cnt := snapshots_total_ s in
  let ip1 := Z.to_nat (Z.min cnt SNAPSHOT_CACHE_SIZE) in
  let '(s, search_larger_list) := scan_cache_down ip1 evicted false s in
  if (SNAPSHOT_CACHE_SIZE <? cnt) && search_larger_list then
    let s := scan_up (take (Z.to_nat SNAPSHOT_CACHE_SIZE) (snapshot_cache_ s)) evicted s in
    scan_up (snapshots_ s) evicted s
  else s.

(** ** Snapshot lists *)
Definition ReleaseSnapshotInternal (snap_seq : Z) (s : WritePreparedTxnDB) : WritePreparedTxnDB :=
  if snap_seq <=? max_evicted_seq_ s then
    let need_gc := bool_decide (is_Some (old_commit_map_ s !! snap_seq)) in
    if need_gc then
      let s := set_old_commit_map (delete snap_seq (old_commit_map_ s)) s in
      set_old_commit_empty (bool_decide (old_commit_map_ s = ∅)) s
    else s
  else s.

Fixpoint skip_value (v : Z) (l : list Z) : list Z :=
  match l with x :: l' => if x =? v then skip_value v l' else l | [] => [] end.

(** The merge of the two sorted lists; each round drops an old snapshot. *)
Fixpoint cleanup_loop (fuel : nat) (newi oldi : list Z) (s : WritePreparedTxnDB)
    : list Z * WritePreparedTxnDB :=
  match fuel, newi, oldi with
  | S fuel', n :: newi', o :: oldi' =>
      if n =? o then cleanup_loop fuel' (skip_value n newi) (skip_value n oldi) s
      else cleanup_loop fuel' newi oldi' (ReleaseSnapshotInternal o s)
  | _, _, _ => (oldi, s)
  end.

Definition CleanupReleasedSnapshots (new_snapshots old_snapshots : list Z)
    (s : WritePreparedTxnDB) : WritePreparedTxnDB :=
  let '(oldi, s) := cleanup_loop (length old_snapshots) new_snapshots old_snapshots s in
  fold_left (λ s o, ReleaseSnapshotInternal o s) oldi s.

(** The stores into the snapshot cache; the second component is the rest. *)
Fixpoint fill_cache (i : nat) (snapshots cache : list Z) : list Z * list Z :=
  match snapshots with
  | [] => (cache, [])
  | x :: snapshots' =>
      if Z.of_nat i <? SNAPSHOT_CACHE_SIZE
      then fill_cache (S i) snapshots' (<[i := x]> cache)
      else (cache, snapshots)
  end.

Definition UpdateSnapshots (snapshots : list Z) (version : Z) (s : WritePreparedTxnDB)
    : WritePreparedTxnDB :=
  let s := set_snapshots_version version s in
  let '(cache, rest) := fill_cache 0 snapshots (snapshot_cache_ s) in
  let s := set_snapshot_cache cache s in
  let s := set_snapshots rest s in
  let s := set_snapshots_total (Z.of_nat (length snapshots)) s in
  let s := CleanupReleasedSnapshots snapshots (snapshots_all_ s) s in
  set_snapshots_all snapshots s.

(** The compare-exchange loop that raises an atomic [cur] to [new]; a failed
    exchange loads the current value. *)
Fixpoint cas_raise (fuel : nat) (updated new cur : Z) : Z :=
  match fuel with
  | O => cur
  | S fuel' =>
      if updated <? new then
        if cur =? updated then new else cas_raise fuel' cur new cur
      else cur
  end.

Definition raise_future_max (prev_max new_max : Z) (s : WritePreparedTxnDB) : WritePreparedTxnDB :=
  set_future_max (cas_raise 2 prev_max new_max (future_max_evicted_seq_ s)) s.
Definition raise_max_evicted (prev_max new_max : Z) (s : WritePreparedTxnDB) : WritePreparedTxnDB :=
  set_max_evicted (cas_raise 2 prev_max new_max (max_evicted_seq_ s)) s.

(** [old_commit_map_[snap];] for every live snapshot: an entry, empty if new. *)
Definition add_snapshot_keys (snapshots : list Z) (s : WritePreparedTxnDB) : WritePreparedTxnDB :=
  match snapshots with
  | [] => s
  | _ =>
      let m := fold_left (λ m snap, <[snap := default [] (m !! snap)]> m)
                 snapshots (old_commit_map_ s) in
      set_old_commit_empty false (set_old_commit_map m s)
  end.

(** [GetSnapshotListFromDB] asks the DB; [snapshots_of max] is its answer. *)
Definition refresh_snapshots (new_max : Z) (snapshots_of : Z → list Z) (s : WritePreparedTxnDB)
    : WritePreparedTxnDB :=
  if snapshots_version_ s <? new_max then
    let snapshots := snapshots_of new_max in
    add_snapshot_keys snapshots (UpdateSnapshots snapshots new_max s)
  else s.

Definition AdvanceMaxEvictedSeq (prev_max new_max : Z) (snapshots_of : Z → list Z)
    (s : WritePreparedTxnDB) : WritePreparedTxnDB :=
  let s := raise_future_max prev_max new_max s in
  let s := CheckPreparedAgainstMax new_max s in
  let s := refresh_snapshots new_max snapshots_of s in
  raise_max_evicted prev_max new_max s.

(** ** Commit *)

(** What adding an entry does with the one it replaces. [last] is the DB's last
    published sequence number. *)
Definition evict_entry (evicted : CommitEntry) (last : Z) (snapshots_of : Z → list Z)
    (s : WritePreparedTxnDB) : WritePreparedTxnDB :=
  let prev_max := max_evicted_seq_ s in
  let s :=
    if prev_max <? commit_seq evicted then
      let max_evicted_seq :=
        if commit_seq evicted <? last
        then Z.min (u64 (commit_seq evicted + INC_STEP_FOR_MAX_EVICTED s)) (u64 (last - 1))
        else commit_seq evicted in
      AdvanceMaxEvictedSeq prev_max max_evicted_seq snapshots_of s
    else s in
  let s := CheckAgainstSnapshots evicted s in
  if negb (delayed_prepared_empty_ s) && bool_decide (prep_seq evicted ∈ delayed_prepared_ s)
  then set_delayed_commits
         (<[prep_seq evicted := commit_seq evicted]> (delayed_prepared_commits_ s)) s
  else s.

(** Second component: whether the call returned ([false]: it threw). [fuel]
    counts the attempts left: the code gives up when [loop_cnt > 100]. *)
Fixpoint add_committed_loop (fuel : nat) (prepare_seq cseq last : Z) (snapshots_of : Z → list Z)
    (s : WritePreparedTxnDB) : WritePreparedTxnDB * bool :=
  let indexed_seq := prepare_seq mod COMMIT_CACHE_SIZE in
  let '(evicted_64b, entry) := GetCommitEntry indexed_seq s in
  let s := match entry with
           | Some evicted => evict_entry evicted last snapshots_of s
           | None => s
           end in
  match ExchangeCommitEntry indexed_seq evicted_64b (mkEntry prepare_seq cseq) s with
  | None => (s, false)
  | Some (s, true) => (s, true)
  | Some (s, false) =>
      match fuel with
      | O => (s, false)
      | S fuel' => add_committed_loop fuel' prepare_seq cseq last snapshots_of s
      end
  end.

Definition AddCommitted (prepare_seq cseq last : Z) (snapshots_of : Z → list Z)
    (s : WritePreparedTxnDB) : WritePreparedTxnDB * bool :=
  add_committed_loop 101 prepare_seq cseq last snapshots_of s.

(** ** Visibility

    The reads of [IsInSnapshot] are not atomic: [obs t] is the state its [t]-th
    access to shared memory sees. The result is the answer and
    [*snap_released]; [None] when the call throws. *)

(** After the loop: the entry is not in the cache nor in the delayed set. *)
Definition check_old_commit (obs : nat → WritePreparedTxnDB) (t : nat)
    (max_evicted_seq_ub prep snapshot_seq : Z) : bool * bool :=
  if max_evicted_seq_ub <? snapshot_seq then (true, false)
  else if old_commit_map_empty_ (obs t) then (true, true)
  else
    match old_commit_map_ (obs (t + 1)%nat) !! snapshot_seq with
    | None => (true, true)
    | Some vec => (negb (binary_search vec prep), false)
    end.

Definition cached_commit (prep : Z) (s : WritePreparedTxnDB) : option Z :=
  match GetCommitEntry (prep mod COMMIT_CACHE_SIZE) s with
  | (_, Some cached) => if prep =? prep_seq cached then Some (commit_seq cached) else None
  | (_, None) => None
  end.

(** The retry loop; [fuel] is the number of rounds left before it throws. *)
Fixpoint is_in_snapshot_loop (fuel : nat) (obs : nat → WritePreparedTxnDB) (t : nat)
    (prep snapshot_seq : Z) : option (bool * bool) :=
  match fuel with
  | O => None
  | S fuel' =>
      let lb := max_evicted_seq_ (obs t) in
      let was_empty := delayed_prepared_empty_ (obs (t + 1)%nat) in
      match cached_commit prep (obs (t + 2)%nat) with
      | Some c => Some (c <=? snapshot_seq, false)
      | None =>
          let ub := max_evicted_seq_ (obs (t + 3)%nat) in
          if negb (lb =? ub) then is_in_snapshot_loop fuel' obs (t + 4) prep snapshot_seq
          else if ub <? prep then Some (false, false)
          else if was_empty then Some (check_old_commit obs (t + 4) ub prep snapshot_seq)
          else
            let s := obs (t + 4)%nat in
            if bool_decide (prep ∈ delayed_prepared_ s) then
              match delayed_prepared_commits_ s !! prep with
              | None => Some (false, false)
              | Some c => Some (c <=? snapshot_seq, false)
              end
            else
              match cached_commit prep (obs (t + 5)%nat) with
              | Some c => Some (c <=? snapshot_seq, false)
              | None =>
                  let ub := max_evicted_seq_ (obs (t + 6)%nat) in
                  if negb (lb =? ub) then is_in_snapshot_loop fuel' obs (t + 7) prep snapshot_seq
                  else Some (check_old_commit obs (t + 7) ub prep snapshot_seq)
              end
      end
  end.

Definition IsInSnapshot (obs : nat → WritePreparedTxnDB) (prep snapshot_seq min_uncommitted : Z)
    : option (bool * bool) :=
  if prep =? 0 then Some (true, false)
  else if snapshot_seq <? prep then Some (false, false)
  else if prep <? min_uncommitted then Some (true, false)
  else is_in_snapshot_loop 99 obs 0 prep snapshot_seq.

(** [WritePreparedSnapshotChecker::CheckInSnapshot]. *)
Inductive SnapshotCheckerResult := kInSnapshot | kNotInSnapshot | kSnapshotReleased.

Definition CheckInSnapshot (obs : nat → WritePreparedTxnDB) (sequence snapshot_sequence : Z)
    : option SnapshotCheckerResult :=
  match IsInSnapshot obs sequence snapshot_sequence kMinUnCommittedSeq with
  | None => None
  | Some (in_snapshot, snapshot_released) =>
      Some (if snapshot_released then kSnapshotReleased
            else if in_snapshot then kInSnapshot else kNotInSnapshot)
  end.

(** ** Taking snapshots

    [AdvanceSeqByOne] commits an empty transaction through the DB. [retry k] is
    what the [k]-th round reads: future_max_evicted_seq_ in the loop condition
    and the number of the snapshot taken in the body. *)
Fixpoint snapshot_retry (fuel : nat) (k : nat) (retry : nat → Z * Z) (snap : Z) : Z * Z :=
  match fuel with
  | O => (snap, fst (retry k))
  | S fuel' =>
      let max := fst (retry k) in
      if negb (max =? 0) && (snap <=? max)
      then snapshot_retry fuel' (S k) retry (snd (retry k))
      else (snap, max)
  end.

(** The snapshot's number and its [min_uncommitted_]; [None] when it throws. *)
Definition GetSnapshotInternal (latest snap_seq future_max : Z) (retry : nat → Z * Z)
    (s : WritePreparedTxnDB) : option (Z * Z) :=
  let min_uncommitted := SmallestUnCommittedSeq latest s in
  if negb (snap_seq =? 0) && (snap_seq <=? future_max) then
    let '(snap, max) := snapshot_retry 100 0 retry snap_seq in
    if snap <=? max then None else Some (snap, min_uncommitted)
  else Some (snap_seq, min_uncommitted).

Inductive SnapshotBackup := kUnbackedByDBSnapshot | kBackedByDBSnapshot.

(** [snapshot]: the min_uncommitted_ and number_ of the given snapshot, if any. *)
Definition AssignMinMaxSeqs (snapshot : option (Z * Z)) (latest : Z) (s : WritePreparedTxnDB)
    : SnapshotBackup * Z * Z :=
  match snapshot with
  | Some (min_uncommitted, number) => (kBackedByDBSnapshot, min_uncommitted, number)
  | None => (kUnbackedByDBSnapshot, SmallestUnCommittedSeq latest s, 0)
  end.

Definition ValidateSnapshot (snap_seq : Z) (backed_by_snapshot : SnapshotBackup)
    (s : WritePreparedTxnDB) : bool :=
  match backed_by_snapshot with
  | kBackedByDBSnapshot => true
  | kUnbackedByDBSnapshot =>
      if (snap_seq <=? max_evicted_seq_ s) && negb (snap_seq =? 0) then false else true
  end.

(** ** The read callback (WritePreparedTxnReadCallback)

    [snap_released_] collects whether any visibility check met a released
    snapshot; [valid] reads it after the fact. *)
Record ReadCallback := mkReadCallback {
  max_visible_seq_ : Z;
  min_uncommitted_ : Z;
  backed_by_snapshot_ : SnapshotBackup;
  snap_released_ : bool;
  valid_checked_ : bool;
}.

Definition IsVisibleFullCheck (obs : nat → WritePreparedTxnDB) (seq : Z) (cb : ReadCallback)
    : option (bool * ReadCallback) :=
  match IsInSnapshot obs seq (max_visible_seq_ cb) (min_uncommitted_ cb) with
  | None => None
  | Some (ret, snap_released) =>
      Some (ret, mkReadCallback (max_visible_seq_ cb) (min_uncommitted_ cb) (backed_by_snapshot_ cb)
                   (snap_released_ cb || snap_released) (valid_checked_ cb))
  end.

Definition callback_valid (cb : ReadCallback) : bool * ReadCallback :=
  (Bool.eqb (snap_released_ cb) false,
   mkReadCallback (max_visible_seq_ cb) (min_uncommitted_ cb) (backed_by_snapshot_ cb)
     (snap_released_ cb) true).

(** ** Callbacks of the write queues *)

(** [AddPreparedCallback::Callback]. *)
Definition AddPreparedCallback (prepare_seq : Z) (sub_batch_cnt : nat) (s : WritePreparedTxnDB)
    : WritePreparedTxnDB :=
  fold_left (λ s p, AddPrepared p s) (batch_seqs prepare_seq sub_batch_cnt) s.

(** A run of AddCommitted calls; the first throw ends it. *)
Fixpoint add_committed_all (preps : list Z) (cseq last : Z) (snapshots_of : Z → list Z)
    (s : WritePreparedTxnDB) : WritePreparedTxnDB * bool :=
  match preps with
  | [] => (s, true)
  | p :: preps' =>
      let '(s, ok) := AddCommitted p cseq last snapshots_of s in
      if ok then add_committed_all preps' cseq last snapshots_of s else (s, false)
  end.

(** [WritePreparedCommitEntryPreReleaseCallback::Callback]. The result is the
    state, the last published sequence number and whether it returned. *)
Definition CommitEntryCallback (prep_seq_ : Z) (prep_batch_cnt_ data_batch_cnt_ : nat)
    (aux_seq_ : Z) (aux_batch_cnt_ : nat) (two_write_queues : bool)
    (cseq published : Z) (snapshots_of : Z → list Z) (s : WritePreparedTxnDB)
    : WritePreparedTxnDB * Z * bool :=
  let includes_data := bool_decide (0 < data_batch_cnt_)%nat in
  let includes_aux := bool_decide (0 < aux_batch_cnt_)%nat in
  let last_commit_seq :=
    if bool_decide (data_batch_cnt_ ≤ 1)%nat then cseq
    else u64 (cseq + Z.of_nat data_batch_cnt_ - 1) in
  let has_prep := negb (prep_seq_ =? kMaxSequenceNumber) in
  let preps :=
    (if has_prep then batch_seqs prep_seq_ prep_batch_cnt_ else []) ++
    (if includes_aux then batch_seqs aux_seq_ aux_batch_cnt_ else []) ++
    (if includes_data then batch_seqs cseq data_batch_cnt_ else []) in
  let '(s, ok) := add_committed_all preps last_commit_seq published snapshots_of s in
  if negb ok then (s, published, false)
  else if two_write_queues then
    let s := if has_prep then RemovePrepared prep_seq_ prep_batch_cnt_ s else s in
    let s := if includes_aux then RemovePrepared aux_seq_ aux_batch_cnt_ s else s in
    (s, last_commit_seq, true)
  else (s, published, true).

(** [WritePreparedRollbackPreReleaseCallback::Callback]. *)
Definition RollbackCallback (prep_seq_ rollback_seq_ : Z) (prep_batch_cnt_ : nat)
    (cseq published : Z) (snapshots_of : Z → list Z) (s : WritePreparedTxnDB)
    : WritePreparedTxnDB * Z * bool :=
  let preps := rollback_seq_ :: batch_seqs prep_seq_ prep_batch_cnt_ in
  let '(s, ok) := add_committed_all preps cseq published snapshots_of s in
  (s, if ok then cseq else published, ok).

End write_prepared.
