(* ===== verification/WritePreparedLists.v ===== *)
(** * WritePrepared transactions: what each operation does
      (lemmas on the operations of WritePrepared)

    One specification per operation: the fields it changes, as an update of the
    state it started from, and what it makes of them. *)
From S2P Require Import Prelude PreparedHeap CommitCache WritePrepared.

(** ** Sorted vectors *)
Definition sorted (l : list Z) : Prop := StronglySorted Z.le l.

Lemma sorted_head x l y : sorted (x :: l) → y ∈ l → x ≤ y.
Proof. intros Hs Hy. inversion Hs as [|? ? ? Hf]; subst. rewrite Forall_forall in Hf. auto. Qed.

Lemma sorted_tail x l : sorted (x :: l) → sorted l.
Proof. intros Hs. by inversion Hs. Qed.

Lemma binary_search_elem vec x : sorted vec → binary_search vec x = true ↔ x ∈ vec.
Proof.
  induction vec as [|y vec IH]; intros Hs; simpl; [set_solver|].
  pose proof (sorted_head y vec x Hs). apply sorted_tail in Hs.
  destruct (Z.ltb_spec y x).
  - rewrite IH, elem_of_cons by done. split; [auto|]. intros [->|]; [lia|done].
  - destruct (Z.ltb_spec x y); simpl; rewrite elem_of_cons.
    + split; [done|]. intros [->|Hin]; [lia|]. specialize (H Hin). lia.
    + split; [|done]. intros _. left. lia.
Qed.

Lemma elem_of_upper_bound_insert x vec y : y ∈ upper_bound_insert x vec ↔ y = x ∨ y ∈ vec.
Proof.
  induction vec as [|z vec IH]; simpl; [set_solver|].
  destruct (x <? z); [set_solver|]. rewrite !elem_of_cons, IH. naive_solver.
Qed.

Lemma upper_bound_insert_sorted x vec : sorted vec → sorted (upper_bound_insert x vec).
Proof.
  induction vec as [|z vec IH]; intros Hs; simpl; [repeat constructor|].
  destruct (Z.ltb_spec x z).
  - constructor; [done|]. rewrite Forall_forall. intros y Hy.
    apply elem_of_cons in Hy as [->|Hy]; [lia|]. pose proof (sorted_head _ _ _ Hs Hy). lia.
  - constructor; [by eapply IH, sorted_tail|]. rewrite Forall_forall. intros y Hy.
    apply elem_of_upper_bound_insert in Hy as [->|Hy]; [lia|]. by eapply sorted_head.
Qed.

Lemma sorted_app l1 l2 : sorted (l1 ++ l2) → ∀ x y, x ∈ l1 → y ∈ l2 → x ≤ y.
Proof.
  induction l1 as [|a l1 IH]; intros Hs x y Hx Hy; [set_solver|].
  apply elem_of_cons in Hx as [->|Hx]; [|by eapply IH; [eapply sorted_tail|..]].
  eapply sorted_head; [exact Hs|]. rewrite elem_of_app. by right.
Qed.

Lemma sorted_prefix l1 l2 : sorted (l1 ++ l2) → sorted l1.
Proof.
  induction l1 as [|a l1 IH]; intros Hs; [constructor|]. constructor.
  - apply IH. by eapply sorted_tail.
  - rewrite Forall_forall. intros y Hy. eapply sorted_head; [exact Hs|].
    rewrite elem_of_app. by left.
Qed.

Lemma sorted_suffix l1 l2 : sorted (l1 ++ l2) → sorted l2.
Proof. induction l1 as [|a l1 IH]; intros Hs; [done|]. apply IH. by eapply sorted_tail. Qed.

Lemma sorted_take n l : sorted l → sorted (take n l).
Proof. intros Hs. rewrite <- (take_drop n l) in Hs. by eapply sorted_prefix. Qed.

Lemma sorted_drop n l : sorted l → sorted (drop n l).
Proof. intros Hs. rewrite <- (take_drop n l) in Hs. by eapply sorted_suffix. Qed.

(** The least element of a set. *)
Lemma foldr_min_spec x l :
  foldr Z.min x l ∈ x :: l ∧ ∀ y, y ∈ x :: l → foldr Z.min x l ≤ y.
Proof.
  induction l as [|a l [IH1 IH2]]; simpl.
  { split; [set_solver|]. intros y Hy. apply list_elem_of_singleton in Hy. lia. }
  split.
  - destruct (Z.min_spec a (foldr Z.min x l)) as [[_ ->]|[_ ->]]; set_solver.
  - intros y Hy. rewrite !elem_of_cons in Hy. destruct Hy as [->|[->|Hy]]; [|lia|].
    + specialize (IH2 x (list_elem_of_here _ _)). lia.
    + specialize (IH2 y (list_elem_of_further _ _ _ Hy)). lia.
Qed.

Lemma set_begin_spec (s : gset Z) :
  s ≠ ∅ → set_begin s ∈ s ∧ ∀ y, y ∈ s → set_begin s ≤ y.
Proof.
  intros Hne. unfold set_begin. destruct (elements s) as [|x l] eqn:E.
  { apply elements_empty_inv in E. set_solver. }
  destruct (foldr_min_spec x l) as [H1 H2]. rewrite <- E in *.
  split; [by apply elem_of_elements|]. intros y Hy. apply H2. by apply elem_of_elements.
Qed.

Lemma cas_raise_max updated new cur : cas_raise 2 updated new cur = if updated <? new then Z.max cur new else cur.
Proof.
  simpl. destruct (Z.ltb_spec updated new); [|done].
  destruct (Z.eqb_spec cur updated); [lia|].
  destruct (Z.ltb_spec cur new); [rewrite Z.eqb_refl; lia|lia].
Qed.

Section specs.
Context `{WPConfigOk} `{SeqParams}.

(** ** The prepared lists *)

Lemma check_prepared_loop_spec fuel new_max s :
  heap_inv (prepared_txns_ s) →
  (length (heap_ (prepared_txns_ s)) < fuel)%nat →
  ∃ h d f, check_prepared_loop fuel new_max s
             = set_prepared_txns h (set_delayed_prepared d (set_delayed_empty f s)) ∧
    heap_inv h ∧
    (∀ x, x ∈ contents h ↔ x ∈ contents (prepared_txns_ s) ∧ new_max < x) ∧
    (∀ x, x ∈ d ↔ x ∈ delayed_prepared_ s ∨ (x ∈ contents (prepared_txns_ s) ∧ x ≤ new_max)) ∧
    (∀ x, x ∈ heap_ h → x ∈ heap_ (prepared_txns_ s)) ∧
    (∀ x y, x ∈ contents (prepared_txns_ s) → x ≤ new_max → y ∈ heap_ h → x < y) ∧
    (f = delayed_prepared_empty_ s ∧ d = delayed_prepared_ s ∨ f = false ∧ d ≠ ∅).
Proof.
  revert s. induction fuel as [|fuel IH]; intros s Hinv Hfuel; [lia|].
  pose proof (heap_inv_top _ Hinv) as (Hemp & Hempc & Hmin & Htopin). cbn [check_prepared_loop].
  destruct (heap_empty (prepared_txns_ s)) eqn:E; simpl.
  { exists (prepared_txns_ s), (delayed_prepared_ s), (delayed_prepared_empty_ s).
    assert (contents (prepared_txns_ s) = ∅) as Hc by (apply Hempc, Hemp; done).
    split_and!; try done; set_solver. }
  assert (heap_ (prepared_txns_ s) ≠ []) as Hne by (intros Hn; apply Hemp in Hn; congruence).
  specialize (Htopin Hne). destruct (Z.leb_spec (heap_top (prepared_txns_ s)) new_max) as [Hle|Hgt].
  2: { exists (prepared_txns_ s), (delayed_prepared_ s), (delayed_prepared_empty_ s).
       split_and!; try done; [| |intros x y Hx Hxm; specialize (Hmin x Hx); lia|by left].
       - intros x. split; [|tauto]. intros Hx. specialize (Hmin x Hx). split; [done|lia].
       - intros x. split; [auto|]. intros [|[Hx Hxm]]; [done|]. specialize (Hmin x Hx). lia. }
  destruct (heap_pop_spec _ Hinv Hne) as (Hpi & Hpc & Hph).
  set (s1 := set_prepared_txns _ _).
  assert (length (heap_ (heap_pop (prepared_txns_ s))) < length (heap_ (prepared_txns_ s)))%nat as Hlen.
  { apply heap_pop_length; done. }
  destruct (IH s1) as (h & d & f & Heq & Hhi & Hhc & Hd & Hsub & Hlt & Hf); [done|change (prepared_txns_ s1) with (heap_pop (prepared_txns_ s)); lia|].
  change (prepared_txns_ s1) with (heap_pop (prepared_txns_ s)) in *.
  change (delayed_prepared_ s1) with ({[heap_top (prepared_txns_ s)]} ∪ delayed_prepared_ s) in *.
  change (delayed_prepared_empty_ s1) with false in *.
  exists h, d, f. split; [by rewrite Heq|]. split; [done|].
  split_and!.
  - intros x. rewrite Hhc, Hpc. split; [set_solver|]. intros [Hx Hlt']. split; [|done].
    rewrite elem_of_difference, elem_of_singleton. split; [done|lia].
  - intros x. rewrite Hd, Hpc. destruct (decide (x = heap_top (prepared_txns_ s))) as [->|Hneq]; set_solver.
  - intros x Hx. by apply Hph, Hsub.
  - intros x y Hx Hxm Hy. destruct (decide (x = heap_top (prepared_txns_ s))) as [->|Hneq].
    + by apply Hph, Hsub.
    + eapply Hlt; [|done|done]. rewrite Hpc. set_solver.
  - right. destruct Hf as [[-> Hf]|[-> Hf]]; (split; [done|]); [rewrite Hf|done]. set_solver.
Qed.

Lemma check_prepared_spec new_max s :
  heap_inv (prepared_txns_ s) →
  ∃ h d f, CheckPreparedAgainstMax new_max s
             = set_prepared_txns h (set_delayed_prepared d (set_delayed_empty f s)) ∧
    heap_inv h ∧
    (∀ x, x ∈ contents h ↔ x ∈ contents (prepared_txns_ s) ∧ new_max < x) ∧
    (∀ x, x ∈ d ↔ x ∈ delayed_prepared_ s ∨ (x ∈ contents (prepared_txns_ s) ∧ x ≤ new_max)) ∧
    (∀ x, x ∈ heap_ h → x ∈ heap_ (prepared_txns_ s)) ∧
    (∀ x y, x ∈ contents (prepared_txns_ s) → x ≤ new_max → y ∈ heap_ h → x < y) ∧
    (f = delayed_prepared_empty_ s ∧ d = delayed_prepared_ s ∨ f = false ∧ d ≠ ∅).
Proof.
  intros Hinv. unfold CheckPreparedAgainstMax.
  pose proof (heap_inv_top _ Hinv) as (Hemp & Hempc & Hmin & _). unfold heap_empty, heap_top in *.
  destruct (negb _ && _) eqn:E; [by apply check_prepared_loop_spec; [|lia]|].
  exists (prepared_txns_ s), (delayed_prepared_ s), (delayed_prepared_empty_ s).
  assert (∀ x, x ∈ contents (prepared_txns_ s) → new_max < x) as Hgt.
  { intros x Hx. specialize (Hmin x Hx). destruct (Z.eqb_spec (heap_top_ (prepared_txns_ s)) kMaxSequenceNumber).
    - assert (contents (prepared_txns_ s) = ∅) as Hc by (apply Hempc, Hemp; done). set_solver.
    - simpl in E. destruct (Z.leb_spec (heap_top_ (prepared_txns_ s)) new_max); [done|lia]. }
  split_and!; try done; [| |intros x y Hx Hxm; specialize (Hgt x Hx); lia|by left].
  - intros x. split; [|tauto]. auto.
  - intros x. split; [auto|]. intros [|[Hx Hxm]]; [done|]. specialize (Hgt x Hx). lia.
Qed.

(** ** The map of old commits *)

(** [m] extends [m0] by the entry [<p, c>] at snapshots of [S] inside it. *)
Record grows (p c : Z) (S : Z → Prop) (m0 m : gmap Z (list Z)) : Prop := {
  grows_sound : ∀ k vec x, m !! k = Some vec → x ∈ vec →
    x ∈ default [] (m0 !! k) ∨ (x = p ∧ p ≤ k < c);
  grows_keep : ∀ k vec0, m0 !! k = Some vec0 →
    ∃ vec, m !! k = Some vec ∧ ∀ x, x ∈ vec0 → x ∈ vec;
  grows_keys : ∀ k, is_Some (m !! k) → is_Some (m0 !! k) ∨ S k;
  grows_sorted : ∀ k vec, m !! k = Some vec → sorted (default [] (m0 !! k)) → sorted vec;
}.

Definition upd_old (m : gmap Z (list Z)) (f : bool) (s : WritePreparedTxnDB) :=
  set_old_commit_map m (set_old_commit_empty f s).

Definition old_step (p c : Z) (S : Z → Prop) (s s' : WritePreparedTxnDB) : Prop :=
  ∃ m f, s' = upd_old m f s ∧ grows p c S (old_commit_map_ s) m ∧
    (f = true → old_commit_map_empty_ s = true ∧ m = old_commit_map_ s).

Definition recorded (p k : Z) (s : WritePreparedTxnDB) : Prop :=
  ∃ vec, old_commit_map_ s !! k = Some vec ∧ p ∈ vec.

Lemma grows_refl p c S m : grows p c S m m.
Proof.
  split; [|by eauto|by auto|].
  - intros k vec x -> Hx. by left.
  - intros k vec -> Hs. done.
Qed.

Lemma grows_trans p c S m0 m1 m2 : grows p c S m0 m1 → grows p c S m1 m2 → grows p c S m0 m2.
Proof.
  intros H1' H2. split.
  - intros k vec x Hk Hx. destruct (grows_sound _ _ _ _ _ H2 _ _ _ Hk Hx) as [Hx'|]; [|by right].
    destruct (m1 !! k) as [v1|] eqn:E; [|set_solver].
    by eapply (grows_sound _ _ _ _ _ H1').
  - intros k vec0 Hk. destruct (grows_keep _ _ _ _ _ H1' _ _ Hk) as (v1 & Hv1 & Hs1).
    destruct (grows_keep _ _ _ _ _ H2 _ _ Hv1) as (v2 & Hv2 & Hs2). eauto.
  - intros k Hk. destruct (grows_keys _ _ _ _ _ H2 _ Hk) as [Hk'|]; [|by right].
    by apply (grows_keys _ _ _ _ _ H1').
  - intros k vec Hk Hs. apply (grows_sorted _ _ _ _ _ H2 _ _ Hk).
    destruct (m1 !! k) as [v1|] eqn:E; [|constructor]. by eapply (grows_sorted _ _ _ _ _ H1').
Qed.

Lemma old_step_refl p c S s : old_step p c S s s.
Proof. exists (old_commit_map_ s), (old_commit_map_empty_ s). split_and!; [done|apply grows_refl|done]. Qed.

Lemma old_step_trans p c S s1 s2 s3 : old_step p c S s1 s2 → old_step p c S s2 s3 → old_step p c S s1 s3.
Proof.
  intros (m & f & -> & Hg & Hf) (m' & f' & -> & Hg' & Hf'). exists m', f'. split; [done|].
  split; [by eapply grows_trans|]. intros E. destruct (Hf' E) as [E1 E2].
  destruct (Hf E1) as [E3 E4]. split; [done|]. by rewrite E2.
Qed.

Lemma recorded_step p c S s s' q k : old_step p c S s s' → recorded q k s → recorded q k s'.
Proof.
  intros (m & f & -> & Hg & _) (vec & Hk & Hq).
  destruct (grows_keep _ _ _ _ _ Hg _ _ Hk) as (v & Hv & Hs). exists v. auto.
Qed.

Lemma maybe_update_spec p c (S : Z → Prop) k next s :
  S k →
  old_step p c S s (fst (MaybeUpdateOldCommitMap p c k next s)) ∧
  (p ≤ k < c → recorded p k (fst (MaybeUpdateOldCommitMap p c k next s))) ∧
  snd (MaybeUpdateOldCommitMap p c k next s)
    = (if c <=? k then negb next else if p <=? k then true else next).
Proof.
  intros HS. unfold MaybeUpdateOldCommitMap.
  destruct (Z.leb_spec c k); [split_and!; [apply old_step_refl|lia|done]|].
  destruct (Z.leb_spec p k); [|split_and!; [apply old_step_refl|lia|done]].
  split_and!; [|intros _; eexists; split; [apply lookup_insert_eq|apply elem_of_upper_bound_insert; auto]|done].
  eexists _, false. split; [reflexivity|]. split; [|done].
  cbn [fst]. change (old_commit_map_ (set_old_commit_empty false s)) with (old_commit_map_ s). split.
  - intros j vec x Hj Hx. apply lookup_insert_Some in Hj as [[<- <-]|[Hne Hj]].
    + apply elem_of_upper_bound_insert in Hx as [->|Hx]; [right; lia|by left].
    + left. by rewrite Hj.
  - intros j vec0 Hj. destruct (decide (j = k)) as [->|Hne].
    + rewrite lookup_insert_eq, Hj. eexists; split; [done|]. intros x Hx.
      apply elem_of_upper_bound_insert. by right.
    + rewrite lookup_insert_ne by done. eauto.
  - intros j Hj. destruct (decide (j = k)) as [->|Hne]; [by right|].
    rewrite lookup_insert_ne in Hj by done. by left.
  - intros j vec Hj Hs. apply lookup_insert_Some in Hj as [[<- <-]|[Hne Hj]].
    + by apply upper_bound_insert_sorted.
    + by rewrite Hj in Hs.
Qed.

Lemma scan_up_frame snaps e s : ∃ m f, scan_up snaps e s = upd_old m f s.
Proof.
  revert s. induction snaps as [|k snaps IH]; intros s; cbn [scan_up].
  { by exists (old_commit_map_ s), (old_commit_map_empty_ s). }
  destruct (maybe_update_spec (prep_seq e) (commit_seq e) (λ _, True) k true s I) as ((m & f & Heq & _) & _ & _).
  destruct (MaybeUpdateOldCommitMap _ _ _ _ s) as [s1 []]; simpl in Heq; subst s1; [|by exists m, f].
  destruct (IH (upd_old m f s)) as (m' & f' & ->). by exists m', f'.
Qed.

Lemma scan_up_spec snaps e (S : Z → Prop) s :
  sorted snaps → (∀ k, k ∈ snaps → S k) →
  old_step (prep_seq e) (commit_seq e) S s (scan_up snaps e s) ∧
  (∀ k, k ∈ snaps → prep_seq e ≤ k < commit_seq e → recorded (prep_seq e) k (scan_up snaps e s)).
Proof.
  revert s. induction snaps as [|k snaps IH]; intros s Hs HS; cbn [scan_up].
  { split; [apply old_step_refl|set_solver]. }
  destruct (maybe_update_spec (prep_seq e) (commit_seq e) S k true s) as (Hstep & Hrec & Hcont).
  { apply HS. set_solver. }
  destruct (MaybeUpdateOldCommitMap _ _ _ _ s) as [s1 cont]. cbn [fst snd] in *. subst cont.
  assert (∀ j, j ∈ snaps → k ≤ j) as Hle by (intros; by eapply sorted_head).
  destruct (IH s1) as [IH1 IH2]; [by eapply sorted_tail|set_solver|].
  destruct (Z.leb_spec (commit_seq e) k); simpl.
  - split; [done|]. intros j Hj ?. apply elem_of_cons in Hj as [->|Hj]; [lia|].
    specialize (Hle j Hj). lia.
  - assert ((if prep_seq e <=? k then true else true) = true) as -> by by case_match.
    split; [by eapply old_step_trans|]. intros j Hj Hr.
    apply elem_of_cons in Hj as [->|Hj]; [|by auto].
    by eapply recorded_step; [|apply Hrec].
Qed.

Lemma take_S_lookup (l : list Z) i x : l !! i = Some x → take (S i) l = take i l ++ [x].
Proof. apply take_S_r. Qed.

Lemma scan_cache_down_spec ip1 e search (S : Z → Prop) s :
  (ip1 ≤ length (snapshot_cache_ s))%nat →
  sorted (take ip1 (snapshot_cache_ s)) → (∀ k, k ∈ take ip1 (snapshot_cache_ s) → S k) →
  let r := scan_cache_down ip1 e search s in
  old_step (prep_seq e) (commit_seq e) S s (fst r) ∧
  (∀ k, k ∈ take ip1 (snapshot_cache_ s) → prep_seq e ≤ k < commit_seq e →
     recorded (prep_seq e) k (fst r)) ∧
  (Z.of_nat ip1 < SNAPSHOT_CACHE_SIZE → snd r = search) ∧
  (0 < Z.of_nat ip1 ∧ Z.of_nat ip1 = SNAPSHOT_CACHE_SIZE →
     snd r = (default 0 (snapshot_cache_ s !! pred ip1) <? commit_seq e)).
Proof.
  revert search s. induction ip1 as [|i IH]; intros search s Hlen Hs HS r.
  { subst r. simpl. split_and!; [apply old_step_refl|set_solver|done|lia]. }
  destruct (lookup_lt_is_Some_2 (snapshot_cache_ s) i) as [k Hk]; [lia|].
  pose proof (take_S_lookup _ _ _ Hk) as Htake. rewrite Htake in Hs, HS.
  assert (∀ j, j ∈ take i (snapshot_cache_ s) → j ≤ k) as Hle.
  { intros j Hj. eapply sorted_app; [exact Hs|done|set_solver]. }
  set (search' := if Z.of_nat (Datatypes.S i) =? SNAPSHOT_CACHE_SIZE then k <? commit_seq e else search).
  destruct (maybe_update_spec (prep_seq e) (commit_seq e) S k false s) as (Hstep & Hrec & Hcont).
  { apply HS. set_solver. }
  assert (r = let k := default 0 (snapshot_cache_ s !! i) in
              let search' := if Z.of_nat (Datatypes.S i) =? SNAPSHOT_CACHE_SIZE
                             then k <? commit_seq e else search in
              let '(s', continue) := MaybeUpdateOldCommitMap (prep_seq e) (commit_seq e) k false s in
              if continue then scan_cache_down i e search' s' else (s', search')) as Hr by reflexivity.
  rewrite Hk in Hr. cbn zeta in Hr. change (default 0 (Some k)) with k in Hr. fold search' in Hr.
  clearbody r. cbn [Nat.pred]. rewrite Hk. change (default 0 (Some k)) with k.
  destruct (MaybeUpdateOldCommitMap _ _ _ _ s) as [s1 cont]. cbn [fst snd] in *. subst cont.
  assert (snapshot_cache_ s1 = snapshot_cache_ s) as Hc1 by (destruct Hstep as (m & f & -> & _); done).
  destruct (IH search' s1) as (IH1 & IH2 & IH3 & IH4).
  { rewrite Hc1. lia. } { rewrite Hc1. by eapply sorted_prefix. } { rewrite Hc1. set_solver. }
  rewrite Hc1 in IH2. subst search'.
  assert ((if commit_seq e <=? k then negb false else if prep_seq e <=? k then true else false)
          = (commit_seq e <=? k) || (prep_seq e <=? k)) as Hcond by (by repeat case_match).
  rewrite Hcond in Hr. destruct ((commit_seq e <=? k) || (prep_seq e <=? k)) eqn:E; subst r.
  - split_and!; [by eapply old_step_trans| | |].
    + intros j Hj Hr. rewrite Htake in Hj. apply elem_of_app in Hj as [Hj|Hj]; [by apply IH2|].
      apply list_elem_of_singleton in Hj as ->. by eapply recorded_step; [|apply Hrec].
    + intros Hlt. rewrite IH3 by lia. destruct (Z.eqb_spec (Z.of_nat (Datatypes.S i)) SNAPSHOT_CACHE_SIZE); [lia|done].
    + intros Heq. rewrite IH3 by lia. destruct (Z.eqb_spec (Z.of_nat (Datatypes.S i)) SNAPSHOT_CACHE_SIZE); [done|lia].
  - apply orb_false_iff in E as [E1 E2]. apply Z.leb_gt in E1, E2. split_and!; [done| | |].
    + intros j Hj Hr. exfalso. rewrite Htake in Hj. apply elem_of_app in Hj as [Hj|Hj].
      * specialize (Hle j Hj). lia.
      * apply list_elem_of_singleton in Hj as ->. lia.
    + intros Hlt. cbn [snd]. destruct (Z.eqb_spec (Z.of_nat (Datatypes.S i)) SNAPSHOT_CACHE_SIZE); [lia|done].
    + intros Heq. cbn [snd]. destruct (Z.eqb_spec (Z.of_nat (Datatypes.S i)) SNAPSHOT_CACHE_SIZE); [done|lia].
Qed.

(** ** The snapshot lists *)

(** The two lists together are the sorted list of all snapshots. *)
Record snap_lists_ok (s : WritePreparedTxnDB) : Prop := {
  sl_sorted : sorted (snapshots_all_ s);
  sl_total : snapshots_total_ s = Z.of_nat (length (snapshots_all_ s));
  sl_cache_len : Z.of_nat (length (snapshot_cache_ s)) = SNAPSHOT_CACHE_SIZE;
  sl_cache : ∀ i x, snapshots_all_ s !! i = Some x → Z.of_nat i < SNAPSHOT_CACHE_SIZE →
               snapshot_cache_ s !! i = Some x;
  sl_rest : snapshots_ s = drop (Z.to_nat SNAPSHOT_CACHE_SIZE) (snapshots_all_ s);
}.

Lemma SNAPSHOT_CACHE_SIZE_pos : 0 < SNAPSHOT_CACHE_SIZE.
Proof.
  pose proof snapshot_bits_ok. unfold SNAPSHOT_CACHE_SIZE. rewrite Z.shiftl_1_l, wrap_small.
  - apply Z.pow_pos_nonneg; lia.
  - apply pow2_range. lia.
Qed.

Lemma snap_cache_take s :
  snap_lists_ok s →
  let n := Z.to_nat (Z.min (snapshots_total_ s) SNAPSHOT_CACHE_SIZE) in
  take n (snapshot_cache_ s) = take n (snapshots_all_ s) ∧ (n ≤ length (snapshot_cache_ s))%nat.
Proof.
  intros [Hs Ht Hl Hc Hr] n. pose proof SNAPSHOT_CACHE_SIZE_pos.
  assert ((n ≤ length (snapshots_all_ s))%nat ∧ Z.of_nat n ≤ SNAPSHOT_CACHE_SIZE) as [Hn1 Hn2] by lia.
  split; [|lia]. apply list_eq. intros i. destruct (decide (i < n)%nat).
  - rewrite !lookup_take_lt by done.
    destruct (lookup_lt_is_Some_2 (snapshots_all_ s) i) as [x Hx]; [lia|].
    rewrite Hx. apply Hc; [done|lia].
  - rewrite !lookup_take_ge by lia. done.
Qed.

Lemma check_against_spec e s :
  snap_lists_ok s →
  let s' := CheckAgainstSnapshots e s in
  old_step (prep_seq e) (commit_seq e) (λ k, k ∈ snapshots_all_ s) s s' ∧
  (∀ k, k ∈ snapshots_all_ s → prep_seq e ≤ k < commit_seq e → recorded (prep_seq e) k s').
Proof.
  intros Hok s'. pose proof SNAPSHOT_CACHE_SIZE_pos as Hpos.
  destruct (snap_cache_take s Hok) as [Htake Hlen]. pose proof Hok as [Hs Ht Hl Hc Hr].
  set (n := Z.to_nat (Z.min (snapshots_total_ s) SNAPSHOT_CACHE_SIZE)) in *.
  assert (s' = let '(s1, search) := scan_cache_down n e false s in
     if (SNAPSHOT_CACHE_SIZE <? snapshots_total_ s) && search
     then scan_up (snapshots_ s1) e (scan_up (take (Z.to_nat SNAPSHOT_CACHE_SIZE) (snapshot_cache_ s1)) e s1)
     else s1) as Hs'.
  { subst s'. unfold CheckAgainstSnapshots. fold n. destruct (scan_cache_down n e false s) as [s1 b].
    destruct (_ && b); [|done]. f_equal. unfold upd_old.
    destruct (scan_up_frame (take (Z.to_nat SNAPSHOT_CACHE_SIZE) (snapshot_cache_ s1)) e s1) as (m & f & ->). done. }
  clearbody s'.
  destruct (scan_cache_down_spec n e false (λ k, k ∈ snapshots_all_ s) s) as (H1' & H2 & H3 & H4).
  { done. } { rewrite Htake. by apply sorted_take. }
  { rewrite Htake. intros k Hk. by eapply elem_of_take_sub. }
  destruct (scan_cache_down n e false s) as [s1 search]. cbn [fst snd] in *.
  destruct H1' as (m1 & f1 & Hs1 & Hg1 & Hf1).
  assert (old_step (prep_seq e) (commit_seq e) (λ k, k ∈ snapshots_all_ s) s s1) as Hstep1
    by (exists m1, f1; done).
  rewrite Htake in H2.
  destruct (Z.ltb_spec SNAPSHOT_CACHE_SIZE (snapshots_total_ s)) as [Hbig|Hsmall]; simpl in Hs'.
  2: { subst s'. split; [done|]. intros k Hk. apply H2.
       rewrite take_ge; [done|]. subst n. lia. }
  assert (Z.of_nat n = SNAPSHOT_CACHE_SIZE) as Hn by (subst n; lia).
  rewrite H4 in Hs' by lia. clear H3 H4.
  assert (snapshots_all_ s = take n (snapshots_all_ s) ++ snapshots_ s) as Hsplit.
  { rewrite Hr. replace (Z.to_nat SNAPSHOT_CACHE_SIZE) with n by lia. by rewrite take_drop. }
  destruct (lookup_lt_is_Some_2 (snapshots_all_ s) (pred n)) as [b Hb]; [lia|].
  rewrite (Hc _ _ Hb) in Hs' by lia. change (default 0 (Some b)) with b in Hs'.
  assert (b ∈ take n (snapshots_all_ s)) as Hbin.
  { apply list_elem_of_lookup. exists (pred n). by rewrite lookup_take_lt by lia. }
  destruct (Z.ltb_spec b (commit_seq e)) as [Hlt|Hge].
  2: { subst s'. split; [done|]. intros k Hk Hr'. rewrite Hsplit in Hk.
       apply elem_of_app in Hk as [Hk|Hk]; [by apply H2|].
       rewrite Hsplit in Hs. pose proof (sorted_app _ _ Hs b k Hbin Hk). lia. }
  assert (snapshots_ s1 = snapshots_ s ∧ snapshot_cache_ s1 = snapshot_cache_ s) as [Hq1 Hq2] by (by subst s1).
  rewrite Hq1, Hq2 in Hs'. replace (Z.to_nat SNAPSHOT_CACHE_SIZE) with n in * by lia.
  rewrite Htake in Hs'.
  destruct (scan_up_spec (take n (snapshots_all_ s)) e (λ k, k ∈ snapshots_all_ s) s1) as [Hu1 Hu2].
  { by apply sorted_take. } { intros k Hk. by eapply elem_of_take_sub. }
  set (s2 := scan_up (take n (snapshots_all_ s)) e s1) in *. clearbody s2.
  destruct (scan_up_spec (snapshots_ s) e (λ k, k ∈ snapshots_all_ s) s2) as [Hv1 Hv2].
  { rewrite Hr. by apply sorted_drop. } { intros k Hk. rewrite Hsplit. set_solver. }
  rewrite <- Hs' in *. split; [eapply old_step_trans; [exact Hstep1|]; by eapply old_step_trans|].
  intros k Hk Hr'. rewrite Hsplit in Hk. apply elem_of_app in Hk as [Hk|Hk]; [|by apply Hv2].
  eapply recorded_step; [exact Hv1|]. by apply Hu2.
Qed.

Lemma fill_cache_spec i snaps cache :
  Z.of_nat (length cache) = SNAPSHOT_CACHE_SIZE → Z.of_nat i ≤ SNAPSHOT_CACHE_SIZE →
  let '(cache', rest) := fill_cache i snaps cache in
  length cache' = length cache ∧ rest = drop (Z.to_nat SNAPSHOT_CACHE_SIZE - i) snaps ∧
  (∀ j, (j < i)%nat → cache' !! j = cache !! j) ∧
  (∀ j x, snaps !! j = Some x → Z.of_nat (i + j) < SNAPSHOT_CACHE_SIZE → cache' !! (i + j)%nat = Some x).
Proof.
  revert i cache. induction snaps as [|a snaps IH]; intros i cache Hl Hi; cbn [fill_cache].
  { split_and!; [done|by rewrite drop_nil|done|done]. }
  destruct (Z.ltb_spec (Z.of_nat i) SNAPSHOT_CACHE_SIZE).
  - specialize (IH (S i) (<[i := a]> cache)). rewrite length_insert in IH.
    destruct (fill_cache (S i) snaps _) as [cache' rest].
    destruct IH as (IH1 & IH2 & IH3 & IH4); [done|lia|]. split_and!.
    + done.
    + rewrite IH2. replace (Z.to_nat SNAPSHOT_CACHE_SIZE - i)%nat with (S (Z.to_nat SNAPSHOT_CACHE_SIZE - S i)) by lia.
      done.
    + intros j Hj. rewrite IH3 by lia. apply list_lookup_insert_ne. lia.
    + intros [|j] x Hx Hlt; simpl in Hx.
      * injection Hx as <-. rewrite Nat.add_0_r, IH3 by lia. apply list_lookup_insert_eq. lia.
      * rewrite <- Nat.add_succ_comm. apply IH4; [done|lia].
  - split_and!; [done| |done|intros j x ? ?; lia].
    replace (Z.to_nat SNAPSHOT_CACHE_SIZE - i)%nat with 0%nat by lia. done.
Qed.

(** ** Releasing snapshots *)

Definition flag_ok (s : WritePreparedTxnDB) : Prop :=
  old_commit_map_empty_ s = true → old_commit_map_ s = ∅.

(** [s'] is [s] without the map entries at [R]. *)
Definition releases (R : Z → Prop) (s s' : WritePreparedTxnDB) : Prop :=
  ∃ m f, s' = upd_old m f s ∧ (∀ k, R k → m !! k = None) ∧
    (∀ k, ¬ R k → m !! k = old_commit_map_ s !! k) ∧
    (∀ k, m !! k = None ∨ m !! k = old_commit_map_ s !! k) ∧ (flag_ok s → flag_ok s').

Lemma releases_none (R : Z → Prop) s : (∀ k, ¬ R k) → releases R s s.
Proof.
  intros HR. exists (old_commit_map_ s), (old_commit_map_empty_ s). split_and!; try done; [|by right].
  intros k Hk. by destruct (HR k).
Qed.

Lemma releases_trans (R1 R2 R : Z → Prop) s1 s2 s3 :
  (∀ k, R k ↔ R1 k ∨ R2 k) → releases R1 s1 s2 → releases R2 s2 s3 → releases R s1 s3.
Proof.
  intros HR (m & f & -> & Hm1 & Hm2 & Hm3 & Hf) (m' & f' & -> & Hm1' & Hm2' & Hm3' & Hf').
  change (old_commit_map_ (upd_old m f s1)) with m in *.
  exists m', f'. split; [done|]. split_and!.
  - intros k Hk. apply HR in Hk as [Hk|Hk]; [|auto].
    destruct (Hm3' k) as [|Heq]; [done|]. rewrite Heq. auto.
  - intros k Hk. rewrite HR in Hk. rewrite Hm2' by tauto. apply Hm2. tauto.
  - intros k. destruct (Hm3' k) as [|Heq]; [by left|]. rewrite Heq. auto.
  - auto.
Qed.

Lemma release_spec k s : k ≤ max_evicted_seq_ s → releases (λ j, j = k) s (ReleaseSnapshotInternal k s).
Proof.
  intros Hk. unfold ReleaseSnapshotInternal. destruct (Z.leb_spec k (max_evicted_seq_ s)); [|lia].
  case_bool_decide as Hg.
  - eexists (delete k (old_commit_map_ s)), _. split; [reflexivity|]. split_and!.
    + intros j ->. apply lookup_delete_eq.
    + intros j Hj. by rewrite lookup_delete_ne by done.
    + intros j. destruct (decide (k = j)) as [->|]; [left; apply lookup_delete_eq|].
      right. by rewrite lookup_delete_ne by done.
    + intros _ Hf. by apply bool_decide_eq_true_1 in Hf.
  - exists (old_commit_map_ s), (old_commit_map_empty_ s). split_and!; try done; [|by right].
    intros j ->. by apply eq_None_not_Some.
Qed.

Lemma release_all l s :
  (∀ k, k ∈ l → k ≤ max_evicted_seq_ s) →
  releases (λ k, k ∈ l) s (fold_left (λ s o, ReleaseSnapshotInternal o s) l s).
Proof.
  revert s. induction l as [|k l IH]; intros s Hl; cbn [fold_left].
  { apply releases_none. set_solver. }
  pose proof (release_spec k s (Hl k (list_elem_of_here _ _))) as Hr.
  eapply releases_trans; [|exact Hr|apply IH].
  - intros j. simpl. apply elem_of_cons.
  - destruct Hr as (m & f & -> & _). intros j Hj. apply Hl. set_solver.
Qed.

Lemma skip_value_spec v l :
  sorted l → (∀ x, x ∈ l → v ≤ x) →
  sorted (skip_value v l) ∧ (∀ x, x ∈ skip_value v l ↔ x ∈ l ∧ x ≠ v) ∧
  (length (skip_value v l) ≤ length l)%nat.
Proof.
  induction l as [|a l IH]; intros Hs Hv; simpl.
  { split_and!; [done|set_solver|lia]. }
  destruct (Z.eqb_spec a v) as [->|Hne].
  - destruct IH as (IH1 & IH2 & IH3); [by eapply sorted_tail|set_solver|].
    split_and!; [done| |lia]. intros x. rewrite IH2. set_solver.
  - split_and!; [done| |done]. intros x. split; [|tauto]. intros Hx. split; [done|].
    pose proof (Hv a (list_elem_of_here _ _)). apply elem_of_cons in Hx as [->|Hx]; [done|].
    pose proof (sorted_head _ _ _ Hs Hx). lia.
Qed.

Lemma cleanup_loop_spec fuel newi oldi s :
  (length oldi ≤ fuel)%nat → sorted newi → sorted oldi →
  (∀ x, x ∈ newi → x ∈ oldi ∨ ∀ y, y ∈ oldi → y ≤ x) →
  (∀ k, k ∈ oldi → k ≤ max_evicted_seq_ s) →
  let '(rest, s1) := cleanup_loop fuel newi oldi s in
  releases (λ k, k ∈ oldi ∧ k ∉ newi) s (fold_left (λ s o, ReleaseSnapshotInternal o s) rest s1).
Proof.
  revert newi oldi s. induction fuel as [|fuel IH]; intros newi oldi s Hf Hn Ho Hsub Hmax.
  { destruct oldi; [|simpl in Hf; lia]. apply releases_none. set_solver. }
  destruct newi as [|n newi]; simpl.
  { eapply releases_trans with (R1 := λ _, False); [|by apply releases_none; intros ? []|by apply release_all].
    set_solver. }
  destruct oldi as [|o oldi]; [apply releases_none; set_solver|].
  destruct (Z.eqb_spec n o) as [<-|Hne].
  - simpl. rewrite Z.eqb_refl.
    destruct (skip_value_spec n newi) as (Hn1 & Hn2 & Hn3); [by eapply sorted_tail|intros; by apply (sorted_head n newi)|].
    destruct (skip_value_spec n oldi) as (Ho1 & Ho2 & Ho3); [by eapply sorted_tail|intros; by apply (sorted_head n oldi)|].
    specialize (IH (skip_value n newi) (skip_value n oldi) s).
    destruct (cleanup_loop _ _ _ s) as [rest s1]. simpl in Hf.
    eapply releases_trans with (R1 := λ _, False); [|by apply releases_none; intros ? []|apply IH].
    + intros k. rewrite !elem_of_cons, Hn2, Ho2. destruct (decide (k = n)); tauto.
    + lia. + done. + done.
    + intros x Hx. apply Hn2 in Hx as [Hx Hxn]. destruct (Hsub x) as [Hin|Hall]; [set_solver| |].
      * left. apply Ho2. set_solver.
      * right. intros y Hy. apply Hall. apply Ho2 in Hy as [Hy _]. set_solver.
    + intros k Hk. apply Hmax. apply Ho2 in Hk as [Hk _]. set_solver.
  - assert (o ∉ n :: newi) as Hnotin.
    { intros Hin. destruct (Hsub n) as [Hno|Hall]; [set_solver| |].
      - apply elem_of_cons in Hno as [->|Hno]; [done|].
        pose proof (sorted_head _ _ _ Ho Hno). apply elem_of_cons in Hin as [->|Hin]; [done|].
        pose proof (sorted_head _ _ _ Hn Hin). lia.
      - pose proof (Hall o (list_elem_of_here _ _)). apply elem_of_cons in Hin as [->|Hin]; [done|].
        pose proof (sorted_head _ _ _ Hn Hin). lia. }
    pose proof (release_spec o s (Hmax o (list_elem_of_here _ _))) as Hr.
    specialize (IH (n :: newi) oldi (ReleaseSnapshotInternal o s)).
    destruct (cleanup_loop _ _ _ (ReleaseSnapshotInternal o s)) as [rest s1]. simpl in Hf.
    eapply releases_trans with (R1 := λ j, j = o); [|exact Hr|apply IH].
    + intros k. rewrite elem_of_cons. destruct (decide (k = o)) as [->|]; tauto.
    + lia. + done. + by eapply sorted_tail.
    + intros x Hx. destruct (Hsub x Hx) as [Hin|Hall]; [|set_solver].
      apply elem_of_cons in Hin as [->|Hin]; [done|by left].
    + destruct Hr as (m & f & -> & _). intros k Hk. apply Hmax. set_solver.
Qed.

(** [CleanupReleasedSnapshots] drops the entries of exactly the snapshots that
    are in the old list and not in the new one. *)
Lemma cleanup_spec news olds s :
  sorted news → sorted olds →
  (∀ x, x ∈ news → x ∈ olds ∨ ∀ y, y ∈ olds → y ≤ x) →
  (∀ k, k ∈ olds → k ≤ max_evicted_seq_ s) →
  releases (λ k, k ∈ olds ∧ k ∉ news) s (CleanupReleasedSnapshots news olds s).
Proof.
  intros Hn Ho Hsub Hmax. unfold CleanupReleasedSnapshots.
  pose proof (cleanup_loop_spec (length olds) news olds s (le_n _) Hn Ho Hsub Hmax) as Hc.
  by destruct (cleanup_loop _ _ _ s).
Qed.

(** ** Advancing the largest evicted sequence number *)

Lemma update_snapshots_spec snaps version s :
  snap_lists_ok s → sorted snaps →
  (∀ x, x ∈ snaps → x ∈ snapshots_all_ s ∨ ∀ y, y ∈ snapshots_all_ s → y ≤ x) →
  (∀ k, k ∈ snapshots_all_ s → k ≤ max_evicted_seq_ s) →
  ∃ m f cache rest n,
    UpdateSnapshots snaps version s
      = set_snapshots_all snaps (upd_old m f (set_snapshots_total n (set_snapshots rest
          (set_snapshot_cache cache (set_snapshots_version version s))))) ∧
    snap_lists_ok (UpdateSnapshots snaps version s) ∧
    (∀ k, k ∈ snapshots_all_ s → k ∉ snaps → m !! k = None) ∧
    (∀ k, k ∉ snapshots_all_ s ∨ k ∈ snaps → m !! k = old_commit_map_ s !! k) ∧
    (flag_ok s → flag_ok (UpdateSnapshots snaps version s)).
Proof.
  intros Hok Hs Hsub Hmax. pose proof SNAPSHOT_CACHE_SIZE_pos.
  pose proof (fill_cache_spec 0 snaps (snapshot_cache_ s) (sl_cache_len _ Hok)) as Hfill.
  unfold UpdateSnapshots.
  change (snapshot_cache_ (set_snapshots_version version s)) with (snapshot_cache_ s).
  destruct (fill_cache 0 snaps (snapshot_cache_ s)) as [cache rest].
  destruct Hfill as (Hlen & Hrest & _ & Hcache); [lia|].
  set (s1 := set_snapshots_total _ _).
  change (snapshots_all_ s1) with (snapshots_all_ s).
  destruct (cleanup_spec snaps (snapshots_all_ s) s1) as (m & f & Heq & Hm1 & Hm2 & _ & Hf);
    [done|apply Hok|done|done|].
  rewrite Heq in *. exists m, f, cache, rest, (Z.of_nat (length snaps)). split_and!; [done| |auto| |].
  - split; [done|done| | |].
    + change (Z.of_nat (length cache) = SNAPSHOT_CACHE_SIZE). rewrite Hlen. apply Hok.
    + exact (λ i x, Hcache i x).
    + change (rest = drop (Z.to_nat SNAPSHOT_CACHE_SIZE) snaps). rewrite Hrest. f_equal. lia.
  - intros k Hk. apply Hm2. tauto.
  - exact Hf.
Qed.

(** Adding the keys of the live snapshots. *)
Lemma add_keys_spec snaps (m : gmap Z (list Z)) k :
  fold_left (λ m snap, <[snap := default [] (m !! snap)]> m) snaps m !! k
  = if decide (k ∈ snaps) then Some (default [] (m !! k)) else m !! k.
Proof.
  revert m. induction snaps as [|a snaps IH]; intros m; cbn [fold_left].
  { by rewrite decide_False by set_solver. }
  rewrite IH. destruct (decide (k = a)) as [->|Hne].
  - rewrite lookup_insert_eq, (decide_True (P := a ∈ a :: snaps)) by set_solver.
    by destruct (decide (a ∈ snaps)).
  - rewrite lookup_insert_ne by done. destruct (decide (k ∈ snaps)).
    + by rewrite (decide_True (P := k ∈ a :: snaps)) by set_solver.
    + by rewrite (decide_False (P := k ∈ a :: snaps)) by set_solver.
Qed.

Record advanced (new_max : Z) (snaps : list Z) (s s' : WritePreparedTxnDB) : Prop := {
  av_cache : commit_cache_ s' = commit_cache_ s;
  av_commits : delayed_prepared_commits_ s' = delayed_prepared_commits_ s;
  av_inc : INC_STEP_FOR_MAX_EVICTED s' = INC_STEP_FOR_MAX_EVICTED s;
  av_max : max_evicted_seq_ s' = new_max;
  av_future : future_max_evicted_seq_ s' = new_max;
  av_version : snapshots_version_ s' = new_max;
  av_lists : snap_lists_ok s';
  av_all : snapshots_all_ s' = snaps;
  av_heap : heap_inv (prepared_txns_ s');
  av_contents : ∀ x, x ∈ contents (prepared_txns_ s') ↔ x ∈ contents (prepared_txns_ s) ∧ new_max < x;
  av_delayed : ∀ x, x ∈ delayed_prepared_ s' ↔
    x ∈ delayed_prepared_ s ∨ (x ∈ contents (prepared_txns_ s) ∧ x ≤ new_max);
  av_heap_sub : ∀ x, x ∈ heap_ (prepared_txns_ s') → x ∈ heap_ (prepared_txns_ s);
  av_heap_lt : ∀ x y, x ∈ contents (prepared_txns_ s) → x ≤ new_max →
    y ∈ heap_ (prepared_txns_ s') → x < y;
  av_empty : delayed_prepared_empty_ s' = delayed_prepared_empty_ s ∧
    delayed_prepared_ s' = delayed_prepared_ s ∨
    delayed_prepared_empty_ s' = false ∧ delayed_prepared_ s' ≠ ∅;
  av_live : ∀ k, k ∈ snaps → old_commit_map_ s' !! k = Some (default [] (old_commit_map_ s !! k));
  av_dead : ∀ k, k ∉ snaps → old_commit_map_ s' !! k =
    if decide (k ∈ snapshots_all_ s) then None else old_commit_map_ s !! k;
  av_flag : flag_ok s → flag_ok s';
}.

Lemma advance_spec prev_max new_max snapshots_of s :
  heap_inv (prepared_txns_ s) → snap_lists_ok s → sorted (snapshots_of new_max) →
  max_evicted_seq_ s = prev_max → future_max_evicted_seq_ s = prev_max →
  snapshots_version_ s = prev_max → prev_max < new_max →
  (∀ x, x ∈ snapshots_of new_max →
     x ∈ snapshots_all_ s ∨ ∀ y, y ∈ snapshots_all_ s → y ≤ x) →
  (∀ k, k ∈ snapshots_all_ s → k ≤ prev_max) →
  advanced new_max (snapshots_of new_max) s
    (AdvanceMaxEvictedSeq prev_max new_max snapshots_of s).
Proof.
  intros Hheap Hok Hs Hm Hfm Hv Hlt Hsub Hmax. unfold AdvanceMaxEvictedSeq.
  set (snaps := snapshots_of new_max) in *.
  assert (raise_future_max prev_max new_max s = set_future_max new_max s) as ->.
  { unfold raise_future_max. rewrite cas_raise_max, Hfm.
    destruct (Z.ltb_spec prev_max new_max); [|lia]. f_equal. lia. }
  set (s1 := set_future_max new_max s).
  destruct (check_prepared_spec new_max s1 Hheap) as (h & d & f & -> & Hh & Hc & Hd & Hsb & Hl & He).
  change (prepared_txns_ s1) with (prepared_txns_ s) in *.
  change (delayed_prepared_ s1) with (delayed_prepared_ s) in *.
  change (delayed_prepared_empty_ s1) with (delayed_prepared_empty_ s) in *.
  set (s2 := set_prepared_txns h _). unfold refresh_snapshots.
  change (snapshots_version_ s2) with (snapshots_version_ s). rewrite Hv.
  destruct (Z.ltb_spec prev_max new_max); [|lia]. fold snaps.
  assert (snap_lists_ok s2) as Hok2 by (destruct Hok; by split).
  destruct (update_snapshots_spec snaps new_max s2) as (m & f' & cache & rest & n & Heq & Hok3 & Hm1 & Hm2 & Hf3);
    [done|done|done|by intros k Hk; rewrite <- Hm in Hmax; apply Hmax|].
  rewrite Heq in *. set (s3 := set_snapshots_all snaps _) in *.
  set (m' := fold_left (λ m snap, <[snap := default [] (m !! snap)]> m) snaps m).
  assert (∃ f4, add_snapshot_keys snaps s3 = upd_old m' f4 s3 ∧ (f4 = true → f' = true ∧ snaps = []))
    as (f4 & -> & Hf4).
  { subst m'. clearbody snaps. destruct snaps; [exists f'|exists false]; done. }
  assert (raise_max_evicted prev_max new_max (upd_old m' f4 s3) = set_max_evicted new_max (upd_old m' f4 s3)) as ->.
  { unfold raise_max_evicted. rewrite cas_raise_max.
    change (max_evicted_seq_ (upd_old m' f4 s3)) with (max_evicted_seq_ s). rewrite Hm.
    destruct (Z.ltb_spec prev_max new_max); [|lia]. f_equal. lia. }
  split; try done; try exact Hok3.
  - destruct Hok3; by split.
  - intros k Hk. change (m' !! k = Some (default [] (old_commit_map_ s !! k))).
    subst m'. rewrite add_keys_spec, decide_True by done. f_equal. f_equal. rewrite Hm2 by tauto. done.
  - intros k Hk. change (m' !! k = if decide (k ∈ snapshots_all_ s) then None else old_commit_map_ s !! k).
    subst m'. rewrite add_keys_spec, decide_False by done.
    destruct (decide (k ∈ snapshots_all_ s)); [by apply Hm1|]. rewrite Hm2 by (left; done). done.
  - intros Hf5 E. change (f4 = true) in E. apply Hf4 in E as [E Hn]. change (m' = ∅). subst m'.
    rewrite Hn. cbn [fold_left]. exact (Hf3 Hf5 E).
Qed.
End specs.
