(* ===== verification/WritePreparedCorrect.v ===== *)
(** * WritePrepared transactions: snapshots read what was committed before them

    The operations of WritePrepared run as the steps of a system whose ghost
    state records what they mean: which prepared numbers committed and where,
    which snapshots were taken. Each step runs one operation as a whole. A
    reader's accesses may fall between steps: [IsInSnapshot_correct] is about a
    reader that sees a different state at each access. *)
From S2P Require Import Prelude PreparedHeap CommitCache WritePrepared WritePreparedLists.

(** The DB's list of live snapshots (GetSnapshotListFromDB): sorted, those up
    to the given number. *)
Class SnapshotList := { GetAll : list Z → Z → list Z }.
Class SnapshotListOk `{SnapshotList} : Prop := {
  GetAll_sorted live max : sorted (GetAll live max);
  elem_of_GetAll live max k : k ∈ GetAll live max ↔ k ∈ live ∧ k ≤ max;
}.
Class SeqParamsOk `{SeqParams} : Prop := { kMaxSequenceNumber_ok : 0 < kMaxSequenceNumber ≤ 2 ^ 56 }.

(** ** The system *)

Record ghost := mkGhost {
  commits : gmap Z Z;             (* prepare number to commit number *)
  pending : gset Z;               (* prepared and not yet removed *)
  mins : list Z;                  (* SmallestUnCommittedSeq of GetSnapshot calls *)
  taken : list (Z * Z);           (* snapshots ever taken, with min_uncommitted_ *)
  live : list Z;                  (* snapshots not released *)
  published : Z;                  (* LastPublishedSequence *)
  latest : Z;                     (* LatestSequenceNumber *)
  last_prep : Z;                  (* the last number prepared *)
  last_direct : Z;                (* the last commit of a write without prepare *)
  threw : bool;                   (* an AddCommitted call has thrown *)
}.

Definition sys : Type := WritePreparedTxnDB * ghost.

Section system.
Context `{WPConfigOk} `{SeqParamsOk} `{SnapshotListOk}.

Definition init_sys : sys := (Init, mkGhost ∅ ∅ [] [] [] 0 0 0 0 false).

Definition with_prepare (p : Z) (g : ghost) : ghost :=
  mkGhost (commits g) ({[p]} ∪ pending g) (mins g) (taken g) (live g)
    (published g) (latest g) p (last_direct g) (threw g).
Definition with_commit (p c d : Z) (g : ghost) : ghost :=
  mkGhost (<[p := c]> (commits g)) (pending g) (mins g) (taken g) (live g)
    (published g) (latest g) (last_prep g) d (threw g).
Definition with_published (n l : Z) (g : ghost) : ghost :=
  mkGhost (commits g) (pending g) (mins g) (taken g) (live g) n l
    (last_prep g) (last_direct g) (threw g).
Definition with_remove (p : Z) (g : ghost) : ghost :=
  mkGhost (commits g) (pending g ∖ {[p]}) (mins g) (taken g) (live g)
    (published g) (latest g) (last_prep g) (last_direct g) (threw g).
Definition with_min (m : Z) (g : ghost) : ghost :=
  mkGhost (commits g) (pending g) (m :: mins g) (taken g) (live g)
    (published g) (latest g) (last_prep g) (last_direct g) (threw g).
Definition with_snapshot (k m : Z) (g : ghost) : ghost :=
  mkGhost (commits g) (pending g) (mins g) ((k, m) :: taken g) (k :: live g)
    (published g) (latest g) (last_prep g) (last_direct g) (threw g).
Definition with_live (l : list Z) (g : ghost) : ghost :=
  mkGhost (commits g) (pending g) (mins g) (taken g) l
    (published g) (latest g) (last_prep g) (last_direct g) (threw g).
Definition with_throw (g : ghost) : ghost :=
  mkGhost (commits g) (pending g) (mins g) (taken g) (live g)
    (published g) (latest g) (last_prep g) (last_direct g) true.

(** The steps follow the order the write queues keep: sequence numbers are
    allocated in increasing order; a commit number is larger than what is
    published; a number leaves the prepared lists after its commit is
    published; LatestSequenceNumber passes a number only when it is in the
    prepared lists or its commit is published. A snapshot is taken in two
    steps, as GetSnapshotInternal does: [min_uncommitted] first, then, possibly
    after retries, a snapshot above future_max_evicted_seq_ (see
    [GetSnapshotInternal_above_max]). *)
Inductive step : sys → sys → Prop :=
  | step_prepare s g p :
      latest g < p → last_prep g < p → last_direct g < p → published g < p →
      p < kMaxSequenceNumber → commits g !! p = None →
      step (s, g) (AddPrepared p s, with_prepare p g)
  | step_commit s g p c s' :
      commits g !! p = None → p ∈ pending g → p ≤ c → published g < c → c < kMaxSequenceNumber →
      AddCommitted p c (published g) (GetAll (live g)) s = (s', true) →
      step (s, g) (s', with_commit p c (last_direct g) g)
  | step_write s g p c s' :
      commits g !! p = None → latest g < p → last_prep g < p → published g < p → p ≤ c →
      c < kMaxSequenceNumber →
      AddCommitted p c (published g) (GetAll (live g)) s = (s', true) →
      step (s, g) (s', with_commit p c (Z.max (last_direct g) c) g)
  | step_commit_throws s g p c s' :
      commits g !! p = None → p ≤ c → published g < c → c < kMaxSequenceNumber →
      AddCommitted p c (published g) (GetAll (live g)) s = (s', false) →
      step (s, g) (s', with_throw g)
  | step_publish s g n l :
      published g ≤ n → n < kMaxSequenceNumber → latest g ≤ l → l < kMaxSequenceNumber →
      (∀ p c, commits g !! p = Some c → p ≤ l → p ∈ pending g ∨ c ≤ n) →
      step (s, g) (s, with_published n l g)
  | step_remove s g p c :
      p ∈ pending g → commits g !! p = Some c → c ≤ published g →
      step (s, g) (RemovePrepared p 1 s, with_remove p g)
  | step_min_uncommitted s g :
      step (s, g) (s, with_min (SmallestUnCommittedSeq (latest g) s) g)
  | step_snapshot s g m :
      m ∈ mins g → published g = 0 ∨ future_max_evicted_seq_ s < published g →
      step (s, g) (s, with_snapshot (published g) m g)
  | step_release s g live' :
      (∀ k, k ∈ live' → k ∈ live g) → step (s, g) (s, with_live live' g).

Definition reachable (x : sys) : Prop := rtc step init_sys x.

(** ** Invariant *)

(** What keeps an entry known after the cache lost it. *)
Definition handled (p c : Z) (s : WritePreparedTxnDB) : Prop :=
  c ≤ max_evicted_seq_ s ∧
  (p ∈ delayed_prepared_ s → delayed_prepared_commits_ s !! p = Some c) ∧
  (∀ k, k ∈ snapshots_all_ s → p ≤ k < c → recorded p k s).

Definition cache_ok (s : WritePreparedTxnDB) (cm : gmap Z Z) : Prop :=
  ∀ idx rep, commit_cache_ s !! idx = Some rep →
    ∃ p c, idx = p mod COMMIT_CACHE_SIZE ∧
      CommitEntry64b_Parse rep idx FORMAT = Some (mkEntry p c) ∧ cm !! p = Some c.

Record inv_core (s : WritePreparedTxnDB) (g : ghost) : Prop := {
  i_heap : heap_inv (prepared_txns_ s);
  i_pending : ∀ p, p ∈ pending g ↔ p ∈ contents (prepared_txns_ s) ∨ p ∈ delayed_prepared_ s;
  i_heap_hi : ∀ p, p ∈ heap_ (prepared_txns_ s) → p ≤ last_prep g;
  i_delayed_lt : ∀ d p, d ∈ delayed_prepared_ s → p ∈ heap_ (prepared_txns_ s) → d < p;
  i_heap_max : ∀ p, p ∈ contents (prepared_txns_ s) → max_evicted_seq_ s < p;
  i_empty : delayed_prepared_empty_ s = bool_decide (delayed_prepared_ s = ∅);
  i_future : future_max_evicted_seq_ s = max_evicted_seq_ s;
  i_version : snapshots_version_ s = max_evicted_seq_ s;
  i_inc : 0 ≤ INC_STEP_FOR_MAX_EVICTED s < 2 ^ 62;
  i_cache : cache_ok s (commits g);
  i_evicted : ∀ p c, commits g !! p = Some c → cached_commit p s = None → handled p c s;
  i_delayed_commits : ∀ p c, delayed_prepared_commits_ s !! p = Some c → commits g !! p = Some c;
  i_keys : ∀ k, is_Some (old_commit_map_ s !! k) ↔ k ∈ snapshots_all_ s;
  i_vec : ∀ k vec, old_commit_map_ s !! k = Some vec →
    sorted vec ∧ ∀ p, p ∈ vec → ∃ c, commits g !! p = Some c ∧ p ≤ k < c ∧ c ≤ max_evicted_seq_ s;
  i_flag : flag_ok s;
  i_lists : snap_lists_ok s;
  i_all : ∀ k, k ∈ snapshots_all_ s → k ≤ max_evicted_seq_ s ∧ k ≤ published g;
  i_delayed_max : ∀ p, p ∈ delayed_prepared_ s → p ≤ max_evicted_seq_ s;
  i_mins : ∀ m, m ∈ mins g → ∀ p, p < m → p ∈ pending g ∨ is_Some (commits g !! p) →
    ∃ c, commits g !! p = Some c ∧ (c ≤ published g ∨ c ≤ max_evicted_seq_ s);
  i_live : ∀ k, k ∈ live g → k ∈ snapshots_all_ s ∨
    (max_evicted_seq_ s < k ∨ k = 0) ∧ ∀ y, y ∈ snapshots_all_ s → y ≤ k;
}.

Record inv_ghost (g : ghost) : Prop := {
  g_bounds : 0 ≤ published g < kMaxSequenceNumber ∧ 0 ≤ latest g < kMaxSequenceNumber ∧
    last_prep g < kMaxSequenceNumber;
  g_commits : ∀ p c, commits g !! p = Some c → 1 ≤ p ≤ c ∧ c < kMaxSequenceNumber;
  g_pending : ∀ p, p ∈ pending g → 1 ≤ p ≤ last_prep g;
  g_live : ∀ k, k ∈ live g → 0 ≤ k ≤ published g;
  g_latest : ∀ p c, commits g !! p = Some c → p ≤ latest g → p ∈ pending g ∨ c ≤ published g;
  g_direct : ∀ p c, commits g !! p = Some c → p ∉ pending g →
    c ≤ published g ∨ c ≤ last_direct g ∧ ∀ q, q ∈ pending g → c < q ∨ q < p;
  g_mins : ∀ m, m ∈ mins g → m ≤ Z.max (latest g) (last_prep g) + 1;
  g_taken : ∀ k m, (k, m) ∈ taken g → 0 ≤ k ≤ published g ∧
    m ≤ Z.max (latest g) (last_prep g) + 1 ∧
    ∀ p, p < m → p ≤ k → p ∈ pending g ∨ is_Some (commits g !! p) →
      ∃ c, commits g !! p = Some c ∧ c ≤ k;
  g_live_taken : ∀ k, k ∈ live g → ∃ m, (k, m) ∈ taken g;
}.

Definition inv (x : sys) : Prop := inv_core (fst x) (snd x) ∧ inv_ghost (snd x).

(** ** The cache and its entries *)

Lemma cached_commit_lookup p s :
  cached_commit p s =
    match CommitEntry64b_Parse (default 0 (commit_cache_ s !! (p mod COMMIT_CACHE_SIZE)))
            (p mod COMMIT_CACHE_SIZE) FORMAT with
    | Some e => if p =? prep_seq e then Some (commit_seq e) else None
    | None => None
    end.
Proof. done. Qed.

Lemma cached_commit_sound s cm p c : cache_ok s cm → cached_commit p s = Some c → cm !! p = Some c.
Proof.
  intros Hc. rewrite cached_commit_lookup.
  destruct (commit_cache_ s !! _) as [rep|] eqn:E.
  - destruct (Hc _ _ E) as (q & c' & _ & Hp & Hq). cbn [from_option id]. rewrite Hp. simpl.
    destruct (Z.eqb_spec p q) as [->|]; [|done]. by intros [= ->].
  - cbn [from_option id]. by rewrite parse_empty.
Qed.

Lemma parsed_committed s cm idx q d :
  cache_ok s cm →
  CommitEntry64b_Parse (default 0 (commit_cache_ s !! idx)) idx FORMAT = Some (mkEntry q d) →
  cm !! q = Some d.
Proof.
  intros Hc E. destruct (commit_cache_ s !! idx) as [r|] eqn:Er; cbn [from_option id] in E;
    [|by rewrite parse_empty in E].
  destruct (Hc _ _ Er) as (q' & d' & _ & Hp' & Hq'). rewrite E in Hp'. by injection Hp' as <- <-.
Qed.

Lemma parsed_slot s cm idx q d :
  cache_ok s cm →
  CommitEntry64b_Parse (default 0 (commit_cache_ s !! idx)) idx FORMAT = Some (mkEntry q d) →
  q mod COMMIT_CACHE_SIZE = idx.
Proof.
  intros Hc E. destruct (commit_cache_ s !! idx) as [r|] eqn:Er; cbn [from_option id] in E;
    [|by rewrite parse_empty in E].
  destruct (Hc _ _ Er) as (q' & d' & -> & Hp' & _). rewrite E in Hp'. by injection Hp' as <- <-.
Qed.

Lemma cached_commit_cache p s s' : commit_cache_ s' = commit_cache_ s → cached_commit p s' = cached_commit p s.
Proof. intros Hc. by rewrite !cached_commit_lookup, Hc. Qed.

(** The cache after a slot was written. *)
Lemma cached_commit_insert p c rep q s s' :
  CommitEntry64b_Parse rep (p mod COMMIT_CACHE_SIZE) FORMAT = Some (mkEntry p c) →
  commit_cache_ s' = <[p mod COMMIT_CACHE_SIZE := rep]> (commit_cache_ s) →
  cached_commit q s' =
    if decide (q = p) then Some c
    else if decide (q mod COMMIT_CACHE_SIZE = p mod COMMIT_CACHE_SIZE) then None
    else cached_commit q s.
Proof.
  intros Hp Hc. rewrite !cached_commit_lookup, Hc. destruct (decide (q = p)) as [->|Hne].
  - rewrite lookup_insert_eq. cbn [from_option id]. rewrite Hp. simpl. by rewrite Z.eqb_refl.
  - destruct (decide _) as [->|Hslot]; [|by rewrite lookup_insert_ne by done].
    rewrite lookup_insert_eq. cbn [from_option id]. rewrite Hp. simpl.
    by destruct (Z.eqb_spec q p).
Qed.

(** ** Evicting an entry *)

Lemma seq_in_range p : 1 ≤ p < kMaxSequenceNumber → in_range 56 p.
Proof. pose proof kMaxSequenceNumber_ok. unfold in_range. lia. Qed.

Lemma new_max_bounds c last inc :
  1 ≤ c < kMaxSequenceNumber → 0 ≤ last < kMaxSequenceNumber → 0 ≤ inc < 2 ^ 62 →
  c ≤ (if c <? last then Z.min (u64 (c + inc)) (u64 (last - 1)) else c).
Proof.
  pose proof kMaxSequenceNumber_ok. intros Hc Hl Hi. destruct (Z.ltb_spec c last); [|lia].
  rewrite !wrap_small by (unfold in_range; lia). lia.
Qed.

(** The numbers the map of old commits records for a snapshot. *)
Definition old_at (k : Z) (s : WritePreparedTxnDB) : list Z := default [] (old_commit_map_ s !! k).

Lemma elem_of_old_at k x s : x ∈ old_at k s ↔ recorded x k s.
Proof. unfold old_at, recorded. destruct (old_commit_map_ s !! k); simpl; set_solver. Qed.

Lemma old_step_sound p c S s s' k x :
  old_step p c S s s' → x ∈ old_at k s' → x ∈ old_at k s ∨ x = p.
Proof.
  intros (m & f & -> & Hg & _) (vec & Hk & Hx)%elem_of_old_at.
  destruct (grows_sound _ _ _ _ _ Hg _ _ _ Hk Hx) as [|[? _]]; auto.
Qed.

(** An advance keeps the invariant. *)
Lemma advance_inv s g new_max s' :
  inv_core s g → inv_ghost g → max_evicted_seq_ s < new_max →
  s' = AdvanceMaxEvictedSeq (max_evicted_seq_ s) new_max (GetAll (live g)) s →
  inv_core s' g ∧ max_evicted_seq_ s' = new_max ∧ commit_cache_ s' = commit_cache_ s ∧
  ∀ k x, x ∈ old_at k s' → x ∈ old_at k s.
Proof.
  intros I G Hlt ->.
  destruct (advance_spec (max_evicted_seq_ s) new_max (GetAll (live g)) s) as [];
    [apply I|apply I|apply GetAll_sorted|done|apply I|apply I|done| |apply I|].
  { intros x Hx. apply elem_of_GetAll in Hx as [Hx _].
    destruct (i_live _ _ I x Hx) as [|[_ ?]]; auto. }
  set (s' := AdvanceMaxEvictedSeq _ _ _ s) in *. clearbody s'.
  assert (∀ p, p ∈ delayed_prepared_ s' → max_evicted_seq_ s < p ∨ p ∈ delayed_prepared_ s) as Hd.
  { intros p Hp. apply av_delayed in Hp as [|[Hp _]]; [by right|].
    left. by apply (i_heap_max _ _ I). }
  split; [|split_and!; [done|done|]].
  2: { intros k x. unfold old_at. destruct (decide (k ∈ GetAll (live g) new_max)) as [Hin|Hnin].
       - by rewrite av_live.
       - rewrite av_dead by done. by destruct (decide _); [intros ?%not_elem_of_nil|]. }
  split; try done; try congruence.
  - intros p. rewrite (i_pending _ _ I), av_contents, av_delayed.
    destruct (Z.le_gt_cases p new_max); tauto.
  - intros p Hp. by apply (i_heap_hi _ _ I), av_heap_sub.
  - intros d p Hd' Hp. apply av_delayed in Hd' as [Hd'|[Hd' Hle]]; [|by eapply av_heap_lt].
    by apply (i_delayed_lt _ _ I); [|apply av_heap_sub].
  - intros p Hp. apply av_contents in Hp as [_ Hp]. lia.
  - destruct av_empty as [[-> ->]|[-> Hne]]; [apply I|]. by rewrite bool_decide_eq_false_2.
  - rewrite av_inc. apply I.
  - unfold cache_ok. rewrite av_cache. apply I.
  - intros p c Hp Hc. rewrite (cached_commit_cache p s) in Hc by done.
    destruct (i_evicted _ _ I p c Hp Hc) as (Hm & Hdc & Hrec).
    pose proof (g_commits _ G p c Hp). split_and!; [lia| |].
    + intros Hin. rewrite av_commits. destruct (Hd p Hin); [lia|auto].
    + intros k Hk Hr. rewrite av_all in Hk. unfold recorded. rewrite (av_live k Hk).
      apply elem_of_GetAll in Hk as [Hk _].
      destruct (i_live _ _ I k Hk) as [Hall|[[?|?] _]]; [|lia|lia].
      destruct (Hrec k Hall Hr) as (vec & Hv & Hpv). rewrite Hv. eauto.
  - intros p c. rewrite av_commits. apply I.
  - intros k. rewrite av_all. destruct (decide (k ∈ GetAll (live g) new_max)) as [Hin|Hnin].
    + rewrite av_live by done. split; [done|eauto].
    + rewrite av_dead by done. split; [|done]. destruct (decide _) as [|Hn]; [by intros [? ?]|].
      intros Hk. by apply (i_keys _ _ I) in Hk.
  - intros k vec. destruct (decide (k ∈ GetAll (live g) new_max)) as [Hin|Hnin].
    + rewrite av_live by done. intros [= <-].
      destruct (old_commit_map_ s !! k) as [vec|] eqn:E; [|split; [constructor|set_solver]].
      destruct (i_vec _ _ I k vec E) as [? Hv]. split; [done|]. intros p Hp.
      destruct (Hv p Hp) as (c & ? & ? & ?). exists c. split_and!; [done|lia|lia|lia].
    + rewrite av_dead by done. destruct (decide _); [done|]. intros E.
      destruct (i_vec _ _ I k vec E) as [? Hv]. split; [done|]. intros p Hp.
      destruct (Hv p Hp) as (c & ? & ? & ?). exists c. split_and!; [done|lia|lia|lia].
  - by apply av_flag, I.
  - intros k. rewrite av_all, av_max, elem_of_GetAll. intros [Hk Hle]. split; [done|].
    by apply (g_live _ G).
  - intros p Hp. apply av_delayed in Hp as [Hp|[_ Hp]]; [apply (i_delayed_max _ _ I) in Hp|]; lia.
  - intros m Hm p Hpm Hin. destruct (i_mins _ _ I m Hm p Hpm Hin) as (c & ? & ?). exists c. split; [done|lia].
  - intros k Hk. rewrite av_all, av_max, elem_of_GetAll.
    destruct (Z.le_gt_cases k new_max); [by left|]. right. split; [by left; lia|].
    intros y. rewrite elem_of_GetAll. lia.
Qed.

(** Recording an entry for the live snapshots keeps the invariant. *)
Lemma old_step_inv s g p c s' :
  inv_core s g → commits g !! p = Some c → c ≤ max_evicted_seq_ s →
  old_step p c (λ k, k ∈ snapshots_all_ s) s s' → inv_core s' g.
Proof.
  intros I Hp Hcm (m & f & -> & Hg & Hf). split; try apply I.
  - intros q d Hq Hc. destruct (i_evicted _ _ I q d Hq Hc) as (Hm & Hd & Hrec).
    split_and!; [done|done|]. intros k Hk Hr.
    destruct (Hrec k Hk Hr) as (vec & Hv & Hin).
    destruct (grows_keep _ _ _ _ _ Hg _ _ Hv) as (v & Hv' & Hsub). exists v. auto.
  - intros k. change (is_Some (m !! k) ↔ k ∈ snapshots_all_ s). split.
    + intros Hk. destruct (grows_keys _ _ _ _ _ Hg _ Hk) as [Hk'|]; [|done]. by apply (i_keys _ _ I).
    + intros Hk. apply (i_keys _ _ I) in Hk as [v Hv].
      destruct (grows_keep _ _ _ _ _ Hg _ _ Hv) as (v' & Hv' & _). eauto.
  - intros k vec Hk. change (m !! k = Some vec) in Hk. split.
    + apply (grows_sorted _ _ _ _ _ Hg _ _ Hk).
      destruct (old_commit_map_ s !! k) eqn:E; [by apply (i_vec _ _ I k)|constructor].
    + intros q Hq. destruct (grows_sound _ _ _ _ _ Hg _ _ _ Hk Hq) as [Hin|[-> Hr]].
      * destruct (old_commit_map_ s !! k) eqn:E; [|set_solver].
        destruct (i_vec _ _ I k _ E) as [_ Hv]. auto.
      * by exists c.
  - intros E. change (f = true) in E. destruct (Hf E) as [E' ->]. by apply (i_flag _ _ I).
  - destruct (i_lists _ _ I); by split.
Qed.

Lemma evict_inv s g p c s' :
  inv_core s g → inv_ghost g → commits g !! p = Some c →
  s' = evict_entry (mkEntry p c) (published g) (GetAll (live g)) s →
  inv_core s' g ∧ handled p c s' ∧ commit_cache_ s' = commit_cache_ s ∧
    max_evicted_seq_ s ≤ max_evicted_seq_ s' ∧ ∀ k x, x ∈ old_at k s' → x ∈ old_at k s ∨ x = p.
Proof.
  intros I G Hp ->. unfold evict_entry. cbn [commit_seq prep_seq].
  pose proof (g_commits _ G p c Hp) as Hb. pose proof (g_bounds _ G) as Hgb.
  set (new_max := if c <? published g then _ else _).
  assert (c ≤ new_max) as Hnew by (apply new_max_bounds; [lia|lia|apply I]).
  set (s1 := if max_evicted_seq_ s <? c then _ else _).
  assert (inv_core s1 g ∧ c ≤ max_evicted_seq_ s1 ∧ max_evicted_seq_ s ≤ max_evicted_seq_ s1 ∧
          commit_cache_ s1 = commit_cache_ s ∧ ∀ k x, x ∈ old_at k s1 → x ∈ old_at k s)
    as (I1 & Hm1 & Hm1' & Hc1 & Ho1).
  { subst s1. destruct (Z.ltb_spec (max_evicted_seq_ s) c) as [Hlt|Hge]; [|split_and!; done || lia].
    destruct (advance_inv s g new_max _ I G ltac:(lia) eq_refl) as (? & Hmax & ? & ?).
    rewrite Hmax. split_and!; done || lia. }
  clearbody s1 new_max.
  destruct (check_against_spec (mkEntry p c) s1 (i_lists _ _ I1)) as [Hstep Hrec].
  cbn [commit_seq prep_seq] in *. set (s2 := CheckAgainstSnapshots _ s1) in *.
  pose proof (old_step_inv _ _ _ _ _ I1 Hp Hm1 Hstep) as I2.
  assert (∀ k x, x ∈ old_at k s2 → x ∈ old_at k s ∨ x = p) as Ho2.
  { intros k x Hx. destruct (old_step_sound _ _ _ _ _ _ _ Hstep Hx) as [|]; [left|right]; auto. }
  assert (max_evicted_seq_ s2 = max_evicted_seq_ s1 ∧ commit_cache_ s2 = commit_cache_ s1 ∧
          snapshots_all_ s2 = snapshots_all_ s1) as (Hm2 & Hc2 & Ha2)
    by (destruct Hstep as (m & f & -> & _); done).
  clearbody s2. rewrite <- Ha2 in Hrec.
  assert (∀ d, (p ∈ delayed_prepared_ s2 → d !! p = Some c) →
    (∀ q x, d !! q = Some x → delayed_prepared_commits_ s2 !! q = Some x ∨ q = p ∧ x = c) →
    (∀ q x, q ≠ p → delayed_prepared_commits_ s2 !! q = Some x → d !! q = Some x) →
    inv_core (set_delayed_commits d s2) g ∧ handled p c (set_delayed_commits d s2)) as Hfin.
  { intros d Hd1 Hd2 Hd3. split; [|split_and!; [change (c ≤ max_evicted_seq_ s2); lia|exact Hd1|exact Hrec]].
    split; try apply I2.
    - intros q x Hq Hc. destruct (i_evicted _ _ I2 q x Hq Hc) as (Hqm & Hqd & Hqr).
      split_and!; [done| |done]. intros Hin. specialize (Hqd Hin).
      change (d !! q = Some x). destruct (decide (q = p)) as [->|]; [|auto].
      rewrite Hp in Hq. injection Hq as <-. auto.
    - intros q x Hq. destruct (Hd2 q x Hq) as [|[-> ->]]; [by apply (i_delayed_commits _ _ I2)|done].
    - destruct (i_lists _ _ I2); by split. }
  rewrite (i_empty _ _ I2). case_bool_decide as E1; simpl.
  { destruct (Hfin (delayed_prepared_commits_ s2)) as [? ?]; [set_solver|auto|auto|].
    split_and!; [done|done|congruence|change (max_evicted_seq_ s ≤ max_evicted_seq_ s2); lia|exact Ho2]. }
  case_bool_decide as E2.
  - destruct (Hfin (<[p:=c]> (delayed_prepared_commits_ s2))) as [? ?].
    + intros _. apply lookup_insert_eq.
    + intros q x Hx. apply lookup_insert_Some in Hx as [[<- <-]|[? ?]]; auto.
    + intros q x Hq. by rewrite lookup_insert_ne by done.
    + split_and!; [done|done|change (commit_cache_ s2 = commit_cache_ s); congruence|
        change (max_evicted_seq_ s ≤ max_evicted_seq_ s2); lia|exact Ho2].
  - destruct (Hfin (delayed_prepared_commits_ s2)) as [? ?]; [done|auto|auto|].
    split_and!; [done|done|congruence|change (max_evicted_seq_ s ≤ max_evicted_seq_ s2); lia|exact Ho2].
Qed.

(** ** Each step *)

(** Writing the slot: the entry that was there is handled, the new one cached. *)
Lemma write_slot_inv s g p c d0 rep :
  inv_core s g → commits g !! p = None → (∀ m, m ∈ mins g → p < m → p ∈ pending g) →
  CommitEntry64b_Parse rep (p mod COMMIT_CACHE_SIZE) FORMAT = Some (mkEntry p c) →
  (∀ q d, cached_commit q s = Some d → q mod COMMIT_CACHE_SIZE = p mod COMMIT_CACHE_SIZE →
     handled q d s) →
  inv_core (set_commit_cache (<[p mod COMMIT_CACHE_SIZE := rep]> (commit_cache_ s)) s) (with_commit p c d0 g).
Proof.
  intros I Hnone Hfresh Hparse Hev. set (s' := set_commit_cache _ s).
  assert (commit_cache_ s' = <[p mod COMMIT_CACHE_SIZE := rep]> (commit_cache_ s)) as Hcc by done.
  assert (∀ q d, commits g !! q = Some d → commits (with_commit p c d0 g) !! q = Some d) as Hmono.
  { intros q d Hq. simpl. rewrite lookup_insert_ne; [done|congruence]. }
  split; try apply I.
  - intros idx r. change (commit_cache_ s') with (<[p mod COMMIT_CACHE_SIZE := rep]> (commit_cache_ s)).
    rewrite lookup_insert_Some. intros [[<- <-]|[Hne Hr]].
    + exists p, c. split_and!; [done|done|apply lookup_insert_eq].
    + destruct (i_cache _ _ I _ _ Hr) as (q & d & ? & ? & Hq). exists q, d. auto.
  - intros q d Hq. rewrite (cached_commit_insert p c rep q s s') by done. simpl in Hq.
    destruct (decide (q = p)) as [->|Hne]; [done|]. rewrite lookup_insert_ne in Hq by done.
    destruct (decide _) as [Hslot|Hslot]; [|by apply (i_evicted _ _ I)]. intros _.
    destruct (cached_commit q s) as [d'|] eqn:E; [|by apply (i_evicted _ _ I)].
    pose proof (cached_commit_sound _ _ _ _ (i_cache _ _ I) E) as Hd'.
    rewrite Hq in Hd'. injection Hd' as <-. by apply Hev.
  - intros q d Hq. apply Hmono. by apply (i_delayed_commits _ _ I).
  - intros k vec Hk. destruct (i_vec _ _ I k vec Hk) as [? Hv]. split; [done|].
    intros q Hq. destruct (Hv q Hq) as (d & ? & ? & ?). exists d. auto.
  - destruct (i_lists _ _ I); by split.
  - intros m Hm q Hqm Hin. simpl in Hin.
    assert (q ∈ pending g ∨ is_Some (commits g !! q)) as Hin'.
    { destruct Hin as [|Hin]; [by left|]. destruct (decide (q = p)) as [->|Hne]; [left; by eapply Hfresh|].
      right. by rewrite lookup_insert_ne in Hin. }
    destruct (i_mins _ _ I m Hm q Hqm Hin') as (d & ? & ?). exists d. auto.
Qed.

(** Numbers other than [p] that the cache does not hold stay out of it, and
    the largest evicted number does not go back. *)
Definition keeps (p : Z) (s s' : WritePreparedTxnDB) : Prop :=
  max_evicted_seq_ s ≤ max_evicted_seq_ s' ∧
  ∀ q, q ≠ p → cached_commit q s = None → cached_commit q s' = None.

Lemma add_committed_exchange s g p c s' b :
  inv_core s g → inv_ghost g →
  AddCommitted p c (published g) (GetAll (live g)) s = (s', b) →
  ∃ s1, match CommitEntry64b_encode p c FORMAT with
        | None => s' = s1 ∧ b = false
        | Some rep => s' = set_commit_cache (<[p mod COMMIT_CACHE_SIZE := rep]> (commit_cache_ s1)) s1 ∧
                      b = true
        end.
Proof.
  intros I G. unfold AddCommitted. cbn [add_committed_loop]. unfold GetCommitEntry.
  set (idx := p mod COMMIT_CACHE_SIZE). set (old := default 0 (commit_cache_ s !! idx)).
  set (s1 := match CommitEntry64b_Parse old idx FORMAT with Some _ => _ | None => s end).
  assert (commit_cache_ s1 = commit_cache_ s) as Hc1.
  { subst s1. destruct (CommitEntry64b_Parse old idx FORMAT) as [[q d]|] eqn:E; [|done].
    destruct (evict_inv s g q d _ I G (parsed_committed _ _ _ _ _ (i_cache _ _ I) E) eq_refl)
      as (_ & _ & ? & _ & _). done. }
  clearbody s1. unfold ExchangeCommitEntry. cbn [prep_seq commit_seq]. rewrite Hc1.
  fold old. rewrite Z.eqb_refl. exists s1. rewrite Hc1.
  by destruct (CommitEntry64b_encode p c FORMAT); simplify_eq.
Qed.

Lemma add_committed_inv s g p c d0 s' b :
  inv_core s g → inv_ghost g → commits g !! p = None → p ≤ c → published g < c →
  c < kMaxSequenceNumber →
  AddCommitted p c (published g) (GetAll (live g)) s = (s', b) →
  b = false ∧ inv_core s' g ∧ keeps p s s' ∨ b = true ∧
    (1 ≤ p → (∀ m, m ∈ mins g → p < m → p ∈ pending g) →
     inv_core s' (with_commit p c d0 g) ∧ keeps p s s' ∧
     ∀ k x, x ∈ old_at k s' → x ∈ old_at k s ∨ cached_commit x s' = None).
Proof.
  intros I G Hnone Hpc Hpub Hmax. unfold AddCommitted. cbn [add_committed_loop].
  unfold GetCommitEntry. set (idx := p mod COMMIT_CACHE_SIZE).
  set (old := default 0 (commit_cache_ s !! idx)).
  set (s1 := match CommitEntry64b_Parse old idx FORMAT with Some _ => _ | None => s end).
  assert (inv_core s1 g ∧ commit_cache_ s1 = commit_cache_ s ∧
    (∀ q d, cached_commit q s1 = Some d → q mod COMMIT_CACHE_SIZE = idx → handled q d s1) ∧
    max_evicted_seq_ s ≤ max_evicted_seq_ s1 ∧
    (∀ k x, x ∈ old_at k s1 → x ∈ old_at k s ∨ x ≠ p ∧ x mod COMMIT_CACHE_SIZE = idx))
    as (I1 & Hc1 & Hev & Hm1 & Ho1).
  { subst s1. destruct (CommitEntry64b_Parse old idx FORMAT) as [[q d]|] eqn:E.
    - pose proof (parsed_committed _ _ _ _ _ (i_cache _ _ I) E) as Hq.
      destruct (evict_inv s g q d _ I G Hq eq_refl) as (I1 & Hh & Hc & Hm & Ho).
      split_and!; [done|done| |done|].
      2: { intros k x Hx. destruct (Ho k x Hx) as [|Hxq]; [by left|]. rewrite Hxq. right. split; [congruence|].
           by eapply parsed_slot; [apply I|]. }
      intros q' d'. rewrite (cached_commit_cache _ s) by done. rewrite cached_commit_lookup.
      intros Hc' Hidx. rewrite Hidx in Hc'. fold old in Hc'. rewrite E in Hc'. simpl in Hc'.
      destruct (Z.eqb_spec q' q) as [->|]; [|done]. by injection Hc' as <-.
    - split_and!; [done|done| |lia|by left]. intros q' d'. rewrite cached_commit_lookup.
      intros Hc' Hidx. rewrite Hidx in Hc'. fold old in Hc'. by rewrite E in Hc'. }
  clearbody s1. unfold ExchangeCommitEntry. cbn [prep_seq commit_seq]. rewrite Hc1.
  fold old. rewrite Z.eqb_refl.
  destruct (CommitEntry64b_encode p c FORMAT) as [rep|] eqn:Henc; intros [= <- <-]; [right|left].
  2: { split_and!; [done|done|]. split; [done|]. intros q _. by rewrite (cached_commit_cache q s s1). }
  split; [done|]. intros Hp Hfresh. rewrite <- Hc1. pose proof kMaxSequenceNumber_ok.
  assert (CommitEntry64b_Parse rep idx FORMAT = Some (mkEntry p c)) as Hparse.
  { apply encode_parse; [apply seq_in_range; lia|lia|done]. }
  split; [by apply write_slot_inv|]. split; [split; [done|]|].
  - intros q Hne Hq. rewrite (cached_commit_insert p c rep q s1) by done. rewrite decide_False by done.
    destruct (decide _); [done|]. by rewrite (cached_commit_cache q s).
  - intros k x Hx. destruct (Ho1 k x Hx) as [|[Hne Hslot]]; [by left|]. right.
    rewrite (cached_commit_insert p c rep x s1) by done. by rewrite decide_False, decide_True.
Qed.

(** A number not yet in the system is beyond the recorded [min_uncommitted_]. *)
Lemma fresh_beyond g m p :
  m ≤ Z.max (latest g) (last_prep g) + 1 → latest g < p → last_prep g < p → m ≤ p.
Proof. lia. Qed.

Lemma with_commit_ghost p c d0 g :
  inv_ghost g → commits g !! p = None →
  p ∈ pending g ∧ d0 = last_direct g ∨
    (latest g < p ∧ last_prep g < p ∧ published g < p) ∧ d0 = Z.max (last_direct g) c →
  p ≤ c → published g < c → c < kMaxSequenceNumber → inv_ghost (with_commit p c d0 g).
Proof.
  intros G Hnone Hp Hpc Hpub Hmax. pose proof (g_bounds _ G).
  assert (1 ≤ p) as Hp1 by (destruct Hp as [[Hp _]|Hp]; [apply (g_pending _ G) in Hp|]; lia).
  split; simpl; try apply G.
  - intros q d Hq. apply lookup_insert_Some in Hq as [[<- <-]|[_ Hq]]; [lia|by apply (g_commits _ G)].
  - intros q d Hq Hle. apply lookup_insert_Some in Hq as [[<- <-]|[_ Hq]]; [|by apply (g_latest _ G)].
    destruct Hp as [[? _]|[Hp _]]; [by left|lia].
  - intros q d Hq Hnp. apply lookup_insert_Some in Hq as [[<- <-]|[_ Hq]].
    + destruct Hp as [[? _]|[Hp ->]]; [done|]. right. split; [lia|].
      intros q Hq. right. apply (g_pending _ G) in Hq. lia.
    + destruct (g_direct _ G q d Hq Hnp) as [|[? ?]]; [by left|]. right. split; [|done].
      destruct Hp as [[_ ->]|[_ ->]]; lia.
  - intros k m Hm. destruct (g_taken _ G k m Hm) as (? & ? & Hold). split_and!; [lia|lia|done|].
    intros q Hq Hqk Hin. destruct (decide (q = p)) as [->|Hne].
    + destruct Hp as [[Hp _]|[Hp _]]; [|lia].
      destruct (Hold p Hq Hqk (or_introl Hp)) as (d & Hd & _). congruence.
    + rewrite lookup_insert_ne in * by done. auto.
Qed.

Lemma init_inv : inv init_sys.
Proof.
  pose proof kMaxSequenceNumber_ok. pose proof commit_bits_ok.
  destruct empty_heap_inv as [Hh Hc]. split.
  - split; try done.
    + intros p. change (p ∈ (∅ : gset Z) ↔ p ∈ contents empty_heap ∨ p ∈ (∅ : gset Z)).
      rewrite Hc. set_solver.
    + intros p Hp. by apply not_elem_of_nil in Hp.
    + change (0 ≤ Z.max (COMMIT_CACHE_SIZE / 100) 1 < 2 ^ 62). rewrite COMMIT_CACHE_SIZE_pow.
      assert (2 ^ COMMIT_CACHE_BITS < 2 ^ 56) by (apply Z.pow_lt_mono_r; lia).
      assert (2 ^ COMMIT_CACHE_BITS / 100 ≤ 2 ^ COMMIT_CACHE_BITS)
        by (apply Z.div_le_upper_bound; [lia|]; assert (0 < 2 ^ COMMIT_CACHE_BITS) by (apply Z.pow_pos_nonneg; lia); lia).
      lia.
    + intros k. split; [by intros [? ?]|]. intros Hk. by apply not_elem_of_nil in Hk.
    + split; simpl; try done.
      * constructor.
      * rewrite length_replicate, Z2Nat.id; [done|]. pose proof SNAPSHOT_CACHE_SIZE_pos. lia.
      * by rewrite drop_nil.
    + intros k Hk. by apply not_elem_of_nil in Hk.
    + intros k Hk. by apply not_elem_of_nil in Hk.
    + intros k Hk. by apply not_elem_of_nil in Hk.
  - split; simpl; try done; try lia; try (intros ? Hk; by apply not_elem_of_nil in Hk);
    intros ? ? Hk; by apply not_elem_of_nil in Hk.
Qed.

Lemma add_prepared_frame p s :
  heap_inv (prepared_txns_ s) → (∀ x, x ∈ heap_ (prepared_txns_ s) → x < p) →
  p < kMaxSequenceNumber →
  ∃ h d f, AddPrepared p s = set_prepared_txns h (set_delayed_prepared d (set_delayed_empty f s)).
Proof.
  intros Hh Hlt Hmax. destruct (heap_push_spec p (prepared_txns_ s) Hh Hlt Hmax) as [Hh' _].
  unfold AddPrepared. set (s1 := set_prepared_txns _ s). destruct (p <=? _).
  - destruct (check_prepared_spec (future_max_evicted_seq_ s1) s1 Hh') as (h & d & f & -> & _).
    by exists h, d, f.
  - by exists (heap_push p (prepared_txns_ s)), (delayed_prepared_ s), (delayed_prepared_empty_ s).
Qed.

Lemma prepare_inv s g p :
  inv (s, g) → latest g < p → last_prep g < p → last_direct g < p → published g < p → p < kMaxSequenceNumber →
  commits g !! p = None → inv (AddPrepared p s, with_prepare p g).
Proof.
  intros [I G] Hl Hlp Hld Hpub Hmax Hnone. simpl in I, G. pose proof (g_bounds _ G).
  destruct (heap_push_spec p (prepared_txns_ s)) as [Hh Hc]; [apply I| |done|].
  { intros x Hx. apply (i_heap_hi _ _ I) in Hx. lia. }
  split; simpl.
  2: { split; simpl; try apply G; try lia.
       - intros q. rewrite elem_of_union, elem_of_singleton. intros [->|Hq]; [lia|].
         apply (g_pending _ G) in Hq. lia.
       - intros q d Hq Hle. destruct (g_latest _ G q d Hq Hle); [left; set_solver|by right].
       - intros q d Hq Hnp. rewrite elem_of_union, elem_of_singleton in Hnp.
         destruct (g_direct _ G q d Hq) as [|[? Hlt]]; [tauto|by left|]. right. split; [done|].
         intros x. rewrite elem_of_union, elem_of_singleton. intros [->|Hx]; [left; lia|auto].
       - intros m Hm. pose proof (g_mins _ G m Hm). lia.
       - intros k m Hm. destruct (g_taken _ G k m Hm) as (? & ? & Hold). split_and!; [lia|lia|lia|].
         intros q Hq Hqk Hin. apply Hold; [done|done|]. rewrite elem_of_union, elem_of_singleton in Hin.
         destruct Hin as [[->|Hin]|]; [lia|by left|by right]. }
  set (s1 := set_prepared_txns (heap_push p (prepared_txns_ s)) s).
  assert (∃ h d f, AddPrepared p s = set_prepared_txns h (set_delayed_prepared d (set_delayed_empty f s)) ∧
    heap_inv h ∧ (∀ x, x ∈ contents h → max_evicted_seq_ s < x) ∧
    (∀ x, x ∈ contents h ∨ x ∈ d ↔ x = p ∨ x ∈ pending g) ∧
    (∀ x, x ∈ d → x = p ∨ x ∈ delayed_prepared_ s) ∧
    (∀ x, x ∈ heap_ h → x = p ∨ x ∈ heap_ (prepared_txns_ s)) ∧
    (∀ x y, x ∈ d → y ∈ heap_ h → x < y) ∧ f = bool_decide (d = ∅) ∧
    (∀ x, x ∈ d → x ≤ max_evicted_seq_ s)) as
    (h & d & f & -> & Hhi & Hhm & Hun & Hd & Hhe & Hlt & Hf & Hdm).
  { unfold AddPrepared. fold s1. change (future_max_evicted_seq_ s1) with (future_max_evicted_seq_ s).
    rewrite (i_future _ _ I).
    assert (∀ x y, x ∈ delayed_prepared_ s → y ∈ heap_ (heap_push p (prepared_txns_ s)) → x < y) as Hdl.
    { intros x y Hx Hy. simpl in Hy. apply elem_of_app in Hy as [Hy|Hy]; [by apply (i_delayed_lt _ _ I)|].
      apply list_elem_of_singleton in Hy as ->.
      assert (x ∈ pending g) as Hxp by (apply (i_pending _ _ I); by right).
      apply (g_pending _ G) in Hxp. lia. }
    assert (∀ x, x ∈ contents (heap_push p (prepared_txns_ s)) → x ≠ p → max_evicted_seq_ s < x) as Hgt.
    { intros x Hx Hne. rewrite Hc in Hx. apply (i_heap_max _ _ I). set_solver. }
    destruct (Z.leb_spec p (max_evicted_seq_ s)) as [Hle|Hgtp].
    - destruct (check_prepared_spec (max_evicted_seq_ s) s1 Hh) as (h & d & f & -> & Hh' & Hc' & Hd' & Hs' & Hl' & He').
      exists h, d, f. split; [done|].
      change (prepared_txns_ s1) with (heap_push p (prepared_txns_ s)) in *.
      change (delayed_prepared_ s1) with (delayed_prepared_ s) in *.
      change (delayed_prepared_empty_ s1) with (delayed_prepared_empty_ s) in *. split_and!.
      + done. + intros x Hx. by apply Hc' in Hx as [_ ?].
      + intros x. rewrite Hc', Hd', Hc, (i_pending _ _ I), elem_of_union, elem_of_singleton.
        destruct (Z.le_gt_cases x (max_evicted_seq_ s)); tauto.
      + intros x Hx. apply Hd' in Hx as [|[Hx Hxm]]; [by right|]. left.
        destruct (decide (x = p)); [done|]. specialize (Hgt x Hx). lia.
      + intros x Hx. apply Hs' in Hx. simpl in Hx. apply elem_of_app in Hx as [|Hx]; [by right|].
        left. by apply list_elem_of_singleton in Hx.
      + intros x y Hx Hy. apply Hd' in Hx as [Hx|[Hx Hxm]]; [|by apply Hl']. apply Hdl; auto.
      + destruct He' as [[-> ->]|[-> Hne]]; [apply I|by rewrite bool_decide_eq_false_2].
      + intros x Hx. apply Hd' in Hx as [Hx|[_ Hx]]; [by apply (i_delayed_max _ _ I)|done].
    - exists (heap_push p (prepared_txns_ s)), (delayed_prepared_ s), (delayed_prepared_empty_ s).
      split_and!; try done; try apply I.
      + intros x Hx. destruct (decide (x = p)) as [->|]; [lia|auto].
      + intros x. rewrite Hc, (i_pending _ _ I), elem_of_union, elem_of_singleton. tauto.
      + auto.
      + intros x Hx. simpl in Hx. apply elem_of_app in Hx as [|Hx]; [by right|].
        left. by apply list_elem_of_singleton in Hx. }
  split; try apply I; try done.
  - intros q. simpl. rewrite elem_of_union, elem_of_singleton, <- Hun. done.
  - intros q Hq. simpl. apply Hhe in Hq as [->|Hq]; [lia|]. apply (i_heap_hi _ _ I) in Hq. lia.
  - intros q c Hq Hcq. destruct (i_evicted _ _ I q c Hq Hcq) as (? & Hdq & ?).
    split_and!; [done| |done]. intros Hin. apply Hdq. apply Hd in Hin as [->|]; [|done].
    simpl in Hq. congruence.
  - destruct (i_lists _ _ I); by split.
  - intros m Hm q Hqm Hin. simpl in Hin, Hm. rewrite elem_of_union, elem_of_singleton in Hin.
    pose proof (g_mins _ G m Hm). apply (i_mins _ _ I m Hm q Hqm).
    destruct Hin as [[->|Hin]|]; [lia|by left|by right].
Qed.

Lemma remove_one_spec s p :
  delayed_prepared_empty_ s = bool_decide (delayed_prepared_ s = ∅) →
  ∃ dc, remove_one p s =
    set_prepared_txns (heap_erase p (prepared_txns_ s))
      (set_delayed_prepared (delayed_prepared_ s ∖ {[p]}) (set_delayed_commits dc
        (set_delayed_empty (bool_decide (delayed_prepared_ s ∖ {[p]} = ∅)) s))) ∧
    (∀ q, q ≠ p → dc !! q = delayed_prepared_commits_ s !! q) ∧
    (∀ q c, dc !! q = Some c → delayed_prepared_commits_ s !! q = Some c).
Proof.
  intros Hf. unfold remove_one.
  set (s1 := set_prepared_txns _ s). change (delayed_prepared_ s1) with (delayed_prepared_ s).
  destruct (decide (delayed_prepared_ s = ∅)) as [He|Hne].
  - rewrite (bool_decide_eq_true_2 _ He) in Hf |- *. simpl.
    exists (delayed_prepared_commits_ s). split; [|auto].
    assert (delayed_prepared_ s ∖ {[p]} = delayed_prepared_ s) as -> by set_solver.
    by rewrite (bool_decide_eq_true_2 _ He), <- Hf.
  - rewrite (bool_decide_eq_false_2 _ Hne) in Hf |- *. cbn [negb].
    exists (delete p (delayed_prepared_commits_ s)). split_and!.
    + change (delayed_prepared_ (set_delayed_commits (delete p (delayed_prepared_commits_
        (set_delayed_prepared (delayed_prepared_ s ∖ {[p]}) s1)))
        (set_delayed_prepared (delayed_prepared_ s ∖ {[p]}) s1)))
        with (delayed_prepared_ s ∖ {[p]}).
      case_bool_decide; simpl; [done|]. by rewrite <- Hf.
    + intros q Hq. by rewrite lookup_delete_ne by done.
    + intros q c Hq. by apply lookup_delete_Some in Hq as [_ ?].
Qed.

Lemma remove_prepared_one s g p c :
  inv_ghost g → commits g !! p = Some c → RemovePrepared p 1 s = remove_one p s.
Proof.
  intros G Hc. pose proof kMaxSequenceNumber_ok. unfold RemovePrepared, batch_seqs. simpl. f_equal.
  rewrite Z.add_0_r. apply wrap_small. pose proof (g_commits _ G p c Hc). unfold in_range. lia.
Qed.

Lemma remove_inv s g p c :
  inv (s, g) → p ∈ pending g → commits g !! p = Some c → c ≤ published g →
  inv (RemovePrepared p 1 s, with_remove p g).
Proof.
  intros [I G] Hp Hc Hle. simpl in I, G. pose proof (g_bounds _ G). pose proof kMaxSequenceNumber_ok.
  rewrite (remove_prepared_one s g p c) by done.
  split; simpl.
  2: { split; simpl; try apply G.
       - intros q Hq. apply (g_pending _ G). set_solver.
       - intros q d Hq Hql. destruct (decide (q = p)) as [->|].
         + right. rewrite Hc in Hq. by injection Hq as <-.
         + destruct (g_latest _ G q d Hq Hql); [left; set_solver|by right].
       - intros q d Hq Hnp. destruct (decide (q = p)) as [->|].
         + left. rewrite Hc in Hq. by injection Hq as <-.
         + destruct (g_direct _ G q d Hq) as [|[? Hlt]]; [set_solver|by left|]. right.
           split; [done|]. intros x Hx. apply Hlt. set_solver.
       - intros k m Hm. destruct (g_taken _ G k m Hm) as (? & ? & Hold). split_and!; [lia|lia|done|].
         intros q Hq Hqk Hin. apply Hold; [done|done|]. set_solver. }
  destruct (remove_one_spec s p (i_empty _ _ I)) as (dc & -> & Hdc1 & Hdc2).
  destruct (heap_erase_spec p (prepared_txns_ s) (i_heap _ _ I)) as (Hh & Hcc & Hsub).
  { apply (i_pending _ _ I) in Hp as [Hin|Hd]; [apply elem_of_contents in Hin as [? _]; by left|].
    right. intros x Hx. by apply (i_delayed_lt _ _ I). }
  split; try apply I; try done.
  - intros q. change (q ∈ pending g ∖ {[p]} ↔
      q ∈ contents (heap_erase p (prepared_txns_ s)) ∨ q ∈ delayed_prepared_ s ∖ {[p]}).
    rewrite Hcc, !elem_of_difference, (i_pending _ _ I). tauto.
  - intros q Hq. apply Hsub in Hq. by apply (i_heap_hi _ _ I).
  - intros d q Hd Hq. apply Hsub in Hq. apply (i_delayed_lt _ _ I); [|done].
    change (d ∈ delayed_prepared_ s ∖ {[p]}) in Hd. set_solver.
  - intros q Hq. apply (i_heap_max _ _ I).
    change (q ∈ contents (heap_erase p (prepared_txns_ s))) in Hq. rewrite Hcc in Hq. set_solver.
  - intros q d Hq Hcq. destruct (i_evicted _ _ I q d Hq Hcq) as (? & Hdq & ?).
    split_and!; [done| |done]. intros Hin.
    change (q ∈ delayed_prepared_ s ∖ {[p]}) in Hin.
    change (dc !! q = Some d). rewrite Hdc1 by set_solver. apply Hdq. set_solver.
  - intros q d Hq. apply (i_delayed_commits _ _ I). by apply Hdc2.
  - destruct (i_lists _ _ I); by split.
  - intros q Hq. apply (i_delayed_max _ _ I).
    change (q ∈ delayed_prepared_ s ∖ {[p]}) in Hq. set_solver.
  - intros m Hm q Hqm Hin. simpl in Hin. apply (i_mins _ _ I m Hm q Hqm). set_solver.
Qed.

(** What [SmallestUnCommittedSeq] promises: everything below it is committed,
    with a number that is published or evicted. *)
Lemma smallest_uncommitted_spec s g :
  inv_core s g → inv_ghost g →
  let m := SmallestUnCommittedSeq (latest g) s in
  m ≤ Z.max (latest g) (last_prep g) + 1 ∧
  ∀ p, p < m → p ∈ pending g ∨ is_Some (commits g !! p) →
    ∃ c, commits g !! p = Some c ∧ (c ≤ published g ∨ c ≤ max_evicted_seq_ s).
Proof.
  intros I G m. pose proof (g_bounds _ G). pose proof kMaxSequenceNumber_ok.
  pose proof (heap_inv_top _ (i_heap _ _ I)) as (Hemp & Hempc & Hmin & Htopin).
  assert ((m ∈ delayed_prepared_ s ∧ (∀ d, d ∈ delayed_prepared_ s → m ≤ d)) ∨
          (m ≤ latest g + 1 ∧ delayed_prepared_ s = ∅ ∧ ∀ q, q ∈ contents (prepared_txns_ s) → m ≤ q)) as Hm.
  { subst m. unfold SmallestUnCommittedSeq. rewrite (i_empty _ _ I).
    destruct (decide (delayed_prepared_ s = ∅)) as [He|Hne].
    - right. rewrite (bool_decide_eq_true_2 _ He). cbn [negb andb].
      rewrite (wrap_small 64) by (unfold in_range; lia).
      change (heap_top (prepared_txns_ s) =? kMaxSequenceNumber) with (heap_empty (prepared_txns_ s)).
      destruct (heap_empty (prepared_txns_ s)).
      + assert (contents (prepared_txns_ s) = ∅) as Hc by (apply Hempc, Hemp; done).
        split_and!; [lia|done|]. rewrite Hc. set_solver.
      + split_and!; [lia|done|]. intros q Hq. specialize (Hmin q Hq). lia.
    - left. rewrite (bool_decide_eq_false_2 _ Hne). cbn [negb andb]. by apply set_begin_spec. }
  split.
  { destruct Hm as [[Hm _]|[? _]]; [|lia].
    assert (m ∈ pending g) as Hp by (apply (i_pending _ _ I); by right).
    apply (g_pending _ G) in Hp. lia. }
  intros p Hp Hin.
  assert (p ∉ pending g) as Hnp.
  { rewrite (i_pending _ _ I). intros [Hc|Hd].
    - destruct Hm as [[Hm _]|(_ & _ & Hm)]; [|specialize (Hm p Hc); lia].
      apply elem_of_contents in Hc as [Hc _]. pose proof (i_delayed_lt _ _ I m p Hm Hc). lia.
    - destruct Hm as [[_ Hm]|(_ & Hm & _)]; [specialize (Hm p Hd); lia|set_solver]. }
  destruct Hin as [|[c Hc]]; [done|]. exists c. split; [done|].
  destruct (g_direct _ G p c Hc Hnp) as [|[_ Hlt]]; [by left|].
  destruct Hm as [[Hm _]|(Hm & _ & _)].
  - right. apply (i_delayed_max _ _ I) in Hm as Hmx.
    destruct (Hlt m); [apply (i_pending _ _ I); by right|lia|lia].
  - destruct (g_latest _ G p c Hc); [lia|done|by left].
Qed.

Lemma step_inv x y : inv x → step x y → inv y.
Proof.
  intros Hinv Hstep. destruct Hstep as
    [s g p ? ? ? ? ? ?|s g p c s' Hn Hp ? ? ? Hadd|s g p c s' Hn ? ? ? ? ? Hadd
    |s g p c s' Hn ? ? ? Hadd|s g n l ? ? ? ? Hl|s g p c ? ? ?|s g|s g m Hm Hk|s g live' Hl].
  - by apply prepare_inv.
  - destruct Hinv as [I G]. simpl in I, G. split; simpl.
    + destruct (add_committed_inv s g p c (last_direct g) s' true I G) as [[? _]|[_ Hs]]; try done.
      apply Hs; [|done]. apply (g_pending _ G) in Hp. lia.
    + apply with_commit_ghost; auto.
  - destruct Hinv as [I G]. simpl in I, G. pose proof (g_bounds _ G). split; simpl.
    + destruct (add_committed_inv s g p c (Z.max (last_direct g) c) s' true I G) as [[? _]|[_ Hs]];
        try done; [lia|].
      apply Hs; [lia|]. intros m Hm. apply (g_mins _ G) in Hm. lia.
    + apply with_commit_ghost; auto; lia.
  - destruct Hinv as [I G]. simpl in I, G. split; [|by destruct G; split].
    destruct (add_committed_inv s g p c 0 s' false I G) as [(_ & I' & _)|[? _]]; try done.
    by destruct I'; split.
  - destruct Hinv as [I G]. simpl in I, G. split.
    + split; try apply I; simpl.
      * intros k Hk. apply (i_all _ _ I) in Hk. lia.
      * intros m Hm p Hpm Hin. destruct (i_mins _ _ I m Hm p Hpm Hin) as (c & ? & ?).
        exists c. split; [done|lia].
    + pose proof (g_bounds _ G). split; try apply G; simpl; try done; try lia.
      * intros k Hk. apply (g_live _ G) in Hk. lia.
      * intros p c Hp Hn. destruct (g_direct _ G p c Hp Hn); [left; lia|by right].
      * intros m Hm. apply (g_mins _ G) in Hm. lia.
      * intros k m Hm. destruct (g_taken _ G k m Hm) as (? & ? & ?). split_and!; [lia|lia|lia|done].
  - by eapply remove_inv.
  - destruct Hinv as [I G]. simpl in I, G.
    destruct (smallest_uncommitted_spec s g I G) as [Hle Hm]. split.
    + split; try apply I. simpl. intros m' Hm'. apply elem_of_cons in Hm' as [->|Hm']; [done|].
      by apply (i_mins _ _ I).
    + split; try apply G. simpl. intros m' Hm'. apply elem_of_cons in Hm' as [->|Hm']; [done|].
      by apply (g_mins _ G).
  - destruct Hinv as [I G]. simpl in I, G. pose proof (g_bounds _ G).
    rewrite (i_future _ _ I) in Hk. split.
    + split; try apply I. simpl. intros k Hin. apply elem_of_cons in Hin as [->|Hin]; [|by apply (i_live _ _ I)].
      right. split; [tauto|]. intros y Hy. by apply (i_all _ _ I) in Hy as [_ ?].
    + split; try apply G; simpl.
      * intros k Hin. apply elem_of_cons in Hin as [->|Hin]; [lia|by apply (g_live _ G)].
      * intros k m' Hin. apply elem_of_cons in Hin as [[= -> ->]|Hin]; [|by apply (g_taken _ G)].
        split_and!; [lia|lia|by apply (g_mins _ G)|]. intros p Hp Hpk Hin.
        destruct (i_mins _ _ I m Hm p Hp Hin) as (c & Hc & Hle). exists c. split; [done|].
        pose proof (g_commits _ G p c Hc). lia.
      * intros k Hin. apply elem_of_cons in Hin as [->|Hin]; [exists m; by constructor|].
        destruct (g_live_taken _ G k Hin) as [m' ?]. exists m'. by constructor.
  - destruct Hinv as [I G]. simpl in I, G. split.
    + split; try apply I. simpl. intros k Hk. apply (i_live _ _ I). auto.
    + split; try apply G; simpl; intros k Hk; [apply (g_live _ G)|apply (g_live_taken _ G)]; auto.
Qed.

Lemma rtc_inv x y : rtc step x y → inv x → inv y.
Proof. induction 1; eauto using step_inv. Qed.

Lemma reachable_inv x : reachable x → inv x.
Proof. intros Hr. eapply rtc_inv; [exact Hr|apply init_inv]. Qed.

(** ** What later states keep *)

Definition known (p : Z) (x : sys) : Prop := p ∈ pending (snd x) ∨ is_Some (commits (snd x) !! p).

Record later (x y : sys) : Prop := {
  l_max : max_evicted_seq_ (fst x) ≤ max_evicted_seq_ (fst y);
  l_commits : ∀ p c, commits (snd x) !! p = Some c → commits (snd y) !! p = Some c;
  l_new : ∀ p c, commits (snd y) !! p = Some c → commits (snd x) !! p = None → published (snd x) < c;
  l_known : ∀ p, known p x → known p y;
  l_published : published (snd x) ≤ published (snd y);
  l_taken : ∀ t, t ∈ taken (snd x) → t ∈ taken (snd y);
  l_evicted : ∀ p c, commits (snd x) !! p = Some c → cached_commit p (fst x) = None →
    cached_commit p (fst y) = None;
}.

Lemma later_refl x : later x x.
Proof. split; try done; intros; congruence. Qed.

Lemma later_trans x y z : later x y → later y z → later x z.
Proof.
  intros [] []. split; eauto; [lia| |lia].
  intros p c Hz Hx. destruct (commits (snd y) !! p) as [d|] eqn:E.
  - assert (d = c) as -> by (apply l_commits1 in E; congruence). eauto.
  - specialize (l_new1 p c Hz E). lia.
Qed.

Lemma commit_later s g p c d s' :
  keeps p s s' → commits g !! p = None → published g < c →
  later (s, g) (s', with_commit p c d g).
Proof.
  intros [Hm Hk] Hn Hp. split; simpl; try done.
  - intros q x Hq. rewrite lookup_insert_ne; [done|congruence].
  - intros q x Hq Hnone. apply lookup_insert_Some in Hq as [[<- <-]|[_ ?]]; [done|congruence].
  - intros q [Hq|[x Hx]]; [by left|]. right. unfold known. simpl. apply lookup_insert_is_Some'. eauto.
  - intros q x Hq. apply Hk. congruence.
Qed.

(** Operations that leave the cache and the largest evicted number alone. *)
Lemma same_later s g s' g' :
  commit_cache_ s' = commit_cache_ s → max_evicted_seq_ s' = max_evicted_seq_ s →
  commits g' = commits g → published g ≤ published g' →
  (∀ t, t ∈ taken g → t ∈ taken g') →
  (∀ p, p ∈ pending g → p ∈ pending g' ∨ is_Some (commits g !! p)) → later (s, g) (s', g').
Proof.
  intros Hc Hm Hcm Hp Ht Hpe. split; simpl; rewrite ?Hcm; try done.
  - lia.
  - intros p c ? ?. congruence.
  - intros p Hk. unfold known in *. simpl in *. rewrite Hcm. destruct Hk as [Hk|]; [auto|by right].
  - intros p c _. by rewrite (cached_commit_cache p s s').
Qed.

Lemma step_later x y : inv x → step x y → later x y.
Proof.
  intros Hinv Hstep. pose proof (step_inv _ _ Hinv Hstep) as Hinv'. destruct Hinv as [I G].
  destruct Hstep as
    [s g p ? ? ? ? ? ?|s g p c s' Hn Hp ? ? ? Hadd|s g p c s' Hn ? ? ? ? ? Hadd
    |s g p c s' Hn ? ? ? Hadd|s g n l ? ? ? ? Hl|s g p c ? ? ?|s g|s g m Hm Hk|s g live' Hl];
    simpl in I, G.
  - destruct (add_prepared_frame p s) as (h & d & f & ->); [apply I| |done|].
    { intros x Hx. apply (i_heap_hi _ _ I) in Hx. lia. }
    apply same_later; simpl; try done. intros q Hq. left. set_solver.
  - destruct (add_committed_inv s g p c (last_direct g) s' true I G) as [[? _]|[_ Hs]]; try done.
    apply commit_later; [|done|done]. apply Hs; [|done]. apply (g_pending _ G) in Hp. lia.
  - pose proof (g_bounds _ G).
    destruct (add_committed_inv s g p c (Z.max (last_direct g) c) s' true I G) as [[? _]|[_ Hs]];
      try done; [lia|].
    apply commit_later; [|done|lia]. apply Hs; [lia|]. intros m Hm. apply (g_mins _ G) in Hm. lia.
  - destruct (add_committed_inv s g p c 0 s' false I G) as [(_ & _ & [Hm Hk])|[? _]]; try done.
    split; simpl; try done; [intros; congruence|].
    intros q x Hq Hnone. apply Hk; [congruence|done].
  - apply same_later; simpl; try done. auto.
  - destruct (remove_one_spec s p (i_empty _ _ I)) as (dc & Heq & _).
    assert (RemovePrepared p 1 s = remove_one p s) as ->.
    { eapply remove_prepared_one; eauto. }
    rewrite Heq. apply same_later; simpl; try done. intros q Hq.
    destruct (decide (q = p)) as [->|]; [right; eauto|left; set_solver].
  - apply same_later; simpl; try done. auto.
  - apply same_later; simpl; try done; [|auto]. intros t Ht. by constructor.
  - apply same_later; simpl; try done. auto.
Qed.

Lemma rtc_later x y : inv x → rtc step x y → later x y.
Proof.
  intros Hi Hr. induction Hr as [x|x y z Hxy Hyz IH]; [apply later_refl|].
  eapply later_trans; [by apply step_later|]. apply IH. by eapply step_inv.
Qed.

Lemma rtc_commits_mono x y :
  rtc step x y → ∀ p c, commits (snd x) !! p = Some c → commits (snd y) !! p = Some c.
Proof.
  induction 1 as [|x y z Hxy Hyz IH]; [done|]. intros p c Hp. apply IH.
  destruct Hxy; simpl in *; try done; (rewrite lookup_insert_ne; [done|congruence]).
Qed.

(** ** A reader among the steps *)
Section reader.
Variable obs : nat → sys.
Hypothesis Hobs : ∀ i, rtc step (obs i) (obs (S i)).
Hypothesis Hreach : reachable (obs 0%nat).

Let wp (i : nat) : WritePreparedTxnDB := fst (obs i).

Lemma obs_inv i : inv (obs i).
Proof. induction i as [|i IH]; [by apply reachable_inv|]. exact (rtc_inv _ _ (Hobs i) IH). Qed.

Lemma obs_later i j : (i ≤ j)%nat → later (obs i) (obs j).
Proof.
  induction 1 as [|j Hle IH]; [apply later_refl|]. eapply later_trans; [exact IH|].
  by apply rtc_later; [apply obs_inv|apply Hobs].
Qed.

Variables p k : Z.
Hypothesis Hk : k ≤ published (snd (obs 0%nat)).
Hypothesis Hp : 1 ≤ p ≤ k.
Hypothesis Hknown : known p (obs 0%nat).

(** [p] committed no later than the snapshot. *)
Definition visible : Prop := ∃ c, commits (snd (obs 0%nat)) !! p = Some c ∧ c ≤ k.

Lemma visible_at i c : commits (snd (obs i)) !! p = Some c → (c ≤ k ↔ visible).
Proof.
  intros Hc. pose proof (obs_later 0 i ltac:(lia)) as L. split.
  - intros Hle. destruct (commits (snd (obs 0%nat)) !! p) as [d|] eqn:E.
    + exists d. split; [done|]. apply (l_commits _ _ L) in E. rewrite Hc in E. by injection E as <-.
    + pose proof (l_new _ _ L p c Hc E). lia.
  - intros (d & Hd & Hle). apply (l_commits _ _ L) in Hd. rewrite Hc in Hd. by injection Hd as ->.
Qed.

Lemma not_visible_at i : commits (snd (obs i)) !! p = None → ¬ visible.
Proof.
  intros Hn (d & Hd & _). apply (l_commits _ _ (obs_later 0 i ltac:(lia))) in Hd. congruence.
Qed.

Lemma cached_visible i c : cached_commit p (wp i) = Some c → (c ≤ k ↔ visible).
Proof.
  intros Hc. apply (visible_at i). eapply cached_commit_sound; [|exact Hc].
  apply (i_cache _ _ (proj1 (obs_inv i))).
Qed.

(** A snapshot in the live list keeps its entry in the map of old commits. *)
Lemma live_key i : k ∈ live (snd (obs i)) → k ≤ max_evicted_seq_ (wp i) →
  is_Some (old_commit_map_ (wp i) !! k).
Proof.
  intros Hl Hle. pose proof (proj1 (obs_inv i)) as I. apply (i_keys _ _ I).
  destruct (i_live _ _ I k Hl) as [|[[Hgt|Hz] _]]; [done|unfold wp in Hle; lia|lia].
Qed.

(** [p] committed before [t] and is not in the cache at [t]. *)
Definition evicted_at (t : nat) : Prop :=
  ∃ c, commits (snd (obs t)) !! p = Some c ∧ cached_commit p (wp t) = None.

Lemma evicted_mono t t' : (t ≤ t')%nat → evicted_at t → evicted_at t'.
Proof.
  intros Hle (c & Hc & Hn). pose proof (obs_later t t' Hle) as L. exists c.
  split; [by apply (l_commits _ _ L)|by eapply (l_evicted _ _ L)].
Qed.

Definition answer (r : option (bool * bool)) : Prop :=
  match r with
  | Some (b, false) => b = true ↔ visible
  | Some (_, true) => ∃ i, k ∉ live (snd (obs i))
  | None => True
  end.

Lemma answer_commit c : (c ≤ k ↔ visible) → answer (Some (c <=? k, false)).
Proof. intros Hc. simpl. by rewrite Z.leb_le. Qed.

Lemma check_old_commit_answer t ub :
  evicted_at t → p ≤ ub → ub ≤ max_evicted_seq_ (wp t) →
  (∀ c, commits (snd (obs t)) !! p = Some c → c ≤ ub) →
  answer (Some (check_old_commit wp t ub p k)).
Proof.
  intros Hev Hpub Hmax Hub. pose proof (evicted_mono t (t + 1) ltac:(lia) Hev) as Hev1.
  destruct Hev as (c & Hc & Hn). unfold check_old_commit.
  assert (max_evicted_seq_ (wp t) ≤ max_evicted_seq_ (wp (t + 1))) as Hm1
    by apply (l_max _ _ (obs_later t (t + 1) ltac:(lia))).
  destruct (Z.ltb_spec ub k) as [Hlt|Hge].
  { simpl. rewrite <- (visible_at t c Hc). specialize (Hub c Hc). split; [lia|done]. }
  destruct (old_commit_map_empty_ (wp t)) eqn:Ef.
  { simpl. exists t. intros Hl. destruct (live_key t Hl) as [v Hv]; [lia|].
    pose proof (i_flag _ _ (proj1 (obs_inv t)) Ef) as Hem. unfold wp in Hv. by rewrite Hem in Hv. }
  destruct (old_commit_map_ (wp (t + 1)) !! k) as [vec|] eqn:Ev.
  2: { simpl. exists (t + 1)%nat. intros Hl. destruct (live_key _ Hl) as [v Hv]; [lia|congruence]. }
  destruct Hev1 as (c1 & Hc1 & Hn1). pose proof (proj1 (obs_inv (t + 1))) as I.
  destruct (i_vec _ _ I k vec Ev) as [Hs Hin].
  simpl. rewrite <- (visible_at _ _ Hc1), negb_true_iff.
  destruct (binary_search vec p) eqn:Eb.
  - apply binary_search_elem in Eb; [|done]. destruct (Hin p Eb) as (d & Hd & Hkd).
    rewrite Hc1 in Hd. injection Hd as <-. split; [done|lia].
  - split; [|done]. intros _. destruct (Z.le_gt_cases c1 k) as [|Hgt]; [done|].
    destruct (i_evicted _ _ I p c1 Hc1 Hn1) as (_ & _ & Hrec).
    destruct (Hrec k) as (v & Hv & Hpv); [|lia|].
    { apply (i_keys _ _ I). unfold wp in Ev. by rewrite Ev. }
    unfold wp in Ev. rewrite Ev in Hv. injection Hv as <-.
    apply binary_search_elem in Hpv; congruence.
Qed.

(** Not pending means committed. *)
Lemma known_committed i : p ∉ pending (snd (obs i)) → is_Some (commits (snd (obs i)) !! p).
Proof.
  intros Hn. destruct (l_known _ _ (obs_later 0 i ltac:(lia)) p Hknown) as [|]; done.
Qed.

(** A number at most the evicted maximum and not delayed is committed. *)
Lemma not_delayed_committed i :
  p ≤ max_evicted_seq_ (wp i) → p ∉ delayed_prepared_ (wp i) →
  is_Some (commits (snd (obs i)) !! p).
Proof.
  intros Hle Hnd. apply known_committed. pose proof (proj1 (obs_inv i)) as I.
  rewrite (i_pending _ _ I). intros [Hc|]; [|done].
  apply (i_heap_max _ _ I) in Hc. unfold wp in Hle. lia.
Qed.

(** What missing the cache means for a committed number. *)
Lemma missed_evicted t t' c :
  (t ≤ t')%nat → commits (snd (obs t)) !! p = Some c → cached_commit p (wp t') = None →
  evicted_at t' ∧ ∀ t'' d, (t' ≤ t'')%nat → commits (snd (obs t'')) !! p = Some d →
    d ≤ max_evicted_seq_ (wp t').
Proof.
  intros Hle Hc Hn. pose proof (l_commits _ _ (obs_later t t' Hle) p c Hc) as Hc'.
  split; [by exists c|]. intros t'' d Hle' Hd.
  apply (l_commits _ _ (obs_later t' t'' Hle')) in Hc' as Hc''.
  rewrite Hd in Hc''. injection Hc'' as ->.
  by apply (i_evicted _ _ (proj1 (obs_inv t')) p c Hc' Hn).
Qed.

Lemma loop_answer fuel t : answer (is_in_snapshot_loop fuel wp t p k).
Proof.
  revert t. induction fuel as [|fuel IH]; intros t; [done|]. cbn [is_in_snapshot_loop].
  assert (∀ i j, (i ≤ j)%nat → max_evicted_seq_ (wp i) ≤ max_evicted_seq_ (wp j)) as Hmono.
  { intros i j Hij. apply (l_max _ _ (obs_later i j Hij)). }
  destruct (cached_commit p (wp (t + 2))) as [c|] eqn:E2; [by eapply answer_commit, cached_visible|].
  destruct (Z.eqb_spec (max_evicted_seq_ (wp t)) (max_evicted_seq_ (wp (t + 3)))) as [Heq|]; cbn [negb]; [|done].
  set (M := max_evicted_seq_ (wp (t + 3))) in *.
  pose proof (Hmono t (t + 1)%nat ltac:(lia)) as Hm1.
  pose proof (Hmono (t + 1)%nat (t + 2)%nat ltac:(lia)) as Hm2.
  pose proof (Hmono (t + 2)%nat (t + 3)%nat ltac:(lia)) as Hm3. fold M in Hm3.
  destruct (Z.ltb_spec M p) as [Hlt|Hge].
  { (* not evicted and not cached: not committed before the look-up *)
    assert (commits (snd (obs (t + 2)%nat)) !! p = None) as Hn.
    { destruct (commits _ !! p) as [c|] eqn:E; [|done].
      destruct (missed_evicted (t + 2) (t + 2) c ltac:(lia) E E2) as [_ Hm].
      specialize (Hm (t + 2)%nat c ltac:(lia) E).
      pose proof (g_commits _ (proj2 (obs_inv (t + 2))) p c E). lia. }
    simpl. split; [done|]. intros Hv. by apply not_visible_at in Hn. }
  destruct (delayed_prepared_empty_ (wp (t + 1))) eqn:Ew.
  { unfold wp in Ew. rewrite (i_empty _ _ (proj1 (obs_inv (t + 1)))) in Ew. apply bool_decide_eq_true_1 in Ew.
    destruct (not_delayed_committed (t + 1)) as [c Hc]; [lia|unfold wp; rewrite Ew; set_solver|].
    destruct (missed_evicted (t + 1) (t + 2) c ltac:(lia) Hc E2) as [Hev Hd].
    apply check_old_commit_answer; [by eapply evicted_mono; [|exact Hev]; lia|done|apply Hmono; lia|].
    intros d Hd'. specialize (Hd (t + 4)%nat d ltac:(lia) Hd'). lia. }
  case_bool_decide as Hdel.
  - destruct (delayed_prepared_commits_ (wp (t + 4)) !! p) as [c|] eqn:Ed.
    + apply answer_commit, (visible_at (t + 4)). by apply (i_delayed_commits _ _ (proj1 (obs_inv (t + 4)))).
    + assert (commits (snd (obs (t + 2)%nat)) !! p = None) as Hn.
      { destruct (commits (snd (obs (t + 2)%nat)) !! p) as [c|] eqn:E; [|done].
        destruct (missed_evicted (t + 2) (t + 2) c ltac:(lia) E E2) as [Hev _].
        apply (evicted_mono _ (t + 4)) in Hev as (d & Hd & Hnd); [|lia].
        destruct (i_evicted _ _ (proj1 (obs_inv (t + 4))) p d Hd Hnd) as (_ & Hdc & _).
        unfold wp in *. rewrite Hdc in Ed by done. done. }
      simpl. split; [done|]. intros Hv. by apply not_visible_at in Hn.
  - destruct (not_delayed_committed (t + 4)) as [c Hc];
      [pose proof (Hmono (t + 3)%nat (t + 4)%nat ltac:(lia)) as Hm4; fold M in Hm4; lia|done|].
    destruct (cached_commit p (wp (t + 5))) as [d|] eqn:E5; [by eapply answer_commit, cached_visible|].
    destruct (missed_evicted (t + 4) (t + 5) c ltac:(lia) Hc E5) as [Hev Hd].
    destruct (Z.eqb_spec (max_evicted_seq_ (wp t)) (max_evicted_seq_ (wp (t + 6)))) as [Heq'|]; cbn [negb]; [|done].
    apply check_old_commit_answer; [by eapply evicted_mono; [|exact Hev]; lia|lia|apply Hmono; lia|].
    intros x Hx. specialize (Hd (t + 7)%nat x ltac:(lia) Hx).
    pose proof (Hmono (t + 5)%nat (t + 6)%nat ltac:(lia)). lia.
Qed.
End reader.

Lemma reader_answer obs p k m b released :
  (∀ i, rtc step (obs i) (obs (S i))) → reachable (obs 0%nat) →
  (k, m) ∈ taken (snd (obs 0%nat)) → known p (obs 0%nat) →
  IsInSnapshot (λ i, fst (obs i)) p k m = Some (b, released) →
  if released then ∃ i, k ∉ live (snd (obs i))
  else b = true ↔ ∃ c, commits (snd (obs 0%nat)) !! p = Some c ∧ c ≤ k.
Proof.
  intros Hobs Hreach Htaken Hknown. pose proof (proj2 (reachable_inv _ Hreach)) as G.
  destruct (g_taken _ G k m Htaken) as (Hk & _ & Hm).
  assert (1 ≤ p) as Hp1.
  { destruct Hknown as [Hp|[c Hc]]; [apply (g_pending _ G) in Hp; lia|].
    apply (g_commits _ G) in Hc. lia. }
  unfold IsInSnapshot. destruct (Z.eqb_spec p 0); [lia|].
  destruct (Z.ltb_spec k p) as [Hlt|Hle].
  { intros [= <- <-]. split; [done|]. intros (c & Hc & ?). apply (g_commits _ G) in Hc. lia. }
  destruct (Z.ltb_spec p m) as [Hlt|Hge].
  { intros [= <- <-]. split; [|done]. intros _. by apply Hm. }
  intros Heq. pose proof (loop_answer obs Hobs Hreach p k ltac:(lia) ltac:(lia) Hknown 99 0) as Ha.
  change (fun i : nat => fst (obs i)) with (fun i : nat => (obs i).1) in *.
  rewrite Heq in Ha. by destruct released.
Qed.

(** C1. Snapshot reads are right under concurrency: in any reachable state, for
    a snapshot [k] taken with [min_uncommitted] [m] and a number [p] prepared
    or committed, whatever steps (prepares, commits with their evictions,
    publications, removals, snapshots, releases) run between the reader's
    accesses, if [IsInSnapshot] returns without flagging the snapshot as
    released then its answer is whether [p] committed at or before [k]; it
    flags only a snapshot that is not live. *)
Theorem IsInSnapshot_correct obs p k m b released :
  (∀ i, rtc step (obs i) (obs (S i))) → reachable (obs 0%nat) →
  (k, m) ∈ taken (snd (obs 0%nat)) → known p (obs 0%nat) →
  IsInSnapshot (λ i, fst (obs i)) p k m = Some (b, released) →
  if released then ∃ i, k ∉ live (snd (obs i))
  else b = true ↔ ∃ c, commits (snd (obs 0%nat)) !! p = Some c ∧ c ≤ k.
Proof. apply reader_answer. Qed.

Lemma loop_returns s fuel t p k :
  ∃ b r, is_in_snapshot_loop (S fuel) (λ _, s) t p k = Some (b, r).
Proof.
  cbn [is_in_snapshot_loop]. rewrite !Z.eqb_refl. cbn [negb].
  destruct (cached_commit p s); [by do 2 eexists|].
  destruct (max_evicted_seq_ s <? p); [by do 2 eexists|].
  destruct (delayed_prepared_empty_ s).
  { destruct (check_old_commit _ _ _ _ _) as [b r]. by exists b, r. }
  case_bool_decide; [destruct (delayed_prepared_commits_ s !! p); by do 2 eexists|].
  destruct (check_old_commit _ _ _ _ _) as [b r]. by exists b, r.
Qed.

(** C6. Without interference the call returns, and is exact for live snapshots. *)
Theorem IsInSnapshot_total x p k m :
  reachable x → (k, m) ∈ taken (snd x) → k ∈ live (snd x) → known p x →
  ∃ b, IsInSnapshot (λ _, fst x) p k m = Some (b, false) ∧
    (b = true ↔ ∃ c, commits (snd x) !! p = Some c ∧ c ≤ k).
Proof.
  intros Hreach Ht Hl Hknown.
  assert (∃ b r, IsInSnapshot (λ _, fst x) p k m = Some (b, r)) as (b & r & Heq).
  { unfold IsInSnapshot. destruct (p =? 0); [by do 2 eexists|].
    destruct (k <? p); [by do 2 eexists|]. destruct (p <? m); [by do 2 eexists|].
    apply (loop_returns (fst x) 98). }
  pose proof (reader_answer (λ _, x) p k m b r (λ _, rtc_refl _ _) Hreach Ht Hknown Heq) as Ha.
  simpl in Ha. destruct r; [by destruct Ha as [_ Ha]|]. eauto.
Qed.

(** As long as no call threw, a recorded number has left the cache. *)
Definition recorded_left_cache (x : sys) : Prop :=
  threw (snd x) = false → ∀ k p, p ∈ old_at k (fst x) → cached_commit p (fst x) = None.

Lemma same_left_cache s g s' g' :
  commit_cache_ s' = commit_cache_ s → old_commit_map_ s' = old_commit_map_ s →
  threw g' = threw g → recorded_left_cache (s, g) → recorded_left_cache (s', g').
Proof.
  intros Hc Hm Ht Hr Hf k p Hp. simpl in *. rewrite (cached_commit_cache p s) by done.
  rewrite Ht in Hf. apply (Hr Hf k). unfold old_at in *. by rewrite Hm in Hp.
Qed.

Lemma commit_left_cache s g p c d0 s' :
  inv (s, g) → 1 ≤ p ≤ c → published g < c → c < kMaxSequenceNumber → commits g !! p = None →
  (∀ m, m ∈ mins g → p < m → p ∈ pending g) →
  AddCommitted p c (published g) (GetAll (live g)) s = (s', true) →
  recorded_left_cache (s, g) → recorded_left_cache (s', with_commit p c d0 g).
Proof.
  intros [I G] Hp Hpub Hmax Hn Hm Hadd Hr Hf k q Hq. simpl in *.
  destruct (add_committed_inv s g p c d0 s' true I G) as [[? _]|[_ Hs]]; try done; [lia|].
  destruct Hs as (_ & [_ Hk] & Ho); [lia|done|]. destruct (Ho k q Hq) as [Hq'|]; [|done].
  apply Hk; [|by apply (Hr Hf k)]. intros ->. apply elem_of_old_at in Hq' as (vec & Hv & Hin).
  destruct (i_vec _ _ I _ _ Hv) as [_ Hvec]. destruct (Hvec p Hin) as (c' & ? & _). congruence.
Qed.

Lemma step_left_cache x y : inv x → step x y → recorded_left_cache x → recorded_left_cache y.
Proof.
  intros Hinv Hstep Hr. pose proof Hinv as [I G]. destruct Hstep as
    [s g p ? ? ? ? ? ?|s g p c s' Hn Hp ? ? ? Hadd|s g p c s' Hn ? ? ? ? ? Hadd
    |s g p c s' Hn ? ? ? Hadd|s g n l ? ? ? ? Hl|s g p c ? ? ?|s g|s g m Hm Hk|s g live' Hl];
    simpl in I, G; try by (revert Hr; apply same_left_cache).
  - destruct (add_prepared_frame p s) as (h & d & f & ->); [apply I| |done|].
    { intros x Hx. apply (i_heap_hi _ _ I) in Hx. lia. }
    revert Hr. by apply same_left_cache.
  - pose proof (g_pending _ G p Hp). eapply (commit_left_cache s g p c 0); done || lia.
  - pose proof (g_bounds _ G). eapply (commit_left_cache s g p c 0); try done; try lia.
    intros m Hm. apply (g_mins _ G) in Hm. lia.
  - intros Ht. simpl in Ht. discriminate Ht.
  - destruct (remove_one_spec s p (i_empty _ _ I)) as (dc & Heq & _).
    rewrite (remove_prepared_one s g p c) by done. rewrite Heq.
    revert Hr. by apply same_left_cache.
Qed.

Lemma reachable_left_cache x : reachable x → recorded_left_cache x.
Proof.
  intros Hr. apply rtc_ind_r with (P := recorded_left_cache) (3 := Hr).
  - intros _ k p. by intros ?%not_elem_of_nil.
  - intros y z Hy Hstep. apply step_left_cache; [by apply reachable_inv|done].
Qed.

(** C7. The prepared lists and the map of old commits, in every reachable
    state: the pending numbers are those of the heap and of the delayed set;
    the heap's are above the largest evicted number, the delayed ones at most
    that; the flag readers test first is exact; the map has an entry for
    exactly the listed snapshots. The entry of a snapshot is sorted; it holds
    every number that was prepared by the snapshot, committed after it, and is
    not in the commit cache any more; and it holds nothing else: what it holds
    was prepared by the snapshot and committed after it, with a number that is
    counted as evicted, and has left the cache unless an AddCommitted call has
    thrown (it records what it is about to replace, and then replaces nothing). *)
Theorem reachable_lists_exact x :
  reachable x →
  let s := fst x in let g := snd x in
  (∀ p, p ∈ pending g ↔ p ∈ contents (prepared_txns_ s) ∨ p ∈ delayed_prepared_ s) ∧
  (∀ p, p ∈ contents (prepared_txns_ s) → max_evicted_seq_ s < p) ∧
  (∀ p, p ∈ delayed_prepared_ s → p ≤ max_evicted_seq_ s) ∧
  (delayed_prepared_empty_ s = true ↔ delayed_prepared_ s = ∅) ∧
  (∀ k, is_Some (old_commit_map_ s !! k) ↔ k ∈ snapshots_all_ s) ∧
  (∀ k vec, old_commit_map_ s !! k = Some vec →
     sorted vec ∧
     ∀ p,
       (∀ c, commits g !! p = Some c → cached_commit p s = None → p ≤ k < c → p ∈ vec) ∧
       (p ∈ vec → ∃ c, commits g !! p = Some c ∧ p ≤ k < c ∧ c ≤ max_evicted_seq_ s ∧
          (threw g = false → cached_commit p s = None))).
Proof.
  intros Hr s g. destruct (reachable_inv x Hr) as [I G]. fold s g in I, G.
  split_and!; try apply I.
  - rewrite (i_empty _ _ I). apply bool_decide_eq_true.
  - intros k vec Hk. destruct (i_vec _ _ I k vec Hk) as [Hs Hv]. split; [done|]. intros p. split.
    + intros c Hc Hn Hpk. destruct (i_evicted _ _ I p c Hc Hn) as (_ & _ & Hrec).
      destruct (Hrec k) as (v & Hv' & Hp); [by apply (i_keys _ _ I); eexists|done|].
      rewrite Hk in Hv'. by injection Hv' as <-.
    + intros Hp. destruct (Hv p Hp) as (c & ? & ? & ?). exists c. split_and!; try done; [lia|lia|].
      intros Ht. apply (reachable_left_cache x Hr Ht k). apply elem_of_old_at. by exists vec.
Qed.

Lemma add_committed_outcome s g p c s' b :
  inv (s, g) → 1 ≤ p ≤ c → c < kMaxSequenceNumber →
  AddCommitted p c (published g) (GetAll (live g)) s = (s', b) →
  (b = true ↔ c - p + 1 < max_delta) ∧ (b = true → cached_commit p s' = Some c).
Proof.
  intros [I G] Hp Hmax Hadd. pose proof kMaxSequenceNumber_ok.
  assert (in_range 56 p) as Hr56 by (apply seq_in_range; lia).
  pose proof (CommitEntry64b_outcome p c Hr56 ltac:(lia)) as Hround.
  destruct (add_committed_exchange s g p c s' b I G Hadd) as (s1 & Hb).
  destruct (CommitEntry64b_encode p c FORMAT) as [rep|]; destruct Hb as [-> ->].
  - destruct Hround as [Hlt Hparse]. split; [done|]. intros _.
    rewrite (cached_commit_insert p c rep p s1) by done. by rewrite decide_True.
  - split; [|done]. split; [done|lia].
Qed.

(** C8. [AddCommitted] throws exactly when the distance between commit and
    prepare does not fit the cache's word, and otherwise the entry is in the
    cache: it never gives up for contention and never loses the commit. *)
Theorem AddCommitted_outcome x p c s' b :
  reachable x → commits (snd x) !! p = None → 1 ≤ p ≤ c → published (snd x) < c →
  c < kMaxSequenceNumber →
  AddCommitted p c (published (snd x)) (GetAll (live (snd x))) (fst x) = (s', b) →
  (b = true ↔ c - p + 1 < max_delta) ∧ (b = true → cached_commit p s' = Some c).
Proof.
  intros Hr Hn Hp Hpub Hmax Hadd. destruct x as [s g]. apply (add_committed_outcome s g); [by apply reachable_inv|done|done|done].
Qed.

(** A snapshot that [GetSnapshotInternal] returns is 0 or above the value
    of future_max_evicted_seq_ it read last; it gives up (throws) otherwise. *)
Theorem GetSnapshotInternal_above_max latest_seq snap future retry s k m :
  GetSnapshotInternal latest_seq snap future retry s = Some (k, m) →
  m = SmallestUnCommittedSeq latest_seq s ∧
  (k = snap ∧ (k = 0 ∨ future < k) ∨
   ∃ i, (i ≤ 100)%nat ∧ fst (retry i) < k ∧
     k = match i with O => snap | S j => snd (retry j) end).
Proof.
  unfold GetSnapshotInternal.
  destruct (negb (snap =? 0) && (snap <=? future)) eqn:E.
  - assert (∀ fuel i cur, (i + fuel = 100)%nat →
      cur = match i with O => snap | S j => snd (retry j) end →
      let '(k, max) := snapshot_retry fuel i retry cur in
      ∃ j, (j ≤ 100)%nat ∧ max = fst (retry j) ∧
        k = match j with O => snap | S j' => snd (retry j') end) as Hloop.
    { induction fuel as [|fuel IH]; intros i cur Hi Hcur; cbn [snapshot_retry].
      { exists i. split_and!; [lia|done|done]. }
      destruct (negb (fst (retry i) =? 0) && (cur <=? fst (retry i))).
      - apply IH; [lia|done].
      - exists i. split_and!; [lia|done|done]. }
    specialize (Hloop 100%nat 0%nat snap ltac:(lia) eq_refl).
    destruct (snapshot_retry 100 0 retry snap) as [k' max']. destruct Hloop as (j & Hj & -> & Hk').
    destruct (Z.leb_spec k' (fst (retry j))); [done|]. intros [= <- <-].
    split; [done|]. right. by exists j.
  - intros [= <- <-]. split; [done|]. left. split; [done|].
    destruct (Z.eqb_spec snap 0); [by left|]. right. simpl in E. by apply Z.leb_gt in E.
Qed.

(** ** The commit callback is a run of steps *)

(** A number the run may commit: prepared, or beyond everything seen. *)
Definition committable (c : Z) (g : ghost) (q : Z) : Prop :=
  commits g !! q = None ∧ q ≤ c ∧
  (q ∈ pending g ∨ latest g < q ∧ last_prep g < q ∧ published g < q).

Lemma commit_step s g p c s' ok :
  committable c g p → published g < c → c < kMaxSequenceNumber →
  AddCommitted p c (published g) (GetAll (live g)) s = (s', ok) →
  ∃ g', step (s, g) (s', g') ∧ pending g' = pending g ∧ published g' = published g ∧
    latest g' = latest g ∧ last_prep g' = last_prep g ∧ live g' = live g ∧
    commits g' = if ok then <[p := c]> (commits g) else commits g.
Proof.
  intros (Hn & Hle & Hp) Hpub Hmax Hadd. destruct ok.
  - destruct Hp as [Hp|(? & ? & ?)].
    + exists (with_commit p c (last_direct g) g). split; [by apply step_commit|done].
    + exists (with_commit p c (Z.max (last_direct g) c) g). split; [by apply step_write|done].
  - exists (with_throw g). split; [by eapply step_commit_throws|done].
Qed.

(** What a run of [add_committed_all] over [ps] did: on a throw, the numbers
    before the failing one are committed. *)
Record committed_all (ps : list Z) (c : Z) (g g' : ghost) (ok : bool) : Prop := {
  ca_pending : pending g' = pending g;
  ca_published : published g' = published g;
  ca_latest : latest g' = latest g;
  ca_frame : ∀ q, q ∉ ps → commits g' !! q = commits g !! q;
  ca_done : ok = true → ∀ q, q ∈ ps → commits g' !! q = Some c;
  ca_threw : ok = false → ∃ before q after, ps = before ++ q :: after ∧ max_delta ≤ c - q + 1 ∧
    (∀ x, x ∈ before → commits g' !! x = Some c) ∧
    (∀ x, x ∈ q :: after → commits g' !! x = None);
}.

Lemma add_committed_all_steps ps c s g s' ok :
  inv (s, g) → NoDup ps → (∀ q, q ∈ ps → committable c g q) →
  published g < c → c < kMaxSequenceNumber →
  add_committed_all ps c (published g) (GetAll (live g)) s = (s', ok) →
  ∃ g', rtc step (s, g) (s', g') ∧ committed_all ps c g g' ok.
Proof.
  revert s g. induction ps as [|p ps IH]; intros s g Hinv Hnd Hps Hpub Hmax; cbn [add_committed_all].
  { intros [= <- <-]. exists g. split; [apply rtc_refl|]. split; done || set_solver. }
  apply NoDup_cons in Hnd as [Hnp Hnd]. pose proof Hinv as [_ G].
  destruct (AddCommitted p c (published g) (GetAll (live g)) s) as [s1 b] eqn:E.
  pose proof (Hps p (list_elem_of_here _ _)) as Hp.
  destruct (commit_step s g p c s1 b Hp Hpub Hmax E) as (g1 & Hst & Hpe & Hpu & Hla & Hlp & Hli & Hcm).
  assert (1 ≤ p) as Hp1.
  { pose proof (g_bounds _ G). destruct Hp as (_ & _ & [Hp|?]); [apply (g_pending _ G) in Hp|]; simpl in *; lia. }
  destruct (add_committed_outcome s g p c s1 b Hinv) as [Hout _]; [destruct Hp; lia|done|done|].
  destruct b.
  2: { intros [= <- <-]. exists g1. split; [by apply rtc_once|]. split; try done.
       - intros q _. by rewrite Hcm.
       - intros _. exists [], p, ps. split_and!; [done| |set_solver|].
         + destruct (Z.le_gt_cases max_delta (c - p + 1)); [done|]. destruct Hout as [_ Ho]. discriminate Ho. lia.
         + intros x Hx. rewrite Hcm. by destruct (Hps x Hx). }
  rewrite <- Hpu, <- Hli. intros Hrest.
  destruct (IH s1 g1) as (g' & Hr & [A1 A2 A3 A4 A5 A6]); try done.
  { by eapply step_inv. }
  { intros q Hq. destruct (Hps q (list_elem_of_further _ _ _ Hq)) as (? & ? & ?). unfold committable.
    rewrite Hpe, Hla, Hlp, Hpu, Hcm, lookup_insert_ne by set_solver. done. }
  { by rewrite Hpu. }
  assert (commits g' !! p = Some c) as Hpc.
  { pose proof (rtc_commits_mono _ _ Hr p c) as Hm. apply Hm. simpl. rewrite Hcm. apply lookup_insert_eq. }
  exists g'. split; [by eapply rtc_l|]. split; try congruence.
  - intros q Hq. rewrite A4, Hcm, lookup_insert_ne by set_solver. done.
  - intros Ho q Hq. apply elem_of_cons in Hq as [->|Hq]; [done|by apply A5].
  - intros Ho. destruct (A6 Ho) as (before & q & after & -> & ? & Hb & ?).
    exists (p :: before), q, after. split_and!; try done.
    intros x Hx. apply elem_of_cons in Hx as [->|Hx]; [done|by apply Hb].
Qed.

Lemma remove_steps ps s g :
  NoDup ps → (∀ p, p ∈ ps → p ∈ pending g ∧ 1 ≤ p < kMaxSequenceNumber ∧
    ∃ c, commits g !! p = Some c ∧ c ≤ published g) →
  ∃ g', rtc step (s, g) (fold_left (λ s p, remove_one p s) ps s, g') ∧
    commits g' = commits g ∧ published g' = published g ∧ pending g' = pending g ∖ list_to_set ps.
Proof.
  revert s g. induction ps as [|p ps IH]; intros s g Hnd Hps; cbn [fold_left list_to_set].
  { exists g. split_and!; [apply rtc_refl|done|done|set_solver]. }
  apply NoDup_cons in Hnd as [Hnp Hnd].
  destruct (Hps p (list_elem_of_here _ _)) as (Hp1 & Hp2 & c & Hc & Hle).
  destruct (IH (remove_one p s) (with_remove p g)) as (g' & Hr & Hcm & Hpu & Hpe); [done| |].
  { intros q Hq. destruct (Hps q (list_elem_of_further _ _ _ Hq)) as (? & ? & ?).
    split_and!; [|lia|lia|done]. simpl. set_solver. }
  exists g'. split_and!; [|done|done|rewrite Hpe; simpl; set_solver].
  eapply rtc_l; [|exact Hr]. pose proof kMaxSequenceNumber_ok.
  replace (remove_one p s) with (RemovePrepared p 1 s); [by eapply step_remove|].
  unfold RemovePrepared, batch_seqs. simpl. f_equal. rewrite Z.add_0_r. apply wrap_small.
  unfold in_range. lia.
Qed.

Lemma batch_seqs_plain p n :
  0 ≤ p → p + Z.of_nat n ≤ kMaxSequenceNumber →
  batch_seqs p n = map (λ i, p + Z.of_nat i) (List.seq 0 n).
Proof.
  intros Hp Hn. pose proof kMaxSequenceNumber_ok. apply map_ext_in. intros i Hi%in_seq.
  apply wrap_small. unfold in_range. lia.
Qed.

Lemma batch_seqs_nodup p n :
  0 ≤ p → p + Z.of_nat n ≤ kMaxSequenceNumber →
  NoDup (batch_seqs p n) ∧ ∀ q, q ∈ batch_seqs p n → p ≤ q < p + Z.of_nat n.
Proof.
  intros Hp Hn. rewrite batch_seqs_plain by done. split.
  - apply NoDup_fmap_2; [intros x y; lia|apply NoDup_ListNoDup, seq_NoDup].
  - intros q Hq. apply list_elem_of_In, in_map_iff in Hq as (i & <- & Hi%in_seq). lia.
Qed.

(** The prepared numbers a commit callback commits: the transaction's
    sub-batches, if there was a prepare phase, and the auxiliary ones. *)
Definition prepared_batches (p : Z) (np : nat) (a : Z) (na : nat) : list Z :=
  (if p =? kMaxSequenceNumber then [] else batch_seqs p np) ++ batch_seqs a na.

(** The commit number, of the last of [nd] data sub-batches written at [c]. *)
Definition last_commit (c : Z) (nd : nat) : Z := c + Z.max 0 (Z.of_nat nd - 1).

(** What the callback computes, by its two phases. *)
Lemma CommitEntryCallback_unfold p np nd a na two c pub snaps s :
  0 ≤ c → c + Z.of_nat nd ≤ kMaxSequenceNumber →
  CommitEntryCallback p np nd a na two c pub snaps s =
    let preps := prepared_batches p np a na in
    let '(s1, ok) := add_committed_all (preps ++ batch_seqs c nd) (last_commit c nd) pub snaps s in
    if ok && two then (fold_left (λ s p, remove_one p s) preps s1, last_commit c nd, true)
    else (s1, pub, ok).
Proof.
  intros Hc Hnd. pose proof kMaxSequenceNumber_ok. unfold CommitEntryCallback, prepared_batches.
  assert ((if bool_decide (nd ≤ 1)%nat then c else u64 (c + Z.of_nat nd - 1)) = last_commit c nd) as ->.
  { unfold last_commit. case_bool_decide; [lia|]. rewrite wrap_small by (unfold in_range; lia). lia. }
  assert (∀ q n, (if bool_decide (0 < n)%nat then batch_seqs q n else []) = batch_seqs q n) as Hif.
  { intros q [|n]; case_bool_decide; done || lia. }
  rewrite !Hif, <- app_assoc. destruct (p =? kMaxSequenceNumber); cbn [negb];
    destruct (add_committed_all _ _ _ _ s) as [s1 []]; cbn [negb andb]; try done;
    destruct two; try done; rewrite ?fold_left_app; unfold RemovePrepared;
    case_bool_decide; try done; by destruct na; [|lia].
Qed.

(** C9. The commit callback, whatever it commits (the [np] sub-batches of a
    prepared transaction, the [na] auxiliary ones, the [nd] data sub-batches
    written with the commit itself) and whether there are two write queues or
    one, is a run of steps, provided the prepared sub-batches are distinct,
    pending and not committed and the data sub-batches' numbers new. When it
    returns, every sub-batch is committed and nothing else is, all with the
    callback's number or, if it is higher, the last data sub-batch's; with two
    queues that number is published and, after that, exactly the prepared
    sub-batches have left the prepared lists; with one queue neither is done
    here. When it throws, it is at the first sub-batch that lies too far from
    the commit number for the cache's word: those before it are committed, it
    and the others are not, and nothing was published or removed. *)
Theorem CommitEntryCallback_steps p np nd a na (two : bool) c s g s' pub ok :
  let preps := prepared_batches p np a na in
  let all := preps ++ batch_seqs c nd in
  let last := last_commit c nd in
  reachable (s, g) → published g < c → c < kMaxSequenceNumber →
  c + Z.of_nat nd ≤ kMaxSequenceNumber →
  NoDup preps → (∀ q, q ∈ preps → q ∈ pending g ∧ commits g !! q = None ∧ q ≤ c) →
  ((0 < nd)%nat → latest g < c ∧ last_prep g < c ∧
     ∀ q, c ≤ q < c + Z.of_nat nd → commits g !! q = None) →
  CommitEntryCallback p np nd a na two c (published g) (GetAll (live g)) s = (s', pub, ok) →
  ∃ g', rtc step (s, g) (s', g') ∧ published g' = pub ∧
    (∀ q, q ∉ all → commits g' !! q = commits g !! q) ∧
    if ok then
      (∀ q, q ∈ all → commits g' !! q = Some last) ∧
      pub = (if two then last else published g) ∧
      pending g' = (if two then pending g ∖ list_to_set preps else pending g)
    else
      pub = published g ∧ pending g' = pending g ∧
      ∃ before q after, all = before ++ q :: after ∧ max_delta ≤ last - q + 1 ∧
        (∀ x, x ∈ before → commits g' !! x = Some last) ∧
        (∀ x, x ∈ q :: after → commits g' !! x = None).
Proof.
  intros preps all last Hr Hpub Hmax Hn Hnd Hps Hdata. pose proof kMaxSequenceNumber_ok.
  pose proof (reachable_inv _ Hr) as Hinv. pose proof Hinv as [_ G]. simpl in G.
  pose proof (g_bounds _ G) as Hb. destruct (batch_seqs_nodup c nd) as [Hdn Hdr]; [lia|done|].
  rewrite CommitEntryCallback_unfold by lia. cbn zeta. fold preps all last.
  assert (c ≤ last ∧ last < kMaxSequenceNumber ∧ ∀ q, q ∈ batch_seqs c nd → q ≤ last) as (Hcl & Hlm & Hdl).
  { subst last. unfold last_commit. split_and!; [lia|lia|]. intros q Hq. specialize (Hdr q Hq). lia. }
  destruct (add_committed_all all last (published g) (GetAll (live g)) s) as [s1 b] eqn:E.
  destruct (add_committed_all_steps all last s g s1 b Hinv) as (g1 & Hr1 & [Hpe Hpu Hla Hfr Hdone Hthrew]);
    [| |lia|done|done|].
  { apply NoDup_app. split_and!; [done| |done]. intros q Hq Hq'. specialize (Hdr q Hq').
    destruct Hdata as (_ & ? & _); [destruct nd; [by apply not_elem_of_nil in Hq'|lia]|].
    destruct (Hps q Hq) as (Hp & _). apply (g_pending _ G) in Hp. lia. }
  { intros q Hq. apply elem_of_app in Hq as [Hq|Hq].
    - destruct (Hps q Hq) as (? & ? & ?). split_and!; [done|lia|by left].
    - destruct Hdata as (? & ? & Hnone); [destruct nd; [by apply not_elem_of_nil in Hq|lia]|].
      specialize (Hdr q Hq). split_and!; [by apply Hnone|by apply Hdl|right; lia]. }
  destruct b; cbn [andb].
  2: { intros [= <- <- <-]. exists g1. split_and!; try done. by apply Hthrew. }
  destruct two; intros [= <- <- <-]; [|by exists g1; split_and!; try done; by apply Hdone].
  assert (reachable (s1, g1)) as Hr' by (unfold reachable; by etrans).
  pose proof (proj2 (reachable_inv _ Hr')) as G1. simpl in G1. pose proof (g_bounds _ G1).
  assert (step (s1, g1) (s1, with_published last (latest g1) g1)) as Hstep.
  { apply step_publish; [lia|lia|lia|lia|]. intros q d Hq Hl.
    destruct (g_latest _ G1 q d Hq Hl); [by left|right; lia]. }
  destruct (remove_steps preps s1 (with_published last (latest g1) g1) Hnd) as (g2 & Hr2 & Hc2 & Hpu2 & Hpe2).
  { intros q Hq. destruct (Hps q Hq) as (Hp & ? & ?). apply (g_pending _ G) in Hp as Hp'.
    split_and!; [by simpl; rewrite Hpe|lia|lia|]. exists last. split; [|done].
    apply Hdone; [done|]. apply elem_of_app. by left. }
  exists g2. split_and!.
  - etrans; [exact Hr1|]. eapply rtc_l; [exact Hstep|exact Hr2].
  - done.
  - intros q Hq. rewrite Hc2. by apply Hfr.
  - intros q Hq. rewrite Hc2. by apply Hdone.
  - done.
  - by rewrite Hpe2; simpl; rewrite Hpe.
Qed.
End system.

(** ** A run *)
#[global] Instance seq_56_ok : SeqParamsOk.
Proof. split. vm_compute. split; congruence. Qed.

(** A list of live snapshots as the DB keeps it. *)
#[global] Instance sorted_list : SnapshotList :=
  {| GetAll live max := foldr upper_bound_insert [] (filter (λ k, k ≤ max) live) |}.
#[global] Instance sorted_list_ok : SnapshotListOk.
Proof.
  split; intros live max; simpl.
  - induction (filter _ live); simpl; [constructor|by apply upper_bound_insert_sorted].
  - intros k. rewrite (and_comm (k ∈ live)), <- (list_elem_of_filter (λ k, k ≤ max) live k).
    induction (filter _ live); simpl; [done|]. rewrite elem_of_upper_bound_insert, elem_of_cons.
    by rewrite IHl.
Qed.

(** Two numbers prepared, the first committed at 3 and removed, a snapshot at 3. *)
Definition run_s2 : WritePreparedTxnDB := AddPrepared 2 (AddPrepared 1 Init).
Definition run_s3 : WritePreparedTxnDB := fst (AddCommitted 1 3 2 (GetAll []) run_s2).
Definition run_g2 : ghost :=
  with_published 2 2 (with_prepare 2 (with_published 1 1 (with_prepare 1 (snd init_sys)))).
Definition run_g3 : ghost := with_published 3 2 (with_commit 1 3 0 run_g2).
Definition run_s4 : WritePreparedTxnDB := RemovePrepared 1 1 run_s3.
Definition run_end : sys := (run_s4, with_snapshot 3 2 (with_min 2 (with_remove 1 run_g3))).

Lemma run_reachable : reachable run_end.
Proof.
  eapply rtc_l; [apply (step_prepare Init (snd init_sys) 1); vm_compute; congruence|].
  eapply rtc_l; [apply (step_publish _ _ 1 1); try (vm_compute; congruence); intros ? ? H; vm_compute in H; congruence|].
  eapply rtc_l; [apply (step_prepare _ _ 2); vm_compute; congruence|].
  eapply rtc_l; [apply (step_publish _ _ 2 2); try (vm_compute; congruence); intros ? ? H; vm_compute in H; congruence|].
  change (rtc step (run_s2, run_g2) run_end).
  eapply rtc_l; [apply (step_commit run_s2 run_g2 1 3 run_s3);
    [vm_compute; congruence|vm_compute; set_solver|lia|vm_compute; congruence|vm_compute; congruence|vm_compute; reflexivity]|].
  eapply rtc_l; [apply (step_publish _ _ 3 2); try (vm_compute; congruence)|].
  { intros q c Hq Hle. left. change (<[1 := 3]> (∅ : gmap Z Z) !! q = Some c) in Hq.
    apply lookup_insert_Some in Hq as [[<- _]|[_ Hq]]; [vm_compute; set_solver|by rewrite lookup_empty in Hq]. }
  change (rtc step (run_s3, run_g3) run_end).
  eapply rtc_l; [apply (step_remove _ _ 1 3); [vm_compute; set_solver|reflexivity|vm_compute; congruence]|].
  eapply rtc_l; [apply step_min_uncommitted|].
  replace (SmallestUnCommittedSeq _ _) with 2 by (vm_compute; reflexivity).
  eapply rtc_l; [|apply rtc_refl].
  apply (step_snapshot run_s4 (with_min 2 (with_remove 1 run_g3)) 2); [by constructor|].
  right. vm_compute. congruence.
Qed.

Lemma run_known : known 1 run_end ∧ known 2 run_end.
Proof. split; [right|left]; vm_compute; [by eexists|set_solver]. Qed.

Example IsInSnapshot_correct_witness :
  IsInSnapshot (λ _, fst run_end) 2 3 2 = Some (false, false) ∧
  (false = true ↔ ∃ c, commits (snd run_end) !! 2 = Some c ∧ c ≤ 3).
Proof.
  split; [vm_compute; reflexivity|].
  apply (IsInSnapshot_correct (λ _, run_end) 2 3 2 false false (λ _, rtc_refl _ _) run_reachable).
  - by constructor.
  - apply run_known.
  - vm_compute. reflexivity.
Defined.

Example IsInSnapshot_total_witness :
  ∃ b, IsInSnapshot (λ _, fst run_end) 1 3 2 = Some (b, false) ∧
    (b = true ↔ ∃ c, commits (snd run_end) !! 1 = Some c ∧ c ≤ 3).
Proof.
  apply (IsInSnapshot_total run_end 1 3 2 run_reachable); [by constructor|by constructor|].
  apply run_known.
Defined.

(** The second number then commits at 5, after the snapshot at 3, and a write
    to the same slot of the cache evicts it. *)
Definition run_s5 : WritePreparedTxnDB := fst (AddCommitted 2 5 3 (GetAll [3]) run_s4).
Definition run_g5 : ghost := with_published 5 2 (with_commit 2 5 0 (snd run_end)).
Definition run_s6 : WritePreparedTxnDB := fst (AddCommitted 8388610 8388610 5 (GetAll [3]) run_s5).
Definition run_evict : sys := (run_s6, with_commit 8388610 8388610 8388610 run_g5).

Lemma run_evict_reachable : reachable run_evict.
Proof.
  unfold reachable; etrans; [exact run_reachable|].
  eapply rtc_l; [apply (step_commit run_s4 (snd run_end) 2 5 run_s5);
    [vm_compute; congruence|vm_compute; set_solver|lia|vm_compute; congruence..|vm_compute; reflexivity]|].
  eapply rtc_l; [apply (step_publish _ _ 5 2); try (vm_compute; congruence)|].
  { intros q c Hq _. change (<[2 := 5]> (<[1 := 3]> (∅ : gmap Z Z)) !! q = Some c) in Hq. right.
    apply lookup_insert_Some in Hq as [[_ <-]|[_ Hq]]; [lia|].
    apply lookup_insert_Some in Hq as [[_ <-]|[_ Hq]]; [lia|by rewrite lookup_empty in Hq]. }
  change (rtc step (run_s5, run_g5) run_evict).
  apply rtc_once. apply (step_write run_s5 run_g5 8388610 8388610 run_s6); try (vm_compute; congruence).
Qed.

Example reachable_lists_exact_witness :
  old_commit_map_ (fst run_evict) !! 3 = Some [2] ∧
  ∃ c, commits (snd run_evict) !! 2 = Some c ∧ 2 ≤ 3 < c ∧ c ≤ max_evicted_seq_ (fst run_evict) ∧
    (threw (snd run_evict) = false → cached_commit 2 (fst run_evict) = None).
Proof.
  assert (old_commit_map_ (fst run_evict) !! 3 = Some [2]) as Hk by (vm_compute; reflexivity).
  split; [exact Hk|].
  destruct (reachable_lists_exact run_evict run_evict_reachable) as (_ & _ & _ & _ & _ & Hv).
  destruct (Hv 3 [2] Hk) as [_ Hp]. apply Hp. by constructor.
Defined.

(** A commit too far from its prepare is refused, one that fits is not. *)
Example AddCommitted_outcome_witness :
  snd (AddCommitted 2 (2 ^ 32) 3 (GetAll [3]) run_s4) = false ∧
  (true = true ↔ 4 - 2 + 1 < max_delta).
Proof.
  split; [vm_compute; reflexivity|].
  apply (AddCommitted_outcome run_end 2 4 (fst (AddCommitted 2 4 3 (GetAll [3]) run_s4)) true run_reachable);
    try (vm_compute; congruence); lia.
Defined.

Example GetSnapshotInternal_above_max_witness :
  GetSnapshotInternal 5 3 4 (λ i, (4, 4 + Z.of_nat i)) run_s2 = Some (5, 1) ∧
  1 = SmallestUnCommittedSeq 5 run_s2.
Proof.
  split; [vm_compute; reflexivity|].
  apply (GetSnapshotInternal_above_max 5 3 4 (λ i, (4, 4 + Z.of_nat i)) run_s2 5 1).
  vm_compute. reflexivity.
Defined.

(** The second number commits at 5, with a data sub-batch at 5 and one at 6. *)
Example CommitEntryCallback_steps_witness :
  ∃ s', CommitEntryCallback 2 1 2 kMaxSequenceNumber 0 true 5 3 (GetAll [3]) run_s4 = (s', 6, true) ∧
    ∃ g', rtc step run_end (s', g') ∧ published g' = 6 ∧ pending g' = ∅.
Proof.
  eexists (fst (fst (CommitEntryCallback 2 1 2 kMaxSequenceNumber 0 true 5 3 (GetAll [3]) run_s4))).
  split; [vm_compute; reflexivity|].
  destruct (CommitEntryCallback_steps 2 1 2 kMaxSequenceNumber 0 true 5 run_s4 (snd run_end)
    (fst (fst (CommitEntryCallback 2 1 2 kMaxSequenceNumber 0 true 5 3 (GetAll [3]) run_s4))) 6 true
    run_reachable) as (g' & Hr & Hp & _ & _ & _ & Hpe); try (vm_compute; congruence).
  - apply NoDup_singleton.
  - intros q Hq. assert (q = 2) as -> by (apply list_elem_of_singleton in Hq; by rewrite Hq).
    split_and!; [vm_compute; set_solver|vm_compute; reflexivity|lia].
  - intros _. split_and!; [vm_compute; reflexivity|vm_compute; reflexivity|]. intros q Hq.
    change (<[1 := 3]> (∅ : gmap Z Z) !! q = None). rewrite lookup_insert_ne by lia. apply lookup_empty.
  - exists g'. split_and!; [done|done|]. rewrite Hpe. vm_compute. reflexivity.
Defined.
