(* ===== verification/SubBatch.v ===== *)
(** * Sub-batches of a write batch (SubBatchCounter, write_prepared_txn_db.h and .cc)

    A write batch that writes a key twice is split into sub-batches; each gets a
    sequence number of its own. The counter is a greedy scan; it finds the least
    number of consecutive sub-batches without duplicate keys. *)
From S2P Require Import Prelude.

Section sub_batches.
Variable compare : Z → bytes → bytes → Z.

Record SubBatchCounter := mkCounter {
  keys_ : gmap Z (list bytes);
  batches_ : Z;
}.

Definition new_counter : SubBatchCounter := mkCounter ∅ 1.

Definition InitWithComp (cf : Z) (c : SubBatchCounter) : SubBatchCounter :=
  mkCounter (<[cf := []]> (keys_ c)) (batches_ c).

(** Insertion into a [std::set] ordered by the comparator: [false] when a key
    that is neither smaller nor larger is there. *)
Definition same_key (cf : Z) (k1 k2 : bytes) : bool :=
  negb (compare cf k1 k2 <? 0) && negb (compare cf k2 k1 <? 0).
Definition insert_key (cf : Z) (key : bytes) (ks : list bytes) : list bytes * bool :=
  if existsb (same_key cf key) ks then (ks, false) else (ks ++ [key], true).

Definition AddKey (cf : Z) (key : bytes) (c : SubBatchCounter) : SubBatchCounter :=
  let c := match keys_ c !! cf with
           | None | Some [] => InitWithComp cf c
           | Some _ => c
           end in
  let '(ks, inserted) := insert_key cf key (default [] (keys_ c !! cf)) in
  if inserted then mkCounter (<[cf := ks]> (keys_ c)) (batches_ c)
  else
    let c := InitWithComp cf (mkCounter ∅ (batches_ c + 1)) in
    mkCounter (<[cf := fst (insert_key cf key [])]> (keys_ c)) (batches_ c).

Definition BatchCount (keys : list (Z * bytes)) : Z :=
  batches_ (fold_left (λ c k, AddKey (fst k) (snd k) c) keys new_counter).

(** ** The greedy scan *)

Definition dup (cur : list (Z * bytes)) (k : Z * bytes) : bool :=
  existsb (λ x, (fst x =? fst k) && same_key (fst k) (snd k) (snd x)) cur.

(** Sub-batches started while adding [keys] to the sub-batch [cur]. *)
Fixpoint extra (cur keys : list (Z * bytes)) : Z :=
  match keys with
  | [] => 0
  | k :: keys' => if dup cur k then 1 + extra [k] keys' else extra (cur ++ [k]) keys'
  end.

(** No key repeats an earlier one of the same column family. *)
Fixpoint distinct_from (cur keys : list (Z * bytes)) : Prop :=
  match keys with
  | [] => True
  | k :: keys' => dup cur k = false ∧ distinct_from (cur ++ [k]) keys'
  end.
Definition distinct (keys : list (Z * bytes)) : Prop := distinct_from [] keys.

Lemma dup_app l1 l2 k : dup (l1 ++ l2) k = dup l1 k || dup l2 k.
Proof. apply existsb_app. Qed.

(** The counter holds the keys of the current sub-batch. *)
Definition holds (c : SubBatchCounter) (cur : list (Z * bytes)) : Prop :=
  ∀ cf, default [] (keys_ c !! cf) = map snd (filter (λ x, fst x = cf) cur).

Lemma dup_held c cur cf key :
  holds c cur → dup cur (cf, key) = existsb (same_key cf key) (default [] (keys_ c !! cf)).
Proof.
  intros Hc. rewrite Hc. clear Hc. induction cur as [|[cf' k'] cur IH]; [done|]. simpl.
  rewrite filter_cons. simpl. destruct (decide (cf' = cf)) as [->|Hne].
  - rewrite Z.eqb_refl. simpl. by rewrite <- IH.
  - destruct (Z.eqb_spec cf' cf); [done|]. by rewrite <- IH.
Qed.

Lemma AddKey_holds c cur k :
  holds c cur →
  let c' := AddKey (fst k) (snd k) c in
  if dup cur k then holds c' [k] ∧ batches_ c' = batches_ c + 1
  else holds c' (cur ++ [k]) ∧ batches_ c' = batches_ c.
Proof.
  destruct k as [cf key]. intros Hc c'. rewrite (dup_held c cur) by done. subst c'. simpl.
  set (c1 := match keys_ c !! cf with None | Some [] => InitWithComp cf c | Some _ => c end).
  assert (holds c1 cur ∧ batches_ c1 = batches_ c) as [Hc1 Hb1].
  { subst c1. destruct (keys_ c !! cf) as [[|? ?]|] eqn:E; try done; (split; [|done]);
      intros cf'; simpl; (destruct (decide (cf' = cf)) as [->|Hne];
        [rewrite lookup_insert_eq, <- Hc, E|rewrite lookup_insert_ne by done]; done). }
  unfold AddKey. fold c1. unfold insert_key. rewrite (Hc1 cf), <- (Hc cf).
  destruct (existsb _ _) eqn:E; simpl.
  - split; [|by rewrite Hb1]. intros cf'. simpl. rewrite filter_cons. simpl.
    destruct (decide (cf = cf')) as [<-|Hne]; [by rewrite lookup_insert_eq|].
    by rewrite !lookup_insert_ne by done.
  - split; [|done]. intros cf'. simpl. rewrite filter_app, map_app, filter_cons. simpl.
    destruct (decide (cf = cf')) as [<-|Hne].
    + by rewrite lookup_insert_eq, Hc.
    + rewrite lookup_insert_ne by done. by rewrite Hc1, app_nil_r.
Qed.

Lemma BatchCount_extra_from keys c cur :
  holds c cur →
  batches_ (fold_left (λ c k, AddKey (fst k) (snd k) c) keys c) = batches_ c + extra cur keys.
Proof.
  revert c cur. induction keys as [|k keys IH]; intros c cur Hc; cbn [fold_left extra]; [lia|].
  pose proof (AddKey_holds c cur k Hc) as Hk. cbv zeta in Hk.
  destruct (dup cur k); destruct Hk as [Hk Hb]; rewrite (IH _ _ Hk), Hb; lia.
Qed.

Lemma BatchCount_extra keys : BatchCount keys = 1 + extra [] keys.
Proof. apply BatchCount_extra_from. intros cf. by simpl. Qed.

(** A longer current sub-batch costs at most one more. *)
Lemma extra_suffix l cur keys : extra cur keys ≤ extra (l ++ cur) keys ≤ 1 + extra cur keys.
Proof.
  revert l cur. induction keys as [|k keys IH]; intros l cur; cbn [extra]; [lia|].
  rewrite dup_app. destruct (dup cur k) eqn:E.
  - rewrite orb_true_r. lia.
  - rewrite orb_false_r. destruct (dup l k).
    + destruct (IH cur [k]). lia.
    + rewrite <- app_assoc. apply IH.
Qed.

Lemma distinct_from_suffix l cur s : distinct_from (l ++ cur) s → distinct_from cur s.
Proof.
  revert cur. induction s as [|k s IH]; intros cur; [done|]. simpl. rewrite dup_app, <- app_assoc.
  intros [Hd Hs]. apply orb_false_iff in Hd as [_ Hd]. auto.
Qed.

(** A duplicate-free run costs nothing on top of a sub-batch it extends. *)
Lemma extra_distinct cur s rest : distinct_from cur s → extra cur (s ++ rest) = extra (cur ++ s) rest.
Proof.
  revert cur. induction s as [|k s IH]; intros cur; simpl; [by rewrite app_nil_r|].
  intros [-> Hs]. rewrite IH by done. by rewrite <- app_assoc.
Qed.

Lemma extra_segment l cur s rest :
  distinct_from cur s → extra (l ++ cur) (s ++ rest) ≤ 1 + extra (cur ++ s) rest.
Proof.
  revert l cur. induction s as [|k s IH]; intros l cur; simpl.
  { intros _. rewrite app_nil_r. apply extra_suffix. }
  intros [Hk Hs]. rewrite dup_app, Hk, orb_false_r. destruct (dup l k).
  - rewrite extra_distinct by (by eapply distinct_from_suffix).
    replace (cur ++ k :: s) with (cur ++ [k] ++ s) by done.
    pose proof (extra_suffix cur ([k] ++ s) rest). lia.
  - rewrite <- app_assoc. replace (cur ++ k :: s) with ((cur ++ [k]) ++ s) by (by rewrite <- app_assoc).
    by apply IH.
Qed.

Lemma extra_partition segs cur :
  Forall distinct segs → extra cur (concat segs) ≤ Z.of_nat (length segs).
Proof.
  intros Hs. revert cur. induction Hs as [|s segs Hd Hs IH]; intros cur; cbn [concat length]; [done|].
  pose proof (extra_segment cur [] s (concat segs) Hd) as H. rewrite app_nil_r in H. simpl in H.
  specialize (IH s). lia.
Qed.

(** The partition the scan finds. *)
Lemma extra_witness keys cur :
  ∃ s segs, keys = s ++ concat segs ∧ distinct_from cur s ∧ Forall distinct segs ∧
    Z.of_nat (length segs) = extra cur keys.
Proof.
  revert cur. induction keys as [|k keys IH]; intros cur; cbn [extra].
  { by exists [], []. }
  destruct (dup cur k) eqn:E.
  - destruct (IH [k]) as (s & segs & -> & Hs & Hsegs & Hlen).
    exists [], ((k :: s) :: segs). split_and!; [done|done| |simpl; lia].
    constructor; [|done]. split; [done|]. exact Hs.
  - destruct (IH (cur ++ [k])) as (s & segs & -> & Hs & Hsegs & Hlen).
    by exists (k :: s), segs.
Qed.

(** [SubBatchCounter] finds the least number of sub-batches: the batch
    splits into [BatchCount] consecutive runs of keys without duplicates, and
    no split into such runs has fewer. *)
Theorem BatchCount_minimal keys :
  keys ≠ [] →
  (∃ segs, concat segs = keys ∧ Forall distinct segs ∧ Z.of_nat (length segs) = BatchCount keys) ∧
  (∀ segs, concat segs = keys → Forall distinct segs → BatchCount keys ≤ Z.of_nat (length segs)).
Proof.
  intros Hne. rewrite BatchCount_extra. split.
  - destruct (extra_witness keys []) as (s & segs & Hk & Hs & Hsegs & Hlen).
    exists (s :: segs). split_and!; [by symmetry|by constructor|simpl; lia].
  - intros segs <- Hs. destruct Hs as [|s segs Hd Hs]; [done|]. cbn [concat length].
    rewrite extra_distinct by done. pose proof (extra_partition segs ([] ++ s) Hs). lia.
Qed.
End sub_batches.

(** Keys compared as byte strings of length one, by value. *)
Example BatchCount_minimal_witness :
  let cmp := λ (_ : Z) (a b : bytes), byte_at a 0 - byte_at b 0 in
  let keys := [(0, [1]); (0, [2]); (1, [1]); (0, [1]); (1, [2]); (0, [1])] in
  BatchCount cmp keys = 3 ∧
  ∀ segs, concat segs = keys → Forall (distinct cmp) segs → BatchCount cmp keys ≤ Z.of_nat (length segs).
Proof.
  intros cmp keys. split; [reflexivity|].
  apply (BatchCount_minimal cmp keys). discriminate.
Defined.
