(* ===== verification/HashMap.v ===== *)
(** * The chained hash map (HashMap, util/hash_map.h)

    A fixed array of buckets; a bucket is a small vector of pairs. Deletion
    moves the last pair into the hole. Keys are unsigned integers. *)
From S2P Require Import Prelude.

Section hash_map.
Context {V : Type}.

#[local] Abbreviation bucket := (list (Z * V)) (only parsing).
Record HashMap := mkHashMap { table_ : list bucket }.

Definition hm_size : Z := 128.
Definition new_hash_map : HashMap := mkHashMap (replicate (Z.to_nat hm_size) []).

Definition slot (key : Z) : nat := Z.to_nat (key mod hm_size).
Definition bucket_of (key : Z) (h : HashMap) : bucket := default [] (table_ h !! slot key).

(** [std::find_if] on the bucket: position and pair. *)
Definition find_key (key : Z) (b : bucket) : option (nat * (Z * V)) := list_find (λ p, p.1 = key) b.

Definition Contains (key : Z) (h : HashMap) : bool :=
  match find_key key (bucket_of key h) with Some _ => true | None => false end.

Definition Insert (key : Z) (value : V) (h : HashMap) : HashMap :=
  mkHashMap (<[slot key := bucket_of key h ++ [(key, value)]]> (table_ h)).

Definition bucket_delete (key : Z) (b : bucket) : bucket :=
  match find_key key b with
  | None => b
  | Some (i, _) =>
      let n := (length b - 1)%nat in
      let b := if decide (i = n) then b
               else match b !! n with Some last => <[i := last]> b | None => b end in
      take n b
  end.

Definition Delete (key : Z) (h : HashMap) : HashMap :=
  mkHashMap (<[slot key := bucket_delete key (bucket_of key h)]> (table_ h)).

(** The reference to the value; [None] where the code dereferences [end()]. *)
Definition Get (key : Z) (h : HashMap) : option V :=
  snd ∘ snd <$> find_key key (bucket_of key h).

(** ** Buckets *)

Definition keys_unique (b : bucket) : Prop := NoDup b.*1.

Lemma find_key_some key b i p :
  find_key key b = Some (i, p) → b !! i = Some p ∧ p.1 = key.
Proof. intros Hf. apply list_find_Some in Hf as (? & ? & _). done. Qed.

Lemma find_key_none key b : find_key key b = None ↔ ∀ v, (key, v) ∉ b.
Proof.
  unfold find_key. rewrite list_find_None, Forall_forall. split.
  - intros Hf v Hin. by apply (Hf _ Hin).
  - intros Hf [k v] Hin Heq. simpl in Heq. subst. by apply (Hf v).
Qed.

Lemma get_bucket key v b :
  keys_unique b → (snd ∘ snd <$> find_key key b = Some v ↔ (key, v) ∈ b).
Proof.
  intros Hu. split.
  - intros Hf. destruct (find_key key b) as [[i [k w]]|] eqn:E; simplify_eq/=.
    apply find_key_some in E as [Hi Hk]. simpl in Hk. subst. by eapply list_elem_of_lookup_2.
  - intros Hin. destruct (find_key key b) as [[i [k w]]|] eqn:E.
    + apply find_key_some in E as [Hi Hk]. simpl in Hk. subst. simpl.
      apply list_elem_of_lookup_2 in Hi. f_equal.
      apply list_elem_of_lookup in Hin as [x Hx]. apply list_elem_of_lookup in Hi as [y Hy].
      assert (x = y) as ->.
      { eapply NoDup_lookup; [exact Hu|by rewrite list_lookup_fmap, Hx|by rewrite list_lookup_fmap, Hy]. }
      rewrite Hx in Hy. by injection Hy as ->.
    + by apply find_key_none with (v := v) in E.
Qed.

(** Moving the last pair into the hole removes exactly the pair found. *)
Lemma bucket_delete_perm key b i p :
  find_key key b = Some (i, p) → p :: bucket_delete key b ≡ₚ b.
Proof.
  intros E. unfold bucket_delete. rewrite E. apply find_key_some in E as [Hi _].
  pose proof (swap_remove_perm b i p Hi) as Hp.
  destruct (decide (i = (length b - 1)%nat)) as [->|]; [|exact Hp].
  rewrite Hi, list_insert_id in Hp by done. exact Hp.
Qed.

(** ** Refinement of a finite map *)

Record map_rel (h : HashMap) (m : gmap Z V) : Prop := {
  mr_size : length (table_ h) = Z.to_nat hm_size;
  mr_unique : ∀ k, keys_unique (bucket_of k h);
  mr_slot : ∀ i b k v, table_ h !! i = Some b → (k, v) ∈ b → slot k = i;
  mr_lookup : ∀ k v, m !! k = Some v ↔ (k, v) ∈ bucket_of k h;
}.

Lemma slot_lt h m k : map_rel h m → (slot k < length (table_ h))%nat.
Proof.
  intros R. rewrite (mr_size _ _ R). unfold slot, hm_size.
  pose proof (Z.mod_pos_bound k 128). lia.
Qed.

Lemma bucket_of_lookup h m k : map_rel h m → table_ h !! slot k = Some (bucket_of k h).
Proof.
  intros R. unfold bucket_of. destruct (lookup_lt_is_Some_2 (table_ h) (slot k)) as [b ->]; [|done].
  by eapply slot_lt.
Qed.

(** Replacing the bucket of [key]. *)
Lemma bucket_of_insert h m key b k :
  map_rel h m →
  bucket_of k (mkHashMap (<[slot key := b]> (table_ h))) = if decide (slot k = slot key) then b else bucket_of k h.
Proof.
  intros R. unfold bucket_of. simpl. destruct (decide (slot k = slot key)) as [->|Hne].
  - rewrite list_lookup_insert_eq; [done|]. by eapply slot_lt.
  - by rewrite list_lookup_insert_ne.
Qed.

Lemma map_rel_update h m key b m' :
  map_rel h m → keys_unique b → (∀ k v, (k, v) ∈ b → slot k = slot key) →
  (∀ k v, m' !! k = Some v ↔ if decide (slot k = slot key) then (k, v) ∈ b else m !! k = Some v) →
  map_rel (mkHashMap (<[slot key := b]> (table_ h))) m'.
Proof.
  intros R Hu Hs Hm. split.
  - simpl. rewrite length_insert. apply R.
  - intros k. rewrite (bucket_of_insert h m) by done. destruct (decide _); [done|apply R].
  - intros i b' k v Hi Hin. simpl in Hi. destruct (decide (i = slot key)) as [->|Hne].
    + rewrite list_lookup_insert_eq in Hi by (by eapply slot_lt). injection Hi as <-. by eapply Hs.
    + rewrite list_lookup_insert_ne in Hi by done. by eapply (mr_slot _ _ R).
  - intros k v. rewrite Hm, (bucket_of_insert h m) by done. destruct (decide _); [done|apply R].
Qed.

Lemma new_hash_map_rel : map_rel new_hash_map ∅.
Proof.
  assert (∀ k, bucket_of k new_hash_map = []) as Hb.
  { intros k. unfold bucket_of, new_hash_map. cbn [table_].
    destruct (_ !! slot k) as [b|] eqn:E; [|done].
    by apply lookup_replicate in E as [-> _]. }
  split.
  - unfold new_hash_map. cbn [table_]. by rewrite length_replicate.
  - intros k. rewrite Hb. constructor.
  - intros i b k v Hi Hin. apply lookup_replicate in Hi as [-> _]. by apply not_elem_of_nil in Hin.
  - intros k v. rewrite Hb, lookup_empty. split; [done|]. intros Hin. by apply not_elem_of_nil in Hin.
Qed.

Lemma bucket_of_slot h m k k' v : map_rel h m → (k', v) ∈ bucket_of k h → slot k' = slot k.
Proof. intros R Hin. eapply (mr_slot _ _ R); [by apply (bucket_of_lookup h m)|done]. Qed.

Lemma insert_rel h m key v :
  map_rel h m → m !! key = None → map_rel (Insert key v h) (<[key := v]> m).
Proof.
  intros R Hn. assert (∀ w, (key, w) ∉ bucket_of key h) as Hnew.
  { intros w Hin. apply (mr_lookup _ _ R) in Hin. congruence. }
  apply (map_rel_update h m); [done| | |].
  - unfold keys_unique. rewrite fmap_app. apply NoDup_app. split_and!.
    + apply (mr_unique _ _ R).
    + intros k Hk Hin. apply list_elem_of_singleton in Hin as ->. simpl in Hk.
      apply list_elem_of_fmap in Hk as ([k w] & Heq & Hin). simpl in Heq. subst. by apply (Hnew w).
    + apply NoDup_singleton.
  - intros k w Hin. apply elem_of_app in Hin as [Hin|Hin].
    + by eapply bucket_of_slot.
    + apply list_elem_of_singleton in Hin. by injection Hin as -> ->.
  - intros k w. rewrite lookup_insert_Some. destruct (decide (slot k = slot key)) as [Hs|Hs].
    + rewrite elem_of_app, list_elem_of_singleton. assert (bucket_of k h = bucket_of key h) as Hb by (unfold bucket_of; by rewrite Hs).
      rewrite (mr_lookup _ _ R), Hb. destruct (decide (key = k)) as [->|Hne]; [|naive_solver].
      specialize (Hnew w). naive_solver.
    + assert (key ≠ k) by (by intros ->). naive_solver.
Qed.

Lemma delete_rel h m key : map_rel h m → map_rel (Delete key h) (delete key m).
Proof.
  intros R. pose proof (mr_unique _ _ R key) as Hu.
  assert (keys_unique (bucket_delete key (bucket_of key h)) ∧
    ∀ k v, (k, v) ∈ bucket_delete key (bucket_of key h) ↔ k ≠ key ∧ (k, v) ∈ bucket_of key h) as [Hu' Hin'].
  { destruct (find_key key (bucket_of key h)) as [[i [k0 v0]]|] eqn:E.
    - pose proof (bucket_delete_perm _ _ _ _ E) as Hp. apply find_key_some in E as [_ Hk]. simpl in Hk. subst k0.
      assert (NoDup ((key, v0) :: bucket_delete key (bucket_of key h)).*1) as Hnd by (by rewrite Hp).
      simpl in Hnd. apply NoDup_cons in Hnd as [Hni Hnd]. split; [done|]. intros k v.
      assert ((k, v) ∈ bucket_of key h ↔ (k, v) = (key, v0) ∨ (k, v) ∈ bucket_delete key (bucket_of key h)) as ->
        by (rewrite <- Hp at 1; apply elem_of_cons). split.
      + intros Hin. split; [|by right]. intros ->. apply Hni. apply list_elem_of_fmap. by exists (key, v).
      + intros [Hne [Heq|]]; [by injection Heq as -> ->|done].
    - unfold bucket_delete. rewrite E. split; [done|]. intros k v. split; [|tauto].
      intros Hin. split; [|done]. intros ->. by apply find_key_none with (v := v) in E. }
  apply (map_rel_update h m); [done|done| |].
  - intros k v Hin. apply Hin' in Hin as [_ Hin]. by eapply bucket_of_slot.
  - intros k v. rewrite lookup_delete_Some. destruct (decide (slot k = slot key)) as [Hs|Hs].
    + rewrite Hin'. assert (bucket_of k h = bucket_of key h) as Hb by (unfold bucket_of; by rewrite Hs).
      rewrite (mr_lookup _ _ R), Hb. naive_solver.
    + assert (key ≠ k) by (by intros ->). naive_solver.
Qed.

Lemma get_rel h m key : map_rel h m → Get key h = m !! key ∧ Contains key h = bool_decide (is_Some (m !! key)).
Proof.
  intros R. pose proof (get_bucket key) as Hg.
  assert (Get key h = m !! key) as Heq.
  { apply option_eq. intros v. unfold Get. rewrite Hg by apply R. symmetry. apply R. }
  split; [done|]. rewrite <- Heq. unfold Get, Contains. by destruct (find_key _ _).
Qed.

(** ** Runs of operations *)
Inductive hm_op := HInsert (k : Z) (v : V) | HDelete (k : Z).

Definition hm_run (h : HashMap) (o : hm_op) : HashMap :=
  match o with HInsert k v => Insert k v h | HDelete k => Delete k h end.
Definition map_run (m : gmap Z V) (o : hm_op) : gmap Z V :=
  match o with HInsert k v => <[k := v]> m | HDelete k => delete k m end.

(** The callers insert a key only when it is absent. *)
Fixpoint inserts_fresh (m : gmap Z V) (ops : list hm_op) : Prop :=
  match ops with
  | [] => True
  | o :: ops' =>
      match o with HInsert k _ => m !! k = None | HDelete _ => True end ∧
      inserts_fresh (map_run m o) ops'
  end.

(** The hash map refines a finite map: after any run of deletions and of
    insertions of absent keys, [Get] and [Contains] answer for every key as the
    map does, whatever the collisions. *)
Theorem HashMap_refines_map ops key :
  inserts_fresh ∅ ops →
  let h := fold_left hm_run ops new_hash_map in
  let m := fold_left map_run ops ∅ in
  Get key h = m !! key ∧ Contains key h = bool_decide (is_Some (m !! key)).
Proof.
  intros Hf h m. apply get_rel. subst h m. revert Hf.
  generalize new_hash_map_rel. generalize new_hash_map as h, (∅ : gmap Z V) as m.
  induction ops as [|o ops IH]; intros h m R; cbn [inserts_fresh fold_left]; [done|].
  intros [Ho Hf]. apply IH; [|done]. destruct o as [k v|k]; [by apply insert_rel|by apply delete_rel].
Qed.
End hash_map.

Arguments HashMap : clear implicits.

(** Keys 5, 133 and 261 share a bucket. *)
Example HashMap_refines_map_witness :
  let ops := [HInsert 5 1; HInsert 133 2; HInsert 261 3; HDelete 5] in
  let h := fold_left hm_run ops new_hash_map in
  Get 261 h = Some 3 ∧
  Get 133 h = fold_left map_run ops ∅ !! 133.
Proof.
  intros ops h. split; [reflexivity|].
  apply (HashMap_refines_map ops 133). repeat split.
Defined.
