(* ===== verification/DeadlockBuffer.v ===== *)
(** * The buffer of recent deadlocks
      (DeadlockInfoBuffer, transaction_lock_mgr.h and .cc; DeadlockPath,
      include/rocksdb/utilities/transaction_db.h)

    A ring buffer of deadlock paths. An operation is [None] where the code
    accesses the vector beyond its end. *)
From S2P Require Import Prelude.

Record DeadlockInfo := mkDeadlockInfo {
  m_txn_id : Z;
  m_cf_id : Z;
  m_exclusive : bool;
  m_waiting_key : bytes;
}.

Record DeadlockPath := mkDeadlockPath {
  path : list DeadlockInfo;
  limit_exceeded : bool;
  deadlock_time : Z;
}.

Definition no_path : DeadlockPath := mkDeadlockPath [] false 0.
Definition path_empty (p : DeadlockPath) : bool :=
  match path p with [] => negb (limit_exceeded p) | _ => false end.

Record DeadlockInfoBuffer := mkBuffer {
  paths_buffer_ : list DeadlockPath;
  buffer_idx_ : nat;
}.

Definition new_buffer (n_latest_dlocks : nat) : DeadlockInfoBuffer :=
  mkBuffer (replicate n_latest_dlocks no_path) 0.

Definition AddNewPath (p : DeadlockPath) (b : DeadlockInfoBuffer) : option DeadlockInfoBuffer :=
  match paths_buffer_ b with
  | [] => Some b
  | _ =>
      if decide (buffer_idx_ b < length (paths_buffer_ b))%nat
      then Some (mkBuffer (<[buffer_idx_ b := p]> (paths_buffer_ b))
                   ((buffer_idx_ b + 1) mod length (paths_buffer_ b)))
      else None
  end.

(** [vector::resize] and [std::rotate]. *)
Definition vec_resize (n : nat) (l : list DeadlockPath) : list DeadlockPath :=
  take n l ++ replicate (n - length l) no_path.
Definition rotate (n : nat) (l : list DeadlockPath) : list DeadlockPath := drop n l ++ take n l.

Definition Normalize (b : DeadlockInfoBuffer) : option (list DeadlockPath) :=
  let working := paths_buffer_ b in
  match working with
  | [] => Some working
  | _ =>
      match working !! buffer_idx_ b with
      | None => None
      | Some p =>
          if path_empty p then Some (vec_resize (buffer_idx_ b) working)
          else Some (rotate (buffer_idx_ b) working)
      end
  end.

Definition Resize (target_size : nat) (b : DeadlockInfoBuffer) : option DeadlockInfoBuffer :=
  match Normalize b with
  | None => None
  | Some paths =>
      if decide (target_size < length paths)%nat
      then Some (mkBuffer (drop (length paths - target_size) paths) 0)
      else Some (mkBuffer (vec_resize target_size paths) (length paths))
  end.

Definition PrepareBuffer (b : DeadlockInfoBuffer) : option (list DeadlockPath) :=
  option_map (@rev DeadlockPath) (Normalize b).

(** ** The latest paths, newest first *)

(** [b] has room for [n] paths and holds [h], newest first. *)
Inductive holds_latest (n : nat) : DeadlockInfoBuffer → list DeadlockPath → Prop :=
  | hl_room h :
      (length h < n)%nat → Forall (λ p, path_empty p = false) h →
      holds_latest n (mkBuffer (rev h ++ replicate (n - length h) no_path) (length h)) h
  | hl_full paths idx h :
      length h = n → length paths = n → (idx < n ∨ n = 0 ∧ idx = 0)%nat →
      Forall (λ p, path_empty p = false) h → rotate idx paths = rev h →
      holds_latest n (mkBuffer paths idx) h.

Lemma new_buffer_holds n : holds_latest n (new_buffer n) [].
Proof.
  destruct n as [|n]; [by apply hl_full; [..|done|done]; auto|].
  apply (hl_room (S n) []); [simpl; lia|constructor].
Qed.

Lemma vec_resize_app l k : vec_resize (length l) (l ++ k) = l.
Proof.
  unfold vec_resize. rewrite take_app_length, length_app.
  replace (length l - (length l + length k))%nat with 0%nat by lia. by rewrite app_nil_r.
Qed.

Lemma normalize_holds n b h : holds_latest n b h → Normalize b = Some (rev h).
Proof.
  intros Hh. unfold Normalize. destruct Hh as [h Hlt Hne|paths idx h Hl Hp Hi Hne Hr]; cbn [paths_buffer_ buffer_idx_].
  - destruct (rev h ++ replicate (n - length h) no_path) as [|x l] eqn:E.
    { apply (f_equal length) in E. rewrite length_app, length_replicate in E. simpl in E. lia. }
    rewrite <- E. rewrite lookup_app_r by (rewrite length_rev; lia).
    rewrite length_rev, Nat.sub_diag. destruct (n - length h)%nat eqn:En; [lia|]. simpl.
    rewrite <- (length_rev h) at 1. f_equal. apply vec_resize_app.
  - destruct paths as [|x l] eqn:E; [rewrite <- Hr; unfold rotate; by rewrite drop_nil, take_nil|].
    rewrite <- E in *. destruct (lookup_lt_is_Some_2 paths idx) as [p Hpi]; [subst; simpl in *; lia|].
    rewrite Hpi. assert (path_empty p = false) as ->; [|by rewrite Hr].
    assert (p ∈ h) as Hin.
    { apply elem_of_reverse. unfold reverse. rewrite <- rev_alt, <- Hr. unfold rotate.
      rewrite elem_of_app. left. apply list_elem_of_lookup. exists 0%nat.
      by rewrite lookup_drop, Nat.add_0_r. }
    rewrite Forall_forall in Hne. auto.
Qed.

Lemma add_holds n b h p :
  holds_latest n b h → path_empty p = false →
  ∃ b', AddNewPath p b = Some b' ∧ holds_latest n b' (take n (p :: h)).
Proof.
  intros Hh Hp. unfold AddNewPath. destruct Hh as [h Hlt Hne|paths idx h Hl Hpl Hi Hne Hr]; cbn [paths_buffer_ buffer_idx_].
  - set (l := rev h ++ replicate (n - length h) no_path).
    assert (length l = n) as Hlen by (subst l; rewrite length_app, length_rev, length_replicate; lia).
    assert (<[length h := p]> l = rev (p :: h) ++ replicate (n - S (length h)) no_path) as Hins.
    { subst l. rewrite insert_app_r_alt by (rewrite length_rev; lia).
      rewrite length_rev, Nat.sub_diag. destruct (n - length h)%nat eqn:En; [lia|].
      replace (n - S (length h))%nat with n0 by lia. simpl. by rewrite <- app_assoc. }
    clearbody l. rewrite take_ge by (simpl; lia).
    destruct l as [|x l'] eqn:E; [simpl in Hlen; lia|]. rewrite <- E in *.
    rewrite Hlen, decide_True by lia. eexists. split; [done|]. rewrite Hins.
    destruct (decide (S (length h) = n)) as [Hfull|Hroom].
    + replace (length h + 1)%nat with n by lia. rewrite Nat.Div0.mod_same.
      apply hl_full; [done| |lia|by constructor|].
      * rewrite length_app, length_rev, length_replicate. simpl. lia.
      * unfold rotate. rewrite drop_0, take_0, app_nil_r.
        replace (n - S (length h))%nat with 0%nat by lia. by rewrite app_nil_r.
    + rewrite Nat.mod_small by lia. replace (length h + 1)%nat with (length (p :: h)) by (simpl; lia).
      change (S (length h)) with (length (p :: h)). apply hl_room; [simpl; lia|by constructor].
  - destruct paths as [|x l] eqn:E.
    { simpl in Hpl. subst n. eexists. split; [done|]. rewrite <- Hpl. destruct h; [|done].
      apply hl_full; [done|done|lia|constructor|done]. }
    assert (idx < n)%nat as Hlt by (simpl in Hpl; lia). rewrite <- E in *. rewrite Hpl. clear Hi.
    rewrite decide_True by lia. eexists. split; [done|].
    destruct (lookup_lt_is_Some_2 paths idx) as [q Hq]; [lia|].
    assert (take n (p :: h) = p :: take (n - 1) h) as Ht by (destruct n; [lia|]; simpl; by rewrite Nat.sub_0_r).
    assert (rev (take n (p :: h)) = drop (S idx) paths ++ take idx paths ++ [p]) as Hrev.
    { rewrite Ht. simpl. rewrite app_assoc. f_equal. unfold rotate in Hr.
      rewrite (drop_S paths q idx) in Hr by done. simpl in Hr.
      destruct h as [|y h' _] using rev_ind; [done|]. rewrite rev_app_distr in Hr. simpl in Hr.
      injection Hr as _ Hr. rewrite Hr, length_app in *. simpl in Hl.
      rewrite take_app_le by lia. by rewrite take_ge by lia. }
    apply hl_full.
    + rewrite Ht. simpl. rewrite length_take. lia.
    + by rewrite length_insert.
    + left. apply Nat.mod_upper_bound. lia.
    + rewrite Ht. constructor; [done|by apply Forall_take].
    + rewrite Hrev. unfold rotate. destruct (decide (S idx = n)) as [Hend|Hmid].
      * replace (idx + 1)%nat with n by lia. rewrite Nat.Div0.mod_same, drop_0, take_0, app_nil_r.
        rewrite drop_ge by lia. simpl. rewrite insert_take_drop by lia. rewrite drop_ge by lia. done.
      * rewrite Nat.mod_small by lia. rewrite Nat.add_1_r.
        rewrite drop_insert_lt by lia. rewrite (take_S_r _ _ p) by (apply list_lookup_insert_eq; lia).
        by rewrite take_insert_ge by lia.
Qed.

Lemma resize_holds n b h target :
  holds_latest n b h → target ≠ length h ∨ h = [] →
  ∃ b', Resize target b = Some b' ∧ holds_latest target b' (take target h).
Proof.
  intros Hh Hfit. assert (Forall (λ p, path_empty p = false) h) as Hne by (by destruct Hh).
  unfold Resize. rewrite (normalize_holds n b h Hh). rewrite length_rev.
  destruct (decide (target < length h)%nat) as [Hlt|Hge]; eexists; (split; [done|]).
  - assert (drop (length h - target) (rev h) = rev (take target h)) as ->.
    { rewrite <- (take_drop target h) at 2. rewrite rev_app_distr.
      rewrite drop_app_length'; [done|]. rewrite length_rev, length_drop. done. }
    apply hl_full; [rewrite length_take; lia|rewrite length_rev, length_take; lia|lia|by apply Forall_take|].
    unfold rotate. by rewrite drop_0, take_0, app_nil_r.
  - rewrite take_ge by lia. unfold vec_resize. rewrite take_ge by (rewrite length_rev; lia).
    rewrite length_rev. destruct (decide (target = length h)) as [Heq|Hneq].
    + destruct Hfit as [|Hnil]; [done|]. subst h. simpl in Heq. subst target.
      apply hl_full; [done|done|lia|constructor|done].
    + apply hl_room; [lia|done].
Qed.

Inductive buf_op := BAdd (p : DeadlockPath) | BResize (target : nat).

Definition buf_run (b : option DeadlockInfoBuffer) (o : buf_op) : option DeadlockInfoBuffer :=
  match b with
  | None => None
  | Some b => match o with BAdd p => AddNewPath p b | BResize t => Resize t b end
  end.

(** Capacity and latest paths after a run of operations. *)
Definition latest_run (s : nat * list DeadlockPath) (o : buf_op) : nat * list DeadlockPath :=
  match o with
  | BAdd p => (s.1, take s.1 (p :: s.2))
  | BResize t => (t, take t s.2)
  end.

(** Paths have content; no resize to exactly the number of stored paths. *)
Fixpoint ops_ok (s : nat * list DeadlockPath) (ops : list buf_op) : Prop :=
  match ops with
  | [] => True
  | o :: ops' =>
      match o with
      | BAdd p => path_empty p = false
      | BResize t => t ≠ length s.2 ∨ s.2 = []
      end ∧ ops_ok (latest_run s o) ops'
  end.

Lemma run_holds ops s b :
  holds_latest s.1 b s.2 → ops_ok s ops →
  ∃ b', fold_left buf_run ops (Some b) = Some b' ∧
    holds_latest (fold_left latest_run ops s).1 b' (fold_left latest_run ops s).2.
Proof.
  revert s b. induction ops as [|o ops IH]; intros s b Hh; cbn [ops_ok fold_left].
  { intros _. by exists b. }
  intros [Ho Hops]. destruct o as [p|t]; simpl in *.
  - destruct (add_holds _ _ _ p Hh Ho) as (b' & -> & Hb'). by apply IH.
  - destruct (resize_holds _ _ _ t Hh Ho) as (b' & -> & Hb'). by apply IH.
Qed.

(** The ring buffer keeps the latest deadlocks: after any run of additions
    and resizes, none of which resizes to exactly the number of stored paths,
    [PrepareBuffer] returns the newest paths first, as many as fit. *)
Theorem deadlock_buffer_latest n ops :
  ops_ok (n, []) ops →
  ∃ b, fold_left buf_run ops (Some (new_buffer n)) = Some b ∧
    PrepareBuffer b = Some (snd (fold_left latest_run ops (n, []))).
Proof.
  intros Hops. destruct (run_holds ops (n, []) (new_buffer n) (new_buffer_holds n) Hops) as (b & Hb & Hh).
  exists b. split; [done|]. unfold PrepareBuffer. rewrite (normalize_holds _ _ _ Hh). simpl.
  by rewrite rev_involutive.
Qed.

(** Resizing to exactly the number of stored paths leaves the index past
    the end of the vector: the next addition, and the next read of the buffer,
    access it out of bounds. *)
Theorem Resize_exact_fit_overflows n b h p :
  holds_latest n b h → h ≠ [] →
  ∃ b', Resize (length h) b = Some b' ∧ buffer_idx_ b' = length (paths_buffer_ b') ∧
    AddNewPath p b' = None ∧ PrepareBuffer b' = None.
Proof.
  intros Hh Hne. unfold Resize. rewrite (normalize_holds n b h Hh), length_rev.
  rewrite decide_False by lia. eexists. split; [done|].
  assert (vec_resize (length h) (rev h) = rev h) as ->.
  { unfold vec_resize. rewrite <- (length_rev h), firstn_all, Nat.sub_diag. apply app_nil_r. }
  cbn [buffer_idx_ paths_buffer_]. rewrite length_rev. split; [done|].
  unfold AddNewPath, PrepareBuffer, Normalize. cbn [buffer_idx_ paths_buffer_].
  destruct (rev h) as [|x l] eqn:E.
  { apply (f_equal (@rev _)) in E. rewrite rev_involutive in E. done. }
  rewrite <- E. rewrite length_rev, decide_False by lia.
  rewrite lookup_ge_None_2 by (rewrite length_rev; lia). done.
Qed.

Definition sample_path (t : Z) : DeadlockPath := mkDeadlockPath [mkDeadlockInfo 1 0 true []] false t.

Example deadlock_buffer_latest_witness :
  ∃ b, fold_left buf_run [BAdd (sample_path 1); BAdd (sample_path 2); BAdd (sample_path 3); BResize 4; BAdd (sample_path 4)]
         (Some (new_buffer 2)) = Some b ∧
    PrepareBuffer b = Some [sample_path 4; sample_path 3; sample_path 2].
Proof.
  apply (deadlock_buffer_latest 2 [BAdd (sample_path 1); BAdd (sample_path 2); BAdd (sample_path 3); BResize 4; BAdd (sample_path 4)]).
  vm_compute. repeat split; left; discriminate.
Defined.

Example Resize_exact_fit_overflows_witness :
  ∃ b, AddNewPath (sample_path 1) (new_buffer 1) = Some b ∧
    ∃ b', Resize 1 b = Some b' ∧ AddNewPath (sample_path 2) b' = None.
Proof.
  destruct (add_holds 1 (new_buffer 1) [] (sample_path 1) (new_buffer_holds 1) eq_refl) as (b & Hb & Hh).
  exists b. split; [done|].
  destruct (Resize_exact_fit_overflows 1 b [sample_path 1] (sample_path 2) Hh) as (b' & ? & _ & ? & _); [done|].
  by exists b'.
Defined.
