(* ===== verification/WaitGraph.v ===== *)
(** * Deadlock detection among waiting transactions
      (wait_txn_map_, rev_wait_txn_map_, IncrementWaiters, DecrementWaiters,
      transaction_lock_mgr.cc)

    A waiting transaction records whom it waits for. Before it waits, a bounded
    breadth-first search looks for a path back to it. The two hash maps are
    finite maps here (HashMap proves that refinement). The deadlock buffer is
    [None] once it was accessed out of bounds (see DeadlockBuffer). *)
From S2P Require Import Prelude DeadlockBuffer.

Record TrackedTrxInfo := mkTracked {
  m_neighbors : list Z;
  t_cf_id : Z;
  t_exclusive : bool;
  t_waiting_key : bytes;
}.

Record WaitState := mkWait {
  wait_txn_map_ : gmap Z TrackedTrxInfo;
  rev_wait_txn_map_ : gmap Z Z;
  dlock_buffer_ : option DeadlockInfoBuffer;
}.

Definition dec_waiter (rev : gmap Z Z) (wait_id : Z) : gmap Z Z :=
  match rev !! wait_id with
  | Some n => if n - 1 =? 0 then delete wait_id rev else <[wait_id := n - 1]> rev
  | None => rev
  end.

Definition inc_waiter (rev : gmap Z Z) (wait_id : Z) : gmap Z Z :=
  match rev !! wait_id with
  | Some n => <[wait_id := n + 1]> rev
  | None => <[wait_id := 1]> rev
  end.

Definition DecrementWaitersImpl (id : Z) (wait_ids : list Z) (s : WaitState) : WaitState :=
  mkWait (delete id (wait_txn_map_ s)) (fold_left dec_waiter wait_ids (rev_wait_txn_map_ s))
    (dlock_buffer_ s).
Definition DecrementWaiters := DecrementWaitersImpl.

(** ** The search *)
Inductive search_result :=
  | no_deadlock
  | cycle (queue : list (Z * option nat)) (head : nat)
  | too_big.

(** [queue] is queue_values and queue_parents up to [tail] ([None] for -1).
    [fuel] counts the rounds left until [head] reaches the depth. *)
Fixpoint search_loop (fuel depth : nat) (id : Z) (wait : gmap Z TrackedTrxInfo)
    (next_ids : option (list Z)) (parent : option nat)
    (queue : list (Z * option nat)) (head : nat) : search_result :=
  match fuel with
  | O => too_big
  | S fuel' =>
      let queue := match next_ids with
                   | Some ids => queue ++ map (λ v, (v, parent)) (take (depth - length queue) ids)
                   | None => queue
                   end in
      if decide (length queue = head) then no_deadlock
      else
        let next := fst (default (0, None) (queue !! head)) in
        if next =? id then cycle queue head
        else
          match wait !! next with
          | None => search_loop fuel' depth id wait None parent queue (S head)
          | Some info =>
              search_loop fuel' depth id wait (Some (m_neighbors info)) (Some head) queue (S head)
          end
  end.

(** The walk from [head] along the parents, the last transaction first. *)
Fixpoint extract_path (fuel : nat) (queue : list (Z * option nat)) (head : option nat) : list Z :=
  match fuel, head with
  | S fuel', Some h =>
      match queue !! h with
      | Some (v, p) => v :: extract_path fuel' queue p
      | None => []
      end
  | _, _ => []
  end.

Definition deadlock_info (wait : gmap Z TrackedTrxInfo) (v : Z) : DeadlockInfo :=
  let info := default (mkTracked [] 0 false []) (wait !! v) in
  mkDeadlockInfo v (t_cf_id info) (t_exclusive info) (t_waiting_key info).

Definition add_path (p : DeadlockPath) (s : WaitState) : WaitState :=
  mkWait (wait_txn_map_ s) (rev_wait_txn_map_ s)
    (match dlock_buffer_ s with Some b => AddNewPath p b | None => None end).

(** [now] is what Env::GetCurrentTime stores. The result is [true] when the
    transaction must not wait. *)
Definition IncrementWaiters (id : Z) (depth : nat) (wait_ids : list Z) (key : bytes)
    (cf_id : Z) (exclusive : bool) (now : Z) (s : WaitState) : WaitState * bool :=
  let wait := <[id := mkTracked wait_ids cf_id exclusive key]> (wait_txn_map_ s) in
  let rev := fold_left inc_waiter wait_ids (rev_wait_txn_map_ s) in
  let s := mkWait wait rev (dlock_buffer_ s) in
  match rev !! id with
  | None => (s, false)
  | Some _ =>
      match search_loop depth depth id wait (Some wait_ids) None [] 0 with
      | no_deadlock => (s, false)
      | cycle queue head =>
          let ids := List.rev (extract_path (S head) queue (Some head)) in
          let p := mkDeadlockPath (map (deadlock_info wait) ids) false now in
          (DecrementWaitersImpl id wait_ids (add_path p s), true)
      | too_big =>
          (DecrementWaitersImpl id wait_ids (add_path (mkDeadlockPath [] true now) s), true)
      end
  end.

(** ** The wait graph *)

Definition edge (m : gmap Z TrackedTrxInfo) (a b : Z) : Prop :=
  ∃ info, m !! a = Some info ∧ b ∈ m_neighbors info.

Definition acyclic (m : gmap Z TrackedTrxInfo) : Prop := ∀ a, ¬ tc (edge m) a a.

(** How often [w] is waited for. *)
Definition waiters (w : Z) (m : gmap Z TrackedTrxInfo) : nat :=
  map_fold (λ _ info n, (count_occ Z.eq_dec (m_neighbors info) w + n)%nat) 0%nat m.

Lemma waiters_insert w id info m :
  m !! id = None → waiters w (<[id := info]> m) = (count_occ Z.eq_dec (m_neighbors info) w + waiters w m)%nat.
Proof.
  intros Hn. unfold waiters. rewrite map_fold_insert_L; [done| |done].
  intros. lia.
Qed.

Lemma waiters_delete w id info m :
  m !! id = Some info → waiters w m = (count_occ Z.eq_dec (m_neighbors info) w + waiters w (delete id m))%nat.
Proof.
  intros Hs. rewrite <- (insert_delete_id m id info) at 1 by done.
  apply waiters_insert, lookup_delete_eq.
Qed.

Lemma waiters_pos w m : (0 < waiters w m)%nat ↔ ∃ a, edge m a w.
Proof.
  induction m as [|i x m Hn IH] using map_ind.
  { unfold waiters. rewrite map_fold_empty. split; [lia|].
    intros (a & info & Ha & _). by rewrite lookup_empty in Ha. }
  rewrite waiters_insert by done. split.
  - intros Hpos. destruct (decide (0 < waiters w m)%nat) as [Hp|Hz].
    + apply IH in Hp as (a & info & Ha & Hw). exists a, info. split; [|done].
      rewrite lookup_insert_ne; [done|congruence].
    + exists i, x. split; [apply lookup_insert_eq|].
      apply list_elem_of_In, (count_occ_In Z.eq_dec). lia.
  - intros (a & info & Ha & Hw). apply lookup_insert_Some in Ha as [[<- <-]|[_ Ha]].
    + apply list_elem_of_In, (count_occ_In Z.eq_dec) in Hw. lia.
    + assert (0 < waiters w m)%nat by (apply IH; by exists a, info). lia.
Qed.

(** The reverse map counts: it is determined by the counts. *)
Definition counts (f : Z → nat) (rev : gmap Z Z) : Prop :=
  ∀ w, rev !! w = if decide (f w = 0%nat) then None else Some (Z.of_nat (f w)).

Lemma counts_ext f g rev : (∀ w, f w = g w) → counts f rev → counts g rev.
Proof. intros Hfg Hf w. by rewrite <- Hfg. Qed.

Lemma counts_unique f r1 r2 : counts f r1 → counts f r2 → r1 = r2.
Proof. intros H1 H2. apply map_eq. intros w. by rewrite H1, H2. Qed.

Lemma inc_counts f rev ids :
  counts f rev → counts (λ w, count_occ Z.eq_dec ids w + f w)%nat (fold_left inc_waiter ids rev).
Proof.
  revert f rev. induction ids as [|i ids IH]; intros f rev Hf; cbn [fold_left]; [done|].
  eapply counts_ext; [|apply (IH (λ w, if Z.eq_dec i w then S (f w) else f w))].
  - intros w. simpl. destruct (Z.eq_dec i w); lia.
  - intros w. unfold inc_waiter. rewrite (Hf i). destruct (Z.eq_dec i w) as [<-|Hne].
    + rewrite (decide_False (P := S (f i) = 0%nat)) by lia.
      destruct (decide (f i = 0%nat)); rewrite lookup_insert_eq; f_equal; lia.
    + destruct (decide (f i = 0%nat)); rewrite lookup_insert_ne by done; apply Hf.
Qed.

Lemma dec_counts f rev ids :
  counts (λ w, count_occ Z.eq_dec ids w + f w)%nat rev → counts f (fold_left dec_waiter ids rev).
Proof.
  revert rev. induction ids as [|i ids IH]; intros rev Hf; cbn [fold_left]; [done|].
  apply IH. intros w. unfold dec_waiter. rewrite (Hf i). simpl.
  destruct (Z.eq_dec i i); [|done]. rewrite decide_False by lia.
  destruct (Z.eqb_spec (Z.of_nat (S (count_occ Z.eq_dec ids i) + f i) - 1) 0) as [Hz|Hnz].
  - destruct (decide (i = w)) as [<-|Hne].
    + rewrite lookup_delete_eq, decide_True by lia. done.
    + rewrite lookup_delete_ne, (Hf w) by done. simpl. by destruct (Z.eq_dec i w).
  - destruct (decide (i = w)) as [<-|Hne].
    + rewrite lookup_insert_eq, decide_False by lia. f_equal. lia.
    + rewrite lookup_insert_ne, (Hf w) by done. simpl. by destruct (Z.eq_dec i w).
Qed.

Definition wait_ok (s : WaitState) : Prop :=
  counts (λ w, waiters w (wait_txn_map_ s)) (rev_wait_txn_map_ s).

(** ** What the search finds *)

(** A set of transactions closed under waiting that holds [roots]. *)
Definition closed_without (id : Z) (m : gmap Z TrackedTrxInfo) (roots : list Z) : Prop :=
  ∃ Q : list Z, (∀ b, b ∈ roots → b ∈ Q) ∧ (∀ a b, a ∈ Q → edge m a b → b ∈ Q) ∧ id ∉ Q.

Lemma appended_all {A} (l : list A) depth (ids : list Z) (f : Z → A) :
  (depth ≤ length (l ++ map f (take (depth - length l) ids)))%nat ∨
  take (depth - length l) ids = ids.
Proof.
  destruct (decide (length ids ≤ depth - length l)%nat); [right; by apply take_ge|left].
  rewrite length_app, length_map, length_take. lia.
Qed.

Lemma search_no_deadlock fuel depth id m roots next parent queue head :
  (fuel + head = depth)%nat → (head ≤ length queue)%nat →
  (∀ i v, (i < head)%nat → queue !! i = Some v → v.1 ≠ id) →
  (depth ≤ length queue)%nat ∨
    (∀ b, b ∈ roots ∨ (∃ i v, (i < head)%nat ∧ queue !! i = Some v ∧ edge m v.1 b) →
       b ∈ queue.*1 ∨ b ∈ default [] next) →
  search_loop fuel depth id m next parent queue head = no_deadlock →
  closed_without id m roots.
Proof.
  revert next parent queue head. induction fuel as [|fuel IH];
    intros next parent queue head Hf Hle Hid Hcl; cbn [search_loop]; [done|].
  set (q := match next with Some ids => _ | None => queue end).
  assert (∃ k, q = queue ++ k) as [k Hk].
  { subst q. destruct next; [by eexists|]. exists []. by rewrite app_nil_r. }
  assert ((depth ≤ length q)%nat ∨
    (∀ b, b ∈ roots ∨ (∃ i v, (i < head)%nat ∧ q !! i = Some v ∧ edge m v.1 b) → b ∈ q.*1)) as Hcl'.
  { destruct Hcl as [Hlen|Hcl]; [left; rewrite Hk, length_app; lia|].
    assert ((depth ≤ length q)%nat ∨ ∀ b, b ∈ queue.*1 ∨ b ∈ default [] next → b ∈ q.*1) as [|Hq]; [|by left|].
    { subst q. destruct next as [ids|]; simpl; [|right; intros b [|Hb]; [done|by apply not_elem_of_nil in Hb]].
      destruct (appended_all queue depth ids (λ v, (v, parent))) as [|Hall]; [by left|right].
      rewrite Hall. intros b. rewrite fmap_app, elem_of_app. intros [|Hb]; [by left|right].
      apply list_elem_of_fmap. exists (b, parent). split; [done|]. apply list_elem_of_fmap. by exists b. }
    right. intros b Hb. apply Hq, Hcl. destruct Hb as [|(i & v & Hi & Hv & He)]; [by left|right].
    exists i, v. split_and!; [done| |done]. rewrite Hk, lookup_app_l in Hv by lia. done. }
  assert (∀ i v, (i < head)%nat → q !! i = Some v → v.1 ≠ id) as Hid'.
  { intros i v Hi Hv. rewrite Hk, lookup_app_l in Hv by lia. by eapply Hid. }
  assert (head ≤ length q)%nat as Hle' by (rewrite Hk, length_app; lia).
  clearbody q. clear Hk k Hcl Hid Hle queue.
  destruct (decide (length q = head)) as [Hend|Hmore].
  - intros _. destruct Hcl' as [|Hcl']; [lia|]. exists q.*1. split_and!.
    + intros b Hb. apply Hcl'. by left.
    + intros a b Ha He. apply Hcl'. right. apply list_elem_of_fmap in Ha as (v & -> & Hv).
      apply list_elem_of_lookup in Hv as [i Hi]. exists i, v. split_and!; [|done|done].
      apply lookup_lt_Some in Hi. lia.
    + intros Hin. apply list_elem_of_fmap in Hin as (v & Heq & Hv).
      apply list_elem_of_lookup in Hv as [i Hi]. apply (Hid' i v); [|done|done].
      apply lookup_lt_Some in Hi. lia.
  - destruct (lookup_lt_is_Some_2 q head) as [[v p] Hv]; [lia|]. rewrite Hv.
    change (fst (default (0, None) (Some (v, p)))) with v.
    destruct (Z.eqb_spec v id) as [|Hne]; [done|].
    assert (∀ i w, (i < S head)%nat → q !! i = Some w → w.1 ≠ id) as Hid2.
    { intros i w Hi Hw. destruct (decide (i = head)) as [->|]; [by rewrite Hv in Hw; injection Hw as <-|].
      eapply Hid'; [|done]. lia. }
    assert (∀ nx : list Z, (∀ b, edge m v b → b ∈ nx) → (depth ≤ length q)%nat ∨
      ∀ b, b ∈ roots ∨ (∃ i w, (i < S head)%nat ∧ q !! i = Some w ∧ edge m w.1 b) →
        b ∈ q.*1 ∨ b ∈ nx) as Hstep.
    { intros nx Hnx. destruct Hcl' as [|Hcl']; [by left|right]. intros b [Hb|(i & w & Hi & Hw & He)].
      - left. apply Hcl'. by left.
      - destruct (decide (i = head)) as [->|].
        + rewrite Hv in Hw. injection Hw as <-. right. by apply Hnx.
        + left. apply Hcl'. right. exists i, w. split_and!; [lia|done|done]. }
    destruct (m !! v) as [info|] eqn:Em; intros Hs; (eapply IH; [| | | |exact Hs]); try lia; try done;
      apply Hstep; intros b (info' & Hi & Hb); rewrite Em in Hi; [by injection Hi as <-|done].
Qed.

(** Every entry of the queue is a root or a neighbour of its parent. *)
Definition queue_ok (m : gmap Z TrackedTrxInfo) (roots : list Z) (queue : list (Z * option nat)) : Prop :=
  ∀ i v p, queue !! i = Some (v, p) →
    match p with
    | None => v ∈ roots
    | Some j => (j < i)%nat ∧ ∃ u q, queue !! j = Some (u, q) ∧ edge m u v
    end.

Lemma search_cycle fuel depth id m roots next parent queue head q h :
  (head ≤ length queue)%nat → queue_ok m roots queue →
  (∀ ids b, next = Some ids → b ∈ ids →
     match parent with
     | None => b ∈ roots
     | Some j => ∃ u p, queue !! j = Some (u, p) ∧ edge m u b
     end) →
  search_loop fuel depth id m next parent queue head = cycle q h →
  queue_ok m roots q ∧ ∃ p, q !! h = Some (id, p).
Proof.
  revert next parent queue head. induction fuel as [|fuel IH];
    intros next parent queue head Hle Hok Hnext; cbn [search_loop]; [done|].
  set (q' := match next with Some ids => _ | None => queue end).
  assert (queue_ok m roots q') as Hok'.
  { subst q'. destruct next as [ids|]; [|done]. intros i v p Hi.
    destruct (decide (i < length queue)%nat) as [Hlt|Hge].
    - rewrite lookup_app_l in Hi by done. specialize (Hok i v p Hi). destruct p as [j|]; [|done].
      destruct Hok as (Hj & u & r & Hu & He). split; [done|]. exists u, r.
      split; [by rewrite lookup_app_l by lia|done].
    - rewrite lookup_app_r in Hi by lia. apply list_lookup_fmap_Some in Hi as (b & Heq & Hb).
      injection Heq as -> ->. apply list_elem_of_lookup_2 in Hb.
      assert (b ∈ ids) as Hin.
      { rewrite <- (take_drop (depth - length queue) ids), elem_of_app. by left. }
      specialize (Hnext ids b eq_refl Hin). destruct parent as [j|]; [|done].
      destruct Hnext as (u & r & Hu & He). apply lookup_lt_Some in Hu as Hj. split; [lia|].
      exists u, r. split; [by rewrite lookup_app_l by lia|done]. }
  assert (head ≤ length q')%nat as Hle'.
  { subst q'. destruct next; [rewrite length_app|]; lia. }
  clearbody q'. destruct (decide _) as [|Hmore]; [done|].
  destruct (lookup_lt_is_Some_2 q' head) as [[v p] Hv]; [lia|]. rewrite Hv.
  change (fst (default (0, None) (Some (v, p)))) with v.
  destruct (Z.eqb_spec v id) as [->|Hne].
  { intros [= <- <-]. split; [done|]. by exists p. }
  apply lookup_lt_Some in Hv as Hlt.
  destruct (m !! v) as [info|] eqn:Em; apply IH; try done; try lia.
  intros ids b [= <-] Hb. exists v, p. split; [done|]. by exists info.
Qed.

(** Consecutive edges from [a]. *)
Fixpoint chain (m : gmap Z TrackedTrxInfo) (a : Z) (l : list Z) : Prop :=
  match l with [] => True | b :: l' => edge m a b ∧ chain m b l' end.

Lemma last_cons_default (x d : Z) l : List.last (x :: l) d = List.last l x.
Proof.
  revert x d. induction l as [|y l IH]; intros x d; [done|].
  change (List.last (y :: l) d = List.last (y :: l) x). by rewrite !IH.
Qed.

Lemma chain_snoc m a l b :
  chain m a l → edge m (List.last l a) b → chain m a (l ++ [b]).
Proof.
  revert a. induction l as [|x l IH]; intros a; [done|]. rewrite last_cons_default. simpl.
  intros [He Hc] Hb. split; [done|]. by apply IH.
Qed.

Lemma extract_chain fuel m root roots queue h v p :
  queue_ok m roots queue → (∀ b, b ∈ roots → edge m root b) → (h < fuel)%nat →
  queue !! h = Some (v, p) →
  ∃ l, List.rev (extract_path fuel queue (Some h)) = l ++ [v] ∧ chain m root (l ++ [v]).
Proof.
  intros Hok Hroots. revert h v p. induction fuel as [|fuel IH]; intros h v p Hf Hv; [lia|].
  cbn [extract_path]. rewrite Hv. simpl. eexists; split; [done|].
  specialize (Hok h v p Hv). destruct p as [j|].
  - destruct Hok as (Hj & u & q & Hu & He).
    destruct (IH j u q ltac:(lia) Hu) as (l & -> & Hc). apply chain_snoc; [done|].
    by rewrite last_last.
  - destruct fuel; simpl; (split; [by apply Hroots|done]).
Qed.

Lemma chain_tc m a l b : chain m a (l ++ [b]) → tc (edge m) a b.
Proof.
  revert a. induction l as [|x l IH]; intros a; simpl; intros [He Hc]; [by apply tc_once|].
  eapply tc_l; [exact He|]. by apply IH.
Qed.

(** ** Acyclicity *)

Lemma tc_insert_cases id info m x y :
  m !! id = None → tc (edge (<[id := info]> m)) x y →
  tc (edge m) x y ∨ tc (edge (<[id := info]> m)) id y ∧ rtc (edge (<[id := info]> m)) x id.
Proof.
  intros Hn. assert (∀ a b, edge (<[id := info]> m) a b → a ≠ id → edge m a b) as Hed.
  { intros a b (i & Hi & Hb) Hne. rewrite lookup_insert_ne in Hi by done. by exists i. }
  induction 1 as [x y He|x z y He Ht IH].
  - destruct (decide (x = id)) as [->|Hne]; [right; split; [by apply tc_once|done]|].
    left. apply tc_once. auto.
  - destruct (decide (x = id)) as [->|Hne]; [right; split; [by eapply tc_l|done]|].
    destruct IH as [Hm|[Hi Hr]]; [left; by eapply tc_l; [apply Hed|]|].
    right. split; [done|]. by eapply rtc_l.
Qed.

Lemma acyclic_insert id info m :
  m !! id = None → acyclic m → ¬ tc (edge (<[id := info]> m)) id id → acyclic (<[id := info]> m).
Proof.
  intros Hn Hm Hid a Ha. destruct (tc_insert_cases id info m a a Hn Ha) as [Hc|[Hia Hr]].
  - by apply (Hm a).
  - apply Hid. by eapply tc_rtc_r.
Qed.

Lemma closed_no_cycle id m info :
  m !! id = Some info → closed_without id m (m_neighbors info) → ¬ tc (edge m) id id.
Proof.
  intros Hi (Q & Hr & Hc & Hn) Ht. apply Hn.
  assert (∀ x y, tc (edge m) x y → x ∈ Q ∨ x = id → y ∈ Q) as Hq; [|by eapply Hq; [|right]].
  assert (∀ x y, edge m x y → x ∈ Q ∨ x = id → y ∈ Q) as Hone.
  { intros x y He [Hx| ->]; [by eapply Hc|]. destruct He as (i & Hi' & Hy).
    rewrite Hi in Hi'. injection Hi' as <-. auto. }
  induction 1 as [x y He|x z y He _ IH]; [by apply Hone|]. intros Hx. apply IH. left. by eapply Hone.
Qed.

Lemma tc_last_edge m x y : tc (edge m) x y → ∃ z, edge m z y.
Proof. induction 1; eauto. Qed.

(** ** Increment and decrement *)

Lemma wait_restored id info s d :
  wait_ok s → wait_txn_map_ s !! id = None →
  let s1 := mkWait (<[id := info]> (wait_txn_map_ s))
              (fold_left inc_waiter (m_neighbors info) (rev_wait_txn_map_ s)) d in
  wait_ok s1 ∧
  wait_txn_map_ (DecrementWaitersImpl id (m_neighbors info) s1) = wait_txn_map_ s ∧
  rev_wait_txn_map_ (DecrementWaitersImpl id (m_neighbors info) s1) = rev_wait_txn_map_ s.
Proof.
  intros Hok Hn s1. pose proof (inc_counts _ _ (m_neighbors info) Hok) as Hinc.
  split_and!.
  - unfold wait_ok. simpl. eapply counts_ext; [|exact Hinc]. intros w. simpl.
    by rewrite waiters_insert.
  - simpl. by apply delete_insert_id.
  - simpl. eapply counts_unique; [|exact Hok]. by apply dec_counts.
Qed.

Lemma decrement_ok id info s :
  wait_ok s → wait_txn_map_ s !! id = Some info →
  wait_ok (DecrementWaitersImpl id (m_neighbors info) s).
Proof.
  intros Hok Hs. unfold wait_ok. simpl. apply dec_counts.
  eapply counts_ext; [|exact Hok]. intros w. simpl. by apply waiters_delete.
Qed.

Lemma increment_outcome id depth wait_ids key cf_id exclusive now s s' b :
  wait_ok s → wait_txn_map_ s !! id = None →
  IncrementWaiters id depth wait_ids key cf_id exclusive now s = (s', b) →
  let m := <[id := mkTracked wait_ids cf_id exclusive key]> (wait_txn_map_ s) in
  wait_ok s' ∧
  (b = false → wait_txn_map_ s' = m ∧ ¬ tc (edge m) id id ∧ dlock_buffer_ s' = dlock_buffer_ s) ∧
  (b = true → wait_txn_map_ s' = wait_txn_map_ s ∧ rev_wait_txn_map_ s' = rev_wait_txn_map_ s ∧
     ∃ p, dlock_buffer_ s' = match dlock_buffer_ s with Some d => AddNewPath p d | None => None end ∧
       (limit_exceeded p = true ∧ path p = [] ∨
        limit_exceeded p = false ∧ ∃ l, map m_txn_id (path p) = l ++ [id] ∧ chain m id (l ++ [id]))).
Proof.
  intros Hok Hn Heq m. unfold IncrementWaiters in Heq. fold m in Heq.
  set (info := mkTracked wait_ids cf_id exclusive key) in *.
  assert (m !! id = Some info) as Hid by apply lookup_insert_eq.
  set (rev := fold_left inc_waiter wait_ids (rev_wait_txn_map_ s)) in *.
  assert (∀ d, wait_ok (mkWait m rev d) ∧
    wait_txn_map_ (DecrementWaitersImpl id wait_ids (mkWait m rev d)) = wait_txn_map_ s ∧
    rev_wait_txn_map_ (DecrementWaitersImpl id wait_ids (mkWait m rev d)) = rev_wait_txn_map_ s) as Hrest.
  { intros d. apply (wait_restored id info s d Hok Hn). }
  assert (∀ d, wait_ok (DecrementWaitersImpl id wait_ids (mkWait m rev d))) as Hokd.
  { intros d. unfold wait_ok. destruct (Hrest d) as (_ & -> & ->). exact Hok. }
  cbn [rev_wait_txn_map_] in Heq.
  destruct (rev !! id) as [n|] eqn:Er.
  2: { simplify_eq. split; [apply Hrest|]. split; [|done]. intros _. split_and!; [done| |done].
       intros Ht. apply tc_last_edge, waiters_pos in Ht.
       destruct (Hrest (dlock_buffer_ s)) as [Hc _]. specialize (Hc id). simpl in Hc. rewrite Er in Hc.
       destruct (decide (waiters id m = 0%nat)); [lia|done]. }
  destruct (search_loop depth depth id m (Some wait_ids) None [] 0) as [|q h|] eqn:Es; simplify_eq.
  - split; [apply Hrest|]. split; [|done]. intros _. split_and!; [done| |done].
    apply (closed_no_cycle id m info Hid). simpl.
    eapply search_no_deadlock; [..|exact Es]; [lia|simpl; lia|intros; lia|].
    right. intros b [Hb|(i & v & Hi & _)]; [by right|lia].
  - split; [apply Hokd|]. split; [done|]. intros _. split_and!; [apply Hrest|apply Hrest|].
    eexists. split; [reflexivity|]. right. split; [done|].
    edestruct (search_cycle depth depth id m wait_ids) as [Hq [p Hp]]; [..|exact Es|]; [simpl; lia|done| |].
    { intros ids b [= <-] Hb. done. }
    destruct (extract_chain (S h) m id wait_ids q h id p Hq) as (l & Hl & Hc); [|lia|done|].
    { intros b Hb. by exists info. }
    exists l. split; [|done]. cbn [path]. rewrite map_map. simpl. rewrite map_id. exact Hl.
  - split; [apply Hokd|]. split; [done|]. intros _. split_and!; [apply Hrest|apply Hrest|].
    eexists. split; [reflexivity|]. by left.
Qed.

(** The calls of the waiting loop: a transaction registers before it waits and,
    if it was allowed to, deregisters with the same list after. *)
Inductive wait_step : WaitState → WaitState → Prop :=
  | ws_increment s id depth wait_ids key cf_id exclusive now :
      wait_txn_map_ s !! id = None →
      wait_step s (fst (IncrementWaiters id depth wait_ids key cf_id exclusive now s))
  | ws_decrement s id info :
      wait_txn_map_ s !! id = Some info →
      wait_step s (DecrementWaiters id (m_neighbors info) s).

Lemma acyclic_delete id m : acyclic m → acyclic (delete id m).
Proof.
  intros Hm a Ha. apply (Hm a).
  assert (∀ x y, tc (edge (delete id m)) x y → tc (edge m) x y) as Hmono; [|by apply Hmono].
  assert (∀ x y, edge (delete id m) x y → edge m x y) as He.
  { intros x y (i & Hi & Hy). apply lookup_delete_Some in Hi as [_ Hi]. by exists i. }
  induction 1 as [x y H|x z y H _ IH]; [apply tc_once; auto|]. eapply tc_l; [by apply He|done].
Qed.

Lemma wait_steps_ok s s' :
  rtc wait_step s s' → wait_ok s → acyclic (wait_txn_map_ s) →
  wait_ok s' ∧ acyclic (wait_txn_map_ s').
Proof.
  induction 1 as [s|s s1 s' Hstep _ IH]; [done|]. intros Hok Hac.
  apply IH; destruct Hstep as [s id depth wait_ids key cf_id exclusive now Hn|s id info Hi].
  - destruct (IncrementWaiters _ _ _ _ _ _ _ s) as [s2 b] eqn:E.
    by apply increment_outcome in E as (? & _).
  - by apply decrement_ok.
  - destruct (IncrementWaiters _ _ _ _ _ _ _ s) as [s2 b] eqn:E.
    apply increment_outcome in E as (_ & Hf & Ht); [|done|done]. destruct b; simpl.
    + by destruct (Ht eq_refl) as (-> & _).
    + destruct (Hf eq_refl) as (-> & Hc & _). by apply acyclic_insert.
  - by apply acyclic_delete.
Qed.

(** C31. Deadlock freedom of waiting: whatever transactions register and
    deregister, in whatever order, with whatever search depth, the graph of
    registered waits never has a cycle, and the reverse map counts for every
    transaction exactly how often it is waited for. *)
Theorem registered_waits_acyclic d s :
  rtc wait_step (mkWait ∅ ∅ d) s →
  acyclic (wait_txn_map_ s) ∧
  ∀ w, rev_wait_txn_map_ s !! w =
    if decide (waiters w (wait_txn_map_ s) = 0%nat) then None
    else Some (Z.of_nat (waiters w (wait_txn_map_ s))).
Proof.
  intros Hr. destruct (wait_steps_ok _ _ Hr) as [Hok Hac]; [| |done].
  - intros w. simpl. by rewrite lookup_empty.
  - intros a Ha. apply tc_last_edge in Ha as (z & i & Hi & _). simpl in Hi. by rewrite lookup_empty in Hi.
Qed.

(** A registration is refused only for a reason, and then leaves the wait
    maps as they were: it records either a path that is a cycle of the wait
    graph through the transaction, or that the search depth was exceeded. *)
Theorem IncrementWaiters_refusal d s id depth wait_ids key cf_id exclusive now :
  rtc wait_step (mkWait ∅ ∅ d) s → wait_txn_map_ s !! id = None →
  let m := <[id := mkTracked wait_ids cf_id exclusive key]> (wait_txn_map_ s) in
  let '(s', refused) := IncrementWaiters id depth wait_ids key cf_id exclusive now s in
  refused = true →
  wait_txn_map_ s' = wait_txn_map_ s ∧ rev_wait_txn_map_ s' = rev_wait_txn_map_ s ∧
  ∃ p, dlock_buffer_ s' = match dlock_buffer_ s with Some b => AddNewPath p b | None => None end ∧
    (limit_exceeded p = true ∧ path p = [] ∨
     limit_exceeded p = false ∧ List.last (map m_txn_id (path p)) 0 = id ∧
       chain m id (map m_txn_id (path p)) ∧ tc (edge m) id id).
Proof.
  intros Hr Hn m. destruct (wait_steps_ok _ _ Hr) as [Hok _].
  { intros w. simpl. by rewrite lookup_empty. }
  { intros a Ha. apply tc_last_edge in Ha as (z & i & Hi & _). simpl in Hi. by rewrite lookup_empty in Hi. }
  destruct (IncrementWaiters _ _ _ _ _ _ _ s) as [s' b] eqn:E.
  apply increment_outcome in E as (_ & _ & Ht); [|done|done]. intros ->.
  destruct (Ht eq_refl) as (? & ? & p & Hp & Hcase). split_and!; [done|done|].
  exists p. split; [done|]. destruct Hcase as [|(? & l & -> & Hc)]; [by left|right].
  split_and!; [done|by rewrite last_last|done|by eapply chain_tc].
Qed.

(** 1 waits for 2; 2 wants to wait for 3 and 1. *)
Definition wait_run : WaitState :=
  fst (IncrementWaiters 1 5 [2] [] 0 true 0 (mkWait ∅ ∅ (Some (new_buffer 3)))).

Lemma wait_run_reachable : rtc wait_step (mkWait ∅ ∅ (Some (new_buffer 3))) wait_run.
Proof. eapply rtc_l; [|apply rtc_refl]. by apply ws_increment. Qed.

Example registered_waits_acyclic_witness :
  rev_wait_txn_map_ wait_run !! 2 = Some 1 ∧ acyclic (wait_txn_map_ wait_run).
Proof.
  split; [reflexivity|].
  apply (registered_waits_acyclic (Some (new_buffer 3)) wait_run wait_run_reachable).
Defined.

Example IncrementWaiters_refusal_witness :
  snd (IncrementWaiters 2 5 [3; 1] [] 0 true 7 wait_run) = true ∧
  wait_txn_map_ (fst (IncrementWaiters 2 5 [3; 1] [] 0 true 7 wait_run)) = wait_txn_map_ wait_run.
Proof.
  split; [vm_compute; reflexivity|].
  pose proof (IncrementWaiters_refusal (Some (new_buffer 3)) wait_run 2 5 [3; 1] [] 0 true 7
    wait_run_reachable ltac:(vm_compute; reflexivity)) as Hr. cbv zeta in Hr.
  destruct (IncrementWaiters 2 5 [3; 1] [] 0 true 7 wait_run) as [s' b] eqn:E.
  apply Hr. apply (f_equal snd) in E. vm_compute in E. by subst b.
Defined.
