(* ===== verification/LockMgr.v ===== *)
(** * The pessimistic lock manager
      (TransactionLockMgr, transaction_lock_mgr.cc; TryStealingLocks,
      pessimistic_transaction.cc and pessimistic_transaction_db.cc)

    Keys of a column family are locked in stripes; a lock has one exclusive
    holder or several shared ones. Each operation below runs with the stripe's
    mutex held; what other threads do while a transaction waits is an argument
    of the waiting loop. *)
From S2P Require Import Prelude Decimal Status DeadlockBuffer WaitGraph FastRange.

(** ** Data *)
Record LockInfo := mkLockInfo {
  exclusive : bool;
  txn_ids : list Z;
  expiration_time : Z;
}.

#[global] Instance LockInfo_eq_dec : EqDecision LockInfo.
Proof. solve_decision. Defined.

Record LockMap := mkLockMap {
  num_stripes_ : Z;
  lock_cnt : Z;
  lock_map_stripes_ : list (gmap bytes LockInfo);
}.

Definition new_lock_map (num_stripes : Z) : LockMap :=
  mkLockMap num_stripes 0 (replicate (Z.to_nat num_stripes) ∅).

Inductive TransactionState :=
  | STARTED | AWAITING_PREPARE | PREPARED | AWAITING_COMMIT | COMMITTED
  | AWAITING_ROLLBACK | ROLLEDBACK | LOCKS_STOLEN.
#[global] Instance TransactionState_eq_dec : EqDecision TransactionState.
Proof. solve_decision. Defined.

(** What the lock manager reads of a PessimisticTransaction. *)
Record Txn := mkTxn {
  GetID : Z;
  GetExpirationTime : Z;
  GetLockTimeout : Z;
  IsDeadlockDetect : bool;
  GetDeadlockDetectDepth : nat;
}.

(** LockMaps are shared objects: [objects] is the heap, [lock_maps_] and the
    per-thread caches hold addresses. [expirable_transactions_map_] is the
    database's map of transactions that can expire, with their states;
    [waiting_] what each transaction shows it waits for. *)
Record TransactionLockMgr := mkMgr {
  objects : gmap nat LockMap;
  next_object : nat;
  lock_maps_ : gmap Z nat;
  lock_maps_cache_ : gmap Z (gmap Z nat);
  waits_ : WaitState;
  expirable_transactions_map_ : gmap Z TransactionState;
  waiting_ : gmap Z (list Z * Z * bytes);
}.

Definition set_objects v s := let 'mkMgr _ b c d e f g := s in mkMgr v b c d e f g.
Definition set_cache v s := let 'mkMgr a b c _ e f g := s in mkMgr a b c v e f g.
Definition set_waits v s := let 'mkMgr a b c d _ f g := s in mkMgr a b c d v f g.
Definition set_expirable v s := let 'mkMgr a b c d e _ g := s in mkMgr a b c d e v g.
Definition set_waiting v s := let 'mkMgr a b c d e f _ := s in mkMgr a b c d e f v.

Section lock_mgr.
(** The options of the manager; the hash of the key (util/hash.h, xxhash). *)
Context (default_num_stripes_ max_num_locks_ : Z) (GetSliceNPHash64 : bytes → Z).

Definition GetStripe (key : bytes) (m : LockMap) : nat :=
  Z.to_nat (fastrange64 (GetSliceNPHash64 key) (num_stripes_ m)).

(** ** Column families *)

(** An existing column family is left alone (the debug build asserts). *)
Definition AddColumnFamily (cf : Z) (s : TransactionLockMgr) : TransactionLockMgr :=
  match lock_maps_ s !! cf with
  | None =>
      mkMgr (<[next_object s := new_lock_map default_num_stripes_]> (objects s)) (S (next_object s))
        (<[cf := next_object s]> (lock_maps_ s)) (lock_maps_cache_ s) (waits_ s)
        (expirable_transactions_map_ s) (waiting_ s)
  | Some _ => s
  end.

(** All thread-local caches are cleared. *)
Definition RemoveColumnFamily (cf : Z) (s : TransactionLockMgr) : TransactionLockMgr :=
  mkMgr (objects s) (next_object s) (delete cf (lock_maps_ s)) ∅ (waits_ s)
    (expirable_transactions_map_ s) (waiting_ s).

Definition GetLockMap (tid cf : Z) (s : TransactionLockMgr) : TransactionLockMgr * option nat :=
  let cache := default ∅ (lock_maps_cache_ s !! tid) in
  let s := set_cache (<[tid := cache]> (lock_maps_cache_ s)) s in
  match cache !! cf with
  | Some p => (s, Some p)
  | None =>
      match lock_maps_ s !! cf with
      | None => (s, None)
      | Some p => (set_cache (<[tid := <[cf := p]> cache]> (lock_maps_cache_ s)) s, Some p)
      end
  end.

(** ** Expiration *)

(** The database's map of expirable transactions is threaded through. *)
Definition TryStealingLocks (tx : Z) (db : gmap Z TransactionState) : gmap Z TransactionState * bool :=
  if bool_decide (db !! tx = Some STARTED) then (<[tx := LOCKS_STOLEN]> db, true) else (db, false).

Definition TryStealingExpiredTransactionLocks (tx : Z) (db : gmap Z TransactionState)
    : gmap Z TransactionState * bool :=
  match db !! tx with
  | None => (db, true)
  | Some _ => TryStealingLocks tx db
  end.

(** The loop over the holders; [false] when a holder's locks cannot be stolen. *)
Fixpoint steal_all (txn_id : Z) (ids : list Z) (db : gmap Z TransactionState)
    : gmap Z TransactionState * bool :=
  match ids with
  | [] => (db, true)
  | id :: ids' =>
      if txn_id =? id then steal_all txn_id ids' db
      else
        let '(db, success) := TryStealingExpiredTransactionLocks id db in
        if success then steal_all txn_id ids' db else (db, false)
  end.

(** The result, [*expire_time], and the map after stealing. *)
Definition IsLockExpired (txn_id : Z) (info : LockInfo) (now expire_time : Z)
    (db : gmap Z TransactionState) : bool * Z * gmap Z TransactionState :=
  if expiration_time info =? 0 then (false, 0, db)
  else
    let expired := expiration_time info <=? now in
    if negb expired then (false, expiration_time info, db)
    else
      let '(db, success) := steal_all txn_id (txn_ids info) db in
      if success then (true, expire_time, db) else (false, 0, db).

(** ** Acquiring *)

Definition stripe_of (stripe : nat) (m : LockMap) : gmap bytes LockInfo :=
  default ∅ (lock_map_stripes_ m !! stripe).
Definition set_key (stripe : nat) (key : bytes) (info : LockInfo) (m : LockMap) : LockMap :=
  mkLockMap (num_stripes_ m) (lock_cnt m)
    (<[stripe := <[key := info]> (stripe_of stripe m)]> (lock_map_stripes_ m)).
Definition del_key (stripe : nat) (key : bytes) (m : LockMap) : LockMap :=
  mkLockMap (num_stripes_ m) (lock_cnt m)
    (<[stripe := delete key (stripe_of stripe m)]> (lock_map_stripes_ m)).
Definition add_cnt (d : Z) (m : LockMap) : LockMap :=
  mkLockMap (num_stripes_ m) (lock_cnt m + d) (lock_map_stripes_ m).

Record acquire_result := mkAcquire {
  a_status : Status;
  a_map : LockMap;
  a_expire_time : Z;              (* *expire_time *)
  a_wait_ids : list Z;            (* *txn_ids *)
  a_db : gmap Z TransactionState;
}.

Definition first_id (info : LockInfo) : Z := List.hd 0 (txn_ids info).

Definition AcquireLocked (m : LockMap) (stripe : nat) (key : bytes) (now : Z)
    (txn_lock_info : LockInfo) (expire_time : Z) (wait_ids : list Z)
    (db : gmap Z TransactionState) : acquire_result :=
  match stripe_of stripe m !! key with
  | Some info =>
      if exclusive info || exclusive txn_lock_info then
        if bool_decide (txn_ids info = [first_id txn_lock_info]) then
          mkAcquire OK
            (set_key stripe key
               (mkLockInfo (exclusive txn_lock_info) (txn_ids info) (expiration_time txn_lock_info)) m)
            expire_time wait_ids db
        else
          let '(expired, expire_time, db) :=
            IsLockExpired (first_id txn_lock_info) info now expire_time db in
          if expired
          then mkAcquire OK (set_key stripe key txn_lock_info m) expire_time wait_ids db
          else mkAcquire (TimedOut kLockTimeout) m expire_time (txn_ids info) db
      else
        mkAcquire OK
          (set_key stripe key
             (mkLockInfo (exclusive info) (txn_ids info ++ [first_id txn_lock_info])
                (Z.max (expiration_time info) (expiration_time txn_lock_info))) m)
          expire_time wait_ids db
  | None =>
      if (0 <? max_num_locks_) && (max_num_locks_ <=? lock_cnt m)
      then mkAcquire (Busy kLockLimit) m expire_time wait_ids db
      else
        let m := set_key stripe key txn_lock_info m in
        mkAcquire OK (if max_num_locks_ =? 0 then m else add_cnt 1 m) expire_time wait_ids db
  end.

(** [AcquireLocked] on the shared object [p]. *)
Definition acquire_at (p : nat) (stripe : nat) (key : bytes) (now : Z) (info : LockInfo)
    (expire_time : Z) (wait_ids : list Z) (s : TransactionLockMgr)
    : Status * Z * list Z * TransactionLockMgr :=
  let m := default (new_lock_map 0) (objects s !! p) in
  let r := AcquireLocked m stripe key now info expire_time wait_ids (expirable_transactions_map_ s) in
  (a_status r, a_expire_time r, a_wait_ids r,
   set_expirable (a_db r) (set_objects (<[p := a_map r]> (objects s)) s)).

(** What one round of the waiting loop meets: clock readings, the outcome of
    the condition variable's wait, and what other threads did meanwhile. *)
Record Round := mkRound {
  r_time : Z;                                     (* GetCurrentTime, for the deadlock path *)
  r_now : Z;                                      (* NowMicros before waiting *)
  r_wait : Status;                                (* Wait or WaitFor *)
  r_others : TransactionLockMgr → TransactionLockMgr;
  r_acquire_now : Z;                              (* NowMicros in the next attempt *)
}.

(** The unsigned times are stored in an [int64_t]. *)
Definition cv_end_time (expire_time_hint end_time : Z) : Z :=
  if (0 <? expire_time_hint) && (0 <? end_time) then to_signed 64 (Z.min expire_time_hint end_time)
  else if 0 <? expire_time_hint then to_signed 64 expire_time_hint
  else if 0 <? end_time then to_signed 64 end_time
  else -1.

(** [None]: still waiting when the rounds run out. *)
Fixpoint acquire_loop (rounds : list Round) (txn : Txn) (p stripe : nat) (cf : Z) (key : bytes)
    (info : LockInfo) (end_time : Z) (result : Status) (hint : Z) (wait_ids : list Z)
    (s : TransactionLockMgr) : option (Status * TransactionLockMgr) :=
  match rounds with
  | [] => None
  | r :: rounds' =>
      let cv_end := cv_end_time hint end_time in
      let waits := negb (bool_decide (wait_ids = [])) in
      let '(s, refused) :=
        if waits && IsDeadlockDetect txn then
          let '(w, refused) :=
            IncrementWaiters (GetID txn) (GetDeadlockDetectDepth txn) wait_ids key cf
              (exclusive info) (r_time r) (waits_ s) in
          (set_waits w s, refused)
        else (s, false) in
      if refused then Some (Busy kDeadlock, s)
      else
        let s := if waits then set_waiting (<[GetID txn := (wait_ids, cf, key)]> (waiting_ s)) s else s in
        let '(result, s) :=
          if cv_end <? 0 then (r_wait r, r_others r s)
          else if r_now r <? cv_end then (r_wait r, r_others r s)
          else (result, s) in
        let s := if waits then set_waiting (delete (GetID txn) (waiting_ s)) s else s in
        let s := if waits && IsDeadlockDetect txn
                 then set_waits (DecrementWaiters (GetID txn) wait_ids (waits_ s)) s else s in
        let timed_out := IsTimedOut result in
        let '(result, hint, wait_ids, s) :=
          if ok result || IsTimedOut result
          then acquire_at p stripe key (r_acquire_now r) info hint wait_ids s
          else (result, hint, wait_ids, s) in
        if negb (ok result) && negb timed_out
        then acquire_loop rounds' txn p stripe cf key info end_time result hint wait_ids s
        else Some (result, s)
  end.

(** [start_time] and [acquire_now] are clock readings; [mutex_result] is what
    locking the stripe's mutex returns. *)
Definition AcquireWithTimeout (txn : Txn) (p stripe : nat) (cf : Z) (key : bytes) (timeout : Z)
    (info : LockInfo) (start_time acquire_now : Z) (mutex_result : Status) (rounds : list Round)
    (s : TransactionLockMgr) : option (Status * TransactionLockMgr) :=
  let end_time := if 0 <? timeout then u64 (start_time + timeout) else 0 in
  if negb (ok mutex_result) then Some (mutex_result, s)
  else
    let '(result, hint, wait_ids, s) := acquire_at p stripe key acquire_now info 0 [] s in
    if negb (ok result) && negb (timeout =? 0)
    then acquire_loop rounds txn p stripe cf key info end_time result hint wait_ids s
    else Some (result, s).

Definition TryLock (tid : Z) (txn : Txn) (cf : Z) (key : bytes) (excl : bool)
    (start_time acquire_now : Z) (mutex_result : Status) (rounds : list Round)
    (s : TransactionLockMgr) : option (Status * TransactionLockMgr) :=
  let '(s, lock_map) := GetLockMap tid cf s in
  match lock_map with
  | None => Some (InvalidArgument (str "Column family id not found: " ++ dec cf), s)
  | Some p =>
      let stripe_num := GetStripe key (default (new_lock_map 0) (objects s !! p)) in
      AcquireWithTimeout txn p stripe_num cf key (GetLockTimeout txn)
        (mkLockInfo excl [GetID txn] (GetExpirationTime txn)) start_time acquire_now mutex_result rounds s
  end.

(** ** Releasing *)

(** [std::find], overwriting with the last element, [pop_back]. *)
Definition remove_id (id : Z) (ids : list Z) : list Z :=
  match list_find (λ x, x = id) ids with
  | None => ids
  | Some (i, _) =>
      let n := (length ids - 1)%nat in
      take n (match ids !! n with Some last => <[i := last]> ids | None => ids end)
  end.

Definition UnLockKey (txn_id : Z) (key : bytes) (stripe : nat) (m : LockMap) : LockMap :=
  match stripe_of stripe m !! key with
  | Some info =>
      if bool_decide (txn_id ∈ txn_ids info) then
        let m :=
          if bool_decide (length (txn_ids info) = 1%nat) then del_key stripe key m
          else set_key stripe key
                 (mkLockInfo (exclusive info) (remove_id txn_id (txn_ids info)) (expiration_time info)) m in
        if 0 <? max_num_locks_ then add_cnt (-1) m else m
      else m
  | None => m
  end.

Definition unlock_at (txn_id : Z) (key : bytes) (p stripe : nat) (s : TransactionLockMgr)
    : TransactionLockMgr :=
  let m := default (new_lock_map 0) (objects s !! p) in
  set_objects (<[p := UnLockKey txn_id key stripe m]> (objects s)) s.

Definition UnLock (tid txn_id cf : Z) (key : bytes) (s : TransactionLockMgr) : TransactionLockMgr :=
  let '(s, lock_map) := GetLockMap tid cf s in
  match lock_map with
  | None => s
  | Some p => unlock_at txn_id key p (GetStripe key (default (new_lock_map 0) (objects s !! p))) s
  end.

(** The keys in the order the buckets hold them: grouped by stripe.
    [stripe_order] is the order the hash map of buckets is walked in. *)
Definition by_stripe (stripe_order : list nat) (m : LockMap) (keys : list bytes) : list bytes :=
  flat_map (λ st, filter (λ k, GetStripe k m = st) keys) stripe_order.

(** [false]: the call returned at a dropped column family. *)
Fixpoint UnLock_keys (tid txn_id : Z) (stripe_order : list nat)
    (key_map : list (Z * list bytes)) (s : TransactionLockMgr) : TransactionLockMgr * bool :=
  match key_map with
  | [] => (s, true)
  | (cf, keys) :: key_map' =>
      let '(s, lock_map) := GetLockMap tid cf s in
      match lock_map with
      | None => (s, false)
      | Some p =>
          let m := default (new_lock_map 0) (objects s !! p) in
          let s := fold_left (λ s k, unlock_at txn_id k p (GetStripe k m) s)
                     (by_stripe stripe_order m keys) s in
          UnLock_keys tid txn_id stripe_order key_map' s
      end
  end.

(** ** Reporting *)
Record KeyLockInfo := mkKeyLockInfo { info_key : bytes; info_ids : list Z; info_exclusive : bool }.

Definition stripe_status (keys : gmap bytes LockInfo) : list KeyLockInfo :=
  map (λ e, mkKeyLockInfo (fst e) (txn_ids (snd e)) (exclusive (snd e))) (map_to_list keys).

(** Per column family, stripes in ascending order. *)
Definition GetLockStatusData (s : TransactionLockMgr) : list (Z * KeyLockInfo) :=
  flat_map (λ e : Z * nat,
    flat_map (λ keys, map (pair (fst e)) (stripe_status keys))
      (lock_map_stripes_ (default (new_lock_map 0) (objects s !! snd e))))
    (map_to_list (lock_maps_ s)).

Definition GetDeadlockInfoBuffer (s : TransactionLockMgr) : option (list DeadlockPath) :=
  match dlock_buffer_ (waits_ s) with Some b => PrepareBuffer b | None => None end.

Definition ResizeDeadlocks (target_size : nat) (s : TransactionLockMgr) : TransactionLockMgr :=
  let w := waits_ s in
  set_waits (mkWait (wait_txn_map_ w) (rev_wait_txn_map_ w)
    (match dlock_buffer_ w with Some b => Resize target_size b | None => None end)) s.

End lock_mgr.
