(* ===== verification/LockMgrCorrect.v ===== *)
(** * The pessimistic lock manager: who holds what

    Correctness of LockMgr: grants respect the holders, the lock count, the
    waiting loop, release, and the thread-local caches of lock maps. *)
From S2P Require Import Prelude Decimal Status DeadlockBuffer WaitGraph FastRange LockMgr.

Section correct.
Context (default_num_stripes_ max_num_locks_ : Z).

#[local] Abbreviation AcquireLocked := (AcquireLocked max_num_locks_).
#[local] Abbreviation UnLockKey := (UnLockKey max_num_locks_).

(** ** One lock map *)

Definition lock_at (m : LockMap) (stripe : nat) (key : bytes) : option LockInfo :=
  stripe_of stripe m !! key.

Definition lock_ok (info : LockInfo) : Prop :=
  txn_ids info ≠ [] ∧ (exclusive info = true → ∃ id, txn_ids info = [id]).
Definition map_ok (m : LockMap) : Prop := ∀ st key info, lock_at m st key = Some info → lock_ok info.

Lemma lock_at_set m st key info st' key' :
  (st < length (lock_map_stripes_ m))%nat →
  lock_at (set_key st key info m) st' key' =
    if decide (st' = st ∧ key' = key) then Some info else lock_at m st' key'.
Proof.
  intros Hst. unfold lock_at, set_key, stripe_of. cbn [lock_map_stripes_].
  destruct (decide (st' = st)) as [->|Hne].
  - rewrite list_lookup_insert_eq by done. cbn [default from_option]. unfold id.
    destruct (decide (key' = key)) as [->|Hk].
    + rewrite lookup_insert_eq, decide_True by done. done.
    + rewrite lookup_insert_ne, decide_False by naive_solver. done.
  - rewrite list_lookup_insert_ne, decide_False by naive_solver. done.
Qed.

Lemma lock_at_del m st key st' key' :
  (st < length (lock_map_stripes_ m))%nat →
  lock_at (del_key st key m) st' key' =
    if decide (st' = st ∧ key' = key) then None else lock_at m st' key'.
Proof.
  intros Hst. unfold lock_at, del_key, stripe_of. cbn [lock_map_stripes_].
  destruct (decide (st' = st)) as [->|Hne].
  - rewrite list_lookup_insert_eq by done. cbn [default from_option]. unfold id.
    destruct (decide (key' = key)) as [->|Hk].
    + rewrite lookup_delete_eq, decide_True by done. done.
    + rewrite lookup_delete_ne, decide_False by naive_solver. done.
  - rewrite list_lookup_insert_ne, decide_False by naive_solver. done.
Qed.

Lemma lock_at_cnt d m st key : lock_at (add_cnt d m) st key = lock_at m st key.
Proof. done. Qed.

Lemma stripes_set st key info m : length (lock_map_stripes_ (set_key st key info m)) = length (lock_map_stripes_ m).
Proof. unfold set_key. simpl. apply length_insert. Qed.
Lemma stripes_del st key m : length (lock_map_stripes_ (del_key st key m)) = length (lock_map_stripes_ m).
Proof. unfold del_key. simpl. apply length_insert. Qed.

(** ** Stealing *)

Lemma steal_all_spec id ids db db' :
  steal_all id ids db = (db', true) →
  (∀ x, x ≠ id → x ∈ ids → db !! x = None ∨ db !! x = Some STARTED ∧ db' !! x = Some LOCKS_STOLEN) ∧
  (∀ x, db' !! x = db !! x ∨ db !! x = Some STARTED ∧ db' !! x = Some LOCKS_STOLEN).
Proof.
  revert db. induction ids as [|y ids IH]; intros db; cbn [steal_all].
  { intros [= <-]. split; [intros x _ Hx; by apply not_elem_of_nil in Hx|by left]. }
  destruct (Z.eqb_spec id y) as [<-|Hne].
  { intros Hs. destruct (IH db Hs) as [H1 H2]. split; [|done].
    intros x Hx Hin. apply elem_of_cons in Hin as [|Hin]; [done|auto]. }
  unfold TryStealingExpiredTransactionLocks, TryStealingLocks.
  destruct (db !! y) as [st|] eqn:Ey.
  - case_bool_decide as Hst; [|done]. injection Hst as ->. intros Hs.
    destruct (IH _ Hs) as [H1 H2].
    assert (db' !! y = Some LOCKS_STOLEN) as Hy.
    { destruct (H2 y) as [->|[Hc _]]; [apply lookup_insert_eq|by rewrite lookup_insert_eq in Hc]. }
    split.
    + intros x Hx Hin. destruct (decide (x = y)) as [->|Hxy]; [by right|].
      apply elem_of_cons in Hin as [|Hin]; [done|]. specialize (H1 x Hx Hin).
      by rewrite lookup_insert_ne in H1.
    + intros x. destruct (decide (x = y)) as [->|Hxy]; [by right|].
      specialize (H2 x). by rewrite lookup_insert_ne in H2.
  - intros Hs. destruct (IH _ Hs) as [H1 H2]. split; [|done].
    intros x Hx Hin. apply elem_of_cons in Hin as [->|Hin]; [by left|auto].
Qed.

(** A run that fails stops at a holder that is registered and not STARTED; the
    holders before it are stolen from all the same. *)
Definition steal_stops (id : Z) (ids : list Z) (db db' : gmap Z TransactionState) : Prop :=
  ∃ before x after st, ids = before ++ x :: after ∧ x ≠ id ∧ db' !! x = Some st ∧ st ≠ STARTED ∧
    (∀ y, y ≠ id → y ∈ before → db !! y = None ∨ db !! y = Some STARTED ∧ db' !! y = Some LOCKS_STOLEN) ∧
    (∀ y, y = id ∨ y ∉ before → db' !! y = db !! y).

Lemma steal_all_stops id ids db db' : steal_all id ids db = (db', false) → steal_stops id ids db db'.
Proof.
  revert db. induction ids as [|y ids IH]; intros db; cbn [steal_all]; [done|].
  destruct (Z.eqb_spec id y) as [<-|Hne].
  { intros Hs. destruct (IH db Hs) as (before & x & after & st & -> & ? & ? & ? & Hb & Hk).
    exists (id :: before), x, after, st. split_and!; try done.
    - intros y Hy [|Hin]%elem_of_cons; [done|auto].
    - intros y Hy. apply Hk. rewrite elem_of_cons in Hy. tauto. }
  unfold TryStealingExpiredTransactionLocks, TryStealingLocks. destruct (db !! y) as [st|] eqn:Ey.
  - case_bool_decide as Hst.
    + injection Hst as ->. intros Hs. destruct (IH _ Hs) as (before & x & after & st & -> & ? & ? & ? & Hb & Hk).
      assert (db' !! y = Some LOCKS_STOLEN) as Hy.
      { destruct (decide (y ∈ before)) as [Hin|Hn]; [|rewrite Hk by (right; exact Hn); apply lookup_insert_eq].
        destruct (Hb y ltac:(done) Hin) as [Hc|[Hc _]]; by rewrite lookup_insert_eq in Hc. }
      exists (y :: before), x, after, st. split_and!; try done.
      * intros z Hz Hin. destruct (decide (z = y)) as [->|Hzy]; [by right|].
        apply elem_of_cons in Hin as [|Hin]; [done|]. specialize (Hb z Hz Hin). by rewrite lookup_insert_ne in Hb.
      * intros z Hz. rewrite elem_of_cons in Hz. rewrite Hk, lookup_insert_ne by naive_solver. done.
    + intros [= <-]. exists [], y, ids, st. split_and!; [done|done|done|congruence| |done].
      intros z _ Hz. by apply not_elem_of_nil in Hz.
  - intros Hs. destruct (IH _ Hs) as (before & x & after & st & -> & ? & ? & ? & Hb & Hk).
    exists (y :: before), x, after, st. split_and!; try done.
    + intros z Hz Hin. apply elem_of_cons in Hin as [->|Hin]; [by left|auto].
    + intros z Hz. apply Hk. rewrite elem_of_cons in Hz. tauto.
Qed.

Lemma steal_all_frame id ids db x : x = id ∨ x ∉ ids → (steal_all id ids db).1 !! x = db !! x.
Proof.
  revert db. induction ids as [|y ids IH]; intros db Hx; cbn [steal_all]; [done|]. rewrite elem_of_cons in Hx.
  destruct (Z.eqb_spec id y) as [<-|Hne]; [apply IH; tauto|].
  unfold TryStealingExpiredTransactionLocks, TryStealingLocks. destruct (db !! y) as [st|] eqn:Ey; [|apply IH; tauto].
  case_bool_decide; [|done]. rewrite IH by tauto. apply lookup_insert_ne. naive_solver.
Qed.

(** When the holders of [info] lose it to [id]. *)
Definition stolen_from (id now : Z) (info : LockInfo) (db db' : gmap Z TransactionState) : Prop :=
  expiration_time info ≠ 0 ∧ expiration_time info ≤ now ∧
  (∀ x, x ≠ id → x ∈ txn_ids info →
    db !! x = None ∨ db !! x = Some STARTED ∧ db' !! x = Some LOCKS_STOLEN) ∧
  ∀ x, x = id ∨ x ∉ txn_ids info → db' !! x = db !! x.

(** Why a request is refused that [info] stands against, what it is told to wait
    for ([hint']), and what it did to the states of the holders. *)
Definition refused (id now : Z) (info : LockInfo) (hint' : Z) (db db' : gmap Z TransactionState) : Prop :=
  expiration_time info = 0 ∧ hint' = 0 ∧ db' = db ∨
  expiration_time info ≠ 0 ∧ now < expiration_time info ∧ hint' = expiration_time info ∧ db' = db ∨
  expiration_time info ≠ 0 ∧ expiration_time info ≤ now ∧ hint' = 0 ∧ steal_stops id (txn_ids info) db db'.

Lemma refused_spec id now info hint db hint' db' :
  IsLockExpired id info now hint db = (false, hint', db') → refused id now info hint' db db'.
Proof.
  unfold IsLockExpired, refused. destruct (Z.eqb_spec (expiration_time info) 0); [intros [= <- <-]; by left|].
  destruct (Z.leb_spec (expiration_time info) now); cbn [negb]; [|intros [= <- <-]; right; left; by split_and!].
  destruct (steal_all id (txn_ids info) db) as [db1 ok] eqn:E. destruct ok; [done|].
  intros [= <- <-]. right. right. split_and!; [done|done|done|by apply steal_all_stops].
Qed.

Lemma expired_spec id info now hint db hint' db' :
  IsLockExpired id info now hint db = (true, hint', db') → stolen_from id now info db db'.
Proof.
  unfold IsLockExpired. destruct (Z.eqb_spec (expiration_time info) 0); [done|].
  destruct (Z.leb_spec (expiration_time info) now); [|done]. simpl.
  destruct (steal_all id (txn_ids info) db) as [db1 ok] eqn:E. destruct ok; [|done].
  intros [= _ <-]. pose proof (steal_all_frame id (txn_ids info) db) as Hf. rewrite E in Hf.
  apply steal_all_spec in E as [? _]. by split_and!.
Qed.

(** ** Granting *)

Definition request (excl : bool) (id expiration : Z) : LockInfo := mkLockInfo excl [id] expiration.

(** What a successful request leaves at the key. *)
Definition granted (excl : bool) (id exp now : Z) (before : option LockInfo) (after : LockInfo)
    (db db' : gmap Z TransactionState) : Prop :=
  lock_ok after ∧ id ∈ txn_ids after ∧
  exclusive after = excl ∧ (excl = true → txn_ids after = [id]) ∧
  match before with
  | None => after = request excl id exp
  | Some info =>
      expiration_time after = (if excl || exclusive info then exp else Z.max (expiration_time info) exp) ∧
      ∀ x, x ≠ id → x ∈ txn_ids info →
        x ∈ txn_ids after ∧ excl = false ∧ exclusive info = false ∧ exclusive after = false ∨
        stolen_from id now info db db'
  end.

Lemma acquire_outcome m st key now excl id exp hint wait_ids db :
  (st < length (lock_map_stripes_ m))%nat → map_ok m →
  let r := AcquireLocked m st key now (request excl id exp) hint wait_ids db in
  (a_status r = OK ∧ (∃ info, granted excl id exp now (lock_at m st key) info db (a_db r) ∧
      ∀ st' key', lock_at (a_map r) st' key' =
        if decide (st' = st ∧ key' = key) then Some info else lock_at m st' key')) ∨
  (a_status r = TimedOut kLockTimeout ∧ a_map r = m ∧
     ∃ info, lock_at m st key = Some info ∧ a_wait_ids r = txn_ids info ∧
       (excl = true ∨ exclusive info = true) ∧ txn_ids info ≠ [id] ∧
       refused id now info (a_expire_time r) db (a_db r)) ∨
  (a_status r = Busy kLockLimit ∧ a_map r = m ∧ a_db r = db ∧ lock_at m st key = None ∧
     a_wait_ids r = wait_ids ∧ a_expire_time r = hint ∧ 0 < max_num_locks_ ≤ lock_cnt m).
Proof.
  intros Hst Hok r. subst r. unfold LockMgr.AcquireLocked.
  change (stripe_of st m !! key) with (lock_at m st key).
  destruct (lock_at m st key) as [info|] eqn:E.
  - destruct (Hok _ _ _ E) as [Hne Hex]. cbn [exclusive request first_id txn_ids List.hd].
    destruct (exclusive info || excl) eqn:Eex.
    + change (first_id (request excl id exp)) with id. case_bool_decide as Hmine.
      * left. split; [done|]. eexists. cbn [a_map a_db]. split; [|intros; apply lock_at_set; done].
        unfold granted, lock_ok. cbn [txn_ids exclusive]. rewrite Hmine. split_and!.
        -- done. -- by exists id. -- set_solver. -- done. -- done.
        -- cbn [expiration_time]. by rewrite orb_comm, Eex.
        -- intros x Hx Hin. set_solver.
      * destruct (IsLockExpired id info now hint db) as [[expired hint'] db'] eqn:Eexp.
        destruct expired.
        -- left. split; [done|]. exists (request excl id exp). cbn [a_map a_db].
           split; [|intros; apply lock_at_set; done].
           unfold granted, lock_ok. cbn [txn_ids exclusive request]. split_and!.
           ++ done. ++ by exists id. ++ set_solver. ++ done. ++ done.
           ++ cbn [expiration_time]. by rewrite orb_comm, Eex.
           ++ intros x Hx Hin. right. by eapply expired_spec.
        -- right. left. split_and!; [done|done|]. exists info. split_and!; try done.
           ++ by apply orb_true_iff in Eex as [|]; [right|left].
           ++ by eapply refused_spec.
    + apply orb_false_iff in Eex as [Hi ->]. left. split; [done|]. eexists. cbn [a_map a_db].
      split; [|intros; apply lock_at_set; done].
      change (first_id (request false id exp)) with id.
      unfold granted, lock_ok. cbn [txn_ids exclusive]. rewrite Hi. split_and!; try done.
      * intros Hnil. by apply app_eq_nil in Hnil as [_ ?].
      * set_solver.
      * intros x Hx Hin. left. split_and!; [set_solver|done|done|done].
  - destruct ((0 <? max_num_locks_) && (max_num_locks_ <=? lock_cnt m)) eqn:El.
    + right. right. apply andb_true_iff in El as [H1 H2]. apply Z.ltb_lt in H1. apply Z.leb_le in H2.
      split_and!; done.
    + left. split; [done|]. exists (request excl id exp). split.
      * unfold granted, lock_ok. cbn [txn_ids exclusive request]. split_and!; [done|by exists id|set_solver|done|done|done].
      * intros st' key'. cbn [a_map]. destruct (max_num_locks_ =? 0); [|rewrite lock_at_cnt];
          apply lock_at_set; done.
Qed.

(** The states of transactions change only by stealing from an expired lock. *)
Lemma steal_all_changes id ids db x :
  (steal_all id ids db).1 !! x = db !! x ∨
  x ≠ id ∧ x ∈ ids ∧ db !! x = Some STARTED ∧ (steal_all id ids db).1 !! x = Some LOCKS_STOLEN.
Proof.
  revert db. induction ids as [|y ids IH]; intros db; cbn [steal_all]; [by left|].
  assert (∀ db1, (steal_all id ids db1).1 !! x = db1 !! x ∨ x ≠ id ∧ x ∈ y :: ids ∧ db1 !! x = Some STARTED ∧
    (steal_all id ids db1).1 !! x = Some LOCKS_STOLEN) as IH'.
  { intros db1. destruct (IH db1) as [|(? & ? & ?)]; [by left|right]. split_and!; try done; [by right|tauto|tauto]. }
  destruct (Z.eqb_spec id y) as [<-|Hne]; [apply IH'|].
  unfold TryStealingExpiredTransactionLocks, TryStealingLocks. destruct (db !! y) as [st|] eqn:Ey; [|apply IH'].
  case_bool_decide as Hst; [|by left]. injection Hst as ->.
  destruct (IH' (<[y:=LOCKS_STOLEN]> db)) as [E|(? & ? & Hs & ?)].
  - rewrite E. destruct (decide (x = y)) as [->|Hxy]; [|left; by apply lookup_insert_ne].
    right. split_and!; [done|by left|done|apply lookup_insert_eq].
  - right. destruct (decide (x = y)) as [->|Hxy]; [by rewrite lookup_insert_eq in Hs|].
    rewrite lookup_insert_ne in Hs by done. done.
Qed.

Lemma acquire_states m st key now excl id exp hint wait_ids db x :
  let r := AcquireLocked m st key now (request excl id exp) hint wait_ids db in
  a_db r !! x = db !! x ∨
  ∃ info, lock_at m st key = Some info ∧ x ≠ id ∧ x ∈ txn_ids info ∧
    expiration_time info ≠ 0 ∧ expiration_time info ≤ now ∧
    db !! x = Some STARTED ∧ a_db r !! x = Some LOCKS_STOLEN.
Proof.
  intros r. subst r. unfold LockMgr.AcquireLocked. change (stripe_of st m !! key) with (lock_at m st key).
  destruct (lock_at m st key) as [info|]; [|by destruct (_ && _); left].
  destruct (exclusive info || _); [|by left]. case_bool_decide; [by left|].
  unfold IsLockExpired. destruct (Z.eqb_spec (expiration_time info) 0); [by left|].
  destruct (Z.leb_spec (expiration_time info) now); cbn [negb]; [|by left].
  change (first_id (request excl id exp)) with id.
  pose proof (steal_all_changes id (txn_ids info) db x) as Hs.
  destruct (steal_all id (txn_ids info) db) as [db' []]; cbn [fst a_db] in *;
    (destruct Hs as [|(? & ? & ? & ?)]; [by left|right; exists info; by split_and!]).
Qed.

(** ** Releasing *)

Lemma remove_id_perm id ids : id ∈ ids → id :: remove_id id ids ≡ₚ ids.
Proof.
  intros Hin. unfold remove_id.
  destruct (list_find (λ x, x = id) ids) as [[i x]|] eqn:E.
  - apply list_find_Some in E as (Hi & -> & _). by apply swap_remove_perm.
  - apply list_find_None in E. rewrite Forall_forall in E. by destruct (E id Hin).
Qed.

Definition released (id : Z) (before after : option LockInfo) : Prop :=
  match before with
  | Some info =>
      if decide (id ∈ txn_ids info) then
        match after with
        | None => txn_ids info = [id]
        | Some info' => id :: txn_ids info' ≡ₚ txn_ids info ∧ txn_ids info' ≠ [] ∧
            exclusive info' = exclusive info ∧ expiration_time info' = expiration_time info
        end
      else after = before
  | None => after = None
  end.

Lemma unlock_outcome m st key id :
  (st < length (lock_map_stripes_ m))%nat →
  let m' := UnLockKey id key st m in
  released id (lock_at m st key) (lock_at m' st key) ∧
  (∀ st' key', ¬ (st' = st ∧ key' = key) → lock_at m' st' key' = lock_at m st' key') ∧
  length (lock_map_stripes_ m') = length (lock_map_stripes_ m) ∧
  num_stripes_ m' = num_stripes_ m.
Proof.
  intros Hst m'. subst m'. unfold LockMgr.UnLockKey, released.
  change (stripe_of st m !! key) with (lock_at m st key).
  destruct (lock_at m st key) as [info|] eqn:E; [|by rewrite E].
  case_bool_decide as Hin; [|by rewrite decide_False, E by done].
  rewrite decide_True by done.
  set (m1 := if bool_decide _ then _ else _).
  assert (∀ m2, lock_at m2 = lock_at m1 → length (lock_map_stripes_ m2) = length (lock_map_stripes_ m1) →
    num_stripes_ m2 = num_stripes_ m1 →
    match lock_at m2 st key with
    | Some info' => id :: txn_ids info' ≡ₚ txn_ids info ∧ txn_ids info' ≠ [] ∧
        exclusive info' = exclusive info ∧ expiration_time info' = expiration_time info
    | None => txn_ids info = [id]
    end ∧ (∀ st' key', ¬ (st' = st ∧ key' = key) → lock_at m2 st' key' = lock_at m st' key') ∧
    length (lock_map_stripes_ m2) = length (lock_map_stripes_ m) ∧ num_stripes_ m2 = num_stripes_ m) as H.
  { intros m2 -> -> ->. subst m1. case_bool_decide as Hlen.
    - rewrite lock_at_del, decide_True by done. split_and!; [|intros|apply stripes_del|done].
      + destruct (txn_ids info) as [|y [|? ?]]; try done. f_equal. set_solver.
      + by rewrite lock_at_del, decide_False by done.
    - rewrite lock_at_set, decide_True by done. cbn [txn_ids exclusive expiration_time].
      pose proof (remove_id_perm id (txn_ids info) Hin) as Hp.
      split_and!; [done| |done|done|intros; by rewrite lock_at_set, decide_False by done|apply stripes_set|done].
      intros Hnil. rewrite Hnil in Hp. apply Permutation_length in Hp. simpl in Hp. lia. }
  destruct (0 <? max_num_locks_); by apply H.
Qed.

(** ** Runs on one lock map *)

Definition lock_state : Type := LockMap * gmap Z TransactionState.

(** [only]: the modes requested in the run. *)
Inductive lock_step (only : bool → Prop) : lock_state → lock_state → Prop :=
  | ls_acquire m db st key now excl id exp hint wait_ids :
      (st < length (lock_map_stripes_ m))%nat → only excl →
      lock_step only (m, db)
        (a_map (AcquireLocked m st key now (request excl id exp) hint wait_ids db),
         a_db (AcquireLocked m st key now (request excl id exp) hint wait_ids db))
  | ls_unlock m db st key id :
      (st < length (lock_map_stripes_ m))%nat →
      lock_step only (m, db) (UnLockKey id key st m, db).

Lemma map_ok_new n : map_ok (new_lock_map n).
Proof.
  intros st key info. unfold lock_at, stripe_of, new_lock_map. cbn [lock_map_stripes_].
  destruct (_ !! st) as [k|] eqn:E; [|done].
  apply lookup_replicate in E as [-> _]. done.
Qed.

Lemma lock_step_ok only m db m' db' : lock_step only (m, db) (m', db') → map_ok m → map_ok m'.
Proof.
  intros Hstep Hok. inversion Hstep; subst.
  - match goal with Hs : (_ < _)%nat |- _ =>
      destruct (acquire_outcome m st key now excl id exp hint wait_ids db Hs Hok) as
        [(_ & info & Hg & Hl)|[(_ & Hl & _)|(_ & Hl & _)]] end;
      [|by rewrite Hl|by rewrite Hl].
    intros st' key' info' Hi. rewrite Hl in Hi. destruct (decide _); [|by eapply Hok].
    injection Hi as <-. apply Hg.
  - destruct (unlock_outcome m st key id) as (Hr & Hoth & _ & _); [done|].
    intros st' key' info' Hi. destruct (decide (st' = st ∧ key' = key)) as [[-> ->]|Hn].
    + rewrite Hi in Hr. unfold released in Hr. destruct (lock_at m st key) as [info|] eqn:E; [|done].
      specialize (Hok _ _ _ E). destruct (decide _); [|by simplify_eq].
      destruct Hr as (Hp & Hne & Hex & _). split; [done|]. rewrite Hex. intros Hx.
      destruct Hok as [_ Hok]. destruct (Hok Hx) as [y Hy]. rewrite Hy in Hp.
      apply Permutation_length in Hp. simpl in Hp. destruct (txn_ids info'); [done|simpl in Hp; lia].
    + rewrite Hoth in Hi by done. by eapply Hok.
Qed.

Lemma lock_run_ok only n db s : rtc (lock_step only) (new_lock_map n, db) s → map_ok s.1.
Proof.
  intros Hr. cut (∀ x y, rtc (lock_step only) x y → map_ok x.1 → map_ok y.1).
  { intros Hc. eapply Hc; [exact Hr|apply map_ok_new]. }
  induction 1 as [|[m1 d1] [m2 d2] z Hs _ IH]; [done|]. intros Hok. apply IH. by eapply lock_step_ok.
Qed.

(** C26. Grants respect the holders. In every state a run of requests and
    releases reaches, a key's lock has one holder if it is exclusive; and a
    request either leaves the requester holding the key in the mode it asked
    for, with every other holder still there (both sides shared) or expired
    with its locks stolen; or it is refused with TimedOut, changes no lock and
    reports the key's holders to wait for; or it is refused with Busy at a free
    key when the lock limit is reached, and changes and reports nothing. No
    other key changes. A TimedOut request leaves the states of the transactions
    alone unless the lock has expired; if it has, the holders listed before the
    first one that is registered and not STARTED have their locks stolen although
    the request is refused. No other transaction's state changes. *)
Theorem AcquireLocked_respects_holders n db0 m db st key now excl id exp hint wait_ids :
  rtc (lock_step (λ _, True)) (new_lock_map n, db0) (m, db) →
  (st < length (lock_map_stripes_ m))%nat →
  (∀ st' key' info, lock_at m st' key' = Some info →
     txn_ids info ≠ [] ∧ (exclusive info = true → ∃ x, txn_ids info = [x])) ∧
  let r := AcquireLocked m st key now (request excl id exp) hint wait_ids db in
  ((a_status r = OK ∧ (∃ info, granted excl id exp now (lock_at m st key) info db (a_db r) ∧
      ∀ st' key', lock_at (a_map r) st' key' =
        if decide (st' = st ∧ key' = key) then Some info else lock_at m st' key')) ∨
  (a_status r = TimedOut kLockTimeout ∧ a_map r = m ∧
     ∃ info, lock_at m st key = Some info ∧ a_wait_ids r = txn_ids info ∧
       (excl = true ∨ exclusive info = true) ∧ txn_ids info ≠ [id] ∧
       refused id now info (a_expire_time r) db (a_db r)) ∨
  (a_status r = Busy kLockLimit ∧ a_map r = m ∧ a_db r = db ∧ lock_at m st key = None ∧
     a_wait_ids r = wait_ids ∧ a_expire_time r = hint ∧ 0 < max_num_locks_ ≤ lock_cnt m)) ∧
  ∀ x, a_db r !! x = db !! x ∨
    ∃ info, lock_at m st key = Some info ∧ x ≠ id ∧ x ∈ txn_ids info ∧
      expiration_time info ≠ 0 ∧ expiration_time info ≤ now ∧
      db !! x = Some STARTED ∧ a_db r !! x = Some LOCKS_STOLEN.
Proof.
  intros Hr Hst. apply lock_run_ok in Hr. split; [exact Hr|].
  split; [by apply acquire_outcome|]. intros x. apply acquire_states.
Qed.

(** Release drops one holding of the transaction and nothing else: the
    key's lock goes with its last holder, otherwise the other holders stay. *)
Theorem UnLockKey_releases m st key id :
  (st < length (lock_map_stripes_ m))%nat →
  released id (lock_at m st key) (lock_at (UnLockKey id key st m) st key) ∧
  ∀ st' key', ¬ (st' = st ∧ key' = key) →
    lock_at (UnLockKey id key st m) st' key' = lock_at m st' key'.
Proof. intros Hst. by destruct (unlock_outcome m st key id Hst) as (? & ? & _). Qed.

(** The lock limit's status is not the one [Status::IsLockLimit] looks for. *)
Lemma lock_limit_unrecognised m st key now info hint wait_ids db :
  IsLockLimit (a_status (AcquireLocked m st key now info hint wait_ids db)) = false.
Proof.
  unfold LockMgr.AcquireLocked. destruct (stripe_of st m !! key) as [i|].
  - destruct (exclusive i || exclusive info); [|done]. case_bool_decide; [done|].
    destruct (IsLockExpired _ _ _ _ _) as [[[] ?] ?]; done.
  - by destruct (_ && _).
Qed.

(** ** The lock count *)

Definition locked_keys (m : LockMap) : nat := sum_list_with size (lock_map_stripes_ m).

Lemma sum_insert (l : list (gmap bytes LockInfo)) i x y :
  l !! i = Some x → (sum_list_with size (<[i := y]> l) + size x = sum_list_with size l + size y)%nat.
Proof.
  revert i. induction l as [|a l IH]; intros i Hi; [done|].
  destruct i as [|i]; simpl in *; [injection Hi as ->; lia|]. specialize (IH i Hi). lia.
Qed.

Lemma stripe_lookup m st :
  (st < length (lock_map_stripes_ m))%nat → lock_map_stripes_ m !! st = Some (stripe_of st m).
Proof. intros Hst. unfold stripe_of. by destruct (lookup_lt_is_Some_2 _ _ Hst) as [x ->]. Qed.

Lemma locked_keys_set m st key info :
  (st < length (lock_map_stripes_ m))%nat →
  locked_keys (set_key st key info m) =
    (locked_keys m + match lock_at m st key with Some _ => 0 | None => 1 end)%nat.
Proof.
  intros Hst. pose proof (sum_insert _ _ _ (<[key := info]> (stripe_of st m)) (stripe_lookup m st Hst)) as Hs.
  unfold locked_keys, set_key, lock_at in *. simpl. rewrite map_size_insert in Hs.
  destruct (stripe_of st m !! key); simpl in Hs; lia.
Qed.

Lemma locked_keys_del m st key info :
  (st < length (lock_map_stripes_ m))%nat → lock_at m st key = Some info →
  (locked_keys (del_key st key m) + 1 = locked_keys m)%nat.
Proof.
  intros Hst Hk. pose proof (sum_insert _ _ _ (delete key (stripe_of st m)) (stripe_lookup m st Hst)) as Hs.
  unfold locked_keys, del_key, lock_at in *. simpl. rewrite map_size_delete, Hk in Hs.
  assert (size (stripe_of st m) ≠ 0%nat) by (rewrite map_size_non_empty_iff; intros He; by rewrite He in Hk).
  simpl in Hs. lia.
Qed.

Record count_ok (m : LockMap) : Prop := {
  co_ok : map_ok m;
  co_excl : ∀ st key info, lock_at m st key = Some info → exclusive info = true;
  co_cnt : lock_cnt m = Z.of_nat (locked_keys m);
  co_max : Z.of_nat (locked_keys m) ≤ max_num_locks_;
}.

Lemma acquire_count m st key now id exp hint wait_ids db :
  0 < max_num_locks_ → (st < length (lock_map_stripes_ m))%nat → count_ok m →
  let m' := a_map (AcquireLocked m st key now (request true id exp) hint wait_ids db) in
  lock_cnt m' = Z.of_nat (locked_keys m') ∧ Z.of_nat (locked_keys m') ≤ max_num_locks_.
Proof.
  intros Hmax Hst [Hok Hex Hcnt Hle] m'. subst m'. unfold LockMgr.AcquireLocked.
  pose proof (locked_keys_set m st key) as Hset.
  change (stripe_of st m !! key) with (lock_at m st key).
  destruct (lock_at m st key) as [info|] eqn:E.
  - assert (∀ i, lock_cnt (set_key st key i m) = Z.of_nat (locked_keys (set_key st key i m)) ∧
      Z.of_nat (locked_keys (set_key st key i m)) ≤ max_num_locks_) as Hs.
    { intros i. rewrite (Hset i Hst), Nat.add_0_r. done. }
    cbn [exclusive request]. rewrite orb_true_r. case_bool_decide; [apply Hs|].
    destruct (IsLockExpired _ _ _ _ _) as [[[] ?] ?]; [apply Hs|done].
  - destruct (Z.ltb_spec 0 max_num_locks_); [|lia]. simpl.
    destruct (Z.leb_spec max_num_locks_ (lock_cnt m)); [done|].
    destruct (Z.eqb_spec max_num_locks_ 0); [lia|]. cbn [a_map].
    change (locked_keys (add_cnt 1 (set_key st key (request true id exp) m)))
      with (locked_keys (set_key st key (request true id exp) m)).
    change (lock_cnt (add_cnt 1 (set_key st key (request true id exp) m))) with (lock_cnt m + 1).
    rewrite (Hset (request true id exp) Hst). lia.
Qed.

Lemma count_step m db m' db' :
  0 < max_num_locks_ → lock_step (λ x, x = true) (m, db) (m', db') → count_ok m → count_ok m'.
Proof.
  intros Hmax Hstep Hc. pose proof (lock_step_ok _ _ _ _ _ Hstep (co_ok _ Hc)) as Hok'.
  inversion Hstep as [m0 db1 st key now excl id exp hint wait_ids Hst Hexcl|m0 db1 st key id Hst]; subst.
  - destruct (acquire_count m st key now id exp hint wait_ids db Hmax Hst Hc) as [H1 H2].
    split; [done| |done|done]. intros st' key' info Hi.
    destruct (acquire_outcome m st key now true id exp hint wait_ids db Hst (co_ok _ Hc)) as
      [(_ & i & Hg & Hl)|[(_ & Hl & _)|(_ & Hl & _)]];
      [|rewrite Hl in Hi; by eapply (co_excl _ Hc)|rewrite Hl in Hi; by eapply (co_excl _ Hc)].
    rewrite Hl in Hi. destruct (decide _); [|by eapply (co_excl _ Hc)]. injection Hi as <-.
    by apply Hg.
  - destruct Hc as [Hok Hex Hcnt Hle].
    destruct (unlock_outcome m st key id Hst) as (Hr & Hoth & _).
    assert (lock_cnt (UnLockKey id key st m) = Z.of_nat (locked_keys (UnLockKey id key st m)) ∧
      Z.of_nat (locked_keys (UnLockKey id key st m)) ≤ max_num_locks_) as [H1 H2].
    { unfold LockMgr.UnLockKey. change (stripe_of st m !! key) with (lock_at m st key).
      destruct (lock_at m st key) as [info|] eqn:E; [|done]. case_bool_decide; [|done].
      destruct (Hok _ _ _ E) as [_ Hx]. destruct (Hx (Hex _ _ _ E)) as [y Hy].
      rewrite bool_decide_eq_true_2 by (by rewrite Hy). destruct (Z.ltb_spec 0 max_num_locks_); [|lia].
      pose proof (locked_keys_del m st key info Hst E).
      change (lock_cnt (add_cnt (-1) (del_key st key m))) with (lock_cnt m + -1).
      change (locked_keys (add_cnt (-1) (del_key st key m))) with (locked_keys (del_key st key m)). lia. }
    split; [done| |done|done]. intros st' key' info Hi.
    destruct (decide (st' = st ∧ key' = key)) as [[-> ->]|Hn]; [|rewrite Hoth in Hi by done; by eapply Hex].
    rewrite Hi in Hr. unfold released in Hr. destruct (lock_at m st key) as [i|] eqn:E; [|done].
    destruct (decide _); [|simplify_eq; by eapply Hex].
    destruct Hr as (_ & _ & -> & _). by eapply Hex.
Qed.

(** With exclusive locks only, the lock count is the number of locked keys
    at every moment, and never above the limit. *)
Theorem exclusive_lock_count n db0 m db :
  0 < max_num_locks_ →
  rtc (lock_step (λ x, x = true)) (new_lock_map n, db0) (m, db) →
  lock_cnt m = Z.of_nat (locked_keys m) ∧ Z.of_nat (locked_keys m) ≤ max_num_locks_.
Proof.
  intros Hmax Hr.
  cut (∀ x y, rtc (lock_step (λ x, x = true)) x y → count_ok x.1 → count_ok y.1).
  { intros Hc. destruct (Hc _ _ Hr) as [_ _ ? ?]; [|done].
    assert (locked_keys (new_lock_map n) = 0%nat) as Hz.
    { unfold locked_keys, new_lock_map. simpl. induction (Z.to_nat n); [done|]. simpl.
      by rewrite map_size_empty. }
    change (count_ok (new_lock_map n)).
    split; [apply map_ok_new| |by rewrite Hz|rewrite Hz; simpl; lia].
    intros st key info. unfold lock_at, stripe_of, new_lock_map. cbn [lock_map_stripes_ fst].
    destruct (_ !! st) as [k|] eqn:E; [|done]. apply lookup_replicate in E as [-> _]. done. }
  induction 1 as [|[m1 d1] [m2 d2] z Hs _ IH]; [done|]. intros Hok. apply IH. by eapply count_step.
Qed.

(** Shared locks break the count: two transactions that share a key count
    once when they lock and twice when they unlock, so the count ends one below
    where it started although the same keys are locked. *)
Theorem shared_lock_count_drifts m st key now id1 id2 exp hint wait_ids db :
  0 < max_num_locks_ → lock_cnt m < max_num_locks_ → id1 ≠ id2 →
  (st < length (lock_map_stripes_ m))%nat → lock_at m st key = None →
  let m1 := a_map (AcquireLocked m st key now (request false id1 exp) hint wait_ids db) in
  let m2 := a_map (AcquireLocked m1 st key now (request false id2 exp) hint wait_ids db) in
  let m3 := UnLockKey id2 key st (UnLockKey id1 key st m2) in
  (∀ st' key', lock_at m3 st' key' = lock_at m st' key') ∧ lock_cnt m3 = lock_cnt m - 1.
Proof.
  intros Hmax Hlim Hne Hst Hfree m1 m2 m3.
  assert (m1 = add_cnt 1 (set_key st key (request false id1 exp) m)) as Hm1.
  { subst m1. unfold LockMgr.AcquireLocked. change (stripe_of st m !! key) with (lock_at m st key).
    rewrite Hfree. destruct (Z.leb_spec max_num_locks_ (lock_cnt m)); [lia|].
    rewrite andb_false_r. by destruct (Z.eqb_spec max_num_locks_ 0); [lia|]. }
  clearbody m1. subst m1. set (m1 := add_cnt 1 _) in *.
  assert ((st < length (lock_map_stripes_ m1))%nat) as Hst1 by (subst m1; simpl; by rewrite length_insert).
  assert (∀ st' key', lock_at m1 st' key' = if decide (st' = st ∧ key' = key) then Some (request false id1 exp) else lock_at m st' key') as Hl1.
  { intros. apply lock_at_set. done. }
  set (i2 := mkLockInfo false [id1; id2] (Z.max exp exp)).
  assert (m2 = set_key st key i2 m1) as Hm2.
  { subst m2. unfold LockMgr.AcquireLocked. change (stripe_of st m1 !! key) with (lock_at m1 st key).
    rewrite Hl1, decide_True by done. done. }
  clearbody m2. subst m2. set (m2 := set_key st key i2 m1) in *.
  assert ((st < length (lock_map_stripes_ m2))%nat) as Hst2 by (subst m2; by rewrite stripes_set).
  assert (∀ st' key', lock_at m2 st' key' = if decide (st' = st ∧ key' = key) then Some i2 else lock_at m1 st' key') as Hl2.
  { intros. by apply lock_at_set. }
  set (i3 := mkLockInfo false [id2] (Z.max exp exp)).
  assert (UnLockKey id1 key st m2 = add_cnt (-1) (set_key st key i3 m2)) as Hm3.
  { unfold LockMgr.UnLockKey. change (stripe_of st m2 !! key) with (lock_at m2 st key).
    rewrite Hl2, decide_True by done. cbn [txn_ids i2]. rewrite bool_decide_eq_true_2 by set_solver.
    rewrite bool_decide_eq_false_2 by done. destruct (Z.ltb_spec 0 max_num_locks_); [|lia].
    unfold remove_id. simpl. by rewrite decide_True by done. }
  subst m3. rewrite Hm3. set (m3 := add_cnt (-1) _).
  assert ((st < length (lock_map_stripes_ m3))%nat) as Hst3.
  { change (length (lock_map_stripes_ m3)) with (length (lock_map_stripes_ (set_key st key i3 m2))).
    by rewrite stripes_set. }
  assert (∀ st' key', lock_at m3 st' key' = if decide (st' = st ∧ key' = key) then Some i3 else lock_at m2 st' key') as Hl3.
  { intros. change (lock_at (set_key st key i3 m2) st' key' = if decide (st' = st ∧ key' = key) then Some i3 else lock_at m2 st' key').
    by apply lock_at_set. }
  assert (UnLockKey id2 key st m3 = add_cnt (-1) (del_key st key m3)) as ->.
  { unfold LockMgr.UnLockKey. change (stripe_of st m3 !! key) with (lock_at m3 st key).
    rewrite Hl3, decide_True by done. cbn [txn_ids i3]. rewrite bool_decide_eq_true_2 by set_solver.
    rewrite bool_decide_eq_true_2 by done. by destruct (Z.ltb_spec 0 max_num_locks_); [|lia]. }
  split.
  - intros st' key'. rewrite lock_at_cnt, lock_at_del, Hl3, Hl2, Hl1 by done.
    destruct (decide _) as [[-> ->]|]; done.
  - change (lock_cnt m + 1 + -1 + -1 = lock_cnt m - 1). lia.
Qed.

(** ** Thread-local caches of lock maps *)

Inductive cf_step : TransactionLockMgr → TransactionLockMgr → Prop :=
  | cs_add s cf : cf_step s (AddColumnFamily default_num_stripes_ cf s)
  | cs_remove s cf : cf_step s (RemoveColumnFamily cf s)
  | cs_get s tid cf : cf_step s (fst (GetLockMap tid cf s)).

Definition cache_coherent (s : TransactionLockMgr) : Prop :=
  ∀ tid cache cf p, lock_maps_cache_ s !! tid = Some cache → cache !! cf = Some p →
    lock_maps_ s !! cf = Some p.

Lemma get_lock_map_coherent tid cf s :
  cache_coherent s →
  cache_coherent (fst (GetLockMap tid cf s)) ∧ snd (GetLockMap tid cf s) = lock_maps_ s !! cf ∧
  lock_maps_ (fst (GetLockMap tid cf s)) = lock_maps_ s ∧ objects (fst (GetLockMap tid cf s)) = objects s.
Proof.
  intros Hc. unfold GetLockMap. set (cache := default ∅ (lock_maps_cache_ s !! tid)).
  assert (∀ cf p, cache !! cf = Some p → lock_maps_ s !! cf = Some p) as Hown.
  { intros cf' p Hp. subst cache. destruct (lock_maps_cache_ s !! tid) as [c|] eqn:E; simpl in Hp;
      [by eapply Hc|by rewrite lookup_empty in Hp]. }
  assert (∀ c, (∀ cf p, c !! cf = Some p → lock_maps_ s !! cf = Some p) →
    cache_coherent (set_cache (<[tid := c]> (lock_maps_cache_ s)) s)) as Hset.
  { intros c Hok t c' cf' p Ht Hp. destruct s. simpl in *.
    apply lookup_insert_Some in Ht as [[<- <-]|[_ Ht]]; [by apply Hok|by eapply Hc]. }
  destruct (cache !! cf) as [p|] eqn:E.
  { cbn [fst snd]. split_and!; [by apply Hset| |by destruct s|by destruct s]. symmetry. by apply Hown. }
  assert (lock_maps_ (set_cache (<[tid := cache]> (lock_maps_cache_ s)) s) = lock_maps_ s) as -> by by destruct s.
  destruct (lock_maps_ s !! cf) as [p|] eqn:El; cbn [fst snd].
  - split_and!; [|done|by destruct s|by destruct s].
    replace (set_cache _ (set_cache _ s)) with (set_cache (<[tid := <[cf := p]> cache]> (lock_maps_cache_ s)) s).
    + apply Hset. intros cf' q Hq. apply lookup_insert_Some in Hq as [[<- <-]|[_ Hq]]; [done|by apply Hown].
    + destruct s. simpl. f_equal. by rewrite insert_insert_eq.
  - split_and!; [by apply Hset|done|by destruct s|by destruct s].
Qed.

Lemma cf_step_coherent s s' : cf_step s s' → cache_coherent s → cache_coherent s'.
Proof.
  intros [s1 cf|s1 cf|s1 tid cf] Hc.
  - unfold AddColumnFamily. destruct (lock_maps_ s1 !! cf) eqn:E; [done|].
    intros tid cache cf' p Ht Hp. simpl in *. specialize (Hc _ _ _ _ Ht Hp).
    rewrite lookup_insert_ne; [done|congruence].
  - intros tid cache cf' p Ht. simpl in Ht. by rewrite lookup_empty in Ht.
  - by apply get_lock_map_coherent.
Qed.

(** The thread-local caches never go stale: through any additions and
    removals of column families (re-creation under an old id included) and any
    lookups by any threads, a lookup returns the shared table's lock map. *)
Theorem GetLockMap_coherent s0 s tid cf :
  lock_maps_cache_ s0 = ∅ → rtc cf_step s0 s →
  snd (GetLockMap tid cf s) = lock_maps_ s !! cf.
Proof.
  intros Hempty Hr. apply get_lock_map_coherent.
  assert (cache_coherent s0) as H0 by (intros t c f p Ht; by rewrite Hempty, lookup_empty in Ht).
  clear Hempty. induction Hr as [|x y z Hs _ IH]; [done|]. apply IH. by eapply cf_step_coherent.
Qed.

(** ** The waiting loop *)

(** The object [p] has the stripe, its locks are well-formed. *)
Definition object_ok (p stripe : nat) (s : TransactionLockMgr) : Prop :=
  ∃ m, objects s !! p = Some m ∧ (stripe < length (lock_map_stripes_ m))%nat ∧ map_ok m.

(** The key's lock is in the mode [excl], [id] holds it, alone if exclusive. *)
Definition holds_lock (p stripe : nat) (key : bytes) (excl : bool) (id : Z) (s : TransactionLockMgr) : Prop :=
  ∃ m info, objects s !! p = Some m ∧ lock_at m stripe key = Some info ∧ id ∈ txn_ids info ∧
    exclusive info = excl ∧ (excl = true → txn_ids info = [id]).

Lemma acquire_at_spec p stripe key now excl id exp hint wait_ids s :
  object_ok p stripe s →
  let '(result, hint', ids', s') := acquire_at max_num_locks_ p stripe key now (request excl id exp) hint wait_ids s in
  object_ok p stripe s' ∧ waits_ s' = waits_ s ∧ (ok result = true → holds_lock p stripe key excl id s').
Proof.
  intros (m & Hm & Hst & Hok). unfold acquire_at. rewrite Hm. cbn [default from_option]. unfold Datatypes.id.
  set (r := AcquireLocked m stripe key now (request excl id exp) hint wait_ids (expirable_transactions_map_ s)).
  assert (objects (set_expirable (a_db r) (set_objects (<[p := a_map r]> (objects s)) s)) !! p = Some (a_map r)) as Hp.
  { destruct s. simpl. apply lookup_insert_eq. }
  assert (map_ok (a_map r) ∧ length (lock_map_stripes_ (a_map r)) = length (lock_map_stripes_ m)) as [Hok' Hlen].
  { split.
    - by apply (lock_step_ok (λ _, True) m (expirable_transactions_map_ s) (a_map r) (a_db r)); [constructor|].
    - subst r. unfold LockMgr.AcquireLocked. destruct (stripe_of stripe m !! key).
      + destruct (_ || _); [|apply stripes_set]. case_bool_decide; [apply stripes_set|].
        destruct (IsLockExpired _ _ _ _ _) as [[[] ?] ?]; [apply stripes_set|done].
      + destruct (_ && _); [done|]. cbn [a_map]. destruct (max_num_locks_ =? 0); apply stripes_set. }
  split_and!.
  - exists (a_map r). split_and!; [done|by rewrite Hlen|done].
  - by destruct s.
  - intros Hr. destruct (acquire_outcome m stripe key now excl id exp hint wait_ids (expirable_transactions_map_ s) Hst Hok)
      as [(_ & info & Hg & Hl)|[(Hb & _)|(Hb & _)]].
    + exists (a_map r), info. destruct Hg as (_ & ? & ? & ? & _). split_and!; try done. subst r. by rewrite Hl, decide_True.
    + subst r. by rewrite Hb in Hr.
    + subst r. by rewrite Hb in Hr.
Qed.

(** What a waiting transaction relies on from the others: they keep the lock
    maps well-formed and leave its own registration alone. *)
Definition others_ok (p stripe : nat) (id : Z) (r : Round) : Prop :=
  ∀ s, object_ok p stripe s → object_ok p stripe (r_others r s) ∧
    (wait_txn_map_ (waits_ s) !! id = None → wait_txn_map_ (waits_ (r_others r s)) !! id = None).

Lemma refused_not_registered id depth wait_ids key cf excl now w w' :
  IncrementWaiters id depth wait_ids key cf excl now w = (w', true) → wait_txn_map_ w' !! id = None.
Proof.
  unfold IncrementWaiters. destruct (_ !! id); [|done].
  destruct (search_loop _ _ _ _ _ _ _ _); intros; simplify_eq; simpl; apply lookup_delete_eq.
Qed.

Lemma acquire_loop_spec rounds txn p stripe cf key excl exp end_time result hint wait_ids s st' s' :
  (∀ r, r ∈ rounds → others_ok p stripe (GetID txn) r) → object_ok p stripe s →
  wait_txn_map_ (waits_ s) !! GetID txn = None → ok result = false →
  acquire_loop max_num_locks_ rounds txn p stripe cf key (request excl (GetID txn) exp)
    end_time result hint wait_ids s = Some (st', s') →
  wait_txn_map_ (waits_ s') !! GetID txn = None ∧
  (ok st' = true → holds_lock p stripe key excl (GetID txn) s').
Proof.
  revert result hint wait_ids s. induction rounds as [|r rounds IH];
    intros result hint wait_ids s Hoth Hobj Hreg Hres; cbn [acquire_loop]; [done|].
  assert (others_ok p stripe (GetID txn) r) as Hr by (apply Hoth; constructor).
  assert (∀ r, r ∈ rounds → others_ok p stripe (GetID txn) r) as Hoth' by (intros; apply Hoth; by constructor).
  set (waits := negb (bool_decide (wait_ids = []))).
  destruct (if waits && IsDeadlockDetect txn then _ else _) as [s1 refused] eqn:E1.
  assert (object_ok p stripe s1 ∧ (refused = true → wait_txn_map_ (waits_ s1) !! GetID txn = None) ∧
    (waits && IsDeadlockDetect txn = false → wait_txn_map_ (waits_ s1) !! GetID txn = None)) as (Hobj1 & Href & Hnd).
  { destruct (waits && IsDeadlockDetect txn); [|by simplify_eq].
    destruct (IncrementWaiters _ _ _ _ _ _ _ _) as [w b] eqn:Ei. simplify_eq. split_and!.
    - by destruct s.
    - intros ->. apply refused_not_registered in Ei. by destruct s.
    - done. }
  destruct refused; [intros [= <- <-]; split; [by apply Href|done]|]. clear Href E1.
  set (s2 := if waits then set_waiting _ s1 else s1).
  assert (object_ok p stripe s2 ∧ waits_ s2 = waits_ s1) as [Hobj2 Hw2] by (subst s2; destruct waits; by destruct s1).
  clearbody s2.
  set (pr := if cv_end_time hint end_time <? 0 then _ else _).
  assert (object_ok p stripe pr.2 ∧
    (wait_txn_map_ (waits_ s2) !! GetID txn = None → wait_txn_map_ (waits_ pr.2) !! GetID txn = None)) as [Hobj3 Hw3].
  { subst pr. destruct (_ <? 0); [by apply Hr|]. destruct (_ <? _); [by apply Hr|done]. }
  clearbody pr. destruct pr as [res3 s3]. simpl in Hobj3, Hw3.
  set (s4 := if waits then set_waiting _ s3 else s3).
  assert (object_ok p stripe s4 ∧ waits_ s4 = waits_ s3) as [Hobj4 Hw4] by (subst s4; destruct waits; by destruct s3).
  clearbody s4.
  set (s5 := if waits && IsDeadlockDetect txn then _ else s4).
  assert (object_ok p stripe s5 ∧ wait_txn_map_ (waits_ s5) !! GetID txn = None) as [Hobj5 Hw5].
  { subst s5. destruct (waits && IsDeadlockDetect txn).
    - split; [by destruct s4|]. destruct s4. simpl. apply lookup_delete_eq.
    - split; [done|]. rewrite Hw4. apply Hw3. rewrite Hw2. by apply Hnd. }
  clearbody s5.
  destruct (ok res3 || IsTimedOut res3) eqn:Eor.
  - pose proof (acquire_at_spec p stripe key (r_acquire_now r) excl (GetID txn) exp hint wait_ids s5 Hobj5) as Ha.
    destruct (acquire_at _ _ _ _ _ _ _ _ s5) as [[[res6 hint6] ids6] s6].
    destruct Ha as (Hobj6 & Hw6 & Hhold).
    destruct (negb (ok res6) && negb (IsTimedOut res3)) eqn:Econt.
    + apply andb_true_iff in Econt as [Hn _]. apply negb_true_iff in Hn.
      intros Hrest. eapply IH; [done|exact Hobj6| |exact Hn|exact Hrest]. by rewrite Hw6.
    + intros [= <- <-]. split; [by rewrite Hw6|done].
  - apply orb_false_iff in Eor as [Eo Et]. rewrite Eo, Et. simpl. intros Hrest.
    by eapply IH; [done|exact Hobj5|exact Hw5|exact Eo|exact Hrest].
Qed.

(** C35. Waiting for a lock is sound. For a transaction not registered as
    waiting, whatever the clock readings, the wake-ups, and what other threads
    do to the locks in the meantime (as long as they keep the lock maps
    well-formed and do not touch this transaction's registration as waiting),
    when AcquireWithTimeout returns OK the transaction holds the key in the mode
    it asked for, alone if exclusive; and however it returns, the transaction is
    not registered as waiting. *)
Theorem AcquireWithTimeout_sound txn p stripe cf key timeout excl start now mutex_result rounds s st' s' :
  object_ok p stripe s → wait_txn_map_ (waits_ s) !! GetID txn = None →
  (∀ r, r ∈ rounds → others_ok p stripe (GetID txn) r) →
  AcquireWithTimeout max_num_locks_ txn p stripe cf key timeout
    (request excl (GetID txn) (GetExpirationTime txn)) start now mutex_result rounds s = Some (st', s') →
  wait_txn_map_ (waits_ s') !! GetID txn = None ∧
  (ok st' = true → holds_lock p stripe key excl (GetID txn) s').
Proof.
  intros Hobj Hreg Hoth. unfold AcquireWithTimeout.
  destruct (ok mutex_result) eqn:Em; cbn [negb]; [|intros [= <- <-]; split; [done|congruence]].
  pose proof (acquire_at_spec p stripe key now excl (GetID txn) (GetExpirationTime txn) 0 [] s Hobj) as Ha.
  destruct (acquire_at _ _ _ _ _ _ _ _ s) as [[[res hint] ids] s1]. destruct Ha as (Hobj1 & Hw1 & Hhold).
  destruct (negb (ok res) && negb (timeout =? 0)) eqn:Ec.
  - apply andb_true_iff in Ec as [Hn _]. apply negb_true_iff in Hn.
    intros Hrest. eapply acquire_loop_spec; [exact Hoth|exact Hobj1| |exact Hn|exact Hrest]. by rewrite Hw1.
  - intros [= <- <-]. split; [by rewrite Hw1|done].
Qed.

(** ** Waiting past the timeout at the lock limit *)

Lemma acquire_loop_spins rounds txn p stripe cf key info end_time s :
  0 < end_time < 2 ^ 63 → Forall (λ r, end_time ≤ r_now r) rounds →
  acquire_loop max_num_locks_ rounds txn p stripe cf key info end_time (Busy kLockLimit) 0 [] s = None.
Proof.
  intros Hend Hlate. revert s. induction Hlate as [|r rounds Hr _ IH]; intros s; [done|]. cbn [acquire_loop].
  assert (cv_end_time 0 end_time = end_time) as ->.
  { unfold cv_end_time. destruct (Z.ltb_spec 0 end_time); [|lia]. change ((0 <? 0) && true) with false. change (0 <? 0) with false. cbv iota. unfold to_signed.
    rewrite wrap_small by (unfold in_range; lia).
    change (2 ^ (64 - 1)) with (2 ^ 63). destruct (Z.ltb_spec end_time (2 ^ 63)); lia. }
  destruct (Z.ltb_spec end_time 0); [lia|]. destruct (Z.ltb_spec (r_now r) end_time); [lia|]. apply IH.
Qed.

(** C33. A request that meets the lock limit and finds its timeout already past
    never returns: the wait is skipped, the result stays Busy, which neither
    counts as a timeout nor leads to another attempt, so the loop turns for
    ever with the stripe's mutex held. *)
Theorem lock_limit_timeout_spins txn p m stripe cf key timeout excl start now rounds s :
  objects s !! p = Some m → lock_at m stripe key = None → 0 < max_num_locks_ ≤ lock_cnt m →
  0 ≤ start → 0 < timeout → start + timeout < 2 ^ 63 →
  Forall (λ r, start + timeout ≤ r_now r) rounds →
  AcquireWithTimeout max_num_locks_ txn p stripe cf key timeout
    (request excl (GetID txn) (GetExpirationTime txn)) start now OK rounds s = None.
Proof.
  intros Hm Hfree Hmax Hstart Hto Hend Hlate. unfold AcquireWithTimeout.
  change (negb (ok OK)) with false. cbv iota.
  destruct (Z.ltb_spec 0 timeout); [|lia]. destruct (Z.eqb_spec timeout 0); [lia|].
  assert (u64 (start + timeout) = start + timeout) as -> by (apply Z.mod_small; lia).
  assert (AcquireLocked m stripe key now (request excl (GetID txn) (GetExpirationTime txn)) 0 []
      (expirable_transactions_map_ s) = mkAcquire (Busy kLockLimit) m 0 [] (expirable_transactions_map_ s)) as Ha.
  { unfold LockMgr.AcquireLocked. change (stripe_of stripe m !! key) with (lock_at m stripe key). rewrite Hfree.
    destruct (Z.ltb_spec 0 max_num_locks_); [|lia]. by destruct (Z.leb_spec max_num_locks_ (lock_cnt m)); [|lia]. }
  unfold acquire_at. rewrite Hm. change (default (new_lock_map 0) (Some m)) with m. rewrite Ha.
  cbn [a_status a_expire_time a_wait_ids a_db a_map]. change (negb (ok (Busy kLockLimit)) && negb false) with true.
  cbv iota. apply acquire_loop_spins; [lia|done].
Qed.
End correct.

(** The bulk release returns at the first column family it does not find:
    the keys of the families after it in the map stay locked. *)
Lemma UnLock_keys_stops hash tid txn_id order cf keys rest s :
  snd (GetLockMap tid cf s) = None →
  UnLock_keys 0 hash tid txn_id order ((cf, keys) :: rest) s = (fst (GetLockMap tid cf s), false).
Proof.
  intros Hn. cbn [UnLock_keys]. destruct (GetLockMap tid cf s) as [s' o]. simpl in Hn. by rewrite Hn.
Qed.

(** ** Witnesses *)

Definition example_map : LockMap := set_key 0 [1] (request true 7 50) (new_lock_map 2).

Lemma AcquireLocked_respects_holders_witness :
  ∃ m, rtc (lock_step 3 (λ _, True)) (new_lock_map 2, {[7 := STARTED]}) (m, {[7 := STARTED]}) ∧
  lock_at m 0 [1] = Some (request true 7 50) ∧
  let r := LockMgr.AcquireLocked 3 m 0 [1] 60 (request false 8 0) 0 [] {[7 := STARTED]} in
  a_status r = OK ∧ a_db r !! 7 = Some LOCKS_STOLEN ∧
  ∃ info, granted false 8 0 60 (lock_at m 0 [1]) info {[7 := STARTED]} (a_db r).
Proof.
  set (db := {[7 := STARTED]} : gmap Z TransactionState).
  set (r1 := LockMgr.AcquireLocked 3 (new_lock_map 2) 0 [1] 0 (request true 7 50) 0 [] db).
  assert (Hdb : a_db r1 = db) by (vm_compute; reflexivity).
  assert (Hrun : rtc (lock_step 3 (λ _, True)) (new_lock_map 2, db) (a_map r1, db)).
  { rewrite <- Hdb at 2. apply rtc_once. apply ls_acquire; [simpl; lia|done]. }
  exists (a_map r1). split; [exact Hrun|]. split; [vm_compute; reflexivity|]. cbv zeta.
  split; [vm_compute; reflexivity|]. split; [vm_compute; reflexivity|].
  destruct (AcquireLocked_respects_holders 3 2 db (a_map r1) db 0 [1] 60 false 8 0 0 [] Hrun
    (ltac:(vm_compute; lia))) as [_ [[(_ & info & Hg & _)|[(H & _)|(H & _)]] _]].
  - by exists info.
  - vm_compute in H. discriminate H.
  - vm_compute in H. discriminate H.
Defined.

(** An expired lock shared by 7 (STARTED) and 8 (PREPARED): the exclusive request
    of 9 is refused, but 7 has lost its locks. *)
Lemma refused_request_steals :
  let m := set_key 0 [1] (mkLockInfo false [7; 8] 50) (new_lock_map 2) in
  let r := LockMgr.AcquireLocked 3 m 0 [1] 60 (request true 9 0) 0 [] {[7 := STARTED; 8 := PREPARED]} in
  a_status r = TimedOut kLockTimeout ∧ a_wait_ids r = [7; 8] ∧ a_map r = m ∧
  a_db r !! 7 = Some LOCKS_STOLEN ∧ a_db r !! 8 = Some PREPARED.
Proof. vm_compute. done. Qed.

Lemma UnLockKey_releases_witness :
  lock_at (UnLockKey 0 7 [1] 0 example_map) 0 [1] = None ∧
  released 7 (lock_at example_map 0 [1]) (lock_at (UnLockKey 0 7 [1] 0 example_map) 0 [1]).
Proof.
  split; [reflexivity|]. apply (UnLockKey_releases 0 example_map 0 [1] 7). simpl. lia.
Defined.

Lemma exclusive_lock_count_witness :
  let m := a_map (LockMgr.AcquireLocked 3 (new_lock_map 2) 0 [1] 0 (request true 7 0) 0 [] ∅) in
  lock_cnt m = 1 ∧ lock_cnt m = Z.of_nat (locked_keys m).
Proof.
  split; [reflexivity|].
  apply (exclusive_lock_count 3 2 ∅ _ ∅); [lia|]. apply rtc_once.
  apply (ls_acquire 3 (λ x, x = true) (new_lock_map 2) ∅ 0 [1] 0 true 7 0 0 []); [simpl; lia|done].
Defined.

Lemma shared_lock_count_drifts_witness :
  let m := new_lock_map 2 in
  let m1 := a_map (LockMgr.AcquireLocked 3 m 0 [1] 0 (request false 7 0) 0 [] ∅) in
  let m2 := a_map (LockMgr.AcquireLocked 3 m1 0 [1] 0 (request false 8 0) 0 [] ∅) in
  lock_cnt (UnLockKey 3 8 [1] 0 (UnLockKey 3 7 [1] 0 m2)) = -1.
Proof.
  apply (shared_lock_count_drifts 3 (new_lock_map 2) 0 [1] 0 7 8 0 0 [] ∅); [lia|simpl; lia|done|simpl; lia|reflexivity].
Defined.

Definition empty_mgr : TransactionLockMgr := mkMgr ∅ 0 ∅ ∅ (mkWait ∅ ∅ None) ∅ ∅.

(** A lookup fills thread 1's cache; the family is dropped and re-created. *)
Lemma GetLockMap_coherent_witness :
  let s1 := fst (GetLockMap 1 5 (AddColumnFamily 2 5 empty_mgr)) in
  let s := AddColumnFamily 2 5 (RemoveColumnFamily 5 s1) in
  lock_maps_cache_ s1 !! 1 = Some {[5 := 0%nat]} ∧ snd (GetLockMap 1 5 s) = Some 1%nat.
Proof.
  cbv zeta. split; [reflexivity|].
  rewrite (GetLockMap_coherent 2 empty_mgr); [reflexivity|reflexivity|].
  eapply rtc_l; [apply (cs_add _ _ 5)|]. eapply rtc_l; [apply (cs_get _ _ 1 5)|].
  eapply rtc_l; [apply (cs_remove _ _ 5)|]. apply rtc_once. apply cs_add.
Defined.

(** Transaction 8 waits for 7, which releases the key in the first round. *)
Definition waited_mgr : TransactionLockMgr :=
  mkMgr {[0%nat := example_map]} 1 {[5 := 0%nat]} ∅ (mkWait ∅ ∅ None) ∅ ∅.
Definition release_round : Round := mkRound 0 0 OK (unlock_at 0 7 [1] 0 0) 0.
Definition waiting_txn : Txn := mkTxn 8 0 100 true 50.

Lemma AcquireWithTimeout_sound_witness :
  ∃ st s', AcquireWithTimeout 0 waiting_txn 0 0 5 [1] 100 (request true 8 0) 0 0 OK [release_round] waited_mgr
    = Some (st, s') ∧ ok st = true ∧ holds_lock 0 0 [1] true 8 s'.
Proof.
  destruct (AcquireWithTimeout 0 waiting_txn 0 0 5 [1] 100 (request true 8 0) 0 0 OK [release_round] waited_mgr)
    as [[st s']|] eqn:E; [|vm_compute in E; discriminate E].
  assert (ok st = true) as Hst by (revert E; vm_compute; by intros [= <- _]).
  exists st, s'. split; [done|]. split; [done|].
  refine (proj2 (AcquireWithTimeout_sound 0 waiting_txn 0 0 5 [1] 100 true 0 0 OK [release_round] waited_mgr st s' _ _ _ E) Hst).
  - exists example_map. split_and!; [reflexivity|simpl; lia|].
    apply (lock_step_ok 0 (λ _, True) (new_lock_map 2) ∅ _ ∅); [|apply map_ok_new].
    by apply (ls_acquire 0 (λ _, True) (new_lock_map 2) ∅ 0 [1] 0 true 7 50 0 []); [simpl; lia|].
  - reflexivity.
  - intros r Hr. apply list_elem_of_singleton in Hr as ->. intros s (m & Hm & Hlen & Hok).
    split; [|intros Hn; by destruct s]. exists (UnLockKey 0 7 [1] 0 m). unfold release_round, unlock_at. cbn [r_others].
    rewrite Hm. destruct (unlock_outcome 0 m 0 [1] 7 Hlen) as (_ & _ & Hl & _). split_and!.
    + destruct s. simpl. apply lookup_insert_eq.
    + change (default (new_lock_map 0) (Some m)) with m. by rewrite Hl.
    + by apply (lock_step_ok 0 (λ _, True) m ∅ _ ∅ (ls_unlock 0 (λ _, True) m ∅ 0 [1] 7 Hlen)).
Defined.

Lemma lock_limit_timeout_spins_witness :
  AcquireWithTimeout 1 waiting_txn 0 0 5 [2] 10 (request true 8 0) 100 100 OK (replicate 20 (mkRound 0 110 OK (λ s, s) 0))
    (set_objects {[0%nat := add_cnt 1 example_map]} waited_mgr) = None.
Proof.
  apply (lock_limit_timeout_spins 1 waiting_txn 0 (add_cnt 1 example_map) 0 5 [2] 10 true 100 100);
    [reflexivity|vm_compute; reflexivity|simpl; lia|lia|lia|lia|].
  apply Forall_replicate. simpl. lia.
Defined.
