(* ===== verification/LRUCache.v ===== *)
(** * The LRU block cache: one shard
      (LRUHandle, LRUHandleTable and LRUCacheShard, cache/lru_cache.h and
      cache/lru_cache.cc)

    The entries live in a heap of handles joined by pointers: [next] and [prev]
    form the circular LRU list around the dummy head [lru_], [next_hash] the
    chains of the hash table. The operations are the code's pointer
    manipulations in a monad whose failure is undefined behaviour: reading or
    writing through a null pointer, or through one whose handle was freed. Each
    operation runs with the shard's mutex held. *)
From Stdlib Require Import SpecFloat.
From S2P Require Import Prelude Status.

(** ** Handles *)

Definition ptr : Type := option nat.

(** [value] and [deleter] are opaque addresses. *)
Record LRUHandle := mkHandle {
  value : Z;
  deleter : option Z;
  next_hash : ptr;
  next : ptr;
  prev : ptr;
  charge : Z;
  hkey : bytes;
  hash : Z;
  refs : Z;
  flags : Z;
}.

Definition set_next_hash p h := mkHandle (value h) (deleter h) p (next h) (prev h) (charge h) (hkey h) (hash h) (refs h) (flags h).
Definition set_next p h := mkHandle (value h) (deleter h) (next_hash h) p (prev h) (charge h) (hkey h) (hash h) (refs h) (flags h).
Definition set_prev p h := mkHandle (value h) (deleter h) (next_hash h) (next h) p (charge h) (hkey h) (hash h) (refs h) (flags h).
Definition set_refs n h := mkHandle (value h) (deleter h) (next_hash h) (next h) (prev h) (charge h) (hkey h) (hash h) n (flags h).
Definition set_flags f h := mkHandle (value h) (deleter h) (next_hash h) (next h) (prev h) (charge h) (hkey h) (hash h) (refs h) f.

Definition IN_CACHE : Z := 1 << 0.
Definition IS_HIGH_PRI : Z := 1 << 1.
Definition IN_HIGH_PRI_POOL : Z := 1 << 2.
Definition HAS_HIT : Z := 1 << 3.

Definition has_flag (f : Z) (h : LRUHandle) : bool := negb (flags h .& f =? 0).
Definition InCache := has_flag IN_CACHE.
Definition IsHighPri := has_flag IS_HIGH_PRI.
Definition InHighPriPool := has_flag IN_HIGH_PRI_POOL.
Definition HasHit := has_flag HAS_HIT.
Definition HasRefs (h : LRUHandle) : bool := 0 <? refs h.

(** [flags |= f] and [flags &= ~f] on a [uint8_t]. *)
Definition put_flag (f : Z) (on : bool) (h : LRUHandle) : LRUHandle :=
  set_flags (if on then u8 (flags h .| f) else u8 (flags h .& Z.lnot f)) h.
Definition SetInCache := put_flag IN_CACHE.
Inductive Priority := HIGH | LOW.
Definition SetPriority (p : Priority) := put_flag IS_HIGH_PRI (match p with HIGH => true | LOW => false end).
Definition SetInHighPriPool := put_flag IN_HIGH_PRI_POOL.
Definition SetHit (h : LRUHandle) : LRUHandle := put_flag HAS_HIT true h.

Definition Ref_handle (h : LRUHandle) : LRUHandle := set_refs (u32 (refs h + 1)) h.
Definition Unref_handle (h : LRUHandle) : LRUHandle := set_refs (u32 (refs h - 1)) h.

Inductive CacheMetadataChargePolicy := kDontChargeCacheMetadata | kFullChargeCacheMetadata.

(** [sizeof(LRUHandle)] on a 64-bit platform without [malloc_usable_size]. *)
Definition sizeof_LRUHandle : Z := 72.
Definition CalcTotalCharge (policy : CacheMetadataChargePolicy) (h : LRUHandle) : Z :=
  let meta_charge :=
    match policy with
    | kFullChargeCacheMetadata => sizeof_LRUHandle - 1 + blen (hkey h)
    | kDontChargeCacheMetadata => 0
    end in
  u64 (charge h + meta_charge).

(** ** The shard *)

(** The hash table is [list_], [length_] and [elems_]. [lru_] is the dummy
    handle at address [lru_head]; [deleter_calls] records the deleters run. *)
Record Shard := mkShard {
  heap : gmap nat LRUHandle;
  next_address : nat;
  deleter_calls : list (Z * bytes * Z);
  list_ : list ptr;
  length_ : Z;
  elems_ : Z;
  capacity_ : Z;
  high_pri_pool_usage_ : Z;
  strict_capacity_limit_ : bool;
  high_pri_pool_ratio_ : double;
  high_pri_pool_capacity_ : double;
  lru_low_pri_ : ptr;
  usage_ : Z;
  lru_usage_ : Z;
  metadata_charge_policy_ : CacheMetadataChargePolicy;
}.

Definition lru_head : nat := 0.
Definition lru_ : ptr := Some lru_head.

Definition set_heap v s := mkShard v (next_address s) (deleter_calls s) (list_ s) (length_ s) (elems_ s) (capacity_ s) (high_pri_pool_usage_ s) (strict_capacity_limit_ s) (high_pri_pool_ratio_ s) (high_pri_pool_capacity_ s) (lru_low_pri_ s) (usage_ s) (lru_usage_ s) (metadata_charge_policy_ s).
Definition set_alloc v n s := mkShard v n (deleter_calls s) (list_ s) (length_ s) (elems_ s) (capacity_ s) (high_pri_pool_usage_ s) (strict_capacity_limit_ s) (high_pri_pool_ratio_ s) (high_pri_pool_capacity_ s) (lru_low_pri_ s) (usage_ s) (lru_usage_ s) (metadata_charge_policy_ s).
Definition set_freed v d s := mkShard v (next_address s) d (list_ s) (length_ s) (elems_ s) (capacity_ s) (high_pri_pool_usage_ s) (strict_capacity_limit_ s) (high_pri_pool_ratio_ s) (high_pri_pool_capacity_ s) (lru_low_pri_ s) (usage_ s) (lru_usage_ s) (metadata_charge_policy_ s).
Definition set_table l n e s := mkShard (heap s) (next_address s) (deleter_calls s) l n e (capacity_ s) (high_pri_pool_usage_ s) (strict_capacity_limit_ s) (high_pri_pool_ratio_ s) (high_pri_pool_capacity_ s) (lru_low_pri_ s) (usage_ s) (lru_usage_ s) (metadata_charge_policy_ s).
Definition set_capacity v pc s := mkShard (heap s) (next_address s) (deleter_calls s) (list_ s) (length_ s) (elems_ s) v (high_pri_pool_usage_ s) (strict_capacity_limit_ s) (high_pri_pool_ratio_ s) pc (lru_low_pri_ s) (usage_ s) (lru_usage_ s) (metadata_charge_policy_ s).
Definition set_pool_usage v s := mkShard (heap s) (next_address s) (deleter_calls s) (list_ s) (length_ s) (elems_ s) (capacity_ s) v (strict_capacity_limit_ s) (high_pri_pool_ratio_ s) (high_pri_pool_capacity_ s) (lru_low_pri_ s) (usage_ s) (lru_usage_ s) (metadata_charge_policy_ s).
Definition set_strict v s := mkShard (heap s) (next_address s) (deleter_calls s) (list_ s) (length_ s) (elems_ s) (capacity_ s) (high_pri_pool_usage_ s) v (high_pri_pool_ratio_ s) (high_pri_pool_capacity_ s) (lru_low_pri_ s) (usage_ s) (lru_usage_ s) (metadata_charge_policy_ s).
Definition set_ratio r pc s := mkShard (heap s) (next_address s) (deleter_calls s) (list_ s) (length_ s) (elems_ s) (capacity_ s) (high_pri_pool_usage_ s) (strict_capacity_limit_ s) r pc (lru_low_pri_ s) (usage_ s) (lru_usage_ s) (metadata_charge_policy_ s).
Definition set_low_pri v s := mkShard (heap s) (next_address s) (deleter_calls s) (list_ s) (length_ s) (elems_ s) (capacity_ s) (high_pri_pool_usage_ s) (strict_capacity_limit_ s) (high_pri_pool_ratio_ s) (high_pri_pool_capacity_ s) v (usage_ s) (lru_usage_ s) (metadata_charge_policy_ s).
Definition set_usage v s := mkShard (heap s) (next_address s) (deleter_calls s) (list_ s) (length_ s) (elems_ s) (capacity_ s) (high_pri_pool_usage_ s) (strict_capacity_limit_ s) (high_pri_pool_ratio_ s) (high_pri_pool_capacity_ s) (lru_low_pri_ s) v (lru_usage_ s) (metadata_charge_policy_ s).
Definition set_lru_usage v s := mkShard (heap s) (next_address s) (deleter_calls s) (list_ s) (length_ s) (elems_ s) (capacity_ s) (high_pri_pool_usage_ s) (strict_capacity_limit_ s) (high_pri_pool_ratio_ s) (high_pri_pool_capacity_ s) (lru_low_pri_ s) (usage_ s) v (metadata_charge_policy_ s).

(** ** The monad *)

Definition M (A : Type) : Type := Shard → option (A * Shard).
#[global] Instance M_ret : MRet M := λ A x s, Some (x, s).
#[global] Instance M_bind : MBind M := λ A B f m s, match m s with Some (x, s') => f x s' | None => None end.

Definition skip : M unit := λ s, Some (tt, s).
Definition get : M Shard := λ s, Some (s, s).
Definition put (f : Shard → Shard) : M unit := λ s, Some (tt, f s).
Definition undefined {A} : M A := λ _, None.
Definition load (p : ptr) : M LRUHandle := λ s,
  match p with Some a => match heap s !! a with Some h => Some (h, s) | None => None end | None => None end.
Definition modify (p : ptr) (f : LRUHandle → LRUHandle) : M unit := λ s,
  match p with
  | Some a => match heap s !! a with Some h => Some (tt, set_heap (<[a := f h]> (heap s)) s) | None => None end
  | None => None
  end.

Definition new_handle (h : LRUHandle) : M ptr := λ s,
  let a := next_address s in Some (Some a, set_alloc (<[a := h]> (heap s)) (S a) s).
Definition delete_handle (p : ptr) : M unit := λ s,
  match p with
  | Some a => match heap s !! a with Some _ => Some (tt, set_heap (delete a (heap s)) s) | None => None end
  | None => None
  end.

Definition charge_of (p : ptr) : M Z :=
  h ← load p; s ← get; mret (CalcTotalCharge (metadata_charge_policy_ s) h).

(** LRUHandle::Free. *)
Definition Free (p : ptr) : M unit :=
  h ← load p;
  _ ← put (λ s, match deleter h with
                | Some d => set_freed (heap s) (deleter_calls s ++ [(d, hkey h, value h)]) s
                | None => s
                end);
  delete_handle p.

Fixpoint free_all (l : list ptr) : M unit :=
  match l with
  | [] => skip
  | p :: l' => _ ← Free p; free_all l'
  end.

(** ** The hash table *)

(** An [LRUHandle**]: a bucket's head or an entry's [next_hash]. *)
Inductive slot := Bucket (i : nat) | NextHash (a : nat).

Definition read_slot (sl : slot) : M ptr :=
  match sl with
  | Bucket i => s ← get; match list_ s !! i with Some p => mret p | None => undefined end
  | NextHash a => h ← load (Some a); mret (next_hash h)
  end.
Definition write_slot (sl : slot) (p : ptr) : M unit :=
  match sl with
  | Bucket i =>
      s ← get;
      if bool_decide (i < length (list_ s))%nat
      then put (λ s, set_table (<[i := p]> (list_ s)) (length_ s) (elems_ s) s) else undefined
  | NextHash a => modify (Some a) (set_next_hash p)
  end.

Fixpoint walk_chain (fuel : nat) (key : bytes) (hash_ : Z) (sl : slot) : M slot :=
  match fuel with
  | O => undefined
  | S fuel' =>
      p ← read_slot sl;
      match p with
      | None => mret sl
      | Some a =>
          h ← load p;
          if negb (hash h =? hash_) || negb (bool_decide (key = hkey h))
          then walk_chain fuel' key hash_ (NextHash a) else mret sl
      end
  end.

Definition FindPointer (key : bytes) (hash_ : Z) : M slot :=
  s ← get;
  walk_chain (S (size (heap s))) key hash_ (Bucket (Z.to_nat (hash_ .& u32 (length_ s - 1)))).

Definition table_Lookup (key : bytes) (hash_ : Z) : M ptr :=
  sl ← FindPointer key hash_; read_slot sl.

(** [elems_ * 1.5] is exact in a double, so the comparison is the integers'. *)
Fixpoint grow (fuel : nat) (elems new_length : Z) : Z :=
  match fuel with
  | O => new_length
  | S fuel' => if 2 * new_length <? 3 * elems then grow fuel' elems (u32 (new_length * 2)) else new_length
  end.

(** Moves the chain at [h] into [new_list]; returns it with the count. *)
Fixpoint move_chain (fuel : nat) (h : ptr) (new_length : Z) (new_list : list ptr) (count : Z) : M (list ptr * Z) :=
  match h with
  | None => mret (new_list, count)
  | Some a =>
      match fuel with
      | O => undefined
      | S fuel' =>
          e ← load h;
          let i := Z.to_nat (hash e .& u32 (new_length - 1)) in
          match new_list !! i with
          | None => undefined
          | Some head =>
              _ ← modify h (set_next_hash head);
              move_chain fuel' (next_hash e) new_length (<[i := h]> new_list) (u32 (count + 1))
          end
      end
  end.

Fixpoint move_chains (fuel : nat) (buckets : list ptr) (new_length : Z) (new_list : list ptr) (count : Z)
    : M (list ptr * Z) :=
  match buckets with
  | [] => mret (new_list, count)
  | h :: buckets' =>
      r ← move_chain fuel h new_length new_list count;
      move_chains fuel buckets' new_length r.1 r.2
  end.

Definition Resize : M unit :=
  s ← get;
  let new_length := grow 32 (elems_ s) 16 in
  r ← move_chains (S (size (heap s))) (take (Z.to_nat (length_ s)) (list_ s)) new_length
        (replicate (Z.to_nat new_length) None) 0;
  put (λ s, set_table r.1 new_length (elems_ s) s).

Definition table_Insert (p : ptr) : M ptr :=
  h ← load p;
  sl ← FindPointer (hkey h) (hash h);
  old ← read_slot sl;
  after ← match old with None => mret None | Some _ => o ← load old; mret (next_hash o) end;
  _ ← modify p (set_next_hash after);
  _ ← write_slot sl p;
  match old with
  | None =>
      _ ← put (λ s, set_table (list_ s) (length_ s) (u32 (elems_ s + 1)) s);
      s ← get;
      _ ← (if length_ s <? elems_ s then Resize else skip);
      mret old
  | Some _ => mret old
  end.

Definition table_Remove (key : bytes) (hash_ : Z) : M ptr :=
  sl ← FindPointer key hash_;
  result ← read_slot sl;
  match result with
  | None => mret result
  | Some _ =>
      h ← load result;
      _ ← write_slot sl (next_hash h);
      _ ← put (λ s, set_table (list_ s) (length_ s) (u32 (elems_ s - 1)) s);
      mret result
  end.

(** The entries in the order the callback meets them. *)
Fixpoint chain_entries (fuel : nat) (h : ptr) : M (list ptr) :=
  match h with
  | None => mret []
  | Some _ =>
      match fuel with
      | O => undefined
      | S fuel' => e ← load h; rest ← chain_entries fuel' (next_hash e); mret (h :: rest)
      end
  end.
Fixpoint all_entries (fuel : nat) (buckets : list ptr) : M (list ptr) :=
  match buckets with
  | [] => mret []
  | h :: buckets' =>
      es ← chain_entries fuel h; rest ← all_entries fuel buckets'; mret (es ++ rest)
  end.
Definition table_ApplyToAllCacheEntries : M (list ptr) :=
  s ← get; all_entries (S (size (heap s))) (take (Z.to_nat (length_ s)) (list_ s)).

(** ~LRUHandleTable: frees the entries nobody refers to. *)
Fixpoint free_unref (l : list ptr) : M unit :=
  match l with
  | [] => skip
  | p :: l' => h ← load p; _ ← (if negb (HasRefs h) then Free p else skip); free_unref l'
  end.
Definition destroy_table : M unit := l ← table_ApplyToAllCacheEntries; free_unref l.

(** ** The LRU list *)

Definition LRU_Remove (e : ptr) : M unit :=
  s ← get;
  _ ← (if bool_decide (lru_low_pri_ s = e) then h ← load e; put (set_low_pri (prev h)) else skip);
  h ← load e;
  _ ← modify (next h) (set_prev (prev h));
  h ← load e;
  _ ← modify (prev h) (set_next (next h));
  _ ← modify e (λ h, set_prev None (set_next None h));
  total_charge ← charge_of e;
  _ ← put (λ s, set_lru_usage (u64 (lru_usage_ s - total_charge)) s);
  h ← load e;
  if InHighPriPool h
  then put (λ s, set_pool_usage (u64 (high_pri_pool_usage_ s - total_charge)) s)
  else skip.

Fixpoint maintain_pool (fuel : nat) : M unit :=
  match fuel with
  | O => undefined
  | S fuel' =>
      s ← get;
      if double_lt (high_pri_pool_capacity_ s) (double_of (high_pri_pool_usage_ s)) then
        low ← load (lru_low_pri_ s);
        _ ← put (set_low_pri (next low));
        _ ← modify (next low) (SetInHighPriPool false);
        total_charge ← charge_of (next low);
        _ ← put (λ s, set_pool_usage (u64 (high_pri_pool_usage_ s - total_charge)) s);
        maintain_pool fuel'
      else skip
  end.
Definition MaintainPoolSize : M unit := s ← get; maintain_pool (S (size (heap s))).

Definition LRU_Insert (e : ptr) : M unit :=
  total_charge ← charge_of e;
  s ← get;
  h ← load e;
  _ ← (if double_lt zero_double (high_pri_pool_ratio_ s) && (IsHighPri h || HasHit h) then
         _ ← modify e (set_next lru_);
         head ← load lru_;
         _ ← modify e (set_prev (prev head));
         _ ← modify (prev head) (set_next e);
         _ ← modify lru_ (set_prev e);
         _ ← modify e (SetInHighPriPool true);
         _ ← put (λ s, set_pool_usage (u64 (high_pri_pool_usage_ s + total_charge)) s);
         MaintainPoolSize
       else
         low ← load (lru_low_pri_ s);
         _ ← modify e (set_next (next low));
         _ ← modify e (set_prev (lru_low_pri_ s));
         _ ← modify (lru_low_pri_ s) (set_next e);
         _ ← modify (next low) (set_prev e);
         _ ← modify e (SetInHighPriPool false);
         put (set_low_pri e));
  put (λ s, set_lru_usage (u64 (lru_usage_ s + total_charge)) s).

(** The body the two eviction loops share: the oldest entry leaves the list,
    the table and the usage. *)
Definition evict_oldest (old : ptr) : M unit :=
  _ ← LRU_Remove old;
  h ← load old;
  _ ← table_Remove (hkey h) (hash h);
  _ ← modify old (SetInCache false);
  total_charge ← charge_of old;
  put (λ s, set_usage (u64 (usage_ s - total_charge)) s).

Fixpoint evict_loop (fuel : nat) (charge_ : Z) (deleted : list ptr) : M (list ptr) :=
  match fuel with
  | O => undefined
  | S fuel' =>
      s ← get;
      head ← load lru_;
      if (capacity_ s <? u64 (usage_ s + charge_)) && negb (bool_decide (next head = lru_)) then
        _ ← evict_oldest (next head);
        evict_loop fuel' charge_ (deleted ++ [next head])
      else mret deleted
  end.
Definition EvictFromLRU (charge_ : Z) : M (list ptr) :=
  s ← get; evict_loop (S (size (heap s))) charge_ [].

Fixpoint erase_unref_loop (fuel : nat) (deleted : list ptr) : M (list ptr) :=
  match fuel with
  | O => undefined
  | S fuel' =>
      head ← load lru_;
      if negb (bool_decide (next head = lru_)) then
        _ ← evict_oldest (next head);
        erase_unref_loop fuel' (deleted ++ [next head])
      else mret deleted
  end.

Fixpoint list_size (fuel : nat) (p : ptr) : M Z :=
  match fuel with
  | O => undefined
  | S fuel' =>
      if negb (bool_decide (p = lru_)) then h ← load p; n ← list_size fuel' (next h); mret (u64 (n + 1)) else mret 0
  end.
Definition TEST_GetLRUSize : M Z := s ← get; head ← load lru_; list_size (S (size (heap s))) (next head).

(** ** Operations *)

Definition EraseUnRefEntries : M unit :=
  s ← get; l ← erase_unref_loop (S (size (heap s))) []; free_all l.

(** The (value, charge) pairs handed to the callback. *)
Fixpoint values_of (l : list ptr) : M (list (Z * Z)) :=
  match l with
  | [] => mret []
  | p :: l' => h ← load p; r ← values_of l'; mret ((value h, charge h) :: r)
  end.
Definition ApplyToAllCacheEntries : M (list (Z * Z)) := l ← table_ApplyToAllCacheEntries; values_of l.

Definition SetCapacity (capacity : Z) : M unit :=
  _ ← put (λ s, set_capacity capacity (double_mul (double_of capacity) (high_pri_pool_ratio_ s)) s);
  l ← EvictFromLRU 0;
  free_all l.

Definition SetStrictCapacityLimit (strict : bool) : M unit := put (set_strict strict).

Definition SetHighPriorityPoolRatio (ratio : double) : M unit :=
  _ ← put (λ s, set_ratio ratio (double_mul (double_of (capacity_ s)) ratio) s);
  MaintainPoolSize.

Definition Lookup (key : bytes) (hash_ : Z) : M ptr :=
  e ← table_Lookup key hash_;
  match e with
  | None => mret e
  | Some _ =>
      h ← load e;
      _ ← (if negb (HasRefs h) then LRU_Remove e else skip);
      _ ← modify e Ref_handle;
      _ ← modify e SetHit;
      mret e
  end.

Definition Ref (h : ptr) : M bool := _ ← modify h Ref_handle; mret true.

Definition Release (e : ptr) (force_erase : bool) : M bool :=
  match e with
  | None => mret false
  | Some _ =>
      _ ← modify e Unref_handle;
      h ← load e;
      s ← get;
      last_reference ←
        (if (refs h =? 0) && InCache h then
           if (capacity_ s <? usage_ s) || force_erase then
             _ ← table_Remove (hkey h) (hash h);
             _ ← modify e (SetInCache false);
             mret true
           else _ ← LRU_Insert e; mret false
         else mret (refs h =? 0) : M bool);
      _ ← (if (last_reference : bool) then
             total_charge ← charge_of e;
             put (λ s, set_usage (u64 (usage_ s - total_charge)) s)
           else skip);
      _ ← (if (last_reference : bool) then Free e else skip);
      mret last_reference
  end.

(** The entry the new one replaced: freed with [l0] unless it is referenced. *)
Definition retire_old (old : ptr) (l0 : list ptr) : M (list ptr) :=
  match old with
  | None => mret l0
  | Some _ =>
      _ ← modify old (SetInCache false);
      o ← load old;
      if negb (HasRefs o) then
        _ ← LRU_Remove old;
        old_total_charge ← charge_of old;
        _ ← put (λ s, set_usage (u64 (usage_ s - old_total_charge)) s);
        mret (l0 ++ [old])
      else mret l0
  end.

(** [want_handle]: the caller passes a [handle] to fill. *)
Definition Insert (key : bytes) (hash_ value_ charge_ : Z) (deleter_ : option Z) (want_handle : bool)
    (priority : Priority) : M (Status * ptr) :=
  e ← new_handle (SetPriority priority (SetInCache true
        (mkHandle value_ deleter_ None None None charge_ key hash_ 0 0)));
  total_charge ← charge_of e;
  last_reference_list ← EvictFromLRU total_charge;
  s ← get;
  r ←
    (if (capacity_ s <? u64 (usage_ s + total_charge)) && (strict_capacity_limit_ s || negb want_handle) then
       if negb want_handle then
         _ ← modify e (SetInCache false);
         mret ((OK, None), last_reference_list ++ [e])
       else
         _ ← delete_handle e;
         mret ((Incomplete (str "Insert failed due to LRU cache being full."), None), last_reference_list)
     else
       old ← table_Insert e;
       _ ← put (λ s, set_usage (u64 (usage_ s + total_charge)) s);
       deleted ← retire_old old last_reference_list;
       if want_handle then
         _ ← modify e Ref_handle;
         mret ((OK, e), deleted)
       else
         _ ← LRU_Insert e;
         mret ((OK, None), deleted));
  _ ← free_all r.2;
  mret r.1.

Definition Erase (key : bytes) (hash_ : Z) : M unit :=
  e ← table_Remove key hash_;
  match e with
  | None => skip
  | Some _ =>
      _ ← modify e (SetInCache false);
      h ← load e;
      if negb (HasRefs h) then
        _ ← LRU_Remove e;
        total_charge ← charge_of e;
        _ ← put (λ s, set_usage (u64 (usage_ s - total_charge)) s);
        Free e
      else skip
  end.

Definition GetUsage (s : Shard) : Z := usage_ s.
Definition GetPinnedUsage (s : Shard) : Z := u64 (usage_ s - lru_usage_ s).

(** The constructor: the table's own [Resize] allocates its buckets. *)
Definition empty_shard (strict : bool) (ratio : double) (policy : CacheMetadataChargePolicy) : Shard :=
  mkShard {[lru_head := mkHandle 0 None None lru_ lru_ 0 [] 0 0 0]} 1 [] [] 0 0 0 0 strict ratio zero_double
    lru_ 0 0 policy.
Definition init_shard (capacity : Z) : M unit := _ ← Resize; SetCapacity capacity.
Definition LRUCacheShard (capacity : Z) (strict : bool) (ratio : double) (policy : CacheMetadataChargePolicy)
    : option Shard :=
  match init_shard capacity (empty_shard strict ratio policy) with
  | Some (_, s) => Some s
  | None => None
  end.
