(* ===== verification/LRUTable.v ===== *)
(** * The LRU block cache: flags, views of the heap, and the hash table

    A small total-correctness logic for LRUCache's monad; the flag word; and
    the proof that the pointer chains of LRUHandleTable represent a set of
    entries, one per key, under lookup, insertion with growth, and removal. *)
From S2P Require Import Prelude Status LRUCache.

(** ** Total correctness *)

Definition wp {A} (m : M A) (Q : A → Shard → Prop) (s : Shard) : Prop :=
  match m s with Some (x, s') => Q x s' | None => False end.

Lemma wp_ret {A} (x : A) Q s : Q x s → wp (mret x) Q s.
Proof. done. Qed.
Lemma wp_skip Q s : Q tt s → wp skip Q s.
Proof. done. Qed.
Lemma wp_bind {A B} (m : M A) (f : A → M B) Q s : wp m (λ x s', wp (f x) Q s') s → wp (mbind f m) Q s.
Proof. unfold wp, mbind, M_bind. by destruct (m s) as [[x s']|]. Qed.
Lemma wp_mono {A} (m : M A) (P Q : A → Shard → Prop) s :
  wp m P s → (∀ x s', P x s' → Q x s') → wp m Q s.
Proof. unfold wp. destruct (m s) as [[x s']|]; auto. Qed.
Lemma wp_get Q s : Q s s → wp get Q s.
Proof. done. Qed.
Lemma wp_put f Q s : Q tt (f s) → wp (put f) Q s.
Proof. done. Qed.
Lemma wp_load a h Q s : heap s !! a = Some h → Q h s → wp (load (Some a)) Q s.
Proof. intros Ha HQ. unfold wp, load. by rewrite Ha. Qed.
Lemma wp_modify a h f Q s :
  heap s !! a = Some h → Q tt (set_heap (<[a := f h]> (heap s)) s) → wp (modify (Some a) f) Q s.
Proof. intros Ha HQ. unfold wp, modify. by rewrite Ha. Qed.
Lemma wp_some {A} (m : M A) Q s : wp m Q s → ∃ x s', m s = Some (x, s') ∧ Q x s'.
Proof. unfold wp. destruct (m s) as [[x s']|]; [eauto|done]. Qed.

(** ** Flags *)

Lemma has_flag_testbit k h : 0 ≤ k → has_flag (1 << k) h = Z.testbit (flags h) k.
Proof.
  intros Hk. unfold has_flag. rewrite Z.shiftl_1_l. destruct (Z.testbit (flags h) k) eqn:E.
  - apply negb_true_iff, Z.eqb_neq. intros H0.
    assert (Z.testbit (Z.land (flags h) (2 ^ k)) k = true) as Ht
      by (rewrite Z.land_spec, E, Z.pow2_bits_true by done; done).
    by rewrite H0, Z.bits_0 in Ht.
  - apply negb_false_iff, Z.eqb_eq, Z.bits_inj'. intros j Hj. rewrite Z.bits_0, Z.land_spec.
    destruct (decide (j = k)) as [->|Hne]; [by rewrite E|].
    rewrite Z.pow2_bits_false by lia. by rewrite andb_false_r.
Qed.

Lemma put_flag_testbit k on h j :
  0 ≤ k → 0 ≤ j →
  Z.testbit (flags (put_flag (1 << k) on h)) j =
    bool_decide (j < 8) && (if decide (j = k) then on else Z.testbit (flags h) j).
Proof.
  intros Hk Hj. unfold put_flag, set_flags. cbn [flags]. rewrite Z.shiftl_1_l.
  destruct on; rewrite wrap_testbit by lia; f_equal.
  - rewrite Z.lor_spec, Z.pow2_bits_eqb by done.
    destruct (decide (j = k)) as [->|Hne]; [by rewrite Z.eqb_refl, orb_true_r|].
    destruct (Z.eqb_spec k j); [lia|]. by rewrite orb_false_r.
  - rewrite Z.land_spec, Z.lnot_spec, Z.pow2_bits_eqb by done.
    destruct (decide (j = k)) as [->|Hne]; [by rewrite Z.eqb_refl, andb_false_r|].
    destruct (Z.eqb_spec k j); [lia|]. by rewrite andb_true_r.
Qed.

Lemma has_put_flag j k on h :
  0 ≤ k < 8 → 0 ≤ j < 8 →
  has_flag (1 << j) (put_flag (1 << k) on h) = if decide (j = k) then on else has_flag (1 << j) h.
Proof.
  intros Hk Hj. rewrite !has_flag_testbit, put_flag_testbit by lia. by rewrite bool_decide_eq_true_2 by lia.
Qed.

Lemma put_flag_comm j k on on' h :
  0 ≤ j < 8 → 0 ≤ k < 8 → j ≠ k →
  put_flag (1 << j) on (put_flag (1 << k) on' h) = put_flag (1 << k) on' (put_flag (1 << j) on h).
Proof.
  intros Hj Hk Hne. unfold put_flag at 1 3. unfold set_flags; f_equal.
  assert (∀ a b g, Z.testbit (flags (put_flag a b g)) =
    Z.testbit (if b then u8 (flags g .| a) else u8 (flags g .& Z.lnot a))) as E by done.
  apply Z.bits_inj'. intros i Hi. rewrite <- !E, !put_flag_testbit by lia.
  destruct (bool_decide (i < 8)); [|done]. simpl. destruct (decide (i = j)), (decide (i = k)); congruence.
Qed.

Lemma put_flag_twice k on on' h : 0 ≤ k < 8 → put_flag (1 << k) on (put_flag (1 << k) on' h) = put_flag (1 << k) on h.
Proof.
  intros Hk. unfold put_flag at 1 3. unfold set_flags; f_equal.
  assert (∀ a b g, Z.testbit (flags (put_flag a b g)) =
    Z.testbit (if b then u8 (flags g .| a) else u8 (flags g .& Z.lnot a))) as E by done.
  apply Z.bits_inj'. intros i Hi. rewrite <- !E, !put_flag_testbit by lia.
  destruct (bool_decide (i < 8)); [|done]. simpl. by destruct (decide (i = k)).
Qed.

(** ** Views of the heap

    What an entry is besides its links and its pool flag; and each link field
    as a function of the address. *)
Definition core (h : LRUHandle) : LRUHandle :=
  SetInHighPriPool false (set_next None (set_prev None (set_next_hash None h))).
Definition cores (s : Shard) : gmap nat LRUHandle := core <$> heap s.
Definition nxt (s : Shard) (a : nat) : ptr := heap s !! a ≫= next.
Definition prv (s : Shard) (a : nat) : ptr := heap s !! a ≫= prev.
Definition nxh (s : Shard) (a : nat) : ptr := heap s !! a ≫= next_hash.
Definition in_pool (s : Shard) (a : nat) : bool := from_option InHighPriPool false (heap s !! a).

Lemma core_InCache h : InCache (core h) = InCache h.
Proof. unfold core, InCache, SetInHighPriPool, IN_CACHE, IN_HIGH_PRI_POOL. by rewrite has_put_flag by lia. Qed.
Lemma core_put_flag k on h :
  0 ≤ k < 8 → k ≠ 2 → core (put_flag (1 << k) on h) = put_flag (1 << k) on (core h).
Proof.
  intros Hk Hne. unfold core, SetInHighPriPool, IN_HIGH_PRI_POOL. rewrite (put_flag_comm k 2) by lia. done.
Qed.
Lemma core_pool on h : core (SetInHighPriPool on h) = core h.
Proof.
  unfold core, SetInHighPriPool, IN_HIGH_PRI_POOL.
  change (set_next None (set_prev None (set_next_hash None (put_flag (1 << 2) on h)))) with
    (put_flag (1 << 2) on (set_next None (set_prev None (set_next_hash None h)))).
  by rewrite put_flag_twice by lia.
Qed.
Lemma cores_lookup s a h : heap s !! a = Some h → cores s !! a = Some (core h).
Proof. intros Ha. unfold cores. by rewrite lookup_fmap, Ha. Qed.
Lemma cores_Some s a c : cores s !! a = Some c → ∃ h, heap s !! a = Some h ∧ c = core h.
Proof. unfold cores. rewrite lookup_fmap, fmap_Some. done. Qed.

Lemma cores_modify s a h f g :
  heap s !! a = Some h → core (f h) = g (core h) →
  cores (set_heap (<[a := f h]> (heap s)) s) = <[a := g (core h)]> (cores s).
Proof. intros Ha Hf. unfold cores. cbn [heap set_heap]. by rewrite fmap_insert, Hf. Qed.
Lemma cores_modify_same s a h f :
  heap s !! a = Some h → core (f h) = core h → cores (set_heap (<[a := f h]> (heap s)) s) = cores s.
Proof.
  intros Ha Hf. unfold cores. cbn [heap set_heap]. rewrite fmap_insert, Hf, insert_id; [done|].
  by rewrite lookup_fmap, Ha.
Qed.

(** Everything but the heap and the table; everything but the heap and the
    LRU list's fields. *)
Definition but_table (s : Shard) : Shard := set_heap ∅ (set_table [] 0 0 s).
Definition but_lru (s : Shard) : Shard := set_heap ∅ (set_low_pri None (set_pool_usage 0 (set_lru_usage 0 s))).

(** ** Chains *)

Fixpoint chain (nh : nat → ptr) (p : ptr) (l : list nat) : Prop :=
  match l with
  | [] => p = None
  | a :: l' => p = Some a ∧ chain nh (nh a) l'
  end.

Lemma chain_frame nh nh' p l : (∀ a, a ∈ l → nh' a = nh a) → chain nh p l → chain nh' p l.
Proof.
  revert p. induction l as [|a l IH]; intros p Hf; [done|]. simpl. intros [-> Hc]. split; [done|].
  rewrite Hf by constructor. apply IH; [|done]. intros. apply Hf. by constructor.
Qed.

Lemma chain_head nh p l : chain nh p l → p = head l.
Proof. destruct l; [done|]. by intros [-> _]. Qed.

(** The slot after the entries [l1] of bucket [i]. *)
Definition slot_at (i : nat) (l1 : list nat) : slot :=
  match last l1 with None => Bucket i | Some a => NextHash a end.

Lemma slot_at_snoc i l1 a : slot_at i (l1 ++ [a]) = NextHash a.
Proof. unfold slot_at. by rewrite last_snoc. Qed.


Lemma chain_split nh p l1 a l2 : chain nh p (l1 ++ a :: l2) → chain nh (nh a) l2.
Proof. revert p. induction l1 as [|b l1 IH]; intros p; simpl; [by intros [_ ?]|]. intros [_ ?]. by eapply IH. Qed.

(** Redirecting the last link of a prefix. *)
Lemma chain_redirect nh nh' p l1 a l2 l2' :
  NoDup (l1 ++ [a]) → (∀ b, b ∈ l1 → nh' b = nh b) → chain nh p (l1 ++ a :: l2) →
  chain nh' (nh' a) l2' → chain nh' p (l1 ++ a :: l2').
Proof.
  revert p. induction l1 as [|b l1 IH]; intros p Hnd Hf; simpl; [by intros [-> _]|].
  intros [-> Hc] H2. split; [done|]. rewrite Hf by constructor.
  apply NoDup_cons in Hnd as [_ Hnd]. apply IH; [done| |done|done]. intros. apply Hf. by constructor.
Qed.

(** ** Lists of chains *)

Lemma concat_insert (cs : list (list nat)) i l l' :
  cs !! i = Some l → l ++ concat (<[i := l']> cs) ≡ₚ l' ++ concat cs.
Proof.
  intros Hi. rewrite <- (take_drop_middle cs i l Hi) at 2.
  rewrite insert_take_drop by (by eapply lookup_lt_Some). rewrite !concat_app. simpl.
  rewrite !(Permutation_app_swap_app _ (concat (take i cs))). f_equiv.
  rewrite !app_assoc. f_equiv. apply Permutation_app_comm.
Qed.

Lemma elem_of_chains (cs : list (list nat)) a : a ∈ concat cs ↔ ∃ i l, cs !! i = Some l ∧ a ∈ l.
Proof.
  rewrite list_elem_of_In, in_concat. split.
  - intros (l & Hl & Ha). apply list_elem_of_In in Hl, Ha. apply list_elem_of_lookup in Hl as [i Hi]. eauto.
  - intros (i & l & Hi & Ha). exists l. rewrite <- !list_elem_of_In. split; [|done].
    by eapply list_elem_of_lookup_2.
Qed.

Lemma chains_disjoint (cs : list (list nat)) i j l l' a :
  NoDup (concat cs) → cs !! i = Some l → cs !! j = Some l' → a ∈ l → a ∈ l' → i = j.
Proof.
  intros Hnd Hi Hj Ha Ha'. destruct (decide (i = j)) as [|Hne]; [done|exfalso].
  pose proof (concat_insert cs i l [] Hi) as Hp. simpl in Hp.
  rewrite <- Hp in Hnd. apply NoDup_app in Hnd as (_ & Hd & _).
  apply (Hd a Ha). apply elem_of_chains. exists j, l'. by rewrite list_lookup_insert_ne.
Qed.

Lemma chain_NoDup (cs : list (list nat)) i l : NoDup (concat cs) → cs !! i = Some l → NoDup l.
Proof.
  intros Hnd Hi. pose proof (concat_insert cs i l [] Hi) as Hp. simpl in Hp.
  rewrite <- Hp in Hnd. by apply NoDup_app in Hnd as (? & _).
Qed.

(** ** The representation of the table *)

Definition index (len h : Z) : nat := Z.to_nat (h .& u32 (len - 1)).

Record table_rep (s : Shard) (chains : list (list nat)) : Prop := {
  tr_chains : Forall2 (chain (nxh s)) (list_ s) chains;
  tr_nodup : NoDup (concat chains);
  tr_len : ∃ k, 4 ≤ k ≤ 31 ∧ length_ s = 2 ^ k ∧ Z.of_nat (length (list_ s)) = length_ s;
  tr_elems : elems_ s = Z.of_nat (length (concat chains));
  tr_few : elems_ s < 2 ^ 30;
  tr_home : ∀ i l a, chains !! i = Some l → a ∈ l →
    ∃ c, cores s !! a = Some c ∧ index (length_ s) (hash c) = i;
  tr_keys : ∀ a b ca cb, a ∈ concat chains → b ∈ concat chains →
    cores s !! a = Some ca → cores s !! b = Some cb → hkey ca = hkey cb → hash ca = hash cb → a = b;
}.

Definition matches (s : Shard) (key : bytes) (h : Z) (a : nat) : Prop :=
  ∃ c, cores s !! a = Some c ∧ hkey c = key ∧ hash c = h.

(** Nothing but the table and the chain links changed. *)
Record table_frame (s s' : Shard) : Prop := {
  tf_but : but_table s' = but_table s;
  tf_cores : cores s' = cores s;
  tf_nxt : ∀ a, nxt s' a = nxt s a;
  tf_prv : ∀ a, prv s' a = prv s a;
  tf_pool : ∀ a, in_pool s' a = in_pool s a;
}.

Lemma table_frame_refl s : table_frame s s.
Proof. by split. Qed.
Lemma table_frame_trans s1 s2 s3 : table_frame s1 s2 → table_frame s2 s3 → table_frame s1 s3.
Proof. intros [] []. split; congruence. Qed.

Lemma lookup_upd {A} (f : LRUHandle → A) (m : gmap nat LRUHandle) a h g b :
  m !! a = Some h → f (g h) = f h → f <$> (<[a := g h]> m) !! b = f <$> m !! b.
Proof.
  intros Ha Hf. destruct (decide (b = a)) as [->|Hne].
  - rewrite lookup_insert_eq, Ha. simpl. by rewrite Hf.
  - by rewrite lookup_insert_ne.
Qed.

Lemma bind_fmap (f : LRUHandle → ptr) (o : option LRUHandle) : o ≫= f = mjoin (f <$> o).
Proof. by destruct o. Qed.
Lemma pool_fmap (o : option LRUHandle) : from_option InHighPriPool false o = default false (InHighPriPool <$> o).
Proof. by destruct o. Qed.

Lemma modify_next_hash s a h p :
  heap s !! a = Some h →
  let s' := set_heap (<[a := set_next_hash p h]> (heap s)) s in
  table_frame s s' ∧ nxh s' a = p ∧ (∀ b, b ≠ a → nxh s' b = nxh s b) ∧
  list_ s' = list_ s ∧ length_ s' = length_ s ∧ elems_ s' = elems_ s.
Proof.
  intros Ha s'. split_and!; try done.
  - split; [done|by apply cores_modify_same|..]; intros b.
    + unfold nxt. rewrite !bind_fmap. f_equal. by apply (lookup_upd next _ a h (set_next_hash p)).
    + unfold prv. rewrite !bind_fmap. f_equal. by apply (lookup_upd prev _ a h (set_next_hash p)).
    + unfold in_pool. rewrite !pool_fmap. f_equal. by apply (lookup_upd InHighPriPool _ a h (set_next_hash p)).
  - unfold nxh, s'. cbn [heap set_heap]. by rewrite lookup_insert_eq.
  - intros b Hb. unfold nxh, s'. cbn [heap set_heap]. by rewrite lookup_insert_ne.
Qed.

Lemma table_frame_set s l n e : table_frame s (set_table l n e s).
Proof. by split. Qed.

(** The representation reads the chains' links and the entries' cores. *)
Lemma table_rep_frame s s' chains :
  list_ s' = list_ s → length_ s' = length_ s → elems_ s' = elems_ s →
  (∀ a, a ∈ concat chains → nxh s' a = nxh s a) →
  (∀ a c, a ∈ concat chains → cores s !! a = Some c → ∃ c', cores s' !! a = Some c' ∧ hkey c' = hkey c ∧ hash c' = hash c) →
  table_rep s chains → table_rep s' chains.
Proof.
  intros Hl Hn He Hnh Hc [H1 H2 H3 H4 H5 H6 H7]. split.
  - rewrite Hl. apply Forall2_same_length_lookup. split; [by eapply Forall2_length|].
    intros i p l Hp Hi. apply (chain_frame (nxh s)).
    + intros a Ha. apply Hnh. apply elem_of_chains. eauto.
    + eapply Forall2_lookup_lr; eauto.
  - done.
  - by rewrite Hl, Hn.
  - by rewrite He.
  - by rewrite He.
  - intros i l a Hi Ha. destruct (H6 i l a Hi Ha) as (c & Hca & Hx).
    destruct (Hc a c) as (c' & Hc' & _ & Hh); [apply elem_of_chains; eauto|done|].
    exists c'. by rewrite Hn, Hh.
  - intros a b ca cb Ha Hb Hca Hcb.
    apply elem_of_chains in Ha as (i & l & Hi & Hal). apply elem_of_chains in Hb as (j & l' & Hj & Hbl).
    destruct (H6 i l a Hi Hal) as (ca0 & Hca0 & _). destruct (H6 j l' b Hj Hbl) as (cb0 & Hcb0 & _).
    destruct (Hc a ca0) as (ca1 & Hca1 & Hk & Hh); [apply elem_of_chains; eauto|done|].
    destruct (Hc b cb0) as (cb1 & Hcb1 & Hk' & Hh'); [apply elem_of_chains; eauto|done|].
    simplify_eq. intros. eapply (H7 a b ca0 cb0); try done; [apply elem_of_chains; eauto..|congruence|congruence].
Qed.

Lemma in_heap s chains i l a :
  table_rep s chains → chains !! i = Some l → a ∈ l →
  ∃ h, heap s !! a = Some h ∧ nxh s a = next_hash h ∧ index (length_ s) (hash h) = i.
Proof.
  intros [_ _ _ _ _ Hh _] Hi Ha. destruct (Hh i l a Hi Ha) as (c & Hc & Hx).
  apply cores_Some in Hc as (h & Hha & ->). exists h. split_and!; [done| |done].
  unfold nxh. by rewrite Hha.
Qed.

Lemma read_slot_wp s chains i l1 l2 Q :
  table_rep s chains → chains !! i = Some (l1 ++ l2) → Q (head l2) s → wp (read_slot (slot_at i l1)) Q s.
Proof.
  intros Ht Hi HQ.
  destruct (Forall2_lookup_r _ _ _ _ _ (tr_chains _ _ Ht) Hi) as (p & Hp & Hc).
  destruct l1 as [|a l1 _] using rev_ind.
  - unfold slot_at. cbn [last]. apply wp_bind, wp_get. rewrite Hp. apply wp_ret.
    by rewrite (chain_head _ _ _ Hc).
  - rewrite slot_at_snoc. destruct (in_heap s chains i _ a Ht Hi) as (h & Hh & Hn & _); [set_solver|].
    apply wp_bind. apply (wp_load a h _ _ Hh). apply wp_ret.
    rewrite <- app_assoc in Hc. apply chain_split in Hc. rewrite Hn in Hc. by rewrite (chain_head _ _ _ Hc).
Qed.

Lemma index_bound s chains h : table_rep s chains → (index (length_ s) h < length chains)%nat.
Proof.
  intros Ht. rewrite <- (Forall2_length _ _ _ (tr_chains _ _ Ht)).
  destruct (tr_len _ _ Ht) as (k & Hk & Hl & Hlen). unfold index. rewrite Hl in *.
  rewrite (wrap_small 32) by (unfold in_range; assert (2 ^ k ≤ 2 ^ 31) by (apply Z.pow_le_mono_r; lia);
    assert (2 ^ 4 ≤ 2 ^ k) by (apply Z.pow_le_mono_r; lia); lia).
  rewrite (land_mask _ k) by (rewrite ?Z.ones_equiv; lia). pose proof (wrap_range k h). unfold in_range in *. lia.
Qed.

Lemma chain_fits s chains i l : table_rep s chains → chains !! i = Some l → (length l ≤ size (heap s))%nat.
Proof.
  intros Ht Hi. rewrite <- (size_dom (D := gset nat)), <- (size_list_to_set (C := gset nat) l).
  - apply subseteq_size. intros a Ha. apply elem_of_list_to_set in Ha.
    destruct (in_heap _ _ _ _ _ Ht Hi Ha) as (h & Hh & _). by apply elem_of_dom_2 in Hh.
  - eapply chain_NoDup; [apply (tr_nodup _ _ Ht)|done].
Qed.

(** The slot [FindPointer] returns: the entry with the key, or the end of the
    key's bucket when no entry has it. *)
Definition found (s : Shard) (chains : list (list nat)) (key : bytes) (h : Z) (sl : slot) (l1 l2 : list nat) : Prop :=
  let i := index (length_ s) h in
  chains !! i = Some (l1 ++ l2) ∧ sl = slot_at i l1 ∧
  match l2 with
  | [] => ∀ a, a ∈ concat chains → ¬ matches s key h a
  | a :: _ => matches s key h a
  end.

Lemma FindPointer_wp s chains key h Q :
  table_rep s chains → (∀ sl l1 l2, found s chains key h sl l1 l2 → Q sl s) → wp (FindPointer key h) Q s.
Proof.
  intros Ht HQ. unfold FindPointer. apply wp_bind, wp_get.
  set (i := index (length_ s) h). change (Z.to_nat _) with i.
  destruct (lookup_lt_is_Some_2 chains i) as [l Hi]; [by apply index_bound|].
  assert (∀ fuel l1 l2, (length l2 < fuel)%nat → l = l1 ++ l2 → (∀ a, a ∈ l1 → ¬ matches s key h a) →
    wp (walk_chain fuel key h (slot_at i l1)) Q s) as Hwalk.
  { induction fuel as [|fuel IH]; intros l1 l2 Hf -> Hno; [lia|]. cbn [walk_chain].
    apply wp_bind. eapply read_slot_wp; [done..|]. destruct l2 as [|a l2]; cbn [head].
    - apply wp_ret. apply (HQ _ l1 []). split_and!; [done|done|]. intros a Ha (c & Hc & Hk & Hh).
      apply elem_of_chains in Ha as (j & l & Hj & Hal).
      destruct (tr_home _ _ Ht j l a Hj Hal) as (c' & Hc' & Hx). simplify_eq.
      assert (l = l1) as -> by (fold i in Hj; rewrite app_nil_r in Hi; congruence).
      apply (Hno a Hal). by exists c.
    - destruct (in_heap s chains i _ a Ht Hi) as (ha & Hha & _); [set_solver|].
      apply wp_bind. apply (wp_load a ha _ _ Hha).
      destruct (negb (hash ha =? h) || negb (bool_decide (key = hkey ha))) eqn:E.
      + rewrite <- (slot_at_snoc i l1 a). apply (IH _ l2); [simpl in Hf; lia|by rewrite <- app_assoc|].
        intros b Hb. apply elem_of_app in Hb as [Hb|Hb]; [by apply Hno|].
        apply list_elem_of_singleton in Hb as ->. intros (c & Hc & Hk & Hh).
        rewrite (cores_lookup _ _ _ Hha) in Hc. simplify_eq. cbn [hash hkey core] in E.
        rewrite Z.eqb_refl in E. by rewrite bool_decide_eq_true_2 in E.
      + apply wp_ret. apply (HQ _ l1 (a :: l2)). split_and!; [done|done|].
        apply orb_false_iff in E as [E1 E2]. apply negb_false_iff in E1, E2.
        apply Z.eqb_eq in E1. apply bool_decide_eq_true in E2.
        exists (core ha). rewrite (cores_lookup _ _ _ Hha). done. }
  apply (Hwalk (S (size (heap s))) [] l); [|done|by intros a Ha%not_elem_of_nil].
  pose proof (chain_fits _ _ _ _ Ht Hi). lia.
Qed.

Lemma write_slot_wp s chains i l1 l2 l2' p Q :
  table_rep s chains → chains !! i = Some (l1 ++ l2) → chain (nxh s) p l2' → (∀ a, a ∈ l1 → a ∉ l2') →
  (∀ s', table_frame s s' → Forall2 (chain (nxh s')) (list_ s') (<[i := l1 ++ l2']> chains) →
     length (list_ s') = length (list_ s) → length_ s' = length_ s → elems_ s' = elems_ s → Q tt s') →
  wp (write_slot (slot_at i l1) p) Q s.
Proof.
  intros Ht Hi Hp Hdis HQ. pose proof (tr_chains _ _ Ht) as Hcs.
  pose proof (Forall2_length _ _ _ Hcs) as Hlen. pose proof (lookup_lt_Some _ _ _ Hi) as Hlt.
  destruct l1 as [|a l1 _] using rev_ind.
  - unfold slot_at. cbn [last write_slot]. apply wp_bind, wp_get.
    rewrite bool_decide_eq_true_2 by lia. apply wp_put. apply HQ; try done.
    + by apply Forall2_insert.
    + apply length_insert.
  - rewrite slot_at_snoc. destruct (in_heap s chains i _ a Ht Hi) as (h & Hh & _ & _); [set_solver|].
    apply (wp_modify a h _ _ _ Hh).
    destruct (modify_next_hash s a h p Hh) as (Hf & Hna & Hnb & El & En & Ee).
    set (s' := set_heap _ s) in *. apply HQ; try done.
    pose proof (chain_NoDup _ _ _ (tr_nodup _ _ Ht) Hi) as Hndi.
    assert (a ∉ l1) as Hal1.
    { rewrite <- app_assoc in Hndi. apply NoDup_app in Hndi as (_ & Hd & _). intros Ha. apply (Hd a Ha). by left. }
    rewrite El. apply Forall2_same_length_lookup. split; [by rewrite length_insert|].
    intros j q l Hq Hj. destruct (decide (j = i)) as [->|Hne].
    + rewrite list_lookup_insert_eq in Hj by done. injection Hj as <-.
      rewrite <- app_assoc. apply (chain_redirect (nxh s) _ _ _ _ l2).
      * apply NoDup_app in Hndi as (? & _). done.
      * intros b Hb. apply Hnb. congruence.
      * rewrite <- (app_assoc l1 [a] l2) in Hi. simpl in Hi. eapply Forall2_lookup_lr; eauto.
      * rewrite Hna. apply (chain_frame (nxh s)); [|done]. intros b Hb. apply Hnb. intros ->.
        apply (Hdis a); [set_solver|done].
    + rewrite list_lookup_insert_ne in Hj by done.
      apply (chain_frame (nxh s)); [|eapply Forall2_lookup_lr; eauto].
      intros b Hb. apply Hnb. intros ->. apply Hne. symmetry.
      eapply (chains_disjoint chains i j); [apply (tr_nodup _ _ Ht)|done|done| |done]. set_solver.
Qed.

(** ** Growing *)

Lemma grow_pow2 fuel e k : 0 ≤ e < 2 ^ 30 → 4 ≤ k ≤ 31 → ∃ k', 4 ≤ k' ≤ 31 ∧ grow fuel e (2 ^ k) = 2 ^ k'.
Proof.
  intros He. revert k. induction fuel as [|fuel IH]; intros k Hk; cbn [grow]; [by exists k|].
  destruct (Z.ltb_spec (2 * 2 ^ k) (3 * e)) as [Hlt|]; [|by exists k].
  assert (k < 31) as Hk' by (apply (Z.pow_lt_mono_r_iff 2); lia).
  rewrite wrap_small; [rewrite Z.mul_comm, <- Z.pow_succ_r by lia; apply IH; lia|].
  unfold in_range. assert (2 ^ k ≤ 2 ^ 30) by (apply Z.pow_le_mono_r; lia). lia.
Qed.

(** What moving entries [l] into [nch] may do. *)
Record moved (len : Z) (l : list nat) (nl : list ptr) (nch : list (list nat)) (s : Shard)
    (nl' : list ptr) (nch' : list (list nat)) (s' : Shard) : Prop := {
  mv_frame : table_frame s s';
  mv_list : list_ s' = list_ s;
  mv_length : length_ s' = length_ s;
  mv_elems : elems_ s' = elems_ s;
  mv_nxh : ∀ b, b ∉ l → nxh s' b = nxh s b;
  mv_chains : Forall2 (chain (nxh s')) nl' nch';
  mv_size : length nl' = length nl;
  mv_perm : concat nch' ≡ₚ l ++ concat nch;
  mv_home : ∀ i m a, nch' !! i = Some m → a ∈ m →
    (a ∈ l ∧ ∃ c, cores s !! a = Some c ∧ index len (hash c) = i) ∨ ∃ m0, nch !! i = Some m0 ∧ a ∈ m0;
}.

Lemma moved_nil len nl nch s : Forall2 (chain (nxh s)) nl nch → moved len [] nl nch s nl nch s.
Proof. intros H. split; try done. intros. right. eauto. Qed.

Lemma moved_trans len l1 l2 nl nch s nl1 nch1 s1 nl2 nch2 s2 :
  moved len l1 nl nch s nl1 nch1 s1 → moved len l2 nl1 nch1 s1 nl2 nch2 s2 →
  moved len (l1 ++ l2) nl nch s nl2 nch2 s2.
Proof.
  intros [A1 A2 A3 A4 A5 A6 A7 A8 A9] [B1 B2 B3 B4 B5 B6 B7 B8 B9]. split; try congruence.
  - by eapply table_frame_trans.
  - intros b Hb. rewrite B5, A5 by set_solver. done.
  - rewrite B8, A8, app_assoc. f_equiv. apply Permutation_app_comm.
  - intros i m a Hi Ha. destruct (B9 i m a Hi Ha) as [(Hl & c & Hc & Hx)|(m0 & Hm0 & Ha0)].
    + left. split; [set_solver|]. exists c. split; [|done]. by rewrite <- (tf_cores _ _ A1).
    + destruct (A9 i m0 a Hm0 Ha0) as [(Hl & Hc)|?]; [left|by right]. split; [set_solver|done].
Qed.

Lemma move_one len a h l nl nch i q m s :
  NoDup (a :: l ++ concat nch) → heap s !! a = Some h → index len (hash h) = i →
  nl !! i = Some q → nch !! i = Some m → Forall2 (chain (nxh s)) nl nch →
  moved len [a] nl nch s (<[i := Some a]> nl) (<[i := a :: m]> nch)
    (set_heap (<[a := set_next_hash q h]> (heap s)) s).
Proof.
  intros Hnd Ha Hi Hq Hm Hcs. destruct (modify_next_hash s a h q Ha) as (Hf & Hna & Hnb & El & En & Ee).
  set (s' := set_heap _ s) in *.
  apply NoDup_cons in Hnd as [Hal Hnd]. apply not_elem_of_app in Hal as [Hal Han].
  assert (∀ p l, (∀ b, b ∈ l → b ∈ concat nch) → chain (nxh s) p l → chain (nxh s') p l) as Hfr.
  { intros p l' Hl'. apply chain_frame. intros b Hb. apply Hnb. intros ->. by apply Han, Hl'. }
  split; try done.
  - intros b Hb. apply Hnb. set_solver.
  - apply Forall2_same_length_lookup. pose proof (Forall2_length _ _ _ Hcs) as Hlen.
    split; [by rewrite !length_insert|]. intros j p l' Hp Hl.
    pose proof (lookup_lt_Some _ _ _ Hq). pose proof (lookup_lt_Some _ _ _ Hm).
    destruct (decide (j = i)) as [->|Hne].
    + rewrite list_lookup_insert_eq in Hp by done. rewrite list_lookup_insert_eq in Hl by done. simplify_eq. split; [done|]. rewrite Hna.
      apply Hfr; [intros; apply elem_of_chains; eauto|]. eapply Forall2_lookup_lr; eauto.
    + rewrite list_lookup_insert_ne in Hp by done. rewrite list_lookup_insert_ne in Hl by done.
      apply Hfr; [intros; apply elem_of_chains; eauto|]. eapply Forall2_lookup_lr; eauto.
  - apply length_insert.
  - pose proof (concat_insert nch i m (a :: m) Hm) as Hp. simpl in Hp.
    apply (Permutation_app_inv_l m). rewrite Hp. apply Permutation_middle.
  - intros j m' b Hj Hb. destruct (decide (j = i)) as [->|Hne].
    + rewrite list_lookup_insert_eq in Hj by (by eapply lookup_lt_Some). injection Hj as <-.
      apply elem_of_cons in Hb as [->|Hb]; [|right; eauto]. left. split; [by left|].
      exists (core h). split; [by apply cores_lookup|done].
    + rewrite list_lookup_insert_ne in Hj by done. right. eauto.
Qed.

Lemma move_chain_wp len fuel p l nl nch cnt s Q :
  (length l ≤ fuel)%nat → chain (nxh s) p l → Forall2 (chain (nxh s)) nl nch → NoDup (l ++ concat nch) →
  (∀ a, a ∈ l → ∃ h, heap s !! a = Some h) → (∀ h, index len h < length nl)%nat →
  (∀ nl' nch' cnt' s', moved len l nl nch s nl' nch' s' → Q (nl', cnt') s') →
  wp (move_chain fuel p len nl cnt) Q s.
Proof.
  revert fuel p nl nch cnt s. induction l as [|a l IH]; intros fuel p nl nch cnt s Hfuel Hp Hcs Hnd Hin Hlen HQ.
  - simpl in Hp. subst p. assert (move_chain fuel None len nl cnt = mret (nl, cnt)) as -> by by destruct fuel.
    apply wp_ret. eapply HQ. by apply moved_nil.
  - destruct Hp as [-> Hp]. destruct fuel as [|fuel]; simpl in Hfuel; [lia|]. cbn [move_chain].
    destruct (Hin a) as [h Ha]; [by left|]. apply wp_bind. apply (wp_load a h _ _ Ha).
    fold (index len (hash h)). destruct (lookup_lt_is_Some_2 nl _ (Hlen (hash h))) as [q Hq]. rewrite Hq.
    destruct (Forall2_lookup_l _ _ _ _ _ Hcs Hq) as (m & Hm & _).
    pose proof (move_one len a h l nl nch _ q m s Hnd Ha eq_refl Hq Hm Hcs) as Hmv.
    apply wp_bind. apply (wp_modify a h _ _ _ Ha).
    set (s1 := set_heap _ s) in *.
    assert (nxh s a = next_hash h) as Hna by (unfold nxh; by rewrite Ha). rewrite Hna in Hp.
    apply NoDup_cons in Hnd as Hnd'. destruct Hnd' as [Hal Hnd'].
    eapply (IH fuel _ _ (<[index len (hash h) := a :: m]> nch)).
    + lia.
    + apply (chain_frame (nxh s)); [|done]. intros b Hb. apply (mv_nxh _ _ _ _ _ _ _ _ Hmv). set_solver.
    + apply (mv_chains _ _ _ _ _ _ _ _ Hmv).
    + rewrite (mv_perm _ _ _ _ _ _ _ _ Hmv). change ([a] ++ concat nch) with (a :: concat nch). rewrite <- Permutation_middle. by apply NoDup_cons.
    + intros b Hb. destruct (Hin b) as [hb Hhb]; [by right|].
      exists hb. subst s1. cbn [heap set_heap]. rewrite lookup_insert_ne; [done|set_solver].
    + intros. by rewrite length_insert.
    + intros nl' nch' cnt' s' Hmv'. eapply HQ. apply (moved_trans len [a] l _ _ _ _ _ _ _ _ _ Hmv Hmv').
Qed.

Lemma move_chains_wp len fuel buckets cs nl nch cnt s Q :
  Forall (λ l, length l ≤ fuel)%nat cs → Forall2 (chain (nxh s)) buckets cs →
  Forall2 (chain (nxh s)) nl nch → NoDup (concat cs ++ concat nch) →
  (∀ a, a ∈ concat cs → ∃ c, cores s !! a = Some c) → (∀ h, index len h < length nl)%nat →
  (∀ nl' nch' cnt' s', moved len (concat cs) nl nch s nl' nch' s' → Q (nl', cnt') s') →
  wp (move_chains fuel buckets len nl cnt) Q s.
Proof.
  revert buckets nl nch cnt s. induction cs as [|l cs IH]; intros buckets nl nch cnt s Hfuel Hb Hcs Hnd Hin Hlen HQ.
  - apply Forall2_nil_inv_r in Hb as ->. cbn [move_chains]. apply wp_ret. eapply HQ. by apply moved_nil.
  - apply Forall2_cons_inv_r in Hb as (p & buckets' & Hp & Hb & ->). cbn [move_chains].
    apply Forall_cons in Hfuel as [Hl Hfuel]. simpl in Hnd. rewrite <- app_assoc in Hnd.
    apply wp_bind. eapply (move_chain_wp len fuel p l nl nch); [done..| | |done|].
    + apply NoDup_app in Hnd as (H1 & H2 & H3). apply NoDup_app in H3 as (_ & _ & H3).
      apply NoDup_app. split_and!; [done| |done]. intros b Hbl Hbn. apply (H2 b Hbl). set_solver.
    + intros a Ha. destruct (Hin a) as [c Hc]; [simpl; set_solver|].
      apply cores_Some in Hc as (h & Hh & _). by exists h.
    + intros nl1 nch1 cnt1 s1 Hmv. cbn [fst snd]. eapply (IH _ nl1 nch1).
      * done.
      * apply Forall2_same_length_lookup. split; [by eapply Forall2_length|]. intros j q m Hq Hm.
        apply (chain_frame (nxh s)); [|exact (Forall2_lookup_lr _ _ _ _ _ _ Hb Hq Hm)].
        intros b Hbm. apply (mv_nxh _ _ _ _ _ _ _ _ Hmv). intros Hbl.
        apply NoDup_app in Hnd as (_ & H2 & _). apply (H2 b Hbl). apply elem_of_app. left.
        apply elem_of_chains. eauto.
      * apply (mv_chains _ _ _ _ _ _ _ _ Hmv).
      * rewrite (mv_perm _ _ _ _ _ _ _ _ Hmv). by rewrite Permutation_app_swap_app.
      * intros a Ha. rewrite (tf_cores _ _ (mv_frame _ _ _ _ _ _ _ _ Hmv)). apply Hin. simpl. set_solver.
      * intros h. by rewrite (mv_size _ _ _ _ _ _ _ _ Hmv).
      * intros nl' nch' cnt' s' Hmv'. eapply HQ. simpl. by eapply moved_trans.
Qed.

Lemma concat_replicate_nil n : concat (replicate n []) = ([] : list nat).
Proof. by induction n. Qed.

Lemma index_pow2 k h : 4 ≤ k ≤ 31 → (index (2 ^ k) h < Z.to_nat (2 ^ k))%nat.
Proof.
  intros Hk. unfold index.
  assert (2 ^ k ≤ 2 ^ 31) by (apply Z.pow_le_mono_r; lia).
  assert (2 ^ 4 ≤ 2 ^ k) by (apply Z.pow_le_mono_r; lia).
  rewrite (wrap_small 32) by (unfold in_range; lia).
  rewrite (land_mask _ k) by (rewrite ?Z.ones_equiv; lia). pose proof (wrap_range k h). unfold in_range in *. lia.
Qed.

(** Growing keeps the entries; it also builds the first table. *)
Lemma Resize_wp s chains Q :
  Forall2 (chain (nxh s)) (list_ s) chains → NoDup (concat chains) →
  Z.of_nat (length (list_ s)) = length_ s → elems_ s = Z.of_nat (length (concat chains)) → elems_ s < 2 ^ 30 →
  (∀ a, a ∈ concat chains → ∃ c, cores s !! a = Some c) →
  (∀ a b ca cb, a ∈ concat chains → b ∈ concat chains →
    cores s !! a = Some ca → cores s !! b = Some cb → hkey ca = hkey cb → hash ca = hash cb → a = b) →
  (∀ chains' s', table_frame s s' → table_rep s' chains' → concat chains' ≡ₚ concat chains → Q tt s') →
  wp Resize Q s.
Proof.
  intros Hcs Hnd Hlen He Hfew Hin Hkeys HQ. unfold Resize. apply wp_bind, wp_get.
  destruct (grow_pow2 32 (elems_ s) 4) as (k & Hk & Hg); [lia..|]. change (2 ^ 4) with 16 in Hg. rewrite Hg.
  rewrite take_ge by lia. apply wp_bind.
  apply (move_chains_wp (2 ^ k) _ _ chains _ (replicate (Z.to_nat (2 ^ k)) [])); [|done|..].
  - apply Forall_lookup. intros i l Hi.
    assert (length l ≤ size (heap s))%nat; [|lia].
    rewrite <- (size_dom (D := gset nat)), <- (size_list_to_set (C := gset nat) l) by (by eapply chain_NoDup).
    apply subseteq_size. intros a Ha. apply elem_of_list_to_set in Ha.
    destruct (Hin a) as [c Hc]; [apply elem_of_chains; eauto|].
    apply cores_Some in Hc as (h & Hh & _). by apply elem_of_dom_2 in Hh.
  - apply Forall2_same_length_lookup. split; [by rewrite !length_replicate|]. intros i p l Hp Hl.
    apply lookup_replicate in Hp as [-> _]. by apply lookup_replicate in Hl as [-> _].
  - by rewrite concat_replicate_nil, app_nil_r.
  - done.
  - intros h. rewrite length_replicate. by apply index_pow2.
  - intros nl' nch' cnt' s' [Hf Hl Hn Hel Hx Hch Hsz Hperm Hhome]. rewrite concat_replicate_nil, app_nil_r in Hperm.
    apply wp_put. apply (HQ nch'); [| |done].
    { eapply table_frame_trans; [exact Hf|]. apply table_frame_set. }
    split; cbn [fst snd list_ length_ elems_ set_table heap].
    + done.
    + by rewrite Hperm.
    + exists k. split_and!; [lia|lia|done|]. rewrite Hsz, length_replicate. lia.
    + by rewrite Hel, He, Hperm.
    + by rewrite Hel.
    + intros i l a Hi Ha. destruct (Hhome i l a Hi Ha) as [(_ & c & Hc & Hx')|(m0 & Hm0 & Ha')].
      * exists c. split; [|done]. change (cores s' !! a = Some c). by rewrite (tf_cores _ _ Hf).
      * apply lookup_replicate in Hm0 as [-> _]. by apply not_elem_of_nil in Ha'.
    + intros a b ca cb Ha Hb. change (cores (set_table _ _ _ s')) with (cores s'). rewrite (tf_cores _ _ Hf).
      rewrite Hperm in Ha, Hb. by apply Hkeys.
Qed.

(** ** The operations of the table *)

Lemma matches_unique s chains key h a b :
  table_rep s chains → a ∈ concat chains → b ∈ concat chains → matches s key h a → matches s key h b → a = b.
Proof.
  intros Ht Ha Hb (ca & Hca & Hka & Hha) (cb & Hcb & Hkb & Hhb).
  eapply (tr_keys _ _ Ht); try done; congruence.
Qed.

(** The answer of a search. *)
Definition search_answer (s : Shard) (chains : list (list nat)) (key : bytes) (h : Z) (r : ptr) : Prop :=
  match r with
  | Some a => a ∈ concat chains ∧ matches s key h a
  | None => ∀ a, a ∈ concat chains → ¬ matches s key h a
  end.

Lemma found_answer s chains key h sl l1 l2 :
  found s chains key h sl l1 l2 → search_answer s chains key h (head l2).
Proof.
  intros (Hi & _ & Hm). destruct l2 as [|a l2]; [done|]. split; [|done].
  apply elem_of_chains. eexists _, _. split; [exact Hi|]. set_solver.
Qed.

Lemma table_Lookup_wp s chains key h Q :
  table_rep s chains → (∀ r, search_answer s chains key h r → Q r s) → wp (table_Lookup key h) Q s.
Proof.
  intros Ht HQ. unfold table_Lookup. apply wp_bind. apply (FindPointer_wp s chains); [done|].
  intros sl l1 l2 Hf. pose proof Hf as (Hi & -> & _). eapply read_slot_wp; [done..|].
  apply HQ. by eapply found_answer.
Qed.

(** Replacing the tail of the bucket of [h]. *)
Lemma table_rep_replace s s' chains i l1 l2 l2' T :
  table_rep s chains → table_frame s s' → chains !! i = Some (l1 ++ l2) →
  Forall2 (chain (nxh s')) (list_ s') (<[i := l1 ++ l2']> chains) →
  length (list_ s') = length (list_ s) → length_ s' = length_ s →
  concat (<[i := l1 ++ l2']> chains) ≡ₚ T → NoDup T → elems_ s' = Z.of_nat (length T) → elems_ s' < 2 ^ 30 →
  (∀ a, a ∈ l2' → ∃ c, cores s !! a = Some c ∧ index (length_ s) (hash c) = i) →
  (∀ a b ca cb, a ∈ T → b ∈ T → cores s !! a = Some ca → cores s !! b = Some cb →
     hkey ca = hkey cb → hash ca = hash cb → a = b) →
  table_rep s' (<[i := l1 ++ l2']> chains).
Proof.
  intros Ht Hf Hi Hcs Hll Hln HT Hnd He Hfew Hhome Hkeys. split; try done.
  - by rewrite HT.
  - destruct (tr_len _ _ Ht) as (k & ? & ? & ?). exists k. by rewrite Hll, Hln.
  - by rewrite He, HT.
  - intros j l a Hj Ha. rewrite (tf_cores _ _ Hf), Hln. destruct (decide (j = i)) as [->|Hne].
    + rewrite list_lookup_insert_eq in Hj by (by eapply lookup_lt_Some). injection Hj as <-.
      apply elem_of_app in Ha as [Ha|Ha]; [|by apply Hhome].
      apply (tr_home _ _ Ht i _ a Hi). set_solver.
    + rewrite list_lookup_insert_ne in Hj by done. by apply (tr_home _ _ Ht j l a).
  - intros a b ca cb. rewrite (tf_cores _ _ Hf), HT. apply Hkeys.
Qed.

Lemma table_Remove_wp s chains key h Q :
  table_rep s chains →
  (∀ r chains' s', table_frame s s' → table_rep s' chains' → search_answer s chains key h r →
     concat chains ≡ₚ option_list r ++ concat chains' → Q r s') →
  wp (table_Remove key h) Q s.
Proof.
  intros Ht HQ. unfold table_Remove. apply wp_bind. apply (FindPointer_wp s chains); [done|].
  intros sl l1 l2 Hf. pose proof (found_answer _ _ _ _ _ _ _ Hf) as Hans. pose proof Hf as (Hi & -> & Hm).
  apply wp_bind. eapply read_slot_wp; [done..|]. destruct l2 as [|a l2]; cbn [head] in *.
  { apply wp_ret. eapply (HQ None chains s); [apply table_frame_refl|done|done|done]. }
  set (i := index (length_ s) h) in *.
  destruct (in_heap s chains i _ a Ht Hi) as (ha & Hha & Hna & Hx); [set_solver|].
  pose proof (chain_NoDup _ _ _ (tr_nodup _ _ Ht) Hi) as Hndi.
  apply wp_bind. apply (wp_load a ha _ _ Hha). apply wp_bind.
  apply (write_slot_wp s chains i l1 (a :: l2) l2); [done|done| | |].
  { rewrite <- Hna. destruct (Forall2_lookup_r _ _ _ _ _ (tr_chains _ _ Ht) Hi) as (p & _ & Hc).
    by apply chain_split in Hc. }
  { intros b Hb Hb2. apply NoDup_app in Hndi as (_ & Hd & _). apply (Hd b Hb). by right. }
  intros s' Hf' Hcs' Hll Hln Hel. apply wp_bind, wp_put, wp_ret.
  pose proof (concat_insert chains i _ (l1 ++ l2) Hi) as Hp.
  assert (concat chains ≡ₚ a :: concat (<[i := l1 ++ l2]> chains)) as Hperm.
  { apply (Permutation_app_inv_l (l1 ++ l2)). rewrite <- Hp, <- !Permutation_middle. done. }
  pose proof (tr_nodup _ _ Ht) as Hnd. rewrite Hperm in Hnd. apply NoDup_cons in Hnd as [_ Hnd].
  assert (elems_ s = Z.of_nat (S (length (concat (<[i := l1 ++ l2]> chains))))) as He.
  { rewrite (tr_elems _ _ Ht), Hperm. done. }
  pose proof (tr_few _ _ Ht) as Hfew.
  apply (HQ (Some a) (<[i := l1 ++ l2]> chains)); [|..|done|done].
  { eapply table_frame_trans; [exact Hf'|]. apply table_frame_set. }
  eapply (table_rep_replace s _ chains i l1 (a :: l2) l2 (concat (<[i := l1 ++ l2]> chains))); try done.
  - eapply table_frame_trans; [exact Hf'|]. apply table_frame_set.
  - cbn [elems_ set_table]. rewrite Hel, wrap_small by (unfold in_range; lia). lia.
  - cbn [elems_ set_table]. rewrite Hel, wrap_small by (unfold in_range; lia). lia.
  - intros b Hb. apply (tr_home _ _ Ht i _ b Hi). set_solver.
  - intros b b' cb cb' Hb Hb'. apply (tr_keys _ _ Ht); rewrite Hperm; by right.
Qed.

(** Linking the new entry [a] before the tail [l2'] of its bucket. *)
Lemma link_wp s chains i l1 l2 l2' a h Q :
  table_rep s chains → chains !! i = Some (l1 ++ l2) → heap s !! a = Some h → a ∉ concat chains →
  chain (nxh s) (head l2') l2' → (∀ b, b ∈ l2' → b ∈ l2) →
  (∀ s', table_frame s s' → Forall2 (chain (nxh s')) (list_ s') (<[i := l1 ++ a :: l2']> chains) →
     length (list_ s') = length (list_ s) → length_ s' = length_ s → elems_ s' = elems_ s → Q tt s') →
  wp (modify (Some a) (set_next_hash (head l2'))) (λ _ s1, wp (write_slot (slot_at i l1) (Some a)) Q s1) s.
Proof.
  intros Ht Hi Ha Hna Hl2 Hsub HQ. apply (wp_modify a h _ _ _ Ha).
  destruct (modify_next_hash s a h (head l2') Ha) as (Hf & Hx & Hy & El & En & Ee).
  set (s1 := set_heap _ s) in *.
  pose proof (chain_NoDup _ _ _ (tr_nodup _ _ Ht) Hi) as Hndi.
  assert (∀ b, b ∈ l1 ++ l2 → b ∈ concat chains) as Hmem by (intros; apply elem_of_chains; eauto).
  assert (table_rep s1 chains) as Ht1.
  { apply (table_rep_frame s); [done..| | |done].
    - intros b Hb. apply Hy. congruence.
    - intros b c _ Hc. exists c. by rewrite (tf_cores _ _ Hf). }
  apply (write_slot_wp s1 chains i l1 l2 (a :: l2')); [done|done| | |].
  - split; [done|]. rewrite Hx. apply (chain_frame (nxh s)); [|done].
    intros b Hb. apply Hy. intros ->. apply Hna, Hmem. set_solver.
  - intros b Hb Hb2. apply elem_of_cons in Hb2 as [->|Hb2]; [apply Hna, Hmem; set_solver|].
    apply NoDup_app in Hndi as (_ & Hd & _). apply (Hd b Hb). by apply Hsub.
  - intros s' Hf' Hcs' Hll Hln Hel. apply HQ; try done; [by eapply table_frame_trans|..]; congruence.
Qed.

Lemma table_Insert_wp s chains a h Q :
  table_rep s chains → heap s !! a = Some h → a ∉ concat chains → elems_ s + 1 < 2 ^ 30 →
  (∀ old rest chains' s', table_frame s s' → table_rep s' chains' →
     search_answer s chains (hkey h) (hash h) old →
     concat chains ≡ₚ option_list old ++ rest → concat chains' ≡ₚ a :: rest → Q old s') →
  wp (table_Insert (Some a)) Q s.
Proof.
  intros Ht Ha Hna Hfew HQ. unfold table_Insert. apply wp_bind. apply (wp_load a h _ _ Ha).
  apply wp_bind. apply (FindPointer_wp s chains); [done|].
  intros sl l1 l2 Hf. pose proof (found_answer _ _ _ _ _ _ _ Hf) as Hans. destruct Hf as (Hi & -> & Hm).
  set (i := index (length_ s) (hash h)) in *.
  apply wp_bind. eapply read_slot_wp; [done..|]. apply wp_bind.
  assert (∃ c, cores s !! a = Some c ∧ index (length_ s) (hash c) = i) as Hhome
    by (exists (core h); split; [by apply cores_lookup|done]).
  pose proof (tr_nodup _ _ Ht) as Hnd. pose proof (tr_elems _ _ Ht) as He.
  destruct l2 as [|o l2]; cbn [head] in *.
  - apply wp_ret. pose proof (concat_insert chains i _ (l1 ++ [a]) Hi) as Hp.
    assert (concat (<[i := l1 ++ [a]]> chains) ≡ₚ a :: concat chains) as Hperm.
    { rewrite app_nil_r in Hp. apply (Permutation_app_inv_l l1). rewrite Hp, <- app_assoc. done. }
    apply wp_bind. eapply wp_mono; [|intros x s1 H1; apply wp_bind; exact H1].
    apply (link_wp s chains i l1 [] [] a h); [done|done|done|done|done|done|].
    intros s2 Hf2 Hcs2 Hll Hln Hel. apply wp_bind, wp_put, wp_bind, wp_get. apply wp_bind.
    set (s3 := set_table _ _ _ s2).
    assert (table_frame s s3) as Hf3 by (eapply table_frame_trans; [exact Hf2|apply table_frame_set]).
    assert (NoDup (a :: concat chains)) as Hnd' by by apply NoDup_cons.
    assert (elems_ s3 = Z.of_nat (length (a :: concat chains))) as He3.
    { subst s3. cbn [elems_ set_table length]. rewrite Hel, wrap_small by (unfold in_range; lia). lia. }
    assert (elems_ s3 < 2 ^ 30) as Hfew3 by (rewrite He3; cbn [length]; lia).
    assert (table_rep s3 (<[i := l1 ++ [a]]> chains)) as Ht3.
    { eapply (table_rep_replace s s3 chains i l1 [] [a] (a :: concat chains)); try done.
      - intros b Hb. by apply list_elem_of_singleton in Hb as ->.
      - intros b b' cb cb' Hb Hb' Hcb Hcb' Hk Hh. cbn [search_answer] in Hans.
        apply elem_of_cons in Hb as [->|Hb], Hb' as [->|Hb']; [done|..|by eapply (tr_keys _ _ Ht)].
        + rewrite (cores_lookup _ _ _ Ha) in Hcb. injection Hcb as <-.
          destruct (Hans b' Hb'). exists cb'. done.
        + rewrite (cores_lookup _ _ _ Ha) in Hcb'. injection Hcb' as <-.
          destruct (Hans b Hb). exists cb. done. }
    destruct (length_ s3 <? elems_ s3).
    + destruct Ht3 as [T1 T2 (k & ? & ? & T3) T4 T5 T6 T7].
      apply (Resize_wp s3 (<[i := l1 ++ [a]]> chains)); try done.
      * intros b Hb. apply elem_of_chains in Hb as (j & l & Hj & Hb).
        destruct (T6 j l b Hj Hb) as (c & Hc & _). by exists c.
      * intros chains' s' Hf' Ht' Hp'. apply wp_ret.
        apply (HQ None (concat chains) chains'); [by eapply table_frame_trans|done|done|done|by rewrite Hp', Hperm].
    + apply wp_skip, wp_ret. by apply (HQ None (concat chains) (<[i := l1 ++ [a]]> chains)).
  - destruct (in_heap s chains i _ o Ht Hi) as (ho & Hho & Hno & _); [set_solver|].
    apply wp_bind. apply (wp_load o ho _ _ Hho). apply wp_ret.
    pose proof (chain_NoDup _ _ _ Hnd Hi) as Hndi.
    pose proof (concat_insert chains i _ (l1 ++ l2) Hi) as Hp.
    set (rest := concat (<[i := l1 ++ l2]> chains)) in *.
    assert (concat chains ≡ₚ o :: rest) as Hperm.
    { apply (Permutation_app_inv_l (l1 ++ l2)). rewrite <- Hp, <- !Permutation_middle. done. }
    assert (concat (<[i := l1 ++ a :: l2]> chains) ≡ₚ a :: rest) as Hperm'.
    { pose proof (concat_insert chains i _ (l1 ++ a :: l2) Hi) as Hp'.
      apply (Permutation_app_inv_l (l1 ++ o :: l2)). rewrite Hp', Hperm.
      rewrite <- !app_assoc. f_equiv. simpl. rewrite <- !Permutation_middle. apply Permutation_swap. }
    assert (chain (nxh s) (next_hash ho) l2) as Hc2.
    { rewrite <- Hno. destruct (Forall2_lookup_r _ _ _ _ _ (tr_chains _ _ Ht) Hi) as (p & _ & Hc).
      by apply chain_split in Hc. }
    apply wp_bind. eapply wp_mono; [|intros x s1 H1; apply wp_bind; exact H1].
    pose proof (chain_head _ _ _ Hc2) as Hho2. rewrite Hho2.
    apply (link_wp s chains i l1 (o :: l2) l2 a h); [done|done|done|done|by rewrite <- Hho2|by intros; right|].
    intros s2 Hf2 Hcs2 Hll Hln Hel. apply wp_ret.
    rewrite Hperm in Hnd. apply NoDup_cons in Hnd as [Hor Hnd].
    apply (HQ (Some o) rest (<[i := l1 ++ a :: l2]> chains)); [done| |done|done|done].
    destruct Hans as [Hoin Hom].
    assert (∀ b, b ∈ rest → b ∈ concat chains) as Hrest by (intros b Hb; rewrite Hperm; by right).
    eapply (table_rep_replace s s2 chains i l1 (o :: l2) (a :: l2) (a :: rest)); try done.
    + apply NoDup_cons. split; [|done]. intros Har. by apply Hna, Hrest.
    + rewrite Hel, He, Hperm. done.
    + lia.
    + intros b Hb. apply elem_of_cons in Hb as [->|Hb]; [done|]. apply (tr_home _ _ Ht i _ b Hi). set_solver.
    + intros b b' cb cb' Hb Hb' Hcb Hcb' Hk Hh.
      apply elem_of_cons in Hb as [->|Hb], Hb' as [->|Hb']; [done|..|by eapply (tr_keys _ _ Ht); eauto].
      * rewrite (cores_lookup _ _ _ Ha) in Hcb. injection Hcb as <-. exfalso. apply Hor.
        rewrite (matches_unique s chains (hkey h) (hash h) o b' Ht Hoin (Hrest _ Hb') Hom); [done|]. by exists cb'.
      * rewrite (cores_lookup _ _ _ Ha) in Hcb'. injection Hcb' as <-. exfalso. apply Hor.
        rewrite (matches_unique s chains (hkey h) (hash h) o b Ht Hoin (Hrest _ Hb) Hom); [done|]. by exists cb.
Qed.
