(* ===== verification/LRUList.v ===== *)
(** * The LRU block cache: the LRU list

    The circular list of unreferenced entries around the dummy head, split by
    [lru_low_pri_] into the low-priority pool [lo] and the high-priority pool
    [hi], oldest first; and what LRU_Remove, LRU_Insert and MaintainPoolSize do
    to it. *)
From S2P Require Import Prelude Status LRUCache LRUTable.

(** ** Linked sequences *)

Fixpoint links (nx pv : nat → ptr) (c : list nat) : Prop :=
  match c with
  | a :: ((b :: _) as c') => nx a = Some b ∧ pv b = Some a ∧ links nx pv c'
  | _ => True
  end.

Lemma links_app nx pv l1 a l2 : links nx pv (l1 ++ a :: l2) ↔ links nx pv (l1 ++ [a]) ∧ links nx pv (a :: l2).
Proof.
  induction l1 as [|b l1 IH]; [simpl; naive_solver|].
  destruct l1 as [|d l1]; [simpl in *; naive_solver|]. cbn [app links] in *. naive_solver.
Qed.

Lemma links_frame nx pv nx' pv' c :
  (∀ a, a ∈ removelast c → nx' a = nx a) → (∀ b, b ∈ tail c → pv' b = pv b) → links nx pv c → links nx' pv' c.
Proof.
  induction c as [|a c IH]; [done|]. destruct c as [|b c]; [done|]. intros Hn Hp (H1 & H2 & H3).
  change (nx' a = Some b ∧ pv' b = Some a ∧ links nx' pv' (b :: c)).
  rewrite Hn by (simpl; left). rewrite Hp by (simpl; left). split_and!; [done|done|].
  apply IH; [| |done].
  - intros x Hx. apply Hn. change (x ∈ a :: removelast (b :: c)). by right.
  - intros x Hx. apply Hp. simpl in *. by right.
Qed.

Definition upd (f : nat → ptr) (a : nat) (p : ptr) : nat → ptr := λ b, if decide (b = a) then p else f b.

Lemma links_remove nx pv nx' pv' l1 p e s l2 :
  let c := l1 ++ p :: e :: s :: l2 in
  NoDup (removelast c) → NoDup (tail c) → links nx pv c →
  nx' p = Some s → pv' s = Some p →
  (∀ a, a ≠ p → a ≠ e → nx' a = nx a) → (∀ a, a ≠ s → a ≠ e → pv' a = pv a) →
  links nx' pv' (l1 ++ p :: s :: l2).
Proof.
  intros c Hi Ht Hl Hp Hs Hn Hv. subst c.
  apply links_app in Hl as [Hl1 (_ & _ & Hl2)]. destruct Hl2 as (_ & _ & Hl2).
  rewrite removelast_app in Hi by done.
  change (removelast (p :: e :: s :: l2)) with (p :: e :: removelast (s :: l2)) in Hi.
  apply NoDup_app in Hi as (_ & Hd1 & Hi). rewrite !NoDup_cons in Hi. destruct Hi as (Hpi & Hei & _).
  apply links_app. split; [|change (nx' p = Some s ∧ pv' s = Some p ∧ links nx' pv' (s :: l2)); split_and!; [done|done|]].
  - apply (links_frame nx pv); [| |done].
    + rewrite removelast_last. intros a Ha. apply Hn; intros ->; apply (Hd1 _ Ha); set_solver.
    + intros b Hb. destruct l1 as [|d l1]; [by apply not_elem_of_nil in Hb|]. cbn [app tail] in Hb, Ht.
      apply NoDup_app in Ht as (_ & Hd & Ht). rewrite !NoDup_cons in Ht. destruct Ht as (Hpt & _ & _).
      apply elem_of_app in Hb as [Hb|Hb].
      * apply Hv; intros ->; apply (Hd _ Hb); set_solver.
      * apply list_elem_of_singleton in Hb as ->. apply Hv; set_solver.
  - apply (links_frame nx pv); [| |done].
    + intros a Ha. apply Hn; intros ->; set_solver.
    + intros b Hb. cbn [tail] in Hb.
      assert (NoDup (e :: s :: l2)) as Hnd.
      { destruct l1 as [|d l1]; cbn [app tail] in Ht; [done|]. apply NoDup_app in Ht as (_ & _ & Ht).
        by apply NoDup_cons in Ht as [_ Ht]. }
      rewrite !NoDup_cons in Hnd. apply Hv; intros ->; set_solver.
Qed.

Lemma links_insert nx pv nx' pv' l1 p e s l2 :
  let c := l1 ++ p :: s :: l2 in
  NoDup (removelast c) → NoDup (tail c) → e ∉ c → links nx pv c →
  nx' p = Some e → nx' e = Some s → pv' s = Some e → pv' e = Some p →
  (∀ a, a ≠ p → a ≠ e → nx' a = nx a) → (∀ a, a ≠ s → a ≠ e → pv' a = pv a) →
  links nx' pv' (l1 ++ p :: e :: s :: l2).
Proof.
  intros c Hi Ht He Hl Hp He1 Hs He2 Hn Hv. subst c.
  apply links_app in Hl as [Hl1 (_ & _ & Hl2)].
  rewrite removelast_app in Hi by done.
  change (removelast (p :: s :: l2)) with (p :: removelast (s :: l2)) in Hi.
  apply NoDup_app in Hi as (_ & Hd1 & Hi). rewrite !NoDup_cons in Hi. destruct Hi as (Hpi & _).
  assert (∀ x, x ∈ removelast (s :: l2) → x ∈ s :: l2) as Hrl.
  { intros x Hx. rewrite (app_removelast_last 0%nat (l := s :: l2)) by done. set_solver. }
  apply links_app. split; [|change (nx' p = Some e ∧ pv' e = Some p ∧ nx' e = Some s ∧ pv' s = Some e ∧ links nx' pv' (s :: l2)); split_and!; [done|done|done|done|]].
  - apply (links_frame nx pv); [| |done].
    + rewrite removelast_last. intros a Ha. apply Hn; intros ->; [apply (Hd1 _ Ha); set_solver|apply He; set_solver].
    + intros b Hb. destruct l1 as [|d l1]; [by apply not_elem_of_nil in Hb|]. cbn [app tail] in Hb, Ht.
      apply NoDup_app in Ht as (_ & Hd & Ht). rewrite !NoDup_cons in Ht. destruct Ht as (Hpt & _).
      apply elem_of_app in Hb as [Hb|Hb].
      * apply Hv; intros ->; [apply (Hd _ Hb); set_solver|apply He; set_solver].
      * apply list_elem_of_singleton in Hb as ->. apply Hv; set_solver.
  - apply (links_frame nx pv); [| |done].
    + intros a Ha. apply Hn; intros ->; [done|]. apply He. apply Hrl in Ha. set_solver.
    + intros b Hb. cbn [tail] in Hb.
      assert (NoDup (s :: l2)) as Hnd.
      { destruct l1 as [|d l1]; cbn [app tail] in Ht; [done|]. apply NoDup_app in Ht as (_ & _ & Ht).
        by apply NoDup_cons in Ht as [_ Ht]. }
      rewrite !NoDup_cons in Hnd. apply Hv; intros ->; set_solver.
Qed.

(** ** Writing links and pool flags *)

(** Only the heap changed, and in it the links and pool flags as given. *)
Record heap_step (s s' : Shard) (nx pv : nat → ptr) (pool : nat → bool) : Prop := {
  hs_but : set_heap ∅ s' = set_heap ∅ s;
  hs_cores : cores s' = cores s;
  hs_nxh : ∀ b, nxh s' b = nxh s b;
  hs_nxt : ∀ b, nxt s' b = nx b;
  hs_prv : ∀ b, prv s' b = pv b;
  hs_pool : ∀ b, in_pool s' b = pool b;
}.

Definition allocated (s : Shard) (a : nat) : Prop := is_Some (cores s !! a).

Lemma allocated_heap s a : allocated s a → ∃ h, heap s !! a = Some h ∧ nxt s a = next h ∧ prv s a = prev h.
Proof.
  intros [c Hc]. apply cores_Some in Hc as (h & Hh & _). exists h. split; [done|]. unfold nxt, prv. by rewrite Hh.
Qed.

Lemma heap_step_modify s a h f :
  heap s !! a = Some h → core (f h) = core h → next_hash (f h) = next_hash h →
  heap_step s (set_heap (<[a := f h]> (heap s)) s)
    (upd (nxt s) a (next (f h))) (upd (prv s) a (prev (f h)))
    (λ b, if decide (b = a) then InHighPriPool (f h) else in_pool s b).
Proof.
  intros Ha Hc Hn. split; [done|by apply cores_modify_same|..]; intros b;
    unfold nxh, nxt, prv, in_pool, upd; cbn [heap set_heap];
    (destruct (decide (b = a)) as [->|Hne]; [rewrite lookup_insert_eq|rewrite lookup_insert_ne by done]); try done.
  rewrite Ha. simpl. done.
Qed.

Lemma wp_set_next s a p Q :
  allocated s a → (∀ s', heap_step s s' (upd (nxt s) a p) (prv s) (in_pool s) → Q tt s') →
  wp (modify (Some a) (set_next p)) Q s.
Proof.
  intros Ha HQ. destruct (allocated_heap _ _ Ha) as (h & Hh & _ & Hp). apply (wp_modify a h _ _ _ Hh), HQ.
  destruct (heap_step_modify s a h (set_next p) Hh eq_refl eq_refl) as [H1 H2 H3 H4 H5 H6]. split; try done.
  - intros b. rewrite H5. unfold upd. by destruct (decide (b = a)) as [->|].
  - intros b. rewrite H6. destruct (decide (b = a)) as [->|]; [|done]. unfold in_pool. by rewrite Hh.
Qed.

Lemma wp_set_prev s a p Q :
  allocated s a → (∀ s', heap_step s s' (nxt s) (upd (prv s) a p) (in_pool s) → Q tt s') →
  wp (modify (Some a) (set_prev p)) Q s.
Proof.
  intros Ha HQ. destruct (allocated_heap _ _ Ha) as (h & Hh & Hp & _). apply (wp_modify a h _ _ _ Hh), HQ.
  destruct (heap_step_modify s a h (set_prev p) Hh eq_refl eq_refl) as [H1 H2 H3 H4 H5 H6]. split; try done.
  - intros b. rewrite H4. unfold upd. by destruct (decide (b = a)) as [->|].
  - intros b. rewrite H6. destruct (decide (b = a)) as [->|]; [|done]. unfold in_pool. by rewrite Hh.
Qed.

Lemma wp_clear_links s a Q :
  allocated s a → (∀ s', heap_step s s' (upd (nxt s) a None) (upd (prv s) a None) (in_pool s) → Q tt s') →
  wp (modify (Some a) (λ h, set_prev None (set_next None h))) Q s.
Proof.
  intros Ha HQ. destruct (allocated_heap _ _ Ha) as (h & Hh & _). apply (wp_modify a h _ _ _ Hh), HQ.
  destruct (heap_step_modify s a h (λ h, set_prev None (set_next None h)) Hh eq_refl eq_refl) as [H1 H2 H3 H4 H5 H6].
  split; try done. intros b. rewrite H6. destruct (decide (b = a)) as [->|]; [|done]. unfold in_pool. by rewrite Hh.
Qed.

Lemma InHighPriPool_set on h : InHighPriPool (SetInHighPriPool on h) = on.
Proof. unfold InHighPriPool, SetInHighPriPool, IN_HIGH_PRI_POOL. by rewrite has_put_flag by lia. Qed.

Lemma wp_set_pool s a on Q :
  allocated s a →
  (∀ s', heap_step s s' (nxt s) (prv s) (λ b, if decide (b = a) then on else in_pool s b) → Q tt s') →
  wp (modify (Some a) (SetInHighPriPool on)) Q s.
Proof.
  intros Ha HQ. destruct (allocated_heap _ _ Ha) as (h & Hh & Hn & Hp). apply (wp_modify a h _ _ _ Hh), HQ.
  destruct (heap_step_modify s a h (SetInHighPriPool on) Hh (core_pool on h) eq_refl) as [H1 H2 H3 H4 H5 H6].
  split; try done; intros b; rewrite ?H4, ?H5, ?H6; unfold upd; destruct (decide (b = a)) as [->|]; try done.
  apply InHighPriPool_set.
Qed.

Lemma wp_load_links s a Q :
  allocated s a →
  (∀ h, heap s !! a = Some h → next h = nxt s a → prev h = prv s a → Q h s) → wp (load (Some a)) Q s.
Proof.
  intros Ha HQ. destruct (allocated_heap _ _ Ha) as (h & Hh & Hn & Hp). apply (wp_load a h _ _ Hh). by apply HQ.
Qed.

Lemma heap_step_trans s1 s2 s3 nx2 pv2 po2 nx3 pv3 po3 :
  heap_step s1 s2 nx2 pv2 po2 → heap_step s2 s3 nx3 pv3 po3 → heap_step s1 s3 nx3 pv3 po3.
Proof. intros [] []. split; try done; [congruence|congruence|]. intros b. congruence. Qed.

Lemma heap_step_fields s s' nx pv po :
  heap_step s s' nx pv po →
  lru_low_pri_ s' = lru_low_pri_ s ∧ lru_usage_ s' = lru_usage_ s ∧ high_pri_pool_usage_ s' = high_pri_pool_usage_ s ∧
  high_pri_pool_capacity_ s' = high_pri_pool_capacity_ s ∧ high_pri_pool_ratio_ s' = high_pri_pool_ratio_ s ∧
  metadata_charge_policy_ s' = metadata_charge_policy_ s ∧ but_lru s' = but_lru s.
Proof.
  intros [H _ _ _ _ _]. split_and!.
  - by apply (f_equal lru_low_pri_) in H.
  - by apply (f_equal lru_usage_) in H.
  - by apply (f_equal high_pri_pool_usage_) in H.
  - by apply (f_equal high_pri_pool_capacity_) in H.
  - by apply (f_equal high_pri_pool_ratio_) in H.
  - by apply (f_equal metadata_charge_policy_) in H.
  - unfold but_lru. apply (f_equal (λ s, set_low_pri None (set_pool_usage 0 (set_lru_usage 0 s)))) in H. exact H.
Qed.

Lemma heap_step_allocated s s' nx pv po a : heap_step s s' nx pv po → allocated s a → allocated s' a.
Proof. intros [_ Hc _ _ _ _]. unfold allocated. by rewrite Hc. Qed.
#[export] Hint Resolve heap_step_allocated : rdb.

(** ** Charges *)

Definition tc (s : Shard) (a : nat) : Z := from_option (CalcTotalCharge (metadata_charge_policy_ s)) 0 (cores s !! a).
Definition total (s : Shard) (l : list nat) : Z := foldr (λ a n, tc s a + n) 0 l.

Lemma tc_nonneg s a : 0 ≤ tc s a.
Proof.
  unfold tc. destruct (cores s !! a) as [c|]; simpl; [|lia]. unfold CalcTotalCharge. by apply wrap_range.
Qed.
Lemma total_app s l1 l2 : total s (l1 ++ l2) = total s l1 + total s l2.
Proof. induction l1 as [|a l1 IH]; simpl; [lia|]. rewrite IH. lia. Qed.
Lemma total_nonneg s l : 0 ≤ total s l.
Proof. induction l as [|a l IH]; simpl; [lia|]. pose proof (tc_nonneg s a). lia. Qed.
Lemma total_perm s l1 l2 : l1 ≡ₚ l2 → total s l1 = total s l2.
Proof. induction 1; simpl; lia. Qed.
Lemma total_same s s' l :
  cores s' = cores s → metadata_charge_policy_ s' = metadata_charge_policy_ s → total s' l = total s l.
Proof. intros Hc Hp. induction l as [|a l IH]; [done|]. simpl. unfold tc. by rewrite IH, Hc, Hp. Qed.
Lemma tc_same s s' a :
  cores s' = cores s → metadata_charge_policy_ s' = metadata_charge_policy_ s → tc s' a = tc s a.
Proof. intros Hc Hp. unfold tc. by rewrite Hc, Hp. Qed.

Lemma wp_charge_of s a Q : allocated s a → Q (tc s a) s → wp (charge_of (Some a)) Q s.
Proof.
  intros Ha HQ. unfold charge_of. apply wp_bind. destruct (allocated_heap _ _ Ha) as (h & Hh & _).
  apply (wp_load a h _ _ Hh), wp_bind, wp_get, wp_ret. unfold tc in HQ.
  by rewrite (cores_lookup _ _ _ Hh) in HQ.
Qed.

(** ** The representation of the list *)

Record list_rep (s : Shard) (lo hi : list nat) : Prop := {
  lr_links : links (nxt s) (prv s) (lru_head :: (lo ++ hi) ++ [lru_head]);
  lr_nodup : NoDup (lru_head :: lo ++ hi);
  lr_alloc : ∀ a, a ∈ lru_head :: lo ++ hi → allocated s a;
  lr_low : lru_low_pri_ s = last (lru_head :: lo);
  lr_lo_pool : ∀ a, a ∈ lo → in_pool s a = false;
  lr_hi_pool : ∀ a, a ∈ hi → in_pool s a = true;
  lr_pool : high_pri_pool_usage_ s = total s hi;
  lr_bound : total s hi < 2 ^ 64;
  lr_ratio : double_lt (high_pri_pool_capacity_ s) (double_of 0) = false;
}.

(** Only the LRU list's fields, links and pool flags changed. *)
Record list_frame (s s' : Shard) : Prop := {
  lf_but : but_lru s' = but_lru s;
  lf_cores : cores s' = cores s;
  lf_nxh : ∀ a, nxh s' a = nxh s a;
}.

Lemma list_frame_refl s : list_frame s s.
Proof. by split. Qed.
Lemma list_frame_trans s1 s2 s3 : list_frame s1 s2 → list_frame s2 s3 → list_frame s1 s3.
Proof. intros [] []. split; [congruence|congruence|]. intros. congruence. Qed.
Lemma heap_step_frame s s' nx pv po : heap_step s s' nx pv po → list_frame s s'.
Proof. intros H. pose proof (heap_step_fields _ _ _ _ _ H) as Hf. destruct H. split; [apply Hf|done|done]. Qed.
Lemma list_frame_policy s s' :
  list_frame s s' → metadata_charge_policy_ s' = metadata_charge_policy_ s ∧
    high_pri_pool_capacity_ s' = high_pri_pool_capacity_ s ∧ high_pri_pool_ratio_ s' = high_pri_pool_ratio_ s ∧
    capacity_ s' = capacity_ s ∧ usage_ s' = usage_ s.
Proof.
  intros [H _ _]. split_and!.
  - by apply (f_equal metadata_charge_policy_) in H.
  - by apply (f_equal high_pri_pool_capacity_) in H.
  - by apply (f_equal high_pri_pool_ratio_) in H.
  - by apply (f_equal capacity_) in H.
  - by apply (f_equal usage_) in H.
Qed.
Lemma list_frame_total s s' l : list_frame s s' → total s' l = total s l.
Proof. intros Hf. apply total_same; [apply Hf|by apply list_frame_policy]. Qed.
Lemma list_frame_tc s s' a : list_frame s s' → tc s' a = tc s a.
Proof. intros Hf. apply tc_same; [apply Hf|by apply list_frame_policy]. Qed.
Lemma list_frame_allocated s s' a : list_frame s s' → allocated s a → allocated s' a.
Proof. intros [_ Hc _]. unfold allocated. by rewrite Hc. Qed.

(** The neighbours of a position of the circle. *)
Lemma split_last (x : list nat) z : ∃ x' p, z :: x = x' ++ [p] ∧ last (z :: x) = Some p.
Proof.
  destruct (exists_last (l := z :: x)) as (x' & p & E); [done|]. exists x', p. split; [done|].
  by rewrite E, last_snoc.
Qed.
Lemma split_head (y : list nat) z : ∃ n y', y ++ [z] = n :: y'.
Proof. destruct y as [|n y]; [by exists z, []|by exists n, (y ++ [z])]. Qed.

Lemma circle_nodup l : NoDup (lru_head :: l) →
  NoDup (removelast (lru_head :: l ++ [lru_head])) ∧ NoDup (tail (lru_head :: l ++ [lru_head])).
Proof.
  intros Hnd. split.
  - change (lru_head :: l ++ [lru_head]) with ((lru_head :: l) ++ [lru_head]). by rewrite removelast_last.
  - cbn [tail]. rewrite NoDup_cons in Hnd. destruct Hnd as [Hh Hnd].
    apply NoDup_app. split_and!; [done| |apply NoDup_singleton]. intros a Ha ->%list_elem_of_singleton. done.
Qed.

(** The pointer surgery shared by removals: [a] between [p] and [n]. *)
Lemma unlink_links s s' x a y :
  links (nxt s) (prv s) (lru_head :: (x ++ a :: y) ++ [lru_head]) → NoDup (lru_head :: x ++ a :: y) →
  ∀ p n, nxt s a = Some n → prv s a = Some p →
  (∀ b, nxt s' b = upd (upd (nxt s) p (Some n)) a None b) → (∀ b, prv s' b = upd (upd (prv s) n (Some p)) a None b) →
  links (nxt s') (prv s') (lru_head :: (x ++ y) ++ [lru_head]).
Proof.
  intros Hl Hnd p n Hn Hp Hn' Hp'. destruct (circle_nodup _ Hnd) as [Hi Ht].
  destruct (split_last x lru_head) as (x' & p' & Ex & _). destruct (split_head y lru_head) as (n' & y' & Ey).
  assert (∀ z, lru_head :: (x ++ z) ++ [lru_head] = x' ++ p' :: z ++ [lru_head]) as Ec.
  { intros z. rewrite app_comm_cons, app_comm_cons, Ex, <- !app_assoc. done. }
  rewrite Ec in *. simpl in Hl, Hi, Ht. rewrite Ey in *.
  assert (nxt s a = Some n' ∧ prv s a = Some p') as [Hn2 Hp2].
  { apply links_app in Hl as [_ Hl]. cbn [links] in Hl. naive_solver. }
  assert (n' = n) as -> by congruence. assert (p' = p) as -> by congruence.
  assert (n ≠ a ∧ p ≠ a) as [Hna Hpa].
  { rewrite removelast_app in Hi by done. change (removelast (p :: a :: n :: y')) with (p :: a :: removelast (n :: y')) in Hi.
    apply NoDup_app in Hi as (_ & _ & Hi). rewrite !NoDup_cons in Hi. split; [|set_solver].
    intros ->. destruct x' as [|d x']; cbn [app tail] in Ht; [rewrite !NoDup_cons in Ht; set_solver|].
    apply NoDup_app in Ht as (_ & _ & Ht). rewrite !NoDup_cons in Ht. set_solver. }
  apply (links_remove (nxt s) (prv s) _ _ x' p a n y'); try done.
  - rewrite Hn'. unfold upd. by rewrite decide_False, decide_True by done.
  - rewrite Hp'. unfold upd. by rewrite decide_False, decide_True by done.
  - intros b Hb1 Hb2. rewrite Hn'. unfold upd. by rewrite !decide_False by done.
  - intros b Hb1 Hb2. rewrite Hp'. unfold upd. by rewrite !decide_False by done.
Qed.

(** Likewise for insertions: [a] between [p], the last of [x], and [n]. *)
Lemma link_links s s' x a y p n :
  links (nxt s) (prv s) (lru_head :: (x ++ y) ++ [lru_head]) → NoDup (lru_head :: x ++ y) →
  a ∉ lru_head :: x ++ y → last (lru_head :: x) = Some p → nxt s p = Some n →
  (∀ b, nxt s' b = upd (upd (nxt s) a (Some n)) p (Some a) b) →
  (∀ b, prv s' b = upd (upd (prv s) a (Some p)) n (Some a) b) →
  links (nxt s') (prv s') (lru_head :: (x ++ a :: y) ++ [lru_head]).
Proof.
  intros Hl Hnd Ha Hp Hn Hn' Hp'. destruct (circle_nodup _ Hnd) as [Hi Ht].
  destruct (split_last x lru_head) as (x' & p' & Ex & Hp2). destruct (split_head y lru_head) as (n' & y' & Ey).
  assert (p' = p) as -> by congruence.
  assert (∀ z, lru_head :: (x ++ z) ++ [lru_head] = x' ++ p :: z ++ [lru_head]) as Ec.
  { intros z. rewrite app_comm_cons, app_comm_cons, Ex, <- !app_assoc. done. }
  rewrite Ec in *. simpl. rewrite Ey in *.
  assert (a ∉ x' ++ p :: n' :: y') as Ha'.
  { rewrite <- Ey, <- (Ec y). set_solver. }
  assert (nxt s p = Some n') as Hn2. { apply links_app in Hl as [_ Hl]. cbn [links] in Hl. naive_solver. }
  assert (n' = n) as -> by congruence.
  assert (a ≠ p ∧ a ≠ n) as [Hap Han] by set_solver.
  apply (links_insert (nxt s) (prv s)); try done.
  - rewrite Hn'. unfold upd. by rewrite decide_True.
  - rewrite Hn'. unfold upd. by rewrite decide_False, decide_True.
  - rewrite Hp'. unfold upd. by rewrite decide_True.
  - rewrite Hp'. unfold upd. by rewrite decide_False, decide_True.
  - intros b Hb1 Hb2. rewrite Hn'. unfold upd. by rewrite !decide_False by done.
  - intros b Hb1 Hb2. rewrite Hp'. unfold upd. by rewrite !decide_False by done.
Qed.

(** Where an element of the circle points. *)
Lemma circle_links s x a y :
  links (nxt s) (prv s) (lru_head :: (x ++ a :: y) ++ [lru_head]) →
  prv s a = last (lru_head :: x) ∧ nxt s a = head (y ++ [lru_head]).
Proof.
  intros Hl. destruct (split_last x lru_head) as (x' & p & Ex & ->). destruct (split_head y lru_head) as (n & y' & Ey).
  rewrite app_comm_cons, app_comm_cons, Ex, <- !app_assoc in Hl. simpl in Hl. rewrite Ey in *.
  apply links_app in Hl as [_ Hl]. cbn [links] in Hl. simpl. naive_solver.
Qed.
Lemma circle_head s l :
  links (nxt s) (prv s) (lru_head :: l ++ [lru_head]) →
  nxt s lru_head = head (l ++ [lru_head]) ∧ prv s lru_head = last (lru_head :: l).
Proof.
  intros Hl. split.
  - destruct (split_head l lru_head) as (n & y' & Ey). rewrite Ey in *. by destruct Hl as (? & _).
  - destruct (split_last l lru_head) as (x' & p & Ex & ->).
    rewrite app_comm_cons, Ex, <- app_assoc in Hl. apply links_app in Hl as [_ Hl]. cbn [app links] in Hl. naive_solver.
Qed.

(** ** LRU_Remove *)

Definition drop_entry (a : nat) (l : list nat) : list nat := filter (λ b, b ≠ a) l.

Lemma drop_entry_notin a l : a ∉ l → drop_entry a l = l.
Proof.
  intros Ha. induction l as [|b l IH]; [done|]. unfold drop_entry. rewrite filter_cons_True by set_solver.
  f_equal. apply IH. set_solver.
Qed.
Lemma drop_entry_middle a x y : NoDup (x ++ a :: y) → drop_entry a (x ++ a :: y) = x ++ y.
Proof.
  intros Hnd. apply NoDup_app in Hnd as (_ & Hd & Hy). apply NoDup_cons in Hy as [Hy _].
  unfold drop_entry. rewrite filter_app, filter_cons_False by naive_solver.
  f_equal; apply drop_entry_notin; [|done]. intros Hx. by apply (Hd _ Hx); left.
Qed.
Lemma drop_entry_app a x y : drop_entry a (x ++ y) = drop_entry a x ++ drop_entry a y.
Proof. apply filter_app. Qed.
Lemma elem_of_drop_entry a b l : b ∈ drop_entry a l ↔ b ≠ a ∧ b ∈ l.
Proof. unfold drop_entry. by rewrite list_elem_of_filter. Qed.
Lemma drop_entry_total s a l : NoDup l → a ∈ l → total s l = tc s a + total s (drop_entry a l).
Proof.
  intros Hnd Ha. apply list_elem_of_split in Ha as (x & y & ->). rewrite drop_entry_middle by done.
  rewrite !total_app. simpl. lia.
Qed.
Lemma drop_entry_perm a l : NoDup l → a ∈ l → l ≡ₚ a :: drop_entry a l.
Proof.
  intros Hnd Ha. apply list_elem_of_split in Ha as (x & y & ->). rewrite drop_entry_middle by done.
  by rewrite <- Permutation_middle.
Qed.

Lemma u64_sub x y : 0 ≤ y ≤ x → x < 2 ^ 64 → u64 (x - y) = x - y.
Proof. intros. apply wrap_small. unfold in_range. lia. Qed.
Lemma u64_add x y : 0 ≤ x → 0 ≤ y → x + y < 2 ^ 64 → u64 (x + y) = x + y.
Proof. intros. apply wrap_small. unfold in_range. lia. Qed.

Lemma split_pools lo hi a :
  NoDup (lru_head :: lo ++ hi) → a ∈ lo ++ hi →
  ∃ x y, lo ++ hi = x ++ a :: y ∧
    (if bool_decide (last (lru_head :: lo) = Some a) then last (lru_head :: x) else last (lru_head :: lo))
      = last (lru_head :: drop_entry a lo).
Proof.
  intros [Hh Hnd]%NoDup_cons Ha. apply NoDup_app in Hnd as Hnd'. destruct Hnd' as (Hlo & Hd & Hhi).
  apply elem_of_app in Ha as [Ha|Ha]; apply list_elem_of_split in Ha as Hs; destruct Hs as (x & y & E).
  - exists x, (y ++ hi). rewrite E, <- app_assoc. split; [done|]. rewrite E in Hlo.
    rewrite drop_entry_middle by done. destruct y as [|z y _] using rev_ind.
    + rewrite app_nil_r, app_comm_cons, last_snoc. by rewrite bool_decide_eq_true_2.
    + rewrite (app_comm_cons y [z] a), !app_assoc, !app_comm_cons, !last_snoc.
      rewrite bool_decide_eq_false_2; [done|]. intros [= ->].
      apply NoDup_app in Hlo as (_ & _ & Hlo). apply NoDup_cons in Hlo as [Hlo _]. set_solver.
  - exists (lo ++ x), y. rewrite E, <- app_assoc. split; [done|].
    rewrite drop_entry_notin by (intros Hc; by apply (Hd a)). rewrite bool_decide_eq_false_2; [done|].
    intros Hl. apply last_Some_elem_of in Hl. apply elem_of_cons in Hl as [->|Hl]; [set_solver|by apply (Hd a)].
Qed.

Lemma LRU_Remove_wp s lo hi a Q :
  list_rep s lo hi → a ∈ lo ++ hi →
  (∀ s', list_frame s s' → list_rep s' (drop_entry a lo) (drop_entry a hi) →
     lru_usage_ s' = u64 (lru_usage_ s - tc s a) → Q tt s') →
  wp (LRU_Remove (Some a)) Q s.
Proof.
  intros [Hl Hnd Hal Hlow Hlo Hhi Hpool Hbd Hr] Ha HQ.
  assert (NoDup (lo ++ hi)) as Hnd1 by (by apply NoDup_cons in Hnd as [_ ?]).
  assert (allocated s a) as Haa by (apply Hal; by right).
  destruct (split_pools lo hi a Hnd Ha) as (x & y & E & Hlast).
  rewrite E in Hl. destruct (circle_links _ _ _ _ Hl) as [Hprv Hnxt].
  destruct (split_last x lru_head) as (x' & p & Ex & Hp). rewrite Hp in Hprv.
  destruct (split_head y lru_head) as (n & y' & Ey). rewrite Ey in Hnxt. simpl in Hnxt.
  assert (n ∈ lru_head :: lo ++ hi) as Hnin.
  { rewrite E. assert (n ∈ y ++ [lru_head]) by (rewrite Ey; left). set_solver. }
  assert (p ∈ lru_head :: lo ++ hi) as Hpin.
  { rewrite E. assert (p ∈ lru_head :: x) by (rewrite Ex; set_solver). set_solver. }
  assert (a ≠ n) as Han.
  { intros <-. rewrite E in Hnd, Hnd1. apply NoDup_cons in Hnd as [Hh _].
    destruct y as [|d y]; simplify_eq; [set_solver|]. apply NoDup_app in Hnd1 as (_ & _ & Hn).
    rewrite !NoDup_cons in Hn. set_solver. }
  assert (a ≠ lru_head) as Hah by (intros ->; apply NoDup_cons in Hnd as [? _]; done).
  (* the low-priority pointer steps back if it is the entry *)
  unfold LRU_Remove. apply wp_bind, wp_get, wp_bind.
  set (low' := if bool_decide (lru_low_pri_ s = Some a) then Some p else lru_low_pri_ s).
  assert (∀ K, wp K Q (set_low_pri low' s) →
    wp (if bool_decide (lru_low_pri_ s = Some a) then h ← load (Some a); put (set_low_pri (prev h)) else skip)
      (λ _ s', wp K Q s') s) as Hstart.
  { intros K HK. subst low'. case_bool_decide as Hc.
    - apply wp_bind. apply (wp_load_links _ _ _ Haa). intros h _ _ Hh. apply wp_put. by rewrite Hh, Hprv.
    - apply wp_skip. by destruct s. }
  apply Hstart. clear Hstart. set (s0 := set_low_pri low' s).
  apply wp_bind, (wp_load_links s0 a); [done|]. intros h0 _ Hh0 Hh0'.
  rewrite Hh0, Hh0'. change (nxt s0 a) with (nxt s a). change (prv s0 a) with (prv s a). rewrite Hprv, Hnxt.
  apply wp_bind, wp_set_prev; [by apply Hal|]. intros s1 H1.
  assert (allocated s1 a) as Haa1 by (by eapply heap_step_allocated).
  apply wp_bind, (wp_load_links s1 a); [done|]. intros h1 _ Hh1 Hh1'. rewrite Hh1, Hh1'.
  rewrite (hs_nxt _ _ _ _ _ H1), (hs_prv _ _ _ _ _ H1). unfold upd at 1. rewrite (decide_False (P := a = n)) by done.
  change (nxt s0 a) with (nxt s a). change (prv s0 a) with (prv s a). rewrite Hprv, Hnxt.
  apply wp_bind, wp_set_next; [eapply heap_step_allocated; [done|by apply Hal]|]. intros s2 H2.
  apply wp_bind, wp_clear_links; [by eapply heap_step_allocated|]. intros s3 H3.
  pose proof (heap_step_trans _ _ _ _ _ _ _ _ _ H1 (heap_step_trans _ _ _ _ _ _ _ _ _ H2 H3)) as H03.
  destruct (heap_step_fields _ _ _ _ _ H03) as (F1 & F2 & F3 & F4 & F5 & F6 & F7).
  assert (∀ b, in_pool s3 b = in_pool s b) as Fp.
  { intros b. rewrite (hs_pool _ _ _ _ _ H3), (hs_pool _ _ _ _ _ H2), (hs_pool _ _ _ _ _ H1). done. }
  assert (list_frame s s3) as Hf03.
  { destruct H03 as [_ Hc Hx _ _ _]. split; [exact F7|exact Hc|exact Hx]. }
  assert (allocated s3 a) as Haa3 by (eapply list_frame_allocated; done).
  apply wp_bind, wp_charge_of; [done|]. rewrite (list_frame_tc s s3 a Hf03).
  apply wp_bind, wp_put, wp_bind. destruct (allocated_heap s3 a Haa3) as (h3 & Hh3 & _).
  apply (wp_load a h3); [exact Hh3|].
  assert (InHighPriPool h3 = in_pool s a) as Hip.
  { rewrite <- Fp. unfold in_pool. by rewrite Hh3. }
  assert (tc s a ≤ total s (lo ++ hi)) as Htot.
  { rewrite (drop_entry_total s a (lo ++ hi)) by done. pose proof (total_nonneg s (drop_entry a (lo ++ hi))). lia. }
  assert (links (nxt s3) (prv s3) (lru_head :: (drop_entry a lo ++ drop_entry a hi) ++ [lru_head])) as Hlinks.
  { rewrite <- drop_entry_app, E, drop_entry_middle by (by rewrite <- E).
    eapply (unlink_links s s3 x a y); [done|by rewrite <- E|done|done|..]; intros b.
    - rewrite (hs_nxt _ _ _ _ _ H3). unfold upd. destruct (decide (b = a)); [done|].
      rewrite (hs_nxt _ _ _ _ _ H2). unfold upd. destruct (decide (b = p)); [done|]. apply (hs_nxt _ _ _ _ _ H1).
    - rewrite (hs_prv _ _ _ _ _ H3). unfold upd. destruct (decide (b = a)); [done|].
      rewrite (hs_prv _ _ _ _ _ H2). apply (hs_prv _ _ _ _ _ H1). }
  assert (NoDup (lru_head :: drop_entry a lo ++ drop_entry a hi)) as Hnd'.
  { rewrite <- drop_entry_app. apply NoDup_cons in Hnd as [Hh _]. apply NoDup_cons. split.
    - rewrite elem_of_drop_entry. naive_solver.
    - by apply NoDup_filter. }
  assert (lru_low_pri_ s3 = last (lru_head :: drop_entry a lo)) as Hlow'.
  { rewrite F1. change (lru_low_pri_ s0) with low'. subst low'. by rewrite <- Hp, Hlow. }
  assert (∀ s4, list_frame s s4 → links (nxt s4) (prv s4) (lru_head :: (drop_entry a lo ++ drop_entry a hi) ++ [lru_head]) →
    (∀ b, in_pool s4 b = in_pool s b) → lru_low_pri_ s4 = lru_low_pri_ s3 →
    high_pri_pool_usage_ s4 = total s (drop_entry a hi) → lru_usage_ s4 = u64 (lru_usage_ s - tc s a) → Q tt s4) as Hfin.
  { intros s4 Hf Hlk Hp4 Hlo4 Hpu Hlu. apply HQ; [done| |done]. split.
    - exact Hlk.
    - exact Hnd'.
    - intros b Hb. apply (list_frame_allocated s); [done|]. apply Hal. rewrite <- drop_entry_app in Hb.
      apply elem_of_cons in Hb as [->|Hb]; [by left|]. apply elem_of_drop_entry in Hb as [_ Hb]. by right.
    - by rewrite Hlo4.
    - intros b [_ Hb]%elem_of_drop_entry. rewrite Hp4. by apply Hlo.
    - intros b [_ Hb]%elem_of_drop_entry. rewrite Hp4. by apply Hhi.
    - by rewrite Hpu, (list_frame_total s s4).
    - rewrite (list_frame_total s s4) by done. destruct (decide (a ∈ hi)) as [Hh|Hh].
      + apply NoDup_app in Hnd1 as (_ & _ & Hnd1). rewrite (drop_entry_total s a hi) in Hbd by done.
        pose proof (tc_nonneg s a). lia.
      + by rewrite drop_entry_notin.
    - destruct (list_frame_policy _ _ Hf) as (_ & -> & _). done. }
  clear HQ. apply NoDup_app in Hnd1 as (_ & Hdis & Hndhi).
  assert (∀ f, list_frame s3 (f s3) → list_frame s (f s3)) as Htr by (intros; by eapply list_frame_trans).
  apply elem_of_app in Ha as [Ha|Ha].
  - rewrite Hip, (Hlo a Ha). apply wp_skip, Hfin; try done.
    + by apply (Htr (λ s, set_lru_usage _ s)).
    + rewrite drop_entry_notin by (by apply Hdis). cbn [high_pri_pool_usage_ set_lru_usage]. by rewrite F3.
    + cbn [lru_usage_ set_lru_usage]. by rewrite F2.
  - rewrite Hip, (Hhi a Ha). apply wp_put, Hfin; try done.
    + by apply (Htr (λ s, set_pool_usage _ (set_lru_usage _ s))).
    + cbn [high_pri_pool_usage_ set_lru_usage set_pool_usage]. rewrite F3. change (high_pri_pool_usage_ s0) with (high_pri_pool_usage_ s).
      rewrite Hpool, (drop_entry_total s a hi) by done. pose proof (tc_nonneg s a). pose proof (total_nonneg s (drop_entry a hi)).
      rewrite (drop_entry_total s a hi) in Hbd by done. rewrite u64_sub by lia. lia.
    + cbn [lru_usage_ set_lru_usage set_pool_usage]. by rewrite F2.
Qed.

(** ** MaintainPoolSize *)

Lemma circle_next_of_last s x y p :
  links (nxt s) (prv s) (lru_head :: (x ++ y) ++ [lru_head]) → last (lru_head :: x) = Some p →
  nxt s p = head (y ++ [lru_head]).
Proof.
  intros Hl Hp. destruct (split_last x lru_head) as (x' & p' & Ex & Hp'). rewrite Hp in Hp'. injection Hp' as <-.
  destruct (split_head y lru_head) as (n & y' & Ey).
  rewrite <- app_assoc, app_comm_cons, Ex, <- app_assoc, Ey in Hl. rewrite Ey.
  apply links_app in Hl as [_ Hl]. cbn [app links] in Hl. naive_solver.
Qed.

Lemma last_in x p : last (lru_head :: x) = Some p → p ∈ lru_head :: x.
Proof. apply last_Some_elem_of. Qed.

(** A step of the loop: the oldest high-priority entry changes pools. *)
Lemma demote_rep s s' lo b hi :
  list_rep s lo (b :: hi) → list_frame s s' →
  (∀ x, nxt s' x = nxt s x) → (∀ x, prv s' x = prv s x) →
  (∀ x, in_pool s' x = if decide (x = b) then false else in_pool s x) →
  lru_low_pri_ s' = Some b → high_pri_pool_usage_ s' = u64 (high_pri_pool_usage_ s - tc s b) →
  list_rep s' (lo ++ [b]) hi.
Proof.
  intros [Hl Hnd Hal Hlow Hlo Hhi Hpool Hbd Hr] Hf Hn Hp Hip Hlo' Hpu.
  assert (lru_head :: (lo ++ [b]) ++ hi = lru_head :: lo ++ b :: hi) as E by (by rewrite <- app_assoc).
  split.
  - rewrite <- (app_assoc lo [b] hi). change ([b] ++ hi) with (b :: hi). apply (links_frame (nxt s) (prv s)); [by intros|by intros|done].
  - by rewrite E.
  - rewrite E. intros x Hx. apply (list_frame_allocated s); auto.
  - by rewrite Hlo', app_comm_cons, last_snoc.
  - intros x Hx. rewrite Hip. destruct (decide (x = b)) as [->|]; [done|]. apply Hlo. set_solver.
  - intros x Hx. rewrite Hip, decide_False; [apply Hhi; by right|].
    intros ->. apply NoDup_cons in Hnd as [_ Hnd]. apply NoDup_app in Hnd as (_ & _ & Hnd).
    by apply NoDup_cons in Hnd as [? _].
  - rewrite Hpu, Hpool, (list_frame_total s s') by done. simpl in *.
    pose proof (tc_nonneg s b). pose proof (total_nonneg s hi). rewrite u64_sub by lia. lia.
  - rewrite (list_frame_total s s') by done. simpl in Hbd. pose proof (tc_nonneg s b). lia.
  - destruct (list_frame_policy _ _ Hf) as (_ & -> & _). done.
Qed.

Lemma maintain_pool_wp fuel s lo hi Q :
  list_rep s lo hi → (length hi < fuel)%nat →
  (∀ s' h1 h2, list_frame s s' → hi = h1 ++ h2 → list_rep s' (lo ++ h1) h2 → lru_usage_ s' = lru_usage_ s →
     double_lt (high_pri_pool_capacity_ s') (double_of (high_pri_pool_usage_ s')) = false → Q tt s') →
  wp (maintain_pool fuel) Q s.
Proof.
  revert s lo hi. induction fuel as [|fuel IH]; intros s lo hi Hrep Hfuel HQ; [lia|]. cbn [maintain_pool].
  apply wp_bind, wp_get. destruct (double_lt _ _) eqn:Eover.
  2: { apply wp_skip. apply (HQ s [] hi); try done. by rewrite app_nil_r. }
  destruct hi as [|b hi].
  { pose proof (lr_pool _ _ _ Hrep) as Hz. simpl in Hz. rewrite Hz in Eover. by rewrite (lr_ratio _ _ _ Hrep) in Eover. }
  pose proof Hrep as [Hl Hnd Hal Hlow Hlo Hhi Hpool Hbd Hr].
  destruct (split_last lo lru_head) as (lo' & p & Elo & Hp).
  assert (allocated s p) as Hap by (apply Hal; pose proof (last_in _ _ Hp); set_solver).
  rewrite Hlow, Hp. apply wp_bind, (wp_load_links s p); [done|]. intros low _ Hlown _.
  rewrite Hlown, (circle_next_of_last s lo (b :: hi) p Hl Hp). cbn [app head].
  apply wp_bind, wp_put. set (s1 := set_low_pri (Some b) s).
  assert (allocated s1 b) as Hab by (apply Hal; set_solver).
  apply wp_bind, (wp_set_pool s1 b false); [done|]. intros s2 H2.
  destruct (heap_step_fields _ _ _ _ _ H2) as (F1 & F2 & F3 & F4 & F5 & F6 & F7).
  assert (list_frame s s2) as Hf2.
  { destruct H2 as [_ Hc Hx _ _ _]. split; [exact F7|exact Hc|exact Hx]. }
  apply wp_bind, wp_charge_of; [by eapply list_frame_allocated|]. rewrite (list_frame_tc s s2) by done.
  apply wp_bind, wp_put. set (s3 := set_pool_usage _ s2).
  assert (list_frame s s3) as Hf3 by (eapply list_frame_trans; [exact Hf2|by split]).
  apply (IH s3 (lo ++ [b]) hi).
  - apply (demote_rep s s3 lo b hi); try done.
    + apply (hs_nxt _ _ _ _ _ H2).
    + apply (hs_prv _ _ _ _ _ H2).
    + apply (hs_pool _ _ _ _ _ H2).
    + cbn [high_pri_pool_usage_ s3 set_pool_usage]. by rewrite F3.
  - simpl in Hfuel. lia.
  - intros s' h1 h2 Hf' -> Hrep' Hu He. apply (HQ s' (b :: h1) h2); [by eapply list_frame_trans|done| | |done].
    + by rewrite <- app_assoc in Hrep'.
    + rewrite Hu. exact F2.
Qed.

Lemma rep_fits s lo hi : list_rep s lo hi → (length (lo ++ hi) < size (heap s))%nat.
Proof.
  intros Hrep. pose proof (lr_nodup _ _ _ Hrep) as Hnd.
  enough (length (lru_head :: lo ++ hi) ≤ size (heap s))%nat by (simpl in *; lia).
  rewrite <- (size_dom (D := gset nat)), <- (size_list_to_set (C := gset nat) (lru_head :: lo ++ hi)) by done.
  apply subseteq_size. intros a Ha. apply elem_of_list_to_set in Ha.
  destruct (lr_alloc _ _ _ Hrep a Ha) as [c Hc]. apply cores_Some in Hc as (h & Hh & _). by apply elem_of_dom_2 in Hh.
Qed.

Lemma MaintainPoolSize_wp s lo hi Q :
  list_rep s lo hi →
  (∀ s' h1 h2, list_frame s s' → hi = h1 ++ h2 → list_rep s' (lo ++ h1) h2 → lru_usage_ s' = lru_usage_ s →
     double_lt (high_pri_pool_capacity_ s') (double_of (high_pri_pool_usage_ s')) = false → Q tt s') →
  wp MaintainPoolSize Q s.
Proof.
  intros Hrep HQ. unfold MaintainPoolSize. apply wp_bind, wp_get.
  eapply maintain_pool_wp; [done| |done]. pose proof (rep_fits _ _ _ Hrep) as H. rewrite length_app in H. lia.
Qed.

(** ** LRU_Insert *)

Definition goes_high (s : Shard) (h : LRUHandle) : bool :=
  double_lt zero_double (high_pri_pool_ratio_ s) && (IsHighPri h || HasHit h).

(** Entries that were looked up or have high priority enter as the newest of
    the list, pushing older high-priority ones over to the low pool; others
    enter as the newest of the low pool. *)
Lemma LRU_Insert_wp s lo hi a h Q :
  list_rep s lo hi → heap s !! a = Some h → a ∉ lru_head :: lo ++ hi → total s (lo ++ hi) + tc s a < 2 ^ 64 →
  (∀ s' lo' hi', list_frame s s' → list_rep s' lo' hi' →
     (if goes_high s h then ∃ h1, lo' = lo ++ h1 ∧ hi ++ [a] = h1 ++ hi' else lo' = lo ++ [a] ∧ hi' = hi) →
     lru_usage_ s' = u64 (lru_usage_ s + tc s a) → Q tt s') →
  wp (LRU_Insert (Some a)) Q s.
Proof.
  intros Hrep Ha Hna Hbd2 HQ. pose proof Hrep as [Hl Hnd Hal Hlow Hlo Hhi Hpool Hbd Hr].
  assert (allocated s a) as Haa by (eexists; by apply cores_lookup).
  assert (tc s a ≤ 2 ^ 64) as Htc by (rewrite total_app in Hbd2; pose proof (total_nonneg s lo); pose proof (total_nonneg s hi); lia).
  unfold LRU_Insert. apply wp_bind, wp_charge_of; [done|]. apply wp_bind, wp_get, wp_bind, (wp_load a h); [done|].
  apply wp_bind. fold (goes_high s h). rewrite total_app in Hbd2. pose proof (total_nonneg s lo) as Hz1. pose proof (total_nonneg s hi) as Hz2. pose proof (tc_nonneg s a) as Hz3.
  assert (allocated s lru_head) as Hah by (apply Hal; left).
  assert (a ≠ lru_head) as Hanh by set_solver.
  destruct (goes_high s h).
  - destruct (split_last (lo ++ hi) lru_head) as (l' & p & El & Hp).
    assert (allocated s p) as Hap by (apply Hal; apply last_in in Hp; done).
    apply wp_bind, wp_set_next; [done|]. intros s1 H1.
    apply wp_bind, (wp_load_links s1 lru_head); [by eapply heap_step_allocated|]. intros h1 _ _ Hh1. rewrite Hh1.
    rewrite (hs_prv _ _ _ _ _ H1). destruct (circle_head _ _ Hl) as [_ ->]. rewrite Hp.
    apply wp_bind, wp_set_prev; [by eapply heap_step_allocated|]. intros s2 H2.
    apply wp_bind, wp_set_next; [eauto using heap_step_allocated|]. intros s3 H3.
    apply wp_bind, (wp_set_prev s3 lru_head); [eauto using heap_step_allocated|]. intros s4 H4.
    apply wp_bind, (wp_set_pool s4 a true); [eauto using heap_step_allocated|]. intros s5 H5.
    pose proof (heap_step_trans _ _ _ _ _ _ _ _ _ (heap_step_trans _ _ _ _ _ _ _ _ _ H1 H2)
      (heap_step_trans _ _ _ _ _ _ _ _ _ H3 (heap_step_trans _ _ _ _ _ _ _ _ _ H4 H5))) as H05.
    destruct (heap_step_fields _ _ _ _ _ H05) as (F1 & F2 & F3 & F4 & F5 & F6 & F7).
    assert (list_frame s s5) as Hf5 by (by eapply heap_step_frame).
    apply wp_bind, wp_put. set (s6 := set_pool_usage _ s5).
    assert (list_frame s s6) as Hf6 by (eapply list_frame_trans; [exact Hf5|by split]).
    apply (MaintainPoolSize_wp s6 lo (hi ++ [a])).
    + split.
      * rewrite app_assoc. apply (link_links s s6 (lo ++ hi) a [] p lru_head); rewrite ?app_nil_r; try done.
        -- rewrite (circle_next_of_last s (lo ++ hi) [] p); [done|by rewrite app_nil_r|done].
        -- intros b. change (nxt s6 b) with (nxt s5 b). rewrite (hs_nxt _ _ _ _ _ H5), (hs_nxt _ _ _ _ _ H4), (hs_nxt _ _ _ _ _ H3).
           unfold upd. destruct (decide (b = p)); [done|]. rewrite (hs_nxt _ _ _ _ _ H2). apply (hs_nxt _ _ _ _ _ H1).
        -- intros b. change (prv s6 b) with (prv s5 b). rewrite (hs_prv _ _ _ _ _ H5), (hs_prv _ _ _ _ _ H4).
           unfold upd. destruct (decide (b = lru_head)); [done|]. rewrite (hs_prv _ _ _ _ _ H3), (hs_prv _ _ _ _ _ H2).
           unfold upd. destruct (decide (b = a)); [done|]. apply (hs_prv _ _ _ _ _ H1).
      * rewrite app_assoc, app_comm_cons. apply NoDup_app. split_and!; [done| |apply NoDup_singleton].
        intros b Hb ->%list_elem_of_singleton. done.
      * intros b Hb. apply (list_frame_allocated s); [done|].
        rewrite app_assoc, app_comm_cons in Hb. apply elem_of_app in Hb as [Hb| ->%list_elem_of_singleton]; auto.
      * change (lru_low_pri_ s6) with (lru_low_pri_ s5). by rewrite F1.
      * intros b Hb. change (in_pool s6 b) with (in_pool s5 b). rewrite (hs_pool _ _ _ _ _ H5).
        rewrite decide_False by set_solver. rewrite (hs_pool _ _ _ _ _ H4), (hs_pool _ _ _ _ _ H3), (hs_pool _ _ _ _ _ H2), (hs_pool _ _ _ _ _ H1). auto.
      * intros b Hb. change (in_pool s6 b) with (in_pool s5 b). rewrite (hs_pool _ _ _ _ _ H5).
        destruct (decide (b = a)); [done|]. rewrite (hs_pool _ _ _ _ _ H4), (hs_pool _ _ _ _ _ H3), (hs_pool _ _ _ _ _ H2), (hs_pool _ _ _ _ _ H1).
        apply Hhi. set_solver.
      * rewrite (list_frame_total s s6) by done. cbn [high_pri_pool_usage_ s6 set_pool_usage].
        rewrite F3, Hpool, total_app. simpl. rewrite u64_add by lia. lia.
      * rewrite (list_frame_total s s6), total_app by done. simpl. lia.
      * change (high_pri_pool_capacity_ s6) with (high_pri_pool_capacity_ s5). by rewrite F4.
    + intros s7 h1' h2' Hf7 Eh Hrep7 Hu7 _. apply wp_put. apply (HQ _ (lo ++ h1') h2').
      * eapply list_frame_trans; [exact Hf6|]. eapply list_frame_trans; [exact Hf7|]. by split.
      * destruct Hrep7. by split.
      * by exists h1'.
      * cbn [lru_usage_ set_lru_usage]. rewrite Hu7. change (lru_usage_ s6) with (lru_usage_ s5). by rewrite F2.
  - destruct (split_last lo lru_head) as (l' & p & El & Hp).
    assert (allocated s p) as Hap by (apply Hal; apply last_in in Hp; set_solver).
    assert (p ∈ lru_head :: lo ++ hi) as Hpin by (apply last_in in Hp; set_solver).
    rewrite Hlow, Hp. apply wp_bind, (wp_load_links s p); [done|]. intros low _ Hn _.
    pose proof (circle_next_of_last s lo hi p Hl Hp) as Hnp. rewrite Hn, Hnp.
    destruct (split_head hi lru_head) as (n & y' & Ey). rewrite Ey in *. cbn [head] in *.
    assert (allocated s n) as Han.
    { apply Hal. assert (n ∈ hi ++ [lru_head]) by (rewrite Ey; left). set_solver. }
    apply wp_bind, wp_set_next; [done|]. intros s1 H1.
    apply wp_bind, wp_set_prev; [eauto using heap_step_allocated|]. intros s2 H2.
    apply wp_bind, wp_set_next; [eauto using heap_step_allocated|]. intros s3 H3.
    apply wp_bind, wp_set_prev; [eauto using heap_step_allocated|]. intros s4 H4.
    apply wp_bind, (wp_set_pool s4 a false); [eauto using heap_step_allocated|]. intros s5 H5.
    pose proof (heap_step_trans _ _ _ _ _ _ _ _ _ (heap_step_trans _ _ _ _ _ _ _ _ _ H1 H2)
      (heap_step_trans _ _ _ _ _ _ _ _ _ H3 (heap_step_trans _ _ _ _ _ _ _ _ _ H4 H5))) as H05.
    destruct (heap_step_fields _ _ _ _ _ H05) as (F1 & F2 & F3 & F4 & F5 & F6 & F7).
    assert (list_frame s s5) as Hf5 by (by eapply heap_step_frame).
    apply wp_put, wp_put. set (s7 := set_lru_usage _ _).
    assert (list_frame s s7) as Hf7 by (eapply list_frame_trans; [exact Hf5|by split]).
    apply (HQ s7 (lo ++ [a]) hi); [done| |done|].
    + assert ((lo ++ [a]) ++ hi = lo ++ a :: hi) as Eapp by (by rewrite <- app_assoc).
      split; rewrite ?Eapp.
      * apply (link_links s s7 lo a hi p n); try done.
        -- intros b. change (nxt s7 b) with (nxt s5 b). rewrite (hs_nxt _ _ _ _ _ H5), (hs_nxt _ _ _ _ _ H4), (hs_nxt _ _ _ _ _ H3).
           unfold upd. destruct (decide (b = p)); [done|]. rewrite (hs_nxt _ _ _ _ _ H2). apply (hs_nxt _ _ _ _ _ H1).
        -- intros b. change (prv s7 b) with (prv s5 b). rewrite (hs_prv _ _ _ _ _ H5), (hs_prv _ _ _ _ _ H4).
           unfold upd. destruct (decide (b = n)); [done|]. rewrite (hs_prv _ _ _ _ _ H3), (hs_prv _ _ _ _ _ H2).
           unfold upd. destruct (decide (b = a)); [done|]. apply (hs_prv _ _ _ _ _ H1).
      * rewrite <- Permutation_middle. rewrite NoDup_cons in Hnd. destruct Hnd as [Hh Hnd].
        rewrite !NoDup_cons. split_and!; [set_solver|set_solver|done].
      * intros b Hb. apply (list_frame_allocated s); [done|].
        assert (b = a ∨ b ∈ lru_head :: lo ++ hi) as [->|?] by set_solver; auto.
      * change (lru_low_pri_ s7) with (Some a). by rewrite app_comm_cons, last_snoc.
      * intros b Hb. change (in_pool s7 b) with (in_pool s5 b). rewrite (hs_pool _ _ _ _ _ H5).
        destruct (decide (b = a)); [done|]. rewrite (hs_pool _ _ _ _ _ H4), (hs_pool _ _ _ _ _ H3), (hs_pool _ _ _ _ _ H2), (hs_pool _ _ _ _ _ H1).
        apply Hlo. set_solver.
      * intros b Hb. change (in_pool s7 b) with (in_pool s5 b). rewrite (hs_pool _ _ _ _ _ H5).
        rewrite decide_False by set_solver. rewrite (hs_pool _ _ _ _ _ H4), (hs_pool _ _ _ _ _ H3), (hs_pool _ _ _ _ _ H2), (hs_pool _ _ _ _ _ H1). auto.
      * rewrite (list_frame_total s s7) by done. change (high_pri_pool_usage_ s7) with (high_pri_pool_usage_ s5). by rewrite F3.
      * by rewrite (list_frame_total s s7).
      * change (high_pri_pool_capacity_ s7) with (high_pri_pool_capacity_ s5). by rewrite F4.
    + subst s7. cbn [lru_usage_ set_lru_usage set_low_pri]. by rewrite F2.
Qed.
