(* ===== verification/LRUCacheCorrect.v ===== *)
(** * The LRU block cache: correctness of the shard

    The invariant of a shard, the operations' effects on it, and the theorems:
    no operation on valid handles is undefined, usage is accounted exactly,
    eviction takes the shortest prefix of the LRU order, and the table serves
    what was inserted. *)
From Stdlib Require Import SpecFloat.
From S2P Require Import Prelude Status LRUCache LRUTable LRUList.

(** ** What the representations read of an address *)

Definition ident (s : Shard) (b : nat) : option (bytes * Z * Z) := (λ c, (hkey c, hash c, charge c)) <$> cores s !! b.
Definition agree (s s' : Shard) (b : nat) : Prop :=
  nxt s' b = nxt s b ∧ prv s' b = prv s b ∧ nxh s' b = nxh s b ∧ in_pool s' b = in_pool s b ∧ ident s' b = ident s b.

Lemma ident_tc s s' b :
  ident s' b = ident s b → metadata_charge_policy_ s' = metadata_charge_policy_ s → tc s' b = tc s b.
Proof.
  unfold ident, tc. intros Hi ->. destruct (cores s' !! b), (cores s !! b); simpl in *; try done.
  unfold CalcTotalCharge. by simplify_eq/=; destruct (metadata_charge_policy_ s); congruence.
Qed.
Lemma ident_total s s' l :
  (∀ b, b ∈ l → ident s' b = ident s b) → metadata_charge_policy_ s' = metadata_charge_policy_ s →
  total s' l = total s l.
Proof.
  intros Hi Hp. induction l as [|b l IH]; [done|]. simpl. rewrite (ident_tc s s' b), IH; [done|..|done].
  - intros. apply Hi. by right.
  - apply Hi. left.
Qed.
Lemma ident_allocated s s' b : ident s' b = ident s b → allocated s b → allocated s' b.
Proof. unfold ident, allocated. intros Hi [c Hc]. rewrite Hc in Hi. by destruct (cores s' !! b). Qed.

Lemma list_rep_agree s s' lo hi :
  (∀ b, b ∈ lru_head :: lo ++ hi → agree s s' b) →
  lru_low_pri_ s' = lru_low_pri_ s → high_pri_pool_usage_ s' = high_pri_pool_usage_ s →
  high_pri_pool_capacity_ s' = high_pri_pool_capacity_ s → metadata_charge_policy_ s' = metadata_charge_policy_ s →
  list_rep s lo hi → list_rep s' lo hi.
Proof.
  intros Ha Hlow Hpu Hpc Hpol [H1 H2 H3 H4 H5 H6 H7 H8 H9].
  assert (∀ b, b ∈ (lo ++ hi) ++ [lru_head] → b ∈ lru_head :: lo ++ hi) as Hin by set_solver.
  split; try congruence.
  - apply (links_frame (nxt s) (prv s)); [| |done].
    + change (lru_head :: (lo ++ hi) ++ [lru_head]) with ((lru_head :: lo ++ hi) ++ [lru_head]).
      rewrite removelast_last. intros a Hx. by apply Ha.
    + cbn [tail]. intros b Hx. by apply Ha, Hin.
  - intros a Hx. destruct (Ha a Hx) as (_ & _ & _ & _ & Hi). eapply ident_allocated; eauto.
  - intros a Hx. destruct (Ha a) as (_ & _ & _ & -> & _); [set_solver|auto].
  - intros a Hx. destruct (Ha a) as (_ & _ & _ & -> & _); [set_solver|auto].
  - rewrite Hpu, H7. symmetry. apply ident_total; [|done]. intros b Hb. apply Ha. set_solver.
  - rewrite (ident_total s s' hi); [done| |done]. intros b Hb. apply Ha. set_solver.
Qed.

Lemma table_rep_agree s s' chains :
  (∀ b, b ∈ concat chains → agree s s' b) → list_ s' = list_ s → length_ s' = length_ s → elems_ s' = elems_ s →
  table_rep s chains → table_rep s' chains.
Proof.
  intros Ha Hl Hn He. apply table_rep_frame; try done.
  - intros a Hx. by apply Ha.
  - intros a c Hx Hc. destruct (Ha a Hx) as (_ & _ & _ & _ & Hi). unfold ident in Hi. rewrite Hc in Hi.
    destruct (cores s' !! a) as [c'|]; simplify_eq/=. eauto.
Qed.

(** ** The invariant *)

Definition cached_at (s : Shard) (a : nat) : Prop := ∃ c, cores s !! a = Some c ∧ InCache c = true.
Definition refs_at (s : Shard) (a : nat) : Z := from_option refs 0 (cores s !! a).

(** [live]: the entries charged to the shard, in the cache or referenced;
    [limbo]: entries of the heap on their way in or out. *)
Record shard_rep (s : Shard) (live lo hi limbo : list nat) : Prop := {
  sr_alloc : ∀ a, allocated s a ↔ a ∈ lru_head :: live ++ limbo;
  sr_nodup : NoDup (lru_head :: live ++ limbo);
  sr_list : list_rep s lo hi;
  sr_table : ∃ chains, table_rep s chains ∧ ∀ a, a ∈ concat chains ↔ a ∈ live ∧ cached_at s a;
  sr_lru : ∀ a, a ∈ lo ++ hi ↔ a ∈ live ∧ cached_at s a ∧ refs_at s a = 0;
  sr_live : ∀ a, a ∈ live → 0 ≤ refs_at s a < 2 ^ 32 ∧ (cached_at s a ∨ 0 < refs_at s a);
  sr_usage : usage_ s = total s live;
  sr_lru_usage : lru_usage_ s = total s (lo ++ hi);
  sr_bound : usage_ s < 2 ^ 64;
  sr_fresh : ∀ a, allocated s a → (a < next_address s)%nat;
}.

(** What only the administration changes. *)
Definition settings (s : Shard) : Shard :=
  set_heap ∅ (set_table [] 0 0 (set_low_pri None (set_pool_usage 0 (set_lru_usage 0 (set_usage 0 s))))).

Lemma settings_fields s s' :
  settings s' = settings s →
  capacity_ s' = capacity_ s ∧ next_address s' = next_address s ∧ deleter_calls s' = deleter_calls s ∧
  strict_capacity_limit_ s' = strict_capacity_limit_ s ∧ high_pri_pool_ratio_ s' = high_pri_pool_ratio_ s ∧
  high_pri_pool_capacity_ s' = high_pri_pool_capacity_ s ∧ metadata_charge_policy_ s' = metadata_charge_policy_ s.
Proof.
  intros H. split_and!.
  - by apply (f_equal capacity_) in H.
  - by apply (f_equal next_address) in H.
  - by apply (f_equal deleter_calls) in H.
  - by apply (f_equal strict_capacity_limit_) in H.
  - by apply (f_equal high_pri_pool_ratio_) in H.
  - by apply (f_equal high_pri_pool_capacity_) in H.
  - by apply (f_equal metadata_charge_policy_) in H.
Qed.
Lemma list_frame_settings s s' : list_frame s s' → settings s' = settings s.
Proof. intros [H _ _]. by apply (f_equal (λ s, set_table [] 0 0 (set_usage 0 s))) in H. Qed.
Lemma table_frame_settings s s' : table_frame s s' → settings s' = settings s.
Proof.
  intros [H _ _ _ _].
  by apply (f_equal (λ s, set_low_pri None (set_pool_usage 0 (set_lru_usage 0 (set_usage 0 s))))) in H.
Qed.
Lemma table_frame_fields s s' :
  table_frame s s' → usage_ s' = usage_ s ∧ lru_usage_ s' = lru_usage_ s ∧ lru_low_pri_ s' = lru_low_pri_ s ∧
    high_pri_pool_usage_ s' = high_pri_pool_usage_ s.
Proof.
  intros [H _ _ _ _]. split_and!.
  - by apply (f_equal usage_) in H.
  - by apply (f_equal lru_usage_) in H.
  - by apply (f_equal lru_low_pri_) in H.
  - by apply (f_equal high_pri_pool_usage_) in H.
Qed.
Lemma list_frame_table s s' :
  list_frame s s' → list_ s' = list_ s ∧ length_ s' = length_ s ∧ elems_ s' = elems_ s ∧ usage_ s' = usage_ s.
Proof.
  intros [H _ _]. split_and!.
  - by apply (f_equal list_) in H.
  - by apply (f_equal length_) in H.
  - by apply (f_equal elems_) in H.
  - by apply (f_equal usage_) in H.
Qed.

(** A table operation keeps the list, a list operation keeps the table. *)
Lemma table_frame_list_rep s s' lo hi : table_frame s s' → list_rep s lo hi → list_rep s' lo hi.
Proof.
  intros Hf. pose proof (table_frame_fields _ _ Hf) as (_ & _ & Hl & Hp).
  pose proof (settings_fields _ _ (table_frame_settings _ _ Hf)) as (_ & _ & _ & _ & _ & Hc & Hpol).
  intros [H1 H2 H3 H4 H5 H6 H7 H8 H9]. destruct Hf as [_ Fc Fn Fp Fi].
  split; try congruence.
  - apply (links_frame (nxt s) (prv s)); auto.
  - intros a Ha. unfold allocated. rewrite Fc. by apply H3.
  - intros a Ha. rewrite Fi. auto.
  - intros a Ha. rewrite Fi. auto.
  - rewrite Hp, H7. symmetry. by apply total_same.
  - by rewrite (total_same s s').
Qed.
Lemma list_frame_table_rep s s' chains : list_frame s s' → table_rep s chains → table_rep s' chains.
Proof.
  intros Hf. pose proof (list_frame_table _ _ Hf) as (Hl & Hn & He & _). destruct Hf as [_ Fc Fx].
  apply table_rep_frame; auto. intros a c _ Hc. exists c. by rewrite Fc.
Qed.

(** ** Updates of reference counts and flags *)

Record pure_update (f : LRUHandle → LRUHandle) : Prop := {
  pu_next : ∀ h, next (f h) = next h;
  pu_prev : ∀ h, prev (f h) = prev h;
  pu_hash_link : ∀ h, next_hash (f h) = next_hash h;
  pu_pool : ∀ h, InHighPriPool (f h) = InHighPriPool h;
  pu_ident : ∀ h, hkey (f h) = hkey h ∧ hash (f h) = hash h ∧ charge (f h) = charge h;
  pu_core : ∀ h, core (f h) = f (core h);
}.

Lemma put_flag_pure k on : 0 ≤ k < 8 → k ≠ 2 → pure_update (put_flag (1 << k) on).
Proof.
  intros Hk Hne. split; try done.
  - intros h. unfold InHighPriPool, IN_HIGH_PRI_POOL. rewrite has_put_flag by lia. by rewrite decide_False by lia.
  - intros h. by apply core_put_flag.
Qed.
Lemma SetInCache_pure on : pure_update (SetInCache on).
Proof. by apply put_flag_pure. Qed.
Lemma SetHit_pure : pure_update SetHit.
Proof. by apply (put_flag_pure 3). Qed.
Lemma Ref_pure : pure_update Ref_handle.
Proof. by split. Qed.
Lemma Unref_pure : pure_update Unref_handle.
Proof. by split. Qed.
#[export] Hint Resolve SetInCache_pure SetHit_pure Ref_pure Unref_pure : rdb.

Lemma InCache_set on h : InCache (SetInCache on h) = on.
Proof. unfold InCache, SetInCache, IN_CACHE. by rewrite has_put_flag by lia. Qed.
Lemma InCache_hit h : InCache (SetHit h) = InCache h.
Proof. unfold InCache, SetHit, IN_CACHE, HAS_HIT. by rewrite has_put_flag by lia. Qed.

Lemma wp_update s a c f Q :
  pure_update f → cores s !! a = Some c →
  (∀ s', set_heap ∅ s' = set_heap ∅ s → (∀ b, agree s s' b) → cores s' = <[a := f c]> (cores s) → Q tt s') →
  wp (modify (Some a) f) Q s.
Proof.
  intros [U1 U2 U3 U4 U5 U6] Hc HQ. apply cores_Some in Hc as (h & Hh & ->). apply (wp_modify a h _ _ _ Hh).
  assert (cores (set_heap (<[a := f h]> (heap s)) s) = <[a := f (core h)]> (cores s)) as Hcs
    by (apply (cores_modify s a h f f); auto).
  apply HQ; [done| |done]. intros b. unfold agree, ident. rewrite Hcs. unfold nxt, prv, nxh, in_pool, cores.
  cbn [heap set_heap]. rewrite lookup_fmap. destruct (decide (b = a)) as [->|Hne].
  - rewrite !lookup_insert_eq, Hh. simpl. rewrite U1, U2, U3, U4. destruct (U5 (core h)) as (-> & -> & ->). done.
  - rewrite !lookup_insert_ne by done. by rewrite lookup_fmap.
Qed.

Lemma heap_only_fields s s' :
  set_heap ∅ s' = set_heap ∅ s →
  settings s' = settings s ∧ list_ s' = list_ s ∧ length_ s' = length_ s ∧ elems_ s' = elems_ s ∧
  lru_low_pri_ s' = lru_low_pri_ s ∧ high_pri_pool_usage_ s' = high_pri_pool_usage_ s ∧
  usage_ s' = usage_ s ∧ lru_usage_ s' = lru_usage_ s.
Proof.
  intros H. split_and!.
  - by apply (f_equal (λ s, set_table [] 0 0 (set_low_pri None (set_pool_usage 0 (set_lru_usage 0 (set_usage 0 s)))))) in H.
  - by apply (f_equal list_) in H.
  - by apply (f_equal length_) in H.
  - by apply (f_equal elems_) in H.
  - by apply (f_equal lru_low_pri_) in H.
  - by apply (f_equal high_pri_pool_usage_) in H.
  - by apply (f_equal usage_) in H.
  - by apply (f_equal lru_usage_) in H.
Qed.

Lemma update_reps s s' :
  set_heap ∅ s' = set_heap ∅ s → (∀ b, agree s s' b) →
  (∀ lo hi, list_rep s lo hi → list_rep s' lo hi) ∧ (∀ chains, table_rep s chains → table_rep s' chains) ∧
  (∀ l, total s' l = total s l).
Proof.
  intros Hh Ha. destruct (heap_only_fields _ _ Hh) as (Hs & Hl & Hn & He & Hlow & Hpu & _).
  destruct (settings_fields _ _ Hs) as (_ & _ & _ & _ & _ & Hpc & Hpol). split_and!.
  - intros lo hi. apply list_rep_agree; auto.
  - intros chains. apply table_rep_agree; auto.
  - intros l. apply ident_total; [|done]. intros b _. apply Ha.
Qed.

(** ** Changing the state of one entry *)

Lemma cached_other s s' b : cores s' !! b = cores s !! b → cached_at s' b ↔ cached_at s b.
Proof. unfold cached_at. by intros ->. Qed.
Lemma refs_other s s' b : cores s' !! b = cores s !! b → refs_at s' b = refs_at s b.
Proof. unfold refs_at. by intros ->. Qed.

(** The entry [a] leaves the shard: out of the table, the list and the usage. *)
Lemma shard_rep_retire s s' live lo hi limbo a lo' hi' chains' :
  shard_rep s live lo hi limbo → a ∈ live →
  settings s' = settings s → (∀ b, b ≠ a → cores s' !! b = cores s !! b) → ident s' a = ident s a →
  list_rep s' lo' hi' → (∀ b, b ∈ lo' ++ hi' ↔ b ∈ lo ++ hi ∧ b ≠ a) → lru_usage_ s' = total s (lo' ++ hi') →
  table_rep s' chains' → (∀ b, b ∈ concat chains' ↔ b ∈ live ∧ cached_at s b ∧ b ≠ a) →
  usage_ s' = usage_ s - tc s a →
  shard_rep s' (drop_entry a live) lo' hi' (limbo ++ [a]).
Proof.
  intros [R1 R2 R3 R4 R5 R6 R7 R8 R9 R10] Ha Hs Hc Hi Hlr Hlo Hlu Ht Hch Hu.
  destruct (settings_fields _ _ Hs) as (_ & Hna & _ & _ & _ & _ & Hpol).
  assert (∀ b, ident s' b = ident s b) as Hid.
  { intros b. destruct (decide (b = a)) as [->|Hne]; [done|]. unfold ident. by rewrite Hc. }
  assert (∀ b, allocated s' b ↔ allocated s b) as Hal.
  { intros b. split; apply ident_allocated; [symmetry|]; apply Hid. }
  assert (NoDup live) as Hndl by (apply NoDup_cons in R2 as [_ R2]; by apply NoDup_app in R2 as (? & _)).
  assert (lru_head :: live ++ limbo ≡ₚ lru_head :: drop_entry a live ++ limbo ++ [a]) as Hperm.
  { f_equiv. rewrite (drop_entry_perm a live) at 1 by done. simpl. rewrite app_assoc. apply Permutation_cons_append. }
  split.
  - intros b. by rewrite Hal, R1, <- Hperm.
  - by rewrite <- Hperm.
  - done.
  - exists chains'. split; [done|]. intros b. rewrite Hch, elem_of_drop_entry. split.
    + intros (? & ? & ?). split_and!; [done|done|]. rewrite (cached_other s); auto.
    + intros ((Hne & ?) & Hcb). split_and!; [done| |done]. by rewrite <- (cached_other s s' b) by auto.
  - intros b. rewrite Hlo, R5, elem_of_drop_entry. split.
    + intros ((? & ? & ?) & Hne). rewrite (cached_other s), (refs_other s) by auto. done.
    + intros ((Hne & ?) & Hcb & Hr). rewrite (cached_other s), (refs_other s) in * by auto. done.
  - intros b [Hne Hb]%elem_of_drop_entry. rewrite (cached_other s), (refs_other s) by auto. auto.
  - rewrite Hu, R7, (drop_entry_total s a live) by done. rewrite (ident_total s s'); [lia|auto|done].
  - rewrite Hlu. symmetry. apply ident_total; auto.
  - rewrite Hu. pose proof (tc_nonneg s a). lia.
  - intros b Hb. rewrite Hna. apply R10. by apply Hal.
Qed.

(** The entry [a] stays but changes its count or flags, and possibly its place
    in the list and the table. *)
Lemma shard_rep_change s s' live lo hi limbo a lo' hi' chains' :
  shard_rep s live lo hi limbo → a ∈ live →
  settings s' = settings s → (∀ b, b ≠ a → cores s' !! b = cores s !! b) → ident s' a = ident s a →
  list_rep s' lo' hi' → (∀ b, b ≠ a → b ∈ lo' ++ hi' ↔ b ∈ lo ++ hi) →
  (a ∈ lo' ++ hi' ↔ cached_at s' a ∧ refs_at s' a = 0) → lru_usage_ s' = total s (lo' ++ hi') →
  table_rep s' chains' → (∀ b, b ≠ a → b ∈ concat chains' ↔ b ∈ live ∧ cached_at s b) →
  (a ∈ concat chains' ↔ cached_at s' a) →
  0 ≤ refs_at s' a < 2 ^ 32 → cached_at s' a ∨ 0 < refs_at s' a →
  usage_ s' = usage_ s →
  shard_rep s' live lo' hi' limbo.
Proof.
  intros [R1 R2 R3 R4 R5 R6 R7 R8 R9 R10] Ha Hs Hc Hi Hlr Hlo Hloa Hlu Ht Hch Hcha Hr1 Hr2 Hu.
  destruct (settings_fields _ _ Hs) as (_ & Hna & _ & _ & _ & _ & Hpol).
  assert (∀ b, ident s' b = ident s b) as Hid.
  { intros b. destruct (decide (b = a)) as [->|Hne]; [done|]. unfold ident. by rewrite Hc. }
  assert (∀ b, allocated s' b ↔ allocated s b) as Hal.
  { intros b. split; apply ident_allocated; [symmetry|]; apply Hid. }
  split.
  - intros b. by rewrite Hal, R1.
  - done.
  - done.
  - exists chains'. split; [done|]. intros b. destruct (decide (b = a)) as [->|Hne]; [naive_solver|].
    by rewrite Hch, (cached_other s s' b) by auto.
  - intros b. destruct (decide (b = a)) as [->|Hne]; [naive_solver|].
    rewrite Hlo, R5 by done. by rewrite (cached_other s s' b), (refs_other s s' b) by auto.
  - intros b Hb. destruct (decide (b = a)) as [->|Hne]; [done|].
    rewrite (cached_other s s' b), (refs_other s s' b) by auto. auto.
  - rewrite Hu, R7. symmetry. apply ident_total; auto.
  - rewrite Hlu. symmetry. apply ident_total; auto.
  - by rewrite Hu.
  - intros b Hb. rewrite Hna. apply R10. by apply Hal.
Qed.

(** ** Eviction *)

Lemma live_allocated s live lo hi limbo a :
  shard_rep s live lo hi limbo → a ∈ live → a ≠ lru_head ∧ ∃ c, cores s !! a = Some c.
Proof.
  intros R Ha. split.
  - intros ->. pose proof (sr_nodup _ _ _ _ _ R) as Hnd. apply NoDup_cons in Hnd as [Hnd _]. set_solver.
  - apply (sr_alloc _ _ _ _ _ R). set_solver.
Qed.

(** Removing a cached entry by its own key. *)
Lemma remove_cached_wp s chains a c Q :
  table_rep s chains → a ∈ concat chains → cores s !! a = Some c →
  (∀ s' chains', table_frame s s' → table_rep s' chains' → (∀ b, b ∈ concat chains' ↔ b ∈ concat chains ∧ b ≠ a) →
     Q (Some a) s') →
  wp (table_Remove (hkey c) (hash c)) Q s.
Proof.
  intros Ht Ha Hc HQ. apply (table_Remove_wp s chains); [done|]. intros r chains' s' Hf Ht' Hans Hp.
  assert (matches s (hkey c) (hash c) a) as Hm by (by exists c).
  destruct r as [b|]; [|by destruct (Hans a Ha)]. destruct Hans as [Hb Hmb].
  rewrite (matches_unique s chains _ _ b a Ht Hb Ha Hmb Hm) in *. apply (HQ s' chains'); [done..|].
  pose proof (tr_nodup _ _ Ht) as Hnd. rewrite Hp in Hnd. simpl in Hnd. apply NoDup_cons in Hnd as [Hni _].
  intros x. rewrite Hp. simpl. split; [|set_solver]. intros Hx. split; [by right|]. congruence.
Qed.

Lemma shard_totals s live lo hi limbo :
  shard_rep s live lo hi limbo →
  NoDup live ∧ NoDup (lo ++ hi) ∧ total s (lo ++ hi) ≤ total s live ∧ ∀ a, a ∈ live → tc s a ≤ total s live.
Proof.
  intros R. pose proof (sr_nodup _ _ _ _ _ R) as Hnd. apply NoDup_cons in Hnd as [_ Hnd]. apply NoDup_app in Hnd as (Hnd & _).
  pose proof (lr_nodup _ _ _ (sr_list _ _ _ _ _ R)) as Hndl. apply NoDup_cons in Hndl as [_ Hndl].
  split_and!; [done|done| |].
  - assert (lo ++ hi ⊆+ live) as Hsub by (apply NoDup_submseteq; [done|]; intros x Hx; by apply (sr_lru _ _ _ _ _ R)).
    apply submseteq_Permutation in Hsub as [k Hk]. rewrite (total_perm s _ _ Hk), !total_app.
    pose proof (total_nonneg s k). lia.
  - intros a Ha. rewrite (drop_entry_total s a live) by done. pose proof (total_nonneg s (drop_entry a live)). lia.
Qed.

Lemma evict_oldest_wp s live lo hi limbo a Q :
  shard_rep s live lo hi limbo → a ∈ lo ++ hi →
  (∀ s', settings s' = settings s → shard_rep s' (drop_entry a live) (drop_entry a lo) (drop_entry a hi) (limbo ++ [a]) →
     usage_ s' = usage_ s - tc s a → (∃ c, cores s !! a = Some c ∧ cores s' = <[a := SetInCache false c]> (cores s)) →
     Q tt s') →
  wp (evict_oldest (Some a)) Q s.
Proof.
  intros R Ha HQ. destruct (proj1 (sr_lru _ _ _ _ _ R a) Ha) as (Hal & Hca & Hra).
  destruct (live_allocated _ _ _ _ _ _ R Hal) as [_ [c Hc]]. destruct (sr_table _ _ _ _ _ R) as (chains & Ht & Hch).
  unfold evict_oldest. apply wp_bind, (LRU_Remove_wp s lo hi); [apply R|done|].
  intros s1 Hf1 Hl1 Hu1. pose proof (list_frame_table _ _ Hf1) as (_ & _ & _ & Hus1).
  assert (cores s1 !! a = Some c) as Hc1 by (by rewrite (lf_cores _ _ Hf1)).
  pose proof Hc1 as Hc1'. apply cores_Some in Hc1' as (h1 & Hh1 & ->).
  apply wp_bind, (wp_load a h1); [done|]. apply wp_bind.
  change (hkey h1) with (hkey (core h1)). change (hash h1) with (hash (core h1)).
  eapply (remove_cached_wp s1 chains a); [by apply (list_frame_table_rep s)|by apply Hch|done|].
  intros s2 chains' Hf2 Ht2 Hch2. pose proof (table_frame_fields _ _ Hf2) as (Hus2 & Hlu2 & _).
  apply wp_bind. eapply (wp_update s2 a (core h1)); [auto with rdb|by rewrite (tf_cores _ _ Hf2)|].
  intros s3 Hh3 Ha3 Hc3. destruct (update_reps s2 s3 Hh3 Ha3) as (Hl3 & Ht3 & _).
  destruct (heap_only_fields _ _ Hh3) as (Hs3 & _ & _ & _ & _ & _ & Hus3 & Hlu3).
  assert (settings s3 = settings s) as Hset by (by rewrite Hs3, (table_frame_settings s1 s2), (list_frame_settings s s1)).
  assert (cores s3 = <[a := SetInCache false (core h1)]> (cores s)) as Hcs3
    by (by rewrite Hc3, (tf_cores _ _ Hf2), (lf_cores _ _ Hf1)).
  assert (ident s3 a = ident s a) as Hid.
  { destruct (Ha3 a) as (_ & _ & _ & _ & ->). unfold ident. by rewrite (tf_cores _ _ Hf2), (lf_cores _ _ Hf1). }
  apply wp_bind, wp_charge_of.
  { eexists. by rewrite Hcs3, lookup_insert_eq. }
  rewrite (ident_tc s s3 a Hid) by apply (settings_fields _ _ Hset).
  pose proof (sr_lru_usage _ _ _ _ _ R) as Hlu. pose proof (sr_usage _ _ _ _ _ R) as Hus. pose proof (sr_bound _ _ _ _ _ R) as Hbd.
  destruct (shard_totals _ _ _ _ _ R) as (Hnd & Hndl & Hle & Htc'). pose proof (Htc' a Hal) as Htc. clear Htc'.
  pose proof (tc_nonneg s a) as Htc0.
  assert (u64 (usage_ s3 - tc s a) = usage_ s - tc s a) as Husage.
  { rewrite Hus3, Hus2, Hus1. apply u64_sub; lia. }
  apply wp_put, HQ; [exact Hset| |done|by exists (core h1)].
  eapply (shard_rep_retire s _ live lo hi limbo a _ _ chains'); try done.
  - intros b Hb. change (cores s3 !! b = cores s !! b). by rewrite Hcs3, lookup_insert_ne.
  - apply (list_rep_agree s3); try done. apply Hl3. by apply (table_frame_list_rep s1).
  - intros b. rewrite <- drop_entry_app, elem_of_drop_entry. naive_solver.
  - change (lru_usage_ s3 = total s (drop_entry a lo ++ drop_entry a hi)).
    rewrite Hlu3, Hlu2, Hu1, Hlu, <- drop_entry_app, (drop_entry_total s a (lo ++ hi)) by done.
    pose proof (drop_entry_total s a (lo ++ hi) Hndl Ha). pose proof (total_nonneg s (drop_entry a (lo ++ hi))).
    rewrite u64_sub by lia. lia.
  - apply (table_rep_agree s3); try done. by apply Ht3.
  - intros b. rewrite Hch2, Hch. naive_solver.
Qed.

(** What a run of evictions of [v], oldest first, leaves. *)
Definition drop_entries (v l : list nat) : list nat := filter (λ b, b ∉ v) l.

Record evicted (s : Shard) (live lo hi limbo v : list nat) (s' : Shard) (lo' hi' : list nat) : Prop := {
  ev_settings : settings s' = settings s;
  ev_rep : shard_rep s' (drop_entries v live) lo' hi' (limbo ++ v);
  ev_split : lo ++ hi = v ++ lo' ++ hi';
  ev_usage : usage_ s' = usage_ s - total s v;
  ev_cores : ∀ b, cores s' !! b = if decide (b ∈ v) then SetInCache false <$> cores s !! b else cores s !! b;
}.

Lemma drop_entries_nil l : drop_entries [] l = l.
Proof. induction l as [|b l IH]; [done|]. unfold drop_entries. rewrite filter_cons_True by set_solver. by f_equal. Qed.
Lemma drop_entries_cons a v l : drop_entries (a :: v) l = drop_entries v (drop_entry a l).
Proof.
  induction l as [|b l IH]; [done|]. unfold drop_entries, drop_entry in *.
  destruct (decide (b = a)) as [->|Hne].
  - rewrite filter_cons_False by set_solver. rewrite (filter_cons_False (λ b, b ≠ a)) by naive_solver. done.
  - rewrite (filter_cons_True (λ b, b ≠ a)) by done. destruct (decide (b ∈ v)) as [Hv|Hv].
    + rewrite !filter_cons_False by set_solver. done.
    + rewrite !filter_cons_True by set_solver. by f_equal.
Qed.
Lemma elem_of_drop_entries v b l : b ∈ drop_entries v l ↔ b ∉ v ∧ b ∈ l.
Proof. unfold drop_entries. by rewrite list_elem_of_filter. Qed.

Lemma evicted_nil s live lo hi limbo : shard_rep s live lo hi limbo → evicted s live lo hi limbo [] s lo hi.
Proof. intros R. split; try done; [by rewrite drop_entries_nil, app_nil_r|simpl; lia]. Qed.

Lemma evicted_cons s live lo hi limbo a rest s1 c v s2 lo2 hi2 :
  lo ++ hi = a :: rest → NoDup (lo ++ hi) → settings s1 = settings s → usage_ s1 = usage_ s - tc s a →
  cores s !! a = Some c → cores s1 = <[a := SetInCache false c]> (cores s) →
  evicted s1 (drop_entry a live) (drop_entry a lo) (drop_entry a hi) (limbo ++ [a]) v s2 lo2 hi2 →
  evicted s live lo hi limbo (a :: v) s2 lo2 hi2 ∧ drop_entry a lo ++ drop_entry a hi = rest.
Proof.
  intros E Hnd Hs1 Hu1 Hc Hc1 [E1 E2 E3 E4 E5].
  assert (drop_entry a lo ++ drop_entry a hi = rest) as Hrest.
  { rewrite <- drop_entry_app, E. rewrite E in Hnd. apply (drop_entry_middle a []). done. }
  destruct (settings_fields _ _ Hs1) as (_ & _ & _ & _ & _ & _ & Hpol).
  assert (∀ l, total s1 l = total s l) as Htot.
  { intros l. apply ident_total; [|done]. intros b _. unfold ident. rewrite Hc1.
    destruct (decide (b = a)) as [->|]; [by rewrite lookup_insert_eq, Hc|by rewrite lookup_insert_ne]. }
  split; [|done]. split.
  - congruence.
  - by rewrite drop_entries_cons, (cons_middle a limbo v), app_assoc.
  - rewrite E. simpl. f_equal. by rewrite <- Hrest.
  - rewrite E4, Hu1, Htot. simpl. lia.
  - intros b. rewrite E5, Hc1. rewrite E, <- Hrest, E3 in Hnd. apply NoDup_cons in Hnd as [Hav _].
    destruct (decide (b = a)) as [->|Hne].
    + rewrite decide_False, decide_True by set_solver. by rewrite lookup_insert_eq, Hc.
    + rewrite lookup_insert_ne by done. destruct (decide (b ∈ v)); [rewrite decide_True by set_solver|rewrite decide_False by set_solver]; done.
Qed.

Lemma evict_loop_wp fuel s live lo hi limbo charge_ deleted Q :
  shard_rep s live lo hi limbo → (length (lo ++ hi) < fuel)%nat → 0 ≤ charge_ → usage_ s + charge_ < 2 ^ 64 →
  (∀ s' v lo' hi', evicted s live lo hi limbo v s' lo' hi' →
     lo' ++ hi' = [] ∨ usage_ s' + charge_ ≤ capacity_ s →
     (∀ v1 z v2, v = v1 ++ z :: v2 → capacity_ s < usage_ s - total s v1 + charge_) →
     Q (deleted ++ map Some v) s') →
  wp (evict_loop fuel charge_ deleted) Q s.
Proof.
  revert s live lo hi limbo deleted. induction fuel as [|fuel IH];
    intros s live lo hi limbo deleted R Hfuel Hch Hbd HQ; [lia|]. cbn [evict_loop].
  pose proof (sr_list _ _ _ _ _ R) as Hl. destruct (shard_totals _ _ _ _ _ R) as (_ & Hndl & _).
  assert (0 ≤ usage_ s) as Hu0 by (rewrite (sr_usage _ _ _ _ _ R); apply total_nonneg).
  apply wp_bind, wp_get, wp_bind, (wp_load_links s lru_head).
  { apply (lr_alloc _ _ _ Hl). left. }
  intros head _ Hn _. rewrite Hn. destruct (circle_head _ _ (lr_links _ _ _ Hl)) as [-> _].
  rewrite u64_add by lia. destruct (Z.ltb_spec (capacity_ s) (usage_ s + charge_)) as [Hfull|Hfits]; cbn [andb].
  2: { apply wp_ret. rewrite <- (app_nil_r deleted). apply (HQ s [] lo hi); [by apply evicted_nil|by right|].
       intros v1 z v2 Hv. by destruct v1. }
  destruct (lo ++ hi) as [|a rest] eqn:E; cbn [app hd_error].
  { cbn [List.head]. apply wp_ret. rewrite <- (app_nil_r deleted).
    apply (HQ s [] lo hi); [by apply evicted_nil|by left|]. intros v1 z v2 Hv. by destruct v1. }
  change (List.head (a :: rest ++ [lru_head])) with (Some a).
  assert (a ≠ lru_head) as Hah.
  { pose proof (lr_nodup _ _ _ Hl) as Hnd. rewrite E in Hnd. apply NoDup_cons in Hnd as [Hnd _]. set_solver. }
  rewrite bool_decide_eq_false_2 by (unfold lru_; congruence). cbn [negb].
  apply wp_bind. apply (evict_oldest_wp s live lo hi limbo a); [done|rewrite E; left|].
  intros s1 Hs1 R1 Hu1 (c & Hc & Hc1). destruct (settings_fields _ _ Hs1) as (Hcap & _ & _ & _ & _ & _ & Hpol).
  pose proof (tc_nonneg s a) as Htc.
  assert (drop_entry a lo ++ drop_entry a hi = rest) as Hrest.
  { rewrite <- drop_entry_app, E. apply (drop_entry_middle a []). done. }
  apply (IH s1 _ _ _ _ _ R1); [rewrite Hrest; simpl in Hfuel; lia|done|lia|].
  intros s2 v lo2 hi2 Hev Hstop Hmin. rewrite <- E in Hndl.
  destruct (evicted_cons s live lo hi limbo a rest s1 c v s2 lo2 hi2) as [Hev' _]; try done.
  rewrite <- app_assoc. apply (HQ s2 (a :: v) lo2 hi2); [done|by rewrite <- Hcap|].
  intros v1 z v2 Hv. destruct v1 as [|b v1]; simpl in *; [lia|]. injection Hv as <- ->.
  specialize (Hmin v1 z v2 eq_refl). rewrite Hcap, Hu1 in Hmin.
  rewrite (ident_total s s1) in Hmin; [lia| |done]. intros x _. unfold ident. rewrite Hc1.
  destruct (decide (x = a)) as [->|]; [by rewrite lookup_insert_eq, Hc|by rewrite lookup_insert_ne].
Qed.

Lemma EvictFromLRU_wp s live lo hi limbo charge_ Q :
  shard_rep s live lo hi limbo → 0 ≤ charge_ → usage_ s + charge_ < 2 ^ 64 →
  (∀ s' v lo' hi', evicted s live lo hi limbo v s' lo' hi' →
     lo' ++ hi' = [] ∨ usage_ s' + charge_ ≤ capacity_ s →
     (∀ v1 z v2, v = v1 ++ z :: v2 → capacity_ s < usage_ s - total s v1 + charge_) →
     Q (map Some v) s') →
  wp (EvictFromLRU charge_) Q s.
Proof.
  intros R Hch Hbd HQ. unfold EvictFromLRU. apply wp_bind, wp_get.
  apply (evict_loop_wp _ s live lo hi limbo charge_ []); [done| |done|done|done].
  pose proof (rep_fits _ _ _ (sr_list _ _ _ _ _ R)). lia.
Qed.

Lemma erase_unref_wp fuel s live lo hi limbo deleted Q :
  shard_rep s live lo hi limbo → (length (lo ++ hi) < fuel)%nat →
  (∀ s', evicted s live lo hi limbo (lo ++ hi) s' [] [] → Q (deleted ++ map Some (lo ++ hi)) s') →
  wp (erase_unref_loop fuel deleted) Q s.
Proof.
  revert s live lo hi limbo deleted. induction fuel as [|fuel IH];
    intros s live lo hi limbo deleted R Hfuel HQ; [lia|]. cbn [erase_unref_loop].
  pose proof (sr_list _ _ _ _ _ R) as Hl. destruct (shard_totals _ _ _ _ _ R) as (_ & Hndl & _).
  apply wp_bind, (wp_load_links s lru_head).
  { apply (lr_alloc _ _ _ Hl). left. }
  intros head _ Hn _. rewrite Hn. destruct (circle_head _ _ (lr_links _ _ _ Hl)) as [-> _].
  destruct (lo ++ hi) as [|a rest] eqn:E.
  { apply wp_ret. rewrite app_nil_r in HQ. rewrite <- (app_nil_r deleted). apply app_eq_nil in E as [-> ->].
    rewrite app_nil_r. apply HQ. by apply evicted_nil. }
  change (List.head ((a :: rest) ++ [lru_head])) with (Some a).
  assert (a ≠ lru_head) as Hah.
  { pose proof (lr_nodup _ _ _ Hl) as Hnd. rewrite E in Hnd. apply NoDup_cons in Hnd as [Hnd _]. set_solver. }
  rewrite bool_decide_eq_false_2 by (unfold lru_; congruence). cbn [negb].
  apply wp_bind. apply (evict_oldest_wp s live lo hi limbo a); [done|rewrite E; left|].
  intros s1 Hs1 R1 Hu1 (c & Hc & Hc1).
  assert (drop_entry a lo ++ drop_entry a hi = rest) as Hrest.
  { rewrite <- drop_entry_app, E. by apply (drop_entry_middle a []). }
  apply (IH s1 _ _ _ _ _ R1); [rewrite Hrest; simpl in Hfuel; lia|].
  rewrite Hrest. intros s2 Hev. rewrite <- E in Hndl.
  destruct (evicted_cons s live lo hi limbo a rest s1 c rest s2 [] []) as [Hev' _]; try done.
  rewrite <- app_assoc. by apply HQ.
Qed.

(** ** Freeing *)

Definition deleter_call (c : LRUHandle) : list (Z * bytes * Z) :=
  match deleter c with Some d => [(d, hkey c, value c)] | None => [] end.
Definition deleter_calls_of (s : Shard) (l : list nat) : list (Z * bytes * Z) :=
  flat_map (λ a, from_option deleter_call [] (cores s !! a)) l.

Record freed (s : Shard) (l : list nat) (s' : Shard) : Prop := {
  fr_settings : settings s' = set_freed ∅ (deleter_calls s ++ deleter_calls_of s l) (settings s);
  fr_cores : ∀ b, cores s' !! b = if decide (b ∈ l) then None else cores s !! b;
  fr_usage : usage_ s' = usage_ s;
}.

Lemma delete_wp s live lo hi limbo a Q :
  shard_rep s live lo hi limbo → a ∈ limbo →
  (∀ s', settings s' = settings s → usage_ s' = usage_ s →
     (∀ b, cores s' !! b = if decide (b = a) then None else cores s !! b) →
     shard_rep s' live lo hi (drop_entry a limbo) → Q tt s') →
  wp (delete_handle (Some a)) Q s.
Proof.
  intros R Ha HQ. pose proof R as [R1 R2 R3 R4 R5 R6 R7 R8 R9 R10].
  assert (allocated s a) as Hal by (apply R1; set_solver). destruct Hal as [c Hc].
  pose proof Hc as Hc'. apply cores_Some in Hc' as (h & Hh & ->).
  unfold wp, delete_handle. rewrite Hh. set (s2 := set_heap _ s).
  assert (∀ b, heap s2 !! b = if decide (b = a) then None else heap s !! b) as Hheap.
  { intros b. subst s2. cbn [heap set_heap]. rewrite lookup_delete. case_decide; case_decide; congruence. }
  assert (∀ b, cores s2 !! b = if decide (b = a) then None else cores s !! b) as Hcores.
  { intros b. unfold cores. rewrite !lookup_fmap, Hheap. by destruct (decide (b = a)). }
  assert (∀ b, b ≠ a → agree s s2 b) as Hag.
  { intros b Hb. unfold agree, nxt, prv, nxh, in_pool, ident. rewrite Hcores, Hheap, !decide_False by done. done. }
  apply NoDup_cons in R2 as Hnd. destruct Hnd as [Hh0 Hnd]. apply NoDup_app in Hnd as (Hndl & Hdis & Hndb).
  assert (a ∉ live) as Hlive by (intros Hx; by apply (Hdis a)).
  assert (a ≠ lru_head) as Hhead by (intros ->; set_solver).
  assert (∀ b, b ∈ live → cores s2 !! b = cores s !! b) as Hcl.
  { intros b Hb. rewrite Hcores, decide_False; [done|congruence]. }
  assert (∀ l, (∀ b, b ∈ l → b ∈ live) → total s2 l = total s l) as Htot.
  { intros l Hl. apply ident_total; [|done]. intros b Hb. apply (Hag b). intros ->. by apply Hlive, Hl. }
  apply HQ; [done|done|done|]. split.
  - intros b. unfold allocated. rewrite Hcores. destruct (decide (b = a)) as [->|Hne].
    + split; [by intros [? ?]|]. rewrite elem_of_cons, elem_of_app, elem_of_drop_entry. naive_solver.
    + fold (allocated s b). rewrite R1, !elem_of_cons, !elem_of_app, elem_of_drop_entry. naive_solver.
  - apply NoDup_cons. rewrite elem_of_app, elem_of_drop_entry. split; [set_solver|].
    apply NoDup_app. split_and!; [done| |by apply NoDup_filter].
    intros x Hx [_ Hx']%elem_of_drop_entry. by apply (Hdis x).
  - apply (list_rep_agree s); try done. intros b Hb. apply Hag. intros ->.
    apply elem_of_cons in Hb as [->|Hb]; [done|]. by apply R5 in Hb as (? & _).
  - destruct R4 as (chains & Ht & Hch). exists chains. split.
    + apply (table_rep_agree s); try done. intros b Hb. apply Hag. intros ->. by apply Hch in Hb as (? & _).
    + intros b. rewrite Hch. split; intros [Hb Hx]; (split; [done|]); by apply (cached_other s s2 b); rewrite ?Hcl.
  - intros b. rewrite R5. split; intros (Hb & Hx & Hy); (split; [done|]);
      rewrite (cached_other s s2 b), (refs_other s s2 b) in * by auto; done.
  - intros b Hb. rewrite (cached_other s s2 b), (refs_other s s2 b) by auto. auto.
  - change (usage_ s2) with (usage_ s). rewrite R7. symmetry. by apply Htot.
  - change (lru_usage_ s2) with (lru_usage_ s). rewrite R8. symmetry. apply Htot. intros b Hb. by apply R5 in Hb as (? & _).
  - done.
  - intros b Hb. apply R10. unfold allocated in *. rewrite Hcores in Hb.
    destruct (decide (b = a)); [by destruct Hb|done].
Qed.

Lemma Free_wp s live lo hi limbo a Q :
  shard_rep s live lo hi limbo → a ∈ limbo →
  (∀ s', freed s [a] s' → shard_rep s' live lo hi (drop_entry a limbo) → Q tt s') →
  wp (Free (Some a)) Q s.
Proof.
  intros R Ha HQ. assert (allocated s a) as [c Hc] by (apply (sr_alloc _ _ _ _ _ R); set_solver).
  pose proof Hc as Hc'. apply cores_Some in Hc' as (h & Hh & ->).
  unfold Free. apply wp_bind, (wp_load a h); [done|]. apply wp_bind, wp_put.
  set (calls := deleter_calls s ++ deleter_call (core h)).
  assert (match deleter h with
    | Some d => set_freed (heap s) (deleter_calls s ++ [(d, hkey h, value h)]) s | None => s end = set_freed (heap s) calls s) as ->.
  { subst calls. unfold deleter_call. change (deleter (core h)) with (deleter h). destruct (deleter h); [done|].
    rewrite app_nil_r. by destruct s. }
  assert (shard_rep (set_freed (heap s) calls s) live lo hi limbo) as R'.
  { destruct R as [R1 R2 [] (chains & [] & Hch) R5 R6 R7 R8 R9 R10]. split; try done. exists chains. by split. }
  apply (delete_wp _ live lo hi limbo a); [done..|]. intros s' Hs Hu Hcs Hr. apply HQ; [|done]. split; [|..|done].
  - rewrite Hs. unfold deleter_calls_of. simpl. by rewrite Hc, app_nil_r.
  - intros b. rewrite Hcs. destruct (decide (b = a)) as [->|]; [by rewrite decide_True by set_solver|].
    by rewrite decide_False by set_solver.
Qed.

Lemma free_all_wp l s live lo hi limbo Q :
  shard_rep s live lo hi limbo → NoDup l → (∀ a, a ∈ l → a ∈ limbo) →
  (∀ s', freed s l s' → shard_rep s' live lo hi (drop_entries l limbo) → Q tt s') →
  wp (free_all (map Some l)) Q s.
Proof.
  revert s limbo Q. induction l as [|a l IH]; intros s limbo Q R Hnd Hin HQ.
  - apply wp_skip, HQ; [|by rewrite drop_entries_nil]. split; [|done|done].
    unfold deleter_calls_of. simpl. rewrite app_nil_r. by destruct s.
  - apply NoDup_cons in Hnd as [Hal Hnd]. cbn [map free_all]. apply wp_bind.
    apply (Free_wp s live lo hi limbo a); [done|apply Hin; left|]. intros s1 [F1 F2 F3] R1.
    apply (IH s1 _ _ R1); [done| |].
    + intros b Hb. apply elem_of_drop_entry. split; [congruence|]. apply Hin. by right.
    + intros s2 [G1 G2 G3] R2. apply HQ; [|by rewrite drop_entries_cons].
      assert (deleter_calls s1 = deleter_calls s ++ deleter_calls_of s [a]) as Hd by (by apply (f_equal deleter_calls) in F1).
      assert (deleter_calls_of s1 l = deleter_calls_of s l) as Hdl.
      { clear -F2 Hal. induction l as [|b l IH]; [done|]. cbn [deleter_calls_of flat_map].
        rewrite F2, decide_False by set_solver. f_equal. apply IH. set_solver. }
      split.
      * rewrite G1, F1, Hd, Hdl. unfold settings, set_freed. simpl. f_equal. rewrite <- app_assoc. f_equal.
        unfold deleter_calls_of. simpl. by rewrite app_nil_r.
      * intros b. rewrite G2, F2. destruct (decide (b ∈ l)); [by rewrite decide_True by set_solver|].
        destruct (decide (b = a)) as [->|]; [by rewrite !decide_True by set_solver|by rewrite !decide_False by set_solver].
      * congruence.
Qed.
