(* ===== verification/LRUShard.v ===== *)
(** * The LRU block cache: the operations

    Lookup, Ref, Release, Insert, Erase and the administrative operations of
    LRUCacheShard against the invariant of LRUCacheCorrect. *)
From Stdlib Require Import SpecFloat.
From S2P Require Import Prelude Status LRUCache LRUTable LRUList LRUCacheCorrect.

(** ** The invariant between operations *)

(** The pool ratio [NewLRUCache] admits is not below zero (it can be -0.0 or
    a NaN), so neither is the pool's capacity. *)
Definition nonneg_double (d : double) : Prop :=
  match d with S754_infinity b | S754_finite b _ _ => b = false | S754_zero _ | S754_nan => True end.

Record shard_ok (s : Shard) (live lo hi : list nat) : Prop := {
  ok_rep : shard_rep s live lo hi [];
  ok_full : capacity_ s < usage_ s → lo ++ hi = [];
  ok_capacity : 0 ≤ capacity_ s;
  ok_ratio : nonneg_double (high_pri_pool_ratio_ s);
}.

Lemma nonneg_not_below d : nonneg_double d → double_lt d (double_of 0) = false.
Proof. destruct d as [[]|[]| |[] ? ?]; try done. Qed.

Lemma round_aux_nonneg m e l : nonneg_double (binary_round_aux 53 1024 false m e l).
Proof.
  unfold binary_round_aux. destruct (shr_fexp _ _ _ _ _) as [? ?]. destruct (shr_fexp _ _ _ _ _) as [r ?].
  destruct (shr_m r); [done| |done]. by destruct (_ <=? _).
Qed.
Lemma double_of_nonneg n : 0 ≤ n → nonneg_double (double_of n).
Proof.
  intros Hn. unfold double_of, binary_normalize. destruct n as [|p|p]; [done| |lia].
  unfold binary_round. destruct (shl_align _ _ _). apply round_aux_nonneg.
Qed.
Lemma double_mul_nonneg x y : nonneg_double x → nonneg_double y → nonneg_double (double_mul x y).
Proof.
  unfold double_mul, SFmul. destruct x as [[]|[]| |[] ? ?], y as [[]|[]| |[] ? ?]; try done.
  intros _ _. apply round_aux_nonneg.
Qed.
Lemma ratio_capacity r c : nonneg_double r → 0 ≤ c → double_lt (double_mul (double_of c) r) (double_of 0) = false.
Proof.
  intros Hr Hc. apply nonneg_not_below, double_mul_nonneg; [by apply double_of_nonneg|done].
Qed.

(** Results of operations as plain equations. *)
Lemma wp_run {A} (m : M A) (P : A → Shard → Prop) s : wp m P s → ∃ r s', m s = Some (r, s') ∧ P r s'.
Proof. apply wp_some. Qed.

Lemma live_cases s live lo hi a : shard_rep s live lo hi [] → allocated s a → a ≠ lru_head → a ∈ live.
Proof. intros R Ha Hne. apply (sr_alloc _ _ _ _ _ R) in Ha. rewrite app_nil_r in Ha. set_solver. Qed.

Lemma head_not_cached s live lo hi limbo a :
  shard_rep s live lo hi limbo → a ∈ live → a ≠ lru_head.
Proof. intros R Ha. by apply (live_allocated _ _ _ _ _ _ R). Qed.

(** ** Lookup and Ref *)

(** An entry with the key in the cache. *)
Definition cached (s : Shard) (key : bytes) (h : Z) (a : nat) : Prop :=
  a ≠ lru_head ∧ ∃ c, cores s !! a = Some c ∧ InCache c = true ∧ hkey c = key ∧ hash c = h.

Lemma cached_live s live lo hi key h a :
  shard_rep s live lo hi [] → cached s key h a ↔ a ∈ live ∧ cached_at s a ∧ matches s key h a.
Proof.
  intros R. unfold cached, cached_at, matches. split.
  - intros (Hne & c & Hc & Hi & Hk & Hh). split_and!; [|by eauto..].
    by apply (live_cases s live lo hi); [|eexists|].
  - intros (Ha & (c & Hc & Hi) & (c' & Hc' & Hk & Hh)). simplify_eq.
    split; [by eapply head_not_cached|]. eauto.
Qed.

Lemma refs_bound s live lo hi a c :
  shard_rep s live lo hi [] → a ∈ live → cores s !! a = Some c → 0 ≤ refs c < 2 ^ 32.
Proof. intros R Ha Hc. destruct (sr_live _ _ _ _ _ R a Ha) as [Hb _]. unfold refs_at in Hb. by rewrite Hc in Hb. Qed.

(** A referenced entry is updated in place: what Ref, the last step of Lookup,
    and a Release that is not the last have in common. *)
Lemma update_live s live lo hi limbo a c f s' :
  shard_rep s live lo hi limbo → a ∈ live → cores s !! a = Some c → a ∉ lo ++ hi →
  pure_update f → InCache (f c) = InCache c → 0 < refs (f c) < 2 ^ 32 →
  set_heap ∅ s' = set_heap ∅ s → (∀ b, agree s s' b) → cores s' = <[a := f c]> (cores s) →
  shard_rep s' live lo hi limbo.
Proof.
  intros R Ha Hc Hnl Hf Hin Hrefs Hh Hag Hcs. destruct (update_reps _ _ Hh Hag) as (Hl & Ht & _).
  destruct (heap_only_fields _ _ Hh) as (Hset & _ & _ & _ & _ & _ & Hu & Hlu).
  destruct (sr_table _ _ _ _ _ R) as (chains & Htab & Hch).
  assert (cores s' !! a = Some (f c)) as Hc' by (by rewrite Hcs, lookup_insert_eq).
  assert (cached_at s' a ↔ cached_at s a) as Hca.
  { unfold cached_at. rewrite Hc, Hc'. split; intros (x & [= <-] & Hx); eexists; (split; [done|]); congruence. }
  assert (refs_at s' a = refs (f c)) as Hra by (unfold refs_at; by rewrite Hc').
  apply (shard_rep_change s s' live lo hi limbo a lo hi chains); try done.
  - intros b Hb. by rewrite Hcs, lookup_insert_ne.
  - by destruct (Hag a) as (_ & _ & _ & _ & ?).
  - by apply Hl, R.
  - rewrite Hra. split; [done|]. intros [_ ?]. lia.
  - rewrite Hlu. apply R.
  - by apply Ht.
  - rewrite Hch, Hca. naive_solver.
  - rewrite Hra. lia.
  - right. rewrite Hra. lia.
Qed.

Lemma Ref_wp s live lo hi a c Q :
  shard_ok s live lo hi → a ≠ lru_head → cores s !! a = Some c → 0 < refs c < 2 ^ 32 - 1 →
  (∀ s', shard_ok s' live lo hi → settings s' = settings s → usage_ s' = usage_ s →
     cores s' = <[a := Ref_handle c]> (cores s) → Q true s') →
  wp (Ref (Some a)) Q s.
Proof.
  intros [R Hf Hcap Hr] Hne Hc Hrefs HQ.
  assert (a ∈ live) as Ha by (eapply live_cases; [done|by eexists|done]).
  assert (refs (Ref_handle c) = refs c + 1) as Hrc by (apply wrap_small; unfold in_range; lia).
  unfold Ref. apply wp_bind, (wp_update s a c); [auto with rdb|done|]. intros s' Hh Hag Hcs. apply wp_ret.
  destruct (heap_only_fields _ _ Hh) as (Hset & _ & _ & _ & _ & _ & Hu & _).
  destruct (settings_fields _ _ Hset) as (Hcp & _ & _ & _ & Hrt & _).
  apply HQ; try done. split; [|by rewrite Hcp, Hu|by rewrite Hcp|by rewrite Hrt].
  apply (update_live s live lo hi [] a c Ref_handle s'); try done; [|lia].
  intros Hx. apply (sr_lru _ _ _ _ _ R) in Hx as (_ & _ & Hx). unfold refs_at in Hx. rewrite Hc in Hx. simpl in Hx. lia.
Qed.

Lemma drop_entry_both a lo hi : a ∉ lo ++ hi → drop_entry a lo = lo ∧ drop_entry a hi = hi.
Proof. intros Ha. split; apply drop_entry_notin; set_solver. Qed.

(** An entry leaves the LRU list when it gets its first reference. *)
Lemma unlist_wp s live lo hi limbo a c Q :
  shard_rep s live lo hi limbo → a ∈ live → cached_at s a → cores s !! a = Some c →
  (∀ s', list_frame s s' → list_rep s' (drop_entry a lo) (drop_entry a hi) →
     lru_usage_ s' = total s (drop_entry a lo ++ drop_entry a hi) → Q tt s') →
  wp (if negb (HasRefs c) then LRU_Remove (Some a) else skip) Q s.
Proof.
  intros R Ha Hca Hc HQ. destruct (shard_totals _ _ _ _ _ R) as (_ & Hndl & Hle & _).
  destruct (sr_live _ _ _ _ _ R a Ha) as [Hrng _]. unfold refs_at in Hrng. rewrite Hc in Hrng. simpl in Hrng.
  pose proof (sr_lru_usage _ _ _ _ _ R) as Hlu. pose proof (sr_bound _ _ _ _ _ R). pose proof (sr_usage _ _ _ _ _ R).
  unfold HasRefs. destruct (Z.ltb_spec 0 (refs c)) as [Hr|Hr]; cbn [negb].
  - assert (a ∉ lo ++ hi) as Hn.
    { intros Hx. apply (sr_lru _ _ _ _ _ R) in Hx as (_ & _ & Hx). unfold refs_at in Hx. rewrite Hc in Hx. simpl in Hx. lia. }
    destruct (drop_entry_both a lo hi Hn) as [E1 E2]. rewrite E1, E2 in HQ.
    apply wp_skip, HQ; [apply list_frame_refl|apply R|done].
  - assert (a ∈ lo ++ hi) as Hin.
    { apply (sr_lru _ _ _ _ _ R). split_and!; [done|done|]. unfold refs_at. rewrite Hc. simpl. lia. }
    apply (LRU_Remove_wp s lo hi); [apply R|done|]. intros s' Hf Hl Hu. apply HQ; [done|done|].
    rewrite Hu, Hlu, <- drop_entry_app, (drop_entry_total s a (lo ++ hi)) by done.
    pose proof (drop_entry_total s a (lo ++ hi) Hndl Hin). pose proof (total_nonneg s (drop_entry a (lo ++ hi))).
    pose proof (tc_nonneg s a). rewrite u64_sub by lia. lia.
Qed.

Lemma Lookup_wp s live lo hi key h Q :
  shard_ok s live lo hi → (∀ a, refs_at s a < 2 ^ 32 - 1) →
  ((∀ a, ¬ cached s key h a) → Q None s) →
  (∀ a c s', cached s key h a → cores s !! a = Some c →
     shard_ok s' live (drop_entry a lo) (drop_entry a hi) → settings s' = settings s → usage_ s' = usage_ s →
     cores s' = <[a := SetHit (Ref_handle c)]> (cores s) → Q (Some a) s') →
  wp (Lookup key h) Q s.
Proof.
  intros [R Hf Hcap Hr] Hrefs Hnone Hsome. destruct (sr_table _ _ _ _ _ R) as (chains & Ht & Hch).
  unfold Lookup. apply wp_bind, (table_Lookup_wp s chains); [done|]. intros r Hans.
  destruct r as [a|].
  2: { apply wp_ret, Hnone. intros a Hca. apply (cached_live s live lo hi) in Hca as (Ha & Hc & Hm); [|done].
       apply (Hans a); [by apply Hch|done]. }
  destruct Hans as [Hin Hm]. apply Hch in Hin as [Ha Hca]. pose proof Hm as (c & Hc & Hk & Hh).
  assert (cached s key h a) as Hcached by (by apply (cached_live s live lo hi)).
  destruct (sr_live _ _ _ _ _ R a Ha) as [Hrng _]. specialize (Hrefs a). unfold refs_at in Hrng, Hrefs. rewrite Hc in Hrng, Hrefs. simpl in Hrng, Hrefs.
  pose proof Hc as Hc'. apply cores_Some in Hc' as (ha & Hha & ->).
  apply wp_bind, (wp_load a ha); [done|]. apply wp_bind. change (HasRefs ha) with (HasRefs (core ha)).
  apply (unlist_wp s live lo hi [] a (core ha)); [done..|]. intros s1 Hf1 Hl1 Hu1.
  pose proof (list_frame_table _ _ Hf1) as (_ & _ & _ & Hus1). pose proof (list_frame_settings _ _ Hf1) as Hset1.
  apply wp_bind, (wp_update s1 a (core ha)); [auto with rdb|by rewrite (lf_cores _ _ Hf1)|]. intros s2 Hh2 Ha2 Hc2.
  destruct (update_reps _ _ Hh2 Ha2) as (Hl2 & Ht2 & _). destruct (heap_only_fields _ _ Hh2) as (Hset2 & _ & _ & _ & _ & _ & Hus2 & Hlu2).
  apply wp_bind, (wp_update s2 a (Ref_handle (core ha))); [auto with rdb|by rewrite Hc2, lookup_insert_eq|]. intros s3 Hh3 Ha3 Hc3.
  destruct (update_reps _ _ Hh3 Ha3) as (Hl3 & Ht3 & _). destruct (heap_only_fields _ _ Hh3) as (Hset3 & _ & _ & _ & _ & _ & Hus3 & Hlu3).
  rewrite Hc2, insert_insert_eq, (lf_cores _ _ Hf1) in Hc3.
  assert (settings s3 = settings s) as Hset by congruence.
  destruct (settings_fields _ _ Hset) as (Hcp & _ & _ & _ & Hrt & _).
  change (refs (core ha)) with (refs ha) in *.
  assert (u32 (refs ha + 1) = refs ha + 1) as Hra by (apply wrap_small; unfold in_range; lia).
  change (u32 (refs ha + 1)) with (refs (Ref_handle (core ha))) in Hra.
  assert (cores s3 !! a = Some (SetHit (Ref_handle (core ha)))) as Hc3a by (by rewrite Hc3, lookup_insert_eq).
  assert (refs_at s3 a = refs ha + 1) as Hra3 by (unfold refs_at; rewrite Hc3a; done).
  assert (cached_at s3 a) as Hca3.
  { destruct Hca as (c' & Hc' & Hi). rewrite Hc in Hc'. injection Hc' as <-. exists (SetHit (Ref_handle (core ha))). split; [done|]. by rewrite InCache_hit. }
  apply wp_ret, (Hsome a (core ha)); try done; [|congruence].
  split; [| |by rewrite Hcp|by rewrite Hrt].
  2: { rewrite Hcp, Hus3, Hus2, Hus1, <- drop_entry_app. intros Hx. by rewrite (Hf Hx). }
  apply (shard_rep_change s s3 live lo hi [] a _ _ chains); try done.
  - intros b Hb. by rewrite Hc3, lookup_insert_ne.
  - destruct (Ha3 a) as (_ & _ & _ & _ & ->). destruct (Ha2 a) as (_ & _ & _ & _ & ->). unfold ident. by rewrite (lf_cores _ _ Hf1).
  - auto.
  - intros b Hb. rewrite <- drop_entry_app, elem_of_drop_entry. naive_solver.
  - rewrite <- drop_entry_app, elem_of_drop_entry, Hra3. split; [naive_solver|]. intros [_ ?]. lia.
  - congruence.
  - apply Ht3, Ht2. by apply (list_frame_table_rep s).
  - rewrite Hch. naive_solver.
  - rewrite Hra3. lia.
  - by left.
  - congruence.
Qed.

(** ** Release *)

Lemma goes_high_core s h : goes_high s (core h) = goes_high s h.
Proof.
  unfold goes_high, IsHighPri, HasHit, core, SetInHighPriPool, IS_HIGH_PRI, HAS_HIT, IN_HIGH_PRI_POOL.
  by rewrite !has_put_flag by lia.
Qed.

(** Where the entry [a] lands when it becomes evictable. *)
Definition enters (s : Shard) (c : LRUHandle) (a : nat) (lo hi lo' hi' : list nat) : Prop :=
  if goes_high s c then ∃ h1, lo' = lo ++ h1 ∧ hi ++ [a] = h1 ++ hi' else lo' = lo ++ [a] ∧ hi' = hi.

Lemma enters_elem s c a lo hi lo' hi' b :
  enters s c a lo hi lo' hi' → b ∈ lo' ++ hi' ↔ b = a ∨ b ∈ lo ++ hi.
Proof.
  unfold enters. destruct (goes_high s c).
  - intros (h1 & -> & E). rewrite <- app_assoc, <- E. set_solver.
  - intros [-> ->]. set_solver.
Qed.
Lemma enters_total s s' c a lo hi lo' hi' :
  enters s c a lo hi lo' hi' → total s' (lo' ++ hi') = total s' (lo ++ hi) + tc s' a.
Proof.
  unfold enters. destruct (goes_high s c).
  - intros (h1 & -> & E). rewrite <- app_assoc, <- E, !total_app. simpl. lia.
  - intros [-> ->]. rewrite !total_app. simpl. lia.
Qed.

Lemma Unref_refs c : 0 < refs c < 2 ^ 32 → refs (Unref_handle c) = refs c - 1.
Proof. intros H. apply wrap_small. unfold in_range. lia. Qed.

(** The entry goes: charged no more, and freed. *)
Record gone (s : Shard) (a : nat) (c : LRUHandle) (s' : Shard) : Prop := {
  go_settings : settings s' = set_freed ∅ (deleter_calls s ++ deleter_call c) (settings s);
  go_cores : ∀ b, cores s' !! b = if decide (b = a) then None else cores s !! b;
  go_usage : usage_ s' = usage_ s - tc s a;
}.

(** What Release and Erase do last with an entry nobody refers to. *)
Lemma discharge_wp s s1 live lo hi limbo a c c1 chains' lo' hi' Q :
  shard_rep s live lo hi limbo → a ∈ live → a ∉ limbo → cores s !! a = Some c →
  settings s1 = settings s → cores s1 = <[a := c1]> (cores s) → ident s1 a = ident s a → deleter_call c1 = deleter_call c →
  list_rep s1 lo' hi' → (∀ b, b ∈ lo' ++ hi' ↔ b ∈ lo ++ hi ∧ b ≠ a) → lru_usage_ s1 = total s (lo' ++ hi') →
  table_rep s1 chains' → (∀ b, b ∈ concat chains' ↔ b ∈ live ∧ cached_at s b ∧ b ≠ a) → usage_ s1 = usage_ s →
  (∀ s', gone s a c s' → shard_rep s' (drop_entry a live) lo' hi' limbo → Q tt s') →
  wp (total_charge ← charge_of (Some a);
      put (λ s, set_usage (u64 (usage_ s - total_charge)) s)) (λ _ s2, wp (Free (Some a)) Q s2) s1.
Proof.
  intros R Ha Hal Hc Hs1 Hc1 Hi1 Hd Hl Hlo Hlu Ht Hch Hu HQ.
  destruct (shard_totals _ _ _ _ _ R) as (_ & _ & _ & Htc). specialize (Htc a Ha).
  pose proof (sr_usage _ _ _ _ _ R) as Hus. pose proof (sr_bound _ _ _ _ _ R) as Hbd. pose proof (tc_nonneg s a) as Htc0.
  apply wp_bind, wp_charge_of; [eexists; by rewrite Hc1, lookup_insert_eq|].
  rewrite (ident_tc s s1 a Hi1) by apply (settings_fields _ _ Hs1).
  assert (u64 (usage_ s1 - tc s a) = usage_ s - tc s a) as E by (rewrite Hu; apply u64_sub; lia).
  apply wp_put. set (s2 := set_usage _ s1).
  assert (shard_rep s2 (drop_entry a live) lo' hi' (limbo ++ [a])) as R2.
  { apply (shard_rep_retire s s2 live lo hi limbo a lo' hi' chains'); try done.
    - intros b Hb. change (cores s1 !! b = cores s !! b). by rewrite Hc1, lookup_insert_ne.
    - by apply (list_rep_agree s1).
    - by apply (table_rep_agree s1). }
  apply (Free_wp s2 _ _ _ _ a Q R2); [set_solver|]. intros s3 [F1 F2 F3] R3.
  rewrite drop_entry_app, (drop_entry_notin a limbo) in R3 by done.
  unfold drop_entry in R3 at 2. rewrite filter_cons_False, filter_nil, app_nil_r in R3 by naive_solver.
  apply HQ; [|done]. split.
  - rewrite F1. unfold deleter_calls_of. simpl. change (cores s2) with (cores s1). rewrite Hc1, lookup_insert_eq. simpl.
    rewrite app_nil_r, Hd. f_equal; [|done]. f_equal.
    by apply (f_equal deleter_calls) in Hs1.
  - intros b. rewrite F2. change (cores s2) with (cores s1). rewrite Hc1.
    destruct (decide (b = a)) as [->|Hne]; [by rewrite decide_True by set_solver|].
    rewrite decide_False by set_solver. by rewrite lookup_insert_ne.
  - by rewrite F3.
Qed.

Lemma wp_then {A B C} (m : M A) (f : A → M B) (n : M C) Q s :
  wp (mbind f m) (λ _ s2, wp n Q s2) s → wp (mbind (λ x, mbind (λ _, n) (f x)) m) Q s.
Proof.
  unfold wp, mbind, M_bind. destruct (m s) as [[x s']|]; [|done]. by destruct (f x s') as [[y s2]|].
Qed.

Lemma Release_wp s live lo hi a c force Q :
  shard_ok s live lo hi → a ≠ lru_head → cores s !! a = Some c → 0 < refs c →
  (1 < refs c → ∀ s', shard_ok s' live lo hi → settings s' = settings s → usage_ s' = usage_ s →
     cores s' = <[a := Unref_handle c]> (cores s) → Q false s') →
  (refs c = 1 → InCache c = true → usage_ s ≤ capacity_ s → force = false →
     ∀ s' lo' hi', shard_ok s' live lo' hi' → enters s c a lo hi lo' hi' → settings s' = settings s → usage_ s' = usage_ s →
     cores s' = <[a := Unref_handle c]> (cores s) → Q false s') →
  (refs c = 1 → InCache c = false ∨ capacity_ s < usage_ s ∨ force = true →
     ∀ s', shard_ok s' (drop_entry a live) lo hi → gone s a c s' → Q true s') →
  wp (Release (Some a) force) Q s.
Proof.
  intros [R Hf Hcap Hr] Hne Hc Hrefs HQ1 HQ2 HQ3. pose proof R as [R1 R2 R3 (chains & Ht & Hch) R5 R6 R7 R8 R9 R10].
  assert (a ∈ live) as Ha by (eapply live_cases; [done|by eexists|done]).
  pose proof (refs_bound s live lo hi a c R Ha Hc) as Hrb.
  assert (refs_at s a = refs c) as Hra by (unfold refs_at; by rewrite Hc).
  assert (cached_at s a ↔ InCache c = true) as Hcc.
  { unfold cached_at. rewrite Hc. split; [by intros (? & [= <-] & ?)|eauto]. }
  assert (a ∉ lo ++ hi) as Hnl by (intros Hx; apply R5 in Hx; lia).
  pose proof (Unref_refs c ltac:(lia)) as Hur.
  unfold Release. apply wp_bind, (wp_update s a c); [auto with rdb|done|]. intros s1 Hh1 Ha1 Hc1.
  destruct (update_reps _ _ Hh1 Ha1) as (Hl1 & Ht1 & _).
  destruct (heap_only_fields _ _ Hh1) as (Hset1 & _ & _ & _ & _ & _ & Hus1 & Hlu1).
  destruct (settings_fields _ _ Hset1) as (Hcp1 & _ & _ & _ & Hrt1 & _ & Hpol1).
  assert (cores s1 !! a = Some (Unref_handle c)) as Hc1a by (by rewrite Hc1, lookup_insert_eq).
  pose proof Hc1a as Hh. apply cores_Some in Hh as (h1 & Hh1a & Eh1).
  apply wp_bind, (wp_load a h1); [done|]. apply wp_bind, wp_get.
  assert (refs h1 = refs c - 1) as Hr1 by (rewrite <- Hur, Eh1; done).
  assert (InCache h1 = InCache c) as Hi1 by (rewrite <- core_InCache, <- Eh1; done).
  assert (hkey h1 = hkey c ∧ hash h1 = hash c) as [Ek Eh] by (by rewrite <- (eq_refl : hkey (Unref_handle c) = hkey c), <- (eq_refl : hash (Unref_handle c) = hash c), Eh1).
  rewrite Hr1, Hi1, Hcp1, Hus1. destruct (Z.eqb_spec (refs c - 1) 0) as [Hlast|Hmore]; cbn [andb].
  2: { (* other references remain *)
    apply wp_bind, wp_ret. apply wp_bind, wp_skip, wp_bind, wp_skip, wp_ret.
    apply HQ1; try done; [lia|]. split; [|by rewrite Hcp1, Hus1|by rewrite Hcp1|by rewrite Hrt1].
    apply (update_live s live lo hi [] a c Unref_handle s1); auto with rdb; lia. }
  destruct (InCache c) eqn:Ein; cbn [andb].
  - pose proof (proj2 Hcc eq_refl) as Hca.
    destruct ((capacity_ s <? usage_ s) || force) eqn:Eout.
    + (* out of the cache and freed *)
      assert (a ∈ concat chains) as Hin by (by apply Hch).
      apply wp_bind, wp_bind. rewrite Ek, Eh. change (hkey c) with (hkey (Unref_handle c)). change (hash c) with (hash (Unref_handle c)).
      apply (remove_cached_wp s1 chains a); [by apply Ht1|done|done|]. intros s2 chains' Hf2 Ht2 Hch2.
      pose proof (table_frame_fields _ _ Hf2) as (Hus2 & Hlu2 & _). pose proof (table_frame_settings _ _ Hf2) as Hset2.
      apply wp_bind, (wp_update s2 a (Unref_handle c)); [auto with rdb|by rewrite (tf_cores _ _ Hf2)|]. intros s3 Hh3 Ha3 Hc3.
      destruct (update_reps _ _ Hh3 Ha3) as (Hl3 & Ht3 & _).
      destruct (heap_only_fields _ _ Hh3) as (Hset3 & _ & _ & _ & _ & _ & Hus3 & Hlu3).
      apply wp_ret. apply wp_bind. eapply wp_mono; [|intros x s4 H4; apply wp_bind; exact H4].
      apply (discharge_wp s s3 live lo hi [] a c (SetInCache false (Unref_handle c)) chains' lo hi); try done.
      * by apply not_elem_of_nil.
      * congruence.
      * by rewrite Hc3, (tf_cores _ _ Hf2), Hc1, insert_insert_eq.
      * destruct (Ha3 a) as (_ & _ & _ & _ & ->). destruct (Ha1 a) as (_ & _ & _ & _ & Hx). rewrite <- Hx.
        unfold ident. by rewrite (tf_cores _ _ Hf2).
      * apply Hl3. apply (table_frame_list_rep s1); auto.
      * intros b. split; [|naive_solver]. intros Hb. split; [done|]. by intros ->.
      * congruence.
      * auto.
      * intros b. rewrite Hch2, Hch. naive_solver.
      * congruence.
      * intros s' Hg Rg. apply wp_ret, HQ3; [lia| | |done].
        { right. apply orb_true_iff in Eout as [?%Z.ltb_lt|?]; auto. }
        pose proof Hg as [G1 _ G3]. split; [done| | |].
        -- apply (f_equal capacity_) in G1. change (capacity_ s' = capacity_ s) in G1. rewrite G1, G3. intros Hx. apply Hf.
           pose proof (tc_nonneg s a). lia.
        -- apply (f_equal capacity_) in G1. change (capacity_ s' = capacity_ s) in G1. by rewrite G1.
        -- apply (f_equal high_pri_pool_ratio_) in G1. change (high_pri_pool_ratio_ s' = high_pri_pool_ratio_ s) in G1. by rewrite G1.
    + (* back to the list *)
      apply orb_false_iff in Eout as [Eout ->]. apply Z.ltb_ge in Eout. apply wp_bind, wp_bind.
      destruct (shard_totals _ _ _ _ _ R) as (Hnd & Hndl & Hle & Htc).
      assert (total s (lo ++ hi) + tc s a ≤ total s live) as Hroom.
      { assert (a :: lo ++ hi ⊆+ live) as Hsub.
        { apply NoDup_submseteq; [by apply NoDup_cons|]. intros x [->|Hx]%elem_of_cons; [done|]. by apply R5. }
        apply submseteq_Permutation in Hsub as [k Hk]. rewrite (total_perm s _ _ Hk). simpl. rewrite !total_app.
        pose proof (total_nonneg s k). lia. }
      assert (ident s1 a = ident s a) as Hia by (by destruct (Ha1 a) as (_ & _ & _ & _ & ?)).
      assert (∀ l, total s1 l = total s l) as Htot1.
      { intros l. apply ident_total; [|done]. intros b _. by destruct (Ha1 b) as (_ & _ & _ & _ & ?). }
      apply (LRU_Insert_wp s1 lo hi a h1); [auto|done| | |].
      * intros [->|?]%elem_of_cons; done.
      * rewrite Htot1, (ident_tc s s1) by done. lia.
      * intros s2 lo' hi' Hf2 Hl2 Hent Hlu2. apply wp_ret. apply wp_bind, wp_skip, wp_bind, wp_skip, wp_ret.
        pose proof (list_frame_table _ _ Hf2) as (_ & _ & _ & Hus2). pose proof (list_frame_settings _ _ Hf2) as Hset2.
        assert (settings s2 = settings s) as Hset by congruence.
        destruct (settings_fields _ _ Hset) as (Hcp2 & _ & _ & _ & Hrt2 & _).
        assert (enters s c a lo hi lo' hi') as Hent'.
        { unfold enters. rewrite <- (goes_high_core s1 h1), <- Eh1 in Hent. unfold goes_high in *. by rewrite Hrt1 in Hent. }
        assert (cores s2 = <[a := Unref_handle c]> (cores s)) as Hc2 by (by rewrite (lf_cores _ _ Hf2)).
        assert (cores s2 !! a = Some (Unref_handle c)) as Hc2a by (by rewrite Hc2, lookup_insert_eq).
        assert (refs_at s2 a = 0) as Hra2 by (unfold refs_at; rewrite Hc2a; change (refs (Unref_handle c) = 0); lia).
        assert (cached_at s2 a) as Hca2 by (exists (Unref_handle c); done).
        apply (HQ2 ltac:(lia) eq_refl ltac:(lia) eq_refl s2 lo' hi'); try done; [|congruence].
        split; [| |by rewrite Hcp2|by rewrite Hrt2].
        2: { rewrite Hcp2, Hus2, Hus1. lia. }
        apply (shard_rep_change s s2 live lo hi [] a lo' hi' chains); try done.
        -- intros b Hb. by rewrite Hc2, lookup_insert_ne.
        -- unfold ident. rewrite (lf_cores _ _ Hf2). exact Hia.
        -- intros b Hb. rewrite (enters_elem _ _ _ _ _ _ _ b Hent'). naive_solver.
        -- rewrite (enters_elem _ _ _ _ _ _ _ a Hent'). naive_solver.
        -- rewrite Hlu2, Hlu1, (ident_tc s s1), (enters_total s s c a lo hi lo' hi'), R8 by done.
           apply u64_add; [apply total_nonneg|apply tc_nonneg|lia].
        -- apply (list_frame_table_rep s1); auto.
        -- rewrite Hch. naive_solver.
        -- rewrite Hra2. lia.
        -- by left.
        -- congruence.
  - (* erased before: freed with the last reference *)
    apply wp_bind, wp_ret. apply wp_bind. eapply wp_mono; [|intros x s4 H4; apply wp_bind; exact H4].
    assert (¬ cached_at s a) as Hnc by (rewrite Hcc; congruence).
    apply (discharge_wp s s1 live lo hi [] a c (Unref_handle c) chains lo hi); try done.
    + by apply not_elem_of_nil.
    + by destruct (Ha1 a) as (_ & _ & _ & _ & ?).
    + auto.
    + intros b. split; [|naive_solver]. intros Hb. split; [done|]. by intros ->.
    + congruence.
    + auto.
    + intros b. rewrite Hch. split; [|naive_solver]. intros [? ?]. split_and!; [done|done|]. by intros ->.
    + intros s' Hg Rg. apply wp_ret, HQ3; [lia|by left| |done].
      pose proof Hg as [G1 _ G3]. split; [done| | |].
      * apply (f_equal capacity_) in G1. change (capacity_ s' = capacity_ s) in G1. rewrite G1, G3. intros Hx. apply Hf.
        pose proof (tc_nonneg s a). lia.
      * apply (f_equal capacity_) in G1. change (capacity_ s' = capacity_ s) in G1. by rewrite G1.
      * apply (f_equal high_pri_pool_ratio_) in G1. change (high_pri_pool_ratio_ s' = high_pri_pool_ratio_ s) in G1. by rewrite G1.
Qed.

(** ** Erase *)

Lemma gone_ok s live lo hi lo' hi' a c s' :
  shard_ok s live lo hi → gone s a c s' → (lo ++ hi = [] → lo' ++ hi' = []) →
  shard_rep s' (drop_entry a live) lo' hi' [] → shard_ok s' (drop_entry a live) lo' hi'.
Proof.
  intros [_ Hf Hcap Hr] [G1 _ G3] Hsub R'.
  pose proof (f_equal capacity_ G1) as Gc. change (capacity_ s' = capacity_ s) in Gc.
  pose proof (f_equal high_pri_pool_ratio_ G1) as Gr. change (high_pri_pool_ratio_ s' = high_pri_pool_ratio_ s) in Gr.
  split; [done| |by rewrite Gc|by rewrite Gr]. rewrite Gc, G3. intros Hx. apply Hsub, Hf. pose proof (tc_nonneg s a). lia.
Qed.

Lemma Erase_wp s live lo hi key h Q :
  shard_ok s live lo hi →
  ((∀ a, ¬ cached s key h a) →
     ∀ s', shard_ok s' live lo hi → settings s' = settings s → usage_ s' = usage_ s → cores s' = cores s → Q tt s') →
  (∀ a c s', cached s key h a → cores s !! a = Some c → 0 < refs c →
     shard_ok s' live lo hi → settings s' = settings s → usage_ s' = usage_ s →
     cores s' = <[a := SetInCache false c]> (cores s) → Q tt s') →
  (∀ a c s', cached s key h a → cores s !! a = Some c → refs c = 0 →
     shard_ok s' (drop_entry a live) (drop_entry a lo) (drop_entry a hi) → gone s a c s' → Q tt s') →
  wp (Erase key h) Q s.
Proof.
  intros Hok HQ1 HQ2 HQ3. pose proof Hok as [R Hf Hcap Hr].
  pose proof R as [R1 R2 R3 (chains & Ht & Hch) R5 R6 R7 R8 R9 R10].
  unfold Erase. apply wp_bind, (table_Remove_wp s chains); [done|]. intros r chains' s1 Hf1 Ht1 Hans Hp1.
  pose proof (table_frame_fields _ _ Hf1) as (Hus1 & Hlu1 & _). pose proof (table_frame_settings _ _ Hf1) as Hset1.
  pose proof (tf_cores _ _ Hf1) as Hc1.
  destruct (settings_fields _ _ Hset1) as (Hcp1 & Hna1 & _ & _ & Hrt1 & _ & Hpol1).
  assert (∀ l, total s1 l = total s l) as Htot1 by (intros; by apply total_same).
  assert (list_rep s1 lo hi) as Hl1 by (by apply (table_frame_list_rep s)).
  destruct r as [a|].
  2: { apply wp_skip, HQ1; try done.
    { intros a Hca. apply (cached_live s live lo hi) in Hca as (Ha & Hc & Hm); [|done]. apply (Hans a); [by apply Hch|done]. }
    split; [|by rewrite Hcp1, Hus1|by rewrite Hcp1|by rewrite Hrt1].
    split; try (rewrite ?Htot1; congruence).
    - intros b. unfold allocated. rewrite Hc1. apply R1.
    - exists chains'. split; [done|]. intros b. simpl in Hp1. rewrite <- Hp1, Hch. by rewrite (cached_other s s1) by by rewrite Hc1.
    - intros b. rewrite (cached_other s s1), (refs_other s s1) by by rewrite Hc1. apply R5.
    - intros b. rewrite (cached_other s s1), (refs_other s s1) by by rewrite Hc1. apply R6.
    - intros b. unfold allocated. rewrite Hc1, Hna1. apply R10. }
  destruct Hans as [Hin Hm]. apply Hch in Hin as [Ha Hca].
  assert (cached s key h a) as Hcached by (by apply (cached_live s live lo hi)).
  pose proof Hca as (c & Hc & Hi).
  assert (∀ b, b ∈ concat chains' ↔ b ∈ live ∧ cached_at s b ∧ b ≠ a) as Hch'.
  { pose proof (tr_nodup _ _ Ht) as Hnd. rewrite Hp1 in Hnd. simpl in Hnd. apply NoDup_cons in Hnd as [Hni _].
    intros b. split.
    - intros Hb. assert (b ∈ concat chains) as Hb' by (rewrite Hp1; simpl; by right). apply Hch in Hb' as [? ?].
      split_and!; [done|done|congruence].
    - intros (Hb & Hcb & Hne). assert (b ∈ concat chains) as Hb' by (by apply Hch). rewrite Hp1 in Hb'. simpl in Hb'. set_solver. }
  apply wp_bind, (wp_update s1 a c); [auto with rdb|by rewrite Hc1|]. intros s2 Hh2 Ha2 Hc2.
  destruct (update_reps _ _ Hh2 Ha2) as (Hl2 & Ht2 & _).
  destruct (heap_only_fields _ _ Hh2) as (Hset2 & _ & _ & _ & _ & _ & Hus2 & Hlu2).
  rewrite Hc1 in Hc2. assert (settings s2 = settings s) as Hset by congruence.
  destruct (settings_fields _ _ Hset) as (Hcp2 & _ & _ & _ & Hrt2 & _ & Hpol2).
  assert (cores s2 !! a = Some (SetInCache false c)) as Hc2a by (by rewrite Hc2, lookup_insert_eq).
  assert (ident s2 a = ident s a) as Hia.
  { destruct (Ha2 a) as (_ & _ & _ & _ & ->). unfold ident. by rewrite Hc1. }
  assert (¬ cached_at s2 a) as Hnc2.
  { intros (c' & Hc' & Hx). rewrite Hc2a in Hc'. injection Hc' as <-. by rewrite InCache_set in Hx. }
  pose proof (refs_bound s live lo hi a c R Ha Hc) as Hrb.
  assert (refs_at s a = refs c) as Hra by (unfold refs_at; by rewrite Hc).
  assert (refs_at s2 a = refs c) as Hra2 by (unfold refs_at; by rewrite Hc2a).
  pose proof Hc2a as Hh. apply cores_Some in Hh as (h2 & Hh2a & Eh2).
  apply wp_bind, (wp_load a h2); [done|].
  assert (HasRefs h2 = HasRefs c) as -> by (unfold HasRefs; by rewrite (eq_refl : refs h2 = refs (core h2)), <- Eh2).
  unfold HasRefs at 1. destruct (Z.ltb_spec 0 (refs c)) as [Hpos|Hzero]; cbn [negb].
  - assert (a ∉ lo ++ hi) as Hnl by (intros Hx; apply R5 in Hx; lia).
    apply wp_skip, (HQ2 a c); try done; [|congruence]. split; [|rewrite Hcp2, Hus2, Hus1; exact Hf|by rewrite Hcp2|by rewrite Hrt2].
    apply (shard_rep_change s s2 live lo hi [] a lo hi chains'); try done.
    + intros b Hb. by rewrite Hc2, lookup_insert_ne.
    + auto.
    + rewrite Hra2. split; [done|]. intros [_ ?]. lia.
    + congruence.
    + auto.
    + intros b Hb. rewrite Hch'. naive_solver.
    + rewrite Hch'. naive_solver.
    + lia.
    + right. lia.
    + congruence.
  - assert (refs c = 0) as Hz by lia.
    destruct (shard_totals _ _ _ _ _ R) as (Hnd & Hndl & Hle & Htc).
    assert (a ∈ lo ++ hi) as Hin by (apply R5; split_and!; [done|done|lia]).
    apply wp_bind, (LRU_Remove_wp s2 lo hi); [auto|done|]. intros s3 Hf3 Hl3 Hu3.
    pose proof (list_frame_table _ _ Hf3) as (_ & _ & _ & Hus3). pose proof (list_frame_settings _ _ Hf3) as Hset3.
    apply wp_then.
    apply (discharge_wp s s3 live lo hi [] a c (SetInCache false c) chains' (drop_entry a lo) (drop_entry a hi)); try done.
    + by apply not_elem_of_nil.
    + congruence.
    + by rewrite (lf_cores _ _ Hf3).
    + unfold ident. rewrite (lf_cores _ _ Hf3). exact Hia.
    + intros b. rewrite <- drop_entry_app, elem_of_drop_entry. naive_solver.
    + rewrite Hu3, Hlu2, Hlu1, (ident_tc s s2), R8, <- drop_entry_app by done.
      pose proof (drop_entry_total s a (lo ++ hi) Hndl Hin). pose proof (total_nonneg s (drop_entry a (lo ++ hi))).
      pose proof (tc_nonneg s a). rewrite u64_sub by lia. lia.
    + apply (list_frame_table_rep s2); auto.
    + congruence.
    + intros s' Hg Rg. apply (HQ3 a c s'); try done. apply (gone_ok s live lo hi _ _ a c); [done|done| |done].
      intros E. rewrite <- drop_entry_app, E. done.
Qed.

(** ** Administration *)

(** The entries [v], oldest first, were evicted and freed. *)
Record evicted_ok (s : Shard) (v : list nat) (s' : Shard) : Prop := {
  eo_cores : ∀ b, cores s' !! b = if decide (b ∈ v) then None else cores s !! b;
  eo_usage : usage_ s' = usage_ s - total s v;
  eo_deleters : deleter_calls s' = deleter_calls s ++ deleter_calls_of s v;
}.

Lemma shard_rep_capacity s live lo hi limbo cap pc :
  shard_rep s live lo hi limbo → double_lt pc (double_of 0) = false →
  shard_rep (set_capacity cap pc s) live lo hi limbo.
Proof.
  intros [R1 R2 [L1 L2 L3 L4 L5 L6 L7 L8 L9] (chains & [T1 T2 T3 T4 T5 T6 T7] & Hch) R5 R6 R7 R8 R9 R10] Hpc.
  split; try done. exists chains. split; [|done]. by split.
Qed.
Lemma shard_rep_ratio s live lo hi limbo r pc :
  shard_rep s live lo hi limbo → double_lt pc (double_of 0) = false →
  shard_rep (set_ratio r pc s) live lo hi limbo.
Proof.
  intros [R1 R2 [L1 L2 L3 L4 L5 L6 L7 L8 L9] (chains & [T1 T2 T3 T4 T5 T6 T7] & Hch) R5 R6 R7 R8 R9 R10] Hpc.
  split; try done. exists chains. split; [|done]. by split.
Qed.
Lemma shard_rep_strict s live lo hi limbo b :
  shard_rep s live lo hi limbo → shard_rep (set_strict b s) live lo hi limbo.
Proof.
  intros [R1 R2 [L1 L2 L3 L4 L5 L6 L7 L8 L9] (chains & [T1 T2 T3 T4 T5 T6 T7] & Hch) R5 R6 R7 R8 R9 R10].
  split; try done. exists chains. split; [|done]. by split.
Qed.

Lemma evicted_free_wp s live lo hi s1 v lo' hi' Q :
  shard_rep s live lo hi [] → evicted s live lo hi [] v s1 lo' hi' →
  (∀ s', shard_rep s' (drop_entries v live) lo' hi' [] → evicted_ok s v s' →
     capacity_ s' = capacity_ s → high_pri_pool_ratio_ s' = high_pri_pool_ratio_ s → Q tt s') →
  wp (free_all (map Some v)) Q s1.
Proof.
  intros R [E1 E2 E3 E4 E5] HQ. destruct (shard_totals _ _ _ _ _ R) as (_ & Hndl & _).
  rewrite E3 in Hndl. apply NoDup_app in Hndl as (Hndv & _).
  apply (free_all_wp v s1 _ _ _ _ Q E2); [done|set_solver|]. intros s' [F1 F2 F3] R'.
  assert (drop_entries v ([] ++ v) = []) as Hnil.
  { simpl. destruct (drop_entries v v) as [|x l] eqn:Ex; [done|].
    assert (x ∈ drop_entries v v) as Hx by (rewrite Ex; left). by apply elem_of_drop_entries in Hx as [? ?]. }
  rewrite Hnil in R'. destruct (settings_fields _ _ E1) as (C1 & C2 & C3 & C4 & C5 & C6 & C7).
  apply HQ; [done| | |].
  - split.
    + intros b. rewrite F2, E5. by destruct (decide (b ∈ v)).
    + by rewrite F3.
    + apply (f_equal deleter_calls) in F1. change (deleter_calls s' = deleter_calls s1 ++ deleter_calls_of s1 v) in F1.
      rewrite F1, C3. f_equal. clear -E5. unfold deleter_calls_of.
      assert (∀ l, (∀ b, b ∈ l → b ∈ v) → flat_map (λ a, from_option deleter_call [] (cores s1 !! a)) l =
        flat_map (λ a, from_option deleter_call [] (cores s !! a)) l) as H; [|by apply H].
      induction l as [|b l IH]; intros Hl; [done|]. cbn [flat_map]. rewrite IH by (intros; apply Hl; by right).
      f_equal. rewrite E5, decide_True by (apply Hl; left). by destruct (cores s !! b).
  - apply (f_equal capacity_) in F1. change (capacity_ s' = capacity_ s1) in F1. congruence.
  - apply (f_equal high_pri_pool_ratio_) in F1. change (high_pri_pool_ratio_ s' = high_pri_pool_ratio_ s1) in F1. congruence.
Qed.

Lemma SetCapacity_wp s live lo hi c Q :
  shard_ok s live lo hi → 0 ≤ c →
  (∀ s' v lo' hi', lo ++ hi = v ++ lo' ++ hi' → shard_ok s' (drop_entries v live) lo' hi' → evicted_ok s v s' →
     capacity_ s' = c → lo' ++ hi' = [] ∨ usage_ s' ≤ c →
     (∀ v1 z v2, v = v1 ++ z :: v2 → c < usage_ s - total s v1) → Q tt s') →
  wp (SetCapacity c) Q s.
Proof.
  intros [R Hf Hcap Hr] Hc HQ. unfold SetCapacity. apply wp_bind, wp_put, wp_bind.
  set (s0 := set_capacity _ _ s).
  assert (shard_rep s0 live lo hi []) as R0 by (apply shard_rep_capacity; [done|by apply ratio_capacity]).
  assert (∀ l, total s0 l = total s l) as Htot by (intros; by apply total_same).
  apply (EvictFromLRU_wp s0 live lo hi []); [done|lia| |].
  { pose proof (sr_bound _ _ _ _ _ R). change (usage_ s0) with (usage_ s). lia. }
  intros s1 v lo' hi' Hev Hstop Hmin. apply (evicted_free_wp s0 live lo hi s1 v lo' hi'); [done|done|].
  intros s' R' [E1 E2 E3] Hcap' Hr'. change (usage_ s0) with (usage_ s) in *. rewrite Htot in E2.
  assert (usage_ s1 = usage_ s') as Hu1 by (rewrite (ev_usage _ _ _ _ _ _ _ _ _ Hev), Htot, E2; done).
  change (capacity_ s0) with c in *.
  assert (lo' ++ hi' = [] ∨ usage_ s' ≤ c) as Hstop' by (rewrite <- Hu1; destruct Hstop; [by left|right; lia]).
  apply (HQ s' v lo' hi'); try done.
  - exact (ev_split _ _ _ _ _ _ _ _ _ Hev).
  - split; [done| |by rewrite Hcap'|by rewrite Hr'].
    rewrite Hcap'. intros Hx. destruct Hstop'; [done|lia].
  - intros v1 z v2 Hv. specialize (Hmin v1 z v2 Hv). rewrite Htot in Hmin. lia.
Qed.

Lemma EraseUnRefEntries_wp s live lo hi Q :
  shard_ok s live lo hi →
  (∀ s', shard_ok s' (drop_entries (lo ++ hi) live) [] [] → evicted_ok s (lo ++ hi) s' →
     capacity_ s' = capacity_ s → Q tt s') →
  wp EraseUnRefEntries Q s.
Proof.
  intros [R Hf Hcap Hr] HQ. unfold EraseUnRefEntries. apply wp_bind, wp_get, wp_bind.
  apply (erase_unref_wp _ s live lo hi [] []); [done| |].
  { pose proof (rep_fits _ _ _ (sr_list _ _ _ _ _ R)). lia. }
  intros s1 Hev. apply (evicted_free_wp s live lo hi s1 (lo ++ hi) [] []); [done|done|].
  intros s' R' E Hcap' Hr'. apply HQ; [|done|done]. split; [done|done|by rewrite Hcap'|by rewrite Hr'].
Qed.

Lemma SetHighPriorityPoolRatio_wp s live lo hi r Q :
  shard_ok s live lo hi → nonneg_double r →
  (∀ s' lo' hi', lo' ++ hi' = lo ++ hi → shard_ok s' live lo' hi' → cores s' = cores s → usage_ s' = usage_ s →
     double_lt (high_pri_pool_capacity_ s') (double_of (high_pri_pool_usage_ s')) = false → Q tt s') →
  wp (SetHighPriorityPoolRatio r) Q s.
Proof.
  intros [R Hf Hcap Hr] Hr' HQ. unfold SetHighPriorityPoolRatio. apply wp_bind, wp_put. set (s0 := set_ratio _ _ s).
  assert (shard_rep s0 live lo hi []) as R0 by (apply shard_rep_ratio; [done|by apply ratio_capacity]).
  apply (MaintainPoolSize_wp s0 lo hi); [apply R0|]. intros s' h1 h2 Hf' -> Hl' Hu' Hd.
  pose proof (list_frame_settings _ _ Hf') as Hset. destruct (settings_fields _ _ Hset) as (C1 & C2 & _ & _ & C5 & _ & C7).
  pose proof (list_frame_table _ _ Hf') as (_ & _ & _ & Hus). pose proof (lf_cores _ _ Hf') as Hc.
  assert (∀ l, total s' l = total s0 l) as Htot by (intros; by apply total_same).
  apply (HQ s' (lo ++ h1) h2); try done; [by rewrite app_assoc|].
  destruct R0 as [R1 R2 R3 (chains & Ht & Hch) R5 R6 R7 R8 R9 R10].
  split; [|rewrite C1, Hus, <- app_assoc; exact Hf|by rewrite C1|by rewrite C5].
  split.
  - intros b. unfold allocated. rewrite Hc. apply R1.
  - done.
  - done.
  - exists chains. split; [by apply (list_frame_table_rep s0)|]. intros b. rewrite Hch. by rewrite (cached_other s0 s') by by rewrite Hc.
  - intros b. rewrite <- app_assoc, (cached_other s0 s' b), (refs_other s0 s' b) by by rewrite Hc. apply R5.
  - intros b Hb. rewrite (cached_other s0 s' b), (refs_other s0 s' b) by by rewrite Hc. by apply R6.
  - by rewrite Hus, Htot.
  - by rewrite Hu', Htot, <- app_assoc.
  - by rewrite Hus.
  - intros b. unfold allocated. rewrite Hc, C2. apply R10.
Qed.

Lemma SetStrictCapacityLimit_wp s live lo hi b Q :
  shard_ok s live lo hi → (shard_ok (set_strict b s) live lo hi → Q tt (set_strict b s)) →
  wp (SetStrictCapacityLimit b) Q s.
Proof.
  intros [R Hf Hcap Hr] HQ. apply wp_put, HQ. split; [by apply shard_rep_strict|done|done|done].
Qed.
