(* ===== verification/LRUInsert.v ===== *)
(** * The LRU block cache: Insert

    Insertion passes through states in which the new entry is charged but not
    yet listed or referenced, and a replaced one is listed but no longer in the
    table. The part of the invariant that holds throughout is [shard_core]. *)
From Stdlib Require Import SpecFloat.
From S2P Require Import Prelude Status LRUCache LRUTable LRUList LRUCacheCorrect LRUShard.

(** ** The structural part of the invariant *)

Record shard_core (s : Shard) (live lo hi limbo tab : list nat) : Prop := {
  sc_alloc : ∀ a, allocated s a ↔ a ∈ lru_head :: live ++ limbo;
  sc_nodup : NoDup (lru_head :: live ++ limbo);
  sc_list : list_rep s lo hi;
  sc_table : ∃ chains, table_rep s chains ∧ concat chains ≡ₚ tab;
  sc_sub : ∀ a, a ∈ lo ++ hi → a ∈ live;
  sc_usage : usage_ s = total s live;
  sc_lru_usage : lru_usage_ s = total s (lo ++ hi);
  sc_bound : usage_ s < 2 ^ 64;
  sc_fresh : ∀ a, allocated s a → (a < next_address s)%nat;
}.

Lemma core_of_rep s live lo hi limbo :
  shard_rep s live lo hi limbo →
  ∃ tab, shard_core s live lo hi limbo tab ∧ NoDup tab ∧ (∀ a, a ∈ tab ↔ a ∈ live ∧ cached_at s a).
Proof.
  intros [R1 R2 R3 (chains & Ht & Hch) R5 R6 R7 R8 R9 R10]. exists (concat chains). split; [|split; [apply Ht|done]].
  split; try done; [by exists chains|]. intros a Ha. by apply R5.
Qed.

Lemma rep_of_core s live lo hi limbo tab :
  shard_core s live lo hi limbo tab →
  (∀ a, a ∈ tab ↔ a ∈ live ∧ cached_at s a) →
  (∀ a, a ∈ lo ++ hi ↔ a ∈ live ∧ cached_at s a ∧ refs_at s a = 0) →
  (∀ a, a ∈ live → 0 ≤ refs_at s a < 2 ^ 32 ∧ (cached_at s a ∨ 0 < refs_at s a)) →
  shard_rep s live lo hi limbo.
Proof.
  intros [C1 C2 C3 (chains & Ht & Hp) C5 C6 C7 C8 C9] Htab Hlru Hlive. split; try done.
  exists chains. split; [done|]. intros a. by rewrite Hp.
Qed.

Lemma core_totals s live lo hi limbo tab :
  shard_core s live lo hi limbo tab →
  NoDup live ∧ NoDup (lo ++ hi) ∧ total s (lo ++ hi) ≤ total s live ∧ (∀ a, a ∈ live → tc s a ≤ total s live) ∧
  (∀ a, a ∈ live → a ∉ lo ++ hi → total s (lo ++ hi) + tc s a ≤ total s live).
Proof.
  intros [C1 C2 C3 C4 C5 C6 C7 C8 C9]. apply NoDup_cons in C2 as [_ C2]. apply NoDup_app in C2 as (Hnd & _).
  pose proof (lr_nodup _ _ _ C3) as Hndl. apply NoDup_cons in Hndl as [_ Hndl].
  assert (∀ l, NoDup l → (∀ x, x ∈ l → x ∈ live) → total s l ≤ total s live) as Hsub.
  { intros l Hl Hin. assert (l ⊆+ live) as Hs by (by apply NoDup_submseteq).
    apply submseteq_Permutation in Hs as [k Hk]. rewrite (total_perm s _ _ Hk), total_app. pose proof (total_nonneg s k). lia. }
  split_and!; [done|done|by apply Hsub| |].
  - intros a Ha. pose proof (Hsub [a] (NoDup_singleton a)) as H. simpl in H. rewrite Z.add_0_r in H. apply H.
    by intros x ->%list_elem_of_singleton.
  - intros a Ha Hn. pose proof (Hsub (a :: lo ++ hi)) as H. simpl in H. rewrite Z.add_comm. apply H; [by apply NoDup_cons|].
    intros x [->|Hx]%elem_of_cons; auto.
Qed.

(** ** The steps *)

Lemma core_update s live lo hi limbo tab a c f Q :
  shard_core s live lo hi limbo tab → pure_update f → cores s !! a = Some c →
  (∀ s', shard_core s' live lo hi limbo tab → cores s' = <[a := f c]> (cores s) → settings s' = settings s →
     usage_ s' = usage_ s → Q tt s') →
  wp (modify (Some a) f) Q s.
Proof.
  intros [C1 C2 C3 (chains & Ht & Hp) C5 C6 C7 C8 C9] Hf Hc HQ. apply (wp_update s a c); [done|done|]. intros s' Hh Hag Hcs.
  destruct (update_reps _ _ Hh Hag) as (Hl & Htb & Htot).
  destruct (heap_only_fields _ _ Hh) as (Hset & _ & _ & _ & _ & _ & Hu & Hlu).
  destruct (settings_fields _ _ Hset) as (_ & Hna & _).
  assert (∀ b, allocated s' b ↔ allocated s b) as Hal.
  { intros b. destruct (Hag b) as (_ & _ & _ & _ & Hi). split; by apply ident_allocated. }
  apply HQ; try done. split; try done.
  - intros b. by rewrite Hal.
  - auto.
  - exists chains. auto.
  - by rewrite Hu, Htot.
  - by rewrite Hlu, Htot.
  - by rewrite Hu.
  - intros b. rewrite Hal, Hna. apply C9.
Qed.

Lemma core_table_Insert s live lo hi limbo tab a c Q :
  shard_core s live lo hi limbo tab → a ∈ limbo → a ∉ tab → cores s !! a = Some c → Z.of_nat (length tab) + 1 < 2 ^ 30 →
  (∀ old rest s', shard_core s' live lo hi limbo (a :: rest) → tab ≡ₚ option_list old ++ rest →
     (match old with
      | Some o => matches s (hkey c) (hash c) o
      | None => ∀ b, b ∈ tab → ¬ matches s (hkey c) (hash c) b
      end) →
     cores s' = cores s → settings s' = settings s → usage_ s' = usage_ s → Q old s') →
  wp (table_Insert (Some a)) Q s.
Proof.
  intros [C1 C2 C3 (chains & Ht & Hp) C5 C6 C7 C8 C9] Ha Hna Hc Hlen HQ.
  pose proof Hc as Hh. apply cores_Some in Hh as (h & Hh & ->).
  apply (table_Insert_wp s chains a h); [done|done|by rewrite Hp| |].
  { rewrite (tr_elems _ _ Ht), Hp. done. }
  intros old rest chains' s' Hf Ht' Hans Hp1 Hp2.
  pose proof (table_frame_fields _ _ Hf) as (Hu & Hlu & _). pose proof (table_frame_settings _ _ Hf) as Hset.
  destruct (settings_fields _ _ Hset) as (_ & Hnx & _ & _ & _ & _ & Hpol). pose proof (tf_cores _ _ Hf) as Hcs.
  assert (∀ l, total s' l = total s l) as Htot by (intros; by apply total_same).
  apply (HQ old rest); try done.
  - split; try done.
    + intros b. unfold allocated. rewrite Hcs. apply C1.
    + by apply (table_frame_list_rep s).
    + by exists chains'.
    + by rewrite Hu, Htot.
    + by rewrite Hlu, Htot.
    + by rewrite Hu.
    + intros b. unfold allocated. rewrite Hcs, Hnx. apply C9.
  - by rewrite <- Hp1.
  - destruct old as [o|]; [apply Hans|]. intros b Hb. apply Hans. by rewrite Hp.
Qed.

Lemma core_charge s live lo hi limbo tab a :
  shard_core s live lo hi limbo tab → a ∈ limbo → usage_ s + tc s a < 2 ^ 64 →
  shard_core (set_usage (u64 (usage_ s + tc s a)) s) (a :: live) lo hi (drop_entry a limbo) tab.
Proof.
  intros [C1 C2 C3 (chains & Ht & Hp) C5 C6 C7 C8 C9] Ha Hb.
  pose proof C2 as Hnd. apply NoDup_cons in Hnd as [_ Hnd]. apply NoDup_app in Hnd as (_ & _ & Hnd).
  assert (lru_head :: live ++ limbo ≡ₚ lru_head :: (a :: live) ++ drop_entry a limbo) as Hperm.
  { f_equiv. rewrite (drop_entry_perm a limbo) at 1 by done. simpl. by rewrite Permutation_middle. }
  pose proof (tc_nonneg s a). pose proof (total_nonneg s live). rewrite u64_add by lia.
  split; try done.
  - intros b. rewrite <- Hperm. apply C1.
  - by rewrite <- Hperm.
  - by apply (list_rep_agree s).
  - exists chains. split; [by apply (table_rep_agree s)|done].
  - intros b Hb'. right. auto.
  - cbn [usage_ set_usage total foldr]. change (tc (set_usage _ s) a) with (tc s a).
    change (foldr _ 0 live) with (total s live). lia.
Qed.

Lemma core_uncharge s live lo hi limbo tab a :
  shard_core s live lo hi limbo tab → a ∈ live → a ∉ lo ++ hi →
  shard_core (set_usage (u64 (usage_ s - tc s a)) s) (drop_entry a live) lo hi (limbo ++ [a]) tab.
Proof.
  intros C Ha Hn. destruct (core_totals _ _ _ _ _ _ C) as (Hnd & Hndl & _ & Htc & _). specialize (Htc a Ha).
  destruct C as [C1 C2 C3 (chains & Ht & Hp) C5 C6 C7 C8 C9].
  assert (lru_head :: live ++ limbo ≡ₚ lru_head :: drop_entry a live ++ limbo ++ [a]) as Hperm.
  { f_equiv. rewrite (drop_entry_perm a live) at 1 by done. simpl. rewrite app_assoc. apply Permutation_cons_append. }
  pose proof (tc_nonneg s a). rewrite u64_sub by lia.
  split; try done.
  - intros b. rewrite <- Hperm. apply C1.
  - by rewrite <- Hperm.
  - by apply (list_rep_agree s).
  - exists chains. split; [by apply (table_rep_agree s)|done].
  - intros b Hb'. apply elem_of_drop_entry. split; [by intros ->|auto].
  - cbn [usage_ set_usage]. rewrite C6, (drop_entry_total s a live) by done.
    change (total (set_usage _ s) (drop_entry a live)) with (total s (drop_entry a live)). lia.
  - cbn [usage_ set_usage]. lia.
Qed.

Lemma core_list_frame s s' live lo hi lo' hi' limbo tab :
  shard_core s live lo hi limbo tab → list_frame s s' → list_rep s' lo' hi' → (∀ a, a ∈ lo' ++ hi' → a ∈ live) →
  lru_usage_ s' = total s (lo' ++ hi') → shard_core s' live lo' hi' limbo tab.
Proof.
  intros [C1 C2 C3 (chains & Ht & Hp) C5 C6 C7 C8 C9] Hf Hl Hin Hlu.
  pose proof (list_frame_settings _ _ Hf) as Hset. destruct (settings_fields _ _ Hset) as (_ & Hnx & _).
  pose proof (list_frame_table _ _ Hf) as (_ & _ & _ & Hu). pose proof (lf_cores _ _ Hf) as Hcs.
  split; try done.
  - intros b. unfold allocated. rewrite Hcs. apply C1.
  - exists chains. split; [by apply (list_frame_table_rep s)|done].
  - by rewrite Hu, (list_frame_total s s').
  - by rewrite Hlu, (list_frame_total s s').
  - by rewrite Hu.
  - intros b. unfold allocated. rewrite Hcs, Hnx. apply C9.
Qed.

Lemma core_LRU_Remove s live lo hi limbo tab a Q :
  shard_core s live lo hi limbo tab → a ∈ lo ++ hi →
  (∀ s', shard_core s' live (drop_entry a lo) (drop_entry a hi) limbo tab → list_frame s s' → Q tt s') →
  wp (LRU_Remove (Some a)) Q s.
Proof.
  intros C Ha HQ. destruct (core_totals _ _ _ _ _ _ C) as (Hnd & Hndl & Hle & _).
  pose proof (sc_usage _ _ _ _ _ _ C). pose proof (sc_bound _ _ _ _ _ _ C).
  apply (LRU_Remove_wp s lo hi); [apply C|done|]. intros s' Hf Hl Hu. apply HQ; [|done].
  apply (core_list_frame s s' live lo hi); try done.
  - intros b. rewrite <- drop_entry_app, elem_of_drop_entry. intros [_ Hb]. by apply (sc_sub _ _ _ _ _ _ C).
  - rewrite Hu, (sc_lru_usage _ _ _ _ _ _ C), <- drop_entry_app. rewrite (drop_entry_total s a (lo ++ hi)) at 1 by done.
    pose proof (drop_entry_total s a (lo ++ hi) Hndl Ha). pose proof (total_nonneg s (drop_entry a (lo ++ hi))).
    pose proof (tc_nonneg s a). rewrite u64_sub by lia. lia.
Qed.

Lemma core_LRU_Insert s live lo hi limbo tab a c Q :
  shard_core s live lo hi limbo tab → a ∈ live → a ∉ lo ++ hi → cores s !! a = Some c →
  (∀ s' lo' hi', shard_core s' live lo' hi' limbo tab → enters s c a lo hi lo' hi' → list_frame s s' → Q tt s') →
  wp (LRU_Insert (Some a)) Q s.
Proof.
  intros C Ha Hn Hc HQ. destruct (core_totals _ _ _ _ _ _ C) as (Hnd & Hndl & Hle & _ & Hroom). specialize (Hroom a Ha Hn).
  pose proof (sc_usage _ _ _ _ _ _ C). pose proof (sc_bound _ _ _ _ _ _ C).
  pose proof Hc as Hh. apply cores_Some in Hh as (h & Hh & ->).
  apply (LRU_Insert_wp s lo hi a h); [apply C|done| |lia|].
  { intros [->|?]%elem_of_cons; [|done]. pose proof (sc_nodup _ _ _ _ _ _ C) as Hnn. apply NoDup_cons in Hnn as [Hnn _]. set_solver. }
  intros s' lo' hi' Hf Hl Hent Hu.
  assert (enters s (core h) a lo hi lo' hi') as Hent' by (unfold enters; by rewrite goes_high_core).
  apply (HQ s' lo' hi'); [|done|done]. apply (core_list_frame s s' live lo hi); try done.
  - intros b Hb. apply (enters_elem _ _ _ _ _ _ _ b Hent') in Hb as [->|Hb]; [done|]. by apply (sc_sub _ _ _ _ _ _ C).
  - rewrite Hu, (enters_total s s _ a lo hi lo' hi' Hent'), (sc_lru_usage _ _ _ _ _ _ C).
    pose proof (total_nonneg s (lo ++ hi)). pose proof (tc_nonneg s a). apply u64_add; lia.
Qed.

(** ** The replaced entry *)

(** The replaced entry goes at once when nobody refers to it. *)
Definition gone_old (s : Shard) (old : ptr) : list nat :=
  match old with Some o => if decide (refs_at s o = 0) then [o] else [] | None => [] end.
Definition uncached_old (old : ptr) (m : gmap nat LRUHandle) : gmap nat LRUHandle :=
  match old with Some o => alter (SetInCache false) o m | None => m end.

Lemma drop_entries_one a l : drop_entries [a] l = drop_entry a l.
Proof. by rewrite drop_entries_cons, drop_entries_nil. Qed.

Lemma retire_old_wp s live lo hi limbo tab old l0 Q :
  shard_core s live lo hi limbo tab →
  (∀ o, old = Some o → o ∈ live ∧ 0 ≤ refs_at s o ∧ (o ∈ lo ++ hi ↔ refs_at s o = 0)) →
  (∀ s', shard_core s' (drop_entries (gone_old s old) live) (drop_entries (gone_old s old) lo)
       (drop_entries (gone_old s old) hi) (limbo ++ gone_old s old) tab →
     cores s' = uncached_old old (cores s) → settings s' = settings s →
     usage_ s' = usage_ s - total s (gone_old s old) → Q (l0 ++ map Some (gone_old s old)) s') →
  wp (retire_old old l0) Q s.
Proof.
  intros C Hold HQ. destruct old as [o|]; cbn [retire_old gone_old uncached_old] in *.
  2: { apply wp_ret. rewrite <- (app_nil_r l0). apply HQ; [|done|done|simpl; lia]. by rewrite !drop_entries_nil, app_nil_r. }
  destruct (Hold o eq_refl) as (Ho & Hr0 & Hlist). destruct (core_totals _ _ _ _ _ _ C) as (_ & _ & _ & Htc & _).
  specialize (Htc o Ho). pose proof (sc_usage _ _ _ _ _ _ C). pose proof (sc_bound _ _ _ _ _ _ C).
  assert (allocated s o) as [c Hc] by (apply (sc_alloc _ _ _ _ _ _ C); set_solver).
  apply wp_bind, (core_update s live lo hi limbo tab o c); [done|auto with rdb|done|].
  intros s1 C1 Hc1 Hs1 Hu1. destruct (settings_fields _ _ Hs1) as (_ & _ & _ & _ & _ & _ & Hpol).
  assert (cores s1 = alter (SetInCache false) o (cores s)) as Ec1.
  { rewrite Hc1. apply map_eq. intros b. destruct (decide (b = o)) as [->|];
      [by rewrite lookup_insert_eq, lookup_alter_eq, Hc|by rewrite lookup_insert_ne, lookup_alter_ne]. }
  assert (cores s1 !! o = Some (SetInCache false c)) as Hco by (by rewrite Hc1, lookup_insert_eq).
  assert (tc s1 o = tc s o) as Etc by (unfold tc; by rewrite Hco, Hc, Hpol).
  pose proof Hco as Hh. apply cores_Some in Hh as (h & Hh & Eh).
  apply wp_bind, (wp_load o h); [done|].
  assert (refs h = refs_at s o) as Er.
  { unfold refs_at. rewrite Hc. by rewrite (eq_refl : refs h = refs (core h)), <- Eh. }
  unfold HasRefs. rewrite Er. destruct (Z.ltb_spec 0 (refs_at s o)) as [Hpos|Hzero]; cbn [negb].
  - rewrite decide_False in HQ by lia. rewrite !drop_entries_nil, !app_nil_r in HQ. apply wp_ret, HQ; try done. simpl. lia.
  - rewrite decide_True in HQ by lia. rewrite !drop_entries_one in HQ.
    apply wp_bind, (core_LRU_Remove s1 live lo hi limbo tab); [done|apply Hlist; lia|]. intros s2 C2 Hf2.
    pose proof (lf_cores _ _ Hf2) as Hc2. pose proof (list_frame_settings _ _ Hf2) as Hs2.
    pose proof (list_frame_table _ _ Hf2) as (_ & _ & _ & Hu2).
    apply wp_bind, wp_charge_of; [by eexists; rewrite Hc2|]. apply wp_bind, wp_put, wp_ret.
    assert (u64 (usage_ s2 - tc s2 o) = usage_ s - tc s o) as Eu.
    { rewrite (list_frame_tc s1 s2), Etc, Hu2, Hu1 by done. pose proof (tc_nonneg s o). apply u64_sub; lia. }
    apply HQ.
    + apply core_uncharge; [done|done|]. rewrite <- drop_entry_app, elem_of_drop_entry. naive_solver.
    + change (cores s2 = alter (SetInCache false) o (cores s)). by rewrite Hc2.
    + change (settings s2 = settings s). congruence.
    + cbn [usage_ set_usage total foldr]. rewrite Eu. lia.
Qed.

(** ** The new entry *)

Lemma new_handle_wp s live lo hi h Q :
  shard_rep s live lo hi [] →
  (∀ s', shard_rep s' live lo hi [next_address s] → cores s' = <[next_address s := core h]> (cores s) →
     cores s !! next_address s = None → usage_ s' = usage_ s → capacity_ s' = capacity_ s →
     strict_capacity_limit_ s' = strict_capacity_limit_ s → deleter_calls s' = deleter_calls s →
     high_pri_pool_ratio_ s' = high_pri_pool_ratio_ s → metadata_charge_policy_ s' = metadata_charge_policy_ s →
     Q (Some (next_address s)) s') →
  wp (new_handle h) Q s.
Proof.
  intros R HQ. pose proof R as [R1 R2 R3 (chains & Ht & Hch) R5 R6 R7 R8 R9 R10].
  unfold wp, new_handle. set (a := next_address s). set (s' := set_alloc _ _ s).
  assert (¬ allocated s a) as Hna by (intros Hx; apply R10 in Hx; lia).
  assert (cores s' = <[a := core h]> (cores s)) as Hcs by (unfold cores, s'; cbn [heap set_alloc]; by rewrite fmap_insert).
  assert (∀ b, b ≠ a → agree s s' b) as Hag.
  { intros b Hb. unfold agree, nxt, prv, nxh, in_pool, ident. rewrite Hcs.
    cbn [heap s' set_alloc]. rewrite !lookup_insert_ne by done. done. }
  assert (∀ b, b ∈ lru_head :: live → b ≠ a) as Hne.
  { intros b Hb ->. apply Hna, R1. rewrite app_nil_r. done. }
  assert (∀ b, b ∈ live → cores s' !! b = cores s !! b) as Hcl.
  { intros b Hb. rewrite Hcs, lookup_insert_ne; [done|]. intros <-. eapply Hne; [by right|done]. }
  assert (∀ l, (∀ b, b ∈ l → b ∈ live) → total s' l = total s l) as Htot.
  { intros l Hl. apply ident_total; [|done]. intros b Hb. apply (Hag b), Hne. right. auto. }
  apply HQ; try done.
  2: { destruct (cores s !! a) as [c|] eqn:E; [|done]. destruct Hna. by exists c. }
  split; try done.
  - intros b. unfold allocated. rewrite Hcs. destruct (decide (b = a)) as [->|Hb].
    + rewrite lookup_insert_eq. split; [set_solver|by eexists].
    + rewrite lookup_insert_ne by done. fold (allocated s b). rewrite R1. set_solver.
  - rewrite app_comm_cons. rewrite app_nil_r in R2. apply NoDup_app. split_and!; [done| |apply NoDup_singleton].
    intros b Hb ->%list_elem_of_singleton. by apply (Hne a).
  - apply (list_rep_agree s); try done. intros b Hb. apply Hag, Hne.
    apply elem_of_cons in Hb as [->|Hb]; [by left|]. right. by apply R5 in Hb as (? & _).
  - exists chains. split.
    + apply (table_rep_agree s); try done. intros b Hb. apply Hag, Hne. right. by apply Hch in Hb as (? & _).
    + intros b. rewrite Hch. split; intros [Hb Hx]; (split; [done|]); by apply (cached_other s s' b); rewrite ?Hcl.
  - intros b. rewrite R5. split; intros (Hb & Hx & Hy); (split; [done|]);
      rewrite (cached_other s s' b), (refs_other s s' b) in * by auto; done.
  - intros b Hb. rewrite (cached_other s s' b), (refs_other s s' b) by auto. auto.
  - change (usage_ s') with (usage_ s). rewrite R7. symmetry. by apply Htot.
  - change (lru_usage_ s') with (lru_usage_ s). rewrite R8. symmetry. apply Htot. intros b Hb. by apply R5 in Hb as (? & _).
  - intros b [c Hc]. change (next_address s') with (S a). rewrite Hcs in Hc.
    destruct (decide (b = a)) as [->|Hb]; [lia|]. rewrite lookup_insert_ne in Hc by done.
    assert (allocated s b) as Hx by (by eexists). apply R10 in Hx. lia.
Qed.

(** ** Linking it in *)

(** The rest of [Insert] once there is room, or the caller insists. *)
Definition insert_tail (e : ptr) (total_charge : Z) (want_handle : bool) (l0 : list ptr) : M ((Status * ptr) * list ptr) :=
  old ← table_Insert e;
  _ ← put (λ s, set_usage (u64 (usage_ s + total_charge)) s);
  deleted ← retire_old old l0;
  if want_handle then
    _ ← modify e Ref_handle;
    mret ((OK, e), deleted)
  else
    _ ← LRU_Insert e;
    mret ((OK, None), deleted).

(** The entry the new key displaces, if any. *)
Definition displaces (s : Shard) (live : list nat) (e : LRUHandle) (old : ptr) : Prop :=
  match old with
  | Some o => o ∈ live ∧ cached_at s o ∧ matches s (hkey e) (hash e) o
  | None => ∀ b, b ∈ live → cached_at s b → ¬ matches s (hkey e) (hash e) b
  end.

Definition with_new (want : bool) (e : LRUHandle) : LRUHandle := if want then Ref_handle e else e.

Lemma insert_tail_wp s live lo hi limbo a e want l0 Q :
  shard_rep s live lo hi limbo → a ∈ limbo → cores s !! a = Some e → InCache e = true → refs e = 0 →
  usage_ s + tc s a < 2 ^ 64 → Z.of_nat (length live) + 1 < 2 ^ 30 →
  (∀ old s' lo' hi', displaces s live e old →
     shard_rep s' (a :: drop_entries (gone_old s old) live) lo' hi' (drop_entry a limbo ++ gone_old s old) →
     (want = true → ∀ b, b ∈ lo' ++ hi' → b ∈ lo ++ hi) →
     cores s' = <[a := with_new want e]> (uncached_old old (cores s)) →
     settings s' = settings s → usage_ s' = usage_ s + tc s a - total s (gone_old s old) →
     Q ((OK, if want then Some a else None), l0 ++ map Some (gone_old s old)) s') →
  wp (insert_tail (Some a) (tc s a) want l0) Q s.
Proof.
  intros R Ha He Hein Her Hbd Hlen HQ. pose proof R as [R1 R2 R3 R4 R5 R6 R7 R8 R9 R10].
  destruct (core_of_rep _ _ _ _ _ R) as (tab & C & Hndt & Htab).
  apply NoDup_cons in R2 as Hnd. destruct Hnd as [Hhd Hnd]. apply NoDup_app in Hnd as (Hndl & Hdis & Hndb).
  assert (a ∉ live) as Hal by (intros Hx; by apply (Hdis a)).
  assert (a ∉ lo ++ hi) as Hnl by (intros Hx; apply R5 in Hx as (? & _); done).
  assert (a ∉ tab) as Hat by (intros Hx; apply Htab in Hx as [? _]; done).
  assert (length tab ≤ length live)%nat as Hlt.
  { apply submseteq_length, NoDup_submseteq; [done|]. intros x Hx. by apply Htab in Hx as [? _]. }
  unfold insert_tail. apply wp_bind, (core_table_Insert s live lo hi limbo tab a e); [done..|lia|].
  intros old rest s1 C1 Hp1 Hold Hc1 Hs1 Hu1. apply wp_bind, wp_put.
  destruct (settings_fields _ _ Hs1) as (_ & _ & _ & _ & _ & _ & Hpol1).
  assert (tc s1 a = tc s a) as Etc by (by apply tc_same).
  pose proof (core_charge s1 live lo hi limbo (a :: rest) a C1 Ha ltac:(rewrite Hu1, Etc; lia)) as C2. rewrite Etc in C2.
  set (s2 := set_usage _ s1) in *.
  assert (displaces s live e old) as Hdisp.
  { destruct old as [o|]; cbn [displaces].
    - assert (o ∈ tab) as Ho by (rewrite Hp1; simpl; left). apply Htab in Ho as [? ?]. done.
    - intros b Hb Hcb. apply Hold. by apply Htab. }
  assert (∀ o, old = Some o → o ∈ live ∧ o ≠ a) as Hoa.
  { intros o ->. destruct Hdisp as (? & _). split; [done|congruence]. }
  assert (∀ b, cores s2 !! b = cores s !! b) as Hc2 by (intros b; change (cores s1 !! b = cores s !! b); by rewrite Hc1).
  assert (gone_old s2 old = gone_old s old) as Hgo.
  { destruct old as [o|]; [|done]. cbn [gone_old]. by rewrite (refs_other s s2 o (Hc2 o)). }
  assert (∀ b, b ∈ gone_old s old → b ≠ a) as Hga.
  { intros b Hb. destruct old as [o|]; cbn [gone_old] in Hb; [|by apply not_elem_of_nil in Hb].
    destruct (decide _); [|by apply not_elem_of_nil in Hb]. apply list_elem_of_singleton in Hb as ->. by apply Hoa. }
  assert (drop_entries (gone_old s old) (a :: live) = a :: drop_entries (gone_old s old) live) as Hdl.
  { unfold drop_entries. rewrite filter_cons_True; [done|]. intros Hx. by apply (Hga a). }
  apply wp_bind, (retire_old_wp s2 (a :: live) lo hi (drop_entry a limbo) (a :: rest) old l0); [exact C2| |].
  { intros o ->. destruct (Hoa o eq_refl) as [Ho _]. destruct Hdisp as (_ & Hco & _).
    rewrite (refs_other s s2 o (Hc2 o)). split_and!; [by right|by apply R6|rewrite R5; naive_solver]. }
  rewrite Hgo, Hdl. intros s3 C3 Hc3 Hs3 Hu3.
  assert (cores s2 = cores s) as Hcs2 by exact Hc1. rewrite Hcs2 in Hc3.
  assert (total s2 (gone_old s old) = total s (gone_old s old)) as Htg by (by apply total_same).
  assert (u64 (usage_ s1 + tc s a) = usage_ s + tc s a) as Eu.
  { rewrite Hu1. apply u64_add; [rewrite R7; apply total_nonneg|apply tc_nonneg|done]. }
  assert (usage_ s3 = usage_ s + tc s a - total s (gone_old s old)) as Hus3.
  { rewrite Hu3, Htg. change (usage_ s2) with (u64 (usage_ s1 + tc s a)). lia. }
  assert (settings s3 = settings s) as Hset3 by (rewrite Hs3; exact Hs1).
  assert (cores s3 !! a = Some e) as Hca3.
  { rewrite Hc3. destruct old as [o|]; cbn [uncached_old]; [|done]. rewrite lookup_alter_ne; [done|]. by apply Hoa. }
  set (live' := drop_entries (gone_old s old) live) in *.
  set (lo1 := drop_entries (gone_old s old) lo) in *. set (hi1 := drop_entries (gone_old s old) hi) in *.
  assert (∀ b, b ∈ lo1 ++ hi1 ↔ b ∉ gone_old s old ∧ b ∈ lo ++ hi) as Hl1.
  { intros b. subst lo1 hi1. rewrite elem_of_app, !elem_of_drop_entries, elem_of_app. naive_solver. }
  (* the logical part, for any last step that gives [a] its place *)
  assert (∀ s4 lo4 hi4, shard_core s4 (a :: live') lo4 hi4 (drop_entry a limbo ++ gone_old s old) (a :: rest) →
    cores s4 = <[a := with_new want e]> (uncached_old old (cores s)) → settings s4 = settings s → usage_ s4 = usage_ s3 →
    (∀ b, b ∈ lo4 ++ hi4 ↔ (want = false ∧ b = a) ∨ b ∈ lo1 ++ hi1) →
    Q ((OK, if want then Some a else None), l0 ++ map Some (gone_old s old)) s4) as Hfin.
  { intros s4 lo4 hi4 C4 Hc4 Hset4 Hu4 Hl4.
    assert (∀ b, b ≠ a → Some b ≠ old → cores s4 !! b = cores s !! b) as Hother.
    { intros b Hb Hbo. rewrite Hc4, lookup_insert_ne by done. destruct old as [o|]; [|done]. cbn [uncached_old].
      rewrite lookup_alter_ne; [done|congruence]. }
    assert (cached_at s4 a ∧ refs_at s4 a = if want then 1 else 0) as [Hca Hra].
    { unfold cached_at, refs_at. rewrite Hc4, lookup_insert_eq. simpl. split.
      - eexists. split; [done|]. by destruct want.
      - destruct want; simpl; [|done]. by rewrite Her. }
    assert (∀ o, old = Some o → ¬ cached_at s4 o ∧ refs_at s4 o = refs_at s o) as Ho4.
    { intros o ->. destruct (Hoa o eq_refl) as [Ho Hne]. destruct Hdisp as (_ & (c & Hc & _) & _).
      assert (cores s4 !! o = Some (SetInCache false c)) as E.
      { rewrite Hc4, lookup_insert_ne by done. cbn [uncached_old]. by rewrite lookup_alter_eq, Hc. }
      unfold cached_at, refs_at. rewrite E, Hc. split; [|done]. intros (c' & [= <-] & Hx). by rewrite InCache_set in Hx. }
    assert (∀ b, b ∈ live' → b ≠ a) as Hla by (intros b [_ Hb]%elem_of_drop_entries ->; done).
    apply (HQ old s4 lo4 hi4); try done; [|intros -> b Hb; apply Hl4 in Hb as [[? _]|Hb]; [done|]; by apply Hl1 in Hb as [_ ?]|congruence].
    apply (rep_of_core s4 _ lo4 hi4 _ (a :: rest)); [exact C4| | |].
    - intros b. rewrite !elem_of_cons. destruct (decide (b = a)) as [->|Hb]; [naive_solver|].
      assert (b ∈ tab ↔ Some b = old ∨ b ∈ rest) as Hbt.
      { rewrite Hp1, elem_of_app. destruct old; simpl; rewrite ?list_elem_of_singleton; set_solver. }
      destruct (decide (Some b = old)) as [Eo|Hbo].
      + destruct (Ho4 b (eq_sym Eo)) as [Hnc _]. subst old. cbn [option_list] in Hp1.
        assert (b ∉ rest) by (rewrite Hp1 in Hndt; by apply NoDup_cons in Hndt as [? _]). naive_solver.
      + rewrite (cached_other s s4 b) by auto. subst live'. rewrite elem_of_drop_entries.
        assert (b ∉ gone_old s old) as Hbg.
        { destruct old as [o|]; cbn [gone_old]; [|apply not_elem_of_nil]. destruct (decide _); [|apply not_elem_of_nil].
          rewrite list_elem_of_singleton. congruence. }
        split; [intros [?|?]; [done|]|intros ([?|[_ ?]] & ?); [done|]].
        * assert (b ∈ tab) as Hx by (apply Hbt; by right). apply Htab in Hx as [? ?]. naive_solver.
        * right. assert (b ∈ tab) as Hx by (by apply Htab). apply Hbt in Hx as [?|?]; done.
    - intros b. rewrite Hl4, Hl1, elem_of_cons. destruct (decide (b = a)) as [->|Hb].
      + rewrite Hra. destruct want; naive_solver.
      + subst live'. rewrite elem_of_drop_entries, R5. destruct (decide (Some b = old)) as [Eo|Hbo].
        * destruct (Ho4 b (eq_sym Eo)) as [Hnc Hrb]. split; [|naive_solver].
          intros [[_ ?]|(Hg & _ & _ & Hr)]; [done|]. destruct Hg. subst old. cbn [gone_old]. rewrite decide_True by done. left.
        * rewrite (cached_other s s4 b), (refs_other s s4 b) by auto. naive_solver.
    - intros b [->|Hb]%elem_of_cons; [rewrite Hra; destruct want; (split; [lia|by left])|].
      pose proof (Hla b Hb) as Hba. apply elem_of_drop_entries in Hb as [Hg Hb].
      destruct (decide (Some b = old)) as [Eo|Hbo].
      + destruct (Ho4 b (eq_sym Eo)) as [_ ->]. destruct (R6 b Hb) as [Hr _]. split; [done|]. right.
        assert (refs_at s b ≠ 0); [|lia]. intros Hz. apply Hg. subst old. cbn [gone_old]. rewrite decide_True by done. left.
      + rewrite (cached_other s s4 b), (refs_other s s4 b) by auto. auto. }
  assert (a ∉ lo1 ++ hi1) as Hal1 by (rewrite Hl1; naive_solver).
  destruct want.
  - apply wp_bind, (core_update s3 _ _ _ _ _ a e _ _ C3); [auto with rdb|done|]. intros s4 C4 Hc4 Hs4 Hu4. apply wp_ret.
    apply (Hfin s4 lo1 hi1 C4); [by rewrite Hc4, Hc3|congruence|done|]. intros b. naive_solver.
  - apply wp_bind, (core_LRU_Insert s3 _ _ _ _ _ a e _ C3); [left|done|done|]. intros s4 lo4 hi4 C4 Hent Hf4. apply wp_ret.
    pose proof (list_frame_table _ _ Hf4) as (_ & _ & _ & Hu4).
    apply (Hfin s4 lo4 hi4 C4); [|rewrite (list_frame_settings _ _ Hf4); done|done|].
    + rewrite (lf_cores _ _ Hf4), <- Hc3. cbn [with_new]. by rewrite insert_id.
    + intros b. rewrite (enters_elem _ _ _ _ _ _ _ b Hent). naive_solver.
Qed.

(** ** Insert *)

Definition new_entry (key : bytes) (hash_ value_ charge_ : Z) (deleter_ : option Z) (priority : Priority) : LRUHandle :=
  core (SetPriority priority (SetInCache true (mkHandle value_ deleter_ None None None charge_ key hash_ 0 0))).

Lemma new_entry_InCache k h v c d p : InCache (new_entry k h v c d p) = true.
Proof.
  unfold new_entry. rewrite core_InCache. unfold InCache, SetPriority, IN_CACHE, IS_HIGH_PRI.
  rewrite has_put_flag by lia. rewrite decide_False by lia. apply InCache_set.
Qed.

(** No room even without the evictable entries: they are gone all the same, and
    the new entry is dropped. *)
Record insert_full (s : Shard) (live lo hi : list nat) (e : LRUHandle) (want : bool) (s' : Shard) : Prop := {
  if_full : capacity_ s < usage_ s - total s (lo ++ hi) + CalcTotalCharge (metadata_charge_policy_ s) e;
  if_reason : strict_capacity_limit_ s = true ∨ want = false;
  if_ok : shard_ok s' (drop_entries (lo ++ hi) live) [] [];
  if_cores : ∀ b, cores s' !! b = if decide (b ∈ lo ++ hi) then None else cores s !! b;
  if_usage : usage_ s' = usage_ s - total s (lo ++ hi);
  if_deleters : deleter_calls s' =
    deleter_calls s ++ deleter_calls_of s (lo ++ hi) ++ (if want then [] else deleter_call e);
}.

(** The entry is in, at the new address [a]; [v] was evicted for it. *)
Record inserted (s : Shard) (live lo hi : list nat) (e : LRUHandle) (want : bool) (a : nat) (v : list nat) (old : ptr)
    (s' : Shard) (lo' hi' : list nat) : Prop := {
  in_fresh : cores s !! a = None;
  in_prefix : ∃ rest, lo ++ hi = v ++ rest;
  in_minimal : ∀ v1 z v2, v = v1 ++ z :: v2 →
    capacity_ s < usage_ s - total s v1 + CalcTotalCharge (metadata_charge_policy_ s) e;
  in_room : usage_ s - total s v + CalcTotalCharge (metadata_charge_policy_ s) e ≤ capacity_ s ∨
    v = lo ++ hi ∧ strict_capacity_limit_ s = false ∧ want = true;
  in_old : displaces s (drop_entries v live) e old;
  in_ok : shard_ok s' (a :: drop_entries (gone_old s old) (drop_entries v live)) lo' hi';
  in_cores : ∀ b, cores s' !! b =
    if decide (b = a) then Some (with_new want e)
    else if decide (b ∈ v ++ gone_old s old) then None
    else uncached_old old (cores s) !! b;
  in_usage : usage_ s' = usage_ s - total s v + CalcTotalCharge (metadata_charge_policy_ s) e - total s (gone_old s old);
  in_deleters : deleter_calls s' = deleter_calls s ++ deleter_calls_of s (v ++ gone_old s old);
}.

Lemma deleter_calls_app s l1 l2 : deleter_calls_of s (l1 ++ l2) = deleter_calls_of s l1 ++ deleter_calls_of s l2.
Proof. apply flat_map_app. Qed.
Lemma deleter_calls_same s s' l :
  (∀ b, b ∈ l → from_option deleter_call [] (cores s' !! b) = from_option deleter_call [] (cores s !! b)) →
  deleter_calls_of s' l = deleter_calls_of s l.
Proof.
  intros H. unfold deleter_calls_of. induction l as [|b l IH]; [done|]. cbn [flat_map].
  rewrite (H b) by left. rewrite IH; [done|]. intros x Hx. apply H. by right.
Qed.
Lemma freed_fields s l s' :
  freed s l s' → deleter_calls s' = deleter_calls s ++ deleter_calls_of s l ∧ capacity_ s' = capacity_ s ∧
    high_pri_pool_ratio_ s' = high_pri_pool_ratio_ s.
Proof.
  intros [F _ _]. split_and!.
  - by apply (f_equal deleter_calls) in F.
  - by apply (f_equal capacity_) in F.
  - by apply (f_equal high_pri_pool_ratio_) in F.
Qed.
Lemma drop_entries_all v l : (∀ x, x ∈ l → x ∈ v) → drop_entries v l = [].
Proof.
  intros H. destruct (drop_entries v l) as [|x k] eqn:E; [done|].
  assert (x ∈ drop_entries v l) as Hx by (rewrite E; left). apply elem_of_drop_entries in Hx as [? ?]. naive_solver.
Qed.

(** What eviction for the entry in limbo at [a] means for the state before. *)
Lemma evicted_before s s1 live lo hi a e v s2 lo2 hi2 :
  shard_rep s1 live lo hi [a] → cores s1 = <[a := e]> (cores s) → cores s !! a = None →
  metadata_charge_policy_ s1 = metadata_charge_policy_ s →
  evicted s1 live lo hi [a] v s2 lo2 hi2 →
  a ∉ live ∧ a ∉ v ∧ cores s2 !! a = Some e ∧
  (∀ b, b ≠ a → cores s2 !! b = if decide (b ∈ v) then SetInCache false <$> cores s !! b else cores s !! b) ∧
  (∀ l, (∀ b, b ∈ l → b ∈ live) → total s1 l = total s l) ∧ (∀ b, b ∈ v → b ∈ live) ∧
  tc s2 a = CalcTotalCharge (metadata_charge_policy_ s) e ∧ tc s1 a = CalcTotalCharge (metadata_charge_policy_ s) e.
Proof.
  intros R Hc Hfresh Hpol Hev. pose proof (sr_nodup _ _ _ _ _ R) as Hnd.
  apply NoDup_cons in Hnd as [_ Hnd]. apply NoDup_app in Hnd as (_ & Hdis & _).
  assert (a ∉ live) as Hal by (intros Hx; apply (Hdis a Hx); left).
  assert (∀ b, b ∈ v → b ∈ live) as Hv.
  { intros b Hb. assert (b ∈ lo ++ hi) as Hx by (rewrite (ev_split _ _ _ _ _ _ _ _ _ Hev); set_solver).
    by apply (sr_lru _ _ _ _ _ R) in Hx as (? & _). }
  assert (a ∉ v) as Hav by naive_solver.
  assert (cores s2 !! a = Some e) as Ha2.
  { rewrite (ev_cores _ _ _ _ _ _ _ _ _ Hev), decide_False by done. by rewrite Hc, lookup_insert_eq. }
  destruct (settings_fields _ _ (ev_settings _ _ _ _ _ _ _ _ _ Hev)) as (_ & _ & _ & _ & _ & _ & Hpol2).
  split_and!; try done.
  - intros b Hb. rewrite (ev_cores _ _ _ _ _ _ _ _ _ Hev), Hc. by rewrite lookup_insert_ne.
  - intros l Hl. apply ident_total; [|done]. intros b Hb. unfold ident. rewrite Hc, lookup_insert_ne; [done|].
    intros <-. by apply Hal, Hl.
  - unfold tc. by rewrite Ha2, Hpol2, Hpol.
  - unfold tc. by rewrite Hc, lookup_insert_eq, Hpol.
Qed.

(** An entry in limbo may change freely. *)
Lemma shard_rep_limbo s s' live lo hi limbo a c :
  shard_rep s live lo hi limbo → a ∈ limbo → set_heap ∅ s' = set_heap ∅ s → (∀ b, agree s s' b) →
  cores s' = <[a := c]> (cores s) → shard_rep s' live lo hi limbo.
Proof.
  intros [S1 S2 S3 (chains & S4 & S4') S5 S6 S7 S8 S9 S10] Ha Hh Hag Hc.
  destruct (update_reps _ _ Hh Hag) as (Hl & Ht & Htot).
  destruct (heap_only_fields _ _ Hh) as (Hs & _ & _ & _ & _ & _ & Hu & Hlu). destruct (settings_fields _ _ Hs) as (_ & Hn & _).
  assert (∀ b, b ∈ live → cores s' !! b = cores s !! b) as Hcl.
  { intros b Hb. rewrite Hc, lookup_insert_ne; [done|]. intros <-.
    apply NoDup_cons in S2 as [_ S2]. apply NoDup_app in S2 as (_ & Hd & _). by apply (Hd a). }
  split; try done.
  - intros b. rewrite <- S1. destruct (Hag b) as (_ & _ & _ & _ & Hi). split; by apply ident_allocated.
  - auto.
  - exists chains. split; [auto|]. intros b. rewrite S4'.
    split; intros [Hb Hx]; (split; [done|]); by apply (cached_other s s' b); rewrite ?Hcl.
  - intros b. rewrite S5. split; intros (Hb & Hx & Hy); (split; [done|]);
      rewrite (cached_other s s' b), (refs_other s s' b) in * by auto; done.
  - intros b Hb. rewrite (cached_other s s' b), (refs_other s s' b) by auto. auto.
  - by rewrite Hu, Htot.
  - by rewrite Hlu, Htot.
  - by rewrite Hu.
  - intros b Hb. rewrite Hn. apply S10. destruct (Hag b) as (_ & _ & _ & _ & Hi). by eapply ident_allocated.
Qed.

(** The three ways on after the eviction, from the state [s2] it leaves. *)
Section after_eviction.
Context (s s1 s2 : Shard) (live lo hi v lo2 hi2 : list nat) (a : nat) (e : LRUHandle).
Context (Hok : shard_ok s live lo hi) (R1 : shard_rep s1 live lo hi [a]).
Context (Hc1 : cores s1 = <[a := e]> (cores s)) (Hfresh : cores s !! a = None).
Context (Hu1 : usage_ s1 = usage_ s) (Hcp1 : capacity_ s1 = capacity_ s) (Hd1 : deleter_calls s1 = deleter_calls s).
Context (Hrt1 : high_pri_pool_ratio_ s1 = high_pri_pool_ratio_ s).
Context (Hst1 : strict_capacity_limit_ s1 = strict_capacity_limit_ s).
Context (Hpol1 : metadata_charge_policy_ s1 = metadata_charge_policy_ s).
Context (Hev : evicted s1 live lo hi [a] v s2 lo2 hi2).
Let t : Z := CalcTotalCharge (metadata_charge_policy_ s) e.

Lemma after_eviction_facts :
  a ∉ live ∧ a ∉ v ∧ cores s2 !! a = Some e ∧
  (∀ b, b ≠ a → cores s2 !! b = if decide (b ∈ v) then SetInCache false <$> cores s !! b else cores s !! b) ∧
  tc s2 a = t ∧ NoDup v ∧ usage_ s2 = usage_ s - total s v ∧ (∀ b, b ∈ v → b ∈ live) ∧
  capacity_ s2 = capacity_ s ∧ deleter_calls s2 = deleter_calls s ∧ high_pri_pool_ratio_ s2 = high_pri_pool_ratio_ s ∧
  strict_capacity_limit_ s2 = strict_capacity_limit_ s.
Proof using All.
  destruct (evicted_before s s1 live lo hi a e v s2 lo2 hi2) as (Hal & Hav & Ha2 & Hc2 & Htot & Hevl & Htc2 & _); [done..|].
  destruct Hev as [E1 E2 E3 E4 E5]. destruct (settings_fields _ _ E1) as (C1 & C2 & C3 & C4 & C5 & C6 & C7).
  split_and!; try done; try congruence.
  - destruct (shard_totals _ _ _ _ _ R1) as (_ & Hnd & _). rewrite E3 in Hnd. by apply NoDup_app in Hnd as (? & _).
  - by rewrite E4, Hu1, Htot.
Qed.

(** The deleters run for evicted entries are those of the entries before. *)
Lemma evicted_deleters s3 :
  (∀ b, b ∈ v → cores s3 !! b = cores s2 !! b) → deleter_calls_of s3 v = deleter_calls_of s v.
Proof using All.
  destruct after_eviction_facts as (Hal & Hav & Ha2 & Hc2 & _). intros Hc3. apply deleter_calls_same. intros b Hb.
  rewrite Hc3, Hc2 by (done || by intros ->). rewrite decide_True by done. by destruct (cores s !! b).
Qed.

(** The caller asked for a handle it cannot have. *)
Lemma drop_refused_wp st Q :
  lo2 ++ hi2 = [] → capacity_ s < usage_ s2 + t → strict_capacity_limit_ s = true →
  (∀ s', insert_full s live lo hi e true s' → Q (st, None) s') →
  wp (A := Status * ptr * list ptr) (_ ← delete_handle (Some a); mret ((st, None), map Some v))
    (λ r s', wp (_ ← free_all r.2; mret r.1) Q s') s2.
Proof using All.
  intros Hnil Hover Hstrict HQ. pose proof evicted_deleters as Hdel.
  destruct after_eviction_facts as (Hal & Hav & Ha2 & Hc2 & Htc2 & Hndv & Hu2 & _ & C1 & C2 & C3 & C4).
  apply app_eq_nil in Hnil as [-> ->].
  pose proof (ev_split _ _ _ _ _ _ _ _ _ Hev) as E3. rewrite app_nil_r in E3.
  destruct Hok as [R Hf Hcap Hr].
  apply wp_bind, (delete_wp s2 _ _ _ _ a _ (ev_rep _ _ _ _ _ _ _ _ _ Hev)); [set_solver|]. intros s3 Hs3 Hu3 Hc3 R3.
  apply wp_ret. cbn [fst snd]. apply wp_bind. rewrite drop_entry_app, (drop_entry_notin a v) in R3 by done.
  assert (drop_entry a [a] = []) as Ea by (apply (drop_entry_middle a [] []); apply NoDup_singleton). rewrite Ea in R3.
  apply (free_all_wp v s3 _ _ _ _ _ R3); [done|set_solver|]. intros s4 F4 R4. apply wp_ret, HQ.
  cbn [app] in R4. rewrite (drop_entries_all v v) in R4 by done. destruct (freed_fields _ _ _ F4) as (D4 & K4 & T4).
  destruct F4 as [F1 F2 F3]. destruct (settings_fields _ _ Hs3) as (K3 & _ & D3 & _ & T3 & _).
  split; rewrite ?E3; try done.
  - lia.
  - by left.
  - split; [done|done|by rewrite K4, K3, C1|by rewrite T4, T3, C3].
  - intros b. rewrite F2, Hc3. destruct (decide (b ∈ v)) as [Hb|Hb]; [done|].
    destruct (decide (b = a)) as [->|Hne]; [done|]. rewrite Hc2 by done. by rewrite decide_False.
  - by rewrite F3, Hu3.
  - rewrite D4, D3, C2, app_nil_r. f_equal. apply Hdel. intros b Hb. rewrite Hc3, decide_False; [done|by intros ->].
Qed.

(** No handle is asked for: as if inserted and evicted at once. *)
Lemma drop_quiet_wp Q :
  lo2 ++ hi2 = [] → capacity_ s < usage_ s2 + t →
  (∀ s', insert_full s live lo hi e false s' → Q (OK, None) s') →
  wp (A := Status * ptr * list ptr) (_ ← modify (Some a) (SetInCache false); mret ((OK, None), map Some v ++ [Some a]))
    (λ r s', wp (_ ← free_all r.2; mret r.1) Q s') s2.
Proof using All.
  intros Hnil Hover HQ. pose proof evicted_deleters as Hdel.
  destruct after_eviction_facts as (Hal & Hav & Ha2 & Hc2 & Htc2 & Hndv & Hu2 & _ & C1 & C2 & C3 & C4).
  apply app_eq_nil in Hnil as [-> ->].
  pose proof (ev_split _ _ _ _ _ _ _ _ _ Hev) as E3. rewrite app_nil_r in E3.
  destruct Hok as [R Hf Hcap Hr].
  apply wp_bind, (wp_update s2 a e); [auto with rdb|done|]. intros s3 Hh3 Ha3 Hc3. apply wp_ret. cbn [fst snd]. apply wp_bind.
  destruct (heap_only_fields _ _ Hh3) as (Hs3 & _ & _ & _ & _ & _ & Hu3 & _).
  destruct (settings_fields _ _ Hs3) as (K3 & _ & D3 & _ & T3 & _).
  assert (shard_rep s3 (drop_entries v live) [] [] ([a] ++ v)) as R3.
  { apply (shard_rep_limbo s2 s3 _ _ _ _ a (SetInCache false e)); [apply Hev|set_solver|done..]. }
  change (map Some v ++ [Some a]) with (map Some v ++ map Some [a]). rewrite <- map_app.
  apply (free_all_wp (v ++ [a]) s3 _ _ _ _ _ R3).
  { apply NoDup_app. split_and!; [done| |apply NoDup_singleton]. intros b Hb ->%list_elem_of_singleton. done. }
  { set_solver. }
  intros s4 F4 R4. apply wp_ret, HQ. rewrite (drop_entries_all (v ++ [a])) in R4 by set_solver.
  destruct (freed_fields _ _ _ F4) as (D4 & K4 & T4). destruct F4 as [F1 F2 F3].
  split; rewrite ?E3; try done.
  - lia.
  - by right.
  - split; [done|done|by rewrite K4, K3, C1|by rewrite T4, T3, C3].
  - intros b. rewrite F2, Hc3. destruct (decide (b = a)) as [->|Hne'].
    { rewrite decide_True by set_solver. by rewrite decide_False. }
    rewrite lookup_insert_ne, Hc2 by done. destruct (decide (b ∈ v)) as [Hb|Hb].
    + by rewrite decide_True by set_solver.
    + by rewrite decide_False by set_solver.
  - by rewrite F3, Hu3.
  - rewrite D4, D3, C2, deleter_calls_app. f_equal. f_equal.
    + apply Hdel. intros b Hb. rewrite Hc3, lookup_insert_ne; [done|by intros <-].
    + unfold deleter_calls_of. simpl. rewrite Hc3, lookup_insert_eq. simpl. by rewrite app_nil_r.
Qed.

(** The entry goes in. *)
Lemma keep_wp want Q :
  InCache e = true → refs e = 0 → usage_ s + t < 2 ^ 64 → Z.of_nat (length live) + 1 < 2 ^ 30 →
  lo2 ++ hi2 = [] ∨ usage_ s2 + t ≤ capacity_ s →
  (usage_ s2 + t ≤ capacity_ s ∨ strict_capacity_limit_ s = false ∧ want = true) →
  (∀ v1 z v2, v = v1 ++ z :: v2 → capacity_ s < usage_ s - total s v1 + t) →
  (∀ old s' lo' hi', inserted s live lo hi e want a v old s' lo' hi' → Q (OK, if want then Some a else None) s') →
  wp (insert_tail (Some a) t want (map Some v)) (λ r s', wp (_ ← free_all r.2; mret r.1) Q s') s2.
Proof using All.
  pose proof evicted_deleters as Hdel. intros Hein Her Hbd Hlen Hstop Hroom Hmin HQ.
  destruct after_eviction_facts as (Hal & Hav & Ha2 & Hc2 & Htc2 & Hndv & Hu2 & Hvl & C1 & C2 & C3 & C4).
  pose proof (ev_split _ _ _ _ _ _ _ _ _ Hev) as E3. pose proof (total_nonneg s v) as Hv0.
  rewrite <- Htc2. destruct Hok as [R Hf Hcap Hr].
  assert (length (drop_entries v live) ≤ length live)%nat as Hlen' by apply length_filter.
  apply (insert_tail_wp s2 _ lo2 hi2 _ a e want (map Some v) _ (ev_rep _ _ _ _ _ _ _ _ _ Hev));
    [set_solver|done|done|done|lia|lia|].
  intros old s3 lo3 hi3 Hdisp R3 Hsub Hc3 Hs3 Hu3. cbn [fst snd]. apply wp_bind.
  assert (∀ b, b ∈ drop_entries v live → cores s2 !! b = cores s !! b) as Hcl.
  { intros b [Hb1 Hb2]%elem_of_drop_entries. rewrite Hc2 by (by intros ->). by rewrite decide_False. }
  assert (displaces s (drop_entries v live) e old) as Hdisp'.
  { destruct old as [o|]; cbn [displaces] in *.
    - destruct Hdisp as (Ho & Hca & Hm). unfold cached_at, matches in *. by rewrite Hcl in Hca, Hm.
    - intros b Hb Hca Hm. apply (Hdisp b Hb); unfold cached_at, matches in *; by rewrite Hcl. }
  assert (gone_old s2 old = gone_old s old) as Hgo.
  { destruct old as [o|]; [|done]. cbn [gone_old]. destruct Hdisp as (Ho & _). by rewrite (refs_other s s2 o (Hcl o Ho)). }
  assert (∀ b, b ∈ gone_old s old → b ∈ drop_entries v live ∧ old = Some b) as Hgl.
  { intros b Hb. destruct old as [o|]; cbn [gone_old] in Hb; [|by apply not_elem_of_nil in Hb].
    destruct (decide _); [|by apply not_elem_of_nil in Hb]. apply list_elem_of_singleton in Hb as ->. by destruct Hdisp as (? & _). }
  assert (NoDup (v ++ gone_old s old)) as Hndg.
  { apply NoDup_app. split_and!; [done| |].
    - intros b Hb Hg. by apply Hgl in Hg as [[? _]%elem_of_drop_entries _].
    - destruct old as [o|]; cbn [gone_old]; [|constructor]. destruct (decide _); [apply NoDup_singleton|constructor]. }
  rewrite Hgo in *. rewrite <- map_app.
  assert (drop_entry a [a] = []) as Ea by (apply (drop_entry_middle a [] []); apply NoDup_singleton).
  rewrite drop_entry_app, (drop_entry_notin a v), Ea in R3 by done. cbn [app] in R3.
  apply (free_all_wp (v ++ gone_old s old) s3 _ _ _ _ _ R3); [done|done|]. intros s4 F4 R4. apply wp_ret.
  rewrite (drop_entries_all (v ++ gone_old s old)) in R4 by done.
  destruct (freed_fields _ _ _ F4) as (D4 & K4 & T4). destruct F4 as [F1 F2 F3].
  destruct (settings_fields _ _ Hs3) as (K3 & _ & D3 & _ & T3 & _).
  assert (a ∉ v ++ gone_old s old) as Hag.
  { rewrite elem_of_app. intros [Hx|Hx]; [done|]. apply Hgl in Hx as [[_ Hx]%elem_of_drop_entries _]. done. }
  assert (∀ b, b ≠ a → b ∉ v → cores s3 !! b = uncached_old old (cores s) !! b) as Hc3b.
  { intros b Hba Hbv. rewrite Hc3, lookup_insert_ne by done. destruct old as [o|]; cbn [uncached_old].
    - destruct (decide (o = b)) as [->|Hne]; [rewrite !lookup_alter_eq|rewrite !lookup_alter_ne by done];
        (rewrite Hc2 by done); by rewrite decide_False.
    - rewrite Hc2 by done. by rewrite decide_False. }
  assert (total s2 (gone_old s old) = total s (gone_old s old)) as Htg.
  { apply ident_total; [|].
    - intros b Hb. apply Hgl in Hb as [Hb _]. unfold ident. by rewrite Hcl.
    - destruct (settings_fields _ _ (ev_settings _ _ _ _ _ _ _ _ _ Hev)) as (_ & _ & _ & _ & _ & _ & ->). done. }
  rewrite Htc2, Htg, Hu2 in Hu3. pose proof (total_nonneg s (gone_old s old)) as Hg0.
  apply (HQ old s4 lo3 hi3). split; try done.
  - by exists (lo2 ++ hi2).
  - destruct Hroom as [?|[? ?]]; [left; lia|]. destruct Hstop as [E|?]; [|left; lia].
    rewrite E, app_nil_r in E3. by right.
  - split; [done| |by rewrite K4, K3, C1|by rewrite T4, T3, C3].
    rewrite K4, K3, C1, F3, Hu3. intros Hx. destruct Hroom as [?|[_ Hw]]; [lia|]. destruct Hstop as [E|?]; [|lia].
    specialize (Hsub Hw). rewrite E in Hsub. destruct (lo3 ++ hi3) as [|x l]; [done|]. exfalso.
    eapply not_elem_of_nil, (Hsub x). left.
  - intros b. rewrite F2. destruct (decide (b = a)) as [->|Hba].
    + rewrite decide_False by done. by rewrite Hc3, lookup_insert_eq.
    + destruct (decide (b ∈ v ++ gone_old s old)) as [|Hn]; [done|]. apply Hc3b; [done|set_solver].
  - rewrite F3, Hu3. lia.
  - rewrite D4, D3, C2, !deleter_calls_app. f_equal. f_equal.
    + apply Hdel. intros b Hb. rewrite Hc3, lookup_insert_ne by (by intros ->).
      destruct old as [o|]; cbn [uncached_old]; [|done]. rewrite lookup_alter_ne; [done|]. intros ->.
      destruct Hdisp as ([? _]%elem_of_drop_entries & _). done.
    + apply deleter_calls_same. intros b Hb. destruct (Hgl b Hb) as [[Hbv Hbl]%elem_of_drop_entries ->].
      rewrite Hc3b by (done || by intros ->). cbn [uncached_old]. rewrite lookup_alter_eq. by destruct (cores s !! b).
Qed.
End after_eviction.

Lemma Insert_wp s live lo hi key h v c d want p Q :
  shard_ok s live lo hi → let e := new_entry key h v c d p in
  usage_ s + CalcTotalCharge (metadata_charge_policy_ s) e < 2 ^ 64 → Z.of_nat (length live) + 1 < 2 ^ 30 →
  (∀ s', insert_full s live lo hi e want s' →
     Q (if want then Incomplete (str "Insert failed due to LRU cache being full.") else OK, None) s') →
  (∀ a ev old s' lo' hi', inserted s live lo hi e want a ev old s' lo' hi' → Q (OK, if want then Some a else None) s') →
  wp (Insert key h v c d want p) Q s.
Proof.
  intros Hok e Hbd Hlen HQ1 HQ2. pose proof Hok as [R _ _ _]. unfold Insert.
  set (t := CalcTotalCharge (metadata_charge_policy_ s) e) in *.
  assert (0 ≤ t) as Ht0 by (by apply wrap_range).
  apply wp_bind, (new_handle_wp s live lo hi); [done|]. fold (new_entry key h v c d p). fold e.
  set (a := next_address s). intros s1 R1 Hc1 Hfresh Hu1 Hcp1 Hst1 Hd1 Hrt1 Hpol1.
  apply wp_bind, wp_charge_of; [eexists; by rewrite Hc1, lookup_insert_eq|].
  assert (tc s1 a = t) as -> by (unfold tc; by rewrite Hc1, lookup_insert_eq, Hpol1).
  apply wp_bind, (EvictFromLRU_wp s1 live lo hi [a]); [done|done|by rewrite Hu1|].
  intros s2 ev lo2 hi2 Hev Hstop Hmin. rewrite Hcp1, Hu1 in *.
  destruct (after_eviction_facts s s1 s2 live lo hi ev lo2 hi2 a e) as (_ & _ & _ & _ & _ & _ & Hu2 & _ & C1 & _ & _ & C4); [done..|].
  destruct (evicted_before s s1 live lo hi a e ev s2 lo2 hi2) as (_ & _ & _ & _ & Htot & Hevl & _); [done..|].
  assert (0 ≤ usage_ s2) as Hu20 by (rewrite (sr_usage _ _ _ _ _ (ev_rep _ _ _ _ _ _ _ _ _ Hev)); apply total_nonneg).
  pose proof (total_nonneg s ev) as Hev0.
  apply wp_bind, wp_get, wp_bind. rewrite u64_add by lia. rewrite C1, C4.
  assert (∀ v1 z v2, ev = v1 ++ z :: v2 → capacity_ s < usage_ s - total s v1 + t) as Hmin'.
  { intros v1 z v2 Hv. rewrite <- Htot; [by eapply Hmin|]. intros b Hb. apply Hevl. rewrite Hv. set_solver. }
  assert (∀ P, wp (insert_tail (Some a) t want (map Some ev)) P s2 →
    wp (old ← table_Insert (Some a); _ ← put (λ s, set_usage (u64 (usage_ s + t)) s); deleted ← retire_old old (map Some ev);
        if want then _ ← modify (Some a) Ref_handle; mret ((OK, Some a), deleted)
        else _ ← LRU_Insert (Some a); mret ((OK, None), deleted)) P s2) as Htail by done.
  destruct (Z.ltb_spec (capacity_ s) (usage_ s2 + t)) as [Hover|Hfits]; cbn [andb].
  - assert (lo2 ++ hi2 = []) as Hnil by (destruct Hstop; [done|lia]).
    destruct (strict_capacity_limit_ s || negb want) eqn:Ereason.
    + destruct want; cbn [negb] in *.
      * rewrite orb_false_r in Ereason. by apply (drop_refused_wp s s1 s2 live lo hi ev lo2 hi2 a e).
      * by apply (drop_quiet_wp s s1 s2 live lo hi ev lo2 hi2 a e).
    + apply orb_false_iff in Ereason as [Es Ew%negb_false_iff].
      apply Htail, (keep_wp s s1 s2 live lo hi ev lo2 hi2 a e); try done; [apply new_entry_InCache|by right|eauto].
  - apply Htail, (keep_wp s s1 s2 live lo hi ev lo2 hi2 a e); try done; [apply new_entry_InCache|by left|eauto].
Qed.
