(* ===== verification/LRUCacheSpec.v ===== *)
(** * The LRU block cache: theorems

    The shard's promises: every operation a caller may issue is defined and
    keeps the invariant; Lookup, Insert, Release, Erase and SetCapacity do what
    the handle states of cache/lru_cache.h say. Then visits to
    every entry, and destruction. *)
From Stdlib Require Import SpecFloat.
From S2P Require Import Prelude Status LRUCache LRUTable LRUList LRUCacheCorrect LRUShard LRUInsert.

(** ** Construction *)

Lemma empty_shard_wp strict ratio policy Q :
  nonneg_double ratio → (∀ s, shard_ok s [] [] [] → Q tt s) → wp Resize Q (empty_shard strict ratio policy).
Proof.
  intros Hr HQ. apply (Resize_wp _ []); try done; [constructor|..].
  - intros a Ha. by apply not_elem_of_nil in Ha.
  - intros a b ca cb Ha. by apply not_elem_of_nil in Ha.
  - intros chains' s Hf Ht Hp. apply Permutation_nil_r in Hp.
    pose proof (table_frame_fields _ _ Hf) as (Hu & Hlu & Hlow & Hpu).
    destruct (settings_fields _ _ (table_frame_settings _ _ Hf)) as (C1 & C2 & _ & _ & C5 & _).
    pose proof (tf_cores _ _ Hf) as Hc.
    assert (∀ a, allocated s a ↔ a = lru_head) as Hal.
    { intros a. unfold allocated. rewrite Hc. unfold cores, empty_shard. cbn [heap]. rewrite map_fmap_singleton.
      rewrite lookup_singleton_is_Some. naive_solver. }
    apply HQ. split; [|rewrite C1, Hu; simpl; lia|by rewrite C1|by rewrite C5].
    split; rewrite ?Hu, ?Hlu; try done.
    + intros a. rewrite Hal. simpl. by rewrite list_elem_of_singleton.
    + apply NoDup_singleton.
    + apply (table_frame_list_rep (empty_shard strict ratio policy)); [done|]. split; try done.
      * apply NoDup_singleton.
      * intros a ->%list_elem_of_singleton. by eexists.
      * intros a Ha. by apply not_elem_of_nil in Ha.
      * intros a Ha. by apply not_elem_of_nil in Ha.
    + exists chains'. split; [done|]. intros a. rewrite Hp. split; [intros Ha; by apply not_elem_of_nil in Ha|].
      intros [Ha _]. by apply not_elem_of_nil in Ha.
    + intros a. split; [intros Ha; by apply not_elem_of_nil in Ha|]. intros [Ha _]. by apply not_elem_of_nil in Ha.
    + intros a Ha. by apply not_elem_of_nil in Ha.
    + intros a ->%Hal. rewrite C2. simpl. unfold lru_head. lia.
Qed.

Lemma new_shard_ok capacity strict ratio policy :
  0 ≤ capacity → nonneg_double ratio →
  ∃ s, LRUCacheShard capacity strict ratio policy = Some s ∧ shard_ok s [] [] [] ∧ capacity_ s = capacity.
Proof.
  intros Hc Hr.
  assert (wp (init_shard capacity) (λ _ s, shard_ok s [] [] [] ∧ capacity_ s = capacity) (empty_shard strict ratio policy)) as H.
  { unfold init_shard. apply wp_bind, empty_shard_wp; [done|]. intros s Hok.
    apply (SetCapacity_wp s [] [] []); [done|done|]. intros s' v lo hi Hv Hok' _ Hcap _ _.
    symmetry in Hv. apply app_eq_nil in Hv as [-> Hv]. apply app_eq_nil in Hv as [-> ->].
    rewrite drop_entries_nil in Hok'. done. }
  apply wp_some in H as (x & s & E & Hs). exists s. unfold LRUCacheShard. by rewrite E.
Qed.

(** ** Runs *)

Inductive cache_op :=
  | OInsert (key : bytes) (hash_ value_ charge_ : Z) (deleter_ : option Z) (want_handle : bool) (p : Priority)
  | OLookup (key : bytes) (hash_ : Z)
  | ORef (a : nat)
  | ORelease (a : nat) (force_erase : bool)
  | OErase (key : bytes) (hash_ : Z)
  | OSetCapacity (c : Z)
  | OSetStrict (b : bool)
  | OSetRatio (r : double)
  | OEraseUnRef.

Definition run_op (o : cache_op) : M unit :=
  match o with
  | OInsert k h v c d want p => _ ← Insert k h v c d want p; skip
  | OLookup k h => _ ← Lookup k h; skip
  | ORef a => _ ← Ref (Some a); skip
  | ORelease a f => _ ← Release (Some a) f; skip
  | OErase k h => Erase k h
  | OSetCapacity c => SetCapacity c
  | OSetStrict b => SetStrictCapacityLimit b
  | OSetRatio r => SetHighPriorityPoolRatio r
  | OEraseUnRef => EraseUnRefEntries
  end.

(** The handle at [a] is held by a caller. *)
Definition held (s : Shard) (a : nat) (n : Z) : Prop :=
  a ≠ lru_head ∧ ∃ h, heap s !! a = Some h ∧ refs h = n ∧ 0 < n.

(** What callers owe: handles they hold, and numbers that do not overflow. *)
Definition op_ok (s : Shard) (o : cache_op) : Prop :=
  match o with
  | OInsert k h v c d want p =>
      usage_ s + CalcTotalCharge (metadata_charge_policy_ s) (new_entry k h v c d p) < 2 ^ 64 ∧
      Z.of_nat (size (heap s)) < 2 ^ 30
  | OLookup k h => ∀ a e, heap s !! a = Some e → refs e < 2 ^ 32 - 1
  | ORef a => ∃ n, held s a n ∧ n < 2 ^ 32 - 1
  | ORelease a _ => ∃ n, held s a n
  | OSetCapacity c => 0 ≤ c
  | OSetRatio r => nonneg_double r
  | _ => True
  end.

Lemma heap_size s live lo hi : shard_rep s live lo hi [] → size (heap s) = S (length live).
Proof.
  intros R. pose proof (sr_nodup _ _ _ _ _ R) as Hnd. rewrite app_nil_r in Hnd.
  rewrite <- (size_dom (D := gset nat)).
  assert (dom (heap s) = list_to_set (lru_head :: live)) as ->.
  { apply set_eq. intros a. rewrite elem_of_list_to_set, elem_of_dom.
    pose proof (sr_alloc _ _ _ _ _ R a) as Ha. rewrite app_nil_r in Ha. rewrite <- Ha.
    unfold allocated, cores. by rewrite lookup_fmap, fmap_is_Some. }
  by rewrite (size_list_to_set (C := gset nat)).
Qed.

Lemma held_core s a n : held s a n → a ≠ lru_head ∧ ∃ c, cores s !! a = Some c ∧ refs c = n ∧ 0 < n.
Proof.
  intros (Hne & h & Hh & Hr & Hn). split; [done|]. exists (core h). split; [by apply cores_lookup|done].
Qed.

Lemma refs_at_bound s : (∀ a e, heap s !! a = Some e → refs e < 2 ^ 32 - 1) → ∀ a, refs_at s a < 2 ^ 32 - 1.
Proof.
  intros H a. unfold refs_at. destruct (cores s !! a) as [c|] eqn:E; simpl; [|lia].
  apply cores_Some in E as (h & Hh & ->). by apply (H a h).
Qed.

(** The entry at [a] has hash [h]. *)
Definition entry (s : Shard) (a : nat) (h : Z) : Prop :=
  a ≠ lru_head ∧ ∃ c, cores s !! a = Some c ∧ hash c = h.
Definition op_hash (o : cache_op) : option Z := match o with OInsert _ h _ _ _ _ _ => Some h | _ => None end.
(** Entries keep their hash; a new entry has the hash it was inserted with. *)
Definition hashes_from (s s' : Shard) (new : option Z) : Prop := ∀ a h, entry s' a h → entry s a h ∨ new = Some h.

Lemma hashes_from_cores s s' new :
  (∀ b c', cores s' !! b = Some c' → (∃ c, cores s !! b = Some c ∧ hash c = hash c') ∨ new = Some (hash c')) →
  hashes_from s s' new.
Proof.
  intros H a h (Hne & c' & Hc & <-). destruct (H a c' Hc) as [(c & Hc0 & E)|E]; [left|by right].
  split; [done|]. by exists c.
Qed.
Lemma hashes_from_same s s' new : cores s' = cores s → hashes_from s s' new.
Proof. intros E. apply hashes_from_cores. intros b c' Hc. left. exists c'. by rewrite <- E. Qed.
Lemma hashes_from_update s s' new a c c' :
  cores s' = <[a := c']> (cores s) → cores s !! a = Some c → hash c' = hash c → hashes_from s s' new.
Proof.
  intros E Hc Hh. apply hashes_from_cores. intros b cb. rewrite E. destruct (decide (b = a)) as [->|Hne].
  - rewrite lookup_insert_eq. intros [= <-]. left. by exists c.
  - rewrite lookup_insert_ne by done. eauto.
Qed.
Lemma hashes_from_evicted s v s' new : evicted_ok s v s' → hashes_from s s' new.
Proof.
  intros [E _ _]. apply hashes_from_cores. intros b c'. rewrite E. destruct (decide (b ∈ v)); [done|eauto].
Qed.
Lemma hashes_from_gone s a c s' new : gone s a c s' → hashes_from s s' new.
Proof.
  intros [_ E _]. apply hashes_from_cores. intros b c'. rewrite E. destruct (decide (b = a)); [done|eauto].
Qed.
Lemma hashes_from_full s live lo hi e want s' new : insert_full s live lo hi e want s' → hashes_from s s' new.
Proof.
  intros [_ _ _ E _ _]. apply hashes_from_cores. intros b c'. rewrite E. destruct (decide (b ∈ _)); [done|eauto].
Qed.
Lemma hashes_from_inserted s live lo hi e want a v old s' lo' hi' :
  inserted s live lo hi e want a v old s' lo' hi' → hashes_from s s' (Some (hash e)).
Proof.
  intros [_ _ _ _ _ _ E _ _]. apply hashes_from_cores. intros b c'. rewrite E.
  destruct (decide (b = a)); [intros [= <-]; right; by destruct want|].
  destruct (decide (b ∈ _)); [done|]. intros Hc. left. revert Hc. unfold uncached_old. destruct old as [o|]; [|eauto].
  destruct (decide (b = o)) as [->|Hne].
  - rewrite lookup_alter_eq. destruct (cores s !! o) as [c|]; simpl; [|done]. intros [= <-]. by exists c.
  - rewrite lookup_alter_ne by done. eauto.
Qed.

Definition shard_fine (s : Shard) : Prop := ∃ live lo hi, shard_ok s live lo hi.
#[export] Hint Resolve hashes_from_same hashes_from_evicted hashes_from_gone hashes_from_full hashes_from_inserted : lru.

Lemma run_op_ok s live lo hi o :
  shard_ok s live lo hi → op_ok s o → wp (run_op o) (λ _ s', shard_fine s' ∧ hashes_from s s' (op_hash o)) s.
Proof.
  intros Hok Ho. pose proof (ok_rep _ _ _ _ Hok) as R. unfold shard_fine. destruct o; cbn [run_op op_ok op_hash] in *.
  - destruct Ho as [H1 H2]. rewrite (heap_size _ _ _ _ R) in H2.
    apply wp_bind, (Insert_wp s live lo hi); [done|done|lia| |].
    + intros s' Hf. pose proof (if_ok _ _ _ _ _ _ _ Hf). apply wp_skip. eauto 6 with lru.
    + intros a ev old s' lo' hi' Hi. pose proof (in_ok _ _ _ _ _ _ _ _ _ _ _ _ Hi). apply wp_skip.
      split; [eauto|]. apply (hashes_from_inserted _ _ _ _ _ _ _ _ _ _ _ _ Hi).
  - apply wp_bind, (Lookup_wp s live lo hi); [done|by apply refs_at_bound|..].
    + intros _. apply wp_skip. eauto 6 with lru.
    + intros a c s' **. apply wp_skip. split; [eauto|]. by eapply hashes_from_update.
  - destruct Ho as (n & Hh & Hn). destruct (held_core _ _ _ Hh) as (Hne & c & Hc & <- & Hp).
    apply wp_bind, (Ref_wp s live lo hi a c); [done|done|done|lia|]. intros. apply wp_skip.
    split; [eauto|]. by eapply hashes_from_update.
  - destruct Ho as (n & Hh). destruct (held_core _ _ _ Hh) as (Hne & c & Hc & <- & Hp).
    apply wp_bind, (Release_wp s live lo hi a c); [done|done|done|done|..]; intros; apply wp_skip;
      (split; [eauto|]); eauto with lru; by eapply hashes_from_update.
  - apply (Erase_wp s live lo hi); [done|..]; intros; (split; [eauto|]); eauto with lru. by eapply hashes_from_update.
  - apply (SetCapacity_wp s live lo hi); [done|done|]. intros. split; eauto with lru.
  - apply (SetStrictCapacityLimit_wp s live lo hi); [done|]. intros. split; eauto with lru.
  - apply (SetHighPriorityPoolRatio_wp s live lo hi); [done|done|]. intros. split; eauto with lru.
  - apply (EraseUnRefEntries_wp s live lo hi); [done|]. intros. split; eauto with lru.
Qed.

Definition shard_step (s s' : Shard) : Prop := ∃ o, op_ok s o ∧ run_op o s = Some (tt, s').

Lemma run_ok s0 s live lo hi :
  shard_ok s0 live lo hi → rtc shard_step s0 s → shard_fine s.
Proof.
  intros Hok Hr. revert live lo hi Hok. induction Hr as [|x y z (o & Ho & E) _ IH]; intros live lo hi Hok; [by exists live, lo, hi|].
  pose proof (run_op_ok x live lo hi o Hok Ho) as H. unfold wp in H. rewrite E in H.
  destruct H as [(l1 & l2 & l3 & H) _]. by eapply IH.
Qed.

Lemma cached_unique s live lo hi key h a b :
  shard_rep s live lo hi [] → cached s key h a → cached s key h b → a = b.
Proof.
  intros R Ha Hb. apply (cached_live s live lo hi) in Ha as (Hal & Hac & Ham); [|done].
  apply (cached_live s live lo hi) in Hb as (Hbl & Hbc & Hbm); [|done].
  destruct (sr_table _ _ _ _ _ R) as (chains & Ht & Hch).
  eapply (matches_unique s chains key h); [done|by apply Hch|by apply Hch|done|done].
Qed.

(** C23. A shard is memory-safe and keeps its books. From construction on,
    whatever sequence of operations callers issue on handles they hold, no
    operation dereferences a null or freed pointer or runs out of its loop;
    usage is the charge of the entries that are cached or held; at most one
    entry is cached per key; and when usage exceeds the capacity everything
    cached is pinned, so there is nothing left to evict. *)
Theorem LRUCacheShard_safe capacity strict ratio policy :
  0 ≤ capacity → nonneg_double ratio →
  ∃ s0, LRUCacheShard capacity strict ratio policy = Some s0 ∧
  ∀ s, rtc shard_step s0 s →
    (∀ o, op_ok s o → ∃ s', run_op o s = Some (tt, s')) ∧
    (∃ live lo hi, shard_ok s live lo hi) ∧
    (∀ key h a b, cached s key h a → cached s key h b → a = b) ∧
    (capacity_ s < usage_ s → GetPinnedUsage s = GetUsage s).
Proof.
  intros Hc Hr. destruct (new_shard_ok capacity strict ratio policy Hc Hr) as (s0 & E & Hok & _). exists s0. split; [done|].
  intros s Hrun. destruct (run_ok s0 s [] [] [] Hok Hrun) as (live & lo & hi & Hs). split_and!.
  - intros o Ho. pose proof (run_op_ok s live lo hi o Hs Ho) as H. apply wp_some in H as ([] & s' & H & _). eauto.
  - eauto.
  - intros key h a b. eapply cached_unique, Hs.
  - intros Hover. pose proof (ok_rep _ _ _ _ Hs) as R. unfold GetPinnedUsage, GetUsage.
    rewrite (sr_lru_usage _ _ _ _ _ R), (ok_full _ _ _ _ Hs Hover). simpl. rewrite Z.sub_0_r.
    apply wrap_small. split; [|apply (sr_bound _ _ _ _ _ R)]. rewrite (sr_usage _ _ _ _ _ R). apply total_nonneg.
Qed.

(** ** What each operation does *)

(** Lookup on any well-formed shard. Without a cached entry for the key it
    answers null and changes nothing. Otherwise it returns the entry, leaves
    it with one more reference and marked as hit, takes it off the LRU list,
    and changes nothing else: the usage is the same and so is every other
    entry. *)
Theorem Lookup_correct s live lo hi key h :
  shard_ok s live lo hi → (∀ a, refs_at s a < 2 ^ 32 - 1) →
  ((∀ a, ¬ cached s key h a) ∧ Lookup key h s = Some (None, s)) ∨
  ∃ a c s', cached s key h a ∧ cores s !! a = Some c ∧ Lookup key h s = Some (Some a, s') ∧
    shard_ok s' live (drop_entry a lo) (drop_entry a hi) ∧ usage_ s' = usage_ s ∧
    cores s' = <[a := SetHit (Ref_handle c)]> (cores s).
Proof.
  intros Hok Hrefs.
  assert (wp (Lookup key h) (λ r s', (r = None ∧ s' = s ∧ ∀ a, ¬ cached s key h a) ∨
    ∃ a c, r = Some a ∧ cached s key h a ∧ cores s !! a = Some c ∧
      shard_ok s' live (drop_entry a lo) (drop_entry a hi) ∧ usage_ s' = usage_ s ∧
      cores s' = <[a := SetHit (Ref_handle c)]> (cores s)) s) as H.
  { apply (Lookup_wp s live lo hi); [done|done|by left|]. intros a c s' **. right. by exists a, c. }
  apply wp_run in H as (r & s' & E & [(-> & -> & Hn)|(a & c & -> & H)]); [by left|].
  right. destruct H as (H1 & H2 & H3 & H4 & H5). by exists a, c, s'.
Qed.

(** C25. Release of a handle with [refs c] references. More than one: only the
    count changes. The last one of a cached entry, within capacity and not
    forced: the entry becomes evictable, at the newest end of the pool its
    priority and hits earn it, and stays charged. Otherwise the entry is
    taken out of the table, charged no more and freed, its deleter called. *)
Theorem Release_correct s live lo hi a c force :
  shard_ok s live lo hi → a ≠ lru_head → cores s !! a = Some c → 0 < refs c →
  ∃ r s', Release (Some a) force s = Some (r, s') ∧
    if decide (1 < refs c) then
      r = false ∧ shard_ok s' live lo hi ∧ usage_ s' = usage_ s ∧ cores s' = <[a := Unref_handle c]> (cores s)
    else if InCache c && (usage_ s <=? capacity_ s) && negb force then
      r = false ∧ usage_ s' = usage_ s ∧ cores s' = <[a := Unref_handle c]> (cores s) ∧
      ∃ lo' hi', enters s c a lo hi lo' hi' ∧ shard_ok s' live lo' hi'
    else r = true ∧ shard_ok s' (drop_entry a live) lo hi ∧ gone s a c s'.
Proof.
  intros Hok Hne Hc Hr. apply wp_run.
  apply (Release_wp s live lo hi a c); [done|done|done|done|..].
  - intros H1 s' **. rewrite decide_True by done. done.
  - intros H1 Hin Hu -> s' lo' hi' **. rewrite decide_False, Hin by lia. rewrite (proj2 (Z.leb_le _ _) Hu). simpl. eauto 10.
  - intros H1 Hx s' **. rewrite decide_False by lia.
    assert (InCache c && (usage_ s <=? capacity_ s) && negb force = false) as ->; [|done].
    destruct Hx as [->|[Hx| ->]]; [done| |by rewrite andb_false_r].
    rewrite (proj2 (Z.leb_gt _ _) Hx). by rewrite andb_false_r.
Qed.

(** C24. Insert. First the oldest evictable entries [v] go, no more than it
    takes to make room. If there is still none, and the limit is strict or
    the caller wants no handle, nothing is inserted: the caller who wants a
    handle gets Incomplete and keeps its value, the other gets OK as if the
    entry had been inserted and evicted at once, its deleter called. In every
    other case the entry is the cached one for its key, with the reference
    the caller asked for; the entry it displaced is freed if nobody holds it;
    usage and deleter calls account for exactly that. *)
Theorem Insert_correct s live lo hi key h v c d want p :
  shard_ok s live lo hi → let e := new_entry key h v c d p in
  usage_ s + CalcTotalCharge (metadata_charge_policy_ s) e < 2 ^ 64 → Z.of_nat (length live) + 1 < 2 ^ 30 →
  (∃ s', Insert key h v c d want p s =
     Some (if want then Incomplete (str "Insert failed due to LRU cache being full.") else OK, None, s') ∧
     insert_full s live lo hi e want s') ∨
  ∃ a ev old s' lo' hi', Insert key h v c d want p s = Some (OK, if want then Some a else None, s') ∧
    inserted s live lo hi e want a ev old s' lo' hi' ∧
    cached s' key h a ∧ refs_at s' a = if want then 1 else 0.
Proof.
  intros Hok e Hb Hl.
  assert (wp (Insert key h v c d want p) (λ r s',
    (r = (if want then Incomplete (str "Insert failed due to LRU cache being full.") else OK, None) ∧
      insert_full s live lo hi e want s') ∨
    ∃ a ev old lo' hi', r = (OK, if want then Some a else None) ∧
      inserted s live lo hi e want a ev old s' lo' hi') s) as H.
  { apply (Insert_wp s live lo hi); [done|done|done|by left|]. intros a ev old s' lo' hi' Hi. right. by exists a, ev, old, lo', hi'. }
  apply wp_run in H as (r & s' & E & [[-> H]|(a & ev & old & lo' & hi' & -> & H)]); [left; by exists s'|right].
  exists a, ev, old, s', lo', hi'. split; [done|]. split; [done|].
  assert (cores s' !! a = Some (with_new want e)) as Ha by (by rewrite (in_cores _ _ _ _ _ _ _ _ _ _ _ _ H), decide_True).
  split.
  - split; [|exists (with_new want e); by destruct want, p].
    eapply head_not_cached; [apply (ok_rep _ _ _ _ (in_ok _ _ _ _ _ _ _ _ _ _ _ _ H))|left].
  - unfold refs_at. rewrite Ha. by destruct want.
Qed.

(** SetCapacity evicts and frees the oldest entries of the LRU list, as few
    as bring usage within the new capacity, and none that is referenced. If
    usage still exceeds the capacity afterwards, nothing evictable is left. *)
Theorem SetCapacity_correct s live lo hi c :
  shard_ok s live lo hi → 0 ≤ c →
  ∃ s' v lo' hi', SetCapacity c s = Some (tt, s') ∧ shard_ok s' (drop_entries v live) lo' hi' ∧
    lo ++ hi = v ++ lo' ++ hi' ∧ evicted_ok s v s' ∧ capacity_ s' = c ∧
    (lo' ++ hi' = [] ∨ usage_ s' ≤ c) ∧
    (∀ v1 z v2, v = v1 ++ z :: v2 → c < usage_ s - total s v1).
Proof.
  intros Hok Hc.
  assert (wp (SetCapacity c) (λ _ s', ∃ v lo' hi', shard_ok s' (drop_entries v live) lo' hi' ∧
    lo ++ hi = v ++ lo' ++ hi' ∧ evicted_ok s v s' ∧ capacity_ s' = c ∧
    (lo' ++ hi' = [] ∨ usage_ s' ≤ c) ∧
    (∀ v1 z v2, v = v1 ++ z :: v2 → c < usage_ s - total s v1)) s) as H.
  { apply (SetCapacity_wp s live lo hi); [done|done|]. intros s' v lo' hi' **. by exists v, lo', hi'. }
  apply wp_run in H as ([] & s' & E & v & lo' & hi' & H). by exists s', v, lo', hi'.
Qed.

(** ** A small cache: capacity 10, a pool ratio of one half *)

Definition sample_new : Shard :=
  from_option id (empty_shard false zero_double kDontChargeCacheMetadata)
    (LRUCacheShard 10 false (S754_finite false 4503599627370496 (-53)) kDontChargeCacheMetadata).
Definition op_step (s : Shard) (o : cache_op) : Shard := match run_op o s with Some (_, s') => s' | None => s end.
(** "a" is evictable, "b" is held by a caller. *)
Definition sample : Shard :=
  op_step (op_step sample_new (OInsert [97] 1 11 4 (Some 5) false HIGH)) (OInsert [98] 2 12 4 None true LOW).

Lemma op_step_ok s live lo hi o :
  shard_ok s live lo hi → op_ok s o → shard_fine (op_step s o).
Proof.
  intros Hok Ho. pose proof (run_op_ok s live lo hi o Hok Ho) as H. apply wp_run in H as (r & s' & E & H & _).
  unfold op_step. by rewrite E.
Qed.

Lemma sample_ok : ∃ live lo hi, shard_ok sample live lo hi.
Proof.
  destruct (new_shard_ok 10 false (S754_finite false 4503599627370496 (-53)) kDontChargeCacheMetadata) as (s & E & Hok & _);
    [done|done|].
  assert (s = sample_new) as -> by (unfold sample_new; by rewrite E).
  destruct (op_step_ok sample_new [] [] [] (OInsert [97] 1 11 4 (Some 5) false HIGH)) as (l1 & l2 & l3 & H);
    [done|split; by vm_compute|].
  apply (op_step_ok _ l1 l2 l3); [done|]. split; by vm_compute.
Qed.
Lemma sample_live live lo hi : shard_ok sample live lo hi → length live = 2%nat.
Proof.
  intros [R _ _ _]. apply heap_size in R. assert (size (heap sample) = 3%nat) as E by by vm_compute. lia.
Qed.
Lemma sample_refs a : refs_at sample a < 2 ^ 32 - 1.
Proof.
  unfold refs_at. destruct (cores sample !! a) as [c|] eqn:E; [|done].
  assert (forallb (λ x, refs x.2 <? 2 ^ 32 - 1) (map_to_list (cores sample)) = true) as H by by vm_compute.
  rewrite forallb_forall in H. apply elem_of_map_to_list, list_elem_of_In, H in E. simpl in E. simpl. lia.
Qed.

Lemma LRUCacheShard_safe_witness :
  ∃ s0, LRUCacheShard 10 false (S754_finite false 4503599627370496 (-53)) kDontChargeCacheMetadata = Some s0 ∧
  ∃ live lo hi, shard_ok s0 live lo hi.
Proof.
  destruct (LRUCacheShard_safe 10 false (S754_finite false 4503599627370496 (-53)) kDontChargeCacheMetadata)
    as (s0 & E & H); [lia|reflexivity|].
  exists s0. split; [exact E|]. exact (proj1 (proj2 (H s0 (rtc_refl _ _)))).
Defined.

Lemma Lookup_correct_witness :
  ∃ s', Lookup [97] 1 sample = Some (Some 1%nat, s') ∧ usage_ s' = 8 ∧ lru_usage_ sample = 4 ∧ lru_usage_ s' = 0.
Proof.
  destruct sample_ok as (live & lo & hi & Hok).
  destruct (Lookup_correct sample live lo hi [97] 1 Hok sample_refs) as [[_ E]|(a & c & s' & _ & _ & E & _ & Hu & _)].
  - assert (option_map fst (Lookup [97] 1 sample) = Some (Some 1%nat)) as Hl by (vm_compute; reflexivity).
    rewrite E in Hl. discriminate Hl.
  - exists s'.
    assert (option_map (λ r, (r.1, usage_ r.2, lru_usage_ r.2)) (Lookup [97] 1 sample) = Some (Some 1%nat, 8, 0)) as Hl
      by (vm_compute; reflexivity).
    rewrite E in Hl. injection Hl as -> H1 H2. split_and!; [exact E|exact H1|vm_compute; reflexivity|exact H2].
Defined.

Lemma Release_correct_witness :
  ∃ s', Release (Some 2%nat) true sample = Some (true, s') ∧ ∃ live lo hi, shard_ok s' live lo hi.
Proof.
  destruct sample_ok as (live & lo & hi & Hok).
  assert (∃ c, cores sample !! 2%nat = Some c ∧ refs c = 1) as (c & Hc & Hr) by (eexists; by vm_compute).
  destruct (Release_correct sample live lo hi 2 c true Hok) as (r & s' & E & H); [by vm_compute|exact Hc|lia|].
  exists s'. rewrite Hr, andb_false_r in H. destruct H as (-> & H & _). split; [exact E|eauto].
Defined.

Lemma Insert_correct_witness :
  ∃ s', Insert [97] 1 33 5 (Some 6) true LOW sample = Some (OK, Some 3%nat, s') ∧ cached s' [97] 1 3 ∧
    usage_ s' = 9 ∧ deleter_calls s' = [(5, [97], 11)].
Proof.
  destruct sample_ok as (live & lo & hi & Hok). pose proof (sample_live _ _ _ Hok) as Hl.
  assert (option_map (λ r, (r.1, usage_ r.2, deleter_calls r.2)) (Insert [97] 1 33 5 (Some 6) true LOW sample) =
    Some ((OK, Some 3%nat), 9, [(5, [97], 11)])) as Hu by (vm_compute; reflexivity).
  destruct (Insert_correct sample live lo hi [97] 1 33 5 (Some 6) true LOW Hok)
    as [(s' & E & _)|(a & ev & old & s' & lo' & hi' & E & _ & Hc & _)]; [by vm_compute|lia|..].
  - rewrite E in Hu. discriminate Hu.
  - rewrite E in Hu. injection Hu as -> H1 H2. exists s'. split_and!; [exact E|exact Hc|exact H1|exact H2].
Defined.

Lemma SetCapacity_correct_witness :
  ∃ s', SetCapacity 5 sample = Some (tt, s') ∧ usage_ s' = 4 ∧ deleter_calls s' = [(5, [97], 11)].
Proof.
  destruct sample_ok as (live & lo & hi & Hok).
  destruct (SetCapacity_correct sample live lo hi 5 Hok) as (s' & v & lo' & hi' & E & _); [lia|].
  exists s'. split; [exact E|].
  assert (option_map (λ r, (usage_ r.2, deleter_calls r.2)) (SetCapacity 5 sample) = Some (4, [(5, [97], 11)])) as Hu by (vm_compute; reflexivity).
  rewrite E in Hu. injection Hu as H1 H2. by split.
Defined.

(** ** The LRU block cache: visiting every entry, destruction *)

(** ** Visiting and destroying *)

Lemma chain_entries_wp fuel p l s Q :
  chain (nxh s) p l → (∀ a, a ∈ l → is_Some (heap s !! a)) → (length l ≤ fuel)%nat →
  Q (map Some l) s → wp (chain_entries fuel p) Q s.
Proof.
  revert p l Q. induction fuel as [|fuel IH]; intros p [|a l] Q; cbn [chain length map].
  - intros -> _ _. apply wp_ret.
  - lia.
  - intros -> _ _. apply wp_ret.
  - intros [-> Hc] Hin Hf HQ. destruct (Hin a) as [h Hh]; [left|]. cbn [chain_entries].
    apply wp_bind, (wp_load a h); [done|]. unfold nxh in Hc at 2. rewrite Hh in Hc.
    apply wp_bind, (IH _ l); [done|intros; apply Hin; by right|lia|]. by apply wp_ret.
Qed.

Lemma all_entries_wp fuel buckets chains s Q :
  Forall2 (chain (nxh s)) buckets chains → (∀ a, a ∈ concat chains → is_Some (heap s !! a)) →
  (∀ l, l ∈ chains → (length l ≤ fuel)%nat) → Q (map Some (concat chains)) s → wp (all_entries fuel buckets) Q s.
Proof.
  intros Hc. revert Q. induction Hc as [|p l buckets chains Hpl Hc IH]; intros Q Hin Hf HQ; cbn [all_entries concat] in *.
  - by apply wp_ret.
  - apply wp_bind, (chain_entries_wp fuel p l); [done|intros; apply Hin; set_solver|apply Hf; left|].
    apply wp_bind, IH; [intros; apply Hin; set_solver|intros; apply Hf; by right|]. rewrite map_app in HQ. by apply wp_ret.
Qed.

Lemma ApplyToAll_wp s chains Q :
  table_rep s chains → Q (map Some (concat chains)) s → wp table_ApplyToAllCacheEntries Q s.
Proof.
  intros Ht HQ. unfold table_ApplyToAllCacheEntries. apply wp_bind, wp_get.
  destruct (tr_len _ _ Ht) as (k & _ & _ & Hl). rewrite take_ge by lia.
  apply (all_entries_wp _ _ chains); [apply Ht| | |done].
  - intros a (i & l & Hi & Ha)%elem_of_chains. destruct (tr_home _ _ Ht i l a Hi Ha) as (c & Hc & _).
    apply cores_Some in Hc as (h & Hh & _). by exists h.
  - intros l (i & Hi)%list_elem_of_lookup. pose proof (chain_fits s chains i l Ht Hi). lia.
Qed.

(** What the destructor leaves of an entry [c] it visits. *)
Definition destroyed (c : LRUHandle) : option LRUHandle := if HasRefs c then Some c else None.

Lemma free_unref_wp l s Q :
  NoDup l → (∀ a, a ∈ l → is_Some (heap s !! a)) →
  (∀ s', (∀ b, heap s' !! b = if decide (b ∈ l) then heap s !! b ≫= destroyed else heap s !! b) → Q tt s') →
  wp (free_unref (map Some l)) Q s.
Proof.
  revert s Q. induction l as [|a l IH]; intros s Q Hnd Hin HQ; cbn [map free_unref].
  - apply wp_skip, HQ. intros b. by rewrite decide_False by set_solver.
  - apply NoDup_cons in Hnd as [Ha Hnd]. destruct (Hin a) as [h Hh]; [left|].
    apply wp_bind, (wp_load a h); [done|]. apply wp_bind.
    assert (wp (if negb (HasRefs h) then Free (Some a) else skip) (λ _ s1,
      ∀ b, heap s1 !! b = if decide (b = a) then destroyed h else heap s !! b) s) as Hfree.
    { unfold destroyed. destruct (HasRefs h); cbn [negb].
      - apply wp_skip. intros b. by destruct (decide (b = a)) as [->|].
      - unfold Free. apply wp_bind, (wp_load a h); [done|]. apply wp_bind, wp_put.
        destruct (deleter h); unfold wp, delete_handle; simpl; rewrite Hh; simpl; intros b;
          destruct (decide (b = a)) as [->|]; by rewrite ?lookup_delete_eq, ?lookup_delete_ne. }
    apply (wp_mono _ _ _ s Hfree). intros [] s1 H1. apply IH; [done| |].
    + intros b Hb. rewrite H1, decide_False by congruence. apply Hin. by right.
    + intros s2 H2. apply HQ. intros b. rewrite H2, H1. destruct (decide (b = a)) as [->|Hne].
      * rewrite decide_False by done. rewrite decide_True by left. by rewrite Hh.
      * destruct (decide (b ∈ l)); [rewrite decide_True by (by right)|rewrite decide_False by set_solver]; done.
Qed.

(** The destructor frees exactly the evictable entries; what callers still hold
    stays allocated. *)
Lemma destroy_table_correct s live lo hi :
  shard_ok s live lo hi →
  ∃ s', destroy_table s = Some (tt, s') ∧
    ∀ b, heap s' !! b = if decide (b ∈ lo ++ hi) then None else heap s !! b.
Proof.
  intros [R _ _ _]. destruct (sr_table _ _ _ _ _ R) as (chains & Ht & Hch).
  assert (∀ a, a ∈ concat chains → is_Some (heap s !! a)) as Hin.
  { intros a (i & l & Hi & Ha)%elem_of_chains. destruct (tr_home _ _ Ht i l a Hi Ha) as (c & Hc & _).
    apply cores_Some in Hc as (h & Hh & _). by exists h. }
  assert (wp destroy_table (λ _ s', ∀ b, heap s' !! b = if decide (b ∈ lo ++ hi) then None else heap s !! b) s) as H.
  { apply wp_bind, (ApplyToAll_wp s chains); [done|]. apply free_unref_wp; [apply Ht|done|].
    intros s' H b. rewrite H. rewrite (decide_ext (b ∈ lo ++ hi) (b ∈ concat chains ∧ refs_at s b = 0)) by
      (rewrite (sr_lru _ _ _ _ _ R), Hch; tauto).
    destruct (decide (b ∈ concat chains)) as [Hb|Hb]; [|rewrite decide_False by tauto; done].
    destruct (Hin b Hb) as [h Hh]. rewrite Hh. simpl.
    assert (refs_at s b = refs h) as -> by (unfold refs_at; by rewrite (cores_lookup s b h)).
    apply Hch in Hb as Hb'. destruct Hb' as [Hbl _]. destruct (sr_live _ _ _ _ _ R b Hbl) as [Hr _].
    unfold refs_at in Hr. rewrite (cores_lookup s b h Hh) in Hr. simpl in Hr. change (refs (core h)) with (refs h) in Hr.
    unfold destroyed, HasRefs. destruct (Z.ltb_spec 0 (refs h)).
    - rewrite decide_False by lia. done.
    - rewrite decide_True by (split; [done|lia]). done. }
  apply wp_run in H as ([] & s' & E & H). eauto.
Qed.
