(* ===== verification/ShardedCache.v ===== *)
(** * Sharded caches
      (cache/sharded_cache.h, cache/sharded_cache.cc, and LRUCache and
      NewLRUCache of cache/lru_cache.cc)

    A cache is an array of shards, chosen by the high bits of the key's hash.
    CacheShard, the abstract class of the C++ code, is the type class the
    client is written and verified against; LRUCacheShard implements it. The
    hash function of the keys (GetSliceNPHash64) is a parameter. *)
From Stdlib Require Import SpecFloat.
From S2P Require Import Prelude Status LRUCache LRUTable LRUList LRUCacheCorrect LRUShard LRUInsert LRUCacheSpec.

(** ** The interface: CacheShard *)

(** [None] is undefined behaviour. *)
Class CacheShard (S : Type) := {
  shard_Insert : bytes → Z → Z → Z → option Z → bool → Priority → S → option ((Status * ptr) * S);
  shard_Lookup : bytes → Z → S → option (ptr * S);
  shard_Ref : ptr → S → option (bool * S);
  shard_Release : ptr → bool → S → option (bool * S);
  shard_Erase : bytes → Z → S → option (unit * S);
  shard_SetCapacity : Z → S → option (unit * S);
  shard_SetStrictCapacityLimit : bool → S → option (unit * S);
  shard_GetUsage : S → Z;
  shard_GetPinnedUsage : S → Z;
  shard_ApplyToAllCacheEntries : S → option (list (Z * Z) * S);
  shard_EraseUnRefEntries : S → option (unit * S);
  handle_hash : nat → S → option Z;
}.

Inductive shard_call :=
  | CallInsert (key : bytes) (hash_ value_ charge_ : Z) (deleter_ : option Z) (want_handle : bool) (p : Priority)
  | CallLookup (key : bytes) (hash_ : Z)
  | CallRef (a : nat)
  | CallRelease (a : nat) (force_erase : bool)
  | CallErase (key : bytes) (hash_ : Z)
  | CallSetCapacity (c : Z)
  | CallSetStrict (b : bool)
  | CallEraseUnRef.

Definition after {A S : Type} (r : option (A * S)) : option S := snd <$> r.
Definition shard_do {S : Type} `{CacheShard S} (c : shard_call) (s : S) : option S :=
  match c with
  | CallInsert k h v n d want p => after (shard_Insert k h v n d want p s)
  | CallLookup k h => after (shard_Lookup k h s)
  | CallRef a => after (shard_Ref (Some a) s)
  | CallRelease a f => after (shard_Release (Some a) f s)
  | CallErase k h => after (shard_Erase k h s)
  | CallSetCapacity c => after (shard_SetCapacity c s)
  | CallSetStrict b => after (shard_SetStrictCapacityLimit b s)
  | CallEraseUnRef => after (shard_EraseUnRefEntries s)
  end.
Definition call_hash (c : shard_call) : option Z := match c with CallInsert _ h _ _ _ _ _ => Some h | _ => None end.
Definition call_handle (c : shard_call) : option nat :=
  match c with CallRef a | CallRelease a _ => Some a | _ => None end.

(** What a shard promises: calls that respect what the callers owe are
    defined and keep the invariant, and an entry keeps the hash it was
    inserted with. *)
Class CacheShardLaws (S : Type) `{CacheShard S} := {
  shard_inv : S → Prop;
  has_entry : S → nat → Z → Prop;
  call_ok : S → shard_call → Prop;
  law_defined s c : shard_inv s → call_ok s c →
    ∃ s', shard_do c s = Some s' ∧ shard_inv s' ∧
      ∀ a h, has_entry s' a h → has_entry s a h ∨ call_hash c = Some h;
  law_handle s c a : call_ok s c → call_handle c = Some a → ∃ h, has_entry s a h;
  law_hash s a h : has_entry s a h → handle_hash a s = Some h;
}.

(** ** ShardedCache *)

Record ShardedCache (S : Type) := mkSharded {
  num_shard_bits_ : Z;
  sharded_capacity_ : Z;
  sharded_strict_ : bool;
  last_id_ : Z;
  shards_ : list S;
}.
Arguments mkSharded {S}.
Arguments num_shard_bits_ {S}.
Arguments sharded_capacity_ {S}.
Arguments sharded_strict_ {S}.
Arguments last_id_ {S}.
Arguments shards_ {S}.

(** A handle is an address in the heap of the shard that made it. *)
Definition Handle : Type := option (nat * nat).

Definition num_shards (bits : Z) : Z := 1 << bits.
Definition per_shard (bits capacity : Z) : Z := u64 (capacity + (num_shards bits - 1)) / num_shards bits.

Section client.
Context {S : Type} `{CacheShard S} (GetSliceNPHash64 : bytes → Z).
Implicit Types c : ShardedCache S.

Definition HashSlice (s : bytes) : Z := u32 (GetSliceNPHash64 s).
Definition shard_of c (hash_ : Z) : Z := if 0 <? num_shard_bits_ c then hash_ >> (32 - num_shard_bits_ c) else 0.
Definition with_shards c (l : list S) : ShardedCache S :=
  mkSharded (num_shard_bits_ c) (sharded_capacity_ c) (sharded_strict_ c) (last_id_ c) l.

Definition on_shard {A} c (i : Z) (f : S → option (A * S)) : option (A * ShardedCache S) :=
  s ← shards_ c !! Z.to_nat i;
  r ← f s;
  Some (r.1, with_shards c (<[Z.to_nat i := r.2]> (shards_ c))).
Definition handle_in (i : Z) (p : ptr) : Handle := (λ a, (Z.to_nat i, a)) <$> p.

Definition sharded_Insert key value_ charge_ deleter_ want_handle p c : option ((Status * Handle) * ShardedCache S) :=
  let hash_ := HashSlice key in
  r ← on_shard c (shard_of c hash_) (shard_Insert key hash_ value_ charge_ deleter_ want_handle p);
  Some ((r.1.1, handle_in (shard_of c hash_) r.1.2), r.2).
Definition sharded_Lookup key c : option (Handle * ShardedCache S) :=
  let hash_ := HashSlice key in
  r ← on_shard c (shard_of c hash_) (shard_Lookup key hash_);
  Some (handle_in (shard_of c hash_) r.1, r.2).

(** [GetShard(Shard(GetHash(handle)))]: the hash is read through the handle.
    A shard must not be given another shard's handle. *)
Definition on_handle {A} c (h : Handle) (f : ptr → S → option (A * S)) : option (A * ShardedCache S) :=
  match h with
  | None => None
  | Some (i, a) =>
      home ← shards_ c !! i;
      hash_ ← handle_hash a home;
      if bool_decide (Z.to_nat (shard_of c hash_) = i) then on_shard c (shard_of c hash_) (f (Some a)) else None
  end.
Definition sharded_Ref h c := on_handle c h shard_Ref.
Definition sharded_Release h (force_erase : bool) c := on_handle c h (λ p, shard_Release p force_erase).
Definition sharded_Erase key c : option (unit * ShardedCache S) :=
  let hash_ := HashSlice key in on_shard c (shard_of c hash_) (shard_Erase key hash_).

Fixpoint each_shard (f : S → option S) (l : list S) : option (list S) :=
  match l with
  | [] => Some []
  | s :: l' => s' ← f s; r ← each_shard f l'; Some (s' :: r)
  end.
(** The loops over [s < num_shards] read the [shards_] array. *)
Definition all_shards c (f : S → option S) : option (ShardedCache S) :=
  if bool_decide (length (shards_ c) = Z.to_nat (num_shards (num_shard_bits_ c)))
  then with_shards c <$> each_shard f (shards_ c) else None.

Definition sharded_SetCapacity (capacity : Z) c : option (ShardedCache S) :=
  r ← all_shards c (λ s, after (shard_SetCapacity (per_shard (num_shard_bits_ c) capacity) s));
  Some (mkSharded (num_shard_bits_ r) capacity (sharded_strict_ r) (last_id_ r) (shards_ r)).
Definition sharded_SetStrictCapacityLimit (strict : bool) c : option (ShardedCache S) :=
  r ← all_shards c (λ s, after (shard_SetStrictCapacityLimit strict s));
  Some (mkSharded (num_shard_bits_ r) (sharded_capacity_ r) strict (last_id_ r) (shards_ r)).
Definition sharded_EraseUnRefEntries c : option (ShardedCache S) :=
  all_shards c (λ s, after (shard_EraseUnRefEntries s)).
Definition NewId c : Z * ShardedCache S :=
  (last_id_ c, mkSharded (num_shard_bits_ c) (sharded_capacity_ c) (sharded_strict_ c) (u64 (last_id_ c + 1)) (shards_ c)).
Definition sharded_GetUsage c : Z := foldl (λ usage s, u64 (usage + shard_GetUsage s)) 0 (shards_ c).
Definition sharded_GetPinnedUsage c : Z := foldl (λ usage s, u64 (usage + shard_GetPinnedUsage s)) 0 (shards_ c).
Definition sharded_ApplyToAll c : option (list (Z * Z)) :=
  foldr (λ s r, es ← fst <$> shard_ApplyToAllCacheEntries s; app es <$> r) (Some []) (shards_ c).

(** ** Calls *)

Inductive cache_call :=
  | Cache_Insert (key : bytes) (value_ charge_ : Z) (deleter_ : option Z) (want_handle : bool) (p : Priority)
  | Cache_Lookup (key : bytes)
  | Cache_Ref (i a : nat)
  | Cache_Release (i a : nat) (force_erase : bool)
  | Cache_Erase (key : bytes)
  | Cache_SetCapacity (capacity : Z)
  | Cache_SetStrict (strict : bool)
  | Cache_EraseUnRef
  | Cache_NewId.
Definition cache_do (k : cache_call) c : option (ShardedCache S) :=
  match k with
  | Cache_Insert key v n d want p => after (sharded_Insert key v n d want p c)
  | Cache_Lookup key => after (sharded_Lookup key c)
  | Cache_Ref i a => after (sharded_Ref (Some (i, a)) c)
  | Cache_Release i a f => after (sharded_Release (Some (i, a)) f c)
  | Cache_Erase key => after (sharded_Erase key c)
  | Cache_SetCapacity n => sharded_SetCapacity n c
  | Cache_SetStrict b => sharded_SetStrictCapacityLimit b c
  | Cache_EraseUnRef => sharded_EraseUnRefEntries c
  | Cache_NewId => Some (NewId c).2
  end.

(** ** The client's theorem, from the interface's laws *)

Context {L : CacheShardLaws S}.

(** Every entry of a shard has a hash the dispatch sends there. *)
Record sharded_ok c : Prop := {
  so_bits : 0 ≤ num_shard_bits_ c < 20;
  so_len : Z.of_nat (length (shards_ c)) = 2 ^ num_shard_bits_ c;
  so_shards : ∀ i s, shards_ c !! i = Some s → shard_inv s;
  so_home : ∀ i s a h, shards_ c !! i = Some s → has_entry s a h → Z.to_nat (shard_of c h) = i;
}.

(** What callers owe, in terms of what the shards ask. *)
Definition cache_ok c (k : cache_call) : Prop :=
  match k with
  | Cache_Insert key v n d want p =>
      let h := HashSlice key in
      ∀ s, shards_ c !! Z.to_nat (shard_of c h) = Some s → call_ok s (CallInsert key h v n d want p)
  | Cache_Lookup key =>
      let h := HashSlice key in ∀ s, shards_ c !! Z.to_nat (shard_of c h) = Some s → call_ok s (CallLookup key h)
  | Cache_Erase key =>
      let h := HashSlice key in ∀ s, shards_ c !! Z.to_nat (shard_of c h) = Some s → call_ok s (CallErase key h)
  | Cache_Ref i a => ∃ s, shards_ c !! i = Some s ∧ call_ok s (CallRef a)
  | Cache_Release i a f => ∃ s, shards_ c !! i = Some s ∧ call_ok s (CallRelease a f)
  | Cache_SetCapacity n => ∀ s, s ∈ shards_ c → call_ok s (CallSetCapacity (per_shard (num_shard_bits_ c) n))
  | Cache_SetStrict b => ∀ s, s ∈ shards_ c → call_ok s (CallSetStrict b)
  | Cache_EraseUnRef => ∀ s, s ∈ shards_ c → call_ok s CallEraseUnRef
  | Cache_NewId => True
  end.

Lemma HashSlice_range key : in_range 32 (HashSlice key).
Proof. by apply wrap_range. Qed.

Lemma shard_of_lookup c h : sharded_ok c → in_range 32 h → is_Some (shards_ c !! Z.to_nat (shard_of c h)).
Proof.
  intros [Hb Hl _ _] Hh. apply lookup_lt_is_Some. apply Nat2Z.inj_lt. rewrite Hl. unfold shard_of.
  destruct (Z.ltb_spec 0 (num_shard_bits_ c)).
  - pose proof (shiftr_range 32 (32 - num_shard_bits_ c) h ltac:(lia) Hh) as Hr.
    replace (32 - (32 - num_shard_bits_ c)) with (num_shard_bits_ c) in Hr by lia. destruct Hr. rewrite Z2Nat.id; lia.
  - replace (num_shard_bits_ c) with 0 by lia. simpl. lia.
Qed.

(** A call on one shard. *)
Lemma on_shard_ok {A} c i s k (f : S → option (A * S)) :
  sharded_ok c → shards_ c !! i = Some s → call_ok s k → shard_do k s = after (f s) →
  (∀ h, call_hash k = Some h → Z.to_nat (shard_of c h) = i) →
  ∃ r s', f s = Some (r, s') ∧ sharded_ok (with_shards c (<[i := s']> (shards_ c))).
Proof.
  intros [Hb Hl Hs Hh] Hi Hk E Hnew. destruct (law_defined s k) as (s' & Hdo & Hinv & Hent); [by eapply Hs|done|].
  rewrite E in Hdo. unfold after in Hdo. destruct (f s) as [[r x]|]; [|done]. injection Hdo as ->.
  exists r, s'. split; [done|]. split; [done|cbn [shards_ with_shards]; by rewrite length_insert| |].
  - intros j t Hj. apply list_lookup_insert_Some in Hj as [(-> & -> & _)|[_ Hj]]; [done|by eapply Hs].
  - intros j t a h Hj Ha. change (Z.to_nat (shard_of c h) = j).
    apply list_lookup_insert_Some in Hj as [(-> & -> & _)|[_ Hj]]; [|by eapply Hh].
    destruct (Hent a h Ha) as [Ha'|Hn]; [by eapply Hh|by apply Hnew].
Qed.

Lemma on_key_ok {A} c h k (f : S → option (A * S)) :
  sharded_ok c → in_range 32 h → (∀ s, shards_ c !! Z.to_nat (shard_of c h) = Some s → call_ok s k) →
  (∀ s, shard_do k s = after (f s)) → (∀ h', call_hash k = Some h' → h' = h) →
  ∃ r c', on_shard c (shard_of c h) f = Some (r, c') ∧ sharded_ok c'.
Proof.
  intros Hok Hr Hk E Hn. destruct (shard_of_lookup c h Hok Hr) as [s Hs].
  destruct (on_shard_ok c _ s k f Hok Hs (Hk s Hs) (E s)) as (r & s' & Ef & Hok').
  { intros h' Hh'. by rewrite (Hn h' Hh'). }
  exists r. eexists. split; [|exact Hok']. unfold on_shard. rewrite Hs. cbn [mbind option_bind]. by rewrite Ef.
Qed.

Lemma on_handle_ok {A} c i a k (f : ptr → S → option (A * S)) :
  sharded_ok c → (∃ s, shards_ c !! i = Some s ∧ call_ok s k) → call_handle k = Some a →
  (∀ s, shard_do k s = after (f (Some a) s)) → call_hash k = None →
  ∃ r c', on_handle c (Some (i, a)) f = Some (r, c') ∧ sharded_ok c'.
Proof.
  intros Hok (s & Hi & Hk) Ha E Hn. destruct (law_handle s k a Hk Ha) as [h Hh].
  pose proof (so_home _ Hok i s a h Hi Hh) as Hhome.
  destruct (on_shard_ok c i s k (f (Some a)) Hok Hi Hk (E s)) as (r & s' & Ef & Hok'); [by rewrite Hn|].
  exists r. eexists. split; [|exact Hok']. unfold on_handle. rewrite Hi. cbn [mbind option_bind].
  rewrite (law_hash s a h Hh). cbn [mbind option_bind]. rewrite bool_decide_eq_true_2 by done. unfold on_shard. rewrite Hhome, Hi. cbn [mbind option_bind].
  by rewrite Ef.
Qed.

Lemma each_shard_ok k (l : list S) :
  (∀ s, s ∈ l → shard_inv s ∧ call_ok s k) → call_hash k = None →
  ∃ l', each_shard (shard_do k) l = Some l' ∧
    Forall2 (λ s s', shard_inv s' ∧ ∀ a h, has_entry s' a h → has_entry s a h) l l'.
Proof.
  intros Hl Hn. induction l as [|s l IH]; [by exists []|].
  destruct (Hl s) as [Hs Hk]; [left|]. destruct (law_defined s k Hs Hk) as (s' & E & Hinv & Hent).
  destruct IH as (l' & El & Hl'); [intros; apply Hl; by right|]. exists (s' :: l'). cbn [each_shard]. rewrite E.
  cbn [mbind option_bind]. rewrite El. split; [done|]. constructor; [|done]. split; [done|].
  intros a h Ha. destruct (Hent a h Ha) as [?|Hx]; [done|]. by rewrite Hn in Hx.
Qed.

Lemma all_shards_ok c k (f : S → option S) :
  sharded_ok c → (∀ s, s ∈ shards_ c → call_ok s k) → call_hash k = None → (∀ s, shard_do k s = f s) →
  ∃ l', all_shards c f = Some (with_shards c l') ∧ sharded_ok (with_shards c l').
Proof.
  intros Hok Hk Hn E. destruct (each_shard_ok k (shards_ c)) as (l' & El & Hl'); [|done|].
  { intros s Hs. split; [|by apply Hk]. apply list_elem_of_lookup in Hs as [i Hi]. by apply (so_shards _ Hok i). }
  assert (each_shard f (shards_ c) = Some l') as Ef.
  { rewrite <- El. clear -E. induction (shards_ c) as [|s l IH]; [done|]. cbn [each_shard]. by rewrite E, IH. }
  exists l'. pose proof Hok as [Hb Hl Hs Hh]. split.
  - unfold all_shards. rewrite bool_decide_eq_true_2, Ef; [done|]. unfold num_shards. rewrite Z.shiftl_1_l. lia.
  - split; [done|cbn [shards_ with_shards]; by rewrite <- (Forall2_length _ _ _ Hl')| |].
    + intros i s' Hi. destruct (Forall2_lookup_r _ _ _ _ _ Hl' Hi) as (s & _ & Hinv & _). done.
    + intros i s' a h Hi Ha. destruct (Forall2_lookup_r _ _ _ _ _ Hl' Hi) as (s & Hsi & _ & Hent).
      by apply (Hh i s a h Hsi), Hent.
Qed.

Lemma sharded_ok_fields c b n k i :
  sharded_ok c → b = num_shard_bits_ c → sharded_ok (mkSharded b n k i (shards_ c)).
Proof. intros [Hb Hl Hs Hh] ->. by split. Qed.

Lemma after_eq {A B : Type} (r : option (A * ShardedCache S)) (x : A) c (g : A → B) :
  r = Some (x, c) → after (y ← r; Some (g y.1, y.2)) = Some c.
Proof. by intros ->. Qed.

Lemma cache_do_ok c k : sharded_ok c → cache_ok c k → ∃ c', cache_do k c = Some c' ∧ sharded_ok c'.
Proof.
  intros Hok Hk. destruct k; cbn [cache_ok cache_do] in *.
  - destruct (on_key_ok c _ _ (shard_Insert key (HashSlice key) value_ charge_ deleter_ want_handle p) Hok
      (HashSlice_range key) Hk) as ([st q] & c' & E & Hok'); [done|by intros ? [= <-]|].
    exists c'. split; [|done]. unfold sharded_Insert. by rewrite E.
  - destruct (on_key_ok c _ _ (shard_Lookup key (HashSlice key)) Hok (HashSlice_range key) Hk) as (r & c' & E & Hok'); [done|done|].
    exists c'. split; [|done]. unfold sharded_Lookup. by rewrite E.
  - destruct (on_handle_ok c i a (CallRef a) shard_Ref Hok Hk) as (r & c' & E & Hok'); [done..|].
    exists c'. split; [|done]. unfold sharded_Ref. by rewrite E.
  - destruct (on_handle_ok c i a (CallRelease a force_erase) (λ p, shard_Release p force_erase) Hok Hk)
      as (r & c' & E & Hok'); [done..|].
    exists c'. split; [|done]. unfold sharded_Release. by rewrite E.
  - destruct (on_key_ok c _ _ (shard_Erase key (HashSlice key)) Hok (HashSlice_range key) Hk) as (r & c' & E & Hok'); [done|done|].
    exists c'. split; [|done]. unfold sharded_Erase. by rewrite E.
  - destruct (all_shards_ok c (CallSetCapacity (per_shard (num_shard_bits_ c) capacity))
      (λ s, after (shard_SetCapacity (per_shard (num_shard_bits_ c) capacity) s)) Hok Hk) as (l' & E & Hok'); [done..|].
    eexists. unfold sharded_SetCapacity. rewrite E. split; [done|]. by apply (sharded_ok_fields (with_shards c l')).
  - destruct (all_shards_ok c (CallSetStrict strict) (λ s, after (shard_SetStrictCapacityLimit strict s)) Hok Hk)
      as (l' & E & Hok'); [done..|].
    eexists. unfold sharded_SetStrictCapacityLimit. rewrite E. split; [done|]. by apply (sharded_ok_fields (with_shards c l')).
  - destruct (all_shards_ok c CallEraseUnRef (λ s, after (shard_EraseUnRefEntries s)) Hok Hk) as (l' & E & Hok'); [done..|].
    eexists. unfold sharded_EraseUnRefEntries. by rewrite E.
  - eexists. split; [done|]. by apply (sharded_ok_fields c).
Qed.

Definition cache_step c c' : Prop := ∃ k, cache_ok c k ∧ cache_do k c = Some c'.
Lemma cache_run_ok c c' : sharded_ok c → rtc cache_step c c' → sharded_ok c'.
Proof.
  intros Hok Hr. induction Hr as [|x y z (k & Hk & E) _ IH]; [done|]. apply IH.
  destruct (cache_do_ok x k Hok Hk) as (c1 & E1 & Hok1). congruence.
Qed.
End client.
