(* ===== verification/LRUSharded.v ===== *)
(** * The sharded LRU cache
      (LRUCache and NewLRUCache of cache/lru_cache.cc,
      GetDefaultCacheShardBits of cache/sharded_cache.cc)

    LRUCacheShard implements the interface of ShardedCache; NewLRUCache builds
    the shards. *)
From Stdlib Require Import SpecFloat.
From S2P Require Import Prelude Status LRUCache LRUTable LRUList LRUCacheCorrect LRUShard LRUInsert LRUCacheSpec ShardedCache.

(** ** LRUCacheShard is a CacheShard *)

#[export] Instance LRU_shard : CacheShard Shard := {
  shard_Insert := Insert;
  shard_Lookup := Lookup;
  shard_Ref := Ref;
  shard_Release := Release;
  shard_Erase := Erase;
  shard_SetCapacity := SetCapacity;
  shard_SetStrictCapacityLimit := SetStrictCapacityLimit;
  shard_GetUsage := GetUsage;
  shard_GetPinnedUsage := GetPinnedUsage;
  shard_ApplyToAllCacheEntries := ApplyToAllCacheEntries;
  shard_EraseUnRefEntries := EraseUnRefEntries;
  handle_hash a s := hash <$> heap s !! a;
}.

Definition op_of (k : shard_call) : cache_op :=
  match k with
  | CallInsert k h v n d want p => OInsert k h v n d want p
  | CallLookup k h => OLookup k h
  | CallRef a => ORef a
  | CallRelease a f => ORelease a f
  | CallErase k h => OErase k h
  | CallSetCapacity c => OSetCapacity c
  | CallSetStrict b => OSetStrict b
  | CallEraseUnRef => OEraseUnRef
  end.

Lemma after_skip {A} (m : M A) s : after (m s) = after ((_ ← m; skip) s).
Proof. unfold after, mbind, M_bind. by destruct (m s) as [[? ?]|]. Qed.
Lemma shard_do_run k s : shard_do k s = after (run_op (op_of k) s).
Proof. destruct k; first [done|exact (after_skip _ s)]. Qed.

#[export] Program Instance LRU_laws : CacheShardLaws Shard := {
  shard_inv := shard_fine;
  has_entry := entry;
  call_ok s k := op_ok s (op_of k);
}.
Next Obligation.
  intros s k (live & lo & hi & Hok) Hk. pose proof (run_op_ok s live lo hi (op_of k) Hok Hk) as H.
  apply wp_run in H as (r & s' & E & Hf & Hh). exists s'. rewrite shard_do_run, E. split; [done|]. split; [done|].
  intros a h Ha. destruct (Hh a h Ha) as [?|Hx]; [by left|right]. by destruct k.
Qed.
Next Obligation.
  intros s k a Hk Ha.
  assert (∃ n, held s a n) as (n & Hh) by (destruct k; simplify_eq/=; [destruct Hk as (n & ? & _)|destruct Hk as (n & ?)]; by exists n).
  apply held_core in Hh as (Hne & c & Hc & _). exists (hash c). split; [done|]. by exists c.
Qed.
Next Obligation.
  intros s a h (_ & c & Hc & <-). apply cores_Some in Hc as (e & He & ->). change (hash <$> heap s !! a = Some (hash (core e))). by rewrite He.
Qed.

(** ** Construction *)

Fixpoint make_shards (n : nat) (capacity : Z) (strict : bool) (ratio : double) (policy : CacheMetadataChargePolicy)
    : option (list Shard) :=
  match n with
  | O => Some []
  | S n' =>
      s ← LRUCacheShard capacity strict ratio policy;
      l ← make_shards n' capacity strict ratio policy; Some (s :: l)
  end.

Definition LRUCache (capacity bits : Z) (strict : bool) (ratio : double) (policy : CacheMetadataChargePolicy)
    : option (ShardedCache Shard) :=
  l ← make_shards (Z.to_nat (num_shards bits)) (per_shard bits capacity) strict ratio policy;
  Some (mkSharded bits capacity strict 1 l).

(** [while (num_shards >>= 1)]: six rounds at most. *)
Fixpoint shard_bits_loop (fuel : nat) (num_shards num_shard_bits : Z) : Z :=
  match fuel with
  | O => num_shard_bits
  | S fuel' =>
      let n := num_shards >> 1 in
      if n =? 0 then num_shard_bits
      else if 6 <=? num_shard_bits + 1 then num_shard_bits + 1
      else shard_bits_loop fuel' n (num_shard_bits + 1)
  end.
Definition GetDefaultCacheShardBits (capacity : Z) : Z := shard_bits_loop 6 (capacity / (512 * 1024)) 0.

(** [Some None] is the null pointer. *)
Definition NewLRUCache (capacity num_shard_bits : Z) (strict : bool) (ratio : double) (policy : CacheMetadataChargePolicy)
    : option (option (ShardedCache Shard)) :=
  if 20 <=? num_shard_bits then Some None
  else if double_lt ratio (double_of 0) || double_lt (double_of 1) ratio then Some None
  else
    let bits := if num_shard_bits <? 0 then GetDefaultCacheShardBits capacity else num_shard_bits in
    Some <$> LRUCache capacity bits strict ratio policy.

(** ** The default number of shards *)

Lemma shard_bits_loop_spec fuel n b :
  0 ≤ n → 0 ≤ b < 6 → 6 - b ≤ Z.of_nat fuel →
  let r := shard_bits_loop fuel n b in
  b ≤ r ≤ 6 ∧ (b < r → 2 ^ (r - b) ≤ n) ∧ (r < 6 → n < 2 ^ (r - b + 1)).
Proof.
  revert n b. induction fuel as [|fuel IH]; intros n b Hn Hb Hf; [lia|]. cbn [shard_bits_loop].
  rewrite Z.shiftr_div_pow2 by lia. change (2 ^ 1) with 2. pose proof (Z.div_mod n 2 ltac:(lia)). pose proof (Z.mod_pos_bound n 2 ltac:(lia)).
  destruct (Z.eqb_spec (n / 2) 0) as [E|E]; [split_and!; [lia|lia|lia|]; intros _; rewrite Z.sub_diag; simpl; lia|].
  destruct (Z.leb_spec 6 (b + 1)).
  - replace (b + 1 - b) with 1 by lia. split_and!; lia.
  - destruct (IH (n / 2) (b + 1)) as (K1 & K2 & K3); [apply Z.div_pos; lia|lia|lia|].
    set (r := shard_bits_loop fuel (n / 2) (b + 1)) in *. split_and!; [lia|lia| |].
    + intros _. replace (r - b) with (Z.succ (r - (b + 1))) by lia. rewrite Z.pow_succ_r by lia.
      destruct (decide (b + 1 < r)); [lia|]. replace (r - (b + 1)) with 0 by lia. simpl. lia.
    + intros Hr. replace (r - b + 1) with (Z.succ (r - (b + 1) + 1)) by lia. rewrite Z.pow_succ_r by lia. lia.
Qed.

Lemma default_bits_range capacity : 0 ≤ capacity → 0 ≤ GetDefaultCacheShardBits capacity ≤ 6.
Proof.
  intros Hc. assert (0 ≤ capacity / (512 * 1024)) by (apply Z.div_pos; lia).
  destruct (shard_bits_loop_spec 6 (capacity / (512 * 1024)) 0) as (H1 & _); [lia..|]. exact H1.
Qed.

(** ** NewLRUCache *)

Lemma admitted_ratio r : double_lt r (double_of 0) = false → nonneg_double r.
Proof. by destruct r as [[]|[]| |[] ? ?]. Qed.

Lemma per_shard_range bits n : 0 ≤ bits → 0 ≤ per_shard bits n.
Proof.
  intros Hb. unfold per_shard, num_shards. rewrite Z.shiftl_1_l. apply Z.div_pos; [by apply wrap_range|]. by apply Z.pow_pos_nonneg.
Qed.

Lemma make_shards_ok n capacity strict ratio policy :
  0 ≤ capacity → nonneg_double ratio →
  ∃ l, make_shards n capacity strict ratio policy = Some l ∧ length l = n ∧
    ∀ s, s ∈ l → shard_ok s [] [] [] ∧ capacity_ s = capacity.
Proof.
  intros Hc Hr. induction n as [|n (l & E & Hl & Hs)].
  - exists []. split_and!; [done..|]. intros s Hs. by apply not_elem_of_nil in Hs.
  - destruct (new_shard_ok capacity strict ratio policy Hc Hr) as (s & Es & Hok & Hcs). exists (s :: l).
    cbn [make_shards]. rewrite Es. cbn [mbind option_bind]. rewrite E. split_and!; [done|simpl; by rewrite Hl|].
    intros t [->|Ht]%elem_of_cons; [done|by apply Hs].
Qed.

Lemma empty_no_entry s a h : shard_ok s [] [] [] → ¬ entry s a h.
Proof. intros [R _ _ _] (Hne & c & Hc & _). apply (not_elem_of_nil a), (live_cases s [] [] [] a R); [by exists c|done]. Qed.

Lemma LRUCache_ok capacity bits strict ratio policy :
  0 ≤ bits < 20 → nonneg_double ratio →
  ∃ c, LRUCache capacity bits strict ratio policy = Some c ∧ sharded_ok c ∧
    sharded_capacity_ c = capacity ∧ num_shard_bits_ c = bits ∧
    ∀ s, s ∈ shards_ c → capacity_ s = per_shard bits capacity.
Proof.
  intros Hb Hr. destruct (make_shards_ok (Z.to_nat (num_shards bits)) (per_shard bits capacity) strict ratio policy)
    as (l & E & Hl & Hs); [apply per_shard_range; lia|done|].
  eexists. unfold LRUCache. rewrite E. split; [done|]. split; [|split_and!; [done..|intros s Hin; by apply Hs]].
  split; cbn [num_shard_bits_ shards_].
  - done.
  - rewrite Hl. unfold num_shards. rewrite Z.shiftl_1_l. rewrite Z2Nat.id; [done|]. apply Z.pow_nonneg. lia.
  - intros i s Hi. exists [], [], []. apply (Hs s). by eapply list_elem_of_lookup_2.
  - intros i s a h Hi Ha. exfalso. apply (empty_no_entry s a h); [|done]. apply (Hs s). by eapply list_elem_of_lookup_2.
Qed.

(** The sharded LRU cache. NewLRUCache answers null exactly when it is asked
    for 2^20 shards or more or for a pool ratio below 0 or above 1; otherwise
    it builds a cache on which every operation that callers may issue is
    defined, in any order: the key's hash picks an existing shard, a handle is
    given back to the shard that owns it, and every shard keeps its
    invariant. *)
Theorem NewLRUCache_safe hash_fn capacity bits strict ratio policy :
  0 ≤ capacity →
  if (20 <=? bits) || double_lt ratio (double_of 0) || double_lt (double_of 1) ratio
  then NewLRUCache capacity bits strict ratio policy = Some None
  else ∃ c, NewLRUCache capacity bits strict ratio policy = Some (Some c) ∧
    ∀ c', rtc (cache_step hash_fn) c c' →
      (∀ i s, shards_ c' !! i = Some s → shard_fine s) ∧
      (∀ i s a h, shards_ c' !! i = Some s → entry s a h → Z.to_nat (shard_of c' h) = i) ∧
      ∀ k, cache_ok hash_fn c' k → ∃ c2, cache_do hash_fn k c' = Some c2.
Proof.
  intros Hc. unfold NewLRUCache. destruct (Z.leb_spec 20 bits) as [|Hb]; [done|]. cbn [orb].
  destruct (double_lt ratio (double_of 0)) eqn:Hr; [done|]. cbn [orb]. destruct (double_lt (double_of 1) ratio); [done|].
  destruct (LRUCache_ok capacity (if bits <? 0 then GetDefaultCacheShardBits capacity else bits) strict ratio policy)
    as (c & E & Hok & _).
  { pose proof (default_bits_range capacity Hc). destruct (Z.ltb_spec bits 0); lia. }
  { by apply admitted_ratio. }
  exists c. cbn zeta. rewrite E. split; [done|]. intros c' Hrun. pose proof (cache_run_ok hash_fn c c' Hok Hrun) as Hok'.
  split_and!; [apply Hok'|apply Hok'|]. intros k Hk. destruct (cache_do_ok hash_fn c' k Hok' Hk) as (c2 & E2 & _). eauto.
Qed.

Lemma NewLRUCache_safe_witness :
  ∃ c c', NewLRUCache 100 1 false (double_of 1) kDontChargeCacheMetadata = Some (Some c) ∧
    cache_do (λ key, 2 ^ 31 + blen key) (Cache_Insert [97] 11 4 None false LOW) c = Some c' ∧
    map usage_ (shards_ c') = [0; 4].
Proof.
  pose proof (NewLRUCache_safe (λ key, 2 ^ 31 + blen key) 100 1 false (double_of 1) kDontChargeCacheMetadata ltac:(lia)) as H.
  assert (((20 <=? 1) || double_lt (double_of 1) (double_of 0) || double_lt (double_of 1) (double_of 1)) = false) as Eb
    by (vm_compute; reflexivity).
  rewrite Eb in H. destruct H as (c & E & H). exists c.
  assert (∃ s0 s1, shards_ c = [s0; s1] ∧ usage_ s0 = 0 ∧ usage_ s1 = 0 ∧ num_shard_bits_ c = 1 ∧ size (heap s1) = 1%nat) as Hc.
  { assert (option_map (option_map (λ c, (num_shard_bits_ c, map (λ s, (usage_ s, size (heap s))) (shards_ c))))
      (NewLRUCache 100 1 false (double_of 1) kDontChargeCacheMetadata) = Some (Some (1, [(0, 1%nat); (0, 1%nat)]))) as Hm
      by (vm_compute; reflexivity).
    rewrite E in Hm. injection Hm as H1 H2. destruct (shards_ c) as [|s0 [|s1 [|? ?]]]; try discriminate H2.
    injection H2 as H2 H3 H4 H5. exists s0, s1. split_and!; assumption || reflexivity. }
  destruct (H c (rtc_refl _ _)) as (_ & _ & Hdo).
  destruct (Hdo (Cache_Insert [97] 11 4 None false LOW)) as (c2 & E2).
  { destruct Hc as (s0 & s1 & Hs & _ & Hu & Hb & Hz). intros s Hin. unfold shard_of in Hin. rewrite Hb, Hs in Hin.
    vm_compute in Hin. injection Hin as <-. cbn [call_ok LRU_laws op_of op_ok]. rewrite Hu, Hz.
    split; [|lia]. unfold CalcTotalCharge. destruct (metadata_charge_policy_ s1); vm_compute; reflexivity. }
  exists c2. split; [exact E|]. split; [exact E2|].
  assert (option_map (λ c, map usage_ (shards_ c))
    (match NewLRUCache 100 1 false (double_of 1) kDontChargeCacheMetadata with
     | Some (Some c) => cache_do (λ key, 2 ^ 31 + blen key) (Cache_Insert [97] 11 4 None false LOW) c
     | _ => None end) = Some [0; 4]) as Hm by (vm_compute; reflexivity).
  rewrite E, E2 in Hm. injection Hm as Hm. exact Hm.
Defined.

(** ** The capacity of the shards *)

Definition total_capacity (c : ShardedCache Shard) : Z := foldr (λ s n, capacity_ s + n) 0 (shards_ c).

Lemma per_shard_sum bits n :
  0 ≤ bits < 20 → in_range 64 n →
  if n + 2 ^ bits - 1 <? 2 ^ 64 then n ≤ 2 ^ bits * per_shard bits n < n + 2 ^ bits else per_shard bits n = 0.
Proof.
  intros Hb [Hn0 Hn1]. unfold per_shard, num_shards. rewrite Z.shiftl_1_l.
  assert (1 ≤ 2 ^ bits) by (pose proof (Z.pow_pos_nonneg 2 bits); lia).
  assert (2 ^ bits < 2 ^ 64) by (apply Z.pow_lt_mono_r; lia).
  destruct (Z.ltb_spec (n + 2 ^ bits - 1) (2 ^ 64)).
  - rewrite wrap_small by (unfold in_range; lia).
    pose proof (Z.div_mod (n + (2 ^ bits - 1)) (2 ^ bits) ltac:(lia)).
    pose proof (Z.mod_pos_bound (n + (2 ^ bits - 1)) (2 ^ bits) ltac:(lia)). lia.
  - unfold wrap. replace (n + (2 ^ bits - 1)) with (n + (2 ^ bits - 1) - 2 ^ 64 + 1 * 2 ^ 64) by lia.
    rewrite Z.mod_add by lia. rewrite Z.mod_small by lia. apply Z.div_small. lia.
Qed.

Lemma total_capacity_same l (p : Z) :
  (∀ s, s ∈ l → capacity_ s = p) → foldr (λ s n, capacity_ s + n) 0 l = Z.of_nat (length l) * p.
Proof.
  induction l as [|s l IH]; intros H; [done|]. cbn [foldr length]. rewrite IH by (intros; apply H; by right).
  rewrite (H s) by left. lia.
Qed.

Lemma each_capacity n (l l' : list Shard) :
  0 ≤ n → (∀ s, s ∈ l → shard_fine s) → each_shard (λ s, after (shard_SetCapacity n s)) l = Some l' →
  length l' = length l ∧ ∀ s, s ∈ l' → capacity_ s = n.
Proof.
  intros Hn. revert l'. induction l as [|s l IH]; intros l' Hl.
  - intros [= <-]. split; [done|]. intros s Hs. by apply not_elem_of_nil in Hs.
  - destruct (Hl s) as (live & lo & hi & Hok); [left|]. cbn [each_shard].
    assert (wp (SetCapacity n) (λ _ s', capacity_ s' = n) s) as Hw.
    { apply (SetCapacity_wp s live lo hi); [done|done|]. by intros. }
    apply wp_run in Hw as (r & s' & E & Hs'). change (shard_SetCapacity n s) with (SetCapacity n s). rewrite E.
    cbn [after fmap option_fmap option_map snd mbind option_bind].
    destruct (each_shard _ l) as [l2|] eqn:E2; [|done]. cbn [mbind option_bind]. intros [= <-].
    destruct (IH l2) as [H1 H2]; [intros; apply Hl; by right|done|].
    split; [simpl; by rewrite H1|]. intros t [->|Ht]%elem_of_cons; [done|by apply H2].
Qed.

(** SetCapacity on the sharded cache divides the capacity among the shards,
    rounding up: together they hold at least what was asked and less than one
    unit per shard more. Unless the rounding overflows: then (a capacity
    within the number of shards of 2^64, such as SIZE_MAX for "unlimited")
    every shard gets capacity 0 while GetCapacity reports what was asked. *)
Theorem SetCapacity_divides c n :
  sharded_ok c → in_range 64 n →
  ∃ c', sharded_SetCapacity n c = Some c' ∧ sharded_ok c' ∧ sharded_capacity_ c' = n ∧
    (∀ s, s ∈ shards_ c' → capacity_ s = per_shard (num_shard_bits_ c) n) ∧
    if n + 2 ^ num_shard_bits_ c - 1 <? 2 ^ 64
    then n ≤ total_capacity c' < n + 2 ^ num_shard_bits_ c else total_capacity c' = 0.
Proof.
  intros Hok Hn. pose proof (so_bits _ Hok) as Hb. set (p := per_shard (num_shard_bits_ c) n).
  assert (0 ≤ p) as Hp by (apply per_shard_range; lia).
  destruct (cache_do_ok (λ _, 0) c (Cache_SetCapacity n) Hok) as (c' & E & Hok').
  { intros s _. exact Hp. }
  exists c'. cbn [cache_do] in E. split; [done|]. split; [done|].
  unfold sharded_SetCapacity, all_shards in E. fold p in E. case_bool_decide; [|done].
  destruct (each_shard _ (shards_ c)) as [l'|] eqn:El; [|done]. simpl in E. injection E as <-.
  destruct (each_capacity p (shards_ c) l') as [Hl Hc]; [done| |done|].
  { intros s Hs. apply list_elem_of_lookup in Hs as [i Hi]. by apply (so_shards _ Hok i). }
  split; [done|]. split; [done|]. unfold total_capacity. cbn [shards_].
  rewrite (total_capacity_same l' p Hc), Hl, (so_len _ Hok). subst p.
  pose proof (per_shard_sum (num_shard_bits_ c) n Hb Hn) as Hs. destruct (_ <? _); [done|]. rewrite Hs. lia.
Qed.

Lemma SetCapacity_divides_witness :
  ∃ c c', sharded_SetCapacity (2 ^ 64 - 1) c = Some c' ∧ sharded_capacity_ c' = 2 ^ 64 - 1 ∧ total_capacity c' = 0.
Proof.
  destruct (LRUCache_ok 100 1 false (double_of 1) kDontChargeCacheMetadata) as (c & _ & Hok & _ & Hb & _); [lia|done|].
  destruct (SetCapacity_divides c (2 ^ 64 - 1) Hok) as (c' & E & _ & Hcap & _ & Ht); [split; reflexivity || discriminate|].
  rewrite Hb in Ht. exists c, c'. split; [exact E|]. split; [exact Hcap|exact Ht].
Defined.

(** GetDefaultCacheShardBits: at most 64 shards, each of at least 512 KB
    when there is more than one, and as many as those two bounds allow. *)
Theorem GetDefaultCacheShardBits_bounds capacity :
  0 ≤ capacity →
  let b := GetDefaultCacheShardBits capacity in
  0 ≤ b ≤ 6 ∧ (0 < b → 2 ^ b * (512 * 1024) ≤ capacity) ∧ (b < 6 → capacity < 2 ^ (b + 1) * (512 * 1024)).
Proof.
  intros Hc b. set (n := capacity / (512 * 1024)).
  assert (0 ≤ n) as Hn by (apply Z.div_pos; lia).
  destruct (shard_bits_loop_spec 6 n 0) as (K1 & K2 & K3); [lia..|]. change (shard_bits_loop 6 n 0) with b in K1, K2, K3. rewrite Z.sub_0_r in K2, K3.
  pose proof (Z.div_mod capacity (512 * 1024) ltac:(lia)). pose proof (Z.mod_pos_bound capacity (512 * 1024) ltac:(lia)).
  fold n in H, H0. split_and!; [lia|lia|..]; intros Hx; [specialize (K2 Hx)|specialize (K3 Hx)]; nia.
Qed.

Lemma GetDefaultCacheShardBits_bounds_witness : GetDefaultCacheShardBits (8 * 2 ^ 20) = 4 ∧ 2 ^ 4 * (512 * 1024) ≤ 8 * 2 ^ 20.
Proof.
  destruct (GetDefaultCacheShardBits_bounds (8 * 2 ^ 20)) as (_ & H & _); [lia|].
  assert (GetDefaultCacheShardBits (8 * 2 ^ 20) = 4) as E by (vm_compute; reflexivity). split; [exact E|].
  rewrite E in H. apply H. lia.
Defined.
