(* ===== verification/StringUtil.v ===== *)
(** * String utilities (util/string_util.h and util/string_util.cc)

    Printing and parsing of numbers, escaping of strings and option strings,
    and the ':'-separated vectors of the options files. A [char] is its
    unsigned value. [std::stoull] and its kin are modelled as the standard
    describes them; the exceptions they raise are values. The functions that
    format floating-point numbers and times are left out. *)
From S2P Require Import Prelude Decimal.

(** ** Formatting *)

(** What ends up in a buffer of [size] chars, without the final NUL. *)
Definition snprintf (size : nat) (s : bytes) : bytes := take (size - 1) s.

(** [%d]. *)
Definition dec_signed (n : Z) : bytes := if n <? 0 then 45 :: dec (- n) else dec n.

(** [std::getline] in a loop: no item for an empty tail. *)
Fixpoint split_loop (delim : Z) (s item : bytes) : list bytes :=
  match s with
  | [] => match item with [] => [] | _ => [item] end
  | c :: s' => if c =? delim then item :: split_loop delim s' [] else split_loop delim s' (item ++ [c])
  end.
Definition StringSplit (arg : bytes) (delim : Z) : list bytes := split_loop delim arg [].

(** The text written to [output], and the value returned. *)
Definition AppendHumanBytes (n : Z) (len : nat) : bytes * Z :=
  let text :=
    if 10 << 40 <=? n then dec (n >> 40) ++ str "TB"
    else if 10 << 30 <=? n then dec (n >> 30) ++ str "GB"
    else if 10 << 20 <=? n then dec (n >> 20) ++ str "MB"
    else if 10 << 10 <=? n then dec (n >> 10) ++ str "KB"
    else dec n ++ str "B" in
  (snprintf len text, blen text).

Definition AppendNumberTo (s : bytes) (num : Z) : bytes := s ++ snprintf 30 (dec num).
Definition NumberToString (num : Z) : bytes := AppendNumberTo [] num.

(** Negating the smallest [int64_t] is undefined. *)
Definition NumberToHumanString (num : Z) : option bytes :=
  let absnum := if num <? 0 then - num else num in
  if absnum =? 2 ^ 63 then None
  else Some (snprintf 19
    (if absnum <? 10000 then dec_signed num
     else if absnum <? 10000000 then dec_signed (Z.quot num 1000) ++ str "K"
     else if absnum <? 10000000000 then dec_signed (Z.quot num 1000000) ++ str "M"
     else dec_signed (Z.quot num 1000000000) ++ str "G")).

Definition hex_digit (d : Z) : Z := if d <? 10 then 48 + d else 87 + d.
(** [\x%02x]. *)
Definition escaped_byte (c : Z) : bytes := [92; 120; hex_digit (c / 16); hex_digit (c mod 16)].
Fixpoint AppendEscapedStringTo (s value : bytes) : bytes :=
  match value with
  | [] => s
  | c :: value' => AppendEscapedStringTo (s ++ (if (32 <=? c) && (c <=? 126) then [c] else snprintf 10 (escaped_byte c))) value'
  end.
Definition EscapeString (value : bytes) : bytes := AppendEscapedStringTo [] value.

(** ** Consuming a decimal number *)

Definition kMaxUint64 : Z := 2 ^ 64 - 1.

Inductive consumed := Overflow (rest : bytes) | Consumed (rest : bytes) (v digits : Z).

Fixpoint consume_loop (s : bytes) (v digits : Z) : consumed :=
  match s with
  | [] => Consumed [] v digits
  | c :: s' =>
      if (48 <=? c) && (c <=? 57) then
        let delta := c - 48 in
        if (kMaxUint64 / 10 <? v) || (v =? kMaxUint64 / 10) && (kMaxUint64 mod 10 <? delta) then Overflow s
        else consume_loop s' (u64 (v * 10 + delta)) (digits + 1)
      else Consumed s v digits
  end.

(** The result, what is left of the slice, and [*val] where it is set. *)
Definition ConsumeDecimalNumber (s : bytes) : bool * bytes * option Z :=
  match consume_loop s 0 0 with
  | Overflow rest => (false, rest, None)
  | Consumed rest v digits => (0 <? digits, rest, Some v)
  end.

(** ** Option strings *)

Definition isSpecialChar (c : Z) : bool := (c =? 92) || (c =? 35) || (c =? 58) || (c =? 13) || (c =? 10).

Definition CharMap : Type := list (Z * Z).
Fixpoint convert (m : CharMap) (c : Z) : Z :=
  match m with
  | [] => c
  | (x, y) :: m' => if x =? c then y else convert m' c
  end.
Definition UnescapeChar : Z → Z := convert [(114, 13); (110, 10)].
Definition EscapeChar : Z → Z := convert [(10, 110); (13, 114)].

Fixpoint EscapeOptionString (raw_string : bytes) : bytes :=
  match raw_string with
  | [] => []
  | c :: s => (if isSpecialChar c then [92; EscapeChar c] else [c]) ++ EscapeOptionString s
  end.

Fixpoint unescape_loop (escaped : bool) (s output : bytes) : bytes :=
  match s with
  | [] => output
  | c :: s' =>
      if escaped then unescape_loop false s' (output ++ [UnescapeChar c])
      else if c =? 92 then unescape_loop true s' output else unescape_loop false s' (output ++ [c])
  end.
Definition UnescapeOptionString (escaped_string : bytes) : bytes := unescape_loop false escaped_string [].

(** [isspace] in the C locale. *)
Definition isspace (c : Z) : bool := (c =? 32) || (9 <=? c) && (c <=? 13).

Fixpoint trim_start (fuel : nat) (s : bytes) (start end_ : nat) : nat :=
  match fuel with
  | O => start
  | S fuel' => if isspace (byte_at s start) && (start <? end_)%nat then trim_start fuel' s (S start) end_ else start
  end.
Fixpoint trim_end (fuel : nat) (s : bytes) (start end_ : nat) : nat :=
  match fuel with
  | O => end_
  | S fuel' => if isspace (byte_at s end_) && (start <? end_)%nat then trim_end fuel' s start (end_ - 1) else end_
  end.
Definition trim (s : bytes) : bytes :=
  match s with
  | [] => []
  | _ =>
      let start := trim_start (length s) s 0 (length s - 1) in
      let end_ := trim_end (length s) s start (length s - 1) in
      if (start <=? end_)%nat then take (end_ - start + 1) (drop start s) else []
  end.

(** ** Parsing *)

Inductive exn := invalid_argument (what : bytes) | out_of_range (what : bytes).
Definition result (A : Type) : Type := exn + A.
#[global] Instance result_ret : MRet result := λ A x, inr x.
#[global] Instance result_bind : MBind result := λ A B f r, match r with inl e => inl e | inr x => f x end.

Definition ParseBoolean (type value : bytes) : result bool :=
  if bool_decide (value = str "true") || bool_decide (value = str "1") then inr true
  else if bool_decide (value = str "false") || bool_decide (value = str "0") then inr false
  else inl (invalid_argument type).

Fixpoint span (p : Z → bool) (s : bytes) : bytes * bytes :=
  match s with
  | [] => ([], [])
  | c :: s' => if p c then let r := span p s' in (c :: r.1, r.2) else ([], s)
  end.

(** The number [strtoull] and [strtoll] read in base 10: spaces, a sign,
    digits. With it, where it ends; [None] when there are no digits. *)
Definition strto (s : bytes) : option (Z * nat) :=
  let spaces := (span isspace s).1 in
  let s1 := (span isspace s).2 in
  let '(neg, sign, s2) := match s1 with
    | c :: s' => if c =? 45 then (true, 1%nat, s') else if c =? 43 then (false, 1%nat, s') else (false, 0%nat, s1)
    | [] => (false, 0%nat, s1)
    end in
  let digits := (span is_digit s2).1 in
  match digits with
  | [] => None
  | _ => Some (if neg then - dec_value digits else dec_value digits, (length spaces + sign + length digits)%nat)
  end.

(** [std::stoull], [std::stoll], [std::stoi]: the number's magnitude, or the
    number, has to be in range. A negative number wraps in [stoull]. *)
Definition stoull (s : bytes) : result (Z * nat) :=
  match strto s with
  | None => inl (invalid_argument (str "stoull"))
  | Some (n, endchar) =>
      if Z.abs n <? 2 ^ 64 then inr (u64 n, endchar) else inl (out_of_range (str "stoull"))
  end.
Definition stoll (s : bytes) : result (Z * nat) :=
  match strto s with
  | None => inl (invalid_argument (str "stoll"))
  | Some (n, endchar) =>
      if bool_decide (in_srange 64 n) then inr (n, endchar) else inl (out_of_range (str "stoll"))
  end.
Definition stoi (s : bytes) : result (Z * nat) :=
  match strto s with
  | None => inl (invalid_argument (str "stoi"))
  | Some (n, endchar) =>
      if bool_decide (in_srange 32 n) then inr (n, endchar) else inl (out_of_range (str "stoi"))
  end.

(** The shift for a K, M, G or T at [endchar]. *)
Definition suffix_shift (value : bytes) (endchar : nat) : Z :=
  match value !! endchar with
  | None => 0
  | Some c =>
      if (c =? 107) || (c =? 75) then 10
      else if (c =? 109) || (c =? 77) then 20
      else if (c =? 103) || (c =? 71) then 30
      else if (c =? 116) || (c =? 84) then 40
      else 0
  end.

(** Shifts of signed numbers wrap, as compilers have them. *)
Definition ParseUint64 (value : bytes) : result Z :=
  r ← stoull value; mret (u64 (r.1 << suffix_shift value r.2)).
Definition ParseInt64 (value : bytes) : result Z :=
  r ← stoll value; mret (to_signed 64 (r.1 << suffix_shift value r.2)).
Definition ParseInt (value : bytes) : result Z :=
  r ← stoi value;
  let k := suffix_shift value r.2 in
  mret (to_signed 32 (r.1 << (if k =? 40 then 0 else k))).

Definition ParseUint32 (value : bytes) : result Z :=
  num ← ParseUint64 value;
  if num >> 32 =? 0 then mret (u32 num) else inl (out_of_range value).
Definition ParseInt32 (value : bytes) : result Z :=
  num ← ParseInt64 value;
  if (num <=? 2 ^ 31 - 1) && (- 2 ^ 31 <=? num) then mret num else inl (out_of_range value).
Definition ParseSizeT (value : bytes) : result Z := ParseUint64 value.

(** [start] has moved past what [rest] no longer holds. *)
Fixpoint parse_vector (fuel : nat) (rest : bytes) : result (list Z) :=
  match fuel, rest with
  | O, _ | _, [] => mret []
  | S fuel', _ =>
      let r := span (λ c, negb (c =? 58)) rest in
      n ← ParseInt r.1;
      match r.2 with
      | [] => mret [n]
      | _ :: rest' => ns ← parse_vector fuel' rest'; mret (n :: ns)
      end
  end.
Definition ParseVectorInt (value : bytes) : result (list Z) := parse_vector (length value) value.

Fixpoint serialize_loop (first : bool) (vec : list Z) (value : bytes) : bytes :=
  match vec with
  | [] => value
  | n :: vec' => serialize_loop false vec' ((if first then value else value ++ [58]) ++ dec_signed n)
  end.
Definition SerializeIntVector (vec : list Z) : bytes := serialize_loop true vec [].
