(* ===== verification/StringUtilCorrect.v ===== *)
(** * String utilities: theorems *)
From S2P Require Import Prelude Decimal StringUtil.

(** ** Digits *)

Lemma span_app p a b :
  Forall (λ c, p c = true) a → (∀ c, head b = Some c → p c = false) → span p (a ++ b) = (a, b).
Proof.
  intros Ha Hb. induction Ha as [|c a Hc Ha IH]; cbn [app span].
  - destruct b as [|c b]; [done|]. simpl. by rewrite (Hb c).
  - rewrite Hc, IH. done.
Qed.
Lemma span_parts p s : let r := span p s in s = r.1 ++ r.2 ∧ Forall (λ c, p c = true) r.1 ∧ ∀ c, head r.2 = Some c → p c = false.
Proof.
  induction s as [|c s (IH1 & IH2 & IH3)]; [by split_and!; [|constructor|]|]. cbn [span].
  destruct (p c) eqn:E; cbn [fst snd].
  - split_and!; [by rewrite IH1 at 1|by constructor|done].
  - split_and!; [done|constructor|]. by intros ? [= <-].
Qed.

Lemma is_digit_range c : is_digit c = true → 48 ≤ c ≤ 57.
Proof. unfold is_digit. intros H. bool_hyps. lia. Qed.

(** The value of digits [ds] read after [v]. *)
Definition value_from (v : Z) (ds : bytes) : Z := fold_left (λ v c, v * 10 + (c - 48)) ds v.
Lemma value_from_ge v ds : 0 ≤ v → Forall (λ c, is_digit c = true) ds → v ≤ value_from v ds.
Proof.
  intros Hv Hd. revert v Hv. induction Hd as [|c ds Hc Hd IH]; intros v Hv; unfold value_from; simpl; [lia|].
  apply is_digit_range in Hc. specialize (IH (v * 10 + (c - 48)) ltac:(lia)). unfold value_from in IH. lia.
Qed.

Lemma consume_loop_spec s v d :
  in_range 64 v →
  let r := span is_digit s in let n := value_from v r.1 in
  if n <? 2 ^ 64 then consume_loop s v d = Consumed r.2 n (d + blen r.1)
  else ∃ rest, consume_loop s v d = Overflow rest.
Proof.
  unfold in_range. revert v d. induction s as [|c s IH]; intros v d Hv.
  - cbn. rewrite (proj2 (Z.ltb_lt _ _)) by lia. f_equal. unfold blen. simpl. lia.
  - cbn [span consume_loop]. change ((48 <=? c) && (c <=? 57)) with (is_digit c).
    destruct (is_digit c) eqn:Hd; cbn [fst snd].
    2: { unfold value_from. simpl. rewrite (proj2 (Z.ltb_lt _ _)) by lia. f_equal. unfold blen. simpl. lia. }
    apply is_digit_range in Hd.
    destruct (span_parts is_digit s) as (_ & Hds & _).
    assert (value_from v (c :: (span is_digit s).1) = value_from (v * 10 + (c - 48)) (span is_digit s).1) as E by done.
    destruct ((kMaxUint64 / 10 <? v) || (v =? kMaxUint64 / 10) && (kMaxUint64 mod 10 <? c - 48)) eqn:Ho.
    + change (kMaxUint64 / 10) with 1844674407370955161 in Ho. change (kMaxUint64 mod 10) with 5 in Ho.
      assert (2 ^ 64 ≤ v * 10 + (c - 48)).
      { change (2 ^ 64) with 18446744073709551616. apply orb_true_iff in Ho as [Ho|Ho]; bool_hyps; lia. }
      pose proof (value_from_ge (v * 10 + (c - 48)) _ ltac:(lia) Hds).
      rewrite E, (proj2 (Z.ltb_ge _ _)) by lia. eauto.
    + change (kMaxUint64 / 10) with 1844674407370955161 in Ho. change (kMaxUint64 mod 10) with 5 in Ho.
      assert (v * 10 + (c - 48) < 2 ^ 64).
      { change (2 ^ 64) with 18446744073709551616. apply orb_false_iff in Ho as [Ho1 Ho2]. bool_hyps.
        apply andb_false_iff in Ho2 as [Ho2|Ho2]; bool_hyps; lia. }
      rewrite wrap_small by (unfold in_range; lia).
      specialize (IH (v * 10 + (c - 48)) (d + 1) ltac:(lia)). rewrite E. cbn zeta in IH.
      destruct (_ <? 2 ^ 64); [|done]. rewrite IH. f_equal. unfold blen. simpl. lia.
Qed.

(** ConsumeDecimalNumber reads the longest run of digits at the start of the
    slice. Without any, or when their value does not fit 64 bits, it fails;
    otherwise it returns the value and leaves the rest of the slice. *)
Theorem ConsumeDecimalNumber_spec s :
  let ds := (span is_digit s).1 in let rest := (span is_digit s).2 in
  s = ds ++ rest ∧ Forall (λ c, is_digit c = true) ds ∧ (∀ c, head rest = Some c → is_digit c = false) ∧
  (if dec_value ds <? 2 ^ 64
   then ConsumeDecimalNumber s = (negb (bool_decide (ds = [])), rest, Some (dec_value ds))
   else ∃ left, ConsumeDecimalNumber s = (false, left, None)).
Proof.
  intros ds rest. destruct (span_parts is_digit s) as (H1 & H2 & H3). split; [done|]. split; [done|]. split; [done|].
  pose proof (consume_loop_spec s 0 0 ltac:(done)) as H. cbn zeta in H. fold ds rest in H.
  change (value_from 0 ds) with (dec_value ds) in H. unfold ConsumeDecimalNumber. destruct (_ <? 2 ^ 64).
  - rewrite H. f_equal. f_equal. unfold blen. destruct ds; [done|]. rewrite bool_decide_eq_false_2 by done. by apply Z.ltb_lt.
  - destruct H as [left ->]. eauto.
Qed.

(** The form the other components use. *)
Lemma consume_digits ds rest n :
  Forall (λ c, is_digit c = true) ds → ds ≠ [] → dec_value ds = n → n < 2 ^ 64 →
  (∀ c, head rest = Some c → is_digit c = false) → ConsumeDecimalNumber (ds ++ rest) = (true, rest, Some n).
Proof.
  intros Hd Hne <- Hn Hr. unfold ConsumeDecimalNumber.
  pose proof (consume_loop_spec (ds ++ rest) 0 0 ltac:(done)) as H. rewrite span_app in H by done. cbn [fst snd] in H.
  change (value_from 0 ds) with (dec_value ds) in H. rewrite (proj2 (Z.ltb_lt _ _) Hn) in H. rewrite H.
  f_equal. f_equal. unfold blen. destruct ds; [done|]. by apply Z.ltb_lt.
Qed.

(** ** Option strings *)

Lemma unescape_acc b s out : unescape_loop b s out = out ++ unescape_loop b s [].
Proof.
  revert b out. induction s as [|c s IH]; intros b out; cbn [unescape_loop]; [by rewrite app_nil_r|].
  destruct b; [|destruct (c =? 92); [apply IH|]];
    rewrite IH, (IH false ([] ++ _)), <- app_assoc; done.
Qed.

Lemma unescape_escape c : isSpecialChar c = true → UnescapeChar (EscapeChar c) = c.
Proof.
  unfold isSpecialChar. rewrite !orb_true_iff, !Z.eqb_eq. by intros [[[[->| ->]| ->]| ->]| ->].
Qed.

Lemma EscapeChar_safe c : isSpecialChar c = true → EscapeChar c ≠ 10 ∧ EscapeChar c ≠ 13.
Proof. unfold isSpecialChar. rewrite !orb_true_iff, !Z.eqb_eq. by intros [[[[->| ->]| ->]| ->]| ->]. Qed.
Lemma not_special c : isSpecialChar c = false → c ≠ 92 ∧ c ≠ 35 ∧ c ≠ 58 ∧ c ≠ 13 ∧ c ≠ 10.
Proof. unfold isSpecialChar. rewrite !orb_false_iff, !Z.eqb_neq. naive_solver. Qed.

Lemma escaped_specials s l1 c l2 : EscapeOptionString s = l1 ++ c :: l2 → c = 35 ∨ c = 58 → last l1 = Some 92.
Proof.
  revert l1. induction s as [|d s IH]; intros l1 E Hc; [by destruct l1|]. cbn [EscapeOptionString] in E.
  destruct (isSpecialChar d) eqn:Hd.
  - destruct l1 as [|x [|y l1]]; simplify_eq/=; [naive_solver|done|].
    assert (last l1 = Some 92) by (by apply IH). by destruct l1.
  - destruct (not_special d Hd) as (_ & ? & ? & _). destruct l1 as [|x l1]; simplify_eq/=; [naive_solver|].
    assert (last l1 = Some 92) by (by apply IH). by destruct l1.
Qed.

(** Option strings survive escaping: UnescapeOptionString inverts
    EscapeOptionString, and in the escaped string no line ends and every '#'
    and ':' follows a backslash, so an options file reads it as one value. *)
Theorem EscapeOptionString_roundtrip s :
  UnescapeOptionString (EscapeOptionString s) = s ∧
  10 ∉ EscapeOptionString s ∧ 13 ∉ EscapeOptionString s ∧
  ∀ l1 c l2, EscapeOptionString s = l1 ++ c :: l2 → c = 35 ∨ c = 58 → last l1 = Some 92.
Proof.
  split_and!; [| | |apply escaped_specials].
  - unfold UnescapeOptionString. induction s as [|c s IH]; [done|]. cbn [EscapeOptionString].
    destruct (isSpecialChar c) eqn:Hc; cbn [app unescape_loop].
    + rewrite unescape_acc, unescape_escape, IH by done. done.
    + destruct (not_special c Hc) as (Hn & _). rewrite (proj2 (Z.eqb_neq c 92) Hn), unescape_acc, IH. done.
  - induction s as [|c s IH]; [apply not_elem_of_nil|]. cbn [EscapeOptionString].
    destruct (isSpecialChar c) eqn:Hc; cbn [app]; rewrite !not_elem_of_cons.
    + by destruct (EscapeChar_safe c Hc).
    + by destruct (not_special c Hc) as (_ & _ & _ & _ & ?).
  - induction s as [|c s IH]; [apply not_elem_of_nil|]. cbn [EscapeOptionString].
    destruct (isSpecialChar c) eqn:Hc; cbn [app]; rewrite !not_elem_of_cons.
    + by destruct (EscapeChar_safe c Hc).
    + by destruct (not_special c Hc) as (_ & _ & _ & ? & _).
Qed.

(** ** Numbers *)

Lemma digit_first ds t c :
  Forall (λ c, is_digit c = true) ds → head (ds ++ t) = Some c → ds ≠ [] → 48 ≤ c ≤ 57.
Proof. intros Hd Hc Hne. destruct Hd as [|x ds Hx _]; [done|]. injection Hc as ->. by apply is_digit_range. Qed.

Lemma strto_digits (neg : bool) ds t :
  Forall (λ c, is_digit c = true) ds → ds ≠ [] → (∀ c, head t = Some c → is_digit c = false) →
  strto ((if neg then [45] else []) ++ ds ++ t) =
    Some (if neg then - dec_value ds else dec_value ds, ((if neg then 1 else 0) + length ds)%nat).
Proof.
  intros Hd Hne Ht. unfold strto.
  assert (∀ c, head ((if neg then [45] else []) ++ ds ++ t) = Some c → isspace c = false) as Hs.
  { intros c Hc. unfold isspace. destruct neg; [injection Hc as <-; done|].
    apply (digit_first ds t c) in Hc; [|done..]. rewrite (proj2 (Z.eqb_neq _ _)), (proj2 (Z.leb_gt c 13)) by lia. by rewrite andb_false_r. }
  pose proof (span_app isspace [] _ (List.Forall_nil _) Hs) as E. cbn [app] in E. rewrite E. cbn [fst snd].
  destruct neg; cbn [app].
  - change (45 =? 45) with true. cbn iota zeta. rewrite span_app by done. cbn [fst snd length].
    destruct ds; [done|]. done.
  - destruct (ds ++ t) as [|c l] eqn:Eds; [by apply app_eq_nil in Eds as [? ?]|].
    assert (48 ≤ c ≤ 57) as Hc by (apply (digit_first ds t); [done|by rewrite Eds|done]).
    rewrite (proj2 (Z.eqb_neq c 45)), (proj2 (Z.eqb_neq c 43)) by lia. cbn zeta. rewrite <- Eds.
    rewrite span_app by done. cbn [fst snd length]. destruct ds; [done|]. done.
Qed.

Lemma dec_value_bound ds : Forall (λ c, is_digit c = true) ds → 0 ≤ dec_value ds.
Proof. intros Hd. by apply (value_from_ge 0). Qed.

Lemma dec_sign n : in_range 64 (Z.abs n) → dec_signed n = (if n <? 0 then [45] else []) ++ dec (Z.abs n).
Proof.
  intros Hn. unfold dec_signed. destruct (Z.ltb_spec n 0); simpl.
  - by rewrite Z.abs_neq by lia.
  - by rewrite Z.abs_eq by lia.
Qed.

Lemma strto_dec n t :
  in_range 64 (Z.abs n) → (∀ c, head t = Some c → is_digit c = false) →
  strto (dec_signed n ++ t) = Some (n, length (dec_signed n)).
Proof.
  intros Hn Ht. destruct (dec_spec _ Hn) as (Hv & Hd & Hne). rewrite dec_sign, <- app_assoc by done.
  rewrite (strto_digits (n <? 0) _ t Hd Hne Ht), Hv. rewrite length_app. f_equal. destruct (Z.ltb_spec n 0); simpl; f_equal; lia.
Qed.

Lemma ParseInt_dec n : in_srange 32 n → ParseInt (dec_signed n) = inr n.
Proof.
  intros Hn. assert (in_range 64 (Z.abs n)) as Ha.
  { unfold in_range, in_srange in *. change (2 ^ (32 - 1)) with 2147483648 in Hn. change (2 ^ 64) with 18446744073709551616. lia. }
  unfold ParseInt, stoi. rewrite <- (app_nil_r (dec_signed n)) at 1. rewrite strto_dec by done.
  rewrite bool_decide_eq_true_2 by done. cbn [mbind result_bind fst snd].
  unfold suffix_shift. rewrite lookup_ge_None_2 by lia. change (0 =? 40) with false. cbn iota zeta. rewrite Z.shiftl_0_r.
  unfold mret, result_ret. f_equal. unfold to_signed, wrap. unfold in_srange in Hn. change (2 ^ (32 - 1)) with 2147483648 in *.
  change (2 ^ 32) with 4294967296. destruct (decide (0 ≤ n)).
  - rewrite Z.mod_small by lia. rewrite (proj2 (Z.ltb_lt _ _)) by lia. done.
  - replace (n mod 4294967296) with (n + 4294967296).
    + rewrite (proj2 (Z.ltb_ge _ _)) by lia. lia.
    + apply (Z.mod_unique _ _ (-1)); [left; lia|lia].
Qed.

Lemma serialize_acc vec b s :
  serialize_loop b vec s = s ++ match vec with [] => [] | n :: _ => (if b then [] else [58]) ++ serialize_loop true vec [] end.
Proof.
  revert b s. induction vec as [|n vec IH]; intros b s; cbn [serialize_loop]; [by rewrite app_nil_r|].
  rewrite IH, (IH false ([] ++ _)). destruct b; cbn [app]; by rewrite <- ?app_assoc.
Qed.

Lemma dec_signed_chars n : in_range 64 (Z.abs n) → Forall (λ c, negb (c =? 58) = true) (dec_signed n) ∧ dec_signed n ≠ [].
Proof.
  intros Hn. destruct (dec_spec _ Hn) as (_ & Hd & Hne). rewrite dec_sign by done. split.
  - apply Forall_app. split; [by destruct (n <? 0); repeat constructor|]. eapply Forall_impl; [exact Hd|].
    intros c Hc%is_digit_range. simpl. rewrite (proj2 (Z.eqb_neq _ _)); [done|lia].
  - intros E. by apply app_eq_nil in E as [_ E].
Qed.

Lemma int_fits n : in_srange 32 n → in_range 64 (Z.abs n).
Proof.
  unfold in_range, in_srange. change (2 ^ (32 - 1)) with 2147483648. change (2 ^ 64) with 18446744073709551616. lia.
Qed.

Lemma parse_vector_serialized fuel vec :
  Forall (in_srange 32) vec → (length (SerializeIntVector vec) ≤ fuel)%nat →
  parse_vector fuel (SerializeIntVector vec) = inr vec.
Proof.
  intros Hv. revert fuel. unfold SerializeIntVector. induction Hv as [|n vec Hn Hv IH]; intros fuel Hf.
  - by destruct fuel.
  - destruct (dec_signed_chars n (int_fits n Hn)) as [Hc Hne].
    cbn [serialize_loop app] in *. rewrite (serialize_acc vec false (dec_signed n)) in *. cbn iota in *.
    set (tail := match vec with [] => [] | _ => _ end) in *.
    assert (span (λ c, negb (c =? 58)) (dec_signed n ++ tail) = (dec_signed n, tail)) as Es.
    { apply span_app; [done|]. intros c. subst tail. destruct vec; [done|]. by intros [= <-]. }
    destruct fuel as [|fuel].
    { destruct (dec_signed n); [done|]. simpl in Hf. lia. }
    cbn [parse_vector]. rewrite Es. cbn [fst snd]. rewrite ParseInt_dec by done. cbn [mbind result_bind].
    destruct (dec_signed n ++ tail) as [|x l] eqn:E; [by apply app_eq_nil in E as [? _]|].
    subst tail. destruct vec as [|m vec]; [done|]. cbn [app]. rewrite IH; [done|].
    rewrite <- E, length_app in Hf. destruct (dec_signed n); [done|]. cbn [app length] in *. lia.
Qed.

(** SerializeIntVector and ParseVectorInt are inverse on every vector of
    [int]s, the empty one and negative numbers included. *)
Theorem SerializeIntVector_roundtrip vec :
  Forall (in_srange 32) vec → ParseVectorInt (SerializeIntVector vec) = inr vec.
Proof. intros Hv. by apply parse_vector_serialized. Qed.

Lemma SerializeIntVector_roundtrip_witness :
  SerializeIntVector [1; -20; 2147483647] = str "1:-20:2147483647" ∧
  ParseVectorInt (SerializeIntVector [1; -20; 2147483647]) = inr [1; -20; 2147483647].
Proof.
  split; [reflexivity|]. apply SerializeIntVector_roundtrip. repeat constructor; discriminate || reflexivity.
Defined.

(** ** Boundary cases *)

(** [trim] leaves one blank of a string of blanks. *)
Lemma trim_keeps_a_blank : trim (str "   ") = str " ".
Proof. reflexivity. Qed.

(** A suffix can shift the number out: 2^24 tebibytes read as zero. *)
Lemma ParseUint64_suffix_overflows : ParseUint64 (str "16777216T") = inr 0.
Proof. reflexivity. Qed.
(** A negative number is read as a huge one. *)
Lemma ParseUint64_negative : ParseUint64 (str "-1") = inr (2 ^ 64 - 1).
Proof. reflexivity. Qed.

Lemma dec_digits_length fuel n : (length (dec_digits fuel n) ≤ fuel)%nat.
Proof.
  revert n. induction fuel as [|fuel IH]; intros n; cbn [dec_digits]; [done|].
  rewrite length_app. simpl. destruct (n <? 10); [simpl; lia|]. specialize (IH (n / 10)). lia.
Qed.

Lemma ParseUint64_dec n t :
  in_range 64 n → (∀ c, head t = Some c → is_digit c = false) →
  ParseUint64 (NumberToString n ++ t) = inr (u64 (n << suffix_shift t 0)).
Proof.
  intros Hn Ht. unfold NumberToString, AppendNumberTo, snprintf.
  assert (dec n = dec_signed n) as E by (unfold dec_signed; by rewrite (proj2 (Z.ltb_ge _ _)) by apply Hn).
  pose proof (dec_digits_length 20 n) as Hl. fold (dec n) in Hl.
  cbn [app]. rewrite take_ge by lia. unfold ParseUint64, stoull. rewrite E, strto_dec by (rewrite ?Z.abs_eq by apply Hn; done).
  rewrite Z.abs_eq, (proj2 (Z.ltb_lt _ _)) by apply Hn. cbn [mbind result_bind fst snd]. unfold mret, result_ret. f_equal.
  rewrite (wrap_small 64 n) by done. do 2 f_equal. unfold suffix_shift. by rewrite lookup_app_r, Nat.sub_diag by lia.
Qed.
