(* ===== verification/Filename.v ===== *)
(** * Names of the database's files (file/filename.h and file/filename.cc)

    The functions that make a file's name, the parser that recognises them,
    and the protocol that points CURRENT at a new manifest. The file system is
    the abstract class FileSystem: a type class with the operations the code
    calls, on a state of the implementation's own. *)
From S2P Require Import Prelude Decimal Status StringUtil.

(** ** Making names *)

Definition kRocksDbTFileExt : bytes := str "sst".
Definition kLevelDbTFileExt : bytes := str "ldb".
Definition kRocksDBBlobFileExt : bytes := str "blob".
Definition ARCHIVAL_DIR : bytes := str "archive".
Definition kOptionsFileNamePrefix : bytes := str "OPTIONS-".
Definition kTempFileNameSuffix : bytes := str "dbtmp".

Inductive FileType :=
  | kLogFile | kDBLockFile | kTableFile | kDescriptorFile | kCurrentFile | kTempFile | kInfoLogFile
  | kMetaDatabase | kIdentityFile | kOptionsFile | kBlobFile.
#[export] Instance FileType_eq_dec : EqDecision FileType.
Proof. solve_decision. Defined.
Inductive WalFileType := kArchivedLogFile | kAliveLogFile.

Definition slash : bytes := str "/".

Definition MakeFileName (number : Z) (suffix : bytes) : bytes :=
  snprintf 100 (dec_padded 6 number ++ str "." ++ suffix).
Definition MakeFileNameIn (name : bytes) (number : Z) (suffix : bytes) : bytes :=
  name ++ slash ++ MakeFileName number suffix.
Definition LogFileName (number : Z) : bytes := MakeFileName number (str "log").
Definition LogFileNameIn (name : bytes) (number : Z) : bytes := MakeFileNameIn name number (str "log").
Definition BlobFileName (blobdirname : bytes) (number : Z) : bytes := MakeFileNameIn blobdirname number kRocksDBBlobFileExt.
Definition BlobFileNameIn (dbname blob_dir : bytes) (number : Z) : bytes :=
  MakeFileNameIn (dbname ++ slash ++ blob_dir) number kRocksDBBlobFileExt.
Definition ArchivalDirectory (dir : bytes) : bytes := dir ++ slash ++ ARCHIVAL_DIR.
Definition ArchivedLogFileName (name : bytes) (number : Z) : bytes :=
  MakeFileNameIn (name ++ slash ++ ARCHIVAL_DIR) number (str "log").
Definition MakeTableFileNameIn (path : bytes) (number : Z) : bytes := MakeFileNameIn path number kRocksDbTFileExt.
Definition MakeTableFileName (number : Z) : bytes := MakeFileName number kRocksDbTFileExt.

Definition Rocks2LevelTableFileName (fullname : bytes) : bytes :=
  if blen fullname <=? blen kRocksDbTFileExt + 1 then []
  else take (length fullname - length kRocksDbTFileExt) fullname ++ kLevelDbTFileExt.

(** [find_last_of('.')], then the digits before it, the last one first. *)
Definition last_dot (name : bytes) : Z :=
  match list_find (λ c, c = 46) (reverse name) with
  | Some (i, _) => blen name - 1 - Z.of_nat i
  | None => -1
  end.
Fixpoint number_loop (before : bytes) (number base : Z) : Z :=
  match before with
  | c :: s =>
      if (48 <=? c) && (c <=? 57) then number_loop s (u64 (number + u64 ((c - 48) * base))) (u64 (base * 10)) else number
  | [] => number
  end.
Definition TableFileNameToNumber (name : bytes) : Z :=
  number_loop (reverse (take (Z.to_nat (last_dot name)) name)) 0 1.

(** [db_paths.back()] of no paths is undefined. *)
Definition TableFileName (db_paths : list bytes) (number path_id : Z) : option bytes :=
  path ← (if Z.of_nat (length db_paths) <=? path_id then last db_paths else db_paths !! Z.to_nat path_id);
  Some (MakeTableFileNameIn path number).

Definition FormatFileNumber (number path_id : Z) (out_buf_size : nat) : bytes :=
  snprintf out_buf_size
    (if path_id =? 0 then dec number else dec number ++ str "(path " ++ dec path_id ++ str ")").

Definition DescriptorFileName (dbname : bytes) (number : Z) : bytes :=
  dbname ++ snprintf 100 (str "/MANIFEST-" ++ dec_padded 6 number).
Definition CurrentFileName (dbname : bytes) : bytes := dbname ++ str "/CURRENT".
Definition LockFileName (dbname : bytes) : bytes := dbname ++ str "/LOCK".
Definition TempFileName (dbname : bytes) (number : Z) : bytes := MakeFileNameIn dbname number kTempFileNameSuffix.
Definition OptionsFileName (dbname : bytes) (file_num : Z) : bytes :=
  dbname ++ slash ++ snprintf 256 (kOptionsFileNamePrefix ++ dec_padded 6 file_num).
Definition TempOptionsFileName (dbname : bytes) (file_num : Z) : bytes :=
  dbname ++ slash ++ snprintf 256 (kOptionsFileNamePrefix ++ dec_padded 6 file_num ++ str "." ++ kTempFileNameSuffix).
Definition MetaDatabaseName (dbname : bytes) (number : Z) : bytes :=
  dbname ++ snprintf 100 (str "/METADB-" ++ dec number).
Definition IdentityFileName (dbname : bytes) : bytes := dbname ++ str "/IDENTITY".

(** *** Info logs *)

Definition plain_char (c : Z) : bool :=
  (97 <=? c) && (c <=? 122) || (48 <=? c) && (c <=? 57) || (65 <=? c) && (c <=? 90) ||
  (c =? 45) || (c =? 46) || (c =? 95).
(** [room]: what is left of [len - sizeof(suffix)]. *)
Fixpoint flatten_path (path : bytes) (first : bool) (room : Z) : bytes :=
  match path with
  | [] => []
  | c :: path' =>
      if room <=? 0 then []
      else if plain_char c then c :: flatten_path path' false (room - 1)
      else if first then flatten_path path' false room
      else 95 :: flatten_path path' false (room - 1)
  end.
Definition GetInfoLogPrefix (path : bytes) (len : nat) : bytes :=
  let d := flatten_path path true (Z.of_nat len - 5) in d ++ snprintf (len - length d) (str "_LOG").

(** [buf] and [prefix] hold the same text. *)
Definition InfoLogPrefix (has_log_dir : bool) (db_absolute_path : bytes) : bytes :=
  if negb has_log_dir then snprintf 260 (str "LOG") else GetInfoLogPrefix db_absolute_path 260.

Definition InfoLogFileName (dbname db_path log_dir : bytes) : bytes :=
  match log_dir with
  | [] => dbname ++ str "/LOG"
  | _ => log_dir ++ slash ++ InfoLogPrefix true db_path
  end.
Definition OldInfoLogFileName (dbname : bytes) (ts : Z) (db_path log_dir : bytes) : bytes :=
  let buf := snprintf 50 (dec ts) in
  match log_dir with
  | [] => dbname ++ str "/LOG.old." ++ buf
  | _ => log_dir ++ slash ++ InfoLogPrefix true db_path ++ str ".old." ++ buf
  end.

(** ** Parsing *)

Definition starts_with (s x : bytes) : bool := bool_decide (take (length x) s = x).
Definition ends_with (s x : bytes) : bool := (blen x <=? blen s) && bool_decide (drop (length s - length x) s = x).

(** The out parameters; [None] where nothing was written. *)
Record parsed := mkParsed { number_ : option Z; type_ : option FileType; log_type_ : option WalFileType }.
Definition untouched : parsed := mkParsed None None None.
Definition named (n : Z) (t : FileType) : parsed := mkParsed (Some n) (Some t) None.

Definition number_of (s : bytes) : option (Z * bytes) :=
  match ConsumeDecimalNumber s with
  | (true, rest, Some n) => Some (n, rest)
  | _ => None
  end.

(** What follows the info log prefix. *)
Definition parse_info_log (rest : bytes) : bool * parsed :=
  if bool_decide (rest = []) || bool_decide (rest = str ".old") then (true, named 0 kInfoLogFile)
  else if starts_with rest (str ".old.") then
    match number_of (drop 5 rest) with
    | None => (false, untouched)
    | Some (ts_suffix, _) => (true, named ts_suffix kInfoLogFile)
    end
  else (true, untouched).

(** MANIFEST- and METADB-. *)
Definition parse_only_number (rest : bytes) (t : FileType) : bool * parsed :=
  match number_of rest with
  | Some (num, []) => (true, named num t)
  | _ => (false, untouched)
  end.

Definition parse_options (rest : bytes) : bool * parsed :=
  let suffix := str "." ++ kTempFileNameSuffix in
  let is_temp_file := ends_with rest suffix in
  let rest := if is_temp_file then take (length rest - length suffix) rest else rest in
  match number_of rest with
  | None => (false, untouched)
  | Some (ts_suffix, _) => (true, named ts_suffix (if is_temp_file then kTempFile else kOptionsFile))
  end.

(** [wants_log]: the caller passes a [log_type] to fill. *)
Definition parse_numbered (rest : bytes) (wants_log : bool) : bool * parsed :=
  let archive_dir_found := starts_with rest ARCHIVAL_DIR in
  if archive_dir_found && (blen rest <=? blen ARCHIVAL_DIR) then (false, untouched)
  else
    let rest := if archive_dir_found then drop (length ARCHIVAL_DIR + 1) rest else rest in
    let log_type := if archive_dir_found && wants_log then Some kArchivedLogFile else None in
    let fail := (false, mkParsed None None log_type) in
    match number_of rest with
    | None => fail
    | Some (num, rest) =>
        if (blen rest <=? 1) || negb (byte_at rest 0 =? 46) then fail
        else
          let suffix := drop 1 rest in
          if bool_decide (suffix = str "log") then
            (true, mkParsed (Some num) (Some kLogFile)
              (if wants_log && negb archive_dir_found then Some kAliveLogFile else log_type))
          else if archive_dir_found then fail
          else if bool_decide (suffix = kRocksDbTFileExt) || bool_decide (suffix = kLevelDbTFileExt)
          then (true, named num kTableFile)
          else if bool_decide (suffix = kRocksDBBlobFileExt) then (true, named num kBlobFile)
          else if bool_decide (suffix = kTempFileNameSuffix) then (true, named num kTempFile)
          else fail
    end.

Definition strip_slash (fname : bytes) : bytes :=
  if (1 <? blen fname) && (byte_at fname 0 =? 47) then drop 1 fname else fname.

Definition ParseFileName (fname info_log_name_prefix : bytes) (wants_log : bool) : bool * parsed :=
  let rest := strip_slash fname in
  if bool_decide (rest = str "IDENTITY") then (true, named 0 kIdentityFile)
  else if bool_decide (rest = str "CURRENT") then (true, named 0 kCurrentFile)
  else if bool_decide (rest = str "LOCK") then (true, named 0 kDBLockFile)
  else if (0 <? blen info_log_name_prefix) && starts_with rest info_log_name_prefix then
    parse_info_log (drop (length info_log_name_prefix) rest)
  else if starts_with rest (str "MANIFEST-") then parse_only_number (drop 9 rest) kDescriptorFile
  else if starts_with rest (str "METADB-") then parse_only_number (drop 7 rest) kMetaDatabase
  else if starts_with rest kOptionsFileNamePrefix then parse_options (drop (length kOptionsFileNamePrefix) rest)
  else parse_numbered rest wants_log.

(** ** The file system *)

(** An operation may fail; its answer tells. *)
Class FileSystem (F : Type) := {
  NewWritableFile : bytes → F → Status * F;
  Append : bytes → bytes → F → Status * F;
  Sync : bytes → F → Status * F;
  RenameFile : bytes → bytes → F → Status * F;
  DeleteFile : bytes → F → Status * F;
  FsyncDirectory : F → Status * F;
  GetChildren : bytes → F → (Status * list bytes) * F;
  GenerateUniqueId : F → bytes * F;
}.

Section file_system.
Context {F : Type} `{FileSystem F}.

Definition WriteStringToFile (data fname : bytes) (should_sync : bool) (fs : F) : Status * F :=
  let r := NewWritableFile fname fs in
  if negb (ok r.1) then r
  else
    let r := Append fname data r.2 in
    let r := if ok r.1 && should_sync then Sync fname r.2 else r in
    if negb (ok r.1) then (r.1, (DeleteFile fname r.2).2) else r.

(** [sync_directory]: the caller passes a directory to fsync. *)
Definition SetCurrentFile (dbname : bytes) (descriptor_number : Z) (sync_directory : bool) (fs : F) : Status * F :=
  let manifest := DescriptorFileName dbname descriptor_number in
  let contents := drop (length dbname + 1) manifest in
  let tmp := TempFileName dbname descriptor_number in
  let r := WriteStringToFile (contents ++ [10]) tmp true fs in
  let r := if ok r.1 then RenameFile tmp (CurrentFileName dbname) r.2 else r in
  if ok r.1 then if sync_directory then FsyncDirectory r.2 else r
  else (r.1, (DeleteFile tmp r.2).2).

Definition SetIdentityFile (dbname db_id : bytes) (fs : F) : Status * F :=
  let '(id, fs) := match db_id with [] => GenerateUniqueId fs | _ => (db_id, fs) end in
  let tmp := TempFileName dbname 0 in
  let r := WriteStringToFile id tmp true fs in
  let r := if ok r.1 then RenameFile tmp (IdentityFileName dbname) r.2 else r in
  if ok r.1 then r else (r.1, (DeleteFile tmp r.2).2).

(** The type and number of the last name that set them are kept. *)
Fixpoint info_logs (prefix : bytes) (file_names : list bytes) (type : FileType) : list bytes :=
  match file_names with
  | [] => []
  | f :: rest =>
      let p := ParseFileName f prefix false in
      let type' := default type (type_ p.2) in
      (if p.1 && bool_decide (type' = kInfoLogFile) then [f] else []) ++ info_logs prefix rest type'
  end.
Definition GetInfoLogFiles (db_log_dir dbname : bytes) (fs : F) : (Status * (bytes * list bytes)) * F :=
  let parent_dir := match db_log_dir with [] => dbname | _ => db_log_dir end in
  let prefix := InfoLogPrefix (match db_log_dir with [] => false | _ => true end) dbname in
  let '((s, file_names), fs) := GetChildren parent_dir fs in
  if negb (ok s) then ((s, (parent_dir, [])), fs)
  else ((OK, (parent_dir, info_logs prefix file_names kLogFile)), fs).
End file_system.

Fixpoint normalize_loop (path dst : bytes) : bytes :=
  match path with
  | [] => dst
  | c :: path' =>
      if negb (bool_decide (dst = [])) && (c =? 47) && bool_decide (last dst = Some 47)
      then normalize_loop path' dst else normalize_loop path' (dst ++ [c])
  end.
Definition NormalizePath (path : bytes) : bytes := normalize_loop path [].
