(* ===== verification/FilenameCorrect.v ===== *)
(** * Names of the database's files: theorems *)
From S2P Require Import Prelude Decimal Status StringUtil StringUtilCorrect Filename.

(** ** Prefixes *)

Lemma starts_with_app p x : starts_with (p ++ x) p = true.
Proof. unfold starts_with. rewrite take_app_length. by apply bool_decide_eq_true_2. Qed.
Lemma starts_with_split s p : starts_with s p = true → s = p ++ drop (length p) s.
Proof. unfold starts_with. intros E%bool_decide_eq_true_1. rewrite <- E at 1. by rewrite take_drop. Qed.
Lemma ends_with_split s p : ends_with s p = true → s = take (length s - length p) s ++ p.
Proof.
  unfold ends_with. intros [_ E%bool_decide_eq_true_1]%andb_true_iff.
  rewrite <- (take_drop (length s - length p) s) at 1. by rewrite E.
Qed.
Lemma ends_with_app x p : ends_with (x ++ p) p = true.
Proof.
  unfold ends_with. rewrite length_app, Nat.add_sub, drop_app_length. apply andb_true_iff. split.
  - apply Z.leb_le. unfold blen. rewrite length_app. lia.
  - by apply bool_decide_eq_true_2.
Qed.

(** A string with an upper-case L in it is no prefix of one without. *)
Lemma starts_with_absent s p c : c ∈ p → c ∉ s → starts_with s p = false.
Proof.
  intros Hp Hs. unfold starts_with. apply bool_decide_eq_false_2. intros E. apply Hs.
  rewrite <- E in Hp. revert Hp. apply elem_of_take_sub.
Qed.

Lemma not_prefix_neq s p : starts_with s p = false → bool_decide (s = p) = false.
Proof.
  intros H. apply bool_decide_eq_false_2. intros ->. revert H. unfold starts_with. rewrite take_ge by done.
  by rewrite bool_decide_eq_true_2.
Qed.
Lemma starts_with_head s p c d : head s = Some c → head p = Some d → c ≠ d → starts_with s p = false.
Proof.
  intros Hs Hp Hne. unfold starts_with. apply bool_decide_eq_false_2. destruct s, p; simplify_eq/=. intros [= ? ?]. congruence.
Qed.

(** ** Numbers in names *)

Lemma number_of_padded w n rest :
  in_range 64 n → (∀ c, head rest = Some c → is_digit c = false) → number_of (dec_padded w n ++ rest) = Some (n, rest).
Proof.
  intros Hn Hr. destruct (dec_padded_spec w n Hn) as (Hv & Hd & Hne). unfold number_of.
  rewrite (consume_digits _ rest n); [done|done|done|done|apply Hn|done].
Qed.
Lemma dec_as_padded n : dec n = dec_padded 0 n.
Proof. done. Qed.
Lemma number_of_dec n rest :
  in_range 64 n → (∀ c, head rest = Some c → is_digit c = false) → number_of (dec n ++ rest) = Some (n, rest).
Proof. rewrite dec_as_padded. apply number_of_padded. Qed.

Lemma dec_padded_length w n : (w ≤ 20)%nat → (length (dec_padded w n) ≤ 20)%nat.
Proof.
  intros Hw. unfold dec_padded. rewrite length_app, length_replicate. pose proof (dec_digits_length 20 n). unfold dec. lia.
Qed.
Lemma digits_head ds t : Forall (λ c, is_digit c = true) ds → ds ≠ [] → ∃ c, head (ds ++ t) = Some c ∧ 48 ≤ c ≤ 57.
Proof. intros Hd Hne. destruct Hd as [|c ds Hc _]; [done|]. exists c. split; [done|]. by apply is_digit_range. Qed.
Lemma digits_no_letter ds c : Forall (λ c, is_digit c = true) ds → 57 < c → c ∉ ds.
Proof. intros Hd Hc Hin. rewrite Forall_forall in Hd. apply Hd, is_digit_range in Hin. lia. Qed.

Lemma MakeFileName_text n suffix : (length suffix ≤ 5)%nat → MakeFileName n suffix = dec_padded 6 n ++ str "." ++ suffix.
Proof.
  intros Hs. unfold MakeFileName, snprintf. apply take_ge. rewrite !length_app. pose proof (dec_padded_length 6 n ltac:(lia)).
  simpl. lia.
Qed.

Lemma strip_slash_cons s : s ≠ [] → strip_slash (slash ++ s) = s.
Proof.
  intros Hs. unfold strip_slash. destruct s as [|c s]; [done|].
  assert (1 <? blen (slash ++ c :: s) = true) as -> by (apply Z.ltb_lt; unfold blen; simpl; lia). done.
Qed.

Lemma strip_slash_other s c : head s = Some c → c ≠ 47 → strip_slash s = s.
Proof.
  intros Hs Hc. destruct s as [|d s]; [done|]. injection Hs as ->. unfold strip_slash, byte_at. simpl.
  rewrite (proj2 (Z.eqb_neq c 47) Hc). by rewrite andb_false_r.
Qed.
Lemma ParseFileName_strip s t prefix wants :
  strip_slash s = strip_slash t → ParseFileName s prefix wants = ParseFileName t prefix wants.
Proof. intros E. unfold ParseFileName. by rewrite E. Qed.

(** ** The info log prefix *)

Lemma flatten_path_length path first room : 0 ≤ room → Z.of_nat (length (flatten_path path first room)) ≤ room.
Proof.
  revert first room. induction path as [|c path IH]; intros first room Hr; cbn [flatten_path]; [simpl; lia|].
  destruct (Z.leb_spec room 0); [simpl; lia|]. destruct (plain_char c); [|destruct first].
  - cbn [length]. specialize (IH false (room - 1)). lia.
  - by apply IH.
  - cbn [length]. specialize (IH false (room - 1)). lia.
Qed.
Lemma InfoLogPrefix_text b path : ∃ d, InfoLogPrefix b path = d ++ str "LOG".
Proof.
  destruct b; unfold InfoLogPrefix; [|by exists []]. cbn [negb]. unfold GetInfoLogPrefix.
  pose proof (flatten_path_length path true 255 ltac:(lia)) as Hl. change (Z.of_nat 260 - 5) with 255.
  set (d := flatten_path path true 255) in *. exists (d ++ str "_"). unfold snprintf. rewrite take_ge by (simpl; lia).
  by rewrite <- app_assoc.
Qed.
Lemma InfoLogPrefix_L b path : 76 ∈ InfoLogPrefix b path.
Proof. destruct (InfoLogPrefix_text b path) as [d ->]. apply elem_of_app. right. left. Qed.
Lemma not_info_log s b path : 76 ∉ s → (0 <? blen (InfoLogPrefix b path)) && starts_with s (InfoLogPrefix b path) = false.
Proof. intros Hs. rewrite (starts_with_absent s _ 76); [by rewrite andb_false_r|apply InfoLogPrefix_L|done]. Qed.

(** ** Made names parse back *)

(** A numbered name is none of the names with a letter in front. *)
Lemma parse_numbered_name ds t b path wants :
  Forall (λ c, is_digit c = true) ds → ds ≠ [] → 76 ∉ t →
  ParseFileName (slash ++ ds ++ t) (InfoLogPrefix b path) wants = parse_numbered (ds ++ t) wants.
Proof.
  intros Hd Hne Ht. unfold ParseFileName. cbn zeta. rewrite strip_slash_cons by (intros E; by apply app_eq_nil in E as [? _]).
  destruct (digits_head ds t Hd Hne) as (c & Hc & Hr).
  assert (∀ p d, head p = Some d → 57 < d → starts_with (ds ++ t) p = false) as Hp.
  { intros p d Hp Hlt. apply (starts_with_head _ _ c d); [done|done|lia]. }
  rewrite (not_prefix_neq _ (str "IDENTITY")), (not_prefix_neq _ (str "CURRENT")), (not_prefix_neq _ (str "LOCK")) by (by eapply Hp). rewrite not_info_log.
  2: { rewrite not_elem_of_app. split; [|done]. by apply digits_no_letter. }
  by rewrite (Hp (str "MANIFEST-") 77), (Hp (str "METADB-") 77), (Hp kOptionsFileNamePrefix 79).
Qed.

Lemma parse_made n suffix b path wants :
  in_range 64 n → 76 ∉ suffix → (length suffix ≤ 5)%nat →
  ParseFileName (slash ++ MakeFileName n suffix) (InfoLogPrefix b path) wants =
  parse_numbered (dec_padded 6 n ++ str "." ++ suffix) wants.
Proof.
  intros Hn Hs Hl. rewrite MakeFileName_text by done. destruct (dec_padded_spec 6 n Hn) as (_ & Hd & Hne).
  apply parse_numbered_name; [done|done|]. rewrite not_elem_of_app. split; [|done]. change (76 ∉ [46]). set_solver.
Qed.

Lemma parse_numbered_padded n suffix wants :
  in_range 64 n → suffix ≠ [] →
  parse_numbered (dec_padded 6 n ++ str "." ++ suffix) wants =
    (if bool_decide (suffix = str "log") then
       (true, mkParsed (Some n) (Some kLogFile) (if wants then Some kAliveLogFile else None))
     else if bool_decide (suffix = kRocksDbTFileExt) || bool_decide (suffix = kLevelDbTFileExt) then (true, named n kTableFile)
     else if bool_decide (suffix = kRocksDBBlobFileExt) then (true, named n kBlobFile)
     else if bool_decide (suffix = kTempFileNameSuffix) then (true, named n kTempFile)
     else (false, untouched)).
Proof.
  intros Hn Hs. destruct (dec_padded_spec 6 n Hn) as (_ & Hd & Hne).
  destruct (digits_head _ (str "." ++ suffix) Hd Hne) as (c & Hc & Hr).
  unfold parse_numbered. rewrite (starts_with_head _ ARCHIVAL_DIR c 97) by (done || lia). cbn [andb].
  rewrite number_of_padded by (done || by intros ? [= <-]).
  assert (blen (str "." ++ suffix) <=? 1 = false) as ->.
  { apply Z.leb_gt. unfold blen. destruct suffix; [done|]. simpl. lia. }
  change (byte_at (str "." ++ suffix) 0) with 46. change (46 =? 46) with true. cbn [negb orb andb].
  rewrite andb_true_r. change (drop 1 (str "." ++ suffix)) with suffix. done.
Qed.

(** A name that starts with a literal. *)
Lemma parse_literal lit s b path wants :
  76 ∉ lit ++ s → lit ≠ [] →
  ParseFileName (slash ++ lit ++ s) (InfoLogPrefix b path) wants =
  (if bool_decide (lit ++ s = str "IDENTITY") then (true, named 0 kIdentityFile)
   else if bool_decide (lit ++ s = str "CURRENT") then (true, named 0 kCurrentFile)
   else if bool_decide (lit ++ s = str "LOCK") then (true, named 0 kDBLockFile)
   else if starts_with (lit ++ s) (str "MANIFEST-") then parse_only_number (drop 9 (lit ++ s)) kDescriptorFile
   else if starts_with (lit ++ s) (str "METADB-") then parse_only_number (drop 7 (lit ++ s)) kMetaDatabase
   else if starts_with (lit ++ s) kOptionsFileNamePrefix
   then parse_options (drop (length kOptionsFileNamePrefix) (lit ++ s))
   else parse_numbered (lit ++ s) wants).
Proof.
  intros HL Hne. unfold ParseFileName. cbn zeta.
  rewrite strip_slash_cons by (intros E; by apply app_eq_nil in E as [? _]). by rewrite not_info_log.
Qed.

Lemma padded_no_letter w n c : in_range 64 n → 57 < c → c ∉ dec_padded w n.
Proof. intros Hn Hc. destruct (dec_padded_spec w n Hn) as (_ & Hd & _). by apply digits_no_letter. Qed.

Lemma parse_only_number_padded w n t : in_range 64 n → parse_only_number (dec_padded w n) t = (true, named n t).
Proof.
  intros Hn. unfold parse_only_number. rewrite <- (app_nil_r (dec_padded w n)), number_of_padded by done. done.
Qed.

Lemma parse_manifest n b path wants :
  in_range 64 n → ParseFileName (str "/MANIFEST-" ++ dec_padded 6 n) (InfoLogPrefix b path) wants = (true, named n kDescriptorFile).
Proof.
  intros Hn. change (str "/MANIFEST-" ++ dec_padded 6 n) with (slash ++ str "MANIFEST-" ++ dec_padded 6 n).
  rewrite parse_literal; [|rewrite not_elem_of_app; split; [by vm_compute; set_solver|by apply padded_no_letter]|done].
  rewrite !bool_decide_eq_false_2 by done. rewrite starts_with_app.
  change (drop 9 (str "MANIFEST-" ++ dec_padded 6 n)) with (dec_padded 6 n). by apply parse_only_number_padded.
Qed.

Lemma parse_metadb n b path wants :
  in_range 64 n → ParseFileName (str "/METADB-" ++ dec n) (InfoLogPrefix b path) wants = (true, named n kMetaDatabase).
Proof.
  intros Hn. change (str "/METADB-" ++ dec n) with (slash ++ str "METADB-" ++ dec_padded 0 n).
  rewrite parse_literal; [|rewrite not_elem_of_app; split; [by vm_compute; set_solver|by apply padded_no_letter]|done].
  rewrite !bool_decide_eq_false_2 by done.
  replace (starts_with (str "METADB-" ++ dec_padded 0 n) (str "MANIFEST-")) with false
    by (symmetry; by apply bool_decide_eq_false_2). rewrite starts_with_app.
  change (drop 7 (str "METADB-" ++ dec_padded 0 n)) with (dec_padded 0 n). by apply parse_only_number_padded.
Qed.

Lemma parse_options_name n (temp : bool) b path wants :
  in_range 64 n →
  ParseFileName (slash ++ kOptionsFileNamePrefix ++ dec_padded 6 n ++ (if temp then str "." ++ kTempFileNameSuffix else []))
    (InfoLogPrefix b path) wants = (true, named n (if temp then kTempFile else kOptionsFile)).
Proof.
  intros Hn. rewrite parse_literal; [|rewrite !not_elem_of_app; split_and!; [by vm_compute; set_solver|by apply padded_no_letter|by destruct temp; vm_compute; set_solver]|done].
  rewrite !bool_decide_eq_false_2 by done.
  set (t := dec_padded 6 n ++ _).
  replace (starts_with (kOptionsFileNamePrefix ++ t) (str "MANIFEST-")) with false by (symmetry; by apply bool_decide_eq_false_2).
  replace (starts_with (kOptionsFileNamePrefix ++ t) (str "METADB-")) with false by (symmetry; by apply bool_decide_eq_false_2).
  rewrite starts_with_app. change (drop (length kOptionsFileNamePrefix) (kOptionsFileNamePrefix ++ t)) with t. subst t.
  unfold parse_options. destruct temp.
  - rewrite ends_with_app, length_app, Nat.add_sub, take_app_length.
    rewrite <- (app_nil_r (dec_padded 6 n)), number_of_padded by done. done.
  - destruct (ends_with (dec_padded 6 n ++ []) (str "." ++ kTempFileNameSuffix)) eqn:E.
    + apply ends_with_split in E. exfalso. apply (padded_no_letter 6 n 116 Hn); [done|].
      rewrite app_nil_r in E. rewrite E. apply elem_of_app. right. vm_compute. set_solver.
    + by rewrite number_of_padded.
Qed.

Lemma parse_archived n b path wants :
  in_range 64 n →
  ParseFileName (slash ++ ARCHIVAL_DIR ++ slash ++ LogFileName n) (InfoLogPrefix b path) wants =
    (true, mkParsed (Some n) (Some kLogFile) (if wants then Some kArchivedLogFile else None)).
Proof.
  intros Hn. unfold LogFileName. rewrite MakeFileName_text by (simpl; lia).
  rewrite parse_literal; [|rewrite !not_elem_of_app; split_and!; [by vm_compute; set_solver|by vm_compute; set_solver|by apply padded_no_letter|by vm_compute; set_solver..]|done].
  set (t := slash ++ dec_padded 6 n ++ _). rewrite !bool_decide_eq_false_2 by done.
  replace (starts_with (ARCHIVAL_DIR ++ t) (str "MANIFEST-")) with false by (symmetry; by apply bool_decide_eq_false_2).
  replace (starts_with (ARCHIVAL_DIR ++ t) (str "METADB-")) with false by (symmetry; by apply bool_decide_eq_false_2).
  replace (starts_with (ARCHIVAL_DIR ++ t) kOptionsFileNamePrefix) with false by (symmetry; by apply bool_decide_eq_false_2).
  unfold parse_numbered. rewrite starts_with_app.
  replace (blen (ARCHIVAL_DIR ++ t) <=? blen ARCHIVAL_DIR) with false
    by (symmetry; apply Z.leb_gt; unfold blen; rewrite length_app; subst t; simpl; lia).
  cbn [andb]. change (drop (length ARCHIVAL_DIR + 1) (ARCHIVAL_DIR ++ t)) with (dec_padded 6 n ++ str "." ++ str "log").
  rewrite number_of_padded by (done || by intros ? [= <-]). destruct wants; done.
Qed.

Lemma parse_info_name s b path wants :
  ParseFileName (slash ++ InfoLogPrefix b path ++ s) (InfoLogPrefix b path) wants = parse_info_log s.
Proof.
  destruct (InfoLogPrefix_text b path) as [d Ed]. set (p := InfoLogPrefix b path) in *.
  assert (71 ∈ p) as HG by (rewrite Ed; apply elem_of_app; right; vm_compute; set_solver).
  assert (p ≠ []) as Hp by (intros E; rewrite E in HG; by apply not_elem_of_nil in HG).
  unfold ParseFileName. cbn zeta. rewrite strip_slash_cons by (intros E; by apply app_eq_nil in E as [? _]).
  rewrite starts_with_app, drop_app_length.
  assert (0 <? blen p = true) as -> by (apply Z.ltb_lt; unfold blen; destruct p; [done|simpl; lia]).
  assert (∀ lit, 71 ∉ lit → bool_decide (p ++ s = lit) = false) as Hlit.
  { intros lit Hl. apply bool_decide_eq_false_2. intros <-. apply Hl, elem_of_app. by left. }
  by rewrite !Hlit by (vm_compute; set_solver).
Qed.

Lemma parse_info_log_old n : in_range 64 n → parse_info_log (str ".old." ++ dec n) = (true, named n kInfoLogFile).
Proof.
  intros Hn. unfold parse_info_log. rewrite !bool_decide_eq_false_2.
  2: { intros E. apply (f_equal length) in E. destruct (dec_spec n Hn) as (_ & _ & Hne). destruct (dec n); [done|]. simpl in E. lia. }
  2: done.
  cbn [orb]. rewrite starts_with_app. change (drop 5 (str ".old." ++ dec n)) with (dec n).
  rewrite <- (app_nil_r (dec n)), number_of_dec by done. done.
Qed.

(** *** TableFileNameToNumber *)

Lemma number_loop_digits ds t acc base :
  Forall (λ c, is_digit c = true) ds → (∀ c, head t = Some c → is_digit c = false) → in_range 64 acc →
  number_loop (reverse ds ++ t) acc base = u64 (acc + base * dec_value ds).
Proof.
  intros Hd Ht. revert acc base. induction ds as [|c ds IH] using rev_ind; intros acc base Ha.
  - change (dec_value []) with 0. rewrite Z.mul_0_r, Z.add_0_r, wrap_small by done.
    destruct t as [|c t]; [done|]. cbn [reverse app number_loop]. change (reverse []) with (@nil Z). cbn [app].
    specialize (Ht c eq_refl). unfold is_digit in Ht. cbn [number_loop]. by rewrite Ht.
  - apply Forall_app in Hd as [Hds Hc]. rewrite Forall_singleton in Hc. rewrite reverse_snoc. cbn [app number_loop].
    assert (is_digit c = true) as Hc' by exact Hc. unfold is_digit in Hc'. rewrite Hc', IH by (done || by apply wrap_range).
    rewrite dec_value_snoc. rewrite <- (wrap_add_r 64 (wrap 64 _)), wrap_mul_l, wrap_add_r, wrap_add_l.
    rewrite <- (wrap_add_l 64 (acc + _)), wrap_add_r, wrap_add_l. f_equal. lia.
Qed.

Lemma list_find_app_first (P : Z → Prop) `{∀ x, Decision (P x)} l x t :
  (∀ y, y ∈ l → ¬ P y) → P x → list_find P (l ++ x :: t) = Some (length l, x).
Proof.
  intros Hl Hx. apply list_find_Some. split_and!; [by rewrite list_lookup_middle|done|].
  intros j y Hj Hlt. rewrite lookup_app_l in Hj by done. apply Hl. by eapply list_elem_of_lookup_2.
Qed.

Lemma TableFileNameToNumber_table path n :
  in_range 64 n → TableFileNameToNumber (MakeTableFileNameIn path n) = n.
Proof.
  intros Hn. destruct (dec_padded_spec 6 n Hn) as (Hv & Hd & _).
  unfold MakeTableFileNameIn, MakeFileNameIn. rewrite MakeFileName_text by (simpl; lia).
  set (stem := path ++ slash ++ dec_padded 6 n).
  assert (path ++ slash ++ dec_padded 6 n ++ str "." ++ kRocksDbTFileExt = stem ++ str ".sst") as ->.
  { subst stem. by rewrite <- !app_assoc. }
  unfold TableFileNameToNumber.
  assert (last_dot (stem ++ str ".sst") = blen stem) as ->.
  { unfold last_dot. rewrite reverse_app. change (reverse (str ".sst")) with ([116; 115; 115] ++ [46]). rewrite <- app_assoc. cbn [app].
    change (116 :: 115 :: 115 :: 46 :: reverse stem) with ([116; 115; 115] ++ 46 :: reverse stem).
    rewrite list_find_app_first; [|set_solver|done]. unfold blen. rewrite length_app. simpl. lia. }
  unfold blen. rewrite Nat2Z.id, take_app_length. subst stem. rewrite !reverse_app, <- app_assoc.
  rewrite number_loop_digits; [|done|by intros ? [= <-]|done].
  rewrite Hv. rewrite Z.add_0_l, Z.mul_1_l. by apply wrap_small.
Qed.

(** C38. Every file name the database makes is recognised: whatever the database
    directory and the info log prefix, ParseFileName reads the name back as
    its number and its type, and log files as live or archived.
    TableFileNameToNumber agrees on table files. *)
Theorem ParseFileName_roundtrip dbname n b path wants :
  in_range 64 n →
  let prefix := InfoLogPrefix b path in
  let parse f := ParseFileName (drop (length dbname) f) prefix wants in
  parse (LogFileNameIn dbname n) = (true, mkParsed (Some n) (Some kLogFile) (if wants then Some kAliveLogFile else None)) ∧
  parse (ArchivedLogFileName dbname n) =
    (true, mkParsed (Some n) (Some kLogFile) (if wants then Some kArchivedLogFile else None)) ∧
  parse (MakeTableFileNameIn dbname n) = (true, named n kTableFile) ∧
  parse (Rocks2LevelTableFileName (MakeTableFileNameIn dbname n)) = (true, named n kTableFile) ∧
  TableFileNameToNumber (MakeTableFileNameIn dbname n) = n ∧
  parse (BlobFileName dbname n) = (true, named n kBlobFile) ∧
  parse (DescriptorFileName dbname n) = (true, named n kDescriptorFile) ∧
  parse (TempFileName dbname n) = (true, named n kTempFile) ∧
  parse (OptionsFileName dbname n) = (true, named n kOptionsFile) ∧
  parse (TempOptionsFileName dbname n) = (true, named n kTempFile) ∧
  parse (MetaDatabaseName dbname n) = (true, named n kMetaDatabase) ∧
  parse (CurrentFileName dbname) = (true, named 0 kCurrentFile) ∧
  parse (LockFileName dbname) = (true, named 0 kDBLockFile) ∧
  parse (IdentityFileName dbname) = (true, named 0 kIdentityFile) ∧
  ParseFileName (slash ++ prefix) prefix wants = (true, named 0 kInfoLogFile) ∧
  ParseFileName (slash ++ prefix ++ str ".old." ++ snprintf 50 (dec n)) prefix wants = (true, named n kInfoLogFile).
Proof.
  intros Hn prefix parse. subst parse. cbv beta.
  pose proof (dec_padded_length 6 n ltac:(lia)) as Hlp. pose proof (dec_padded_length 0 n ltac:(lia)) as Hl0.
  change (dec_padded 0 n) with (dec n) in Hl0.
  assert (∀ suffix, 76 ∉ suffix → suffix ≠ [] → (length suffix ≤ 5)%nat →
    ParseFileName (drop (length dbname) (MakeFileNameIn dbname n suffix)) prefix wants =
    parse_numbered (dec_padded 6 n ++ str "." ++ suffix) wants) as Hmade.
  { intros suffix H1 H2 H3. unfold MakeFileNameIn. rewrite drop_app_length. by apply parse_made. }
  split_and!.
  - unfold LogFileNameIn. rewrite Hmade, parse_numbered_padded by (done || vm_compute; set_solver || lia). done.
  - unfold ArchivedLogFileName, MakeFileNameIn. rewrite <- !app_assoc, drop_app_length. by apply parse_archived.
  - unfold MakeTableFileNameIn. rewrite Hmade, parse_numbered_padded by (done || vm_compute; set_solver || lia). done.
  - unfold Rocks2LevelTableFileName, MakeTableFileNameIn, MakeFileNameIn. rewrite MakeFileName_text by (simpl; lia).
    rewrite (proj2 (Z.leb_gt _ _)) by (unfold blen; rewrite !length_app; simpl; lia).
    assert (∀ (x y : bytes), take (length (x ++ y) - length y) (x ++ y) = x) as Htake.
    { intros x y. by rewrite length_app, Nat.add_sub, take_app_length. }
    rewrite !app_assoc, Htake, <- !app_assoc, drop_app_length, <- (MakeFileName_text n kLevelDbTFileExt) by (simpl; lia).
    unfold prefix. rewrite parse_made, parse_numbered_padded by (done || vm_compute; set_solver || lia). done.
  - by apply TableFileNameToNumber_table.
  - unfold BlobFileName. rewrite Hmade, parse_numbered_padded by (done || vm_compute; set_solver || lia). done.
  - unfold DescriptorFileName. rewrite drop_app_length. unfold snprintf. rewrite take_ge by (simpl; lia). by apply parse_manifest.
  - unfold TempFileName. rewrite Hmade, parse_numbered_padded by (done || vm_compute; set_solver || lia). done.
  - unfold OptionsFileName, snprintf. rewrite drop_app_length, take_ge by (rewrite length_app; simpl; lia).
    rewrite <- (app_nil_r (dec_padded 6 n)). by apply (parse_options_name n false).
  - unfold TempOptionsFileName, snprintf. rewrite drop_app_length, take_ge by (rewrite !length_app; simpl; lia).
    by apply (parse_options_name n true).
  - unfold MetaDatabaseName, snprintf. rewrite drop_app_length, take_ge by (rewrite length_app; simpl; lia). by apply parse_metadb.
  - unfold CurrentFileName. rewrite drop_app_length. done.
  - unfold LockFileName. rewrite drop_app_length. done.
  - unfold IdentityFileName. rewrite drop_app_length. done.
  - rewrite <- (app_nil_r prefix) at 1. apply parse_info_name.
  - unfold snprintf. rewrite take_ge by lia. unfold prefix. rewrite parse_info_name. by apply parse_info_log_old.
Qed.

Lemma ParseFileName_roundtrip_witness :
  ParseFileName (str "/OPTIONS-000042.dbtmp") (InfoLogPrefix true (str "/data/db")) true = (true, named 42 kTempFile).
Proof.
  pose proof (ParseFileName_roundtrip [] 42 true (str "/data/db") true ltac:(done)) as H. cbv zeta in H.
  do 9 apply proj2 in H. exact (proj1 H).
Defined.

(** ** What is accepted *)

(** The digits [ds] write the 64-bit number [n]. *)
Definition is_number (n : Z) (ds : bytes) : Prop :=
  Forall (λ c, is_digit c = true) ds ∧ ds ≠ [] ∧ dec_value ds = n ∧ n < 2 ^ 64.

(** The documented names, and what else the parser takes: anything after the
    number of an old info log or of an OPTIONS file, any character after
    "archive", and anything after the info log prefix. In the last case
    neither the number nor the type is set. *)
Inductive accepted (prefix : bytes) : bytes → option Z → option FileType → Prop :=
  | accepted_identity : accepted prefix (str "IDENTITY") (Some 0) (Some kIdentityFile)
  | accepted_current : accepted prefix (str "CURRENT") (Some 0) (Some kCurrentFile)
  | accepted_lock : accepted prefix (str "LOCK") (Some 0) (Some kDBLockFile)
  | accepted_info_log old : old = [] ∨ old = str ".old" →
      accepted prefix (prefix ++ old) (Some 0) (Some kInfoLogFile)
  | accepted_old_info_log n ds junk : is_number n ds →
      accepted prefix (prefix ++ str ".old." ++ ds ++ junk) (Some n) (Some kInfoLogFile)
  | accepted_prefix junk : prefix ≠ [] → accepted prefix (prefix ++ junk) None None
  | accepted_manifest n ds : is_number n ds → accepted prefix (str "MANIFEST-" ++ ds) (Some n) (Some kDescriptorFile)
  | accepted_metadb n ds : is_number n ds → accepted prefix (str "METADB-" ++ ds) (Some n) (Some kMetaDatabase)
  | accepted_options n ds junk : is_number n ds →
      accepted prefix (str "OPTIONS-" ++ ds ++ junk) (Some n) (Some kOptionsFile)
  | accepted_temp_options n ds junk : is_number n ds →
      accepted prefix (str "OPTIONS-" ++ ds ++ junk ++ str ".dbtmp") (Some n) (Some kTempFile)
  | accepted_archived n c ds : is_number n ds →
      accepted prefix (str "archive" ++ c :: ds ++ str ".log") (Some n) (Some kLogFile)
  | accepted_numbered n ds suffix t : is_number n ds →
      (suffix, t) ∈ [(str "log", kLogFile); (str "sst", kTableFile); (str "ldb", kTableFile); (str "blob", kBlobFile); (str "dbtmp", kTempFile)] →
      accepted prefix (ds ++ str "." ++ suffix) (Some n) (Some t).

Lemma number_of_sound s n rest : number_of s = Some (n, rest) → ∃ ds, s = ds ++ rest ∧ is_number n ds.
Proof.
  unfold number_of. destruct (ConsumeDecimalNumber_spec s) as (E & Hd & _ & H). set (ds := (span is_digit s).1) in *.
  destruct (Z.ltb_spec (dec_value ds) (2 ^ 64)) as [Hlt|].
  - rewrite H. destruct (bool_decide (ds = [])) eqn:Eds; cbn [negb]; [done|]. intros [= <- <-]. exists ds. split; [done|].
    split_and!; [done|by apply bool_decide_eq_false_1 in Eds|done|done].
  - destruct H as [left ->]. done.
Qed.

Lemma parse_info_log_sound prefix rest o :
  prefix ≠ [] → parse_info_log rest = (true, o) → accepted prefix (prefix ++ rest) (number_ o) (type_ o).
Proof.
  intros Hp. unfold parse_info_log. destruct (bool_decide (rest = [])) eqn:E1.
  { apply bool_decide_eq_true_1 in E1 as ->. intros [= <-]. apply accepted_info_log. by left. }
  destruct (bool_decide (rest = str ".old")) eqn:E2; cbn [orb].
  { apply bool_decide_eq_true_1 in E2 as ->. intros [= <-]. apply accepted_info_log. by right. }
  destruct (starts_with rest (str ".old.")) eqn:E3.
  - apply starts_with_split in E3. change (length (str ".old.")) with 5%nat in E3.
    destruct (number_of (drop 5 rest)) as [[n junk]|] eqn:En; [|done]. intros [= <-].
    apply number_of_sound in En as (ds & Ed & Hn). rewrite E3, Ed. by apply accepted_old_info_log.
  - intros [= <-]. by apply accepted_prefix.
Qed.

Lemma parse_only_number_sound s t o :
  parse_only_number s t = (true, o) → ∃ n, is_number n s ∧ o = named n t.
Proof.
  unfold parse_only_number. destruct (number_of s) as [[n [|c rest]]|] eqn:En; [|done..].
  intros [= <-]. apply number_of_sound in En as (ds & -> & Hn). rewrite app_nil_r. eauto.
Qed.

Lemma parse_options_sound prefix s o :
  parse_options s = (true, o) → accepted prefix (str "OPTIONS-" ++ s) (number_ o) (type_ o).
Proof.
  unfold parse_options. destruct (ends_with s (str "." ++ kTempFileNameSuffix)) eqn:Ee.
  - apply ends_with_split in Ee. set (body := take _ s) in *. destruct (number_of body) as [[n junk]|] eqn:En; [|done].
    intros [= <-]. apply number_of_sound in En as (ds & Ed & Hn). rewrite Ee, Ed, <- app_assoc. by apply accepted_temp_options.
  - destruct (number_of s) as [[n junk]|] eqn:En; [|done]. intros [= <-].
    apply number_of_sound in En as (ds & -> & Hn). by apply accepted_options.
Qed.

Lemma dot_suffix rest : (blen rest <=? 1) || negb (byte_at rest 0 =? 46) = false → rest = str "." ++ drop 1 rest.
Proof.
  intros [H1 H2]%orb_false_iff. apply negb_false_iff in H2. apply Z.eqb_eq in H2. destruct rest as [|c rest]; [done|].
  unfold byte_at in H2. simpl in H2. by subst c.
Qed.

Lemma parse_numbered_sound prefix s wants o :
  parse_numbered s wants = (true, o) → accepted prefix s (number_ o) (type_ o).
Proof.
  unfold parse_numbered. destruct (starts_with s ARCHIVAL_DIR) eqn:Ea; cbn [andb negb].
  - apply starts_with_split in Ea. destruct (Z.leb_spec (blen s) (blen ARCHIVAL_DIR)) as [|Hl]; [done|].
    change (length ARCHIVAL_DIR) with 7%nat in *. cbn [Nat.add].
    destruct (number_of (drop 8 s)) as [[n rest]|] eqn:En; [|done].
    destruct ((blen rest <=? 1) || _) eqn:Ed; [done|]. apply dot_suffix in Ed.
    destruct (bool_decide (drop 1 rest = str "log")) eqn:El; [|done]. apply bool_decide_eq_true_1 in El. intros [= <-].
    apply number_of_sound in En as (ds & Eds & Hn). rewrite El in Ed.
    destruct (drop 7 s) as [|c t] eqn:E7.
    { apply (f_equal length) in E7. rewrite length_drop in E7. unfold blen in Hl. simpl in Hl, E7. lia. }
    assert (drop 8 s = t) as E8 by (change 8%nat with (7 + 1)%nat; rewrite <- drop_drop, E7; done).
    rewrite Ea, <- E8, Eds, Ed. by apply accepted_archived.
  - destruct (number_of s) as [[n rest]|] eqn:En; [|done]. destruct ((blen rest <=? 1) || _) eqn:Ed; [done|].
    apply dot_suffix in Ed. apply number_of_sound in En as (ds & -> & Hn). set (suffix := drop 1 rest) in *.
    assert (∀ t, (suffix, t) ∈ [(str "log", kLogFile); (str "sst", kTableFile); (str "ldb", kTableFile); (str "blob", kBlobFile);
      (str "dbtmp", kTempFile)] → accepted prefix (ds ++ rest) (Some n) (Some t)) as Ht
      by (intros t Hin; rewrite Ed; by apply accepted_numbered).
    destruct (bool_decide (suffix = str "log")) eqn:E1; [|destruct (bool_decide (suffix = kRocksDbTFileExt)) eqn:E2;
      [|destruct (bool_decide (suffix = kLevelDbTFileExt)) eqn:E3; [|destruct (bool_decide (suffix = kRocksDBBlobFileExt)) eqn:E4;
      [|destruct (bool_decide (suffix = kTempFileNameSuffix)) eqn:E5]]]];
      cbn [orb]; intros [= <-]; apply Ht;
      repeat match goal with E : bool_decide _ = true |- _ => apply bool_decide_eq_true_1 in E as -> end; set_solver.
Qed.

(** Nothing else is accepted: when ParseFileName answers true, the name
    (without a leading '/') has one of the listed forms, and the number and
    the type are those of the form. One form sets neither: any other text
    after the info log prefix. *)
Theorem ParseFileName_sound fname prefix wants o :
  ParseFileName fname prefix wants = (true, o) → accepted prefix (strip_slash fname) (number_ o) (type_ o).
Proof.
  unfold ParseFileName. cbn zeta. set (rest := strip_slash fname).
  destruct (bool_decide (rest = str "IDENTITY")) eqn:E1.
  { apply bool_decide_eq_true_1 in E1 as ->. intros [= <-]. constructor. }
  destruct (bool_decide (rest = str "CURRENT")) eqn:E2.
  { apply bool_decide_eq_true_1 in E2 as ->. intros [= <-]. constructor. }
  destruct (bool_decide (rest = str "LOCK")) eqn:E3.
  { apply bool_decide_eq_true_1 in E3 as ->. intros [= <-]. constructor. }
  destruct ((0 <? blen prefix) && starts_with rest prefix) eqn:E4.
  { apply andb_true_iff in E4 as [Hp ->%starts_with_split]. intros H. apply parse_info_log_sound; [|by rewrite drop_app_length in H].
    by intros ->. }
  destruct (starts_with rest (str "MANIFEST-")) eqn:E5.
  { apply starts_with_split in E5. intros (n & Hn & ->)%parse_only_number_sound. rewrite E5. by apply accepted_manifest. }
  destruct (starts_with rest (str "METADB-")) eqn:E6.
  { apply starts_with_split in E6. intros (n & Hn & ->)%parse_only_number_sound. rewrite E6. by apply accepted_metadb. }
  destruct (starts_with rest kOptionsFileNamePrefix) eqn:E7.
  { apply starts_with_split in E7. intros H. rewrite E7. by apply parse_options_sound. }
  apply parse_numbered_sound.
Qed.

Lemma ParseFileName_sound_witness :
  accepted (str "LOG") (str "OPTIONS-000007junk") (Some 7) (Some kOptionsFile) ∧ accepted (str "LOG") (str "LOGjunk") None None.
Proof.
  split.
  - apply (ParseFileName_sound (str "OPTIONS-000007junk") (str "LOG") true (named 7 kOptionsFile)). vm_compute. reflexivity.
  - apply (ParseFileName_sound (str "/LOGjunk") (str "LOG") true untouched). vm_compute. reflexivity.
Defined.

(** A listing: the file after an info log is taken for one when its name only
    starts with the prefix. *)
Lemma info_logs_junk : info_logs (str "LOG") [str "LOG"; str "LOG_backup"] kLogFile = [str "LOG"; str "LOG_backup"].
Proof. vm_compute. reflexivity. Qed.
Lemma info_logs_order : info_logs (str "LOG") [str "LOG_backup"; str "LOG"] kLogFile = [str "LOG"].
Proof. vm_compute. reflexivity. Qed.
