(* ===== verification/CurrentFile.v ===== *)
(** * Pointing CURRENT at a manifest (SetCurrentFile, file/filename.cc)

    What the protocol guarantees on any file system that does what FileSystem
    documents: an operation that reports success has its effect, and no
    operation touches a file it was not given. What a failed rename leaves of its
    target is not documented: PosixFileSystem's (env/fs_posix.cc) leaves it as it
    was, HdfsEnv's (env/env_hdfs.cc) does not; both are modelled over the calls
    they make. *)
From S2P Require Import Prelude Decimal Status StringUtil StringUtilCorrect Filename FilenameCorrect.

(** ** What a file system promises *)

(** [content]: the files and what is in them. A failed operation may leave
    anything in the files it was given. *)
Class FileSystemLaws (F : Type) `{FileSystem F} := {
  content : F → bytes → option bytes;
  new_frame f fs g : g ≠ f → content (NewWritableFile f fs).2 g = content fs g;
  new_ok f fs : ok (NewWritableFile f fs).1 = true → content (NewWritableFile f fs).2 f = Some [];
  append_frame f d fs g : g ≠ f → content (Append f d fs).2 g = content fs g;
  append_ok f d fs : ok (Append f d fs).1 = true → content (Append f d fs).2 f = (λ c, c ++ d) <$> content fs f;
  sync_frame f fs g : g ≠ f → content (Sync f fs).2 g = content fs g;
  sync_ok f fs : ok (Sync f fs).1 = true → content (Sync f fs).2 f = content fs f;
  rename_ok src dst fs : src ≠ dst → ok (RenameFile src dst fs).1 = true →
    ∀ g, content (RenameFile src dst fs).2 g =
      if decide (g = dst) then content fs src else if decide (g = src) then None else content fs g;
  rename_frame src dst fs g : g ≠ src → g ≠ dst → content (RenameFile src dst fs).2 g = content fs g;
  delete_frame f fs g : g ≠ f → content (DeleteFile f fs).2 g = content fs g;
  fsync_frame fs g : content (FsyncDirectory fs).2 g = content fs g;
}.

Section protocol.
Context {F : Type} `{FileSystemLaws F}.
Implicit Types fs : F.

(** WriteStringToFile touches its file only, and on success that file holds the
    data. *)
Lemma WriteStringToFile_spec data f sync fs :
  let r := WriteStringToFile data f sync fs in
  (∀ g, g ≠ f → content r.2 g = content fs g) ∧ (ok r.1 = true → content r.2 f = Some data).
Proof.
  unfold WriteStringToFile. destruct (ok (NewWritableFile f fs).1) eqn:E1; cbn [negb].
  2: { split; [intros g Hg; by apply new_frame|congruence]. }
  set (fs1 := (NewWritableFile f fs).2).
  assert (∀ g, g ≠ f → content fs1 g = content fs g) as F1 by (intros; by apply new_frame).
  assert (content fs1 f = Some []) as C1 by by apply new_ok.
  set (r2 := Append f data fs1).
  assert (∀ g, g ≠ f → content r2.2 g = content fs g) as F2 by (intros; rewrite <- F1 by done; by apply append_frame).
  set (r3 := if ok r2.1 && sync then Sync f r2.2 else r2).
  assert (∀ g, g ≠ f → content r3.2 g = content fs g) as F3.
  { intros g Hg. subst r3. destruct (ok r2.1 && sync); [|by apply F2]. rewrite sync_frame by done. by apply F2. }
  destruct (ok r3.1) eqn:E3; cbn [negb].
  - split; [done|]. intros _.
    assert (ok r2.1 = true) as E2 by (subst r3; destruct (ok r2.1) eqn:E2; [done|cbn [andb] in E3; congruence]).
    assert (content r2.2 f = Some data) as C2 by (subst r2; rewrite append_ok, C1 by done; done).
    subst r3. rewrite E2 in *. cbn [andb] in *. destruct sync; [|done]. by rewrite sync_ok.
  - cbn [fst snd]. split; [|congruence]. intros g Hg. rewrite delete_frame by done. by apply F3.
Qed.

Lemma TempFileName_not_current dbname n : TempFileName dbname n ≠ CurrentFileName dbname.
Proof.
  unfold TempFileName, CurrentFileName, MakeFileNameIn. rewrite MakeFileName_text by (simpl; lia). intros E.
  apply app_inv_head, (f_equal reverse) in E. rewrite !reverse_app in E. discriminate E.
Qed.

Lemma manifest_parses dbname n :
  in_range 64 n →
  ParseFileName (drop (length dbname + 1) (DescriptorFileName dbname n)) (InfoLogPrefix false []) false = (true, named n kDescriptorFile).
Proof.
  intros Hn. assert (drop (length dbname + 1) (DescriptorFileName dbname n) = str "MANIFEST-" ++ dec_padded 6 n) as ->.
  { unfold DescriptorFileName, snprintf.
    rewrite take_ge by (pose proof (dec_padded_length 6 n ltac:(lia)); rewrite length_app; simpl; lia).
    rewrite <- drop_drop, drop_app_length. done. }
  rewrite <- (parse_manifest n false [] false Hn). apply ParseFileName_strip.
  change (str "/MANIFEST-" ++ dec_padded 6 n) with (slash ++ str "MANIFEST-" ++ dec_padded 6 n).
  rewrite strip_slash_cons by done. apply strip_slash_other with 77; [done|lia].
Qed.

(** C39. SetCurrentFile prepares the new contents aside and then renames once.
    If the preparation fails, it reports so and CURRENT is what it was. If the
    rename succeeds, CURRENT holds exactly the new manifest's name and a
    newline, which ParseFileName reads back as that manifest, and the temporary
    file is gone; success is reported in no other case. If the rename fails, that
    is reported, and CURRENT is what the failed rename left: so wherever a failed
    rename leaves its target alone, CURRENT holds what it held or exactly the new
    name, whichever operations fail. No other file but the temporary one is
    touched. *)
Theorem SetCurrentFile_atomic dbname n sync_directory fs :
  in_range 64 n →
  let cur := CurrentFileName dbname in
  let tmp := TempFileName dbname n in
  let manifest := drop (length dbname + 1) (DescriptorFileName dbname n) in
  let written := WriteStringToFile (manifest ++ [10]) tmp true fs in
  let renamed := RenameFile tmp cur written.2 in
  let r := SetCurrentFile dbname n sync_directory fs in
  (if ok written.1 then
     if ok renamed.1 then
       content r.2 cur = Some (manifest ++ [10]) ∧ content r.2 tmp = None ∧
       (sync_directory = false → ok r.1 = true)
     else ok r.1 = false ∧ content r.2 cur = content renamed.2 cur
   else ok r.1 = false ∧ content r.2 cur = content fs cur) ∧
  ((ok renamed.1 = false → content renamed.2 cur = content written.2 cur) →
   content r.2 cur = content fs cur ∧ ok r.1 = false ∨ content r.2 cur = Some (manifest ++ [10])) ∧
  (∀ g, g ≠ cur → g ≠ tmp → content r.2 g = content fs g) ∧
  ParseFileName manifest (InfoLogPrefix false []) false = (true, named n kDescriptorFile).
Proof.
  intros Hn cur tmp manifest w rn r. pose proof (TempFileName_not_current dbname n) as Hne. fold tmp cur in Hne.
  assert (ParseFileName manifest (InfoLogPrefix false []) false = (true, named n kDescriptorFile)) as Hp by by apply manifest_parses.
  destruct (WriteStringToFile_spec (manifest ++ [10]) tmp true fs) as [W1 W2]. fold w in W1, W2.
  subst r. unfold SetCurrentFile. fold manifest tmp cur w. cbn zeta.
  destruct (ok w.1) eqn:Ew.
  - specialize (W2 eq_refl). fold rn. destruct (ok rn.1) eqn:Er.
    + pose proof (rename_ok tmp cur w.2 Hne Er) as Hr. fold rn in Hr.
      assert (∀ g, content (if sync_directory then FsyncDirectory rn.2 else rn).2 g = content rn.2 g) as Hf
        by (intros g; destruct sync_directory; [apply fsync_frame|done]).
      assert (content (if sync_directory then FsyncDirectory rn.2 else rn).2 cur = Some (manifest ++ [10])) as Hc
        by by rewrite Hf, (Hr cur), decide_True.
      refine (conj (conj Hc (conj _ _)) (conj (λ _, or_intror Hc) (conj _ Hp))).
      * by rewrite Hf, (Hr tmp), decide_False, decide_True by done.
      * by intros ->.
      * intros g H1 H2. rewrite Hf, Hr, !decide_False by done. by apply W1.
    + assert (∀ g, g ≠ tmp → content (DeleteFile tmp rn.2).2 g = content rn.2 g) as Hd
        by (intros g Hg; by apply delete_frame).
      cbn [fst snd]. refine (conj (conj Er _) (conj _ (conj _ Hp))).
      * by apply Hd.
      * intros Hk. left. split; [|exact Er]. rewrite Hd, Hk by done. by apply W1.
      * intros g H1 H2. rewrite Hd by done. unfold rn. rewrite rename_frame by done. by apply W1.
  - rewrite Ew. cbn [fst snd].
    assert (∀ g, g ≠ tmp → content (DeleteFile tmp w.2).2 g = content fs g) as Hd
      by (intros g Hg; rewrite delete_frame by done; by apply W1).
    refine (conj (conj Ew _) (conj (λ _, or_introl (conj _ Ew)) (conj _ Hp))); [by apply Hd|by apply Hd|].
    intros g _ Hg. by apply Hd.
Qed.
End protocol.

(** ** Two implementations of the rename *)

Section renames.
(** The C library's [strerror], and the calls: they return 0 or an [errno]. *)
Context {F : Type} (strerror : Z → bytes).
Context (rename hdfsRename : bytes → bytes → F → Z * F) (hdfsDelete : bytes → F → Z * F).

Definition ENOENT : Z := 2.
Definition ENOSPC : Z := 28.
Definition ESTALE : Z := 116.

Definition IOErrorMsg (context file_name : bytes) : bytes :=
  match file_name with [] => context | _ => context ++ str ": " ++ file_name end.
Definition Posix_IOError (context file_name : bytes) (err_number : Z) : Status :=
  if err_number =? ENOSPC then StatusMsg kIOError kNoSpace (IOErrorMsg context file_name) (strerror err_number)
  else if err_number =? ESTALE then IOError kStaleFile
  else if err_number =? ENOENT then StatusMsg kIOError kPathNotFound (IOErrorMsg context file_name) (strerror err_number)
  else StatusMsg kIOError kNone (IOErrorMsg context file_name) (strerror err_number).
Definition Posix_RenameFile (src target : bytes) (fs : F) : Status * F :=
  let '(err, fs) := rename src target fs in
  if negb (err =? 0) then (Posix_IOError (str "While renaming a file to " ++ target) src err, fs) else (OK, fs).

Definition Hdfs_IOError (context : bytes) (err_number : Z) : Status :=
  if err_number =? ENOSPC then StatusMsg kIOError kNoSpace context (strerror err_number)
  else if err_number =? ENOENT then StatusMsg kIOError kPathNotFound context (strerror err_number)
  else StatusMsg kIOError kNone context (strerror err_number).
Definition Hdfs_RenameFile (src target : bytes) (fs : F) : Status * F :=
  let fs := (hdfsDelete target fs).2 in
  let '(err, fs) := hdfsRename src target fs in
  if err =? 0 then (OK, fs) else (Hdfs_IOError src err, fs).

Lemma Posix_RenameFile_result src target fs :
  ok (Posix_RenameFile src target fs).1 = ((rename src target fs).1 =? 0) ∧
  (Posix_RenameFile src target fs).2 = (rename src target fs).2.
Proof.
  unfold Posix_RenameFile. destruct (rename src target fs) as [err fs']. cbn [fst snd].
  destruct (err =? 0); cbn [negb fst snd]; [done|]. unfold Posix_IOError. by repeat case_match.
Qed.
End renames.

(** ** A file system that fails at a given operation *)

Record TestFS := mkTestFS { files : gmap bytes bytes; countdown : nat }.
(** One operation: [f] unless its turn to fail has come. *)
Definition attempt (f : gmap bytes bytes → gmap bytes bytes) (fs : TestFS) : Status * TestFS :=
  match countdown fs with
  | O => (IOError kNone, mkTestFS (files fs) 0)
  | S k => (OK, mkTestFS (f (files fs)) k)
  end.

Definition renamed (src dst : bytes) (m : gmap bytes bytes) : gmap bytes bytes :=
  match m !! src with Some c => <[dst := c]> (delete src m) | None => delete dst (delete src m) end.
(** The calls of the C library and of libhdfs, by their return values. *)
Definition test_rename (src dst : bytes) (fs : TestFS) : Z * TestFS :=
  let r := attempt (renamed src dst) fs in (if ok r.1 then 0 else 5, r.2).
Definition test_delete (f : bytes) (fs : TestFS) : Z * TestFS :=
  let r := attempt (delete f) fs in (if ok r.1 then 0 else 5, r.2).

#[export] Instance TestFS_FileSystem : FileSystem TestFS := {
  NewWritableFile f := attempt (λ m, <[f := []]> m);
  Append f d := attempt (alter (λ c, c ++ d) f);
  Sync _ := attempt id;
  RenameFile := Posix_RenameFile (λ _, []) test_rename;
  DeleteFile f := attempt (delete f);
  FsyncDirectory := attempt id;
  GetChildren _ fs := ((OK, (map fst (map_to_list (files fs)))), fs);
  GenerateUniqueId fs := (str "id", fs);
}.

Lemma attempt_frame f fs (g : bytes) : (∀ m, f m !! g = m !! g) → files (attempt f fs).2 !! g = files fs !! g.
Proof. intros Hf. unfold attempt. destruct (countdown fs); [done|apply Hf]. Qed.
Lemma attempt_ok f fs : ok (attempt f fs).1 = true → files (attempt f fs).2 = f (files fs).
Proof. unfold attempt. by destruct (countdown fs). Qed.
Lemma attempt_failed f fs : ok (attempt f fs).1 = false → files (attempt f fs).2 = files fs.
Proof. unfold attempt. by destruct (countdown fs). Qed.

#[export] Instance TestFS_laws : FileSystemLaws TestFS.
Proof.
  refine {| content := λ fs f, files fs !! f |}; cbn [NewWritableFile Append Sync RenameFile DeleteFile FsyncDirectory TestFS_FileSystem].
  - intros f fs g Hg. apply attempt_frame. intros m. by rewrite lookup_insert_ne.
  - intros f fs Hok. rewrite attempt_ok by done. apply lookup_insert_eq.
  - intros f d fs g Hg. apply attempt_frame. intros m. by rewrite lookup_alter_ne.
  - intros f d fs Hok. rewrite attempt_ok by done. apply lookup_alter_eq.
  - intros f fs g Hg. by apply attempt_frame.
  - intros f fs Hok. by rewrite attempt_ok.
  - intros src dst fs Hne. destruct (Posix_RenameFile_result (λ _, []) test_rename src dst fs) as [-> ->].
    unfold test_rename. cbn [fst snd]. destruct (ok (attempt (renamed src dst) fs).1) eqn:Hok; [|done]. intros _ g.
    rewrite attempt_ok by done. unfold renamed.
    destruct (decide (g = dst)) as [->|Hd]; destruct (files fs !! src) eqn:E.
    + by rewrite lookup_insert_eq.
    + by rewrite lookup_delete_eq.
    + rewrite lookup_insert_ne by done. destruct (decide (g = src)) as [->|]; [apply lookup_delete_eq|by apply lookup_delete_ne].
    + rewrite lookup_delete_ne by done. destruct (decide (g = src)) as [->|]; [apply lookup_delete_eq|by apply lookup_delete_ne].
  - intros src dst fs g Hs Hd. destruct (Posix_RenameFile_result (λ _, []) test_rename src dst fs) as [_ ->].
    unfold test_rename. cbn [snd]. apply attempt_frame. intros m. unfold renamed.
    destruct (m !! src); [rewrite lookup_insert_ne by done; by apply lookup_delete_ne|].
    rewrite !lookup_delete_ne by done. done.
  - intros f fs g Hg. apply attempt_frame. intros m. by rewrite lookup_delete_ne.
  - intros fs g. by apply attempt_frame.
Defined.

Lemma test_rename_keeps src dst fs g :
  ok (RenameFile src dst fs).1 = false → content (RenameFile src dst fs).2 g = content fs g.
Proof.
  cbn [RenameFile TestFS_FileSystem]. destruct (Posix_RenameFile_result (λ _, []) test_rename src dst fs) as [-> ->].
  unfold test_rename. cbn [fst snd]. destruct (ok (attempt (renamed src dst) fs).1) eqn:Hok; [done|]. intros _.
  cbn [content TestFS_laws]. by rewrite attempt_failed.
Qed.

(** The rename, the fourth operation, fails: CURRENT is as it was. *)
Lemma SetCurrentFile_atomic_witness :
  let fs := mkTestFS {[str "db/CURRENT" := str "MANIFEST-000001" ++ [10]]} 3 in
  let r := SetCurrentFile (str "db") 7 false fs in
  ok r.1 = false ∧ files r.2 !! str "db/CURRENT" = Some (str "MANIFEST-000001" ++ [10]).
Proof.
  intros fs r. destruct (SetCurrentFile_atomic (str "db") 7 false fs) as (_ & H & _); [vm_compute; split; congruence|].
  assert (ok r.1 = false) as Ef by (vm_compute; reflexivity). split; [exact Ef|].
  destruct H as [[H _]|H]; [intros Hf; by apply test_rename_keeps|exact H|]. exfalso.
  assert (files r.2 !! str "db/CURRENT" = Some (str "MANIFEST-000001" ++ [10])) as E by (vm_compute; reflexivity).
  change (files r.2 !! str "db/CURRENT" = Some (str "MANIFEST-000007" ++ [10])) in H. rewrite E in H. discriminate H.
Defined.

(** The same failure on HDFS, where the rename deletes its target first: the
    call reports the error and CURRENT is gone. *)
Definition hdfs_test : FileSystem TestFS := {|
  NewWritableFile := NewWritableFile; Append := Append; Sync := Sync;
  RenameFile := Hdfs_RenameFile (λ _, []) test_rename test_delete;
  DeleteFile := DeleteFile; FsyncDirectory := FsyncDirectory; GetChildren := GetChildren; GenerateUniqueId := GenerateUniqueId;
|}.
Lemma Hdfs_rename_loses_CURRENT :
  let fs := mkTestFS {[str "db/CURRENT" := str "MANIFEST-000001" ++ [10]]} 4 in
  let r := SetCurrentFile (H := hdfs_test) (str "db") 7 false fs in
  ok r.1 = false ∧ files r.2 !! str "db/CURRENT" = None.
Proof. split; vm_compute; reflexivity. Qed.
